(* ===== verification/_CoqProject ===== *)
-Q . S2P
Prelude.v
Encoding.v
Codec.v
Comparator.v
Format.v
Bloom.v
Block.v
SstEntry.v
Wal.v
WalLog.v
Manifest.v
Catalog.v
Snapshot.v
RangeTombstone.v
ReadPath.v
Heap.v
Cursor.v
Merge.v
MemIter.v
Memtable.v
Scan.v
ScanGroup.v
ScanIter.v
CfScan.v
DataBlock.v
TableWriter.v
TableReader.v
SstTable.v
SstIter.v
FileScan.v
Compaction.v
LevelOutput.v
Txn.v
Prepared.v
Commit.v
Publish.v
TxnLock.v
