(* ===== verification/Prelude.v ===== *)
(** * ondaDB: a verification development

    ondaDB is an embedded key/value engine on a log-structured merge tree.
    This library models the parts of it that decide what a reader sees and what
    survives a crash, as executable definitions translated from the Rust
    sources under src/src/, and proves them correct.

    ** The program and how its parts meet

    A transaction ([txn.rs]) buffers writes, reads them back before the store,
    and commits: it reserves one sequence number per record ([db.rs]), appends
    the records to the write-ahead log ([wal.rs]), puts them in the memtable of
    each column family, and publishes the range of sequences.  Readers read at
    a published sequence: [column_family.rs] selects memtables and tables and
    resolves the newest version, range tombstones ([range_tombstone.rs]) and
    merge operands included.  Compaction ([compaction.rs]) rewrites tables and
    drops what no snapshot can see; the oldest pinned snapshot is its floor.
    A table ([sst/]) is a file of framed blocks ([block.rs]) of sorted entries,
    with a filter ([bloom.rs]), an index and a footer, and a second file for
    large values.  The set of tables is the catalog, an edit log ([manifest_edit.rs]) over a
    snapshot file ([manifest.rs]).  After a crash the catalog is recovered from
    snapshot and edits, and the memtables from the log.  Every format is built
    on the codecs of [encoding.rs] and the identifiers of [format.rs], and every
    ordered structure on a comparator ([comparator.rs]).

    ** Files

    - [Prelude]: bytes, machine widths, the error type of [error.rs] and its
      codes, the [result] monad, std's slice and sorting functions, the shared
      lemmas, tactics and hint databases.
    - [Encoding] ([encoding.rs]): varints, zig-zag varints, little-endian words.
    - [Codec]: decoders over a byte cursor, and the judgement [decodes] in which
      every round trip below is stated and composed.
    - [Comparator] ([comparator.rs]): the trait as a record, its contract as the
      class [TotalOrder], the built-in comparators as instances, resolution by
      name, and the order solver [korder].
    - [Format] ([format.rs]): entry flags, record kinds, capabilities, family
      ids, internal keys.
    - [Bloom] ([bloom.rs]): the filter, its probes and its encoding.
    - [Block] ([block.rs], [compress.rs], [sst/mod.rs], [sst/reader.rs]): framed
      blocks and their codecs, footer, auxiliary sections, value log.
    - [SstEntry] ([sst/mod.rs]): the layouts of one entry, prefix-delta entries
      and their restart points.
    - [Wal] ([wal.rs]): records, payloads, control frames, framing, replay.
    - [WalLog] ([wal.rs]): the append side (stripes, group commit, buffers,
      sync) as a transition system over the file, with failing writes.
    - [Manifest] ([manifest.rs], [manifest_edit.rs]): catalog records, edits,
      their codec and the framing of the edit log.
    - [Catalog] ([manifest_edit.rs], [db.rs]): validating, applying, replaying
      and recovering edits; the append / snapshot / replace protocol with
      crashes between its steps, over any publication in memory.
    - [Snapshot] ([manifest.rs]): the catalog snapshot file.
    - [RangeTombstone] ([range_tombstone.rs]): the set of a memtable, its
      fragments, their section codec and the cursors of a scan.
    - [ReadPath] ([column_family.rs], [memtable.rs], [sst/reader.rs]): a point
      read from the selection of its sources to its value.
    - [Heap], [Cursor], [Merge] ([iterator.rs], [memtable.rs]): the index heaps
      of the merging iterators, the interface [Cursor] of their children, and
      the k-way merge of a scan as the stream of entries it has still to visit.
    - [MemIter], [Memtable] ([memtable.rs]): the lazy iterator over the shards
      of a memtable, which implements [Cursor]; the shards, filter, counters and
      the counting sort of a batch, as the sorted run that reads assume.
    - [Scan], [ScanGroup], [ScanIter] ([iterator.rs]): the public iterator; the
      versions of one key folded in either direction; an iterator as a position
      in the list of visible keys.
    - [CfScan] ([column_family.rs]): the children and the range mask of a scan
      of a family.
    - [DataBlock] ([sst/reader.rs], [sst/writer.rs]): the entries of a data
      block, its restart trailer and the search inside it.
    - [TableWriter] ([sst/writer.rs]): the writer, entry by entry, to the bytes
      of both files, and the invariant it keeps.
    - [TableReader] ([sst/reader.rs]): opening a file, its flat or tree index,
      and the point lookup.
    - [SstTable]: the two together; a table file is the sorted run it was
      written from.
    - [SstIter] ([sst/iter.rs]): the iterator over a table file, which
      implements [Cursor], blocks of prefix-delta entries and their decoded runs
      included.
    - [FileScan] ([iterator.rs]): the children of a scan as the iterators of
      memtables and of table files; a whole scan through the bytes on disk.
    - [Compaction] ([compaction.rs]): one span of a compaction, from the merged
      inputs to the tables it writes.
    - [LevelOutput] ([compaction.rs], [sst/writer.rs]): those tables as the
      writer writes and the catalog records them, as a level of [ReadPath].
    - [Txn] ([txn.rs]): the write buffer of a transaction, its index, its reads,
      its savepoints, and the order and records of its commit.
    - [Prepared] ([prepared.rs]): the registry of prepared transactions and the
      retirement of the log generations that hold them.
    - [Commit] ([txn.rs], [span_index.rs], [db.rs], [column_family.rs]): the
      conflict checks, commit, prepare and their resolution, as steps of
      interleaved transactions.
    - [Publish] ([db.rs], [snapshot.rs], [parts.rs]): reservation, publication,
      snapshot pins, the compaction floor and mounts under interleaving.
    - [TxnLock] ([txn_lock.rs]): the point locks of pessimistic transactions.

    ** How the code is modelled

    A method is a function from the state to the result and the new state, in
    the order and with the guards of the source; errors are values of
    [result] whose [OndaError] keeps the variant and drops the message.  Code
    under a lock is one atomic step, and concurrent components ([Publish],
    [TxnLock], [WalLog], [Catalog], [Commit]) are inductive step relations whose
    properties hold in every reachable state.  Sequence numbers, lengths and
    times are [Z] with their width as a predicate where it matters and the
    wrap-around written out where the code wraps.  A memtable or a table is the
    sorted run of entries that its lookups walk: [SstTable] proves it of the
    bytes on disk and [Memtable] of the shards.

    Code outside the sources is a parameter with its documented behaviour as
    hypothesis: checksums and hashes are arbitrary functions, compression
    libraries invert what they produced (class [CodecsInvert]), the outcome of
    every file-system call is an argument, merge operators and compaction
    filters are functions, the operator's contract of associativity is
    [merge_assoc], and custom comparators are any instance of [TotalOrder].

    ** What the theorems show

    - Durability.  [wal_crash_atomic], [wal_recovers_acknowledged],
      [recovery_rebuilds_catalog] and [recovered_catalog_well_formed]: after any
      crash a stripe of the log replays a prefix of whole batches that holds
      every acknowledged one, up to its first failed write; the catalog
      recovered is the snapshot with exactly the edits recorded since, which is
      the catalog in memory when transactions publish what their edits say.
    - Visibility.  [visible_gap_free] and [gc_floor_never_passed]: without live
      mounts readers never see past an unpublished commit, and compaction
      never drops what a reader can still ask for.
    - Reads.  [point_read_correct], [range_set_covering_seq_correct],
      [fragment_spans_correct], [range_mask_correct]: the optimised read paths
      return the fold of all versions, the reference [read_all]; for a point
      read, of every key that no range delete of a deeper level covers from
      before the first key of its table.
    - Tables.  [table_refines_run]: what the writer wrote opens, and every
      lookup in it answers as the run of entries it was given, for every layout,
      index, filter and compression setting; with [point_read_correct] a read
      through files is the fold of the versions written.
      [table_iterator_refines_run]: the iterator over it shows that run in both
      directions, and an unreadable block is an error, never a gap.
    - Memtables.  [memtable_refines_run]: whatever the hash, the reads and the
      iterator of a memtable are those of the sorted run of its records;
      [put_batch_is_puts]: a batch is its records one at a time.
    - Scans.  [scan_refines]: through positioning calls in both directions that
      step from valid positions and seek inside the bounds an iterator is a
      position in the list of visible keys, or reports an error that has a
      cause; [files_scan_agrees_with_get]: a bounded scan of a family, over its
      memtables and table files, shows the keys for which the fold of all
      stored versions has a value, and [get] is that fold where
      [point_read_correct] holds.
    - Compaction.  [compaction_preserves_reads], [compaction_outputs_disjoint]
      and [compaction_completes]: without a filter, and with no expired put above
      the oldest snapshot at the bottom, outputs read like inputs at every live
      snapshot; they are disjoint, and the loop always ends;
      [outputs_form_level]: written and recorded, they are a level that reads
      accept.
    - Transactions.  [own_reads_survive_commit], [rollback_restores],
      [index_reads_as_scan], [ttl_to_abs_bounds]; [first_committer_wins], over
      stores that kept the versions above the snapshot, and
      [reservations_hold] for conflicts in every interleaving;
      [wal_gens_retired_in_order] for what keeps a prepare recoverable;
      [locks_no_deadlock], [lock_table_consistent], [release_hands_off_fifo] for
      their locks.
    - Formats.  The round trips and decoder totality of [Encoding], [Format],
      [Wal], [Manifest], [Snapshot] and the fragment section.
    - Behaviour that departs from the intent.  [failed_append_hides_later_commits],
      [expired_drop_resurrects], [tombstone_before_first_key_missed],
      [merge_order_loses_range], [enable_hides_conflict], [prepared_write_skew],
      [prepare_pinned_too_late], [mapped_block_trusts_raw_len],
      [mount_wedges_watermark] and [prev_surfaces_past_upper_bound] exhibit runs of the model in which the code does
      not do what its comments say; the second half of [ttl_to_abs_bounds] is
      another.

    ** Fuel and bounds

    Recursion is structural wherever the source iterates over a sequence.
    Fuel appears in: the varint loop (ten bytes, the source's own bound); the
    scan of the edit log and the replay of a segment (the number of bytes, as
    every round consumes a frame header; [edit_scan_total_and_stable] shows the
    bound is never reached); the binary searches (the length of the slice);
    the compaction loop (one more than the entries of the inputs; running out
    is an outcome of its own, [None], and [compaction_completes] shows that it
    does not happen); the walk of an index
    chain (one more than the length of the buffer, as every link goes down);
    the scan of a data block (its length, as every entry takes a byte), the
    search of its restart points (their number), the levels of a tree index
    (the nodes of the level below, as a level has fewer) and the walk down it
    (the length of the file: the source recurses without a bound, the tree it
    writes is far shallower); and the sweep of log generations (one more than those withheld, as every
    round removes one; [wal_gens_retired_in_order] shows it ends with nothing
    left to retire).  The positioning calls of an iterator take the number of
    rounds of their loops over entries and groups: [scan_refines] asks for more
    than there are entries, and shows that then every loop has ended.  The walks of a
    table iterator inside a run of entries take the length of the run.  A heap is
    sifted down for as many rounds as it has elements, more than its depth.
    [table_refines_run] asks that the entries fit 32-bit block
    lengths and 64-bit files, which the source assumes without a check.

    ** Not modelled, and why

    - The skip list inside a shard and its arena ([memtable_arena.rs]), the
      unified memtable ([unified.rs]) and the caches: unsafe memory and atomics
      below the sorted-run view, an overlay that is off by default, and storage
      of immutable bytes.
    - Of table files: the block and value caches and the admission of I/O
      (they do not change what is read), the removal of files of a writer that
      did not finish, the floating-point sizing of filters (a parameter), the
      wavesdb and 0.9 layouts; compression is third-party.
    - Of iterators: tailing ([tailing.rs]), which waits on threads.
    - Flush, ingestion, excision, entity rows, compaction picking (floating-point
      scores) and the threads around them, range locks: not yet modelled.
    - Opening and closing a database, checkpoints, parts, object storage, the
      readers of earlier formats and the upgrade, profiling and the binaries:
      orchestration of files, threads and network. *)

From Stdlib Require Import ZArith Lia Sorted.
From Stdlib.Strings Require Import Byte.
From stdpp Require Import base list countable strings sets sorting.

Open Scope Z_scope.

(** ** Bytes

    A Rust [u8] is [Byte.byte]; its numeric value is [Z_of_byte].  The cast
    [x as u8] truncates, which is [byte_of_Z]. *)

Definition Z_of_byte (b : byte) : Z := Z.of_N (Byte.to_N b).

Definition byte_of_Z (z : Z) : byte :=
  match Byte.of_N (Z.to_N (z mod 256)) with
  | Some b => b
  | None => x00
  end.

#[export] Instance byte_eq_dec : EqDecision byte.
Proof. intros a b. destruct (Byte.byte_eq_dec a b); [by left | by right]. Defined.

(** ** Machine-width integers

    Integers are [Z] with the width written as a range predicate; the wrapping
    operations of the source are written out with [wrap64] and [to_i64]. *)

Definition U8_MAX : Z := 255.
Definition U32_MAX : Z := 2 ^ 32 - 1.
Definition U64_MAX : Z := 2 ^ 64 - 1.

Definition is_u8 (x : Z) : Prop := 0 <= x < 256.
Definition is_u32 (x : Z) : Prop := 0 <= x < 2 ^ 32.
Definition is_u64 (x : Z) : Prop := 0 <= x < 2 ^ 64.
Definition is_i64 (x : Z) : Prop := - 2 ^ 63 <= x < 2 ^ 63.

Definition wrap32 (x : Z) : Z := x mod 2 ^ 32.
Definition wrap64 (x : Z) : Z := x mod 2 ^ 64.

Lemma wrap64_small x : 0 <= x < 2 ^ 64 -> wrap64 x = x.
Proof. apply Z.mod_small. Qed.

(** [x as i64] for a [u64] (two's complement reinterpretation). *)
Definition to_i64 (x : Z) : Z := if x mod 2 ^ 64 <? 2 ^ 63 then x mod 2 ^ 64 else x mod 2 ^ 64 - 2 ^ 64.

(** ** Errors (error.rs)

    The variants carry a message for people in the source; the message is not
    modelled, the variant is. *)

Inductive OndaError : Type :=
| Memory | InvalidArgs | NotFound | Io | Corruption | Exists | Conflict
| TooLarge | MemoryLimit | InvalidDb | Locked | ReadOnly | Busy | Poisoned
| UnsupportedFormat | FormatUpgradeUnsupported | NotEntity | Unknown.

#[export] Instance OndaError_eq_dec : EqDecision OndaError.
Proof. solve_decision. Defined.

Definition code (e : OndaError) : Z :=
  match e with
  | Memory => -1 | InvalidArgs => -2 | NotFound => -3 | Io => -4
  | Corruption => -5 | Exists => -6 | Conflict => -7 | TooLarge => -8
  | MemoryLimit => -9 | InvalidDb => -10 | Unknown => -11 | Locked => -12
  | ReadOnly => -13 | Busy => -14 | Poisoned => -15
  | UnsupportedFormat => -16 | FormatUpgradeUnsupported => -17
  | NotEntity => -18
  end.

Definition from_code (c : Z) : OndaError :=
  match c with
  | -1 => Memory | -2 => InvalidArgs | -3 => NotFound | -4 => Io
  | -5 => Corruption | -6 => Exists | -7 => Conflict | -8 => TooLarge
  | -9 => MemoryLimit | -10 => InvalidDb | -12 => Locked | -13 => ReadOnly
  | -14 => Busy | -15 => Poisoned | -16 => UnsupportedFormat
  | -17 => FormatUpgradeUnsupported | -18 => NotEntity
  | _ => Unknown
  end.

(** ** The error monad: Rust's [Result<T, OndaError>] and its [?] operator. *)

Inductive result (A : Type) : Type :=
| Ok (a : A)
| Err (e : OndaError).
Arguments Ok {A} a.
Arguments Err {A} e.

#[export] Instance result_eq_dec {A} `{EqDecision A} : EqDecision (result A).
Proof. solve_decision. Defined.

Definition rbind {A B} (r : result A) (f : A -> result B) : result B :=
  match r with Ok a => f a | Err e => Err e end.

Definition ok_or {A} (o : option A) (e : OndaError) : result A :=
  match o with Some a => Ok a | None => Err e end.

(** [guard b e] is [if !b { return Err(e) }]. *)
Definition guard (b : bool) (e : OndaError) : result unit :=
  if b then Ok tt else Err e.

Definition is_ok {A} (r : result A) : bool :=
  match r with Ok _ => true | Err _ => false end.

Declare Scope onda_scope.
Delimit Scope onda_scope with onda.

Notation "'let?' x := r 'in' k" := (rbind r (fun x => k))
  (at level 10, x pattern, r at level 100, k at level 200) : onda_scope.
Notation "'ensure?' b 'else' e ';;' k" := (rbind (guard b e) (fun _ => k))
  (at level 10, b at level 99, e at level 50, k at level 200) : onda_scope.

Open Scope onda_scope.

(** ** Slice and vector operations of the standard library *)

(** [slice::partition_point] on a slice partitioned by [p] (every caller keeps
    its slice sorted): the length of the prefix on which [p] holds. *)
Fixpoint partition_point {A} (p : A -> bool) (l : list A) : nat :=
  match l with
  | [] => 0%nat
  | x :: l => if p x then S (partition_point p l) else 0%nat
  end.

(** [Vec::insert]. *)
Definition insert_at {A} (i : nat) (x : A) (l : list A) : list A := take i l ++ x :: drop i l.

(** [slice::sort_by]: a stable sort, here by insertion. *)
Fixpoint sort_insert {A} (c : A -> A -> comparison) (x : A) (l : list A) : list A :=
  match l with
  | [] => [x]
  | y :: l => match c x y with Gt => y :: sort_insert c x l | _ => x :: y :: l end
  end.

Definition sort_by {A} (c : A -> A -> comparison) (l : list A) : list A :=
  foldr (sort_insert c) [] l.

(** [Vec::dedup_by]: of a run of consecutive equal elements the first stays. *)
Fixpoint dedup_from {A} (same : A -> A -> bool) (x : A) (l : list A) : list A :=
  match l with
  | [] => []
  | y :: l => if same y x then dedup_from same x l else y :: dedup_from same y l
  end.

Definition dedup_by {A} (same : A -> A -> bool) (l : list A) : list A :=
  match l with [] => [] | x :: l => x :: dedup_from same x l end.

(** [slice::windows(2)]. *)
Fixpoint windows2 {A} (l : list A) : list (A * A) :=
  match l with
  | [] => []
  | a :: l =>
      match l with
      | [] => []
      | b :: _ => (a, b) :: windows2 l
      end
  end.

(** ** Tactics and hint databases *)

Create HintDb onda discriminated.
Create Rewrite HintDb onda_rw.

Ltac div_mod_lia :=
  Z.div_mod_to_equations; lia.

(** Split a successful monadic computation into its successful steps. *)
Ltac inv_ok :=
  repeat match goal with
  | H : rbind ?r _ = Ok _ |- _ =>
      let E := fresh "E" in
      destruct r eqn:E; cbn [rbind] in H; [| discriminate H]
  | H : guard ?b _ = Ok _ |- _ =>
      let E := fresh "E" in
      destruct b eqn:E; cbn [guard] in H; [| discriminate H]
  | H : Ok _ = Ok _ |- _ => injection H as H
  | H : Err _ = Ok _ |- _ => discriminate H
  end.

Lemma bind_inv {A B} (r : result A) (f : A -> result B) b : rbind r f = Ok b -> exists a, r = Ok a /\ f a = Ok b.
Proof. destruct r as [a|e]; cbn; [eauto|done]. Qed.

(** Split the conjunctions of the goal, and nothing else. *)
Ltac conj_split := repeat match goal with |- _ /\ _ => split end.

(** Turn boolean comparisons in the context into propositions. *)
Ltac boolprop :=
  repeat match goal with
  | H : (_ <? _) = true |- _ => apply Z.ltb_lt in H
  | H : (_ <? _) = false |- _ => apply Z.ltb_ge in H
  | H : (_ <=? _) = true |- _ => apply Z.leb_le in H
  | H : (_ <=? _) = false |- _ => apply Z.leb_gt in H
  | H : (_ =? _) = true |- _ => apply Z.eqb_eq in H
  | H : (_ =? _) = false |- _ => apply Z.eqb_neq in H
  | H : (_ && _) = true |- _ => apply andb_true_iff in H; destruct H
  | H : (_ || _) = false |- _ => apply orb_false_iff in H; destruct H
  | H : negb _ = true |- _ => apply negb_true_iff in H
  | H : negb _ = false |- _ => apply negb_false_iff in H
  | H : bool_decide _ = true |- _ => apply bool_decide_eq_true in H
  | H : bool_decide _ = false |- _ => apply bool_decide_eq_false in H
  end.

(** ** Lemmas on bytes and integers *)

Lemma Z_of_byte_range b : 0 <= Z_of_byte b < 256.
Proof. unfold Z_of_byte. pose proof (Byte.to_N_bounded b). lia. Qed.

Lemma byte_of_Z_of_byte b : byte_of_Z (Z_of_byte b) = b.
Proof.
  unfold byte_of_Z. rewrite Z.mod_small by apply Z_of_byte_range.
  unfold Z_of_byte. by rewrite N2Z.id, Byte.of_to_N.
Qed.

Lemma Z_of_byte_of_Z z : Z_of_byte (byte_of_Z z) = z mod 256.
Proof.
  unfold byte_of_Z. pose proof (Z.mod_pos_bound z 256 ltac:(lia)).
  destruct (Byte.of_N _) as [b|] eqn:E.
  - apply Byte.to_of_N in E. unfold Z_of_byte. rewrite E. lia.
  - apply Byte.of_N_None_iff in E. lia.
Qed.

Lemma Z_of_byte_of_Z_small z : 0 <= z < 256 -> Z_of_byte (byte_of_Z z) = z.
Proof. intros. rewrite Z_of_byte_of_Z. by apply Z.mod_small. Qed.

#[export] Instance Z_of_byte_inj : Inj (=) (=) Z_of_byte.
Proof. intros a b E. by rewrite <- (byte_of_Z_of_byte a), E, byte_of_Z_of_byte. Qed.

#[export] Instance byte_countable : Countable byte.
Proof.
  refine (inj_countable' Z_of_byte byte_of_Z _). apply byte_of_Z_of_byte.
Defined.

Lemma to_i64_range x : is_i64 (to_i64 x).
Proof.
  unfold to_i64, is_i64. pose proof (Z.mod_pos_bound x (2 ^ 64) ltac:(lia)).
  destruct (Z.ltb_spec (x mod 2 ^ 64) (2 ^ 63)); lia.
Qed.

Lemma lor_shiftl_add x y s :
  0 <= s -> 0 <= x < 2 ^ s -> Z.lor x (Z.shiftl y s) = x + y * 2 ^ s.
Proof.
  intros Hs Hx. rewrite <- Z.shiftl_mul_pow2 by lia.
  rewrite Z.add_nocarry_lxor, Z.lxor_lor; [done| |]; apply Z.bits_inj'; intros n Hn;
    rewrite Z.land_spec, Z.bits_0.
  all: destruct (decide (n < s)) as [?|?].
  1,3: by rewrite (Z.shiftl_spec_low y), andb_false_r by lia.
  all: rewrite (proj2 (Z.testbit_false x n Hn)); [done|].
  all: rewrite Z.div_small; [done|]; split; [lia|].
  all: apply Z.lt_le_trans with (2 ^ s); [lia|apply Z.pow_le_mono_r; lia].
Qed.

Lemma land_127 x : Z.land x 127 = x mod 128.
Proof. change 127 with (Z.ones 7). by rewrite Z.land_ones by lia. Qed.

Lemma land_1 x : Z.land x 1 = x mod 2.
Proof. change 1 with (Z.ones 1). by rewrite Z.land_ones by lia. Qed.

(** ** Lemmas on lists *)

Lemma take_app_exact {A} (l k : list A) n : n = length l -> take n (l ++ k) = l.
Proof. intros ->. by rewrite take_app_length. Qed.

Lemma drop_app_exact {A} (l k : list A) n : n = length l -> drop n (l ++ k) = k.
Proof. intros ->. by rewrite drop_app_length. Qed.

Lemma partition_point_le {A} (p : A -> bool) l : (partition_point p l <= length l)%nat.
Proof. induction l as [|x l IH]; cbn; [lia|]. destruct (p x); lia. Qed.

Lemma partition_point_take {A} (p : A -> bool) l :
  Forall (fun x => p x = true) (take (partition_point p l) l).
Proof. induction l as [|x l IH]; cbn; [done|]. destruct (p x) eqn:E; cbn; by constructor. Qed.

Lemma partition_point_at {A} (p : A -> bool) l x :
  l !! partition_point p l = Some x -> p x = false.
Proof. induction l as [|y l IH]; cbn; [done|]. destruct (p y) eqn:E; cbn; [done|congruence]. Qed.

(** On a list sorted by [R], with [p] closed downwards, everything from the
    partition point on fails [p]. *)
Lemma partition_point_drop {A} (p : A -> bool) (R : A -> A -> Prop) l :
  StronglySorted R l -> (forall x y, R x y -> p y = true -> p x = true) ->
  Forall (fun x => p x = false) (drop (partition_point p l) l).
Proof.
  intros Hs Hp. induction Hs as [|x l Hs IH HF]; cbn; [done|].
  destruct (p x) eqn:E; cbn; [done|]. constructor; [done|].
  rewrite Forall_forall in HF |- *. intros y Hy. destruct (p y) eqn:Ey; [|done].
  rewrite (Hp x y) in E; auto.
Qed.

Lemma partition_point_unique {A} (p : A -> bool) l j :
  (j <= length l)%nat ->
  (forall i x, (i < j)%nat -> l !! i = Some x -> p x = true) ->
  (forall x, l !! j = Some x -> p x = false) ->
  partition_point p l = j.
Proof.
  revert j. induction l as [|y l IH]; intros j Hj Hlt Hat; cbn in *; [lia|].
  destruct j as [|j]; [by rewrite (Hat y)|].
  rewrite (Hlt 0%nat y) by (lia || done). f_equal. apply IH; [lia| |done].
  intros i x Hi. apply (Hlt (S i)). lia.
Qed.

Lemma elem_of_take {A} (l : list A) n x : x ∈ take n l -> x ∈ l.
Proof. intros H. rewrite <- (take_drop n l). apply elem_of_app. by left. Qed.

Lemma elem_of_drop {A} (l : list A) n x : x ∈ drop n l -> x ∈ l.
Proof. intros H. rewrite <- (take_drop n l). apply elem_of_app. by right. Qed.

Lemma StronglySorted_impl {A} (R S : A -> A -> Prop) l :
  (forall x y, R x y -> S x y) -> StronglySorted R l -> StronglySorted S l.
Proof. intros H. induction 1; constructor; [done|]. eapply Forall_impl; eauto. Qed.

Lemma insert_at_Permutation {A} i (x : A) l : insert_at i x l ≡ₚ x :: l.
Proof. unfold insert_at. rewrite <- Permutation_middle. by rewrite take_drop. Qed.

(** Sorting by a total comparison. *)
Lemma sort_insert_Permutation {A} (c : A -> A -> comparison) x l : sort_insert c x l ≡ₚ x :: l.
Proof.
  induction l as [|y l IH]; cbn; [done|]. destruct (c x y); [done..|].
  rewrite IH. apply Permutation_swap.
Qed.

Lemma sort_by_Permutation {A} (c : A -> A -> comparison) l : sort_by c l ≡ₚ l.
Proof. induction l as [|x l IH]; cbn; [done|]. by rewrite sort_insert_Permutation, IH. Qed.

Lemma sort_by_sorted {A} (c : A -> A -> comparison) l :
  (forall x y, c x y = Gt -> c y x <> Gt) ->
  (forall x y z, c x y <> Gt -> c y z <> Gt -> c x z <> Gt) ->
  StronglySorted (fun x y => c x y <> Gt) (sort_by c l).
Proof.
  intros Ht Htr. induction l as [|x l IH]; cbn; [constructor|].
  change (foldr (sort_insert c) [] l) with (sort_by c l). generalize dependent (sort_by c l).
  clear l. intros l. induction l as [|y l IH2]; cbn; intros Hs; [repeat constructor|].
  apply StronglySorted_inv in Hs as [Hs HF]. destruct (c x y) eqn:E.
  3: { constructor; [by apply IH2|]. rewrite sort_insert_Permutation. constructor; [by apply Ht|done]. }
  all: constructor; [by constructor|]; constructor; [congruence|].
  all: eapply Forall_impl; [done|]; cbn; intros z Hz; apply Htr with y; congruence.
Qed.

Lemma windows2_snoc {A} (l : list A) x :
  windows2 (l ++ [x]) = windows2 l ++ match last l with Some y => [(y, x)] | None => [] end.
Proof.
  induction l as [|a [|b l] IH]; [done..|].
  change (windows2 ((a :: b :: l) ++ [x])) with ((a, b) :: windows2 ((b :: l) ++ [x])).
  rewrite IH. by rewrite last_cons_cons.
Qed.

(** Membership in the Standard Library's [map], [filter] and [concat]. *)
Lemma elem_of_map {A B} (f : A -> B) l y : y ∈ map f l <-> exists x, x ∈ l /\ f x = y.
Proof. rewrite list_elem_of_In, in_map_iff. setoid_rewrite list_elem_of_In. naive_solver. Qed.

Lemma elem_of_lfilter {A} (p : A -> bool) l x : x ∈ List.filter p l <-> x ∈ l /\ p x = true.
Proof. by rewrite !list_elem_of_In, filter_In. Qed.

Lemma lfilter_none {A} (p : A -> bool) l : (forall x, x ∈ l -> p x = false) -> List.filter p l = [].
Proof.
  induction l as [|x l IH]; intros H; cbn; [done|]. rewrite (H x) by left. apply IH. intros y Hy. apply H. by right.
Qed.

Lemma lfilter_all {A} (p : A -> bool) l : (forall x, x ∈ l -> p x = true) -> List.filter p l = l.
Proof.
  induction l as [|x l IH]; intros H; cbn; [done|]. rewrite (H x) by left. f_equal. apply IH. intros y Hy. apply H. by right.
Qed.

Lemma lfilter_ext {A} (p q : A -> bool) l : (forall x, x ∈ l -> p x = q x) -> List.filter p l = List.filter q l.
Proof.
  induction l as [|x l IH]; intros H; cbn; [done|]. rewrite (H x), IH; [done|..|by left]. intros y Hy. apply H. by right.
Qed.

Lemma lfilter_app {A} (p : A -> bool) l l' : List.filter p (l ++ l') = List.filter p l ++ List.filter p l'.
Proof. induction l as [|x l IH]; cbn; [done|]. destruct (p x); cbn; by rewrite IH. Qed.

Lemma lfilter_and {A} (p q : A -> bool) l : List.filter p (List.filter q l) = List.filter (fun x => q x && p x) l.
Proof. induction l as [|x l IH]; cbn; [done|]. destruct (q x); cbn; [destruct (p x)|]; by rewrite IH. Qed.

Lemma lfilter_lfilter {A} (p q : A -> bool) l : (forall x, p x = true -> q x = true) -> List.filter p (List.filter q l) = List.filter p l.
Proof.
  intros H. rewrite lfilter_and. apply lfilter_ext. intros x _. destruct (p x) eqn:E; [by rewrite (H x E)|apply andb_false_r].
Qed.

Lemma lfilter_StronglySorted {A} (R : A -> A -> Prop) p (l : list A) : StronglySorted R l -> StronglySorted R (List.filter p l).
Proof.
  induction 1 as [|x l Hs IH HF]; cbn; [constructor|]. destruct (p x); [|done]. constructor; [done|].
  rewrite Forall_forall in HF |- *. intros y [Hy _]%elem_of_lfilter. by apply HF.
Qed.

Lemma lfilter_Permutation {A} (p : A -> bool) l l' : l ≡ₚ l' -> List.filter p l ≡ₚ List.filter p l'.
Proof.
  induction 1 as [|x l l' _ IH|x y l|l1 l2 l3 _ IH1 _ IH2]; cbn; [done|..].
  - destruct (p x); by rewrite IH.
  - destruct (p x), (p y); try done. constructor.
  - by rewrite IH1.
Qed.

Lemma elem_of_concat_map {A B} (f : A -> list B) l y :
  y ∈ concat (map f l) <-> exists x, x ∈ l /\ y ∈ f x.
Proof.
  rewrite list_elem_of_In, in_concat. split.
  - intros (k & Hk & Hy). apply list_elem_of_In, elem_of_map in Hk as (x & Hx & <-).
    exists x. split; [done|]. by apply list_elem_of_In.
  - intros (x & Hx & Hy). exists (f x). split; [|by apply list_elem_of_In].
    apply list_elem_of_In, elem_of_map. eauto.
Qed.

Lemma elem_of_concat {A} (ls : list (list A)) y : y ∈ concat ls <-> exists l, l ∈ ls /\ y ∈ l.
Proof. rewrite <- (map_id ls) at 1. apply elem_of_concat_map. Qed.

(** Deduplicating a sorted list: same members, strictly sorted. *)
Section Dedup.
Context {A : Type} (same : A -> A -> bool).
Context (same_spec : forall x y, same x y = true <-> x = y).

Lemma dedup_from_elem x l z : z ∈ x :: dedup_from same x l <-> z ∈ x :: l.
Proof.
  revert x. induction l as [|y l IH]; intros x; cbn; [done|]. specialize (IH x) as IHx.
  destruct (same y x) eqn:E; [apply same_spec in E as ->|]; set_solver.
Qed.

Lemma dedup_by_elem l z : z ∈ dedup_by same l <-> z ∈ l.
Proof. destruct l; [done|]. apply dedup_from_elem. Qed.

Context (R : A -> A -> Prop) (R_antisym : forall x y, R x y -> R y x -> x = y).

Lemma dedup_from_sorted x l :
  StronglySorted R (x :: l) ->
  StronglySorted (fun a b => R a b /\ a <> b) (x :: dedup_from same x l).
Proof.
  revert x. induction l as [|y l IH]; intros x Hs; cbn; [repeat constructor|].
  apply StronglySorted_inv in Hs as [Hs HF]. apply Forall_cons in HF as [Hxy HF].
  destruct (same y x) eqn:E.
  - apply same_spec in E as ->. by apply IH.
  - assert (x <> y) by (intros ->; rewrite (proj2 (same_spec y y)) in E; done).
    apply IH in Hs as Hd. constructor; [done|].
    apply Forall_forall. intros z Hz. rewrite dedup_from_elem in Hz.
    apply StronglySorted_inv in Hs as [_ Hy]. rewrite Forall_forall in HF, Hy.
    apply elem_of_cons in Hz as [->|Hz]; [done|]. split; [by apply HF|].
    intros ->. apply Hy in Hz. auto.
Qed.

Lemma dedup_by_sorted l :
  StronglySorted R l -> StronglySorted (fun a b => R a b /\ a <> b) (dedup_by same l).
Proof. destruct l; [constructor|]. apply dedup_from_sorted. Qed.
End Dedup.

(** ** Sorted lists, filters and sublists *)

Lemma filter_all {A} (p : A -> bool) l : Forall (fun x => p x = true) l -> List.filter p l = l.
Proof. induction 1 as [|x l Hx _ IH]; cbn; [done|]. by rewrite Hx, IH. Qed.

Lemma filter_none {A} (p : A -> bool) l : Forall (fun x => p x = false) l -> List.filter p l = [].
Proof. induction 1 as [|x l Hx _ IH]; cbn; [done|]. by rewrite Hx. Qed.

Lemma StronglySorted_reverse {A} (P : A -> A -> Prop) l : StronglySorted P l -> StronglySorted (fun a b => P b a) (reverse l).
Proof.
  induction 1 as [|x l Hs IH HF]; [constructor|]. rewrite reverse_cons. apply StronglySorted_app_2; [|done|repeat constructor].
  intros a b Ha Hb. rewrite reverse_Permutation in Ha. apply list_elem_of_singleton in Hb as ->. rewrite Forall_forall in HF. by apply HF.
Qed.

Lemma StronglySorted_drop {A} (P : A -> A -> Prop) n l : StronglySorted P l -> StronglySorted P (drop n l).
Proof. intros H. rewrite <- (take_drop n l) in H. by apply StronglySorted_app in H as (_ & _ & ?). Qed.

Lemma StronglySorted_take {A} (P : A -> A -> Prop) n l : StronglySorted P l -> StronglySorted P (take n l).
Proof. intros H. rewrite <- (take_drop n l) in H. by apply StronglySorted_app in H as (_ & ? & _). Qed.

Lemma StronglySorted_filter {A} (P : A -> A -> Prop) (p : A -> bool) l : StronglySorted P l -> StronglySorted P (List.filter p l).
Proof.
  induction 1 as [|x l Hs IH HF]; cbn; [constructor|]. destruct (p x); [|done]. constructor; [done|].
  rewrite Forall_forall in HF |- *. intros y Hy. apply HF. apply list_elem_of_In, List.filter_In in Hy as [Hy _]. by apply list_elem_of_In.
Qed.

Lemma StronglySorted_map {A B} (P : A -> A -> Prop) (Q : B -> B -> Prop) (f : A -> B) l :
  (forall x y, P x y -> Q (f x) (f y)) -> StronglySorted P l -> StronglySorted Q (map f l).
Proof.
  intros HPQ. induction 1 as [|x l Hs IH HF]; cbn; constructor; [done|]. apply Forall_fmap. eapply Forall_impl; [exact HF|]. intros y. apply HPQ.
Qed.

Lemma StronglySorted_lookup_lt {A} (R : A -> A -> Prop) l i j a b :
  StronglySorted R l -> l !! i = Some a -> l !! j = Some b -> (i < j)%nat -> R a b.
Proof.
  intros Hs Ha Hb Hij. rewrite <- (take_drop_middle l i a Ha) in Hs. apply StronglySorted_app in Hs as (_ & _ & Hs).
  apply StronglySorted_inv in Hs as [_ Hs]. rewrite Forall_forall in Hs. apply Hs.
  apply (list_elem_of_lookup_2 _ (j - S i)). rewrite lookup_drop. by replace (S i + (j - S i))%nat with j by lia.
Qed.

Lemma map_seq_lookup {A} (f : nat -> A) (l : list A) : (forall i x, l !! i = Some x -> f i = x) -> map f (List.seq 0 (length l)) = l.
Proof.
  intros Hf. apply list_eq. intros i. rewrite list_lookup_fmap. destruct (l !! i) as [x|] eqn:E.
  - rewrite lookup_seq_lt by by eapply lookup_lt_Some. cbn. f_equal. by apply Hf.
  - apply lookup_ge_None in E. by rewrite lookup_seq_ge.
Qed.

Lemma map_sublist {A B} (f : A -> B) l l' : sublist l l' -> sublist (map f l) (map f l').
Proof. induction 1; cbn; by constructor. Qed.

Lemma concat_sublist {A} (l l' : list (list A)) : sublist l l' -> sublist (concat l) (concat l').
Proof. induction 1; cbn; [constructor|by apply sublist_app|by apply sublist_inserts_l]. Qed.

Lemma filter_sublist {A} (p : A -> bool) l : sublist (List.filter p l) l.
Proof. induction l as [|x l IH]; cbn; [constructor|]. destruct (p x); by constructor. Qed.

Lemma push_then {A} (x : A) l l' : l ++ x :: l' = (l ++ [x]) ++ l'.
Proof. by rewrite <- app_assoc. Qed.

#[export] Hint Resolve Z_of_byte_range to_i64_range : onda.

(** ** Error codes round trip (error.rs) *)

Lemma from_code_code e : from_code (code e) = e.
Proof. by destruct e. Qed.
