(* ===== verification/Encoding.v ===== *)
(** * Serialisation primitives (encoding.rs)

    LEB128 varints (plain and zig-zag) and little-endian fixed-width integers,
    the codecs every file format of the engine is built on.  [uvarint] keeps
    the source's four fast paths in front of the byte-at-a-time loop; the
    theorems show it decodes what [append_uvarint] wrote, that the fast paths
    agree with the loop, and that no input makes it leave the 64-bit range. *)

From Stdlib Require Import ZArith Lia.
From Stdlib.Strings Require Import Byte.
From stdpp Require Import base list.
From S2P Require Import Prelude.

Open Scope Z_scope.

(** ** Varints *)

(** The [while x >= 0x80] loop of [append_uvarint]; a [u64] leaves it after at
    most ten bytes. *)
Fixpoint uvarint_loop (fuel : nat) (x : Z) : list byte :=
  match fuel with
  | O => []
  | S fuel =>
      if 0x80 <=? x
      then byte_of_Z (Z.lor (x mod 256) 0x80) :: uvarint_loop fuel (Z.shiftr x 7)
      else [byte_of_Z x]
  end.

Definition append_uvarint (dst : list byte) (x : Z) : list byte :=
  dst ++ uvarint_loop 10 x.

Fixpoint uvarint_len_loop (fuel : nat) (x n : Z) : Z :=
  match fuel with
  | O => n
  | S fuel => if 0x80 <=? x then uvarint_len_loop fuel (Z.shiftr x 7) (n + 1) else n
  end.

Definition uvarint_len (x : Z) : Z := uvarint_len_loop 10 x 1.

(** [uvarint_slow]: the loop state is the index [i], the shift [s] and the
    accumulated value [x]. *)
Fixpoint uvarint_slow_loop (b : list byte) (i s x : Z) : option (Z * Z) :=
  match b with
  | [] => None
  | byte :: b' =>
      let v := Z_of_byte byte in
      if i =? 10 then None
      else if v <? 0x80 then
        if (i =? 9) && (1 <? v) then None
        else Some (Z.lor x (wrap64 (Z.shiftl v s)), i + 1)
      else
        uvarint_slow_loop b' (i + 1) (s + 7)
          (Z.lor x (wrap64 (Z.shiftl (Z.land v 0x7f) s)))
  end.

Definition uvarint_slow (b : list byte) : option (Z * Z) := uvarint_slow_loop b 0 0 0.

(** [b\[i\] & 0x7f] as a [u64]. *)
Definition low7 (b : byte) : Z := Z.land (Z_of_byte b) 0x7f.

Definition uvarint (b : list byte) : option (Z * Z) :=
  match b with
  | [] => None
  | b0 :: t0 =>
      if Z_of_byte b0 <? 0x80 then Some (Z_of_byte b0, 1)
      else match t0 with
      | [] => uvarint_slow b
      | b1 :: t1 =>
          if Z_of_byte b1 <? 0x80
          then Some (Z.lor (low7 b0) (Z.shiftl (Z_of_byte b1) 7), 2)
          else match t1 with
          | [] => uvarint_slow b
          | b2 :: t2 =>
              if Z_of_byte b2 <? 0x80
              then Some (Z.lor (Z.lor (low7 b0) (Z.shiftl (low7 b1) 7))
                           (Z.shiftl (Z_of_byte b2) 14), 3)
              else match t2 with
              | [] => uvarint_slow b
              | b3 :: _ =>
                  if Z_of_byte b3 <? 0x80
                  then Some (Z.lor (Z.lor (Z.lor (low7 b0) (Z.shiftl (low7 b1) 7))
                                      (Z.shiftl (low7 b2) 14))
                               (Z.shiftl (Z_of_byte b3) 21), 4)
                  else uvarint_slow b
              end
          end
      end
  end.

(** Zig-zag: [((x << 1) ^ (x >> 63)) as u64]; the left shift of an [i64] drops
    the top bit. *)
Definition zigzag (x : Z) : Z :=
  wrap64 (Z.lxor (to_i64 (Z.shiftl x 1)) (Z.shiftr x 63)).

Definition append_varint (dst : list byte) (x : Z) : list byte :=
  append_uvarint dst (zigzag x).

Definition varint_len (x : Z) : Z := uvarint_len (zigzag x).

(** [((ux >> 1) as i64) ^ -((ux & 1) as i64)]. *)
Definition unzigzag (ux : Z) : Z :=
  Z.lxor (to_i64 (Z.shiftr ux 1)) (- to_i64 (Z.land ux 1)).

Definition varint (b : list byte) : option (Z * Z) :=
  match uvarint b with
  | Some (ux, n) => Some (unzigzag ux, n)
  | None => None
  end.

(** ** Fixed-width little-endian integers *)

(** [to_le_bytes] at [w] bytes. *)
Fixpoint le_bytes (w : nat) (x : Z) : list byte :=
  match w with
  | O => []
  | S w => byte_of_Z x :: le_bytes w (Z.shiftr x 8)
  end.

(** [from_le_bytes]. *)
Fixpoint from_le_bytes (b : list byte) : Z :=
  match b with
  | [] => 0
  | x :: b => Z_of_byte x + 256 * from_le_bytes b
  end.

Definition append_u32 (dst : list byte) (x : Z) : list byte := dst ++ le_bytes 4 x.
Definition append_u64 (dst : list byte) (x : Z) : list byte := dst ++ le_bytes 8 x.

(** [b\[..w\]] panics when the slice is short: [None]. *)
Definition read_le (w : nat) (b : list byte) : option Z :=
  if Nat.leb w (length b) then Some (from_le_bytes (take w b)) else None.

Definition read_u32 (b : list byte) : option Z := read_le 4 b.
Definition read_u64 (b : list byte) : option Z := read_le 8 b.

(** [b\[..w\].copy_from_slice(..)]: overwrite the first [w] bytes in place. *)
Definition put_le (w : nat) (b : list byte) (x : Z) : option (list byte) :=
  if Nat.leb w (length b) then Some (le_bytes w x ++ drop w b) else None.

Definition put_u32 (b : list byte) (x : Z) : option (list byte) := put_le 4 b x.
Definition put_u64 (b : list byte) (x : Z) : option (list byte) := put_le 8 b x.

(** ** Lemmas *)

Lemma to_i64_small x : 0 <= x < 2 ^ 63 -> to_i64 x = x.
Proof.
  intros Hx. unfold to_i64. rewrite Z.mod_small by lia.
  by destruct (Z.ltb_spec x (2 ^ 63)); [|lia].
Qed.

Lemma lor_128 x : Z.lor (x mod 256) 0x80 = x mod 128 + 128.
Proof.
  set (y := x mod 256). assert (Hy : 0 <= y < 256) by (apply Z.mod_pos_bound; lia).
  replace (x mod 128) with (y mod 128) by (subst y; Z.div_mod_to_equations; lia).
  clearbody y.
  assert (Ey : y = Z.lor (y mod 128) (Z.shiftl (y / 128) 7)).
  { rewrite lor_shiftl_add by (try apply Z.mod_pos_bound; lia).
    change (2 ^ 7) with 128. Z.div_mod_to_equations; lia. }
  transitivity (Z.lor (Z.lor (y mod 128) (Z.shiftl (y / 128) 7)) (Z.shiftl 1 7));
    [by rewrite <- Ey|].
  rewrite <- Z.lor_assoc, <- Z.shiftl_lor.
  replace (Z.lor (y / 128) 1) with 1.
  - rewrite lor_shiftl_add by (try apply Z.mod_pos_bound; lia). lia.
  - assert (y / 128 = 0 \/ y / 128 = 1) as [-> | ->] by (Z.div_mod_to_equations; lia); done.
Qed.

Lemma low7_range b : 0 <= low7 b < 128.
Proof. unfold low7. rewrite land_127. apply Z.mod_pos_bound. lia. Qed.

Lemma wrap64_shiftl_byte v s :
  0 <= v < 256 -> 0 <= s <= 56 -> wrap64 (Z.shiftl v s) = Z.shiftl v s.
Proof.
  intros Hv Hs. rewrite Z.shiftl_mul_pow2 by lia. apply wrap64_small.
  assert (0 < 2 ^ s) by (apply Z.pow_pos_nonneg; lia).
  assert (2 ^ s <= 2 ^ 56) by (apply Z.pow_le_mono_r; lia). nia.
Qed.

Lemma pow_7_succ i : 0 <= i -> 2 ^ (7 * (i + 1)) = 128 * 2 ^ (7 * i).
Proof. intros. replace (7 * (i + 1)) with (7 + 7 * i) by lia. by rewrite Z.pow_add_r by lia. Qed.

(** The continuation byte pushed for [x] carries the low seven bits of [x]. *)
Lemma continuation_byte x :
  Z_of_byte (byte_of_Z (Z.lor (x mod 256) 0x80)) = x mod 128 + 128.
Proof.
  rewrite lor_128, Z_of_byte_of_Z_small; [done|].
  pose proof (Z.mod_pos_bound x 128). lia.
Qed.

Lemma uvarint_slow_loop_correct fuel i x acc rest :
  i + Z.of_nat fuel = 10 -> 0 <= i <= 9 -> 0 <= x -> x * 2 ^ (7 * i) < 2 ^ 64 ->
  0 <= acc < 2 ^ (7 * i) ->
  uvarint_slow_loop (uvarint_loop fuel x ++ rest) i (7 * i) acc
  = Some (acc + x * 2 ^ (7 * i), i + Z.of_nat (length (uvarint_loop fuel x))).
Proof.
  revert i x acc. induction fuel as [|fuel IH]; intros i x acc Hf Hi Hx Hb Hacc; [lia|].
  assert (0 < 2 ^ (7 * i)) by (apply Z.pow_pos_nonneg; lia).
  assert (Hlt : i < 9 \/ i = 9) by lia.
  cbn [uvarint_loop]. destruct (Z.leb_spec 0x80 x) as [Hge|Hl];
    cbn [app uvarint_slow_loop length];
    destruct (Z.eqb_spec i 10) as [?|_]; try lia.
  - assert (i < 9) by (destruct Hlt as [?| ->]; [done| change (7 * 9) with 63 in Hb; lia]).
    rewrite continuation_byte, land_127.
    pose proof (Z.mod_pos_bound x 128 ltac:(lia)).
    destruct (Z.ltb_spec (x mod 128 + 128) 0x80); [lia|].
    replace ((x mod 128 + 128) mod 128) with (x mod 128) by (Z.div_mod_to_equations; lia).
    rewrite wrap64_shiftl_byte, lor_shiftl_add by lia.
    replace (7 * i + 7) with (7 * (i + 1)) by lia.
    rewrite Z.shiftr_div_pow2 by lia. change (2 ^ 7) with 128.
    pose proof (Z.div_mod x 128 ltac:(lia)) as Ex.
    rewrite IH; rewrite ?pow_7_succ; try lia; try nia.
    f_equal. f_equal; [nia|lia].
  - rewrite Z_of_byte_of_Z_small by lia.
    destruct (Z.ltb_spec x 0x80); [|lia].
    replace ((i =? 9) && (1 <? x)) with false.
    + rewrite (wrap64_small (Z.shiftl x (7 * i))) by (rewrite Z.shiftl_mul_pow2; nia).
      by rewrite lor_shiftl_add by lia.
    + symmetry. destruct (Z.eqb_spec i 9) as [->|]; [|done].
      change (7 * 9) with 63 in Hb. destruct (Z.ltb_spec 1 x); [lia|done].
Qed.

Lemma uvarint_slow_correct x rest :
  is_u64 x ->
  uvarint_slow (uvarint_loop 10 x ++ rest) = Some (x, Z.of_nat (length (uvarint_loop 10 x))).
Proof.
  intros [? ?]. pose proof (uvarint_slow_loop_correct 10 0 x 0 rest) as Hs.
  change (2 ^ (7 * 0)) with 1 in Hs. rewrite Z.mul_1_r in Hs.
  apply Hs; lia.
Qed.

(** The four fast paths agree with the loop, on every input. *)
Lemma uvarint_eq_slow b : uvarint b = uvarint_slow b.
Proof.
  unfold uvarint, uvarint_slow.
  destruct b as [|b0 [|b1 [|b2 [|b3 b]]]]; cbn [uvarint_slow_loop];
    repeat change (_ =? 10) with false; repeat change (_ =? 9) with false;
    cbn [andb]; repeat case_match; try done; try congruence;
    repeat match goal with |- context [Z.land (Z_of_byte ?b) 0x7f] => fold (low7 b) end;
    repeat match goal with
    | |- context [wrap64 (Z.shiftl (low7 ?b) ?s)] =>
        rewrite (wrap64_shiftl_byte (low7 b) s) by (pose proof (low7_range b); lia)
    | |- context [wrap64 (Z.shiftl (Z_of_byte ?b) ?s)] =>
        rewrite (wrap64_shiftl_byte (Z_of_byte b) s) by (try apply Z_of_byte_range; lia)
    end; by rewrite ?Z.shiftl_0_r, ?Z.lor_0_l.
Qed.

(** Decoding in front of any rest, as the record decoders use it. *)
Lemma uvarint_app x rest :
  is_u64 x ->
  uvarint (uvarint_loop 10 x ++ rest) = Some (x, Z.of_nat (length (uvarint_loop 10 x))).
Proof. intros. rewrite uvarint_eq_slow. by apply uvarint_slow_correct. Qed.

Lemma uvarint_slow_loop_bounds b i acc x n :
  0 <= i <= 10 -> (i <= 9 -> 0 <= acc < 2 ^ (7 * i)) ->
  uvarint_slow_loop b i (7 * i) acc = Some (x, n) ->
  is_u64 x /\ i < n <= 10 /\ n <= i + Z.of_nat (length b).
Proof.
  revert i acc. induction b as [|b bs IH]; intros i acc Hi Hacc H; [done|].
  cbn [uvarint_slow_loop length] in *. pose proof (Z_of_byte_range b) as Hb.
  destruct (Z.eqb_spec i 10) as [?|Hne]; [done|].
  specialize (Hacc ltac:(lia)).
  assert (0 < 2 ^ (7 * i)) by (apply Z.pow_pos_nonneg; lia).
  assert (Hp : i <= 8 -> 2 ^ (7 * i) <= 2 ^ 56) by (intros; apply Z.pow_le_mono_r; lia).
  destruct (Z.ltb_spec (Z_of_byte b) 0x80) as [Hlt|Hge].
  - destruct ((i =? 9) && (1 <? Z_of_byte b)) eqn:E; [done|]. injection H as <- <-.
    unfold is_u64. split; [|lia].
    assert (Hv : Z_of_byte b * 2 ^ (7 * i) + 2 ^ (7 * i) <= 2 ^ 64).
    { destruct (Z.eqb_spec i 9) as [->|]; [|nia].
      cbn [andb] in E. boolprop. change (7 * 9) with 63. lia. }
    rewrite wrap64_small by (rewrite Z.shiftl_mul_pow2; nia).
    rewrite lor_shiftl_add by lia. nia.
  - replace (7 * i + 7) with (7 * (i + 1)) in H by lia.
    apply IH in H; [by destruct H as (? & ? & ?); split; [|lia]|lia|].
    intros ?. pose proof (low7_range b) as Hl. fold (low7 b).
    rewrite wrap64_shiftl_byte, lor_shiftl_add, pow_7_succ by lia. nia.
Qed.

Lemma uvarint_bounds b x n :
  uvarint b = Some (x, n) -> is_u64 x /\ 0 < n <= 10 /\ n <= Z.of_nat (length b).
Proof.
  rewrite uvarint_eq_slow. intros H.
  apply (uvarint_slow_loop_bounds b 0 0) in H; [|lia|].
  - destruct H as (? & ? & ?). split; [done|lia].
  - change (2 ^ (7 * 0)) with 1. lia.
Qed.

Lemma uvarint_len_loop_length fuel x n :
  0 <= x -> x < 2 ^ (7 * Z.of_nat fuel) -> (0 < fuel)%nat ->
  uvarint_len_loop fuel x n = n - 1 + Z.of_nat (length (uvarint_loop fuel x)).
Proof.
  revert x n. induction fuel as [|fuel IH]; intros x n H0 Hx Hf; [lia|].
  cbn [uvarint_len_loop uvarint_loop]. destruct (Z.leb_spec 0x80 x); cbn [length]; [|lia].
  rewrite Nat2Z.inj_succ, <- Z.add_1_r, pow_7_succ in Hx by lia.
  rewrite Z.shiftr_div_pow2 by lia. change (2 ^ 7) with 128 in *.
  destruct fuel as [|fuel]; [simpl in Hx; lia|].
  rewrite IH; [lia | apply Z.div_pos; lia | apply Z.div_lt_upper_bound; lia | lia].
Qed.

Lemma uvarint_len_length x : is_u64 x -> uvarint_len x = Z.of_nat (length (uvarint_loop 10 x)).
Proof.
  intros [? ?]. unfold uvarint_len. rewrite uvarint_len_loop_length; lia.
Qed.

Lemma zigzag_spec x : is_i64 x -> zigzag x = if x <? 0 then - 2 * x - 1 else 2 * x.
Proof.
  intros [? ?]. unfold zigzag. rewrite Z.shiftl_mul_pow2, Z.shiftr_div_pow2 by lia.
  change (2 ^ 1) with 2. change (2 ^ 63) with 9223372036854775808 in *.
  unfold to_i64, wrap64. change (2 ^ 64) with 18446744073709551616.
  change (2 ^ 63) with 9223372036854775808.
  destruct (Z.ltb_spec x 0).
  - replace (x / _) with (-1) by (Z.div_mod_to_equations; lia). rewrite Z.lxor_m1_r.
    unfold Z.lnot. destruct (Z.ltb_spec ((x * 2) mod 18446744073709551616) 9223372036854775808);
      Z.div_mod_to_equations; lia.
  - replace (x / _) with 0 by (Z.div_mod_to_equations; lia). rewrite Z.lxor_0_r.
    destruct (Z.ltb_spec ((x * 2) mod 18446744073709551616) 9223372036854775808);
      Z.div_mod_to_equations; lia.
Qed.

Lemma zigzag_u64 x : is_i64 x -> is_u64 (zigzag x).
Proof.
  intros Hx. rewrite zigzag_spec by done. destruct Hx. unfold is_u64.
  destruct (Z.ltb_spec x 0); lia.
Qed.

Lemma unzigzag_zigzag x : is_i64 x -> unzigzag (zigzag x) = x.
Proof.
  intros Hx. rewrite zigzag_spec by done. destruct Hx. unfold unzigzag.
  rewrite land_1, Z.shiftr_div_pow2 by lia.
  change (2 ^ 1) with 2. destruct (Z.ltb_spec x 0).
  - replace ((- 2 * x - 1) / 2) with (- x - 1) by (Z.div_mod_to_equations; lia).
    replace ((- 2 * x - 1) mod 2) with 1 by (Z.div_mod_to_equations; lia).
    rewrite to_i64_small by lia. change (- to_i64 1) with (-1).
    rewrite Z.lxor_m1_r. unfold Z.lnot. lia.
  - replace (2 * x / 2) with x by (Z.div_mod_to_equations; lia).
    replace ((2 * x) mod 2) with 0 by (Z.div_mod_to_equations; lia).
    rewrite to_i64_small by lia. change (- to_i64 0) with 0. apply Z.lxor_0_r.
Qed.

Lemma varint_app x rest :
  is_i64 x ->
  varint (uvarint_loop 10 (zigzag x) ++ rest)
  = Some (x, Z.of_nat (length (uvarint_loop 10 (zigzag x)))).
Proof.
  intros Hx. unfold varint. rewrite uvarint_app by by apply zigzag_u64.
  by rewrite unzigzag_zigzag.
Qed.

Lemma le_bytes_length w x : length (le_bytes w x) = w.
Proof. revert x. induction w as [|w IH]; intros x; cbn [le_bytes length]; [done|by rewrite IH]. Qed.

Lemma from_le_bytes_le_bytes w x : from_le_bytes (le_bytes w x) = x mod 2 ^ (8 * Z.of_nat w).
Proof.
  revert x. induction w as [|w IH]; intros x; cbn [le_bytes from_le_bytes].
  - by rewrite Z.mod_1_r.
  - rewrite IH, Z_of_byte_of_Z, Z.shiftr_div_pow2 by lia.
    replace (8 * Z.of_nat (S w)) with (8 + 8 * Z.of_nat w) by lia.
    rewrite Z.pow_add_r by lia. change (2 ^ 8) with 256.
    rewrite Z.rem_mul_r; [done|lia|]. apply Z.pow_pos_nonneg; lia.
Qed.

Lemma from_le_bytes_range b : 0 <= from_le_bytes b < 2 ^ (8 * Z.of_nat (length b)).
Proof.
  induction b as [|x b IH]; cbn [from_le_bytes length]; [done|].
  pose proof (Z_of_byte_range x). rewrite Nat2Z.inj_succ, Z.mul_succ_r, Z.pow_add_r by lia.
  change (2 ^ 8) with 256. lia.
Qed.

Lemma read_le_app w x rest :
  0 <= x < 2 ^ (8 * Z.of_nat w) -> read_le w (le_bytes w x ++ rest) = Some x.
Proof.
  intros Hx. unfold read_le. rewrite length_app, le_bytes_length.
  destruct (Nat.leb_spec w (w + length rest)); [|lia].
  rewrite take_app_exact by by rewrite le_bytes_length.
  by rewrite from_le_bytes_le_bytes, Z.mod_small.
Qed.

Lemma read_u32_app x rest : is_u32 x -> read_u32 (le_bytes 4 x ++ rest) = Some x.
Proof. intros. by apply (read_le_app 4). Qed.

Lemma read_u64_app x rest : is_u64 x -> read_u64 (le_bytes 8 x ++ rest) = Some x.
Proof. intros. by apply (read_le_app 8). Qed.

#[export] Hint Rewrite le_bytes_length : onda_rw.
#[export] Hint Resolve zigzag_u64 : onda.

(** ** Properties *)

(** A varint appended to any buffer decodes back to the number that was
    written, whatever bytes follow it; the decoder consumes exactly the bytes
    the encoder wrote, which is what [uvarint_len] predicts. *)
Theorem uvarint_roundtrip dst x rest :
  is_u64 x ->
  uvarint (drop (length dst) (append_uvarint dst x ++ rest)) = Some (x, uvarint_len x) /\
  drop (length dst + Z.to_nat (uvarint_len x)) (append_uvarint dst x ++ rest) = rest.
Proof.
  intros Hx. unfold append_uvarint. rewrite <- app_assoc, drop_app_length.
  rewrite uvarint_app, uvarint_len_length by done. split; [done|].
  rewrite <- drop_drop, drop_app_length. apply drop_app_exact. lia.
Qed.

Lemma uvarint_roundtrip_witness :
  uvarint (drop 1 (append_uvarint [x05] 16384 ++ [xff])) = Some (16384, 3).
Proof.
  destruct (uvarint_roundtrip [x05] 16384 [xff]) as [H _]; [unfold is_u64; lia|exact H].
Defined.

(** The one-, two-, three- and four-byte fast paths of [uvarint] are an
    optimisation only: on every byte string it answers what the byte-at-a-time
    loop answers, and an answer is always a 64-bit value read from one to ten
    bytes that the buffer has. *)
Theorem uvarint_fast_paths_sound b :
  uvarint b = uvarint_slow b /\
  match uvarint b with
  | Some (x, n) => is_u64 x /\ 0 < n <= 10 /\ n <= Z.of_nat (length b)
  | None => True
  end.
Proof.
  split; [apply uvarint_eq_slow|].
  destruct (uvarint b) as [[x n]|] eqn:E; [by apply uvarint_bounds|done].
Qed.

(** Zig-zag varints round trip over the whole signed 64-bit range, the
    minimum included, and [varint_len] is the number of bytes written. *)
Theorem varint_roundtrip dst x rest :
  is_i64 x ->
  varint (drop (length dst) (append_varint dst x ++ rest)) = Some (x, varint_len x) /\
  Z.of_nat (length (append_varint dst x)) = Z.of_nat (length dst) + varint_len x.
Proof.
  intros Hx. unfold append_varint, append_uvarint, varint_len.
  rewrite <- app_assoc, drop_app_length, varint_app, uvarint_len_length, length_app
    by auto with onda. split; [done|lia].
Qed.

Lemma varint_roundtrip_witness :
  varint (append_varint [] (- 2 ^ 63) ++ [x00]) = Some (- 2 ^ 63, 10).
Proof.
  destruct (varint_roundtrip [] (- 2 ^ 63) [x00]) as [H _]; [unfold is_i64; lia|exact H].
Defined.
