(* ===== verification/Codec.v ===== *)
(** * Decoders over a byte cursor

    The decoders of the sources keep a cursor into a byte slice and return the
    first error; here a decoder is a function from the remaining bytes to a
    value and the rest.  The lemmas carry the round trips of every codec of the
    development: a decoder [d] inverts an encoding [bs] of [x] when
    [decodes d bs x], whatever bytes follow. *)

From Stdlib Require Import ZArith Lia.
From Stdlib.Strings Require Import Byte.
From stdpp Require Import base list.
From S2P Require Import Prelude Encoding.

Open Scope Z_scope.

Definition decoder (A : Type) : Type := list byte -> result (A * list byte).

(** [uvarint(p).ok_or(e)?] followed by the advance of the cursor. *)
Definition dec_uvarint (e : OndaError) : decoder Z := fun p =>
  match uvarint p with
  | Some (x, n) => Ok (x, drop (Z.to_nat n) p)
  | None => Err e
  end.

Definition dec_varint (e : OndaError) : decoder Z := fun p =>
  match varint p with
  | Some (x, n) => Ok (x, drop (Z.to_nat n) p)
  | None => Err e
  end.

(** The next [n] bytes, or [e] when fewer remain. *)
Definition dec_bytes (e : OndaError) (n : Z) : decoder (list byte) := fun p =>
  if Z.of_nat (length p) <? n then Err e
  else Ok (take (Z.to_nat n) p, drop (Z.to_nat n) p).

(** A byte string behind its varint length. *)
Definition dec_lenbytes (e : OndaError) : decoder (list byte) := fun p =>
  let? (n, p) := dec_uvarint e p in dec_bytes e n p.

Definition dec_byte (e : OndaError) : decoder Z := fun p =>
  match p with
  | b :: p => Ok (Z_of_byte b, p)
  | [] => Err e
  end.

Definition dec_le (e : OndaError) (w : nat) : decoder Z := fun p =>
  match read_le w p with
  | Some x => Ok (x, drop w p)
  | None => Err e
  end.

(** [for _ in 0..count { .. }] over a decoder.  Every iteration of the decoders
    it is used with consumes at least one byte or fails, so one more unit of
    fuel than there are bytes is enough (see [dec_repeat_fuel]); without fuel
    the loop would be asked to read from an empty cursor, which is [e]. *)
Fixpoint dec_repeat_loop {A} (e : OndaError) (d : decoder A) (fuel : nat) (count : Z)
    (p : list byte) : result (list A * list byte) :=
  if count <=? 0 then Ok ([], p)
  else match fuel with
  | O => Err e
  | S fuel =>
      let? (x, p) := d p in
      let? (xs, p) := dec_repeat_loop e d fuel (count - 1) p in
      Ok (x :: xs, p)
  end.

Definition dec_repeat {A} (e : OndaError) (d : decoder A) (count : Z) : decoder (list A) := fun p =>
  dec_repeat_loop e d (S (length p)) count p.

(** The encoders' counterparts. *)
Definition enc_uvarint (x : Z) : list byte := append_uvarint [] x.
Definition enc_varint (x : Z) : list byte := append_varint [] x.
Definition enc_lenbytes (b : list byte) : list byte :=
  enc_uvarint (Z.of_nat (length b)) ++ b.

(** ** Byte slices *)

Definition zlen (b : list byte) : Z := Z.of_nat (length b).

Definition all_zero (b : list byte) : bool := forallb (fun x => Z_of_byte x =? 0) b.

Definition beq (a b : list byte) : bool := bool_decide (a = b).

(** [&b[i..j]]. *)
Definition slice (b : list byte) (i j : nat) : list byte := take (j - i) (drop i b).

(** ** Lemmas *)

Lemma from_le_bytes_u32 x : is_u32 x -> from_le_bytes (le_bytes 4 x) = x.
Proof. intros. rewrite from_le_bytes_le_bytes. by apply Z.mod_small. Qed.

Lemma from_le_bytes_u64 x : is_u64 x -> from_le_bytes (le_bytes 8 x) = x.
Proof. intros. rewrite from_le_bytes_le_bytes. by apply Z.mod_small. Qed.

Lemma slice_app a b c i j : i = length a -> j = (length a + length b)%nat -> slice (a ++ b ++ c) i j = b.
Proof. intros -> ->. unfold slice. rewrite drop_app_length. apply take_app_exact. lia. Qed.

Definition decodes {A} (d : decoder A) (bs : list byte) (x : A) : Prop :=
  forall rest, d (bs ++ rest) = Ok (x, rest).

Lemma enc_uvarint_eq x : enc_uvarint x = uvarint_loop 10 x.
Proof. done. Qed.

Lemma enc_uvarint_nonempty x : (0 < length (enc_uvarint x))%nat.
Proof. rewrite enc_uvarint_eq. cbn [uvarint_loop]. destruct (_ <=? _); cbn; lia. Qed.

Lemma uvarint_loop_length fuel x : (length (uvarint_loop fuel x) <= fuel)%nat.
Proof. revert x. induction fuel as [|fuel IH]; intros x; cbn; [lia|]. destruct (_ <=? _); cbn; [specialize (IH (Z.shiftr x 7))|]; lia. Qed.

Lemma enc_uvarint_length x : (length (enc_uvarint x) <= 10)%nat.
Proof. rewrite enc_uvarint_eq. apply uvarint_loop_length. Qed.

Lemma zlen_app a b : zlen (a ++ b) = zlen a + zlen b.
Proof. unfold zlen. rewrite length_app. lia. Qed.

Lemma dec_uvarint_enc e x : is_u64 x -> decodes (dec_uvarint e) (enc_uvarint x) x.
Proof.
  intros Hx rest. unfold dec_uvarint. rewrite enc_uvarint_eq, uvarint_app by done.
  by rewrite drop_app_exact by lia.
Qed.

Lemma dec_varint_enc e x : is_i64 x -> decodes (dec_varint e) (enc_varint x) x.
Proof.
  intros Hx rest. unfold dec_varint, enc_varint, append_varint, append_uvarint. cbn [app].
  rewrite varint_app by done. by rewrite drop_app_exact by lia.
Qed.

Lemma dec_bytes_enc e b : decodes (dec_bytes e (Z.of_nat (length b))) b b.
Proof.
  intros rest. unfold dec_bytes. rewrite length_app.
  destruct (Z.ltb_spec (Z.of_nat (length b + length rest)) (Z.of_nat (length b))); [lia|].
  by rewrite Nat2Z.id, take_app_length, drop_app_length.
Qed.

(** A decoder followed by another one. *)
Lemma decodes_bind {A B} (d : decoder A) (f : A -> decoder B) bs1 bs2 x y :
  decodes d bs1 x -> decodes (f x) bs2 y ->
  decodes (fun p => let? (a, p) := d p in f a p) (bs1 ++ bs2) y.
Proof. intros H1 H2 rest. rewrite <- app_assoc, H1. cbn. apply H2. Qed.

Definition is_len (b : list byte) : Prop := is_u64 (Z.of_nat (length b)).

Lemma dec_lenbytes_enc e b : is_len b -> decodes (dec_lenbytes e) (enc_lenbytes b) b.
Proof.
  intros Hb. apply (decodes_bind (dec_uvarint e) (dec_bytes e) _ _ (Z.of_nat (length b)));
    [by apply dec_uvarint_enc | apply dec_bytes_enc].
Qed.

Lemma dec_le_enc e w x :
  0 <= x < 2 ^ (8 * Z.of_nat w) -> decodes (dec_le e w) (le_bytes w x) x.
Proof.
  intros Hx rest. unfold dec_le. rewrite read_le_app by done.
  by rewrite drop_app_exact by by rewrite le_bytes_length.
Qed.

Lemma dec_byte_enc e x : is_u8 x -> decodes (dec_byte e) [byte_of_Z x] x.
Proof. intros Hx rest. cbn. by rewrite Z_of_byte_of_Z_small. Qed.

(** A decoder that makes progress: it never grows the cursor and a success
    takes at least one byte. *)
Definition progress {A} (d : decoder A) : Prop :=
  forall p x p', d p = Ok (x, p') -> (length p' < length p)%nat.

Lemma dec_uvarint_progress e : progress (dec_uvarint e).
Proof.
  intros p x p'. unfold dec_uvarint. destruct (uvarint p) as [[y n]|] eqn:E; [|done].
  intros H. injection H as <- <-. apply uvarint_bounds in E as (_ & ? & ?).
  rewrite length_drop. lia.
Qed.

Lemma dec_bytes_shrinks e n p x p' :
  dec_bytes e n p = Ok (x, p') -> (length p' <= length p)%nat.
Proof.
  unfold dec_bytes. destruct (_ <? _); intros E; [done|]. injection E as <- <-.
  rewrite length_drop. lia.
Qed.

Lemma dec_lenbytes_progress e : progress (dec_lenbytes e).
Proof.
  intros p x p'. unfold dec_lenbytes. destruct (dec_uvarint e p) as [[n q]|] eqn:E; [|done].
  cbn. intros H. apply dec_uvarint_progress in E. apply dec_bytes_shrinks in H. lia.
Qed.

(** Enough fuel is enough: more changes nothing. *)
Lemma dec_repeat_fuel {A} e (d : decoder A) fuel fuel' count p :
  progress d -> (length p < fuel)%nat -> (length p < fuel')%nat ->
  dec_repeat_loop e d fuel count p = dec_repeat_loop e d fuel' count p.
Proof.
  intros Hd. revert fuel' count p. induction fuel as [|fuel IH]; intros [|fuel'] count p Hf Hf';
    [lia..|]. cbn [dec_repeat_loop]. destruct (count <=? 0); [done|].
  destruct (d p) as [[x q]|] eqn:E; [|done]. cbn. apply Hd in E.
  by rewrite (IH fuel') by lia.
Qed.

Lemma dec_repeat_loop_enc {A} e (d : decoder A) (enc : A -> list byte) (xs : list A) rest fuel :
  (forall x, x ∈ xs -> decodes d (enc x) x) ->
  (forall x, x ∈ xs -> (0 < length (enc x))%nat) ->
  (length (concat (map enc xs)) < fuel)%nat ->
  dec_repeat_loop e d fuel (Z.of_nat (length xs)) (concat (map enc xs) ++ rest) = Ok (xs, rest).
Proof.
  intros Hd Hp. revert fuel. induction xs as [|x xs IH]; intros fuel Hf.
  - by destruct fuel.
  - destruct fuel as [|fuel]; [lia|]. cbn [dec_repeat_loop length map concat] in *.
    rewrite length_app in Hf. pose proof (Hp x ltac:(left)).
    destruct (Z.leb_spec (Z.of_nat (S (length xs))) 0); [lia|].
    rewrite <- app_assoc, Hd by left. cbn.
    replace (Z.of_nat (S (length xs)) - 1) with (Z.of_nat (length xs)) by lia.
    rewrite IH; [done|..]; [intros; apply Hd; by right | intros; apply Hp; by right | lia].
Qed.

Lemma dec_repeat_enc {A} e (d : decoder A) (enc : A -> list byte) n (xs : list A) :
  (forall x, x ∈ xs -> decodes d (enc x) x) ->
  (forall x, x ∈ xs -> (0 < length (enc x))%nat) ->
  n = Z.of_nat (length xs) ->
  decodes (dec_repeat e d n) (concat (map enc xs)) xs.
Proof.
  intros Hd Hp -> rest. unfold dec_repeat. apply dec_repeat_loop_enc; [done..|].
  rewrite length_app. lia.
Qed.

#[export] Hint Resolve dec_uvarint_enc dec_varint_enc dec_lenbytes_enc dec_byte_enc
  dec_bytes_enc dec_uvarint_progress dec_lenbytes_progress enc_uvarint_nonempty : onda.
