(* ===== verification/Comparator.v ===== *)
(** * Key comparators (comparator.rs)

    The [Comparator] trait as a record of operations, its documented contract
    as the class [TotalOrder], and the six built-in comparators.  Components
    that order keys (range tombstones, reads, compaction, transactions) are
    proved against the class; the built-ins discharge it here.  The file
    also carries the order solver [korder] those components use. *)

From Stdlib Require Import ZArith Lia.
From Stdlib.Strings Require Import Byte.
From stdpp Require Import base list strings.
From S2P Require Import Prelude Encoding.

Open Scope Z_scope.

Abbreviation key := (list byte).

(** ** [std::cmp::Ordering] *)

Definition is_lt (o : comparison) : bool := match o with Lt => true | _ => false end.
Definition is_le (o : comparison) : bool := match o with Gt => false | _ => true end.
Definition is_gt (o : comparison) : bool := match o with Gt => true | _ => false end.
Definition is_ge (o : comparison) : bool := match o with Lt => false | _ => true end.
Definition is_eq (o : comparison) : bool := match o with Eq => true | _ => false end.

(** [Ordering::then_with]. *)
Definition then_with (o k : comparison) : comparison :=
  match o with Eq => k | _ => o end.

(** [std::ops::Bound] of a key. *)
Inductive Bound := Unbounded | Included (k : key) | Excluded (k : key).

(** [<\[T\]>::cmp]: lexicographic, a strict prefix first. *)
Fixpoint lex_cmp {A} (c : A -> A -> comparison) (a b : list A) : comparison :=
  match a, b with
  | [], [] => Eq
  | [], _ :: _ => Lt
  | _ :: _, [] => Gt
  | x :: a, y :: b => then_with (c x y) (lex_cmp c a b)
  end.

Definition byte_cmp (x y : byte) : comparison := Z_of_byte x ?= Z_of_byte y.

Definition slice_cmp (a b : key) : comparison := lex_cmp byte_cmp a b.

(** ** The trait and its contract *)

Record Comparator := mkComparator {
  compare : key -> key -> comparison;
  comparator_name : string;
  is_bytewise : bool
}.

(** The laws of an order given by a three-way comparison. *)
Record ord_laws {A} (c : A -> A -> comparison) : Prop := {
  ol_eq a b : c a b = Eq <-> a = b;
  ol_anti a b : c a b = CompOpp (c b a);
  ol_trans x y z : c x y = Lt -> c y z = Lt -> c x z = Lt
}.

(** What [Comparator::compare] and [is_bytewise] must promise: a total order
    in which [Equal] means byte-identical, and the bytewise flag only on
    plain byte order. *)
Class TotalOrder (cmp : Comparator) : Prop := {
  total_laws : ord_laws (compare cmp);
  bytewise_exact a b : is_bytewise cmp = true -> compare cmp a b = slice_cmp a b
}.

(** ** The built-in comparators *)

Definition Bytewise : Comparator := mkComparator (fun a b => slice_cmp a b) "memcmp" true.

Definition ReverseBytewise : Comparator := mkComparator (fun a b => slice_cmp b a) "reverse" false.

Definition Lexicographic : Comparator :=
  mkComparator (fun a b => slice_cmp a b) "lexicographic" true.

(** [u64::from_be_bytes] of the first eight bytes. *)
Fixpoint from_be_bytes (acc : Z) (b : key) : Z :=
  match b with
  | [] => acc
  | x :: b => from_be_bytes (256 * acc + Z_of_byte x) b
  end.

Definition be_u64 (b : key) : Z := from_be_bytes 0 (take 8 b).

Definition both8 (a b : key) : bool := (length a =? 8)%nat && (length b =? 8)%nat.

Definition Uint64Cmp : Comparator :=
  mkComparator
    (fun a b => if both8 a b then be_u64 a ?= be_u64 b else slice_cmp a b)
    "uint64" false.

Definition ZERO : key := repeat x00 8.

Definition int64_rank (k : key) : key * Z * Z :=
  if (length k =? 8)%nat && negb (Z.land (Z_of_byte (default x00 (head k))) 0x80 =? 0)
  then (ZERO, 0, to_i64 (be_u64 k))
  else (k, 1, 0).

(** The derived [Ord] of a tuple: componentwise, left to right. *)
Definition rank_cmp (a b : key * Z * Z) : comparison :=
  let '(ka, ta, va) := a in
  let '(kb, tb, vb) := b in
  then_with (slice_cmp ka kb) (then_with (ta ?= tb) (va ?= vb)).

Definition Int64Cmp : Comparator :=
  mkComparator
    (fun a b =>
       if both8 a b then to_i64 (be_u64 a) ?= to_i64 (be_u64 b)
       else rank_cmp (int64_rank a) (int64_rank b))
    "int64" false.

Definition to_ascii_lowercase (b : byte) : byte :=
  let v := Z_of_byte b in
  if (65 <=? v) && (v <=? 90) then byte_of_Z (v + 32) else b.

(** The [for i in 0..n] loop: the first position where the lowercased bytes
    differ decides; [Eq] when none of the common prefix does. *)
Fixpoint ci_prefix_cmp (a b : key) : comparison :=
  match a, b with
  | x :: a, y :: b =>
      match byte_cmp (to_ascii_lowercase x) (to_ascii_lowercase y) with
      | Eq => ci_prefix_cmp a b
      | non_eq => non_eq
      end
  | _, _ => Eq
  end.

Definition CaseInsensitive : Comparator :=
  mkComparator
    (fun a b =>
       match ci_prefix_cmp a b with
       | Eq => then_with (Nat.compare (length a) (length b)) (slice_cmp a b)
       | non_eq => non_eq
       end)
    "case_insensitive" false.

(** [FnComparator::new]: a user-supplied closure. *)
Definition FnComparator (n : string) (f : key -> key -> comparison) : Comparator :=
  mkComparator f n false.

(** ** Resolution by persisted name *)

Definition comparator_by_name (n : string) : option Comparator :=
  if bool_decide (n = "") || bool_decide (n = "memcmp") then Some Bytewise
  else if bool_decide (n = "reverse") then Some ReverseBytewise
  else if bool_decide (n = "lexicographic") then Some Lexicographic
  else if bool_decide (n = "uint64") then Some Uint64Cmp
  else if bool_decide (n = "int64") then Some Int64Cmp
  else if bool_decide (n = "case_insensitive") then Some CaseInsensitive
  else None.

Definition resolve_comparator (n : string) (registry : list Comparator) : option Comparator :=
  match comparator_by_name n with
  | Some c => Some c
  | None => List.find (fun c => bool_decide (comparator_name c = n)) registry
  end.

(** ** Orders from orders *)

Lemma then_with_Eq_r o : then_with o Eq = o.
Proof. by destruct o. Qed.

Lemma then_with_assoc a b c : then_with (then_with a b) c = then_with a (then_with b c).
Proof. by destruct a. Qed.

Lemma ol_refl {A} (c : A -> A -> comparison) a : ord_laws c -> c a a = Eq.
Proof. intros L. by apply (ol_eq c L). Qed.

Lemma Z_ord_laws : ord_laws Z.compare.
Proof.
  split; intros *; [apply Z.compare_eq_iff | by rewrite Z.compare_antisym |].
  rewrite !Z.compare_lt_iff. lia.
Qed.

Lemma pullback_laws {A B} (f : A -> B) (c : B -> B -> comparison) :
  (forall a b, f a = f b -> a = b) -> ord_laws c -> ord_laws (fun a b => c (f a) (f b)).
Proof.
  intros Hinj L. split; intros *; [| apply (ol_anti c L) | apply (ol_trans c L)].
  rewrite (ol_eq c L). split; [apply Hinj | by intros ->].
Qed.

Lemma flip_laws {A} (c : A -> A -> comparison) : ord_laws c -> ord_laws (fun a b => c b a).
Proof.
  intros L. split; intros *; [| apply (ol_anti c L) |].
  - rewrite (ol_eq c L). done.
  - intros H1 H2. by apply (ol_trans c L) with y.
Qed.

Definition pair_cmp {A B} (c : A -> A -> comparison) (d : B -> B -> comparison)
    (x y : A * B) : comparison :=
  then_with (c x.1 y.1) (d x.2 y.2).

Lemma pair_laws {A B} (c : A -> A -> comparison) (d : B -> B -> comparison) :
  ord_laws c -> ord_laws d -> ord_laws (pair_cmp c d).
Proof.
  intros L M. split; unfold pair_cmp.
  - intros [a b] [a' b']. cbn. pose proof (ol_eq c L a a') as E1. pose proof (ol_eq d M b b') as E2.
    destruct (c a a'), (d b b'); cbn; naive_solver.
  - intros [a b] [a' b']. cbn. rewrite (ol_anti c L a a'), (ol_anti d M b b').
    by destruct (c a' a).
  - intros [a b] [a' b'] [a2 b2]. cbn.
    destruct (c a a') eqn:E1; cbn; [| |done].
    + apply (ol_eq c L) in E1 as ->. destruct (c a' a2) eqn:E2; cbn; [|done..].
      apply (ol_trans d M).
    + intros _. destruct (c a' a2) eqn:E2; cbn; [| |done]; intros _.
      * apply (ol_eq c L) in E2 as <-. by rewrite E1.
      * by rewrite (ol_trans c L a a' a2).
Qed.

Lemma lex_laws {A} (c : A -> A -> comparison) : ord_laws c -> ord_laws (lex_cmp c).
Proof.
  intros L. split.
  - induction a as [|x a IH]; intros [|y b]; cbn; try done.
    specialize (IH b). pose proof (ol_eq c L x y) as E.
    destruct (c x y), (lex_cmp c a b); cbn; naive_solver.
  - induction a as [|x a IH]; intros [|y b]; cbn; try done.
    rewrite (ol_anti c L x y), (IH b). by destruct (c y x).
  - induction x as [|x xs IH]; intros [|y ys] [|z zs]; cbn; try done.
    destruct (c x y) eqn:E1; cbn; [| |done].
    + apply (ol_eq c L) in E1 as ->. destruct (c y z); cbn; [apply IH|done..].
    + intros _. destruct (c y z) eqn:E2; cbn; [| |done]; intros _.
      * apply (ol_eq c L) in E2 as <-. by rewrite E1.
      * by rewrite (ol_trans c L x y z).
Qed.

Lemma byte_ord_laws : ord_laws byte_cmp.
Proof. apply (pullback_laws Z_of_byte); [apply Z_of_byte_inj | apply Z_ord_laws]. Qed.

Lemma slice_ord_laws : ord_laws slice_cmp.
Proof. apply lex_laws, byte_ord_laws. Qed.

(** Extensionally equal comparisons share their laws. *)
Lemma ext_laws {A} (c d : A -> A -> comparison) :
  (forall a b, c a b = d a b) -> ord_laws d -> ord_laws c.
Proof. intros E L. split; intros *; rewrite !E; apply L. Qed.

(** ** Big-endian integers against byte order *)

Lemma digit_compare m n x y :
  0 <= x < 256 -> 0 <= y < 256 ->
  (256 * m + x ?= 256 * n + y) = then_with (m ?= n) (x ?= y).
Proof.
  intros. destruct (Z.compare_spec m n) as [->|?|?]; cbn.
  - destruct (Z.compare_spec x y);
      [apply Z.compare_eq_iff | apply Z.compare_lt_iff | apply Z.compare_gt_iff]; lia.
  - apply Z.compare_lt_iff. lia.
  - apply Z.compare_gt_iff. lia.
Qed.

Lemma from_be_bytes_compare a b m n :
  length a = length b ->
  (from_be_bytes m a ?= from_be_bytes n b) = then_with (m ?= n) (slice_cmp a b).
Proof.
  revert b m n. induction a as [|x a IH]; intros [|y b] m n E; try discriminate E; cbn.
  - by rewrite then_with_Eq_r.
  - rewrite IH by (cbn in E; lia). rewrite digit_compare by apply Z_of_byte_range.
    apply then_with_assoc.
Qed.

Lemma be_u64_compare a b :
  length a = 8%nat -> length b = 8%nat -> (be_u64 a ?= be_u64 b) = slice_cmp a b.
Proof.
  intros Ha Hb. unfold be_u64. rewrite !take_ge by lia.
  by rewrite from_be_bytes_compare by lia.
Qed.

Lemma from_be_bytes_range acc b :
  0 <= acc ->
  acc * 2 ^ (8 * Z.of_nat (length b)) <= from_be_bytes acc b
  < (acc + 1) * 2 ^ (8 * Z.of_nat (length b)).
Proof.
  revert acc. induction b as [|x b IH]; intros acc Hacc; cbn [from_be_bytes length]; [lia|].
  pose proof (Z_of_byte_range x). specialize (IH (256 * acc + Z_of_byte x) ltac:(lia)).
  rewrite Nat2Z.inj_succ, Z.mul_succ_r, Z.pow_add_r by lia. change (2 ^ 8) with 256.
  assert (0 < 2 ^ (8 * Z.of_nat (length b))) by (apply Z.pow_pos_nonneg; lia). nia.
Qed.

Lemma be_u64_sign x k :
  length (x :: k) = 8%nat ->
  Z_of_byte x * 2 ^ 56 <= be_u64 (x :: k) < (Z_of_byte x + 1) * 2 ^ 56.
Proof.
  intros E. unfold be_u64. rewrite take_ge by lia. cbn [from_be_bytes].
  pose proof (Z_of_byte_range x). pose proof (from_be_bytes_range (256 * 0 + Z_of_byte x) k).
  cbn in E. replace (length k) with 7%nat in * by lia.
  change (8 * Z.of_nat 7) with 56 in *. lia.
Qed.

(** ** The built-ins satisfy the contract *)

Lemma both8_spec a b :
  both8 a b = true <-> length a = 8%nat /\ length b = 8%nat.
Proof. unfold both8. rewrite andb_true_iff, !Nat.eqb_eq. done. Qed.

Lemma uint64_is_slice_cmp a b : compare Uint64Cmp a b = slice_cmp a b.
Proof.
  cbn. destruct (both8 a b) eqn:E; [|done].
  apply both8_spec in E as [? ?]. by apply be_u64_compare.
Qed.

(** A negative key is an 8-byte key whose top bit is set. *)
Definition negative (k : key) : bool :=
  (length k =? 8)%nat && negb (Z.land (Z_of_byte (default x00 (head k))) 0x80 =? 0).

Lemma land_128 v : 0 <= v < 256 -> (Z.land v 0x80 =? 0) = (v <? 128).
Proof.
  intros Hv. replace v with (Z.of_nat (Z.to_nat v)) by lia.
  assert (Hn : (Z.to_nat v < 256)%nat) by lia. revert Hn. generalize (Z.to_nat v).
  intros n Hn. do 256 (destruct n as [|n]; [reflexivity|]). lia.
Qed.

Lemma negative_spec k :
  length k = 8%nat ->
  to_i64 (be_u64 k) = if negative k then be_u64 k - 2 ^ 64 else be_u64 k.
Proof.
  intros E. destruct k as [|x k]; [done|]. pose proof (be_u64_sign x k E).
  pose proof (Z_of_byte_range x). unfold negative. rewrite E. cbn [head default from_option id Nat.eqb andb].
  rewrite land_128 by done. unfold to_i64. rewrite !(Z.mod_small (be_u64 _)) by lia.
  destruct (Z.ltb_spec (Z_of_byte x) 128), (Z.ltb_spec (be_u64 (x :: k)) (2 ^ 63)); cbn [negb]; lia.
Qed.

Lemma be_u64_range k : length k = 8%nat -> is_u64 (be_u64 k).
Proof.
  intros E. destruct k as [|x k]; [done|]. pose proof (be_u64_sign x k E).
  pose proof (Z_of_byte_range x). unfold is_u64. lia.
Qed.

Lemma int64_rank_negative k :
  int64_rank k = if negative k then (ZERO, 0, to_i64 (be_u64 k)) else (k, 1, 0).
Proof. done. Qed.

Lemma negative_length k : negative k = true -> length k = 8%nat.
Proof. unfold negative. intros. boolprop. by apply Nat.eqb_eq. Qed.

Lemma ZERO_least k : length k = 8%nat -> slice_cmp ZERO k <> Gt.
Proof.
  intros E. rewrite <- be_u64_compare by done. pose proof (be_u64_range k E) as [? ?].
  change (be_u64 ZERO) with 0. rewrite Z.compare_gt_iff. lia.
Qed.

Lemma int64_rank_agrees a b :
  length a = 8%nat -> length b = 8%nat ->
  (to_i64 (be_u64 a) ?= to_i64 (be_u64 b)) = rank_cmp (int64_rank a) (int64_rank b).
Proof.
  intros Ha Hb. pose proof (be_u64_range a Ha) as [? ?]. pose proof (be_u64_range b Hb) as [? ?].
  rewrite !int64_rank_negative. pose proof (negative_spec a Ha) as Na.
  pose proof (negative_spec b Hb) as Nb.
  destruct (negative a), (negative b); unfold rank_cmp.
  - rewrite (ol_refl slice_cmp) by apply slice_ord_laws. done.
  - pose proof (ZERO_least b Hb). rewrite Na, Nb.
    transitivity Lt; [apply Z.compare_lt_iff; lia|]. by destruct (slice_cmp ZERO b).
  - pose proof (ZERO_least a Ha). rewrite Na, Nb, (ol_anti _ slice_ord_laws a ZERO).
    transitivity Gt; [apply Z.compare_gt_iff; lia|]. by destruct (slice_cmp ZERO a).
  - rewrite Na, Nb, be_u64_compare by done. cbn. by rewrite then_with_Eq_r.
Qed.

Lemma int64_rank_inj a b : int64_rank a = int64_rank b -> a = b.
Proof.
  rewrite !int64_rank_negative. destruct (negative a) eqn:Ea, (negative b) eqn:Eb; [|congruence..].
  apply negative_length in Ea as La, Eb as Lb. rewrite !negative_spec, Ea, Eb by done. intros E.
  injection E as E. apply (ol_eq _ slice_ord_laws). rewrite <- be_u64_compare by done.
  apply Z.compare_eq_iff. lia.
Qed.

Lemma int64_is_rank_cmp a b : compare Int64Cmp a b = rank_cmp (int64_rank a) (int64_rank b).
Proof.
  cbn. destruct (both8 a b) eqn:E; [|done].
  apply both8_spec in E as [? ?]. by apply int64_rank_agrees.
Qed.

Lemma rank_ord_laws : ord_laws rank_cmp.
Proof.
  apply ext_laws with (pair_cmp (pair_cmp slice_cmp Z.compare) Z.compare).
  - intros [[? ?] ?] [[? ?] ?]. unfold pair_cmp. cbn. by rewrite then_with_assoc.
  - repeat apply pair_laws; apply slice_ord_laws || apply Z_ord_laws.
Qed.

(** The loop and the length comparison together are the lexicographic order of
    the lowercased keys. *)
Lemma ci_prefix_lex a b :
  then_with (ci_prefix_cmp a b) (Nat.compare (length a) (length b))
  = slice_cmp (map to_ascii_lowercase a) (map to_ascii_lowercase b).
Proof.
  revert b. induction a as [|x a IH]; intros [|y b]; [done..|].
  cbn [ci_prefix_cmp length map slice_cmp lex_cmp]. unfold slice_cmp in IH |- *.
  cbn [lex_cmp]. rewrite <- IH. change (Nat.compare (S _) (S _)) with (Nat.compare (length a) (length b)).
  by destruct (byte_cmp _ _).
Qed.

Lemma case_insensitive_is_pair a b :
  compare CaseInsensitive a b
  = pair_cmp slice_cmp slice_cmp (map to_ascii_lowercase a, a) (map to_ascii_lowercase b, b).
Proof.
  unfold pair_cmp. cbn [fst snd]. rewrite <- ci_prefix_lex, then_with_assoc. cbn.
  by destruct (ci_prefix_cmp a b).
Qed.

#[export] Instance Bytewise_total : TotalOrder Bytewise.
Proof. split; [apply slice_ord_laws | done]. Qed.

#[export] Instance Lexicographic_total : TotalOrder Lexicographic.
Proof. split; [apply slice_ord_laws | done]. Qed.

#[export] Instance ReverseBytewise_total : TotalOrder ReverseBytewise.
Proof. split; [apply (flip_laws slice_cmp), slice_ord_laws | done]. Qed.

#[export] Instance Uint64Cmp_total : TotalOrder Uint64Cmp.
Proof. split; [apply (ext_laws _ _ uint64_is_slice_cmp), slice_ord_laws | done]. Qed.

#[export] Instance Int64Cmp_total : TotalOrder Int64Cmp.
Proof.
  split; [|done]. apply (ext_laws _ _ int64_is_rank_cmp).
  apply (pullback_laws int64_rank rank_cmp int64_rank_inj rank_ord_laws).
Qed.

#[export] Instance CaseInsensitive_total : TotalOrder CaseInsensitive.
Proof.
  split; [|done]. apply (ext_laws _ _ case_insensitive_is_pair).
  apply (pullback_laws (fun k => (map to_ascii_lowercase k, k))); [congruence|].
  apply pair_laws; apply slice_ord_laws.
Qed.

(** ** Ordering keys under a comparator

    [klt], [kle] are the strict and weak orders of a comparator; the boolean
    tests of the source reflect them, and [korder] decides order goals from
    the order facts in the context. *)

Definition klt (cmp : Comparator) (a b : key) : Prop := compare cmp a b = Lt.
Definition kle (cmp : Comparator) (a b : key) : Prop := compare cmp a b <> Gt.

#[export] Instance klt_dec cmp a b : Decision (klt cmp a b).
Proof. unfold klt. solve_decision. Defined.
#[export] Instance kle_dec cmp a b : Decision (kle cmp a b).
Proof. unfold kle. solve_decision. Defined.

Section KeyOrder.
Context (cmp : Comparator) `{!TotalOrder cmp}.
Implicit Types a b c : key.

Let L : ord_laws (compare cmp) := total_laws.

Lemma klt_irrefl a : ~ klt cmp a a.
Proof. unfold klt. by rewrite (ol_refl _ a L). Qed.

Lemma klt_trans a b c : klt cmp a b -> klt cmp b c -> klt cmp a c.
Proof. apply (ol_trans _ L). Qed.

Lemma kle_lt_or_eq a b : kle cmp a b <-> klt cmp a b \/ a = b.
Proof.
  unfold kle, klt. rewrite <- (ol_eq _ L a b). destruct (compare cmp a b); naive_solver.
Qed.

Lemma not_klt a b : ~ klt cmp a b <-> kle cmp b a.
Proof.
  unfold kle, klt. rewrite (ol_anti _ L b a). destruct (compare cmp a b); naive_solver.
Qed.

Lemma not_kle a b : ~ kle cmp a b <-> klt cmp b a.
Proof. rewrite <- not_klt. destruct (decide (klt cmp b a)); naive_solver. Qed.

Lemma kle_refl a : kle cmp a a.
Proof. apply kle_lt_or_eq. by right. Qed.

Lemma kle_of_eq a b : a = b -> kle cmp a b.
Proof. intros ->. apply kle_refl. Qed.

Lemma klt_kle a b : klt cmp a b -> kle cmp a b.
Proof. intros. apply kle_lt_or_eq. by left. Qed.

Lemma kle_trans a b c : kle cmp a b -> kle cmp b c -> kle cmp a c.
Proof. rewrite !kle_lt_or_eq. intros [?| ->] [?| <-]; eauto using klt_trans. Qed.

Lemma klt_le_trans a b c : klt cmp a b -> kle cmp b c -> klt cmp a c.
Proof. rewrite kle_lt_or_eq. intros ? [?| <-]; eauto using klt_trans. Qed.

Lemma kle_lt_trans a b c : kle cmp a b -> klt cmp b c -> klt cmp a c.
Proof. rewrite kle_lt_or_eq. intros [?| ->] ?; eauto using klt_trans. Qed.

Lemma kle_antisym a b : kle cmp a b -> kle cmp b a -> a = b.
Proof.
  rewrite (kle_lt_or_eq a b). intros [?|?] Hba; [|done]. exfalso. by apply not_klt in Hba.
Qed.

Lemma kneq_lt a b : a <> b -> kle cmp a b -> klt cmp a b.
Proof. rewrite kle_lt_or_eq. naive_solver. Qed.

Lemma kcompare_eq a b : compare cmp a b = Eq <-> a = b.
Proof. apply (ol_eq _ L). Qed.

Lemma is_lt_true a b : is_lt (compare cmp a b) = true <-> klt cmp a b.
Proof. unfold klt. by destruct (compare cmp a b). Qed.
Lemma is_lt_false a b : is_lt (compare cmp a b) = false <-> kle cmp b a.
Proof. rewrite <- not_klt. unfold klt. destruct (compare cmp a b); naive_solver. Qed.
Lemma is_le_true a b : is_le (compare cmp a b) = true <-> kle cmp a b.
Proof. unfold kle. destruct (compare cmp a b); naive_solver. Qed.
Lemma is_le_false a b : is_le (compare cmp a b) = false <-> klt cmp b a.
Proof. rewrite <- not_kle. unfold kle. destruct (compare cmp a b); naive_solver. Qed.
Lemma is_gt_true a b : is_gt (compare cmp a b) = true <-> klt cmp b a.
Proof. rewrite <- not_kle. unfold kle. destruct (compare cmp a b); naive_solver. Qed.
Lemma is_gt_false a b : is_gt (compare cmp a b) = false <-> kle cmp a b.
Proof. unfold kle. destruct (compare cmp a b); naive_solver. Qed.
Lemma is_ge_true a b : is_ge (compare cmp a b) = true <-> kle cmp b a.
Proof. rewrite <- not_klt. unfold klt. destruct (compare cmp a b); naive_solver. Qed.
Lemma is_ge_false a b : is_ge (compare cmp a b) = false <-> klt cmp a b.
Proof. unfold klt. by destruct (compare cmp a b). Qed.
Lemma is_eq_true a b : is_eq (compare cmp a b) = true <-> a = b.
Proof. rewrite <- kcompare_eq. by destruct (compare cmp a b). Qed.
Lemma is_eq_false a b : is_eq (compare cmp a b) = false <-> a <> b.
Proof. rewrite <- kcompare_eq. destruct (compare cmp a b); naive_solver. Qed.

End KeyOrder.

(** Boolean order tests in the context become order facts. *)
Ltac kbool :=
  boolprop;
  repeat match goal with
  | H : is_lt (compare ?c ?a ?b) = true |- _ => apply (proj1 (is_lt_true c a b)) in H
  | H : is_lt (compare ?c ?a ?b) = false |- _ => apply (proj1 (is_lt_false c a b)) in H
  | H : is_le (compare ?c ?a ?b) = true |- _ => apply (proj1 (is_le_true c a b)) in H
  | H : is_le (compare ?c ?a ?b) = false |- _ => apply (proj1 (is_le_false c a b)) in H
  | H : is_gt (compare ?c ?a ?b) = true |- _ => apply (proj1 (is_gt_true c a b)) in H
  | H : is_gt (compare ?c ?a ?b) = false |- _ => apply (proj1 (is_gt_false c a b)) in H
  | H : is_ge (compare ?c ?a ?b) = true |- _ => apply (proj1 (is_ge_true c a b)) in H
  | H : is_ge (compare ?c ?a ?b) = false |- _ => apply (proj1 (is_ge_false c a b)) in H
  | H : is_eq (compare ?c ?a ?b) = true |- _ => apply (proj1 (is_eq_true c a b)) in H
  | H : is_eq (compare ?c ?a ?b) = false |- _ => apply (proj1 (is_eq_false c a b)) in H
  | H : compare ?c ?a ?b = Eq |- _ => apply (proj1 (kcompare_eq c a b)) in H
  | H : ~ klt ?c ?a ?b |- _ => apply (proj1 (not_klt c a b)) in H
  | H : ~ kle ?c ?a ?b |- _ => apply (proj1 (not_kle c a b)) in H
  end.

Ltac pose_new H :=
  let T := type of H in
  lazymatch goal with
  | _ : T |- _ => fail
  | _ => pose proof H
  end.

Ltac korder_saturate :=
  repeat match goal with
  | H : klt ?c ?a ?a |- _ => exfalso; exact (klt_irrefl c a H)
  | H1 : klt ?c ?a ?b, H2 : klt ?c ?b ?d |- _ => pose_new (klt_trans c a b d H1 H2)
  | H1 : klt ?c ?a ?b, H2 : kle ?c ?b ?d |- _ => pose_new (klt_le_trans c a b d H1 H2)
  | H1 : kle ?c ?a ?b, H2 : klt ?c ?b ?d |- _ => pose_new (kle_lt_trans c a b d H1 H2)
  | H1 : kle ?c ?a ?b, H2 : kle ?c ?b ?d |- _ => pose_new (kle_trans c a b d H1 H2)
  | E : ?a = ?b, H : klt ?c _ _ |- _ => pose_new (kle_of_eq c a b E)
  | E : ?a = ?b, H : klt ?c _ _ |- _ => pose_new (kle_of_eq c b a (eq_sym E))
  | H1 : ?a <> ?b, H2 : kle ?c ?a ?b |- _ => pose_new (kneq_lt c a b H1 H2)
  | H1 : ?b <> ?a, H2 : kle ?c ?a ?b |- _ =>
      pose_new (kneq_lt c a b (not_eq_sym H1) H2)
  end.

(** Solve an order goal ([klt], [kle], key equality, [False]) by refutation. *)
Ltac korder :=
  kbool; subst;
  lazymatch goal with
  | |- klt ?c ?a ?b =>
      destruct (decide (klt c a b)) as [?|?]; [assumption | exfalso; kbool; korder_saturate]
  | |- kle ?c ?a ?b =>
      destruct (decide (kle c a b)) as [?|?]; [assumption | exfalso; kbool; korder_saturate]
  | |- False => korder_saturate
  | |- ?a = ?b =>
      match goal with
      | _ : context [compare ?c] |- _ => apply (kle_antisym c); korder
      | _ : kle ?c _ _ |- _ => apply (kle_antisym c); korder
      | _ : klt ?c _ _ |- _ => apply (kle_antisym c); korder
      end
  | |- _ => exfalso; korder_saturate
  end.

(** ** Properties *)

(** C20: Every comparator the engine can resolve from a persisted name is a
    total order in which two keys compare equal exactly when they are the same
    bytes: the six built-ins unconditionally (the signed 64-bit order with
    keys of mixed lengths and the case-insensitive order included), and a
    registered comparator when it keeps its contract.  The comparator found is
    the one the name stands for. *)
Theorem resolve_comparator_total n registry cmp :
  Forall TotalOrder registry ->
  resolve_comparator n registry = Some cmp ->
  TotalOrder cmp /\ (comparator_name cmp = n \/ (n = "" /\ cmp = Bytewise)).
Proof.
  intros Hreg. unfold resolve_comparator, comparator_by_name.
  repeat case_bool_decide; cbn [orb];
    try (intros E; injection E as <-; split; [apply _ | by subst; auto]).
  intros E. apply find_some in E as [Hin E]. boolprop. split; [|by left].
  rewrite Forall_forall in Hreg. by apply Hreg, list_elem_of_In.
Qed.

Lemma resolve_comparator_total_witness : TotalOrder Int64Cmp.
Proof.
  destruct (resolve_comparator_total "int64" [Bytewise] Int64Cmp) as [H _];
    [repeat constructor; apply slice_ord_laws | reflexivity | exact H].
Defined.
