(* ===== verification/Format.v ===== *)
(** * On-disk identifiers and internal keys (format.rs)

    The entry-flag byte of the flat records, the kinds and modifiers of the
    envelope records with the checks the decoders make on them, the capability
    word, the column-family id hash, and the internal key: the user key followed
    by the complemented sequence in big-endian order. *)

From Stdlib Require Import ZArith Lia.
From Stdlib.Strings Require Import Byte.
From stdpp Require Import base list.
From S2P Require Import Prelude Encoding Comparator.

Open Scope Z_scope.

(** ** Entry flags *)

Definition FLAG_TOMBSTONE : Z := 0x01.
Definition FLAG_HAS_TTL : Z := 0x02.
Definition FLAG_HAS_VLOG : Z := 0x04.
Definition FLAG_SINGLE_DELETE : Z := 0x10.

Definition KNOWN_ENTRY_FLAGS : Z :=
  Z.lor (Z.lor (Z.lor FLAG_TOMBSTONE FLAG_HAS_TTL) FLAG_HAS_VLOG) FLAG_SINGLE_DELETE.

(** [x & bit != 0]. *)
Definition has_bit (x bit : Z) : bool := negb (Z.land x bit =? 0).

(** [x & !mask != 0]: a bit outside the mask. *)
Definition outside (x mask : Z) : bool := negb (Z.land x (Z.lnot mask) =? 0).

Definition normalized_entry_flags (tombstone single_delete has_ttl has_vlog : bool) : Z :=
  let tombstone := tombstone || single_delete in
  let fl := 0 in
  let fl := if tombstone then Z.lor fl FLAG_TOMBSTONE else fl in
  let fl := if single_delete then Z.lor fl FLAG_SINGLE_DELETE else fl in
  let fl := if has_ttl then Z.lor fl FLAG_HAS_TTL else fl in
  if has_vlog && negb tombstone then Z.lor fl FLAG_HAS_VLOG else fl.

Definition check_entry_flags (fl : Z) : result unit :=
  ensure? negb (outside fl KNOWN_ENTRY_FLAGS) else Corruption ;;
  ensure? negb (has_bit fl FLAG_SINGLE_DELETE && negb (has_bit fl FLAG_TOMBSTONE)) else Corruption ;;
  ensure? negb (has_bit fl FLAG_TOMBSTONE && has_bit fl FLAG_HAS_VLOG) else Corruption ;;
  Ok tt.

(** ** Capabilities *)

Definition CAP_EXTENDED_RECORDS : Z := Z.shiftl 1 0.
Definition CAP_MERGE_OPERANDS : Z := Z.shiftl 1 1.
Definition CAP_RANGE_DELETES : Z := Z.shiftl 1 2.
Definition CAP_PREFIX_DELTA : Z := Z.shiftl 1 3.
Definition CAP_MANIFEST_EDITS : Z := Z.shiftl 1 4.
Definition CAP_PERIODIC_AGE : Z := Z.shiftl 1 5.
Definition CAP_TXN_DECISIONS : Z := Z.shiftl 1 6.
Definition CAP_WAL_FLOOR : Z := Z.shiftl 1 11.

Definition KNOWN_CAPS : Z :=
  Z.lor (Z.lor (Z.lor (Z.lor (Z.lor (Z.lor (Z.lor
    CAP_EXTENDED_RECORDS CAP_MERGE_OPERANDS) CAP_RANGE_DELETES) CAP_PREFIX_DELTA)
    CAP_MANIFEST_EDITS) CAP_PERIODIC_AGE) CAP_TXN_DECISIONS) CAP_WAL_FLOOR.

Definition check_caps (caps : Z) : result unit :=
  ensure? negb (outside caps KNOWN_CAPS) else UnsupportedFormat ;; Ok tt.

(** ** Record kinds and modifiers *)

Definition KIND_PUT : Z := 1.
Definition KIND_DELETE : Z := 2.
Definition KIND_SINGLE_DELETE : Z := 3.
Definition KIND_MERGE : Z := 4.
Definition KIND_RANGE_DELETE : Z := 5.
Definition KIND_PREPARE : Z := 16.
Definition KIND_COMMIT_DECISION : Z := 17.
Definition KIND_ABORT_DECISION : Z := 18.
Definition MAX_ASSIGNABLE_KIND : Z := 63.

Definition MOD_HAS_TTL : Z := 0x02.
Definition MOD_HAS_VLOG : Z := 0x04.
Definition MOD_KNOWN : Z := Z.lor MOD_HAS_TTL MOD_HAS_VLOG.

Definition is_control_kind (kind : Z) : bool :=
  (kind =? KIND_PREPARE) || (kind =? KIND_COMMIT_DECISION) || (kind =? KIND_ABORT_DECISION).

Definition is_point_kind (kind : Z) : bool :=
  (kind =? KIND_PUT) || (kind =? KIND_DELETE) || (kind =? KIND_SINGLE_DELETE).

Definition check_kind (kind : Z) : result unit :=
  ensure? negb (MAX_ASSIGNABLE_KIND <? kind) else Corruption ;;
  if (kind =? KIND_PUT) || (kind =? KIND_DELETE) || (kind =? KIND_SINGLE_DELETE)
     || (kind =? KIND_MERGE) || (kind =? KIND_RANGE_DELETE) || (kind =? KIND_PREPARE)
     || (kind =? KIND_COMMIT_DECISION) || (kind =? KIND_ABORT_DECISION)
  then Ok tt
  else Err UnsupportedFormat.

Definition check_point_kind (kind : Z) : result unit :=
  let? _ := check_kind kind in
  ensure? negb (kind =? KIND_RANGE_DELETE) else Corruption ;;
  ensure? negb (is_control_kind kind) else Corruption ;;
  Ok tt.

Definition check_modifiers (mods : Z) : result unit :=
  ensure? negb (outside mods MOD_KNOWN) else Corruption ;; Ok tt.

Definition point_kind (tombstone single_delete : bool) : Z :=
  if single_delete then KIND_SINGLE_DELETE else if tombstone then KIND_DELETE else KIND_PUT.

(** ** Column-family ids *)

Definition FNV1A64_OFFSET_BASIS : Z := 0xcbf29ce484222325.
Definition FNV1A64_PRIME : Z := 0x100000001b3.

Definition fnv1a64 (bytes : list byte) : Z :=
  fold_left (fun h b => wrap64 (Z.lxor h (Z_of_byte b) * FNV1A64_PRIME)) bytes FNV1A64_OFFSET_BASIS.

(** ** Internal keys *)

(** [u64::to_be_bytes]. *)
Definition to_be_bytes (x : Z) : list byte := rev (le_bytes 8 x).

(** [!x] on a [u64]. *)
Definition not64 (x : Z) : Z := U64_MAX - x.

Definition TRAILER_SIZE : nat := 8.

Definition append_internal_key (dst user_key : list byte) (seq : Z) : list byte :=
  dst ++ user_key ++ to_be_bytes (not64 seq).

Definition make_internal_key (user_key : list byte) (seq : Z) : list byte :=
  append_internal_key [] user_key seq.

Definition user_key (ik : list byte) : list byte := take (length ik - TRAILER_SIZE) ik.

Definition seq (ik : list byte) : Z :=
  not64 (be_u64 (drop (length ik - TRAILER_SIZE) ik)).

Definition split_internal_key (ik : list byte) : list byte * Z := (user_key ik, seq ik).

(** ** Lemmas *)

Lemma to_be_bytes_length x : length (to_be_bytes x) = 8%nat.
Proof. unfold to_be_bytes. by rewrite length_rev, le_bytes_length. Qed.

Lemma from_be_bytes_snoc acc l b :
  from_be_bytes acc (l ++ [b]) = 256 * from_be_bytes acc l + Z_of_byte b.
Proof. revert acc. induction l as [|x l IH]; intros acc; cbn; [done|apply IH]. Qed.

Lemma from_be_bytes_rev l : from_be_bytes 0 (rev l) = from_le_bytes l.
Proof.
  induction l as [|b l IH]; [done|]. cbn [rev from_le_bytes].
  rewrite from_be_bytes_snoc, IH. lia.
Qed.

Lemma be_u64_to_be_bytes x : is_u64 x -> be_u64 (to_be_bytes x) = x.
Proof.
  intros Hx. unfold be_u64. rewrite take_ge by by rewrite to_be_bytes_length.
  unfold to_be_bytes. rewrite from_be_bytes_rev, from_le_bytes_le_bytes.
  by apply Z.mod_small.
Qed.

Lemma not64_u64 x : is_u64 x -> is_u64 (not64 x).
Proof. unfold is_u64, not64, U64_MAX. lia. Qed.

Lemma not64_involutive x : not64 (not64 x) = x.
Proof. unfold not64. lia. Qed.

Lemma slice_cmp_app_l p a b : slice_cmp (p ++ a) (p ++ b) = slice_cmp a b.
Proof.
  induction p as [|x p IH]; [done|]. cbn [app]. unfold slice_cmp in *. cbn [lex_cmp].
  rewrite IH. unfold byte_cmp. by rewrite Z.compare_refl.
Qed.

(** ** Properties *)

(** The flags byte a writer builds passes the strict check of every
    decoder, whatever booleans the caller hands in, and decodes to the kind and
    the TTL bit it was built from: the byte carries exactly the kind of the
    record, the presence of a TTL, and a vlog pointer only for a put. *)
Theorem entry_flags_accepted_and_exact t s h v :
  let fl := normalized_entry_flags t s h v in
  check_entry_flags fl = Ok tt /\
  point_kind (has_bit fl FLAG_TOMBSTONE) (has_bit fl FLAG_SINGLE_DELETE) = point_kind t s /\
  has_bit fl FLAG_HAS_TTL = h /\
  has_bit fl FLAG_HAS_VLOG = v && negb t && negb s.
Proof. by destruct t, s, h, v. Qed.

(** C25: an internal key splits back into the user key and the sequence it was
    made of, and the versions of one user key sort newest first: the byte order
    of two internal keys of the same user key is the reverse order of their
    sequences. *)
Theorem internal_key_roundtrip_and_order k s s' :
  is_u64 s -> is_u64 s' ->
  split_internal_key (make_internal_key k s) = (k, s) /\
  slice_cmp (make_internal_key k s) (make_internal_key k s') = (s' ?= s).
Proof.
  intros Hs Hs'. unfold make_internal_key, append_internal_key. cbn [app]. split.
  - unfold split_internal_key, user_key, seq.
    rewrite length_app, to_be_bytes_length, Nat.add_sub.
    rewrite take_app_exact, drop_app_exact by done.
    by rewrite be_u64_to_be_bytes, not64_involutive by by apply not64_u64.
  - rewrite slice_cmp_app_l, <- be_u64_compare by by rewrite !to_be_bytes_length.
    rewrite !be_u64_to_be_bytes by by apply not64_u64. unfold not64.
    destruct (Z.compare_spec s' s); [apply Z.compare_eq_iff|apply Z.compare_lt_iff
      |apply Z.compare_gt_iff]; lia.
Qed.

Lemma internal_key_roundtrip_and_order_witness :
  slice_cmp (make_internal_key [x6b] 9) (make_internal_key [x6b] 1) = Lt.
Proof.
  rewrite (proj2 (internal_key_roundtrip_and_order [x6b] 9 1
    ltac:(by split; vm_compute) ltac:(by split; vm_compute))). reflexivity.
Defined.
