(* ===== verification/Bloom.v ===== *)
(** * Bloom filters of table files (bloom.rs)

    A filter is the array of 64-bit words, its number of bits and its number of
    probes.  Keys enter it as their 64-bit hash; the hash function itself is
    third-party and appears only as the numbers handed in.  An index outside
    the word array panics in the source and is [None] here.  The sizing formula
    is floating point: [bloom_params] takes the two truncated results. *)

From Stdlib Require Import ZArith Lia.
From Stdlib.Strings Require Import Byte.
From stdpp Require Import base list.
From S2P Require Import Prelude Encoding Codec.

Open Scope Z_scope.

Definition BLOOM_HASH_XXH3 : Z := 1.
Definition MAX_K : Z := 30.

Record Bloom := mkBloom { b_bits : list Z; b_m : Z; b_k : Z }.

(** [Ord::clamp]. *)
Definition clamp (x lo hi : Z) : Z := Z.max lo (Z.min hi x).

(** [u64::div_ceil]. *)
Definition div_ceil (a b : Z) : Z := (a + b - 1) / b.

Definition bloom_params (mf kf : Z) : Z * Z := (clamp (mf + 1) 64 U32_MAX, clamp kf 1 MAX_K).

Definition bloom_new (mf kf : Z) : Bloom :=
  let '(m, k) := bloom_params mf kf in
  mkBloom (replicate (Z.to_nat (div_ceil m 64)) 0) m k.

Definition positions (m k h : Z) : list Z :=
  let h1 := wrap32 h in
  let h2 := wrap32 (Z.shiftr h 32) in
  map (fun i => wrap32 (h1 + wrap32 (Z.of_nat i * h2)) mod wrap32 m) (List.seq 0 (Z.to_nat k)).

Definition word_of (bit : Z) : nat := Z.to_nat (bit / 64).

Definition set_bit (bits : list Z) (bit : Z) : option (list Z) :=
  match bits !! word_of bit with
  | Some w => Some (<[word_of bit := Z.lor w (Z.shiftl 1 (bit mod 64))]> bits)
  | None => None
  end.

Fixpoint set_bits (bits : list Z) (ps : list Z) : option (list Z) :=
  match ps with
  | [] => Some bits
  | p :: ps => match set_bit bits p with Some bits => set_bits bits ps | None => None end
  end.

Definition add_hash (b : Bloom) (h : Z) : option Bloom :=
  match set_bits (b_bits b) (positions (b_m b) (b_k b) h) with
  | Some bits => Some (mkBloom bits (b_m b) (b_k b))
  | None => None
  end.

(** [Iterator::all], which stops at the first clear bit. *)
Fixpoint all_set (bits : list Z) (ps : list Z) : option bool :=
  match ps with
  | [] => Some true
  | p :: ps =>
      match bits !! word_of p with
      | Some w => if negb (Z.land w (Z.shiftl 1 (p mod 64)) =? 0) then all_set bits ps else Some false
      | None => None
      end
  end.

Definition may_contain_hash (b : Bloom) (h : Z) : option bool := all_set (b_bits b) (positions (b_m b) (b_k b) h).

(** The filter a writer builds from the hashes it buffered. *)
Fixpoint add_hashes (b : Bloom) (hs : list Z) : option Bloom :=
  match hs with
  | [] => Some b
  | h :: hs => match add_hash b h with Some b => add_hashes b hs | None => None end
  end.

Definition bloom_encode (b : Bloom) : list byte :=
  byte_of_Z BLOOM_HASH_XXH3 :: enc_uvarint (b_m b) ++ enc_uvarint (b_k b) ++ concat (map (le_bytes 8) (b_bits b)).

Fixpoint read_words (n : nat) (p : list byte) : list Z :=
  match n with
  | O => []
  | S n => from_le_bytes (take 8 p) :: read_words n (drop 8 p)
  end.

Definition bloom_decode (p : list byte) : result Bloom :=
  let? (hash, p) := dec_byte Corruption p in
  ensure? hash =? BLOOM_HASH_XXH3 else UnsupportedFormat ;;
  let? (m, p) := dec_uvarint Corruption p in
  let? (k, p) := dec_uvarint Corruption p in
  ensure? negb ((m =? 0) || (U32_MAX <? m)) else Corruption ;;
  ensure? negb ((k =? 0) || (MAX_K <? k)) else Corruption ;;
  let words := Z.to_nat (div_ceil m 64) in
  ensure? (length p =? words * 8)%nat else Corruption ;;
  Ok (mkBloom (read_words words p) m k).

(** ** Well-formed filters *)

Record bloom_wf (b : Bloom) : Prop := {
  bw_m : 1 <= b_m b < 2 ^ 32;
  bw_k : 1 <= b_k b <= MAX_K;
  bw_len : length (b_bits b) = Z.to_nat (div_ceil (b_m b) 64);
  bw_words : Forall is_u64 (b_bits b);
}.

Lemma positions_bound m k h p : 1 <= m < 2 ^ 32 -> p ∈ positions m k h -> 0 <= p < m.
Proof.
  intros Hm Hp. apply elem_of_map in Hp as (i & _ & <-). assert (wrap32 m = m) as -> by (apply Z.mod_small; lia).
  apply Z.mod_pos_bound. lia.
Qed.

Lemma word_in_range b p : bloom_wf b -> 0 <= p < b_m b -> (word_of p < length (b_bits b))%nat.
Proof.
  intros [] Hp. rewrite bw_len0. unfold word_of, div_ceil. apply Z2Nat.inj_lt; [apply Z.div_pos; lia|apply Z.div_pos; lia|].
  apply Z.div_lt_upper_bound; [lia|]. pose proof (Z.div_mod (b_m b + 64 - 1) 64). pose proof (Z.mod_pos_bound (b_m b + 64 - 1) 64). lia.
Qed.

Definition bit_set (bits : list Z) (p : Z) : Prop :=
  exists w, bits !! word_of p = Some w /\ Z.land w (Z.shiftl 1 (p mod 64)) <> 0.

Lemma land_bit w i : 0 <= i -> Z.land w (Z.shiftl 1 i) <> 0 <-> Z.testbit w i = true.
Proof.
  intros Hi. rewrite Z.shiftl_1_l. split.
  - intros H. destruct (Z.testbit w i) eqn:E; [done|]. exfalso. apply H. apply Z.bits_inj'. intros j Hj.
    rewrite Z.land_spec, Z.bits_0, Z.pow2_bits_eqb by done. destruct (Z.eqb_spec i j) as [<-|]; [by rewrite E|by rewrite andb_false_r].
  - intros H E. assert (Z.testbit (Z.land w (2 ^ i)) i = true) as H'.
    { rewrite Z.land_spec, H, Z.pow2_bits_eqb by done. by rewrite Z.eqb_refl. }
    rewrite E, Z.bits_0 in H'. done.
Qed.

Lemma lor_bit_u64 w i : is_u64 w -> 0 <= i < 64 -> is_u64 (Z.lor w (Z.shiftl 1 i)).
Proof.
  intros Hw Hi. unfold is_u64 in *. rewrite Z.shiftl_1_l.
  assert (0 <= Z.lor w (2 ^ i)) as H0 by (apply Z.lor_nonneg; split; [lia|apply Z.pow_nonneg; lia]).
  split; [done|]. destruct (Z.eq_dec (Z.lor w (2 ^ i)) 0) as [->|Hz]; [lia|].
  apply Z.log2_lt_pow2; [lia|]. rewrite Z.log2_lor by (try apply Z.pow_nonneg; lia). apply Z.max_lub_lt.
  - destruct (Z.eq_dec w 0) as [->|]; [done|]. apply Z.log2_lt_pow2; lia.
  - rewrite Z.log2_pow2; lia.
Qed.

(** Setting a bit keeps what is set, the length and the width of the words. *)
Lemma set_bit_spec bits p :
  (word_of p < length bits)%nat -> Forall is_u64 bits ->
  exists bits', set_bit bits p = Some bits' /\ length bits' = length bits /\ Forall is_u64 bits' /\
    bit_set bits' p /\ forall q, bit_set bits q -> bit_set bits' q.
Proof.
  intros Hp HF. unfold set_bit. destruct (lookup_lt_is_Some_2 bits _ Hp) as [w Hw]. rewrite Hw.
  pose proof (Z.mod_pos_bound p 64 ltac:(lia)) as Hb. eexists. split; [done|]. split; [by rewrite length_insert|].
  split. { apply Forall_insert; [done|]. apply lor_bit_u64; [|done]. by eapply Forall_lookup_1 in HF. }
  split.
  - eexists. split; [by apply list_lookup_insert_eq|]. rewrite land_bit by lia. rewrite Z.lor_spec, Z.shiftl_1_l, Z.pow2_bits_true by lia.
    by rewrite orb_true_r.
  - intros q (v & Hv & Hq). destruct (decide (word_of p = word_of q)) as [E|E].
    + rewrite E in *. rewrite Hw in Hv. injection Hv as <-. eexists. split; [by apply list_lookup_insert_eq|].
      pose proof (Z.mod_pos_bound q 64 ltac:(lia)). rewrite land_bit in * by lia. by rewrite Z.lor_spec, Hq.
    + exists v. by rewrite list_lookup_insert_ne.
Qed.

Lemma set_bits_spec ps bits :
  Forall (fun p => (word_of p < length bits)%nat) ps -> Forall is_u64 bits ->
  exists bits', set_bits bits ps = Some bits' /\ length bits' = length bits /\ Forall is_u64 bits' /\
    Forall (bit_set bits') ps /\ forall q, bit_set bits q -> bit_set bits' q.
Proof.
  revert bits. induction ps as [|p ps IH]; intros bits Hps HF; cbn [set_bits]; [by exists bits|].
  apply Forall_cons in Hps as [Hp Hps]. destruct (set_bit_spec bits p Hp HF) as (b1 & -> & L1 & F1 & S1 & K1).
  destruct (IH b1) as (b2 & -> & L2 & F2 & S2 & K2); [by rewrite L1|done|]. exists b2.
  repeat split; [congruence|done|apply Forall_cons; auto|auto].
Qed.

Lemma all_set_true bits ps : Forall (bit_set bits) ps -> all_set bits ps = Some true.
Proof.
  induction 1 as [|p ps (w & Hw & Hb) _ IH]; [done|]. cbn [all_set]. rewrite Hw.
  apply Z.eqb_neq in Hb. by rewrite Hb.
Qed.

Lemma add_hash_spec b h :
  bloom_wf b -> exists b', add_hash b h = Some b' /\ bloom_wf b' /\ b_m b' = b_m b /\ b_k b' = b_k b /\
    Forall (bit_set (b_bits b')) (positions (b_m b) (b_k b) h) /\ forall q, bit_set (b_bits b) q -> bit_set (b_bits b') q.
Proof.
  intros Hb. destruct (set_bits_spec (positions (b_m b) (b_k b) h) (b_bits b)) as (bits & E & L & F & S & K).
  - apply Forall_forall. intros p Hp. apply word_in_range; [done|]. by eapply positions_bound; [apply Hb|].
  - apply Hb.
  - unfold add_hash. rewrite E. eexists. split; [done|]. destruct Hb. split; [split; cbn; [done|done|congruence|done]|done].
Qed.

Lemma add_hashes_spec hs b :
  bloom_wf b -> exists b', add_hashes b hs = Some b' /\ bloom_wf b' /\ b_m b' = b_m b /\ b_k b' = b_k b /\
    (forall q, bit_set (b_bits b) q -> bit_set (b_bits b') q) /\
    forall h, h ∈ hs -> Forall (bit_set (b_bits b')) (positions (b_m b) (b_k b) h).
Proof.
  revert b. induction hs as [|h hs IH]; intros b Hb; cbn [add_hashes].
  - exists b. split; [done|]. split; [done|]. split; [done|]. split; [done|]. split; [done|]. intros h Hh. by apply elem_of_nil in Hh.
  - destruct (add_hash_spec b h Hb) as (b1 & -> & W1 & M1 & K1 & S1 & P1).
    destruct (IH b1 W1) as (b2 & -> & W2 & M2 & K2 & P2 & S2). exists b2. split; [done|]. split; [done|].
    split; [congruence|]. split; [congruence|]. split; [auto|]. rewrite M1, K1 in S2.
    intros x [->|Hx]%elem_of_cons; [|auto]. eapply Forall_impl; [exact S1|]. auto.
Qed.

Lemma bloom_new_wf mf kf : bloom_wf (bloom_new mf kf).
Proof.
  unfold bloom_new, bloom_params, clamp, U32_MAX, MAX_K. split; cbn [b_m b_k b_bits].
  - lia.
  - unfold MAX_K. lia.
  - by rewrite length_replicate.
  - apply Forall_replicate. by unfold is_u64.
Qed.

(** ** The encoding *)

Lemma read_words_enc ws rest :
  Forall is_u64 ws -> read_words (length ws) (concat (map (le_bytes 8) ws) ++ rest) = ws.
Proof.
  induction 1 as [|w ws Hw _ IH]; [done|]. cbn [length read_words map concat]. rewrite <- app_assoc.
  rewrite take_app_exact, drop_app_exact by by rewrite le_bytes_length. rewrite IH, from_le_bytes_le_bytes.
  f_equal. by apply Z.mod_small.
Qed.

Lemma concat_le_length n ws : length (concat (map (le_bytes n) ws)) = (length ws * n)%nat.
Proof. induction ws as [|w ws IH]; [done|]. cbn. rewrite length_app, IH, le_bytes_length. lia. Qed.

Lemma bloom_decode_encode b : bloom_wf b -> bloom_decode (bloom_encode b) = Ok b.
Proof.
  intros []. unfold bloom_decode, bloom_encode. cbn [dec_byte rbind]. rewrite Z_of_byte_of_Z_small by done.
  cbn [guard rbind Z.eqb BLOOM_HASH_XXH3 Pos.eqb]. unfold MAX_K in *.
  rewrite (dec_uvarint_enc Corruption (b_m b) ltac:(unfold is_u64; lia)). cbn [rbind].
  rewrite (dec_uvarint_enc Corruption (b_k b) ltac:(unfold is_u64; lia)). cbn [rbind]. unfold U32_MAX.
  destruct (Z.eqb_spec (b_m b) 0); [lia|]. destruct (Z.ltb_spec (2 ^ 32 - 1) (b_m b)); [lia|].
  destruct (Z.eqb_spec (b_k b) 0); [lia|]. destruct (Z.ltb_spec 30 (b_k b)); [lia|]. cbn [orb negb guard rbind].
  rewrite concat_le_length, bw_len0, Nat.eqb_refl. cbn [guard rbind]. rewrite <- bw_len0.
  rewrite <- (app_nil_r (concat _)), read_words_enc by done. by destruct b.
Qed.

Lemma read_words_length n p : length (read_words n p) = n.
Proof. revert p. induction n as [|n IH]; intros p; [done|]. cbn. by rewrite IH. Qed.

Lemma read_words_u64 n p : Forall is_u64 (read_words n p).
Proof.
  revert p. induction n as [|n IH]; intros p; cbn; [done|]. apply Forall_cons. split; [|apply IH].
  pose proof (from_le_bytes_range (take 8 p)) as H. pose proof (length_take_le p 8). unfold is_u64.
  assert (2 ^ (8 * Z.of_nat (length (take 8 p))) <= 2 ^ 64); [|lia]. apply Z.pow_le_mono_r; [lia|].
  rewrite length_take. lia.
Qed.

(** Whatever the bytes, a filter the decoder returns is well formed. *)
Lemma bloom_decode_wf p b : bloom_decode p = Ok b -> bloom_wf b.
Proof.
  unfold bloom_decode. intros H. apply bind_inv in H as ([hash q] & _ & H). apply bind_inv in H as (_ & _ & H).
  apply bind_inv in H as ([m q1] & Em & H). apply bind_inv in H as ([k q2] & Ek & H).
  apply bind_inv in H as ([] & Gm & H). apply bind_inv in H as ([] & Gk & H). apply bind_inv in H as (_ & _ & H).
  injection H as <-. unfold guard, U32_MAX in *.
  assert (0 <= m /\ 0 <= k) as [Hm Hk].
  { unfold dec_uvarint in *. destruct (uvarint q) as [[x n]|] eqn:E1; [|done]. injection Em as <- _.
    destruct (uvarint q1) as [[y n']|] eqn:E2; [|done]. injection Ek as <- _.
    apply uvarint_bounds in E1 as ([? _] & _). by apply uvarint_bounds in E2 as ([? _] & _). }
  destruct (Z.eqb_spec m 0); [done|]. destruct (Z.ltb_spec (2 ^ 32 - 1) m); [done|].
  destruct (Z.eqb_spec k 0); [done|]. destruct (Z.ltb_spec MAX_K k); [done|].
  split; cbn; [lia|lia|apply read_words_length|apply read_words_u64].
Qed.

(** No probe of a well-formed filter falls outside its words. *)
Lemma may_contain_total b h : bloom_wf b -> exists r, may_contain_hash b h = Some r.
Proof.
  intros Hw. unfold may_contain_hash.
  assert (forall q, q ∈ positions (b_m b) (b_k b) h -> (word_of q < length (b_bits b))%nat) as Hq.
  { intros q Hq. apply word_in_range; [done|]. eapply positions_bound; [apply Hw|done]. }
  induction (positions (b_m b) (b_k b) h) as [|q ps IH]; cbn [all_set]; [eauto|].
  destruct (lookup_lt_is_Some_2 (b_bits b) _ (Hq q ltac:(left))) as [w ->].
  destruct (negb _); [|eauto]. apply IH. intros x Hx. apply Hq. by right.
Qed.

(** ** Properties *)

(** A Bloom filter has no false negatives and survives its file.  Whatever
    size the sizing formula gives and whatever hashes a writer adds, building
    the filter never indexes outside its words, the written block decodes to
    the same filter, and the decoded filter admits every hash that was added.
    A filter decoded from arbitrary bytes never probes outside its words. *)
Theorem bloom_no_false_negatives mf kf hs :
  (exists b, add_hashes (bloom_new mf kf) hs = Some b /\ bloom_decode (bloom_encode b) = Ok b /\
     forall h, h ∈ hs -> may_contain_hash b h = Some true) /\
  (forall p b h, bloom_decode p = Ok b -> exists r, may_contain_hash b h = Some r).
Proof.
  split.
  - destruct (add_hashes_spec hs _ (bloom_new_wf mf kf)) as (b & E & Hw & Hm & Hk & _ & HS). exists b.
    split; [done|]. split; [by apply bloom_decode_encode|]. intros h Hh. unfold may_contain_hash. rewrite Hm, Hk.
    by apply all_set_true, HS.
  - intros p b h Hd. apply bloom_decode_wf in Hd. by apply may_contain_total.
Qed.
