(* ===== verification/Block.v ===== *)
(** * Blocks, footers and value-log frames of table files
    (block.rs, compress.rs, and the containers of sst/mod.rs, sst/writer.rs and
    sst/reader.rs)

    The framed block with its codec byte and checksum, the 96-byte footer, the
    aux block's section list, and the value log's header and frames.  The
    compression libraries are a class of functions whose contract is
    [CodecsInvert]; CRC-32C is an arbitrary function into 32 bits.  Reading past
    the end of a file is the [Io] error of [read_exact_at]. *)

From Stdlib Require Import ZArith Lia.
From Stdlib.Strings Require Import Byte.
From stdpp Require Import base list.
From S2P Require Import Prelude Encoding Codec Comparator Format.

Open Scope Z_scope.

(** ** Compression *)

Inductive Compression := NoCompression | Snappy | Lz4 | Zstd | Lz4Fast | Flate.

#[export] Instance Compression_eq_dec : EqDecision Compression.
Proof. solve_decision. Defined.

Definition CODEC_NONE : Z := 0.
Definition CODEC_SNAPPY : Z := 1.
Definition CODEC_ZSTD : Z := 3.
Definition CODEC_DEFLATE : Z := 5.
Definition CODEC_LZ4 : Z := 6.

Definition codec_id (c : Compression) : Z :=
  match c with
  | NoCompression => CODEC_NONE
  | Snappy => CODEC_SNAPPY
  | Zstd => CODEC_ZSTD
  | Flate => CODEC_DEFLATE
  | Lz4 | Lz4Fast => CODEC_LZ4
  end.

Definition from_codec_id (id : Z) : result Compression :=
  if id =? CODEC_NONE then Ok NoCompression
  else if id =? CODEC_SNAPPY then Ok Snappy
  else if id =? CODEC_ZSTD then Ok Zstd
  else if id =? CODEC_DEFLATE then Ok Flate
  else if id =? CODEC_LZ4 then Ok Lz4
  else Err UnsupportedFormat.

(** The compression libraries. *)
Class Codecs := {
  snap_compress : list byte -> result (list byte);
  snap_decompress : list byte -> result (list byte);
  lz4_compress : list byte -> list byte;
  lz4_decompress : list byte -> Z -> result (list byte);
  zstd_compress : list byte -> result (list byte);
  zstd_decompress : list byte -> Z -> result (list byte);
  deflate_encode : list byte -> result (list byte);
  deflate_decode : list byte -> result (list byte);
}.

Definition compress `{Codecs} (alg : Compression) (src : list byte) : result (list byte) :=
  match alg with
  | NoCompression => Ok src
  | Snappy => snap_compress src
  | Lz4 | Lz4Fast => Ok (lz4_compress src)
  | Zstd => zstd_compress src
  | Flate => deflate_encode src
  end.

Definition decompress `{Codecs} (alg : Compression) (src : list byte) (raw_len : Z) : result (list byte) :=
  match alg with
  | NoCompression => Ok src
  | Snappy => snap_decompress src
  | Lz4 | Lz4Fast => lz4_decompress src raw_len
  | Zstd => zstd_decompress src raw_len
  | Flate => deflate_decode src
  end.

(** Each library inverts its own output. *)
Class CodecsInvert `{Codecs} : Prop := {
  snap_inverts s c : snap_compress s = Ok c -> snap_decompress c = Ok s;
  lz4_inverts s : lz4_decompress (lz4_compress s) (zlen s) = Ok s;
  zstd_inverts s c : zstd_compress s = Ok c -> zstd_decompress c (zlen s) = Ok s;
  deflate_inverts s c : deflate_encode s = Ok c -> deflate_decode c = Ok s;
}.

(** What a block or a value is stored as: raw when compression does not shrink it. *)
Definition stored_form `{Codecs} (alg : Compression) (raw : list byte) : result (Compression * list byte) :=
  if decide (alg = NoCompression) then Ok (NoCompression, raw)
  else
    let? c := compress alg raw in
    Ok (if zlen c <? zlen raw then (alg, c) else (NoCompression, raw)).

Section Blocks.
Context (checksum : list byte -> Z) `{Codecs}.

(** ** Framed blocks *)

Definition BLOCK_HEADER : nat := 13.

(** Codec byte, stored length, raw length and checksum; both lengths are cast to 32 bits. *)
Definition block_frame (a : Compression) (payload : list byte) (raw_len : Z) : list byte :=
  byte_of_Z (codec_id a) :: le_bytes 4 (zlen payload) ++ le_bytes 4 raw_len ++ le_bytes 4 (checksum payload) ++ payload.

Definition write_block (out : list byte) (alg : Compression) (raw : list byte) : result (list byte * Z) :=
  let? (used_alg, payload) := stored_form alg raw in
  let out' := out ++ block_frame used_alg payload (zlen raw) in
  Ok (out', zlen out' - zlen out).

Definition block_payload_inner (buf : list byte) (verify : bool) : result (Compression * list byte * Z * Z) :=
  ensure? negb (length buf <? BLOCK_HEADER)%nat else Corruption ;;
  let comp_len := from_le_bytes (slice buf 1 5) in
  let raw_len := from_le_bytes (slice buf 5 9) in
  let want_crc := from_le_bytes (slice buf 9 13) in
  let total := Z.of_nat BLOCK_HEADER + comp_len in
  ensure? total <=? U64_MAX else Corruption ;;
  ensure? negb (zlen buf <? total) else Corruption ;;
  let payload := slice buf BLOCK_HEADER (Z.to_nat total) in
  ensure? negb (verify && negb (checksum payload =? want_crc)) else Corruption ;;
  let? alg := from_codec_id (from_le_bytes (slice buf 0 1)) in
  Ok (alg, payload, raw_len, total).

Definition read_block (buf : list byte) : result (list byte * Z) :=
  ensure? negb (length buf <? BLOCK_HEADER)%nat else Corruption ;;
  let? (alg, payload, raw_len, total) := block_payload_inner buf true in
  let? raw := decompress alg payload raw_len in
  ensure? zlen raw =? raw_len else Corruption ;;
  Ok (raw, total).

(** [read_exact_at]. *)
Definition read_exact_at (f : list byte) (len off : Z) : result (list byte) :=
  if (0 <=? off) && (off + len <=? zlen f) then Ok (take (Z.to_nat len) (drop (Z.to_nat off) f)) else Err Io.

Record BlockHandle := mkHandle { bh_offset : Z; bh_length : Z }.

Definition read_block_at (f : list byte) (h : BlockHandle) : result (list byte) :=
  let? buf := read_exact_at f (bh_length h) (bh_offset h) in
  let? (alg, payload, raw_len, _) := block_payload_inner buf true in
  let? raw := decompress alg payload raw_len in
  ensure? zlen raw =? raw_len else Corruption ;;
  Ok raw.

(** A slice of the mapping; the source panics on one that ends past it, which is an error here. *)
Definition mapped_slice (mmap : list byte) (start stop : nat) : result (list byte) :=
  ensure? (stop <=? length mmap)%nat else Corruption ;;
  Ok (slice mmap start stop).

(** The zero-copy view of a block in a mapped file, as its first touch reads it
    (later touches skip the checksum of the same bytes); a compressed block is
    decompressed out of the mapping. *)
Definition mapped_block (mmap : list byte) (h : BlockHandle) : result (list byte) :=
  let start := Z.to_nat (bh_offset h) in
  let stop := (start + Z.to_nat (bh_length h))%nat in
  let? frame := mapped_slice mmap start stop in
  let? (alg, payload, raw_len, _) := block_payload_inner frame true in
  if decide (alg = NoCompression) then
    let payload_start := (start + BLOCK_HEADER)%nat in
    mapped_slice mmap payload_start (payload_start + Z.to_nat raw_len)
  else decompress alg payload raw_len.

(** ** The footer *)

Definition FOOTER_SIZE : nat := 96.
Definition SST_MAGIC : list byte := [x59; x4f; x4c; x4f; x53; x54; x30; x31].
Definition ONDA09_FOOTER_MAGIC : Z := 0x5741564553535431.
Definition SST_FORMAT_VERSION : Z := 1.
Definition FLAG_BLOOM : Z := 1.
Definition FLAG_BTREE : Z := 2.
Definition SST_KNOWN_FLAGS : Z := Z.lor FLAG_BLOOM FLAG_BTREE.
Definition TABLE_CAPS : Z :=
  Z.lor (Z.lor (Z.lor CAP_EXTENDED_RECORDS CAP_MERGE_OPERANDS) CAP_RANGE_DELETES) CAP_PREFIX_DELTA.

Record FooterFields := mkFooter {
  ff_index : BlockHandle;
  ff_bloom : option BlockHandle;
  ff_num_entries : Z;
  ff_max_seq : Z;
  ff_btree : bool;
  ff_caps : Z;
  ff_aux : option BlockHandle;
}.

Definition no_handle : BlockHandle := mkHandle 0 0.
Definition handle_bytes (h : BlockHandle) : list byte := le_bytes 8 (bh_offset h) ++ le_bytes 8 (bh_length h).

Definition footer_flags (bloom btree : bool) : Z :=
  let flags := 0 in
  let flags := if bloom then Z.lor flags FLAG_BLOOM else flags in
  if btree then Z.lor flags FLAG_BTREE else flags.

(** The bytes in front of the checksum, field by field. *)
Definition footer_body (f : FooterFields) : list byte :=
  handle_bytes (ff_index f) ++ handle_bytes (default no_handle (ff_bloom f))
  ++ le_bytes 8 (ff_num_entries f) ++ le_bytes 8 (ff_max_seq f)
  ++ le_bytes 4 (footer_flags (if ff_bloom f is Some _ then true else false) (ff_btree f))
  ++ le_bytes 4 SST_FORMAT_VERSION ++ le_bytes 8 (ff_caps f) ++ handle_bytes (default no_handle (ff_aux f)).

Definition encode_footer (f : FooterFields) : list byte :=
  footer_body f ++ le_bytes 4 (checksum (footer_body f)) ++ le_bytes 4 0 ++ SST_MAGIC.

Definition check_table_caps (caps : Z) : result unit :=
  let? _ := check_caps caps in
  ensure? negb (outside caps TABLE_CAPS) else Corruption ;;
  ensure? negb (outside caps CAP_EXTENDED_RECORDS && negb (has_bit caps CAP_EXTENDED_RECORDS)) else Corruption ;;
  Ok tt.

Definition footer_handle (b : list byte) (at_ : nat) (limit : Z) : result BlockHandle :=
  let h := mkHandle (from_le_bytes (slice b at_ (at_ + 8))) (from_le_bytes (slice b (at_ + 8) (at_ + 16))) in
  ensure? negb ((limit <? bh_offset h) || (limit - bh_offset h <? bh_length h)) else Corruption ;;
  Ok h.

Definition decode_footer (tail : list byte) (file_len : Z) : result FooterFields :=
  ensure? negb ((length tail <? 8)%nat || (file_len <? zlen tail)) else Corruption ;;
  let last8 := drop (length tail - 8) tail in
  if negb (beq last8 SST_MAGIC) then
    Err (if from_le_bytes last8 =? ONDA09_FOOTER_MAGIC then UnsupportedFormat else Corruption)
  else
    ensure? negb (length tail <? FOOTER_SIZE)%nat else Corruption ;;
    let b := drop (length tail - FOOTER_SIZE) tail in
    ensure? from_le_bytes (slice b 52 56) =? SST_FORMAT_VERSION else UnsupportedFormat ;;
    ensure? from_le_bytes (slice b 80 84) =? checksum (take 80 b) else Corruption ;;
    ensure? from_le_bytes (slice b 84 88) =? 0 else Corruption ;;
    let flags := from_le_bytes (slice b 48 52) in
    ensure? negb (outside flags SST_KNOWN_FLAGS) else UnsupportedFormat ;;
    let caps := from_le_bytes (slice b 56 64) in
    let? _ := check_table_caps caps in
    let limit := file_len - Z.of_nat FOOTER_SIZE in
    let? index := footer_handle b 0 limit in
    let? bloom := footer_handle b 16 limit in
    let? aux := footer_handle b 64 limit in
    let has_bloom := has_bit flags FLAG_BLOOM in
    ensure? negb (negb (eqb has_bloom (0 <? bh_length bloom)) || (negb has_bloom && negb (bh_offset bloom =? 0))) else Corruption ;;
    ensure? negb ((bh_length aux =? 0) && negb (bh_offset aux =? 0)) else Corruption ;;
    Ok (mkFooter index (if has_bloom then Some bloom else None) (from_le_bytes (slice b 32 40))
          (from_le_bytes (slice b 40 48)) (has_bit flags FLAG_BTREE) caps (Some aux)).

(** ** Aux sections *)

Definition MAX_KNOWN_AUX_SECTION : Z := 1.
Definition AUX_SECTION_RANGE : Z := 1.

Definition encode_aux_sections (sections : list (Z * list byte)) : list byte :=
  enc_uvarint (Z.of_nat (length sections))
  ++ concat (map (fun s => byte_of_Z (fst s) :: enc_lenbytes (snd s)) sections).

Definition dec_aux_section : decoder (Z * list byte) := fun p =>
  let? (tag, p) := dec_byte Corruption p in
  ensure? negb ((tag =? 0) || (MAX_KNOWN_AUX_SECTION <? tag)) else UnsupportedFormat ;;
  let? (payload, p) := dec_lenbytes Corruption p in
  Ok ((tag, payload), p).

Definition decode_aux_sections (payload : list byte) : result (list (Z * list byte)) :=
  let? (count, p) := dec_uvarint Corruption payload in
  let? (out, p) := dec_repeat Corruption dec_aux_section count p in
  ensure? (length p =? 0)%nat else Corruption ;;
  Ok out.

(** ** The value log *)

Definition VLOG_HEADER_LEN : nat := 32.
Definition VLOG_FRAME_HDR_LEN : nat := 9.
Definition VLOG_MAGIC : list byte := [x59; x4f; x4c; x4f; x44; x42; x56; x4c].
Definition VLOG_VERSION : Z := 1.

Definition vlog_header_body : list byte := VLOG_MAGIC ++ le_bytes 4 VLOG_VERSION ++ repeat x00 16.

Definition encode_vlog_header : list byte := vlog_header_body ++ le_bytes 4 (checksum vlog_header_body).

Definition check_vlog_header (b : list byte) : result unit :=
  ensure? negb (length b <? VLOG_HEADER_LEN)%nat else Corruption ;;
  ensure? beq (take 8 b) VLOG_MAGIC else Corruption ;;
  ensure? from_le_bytes (slice b 8 12) =? VLOG_VERSION else UnsupportedFormat ;;
  ensure? from_le_bytes (slice b 28 32) =? checksum (take 28 b) else Corruption ;;
  ensure? from_le_bytes (slice b 12 16) =? 0 else UnsupportedFormat ;;
  ensure? all_zero (slice b 16 28) else Corruption ;;
  Ok tt.

Definition vlog_stored_len (n : Z) : result Z := if n <=? U32_MAX then Ok n else Err TooLarge.

Definition vlog_frame (a : Compression) (stored : list byte) (stored_len : Z) : list byte :=
  le_bytes 4 (checksum stored) ++ byte_of_Z (codec_id a) :: le_bytes 4 stored_len ++ stored.

(** [write_vlog]: the log so far, [None] before the first large value; the offset of the new frame. *)
Definition write_vlog (vlog : option (list byte)) (value : list byte) (alg : Compression) : result (Z * list byte) :=
  let log := match vlog with Some l => l | None => encode_vlog_header end in
  let? (used_alg, stored) := stored_form alg value in
  let? stored_len := vlog_stored_len (zlen stored) in
  Ok (zlen log, log ++ vlog_frame used_alg stored stored_len).

Definition append_vlog_payload (alg : Compression) (payload : list byte) (expected_len : Z) : result (list byte) :=
  if decide (alg = NoCompression) then
    ensure? zlen payload =? expected_len else Corruption ;; Ok payload
  else
    let? raw := decompress alg payload expected_len in
    ensure? zlen raw =? expected_len else Corruption ;; Ok raw.

(** [read_vlog_from_file] of an epoch-1 table, the checks on its header included. *)
Definition read_vlog (file : list byte) (off len : Z) : result (list byte) :=
  ensure? negb (off <? Z.of_nat VLOG_HEADER_LEN) else Corruption ;;
  let? head := read_exact_at file (Z.of_nat VLOG_HEADER_LEN) 0 in
  let? _ := check_vlog_header head in
  let? header := read_exact_at file (Z.of_nat VLOG_FRAME_HDR_LEN) off in
  let want := from_le_bytes (slice header 0 4) in
  let? alg := from_codec_id (from_le_bytes (slice header 4 5)) in
  let payload_len := from_le_bytes (slice header 5 9) in
  ensure? negb (len <? payload_len) else Corruption ;;
  let? payload := read_exact_at file payload_len (off + Z.of_nat VLOG_FRAME_HDR_LEN) in
  ensure? checksum payload =? want else Corruption ;;
  append_vlog_payload alg payload len.
End Blocks.

(** ** Lemmas *)

(** The algorithm a reader finds behind a codec byte. *)
Definition stored_alg (c : Compression) : Compression := match c with Lz4Fast => Lz4 | c => c end.

Lemma from_codec_id_codec_id c : from_codec_id (codec_id c) = Ok (stored_alg c).
Proof. by destruct c. Qed.

Lemma codec_id_u8 c : is_u8 (codec_id c).
Proof. by destruct c. Qed.

Lemma from_le_bytes_byte x : is_u8 x -> from_le_bytes [byte_of_Z x] = x.
Proof. intros Hx. cbn. rewrite Z_of_byte_of_Z_small by done. lia. Qed.

Lemma read_exact_at_app a b c len off :
  off = zlen a -> len = zlen b -> read_exact_at (a ++ b ++ c) len off = Ok b.
Proof.
  intros -> ->. unfold read_exact_at. rewrite !zlen_app. unfold zlen.
  destruct (Z.leb_spec 0 (Z.of_nat (length a))); [|lia].
  destruct (Z.leb_spec (Z.of_nat (length a) + Z.of_nat (length b)) (Z.of_nat (length a) + (Z.of_nat (length b) + Z.of_nat (length c)))); [|lia].
  cbn [andb]. rewrite !Nat2Z.id, drop_app_length. by rewrite take_app_length.
Qed.

Lemma read_exact_at_front b c len : len = zlen b -> read_exact_at (b ++ c) len 0 = Ok b.
Proof. intros ->. by apply (read_exact_at_app [] b c). Qed.

(** A field of a fixed layout: the bytes before it, itself, and the rest. *)
Lemma slice_at l a b c i j : l = a ++ b ++ c -> i = length a -> j = (i + length b)%nat -> slice l i j = b.
Proof. intros -> -> ->. by apply slice_app. Qed.

Section Codec.
Context `{CodecsInvert}.

Lemma compress_inverts alg raw c :
  compress alg raw = Ok c -> decompress (stored_alg alg) c (zlen raw) = Ok raw.
Proof.
  destruct alg; cbn; intros E; [by injection E as <-|by apply snap_inverts|injection E as <-; apply lz4_inverts
    |by apply zstd_inverts|injection E as <-; apply lz4_inverts|by apply deflate_inverts].
Qed.

Lemma stored_form_spec alg raw a p :
  stored_form alg raw = Ok (a, p) ->
  zlen p <= zlen raw /\ decompress (stored_alg a) p (zlen raw) = Ok raw /\ (a = NoCompression -> p = raw).
Proof.
  unfold stored_form. destruct (decide (alg = NoCompression)); [intros [= <- <-]; done|].
  destruct (compress alg raw) as [c|] eqn:E; [|done]. cbn. destruct (Z.ltb_spec (zlen c) (zlen raw)); intros [= <- <-].
  - split; [lia|]. split; [by apply compress_inverts|done].
  - done.
Qed.

Lemma stored_alg_none a : stored_alg a = NoCompression -> a = NoCompression.
Proof. by destruct a. Qed.
End Codec.

Section BlockLemmas.
Context (checksum : list byte -> Z) (checksum_u32 : forall b, is_u32 (checksum b)) `{CodecsInvert}.

Lemma block_frame_length a p n : zlen (block_frame checksum a p n) = 13 + zlen p.
Proof. unfold block_frame, zlen. cbn [length]. rewrite !length_app, !le_bytes_length. lia. Qed.

Lemma write_block_frame out alg raw out' n :
  write_block checksum out alg raw = Ok (out', n) ->
  exists a p, stored_form alg raw = Ok (a, p) /\ out' = out ++ block_frame checksum a p (zlen raw) /\ n = zlen (block_frame checksum a p (zlen raw)).
Proof.
  unfold write_block. intros E. apply bind_inv in E as ([a p] & Ef & E). injection E as <- <-.
  exists a, p. split; [done|]. split; [done|]. rewrite zlen_app. lia.
Qed.

Lemma block_payload_frame a p n rest v :
  zlen p < 2 ^ 32 -> is_u32 n ->
  block_payload_inner checksum (block_frame checksum a p n ++ rest) v = Ok (stored_alg a, p, n, zlen (block_frame checksum a p n)).
Proof.
  intros Hp Hn. assert (is_u32 (zlen p)) as Hp' by (unfold is_u32, zlen in *; lia). rewrite block_frame_length.
  set (h := [byte_of_Z (codec_id a)]). set (cl := le_bytes 4 (zlen p)). set (rl := le_bytes 4 n). set (cr := le_bytes 4 (checksum p)).
  assert (exists buf, buf = block_frame checksum a p n ++ rest /\ buf = h ++ cl ++ rl ++ cr ++ p ++ rest) as (buf & <- & E).
  { eexists. split; [done|]. unfold block_frame, h. cbn [app]. by rewrite <- !app_assoc. }
  assert (length h = 1 /\ length cl = 4 /\ length rl = 4 /\ length cr = 4)%nat as (L1 & L2 & L3 & L4)
    by (unfold h, cl, rl, cr; by rewrite !le_bytes_length).
  assert (length buf = 13 + length p + length rest)%nat as L by (rewrite E, !length_app; lia).
  unfold block_payload_inner, BLOCK_HEADER, U64_MAX. destruct (Nat.ltb_spec (length buf) 13) as [Hl|_]; [lia|]. cbn [negb guard rbind].
  rewrite (slice_at buf h cl (rl ++ cr ++ p ++ rest) 1 5), (slice_at buf (h ++ cl) rl (cr ++ p ++ rest) 5 9),
    (slice_at buf (h ++ cl ++ rl) cr (p ++ rest) 9 13) by (rewrite ?length_app, <- ?app_assoc; first [done|lia]).
  unfold cl, rl, cr. rewrite !from_le_bytes_u32 by done. fold cl rl cr.
  destruct (Z.leb_spec (Z.of_nat 13 + zlen p) (2 ^ 64 - 1)); [|lia]. cbn [guard rbind].
  destruct (Z.ltb_spec (zlen buf) (Z.of_nat 13 + zlen p)) as [Hl|_]; [unfold zlen in *; lia|]. cbn [negb guard rbind].
  rewrite (slice_at buf (h ++ cl ++ rl ++ cr) p rest) by (rewrite ?length_app, <- ?app_assoc; unfold zlen; first [done|lia]).
  rewrite Z.eqb_refl, andb_false_r. cbn [negb guard rbind].
  rewrite (slice_at buf [] h (cl ++ rl ++ cr ++ p ++ rest) 0 1) by (cbn [app length]; first [done|lia]).
  unfold h. by rewrite from_le_bytes_byte, from_codec_id_codec_id by apply codec_id_u8.
Qed.

(** What [write_block] appends reads back, whatever follows it. *)
Lemma read_block_frame alg raw a p rest :
  stored_form alg raw = Ok (a, p) -> zlen raw < 2 ^ 32 ->
  read_block checksum (block_frame checksum a p (zlen raw) ++ rest) = Ok (raw, zlen (block_frame checksum a p (zlen raw))).
Proof.
  intros Ef Hr. destruct (stored_form_spec _ _ _ _ Ef) as (Hle & Hd & _). unfold read_block.
  destruct (Nat.ltb_spec (length (block_frame checksum a p (zlen raw) ++ rest)) BLOCK_HEADER) as [Hl|_].
  { pose proof (block_frame_length a p (zlen raw)) as HL. unfold zlen, BLOCK_HEADER in *. rewrite length_app in Hl. lia. }
  cbn [negb guard rbind]. rewrite block_payload_frame by (unfold is_u32, zlen in *; lia). cbn [rbind].
  rewrite Hd. cbn [rbind]. rewrite Z.eqb_refl. done.
Qed.

Lemma read_block_at_frame alg raw a p pre rest h :
  stored_form alg raw = Ok (a, p) -> zlen raw < 2 ^ 32 -> h = mkHandle (zlen pre) (zlen (block_frame checksum a p (zlen raw))) ->
  read_block_at checksum (pre ++ block_frame checksum a p (zlen raw) ++ rest) h = Ok raw.
Proof.
  intros Ef Hr ->. destruct (stored_form_spec _ _ _ _ Ef) as (Hle & Hd & _). unfold read_block_at. cbn [bh_length bh_offset].
  rewrite (read_exact_at_app pre (block_frame checksum a p (zlen raw)) rest) by done. cbn [rbind].
  rewrite <- (app_nil_r (block_frame checksum _ _ _)), block_payload_frame by (unfold is_u32, zlen in *; lia). cbn [rbind].
  rewrite Hd. cbn [rbind]. by rewrite Z.eqb_refl.
Qed.

(** ** The footer *)

Definition handle_ok (limit : Z) (h : BlockHandle) : Prop :=
  0 <= bh_offset h /\ 0 <= bh_length h /\ bh_offset h + bh_length h <= limit.

(** What a writer puts into a footer of a file of [file_len] bytes. *)
Record footer_ok (file_len : Z) (f : FooterFields) : Prop := {
  fo_len : Z.of_nat FOOTER_SIZE <= file_len < 2 ^ 64;
  fo_index : handle_ok (file_len - 96) (ff_index f);
  fo_bloom : forall h, ff_bloom f = Some h -> handle_ok (file_len - 96) h /\ 0 < bh_length h;
  fo_aux : forall h, ff_aux f = Some h -> handle_ok (file_len - 96) h /\ 0 < bh_length h;
  fo_entries : is_u64 (ff_num_entries f);
  fo_seq : is_u64 (ff_max_seq f);
  fo_caps : is_u64 (ff_caps f) /\ check_table_caps (ff_caps f) = Ok tt;
}.

Lemma handle_u64 limit h : limit < 2 ^ 64 -> handle_ok limit h -> is_u64 (bh_offset h) /\ is_u64 (bh_length h).
Proof. unfold handle_ok, is_u64. lia. Qed.

Lemma footer_handle_enc b a c h at_ limit :
  b = a ++ handle_bytes h ++ c -> at_ = length a -> limit < 2 ^ 64 -> handle_ok limit h -> footer_handle b at_ limit = Ok h.
Proof.
  intros -> -> Hl Hh. destruct (handle_u64 _ _ Hl Hh) as [H1 H2]. unfold footer_handle, handle_bytes.
  rewrite (slice_at _ a (le_bytes 8 (bh_offset h)) (le_bytes 8 (bh_length h) ++ c) (length a) (length a + 8)),
    (slice_at _ (a ++ le_bytes 8 (bh_offset h)) (le_bytes 8 (bh_length h)) c (length a + 8) (length a + 16))
    by (rewrite ?length_app, <- ?app_assoc, ?le_bytes_length; first [done|lia]).
  rewrite !from_le_bytes_u64 by done. cbn [bh_offset bh_length]. destruct Hh as (? & ? & ?).
  destruct (Z.ltb_spec limit (bh_offset h)); [lia|]. destruct (Z.ltb_spec (limit - bh_offset h) (bh_length h)); [lia|].
  by destruct h.
Qed.

Lemma handle_bytes_length h : length (handle_bytes h) = 16%nat.
Proof. unfold handle_bytes. by rewrite length_app, !le_bytes_length. Qed.

Lemma footer_body_length f : length (footer_body f) = 80%nat.
Proof. unfold footer_body. by rewrite !length_app, !handle_bytes_length, !le_bytes_length. Qed.

Lemma encode_footer_length f : length (encode_footer checksum f) = FOOTER_SIZE.
Proof. unfold encode_footer. by rewrite !length_app, footer_body_length, !le_bytes_length. Qed.

Lemma no_handle_ok limit : 0 <= limit -> handle_ok limit no_handle.
Proof. unfold handle_ok. cbn. lia. Qed.

Lemma default_handle_ok limit o :
  0 <= limit -> (forall h, o = Some h -> handle_ok limit h /\ 0 < bh_length h) -> handle_ok limit (default no_handle o).
Proof. intros Hl Ho. destruct o as [h|]; cbn; [by apply Ho|by apply no_handle_ok]. Qed.

Definition footer_flags_of (f : FooterFields) : Z :=
  footer_flags (if ff_bloom f is Some _ then true else false) (ff_btree f).

(** Every field is where the decoder looks for it. *)
Lemma footer_layout f :
  let E := encode_footer checksum f in
  exists t1 t2,
    E = handle_bytes (ff_index f) ++ t1 /\ E = take 16 E ++ handle_bytes (default no_handle (ff_bloom f)) ++ t2 /\
    (exists t3, E = take 64 E ++ handle_bytes (default no_handle (ff_aux f)) ++ t3) /\
    slice E 32 40 = le_bytes 8 (ff_num_entries f) /\ slice E 40 48 = le_bytes 8 (ff_max_seq f) /\
    slice E 48 52 = le_bytes 4 (footer_flags_of f) /\ slice E 52 56 = le_bytes 4 SST_FORMAT_VERSION /\
    slice E 56 64 = le_bytes 8 (ff_caps f) /\ slice E 80 84 = le_bytes 4 (checksum (take 80 E)) /\
    slice E 84 88 = le_bytes 4 0 /\ drop 88 E = SST_MAGIC.
Proof.
  intros E. set (crc := le_bytes 4 (checksum (footer_body f))).
  assert (E = footer_body f ++ crc ++ le_bytes 4 0 ++ SST_MAGIC) as EE by done.
  assert (take 80 E = footer_body f) as T80 by (rewrite EE; apply take_app_exact; by rewrite footer_body_length).
  set (ib := handle_bytes (ff_index f)). set (bb := handle_bytes (default no_handle (ff_bloom f))).
  set (nb := le_bytes 8 (ff_num_entries f)). set (sb := le_bytes 8 (ff_max_seq f)). set (fb := le_bytes 4 (footer_flags_of f)).
  set (vb := le_bytes 4 SST_FORMAT_VERSION). set (cb := le_bytes 8 (ff_caps f)).
  set (ab := handle_bytes (default no_handle (ff_aux f))). set (tl := crc ++ le_bytes 4 0 ++ SST_MAGIC).
  assert (footer_body f = ib ++ bb ++ nb ++ sb ++ fb ++ vb ++ cb ++ ab) as EB by done.
  assert (E = ib ++ bb ++ nb ++ sb ++ fb ++ vb ++ cb ++ ab ++ tl) as EF by (rewrite EE, EB; by rewrite <- !app_assoc).
  assert (length ib = 16 /\ length bb = 16 /\ length ab = 16 /\ length nb = 8 /\ length sb = 8 /\ length cb = 8 /\
          length fb = 4 /\ length vb = 4 /\ length crc = 4)%nat as (L1 & L2 & L3 & L4 & L5 & L6 & L7 & L8 & L9)
    by (unfold ib, bb, ab, nb, sb, cb, fb, vb, crc; by rewrite ?handle_bytes_length, ?le_bytes_length).
  clearbody ib bb ab nb sb cb fb vb. rewrite T80. fold crc. exists (bb ++ nb ++ sb ++ fb ++ vb ++ cb ++ ab ++ tl), (nb ++ sb ++ fb ++ vb ++ cb ++ ab ++ tl).
  split; [done|]. split. { rewrite EF at 2. by rewrite take_app_exact. }
  split. { exists tl. assert (E = (ib ++ bb ++ nb ++ sb ++ fb ++ vb ++ cb) ++ ab ++ tl) as EG by (rewrite EF; by rewrite <- !app_assoc).
           rewrite EG at 2. rewrite take_app_exact by (rewrite !length_app; lia). exact EG. }
  clearbody E crc. conj_split;
    [eapply (slice_at _ (ib ++ bb)) with (c := sb ++ fb ++ vb ++ cb ++ ab ++ tl)
    |eapply (slice_at _ (ib ++ bb ++ nb)) with (c := fb ++ vb ++ cb ++ ab ++ tl)
    |eapply (slice_at _ (ib ++ bb ++ nb ++ sb)) with (c := vb ++ cb ++ ab ++ tl)
    |eapply (slice_at _ (ib ++ bb ++ nb ++ sb ++ fb)) with (c := cb ++ ab ++ tl)
    |eapply (slice_at _ (ib ++ bb ++ nb ++ sb ++ fb ++ vb)) with (c := ab ++ tl)
    |eapply (slice_at _ (ib ++ bb ++ nb ++ sb ++ fb ++ vb ++ cb ++ ab)) with (c := le_bytes 4 0 ++ SST_MAGIC)
    |eapply (slice_at _ (ib ++ bb ++ nb ++ sb ++ fb ++ vb ++ cb ++ ab ++ crc)) with (c := SST_MAGIC)|];
    try (rewrite EF; unfold tl; by rewrite <- ?app_assoc); try (rewrite ?length_app, ?le_bytes_length; lia).
  rewrite EE, EB, !app_assoc. apply drop_app_exact. rewrite !length_app, le_bytes_length. lia.
Qed.

Lemma footer_flags_spec a b :
  is_u32 (footer_flags a b) /\ outside (footer_flags a b) SST_KNOWN_FLAGS = false /\
  has_bit (footer_flags a b) FLAG_BLOOM = a /\ has_bit (footer_flags a b) FLAG_BTREE = b.
Proof. by destruct a, b. Qed.

Lemma decode_footer_encode file_len f :
  footer_ok file_len f ->
  decode_footer checksum (encode_footer checksum f) file_len =
    Ok (mkFooter (ff_index f) (ff_bloom f) (ff_num_entries f) (ff_max_seq f) (ff_btree f) (ff_caps f) (Some (default no_handle (ff_aux f)))).
Proof.
  intros [[Hlen1 Hlen2] Hi Hb Ha Hn Hs [Hc Hcc]]. unfold decode_footer. rewrite encode_footer_length.
  destruct (footer_layout f) as (t1 & t2 & E1 & E2 & (t3 & E3) & S1 & S2 & S3 & S4 & S5 & S6 & S7 & S8).
  destruct (footer_flags_spec (if ff_bloom f is Some _ then true else false) (ff_btree f)) as (F1 & F2 & F3 & F4).
  pose proof (encode_footer_length f) as LE. unfold FOOTER_SIZE, footer_flags_of in *. set (E := encode_footer checksum f) in *.
  assert (zlen E = 96) as -> by (unfold zlen; by rewrite LE). destruct (Z.ltb_spec file_len 96); [lia|].
  cbn [Nat.ltb Nat.leb orb negb guard rbind Nat.sub]. rewrite drop_0. rewrite S8.
  unfold beq. rewrite bool_decide_eq_true_2 by done. cbn [negb guard rbind]. rewrite S1, S2, S3, S4, S5, S6, S7.
  rewrite !from_le_bytes_u32, !from_le_bytes_u64 by done. rewrite !Z.eqb_refl, F2, F3, F4, Hcc. cbn [negb guard rbind Z.eqb].
  rewrite (footer_handle_enc E [] t1 (ff_index f)), (footer_handle_enc E (take 16 E) t2 (default no_handle (ff_bloom f)) 16),
    (footer_handle_enc E (take 64 E) t3 (default no_handle (ff_aux f)) 64);
    try (by eauto); try lia; try (rewrite length_take; lia); try (apply default_handle_ok; [lia|done]).
  cbn [rbind]. destruct (ff_bloom f) as [hb|] eqn:Eb; cbn [from_option]; unfold id.
  - destruct (Hb hb eq_refl) as [_ Hlb]. destruct (Z.ltb_spec 0 (bh_length hb)); [|lia]. cbn [eqb negb orb andb guard rbind].
    destruct (ff_aux f) as [ha|] eqn:Ea; cbn [from_option]; unfold id; [|done]. destruct (Ha ha eq_refl) as [_ Hla].
    destruct (Z.eqb_spec (bh_length ha) 0); [lia|done].
  - cbn. destruct (ff_aux f) as [ha|] eqn:Ea; cbn [from_option]; unfold id; [|done]. destruct (Ha ha eq_refl) as [_ Hla].
    destruct (Z.eqb_spec (bh_length ha) 0); [lia|done].
Qed.

(** ** Aux sections and the value log *)

Lemma decode_aux_sections_encode ss :
  is_u64 (Z.of_nat (length ss)) -> Forall (fun s => fst s = 1 /\ is_len (snd s)) ss ->
  decode_aux_sections (encode_aux_sections ss) = Ok ss.
Proof.
  intros Hn HF. rewrite Forall_forall in HF. unfold decode_aux_sections, encode_aux_sections.
  rewrite (dec_uvarint_enc Corruption _ Hn). cbn [rbind].
  rewrite <- (app_nil_r (concat _)). rewrite (dec_repeat_enc Corruption dec_aux_section (fun s => byte_of_Z (fst s) :: enc_lenbytes (snd s)) _ ss); [done|..].
  - intros [tag payload] Hs rest. destruct (HF _ Hs) as [Ht Hl]. cbn in Ht, Hl. subst tag.
    unfold dec_aux_section. cbn [fst snd app dec_byte rbind]. change (Z_of_byte (byte_of_Z 1)) with 1. cbn [rbind].
    rewrite (dec_lenbytes_enc Corruption _ Hl). done.
  - intros s _. cbn. lia.
  - done.
Qed.

(** A value log starts with its header. *)
Definition vlog_wf (log : list byte) : Prop := exists frames, log = encode_vlog_header checksum ++ frames.

Lemma vlog_header_length : length (encode_vlog_header checksum) = 32%nat.
Proof. unfold encode_vlog_header. by rewrite length_app, le_bytes_length. Qed.

Lemma check_vlog_header_encode : check_vlog_header checksum (encode_vlog_header checksum) = Ok tt.
Proof.
  assert (exists b, b = encode_vlog_header checksum) as (b & E) by eauto. rewrite <- E.
  assert (take 8 b = VLOG_MAGIC /\ slice b 8 12 = le_bytes 4 VLOG_VERSION /\ slice b 12 16 = repeat x00 4 /\
          slice b 16 28 = repeat x00 12 /\ take 28 b = vlog_header_body) as (H1 & H2 & H3 & H4 & H5)
    by (rewrite E; conj_split; vm_compute; reflexivity).
  assert (slice b 28 32 = le_bytes 4 (checksum vlog_header_body)) as H6.
  { apply (slice_at _ vlog_header_body _ []); [by rewrite E, app_nil_r|done|by rewrite le_bytes_length]. }
  unfold check_vlog_header. rewrite H1, H2, H3, H4, H5, H6, E, vlog_header_length, (from_le_bytes_u32 (checksum vlog_header_body)) by done.
  rewrite !Z.eqb_refl. done.
Qed.

(** The frame [write_vlog] appends reads back, also when the log grows behind it. *)
Lemma write_vlog_spec vlog value alg off log' :
  write_vlog checksum vlog value alg = Ok (off, log') ->
  (forall l, vlog = Some l -> vlog_wf l) ->
  vlog_wf log' /\ off = zlen (match vlog with Some l => l | None => encode_vlog_header checksum end) /\
  (exists frame, log' = match vlog with Some l => l | None => encode_vlog_header checksum end ++ frame) /\
  forall rest, read_vlog checksum (log' ++ rest) off (zlen value) = Ok value.
Proof.
  unfold write_vlog. set (log := match vlog with Some l => l | None => encode_vlog_header checksum end). intros E Hwf.
  assert (vlog_wf log) as (fr & Hlog) by (unfold log; destruct vlog; [by apply Hwf|exists []; by rewrite app_nil_r]).
  apply bind_inv in E as ([a st] & Ef & E). apply bind_inv in E as (n & En & E). injection E as <- <-.
  unfold vlog_stored_len in En. destruct (Z.leb_spec (zlen st) U32_MAX); [|done]. injection En as <-.
  destruct (stored_form_spec _ _ _ _ Ef) as (Hle & Hd & Hn). set (hdr := le_bytes 4 (checksum st) ++ [byte_of_Z (codec_id a)] ++ le_bytes 4 (zlen st)).
  assert (vlog_frame checksum a st (zlen st) = hdr ++ st) as -> by (unfold hdr; by rewrite <- !app_assoc).
  split; [exists (fr ++ hdr ++ st); by rewrite Hlog, <- !app_assoc|]. split; [done|]. split; [eauto|]. intros rest.
  pose proof vlog_header_length as L32. unfold read_vlog. rewrite <- !app_assoc.
  destruct (Z.ltb_spec (zlen log) (Z.of_nat VLOG_HEADER_LEN)) as [Hlt|_];
    [rewrite Hlog in Hlt; unfold zlen, VLOG_HEADER_LEN in Hlt; rewrite length_app in Hlt; lia|]. cbn [negb guard rbind].
  rewrite Hlog at 1. rewrite <- app_assoc, read_exact_at_front by (unfold zlen; by rewrite L32).
  cbn [rbind]. rewrite check_vlog_header_encode. cbn [rbind].
  assert (length hdr = 9%nat) as Lh by (unfold hdr; by rewrite !length_app, !le_bytes_length).
  rewrite (read_exact_at_app log hdr) by (try done; unfold zlen; by rewrite Lh). cbn [rbind].
  rewrite (slice_at hdr [] (le_bytes 4 (checksum st)) ([byte_of_Z (codec_id a)] ++ le_bytes 4 (zlen st)) 0 4),
    (slice_at hdr (le_bytes 4 (checksum st)) [byte_of_Z (codec_id a)] (le_bytes 4 (zlen st)) 4 5),
    (slice_at hdr (le_bytes 4 (checksum st) ++ [byte_of_Z (codec_id a)]) (le_bytes 4 (zlen st)) [] 5 9)
    by (unfold hdr; rewrite ?app_nil_r, ?length_app, <- ?app_assoc, ?le_bytes_length; done).
  rewrite from_le_bytes_byte, from_codec_id_codec_id by apply codec_id_u8. cbn [rbind].
  rewrite !from_le_bytes_u32 by (first [apply checksum_u32|unfold is_u32, U32_MAX, zlen in *; lia]).
  destruct (Z.ltb_spec (zlen value) (zlen st)); [lia|]. cbn [negb guard rbind].
  rewrite (app_assoc log hdr), (read_exact_at_app (log ++ hdr) st) by (try done; unfold zlen, VLOG_FRAME_HDR_LEN; rewrite length_app, Lh; lia).
  cbn [rbind]. rewrite Z.eqb_refl. cbn [guard rbind]. unfold append_vlog_payload.
  destruct (decide (stored_alg a = NoCompression)) as [Ea|Ea].
  - rewrite (Hn (stored_alg_none a Ea)). by rewrite Z.eqb_refl.
  - rewrite Hd. cbn [rbind]. by rewrite Z.eqb_refl.
Qed.
End BlockLemmas.

Lemma mapped_slice_at m a b c i j : m = a ++ b ++ c -> i = length a -> j = (length a + length b)%nat -> mapped_slice m i j = Ok b.
Proof.
  intros -> -> ->. unfold mapped_slice. rewrite (slice_at (a ++ b ++ c) a b c) by done. rewrite !length_app.
  destruct (Nat.leb_spec (length a + length b) (length a + (length b + length c))); [done|lia].
Qed.

(** ** Properties *)

(** C38: A mapped block trusts a length the checksum does not cover.  A stored
    block whose header claims more raw bytes than its payload has is refused as
    corrupt when it is read, but through the mapping its bytes run on into
    whatever follows it in the file. *)
Theorem mapped_block_trusts_raw_len (checksum : list byte -> Z) `{Codecs} payload extra
    (file := block_frame checksum NoCompression payload (zlen payload + zlen extra) ++ extra) (h := mkHandle 0 (13 + zlen payload)) :
  (forall b, is_u32 (checksum b)) -> zlen payload + zlen extra < 2 ^ 32 -> extra <> [] ->
  read_block_at checksum file h = Err Corruption /\ mapped_block checksum file h = Ok (payload ++ extra).
Proof.
  intros Hck Hl He. set (n := zlen payload + zlen extra) in *. set (fr := block_frame checksum NoCompression payload n) in *.
  assert (0 < zlen extra /\ 0 <= zlen payload) as [H1 H2] by (destruct extra; [done|unfold zlen; cbn; lia]).
  pose proof (block_frame_length checksum NoCompression payload n) as Hf. fold fr in Hf.
  pose proof (block_payload_frame checksum Hck NoCompression payload n [] true ltac:(lia) ltac:(unfold is_u32; lia)) as Hp. rewrite app_nil_r in Hp. fold fr in Hp.
  split.
  - unfold read_block_at, file, h. cbn [bh_length bh_offset]. rewrite (read_exact_at_front fr extra) by lia. cbn [rbind]. rewrite Hp. cbn [rbind stored_alg decompress].
    destruct (Z.eqb_spec (zlen payload) n); [lia|done].
  - unfold mapped_block, file, h. cbn [bh_length bh_offset]. change (Z.to_nat 0) with 0%nat. cbn [Nat.add].
    rewrite (mapped_slice_at (fr ++ extra) [] fr extra 0) by (first [done|unfold zlen in *; cbn [length] in *; lia]). cbn [rbind]. rewrite Hp. cbn [rbind stored_alg].
    destruct (decide (NoCompression = NoCompression)); [|done].
    set (hd := [byte_of_Z (codec_id NoCompression)] ++ le_bytes 4 (zlen payload) ++ le_bytes 4 n ++ le_bytes 4 (checksum payload)).
    assert (fr = hd ++ payload) as -> by (unfold fr, hd, block_frame; cbn [app]; by rewrite <- !app_assoc).
    apply (mapped_slice_at _ hd (payload ++ extra) []); [by rewrite app_nil_r, <- app_assoc|unfold hd; by rewrite !length_app, !le_bytes_length|].
    f_equal. rewrite length_app. unfold n, zlen. lia.
Qed.

Lemma mapped_block_trusts_raw_len_witness :
  let codecs := Build_Codecs Ok Ok (fun s => s) (fun s _ => Ok s) Ok (fun s _ => Ok s) Ok Ok in
  let file := block_frame (fun _ => 0) NoCompression [x61; x62] 3 ++ [x63] in
  read_block_at (H := codecs) (fun _ => 0) file (mkHandle 0 15) = Err Corruption /\
  mapped_block (H := codecs) (fun _ => 0) file (mkHandle 0 15) = Ok [x61; x62; x63].
Proof. apply (mapped_block_trusts_raw_len (fun _ => 0) [x61; x62] [x63]); [intros b; by split|done|done]. Defined.
