(* ===== verification/SstEntry.v ===== *)
(** * Data-block entries (sst/mod.rs)

    The three entry layouts of a data block: base, extended and prefix-delta.
    A decoder works at an offset of the block's entries region and returns the
    entry as offsets into it, with the offset just past it.  The layout of
    wavesdb tables is read-only and not modelled. *)

From Stdlib Require Import ZArith Lia Sorted.
From Stdlib.Strings Require Import Byte.
From stdpp Require Import base list.
From S2P Require Import Prelude Encoding Codec Comparator Format Block.

Open Scope Z_scope.

Inductive EntryLayout := Base | Extended.

#[export] Instance EntryLayout_eq_dec : EqDecision EntryLayout.
Proof. solve_decision. Defined.

Record DecEntry := mkDec {
  key_start : nat;
  key_len : nat;
  key_shared : nat;
  val_start : nat;
  val_len : Z;
  d_seq : Z;
  d_ttl : Z;
  d_flags : Z;
  d_kind : Z;
  d_vlog_off : Z;
}.

Definition d_tombstone (d : DecEntry) : bool := has_bit (d_flags d) FLAG_TOMBSTONE.
Definition d_has_vlog (d : DecEntry) : bool := has_bit (d_flags d) FLAG_HAS_VLOG.

(** The key bytes stored in the entry: the user key unless the entry shares a prefix. *)
Definition stored_key (raw : list byte) (d : DecEntry) : list byte := slice raw (key_start d) (key_start d + key_len d).
Definition inline_value (raw : list byte) (d : DecEntry) : list byte :=
  slice raw (val_start d) (val_start d + Z.to_nat (val_len d)).

Definition kind_to_point_flags (kind : Z) : bool * bool :=
  ((kind =? KIND_DELETE) || (kind =? KIND_SINGLE_DELETE), kind =? KIND_SINGLE_DELETE).

Definition entry_flags (kind ttl : Z) (has_vlog : bool) : Z :=
  let '(tombstone, single_delete) := kind_to_point_flags kind in
  normalized_entry_flags tombstone single_delete (negb (ttl =? 0)) has_vlog.

(** ** Encoding *)

Definition entry_tail (key_bytes value : list byte) (fl vlog_off : Z) : list byte :=
  key_bytes ++ (if has_bit fl FLAG_HAS_VLOG then le_bytes 8 vlog_off else value).

Definition enc_ttl (ttl : Z) : list byte := if negb (ttl =? 0) then enc_varint ttl else [].

Definition encode_entry (dst : list byte) (layout : EntryLayout) (user_key value : list byte) (seq ttl kind : Z)
    (has_vlog : bool) (vlog_off : Z) : list byte :=
  let fl := entry_flags kind ttl has_vlog in
  dst ++ match layout with
         | Base => [byte_of_Z fl]
         | Extended => enc_uvarint kind ++ enc_uvarint (Z.land fl MOD_KNOWN)
         end
      ++ enc_uvarint (zlen user_key) ++ enc_uvarint (zlen value) ++ enc_uvarint seq ++ enc_ttl ttl
      ++ entry_tail user_key value fl vlog_off.

Fixpoint shared_prefix_len (a b : list byte) : nat :=
  match a, b with
  | x :: a, y :: b => if bool_decide (x = y) then S (shared_prefix_len a b) else 0%nat
  | _, _ => 0%nat
  end.

Definition encode_entry_delta (dst prev_key user_key value : list byte) (seq ttl kind : Z) (has_vlog : bool) (vlog_off : Z)
    : list byte :=
  let fl := entry_flags kind ttl has_vlog in
  let shared := shared_prefix_len prev_key user_key in
  dst ++ enc_uvarint kind ++ enc_uvarint (Z.land fl MOD_KNOWN) ++ enc_uvarint (Z.of_nat shared)
      ++ enc_uvarint (Z.of_nat (length user_key - shared)) ++ enc_uvarint (zlen value) ++ enc_uvarint seq ++ enc_ttl ttl
      ++ entry_tail (drop shared user_key) value fl vlog_off.

(** ** Decoding *)

(** [uvarint(&raw[p..]).ok_or_else(corrupt)?] and the advance of [p]. *)
Definition uvarint_at (raw : list byte) (p : nat) : result (Z * nat) :=
  match uvarint (drop p raw) with
  | Some (x, n) => Ok (x, (p + Z.to_nat n)%nat)
  | None => Err Corruption
  end.

Definition ttl_at (raw : list byte) (fl : Z) (p : nat) : result (Z * nat) :=
  if has_bit fl FLAG_HAS_TTL then
    match varint (drop p raw) with
    | Some (x, n) => Ok (x, (p + Z.to_nat n)%nat)
    | None => Err Corruption
    end
  else Ok (0, p).

(** Where the value or the value-log offset is, and the end of the entry. *)
Definition value_at (raw : list byte) (fl vlen : Z) (p : nat) : result (nat * Z * Z * nat) :=
  if has_bit fl FLAG_HAS_VLOG then
    ensure? negb (length raw <? p + 8)%nat else Corruption ;;
    Ok (p, vlen, from_le_bytes (slice raw p (p + 8)), (p + 8)%nat)
  else
    ensure? negb (zlen raw <? vlen + Z.of_nat p) else Corruption ;;
    Ok (p, vlen, 0, (p + Z.to_nat vlen)%nat).

(** Kind and modifiers of the extended head, folded into a flags byte. *)
Definition extended_head (raw : list byte) (off : nat) : result (Z * Z * nat) :=
  let? (kind, p) := uvarint_at raw off in
  let? _ := check_point_kind kind in
  let? (mods, p) := uvarint_at raw p in
  let? _ := check_modifiers mods in
  let '(tombstone, single_delete) := kind_to_point_flags kind in
  let fl := mods in
  let fl := if tombstone then Z.lor fl FLAG_TOMBSTONE else fl in
  let fl := if single_delete then Z.lor fl FLAG_SINGLE_DELETE else fl in
  let? _ := check_entry_flags fl in
  Ok (fl, kind, p).

Definition entry_head (raw : list byte) (layout : EntryLayout) (off : nat) : result (Z * Z * nat) :=
  match layout with
  | Base =>
      match raw !! off with
      | None => Err Corruption
      | Some b =>
          let fl := Z_of_byte b in
          let? _ := check_entry_flags fl in
          Ok (fl, point_kind (has_bit fl FLAG_TOMBSTONE) (has_bit fl FLAG_SINGLE_DELETE), (off + 1)%nat)
      end
  | Extended => extended_head raw off
  end.

Definition decode_entry (raw : list byte) (layout : EntryLayout) (off : nat) : result (DecEntry * nat) :=
  ensure? (off <? length raw)%nat else Corruption ;;
  let? (fl, kind, p) := entry_head raw layout off in
  let? (klen, p) := uvarint_at raw p in
  let? (vlen, p) := uvarint_at raw p in
  let? (seq, p) := uvarint_at raw p in
  let? (ttl, p) := ttl_at raw fl p in
  ensure? negb (zlen raw <? klen + Z.of_nat p) else Corruption ;;
  let key_start := p in
  let? (vs, vl, voff, next) := value_at raw fl vlen (p + Z.to_nat klen) in
  Ok (mkDec key_start (Z.to_nat klen) 0 vs vl seq ttl fl kind voff, next).

Definition decode_delta_header (raw : list byte) (off : nat) : result (DecEntry * nat) :=
  ensure? (off <? length raw)%nat else Corruption ;;
  let? (fl, kind, p) := extended_head raw off in
  let? (shared, p) := uvarint_at raw p in
  let? (suffix_len, p) := uvarint_at raw p in
  let? (vlen, p) := uvarint_at raw p in
  let? (seq, p) := uvarint_at raw p in
  let? (ttl, p) := ttl_at raw fl p in
  ensure? negb (zlen raw <? suffix_len + Z.of_nat p) else Corruption ;;
  let key_start := p in
  let? (vs, vl, voff, next) := value_at raw fl vlen (p + Z.to_nat suffix_len) in
  Ok (mkDec key_start (Z.to_nat suffix_len) (Z.to_nat shared) vs vl seq ttl fl kind voff, next).

Definition decode_delta_anchor (raw : list byte) (off : nat) : result (DecEntry * nat) :=
  let? (entry, next) := decode_delta_header raw off in
  ensure? (key_shared entry =? 0)%nat else Corruption ;;
  Ok (entry, next).

(** The running key advances from the previous entry's to this one's. *)
Definition decode_entry_delta (raw : list byte) (off : nat) (key : list byte) (bytewise : bool)
    : result (DecEntry * nat * list byte) :=
  let? (entry, next) := decode_delta_header raw off in
  ensure? negb (length key <? key_shared entry)%nat else Corruption ;;
  let suffix := stored_key raw entry in
  ensure? negb (bytewise && is_lt (slice_cmp suffix (drop (key_shared entry) key))) else Corruption ;;
  Ok (entry, next, take (key_shared entry) key ++ suffix).

(** ** The restart array *)

Definition restart_off (restarts : list byte) (i : nat) : nat := Z.to_nat (from_le_bytes (slice restarts (i * 4) (i * 4 + 4))).

Fixpoint validate_anchors (entries_len : nat) (restarts : list byte) (i : nat) (left_ : nat) (previous : option nat) : result unit :=
  match left_ with
  | O => Ok tt
  | S left_ =>
      let off := restart_off restarts i in
      ensure? negb ((i =? 0)%nat && negb (off =? 0)%nat) else Corruption ;;
      ensure? (off <? entries_len)%nat else Corruption ;;
      ensure? negb (match previous with Some p => (off <=? p)%nat | None => false end) else Corruption ;;
      validate_anchors entries_len restarts (S i) left_ (Some off)
  end.

Definition validate_delta_restarts (entries_len : nat) (restarts : list byte) : result unit :=
  let count := (length restarts / 4)%nat in
  if (entries_len =? 0)%nat then guard (count =? 0)%nat Corruption
  else
    ensure? negb (count =? 0)%nat else Corruption ;;
    validate_anchors entries_len restarts 0 count None.

(** Binary search with a closure that can fail; the window halves, so [count] rounds are enough. *)
Fixpoint restart_search (anchor_is_lt : nat -> result bool) (fuel lo hi : nat) : result nat :=
  if (lo <? hi)%nat then
    match fuel with
    | O => Ok lo
    | S fuel =>
        let mid := ((lo + hi) / 2)%nat in
        let? lt := anchor_is_lt mid in
        if (lt : bool) then restart_search anchor_is_lt fuel (S mid) hi else restart_search anchor_is_lt fuel lo mid
    end
  else Ok lo.

Definition restart_lower_bound (count : nat) (anchor_is_lt : nat -> result bool) : result nat :=
  restart_search anchor_is_lt count 0 count.

(** [cmp.compare(a, b).then_with(|| b_seq.cmp(&a_seq))]. *)
Definition cmp_internal (cmp : Comparator) (a_key : list byte) (a_seq : Z) (b_key : list byte) (b_seq : Z) : comparison :=
  match compare cmp a_key b_key with
  | Eq => b_seq ?= a_seq
  | c => c
  end.

(** ** A cursor into a block *)

(** Offset [p] of [raw] is in front of [rest]. *)
Definition at_ (raw : list byte) (p : nat) (rest : list byte) : Prop := (p <= length raw)%nat /\ drop p raw = rest.

Lemma at_app pre rest : at_ (pre ++ rest) (length pre) rest.
Proof. split; [rewrite length_app; lia|apply drop_app_length]. Qed.

Lemma at_step raw p a rest : at_ raw p (a ++ rest) -> at_ raw (p + length a) rest.
Proof.
  intros [Hp Hd]. pose proof (length_drop raw p) as HL. rewrite Hd, length_app in HL. split; [lia|].
  rewrite <- drop_drop, Hd. apply drop_app_length.
Qed.

Lemma at_slice raw p a rest n : at_ raw p (a ++ rest) -> n = (p + length a)%nat -> slice raw p n = a.
Proof. intros [_ Hd] ->. unfold slice. rewrite Hd. apply take_app_exact. lia. Qed.

Lemma at_length raw p rest : at_ raw p rest -> (p + length rest = length raw)%nat.
Proof. intros [Hp <-]. rewrite length_drop. lia. Qed.

Lemma uvarint_at_enc raw p x rest :
  is_u64 x -> at_ raw p (enc_uvarint x ++ rest) -> uvarint_at raw p = Ok (x, (p + length (enc_uvarint x))%nat).
Proof.
  intros Hx [_ Hd]. unfold uvarint_at. rewrite Hd, enc_uvarint_eq, uvarint_app by done. by rewrite Nat2Z.id.
Qed.

Lemma ttl_at_enc raw p ttl fl rest :
  is_i64 ttl -> has_bit fl FLAG_HAS_TTL = negb (ttl =? 0) -> at_ raw p (enc_ttl ttl ++ rest) ->
  ttl_at raw fl p = Ok (ttl, (p + length (enc_ttl ttl))%nat).
Proof.
  intros Ht Hf Hat. unfold ttl_at, enc_ttl in *. rewrite Hf. destruct (Z.eqb_spec ttl 0) as [->|_]; cbn [negb] in *.
  - by rewrite Nat.add_0_r.
  - destruct Hat as [_ Hd]. unfold enc_varint, append_varint, append_uvarint in *. cbn [app] in *.
    rewrite Hd, varint_app by done. by rewrite Nat2Z.id.
Qed.

Lemma value_at_enc raw p fl value vlog_off rest (b := has_bit fl FLAG_HAS_VLOG) :
  is_u64 vlog_off ->
  at_ raw p ((if b then le_bytes 8 vlog_off else value) ++ rest) ->
  value_at raw fl (zlen value) p =
    Ok (p, zlen value, if b then vlog_off else 0, (p + length (if b then le_bytes 8 vlog_off else value))%nat).
Proof.
  intros Hv Hat. unfold value_at. fold b. pose proof (at_length _ _ _ Hat) as HL. rewrite length_app in HL. destruct b.
  - rewrite le_bytes_length in *. destruct (Nat.ltb_spec (length raw) (p + 8)); [lia|]. cbn [negb guard rbind].
    rewrite (at_slice raw p _ _ _ Hat) by by rewrite le_bytes_length. by rewrite from_le_bytes_u64.
  - unfold zlen. destruct (Z.ltb_spec (Z.of_nat (length raw)) (Z.of_nat (length value) + Z.of_nat p)); [lia|].
    cbn [negb guard rbind]. by rewrite Nat2Z.id.
Qed.

(** ** Round trips *)

(** What a decoded entry says. *)
Record dec_is (raw : list byte) (d : DecEntry) (shared : nat) (key_bytes value : list byte) (seq ttl kind : Z)
    (has_vlog : bool) (vlog_off : Z) : Prop := {
  dx_shared : key_shared d = shared;
  dx_key : stored_key raw d = key_bytes;
  dx_seq : d_seq d = seq;
  dx_ttl : d_ttl d = ttl;
  dx_kind : d_kind d = kind;
  dx_tomb : d_tombstone d = ((kind =? KIND_DELETE) || (kind =? KIND_SINGLE_DELETE));
  dx_vlog : d_has_vlog d = has_vlog;
  dx_len : val_len d = zlen value;
  dx_inline : has_vlog = false -> inline_value raw d = value;
  dx_off : has_vlog = true -> d_vlog_off d = vlog_off;
}.

(** What an entry of a block may carry. *)
Record entry_enc_ok (layout : EntryLayout) (key value : list byte) (seq ttl kind : Z) (has_vlog : bool) (vlog_off : Z) : Prop := {
  eo_key : is_len key;
  eo_value : is_len value;
  eo_seq : is_u64 seq;
  eo_ttl : is_i64 ttl;
  eo_kind : check_point_kind kind = Ok tt;
  eo_base : layout = Base -> is_point_kind kind = true;
  eo_off : is_u64 vlog_off;
  eo_vlog : has_vlog = true -> kind = KIND_PUT \/ kind = KIND_MERGE;
}.

Lemma point_kinds kind :
  check_point_kind kind = Ok tt -> kind = KIND_PUT \/ kind = KIND_DELETE \/ kind = KIND_SINGLE_DELETE \/ kind = KIND_MERGE.
Proof.
  unfold check_point_kind, check_kind, is_control_kind. intros E.
  destruct (Z.eqb_spec kind KIND_PUT); [auto|]. destruct (Z.eqb_spec kind KIND_DELETE); [auto|].
  destruct (Z.eqb_spec kind KIND_SINGLE_DELETE); [auto|]. destruct (Z.eqb_spec kind KIND_MERGE); [auto|].
  destruct (MAX_ASSIGNABLE_KIND <? kind); [done|]. cbn in E. destruct (kind =? KIND_RANGE_DELETE); [done|]. cbn in E.
  destruct ((kind =? KIND_PREPARE) || (kind =? KIND_COMMIT_DECISION) || (kind =? KIND_ABORT_DECISION)); done.
Qed.

(** The flags of an entry, whatever its kind. *)
Lemma entry_flags_spec kind ttl (has_vlog : bool) :
  check_point_kind kind = Ok tt -> (has_vlog = true -> kind = KIND_PUT \/ kind = KIND_MERGE) ->
  let fl := entry_flags kind ttl has_vlog in
  is_u8 fl /\ check_entry_flags fl = Ok tt /\ has_bit fl FLAG_HAS_TTL = negb (ttl =? 0) /\ has_bit fl FLAG_HAS_VLOG = has_vlog /\
  has_bit fl FLAG_TOMBSTONE = ((kind =? KIND_DELETE) || (kind =? KIND_SINGLE_DELETE)) /\
  (is_point_kind kind = true -> point_kind (has_bit fl FLAG_TOMBSTONE) (has_bit fl FLAG_SINGLE_DELETE) = kind) /\
  is_u64 (Z.land fl MOD_KNOWN) /\ check_modifiers (Z.land fl MOD_KNOWN) = Ok tt /\
  (let '(tombstone, single_delete) := kind_to_point_flags kind in
   let m := Z.land fl MOD_KNOWN in
   let m := if tombstone then Z.lor m FLAG_TOMBSTONE else m in
   (if single_delete then Z.lor m FLAG_SINGLE_DELETE else m) = fl).
Proof.
  intros Hk Hv. unfold entry_flags. destruct (negb (ttl =? 0)), has_vlog;
    destruct (point_kinds kind Hk) as [->|[->|[->| ->]]]; try (destruct (Hv eq_refl); discriminate); by vm_compute.
Qed.

Lemma extended_head_enc raw p kind ttl has_vlog rest (fl := entry_flags kind ttl has_vlog) :
  check_point_kind kind = Ok tt -> (has_vlog = true -> kind = KIND_PUT \/ kind = KIND_MERGE) ->
  at_ raw p ((enc_uvarint kind ++ enc_uvarint (Z.land fl MOD_KNOWN)) ++ rest) ->
  extended_head raw p = Ok (fl, kind, (p + length (enc_uvarint kind ++ enc_uvarint (Z.land fl MOD_KNOWN)))%nat).
Proof.
  intros Hk Hv Hat. destruct (entry_flags_spec kind ttl has_vlog Hk Hv) as (_ & Hc & _ & _ & _ & _ & Hm & Hcm & Hfl). fold fl in Hc, Hm, Hcm, Hfl.
  assert (is_u64 kind) as Hku by (destruct (point_kinds kind Hk) as [->|[->|[->| ->]]]; by vm_compute).
  rewrite <- app_assoc in Hat. unfold extended_head. rewrite (uvarint_at_enc raw p kind _ Hku Hat). cbn [rbind]. rewrite Hk. cbn [rbind].
  apply at_step in Hat. rewrite (uvarint_at_enc raw _ _ _ Hm Hat). cbn [rbind]. rewrite Hcm. cbn [rbind].
  destruct (kind_to_point_flags kind) as [t s]. cbn beta iota zeta in Hfl. rewrite Hfl, Hc. cbn [rbind].
  by rewrite length_app, Nat.add_assoc.
Qed.

Lemma entry_head_enc raw p layout kind ttl has_vlog rest (fl := entry_flags kind ttl has_vlog) head :
  check_point_kind kind = Ok tt -> (has_vlog = true -> kind = KIND_PUT \/ kind = KIND_MERGE) ->
  (layout = Base -> is_point_kind kind = true) ->
  head = match layout with Base => [byte_of_Z fl] | Extended => enc_uvarint kind ++ enc_uvarint (Z.land fl MOD_KNOWN) end ->
  at_ raw p (head ++ rest) -> entry_head raw layout p = Ok (fl, kind, (p + length head)%nat).
Proof.
  intros Hk Hv Hb -> Hat. destruct layout; [|by apply (extended_head_enc raw p kind ttl has_vlog rest)].
  destruct (entry_flags_spec kind ttl has_vlog Hk Hv) as (H8 & Hc & _ & _ & _ & Hp & _). fold fl in H8, Hc, Hp.
  unfold entry_head. destruct Hat as [Hle Hd].
  assert (raw !! p = Some (byte_of_Z fl)) as ->.
  { rewrite <- (Nat.add_0_r p), <- lookup_drop, Hd. done. }
  rewrite Z_of_byte_of_Z_small by done. rewrite Hc. cbn [rbind]. by rewrite Hp by auto.
Qed.

(** The fields behind the head are the same in every layout. *)
Lemma dec_is_intro raw p fl kind ttl seq shared key_bytes value has_vlog vlog_off rest :
  fl = entry_flags kind ttl has_vlog -> check_point_kind kind = Ok tt -> (has_vlog = true -> kind = KIND_PUT \/ kind = KIND_MERGE) ->
  at_ raw p (entry_tail key_bytes value fl vlog_off ++ rest) ->
  dec_is raw (mkDec p (length key_bytes) shared (p + length key_bytes) (zlen value) seq ttl fl kind
                (if has_bit fl FLAG_HAS_VLOG then vlog_off else 0)) shared key_bytes value seq ttl kind has_vlog vlog_off.
Proof.
  intros -> Hk Hv Hat. destruct (entry_flags_spec kind ttl has_vlog Hk Hv) as (_ & _ & _ & Hvl & Htomb & _).
  unfold entry_tail in Hat. rewrite Hvl in *. rewrite <- app_assoc in Hat. split; cbn; try done.
  - by apply (at_slice raw p _ _ _ Hat).
  - intros ->. unfold inline_value. cbn. apply at_step in Hat. apply (at_slice raw _ _ _ _ Hat). unfold zlen. lia.
  - by intros ->.
Qed.

(** The lengths, the sequence, the TTL and the tail, in the order of [decode_entry]. *)
Lemma decode_entry_enc raw off layout key value seq ttl kind has_vlog vlog_off rest :
  entry_enc_ok layout key value seq ttl kind has_vlog vlog_off ->
  let enc := encode_entry [] layout key value seq ttl kind has_vlog vlog_off in
  at_ raw off (enc ++ rest) ->
  exists d, decode_entry raw layout off = Ok (d, (off + length enc)%nat) /\ dec_is raw d 0 key value seq ttl kind has_vlog vlog_off.
Proof.
  intros [Hkl Hvl Hs Ht Hk Hb Ho Hv] enc. change (is_u64 (zlen key)) in Hkl. change (is_u64 (zlen value)) in Hvl. unfold enc, encode_entry. cbn [app]. set (fl := entry_flags kind ttl has_vlog).
  set (head := match layout with Base => _ | Extended => _ end). intros Hat.
  destruct (entry_flags_spec kind ttl has_vlog Hk Hv) as (_ & _ & Httl & Hvlog & _). fold fl in Httl, Hvlog.
  assert (0 < length head)%nat as Hh by (unfold head; destruct layout; [cbn; lia|rewrite length_app; pose proof (enc_uvarint_nonempty kind); lia]).
  pose proof (at_length _ _ _ Hat) as HL. rewrite !length_app in HL. unfold decode_entry.
  destruct (Nat.ltb_spec off (length raw)); [|lia]. cbn [guard rbind]. rewrite <- !app_assoc in Hat.
  rewrite (entry_head_enc raw off layout kind ttl has_vlog _ head Hk Hv Hb eq_refl Hat). cbn [rbind]. apply at_step in Hat.
  rewrite (uvarint_at_enc _ _ _ _ Hkl Hat). cbn [rbind]. apply at_step in Hat.
  rewrite (uvarint_at_enc _ _ _ _ Hvl Hat). cbn [rbind]. apply at_step in Hat.
  rewrite (uvarint_at_enc _ _ _ _ Hs Hat). cbn [rbind]. apply at_step in Hat.
  fold fl. rewrite (ttl_at_enc _ _ _ fl _ Ht Httl Hat). cbn [rbind]. apply at_step in Hat.
  pose proof (at_length _ _ _ Hat) as HL2. pose proof Hat as Hat2. unfold entry_tail in Hat2. rewrite <- app_assoc in Hat2.
  unfold entry_tail in HL2. rewrite !length_app in HL2.
  match goal with |- context [Z.ltb (zlen raw) ?x] => destruct (Z.ltb_spec (zlen raw) x); [unfold zlen in *; lia|] end. cbn [negb guard rbind].
  apply at_step in Hat2. assert (Z.to_nat (zlen key) = length key) as -> by (unfold zlen; lia). rewrite (value_at_enc raw _ fl value vlog_off rest Ho Hat2). cbn [rbind].
  eexists. split; [|eapply (dec_is_intro raw _ fl); eauto]. f_equal. f_equal.
  unfold entry_tail. rewrite !length_app. lia.
Qed.

Lemma shared_prefix_spec a b :
  (shared_prefix_len a b <= length a)%nat /\ (shared_prefix_len a b <= length b)%nat /\
  take (shared_prefix_len a b) a = take (shared_prefix_len a b) b.
Proof.
  revert b. induction a as [|x a IH]; intros [|y b]; cbn; try (split; [lia|split; [lia|done]]).
  case_bool_decide as E; cbn; [|split; [lia|split; [lia|done]]]. destruct (IH b) as (H1 & H2 & H3). subst y.
  split; [lia|]. split; [lia|]. by rewrite H3.
Qed.

Lemma decode_delta_header_enc raw off prev key value seq ttl kind has_vlog vlog_off rest :
  entry_enc_ok Extended key value seq ttl kind has_vlog vlog_off ->
  let enc := encode_entry_delta [] prev key value seq ttl kind has_vlog vlog_off in
  let shared := shared_prefix_len prev key in
  at_ raw off (enc ++ rest) ->
  exists d, decode_delta_header raw off = Ok (d, (off + length enc)%nat) /\
    dec_is raw d shared (drop shared key) value seq ttl kind has_vlog vlog_off.
Proof.
  intros [Hkl Hvl Hs Ht Hk _ Ho Hv] enc shared. change (is_u64 (zlen value)) in Hvl. unfold enc, encode_entry_delta. cbn [app]. set (fl := entry_flags kind ttl has_vlog). fold shared.
  destruct (shared_prefix_spec prev key) as (_ & Hsh & _). fold shared in Hsh.
  assert (is_u64 (Z.of_nat shared) /\ is_u64 (Z.of_nat (length key - shared))) as [U1 U2] by (unfold is_len, is_u64 in *; lia). intros Hat.
  destruct (entry_flags_spec kind ttl has_vlog Hk Hv) as (_ & _ & Httl & Hvlog & _). fold fl in Httl, Hvlog.
  pose proof (enc_uvarint_nonempty kind). pose proof (at_length _ _ _ Hat) as HL. rewrite !length_app in HL. unfold decode_delta_header.
  destruct (Nat.ltb_spec off (length raw)); [|lia]. cbn [guard rbind]. rewrite <- !app_assoc in Hat. rewrite (app_assoc (enc_uvarint kind)) in Hat.
  rewrite (extended_head_enc raw off kind ttl has_vlog _ Hk Hv Hat). cbn [rbind]. fold fl. apply at_step in Hat.
  rewrite (uvarint_at_enc _ _ _ _ U1 Hat). cbn [rbind]. apply at_step in Hat.
  rewrite (uvarint_at_enc _ _ _ _ U2 Hat). cbn [rbind]. apply at_step in Hat.
  rewrite (uvarint_at_enc _ _ _ _ Hvl Hat). cbn [rbind]. apply at_step in Hat.
  rewrite (uvarint_at_enc _ _ _ _ Hs Hat). cbn [rbind]. apply at_step in Hat.
  fold fl. rewrite (ttl_at_enc _ _ _ fl _ Ht Httl Hat). cbn [rbind]. apply at_step in Hat.
  pose proof (at_length _ _ _ Hat) as HL2. pose proof Hat as Hat2. unfold entry_tail in Hat2. rewrite <- app_assoc in Hat2.
  unfold entry_tail in HL2. rewrite !length_app, length_drop in HL2.
  match goal with |- context [Z.ltb (zlen raw) ?x] => destruct (Z.ltb_spec (zlen raw) x); [rewrite ?length_app in *; unfold zlen in *; lia|] end. cbn [negb guard rbind].
  apply at_step in Hat2. rewrite length_drop in Hat2. rewrite !Nat2Z.id. rewrite (value_at_enc raw _ fl value vlog_off rest Ho Hat2). cbn [rbind].
  pose proof (dec_is_intro raw _ fl kind ttl seq shared (drop shared key) value has_vlog vlog_off rest eq_refl Hk Hv Hat) as HD.
  rewrite length_drop in HD. eexists. split; [|exact HD]. f_equal. f_equal.
  unfold entry_tail. rewrite !length_app, length_drop. lia.
Qed.

Lemma slice_cmp_drop n a b : take n a = take n b -> slice_cmp (drop n a) (drop n b) = slice_cmp a b.
Proof. intros E. rewrite <- (take_drop n a) at 2. rewrite <- (take_drop n b) at 2. by rewrite E, slice_cmp_app_l. Qed.

(** The running key of a delta block advances to the entry's key, from the
    predecessor's key or, at an anchor, from any key. *)
Lemma decode_entry_delta_enc raw off prev scratch bw key value seq ttl kind has_vlog vlog_off rest :
  entry_enc_ok Extended key value seq ttl kind has_vlog vlog_off ->
  prev = [] \/ prev = scratch -> (bw = true -> slice_cmp key scratch <> Lt) ->
  let enc := encode_entry_delta [] prev key value seq ttl kind has_vlog vlog_off in
  at_ raw off (enc ++ rest) ->
  exists d shared kb, decode_entry_delta raw off scratch bw = Ok (d, (off + length enc)%nat, key) /\
    dec_is raw d shared kb value seq ttl kind has_vlog vlog_off.
Proof.
  intros Hok Hp Hb enc Hat. destruct (decode_delta_header_enc raw off prev key value seq ttl kind has_vlog vlog_off rest Hok Hat) as (d & Hd & Hi).
  fold enc in Hd. set (n := shared_prefix_len prev key) in *. unfold decode_entry_delta. rewrite Hd. cbn [rbind].
  assert (take n scratch = take n key /\ (n <= length scratch)%nat) as [Ht Hn].
  { destruct (shared_prefix_spec prev key) as (L1 & _ & T). fold n in L1, T. destruct Hp as [->| ->]; [|done]. change n with 0%nat. split; [done|lia]. }
  exists d, n, (drop n key). split; [|done]. destruct Hi as [E1 E2 _ _ _ _ _ _ _ _]. rewrite E1, E2.
  destruct (Nat.ltb_spec (length scratch) n); [lia|]. cbn [negb guard rbind].
  assert (bw && is_lt (slice_cmp (drop n key) (drop n scratch)) = false) as ->.
  { destruct bw; [|done]. rewrite slice_cmp_drop by done. specialize (Hb eq_refl). by destruct (slice_cmp key scratch). }
  cbn [negb guard rbind]. by rewrite Ht, take_drop.
Qed.

Lemma decode_delta_anchor_enc raw off key value seq ttl kind has_vlog vlog_off rest :
  entry_enc_ok Extended key value seq ttl kind has_vlog vlog_off ->
  let enc := encode_entry_delta [] [] key value seq ttl kind has_vlog vlog_off in
  at_ raw off (enc ++ rest) ->
  exists d, decode_delta_anchor raw off = Ok (d, (off + length enc)%nat) /\ dec_is raw d 0 key value seq ttl kind has_vlog vlog_off.
Proof.
  intros Hok enc Hat. destruct (decode_delta_header_enc raw off [] key value seq ttl kind has_vlog vlog_off rest Hok Hat) as (d & Hd & Hi).
  exists d. fold enc in Hd. unfold decode_delta_anchor. rewrite Hd. cbn [rbind]. cbn [shared_prefix_len drop] in Hi. split; [|done].
  by rewrite (dx_shared _ _ _ _ _ _ _ _ _ _ Hi).
Qed.

(** ** The restart search *)

Lemma restart_search_spec p (q : nat -> bool) fuel lo hi :
  (lo <= hi)%nat -> (hi - lo <= fuel)%nat -> (forall i, (i < hi)%nat -> p i = Ok (q i)) ->
  (lo = 0%nat \/ q (lo - 1)%nat = true) ->
  exists r, restart_search p fuel lo hi = Ok r /\ (lo <= r <= hi)%nat /\ (r = 0%nat \/ q (r - 1)%nat = true).
Proof.
  revert lo hi. induction fuel as [|fuel IH]; intros lo hi Hle Hf Hp Hq; cbn [restart_search];
    (destruct (Nat.ltb_spec lo hi); [|exists lo; split; [done|split; [lia|done]]]); [lia|].
  pose proof (Nat.div_mod_eq (lo + hi) 2). pose proof (Nat.mod_upper_bound (lo + hi) 2 ltac:(lia)).
  set (mid := ((lo + hi) / 2)%nat) in *. rewrite Hp by lia. cbn [rbind]. destruct (q mid) eqn:Em.
  - destruct (IH (S mid) hi) as (r & E & Hr & Hx); [lia|lia|done|right; by replace (S mid - 1)%nat with mid by lia|].
    exists r. split; [done|]. split; [lia|done].
  - destruct (IH lo mid) as (r & E & Hr & Hx); [lia|lia|intros i Hi; apply Hp; lia|done|]. exists r. split; [done|]. split; [lia|done].
Qed.

(** The array of the offsets [rs]. *)
Definition restart_bytes (rs : list nat) : list byte := concat (map (fun o => le_bytes 4 (Z.of_nat o)) rs).

Lemma restart_bytes_length rs : length (restart_bytes rs) = (length rs * 4)%nat.
Proof. unfold restart_bytes. induction rs as [|x l IH]; [done|]. cbn [map concat length]. rewrite length_app, le_bytes_length. lia. Qed.

Lemma restart_off_at (rs : list nat) i o :
  rs !! i = Some o -> Z.of_nat o < 2 ^ 32 -> restart_off (restart_bytes rs) i = o.
Proof.
  intros Hi Ho. unfold restart_off. rewrite <- (take_drop_middle rs i o Hi). unfold restart_bytes. rewrite map_app, concat_app. cbn [map concat].
  assert (length (restart_bytes (take i rs)) = i * 4)%nat as L.
  { apply lookup_lt_Some in Hi. rewrite restart_bytes_length, length_take. lia. }
  unfold restart_bytes in L.
  rewrite (slice_at _ _ (le_bytes 4 (Z.of_nat o)) _ _ _ eq_refl) by (rewrite ?le_bytes_length; lia).
  rewrite from_le_bytes_u32 by (unfold is_u32; lia). lia.
Qed.

Lemma validate_anchors_ok len restarts (rs : list nat) i prev :
  (forall j o, rs !! j = Some o -> restart_off restarts (i + j) = o) ->
  (forall o, o ∈ rs -> (o < len)%nat /\ match prev with Some p => (p < o)%nat | None => True end) ->
  StronglySorted lt rs -> (i = 0%nat -> match rs with o :: _ => o = 0%nat | [] => True end) ->
  validate_anchors len restarts i (length rs) prev = Ok tt.
Proof.
  revert i prev. induction rs as [|o rs IH]; intros i prev Hr Ho Hs H0; cbn [validate_anchors length]; [done|].
  pose proof (Hr 0%nat o eq_refl) as E. rewrite Nat.add_0_r in E. rewrite E. apply StronglySorted_inv in Hs as [Hs Hf]. rewrite Forall_forall in Hf.
  destruct (Ho o ltac:(left)) as [Hl Hp].
  assert ((i =? 0)%nat && negb (o =? 0)%nat = false) as ->.
  { destruct (Nat.eqb_spec i 0) as [Hi|]; [|done]. by rewrite (H0 Hi). }
  destruct (Nat.ltb_spec o len); [|lia]. cbn [negb guard rbind].
  assert ((match prev with Some p => (o <=? p)%nat | None => false end) = false) as -> by (destruct prev; [apply Nat.leb_gt|]; done).
  cbn [negb guard rbind]. apply IH; [|intros x Hx; split; [by apply Ho; right|by apply Hf]|done|lia].
  intros j x Hj. rewrite <- (Hr (S j) x Hj). f_equal. lia.
Qed.
