(* ===== verification/Wal.v ===== *)
(** * The write-ahead log (wal.rs)

    The segment header, the two payload forms (the flat record stream and the
    kind-bearing envelope), the control frames of two-phase commit, framing, the
    frames the append entry points build, and replay with its torn-tail rule.
    The checksum (CRC-32C) is a
    parameter: any function to [u32].  Replay hands each record to a callback;
    it runs in a monad of a callback state and an error, so a record delivered
    before a failure stays delivered. *)

From Stdlib Require Import ZArith Lia.
From Stdlib.Strings Require Import Byte.
From stdpp Require Import base list.
From S2P Require Import Prelude Encoding Codec Comparator Format.

Open Scope Z_scope.

(** ** Records *)

Record Record_ := mkRecord {
  r_key : list byte;
  r_value : list byte;
  r_seq : Z;
  r_ttl : Z;
  r_kind : Z;
}.

Definition r_tombstone (r : Record_) : bool :=
  (r_kind r =? KIND_DELETE) || (r_kind r =? KIND_SINGLE_DELETE).
Definition r_single_delete (r : Record_) : bool := r_kind r =? KIND_SINGLE_DELETE.

Inductive ReplayRecord : Type :=
| Point (r : Record_)
| RangeDelete (start end_ : list byte) (seq : Z)
| Prepare (id : list byte) (cf_ids : list Z) (records : list Record_)
| Decision_ (id : list byte) (commit : option (Z * Z)).

Definition replay_seq (r : ReplayRecord) : Z :=
  match r with
  | Point r => r_seq r
  | RangeDelete _ _ s => s
  | Prepare _ _ _ | Decision_ _ _ => 0
  end.

Inductive EnvelopeRecord : Type :=
| EPoint (r : Record_)
| ERange (start end_ : list byte) (seq : Z)
| EControl (kind : Z) (a b : list byte).

Definition ENVELOPE_TAG : byte := xff.
Definition ENVELOPE_SCHEMA_PER_CF : Z := 1.
Definition ENVELOPE_SCHEMA_UNIFIED : Z := 2.
Definition HEADER_SIZE : nat := 8.

(** [legacy_point]: the flat form has no kind field; the source panics on
    anything but a point. *)
Definition legacy_point (rec : EnvelopeRecord) : option Record_ :=
  match rec with EPoint r => Some r | _ => None end.

(** ** Encoding *)

Definition ttl_mods (ttl : Z) : Z := if ttl =? 0 then 0 else MOD_HAS_TTL.

Definition envelope_record_len (rec : EnvelopeRecord) : Z :=
  match rec with
  | EPoint r =>
      uvarint_len (r_kind r) + uvarint_len (ttl_mods (r_ttl r))
      + uvarint_len (zlen (r_key r)) + uvarint_len (zlen (r_value r)) + uvarint_len (r_seq r)
      + (if r_ttl r =? 0 then 0 else varint_len (r_ttl r))
      + zlen (r_key r) + zlen (r_value r)
  | ERange s e q =>
      uvarint_len KIND_RANGE_DELETE + uvarint_len 0 + uvarint_len (zlen s)
      + uvarint_len (zlen e) + uvarint_len q + zlen s + zlen e
  | EControl k a b =>
      uvarint_len k + uvarint_len 0 + uvarint_len (zlen a) + uvarint_len (zlen b)
      + uvarint_len 0 + zlen a + zlen b
  end.

(** The fields shared by the three shapes, in file order. *)
Definition encode_fields (kind mods sq ttl : Z) (a b : list byte) : list byte :=
  enc_uvarint kind ++ enc_uvarint mods ++ enc_uvarint (zlen a) ++ enc_uvarint (zlen b)
  ++ enc_uvarint sq ++ (if ttl =? 0 then [] else enc_varint ttl) ++ a ++ b.

Definition encode_envelope_record (rec : EnvelopeRecord) : list byte :=
  match rec with
  | EPoint r =>
      encode_fields (r_kind r) (ttl_mods (r_ttl r)) (r_seq r) (r_ttl r) (r_key r) (r_value r)
  | ERange s e q => encode_fields KIND_RANGE_DELETE 0 q 0 s e
  | EControl k a b => encode_fields k 0 0 0 a b
  end.

Definition record_flags (r : Record_) : Z :=
  normalized_entry_flags (r_tombstone r) (r_single_delete r) (negb (r_ttl r =? 0)) false.

Definition encode_record_body (r : Record_) : list byte :=
  byte_of_Z (record_flags r) :: enc_uvarint (zlen (r_key r)) ++ enc_uvarint (zlen (r_value r))
  ++ enc_uvarint (r_seq r) ++ (if r_ttl r =? 0 then [] else enc_varint (r_ttl r))
  ++ r_key r ++ r_value r.

Definition record_body_len (r : Record_) : Z :=
  1 + uvarint_len (zlen (r_key r)) + uvarint_len (zlen (r_value r)) + uvarint_len (r_seq r)
  + (if r_ttl r =? 0 then 0 else varint_len (r_ttl r)) + zlen (r_key r) + zlen (r_value r).

Definition sum_Z (l : list Z) : Z := foldr Z.add 0 l.

(** [frame_payload_len]; [None] is the panic of [legacy_point]. *)
Definition frame_payload_len (schema : option Z) (recs : list EnvelopeRecord) : option Z :=
  match schema with
  | None => rs ← mapM legacy_point recs; Some (sum_Z (map record_body_len rs))
  | Some sc =>
      Some (1 + uvarint_len sc + uvarint_len (Z.of_nat (length recs))
            + sum_Z (map envelope_record_len recs))
  end.

Definition frame_payload (schema : option Z) (recs : list EnvelopeRecord) : option (list byte) :=
  match schema with
  | None => rs ← mapM legacy_point recs; Some (concat (map encode_record_body rs))
  | Some sc =>
      Some (ENVELOPE_TAG :: enc_uvarint sc ++ enc_uvarint (Z.of_nat (length recs))
            ++ concat (map encode_envelope_record recs))
  end.

(** ** Decoding *)

Record RawRecord := mkRaw {
  raw_kind : Z;
  raw_mods : Z;
  raw_seq : Z;
  raw_ttl : Z;
  raw_a : list byte;
  raw_b : list byte;
}.

(** The two slots at the end of a record: [alen.checked_add(blen)], then the
    bounds check, then the two slices. *)
Definition dec_slots (alen blen : Z) : decoder (list byte * list byte) := fun p =>
  ensure? alen + blen <? 2 ^ 64 else Corruption ;;
  ensure? negb (zlen p <? alen + blen) else Corruption ;;
  Ok ((take (Z.to_nat alen) p, take (Z.to_nat blen) (drop (Z.to_nat alen) p)),
      drop (Z.to_nat (alen + blen)) p).

Definition decode_raw_record : decoder RawRecord := fun p =>
  let? (kind, p) := dec_uvarint Corruption p in
  let? _ := check_kind kind in
  let? (mods, p) := dec_uvarint Corruption p in
  let? _ := check_modifiers mods in
  let? (alen, p) := dec_uvarint Corruption p in
  let? (blen, p) := dec_uvarint Corruption p in
  let? (sq, p) := dec_uvarint Corruption p in
  let? (ttl, p) := if has_bit mods MOD_HAS_TTL then dec_varint Corruption p else Ok (0, p) in
  ensure? negb (has_bit mods MOD_HAS_VLOG) else Corruption ;;
  let? (ab, p) := dec_slots alen blen p in
  Ok (mkRaw kind mods sq ttl (fst ab) (snd ab), p).

Definition raw_to_point (r : RawRecord) : Record_ :=
  mkRecord (raw_a r) (raw_b r) (raw_seq r) (raw_ttl r) (raw_kind r).

Definition decode_envelope_record : decoder ReplayRecord := fun p =>
  let? (r, p) := decode_raw_record p in
  ensure? negb (is_control_kind (raw_kind r)) else Corruption ;;
  if raw_kind r =? KIND_RANGE_DELETE then
    ensure? raw_mods r =? 0 else Corruption ;;
    ensure? negb ((zlen (raw_a r) =? 0) || (zlen (raw_b r) =? 0)) else Corruption ;;
    Ok (RangeDelete (raw_a r) (raw_b r) (raw_seq r), p)
  else Ok (Point (raw_to_point r), p).

Definition control_id (a : list byte) : result (list byte) :=
  ensure? zlen a =? 16 else Corruption ;; Ok a.

(** One iteration of the loop of [decode_control_frame]. *)
Definition decode_control_record : decoder RawRecord := fun p =>
  ensure? negb (zlen p =? 0) else Corruption ;;
  let? (r, p) := decode_raw_record p in
  ensure? raw_seq r =? 0 else Corruption ;;
  ensure? negb (outside (raw_mods r) MOD_HAS_TTL) else Corruption ;;
  Ok (r, p).

(** [as_chunks::<8>] of the cf-id list. *)
Fixpoint chunks8 (fuel : nat) (b : list byte) : list Z :=
  match fuel with
  | O => []
  | S fuel =>
      if (length b <? 8)%nat then [] else from_le_bytes (take 8 b) :: chunks8 fuel (drop 8 b)
  end.

Definition is_prepared_kind (k : Z) : bool := is_point_kind k || (k =? KIND_MERGE).

Definition decode_control_frame (payload : list byte) (count : Z) : result ReplayRecord :=
  let? (raws, p) := dec_repeat Corruption decode_control_record count payload in
  ensure? zlen p =? 0 else Corruption ;;
  match raws with
  | [] => Err Corruption (* [raws[0]]: the caller refuses a zero count *)
  | head :: rest =>
      if raw_kind head =? KIND_PREPARE then
        ensure? raw_mods head =? 0 else Corruption ;;
        let? id := control_id (raw_a head) in
        ensure? zlen (raw_b head) mod 8 =? 0 else Corruption ;;
        ensure? forallb (fun r => is_prepared_kind (raw_kind r)) rest else Corruption ;;
        Ok (Prepare id (chunks8 (length (raw_b head)) (raw_b head)) (map raw_to_point rest))
      else if (raw_kind head =? KIND_COMMIT_DECISION) || (raw_kind head =? KIND_ABORT_DECISION) then
        ensure? (length raws =? 1)%nat else Corruption ;;
        ensure? raw_mods head =? 0 else Corruption ;;
        let? id := control_id (raw_a head) in
        if raw_kind head =? KIND_ABORT_DECISION then
          ensure? zlen (raw_b head) =? 0 else Corruption ;;
          Ok (Decision_ id None)
        else
          ensure? zlen (raw_b head) =? 16 else Corruption ;;
          Ok (Decision_ id (Some (from_le_bytes (take 8 (raw_b head)),
                                  from_le_bytes (drop 8 (raw_b head)))))
      else Err Corruption
  end.

Definition decode_record : decoder Record_ := fun p =>
  match p with
  | [] => Err Corruption
  | fb :: p =>
      let fl := Z_of_byte fb in
      let? _ := check_entry_flags fl in
      let? (klen, p) := dec_uvarint Corruption p in
      let? (vlen, p) := dec_uvarint Corruption p in
      let? (sq, p) := dec_uvarint Corruption p in
      let? (ttl, p) := if has_bit fl FLAG_HAS_TTL then dec_varint Corruption p else Ok (0, p) in
      let? (kv, p) := dec_slots klen vlen p in
      Ok (mkRecord (fst kv) (snd kv) sq ttl
            (point_kind (has_bit fl FLAG_TOMBSTONE) (has_bit fl FLAG_SINGLE_DELETE)), p)
  end.

(** ** Segment headers *)

Inductive WalLayout : Type := PerColumnFamily | Unified.

Record SegmentId := mkSegmentId { layout : WalLayout; generation : Z }.

(** ["YOLODBWL"]. *)
Definition SEG_MAGIC : list byte := [x59; x4f; x4c; x4f; x44; x42; x57; x4c].
Definition SEG_VERSION : Z := 1.
Definition SEGMENT_HEADER_LEN : nat := 32.
Definition LAYOUT_PER_CF : Z := 1.
Definition LAYOUT_UNIFIED : Z := 2.

Definition layout_byte (id : SegmentId) : Z :=
  match layout id with PerColumnFamily => LAYOUT_PER_CF | Unified => LAYOUT_UNIFIED end.

Inductive SegmentHead : Type := Valid | Empty.

(** The callback of a replay: its state, and the error it may return. *)
Section Replay.
Context (checksum : list byte -> Z).

Definition header_body (id : SegmentId) : list byte :=
  SEG_MAGIC ++ le_bytes 4 SEG_VERSION ++ [byte_of_Z (layout_byte id)] ++ repeat x00 3
  ++ le_bytes 8 (generation id) ++ repeat x00 4.

Definition encode_segment_header (id : SegmentId) : list byte :=
  header_body id ++ le_bytes 4 (checksum (header_body id)).

Definition check_head (head : list byte) (file_len layout_want generation_want : Z)
    (implemented : list Z) : result SegmentHead :=
  if file_len =? 0 then Ok Empty
  else if (length head <? SEGMENT_HEADER_LEN)%nat then
    let n := Nat.min (length head) 8 in
    if beq (take n head) (take n SEG_MAGIC) || all_zero head then Ok Empty
    else Err UnsupportedFormat
  else
    let only_header := file_len =? Z.of_nat SEGMENT_HEADER_LEN in
    if negb (beq (take 8 head) SEG_MAGIC) then
      if only_header && all_zero head then Ok Empty else Err UnsupportedFormat
    else
      ensure? from_le_bytes (slice head 8 12) =? SEG_VERSION else UnsupportedFormat ;;
      if negb (from_le_bytes (slice head 28 32) =? checksum (take 28 head)) then
        if only_header then Ok Empty else Err Corruption
      else
        ensure? all_zero (slice head 13 16) && all_zero (slice head 24 28) else Corruption ;;
        let layout := from_le_bytes (slice head 12 13) in
        ensure? existsb (Z.eqb layout) implemented else UnsupportedFormat ;;
        ensure? layout =? layout_want else Corruption ;;
        ensure? from_le_bytes (slice head 16 24) =? generation_want else Corruption ;;
        Ok Valid.

Definition check_segment_head (head : list byte) (file_len : Z) (expect : SegmentId)
    : result SegmentHead :=
  check_head head file_len (layout_byte expect) (generation expect) [LAYOUT_PER_CF; LAYOUT_UNIFIED].

(** *** Framing *)

(** [payload_len as u32] truncates. *)
Definition frame_of_payload (payload : list byte) : list byte :=
  le_bytes 4 (wrap32 (zlen payload)) ++ le_bytes 4 (checksum payload) ++ payload.

Definition encode_frame (schema : option Z) (recs : list EnvelopeRecord) : option (list byte) :=
  frame_of_payload <$> frame_payload schema recs.

Definition append_batch (recs : list Record_) : option (list byte) :=
  encode_frame None (map EPoint recs).

Definition append_batch_envelope (schema : Z) (recs : list EnvelopeRecord) : option (list byte) :=
  encode_frame (Some schema) recs.

(** The sentinel sequence of a prepared record. *)
Definition unsequenced (r : Record_) : Record_ :=
  mkRecord (r_key r) (r_value r) 0 (r_ttl r) (r_kind r).

Definition append_prepare (schema : Z) (id : list byte) (cf_ids : list Z) (recs : list Record_)
    : option (list byte) :=
  let ids := concat (map (le_bytes 8) cf_ids) in
  append_batch_envelope schema
    (EControl KIND_PREPARE id ids :: map (fun r => EPoint (unsequenced r)) recs).

Definition append_decision (schema : Z) (id : list byte) (commit : option (Z * Z))
    : option (list byte) :=
  let '(kind, payload) :=
    match commit with
    | Some (commit_seq, count) => (KIND_COMMIT_DECISION, le_bytes 8 commit_seq ++ le_bytes 8 count)
    | None => (KIND_ABORT_DECISION, [])
    end in
  append_batch_envelope schema [EControl kind id payload].

(** *** Replay *)

Context {St : Type} (f : ReplayRecord -> St -> St * result unit).

Definition M (A : Type) : Type := St -> St * result A.
Definition ret {A} (a : A) : M A := fun s => (s, Ok a).
Definition fail {A} (e : OndaError) : M A := fun s => (s, Err e).
Definition bind {A B} (m : M A) (k : A -> M B) : M B := fun s =>
  match m s with
  | (s, Ok a) => k a s
  | (s, Err e) => (s, Err e)
  end.
Definition lift {A} (r : result A) : M A := fun s => (s, r).

(** The record loop of [decode_envelope].  A record takes at least one byte,
    so one more unit of fuel than there are bytes is never used up. *)
Fixpoint envelope_loop (fuel : nat) (count : Z) (p : list byte) (last_seq : Z) : M Z :=
  if count <=? 0 then
    match p with [] => ret last_seq | _ => fail Corruption end
  else match fuel, p with
  | O, _ | _, [] => fail Corruption
  | S fuel, _ =>
      bind (lift (decode_envelope_record p)) (fun '(rec, p) =>
      bind (f rec) (fun _ =>
      envelope_loop fuel (count - 1) p (Z.max last_seq (replay_seq rec))))
  end.

Definition decode_envelope (payload : list byte) : M Z :=
  bind (lift (
    let? (schema, p) := dec_uvarint Corruption (drop 1 payload) in
    ensure? (schema =? ENVELOPE_SCHEMA_PER_CF) || (schema =? ENVELOPE_SCHEMA_UNIFIED)
      else UnsupportedFormat ;;
    dec_uvarint Corruption p)) (fun '(count, p) =>
  let control := match uvarint p with Some (k, _) => is_control_kind k | None => false end in
  if control then
    bind (lift (ensure? negb (count =? 0) else Corruption ;; decode_control_frame p count))
      (fun rec => bind (f rec) (fun _ => ret 0))
  else envelope_loop (S (length p)) count p 0).

Fixpoint record_loop (fuel : nat) (p : list byte) (last_seq : Z) : M Z :=
  match fuel, p with
  | _, [] => ret last_seq
  | O, _ => fail Corruption
  | S fuel, _ =>
      bind (lift (decode_record p)) (fun '(rec, p) =>
      bind (f (Point rec)) (fun _ => record_loop fuel p (Z.max last_seq (r_seq rec))))
  end.

Definition decode_frame_payload (payload : list byte) : M Z :=
  if beq (take 1 payload) [ENVELOPE_TAG] then decode_envelope payload
  else record_loop (length payload) payload 0.

(** One frame off the front of the stripe: its payload and the rest, or [None]
    when the tail ends here (short header, short payload, checksum mismatch). *)
Definition next_frame (r : list byte) : option (list byte * list byte) :=
  if (length r <? HEADER_SIZE)%nat then None
  else
    let plen := Z.to_nat (from_le_bytes (take 4 r)) in
    let want := from_le_bytes (slice r 4 8) in
    let r := drop HEADER_SIZE r in
    if (length r <? plen)%nat then None
    else if checksum (take plen r) =? want then Some (take plen r, drop plen r)
    else None.

(** Every frame takes at least its header, so [length r] bounds the loop. *)
Fixpoint replay_frames (fuel : nat) (r : list byte) (last_seq : Z) : M Z :=
  match fuel with
  | O => ret last_seq
  | S fuel =>
      match next_frame r with
      | None => ret last_seq
      | Some (payload, r) =>
          bind (decode_frame_payload payload) (fun seq =>
          replay_frames fuel r (Z.max last_seq seq))
      end
  end.

(** [None] is a file that does not exist. *)
Definition replay_file (file : option (list byte)) (id : SegmentId) : M Z :=
  match file with
  | None => ret 0
  | Some b =>
      bind (lift (check_segment_head (take SEGMENT_HEADER_LEN b) (zlen b) id)) (fun state =>
      match state with
      | Empty => ret 0
      | Valid =>
          let r := drop SEGMENT_HEADER_LEN b in
          replay_frames (length r) r 0
      end)
  end.

Fixpoint replay (files : list (option (list byte))) (id : SegmentId) (last_seq : Z) : M Z :=
  match files with
  | [] => ret last_seq
  | file :: files =>
      bind (replay_file file id) (fun seq => replay files id (Z.max last_seq seq))
  end.
End Replay.

(** ** What the writer appends

    The four append entry points as data: the frame each produces and the
    records its replay must hand back. *)

Inductive Batch : Type :=
| BFlat (recs : list Record_)
| BEnvelope (schema : Z) (recs : list EnvelopeRecord)
| BPrepare (schema : Z) (id : list byte) (cf_ids : list Z) (recs : list Record_)
| BDecision (schema : Z) (id : list byte) (commit : option (Z * Z)).

Definition batch_frame (checksum : list byte -> Z) (b : Batch) : option (list byte) :=
  match b with
  | BFlat recs => append_batch checksum recs
  | BEnvelope schema recs => append_batch_envelope checksum schema recs
  | BPrepare schema id cf_ids recs => append_prepare checksum schema id cf_ids recs
  | BDecision schema id commit => append_decision checksum schema id commit
  end.

Definition replayed (r : EnvelopeRecord) : ReplayRecord :=
  match r with
  | EPoint r => Point r
  | ERange s e q => RangeDelete s e q
  | EControl _ a _ => Decision_ a None
  end.

Definition batch_records (b : Batch) : list ReplayRecord :=
  match b with
  | BFlat recs => map Point recs
  | BEnvelope _ recs => map replayed recs
  | BPrepare _ id cf_ids recs => [Prepare id cf_ids (map unsequenced recs)]
  | BDecision _ id commit => [Decision_ id commit]
  end.

(** What a record of the commit path satisfies: widths, and a kind the engine
    writes. *)
Definition point_ok (r : Record_) : bool :=
  (zlen (r_key r) + zlen (r_value r) <? 2 ^ 64) && (0 <=? r_seq r) && (r_seq r <? 2 ^ 64)
  && (- 2 ^ 63 <=? r_ttl r) && (r_ttl r <? 2 ^ 63) && is_prepared_kind (r_kind r).

Definition data_ok (r : EnvelopeRecord) : bool :=
  match r with
  | EPoint r => point_ok r
  | ERange s e q =>
      (zlen s + zlen e <? 2 ^ 64) && (0 <=? q) && (q <? 2 ^ 64)
      && negb (zlen s =? 0) && negb (zlen e =? 0)
  | EControl _ _ _ => false
  end.

Definition schema_ok (sc : Z) : bool :=
  (sc =? ENVELOPE_SCHEMA_PER_CF) || (sc =? ENVELOPE_SCHEMA_UNIFIED).

Definition is_u64b (x : Z) : bool := (0 <=? x) && (x <? 2 ^ 64).

(** The frame's length field holds 32 bits. *)
Definition frame_fits (fr : option (list byte)) : bool :=
  match fr with Some fr => zlen fr <? 2 ^ 32 + 8 | None => false end.

Definition batch_ok (b : Batch) : bool :=
  match b with
  | BFlat recs => forallb (fun r => point_ok r && is_point_kind (r_kind r)) recs
  | BEnvelope sc recs => schema_ok sc && forallb data_ok recs
  | BPrepare sc id cf_ids recs =>
      schema_ok sc && (length id =? 16)%nat && forallb is_u64b cf_ids && forallb point_ok recs
  | BDecision sc id commit =>
      schema_ok sc && (length id =? 16)%nat
      && match commit with Some (s, n) => is_u64b s && is_u64b n | None => true end
  end.

(** ** Lemmas: the record codecs *)

Lemma dec_slots_enc a b :
  zlen a + zlen b < 2 ^ 64 -> decodes (dec_slots (zlen a) (zlen b)) (a ++ b) (a, b).
Proof.
  intros Hlen rest. unfold dec_slots, zlen in *.
  rewrite (proj2 (Z.ltb_lt _ _) Hlen). cbn [rbind guard].
  rewrite !length_app. destruct (Z.ltb_spec (Z.of_nat (length a + length b + length rest))
    (Z.of_nat (length a) + Z.of_nat (length b))); [lia|]. cbn [negb rbind guard].
  rewrite <- app_assoc, !Nat2Z.id. rewrite take_app_length, drop_app_length, take_app_length.
  do 3 f_equal. rewrite app_assoc. apply drop_app_exact. rewrite length_app. lia.
Qed.

Lemma ttl_field_enc ttl :
  is_i64 ttl ->
  decodes (fun p => if has_bit (ttl_mods ttl) MOD_HAS_TTL then dec_varint Corruption p else Ok (0, p))
    (if ttl =? 0 then [] else enc_varint ttl) ttl.
Proof.
  intros Ht rest. unfold ttl_mods. destruct (Z.eqb_spec ttl 0) as [->|Hn]; [done|].
  change (has_bit MOD_HAS_TTL MOD_HAS_TTL) with true. by apply dec_varint_enc.
Qed.

Lemma is_u64_zlen a b : zlen a + zlen b < 2 ^ 64 -> is_u64 (zlen a) /\ is_u64 (zlen b).
Proof. unfold is_u64, zlen. lia. Qed.

Lemma decode_raw_record_enc kind sq ttl a b :
  check_kind kind = Ok tt -> is_u64 kind -> is_u64 sq -> is_i64 ttl -> zlen a + zlen b < 2 ^ 64 ->
  decodes decode_raw_record (encode_fields kind (ttl_mods ttl) sq ttl a b)
    (mkRaw kind (ttl_mods ttl) sq ttl a b).
Proof.
  intros Hk Hku Hs Ht Hl rest. destruct (is_u64_zlen _ _ Hl) as [Ha Hb].
  assert (Hm : is_u64 (ttl_mods ttl) /\ check_modifiers (ttl_mods ttl) = Ok tt /\
               has_bit (ttl_mods ttl) MOD_HAS_VLOG = false).
  { unfold ttl_mods. destruct (ttl =? 0); (split; [by split; vm_compute|done]). }
  destruct Hm as (Hmu & Hmc & Hmv). unfold encode_fields, decode_raw_record.
  repeat rewrite <- app_assoc.
  do 5 (rewrite dec_uvarint_enc by done; cbn [rbind]; try rewrite Hk; try rewrite Hmc; cbn [rbind]).
  rewrite ttl_field_enc by done. cbn [rbind]. rewrite Hmv. cbn [rbind guard negb].
  rewrite app_assoc, dec_slots_enc by done. done.
Qed.

Lemma encode_fields_range q s e :
  encode_fields KIND_RANGE_DELETE 0 q 0 s e = encode_fields KIND_RANGE_DELETE (ttl_mods 0) q 0 s e.
Proof. done. Qed.

Lemma prepared_kind_spec k :
  is_prepared_kind k = true ->
  check_kind k = Ok tt /\ is_u64 k /\ is_control_kind k = false /\ (k =? KIND_RANGE_DELETE) = false.
Proof.
  unfold is_prepared_kind, is_point_kind. intros H.
  assert (k = 1 \/ k = 2 \/ k = 3 \/ k = 4) as [->|[->|[->| ->]]]
    by (unfold KIND_PUT, KIND_DELETE, KIND_SINGLE_DELETE, KIND_MERGE in H; lia);
  (split; [done|split; [by split; vm_compute|done]]).
Qed.

Lemma point_ok_spec r :
  point_ok r = true ->
  zlen (r_key r) + zlen (r_value r) < 2 ^ 64 /\ is_u64 (r_seq r) /\ is_i64 (r_ttl r) /\
  is_prepared_kind (r_kind r) = true.
Proof. unfold point_ok, is_u64, is_i64. intros H. boolprop. done. Qed.

Lemma decode_envelope_record_enc r :
  data_ok r = true -> decodes decode_envelope_record (encode_envelope_record r) (replayed r).
Proof.
  intros H rest. unfold decode_envelope_record. destruct r as [r|s e q|k a b]; [| |done];
    cbn [data_ok encode_envelope_record replayed] in H |- *.
  - apply point_ok_spec in H as (Hl & Hs & Ht & Hk).
    apply prepared_kind_spec in Hk as (Hck & Hku & Hcf & Hr).
    rewrite decode_raw_record_enc by done. cbn [rbind raw_kind]. rewrite Hcf, Hr. by destruct r.
  - boolprop. rewrite encode_fields_range, decode_raw_record_enc; [..|done];
      [|done|by split; vm_compute|done|by split; vm_compute].
    cbn -[zlen Z.pow]. by rewrite (proj2 (Z.eqb_neq _ _)), (proj2 (Z.eqb_neq _ _)) by done.
Qed.

Lemma record_flags_spec r :
  is_point_kind (r_kind r) = true ->
  let fl := record_flags r in
  0 <= fl < 255 /\ check_entry_flags fl = Ok tt /\ has_bit fl FLAG_HAS_TTL = negb (r_ttl r =? 0) /\
  point_kind (has_bit fl FLAG_TOMBSTONE) (has_bit fl FLAG_SINGLE_DELETE) = r_kind r.
Proof.
  intros Hk. unfold record_flags, r_tombstone, r_single_delete.
  assert (r_kind r = 1 \/ r_kind r = 2 \/ r_kind r = 3) as Hk'
    by (unfold is_point_kind, KIND_PUT, KIND_DELETE, KIND_SINGLE_DELETE in Hk; lia).
  destruct (r_ttl r =? 0); destruct Hk' as [->|[->| ->]]; (split; [by vm_compute|done]).
Qed.

Lemma decode_record_enc r :
  point_ok r && is_point_kind (r_kind r) = true ->
  decodes decode_record (encode_record_body r) r.
Proof.
  intros H rest. apply andb_true_iff in H as [H Hk].
  apply point_ok_spec in H as (Hl & Hs & Ht & _). destruct (is_u64_zlen _ _ Hl) as [Ha Hb].
  destruct (record_flags_spec r Hk) as (Hfr & Hfc & Hft & Hfk).
  unfold encode_record_body, decode_record. cbn [app].
  rewrite Z_of_byte_of_Z_small by lia. rewrite Hfc, Hft, Hfk. cbn [rbind].
  repeat rewrite <- app_assoc. do 3 (rewrite dec_uvarint_enc by done; cbn [rbind]).
  assert (decodes (fun p => if negb (r_ttl r =? 0) then dec_varint Corruption p else Ok (0, p))
    (if r_ttl r =? 0 then [] else enc_varint (r_ttl r)) (r_ttl r)) as ->.
  { intros q. destruct (Z.eqb_spec (r_ttl r) 0) as [->|Hn]; [done|]. by apply dec_varint_enc. }
  cbn [rbind]. rewrite app_assoc, dec_slots_enc by done. by destruct r.
Qed.

Lemma encode_record_body_nonempty r : (0 < length (encode_record_body r))%nat.
Proof. cbn. lia. Qed.

Lemma encode_fields_nonempty k m q t a b : (0 < length (encode_fields k m q t a b))%nat.
Proof. unfold encode_fields. rewrite length_app. pose proof (enc_uvarint_nonempty k). lia. Qed.

Lemma encode_envelope_record_nonempty r : (0 < length (encode_envelope_record r))%nat.
Proof. destruct r; apply encode_fields_nonempty. Qed.

(** *** Control frames *)

Definition raw_of (r : EnvelopeRecord) : RawRecord :=
  match r with
  | EPoint r => mkRaw (r_kind r) (ttl_mods (r_ttl r)) (r_seq r) (r_ttl r) (r_key r) (r_value r)
  | ERange s e q => mkRaw KIND_RANGE_DELETE 0 q 0 s e
  | EControl k a b => mkRaw k 0 0 0 a b
  end.

Definition encode_raw (r : RawRecord) : list byte :=
  encode_fields (raw_kind r) (raw_mods r) (raw_seq r) (raw_ttl r) (raw_a r) (raw_b r).

Lemma encode_raw_of r : encode_envelope_record r = encode_raw (raw_of r).
Proof. by destruct r. Qed.

(** The records a control frame may hold. *)
Definition control_raw_ok (r : RawRecord) : Prop :=
  check_kind (raw_kind r) = Ok tt /\ is_u64 (raw_kind r) /\ raw_seq r = 0 /\ is_i64 (raw_ttl r) /\
  raw_mods r = ttl_mods (raw_ttl r) /\ zlen (raw_a r) + zlen (raw_b r) < 2 ^ 64.

Lemma decode_control_record_enc r :
  control_raw_ok r -> decodes decode_control_record (encode_raw r) r.
Proof.
  intros (Hk & Hku & Hs & Ht & Hm & Hl) rest. unfold decode_control_record, encode_raw.
  assert ((zlen (encode_fields (raw_kind r) (raw_mods r) (raw_seq r) (raw_ttl r) (raw_a r) (raw_b r)
    ++ rest) =? 0) = false) as ->.
  { apply Z.eqb_neq. unfold zlen. rewrite length_app.
    pose proof (encode_fields_nonempty (raw_kind r) (raw_mods r) (raw_seq r) (raw_ttl r)
      (raw_a r) (raw_b r)). lia. }
  cbn [negb guard rbind]. rewrite Hm, Hs. rewrite decode_raw_record_enc by (done || by split; vm_compute).
  cbn [rbind raw_seq raw_mods guard Z.eqb].
  assert (outside (ttl_mods (raw_ttl r)) MOD_HAS_TTL = false) as ->
    by (unfold ttl_mods; by destruct (raw_ttl r =? 0)).
  cbn. rewrite <- Hm. rewrite <- Hs at 1. by destruct r.
Qed.

Lemma decode_control_repeat raws :
  Forall control_raw_ok raws ->
  decodes (dec_repeat Corruption decode_control_record (Z.of_nat (length raws)))
    (concat (map encode_raw raws)) raws.
Proof.
  intros HF. rewrite Forall_forall in HF. apply dec_repeat_enc; [..|done].
  - intros r Hr. by apply decode_control_record_enc, HF.
  - intros. apply encode_fields_nonempty.
Qed.

Lemma chunks8_concat ids fuel :
  Forall is_u64 ids -> (length ids <= fuel)%nat ->
  chunks8 fuel (concat (map (le_bytes 8) ids)) = ids.
Proof.
  intros HF. revert fuel. induction HF as [|x ids Hx HF IH]; intros fuel Hf.
  - by destruct fuel.
  - destruct fuel as [|fuel]; cbn [length] in Hf; [lia|].
    cbn [chunks8 map concat]. rewrite length_app, le_bytes_length.
    destruct (Nat.ltb_spec (8 + length (concat (map (le_bytes 8) ids))) 8); [lia|].
    rewrite take_app_exact, drop_app_exact by by rewrite le_bytes_length.
    rewrite from_le_bytes_le_bytes, IH by lia. f_equal. by apply Z.mod_small.
Qed.

Lemma concat_le_bytes_length ids : length (concat (map (le_bytes 8) ids)) = (8 * length ids)%nat.
Proof.
  induction ids as [|x ids IH]; [done|]. cbn [map concat length].
  rewrite length_app, le_bytes_length, IH. lia.
Qed.

(** ** Lemmas: replay as delivery of records

    [deliver f rs] is the reference: call the callback on every record of [rs]
    in order and return the highest sequence.  Replaying encoded bytes is
    equal to it, for every callback and every callback state. *)

Section Delivery.
Context (checksum : list byte -> Z) (checksum_u32 : forall b, is_u32 (checksum b)).
Context {St : Type} (f : ReplayRecord -> St -> St * result unit).

Fixpoint deliver (rs : list ReplayRecord) (last_seq : Z) : M (St := St) Z :=
  match rs with
  | [] => ret last_seq
  | r :: rs => bind (f r) (fun _ => deliver rs (Z.max last_seq (replay_seq r)))
  end.

Definition meq {A} (m m' : M (St := St) A) : Prop := forall s, m s = m' s.

#[local] Instance meq_equiv {A} : Equivalence (@meq A).
Proof. split; [by intros m s|by intros m m' H s|by intros m1 m2 m3 H1 H2 s; rewrite H1]. Qed.

#[local] Instance bind_proper {A B} :
  Proper (meq ==> pointwise_relation A meq ==> meq) (@bind St A B).
Proof.
  intros m m' Hm k k' Hk s. unfold bind. rewrite Hm. destruct (m' s) as [s' [a|e]]; [|done]. apply Hk.
Qed.

Lemma bind_assoc {A B C} (m : M A) (k : A -> M B) (l : B -> M C) :
  meq (bind (bind m k) l) (bind m (fun a => bind (k a) l)).
Proof. intros s. unfold bind. by destruct (m s) as [s' [a|e]]. Qed.

Lemma deliver_app rs rs' last :
  meq (deliver (rs ++ rs') last) (bind (deliver rs last) (deliver rs')).
Proof.
  revert last. induction rs as [|r rs IH]; intros last; cbn [app deliver]; [done|].
  rewrite bind_assoc. apply bind_proper; [done|]. intros []. apply IH.
Qed.

Definition seqs_nonneg (rs : list ReplayRecord) : Prop := Forall (fun r => 0 <= replay_seq r) rs.

(** The accumulator commutes with the maximum taken by the caller. *)
Lemma deliver_max rs a b :
  meq (deliver rs (Z.max a b)) (bind (deliver rs b) (fun s => ret (Z.max a s))).
Proof.
  revert b. induction rs as [|r rs IH]; intros b; cbn [deliver]; [done|].
  rewrite bind_assoc. apply bind_proper; [done|]. intros []. rewrite <- Z.max_assoc. apply IH.
Qed.

Lemma deliver_from_zero rs last :
  0 <= last -> meq (bind (deliver rs 0) (fun s => ret (Z.max last s))) (deliver rs last).
Proof. intros Hl. rewrite <- deliver_max. by rewrite Z.max_l by lia. Qed.

(** *** The flat record stream *)
Lemma record_loop_enc recs last fuel :
  forallb (fun r => point_ok r && is_point_kind (r_kind r)) recs = true ->
  (length (concat (map encode_record_body recs)) <= fuel)%nat ->
  meq (record_loop f fuel (concat (map encode_record_body recs)) last) (deliver (map Point recs) last).
Proof.
  revert last fuel. induction recs as [|r recs IH]; intros last fuel Hok Hf.
  - by destruct fuel.
  - cbn [forallb map concat deliver] in *. apply andb_true_iff in Hok as [Hr Hok].
    rewrite length_app in Hf. pose proof (encode_record_body_nonempty r) as Hne.
    destruct fuel as [|fuel]; [lia|].
    pose proof (decode_record_enc r Hr (concat (map encode_record_body recs))) as Hd.
    destruct (encode_record_body r) as [|b bs] eqn:Eb; [cbn in Hne; lia|].
    cbn [app record_loop] in Hd |- *. rewrite Hd. intros s. cbn. apply bind_proper; [done|].
    intros []. apply IH; [done|]. cbn in Hf. lia.
Qed.

(** *** The envelope record stream *)
Lemma envelope_loop_enc recs last fuel :
  forallb data_ok recs = true ->
  (length (concat (map encode_envelope_record recs)) < fuel)%nat ->
  meq (envelope_loop f fuel (Z.of_nat (length recs)) (concat (map encode_envelope_record recs)) last)
      (deliver (map replayed recs) last).
Proof.
  revert last fuel. induction recs as [|r recs IH]; intros last fuel Hok Hf.
  - by destruct fuel.
  - cbn [forallb map concat deliver length] in *. apply andb_true_iff in Hok as [Hr Hok].
    rewrite length_app in Hf. pose proof (encode_envelope_record_nonempty r) as Hne.
    destruct fuel as [|fuel]; [lia|].
    pose proof (decode_envelope_record_enc r Hr (concat (map encode_envelope_record recs))) as Hd.
    cbn [envelope_loop]. destruct (Z.leb_spec (Z.of_nat (S (length recs))) 0); [lia|].
    replace (Z.of_nat (S (length recs)) - 1) with (Z.of_nat (length recs)) by lia.
    destruct (encode_envelope_record r) as [|b bs] eqn:Eb; [cbn in Hne; lia|].
    cbn [app] in Hd |- *. rewrite Hd. intros s. cbn. apply bind_proper; [done|].
    intros []. apply IH; [done|]. cbn in Hf. lia.
Qed.

Definition envelope_payload (sc n : Z) (body : list byte) : list byte :=
  ENVELOPE_TAG :: enc_uvarint sc ++ enc_uvarint n ++ body.

Lemma schema_ok_u64 sc : schema_ok sc = true -> is_u64 sc.
Proof.
  unfold schema_ok, ENVELOPE_SCHEMA_PER_CF, ENVELOPE_SCHEMA_UNIFIED. intros H.
  assert (sc = 1 \/ sc = 2) as [->| ->] by lia; by split; vm_compute.
Qed.

(** The two leading fields of an envelope. *)
Lemma decode_envelope_head sc n body :
  schema_ok sc = true -> is_u64 n ->
  decode_envelope f (envelope_payload sc n body) =
  let control := match uvarint body with Some (k, _) => is_control_kind k | None => false end in
  if control then
    bind (lift (ensure? negb (n =? 0) else Corruption ;; decode_control_frame body n))
      (fun rec => bind (f rec) (fun _ => ret 0))
  else envelope_loop f (S (length body)) n body 0.
Proof.
  intros Hs Hn. unfold decode_envelope, envelope_payload. cbn [drop]. rewrite drop_0.
  rewrite dec_uvarint_enc by by apply schema_ok_u64. cbn [rbind]. unfold schema_ok in Hs. rewrite Hs.
  cbn [rbind guard]. by rewrite dec_uvarint_enc by done.
Qed.

Lemma uvarint_peek kind m q t a b rest :
  is_u64 kind -> exists n, uvarint (encode_fields kind m q t a b ++ rest) = Some (kind, n).
Proof.
  intros Hk. unfold encode_fields. rewrite <- app_assoc, enc_uvarint_eq, uvarint_app by done. eauto.
Qed.

Lemma decode_envelope_data sc recs :
  schema_ok sc = true -> forallb data_ok recs = true -> is_u64 (Z.of_nat (length recs)) ->
  meq (decode_envelope f (envelope_payload sc (Z.of_nat (length recs))
         (concat (map encode_envelope_record recs))))
      (deliver (map replayed recs) 0).
Proof.
  intros Hs Hok Hn. rewrite decode_envelope_head by done.
  assert (match uvarint (concat (map encode_envelope_record recs)) with
          | Some (k, _) => is_control_kind k | None => false end = false) as ->.
  { destruct recs as [|r recs]; [done|]. cbn [forallb map concat] in *.
    apply andb_true_iff in Hok as [Hr _].
    destruct r as [r|s e q|]; cbn [data_ok encode_envelope_record] in *; [| |done].
    - apply point_ok_spec in Hr as (_ & _ & _ & Hk).
      apply prepared_kind_spec in Hk as (_ & Hku & Hc & _).
      by edestruct uvarint_peek as [n ->].
    - edestruct (uvarint_peek KIND_RANGE_DELETE) as [n ->]; [by split; vm_compute|done]. }
  cbv zeta iota. apply envelope_loop_enc; [done|lia].
Qed.

Lemma decode_envelope_control sc h raws rec :
  schema_ok sc = true -> is_u64 (Z.of_nat (length (h :: raws))) -> control_raw_ok h ->
  is_control_kind (raw_kind h) = true -> replay_seq rec = 0 ->
  decode_control_frame (concat (map encode_raw (h :: raws))) (Z.of_nat (length (h :: raws))) = Ok rec ->
  meq (decode_envelope f (envelope_payload sc (Z.of_nat (length (h :: raws)))
         (concat (map encode_raw (h :: raws)))))
      (deliver [rec] 0).
Proof.
  intros Hs Hn (_ & Hku & _) Hc Hq Hd. rewrite decode_envelope_head by done.
  assert (exists n, uvarint (concat (map encode_raw (h :: raws))) = Some (raw_kind h, n)) as [n Hu].
  { cbn [map concat]. by apply uvarint_peek. }
  rewrite Hu, Hc, Hd. cbv zeta. destruct (Z.eqb_spec (Z.of_nat (length (h :: raws))) 0) as [E|_];
    [cbn in E; lia|]. cbn [negb guard rbind deliver].
  intros s. cbn [lift bind]. unfold bind. destruct (f rec s) as [s' [[]|e]]; [|done].
  by rewrite Hq.
Qed.

(** *** Two-phase commit frames *)
Lemma control_raw_ok_control k a b :
  is_control_kind k = true -> zlen a + zlen b < 2 ^ 64 -> control_raw_ok (mkRaw k 0 0 0 a b).
Proof.
  intros Hk Hl. unfold is_control_kind, KIND_PREPARE, KIND_COMMIT_DECISION, KIND_ABORT_DECISION in Hk.
  assert (k = 16 \/ k = 17 \/ k = 18) as Hk' by lia. unfold control_raw_ok, is_u64, is_i64.
  cbn [raw_kind raw_mods raw_seq raw_ttl raw_a raw_b].
  destruct Hk' as [->|[->| ->]]; conj_split; done.
Qed.

Lemma decode_prepare_frame id cf_ids recs :
  length id = 16%nat -> Forall is_u64 cf_ids -> forallb point_ok recs = true ->
  zlen id + zlen (concat (map (le_bytes 8) cf_ids)) < 2 ^ 64 ->
  let raws := map raw_of (EControl KIND_PREPARE id (concat (map (le_bytes 8) cf_ids))
                :: map (fun r => EPoint (unsequenced r)) recs) in
  Forall control_raw_ok raws /\
  decode_control_frame (concat (map encode_raw raws)) (Z.of_nat (length raws)) =
  Ok (Prepare id cf_ids (map unsequenced recs)).
Proof.
  intros Hid Hcf Hrecs Hl raws.
  assert (HF : Forall control_raw_ok raws).
  { unfold raws. rewrite map_cons. constructor.
    - by apply control_raw_ok_control.
    - rewrite map_map. apply Forall_forall. intros x Hx. apply elem_of_map in Hx as (r & Hr & <-).
      rewrite forallb_forall in Hrecs. apply list_elem_of_In, Hrecs, point_ok_spec in Hr
        as (Hlr & _ & Ht & Hk). apply prepared_kind_spec in Hk as (? & ? & _). done. }
  split; [done|]. unfold decode_control_frame.
  pose proof (decode_control_repeat raws HF []) as Hd. rewrite app_nil_r in Hd. rewrite Hd.
  cbn [rbind]. change (zlen [] =? 0) with true. cbn [guard rbind]. unfold raws. cbn [map raw_of raw_kind raw_mods raw_a raw_b].
  change (KIND_PREPARE =? KIND_PREPARE) with true. cbn [Z.eqb guard rbind]. unfold control_id, zlen.
  rewrite Hid, concat_le_bytes_length. change (Z.of_nat 16 =? 16) with true. cbn [guard rbind].
  rewrite Nat2Z.inj_mul, Z.mul_comm, Z.mod_mul by done. cbn [Z.eqb guard rbind].
  assert (forallb (fun r => is_prepared_kind (raw_kind r))
    (map raw_of (map (fun r => EPoint (unsequenced r)) recs)) = true) as ->.
  { rewrite map_map. apply forallb_forall. intros x Hx. apply in_map_iff in Hx as (r & <- & Hr).
    rewrite forallb_forall in Hrecs. by apply Hrecs, point_ok_spec in Hr as (_ & _ & _ & Hk). }
  cbn [guard rbind]. rewrite chunks8_concat; [|done|lia].
  f_equal. f_equal. rewrite !map_map. by apply map_ext; intros [].
Qed.

Lemma decode_decision_frame id commit :
  length id = 16%nat ->
  match commit with Some (s, n) => is_u64 s /\ is_u64 n | None => True end ->
  let raws := [mkRaw (if commit is Some _ then KIND_COMMIT_DECISION else KIND_ABORT_DECISION) 0 0 0 id
                (match commit with Some (s, n) => le_bytes 8 s ++ le_bytes 8 n | None => [] end)] in
  Forall control_raw_ok raws /\
  decode_control_frame (concat (map encode_raw raws)) (Z.of_nat (length raws)) =
  Ok (Decision_ id commit).
Proof.
  intros Hid Hc raws.
  assert (HF : Forall control_raw_ok raws).
  { apply Forall_singleton, control_raw_ok_control; [by destruct commit|]. unfold zlen.
    rewrite Hid. destruct commit as [[s n]|]; [rewrite length_app, !le_bytes_length|]; done. }
  split; [done|]. unfold decode_control_frame.
  pose proof (decode_control_repeat raws HF []) as Hd. rewrite app_nil_r in Hd. rewrite Hd.
  cbn [rbind]. change (zlen [] =? 0) with true. cbn [guard rbind raws raw_kind raw_mods raw_a raw_b].
  unfold control_id, zlen. destruct commit as [[s n]|]; cbn [rbind guard]; rewrite Hid.
  - rewrite length_app, !le_bytes_length. cbn [rbind guard]. rewrite take_app_exact, drop_app_exact
      by by rewrite le_bytes_length. rewrite !from_le_bytes_le_bytes.
    destruct Hc as [Hs Hn]. change (8 * Z.of_nat 8) with 64.
    by rewrite (Z.mod_small s), (Z.mod_small n) by assumption.
  - done.
Qed.
End Delivery.

(** *** Batches *)

Definition batch_payload (b : Batch) : option (list byte) :=
  match b with
  | BFlat recs => frame_payload None (map EPoint recs)
  | BEnvelope sc recs => frame_payload (Some sc) recs
  | BPrepare sc id cf_ids recs =>
      frame_payload (Some sc) (EControl KIND_PREPARE id (concat (map (le_bytes 8) cf_ids))
                               :: map (fun r => EPoint (unsequenced r)) recs)
  | BDecision sc id commit =>
      frame_payload (Some sc)
        [EControl (if commit is Some _ then KIND_COMMIT_DECISION else KIND_ABORT_DECISION) id
           (match commit with Some (s, n) => le_bytes 8 s ++ le_bytes 8 n | None => [] end)]
  end.

Lemma batch_frame_payload checksum b :
  batch_frame checksum b = frame_of_payload checksum <$> batch_payload b.
Proof. destruct b as [| | |sc id [[s n]|]]; done. Qed.

Lemma mapM_legacy_point recs : mapM legacy_point (map EPoint recs) = Some recs.
Proof. induction recs as [|r recs IH]; [done|]. cbn. by rewrite IH. Qed.

Lemma concat_length_ge {A} (enc : A -> list byte) l :
  (forall x, (0 < length (enc x))%nat) -> (length l <= length (concat (map enc l)))%nat.
Proof.
  intros H. induction l as [|x l IH]; cbn; [lia|]. rewrite length_app. specialize (H x). lia.
Qed.

Lemma envelope_count_u64 {A} (enc : A -> list byte) sc l :
  (forall x, (0 < length (enc x))%nat) ->
  zlen (envelope_payload sc (Z.of_nat (length l)) (concat (map enc l))) < 2 ^ 32 ->
  is_u64 (Z.of_nat (length l)).
Proof.
  intros H. unfold zlen, envelope_payload, is_u64. cbn [length]. rewrite !length_app.
  pose proof (concat_length_ge enc l H). lia.
Qed.

Section Batches.
Context {St : Type} (f : ReplayRecord -> St -> St * result unit).

Lemma flat_payload_delivers recs :
  batch_ok (BFlat recs) = true ->
  meq (decode_frame_payload f (concat (map encode_record_body recs)))
      (deliver f (batch_records (BFlat recs)) 0).
Proof.
  intros Hok. unfold decode_frame_payload.
  assert (beq (take 1 (concat (map encode_record_body recs))) [ENVELOPE_TAG] = false) as ->.
  { destruct recs as [|r recs]; [done|]. apply bool_decide_eq_false. cbn [batch_ok forallb] in Hok.
    boolprop. change (take 1 _) with [byte_of_Z (record_flags r)].
    destruct (record_flags_spec r) as (Hr & _); [done|]. intros E. injection E as E.
    apply (f_equal Z_of_byte) in E. rewrite Z_of_byte_of_Z_small in E by lia.
    change (Z_of_byte ENVELOPE_TAG) with 255 in E. lia. }
  by apply record_loop_enc.
Qed.

Lemma envelope_is_tagged sc n body :
  decode_frame_payload f (envelope_payload sc n body) = decode_envelope f (envelope_payload sc n body).
Proof. done. Qed.

(** A control frame's payload, in terms of its raw records. *)
Lemma control_payload_eq sc recs :
  frame_payload (Some sc) recs =
  Some (envelope_payload sc (Z.of_nat (length (map raw_of recs))) (concat (map encode_raw (map raw_of recs)))).
Proof.
  cbn. rewrite length_map, map_map. unfold envelope_payload.
  by rewrite (map_ext _ _ encode_raw_of).
Qed.

Lemma forallb_Forall_u64 l : forallb is_u64b l = true -> Forall is_u64 l.
Proof.
  intros H. apply Forall_forall. intros x Hx. rewrite forallb_forall in H.
  apply list_elem_of_In, H in Hx. unfold is_u64b in Hx. unfold is_u64. boolprop. done.
Qed.

Lemma batch_payload_delivers b payload :
  batch_ok b = true -> batch_payload b = Some payload -> zlen payload < 2 ^ 32 ->
  meq (decode_frame_payload f payload) (deliver f (batch_records b) 0).
Proof.
  destruct b as [recs|sc recs|sc id cfs recs|sc id commit]; cbn [batch_payload]; intros Hok Hp Hl.
  - unfold frame_payload in Hp. rewrite mapM_legacy_point in Hp. injection Hp as <-.
    by apply flat_payload_delivers.
  - injection Hp as <-. cbn [batch_ok] in Hok. boolprop.
    apply decode_envelope_data; [done..|].
    by eapply envelope_count_u64; [apply encode_envelope_record_nonempty|].
  - cbn [batch_ok] in Hok. boolprop. rewrite control_payload_eq in Hp.
    apply Some_inj in Hp. subst payload.
    rewrite envelope_is_tagged.
    match goal with H : (length id =? 16)%nat = true |- _ => apply Nat.eqb_eq in H as Hid end.
    destruct (decode_prepare_frame id cfs recs) as [HF Hd];
      [done|by apply forallb_Forall_u64|done| |].
    { revert Hl. generalize (concat (map (le_bytes 8) cfs)). intros ids.
      unfold zlen, envelope_payload. cbn [map raw_of concat encode_raw raw_a raw_b].
      cbn [length]. unfold encode_raw, encode_fields. cbn [raw_a raw_b]. rewrite !length_app. lia. }
    apply envelope_count_u64 in Hl; [|intros; apply encode_fields_nonempty].
    apply Forall_cons_1 in HF as [Hh _]. by apply decode_envelope_control.
  - cbn [batch_ok] in Hok. boolprop. rewrite control_payload_eq in Hp.
    apply Some_inj in Hp. subst payload.
    rewrite envelope_is_tagged.
    match goal with H : (length id =? 16)%nat = true |- _ => apply Nat.eqb_eq in H as Hid end.
    destruct (decode_decision_frame id commit) as [HF Hd]; [done| |].
    { destruct commit as [[s n]|]; [|done]. boolprop. unfold is_u64b, is_u64 in *. boolprop. done. }
    apply Forall_cons_1 in HF as [Hh _]. apply decode_envelope_control;
      [done|by split; vm_compute|done|by destruct commit as [[]|]|done|done].
Qed.
End Batches.

(** ** Lemmas: frames and torn tails *)

Section Frames.
Context (checksum : list byte -> Z) (checksum_u32 : forall b, is_u32 (checksum b)).

Lemma frame_length p : length (frame_of_payload checksum p) = (8 + length p)%nat.
Proof. unfold frame_of_payload. rewrite !length_app, !le_bytes_length. lia. Qed.

Lemma frame_fields p rest :
  zlen p < 2 ^ 32 ->
  let r := frame_of_payload checksum p ++ rest in
  take 4 r = le_bytes 4 (zlen p) /\ slice r 4 8 = le_bytes 4 (checksum p) /\
  drop HEADER_SIZE r = p ++ rest.
Proof.
  intros Hl r. unfold r, frame_of_payload, slice, HEADER_SIZE, wrap32.
  rewrite Z.mod_small by (unfold zlen in *; lia). repeat rewrite <- app_assoc.
  rewrite take_app_exact, drop_app_exact by by rewrite le_bytes_length.
  rewrite take_app_exact by by rewrite le_bytes_length. conj_split; [done..|].
  rewrite app_assoc, drop_app_exact; [done|]. by rewrite length_app, !le_bytes_length.
Qed.

Lemma next_frame_enc p rest :
  zlen p < 2 ^ 32 -> next_frame checksum (frame_of_payload checksum p ++ rest) = Some (p, rest).
Proof.
  intros Hl. destruct (frame_fields p rest Hl) as (Hlen & Hcrc & Hdrop). unfold next_frame.
  rewrite Hlen, Hcrc, Hdrop. rewrite !length_app, frame_length.
  destruct (Nat.ltb_spec (8 + length p + length rest) HEADER_SIZE); [unfold HEADER_SIZE in *; lia|].
  rewrite !from_le_bytes_u32; [|done|unfold is_u32, zlen in *; lia].
  unfold zlen. rewrite Nat2Z.id.
  destruct (Nat.ltb_spec (length p + length rest) (length p)); [lia|].
  by rewrite take_app_length, drop_app_length, Z.eqb_refl.
Qed.

(** Any strict prefix of a frame is a torn tail. *)
Lemma next_frame_torn p n :
  zlen p < 2 ^ 32 -> (n < 8 + length p)%nat ->
  next_frame checksum (take n (frame_of_payload checksum p)) = None.
Proof.
  intros Hl Hn. unfold next_frame. rewrite length_take, frame_length.
  destruct (Nat.ltb_spec (n `min` (8 + length p)) HEADER_SIZE) as [|H8]; [done|].
  unfold HEADER_SIZE in H8. destruct (frame_fields p [] Hl) as (Hlen & _ & Hdrop).
  rewrite app_nil_r in Hlen, Hdrop. rewrite take_take, Nat.min_l, Hlen by lia.
  rewrite from_le_bytes_u32 by (unfold is_u32, zlen in *; lia). unfold zlen. rewrite Nat2Z.id.
  rewrite length_drop, length_take, frame_length. unfold HEADER_SIZE.
  destruct (Nat.ltb_spec (n `min` (8 + length p) - 8) (length p)); [done|lia].
Qed.

Lemma next_frame_shrinks r p r' :
  next_frame checksum r = Some (p, r') -> (length r' + 8 <= length r)%nat.
Proof.
  unfold next_frame. destruct (Nat.ltb_spec (length r) HEADER_SIZE) as [|H8]; [done|].
  unfold HEADER_SIZE in H8. cbv zeta. destruct (_ <? _)%nat; [done|]. destruct (_ =? _); [|done].
  intros E. injection E as <- <-. rewrite !length_drop. unfold HEADER_SIZE. lia.
Qed.

Context {St : Type} (f : ReplayRecord -> St -> St * result unit).

(** Fuel: one frame takes at least eight bytes, so the length of the stripe is
    always enough. *)
Lemma replay_frames_fuel fuel fuel' r last :
  (length r <= fuel)%nat -> (length r <= fuel')%nat ->
  meq (replay_frames checksum f fuel r last) (replay_frames checksum f fuel' r last).
Proof.
  revert fuel' r last. induction fuel as [|fuel IH]; intros [|fuel'] r last Hf Hf';
    cbn [replay_frames]; try done.
  - destruct r; [done|cbn in Hf; lia].
  - destruct r; [done|cbn in Hf'; lia].
  - destruct (next_frame checksum r) as [[p r']|] eqn:E; [|done].
    apply next_frame_shrinks in E. intros s. unfold bind.
    destruct (decode_frame_payload f p s) as [s' [q|e]]; [|done]. apply IH; lia.
Qed.

(** *** Batches that survive a cut *)

Definition frame_len (b : Batch) : nat :=
  match batch_frame checksum b with Some fr => length fr | None => 0%nat end.

(** The batches whose frames lie entirely in the first [n] bytes. *)
Fixpoint surviving (n : nat) (bs : list Batch) : list Batch :=
  match bs with
  | [] => []
  | b :: bs => if (frame_len b <=? n)%nat then b :: surviving (n - frame_len b) bs else []
  end.

Definition frames_of (bs : list Batch) : list byte :=
  concat (map (fun b => default [] (batch_frame checksum b)) bs).

Definition writable (b : Batch) : bool := batch_ok b && frame_fits (batch_frame checksum b).

Lemma writable_frame b :
  writable b = true ->
  exists p, batch_payload b = Some p /\ batch_frame checksum b = Some (frame_of_payload checksum p) /\
            zlen p < 2 ^ 32 /\ frame_len b = (8 + length p)%nat /\ batch_ok b = true.
Proof.
  unfold writable, frame_fits, frame_len. intros H. apply andb_true_iff in H as [Hok Hf].
  rewrite batch_frame_payload in Hf |- *. destruct (batch_payload b) as [p|] eqn:Ep; [|done].
  cbn [fmap option_fmap option_map] in *. exists p. unfold zlen in *. rewrite frame_length in *. boolprop.
  conj_split; (done || lia).
Qed.

Lemma replay_cut bs n last fuel :
  forallb writable bs = true -> 0 <= last -> (length (take n (frames_of bs)) <= fuel)%nat ->
  meq (replay_frames checksum f fuel (take n (frames_of bs)) last)
      (deliver f (concat (map batch_records (surviving n bs))) last).
Proof.
  revert n last fuel. induction bs as [|b bs IH]; intros n last fuel Hok Hl Hf.
  - unfold frames_of. cbn. rewrite take_nil. by destruct fuel.
  - cbn [forallb] in Hok. apply andb_true_iff in Hok as [Hb Hok].
    apply writable_frame in Hb as (p & Hp & Hfr & Hlp & Hlen & Hbok).
    unfold frames_of in *. cbn [map concat surviving] in *. rewrite Hfr in Hf |- *.
    change (default [] (Some (frame_of_payload checksum p))) with (frame_of_payload checksum p) in *.
    rewrite Hlen. destruct (Nat.leb_spec (8 + length p) n) as [Hn|Hn].
    + rewrite take_app_ge in Hf |- * by (rewrite frame_length; lia). rewrite frame_length in Hf |- *.
      rewrite length_app, frame_length in Hf. destruct fuel as [|fuel]; [lia|].
      cbn [replay_frames]. rewrite next_frame_enc by done. intros s. cbn [map concat].
      rewrite deliver_app. etransitivity.
      { apply bind_proper; [by apply batch_payload_delivers|]. intros q. apply IH; [done|lia..]. }
      transitivity (bind (bind (deliver f (batch_records b) 0) (fun q => ret (Z.max last q)))
        (deliver f (concat (map batch_records (surviving (n - (8 + length p)) bs)))) s).
      * by rewrite bind_assoc.
      * apply bind_proper; [by apply deliver_from_zero|done].
    + rewrite take_app_le by (rewrite frame_length; lia).
      destruct fuel as [|fuel]; [done|]. cbn [replay_frames].
      by rewrite next_frame_torn by lia.
Qed.

(** Frames that are whole are delivered, whatever the bytes behind them hold. *)
Lemma replay_frames_prefix bs rest last fuel :
  forallb writable bs = true -> 0 <= last -> (length (frames_of bs ++ rest) <= fuel)%nat ->
  meq (replay_frames checksum f fuel (frames_of bs ++ rest) last)
      (bind (deliver f (concat (map batch_records bs)) last) (replay_frames checksum f (length rest) rest)).
Proof.
  revert last fuel. induction bs as [|b bs IH]; intros last fuel Hok Hl Hf; [by apply replay_frames_fuel|].
  cbn [forallb] in Hok. apply andb_true_iff in Hok as [Hb Hok].
  apply writable_frame in Hb as (p & Hp & Hfr & Hlp & Hlen & Hbok).
  unfold frames_of in *. cbn [map concat] in *. rewrite Hfr in Hf |- *.
  change (default [] (Some (frame_of_payload checksum p))) with (frame_of_payload checksum p) in *.
  rewrite <- app_assoc in Hf |- *. rewrite length_app, frame_length in Hf. destruct fuel as [|fuel]; [lia|].
  cbn [replay_frames]. rewrite next_frame_enc by done. intros s.
  etransitivity; [apply bind_proper; [by apply batch_payload_delivers|intros q; apply IH; [done|lia..]]|].
  symmetry. etransitivity; [apply bind_proper; [apply deliver_app|by intros q s0]|]. rewrite bind_assoc. symmetry.
  transitivity (bind (bind (deliver f (batch_records b) 0) (fun q => ret (Z.max last q)))
    (fun q => bind (deliver f (concat (map batch_records bs)) q) (replay_frames checksum f (length rest) rest)) s).
  - by rewrite bind_assoc.
  - apply bind_proper; [by apply deliver_from_zero|done].
Qed.

Lemma header_length id : length (encode_segment_header checksum id) = 32%nat.
Proof. done. Qed.

Lemma check_header id file_len :
  is_u64 (generation id) -> 32 <= file_len ->
  check_segment_head checksum (encode_segment_header checksum id) file_len id = Ok Valid.
Proof.
  intros Hg Hfl. unfold check_segment_head, check_head. rewrite header_length.
  destruct (Z.eqb_spec file_len 0); [lia|].
  change (32 <? SEGMENT_HEADER_LEN)%nat with false. cbv iota zeta.
  change (beq (take 8 (encode_segment_header checksum id)) SEG_MAGIC) with true.
  change (slice (encode_segment_header checksum id) 8 12) with (le_bytes 4 SEG_VERSION).
  change (slice (encode_segment_header checksum id) 28 32) with (le_bytes 4 (checksum (header_body id))).
  change (take 28 (encode_segment_header checksum id)) with (header_body id).
  change (slice (encode_segment_header checksum id) 12 13) with ([byte_of_Z (layout_byte id)]).
  change (slice (encode_segment_header checksum id) 16 24) with (le_bytes 8 (generation id)).
  change (all_zero (slice (encode_segment_header checksum id) 13 16)) with true.
  change (all_zero (slice (encode_segment_header checksum id) 24 28)) with true.
  rewrite (from_le_bytes_u32 (checksum _)) by done. rewrite Z.eqb_refl.
  rewrite (from_le_bytes_le_bytes 8), Z.mod_small by done. rewrite !Z.eqb_refl.
  by destruct id as [[] g].
Qed.

(** A header cut short by a crash is an empty segment. *)
Lemma check_header_torn id n :
  (n < 32)%nat ->
  check_segment_head checksum (take n (encode_segment_header checksum id)) (Z.of_nat n) id = Ok Empty.
Proof.
  intros Hn. unfold check_segment_head, check_head. destruct (Z.eqb_spec (Z.of_nat n) 0); [done|].
  rewrite length_take, header_length, Nat.min_l by lia.
  rewrite (proj2 (Nat.ltb_lt n SEGMENT_HEADER_LEN)) by done.
  rewrite take_take, Nat.min_l by lia.
  assert (take (n `min` 8) (encode_segment_header checksum id) = take (n `min` 8) SEG_MAGIC) as ->.
  { unfold encode_segment_header, header_body. repeat rewrite <- app_assoc.
    rewrite take_app_le; [done|]. change (length SEG_MAGIC) with 8%nat. lia. }
  unfold beq. by rewrite bool_decide_eq_true_2.
Qed.

(** What a stripe holds: its header and the frames appended to it. *)
Definition stripe_bytes (id : SegmentId) (bs : list Batch) : list byte :=
  encode_segment_header checksum id ++ frames_of bs.

Lemma replay_file_cut id bs n :
  is_u64 (generation id) -> forallb writable bs = true ->
  meq (replay_file checksum f (Some (take n (stripe_bytes id bs))) id)
      (deliver f (concat (map batch_records (surviving (n - 32) bs))) 0).
Proof.
  intros Hg Hok s. unfold replay_file, stripe_bytes. destruct (decide (n < 32)%nat) as [Hn|Hn].
  - rewrite take_app_le by (rewrite header_length; lia). unfold zlen.
    rewrite take_take, (Nat.min_r SEGMENT_HEADER_LEN n) by (unfold SEGMENT_HEADER_LEN; lia).
    rewrite length_take, header_length, Nat.min_l by lia.
    rewrite check_header_torn by done. replace (n - 32)%nat with 0%nat by lia.
    destruct bs as [|b bs]; [done|]. cbn [forallb] in Hok. apply andb_true_iff in Hok as [Hb _].
    apply writable_frame in Hb as (p & _ & _ & _ & Hlen & _). cbn [surviving]. by rewrite Hlen.
  - rewrite take_app_ge by (rewrite header_length; lia). rewrite header_length.
    rewrite take_app_exact, drop_app_exact by done.
    rewrite check_header; [|done|unfold zlen; rewrite length_app, header_length; lia].
    cbn [lift bind]. unfold bind. cbn. by apply replay_cut.
Qed.

Lemma replay_file_prefix id bs rest :
  is_u64 (generation id) -> forallb writable bs = true ->
  meq (replay_file checksum f (Some (stripe_bytes id bs ++ rest)) id)
      (bind (deliver f (concat (map batch_records bs)) 0) (replay_frames checksum f (length rest) rest)).
Proof.
  intros Hg Hok s. unfold replay_file, stripe_bytes. rewrite <- app_assoc, take_app_exact, drop_app_exact by done.
  rewrite check_header; [|done|unfold zlen; rewrite length_app, header_length; lia].
  cbn [lift bind]. unfold bind at 1. cbn. by apply replay_frames_prefix.
Qed.
End Frames.

(** ** Lemmas: exact sizes *)

Lemma enc_uvarint_zlen x : is_u64 x -> zlen (enc_uvarint x) = uvarint_len x.
Proof. intros. by rewrite uvarint_len_length. Qed.

Lemma enc_varint_zlen x : is_i64 x -> zlen (enc_varint x) = varint_len x.
Proof.
  intros. unfold enc_varint, append_varint, varint_len. apply enc_uvarint_zlen. by apply zigzag_u64.
Qed.

Lemma zlen_concat {A} (enc : A -> list byte) (len : A -> Z) l :
  Forall (fun x => zlen (enc x) = len x) l -> zlen (concat (map enc l)) = sum_Z (map len l).
Proof. induction 1; [done|]. cbn. by rewrite zlen_app, H, IHForall. Qed.

(** The machine widths of a record's fields. *)
Definition sized (r : EnvelopeRecord) : Prop :=
  let '(k, q, t, a, b) := match r with
    | EPoint r => (r_kind r, r_seq r, r_ttl r, r_key r, r_value r)
    | ERange s e q => (KIND_RANGE_DELETE, q, 0, s, e)
    | EControl k a b => (k, 0, 0, a, b)
    end in
  is_u64 k /\ is_u64 q /\ is_i64 t /\ is_u64 (zlen a) /\ is_u64 (zlen b).

Lemma zlen_ttl t : is_i64 t -> zlen (if t =? 0 then [] else enc_varint t) = if t =? 0 then 0 else varint_len t.
Proof. intros. destruct (t =? 0); [done|]. by apply enc_varint_zlen. Qed.

Lemma envelope_record_len_exact r : sized r -> zlen (encode_envelope_record r) = envelope_record_len r.
Proof.
  assert (H0 : is_u64 0) by by split; vm_compute.
  assert (Hm : forall t, is_u64 (ttl_mods t))
    by (intros t; unfold ttl_mods; destruct (t =? 0); by split; vm_compute).
  unfold encode_envelope_record, encode_fields, envelope_record_len.
  destruct r as [r|s e q|k a b]; intros (Hk & Hq & Ht & Ha & Hb);
    rewrite !zlen_app, !enc_uvarint_zlen by done; rewrite zlen_ttl by done; cbn [Z.eqb]; lia.
Qed.

Lemma record_body_len_exact r : sized (EPoint r) -> zlen (encode_record_body r) = record_body_len r.
Proof.
  intros (Hk & Hq & Ht & Ha & Hb). unfold encode_record_body, record_body_len.
  change (?b :: ?l) with ([b] ++ l). rewrite !zlen_app, !enc_uvarint_zlen by done.
  rewrite zlen_ttl by done. change (zlen [byte_of_Z (record_flags r)]) with 1. lia.
Qed.

Lemma mapM_legacy_sized recs rs :
  mapM legacy_point recs = Some rs -> Forall sized recs ->
  Forall (fun r => sized (EPoint r)) rs.
Proof.
  revert rs. induction recs as [|r recs IH]; intros rs H HF; cbn in H.
  - injection H as <-. constructor.
  - apply Forall_cons in HF as [Hr HF]. destruct r as [r| |]; [|done..]. cbn in H.
    destruct (mapM legacy_point recs) as [rs'|]; [|done]. injection H as <-.
    constructor; [done|]. by apply IH.
Qed.

(** Stripe after stripe, the running maximum is threaded through. *)
Lemma replay_cut_stripes (checksum : list byte -> Z) {St : Type}
    (f : ReplayRecord -> St -> St * result unit) id (stripes : list (list Batch * nat)) last :
  (forall b, is_u32 (checksum b)) -> is_u64 (generation id) ->
  Forall (fun st => forallb (writable checksum) (fst st) = true) stripes -> 0 <= last ->
  meq (replay checksum f
        (map (fun st => Some (take (snd st) (stripe_bytes checksum id (fst st)))) stripes) id last)
      (deliver f
        (concat (map (fun st => concat (map batch_records (surviving checksum (snd st - 32) (fst st))))
              stripes)) last).
Proof.
  intros Hc Hg HF. revert last.
  induction HF as [|[bs n] stripes Hok HF IH]; intros last Hl s; [done|].
  cbn [map replay concat fst snd]. rewrite deliver_app. etransitivity.
  { apply bind_proper; [by apply replay_file_cut|]. intros q. apply IH. lia. }
  transitivity (bind (bind (deliver f (concat (map batch_records (surviving checksum (n - 32) bs))) 0)
    (fun q => ret (Z.max last q))) (deliver f (concat (map (fun st => concat (map batch_records
      (surviving checksum (snd st - 32) (fst st)))) stripes))) s).
  - by rewrite bind_assoc.
  - apply bind_proper; [by apply deliver_from_zero|done].
Qed.

(** ** Properties *)

(** C2: crash atomicity.  Whatever the checksum function, the callback and its
    state, and however a crash cut each stripe file (in the header, between
    frames or inside one), replaying the segment is exactly calling the
    callback on every record of every batch whose frame is wholly on disk, in
    order, and returning the highest sequence among them: no batch is ever
    replayed in part, no record of a complete batch is lost, a two-phase commit
    frame comes back as one record that raises nothing. *)
Theorem wal_crash_atomic (checksum : list byte -> Z) :
  (forall b, is_u32 (checksum b)) ->
  forall (St : Type) (f : ReplayRecord -> St -> St * result unit) id (stripes : list (list Batch * nat)),
  is_u64 (generation id) ->
  Forall (fun st => forallb (writable checksum) (fst st) = true) stripes ->
  forall s,
  replay checksum f
    (map (fun st => Some (take (snd st) (stripe_bytes checksum id (fst st)))) stripes) id 0 s =
  deliver f
    (concat (map (fun st => concat (map batch_records (surviving checksum (snd st - 32) (fst st))))
              stripes)) 0 s.
Proof.
  intros Hc St f id stripes Hg HF. by apply replay_cut_stripes.
Qed.

(** One stripe with two commits, cut inside the second one's frame: the first
    is replayed, at its sequence. *)
Lemma wal_crash_atomic_witness :
  let r k q := mkRecord [k] [x76] q 0 KIND_PUT in
  let stripe := ([BFlat [r x61 1; r x62 2]; BFlat [r x63 3]], 60%nat) in
  replay (fun _ => 0) (fun rec s => (s ++ [rec], Ok tt))
    (map (fun st => Some (take (snd st) (stripe_bytes (fun _ => 0) (mkSegmentId Unified 7) (fst st))))
      [stripe]) (mkSegmentId Unified 7) 0 [] =
  ([Point (r x61 1); Point (r x62 2)], Ok 2).
Proof.
  cbv zeta. rewrite (wal_crash_atomic (fun _ => 0)).
  - reflexivity.
  - intros. by split; vm_compute.
  - by split; vm_compute.
  - by repeat constructor.
Defined.

(** The frame size computed before encoding is the size of the encoding, in
    both forms and for every record shape, so the buffer is allocated once at
    exactly the right size (and the two panic on the same inputs). *)
Theorem frame_payload_len_exact schema recs :
  Forall sized recs -> is_u64 (Z.of_nat (length recs)) ->
  (match schema with Some sc => is_u64 sc | None => True end) ->
  frame_payload_len schema recs = zlen <$> frame_payload schema recs.
Proof.
  intros HF Hn Hs. destruct schema as [sc|];
    cbn [frame_payload_len frame_payload fmap option_fmap option_map].
  - f_equal. change (ENVELOPE_TAG :: ?l) with ([ENVELOPE_TAG] ++ l). rewrite !zlen_app, !enc_uvarint_zlen by done.
    rewrite (zlen_concat _ envelope_record_len);
      [|eapply Forall_impl; [done|]; apply envelope_record_len_exact].
    change (zlen [ENVELOPE_TAG]) with 1. lia.
  - destruct (mapM legacy_point recs) as [rs|] eqn:E; [|done]. cbn. f_equal. symmetry.
    apply zlen_concat. eapply Forall_impl; [by eapply mapM_legacy_sized|].
    apply record_body_len_exact.
Qed.

Lemma frame_payload_len_exact_witness :
  frame_payload_len (Some 2) [ERange [x61] [x7a] 300] = Some 11.
Proof.
  rewrite (frame_payload_len_exact (Some 2) [ERange [x61] [x7a] 300]);
    [reflexivity| |by split; vm_compute|by split; vm_compute].
  repeat constructor; by vm_compute.
Defined.
