(* ===== verification/WalLog.v ===== *)
(** * The append side of the write-ahead log (wal.rs)

    Stripes with their user-space buffers, the striped append, the group
    commit's [flush_group], the buffer flush, the explicit and the interval
    sync, and close.  The file system is the environment: every [write_all]
    and [sync_data] takes its outcome as an argument, a failed write landing an
    arbitrary part of its bytes.  [persisted] is the length the last successful
    [sync_data] covered: a crash may cut the file anywhere behind it; [intact]
    says that no write to the file has failed.  Each stripe is guarded by its
    mutex for the whole operation on it, so the operations are atomic steps. *)

From Stdlib Require Import ZArith Lia.
From Stdlib.Strings Require Import Byte.
From stdpp Require Import base list relations.
From S2P Require Import Prelude Encoding Codec Comparator Format Wal.

Open Scope Z_scope.

(** ** Files and stripes *)

Record File := mkFile { content : list byte; persisted : nat; intact : bool }.

(** The outcome of one [write_all]: done, or failed after [n] bytes. *)
Inductive io : Type := IoOk | IoFail (n : nat).

Definition write_all (f : File) (data : list byte) (w : io) : File * bool :=
  match w with
  | IoOk => (mkFile (content f ++ data) (persisted f) (intact f), true)
  | IoFail n => (mkFile (content f ++ take n data) (persisted f) false, false)
  end.

Definition sync_data (f : File) (ok : bool) : File :=
  if ok then mkFile (content f) (length (content f)) (intact f) else f.

Record Stripe := mkStripe { st_file : File; st_buf : list byte }.

Inductive SyncMode : Type := SyncNone | Full | Interval.

#[export] Instance SyncMode_eq_dec : EqDecision SyncMode.
Proof. solve_decision. Defined.

Record Shared := mkShared {
  files : list (option Stripe);
  sync_mode : SyncMode;
  buf_cap : nat;
  size : Z;
  dirty : bool;
  buffered : bool;
  writes : Z;
  poisoned : bool;
}.

Definition with_file (sh : Shared) (k : nat) (st : option Stripe) : Shared :=
  mkShared (<[k := st]> (files sh)) (sync_mode sh) (buf_cap sh) (size sh) (dirty sh) (buffered sh)
    (writes sh) (poisoned sh).
Definition add_writes (sh : Shared) (n : Z) : Shared :=
  mkShared (files sh) (sync_mode sh) (buf_cap sh) (size sh) (dirty sh) (buffered sh)
    (writes sh + n) (poisoned sh).
Definition add_size (sh : Shared) (n : Z) : Shared :=
  mkShared (files sh) (sync_mode sh) (buf_cap sh) (size sh + n) (dirty sh) (buffered sh)
    (writes sh) (poisoned sh).
Definition set_dirty (sh : Shared) (b : bool) : Shared :=
  mkShared (files sh) (sync_mode sh) (buf_cap sh) (size sh) b (buffered sh) (writes sh) (poisoned sh).
Definition set_buffered (sh : Shared) (b : bool) : Shared :=
  mkShared (files sh) (sync_mode sh) (buf_cap sh) (size sh) (dirty sh) b (writes sh) (poisoned sh).
Definition set_poisoned (sh : Shared) : Shared :=
  mkShared (files sh) (sync_mode sh) (buf_cap sh) (size sh) (dirty sh) (buffered sh) (writes sh) true.

(** [Stripe::flush] under [Shared::flush_stripe]: the buffer is cleared even
    when the write fails, and a failure poisons the database. *)
Definition flush_stripe (sh : Shared) (k : nat) (st : Stripe) (w : io) : Shared * Stripe * result unit :=
  match st_buf st with
  | [] => (sh, st, Ok tt)
  | buf =>
      let '(f, ok) := write_all (st_file st) buf w in
      let st := mkStripe f [] in
      let sh := add_writes (with_file sh k (Some st)) 1 in
      if ok then (sh, st, Ok tt) else (set_poisoned sh, st, Err Io)
  end.

(** The unbuffered append of one frame. *)
Definition write_frame (sh : Shared) (k : nat) (st : Stripe) (buf : list byte) (w : io)
    : Shared * result unit :=
  let '(f, ok) := write_all (st_file st) buf w in
  let sh := with_file sh k (Some (mkStripe f (st_buf st))) in
  if ok then (add_writes sh 1, Ok tt) else (sh, Err Io).

(** [submit_frame] outside [SyncMode::Full], on the thread's stripe [k]. *)
Definition submit_frame (sh : Shared) (k : nat) (buf : list byte) (w1 w2 : io)
    : Shared * result unit :=
  match files sh !! k with
  | Some (Some st) =>
      let '(sh, r) :=
        if (buf_cap sh =? 0)%nat then write_frame sh k st buf w2
        else
          let '(sh, st, r) :=
            if negb (length (st_buf st) =? 0)%nat
               && (buf_cap sh <? length (st_buf st) + length buf)%nat
            then flush_stripe sh k st w1 else (sh, st, Ok tt) in
          match r with
          | Err e => (sh, Err e)
          | Ok _ =>
              if (buf_cap sh <=? length buf)%nat then write_frame sh k st buf w2
              else (set_buffered (with_file sh k (Some (mkStripe (st_file st) (st_buf st ++ buf)))) true,
                    Ok tt)
          end in
      match r with
      | Err e => (sh, Err e)
      | Ok _ =>
          let sh := if decide (sync_mode sh = Interval) then set_dirty sh true else sh in
          (add_size sh (Z.of_nat (length buf)), Ok tt)
      end
  | _ => (sh, Err InvalidDb)
  end.

(** The write loop of [flush_group]: the first failure ends it. *)
Fixpoint write_group (f : File) (batch : list (list byte)) (ws : list io) : File * bool :=
  match batch with
  | [] => (f, true)
  | buf :: batch =>
      let '(f, ok) := write_all f buf (default IoOk (head ws)) in
      if ok then write_group f batch (tail ws) else (f, false)
  end.

(** [flush_group], with the code it sends to every committer of the group. *)
Definition flush_group (sh : Shared) (batch : list (list byte)) (ws : list io) (sync_ok : bool)
    : Shared * Z :=
  match files sh !! 0%nat with
  | Some (Some st) =>
      let '(f, ok) := write_group (st_file st) batch ws in
      let sh := with_file sh 0 (Some (mkStripe f (st_buf st))) in
      if negb ok then (sh, code Io)
      else
        let sh := add_writes sh (Z.of_nat (length batch)) in
        let total := Z.of_nat (length (concat batch)) in
        match sync_mode sh with
        | Full =>
            let sh := with_file sh 0 (Some (mkStripe (sync_data f sync_ok) (st_buf st))) in
            if sync_ok then (add_size sh total, 0) else (set_poisoned sh, code Io)
        | Interval => (add_size (set_dirty sh true) total, 0)
        | SyncNone => (add_size sh total, 0)
        end
  | _ => (sh, code InvalidDb)
  end.

(** The body of [sync] for stripe [k]. *)
Definition sync_stripe (sh : Shared) (k : nat) (w : io) (sync_ok : bool) : Shared * result unit :=
  match files sh !! k with
  | Some (Some st) =>
      let '(sh, st, r) := flush_stripe sh k st w in
      match r with
      | Err e => (sh, Err e)
      | Ok _ =>
          let sh := with_file sh k (Some (mkStripe (sync_data (st_file st) sync_ok) (st_buf st))) in
          if sync_ok then (sh, Ok tt) else (set_poisoned sh, Err Io)
      end
  | _ => (sh, Err InvalidDb)
  end.

(** Stripe after stripe, stopping at the first error. *)
Fixpoint sync_loop (sh : Shared) (ks : list nat) (ws : list io) (oks : list bool)
    : Shared * result unit :=
  match ks with
  | [] => (sh, Ok tt)
  | k :: ks =>
      let '(sh, r) := sync_stripe sh k (default IoOk (head ws)) (default true (head oks)) in
      match r with
      | Err e => (sh, Err e)
      | Ok _ => sync_loop sh ks (tail ws) (tail oks)
      end
  end.

Definition stripe_ids (sh : Shared) : list nat := List.seq 0 (length (files sh)).

Definition sync (sh : Shared) (ws : list io) (oks : list bool) : Shared * result unit :=
  let sh := set_buffered (set_dirty sh false) false in
  sync_loop sh (stripe_ids sh) ws oks.

(** [flush_buffers]: every stripe is flushed, the first error is returned. *)
Fixpoint flush_loop (sh : Shared) (ks : list nat) (ws : list io) (first_err : result unit)
    : Shared * result unit :=
  match ks with
  | [] => (sh, first_err)
  | k :: ks =>
      match files sh !! k with
      | Some (Some st) =>
          let '(sh, _, r) := flush_stripe sh k st (default IoOk (head ws)) in
          let first_err := match first_err with Ok _ => r | Err e => Err e end in
          flush_loop sh ks (tail ws) first_err
      | _ => flush_loop sh ks (tail ws) first_err
      end
  end.

Definition flush_buffers (sh : Shared) (ws : list io) : Shared * result unit :=
  if buffered sh then flush_loop (set_buffered sh false) (stripe_ids sh) ws (Ok tt)
  else (sh, Ok tt).

(** [sync_dirty_files], the interval thread's tick. *)
Fixpoint dirty_loop (sh : Shared) (ks : list nat) (oks : list bool) : Shared :=
  match ks with
  | [] => sh
  | k :: ks =>
      match files sh !! k with
      | Some (Some st) =>
          let ok := default true (head oks) in
          let sh := with_file sh k (Some (mkStripe (sync_data (st_file st) ok) (st_buf st))) in
          dirty_loop (if ok then sh else set_poisoned sh) ks (tail oks)
      | _ => dirty_loop sh ks (tail oks)
      end
  end.

Definition sync_dirty_files (sh : Shared) (ws : list io) (oks : list bool) : Shared :=
  let '(sh, _) := flush_buffers sh ws in
  if bool_decide (sync_mode sh = Interval) && dirty sh
  then dirty_loop (set_dirty sh false) (stripe_ids sh) oks
  else sh.

(** ** The log as a transition system

    The ghost part of a state records, per stripe, the batches appended to it
    while no write to it had failed and how many of them the last [Ok] of a
    group commit or a sync covered.  The steps are the operations above with
    every outcome of their writes and syncs.  What is appended to a stripe
    after a write to it has failed is not recorded: it may be lost, see
    [failed_append_hides_later_commits]. *)

Section Log.
Context (checksum : list byte -> Z) (checksum_u32 : forall b, is_u32 (checksum b)).
Context (id : SegmentId) (id_u64 : is_u64 (generation id)).

#[local] Abbreviation ghost := (list (list Batch * nat)).

(** No write to stripe [k] has failed. *)
Definition intact_at (sh : Shared) (k : nat) : bool :=
  match files sh !! k with Some (Some st) => intact (st_file st) | _ => false end.

Definition append_ghost (q : nat -> bool) (g : ghost) (k : nat) (bs : list Batch) : ghost :=
  if q k then alter (fun x => (fst x ++ bs, snd x)) k g else g.

Definition cover_ghost (q : nat -> bool) (g : ghost) (k : nat) : ghost :=
  if q k then alter (fun x => (fst x, length (fst x))) k g else g.

Definition cover_all (q : nat -> bool) (g : ghost) : ghost :=
  imap (fun k x => if q k then (fst x, length (fst x)) else x) g.

Definition fresh_stripe : option Stripe :=
  Some (mkStripe (mkFile (encode_segment_header checksum id) 32 true) []).

(** [open_inner] on fresh files: one stripe under [Full], each with a header
    written and synced. *)
Definition wal_open (mode : SyncMode) (nstripes cap : nat) : Shared :=
  let n := if decide (mode = Full) then 1%nat else nstripes in
  mkShared (replicate n fresh_stripe) mode (if decide (mode = Full) then 0%nat else cap)
    (Z.of_nat (32 * n)) false false 0 false.

Definition wal_init (mode : SyncMode) (nstripes cap : nat) : Shared * ghost :=
  (wal_open mode nstripes cap, replicate (length (files (wal_open mode nstripes cap))) ([], 0%nat)).

Inductive wal_step : Shared * ghost -> Shared * ghost -> Prop :=
| step_submit sh sh' g k b fr w1 w2 r :
    sync_mode sh <> Full -> writable checksum b = true -> batch_frame checksum b = Some fr ->
    submit_frame sh k fr w1 w2 = (sh', r) ->
    wal_step (sh, g) (sh', if r is Ok _ then append_ghost (intact_at sh') g k [b] else g)
| step_group sh sh' g bs frs ws sync_ok c :
    sync_mode sh = Full -> forallb (writable checksum) bs = true ->
    mapM (batch_frame checksum) bs = Some frs ->
    flush_group sh frs ws sync_ok = (sh', c) ->
    let g' := append_ghost (intact_at sh') g 0 bs in
    wal_step (sh, g) (sh', if c =? 0 then cover_ghost (intact_at sh') g' 0 else g')
| step_sync sh sh' g ws oks r :
    sync sh ws oks = (sh', r) ->
    wal_step (sh, g) (sh', if r is Ok _ then cover_all (intact_at sh) g else g)
| step_flush sh sh' g ws r :
    flush_buffers sh ws = (sh', r) -> wal_step (sh, g) (sh', g)
| step_tick sh g ws oks :
    wal_step (sh, g) (sync_dirty_files sh ws oks, g).

Definition wal_reachable (mode : SyncMode) (nstripes cap : nat) (s : Shared * ghost) : Prop :=
  rtc wal_step (wal_init mode nstripes cap) s.

(** *** The invariant of one stripe

    Of an intact stripe the file holds the header and the first [j] batches, the
    buffer the others as whole frames; the persisted length is a frame boundary
    at or past every batch a sync has covered; an unbuffered log has nothing
    buffered.  After a failed write the covered batches still stand in front, in
    the persisted part. *)
Definition stripe_inv (cap : nat) (o : option Stripe) (x : list Batch * nat) : Prop :=
  exists st, o = Some st /\
  forallb (writable checksum) (fst x) = true /\ (cap = 0%nat -> st_buf st = []) /\
  if intact (st_file st)
  then exists j p, (snd x <= p <= j)%nat /\ (j <= length (fst x))%nat /\
    content (st_file st) = stripe_bytes checksum id (take j (fst x)) /\
    st_buf st = frames_of checksum (drop j (fst x)) /\
    persisted (st_file st) = length (stripe_bytes checksum id (take p (fst x)))
  else exists tl, (snd x <= length (fst x))%nat /\
    content (st_file st) = stripe_bytes checksum id (take (snd x) (fst x)) ++ tl /\
    (length (stripe_bytes checksum id (take (snd x) (fst x))) <= persisted (st_file st))%nat.

(** *** Lemmas *)

Lemma alter_insert {A} (l : list A) i (g : A -> A) y :
  l !! i = Some y -> alter g i l = <[i := g y]> l.
Proof.
  revert i. induction l as [|x l IH]; intros [|i] H; cbn in *; try done.
  - by injection H as ->.
  - f_equal. by apply IH.
Qed.

Lemma Forall2_insert_alter {A B} (P : A -> B -> Prop) l k x g i y :
  Forall2 P l k -> k !! i = Some y -> P x (g y) -> Forall2 P (<[i := x]> l) (alter g i k).
Proof. intros HF Hy Hx. rewrite (alter_insert k i g y) by done. by apply Forall2_insert. Qed.

Lemma Forall2_insert_l {A B} (P : A -> B -> Prop) l k x i y :
  Forall2 P l k -> k !! i = Some y -> P x y -> Forall2 P (<[i := x]> l) k.
Proof.
  intros HF Hy Hx. rewrite <- (list_insert_id k i y Hy). by apply Forall2_insert.
Qed.

Lemma frames_of_app a b : frames_of checksum (a ++ b) = frames_of checksum a ++ frames_of checksum b.
Proof. unfold frames_of. by rewrite map_app, concat_app. Qed.

Lemma frames_of_one b fr : batch_frame checksum b = Some fr -> frames_of checksum [b] = fr.
Proof. intros H. unfold frames_of. cbn. rewrite H. apply app_nil_r. Qed.

Lemma mapM_frames bs frs :
  mapM (batch_frame checksum) bs = Some frs -> concat frs = frames_of checksum bs.
Proof.
  revert frs. induction bs as [|b bs IH]; intros frs H; cbn in H; [by injection H as <-|].
  destruct (batch_frame checksum b) as [fr|] eqn:E; [|done]. cbn in H.
  destruct (mapM (batch_frame checksum) bs) as [frs'|]; [|done]. injection H as <-.
  unfold frames_of in *. cbn. rewrite E. cbn. by rewrite IH.
Qed.

(** An empty buffer leaves every batch in the file. *)
Lemma frames_of_nil bs :
  forallb (writable checksum) bs = true -> frames_of checksum bs = [] -> bs = [].
Proof.
  destruct bs as [|b bs]; [done|]. cbn. intros H E. apply andb_true_iff in H as [Hb _].
  apply writable_frame in Hb as (p & _ & Hfr & _). unfold frames_of in E. cbn in E.
  rewrite Hfr in E. done.
Qed.

Lemma forallb_drop {A} (q : A -> bool) l n : forallb q l = true -> forallb q (drop n l) = true.
Proof.
  intros H. rewrite <- (take_drop n l), forallb_app in H. by apply andb_true_iff in H as [_ H].
Qed.

(** With an empty buffer an intact file holds everything. *)
Lemma stripe_inv_flat cap st x :
  stripe_inv cap (Some st) x -> intact (st_file st) = true -> st_buf st = [] ->
  exists p, (snd x <= p <= length (fst x))%nat /\
    content (st_file st) = stripe_bytes checksum id (fst x) /\
    persisted (st_file st) = length (stripe_bytes checksum id (take p (fst x))).
Proof.
  intros (st' & E & Hw & _ & Hi) Ht Hn. injection E as <-. rewrite Ht in Hi. destruct Hi as (j & p & Hp & Hj & Hc & Hb & Hq).
  rewrite Hb in Hn. apply frames_of_nil in Hn; [|by apply forallb_drop].
  apply (f_equal length) in Hn. rewrite length_drop in Hn. cbn in Hn.
  exists p. conj_split; [lia|lia| |done]. rewrite Hc. by rewrite take_ge by lia.
Qed.

#[local] Ltac sfields := cbn [content persisted intact st_file st_buf fst snd sync_data].

(** A stripe whose buffer is empty, rebuilt. *)
Lemma stripe_inv_intro cap f bs d p :
  forallb (writable checksum) bs = true -> (d <= p <= length bs)%nat -> intact f = true ->
  content f = stripe_bytes checksum id bs ->
  persisted f = length (stripe_bytes checksum id (take p bs)) ->
  stripe_inv cap (Some (mkStripe f [])) (bs, d).
Proof.
  intros Hw Hp Ht Hc Hq. exists (mkStripe f []). conj_split; [done..|]. sfields. rewrite Ht. exists (length bs), p.
  rewrite firstn_all, drop_all. conj_split; (done || lia).
Qed.

Lemma writable_app bs bs' :
  forallb (writable checksum) bs = true -> forallb (writable checksum) bs' = true ->
  forallb (writable checksum) (bs ++ bs') = true.
Proof. intros H H'. by rewrite forallb_app, H, H'. Qed.

Lemma stripe_bytes_app bs bs' :
  stripe_bytes checksum id (bs ++ bs') = stripe_bytes checksum id bs ++ frames_of checksum bs'.
Proof. unfold stripe_bytes. by rewrite frames_of_app, app_assoc. Qed.

(** The bytes of a prefix stand in front. *)
Lemma stripe_bytes_take bs d j :
  (d <= j)%nat -> exists tl, stripe_bytes checksum id (take j bs) = stripe_bytes checksum id (take d bs) ++ tl.
Proof.
  intros Hd. exists (frames_of checksum (drop d (take j bs))). rewrite <- stripe_bytes_app.
  rewrite <- (take_drop d (take j bs)) at 1. by rewrite take_take, Nat.min_l.
Qed.

(** Appending to the file behind an empty buffer. *)
Lemma stripe_inv_write cap st bs d bs' :
  stripe_inv cap (Some st) (bs, d) -> intact (st_file st) = true -> st_buf st = [] -> forallb (writable checksum) bs' = true ->
  stripe_inv cap (Some (mkStripe (mkFile (content (st_file st) ++ frames_of checksum bs')
    (persisted (st_file st)) true) [])) (bs ++ bs', d).
Proof.
  intros Hi Ht Hb Hw'. assert (Hw : forallb (writable checksum) bs = true) by by destruct Hi as (? & _ & ? & _).
  apply stripe_inv_flat in Hi as (p & Hp & Hc & Hq); [|done..]. cbn [fst snd] in *.
  apply stripe_inv_intro with p; [by apply writable_app|rewrite length_app; lia|done|sfields|sfields].
  - by rewrite Hc, stripe_bytes_app.
  - by rewrite Hq, take_app_le by lia.
Qed.

(** Appending to the buffer. *)
Lemma stripe_inv_buffer cap st bs d bs' :
  stripe_inv cap (Some st) (bs, d) -> intact (st_file st) = true -> cap <> 0%nat -> forallb (writable checksum) bs' = true ->
  stripe_inv cap (Some (mkStripe (st_file st) (st_buf st ++ frames_of checksum bs'))) (bs ++ bs', d).
Proof.
  intros (st' & E & Hw & _ & Hi) Ht Hcap Hw'. injection E as <-. rewrite Ht in Hi. destruct Hi as (j & p & Hp & Hj & Hc & Hb & Hq).
  cbn [fst snd] in *. eexists. conj_split; [done|by apply writable_app|done|]. sfields. rewrite Ht.
  exists j, p. rewrite length_app, !take_app_le, drop_app_le by lia.
  conj_split; try done; try lia. by rewrite Hb, frames_of_app.
Qed.

(** Flushing the buffer into the file. *)
Lemma stripe_inv_flush cap st bs d :
  stripe_inv cap (Some st) (bs, d) -> intact (st_file st) = true ->
  stripe_inv cap (Some (mkStripe (mkFile (content (st_file st) ++ st_buf st)
    (persisted (st_file st)) true) [])) (bs, d).
Proof.
  intros (st' & E & Hw & _ & Hi) Ht. injection E as <-. rewrite Ht in Hi. destruct Hi as (j & p & Hp & Hj & Hc & Hb & Hq). cbn [fst snd] in *.
  apply stripe_inv_intro with p; [done|lia|done| |done]. sfields.
  by rewrite Hc, Hb, <- stripe_bytes_app, take_drop.
Qed.

(** A torn write, or any write after one: what was covered stays in front. *)
Lemma stripe_inv_torn cap st bs d x buf :
  stripe_inv cap (Some st) (bs, d) -> (cap = 0%nat -> buf = []) ->
  stripe_inv cap (Some (mkStripe (mkFile (content (st_file st) ++ x) (persisted (st_file st)) false) buf)) (bs, d).
Proof.
  intros (st' & E & Hw & _ & Hi) Hb. injection E as <-. cbn [fst snd] in *. eexists. conj_split; [done|done|done|]. sfields.
  destruct (intact (st_file st)).
  - destruct Hi as (j & p & Hp & Hj & Hc & _ & Hq). destruct (stripe_bytes_take bs d j) as [tl Etl]; [lia|].
    destruct (stripe_bytes_take bs d p) as [tl' Etl']; [lia|]. exists (tl ++ x). conj_split; [lia| |].
    + by rewrite Hc, Etl, app_assoc.
    + rewrite Hq, Etl', length_app. lia.
  - destruct Hi as (tl & Hd & Hc & Hq). exists (tl ++ x). conj_split; [done| |done]. by rewrite Hc, app_assoc.
Qed.

(** A sync of the file; with an empty buffer it covers every batch. *)
Lemma stripe_inv_sync cap st bs d ok :
  stripe_inv cap (Some st) (bs, d) ->
  stripe_inv cap (Some (mkStripe (sync_data (st_file st) ok) (st_buf st))) (bs, d) /\
  (ok = true -> intact (st_file st) = true -> st_buf st = [] ->
   stripe_inv cap (Some (mkStripe (sync_data (st_file st) ok) (st_buf st))) (bs, length bs)).
Proof.
  intros Hi. assert (Hw : forallb (writable checksum) bs = true) by by destruct Hi as (? & _ & ? & _).
  split.
  - destruct ok; [|by destruct st]. destruct Hi as (st' & E & _ & Hcap & Hi). injection E as <-.
    cbn [fst snd] in *. eexists. conj_split; [done|done|done|]. sfields. destruct (intact (st_file st)).
    + destruct Hi as (j & p & Hp & Hj & Hc & Hb & Hq). exists j, j. conj_split; (lia || done || by rewrite Hc).
    + destruct Hi as (tl & Hd & Hc & Hq). exists tl. conj_split; [done|done|]. rewrite Hc, length_app. lia.
  - intros -> Ht Hb. apply stripe_inv_flat in Hi as (p & Hp & Hc & Hq); [|done..]. cbn [fst snd] in *.
    rewrite Hb. apply stripe_inv_intro with (length bs); [done|lia|done|done|]. sfields.
    by rewrite Hc, firstn_all.
Qed.

(** A weaker promise is kept too. *)
Lemma stripe_inv_le cap o bs d d' :
  stripe_inv cap o (bs, d) -> (d' <= d)%nat -> stripe_inv cap o (bs, d').
Proof.
  intros (st & -> & Hw & Hcap & Hi) Hd. exists st. conj_split; [done..|]. cbn [fst snd] in *. destruct (intact (st_file st)).
  - destruct Hi as (j & p & Hp & ? & ? & ? & ?). exists j, p. conj_split; (lia || done).
  - destruct Hi as (tl & Hl & Hc & Hq). destruct (stripe_bytes_take bs d' d) as [tl' Etl]; [lia|]. exists (tl' ++ tl).
    rewrite Etl in Hc, Hq. rewrite length_app in Hq. conj_split; [lia|by rewrite app_assoc|lia].
Qed.

Definition binv (sh : Shared) (g : ghost) : Prop :=
  Forall2 (stripe_inv (buf_cap sh)) (files sh) g.

Definition same_shape (sh sh' : Shared) : Prop :=
  sync_mode sh' = sync_mode sh /\ buf_cap sh' = buf_cap sh /\ length (files sh') = length (files sh).

Lemma same_shape_trans a b c : same_shape a b -> same_shape b c -> same_shape a c.
Proof. unfold same_shape. intuition congruence. Qed.

Lemma same_shape_with_file sh k st : same_shape sh (with_file sh k st).
Proof. unfold same_shape. cbn. by rewrite length_insert. Qed.

Lemma binv_lookup sh g k st :
  binv sh g -> files sh !! k = Some (Some st) ->
  exists bs d, g !! k = Some (bs, d) /\ stripe_inv (buf_cap sh) (Some st) (bs, d).
Proof. intros HI Hk. destruct (Forall2_lookup_l _ _ _ _ _ HI Hk) as ([bs d] & ? & ?). eauto. Qed.

Lemma intact_with_file sh k st i :
  (k < length (files sh))%nat -> intact_at (with_file sh k (Some st)) i = if decide (i = k) then intact (st_file st) else intact_at sh i.
Proof.
  intros Hk. unfold intact_at, with_file. cbn. destruct (decide (i = k)) as [->|Hne].
  - by rewrite list_lookup_insert_eq.
  - by rewrite list_lookup_insert_ne.
Qed.

(** The stripe is replaced, and its ghost too. *)
Lemma binv_append sh g k st st' bs :
  binv sh g -> files sh !! k = Some (Some st) ->
  (forall bs0 d, stripe_inv (buf_cap sh) (Some st) (bs0, d) ->
    stripe_inv (buf_cap sh) (Some st') (if intact (st_file st') then bs0 ++ bs else bs0, d)) ->
  Forall2 (stripe_inv (buf_cap sh)) (<[k := Some st']> (files sh)) (append_ghost (intact_at (with_file sh k (Some st'))) g k bs).
Proof.
  intros HI Hk Hs. destruct (binv_lookup _ _ _ _ HI Hk) as (bs0 & d & Hg & Hi). specialize (Hs bs0 d Hi).
  unfold append_ghost. rewrite intact_with_file by (by eapply lookup_lt_Some). rewrite decide_True by done.
  destruct (intact (st_file st')); [by eapply Forall2_insert_alter|by eapply Forall2_insert_l].
Qed.

Lemma flush_stripe_inv sh g k st w sh' st' r :
  binv sh g -> files sh !! k = Some (Some st) -> flush_stripe sh k st w = (sh', st', r) ->
  st_buf st' = [] /\ files sh' !! k = Some (Some st') /\ binv sh' g /\ same_shape sh sh' /\
  (r = Ok tt -> forall i, intact_at sh' i = intact_at sh i).
Proof.
  intros HI Hk E. unfold flush_stripe in E. destruct (st_buf st) as [|b buf] eqn:Eb; [by injection E as <- <- <-; conj_split|].
  rewrite <- Eb in E. pose proof (lookup_lt_Some _ _ _ Hk) as Hlt.
  destruct (binv_lookup _ _ _ _ HI Hk) as (bs & d & Hg & Hi).
  destruct w as [|n]; cbn [write_all] in E; injection E as <- <- <-; cbn.
  - conj_split; [done|by apply list_lookup_insert_eq| |apply same_shape_with_file|].
    + eapply Forall2_insert_l; [done|done|]. cbn [buf_cap]. destruct (intact (st_file st)) eqn:Et; [by apply stripe_inv_flush|by apply stripe_inv_torn].
    + intros _ i. change (intact_at (add_writes ?a 1) i) with (intact_at a i). rewrite intact_with_file by done.
      destruct (decide (i = k)) as [->|]; [|done]. unfold intact_at. by rewrite Hk.
  - conj_split; [done|by apply list_lookup_insert_eq| |apply same_shape_with_file|done].
    eapply Forall2_insert_l; [done|done|]. by apply stripe_inv_torn.
Qed.

Lemma write_frame_inv sh g k st b fr w sh' r :
  binv sh g -> files sh !! k = Some (Some st) -> st_buf st = [] ->
  writable checksum b = true -> batch_frame checksum b = Some fr ->
  write_frame sh k st fr w = (sh', r) ->
  binv sh' (if r is Ok _ then append_ghost (intact_at sh') g k [b] else g) /\ same_shape sh sh'.
Proof.
  intros HI Hk Hb Hw Hfr E. unfold write_frame in E. destruct w as [|n]; cbn [write_all] in E; injection E as <- <-;
    (split; [|apply same_shape_with_file]).
  - eapply (binv_append sh g k st); [done|done|]. intros bs d Hi. cbn [st_file intact]. rewrite Hb, <- (frames_of_one b fr Hfr).
    destruct (intact (st_file st)) eqn:Et; [|by apply stripe_inv_torn]. apply stripe_inv_write; [done..|]. cbn. by rewrite Hw.
  - destruct (binv_lookup _ _ _ _ HI Hk) as (bs & d & Hg & Hi). eapply Forall2_insert_l; [done|done|]. cbn [buf_cap]. by apply stripe_inv_torn.
Qed.

Lemma submit_body_inv sh g k st b fr w1 w2 sh' r :
  binv sh g -> files sh !! k = Some (Some st) ->
  writable checksum b = true -> batch_frame checksum b = Some fr ->
  (if (buf_cap sh =? 0)%nat then write_frame sh k st fr w2
   else
     let '(sh, st, r) :=
       if negb (length (st_buf st) =? 0)%nat && (buf_cap sh <? length (st_buf st) + length fr)%nat
       then flush_stripe sh k st w1 else (sh, st, Ok tt) in
     match r with
     | Err e => (sh, Err e)
     | Ok _ =>
         if (buf_cap sh <=? length fr)%nat then write_frame sh k st fr w2
         else (set_buffered (with_file sh k (Some (mkStripe (st_file st) (st_buf st ++ fr)))) true, Ok tt)
     end) = (sh', r) ->
  binv sh' (if r is Ok _ then append_ghost (intact_at sh') g k [b] else g) /\ same_shape sh sh'.
Proof.
  intros HI Hk Hw Hfr E. destruct (Nat.eqb_spec (buf_cap sh) 0) as [Hc|Hc].
  { apply (write_frame_inv sh g k st b fr w2); try done.
    destruct (binv_lookup _ _ _ _ HI Hk) as (bs & d & _ & st' & Es & _ & He & _).
    injection Es as <-. by apply He. }
  destruct (if negb _ && _ then _ else _) as [[sh1 st1] r1] eqn:E1.
  assert (files sh1 !! k = Some (Some st1) /\ binv sh1 g /\ same_shape sh sh1 /\
          ((buf_cap sh <= length fr)%nat -> st_buf st1 = [])) as (Hk1 & HI1 & Hs1 & Hb1).
  { destruct (_ && _) eqn:Ec.
    - destruct (flush_stripe_inv _ _ _ _ _ _ _ _ HI Hk E1) as (? & ? & ? & ? & _). by conj_split.
    - injection E1 as <- <- <-. conj_split; try done. intros Hl.
      apply andb_false_iff in Ec as [Ec|Ec]; [|apply Nat.ltb_ge in Ec];
        destruct (st_buf st); cbn in *; (done || lia). }
  pose proof Hs1 as (Hm1 & Hc1 & Hl1). destruct r1 as [u|e]; [|by injection E as <- <-]. rewrite Hc1 in E.
  destruct (Nat.leb_spec (buf_cap sh) (length fr)) as [Hle|Hlt].
  - destruct (write_frame_inv sh1 g k st1 b fr w2 sh' r) as (HI' & Hs'); auto.
    split; [done|]. by apply same_shape_trans with sh1.
  - injection E as <- <-. split; [|apply same_shape_trans with sh1; [done|apply same_shape_with_file]].
    eapply (binv_append sh1 g k st1); [done|done|]. intros bs d Hi. cbn [st_file intact]. rewrite <- (frames_of_one b fr Hfr).
    destruct (intact (st_file st1)) eqn:Et.
    + apply stripe_inv_buffer; [done|done|congruence|]. cbn. by rewrite Hw.
    + destruct st1 as [[c p t] buf]. cbn in *. subst t. rewrite <- (app_nil_r c).
      apply (stripe_inv_torn _ (mkStripe (mkFile c p false) buf)); [done|congruence].
Qed.

Lemma submit_frame_inv sh g k b fr w1 w2 sh' r :
  binv sh g -> writable checksum b = true -> batch_frame checksum b = Some fr ->
  submit_frame sh k fr w1 w2 = (sh', r) ->
  binv sh' (if r is Ok _ then append_ghost (intact_at sh') g k [b] else g) /\ same_shape sh sh'.
Proof.
  intros HI Hw Hfr E. unfold submit_frame in E.
  destruct (files sh !! k) as [[st|]|] eqn:Hk; [|by injection E as <- <-..].
  match type of E with (let '(_, _) := ?x in _) = _ => destruct x as [sh1 r1] eqn:E1 end.
  destruct (submit_body_inv sh g k st b fr w1 w2 sh1 r1 HI Hk Hw Hfr E1) as (HI1 & Hs1).
  destruct r1 as [u|e]; injection E as <- <-; [|done]. by destruct (decide (sync_mode sh1 = Interval)).
Qed.

Lemma write_group_spec frs : forall f ws,
  exists x, write_group f frs ws = (mkFile (content f ++ x) (persisted f) (intact f), true) /\ x = concat frs \/
            write_group f frs ws = (mkFile (content f ++ x) (persisted f) false, false).
Proof.
  induction frs as [|fr frs IH]; intros f ws; cbn.
  - exists []. left. rewrite app_nil_r. by destruct f.
  - destruct (default IoOk (head ws)) as [|n]; cbn; [|by exists (take n fr); right].
    destruct (IH (mkFile (content f ++ fr) (persisted f) (intact f)) (tail ws)) as (x & [[-> ->]| ->]); cbn; rewrite <- app_assoc; eauto.
Qed.

Lemma write_group_ok f frs : write_group f frs [] = (mkFile (content f ++ concat frs) (persisted f) (intact f), true).
Proof.
  revert f. induction frs as [|fr frs IH]; intros [c q]; cbn.
  - by rewrite app_nil_r.
  - rewrite IH. cbn. by rewrite app_assoc.
Qed.

(** The group's stripe is replaced, and its ghost too. *)
Lemma binv_group sh g st' bs bs0 d q (c : bool) :
  binv sh g -> g !! 0%nat = Some (bs0, d) -> q 0%nat = intact (st_file st') ->
  stripe_inv (buf_cap sh) (Some st') (if intact (st_file st') then bs0 ++ bs else bs0, if intact (st_file st') && c then length (bs0 ++ bs) else d) ->
  Forall2 (stripe_inv (buf_cap sh)) (<[0%nat := Some st']> (files sh))
    (if c then cover_ghost q (append_ghost q g 0 bs) 0 else append_ghost q g 0 bs).
Proof.
  intros HI Hg Hq Hs. unfold cover_ghost, append_ghost. rewrite Hq. destruct (intact (st_file st')); cbn [andb] in Hs.
  - destruct c; [|by eapply Forall2_insert_alter]. rewrite (alter_insert g 0 _ _ Hg).
    erewrite alter_insert by (apply list_lookup_insert_eq; by eapply lookup_lt_Some). rewrite list_insert_insert_eq. by apply Forall2_insert.
  - by destruct c; eapply Forall2_insert_l.
Qed.

Lemma flush_group_inv sh g bs frs ws sync_ok sh' c :
  binv sh g -> sync_mode sh = Full -> buf_cap sh = 0%nat -> files sh <> [] ->
  forallb (writable checksum) bs = true -> mapM (batch_frame checksum) bs = Some frs ->
  flush_group sh frs ws sync_ok = (sh', c) ->
  let g' := append_ghost (intact_at sh') g 0 bs in
  binv sh' (if c =? 0 then cover_ghost (intact_at sh') g' 0 else g') /\ same_shape sh sh'.
Proof.
  intros HI Hm Hcap Hne Hw Hf E g'. subst g'. unfold flush_group in E.
  destruct (files sh !! 0%nat) as [o|] eqn:Hk; [|by destruct (files sh)].
  destruct (Forall2_lookup_l _ _ _ _ _ HI Hk) as ([bs0 d] & Hg & Hi).
  pose proof Hi as (st & -> & _ & He & _). specialize (He Hcap). pose proof (lookup_lt_Some _ _ _ Hk) as Hlt.
  destruct (write_group_spec frs (st_file st) ws) as (x & [[Ew ->]|Ew]); rewrite Ew, He in E; cbn [negb] in E.
  - rewrite (mapM_frames _ _ Hf) in E. cbn [sync_mode add_writes with_file] in E. rewrite Hm in E. set (f := mkFile _ _ _) in E.
    assert (stripe_inv (buf_cap sh) (Some (mkStripe f [])) (if intact f then bs0 ++ bs else bs0, d)) as Hi'.
    { unfold f. cbn [intact]. destruct (intact (st_file st)) eqn:Et; [by apply stripe_inv_write|by apply stripe_inv_torn]. }
    pose proof (stripe_inv_sync _ _ _ _ sync_ok Hi') as [Hd Hs]. cbn [st_file st_buf] in Hd, Hs.
    assert (forall sh1, files sh1 = <[0%nat := Some (mkStripe (sync_data f sync_ok) [])]> (files sh) -> intact_at sh1 0 = intact f) as Hq.
    { intros sh1 E1. unfold intact_at. rewrite E1, list_lookup_insert_eq by done. by destruct sync_ok. }
    destruct sync_ok; injection E as <- <-; (split; [|unfold same_shape; cbn; by rewrite !length_insert]); unfold binv; cbn [Z.eqb code];
      cbn [files buf_cap add_size set_poisoned with_file add_writes]; rewrite list_insert_insert_eq.
    + apply (binv_group sh g (mkStripe (sync_data f true) []) bs bs0 d _ true HI Hg); [apply Hq; cbn; by rewrite list_insert_insert_eq|].
      cbn [st_file]. change (intact (sync_data f true)) with (intact f). rewrite andb_true_r. destruct (intact f); [by apply Hs|done].
    + apply (binv_group sh g (mkStripe (sync_data f false) []) bs bs0 d _ false HI Hg); [apply Hq; cbn; by rewrite list_insert_insert_eq|].
      cbn [st_file sync_data]. by rewrite andb_false_r.
  - injection E as <- <-. split; [|apply same_shape_with_file]. cbn [Z.eqb code].
    apply (binv_group sh g (mkStripe (mkFile (content (st_file st) ++ x) (persisted (st_file st)) false) []) bs bs0 d _ false HI Hg).
    + by rewrite intact_with_file, decide_True by done.
    + by apply stripe_inv_torn.
Qed.

Lemma cover_ghost_le sh q g k : binv sh (cover_ghost q g k) -> Forall (fun x => snd x <= length (fst x))%nat g ->
  binv sh g.
Proof.
  unfold binv, cover_ghost. destruct (q k); [|done]. intros HI HF. apply Forall2_same_length_lookup in HI as [Hl HI].
  rewrite length_alter in Hl. apply Forall2_same_length_lookup_2; [done|]. intros i o [bs d] Ho Hx.
  rewrite Forall_lookup in HF. specialize (HF i (bs, d) Hx). cbn in HF.
  destruct (decide (i = k)) as [->|Hne].
  - apply stripe_inv_le with (length bs); [|done]. apply (HI k); [done|].
    by rewrite list_lookup_alter_eq, Hx.
  - apply (HI i); [done|]. by rewrite list_lookup_alter_ne.
Qed.

Lemma binv_bounds sh g : binv sh g -> Forall (fun x => snd x <= length (fst x))%nat g.
Proof.
  intros HI. apply Forall_lookup. intros i [bs d] Hx.
  destruct (Forall2_lookup_r _ _ _ _ _ HI Hx) as (o & _ & st & _ & _ & _ & Hi). cbn [fst snd] in *.
  destruct (intact (st_file st)); [destruct Hi as (j & p & Hp & Hj & _); lia|by destruct Hi as (_ & ? & _)].
Qed.

Lemma sync_stripe_inv sh q g k w ok sh' r :
  binv sh g -> (forall i, q i = intact_at sh i) -> sync_stripe sh k w ok = (sh', r) ->
  binv sh' (if r is Ok _ then cover_ghost q g k else g) /\ same_shape sh sh' /\
  (r = Ok tt -> forall i, q i = intact_at sh' i).
Proof.
  intros HI Hq E. unfold sync_stripe in E.
  destruct (files sh !! k) as [[st|]|] eqn:Hk; [|by injection E as <- <-..].
  destruct (flush_stripe sh k st w) as [[sh1 st1] r1] eqn:E1.
  destruct (flush_stripe_inv _ _ _ _ _ _ _ _ HI Hk E1) as (Hb1 & Hk1 & HI1 & Hs1 & Hi1).
  destruct r1 as [[]|e]; [|by injection E as <- <-]. specialize (Hi1 eq_refl).
  destruct (binv_lookup _ _ _ _ HI1 Hk1) as (bs & d & Hg & Hi).
  pose proof (stripe_inv_sync _ _ _ _ ok Hi) as [Hd Hs].
  assert (Hsh : forall o, same_shape sh (with_file sh1 k o))
    by (intros o; apply same_shape_trans with sh1; [done|apply same_shape_with_file]).
  assert (q k = intact (st_file st1)) as Hqk by (rewrite Hq, <- Hi1; unfold intact_at; by rewrite Hk1).
  destruct ok; injection E as <- <-; (split; [|split; [apply Hsh|]]).
  - unfold cover_ghost. destruct (q k); [|by eapply Forall2_insert_l].
    eapply Forall2_insert_alter; [done|done|]. by apply Hs.
  - intros _ i. rewrite intact_with_file by (by eapply lookup_lt_Some). destruct (decide (i = k)) as [->|]; [done|]. by rewrite Hq, Hi1.
  - by eapply Forall2_insert_l.
  - done.
Qed.

Lemma sync_loop_inv ks sh q g ws oks sh' r :
  binv sh g -> (forall i, q i = intact_at sh i) -> sync_loop sh ks ws oks = (sh', r) ->
  binv sh' (if r is Ok _ then fold_left (cover_ghost q) ks g else g) /\ same_shape sh sh'.
Proof.
  revert sh g ws oks. induction ks as [|k ks IH]; intros sh g ws oks HI Hq E; cbn in E.
  - by injection E as <- <-.
  - destruct (sync_stripe _ _ _ _) as [sh1 r1] eqn:E1.
    destruct (sync_stripe_inv _ q _ _ _ _ _ _ HI Hq E1) as (HI1 & Hs1 & Hq1).
    destruct r1 as [[]|e]; [|by injection E as <- <-].
    destruct (IH _ _ _ _ HI1 (Hq1 eq_refl) E) as [HI' Hs']. split; [|by apply same_shape_trans with sh1].
    destruct r; [done|]. eapply cover_ghost_le; [done|]. by eapply binv_bounds.
Qed.

Lemma cover_loop q g ks i :
  fold_left (cover_ghost q) ks g !! i =
  if decide (i ∈ ks) then (fun x => if q i then (fst x, length (fst x)) else x) <$> g !! i else g !! i.
Proof.
  revert g. induction ks as [|k ks IH]; intros g; [done|]. cbn [fold_left]. rewrite IH. unfold cover_ghost.
  destruct (decide (i = k)) as [->|Hne].
  - rewrite (decide_True (P := k ∈ k :: ks)) by left. destruct (q k); [|by destruct (decide _), (g !! k)].
    rewrite list_lookup_alter_eq. destruct (decide (k ∈ ks)); [|done]. by destruct (g !! k).
  - assert ((if q k then alter (fun x => (fst x, length (fst x))) k g else g) !! i = g !! i) as ->
      by (destruct (q k); [by rewrite list_lookup_alter_ne|done]).
    destruct (decide (i ∈ ks)), (decide (i ∈ k :: ks)); set_solver.
Qed.

Lemma cover_loop_all q g n :
  length g = n -> fold_left (cover_ghost q) (List.seq 0 n) g = cover_all q g.
Proof.
  intros <-. apply list_eq. intros i. rewrite cover_loop. unfold cover_all. rewrite list_lookup_imap.
  destruct (decide _) as [|Hn]; [done|]. destruct (g !! i) eqn:E; [|done].
  apply lookup_lt_Some in E. destruct Hn. apply list_elem_of_In, in_seq. lia.
Qed.

Lemma flush_loop_inv ks sh g ws e sh' r :
  binv sh g -> flush_loop sh ks ws e = (sh', r) -> binv sh' g /\ same_shape sh sh'.
Proof.
  revert sh ws e. induction ks as [|k ks IH]; intros sh ws e HI E; cbn in E; [by injection E as <- <-|].
  destruct (files sh !! k) as [[st|]|] eqn:Hk; [|by eapply IH..].
  destruct (flush_stripe sh k st _) as [[sh1 st1] r1] eqn:E1.
  destruct (flush_stripe_inv _ _ _ _ _ _ _ _ HI Hk E1) as (_ & _ & HI1 & Hs1 & _).
  destruct (IH _ _ _ HI1 E) as [? ?]. split; [done|]. by apply same_shape_trans with sh1.
Qed.

Lemma flush_buffers_inv sh g ws sh' r :
  binv sh g -> flush_buffers sh ws = (sh', r) -> binv sh' g /\ same_shape sh sh'.
Proof.
  intros HI E. unfold flush_buffers in E. destruct (buffered sh); [|by injection E as <- <-].
  by apply (flush_loop_inv _ (set_buffered sh false) g) in E.
Qed.

Lemma dirty_loop_inv ks sh g oks :
  binv sh g -> binv (dirty_loop sh ks oks) g /\ same_shape sh (dirty_loop sh ks oks).
Proof.
  revert sh oks. induction ks as [|k ks IH]; intros sh oks HI; cbn [dirty_loop]; [done|].
  destruct (files sh !! k) as [[st|]|] eqn:Hk; [|by apply IH..].
  destruct (binv_lookup _ _ _ _ HI Hk) as (bs & d & Hg & Hi).
  pose proof (proj1 (stripe_inv_sync _ _ _ _ (default true (head oks)) Hi)) as Hi'.
  set (sh1 := if default true (head oks) then _ else _).
  assert (binv sh1 g /\ same_shape sh sh1) as [HI1 Hs1].
  { unfold sh1, binv, same_shape. destruct (default true (head oks)); cbn;
      (split; [by eapply Forall2_insert_l|by rewrite length_insert]). }
  destruct (IH sh1 (tail oks) HI1) as [? ?]. split; [done|]. by apply same_shape_trans with sh1.
Qed.

Lemma tick_inv sh g ws oks :
  binv sh g -> binv (sync_dirty_files sh ws oks) g /\ same_shape sh (sync_dirty_files sh ws oks).
Proof.
  intros HI. unfold sync_dirty_files. destruct (flush_buffers sh ws) as [sh1 r1] eqn:E1.
  destruct (flush_buffers_inv _ _ _ _ _ HI E1) as [HI1 Hs1].
  destruct (_ && _); [|done].
  destruct (dirty_loop_inv (stripe_ids (set_dirty sh1 false)) (set_dirty sh1 false) g oks HI1) as [? ?].
  split; [done|]. by apply same_shape_trans with sh1.
Qed.

Definition log_inv (s : Shared * ghost) : Prop :=
  binv (fst s) (snd s) /\ (sync_mode (fst s) = Full -> buf_cap (fst s) = 0%nat /\ files (fst s) <> []).

Lemma log_inv_shape sh sh' g' :
  (sync_mode sh = Full -> buf_cap sh = 0%nat /\ files sh <> []) ->
  binv sh' g' /\ same_shape sh sh' -> log_inv (sh', g').
Proof.
  intros HF [HI (Hm & Hc & Hl)]. split; [done|]. cbn. rewrite Hm, Hc. intros E.
  destruct (HF E) as [? Hne]. split; [done|]. intros En. rewrite En in Hl. by destruct (files sh).
Qed.

Lemma wal_step_inv s s' : wal_step s s' -> log_inv s -> log_inv s'.
Proof.
  intros Hs [HI HF].
  destruct Hs as [sh sh' g k b fr w1 w2 r Hm Hw Hfr E|sh sh' g bs frs ws ok c Hm Hw Hf E g'|sh sh' g ws oks r E
                 |sh sh' g ws r E|sh g ws oks]; cbn [fst snd] in *; eapply log_inv_shape; try exact HF.
  - by eapply submit_frame_inv.
  - destruct (HF Hm). by eapply flush_group_inv.
  - unfold sync in E. destruct (sync_loop_inv _ (set_buffered (set_dirty sh false) false) (intact_at sh) g _ _ _ _ HI (fun _ => eq_refl) E)
      as [HI' Hs']. split; [|done].
    destruct r; [|done]. unfold stripe_ids in HI'. rewrite cover_loop_all in HI'; [done|].
    symmetry. exact (Forall2_length _ _ _ HI).
  - by eapply flush_buffers_inv.
  - by apply tick_inv.
Qed.

Lemma stripe_inv_fresh cap : stripe_inv cap fresh_stripe ([], 0%nat).
Proof. apply stripe_inv_intro with 0%nat; [done|done|done|done|]. by rewrite take_nil. Qed.

Lemma wal_init_inv mode n cap : log_inv (wal_init mode n cap).
Proof.
  unfold wal_init, log_inv, binv, wal_open. destruct (decide (mode = Full)) as [->|Hm]; cbn [fst snd files
    buf_cap sync_mode].
  - split; [|done]. apply Forall2_cons. split; [apply stripe_inv_fresh|constructor].
  - split; [|done]. rewrite length_replicate. apply Forall2_replicate, stripe_inv_fresh.
Qed.

Lemma wal_reachable_inv mode n cap s : wal_reachable mode n cap s -> log_inv s.
Proof.
  intros H. unfold wal_reachable in H. pose proof (wal_init_inv mode n cap) as HI.
  induction H as [s|s1 s2 s3 Hs Hr IH]; [done|]. apply IH. by eapply wal_step_inv.
Qed.

Lemma frames_of_cons_length b bs :
  length (frames_of checksum (b :: bs)) = (frame_len checksum b + length (frames_of checksum bs))%nat.
Proof.
  unfold frames_of, frame_len. cbn [map concat]. rewrite length_app.
  by destruct (batch_frame checksum b).
Qed.

(** The batches that survive a cut are a prefix, and contain every prefix that
    lies in front of the cut. *)
Lemma surviving_prefix bs n :
  exists m, (m <= length bs)%nat /\ surviving checksum n bs = take m bs /\
  forall p, (p <= length bs)%nat -> (length (frames_of checksum (take p bs)) <= n)%nat -> (p <= m)%nat.
Proof.
  revert n. induction bs as [|b bs IH]; intros n; cbn [surviving].
  { exists 0%nat. by conj_split; [|done|intros p Hp _; cbn in Hp]. }
  destruct (Nat.leb_spec (frame_len checksum b) n) as [Hn|Hn].
  - destruct (IH (n - frame_len checksum b)%nat) as (m & Hm & Hs & Hp). exists (S m). cbn [length take].
    conj_split; [lia|by rewrite Hs|]. intros [|p] Hpl Hpn; [lia|]. cbn [take] in Hpn.
    rewrite frames_of_cons_length in Hpn. specialize (Hp p). lia.
  - exists 0%nat. conj_split; [lia|done|]. intros [|p] Hpl Hpn; [lia|]. cbn [take] in Hpn.
    rewrite frames_of_cons_length in Hpn. lia.
Qed.
End Log.

(** A torn frame in front of later frames: while fewer bytes follow than the
    torn frame's header announces, nothing past it is reached. *)
Lemma next_frame_after_torn (checksum : list byte -> Z) p n tl :
  zlen p < 2 ^ 32 -> (8 <= n)%nat -> (n + length tl < 8 + length p)%nat ->
  next_frame checksum (take n (frame_of_payload checksum p) ++ tl) = None.
Proof.
  intros Hl Hn Ht. unfold next_frame, HEADER_SIZE.
  assert (Hlen : length (take n (frame_of_payload checksum p)) = n)
    by (rewrite length_take, frame_length; lia).
  rewrite length_app, Hlen. destruct (Nat.ltb_spec (n + length tl) 8); [done|].
  destruct (frame_fields checksum p [] Hl) as (Hlf & _). rewrite app_nil_r in Hlf.
  rewrite take_app_le, take_take, Nat.min_l, Hlf by lia.
  rewrite from_le_bytes_u32 by (unfold is_u32, zlen in *; lia). unfold zlen. rewrite Nat2Z.id.
  rewrite length_drop, length_app, Hlen.
  destruct (Nat.ltb_spec (n + length tl - 8) (length p)); [done|lia].
Qed.

(** The two outcomes of a group commit used below. *)
Lemma flush_group_torn sh st fr n ok :
  files sh !! 0%nat = Some (Some st) ->
  flush_group sh [fr] [IoFail n] ok =
  (with_file sh 0 (Some (mkStripe (mkFile (content (st_file st) ++ take n fr) (persisted (st_file st)) false)
                     (st_buf st))), code Io).
Proof. intros H. unfold flush_group. by rewrite H. Qed.

Lemma flush_group_synced sh st frs :
  files sh !! 0%nat = Some (Some st) -> sync_mode sh = Full ->
  exists sh', flush_group sh frs [] true = (sh', 0) /\
  files sh' !! 0%nat = Some (Some (mkStripe (sync_data (mkFile (content (st_file st) ++ concat frs)
    (persisted (st_file st)) (intact (st_file st))) true) (st_buf st))).
Proof.
  intros H Hm. unfold flush_group. rewrite H, write_group_ok. cbn [negb sync_mode add_writes with_file].
  rewrite Hm. eexists. split; [done|]. cbn [files add_size with_file add_writes].
  rewrite list_lookup_insert_eq; [done|]. rewrite length_insert. by eapply lookup_lt_Some.
Qed.

(** ** Properties *)



(** C26: a write that fails after part of a frame has landed (a full disk, say)
    is reported to its committer, but neither poisons the database nor removes
    the torn bytes.  The next group commit is appended behind them, synced and
    acknowledged; replaying the whole, fully persisted file then stops at the
    torn frame and delivers none of the acknowledged batches. *)
Theorem failed_append_hides_later_commits (checksum : list byte -> Z) id b fr n bs frs :
  (forall b, is_u32 (checksum b)) -> is_u64 (generation id) ->
  writable checksum b = true -> batch_frame checksum b = Some fr ->
  mapM (batch_frame checksum) bs = Some frs ->
  (8 <= n)%nat -> (n + length (concat frs) < length fr)%nat ->
  let sh0 := wal_open checksum id Full 1 0 in
  let '(sh1, c1) := flush_group sh0 [fr] [IoFail n] true in
  let '(sh2, c2) := flush_group sh1 frs [] true in
  c1 = code Io /\ poisoned sh1 = false /\ c2 = 0 /\
  exists st, files sh2 !! 0%nat = Some (Some st) /\
    persisted (st_file st) = length (content (st_file st)) /\
    forall (St : Type) (f : ReplayRecord -> St -> St * result unit) s,
    replay_file checksum f (Some (content (st_file st))) id s = (s, Ok 0).
Proof.
  intros Hc Hid Hw Hfr Hfrs Hn Ht. cbv zeta.
  assert (H0 : files (wal_open checksum id Full 1 0) !! 0%nat = Some (fresh_stripe checksum id)) by done.
  rewrite (flush_group_torn _ _ fr n true H0).
  match goal with |- context [flush_group ?sh frs [] true] => destruct (flush_group_synced sh
    (mkStripe (mkFile (encode_segment_header checksum id ++ take n fr) 32 false) []) frs)
    as (sh2 & -> & Hst); [done|done|] end.
  conj_split; [done|done|done|]. eexists. split; [exact Hst|].
  cbn [st_file sync_data content persisted]. split; [done|]. intros St f s.
  apply writable_frame in Hw as (p & Hp & Hfr' & Hl & Hlen & _). rewrite Hfr in Hfr'.
  apply Some_inj in Hfr'. subst fr. rewrite frame_length in Ht. unfold replay_file. rewrite <- app_assoc.
  rewrite take_app_exact, drop_app_exact by done.
  rewrite check_header; [|done..|unfold zlen; rewrite length_app, header_length; lia].
  unfold bind, lift. destruct (length (take n (frame_of_payload checksum p) ++ concat frs)); [done|].
  cbn [replay_frames]. by rewrite next_frame_after_torn by lia.
Qed.

(** The first commit fails after ten bytes; the second is acknowledged and lost. *)
Lemma failed_append_hides_later_commits_witness :
  let crc := fun _ : list byte => 0 in
  let id := mkSegmentId Unified 3 in
  let big := BFlat [mkRecord (repeat x61 40) [x31] 1 0 KIND_PUT] in
  let small := BFlat [mkRecord [x62] [x32] 2 0 KIND_PUT] in
  let sh1 := fst (flush_group (wal_open crc id Full 1 0) (default [] (mapM (batch_frame crc) [big]))
                    [IoFail 10] true) in
  snd (flush_group sh1 (default [] (mapM (batch_frame crc) [small])) [] true) = 0.
Proof.
  cbv zeta.
  pose proof (failed_append_hides_later_commits (fun _ => 0) (mkSegmentId Unified 3)
    (BFlat [mkRecord (repeat x61 40) [x31] 1 0 KIND_PUT])
    (default [] (batch_frame (fun _ => 0) (BFlat [mkRecord (repeat x61 40) [x31] 1 0 KIND_PUT]))) 10
    [BFlat [mkRecord [x62] [x32] 2 0 KIND_PUT]]
    (default [] (mapM (batch_frame (fun _ => 0)) [BFlat [mkRecord [x62] [x32] 2 0 KIND_PUT]]))
    ltac:(by intros; split; vm_compute) ltac:(by split; vm_compute) eq_refl eq_refl eq_refl
    ltac:(lia) ltac:(vm_compute; lia)) as H.
  exact (proj1 (proj2 (proj2 H))).
Defined.
