(* ===== verification/Manifest.v ===== *)
(** * The catalog and its edits: data and codec (manifest.rs, manifest_edit.rs)

    The catalog records ([SstMeta], [CfManifest], [Manifest]), the fourteen edit
    operations, their byte encoding and strict decoding, and the framing of the
    edit log: header, records, the torn-tail rule.  Strings are the bytes of
    their UTF-8 encoding; the decoder's UTF-8 check is written out. *)

From Stdlib Require Import ZArith Lia.
From Stdlib.Strings Require Import Byte.
From stdpp Require Import base list.
From S2P Require Import Prelude Encoding Codec Comparator Format Wal.

Open Scope Z_scope.

(** ** UTF-8 (std::str::from_utf8) *)

Definition is_cont (b : byte) : bool := (0x80 <=? Z_of_byte b) && (Z_of_byte b <=? 0xBF).

(** The range of the second byte, by the first (Unicode table 3-7). *)
Definition second_ok (b0 b1 : byte) : bool :=
  let x := Z_of_byte b0 in
  let y := Z_of_byte b1 in
  if x =? 0xE0 then (0xA0 <=? y) && (y <=? 0xBF)
  else if x =? 0xED then (0x80 <=? y) && (y <=? 0x9F)
  else if x =? 0xF0 then (0x90 <=? y) && (y <=? 0xBF)
  else if x =? 0xF4 then (0x80 <=? y) && (y <=? 0x8F)
  else is_cont b1.

Fixpoint is_utf8 (b : list byte) : bool :=
  match b with
  | [] => true
  | b0 :: r0 =>
      let x := Z_of_byte b0 in
      if x <? 0x80 then is_utf8 r0
      else match r0 with
      | b1 :: r1 =>
          if (0xC2 <=? x) && (x <=? 0xDF) then is_cont b1 && is_utf8 r1
          else match r1 with
          | b2 :: r2 =>
              if (0xE0 <=? x) && (x <=? 0xEF) then second_ok b0 b1 && is_cont b2 && is_utf8 r2
              else match r2 with
              | b3 :: r3 =>
                  (0xF0 <=? x) && (x <=? 0xF4) && second_ok b0 b1 && is_cont b2 && is_cont b3
                  && is_utf8 r3
              | [] => false
              end
          | [] => false
          end
      | [] => false
      end
  end.

(** ** The catalog *)

#[export] Instance WalLayout_eq_dec : EqDecision WalLayout.
Proof. solve_decision. Defined.

Record SstMeta := mkSstMeta {
  id : Z;
  level : Z;
  num_entries : Z;
  num_tombstones : Z;
  max_seq : Z;
  klog_size : Z;
  vlog_size : Z;
  min_key : list byte;
  max_key : list byte;
  partition : option (list byte);
  tier : option (list byte);
  max_entry_time : option Z;
  object : option (list byte);
  last_compaction_time : option Z;
  range_count : Z;
  range_min_seq : Z;
  range_max_seq : Z;
  range_min_key : option (list byte);
  range_max_key : option (list byte);
  table_caps : option Z;
}.

Record CfManifest := mkCf {
  cf_name : list byte;
  cf_config : list byte;
  sstables : list SstMeta;
  unified_id : option Z;
}.

Record Manifest := mkManifest {
  next_file_id : Z;
  global_seq : Z;
  cfs : list CfManifest;
  wal_layout : WalLayout;
  instance_nonce : option Z;
  caps : Z;
  generation_ : Z;
  applied_through : Z;
  next_edit_id : Z;
  wal_floor : Z;
}.

(** ** Edits *)

Record TableUpdate := mkUpdate {
  u_level : option Z;
  u_tier : option (option (list byte));
  u_object : option (option (list byte));
  u_partition : option (option (list byte));
  u_max_entry_time : option (option Z);
  u_last_compaction_time : option (option Z);
}.

Definition MASK_LEVEL : Z := 0x01.
Definition MASK_TIER : Z := 0x02.
Definition MASK_OBJECT : Z := 0x04.
Definition MASK_PARTITION : Z := 0x08.
Definition MASK_MAX_ENTRY_TIME : Z := 0x10.
Definition MASK_LAST_COMPACTION_TIME : Z := 0x20.
Definition MASK_KNOWN : Z := 0x3f.

Definition or_if {A} (o : option A) (m bit : Z) : Z := if o is Some _ then Z.lor m bit else m.

Definition mask (u : TableUpdate) : Z :=
  let m := 0 in
  let m := or_if (u_level u) m MASK_LEVEL in
  let m := or_if (u_tier u) m MASK_TIER in
  let m := or_if (u_object u) m MASK_OBJECT in
  let m := or_if (u_partition u) m MASK_PARTITION in
  let m := or_if (u_max_entry_time u) m MASK_MAX_ENTRY_TIME in
  or_if (u_last_compaction_time u) m MASK_LAST_COMPACTION_TIME.

Definition apply_to (u : TableUpdate) (s : SstMeta) : SstMeta :=
  mkSstMeta (id s) (default (level s) (u_level u)) (num_entries s) (num_tombstones s) (max_seq s)
    (klog_size s) (vlog_size s) (min_key s) (max_key s)
    (default (partition s) (u_partition u)) (default (tier s) (u_tier u))
    (default (max_entry_time s) (u_max_entry_time u)) (default (object s) (u_object u))
    (default (last_compaction_time s) (u_last_compaction_time u))
    (range_count s) (range_min_seq s) (range_max_seq s) (range_min_key s) (range_max_key s)
    (table_caps s).

Inductive Op : Type :=
| AddTable (cf : list byte) (meta : SstMeta)
| RemoveTable (cf : list byte) (id : Z) (expected_level : Z)
| UpdateTable (cf : list byte) (id : Z) (update : TableUpdate)
| CreateCf (name : list byte) (config : list byte)
| DropCf (name : list byte)
| SetCfConfig (name : list byte) (config : list byte)
| SetNextFileId (v : Z)
| SetGlobalSeq (v : Z)
| SetWalLayout (l : WalLayout)
| SetNonce (nonce : Z)
| SetCapability (bits : Z)
| RemoveTables (cf : list byte) (ids : list Z)
| SetCfUnifiedId (name : list byte) (id : Z)
| SetWalFloor (generation : Z).

(** ** Encoding *)

Definition append_opt {A} (enc : A -> list byte) (v : option A) : list byte :=
  match v with None => [x00] | Some x => x01 :: enc x end.

Definition append_opt_str : option (list byte) -> list byte := append_opt enc_lenbytes.
Definition append_opt_bytes : option (list byte) -> list byte := append_opt enc_lenbytes.
Definition append_opt_varint : option Z -> list byte := append_opt enc_varint.

Definition append_sst_meta (m : SstMeta) : list byte :=
  enc_uvarint (id m) ++ enc_uvarint (level m) ++ enc_uvarint (num_entries m)
  ++ enc_uvarint (num_tombstones m) ++ enc_uvarint (max_seq m) ++ enc_uvarint (klog_size m)
  ++ enc_uvarint (vlog_size m) ++ enc_lenbytes (min_key m) ++ enc_lenbytes (max_key m)
  ++ append_opt_str (partition m) ++ append_opt_str (tier m) ++ append_opt_varint (max_entry_time m)
  ++ append_opt_str (object m) ++ append_opt_varint (last_compaction_time m)
  ++ enc_uvarint (range_count m) ++ enc_uvarint (range_min_seq m) ++ enc_uvarint (range_max_seq m)
  ++ append_opt_bytes (range_min_key m) ++ append_opt_bytes (range_max_key m).

(** A field of an update, when the update carries it. *)
Definition enc_present {A} (enc : A -> list byte) (o : option A) : list byte :=
  if o is Some x then enc x else [].

(** The mask, then the present fields in ascending bit order. *)
Definition encode_update (u : TableUpdate) : list byte :=
  enc_uvarint (mask u)
  ++ enc_present enc_uvarint (u_level u) ++ enc_present append_opt_str (u_tier u)
  ++ enc_present append_opt_str (u_object u) ++ enc_present append_opt_str (u_partition u)
  ++ enc_present append_opt_varint (u_max_entry_time u)
  ++ enc_present append_opt_varint (u_last_compaction_time u).

Definition encode_op (op : Op) : list byte :=
  match op with
  | AddTable cf meta => enc_uvarint 1 ++ enc_lenbytes cf ++ append_sst_meta meta
  | RemoveTable cf i lvl => enc_uvarint 2 ++ enc_lenbytes cf ++ enc_uvarint i ++ enc_uvarint lvl
  | UpdateTable cf i u =>
      enc_uvarint 3 ++ enc_lenbytes cf ++ enc_uvarint i ++ encode_update u
  | CreateCf name config => enc_uvarint 4 ++ enc_lenbytes name ++ enc_lenbytes config
  | DropCf name => enc_uvarint 5 ++ enc_lenbytes name
  | SetCfConfig name config => enc_uvarint 6 ++ enc_lenbytes name ++ enc_lenbytes config
  | SetNextFileId v => enc_uvarint 7 ++ enc_uvarint v
  | SetGlobalSeq v => enc_uvarint 8 ++ enc_uvarint v
  | SetWalLayout l => enc_uvarint 9 ++ [if decide (l = Unified) then x01 else x00]
  | SetNonce n => enc_uvarint 10 ++ le_bytes 8 n
  | SetCapability bits => enc_uvarint 11 ++ le_bytes 8 bits
  | RemoveTables cf ids =>
      enc_uvarint 12 ++ enc_lenbytes cf ++ enc_uvarint (Z.of_nat (length ids))
      ++ concat (map enc_uvarint ids)
  | SetCfUnifiedId name i => enc_uvarint 13 ++ enc_lenbytes name ++ le_bytes 8 i
  | SetWalFloor g => enc_uvarint 14 ++ enc_uvarint g
  end.

Definition encode_payload (edit_id : Z) (ops : list Op) : list byte :=
  le_bytes 8 edit_id ++ enc_uvarint (Z.of_nat (length ops)) ++ concat (map encode_op ops).

(** ** Decoding: the cursor [Cur]; every failure is [Corruption] *)

Definition cur_u64le : decoder Z := dec_le Corruption 8.
Definition cur_uvar : decoder Z := dec_uvarint Corruption.

Definition cur_u32_from_uvar : decoder Z := fun p =>
  let? (v, p) := cur_uvar p in
  ensure? v <=? U32_MAX else Corruption ;; Ok (v, p).

Definition cur_bytes : decoder (list byte) := dec_lenbytes Corruption.

Definition cur_string : decoder (list byte) := fun p =>
  let? (raw, p) := cur_bytes p in
  ensure? is_utf8 raw else Corruption ;; Ok (raw, p).

(** An optional field behind its 0/1 tag. *)
Definition cur_opt {A} (d : decoder A) : decoder (option A) := fun p =>
  let? (tag, p) := dec_byte Corruption p in
  if tag =? 0 then Ok (None, p)
  else if tag =? 1 then let? (x, p) := d p in Ok (Some x, p)
  else Err Corruption.

Definition cur_opt_string : decoder (option (list byte)) := cur_opt cur_string.
Definition cur_opt_bytes : decoder (option (list byte)) := cur_opt cur_bytes.
Definition cur_opt_varint : decoder (option Z) := cur_opt (dec_varint Corruption).

Definition cur_sst_meta : decoder SstMeta := fun p =>
  let? (id, p) := cur_uvar p in
  let? (level, p) := cur_u32_from_uvar p in
  let? (num_entries, p) := cur_uvar p in
  let? (num_tombstones, p) := cur_uvar p in
  let? (max_seq, p) := cur_uvar p in
  let? (klog_size, p) := cur_uvar p in
  let? (vlog_size, p) := cur_uvar p in
  let? (min_key, p) := cur_bytes p in
  let? (max_key, p) := cur_bytes p in
  let? (partition, p) := cur_opt_string p in
  let? (tier, p) := cur_opt_string p in
  let? (max_entry_time, p) := cur_opt_varint p in
  let? (object, p) := cur_opt_string p in
  let? (last_compaction_time, p) := cur_opt_varint p in
  let? (range_count, p) := cur_uvar p in
  let? (range_min_seq, p) := cur_uvar p in
  let? (range_max_seq, p) := cur_uvar p in
  let? (range_min_key, p) := cur_opt_bytes p in
  let? (range_max_key, p) := cur_opt_bytes p in
  Ok (mkSstMeta id level num_entries num_tombstones max_seq klog_size vlog_size min_key max_key
        partition tier max_entry_time object last_compaction_time range_count range_min_seq
        range_max_seq range_min_key range_max_key None, p).

(** A field of an update, read when its bit is in the mask. *)
Definition cur_present {A} (m bit : Z) (d : decoder A) : decoder (option A) := fun p =>
  if has_bit m bit then let? (x, p) := d p in Ok (Some x, p) else Ok (None, p).

Definition cur_update : decoder TableUpdate := fun p =>
  let? (m, p) := cur_uvar p in
  ensure? negb ((m =? 0) || outside m MASK_KNOWN) else Corruption ;;
  let? (l, p) := cur_present m MASK_LEVEL cur_u32_from_uvar p in
  let? (t, p) := cur_present m MASK_TIER cur_opt_string p in
  let? (o, p) := cur_present m MASK_OBJECT cur_opt_string p in
  let? (pt, p) := cur_present m MASK_PARTITION cur_opt_string p in
  let? (me, p) := cur_present m MASK_MAX_ENTRY_TIME cur_opt_varint p in
  let? (lc, p) := cur_present m MASK_LAST_COMPACTION_TIME cur_opt_varint p in
  Ok (mkUpdate l t o pt me lc, p).

Definition cur_op : decoder Op := fun p =>
  let? (code, p) := cur_uvar p in
  match code with
  | 1 => let? (cf, p) := cur_string p in
         let? (meta, p) := cur_sst_meta p in Ok (AddTable cf meta, p)
  | 2 => let? (cf, p) := cur_string p in
         let? (i, p) := cur_uvar p in
         let? (lvl, p) := cur_u32_from_uvar p in Ok (RemoveTable cf i lvl, p)
  | 3 => let? (cf, p) := cur_string p in
         let? (i, p) := cur_uvar p in
         let? (u, p) := cur_update p in Ok (UpdateTable cf i u, p)
  | 4 => let? (name, p) := cur_string p in
         let? (config, p) := cur_bytes p in Ok (CreateCf name config, p)
  | 5 => let? (name, p) := cur_string p in Ok (DropCf name, p)
  | 6 => let? (name, p) := cur_string p in
         let? (config, p) := cur_bytes p in Ok (SetCfConfig name config, p)
  | 7 => let? (v, p) := cur_uvar p in Ok (SetNextFileId v, p)
  | 8 => let? (v, p) := cur_uvar p in Ok (SetGlobalSeq v, p)
  | 9 => let? (b, p) := dec_byte Corruption p in
         if b =? 0 then Ok (SetWalLayout PerColumnFamily, p)
         else if b =? 1 then Ok (SetWalLayout Unified, p)
         else Err Corruption
  | 10 => let? (n, p) := cur_u64le p in Ok (SetNonce n, p)
  | 11 => let? (bits, p) := cur_u64le p in Ok (SetCapability bits, p)
  | 12 => let? (cf, p) := cur_string p in
          let? (count, p) := cur_uvar p in
          let? (ids, p) := dec_repeat Corruption cur_uvar count p in Ok (RemoveTables cf ids, p)
  | 13 => let? (name, p) := cur_string p in
          let? (i, p) := cur_u64le p in Ok (SetCfUnifiedId name i, p)
  | 14 => let? (g, p) := cur_uvar p in Ok (SetWalFloor g, p)
  | _ => Err Corruption
  end.

Definition decode_payload (payload : list byte) : result (Z * list Op) :=
  let? (edit_id, p) := cur_u64le payload in
  let? (count, p) := cur_uvar p in
  let? (ops, p) := dec_repeat Corruption cur_op count p in
  ensure? zlen p =? 0 else Corruption ;;
  Ok (edit_id, ops).

(** ** The edit log: header and records *)

(** ["YOLODBED"]. *)
Definition EDIT_LOG_MAGIC : list byte := [x59; x4f; x4c; x4f; x44; x42; x45; x44].
Definition EDIT_LOG_SCHEMA : Z := 1.
Definition EDIT_LOG_HEADER_BYTES : nat := 32.
Definition EDIT_RECORD_HEADER_BYTES : nat := 8.
Definition MAX_EDIT_RECORD_BYTES : Z := Z.shiftl 64 20.
Definition ONDA09_EDIT_LOG_MAGIC : Z := 0x4F4E4445.

Record EditLogHeader := mkEditLogHeader {
  base_applied_through : Z;
  snapshot_generation : Z;
}.

Record EditRecord := mkEditRecord { edit_id : Z; edit_ops : list Op }.

Section EditLog.
Context (checksum : list byte -> Z).

Definition encode_record (eid : Z) (ops : list Op) : list byte :=
  let payload := encode_payload eid ops in
  le_bytes 4 (wrap32 (zlen payload)) ++ le_bytes 4 (checksum payload) ++ payload.

Definition edit_header_body (h : EditLogHeader) : list byte :=
  EDIT_LOG_MAGIC ++ le_bytes 4 EDIT_LOG_SCHEMA ++ le_bytes 8 (base_applied_through h)
  ++ le_bytes 8 (snapshot_generation h).

Definition encode_edit_header (h : EditLogHeader) : list byte :=
  edit_header_body h ++ le_bytes 4 (checksum (edit_header_body h)).

Definition decode_edit_header (data : list byte) : result EditLogHeader :=
  if (4 <=? length data)%nat && (from_le_bytes (take 4 data) =? ONDA09_EDIT_LOG_MAGIC)
  then Err UnsupportedFormat
  else
    ensure? (EDIT_LOG_HEADER_BYTES <=? length data)%nat else Corruption ;;
    ensure? beq (take 8 data) EDIT_LOG_MAGIC else Corruption ;;
    ensure? from_le_bytes (slice data 8 12) =? EDIT_LOG_SCHEMA else UnsupportedFormat ;;
    ensure? from_le_bytes (slice data 28 32) =? checksum (take 28 data) else Corruption ;;
    Ok (mkEditLogHeader (from_le_bytes (slice data 12 20)) (from_le_bytes (slice data 20 28))).

(** The loop of [decode_records] on the bytes at offset [off]: every iteration
    takes a frame header, so the length of the bytes bounds it. *)
Fixpoint records_loop (fuel : nat) (data : list byte) (off : nat) : result (list EditRecord * nat) :=
  if (length data <? EDIT_RECORD_HEADER_BYTES)%nat then Ok ([], off)
  else match fuel with
  | O => Ok ([], off)
  | S fuel =>
      let len := from_le_bytes (take 4 data) in
      ensure? len <=? MAX_EDIT_RECORD_BYTES else Corruption ;;
      let body := drop EDIT_RECORD_HEADER_BYTES data in
      if zlen body <? len then Ok ([], off)
      else
        let payload := take (Z.to_nat len) body in
        ensure? from_le_bytes (slice data 4 8) =? checksum payload else Corruption ;;
        let? (eid, ops) := decode_payload payload in
        let? (recs, off) :=
          records_loop fuel (drop (Z.to_nat len) body)
            (off + EDIT_RECORD_HEADER_BYTES + Z.to_nat len) in
        Ok (mkEditRecord eid ops :: recs, off)
  end.

Definition decode_records (data : list byte) : result (list EditRecord * nat) :=
  records_loop (length data) (drop EDIT_LOG_HEADER_BYTES data) EDIT_LOG_HEADER_BYTES.
End EditLog.

(** ** What a writer encodes *)

Definition u64b (x : Z) : bool := (0 <=? x) && (x <? 2 ^ 64).
Definition u32b (x : Z) : bool := (0 <=? x) && (x <=? U32_MAX).
Definition i64b (x : Z) : bool := (- 2 ^ 63 <=? x) && (x <? 2 ^ 63).
Definition bytes_ok (b : list byte) : bool := zlen b <? 2 ^ 64.
Definition str_ok (b : list byte) : bool := bytes_ok b && is_utf8 b.
Definition opt_ok {A} (p : A -> bool) (o : option A) : bool := if o is Some x then p x else true.

Definition meta_ok (m : SstMeta) : bool :=
  u64b (id m) && u32b (level m) && u64b (num_entries m) && u64b (num_tombstones m)
  && u64b (max_seq m) && u64b (klog_size m) && u64b (vlog_size m)
  && bytes_ok (min_key m) && bytes_ok (max_key m)
  && opt_ok str_ok (partition m) && opt_ok str_ok (tier m) && opt_ok i64b (max_entry_time m)
  && opt_ok str_ok (object m) && opt_ok i64b (last_compaction_time m)
  && u64b (range_count m) && u64b (range_min_seq m) && u64b (range_max_seq m)
  && opt_ok bytes_ok (range_min_key m) && opt_ok bytes_ok (range_max_key m)
  && bool_decide (table_caps m = None).

Definition update_ok (u : TableUpdate) : bool :=
  negb (mask u =? 0) && opt_ok u32b (u_level u) && opt_ok (opt_ok str_ok) (u_tier u)
  && opt_ok (opt_ok str_ok) (u_object u) && opt_ok (opt_ok str_ok) (u_partition u)
  && opt_ok (opt_ok i64b) (u_max_entry_time u) && opt_ok (opt_ok i64b) (u_last_compaction_time u).

Definition op_ok (op : Op) : bool :=
  match op with
  | AddTable cf meta => str_ok cf && meta_ok meta
  | RemoveTable cf i lvl => str_ok cf && u64b i && u32b lvl
  | UpdateTable cf i u => str_ok cf && u64b i && update_ok u
  | CreateCf name config | SetCfConfig name config => str_ok name && bytes_ok config
  | DropCf name => str_ok name
  | SetNextFileId v | SetGlobalSeq v | SetNonce v | SetCapability v | SetWalFloor v => u64b v
  | SetWalLayout _ => true
  | RemoveTables cf ids => str_ok cf && forallb u64b ids && u64b (Z.of_nat (length ids))
  | SetCfUnifiedId name i => str_ok name && u64b i
  end.

(** ** Lemmas: one per field type *)

Lemma u64b_spec x : u64b x = true <-> is_u64 x.
Proof. unfold u64b, is_u64. rewrite andb_true_iff, Z.leb_le, Z.ltb_lt. done. Qed.

Lemma i64b_spec x : i64b x = true <-> is_i64 x.
Proof. unfold i64b, is_i64. rewrite andb_true_iff, Z.leb_le, Z.ltb_lt. done. Qed.

Lemma u32b_spec x : u32b x = true -> is_u64 x /\ (x <=? U32_MAX) = true.
Proof. unfold u32b, is_u64, U32_MAX. intros H. boolprop. split; [lia|]. by apply Z.leb_le. Qed.

Lemma cur_uvar_enc x : u64b x = true -> decodes cur_uvar (enc_uvarint x) x.
Proof. intros H. by apply dec_uvarint_enc, u64b_spec. Qed.

Lemma cur_u64le_enc x : u64b x = true -> decodes cur_u64le (le_bytes 8 x) x.
Proof. intros H. by apply dec_le_enc, u64b_spec. Qed.

Lemma cur_u32_enc x : u32b x = true -> decodes cur_u32_from_uvar (enc_uvarint x) x.
Proof.
  intros H rest. apply u32b_spec in H as [H1 H2]. unfold cur_u32_from_uvar.
  rewrite cur_uvar_enc by by apply u64b_spec. cbn [rbind]. by rewrite H2.
Qed.

Lemma cur_bytes_enc b : bytes_ok b = true -> decodes cur_bytes (enc_lenbytes b) b.
Proof.
  unfold bytes_ok. intros H. boolprop. apply dec_lenbytes_enc. unfold is_len, is_u64, zlen in *. lia.
Qed.

Lemma cur_string_enc b : str_ok b = true -> decodes cur_string (enc_lenbytes b) b.
Proof.
  unfold str_ok. intros H rest. boolprop. unfold cur_string.
  rewrite cur_bytes_enc by done. cbn [rbind].
  match goal with E : is_utf8 b = true |- _ => by rewrite E end.
Qed.

Lemma cur_opt_enc {A} (d : decoder A) enc (ok : A -> bool) o :
  (forall x, ok x = true -> decodes d (enc x) x) -> opt_ok ok o = true ->
  decodes (cur_opt d) (append_opt enc o) o.
Proof.
  intros H Ho rest. unfold cur_opt, append_opt. destruct o as [x|]; [|done]. cbn [opt_ok] in Ho.
  cbn [app dec_byte rbind]. change (Z_of_byte x01) with 1. cbn [Z.eqb]. by rewrite H.
Qed.

Lemma cur_opt_string_enc o : opt_ok str_ok o = true -> decodes cur_opt_string (append_opt_str o) o.
Proof. apply cur_opt_enc, cur_string_enc. Qed.

Lemma cur_opt_bytes_enc o : opt_ok bytes_ok o = true -> decodes cur_opt_bytes (append_opt_bytes o) o.
Proof. apply cur_opt_enc, cur_bytes_enc. Qed.

Lemma cur_opt_varint_enc o : opt_ok i64b o = true -> decodes cur_opt_varint (append_opt_varint o) o.
Proof. apply cur_opt_enc. intros x H. by apply dec_varint_enc, i64b_spec. Qed.

(** Run a decoder over the fields it was encoded from. *)
Ltac run_fields :=
  repeat rewrite <- app_assoc;
  repeat (first
    [ rewrite cur_uvar_enc by done | rewrite cur_u32_enc by done | rewrite cur_string_enc by done
    | rewrite cur_bytes_enc by done | rewrite cur_opt_string_enc by done
    | rewrite cur_opt_bytes_enc by done | rewrite cur_opt_varint_enc by done
    | rewrite cur_u64le_enc by done ]; cbn [rbind]).

Lemma cur_sst_meta_enc m : meta_ok m = true -> decodes cur_sst_meta (append_sst_meta m) m.
Proof.
  unfold meta_ok. intros H rest. boolprop. unfold append_sst_meta, cur_sst_meta. run_fields.
  destruct m. cbn in *. by subst.
Qed.

(** *** Updates *)

(** The mask of an update holds exactly the bits of the fields it carries. *)
Lemma mask_bits u :
  is_u64 (mask u) /\ outside (mask u) MASK_KNOWN = false /\
  has_bit (mask u) MASK_LEVEL = bool_decide (is_Some (u_level u)) /\
  has_bit (mask u) MASK_TIER = bool_decide (is_Some (u_tier u)) /\
  has_bit (mask u) MASK_OBJECT = bool_decide (is_Some (u_object u)) /\
  has_bit (mask u) MASK_PARTITION = bool_decide (is_Some (u_partition u)) /\
  has_bit (mask u) MASK_MAX_ENTRY_TIME = bool_decide (is_Some (u_max_entry_time u)) /\
  has_bit (mask u) MASK_LAST_COMPACTION_TIME = bool_decide (is_Some (u_last_compaction_time u)).
Proof.
  unfold mask. destruct u as [[l|] [t|] [o|] [pt|] [me|] [lc|]]; cbn [u_level u_tier u_object u_partition
    u_max_entry_time u_last_compaction_time or_if]; (split; [by split; vm_compute|by vm_compute]).
Qed.

Lemma cur_present_enc {A} (d : decoder A) enc (ok : A -> bool) m bit o :
  has_bit m bit = bool_decide (is_Some o) ->
  (forall x, ok x = true -> decodes d (enc x) x) -> opt_ok ok o = true ->
  decodes (cur_present m bit d) (enc_present enc o) o.
Proof.
  intros Hb H Ho rest. unfold cur_present, enc_present. rewrite Hb. destruct o as [x|]; [|done].
  cbn [opt_ok] in Ho. rewrite bool_decide_eq_true_2 by eauto. by rewrite H.
Qed.

Lemma cur_update_enc u :
  update_ok u = true ->
  decodes cur_update (encode_update u) u.
Proof.
  unfold update_ok. intros H rest. boolprop.
  destruct (mask_bits u) as (Hu & Hk & B1 & B2 & B3 & B4 & B5 & B6). unfold cur_update, encode_update.
  repeat rewrite <- app_assoc. rewrite cur_uvar_enc by by apply u64b_spec. cbn [rbind].
  rewrite Hk, (proj2 (Z.eqb_neq _ _)) by done. cbn [orb negb guard rbind].
  rewrite (cur_present_enc _ _ _ _ _ _ B1 cur_u32_enc) by done. cbn [rbind].
  rewrite (cur_present_enc _ _ _ _ _ _ B2 cur_opt_string_enc) by done. cbn [rbind].
  rewrite (cur_present_enc _ _ _ _ _ _ B3 cur_opt_string_enc) by done. cbn [rbind].
  rewrite (cur_present_enc _ _ _ _ _ _ B4 cur_opt_string_enc) by done. cbn [rbind].
  rewrite (cur_present_enc _ _ _ _ _ _ B5 cur_opt_varint_enc) by done. cbn [rbind].
  rewrite (cur_present_enc _ _ _ _ _ _ B6 cur_opt_varint_enc) by done. cbn [rbind].
  by destruct u.
Qed.

(** *** Operations, payloads *)

Lemma cur_op_enc op : op_ok op = true -> decodes cur_op (encode_op op) op.
Proof.
  intros H rest. unfold cur_op.
  destruct op; cbn [op_ok encode_op] in H |- *; boolprop; run_fields; try done.
  - by rewrite cur_sst_meta_enc.
  - rewrite cur_update_enc by done. done.
  - by destruct l.
  - rewrite (dec_repeat_enc Corruption cur_uvar enc_uvarint _ ids); [done|..|done].
    + intros x Hx. apply cur_uvar_enc. rewrite forallb_forall in *.
      match goal with H : forall x, In x ids -> u64b x = true |- _ => by apply H, list_elem_of_In end.
    + intros. apply enc_uvarint_nonempty.
Qed.

Lemma encode_op_nonempty op : (0 < length (encode_op op))%nat.
Proof.
  destruct op; cbn [encode_op]; rewrite length_app;
    match goal with |- context [enc_uvarint ?c] => pose proof (enc_uvarint_nonempty c) end; lia.
Qed.

Definition record_ok (r : EditRecord) : bool :=
  u64b (edit_id r) && forallb op_ok (edit_ops r)
  && (zlen (encode_payload (edit_id r) (edit_ops r)) <=? MAX_EDIT_RECORD_BYTES).

Lemma decode_payload_enc r :
  record_ok r = true ->
  decode_payload (encode_payload (edit_id r) (edit_ops r)) = Ok (edit_id r, edit_ops r).
Proof.
  unfold record_ok. intros H. boolprop. unfold decode_payload.
  assert (Hn : u64b (Z.of_nat (length (edit_ops r))) = true).
  { apply u64b_spec. unfold is_u64. pose proof (concat_length_ge encode_op (edit_ops r) encode_op_nonempty).
    match goal with H : zlen _ <= _ |- _ => revert H end. unfold zlen, encode_payload, MAX_EDIT_RECORD_BYTES.
    rewrite !length_app. change (Z.shiftl 64 20) with 67108864. lia. }
  unfold encode_payload. run_fields.
  pose proof (dec_repeat_enc Corruption cur_op encode_op (Z.of_nat (length (edit_ops r))) (edit_ops r)) as Hd.
  rewrite <- (app_nil_r (concat (map encode_op (edit_ops r)))), Hd; [done|..|done].
  - intros op Hop. apply cur_op_enc. rewrite forallb_forall in *.
    match goal with H : forall x, In x _ -> op_ok x = true |- _ => by apply H, list_elem_of_In end.
  - intros. apply encode_op_nonempty.
Qed.

(** *** The log *)

Section Log.
Context (checksum : list byte -> Z) (checksum_u32 : forall b, is_u32 (checksum b)).

Definition encode_rec (r : EditRecord) : list byte := encode_record checksum (edit_id r) (edit_ops r).
Definition rec_payload (r : EditRecord) : list byte := encode_payload (edit_id r) (edit_ops r).

(** A record is framed like a WAL batch. *)
Lemma encode_rec_frame r : encode_rec r = frame_of_payload checksum (rec_payload r).
Proof. done. Qed.

Lemma record_ok_len r : record_ok r = true -> zlen (rec_payload r) < 2 ^ 32 /\
  (zlen (rec_payload r) <=? MAX_EDIT_RECORD_BYTES) = true.
Proof.
  unfold record_ok, rec_payload. intros H. boolprop. split; [|by apply Z.leb_le].
  match goal with H : zlen _ <= _ |- _ => revert H end. unfold MAX_EDIT_RECORD_BYTES.
  change (Z.shiftl 64 20) with 67108864. lia.
Qed.

Definition records_bytes (recs : list EditRecord) : list byte := concat (map encode_rec recs).

(** A tail the scan stops at: a cut frame. *)
Definition torn (tl : list byte) : Prop :=
  tl = [] \/ exists r n, record_ok r = true /\ (n < length (encode_rec r))%nat /\ tl = take n (encode_rec r).

Lemma records_loop_torn tl fuel off :
  torn tl -> (length tl <= fuel)%nat -> records_loop checksum fuel tl off = Ok ([], off).
Proof.
  intros [->|(r & n & Hr & Hn & ->)] Hf; [by destruct fuel|].
  destruct fuel as [|fuel]; cbn [records_loop]; unfold EDIT_RECORD_HEADER_BYTES.
  - by destruct (_ <? _)%nat.
  - destruct (Nat.ltb_spec (length (take n (encode_rec r))) 8) as [|H8]; [done|].
    rewrite encode_rec_frame, frame_length in *. rewrite length_take, frame_length in H8.
    destruct (record_ok_len r Hr) as [Hl Hm].
    destruct (frame_fields checksum (rec_payload r) [] Hl) as (Hlen & _). rewrite app_nil_r in Hlen.
    rewrite take_take, Nat.min_l, Hlen by lia.
    rewrite from_le_bytes_u32 by (unfold is_u32, zlen in *; lia). rewrite Hm. cbn [guard rbind].
    destruct (Z.ltb_spec (zlen (drop 8 (take n (frame_of_payload checksum (rec_payload r)))))
      (zlen (rec_payload r))) as [|Hge]; [done|].
    unfold zlen in Hge. rewrite length_drop, length_take, frame_length in Hge. lia.
Qed.

Lemma records_loop_enc recs tl fuel off :
  forallb record_ok recs = true -> torn tl -> (length (records_bytes recs ++ tl) <= fuel)%nat ->
  records_loop checksum fuel (records_bytes recs ++ tl) off =
  Ok (recs, (off + length (records_bytes recs))%nat).
Proof.
  intros Hok Ht. revert fuel off. induction recs as [|r recs IH]; intros fuel off Hf.
  - cbn [records_bytes map concat app length] in *. rewrite Nat.add_0_r. by apply records_loop_torn.
  - cbn [forallb] in Hok. apply andb_true_iff in Hok as [Hr Hok]. specialize (IH Hok).
    unfold records_bytes in *. cbn [map concat] in *. rewrite <- app_assoc in *.
    rewrite encode_rec_frame in *. rewrite length_app, frame_length in Hf.
    destruct fuel as [|fuel]; [lia|]. cbn [records_loop].
    destruct (record_ok_len r Hr) as [Hl Hm].
    destruct (frame_fields checksum (rec_payload r) (concat (map encode_rec recs) ++ tl) Hl)
      as (Hlen & Hcrc & Hdrop). unfold EDIT_RECORD_HEADER_BYTES, HEADER_SIZE in *.
    rewrite length_app, frame_length.
    destruct (Nat.ltb_spec (8 + length (rec_payload r) + length (concat (map encode_rec recs) ++ tl)) 8);
      [lia|].
    rewrite Hlen, Hcrc, Hdrop. rewrite !from_le_bytes_u32; [|done|unfold is_u32, zlen in *; lia].
    rewrite Hm. cbn [guard rbind].
    destruct (Z.ltb_spec (zlen (rec_payload r ++ concat (map encode_rec recs) ++ tl))
      (zlen (rec_payload r))) as [Hlt|_].
    { unfold zlen in Hlt. rewrite length_app in Hlt. lia. }
    unfold zlen. rewrite Nat2Z.id, take_app_length, drop_app_length, Z.eqb_refl. cbn [guard rbind].
    unfold rec_payload at 1. rewrite decode_payload_enc by done. cbn [rbind].
    rewrite IH by lia. cbn [rbind]. rewrite !length_app, frame_length.
    destruct r as [eid ops]. cbn [edit_id edit_ops]. do 2 f_equal. lia.
Qed.

Lemma edit_header_length h : length (encode_edit_header checksum h) = 32%nat.
Proof. done. Qed.

Definition header_ok (h : EditLogHeader) : bool :=
  u64b (base_applied_through h) && u64b (snapshot_generation h).

Lemma decode_edit_header_enc h rest :
  header_ok h = true -> decode_edit_header checksum (encode_edit_header checksum h ++ rest) = Ok h.
Proof.
  unfold header_ok. intros H. boolprop.
  repeat match goal with H : u64b _ = true |- _ => apply u64b_spec in H end.
  unfold decode_edit_header. rewrite length_app, edit_header_length.
  change (from_le_bytes (take 4 (encode_edit_header checksum h ++ rest)) =? ONDA09_EDIT_LOG_MAGIC) with false.
  rewrite andb_false_r. cbn [Nat.add Nat.leb EDIT_LOG_HEADER_BYTES guard rbind].
  change (beq (take 8 (encode_edit_header checksum h ++ rest)) EDIT_LOG_MAGIC) with true.
  change (slice (encode_edit_header checksum h ++ rest) 8 12) with (le_bytes 4 EDIT_LOG_SCHEMA).
  change (slice (encode_edit_header checksum h ++ rest) 28 32)
    with (le_bytes 4 (checksum (edit_header_body h))).
  change (take 28 (encode_edit_header checksum h ++ rest)) with (edit_header_body h).
  change (slice (encode_edit_header checksum h ++ rest) 12 20) with (le_bytes 8 (base_applied_through h)).
  change (slice (encode_edit_header checksum h ++ rest) 20 28) with (le_bytes 8 (snapshot_generation h)).
  rewrite (from_le_bytes_u32 (checksum _)) by done. rewrite !Z.eqb_refl.
  rewrite !(from_le_bytes_le_bytes 8). change (8 * Z.of_nat 8) with 64.
  rewrite (Z.mod_small (base_applied_through h)), (Z.mod_small (snapshot_generation h)) by done.
  by destruct h.
Qed.

Lemma records_loop_short fuel data off :
  (length data < EDIT_RECORD_HEADER_BYTES)%nat -> records_loop checksum fuel data off = Ok ([], off).
Proof.
  intros H. destruct fuel; cbn [records_loop];
    by destruct (Nat.ltb_spec (length data) EDIT_RECORD_HEADER_BYTES); [|lia].
Qed.

(** The data begins with a complete frame of [n] payload bytes. *)
Record frame_at (data : list byte) (n : nat) (eid : Z) (ops : list Op) : Prop := {
  fa_len : (EDIT_RECORD_HEADER_BYTES + n <= length data)%nat;
  fa_field : from_le_bytes (take 4 data) = Z.of_nat n;
  fa_max : Z.of_nat n <= MAX_EDIT_RECORD_BYTES;
  fa_crc : from_le_bytes (slice data 4 8) = checksum (take n (drop EDIT_RECORD_HEADER_BYTES data));
  fa_payload : decode_payload (take n (drop EDIT_RECORD_HEADER_BYTES data)) = Ok (eid, ops);
}.

Lemma frame_at_take data n eid ops k :
  frame_at data n eid ops -> (EDIT_RECORD_HEADER_BYTES + n <= k)%nat -> frame_at (take k data) n eid ops.
Proof.
  unfold EDIT_RECORD_HEADER_BYTES. intros [H1 H2 H3 H4 H5] Hk. unfold EDIT_RECORD_HEADER_BYTES in *.
  constructor; unfold slice, EDIT_RECORD_HEADER_BYTES in *;
    rewrite ?length_take, ?skipn_firstn_comm, ?take_take, ?Nat.min_l by lia; (done || lia).
Qed.

Lemma records_loop_frame fuel data off n eid ops :
  frame_at data n eid ops ->
  records_loop checksum (S fuel) data off =
  let? (recs, e) := records_loop checksum fuel (drop (EDIT_RECORD_HEADER_BYTES + n) data)
    (off + (EDIT_RECORD_HEADER_BYTES + n)) in
  Ok (mkEditRecord eid ops :: recs, e).
Proof.
  intros [H1 H2 H3 H4 H5]. cbn [records_loop].
  destruct (Nat.ltb_spec (length data) EDIT_RECORD_HEADER_BYTES); [lia|].
  rewrite H2, H4, Nat2Z.id, Z.eqb_refl, H5. destruct (Z.leb_spec (Z.of_nat n) MAX_EDIT_RECORD_BYTES); [|lia].
  destruct (Z.ltb_spec (zlen (drop EDIT_RECORD_HEADER_BYTES data)) (Z.of_nat n)) as [Hz|_].
  { unfold zlen in Hz. rewrite length_drop in Hz. lia. }
  cbn [guard rbind]. by rewrite drop_drop, Nat.add_assoc.
Qed.

Lemma records_loop_inv fuel data off recs e :
  records_loop checksum fuel data off = Ok (recs, e) -> (length data <= fuel)%nat ->
  (recs = [] /\ e = off /\ forall fuel' off', (length data <= fuel')%nat -> records_loop checksum fuel' data off' = Ok ([], off')) \/
  exists fuel' n eid ops recs', fuel = S fuel' /\ frame_at data n eid ops /\ recs = mkEditRecord eid ops :: recs' /\
    records_loop checksum fuel' (drop (EDIT_RECORD_HEADER_BYTES + n) data)
      (off + (EDIT_RECORD_HEADER_BYTES + n)) = Ok (recs', e).
Proof.
  intros E Hf. destruct (Nat.ltb_spec (length data) EDIT_RECORD_HEADER_BYTES) as [Hs|Hs].
  { left. rewrite records_loop_short in E by done. injection E as <- <-. conj_split; [done..|].
    intros. by apply records_loop_short. }
  destruct fuel as [|fuel]; [unfold EDIT_RECORD_HEADER_BYTES in Hs; lia|]. cbn [records_loop] in E.
  destruct (Nat.ltb_spec (length data) EDIT_RECORD_HEADER_BYTES) as [|_]; [lia|].
  pose proof (from_le_bytes_range (take 4 data)) as [Hnn _].
  destruct (Z.leb_spec (from_le_bytes (take 4 data)) MAX_EDIT_RECORD_BYTES) as [Hm|]; [|done]. cbn [guard rbind] in E.
  destruct (Z.ltb_spec (zlen (drop EDIT_RECORD_HEADER_BYTES data)) (from_le_bytes (take 4 data))) as [Hl|Hl].
  - left. injection E as <- <-. conj_split; [done..|]. intros [|fuel'] off' Hf'; cbn [records_loop];
      (destruct (Nat.ltb_spec (length data) EDIT_RECORD_HEADER_BYTES) as [|_]; [lia|]); [done|].
    destruct (Z.leb_spec (from_le_bytes (take 4 data)) MAX_EDIT_RECORD_BYTES); [|lia]. cbn [guard rbind].
    by destruct (Z.ltb_spec (zlen (drop EDIT_RECORD_HEADER_BYTES data)) (from_le_bytes (take 4 data))); [|lia].
  - right. destruct (Z.eqb_spec (from_le_bytes (slice data 4 8))
      (checksum (take (Z.to_nat (from_le_bytes (take 4 data))) (drop EDIT_RECORD_HEADER_BYTES data)))); [|done].
    cbn [guard rbind] in E.
    destruct (decode_payload _) as [[eid ops]|] eqn:Ed; [|done]. cbn [rbind] in E.
    rewrite drop_drop, <- Nat.add_assoc in E.
    destruct (records_loop _ fuel _ _) as [[recs' e']|] eqn:Er; [|done]. cbn [rbind] in E. injection E as <- <-.
    eexists _, _, _, _, _. conj_split; [done| |done|exact Er].
    unfold zlen in Hl. rewrite length_drop in Hl. constructor; rewrite ?Z2Nat.id by done; (done || lia).
Qed.

(** A scan is determined by the bytes up to the end it reports. *)
Lemma records_loop_stable fuel data off recs e :
  records_loop checksum fuel data off = Ok (recs, e) -> (length data <= fuel)%nat ->
  (off <= e <= off + length data)%nat /\
  forall fuel', (length data <= fuel')%nat ->
    records_loop checksum fuel' data off = Ok (recs, e) /\
    records_loop checksum fuel' (take (e - off) data) off = Ok (recs, e).
Proof.
  revert data off recs e. induction fuel as [fuel IH] using lt_wf_ind. intros data off recs e E Hf.
  destruct (records_loop_inv _ _ _ _ _ E Hf) as [(-> & -> & Hstop)|(f & n & eid & ops & recs' & -> & Hfr & -> & E')].
  - rewrite Nat.sub_diag. split; [lia|]. intros fuel' Hf'. split; [by apply Hstop|by destruct fuel'].
  - pose proof (fa_len _ _ _ _ Hfr) as Hn. unfold EDIT_RECORD_HEADER_BYTES in *.
    destruct (IH f ltac:(lia) _ _ _ _ E') as [He Hall]; [rewrite length_drop; lia|].
    rewrite length_drop in He. split; [lia|]. intros [|fuel'] Hf'; [lia|].
    destruct (Hall fuel') as [Ha Hb]; [rewrite length_drop; lia|]. split.
    + rewrite (records_loop_frame _ _ _ _ _ _ Hfr). unfold EDIT_RECORD_HEADER_BYTES. by rewrite Ha.
    + assert (8 + n <= e - off)%nat as Hk by lia.
      rewrite (records_loop_frame _ _ _ _ _ _ (frame_at_take _ _ _ _ _ Hfr Hk)).
      unfold EDIT_RECORD_HEADER_BYTES. rewrite skipn_firstn_comm.
      replace (e - off - (8 + n))%nat with (e - (off + (8 + n)))%nat by lia. by rewrite Hb.
Qed.

Lemma decode_records_enc h recs tl :
  forallb record_ok recs = true -> torn tl ->
  decode_records checksum (encode_edit_header checksum h ++ records_bytes recs ++ tl) =
  Ok (recs, length (encode_edit_header checksum h ++ records_bytes recs)).
Proof.
  intros Hok Ht. unfold decode_records, EDIT_LOG_HEADER_BYTES.
  rewrite drop_app_exact by by rewrite edit_header_length.
  rewrite records_loop_enc; [|done..|rewrite (length_app (encode_edit_header _ _)); lia].
  by rewrite length_app, edit_header_length.
Qed.
End Log.

(** ** Properties *)

(** an edit log reads back.  The bytes of a log header and of any sequence of encodable edits,
    followed by nothing or by a cut-off edit, decode to exactly that header and those edits, and the
    reported end is where the cut-off edit starts. *)
Theorem edit_log_reads_back checksum (Hck : forall b, is_u32 (checksum b)) h recs tl :
  header_ok h = true -> forallb record_ok recs = true -> torn checksum tl ->
  let bytes := encode_edit_header checksum h ++ records_bytes checksum recs in
  decode_edit_header checksum (bytes ++ tl) = Ok h /\
  decode_records checksum (bytes ++ tl) = Ok (recs, length bytes).
Proof.
  intros Hh Hok Ht bytes. unfold bytes. rewrite <- app_assoc.
  split; [by apply decode_edit_header_enc|by apply decode_records_enc].
Qed.

Definition sample_record : EditRecord :=
  mkEditRecord 8 [CreateCf [x61; x62] [x01; x02]; SetNextFileId 3; DropCf [x63]].

Lemma edit_log_reads_back_witness :
  let ck := fun _ : list byte => 7 in
  let bytes := encode_edit_header ck (mkEditLogHeader 7 2) ++ records_bytes ck [sample_record] in
  decode_records ck (bytes ++ take 11 (encode_rec ck sample_record)) = Ok ([sample_record], length bytes).
Proof.
  apply (edit_log_reads_back (fun _ => 7) ltac:(intros; split; vm_compute; congruence)
    (mkEditLogHeader 7 2) [sample_record]); [vm_compute; reflexivity..|].
  right. exists sample_record, 11%nat. split; [vm_compute; reflexivity|]. split; [vm_compute; lia|reflexivity].
Defined.

(** the scan of an edit log, on arbitrary bytes.  The bound on its iterations is never reached, so
    any larger one gives the same answer; when it succeeds, the end it reports lies within the file, and
    the file truncated there, which is how it is reopened for appending, scans to the same edits. *)
Theorem edit_scan_total_and_stable checksum data recs e fuel :
  (EDIT_LOG_HEADER_BYTES <= length data <= fuel)%nat -> decode_records checksum data = Ok (recs, e) ->
  records_loop checksum fuel (drop EDIT_LOG_HEADER_BYTES data) EDIT_LOG_HEADER_BYTES = Ok (recs, e) /\
  (EDIT_LOG_HEADER_BYTES <= e <= length data)%nat /\
  decode_records checksum (take e data) = Ok (recs, e).
Proof.
  unfold decode_records. intros Hf E.
  destruct (records_loop_stable _ _ _ _ _ _ E) as [He Hall]; [rewrite length_drop; lia|].
  rewrite length_drop in *. destruct (Hall fuel ltac:(lia)) as [Ha _]. conj_split; [done|lia..|].
  rewrite skipn_firstn_comm, length_take, Nat.min_l by lia.
  assert (length (take (e - EDIT_LOG_HEADER_BYTES) (drop EDIT_LOG_HEADER_BYTES data)) <= e)%nat as Hl
    by (rewrite length_take; lia).
  destruct (Hall (length data) ltac:(lia)) as [_ Hb].
  destruct (records_loop_stable _ _ _ _ _ _ Hb) as [_ Hc]; [rewrite length_take, length_drop; lia|].
  by apply (Hc e).
Qed.

Lemma edit_scan_total_and_stable_witness :
  let ck := fun _ : list byte => 7 in
  let bytes := encode_edit_header ck (mkEditLogHeader 7 2) ++ records_bytes ck [sample_record] in
  decode_records ck (take (length bytes) (bytes ++ [x01; x02])) = Ok ([sample_record], length bytes).
Proof.
  apply (edit_scan_total_and_stable (fun _ => 7)
    ((encode_edit_header (fun _ => 7) (mkEditLogHeader 7 2) ++ records_bytes (fun _ => 7) [sample_record]) ++ [x01; x02])
    [sample_record] _ 1000%nat); [split; vm_compute; lia|vm_compute; reflexivity].
Defined.
