(* ===== verification/Catalog.v ===== *)
(** * Applying, replaying and recovering catalog edits (manifest_edit.rs, db.rs)

    Validation of an edit against a candidate index (built lazily for one edit,
    eagerly for a replay), the mutation pass, the replayer that keeps its index
    across records, snapshot compaction and recovery.  The last part is the
    catalog as a transition system over what is on disk, with a crash allowed
    between any two steps of the protocol.  What a transaction publishes in
    memory is a parameter there, as it is in the code: [catalog_txn] takes the
    edit and the closure that publishes as two arguments. *)

From Stdlib Require Import ZArith Lia.
From Stdlib.Strings Require Import Byte.
From stdpp Require Import base list gmap relations.
From S2P Require Import Prelude Encoding Codec Comparator Format Wal Manifest.

Open Scope Z_scope.

(** ** The candidate index *)

Record CfState := mkCfState { exists_ : bool; tables : gmap Z Z }.

(** [cf.sstables.iter().map(|s| (s.id, s.level)).collect()]. *)
Definition index_tables (l : list SstMeta) : gmap Z Z :=
  fold_left (fun m s => <[id s := level s]> m) l ∅.

Definition absent : CfState := mkCfState false ∅.

Definition index_cf (cf : CfManifest) : CfState := mkCfState true (index_tables (sstables cf)).

Definition find_cf (m : Manifest) (name : list byte) : option CfManifest :=
  List.find (fun c => bool_decide (cf_name c = name)) (cfs m).

Record Candidate := mkCandidate {
  seed : option Manifest;
  c_cfs : gmap (list byte) CfState;
  c_next_file_id : Z;
  c_global_seq : Z;
  c_wal_layout : WalLayout;
  c_instance_nonce : option Z;
  c_caps : Z;
  c_wal_floor : Z;
}.

Definition scalars (sd : option Manifest) (cs : gmap (list byte) CfState) (m : Manifest) : Candidate :=
  mkCandidate sd cs (next_file_id m) (global_seq m) (wal_layout m) (instance_nonce m) (caps m)
    (wal_floor m).

Definition lazy_candidate (m : Manifest) : Candidate := scalars (Some m) ∅ m.

Definition eager_candidate (m : Manifest) : Candidate :=
  scalars None (fold_left (fun acc c => <[cf_name c := index_cf c]> acc) (cfs m) ∅) m.

(** [Candidate::cf]: the entry, seeded on first touch. *)
Definition cand_cf (c : Candidate) (name : list byte) : CfState :=
  match c_cfs c !! name with
  | Some st => st
  | None =>
      match seed c ≫= fun m => find_cf m name with
      | Some cf => index_cf cf
      | None => absent
      end
  end.

Definition set_cf (c : Candidate) (name : list byte) (st : CfState) : Candidate :=
  mkCandidate (seed c) (<[name := st]> (c_cfs c)) (c_next_file_id c) (c_global_seq c)
    (c_wal_layout c) (c_instance_nonce c) (c_caps c) (c_wal_floor c).

(** Only the scalars change. *)
Definition set_scalars (c : Candidate) (nf gs : Z) (wl : WalLayout) (nonce : option Z) (cp wf : Z)
    : Candidate :=
  mkCandidate (seed c) (c_cfs c) nf gs wl nonce cp wf.

(** ** Validation *)

(** The loop of [RemoveTables]. *)
Fixpoint remove_ids (t : gmap Z Z) (ids : list Z) : result (gmap Z Z) :=
  match ids with
  | [] => Ok t
  | i :: ids => if t !! i is Some _ then remove_ids (delete i t) ids else Err Corruption
  end.

Definition validate_op (c : Candidate) (op : Op) : result Candidate :=
  match op with
  | AddTable cf meta =>
      let st := cand_cf c cf in
      ensure? exists_ st else Corruption ;;
      ensure? bool_decide (tables st !! id meta = None) else Corruption ;;
      Ok (set_cf c cf (mkCfState true (<[id meta := level meta]> (tables st))))
  | RemoveTable cf i lvl =>
      let st := cand_cf c cf in
      match tables st !! i with
      | None => Err Corruption
      | Some l =>
          ensure? l =? lvl else Corruption ;;
          Ok (set_cf c cf (mkCfState (exists_ st) (delete i (tables st))))
      end
  | UpdateTable cf i u =>
      ensure? negb (mask u =? 0) else Corruption ;;
      let st := cand_cf c cf in
      match tables st !! i with
      | None => Err Corruption
      | Some l =>
          Ok (set_cf c cf (mkCfState (exists_ st) (<[i := default l (u_level u)]> (tables st))))
      end
  | CreateCf name _ =>
      ensure? negb (exists_ (cand_cf c name)) else Corruption ;;
      Ok (set_cf c name (mkCfState true ∅))
  | DropCf name =>
      let st := cand_cf c name in
      ensure? exists_ st else Corruption ;;
      ensure? bool_decide (tables st = ∅) else Corruption ;;
      Ok (set_cf c name (mkCfState false (tables st)))
  | SetCfConfig name _ | SetCfUnifiedId name _ =>
      let st := cand_cf c name in
      ensure? exists_ st else Corruption ;;
      Ok (set_cf c name st)
  | SetNextFileId v =>
      ensure? negb (v <? c_next_file_id c) else Corruption ;;
      Ok (set_scalars c v (c_global_seq c) (c_wal_layout c) (c_instance_nonce c) (c_caps c) (c_wal_floor c))
  | SetGlobalSeq v =>
      ensure? negb (v <? c_global_seq c) else Corruption ;;
      Ok (set_scalars c (c_next_file_id c) v (c_wal_layout c) (c_instance_nonce c) (c_caps c) (c_wal_floor c))
  | SetWalLayout l =>
      ensure? negb (bool_decide (l <> Unified) || bool_decide (c_wal_layout c = Unified)) else Corruption ;;
      Ok (set_scalars c (c_next_file_id c) (c_global_seq c) Unified (c_instance_nonce c) (c_caps c)
            (c_wal_floor c))
  | SetNonce n =>
      ensure? bool_decide (c_instance_nonce c = None) else Corruption ;;
      Ok (set_scalars c (c_next_file_id c) (c_global_seq c) (c_wal_layout c) (Some n) (c_caps c)
            (c_wal_floor c))
  | SetCapability bits =>
      let? _ := check_caps bits in
      Ok (set_scalars c (c_next_file_id c) (c_global_seq c) (c_wal_layout c) (c_instance_nonce c)
            (Z.lor (c_caps c) bits) (c_wal_floor c))
  | SetWalFloor g =>
      ensure? has_bit (c_caps c) CAP_WAL_FLOOR else Corruption ;;
      ensure? bool_decide (c_wal_layout c = Unified) else Corruption ;;
      ensure? negb (g <=? c_wal_floor c) else Corruption ;;
      Ok (set_scalars c (c_next_file_id c) (c_global_seq c) (c_wal_layout c) (c_instance_nonce c)
            (c_caps c) g)
  | RemoveTables cf ids =>
      let st := cand_cf c cf in
      let? t := remove_ids (tables st) ids in
      Ok (set_cf c cf (mkCfState (exists_ st) t))
  end.

Fixpoint validate_ops (c : Candidate) (ops : list Op) : result Candidate :=
  match ops with
  | [] => Ok c
  | op :: ops => let? c := validate_op c op in validate_ops c ops
  end.

(** ** Mutation *)

Definition with_cfs (m : Manifest) (l : list CfManifest) : Manifest :=
  mkManifest (next_file_id m) (global_seq m) l (wal_layout m) (instance_nonce m) (caps m)
    (generation_ m) (applied_through m) (next_edit_id m) (wal_floor m).

(** [m.cfs[i]] for the first family of that name ([cf_index]), updated. *)
Fixpoint update_first {A} (p : A -> bool) (f : A -> A) (l : list A) : list A :=
  match l with
  | [] => []
  | x :: l => if p x then f x :: l else x :: update_first p f l
  end.

Definition update_cf (m : Manifest) (name : list byte) (f : CfManifest -> CfManifest) : Manifest :=
  with_cfs m (update_first (fun c => bool_decide (cf_name c = name)) f (cfs m)).

Definition with_tables (f : list SstMeta -> list SstMeta) (c : CfManifest) : CfManifest :=
  mkCf (cf_name c) (cf_config c) (f (sstables c)) (unified_id c).

(** [unified::cf_id]. *)
Definition cf_id (name : list byte) : Z := fnv1a64 name.

Definition mutate (m : Manifest) (op : Op) : Manifest :=
  match op with
  | AddTable cf meta =>
      update_cf m cf (with_tables (fun l => if level meta =? 0 then meta :: l else l ++ [meta]))
  | RemoveTable cf i _ =>
      update_cf m cf (with_tables (List.filter (fun s => negb (id s =? i))))
  | UpdateTable cf i u =>
      update_cf m cf (with_tables (update_first (fun s => id s =? i) (apply_to u)))
  | CreateCf name config => with_cfs m (cfs m ++ [mkCf name config [] None])
  | DropCf name => with_cfs m (List.filter (fun c => negb (bool_decide (cf_name c = name))) (cfs m))
  | SetCfConfig name config =>
      update_cf m name (fun c => mkCf (cf_name c) config (sstables c) (unified_id c))
  | SetNextFileId v =>
      mkManifest v (global_seq m) (cfs m) (wal_layout m) (instance_nonce m) (caps m) (generation_ m)
        (applied_through m) (next_edit_id m) (wal_floor m)
  | SetGlobalSeq v =>
      mkManifest (next_file_id m) v (cfs m) (wal_layout m) (instance_nonce m) (caps m) (generation_ m)
        (applied_through m) (next_edit_id m) (wal_floor m)
  | SetWalLayout l =>
      mkManifest (next_file_id m) (global_seq m) (cfs m) l (instance_nonce m) (caps m) (generation_ m)
        (applied_through m) (next_edit_id m) (wal_floor m)
  | SetNonce n =>
      mkManifest (next_file_id m) (global_seq m) (cfs m) (wal_layout m) (Some n) (caps m) (generation_ m)
        (applied_through m) (next_edit_id m) (wal_floor m)
  | SetCapability bits =>
      mkManifest (next_file_id m) (global_seq m) (cfs m) (wal_layout m) (instance_nonce m)
        (Z.lor (caps m) bits) (generation_ m) (applied_through m) (next_edit_id m) (wal_floor m)
  | SetWalFloor g =>
      mkManifest (next_file_id m) (global_seq m) (cfs m) (wal_layout m) (instance_nonce m) (caps m)
        (generation_ m) (applied_through m) (next_edit_id m) g
  | RemoveTables cf ids =>
      update_cf m cf (with_tables (List.filter (fun s => negb (bool_decide (id s ∈ ids)))))
  | SetCfUnifiedId name i =>
      update_cf m name (fun c => mkCf (cf_name c) (cf_config c) (sstables c)
        (if i =? cf_id name then None else Some i))
  end.

Definition mutate_ops (m : Manifest) (ops : list Op) : Manifest := fold_left mutate ops m.

Definition apply_edit (m : Manifest) (ops : list Op) : result Manifest :=
  let? _ := validate_ops (lazy_candidate m) ops in Ok (mutate_ops m ops).

(** ** The replayer *)

Record CatalogReplayer := mkReplayer { r_manifest : Manifest; r_candidate : Candidate }.

Definition replayer_new (m : Manifest) : CatalogReplayer := mkReplayer m (eager_candidate m).

Definition replayer_apply (r : CatalogReplayer) (ops : list Op) : result CatalogReplayer :=
  let? c := validate_ops (r_candidate r) ops in
  Ok (mkReplayer (mutate_ops (r_manifest r) ops) c).

(** ** Recovery *)

(** [reconciled]: the allocators dominate what the catalog references. *)
Definition max_over (f : SstMeta -> Z) (m : Manifest) : Z :=
  fold_left (fun acc cf => fold_left (fun acc s => Z.max acc (f s)) (sstables cf) acc) (cfs m) 0.

Definition reconciled (m : Manifest) : Manifest :=
  mkManifest (Z.max (next_file_id m) (wrap64 (max_over id m + 1))) (Z.max (global_seq m) (max_over max_seq m))
    (cfs m) (wal_layout m) (instance_nonce m) (caps m) (generation_ m) (applied_through m)
    (next_edit_id m) (wal_floor m).

Definition with_cursor (m : Manifest) (at_ : Z) : Manifest :=
  mkManifest (next_file_id m) (global_seq m) (cfs m) (wal_layout m) (instance_nonce m) (caps m)
    (generation_ m) at_ (wrap64 (at_ + 1)) (wal_floor m).

(** The replay loop of [recover_catalog]; [expected] is [base + 1 + i], a [u64]. *)
Fixpoint recover_loop (expected snapshot_at : Z) (recs : list EditRecord) (r : CatalogReplayer) (at_ : Z)
    : result (CatalogReplayer * Z) :=
  match recs with
  | [] => Ok (r, at_)
  | rec :: recs =>
      ensure? edit_id rec =? expected else Corruption ;;
      if edit_id rec <=? snapshot_at then recover_loop (wrap64 (expected + 1)) snapshot_at recs r at_
      else
        let? r := replayer_apply r (edit_ops rec) in
        recover_loop (wrap64 (expected + 1)) snapshot_at recs r (edit_id rec)
  end.

(** [recover_catalog], on the snapshot as loaded and the log's bytes. *)
Definition recover_catalog (checksum : list byte -> Z) (m : Manifest) (log : option (list byte))
    : result Manifest :=
  match log with
  | None => Ok (reconciled m)
  | Some data =>
      ensure? has_bit (caps m) CAP_MANIFEST_EDITS else Corruption ;;
      let? header := decode_edit_header checksum data in
      ensure? negb (applied_through m <? base_applied_through header) else Corruption ;;
      let? (records, _) := decode_records checksum data in
      let? (r, at_) :=
        recover_loop (wrap64 (base_applied_through header + 1)) (applied_through m) records (replayer_new m)
          (applied_through m) in
      Ok (reconciled (with_cursor (r_manifest r) at_))
  end.

(** [compact_snapshot]: the snapshot of steps 1-2 and the log of steps 3-4. *)
Definition compacted (m : Manifest) (at_ : Z) : Manifest :=
  let m := with_cursor m at_ in
  mkManifest (next_file_id m) (global_seq m) (cfs m) (wal_layout m) (instance_nonce m) (caps m)
    (wrap64 (generation_ m + 1)) (applied_through m) (next_edit_id m) (wal_floor m).

Definition fresh_log (checksum : list byte -> Z) (m : Manifest) : list byte :=
  encode_edit_header checksum (mkEditLogHeader (applied_through m) (generation_ m)).

(** [snapshot_due]. *)
Definition SNAPSHOT_MIN_EDIT_BYTES : Z := Z.shiftl 4 20.
Definition MAX_EDITS_BEFORE_SNAPSHOT : Z := 4096.
Definition snapshot_due (edit_bytes edit_count snapshot_bytes : Z) : bool :=
  (Z.max SNAPSHOT_MIN_EDIT_BYTES snapshot_bytes <? edit_bytes)
  || (MAX_EDITS_BEFORE_SNAPSHOT <? edit_count).

(** ** The catalog is well formed: family names, and table ids within a
    family, are unique *)

Definition cf_wf (c : CfManifest) : Prop := NoDup (map id (sstables c)).
Definition cat_wf (m : Manifest) : Prop := NoDup (map cf_name (cfs m)) /\ Forall cf_wf (cfs m).

(** The index entry a catalog has for a name. *)
Definition index_name (m : Manifest) (name : list byte) : CfState :=
  match find_cf m name with Some cf => index_cf cf | None => absent end.

(** A candidate that describes a catalog. *)
Record tracks (c : Candidate) (m : Manifest) : Prop := {
  tr_cf : forall name, cand_cf c name = index_name m name;
  tr_nf : c_next_file_id c = next_file_id m;
  tr_gs : c_global_seq c = global_seq m;
  tr_wl : c_wal_layout c = wal_layout m;
  tr_nonce : c_instance_nonce c = instance_nonce m;
  tr_caps : c_caps c = caps m;
  tr_floor : c_wal_floor c = wal_floor m;
}.

(** ** Lemmas: the table index *)

Lemma index_tables_acc l (acc : gmap Z Z) i v :
  NoDup (map id l) ->
  fold_left (fun m s => <[id s := level s]> m) l acc !! i = Some v <->
  (exists s, s ∈ l /\ id s = i /\ level s = v) \/
  (acc !! i = Some v /\ forall s, s ∈ l -> id s <> i).
Proof.
  revert acc. induction l as [|s l IH]; intros acc Hnd; cbn [fold_left].
  - split; [intros H; right; split; [done|set_solver]|]. intros [(s & Hs & _)|[H _]]; [set_solver|done].
  - cbn in Hnd. apply NoDup_cons in Hnd as [Hn Hnd]. rewrite IH by done.
    rewrite lookup_insert_Some. split.
    + intros [(s' & Hs & ?)|[[[<- <-]|[? ?]] Hf]]; [left; exists s'; set_solver|left; exists s; set_solver|].
      right. split; [done|]. intros s' Hs'. apply elem_of_cons in Hs' as [->|Hs']; auto.
    + intros [(s' & Hs & He & Hv)|[Ha Hf]].
      * apply elem_of_cons in Hs as [->|Hs]; [|left; eauto]. right. split; [by left|].
        intros s' Hs' E. apply Hn. apply elem_of_map. exists s'. split; [done|congruence].
      * right. split; [right; split; [apply Hf; by left|done]|]. intros s' Hs'. apply Hf. by right.
Qed.

Lemma index_lookup l i v :
  NoDup (map id l) ->
  index_tables l !! i = Some v <-> exists s, s ∈ l /\ id s = i /\ level s = v.
Proof.
  intros H. unfold index_tables. rewrite index_tables_acc by done. rewrite lookup_empty. naive_solver.
Qed.

Lemma index_lookup_None l i :
  NoDup (map id l) -> index_tables l !! i = None <-> forall s, s ∈ l -> id s <> i.
Proof.
  intros H. split.
  - intros Hn s Hs E. assert (index_tables l !! i = Some (level s)) by (apply index_lookup; eauto).
    congruence.
  - intros Hf. destruct (index_tables l !! i) as [v|] eqn:E; [|done].
    apply index_lookup in E as (s & Hs & Hi & _); [|done]. by destruct (Hf s Hs).
Qed.

(** Two index maps agree when they hold the same pairs. *)
Lemma index_eq l (t : gmap Z Z) :
  NoDup (map id l) -> (forall i v, (exists s, s ∈ l /\ id s = i /\ level s = v) <-> t !! i = Some v) ->
  index_tables l = t.
Proof.
  intros Hn H. apply map_eq. intros i. apply option_eq. intros v. rewrite index_lookup by done. apply H.
Qed.

(** Ids are unique, so a table is known by its id. *)
Lemma table_unique l s s' : NoDup (map id l) -> s ∈ l -> s' ∈ l -> id s = id s' -> s = s'.
Proof.
  induction l as [|x l IH]; cbn; intros Hn Hs Hs' E; [set_solver|].
  apply NoDup_cons in Hn as [Hx Hn].
  assert (Hf : forall y, y ∈ l -> id x <> id y)
    by (intros y Hy Ey; apply Hx, elem_of_map; exists y; by split).
  apply elem_of_cons in Hs as [Es|Hs]; apply elem_of_cons in Hs' as [Es'|Hs'].
  - congruence.
  - subst s. by destruct (Hf s').
  - subst s'. by destruct (Hf s).
  - by apply IH.
Qed.

Lemma index_add l meta (front : bool) :
  NoDup (map id l) -> index_tables l !! id meta = None ->
  let l' := if front then meta :: l else l ++ [meta] in
  NoDup (map id l') /\ index_tables l' = <[id meta := level meta]> (index_tables l).
Proof.
  intros Hn Hf l'. rewrite index_lookup_None in Hf by done.
  assert (Hp : l' ≡ₚ meta :: l) by (unfold l'; destruct front; [done|by rewrite Permutation_app_comm]).
  assert (Hn' : NoDup (map id l')).
  { change (NoDup (id <$> l')). rewrite Hp. cbn. apply NoDup_cons. split; [|done].
    intros Hi. apply elem_of_map in Hi as (s & Hs & E). by apply (Hf s). }
  split; [done|]. apply index_eq; [done|]. intros i v. rewrite lookup_insert_Some. setoid_rewrite Hp.
  split.
  - intros (s & Hs & Hi & Hv). apply elem_of_cons in Hs as [->|Hs]; [by left|].
    right. split; [rewrite <- Hi; intros E; by apply (Hf s)|]. apply index_lookup; eauto.
  - intros [[Hi Hv]|[Hne Hl]]; [exists meta; set_solver|].
    apply index_lookup in Hl as (s & Hs & ?); [|done]. exists s. set_solver.
Qed.

(** Removing the tables a test rejects. *)
Lemma index_filter l (p : SstMeta -> bool) (t : gmap Z Z) :
  NoDup (map id l) ->
  (forall i v, t !! i = Some v <-> exists s, s ∈ l /\ id s = i /\ level s = v /\ p s = true) ->
  NoDup (map id (List.filter p l)) /\ index_tables (List.filter p l) = t.
Proof.
  intros Hn Ht.
  assert (Hn' : NoDup (map id (List.filter p l))).
  { clear Ht. induction l as [|s l IH]; cbn in *; [done|]. apply NoDup_cons in Hn as [Hs Hn].
    destruct (p s); [|by apply IH]. cbn. apply NoDup_cons. split; [|by apply IH].
    intros Hi. apply Hs. apply elem_of_map in Hi as (s' & Hs' & E). apply elem_of_lfilter in Hs' as [? _].
    apply elem_of_map. eauto. }
  split; [done|]. apply index_eq; [done|]. intros i v. rewrite Ht. setoid_rewrite elem_of_lfilter.
  naive_solver.
Qed.

Lemma index_remove l i :
  NoDup (map id l) ->
  let l' := List.filter (fun s => negb (id s =? i)) l in
  NoDup (map id l') /\ index_tables l' = delete i (index_tables l).
Proof.
  intros Hn. apply index_filter; [done|]. intros j v. rewrite lookup_delete_Some, index_lookup by done.
  split.
  - intros (Hne & s & Hs & Hi & Hv). exists s. conj_split; [done..|]. apply negb_true_iff, Z.eqb_neq. congruence.
  - intros (s & Hs & Hi & Hv & Hp). apply negb_true_iff, Z.eqb_neq in Hp. split; [congruence|eauto].
Qed.

Lemma remove_ids_lookup (t t' : gmap Z Z) ids :
  remove_ids t ids = Ok t' -> forall i v, t' !! i = Some v <-> t !! i = Some v /\ i ∉ ids.
Proof.
  revert t. induction ids as [|j ids IH]; intros t H i v; cbn in H.
  - injection H as <-. set_solver.
  - destruct (t !! j) eqn:E; [|done]. rewrite (IH _ H), lookup_delete_Some. set_solver.
Qed.

Lemma index_remove_many l ids t :
  NoDup (map id l) -> remove_ids (index_tables l) ids = Ok t ->
  let l' := List.filter (fun s => negb (bool_decide (id s ∈ ids))) l in
  NoDup (map id l') /\ index_tables l' = t.
Proof.
  intros Hn Ht. apply index_filter; [done|]. intros i v.
  rewrite (remove_ids_lookup _ _ _ Ht), index_lookup by done. split.
  - intros ((s & Hs & Hi & Hv) & Hni). exists s. conj_split; [done..|].
    apply negb_true_iff, bool_decide_eq_false. congruence.
  - intros (s & Hs & Hi & Hv & Hp). apply negb_true_iff, bool_decide_eq_false in Hp.
    split; [eauto|congruence].
Qed.

Lemma update_first_ids l i u :
  map id (update_first (fun s => id s =? i) (apply_to u) l) = map id l.
Proof.
  induction l as [|s l IH]; cbn; [done|]. destruct (id s =? i); cbn; [done|]. by rewrite IH.
Qed.

Lemma update_first_elem l i u s' :
  NoDup (map id l) ->
  s' ∈ update_first (fun s => id s =? i) (apply_to u) l <->
  (exists s, s ∈ l /\ id s = i /\ s' = apply_to u s) \/ (s' ∈ l /\ id s' <> i).
Proof.
  induction l as [|s l IH]; cbn; intros Hn; [set_solver|].
  apply NoDup_cons in Hn as [Hs Hn]. specialize (IH Hn). destruct (Z.eqb_spec (id s) i) as [E|E].
  - assert (Hf : forall y, y ∈ l -> id y <> i)
      by (intros y Hy Ey; apply Hs, elem_of_map; exists y; split; [done|congruence]).
    rewrite !elem_of_cons. split.
    + intros [->|H]; [left; exists s; set_solver|]. right. split; [by right|]. by apply Hf.
    + intros [(y & Hy & Ey & ->)|[[->|Hy] Hne]]; [|done|by right].
      apply elem_of_cons in Hy as [->|Hy]; [by left|]. by destruct (Hf y).
  - rewrite !elem_of_cons, IH. set_solver.
Qed.

Lemma index_update l i u lvl :
  NoDup (map id l) -> index_tables l !! i = Some lvl ->
  let l' := update_first (fun s => id s =? i) (apply_to u) l in
  NoDup (map id l') /\ index_tables l' = <[i := default lvl (u_level u)]> (index_tables l).
Proof.
  intros Hn Hl l'. assert (Hn' : NoDup (map id l')) by (unfold l'; by rewrite update_first_ids).
  split; [done|]. apply index_lookup in Hl as (s0 & Hs0 & Hi0 & Hv0); [|done].
  apply index_eq; [done|]. intros j v. rewrite lookup_insert_Some. unfold l'.
  setoid_rewrite update_first_elem; [|done]. split.
  - intros (s' & [(s & Hs & Hi & ->)|[Hs Hne]] & Hj & Hv).
    + left. assert (s = s0) as -> by (by apply (table_unique l); [..|congruence]).
      cbn in Hj, Hv. split; [congruence|]. by rewrite <- Hv, Hv0.
    + right. split; [congruence|]. apply index_lookup; eauto.
  - intros [[<- <-]|[Hne Hj]].
    + exists (apply_to u s0). split; [left; eauto|]. cbn. by rewrite Hv0.
    + apply index_lookup in Hj as (s & Hs & Hj & Hv); [|done]. exists s. split; [|done].
      right. split; [done|congruence].
Qed.

(** ** Lemmas: families *)

Lemma find_update_first f name n l :
  (forall c, cf_name (f c) = cf_name c) ->
  List.find (fun c => bool_decide (cf_name c = n))
    (update_first (fun c => bool_decide (cf_name c = name)) f l) =
  if decide (n = name) then f <$> List.find (fun c => bool_decide (cf_name c = name)) l
  else List.find (fun c => bool_decide (cf_name c = n)) l.
Proof.
  intros Hf. induction l as [|c l IH]; cbn; [by destruct (decide (n = name))|].
  destruct (bool_decide_reflect (cf_name c = name)) as [E|E]; cbn.
  - rewrite Hf. destruct (bool_decide_reflect (cf_name c = n)) as [E'|E'], (decide (n = name)); congruence.
  - rewrite IH. destruct (bool_decide_reflect (cf_name c = n)) as [E'|E'], (decide (n = name)); congruence.
Qed.

Lemma find_cf_update m name f n :
  (forall c, cf_name (f c) = cf_name c) ->
  find_cf (update_cf m name f) n = if decide (n = name) then f <$> find_cf m name else find_cf m n.
Proof. apply find_update_first. Qed.

Lemma find_cf_elem m name c : find_cf m name = Some c -> c ∈ cfs m /\ cf_name c = name.
Proof.
  unfold find_cf. intros H. apply find_some in H as [Hi Hb]. boolprop. split; [|done].
  by apply list_elem_of_In.
Qed.

Lemma update_first_names f name l :
  (forall c, cf_name (f c) = cf_name c) ->
  map cf_name (update_first (fun c => bool_decide (cf_name c = name)) f l) = map cf_name l.
Proof.
  intros Hf. induction l as [|c l IH]; cbn; [done|].
  destruct (bool_decide _); cbn; [by rewrite Hf|]. by rewrite IH.
Qed.

Lemma cat_wf_update m name f :
  (forall c, cf_name (f c) = cf_name c) ->
  (forall c, find_cf m name = Some c -> cf_wf c -> cf_wf (f c)) ->
  cat_wf m -> cat_wf (update_cf m name f).
Proof.
  intros Hn Hf [Hnd HF]. split.
  - unfold update_cf. cbn. by rewrite update_first_names.
  - unfold update_cf, find_cf in *. cbn in *. clear Hnd. induction HF as [|c l Hc HF IH]; cbn in *; [done|].
    destruct (bool_decide (cf_name c = name)); constructor; auto.
Qed.

Lemma find_cf_create m name config n :
  find_cf m name = None ->
  find_cf (with_cfs m (cfs m ++ [mkCf name config [] None])) n =
  if decide (n = name) then Some (mkCf name config [] None) else find_cf m n.
Proof.
  unfold find_cf. cbn. induction (cfs m) as [|c l IH]; cbn; intros Hn.
  - destruct (bool_decide_reflect (name = n)), (decide (n = name)); congruence.
  - destruct (bool_decide_reflect (cf_name c = name)) as [E|E]; [done|].
    rewrite IH by done. destruct (bool_decide_reflect (cf_name c = n)), (decide (n = name)); congruence.
Qed.

Lemma find_cf_drop m name n :
  find_cf (with_cfs m (List.filter (fun c => negb (bool_decide (cf_name c = name))) (cfs m))) n =
  if decide (n = name) then None else find_cf m n.
Proof.
  unfold find_cf. cbn. induction (cfs m) as [|c l IH]; cbn; [by destruct (decide (n = name))|].
  destruct (bool_decide_reflect (cf_name c = name)) as [E|E]; cbn.
  - rewrite IH. destruct (bool_decide_reflect (cf_name c = n)), (decide (n = name)); congruence.
  - destruct (bool_decide_reflect (cf_name c = n)), (decide (n = name)); congruence.
Qed.

Lemma find_cf_None m name : find_cf m name = None -> name ∉ map cf_name (cfs m).
Proof.
  unfold find_cf. intros H Hi. apply elem_of_map in Hi as (c & Hc & E).
  apply (find_none _ _ H) in Hc || (apply list_elem_of_In in Hc; apply (find_none _ _ H) in Hc).
  boolprop. done.
Qed.

Lemma cat_wf_create m name config :
  find_cf m name = None -> cat_wf m -> cat_wf (with_cfs m (cfs m ++ [mkCf name config [] None])).
Proof.
  intros Hn [Hnd HF]. apply find_cf_None in Hn. split; cbn.
  - rewrite map_app. cbn. rewrite Permutation_app_comm. cbn. by apply NoDup_cons.
  - apply Forall_app. split; [done|]. constructor; [|done]. constructor.
Qed.

Lemma cat_wf_drop m name :
  cat_wf m -> cat_wf (with_cfs m (List.filter (fun c => negb (bool_decide (cf_name c = name))) (cfs m))).
Proof.
  intros [Hnd HF]. split; cbn.
  - induction (cfs m) as [|c l IH]; cbn in *; [done|]. apply NoDup_cons in Hnd as [Hc Hnd].
    apply Forall_cons in HF as [_ HF]. destruct (negb _); [|by apply IH]. cbn. apply NoDup_cons.
    split; [|by apply IH]. intros Hi. apply Hc. apply elem_of_map in Hi as (c' & Hc' & E).
    apply elem_of_lfilter in Hc' as [? _]. apply elem_of_map. eauto.
  - rewrite Forall_forall in *. intros c Hc. apply elem_of_lfilter in Hc as [? _]. auto.
Qed.

Lemma cand_cf_set c name st n : cand_cf (set_cf c name st) n = if decide (n = name) then st else cand_cf c n.
Proof.
  unfold cand_cf. cbn. destruct (decide (n = name)) as [->|Hne]; [by rewrite lookup_insert_eq|].
  by rewrite lookup_insert_ne.
Qed.

(** Changing one family of the candidate and of the catalog alike. *)
Lemma tracks_set c m m' name st :
  tracks c m ->
  (forall n, index_name m' n = if decide (n = name) then st else index_name m n) ->
  next_file_id m' = next_file_id m -> global_seq m' = global_seq m -> wal_layout m' = wal_layout m ->
  instance_nonce m' = instance_nonce m -> caps m' = caps m -> wal_floor m' = wal_floor m ->
  tracks (set_cf c name st) m'.
Proof.
  intros [Hcf H1 H2 H3 H4 H5 H6] Hix E1 E2 E3 E4 E5 E6. constructor; cbn; try congruence.
  intros n. rewrite cand_cf_set, Hix. by destruct (decide (n = name)).
Qed.

(** A change of one existing family's tables, seen through the index. *)
Lemma tracks_tables c m name f cf st :
  tracks c m -> cat_wf m -> find_cf m name = Some cf ->
  NoDup (map id (f (sstables cf))) -> st = mkCfState true (index_tables (f (sstables cf))) ->
  tracks (set_cf c name st) (update_cf m name (with_tables f)) /\
  cat_wf (update_cf m name (with_tables f)).
Proof.
  intros Ht Hwf Hcf Hn ->. split.
  - eapply tracks_set; try done. intros n. unfold index_name.
    rewrite find_cf_update by done. destruct (decide (n = name)); [by rewrite Hcf|done].
  - apply cat_wf_update; [done| |done]. intros c' Hc' _. rewrite Hcf in Hc'. by injection Hc' as <-.
Qed.

(** A change that leaves every index entry alone. *)
Lemma tracks_same c m name f :
  tracks c m -> cat_wf m -> (forall cf, cf_name (f cf) = cf_name cf) ->
  (forall cf, sstables (f cf) = sstables cf) ->
  tracks (set_cf c name (cand_cf c name)) (update_cf m name f) /\ cat_wf (update_cf m name f).
Proof.
  intros Ht Hwf Hn Hs. split.
  - eapply tracks_set; try done. intros n. rewrite (tr_cf _ _ Ht). unfold index_name.
    rewrite find_cf_update by done. destruct (decide (n = name)) as [->|]; [|done].
    destruct (find_cf m name); cbn; [|done]. unfold index_cf. by rewrite Hs.
  - apply cat_wf_update; [done| |done]. intros cf _. unfold cf_wf. by rewrite Hs.
Qed.

(** An existing entry comes from a family of the catalog. *)
Lemma tracks_exists c m name :
  tracks c m -> exists_ (cand_cf c name) = true ->
  exists cf, find_cf m name = Some cf /\ cand_cf c name = index_cf cf.
Proof.
  intros Ht. rewrite (tr_cf _ _ Ht). unfold index_name. destruct (find_cf m name) as [cf|]; [|done]. eauto.
Qed.

Lemma tracks_table c m name i lvl :
  tracks c m -> tables (cand_cf c name) !! i = Some lvl ->
  exists cf, find_cf m name = Some cf /\ cand_cf c name = index_cf cf.
Proof.
  intros Ht. rewrite (tr_cf _ _ Ht). unfold index_name. destruct (find_cf m name) as [cf|]; [|done]. eauto.
Qed.

Lemma cat_wf_cf m name cf : cat_wf m -> find_cf m name = Some cf -> NoDup (map id (sstables cf)).
Proof. intros [_ HF] H. apply find_cf_elem in H as [H _]. rewrite Forall_forall in HF. by apply HF. Qed.

(** Removing no table from a family that does not exist changes nothing. *)
Lemma tracks_absent c m name f :
  tracks c m -> cat_wf m -> find_cf m name = None ->
  tracks (set_cf c name absent) (update_cf m name (with_tables f)) /\ cat_wf (update_cf m name (with_tables f)).
Proof.
  intros Ht Hwf Hn. split.
  - eapply tracks_set; try done. intros n. unfold index_name. rewrite find_cf_update by done.
    destruct (decide (n = name)); [by rewrite Hn|done].
  - apply cat_wf_update; [done| |done]. intros c' Hc'. congruence.
Qed.

Lemma remove_ids_empty ids t : remove_ids ∅ ids = Ok t -> t = ∅.
Proof. destruct ids; cbn; [|by rewrite lookup_empty]. intros H. by injection H. Qed.

(** The heart of the development: the index a validation leaves behind is the
    index of the mutated catalog. *)
Lemma validate_tracks c m op c' :
  cat_wf m -> tracks c m -> validate_op c op = Ok c' -> tracks c' (mutate m op) /\ cat_wf (mutate m op).
Proof.
  intros Hwf Ht E. destruct op; cbn [validate_op mutate] in *; inv_ok; boolprop; try subst c'.
  - destruct (tracks_exists _ _ _ Ht ltac:(eassumption)) as (f & Hf & Hi). rewrite Hi in *. cbn in *.
    destruct (index_add (sstables f) meta (level meta =? 0)) as [Hn Hx];
      [by eapply cat_wf_cf|done|]. by eapply tracks_tables; [done..| |rewrite Hx].
  - destruct (tables (cand_cf c cf) !! id) as [lvl|] eqn:El; [|done]. inv_ok. subst c'.
    destruct (tracks_table _ _ _ _ _ Ht El) as (f & Hf & Hi). rewrite Hi in *. cbn in *.
    destruct (index_remove (sstables f) id) as [Hn Hx]; [by eapply cat_wf_cf|].
    by eapply tracks_tables; [done..| |rewrite Hx].
  - destruct (tables (cand_cf c cf) !! id) as [lvl|] eqn:El; [|done]. inv_ok. subst c'.
    destruct (tracks_table _ _ _ _ _ Ht El) as (f & Hf & Hi). rewrite Hi in *. cbn in *.
    destruct (index_update (sstables f) id update lvl) as [Hn Hx]; [by eapply cat_wf_cf|done|].
    by eapply tracks_tables; [done..| |rewrite Hx].
  - rewrite (tr_cf _ _ Ht) in *. unfold index_name in *.
    destruct (find_cf m name) as [f|] eqn:Hf; [done|]. split; [|by apply cat_wf_create].
    eapply tracks_set; try done. intros n. unfold index_name. rewrite find_cf_create by done.
    by destruct (decide (n = name)).
  - split; [|by apply cat_wf_drop]. eapply tracks_set; try done. intros n. unfold index_name.
    rewrite find_cf_drop. destruct (decide (n = name)); [|done].
    match goal with H : tables _ = ∅ |- _ => by rewrite H end.
  - by apply tracks_same.
  - split; [by destruct Ht|done].
  - split; [by destruct Ht|done].
  - destruct (bool_decide_reflect (l <> Unified)); [done|]. split; [|done].
    destruct Ht. constructor; try done. cbn. destruct l; [|done]. by destruct n.
  - split; [by destruct Ht|done].
  - split; [|done]. destruct Ht. constructor; try done. cbn. congruence.
  - destruct (find_cf m cf) as [f|] eqn:Hf.
    + assert (Hi : cand_cf c cf = index_cf f) by (rewrite (tr_cf _ _ Ht); unfold index_name; by rewrite Hf).
      rewrite Hi in *. cbn in *. destruct (index_remove_many (sstables f) ids a) as [Hn Hx];
        [by eapply cat_wf_cf|done|]. by eapply tracks_tables; [done..| |rewrite Hx].
    + assert (Hi : cand_cf c cf = absent) by (rewrite (tr_cf _ _ Ht); unfold index_name; by rewrite Hf).
      rewrite Hi in *. cbn in *. match goal with H : remove_ids _ _ = Ok _ |- _ => apply remove_ids_empty in H end.
      subst. by apply tracks_absent.
  - by apply tracks_same.
  - split; [by destruct Ht|done].
Qed.

Lemma validate_ops_tracks ops c m c' :
  cat_wf m -> tracks c m -> validate_ops c ops = Ok c' ->
  tracks c' (mutate_ops m ops) /\ cat_wf (mutate_ops m ops).
Proof.
  revert c m. induction ops as [|op ops IH]; intros c m Hwf Ht E; cbn in E.
  - by injection E as <-.
  - destruct (validate_op c op) as [c1|] eqn:E1; [|done]. cbn in E.
    destruct (validate_tracks _ _ _ _ Hwf Ht E1) as [Ht1 Hwf1]. by apply (IH c1).
Qed.

Lemma lazy_tracks m : tracks (lazy_candidate m) m.
Proof. constructor; try done. Qed.

Lemma eager_lookup (l : list CfManifest) (acc : gmap (list byte) CfState) (n : list byte) :
  NoDup (map cf_name l) ->
  fold_left (fun acc c => <[cf_name c := index_cf c]> acc) l acc !! n =
  match List.find (fun c => bool_decide (cf_name c = n)) l with
  | Some c => Some (index_cf c)
  | None => acc !! n
  end.
Proof.
  revert acc. induction l as [|c l IH]; intros acc Hn; cbn in *; [done|].
  apply NoDup_cons in Hn as [Hc Hn]. rewrite IH by done.
  destruct (bool_decide_reflect (cf_name c = n)) as [E|E].
  - destruct (List.find _ l) as [c'|] eqn:Ef; [|by rewrite <- E, lookup_insert_eq].
    apply find_some in Ef as [Hi Hb]. boolprop. destruct Hc. apply elem_of_map. exists c'.
    split; [by apply list_elem_of_In|congruence].
  - destruct (List.find _ l); [done|]. by rewrite lookup_insert_ne.
Qed.

Lemma eager_tracks m : cat_wf m -> tracks (eager_candidate m) m.
Proof.
  intros [Hn _]. constructor; try done. intros name. unfold cand_cf, eager_candidate, index_name, find_cf.
  cbn. rewrite eager_lookup by done. by destruct (List.find _ (cfs m)).
Qed.

(** Two candidates of one catalog validate alike. *)
Definition ceq (c1 c2 : Candidate) : Prop :=
  (forall n, cand_cf c1 n = cand_cf c2 n) /\ c_next_file_id c1 = c_next_file_id c2 /\
  c_global_seq c1 = c_global_seq c2 /\ c_wal_layout c1 = c_wal_layout c2 /\
  c_instance_nonce c1 = c_instance_nonce c2 /\ c_caps c1 = c_caps c2 /\ c_wal_floor c1 = c_wal_floor c2.

Definition req (r1 r2 : result Candidate) : Prop :=
  match r1, r2 with Ok a, Ok b => ceq a b | Err e, Err e' => e = e' | _, _ => False end.

Lemma ceq_set c1 c2 n st : ceq c1 c2 -> ceq (set_cf c1 n st) (set_cf c2 n st).
Proof. intros (H & ?). split; [|done]. intros k. rewrite !cand_cf_set. by rewrite H. Qed.

Lemma validate_op_ceq c1 c2 op : ceq c1 c2 -> req (validate_op c1 op) (validate_op c2 op).
Proof.
  intros Hc. pose proof Hc as (H & E1 & E2 & E3 & E4 & E5 & E6). destruct op; cbn [validate_op];
    rewrite ?H, ?E1, ?E2, ?E3, ?E4, ?E5, ?E6;
    repeat match goal with
    | |- context [guard ?b _] => destruct b; cbn [guard rbind]
    | |- context [check_caps ?b] => destruct (check_caps b); cbn [rbind]
    | |- context [remove_ids ?a ?b] => destruct (remove_ids a b); cbn [rbind]
    | |- context [match ?t !! ?i with _ => _ end] => destruct (t !! i)
    end; cbn [req]; try done; try (by apply ceq_set); by conj_split.
Qed.

Lemma validate_ops_ceq ops c1 c2 : ceq c1 c2 -> req (validate_ops c1 ops) (validate_ops c2 ops).
Proof.
  revert c1 c2. induction ops as [|op ops IH]; intros c1 c2 H; cbn; [done|].
  pose proof (validate_op_ceq _ _ op H) as Hr.
  destruct (validate_op c1 op), (validate_op c2 op); cbn in *; [by apply IH|done..].
Qed.

Lemma tracks_ceq c1 c2 m : tracks c1 m -> tracks c2 m -> ceq c1 c2.
Proof. intros [] []. unfold ceq. conj_split; congruence. Qed.

(** ** The replayer against one-by-one application *)

Fixpoint apply_edits (m : Manifest) (edits : list (list Op)) : result Manifest :=
  match edits with
  | [] => Ok m
  | e :: edits => let? m := apply_edit m e in apply_edits m edits
  end.

Fixpoint replay_edits (r : CatalogReplayer) (edits : list (list Op)) : result CatalogReplayer :=
  match edits with
  | [] => Ok r
  | e :: edits => let? r := replayer_apply r e in replay_edits r edits
  end.

Definition rmap {A B} (f : A -> B) (r : result A) : result B :=
  match r with Ok a => Ok (f a) | Err e => Err e end.

Lemma apply_edit_spec c m ops :
  cat_wf m -> tracks c m ->
  match validate_ops c ops with
  | Ok c' => apply_edit m ops = Ok (mutate_ops m ops) /\ tracks c' (mutate_ops m ops) /\
             cat_wf (mutate_ops m ops)
  | Err e => apply_edit m ops = Err e
  end.
Proof.
  intros Hwf Ht. pose proof (validate_ops_ceq ops _ _ (tracks_ceq _ _ _ Ht (lazy_tracks m))) as Hr.
  unfold apply_edit. destruct (validate_ops c ops) as [c'|e] eqn:E.
  - destruct (validate_ops (lazy_candidate m) ops); [|done]. split; [done|]. by eapply validate_ops_tracks.
  - destruct (validate_ops (lazy_candidate m) ops); [done|]. cbn in *. by subst.
Qed.

Lemma replay_edits_spec edits r :
  cat_wf (r_manifest r) -> tracks (r_candidate r) (r_manifest r) ->
  rmap r_manifest (replay_edits r edits) = apply_edits (r_manifest r) edits.
Proof.
  revert r. induction edits as [|e edits IH]; intros r Hwf Ht; cbn; [done|].
  pose proof (apply_edit_spec _ _ e Hwf Ht) as H. unfold replayer_apply.
  destruct (validate_ops (r_candidate r) e) as [c'|err]; cbn.
  - destruct H as (-> & Ht' & Hwf'). cbn. by rewrite IH.
  - by rewrite H.
Qed.

Lemma apply_edit_wf m ops m' : cat_wf m -> apply_edit m ops = Ok m' -> cat_wf m'.
Proof.
  intros Hwf E. pose proof (apply_edit_spec _ m ops Hwf (lazy_tracks m)) as H.
  destruct (validate_ops (lazy_candidate m) ops).
  - destruct H as (E' & _ & ?). rewrite E in E'. by injection E' as ->.
  - congruence.
Qed.

(** ** A catalog with lower allocators follows the same edits

    Recovery raises the file-id allocator and the sequence above what the
    catalog references, so the catalog in memory may be ahead of the replayed
    one in these two fields, and only there. *)

Record behind (a b : Manifest) : Prop := {
  bh_nf : next_file_id a <= next_file_id b;
  bh_gs : global_seq a <= global_seq b;
  bh_cfs : cfs a = cfs b;
  bh_wl : wal_layout a = wal_layout b;
  bh_nonce : instance_nonce a = instance_nonce b;
  bh_caps : caps a = caps b;
  bh_floor : wal_floor a = wal_floor b;
}.

Definition cle (c1 c2 : Candidate) : Prop :=
  (forall n, cand_cf c1 n = cand_cf c2 n) /\ c_next_file_id c1 <= c_next_file_id c2 /\
  c_global_seq c1 <= c_global_seq c2 /\ c_wal_layout c1 = c_wal_layout c2 /\
  c_instance_nonce c1 = c_instance_nonce c2 /\ c_caps c1 = c_caps c2 /\ c_wal_floor c1 = c_wal_floor c2.

Lemma cle_set c1 c2 n st : cle c1 c2 -> cle (set_cf c1 n st) (set_cf c2 n st).
Proof. intros (H & ?). split; [|done]. intros k. rewrite !cand_cf_set. by rewrite H. Qed.

Lemma validate_op_cle c1 c2 op c2' :
  cle c1 c2 -> validate_op c2 op = Ok c2' -> exists c1', validate_op c1 op = Ok c1' /\ cle c1' c2'.
Proof.
  intros Hc E. pose proof Hc as (H & E1 & E2 & E3 & E4 & E5 & E6).
  destruct op; cbn [validate_op] in *; rewrite ?H, ?E3, ?E4, ?E5, ?E6 in *;
    try (destruct (tables (cand_cf c2 cf) !! id); [|done]);
    inv_ok; boolprop; subst;
    repeat match goal with
    | H : ?b = true |- context [guard ?b _] => rewrite H; cbn [guard rbind]
    | H : ?b = false |- context [guard (negb ?b) _] => rewrite H; cbn [guard rbind negb]
    end;
    try (eexists; split; [reflexivity|]; first [by apply cle_set | by conj_split]).
  all: try match goal with
    | |- context [?v <? ?x] => destruct (Z.ltb_spec v x); [lia|]; cbn [guard rbind negb]
    end.
  all: try (eexists; split; [reflexivity|]; conj_split; cbn; (done || lia)).
  cbn [rbind] in *. destruct (tables (cand_cf c2 cf) !! id); [|done]. injection E as <-.
  eexists. split; [reflexivity|]. by apply cle_set.
Qed.

Lemma validate_ops_cle ops c1 c2 c2' :
  cle c1 c2 -> validate_ops c2 ops = Ok c2' -> exists c1', validate_ops c1 ops = Ok c1'.
Proof.
  revert c1 c2. induction ops as [|op ops IH]; intros c1 c2 H E; cbn in *; [eauto|].
  destruct (validate_op c2 op) as [d2|] eqn:E2; [|done]. cbn in E.
  destruct (validate_op_cle _ _ _ _ H E2) as (d1 & -> & Hd). cbn. by eapply IH.
Qed.

Lemma behind_refl m : behind m m.
Proof. constructor; (done || lia). Qed.

Lemma lazy_cle a b : behind a b -> cle (lazy_candidate a) (lazy_candidate b).
Proof.
  intros []. unfold cle. conj_split; try done. intros n. unfold cand_cf, lazy_candidate, find_cf. cbn.
  by rewrite bh_cfs0.
Qed.

Lemma mutate_behind a b op : behind a b -> behind (mutate a op) (mutate b op).
Proof.
  intros []. destruct op; constructor; cbn; try done; try lia; by rewrite ?bh_cfs0, ?bh_caps0.
Qed.

Lemma mutate_ops_behind ops a b : behind a b -> behind (mutate_ops a ops) (mutate_ops b ops).
Proof. revert a b. induction ops as [|op ops IH]; intros a b H; [done|]. by apply IH, mutate_behind. Qed.

Lemma apply_edit_behind a b ops b' :
  behind a b -> apply_edit b ops = Ok b' -> exists a', apply_edit a ops = Ok a' /\ behind a' b'.
Proof.
  intros H E. unfold apply_edit in *.
  destruct (validate_ops (lazy_candidate b) ops) as [c|] eqn:Ec; [|done]. cbn in E. injection E as <-.
  destruct (validate_ops_cle _ _ _ _ (lazy_cle _ _ H) Ec) as (c1 & ->). cbn.
  eexists. split; [done|]. by apply mutate_ops_behind.
Qed.

Lemma apply_edits_snoc m edits e :
  apply_edits m (edits ++ [e]) = let? m := apply_edits m edits in apply_edit m e.
Proof.
  revert m. induction edits as [|e' edits IH]; intros m; cbn.
  - by destruct (apply_edit m e).
  - destruct (apply_edit m e'); cbn; [|done]. apply IH.
Qed.

(** ** The disk protocol as a transition system

    What is on disk: the snapshot and the bytes of the edit log.  In memory: the
    catalog as a snapshot of it would be written, with the log's bookkeeping;
    the database is writable and its edit log is on.
    [since] is ghost: the edits recorded since the snapshot.  The steps are a
    catalog transaction (the record is appended and synced, then [publish]
    changes the memory; [publishes m ops m'] says which changes may go with an
    edit), one with an empty edit (nothing is appended), an advance of the
    allocators, the two halves of a snapshot compaction (the snapshot's rename,
    then the log's; the second only while no edit has been appended since the
    first, which is what holding [manifest_mu] across both ensures), and a
    crash: the record of a transaction that has not been published may be on
    disk, whole or in part, the catalog in memory is gone, and recovery rebuilds
    it and truncates the log to its last complete record.  A failed append stops
    the database, so only a crash follows it.  Edit ids stay below 2^64 - 1. *)

Section Protocol.
Context (checksum : list byte -> Z) (checksum_u32 : forall b, is_u32 (checksum b)).
Context (publishes : Manifest -> list Op -> Manifest -> Prop).

Record CatState := mkCatState {
  mem : Manifest;
  snapshot : Manifest;
  log : list byte;
  since : list (list Op);
}.

Definition edit_record (m : Manifest) (ops : list Op) : EditRecord := mkEditRecord (next_edit_id m) ops.

(** The catalog [m'] that was published, with the bookkeeping of [m]. *)
Definition published (m m' : Manifest) (next : Z) : Manifest :=
  mkManifest (next_file_id m') (global_seq m') (cfs m') (wal_layout m') (instance_nonce m') (caps m')
    (generation_ m) (applied_through m) next (wal_floor m').

Definition advanced (m : Manifest) (nf gs : Z) : Manifest :=
  mkManifest nf gs (cfs m) (wal_layout m) (instance_nonce m) (caps m) (generation_ m) (applied_through m)
    (next_edit_id m) (wal_floor m).

(** An edit that the log takes next. *)
Definition appendable (m : Manifest) (ops : list Op) : Prop :=
  ops <> [] /\ record_ok (edit_record m ops) = true /\ next_edit_id m < U64_MAX.

Definition flight_bytes (m : Manifest) (fl : option (list Op)) : list byte :=
  match fl with Some ops => encode_record checksum (next_edit_id m) ops | None => [] end.

Inductive cat_step : CatState -> CatState -> Prop :=
| cat_txn m s l e ops m' :
    appendable m ops -> publishes m ops m' ->
    cat_step (mkCatState m s l e)
      (mkCatState (published m m' (wrap64 (next_edit_id m + 1))) s
        (l ++ encode_record checksum (next_edit_id m) ops) (e ++ [ops]))
| cat_txn_empty m s l e m' :
    publishes m [] m' ->
    cat_step (mkCatState m s l e) (mkCatState (published m m' (next_edit_id m)) s l e)
| cat_advance m s l e nf gs :
    next_file_id m <= nf -> global_seq m <= gs ->
    cat_step (mkCatState m s l e) (mkCatState (advanced m nf gs) s l e)
| cat_write_snapshot m s l e :
    has_bit (caps m) CAP_MANIFEST_EDITS = true ->
    header_ok (mkEditLogHeader (next_edit_id m - 1) (generation_ m + 1)) = true ->
    let m' := compacted m (next_edit_id m - 1) in
    cat_step (mkCatState m s l e) (mkCatState m' m' l [])
| cat_replace_log m s l e :
    applied_through s = next_edit_id m - 1 ->
    header_ok (mkEditLogHeader (applied_through s) (generation_ s)) = true ->
    cat_step (mkCatState m s l e) (mkCatState m s (fresh_log checksum s) e)
| cat_crash m s l e fl tl m' recs valid_end :
    (forall ops, fl = Some ops -> appendable m ops) -> torn checksum tl ->
    let data := (l ++ flight_bytes m fl) ++ tl in
    recover_catalog checksum s (Some data) = Ok m' ->
    decode_records checksum data = Ok (recs, valid_end) ->
    cat_step (mkCatState m s l e) (mkCatState m' s (take valid_end data) (e ++ option_list fl)).

(** A database whose edit log has just been created. *)
Definition cat_init (m : Manifest) : CatState := mkCatState m m (fresh_log checksum m) [].

Definition cat_start_ok (m : Manifest) : Prop :=
  cat_wf m /\ has_bit (caps m) CAP_MANIFEST_EDITS = true /\
  header_ok (mkEditLogHeader (applied_through m) (generation_ m)) = true /\
  next_edit_id m = applied_through m + 1 /\ applied_through m < U64_MAX.

(** The records of the log are numbered from its base. *)
Fixpoint numbered (n : Z) (recs : list EditRecord) : Prop :=
  match recs with [] => True | r :: recs => edit_id r = n /\ numbered (n + 1) recs end.

(** The log of [st] holds [recs], and its snapshot covers all but the edits recorded since. *)
Record log_holds (st : CatState) (h : EditLogHeader) (recs : list EditRecord) (k : nat) : Prop := {
  lh_log : log st = encode_edit_header checksum h ++ records_bytes checksum recs;
  lh_header : header_ok h = true;
  lh_ok : forallb record_ok recs = true;
  lh_k : (k <= length recs)%nat;
  lh_numbered : numbered (base_applied_through h + 1) recs;
  lh_snapshot : applied_through (snapshot st) = base_applied_through h + Z.of_nat k;
  lh_mem : next_edit_id (mem st) = base_applied_through h + Z.of_nat (length recs) + 1;
  lh_bound : next_edit_id (mem st) <= U64_MAX;
  lh_since : map edit_ops (drop k recs) = since st;
}.

Record cat_inv (st : CatState) : Prop := {
  ci_caps : has_bit (caps (snapshot st)) CAP_MANIFEST_EDITS = true;
  ci_log : exists h recs k, log_holds st h recs k;
}.

Lemma header_base h : header_ok h = true -> 0 <= base_applied_through h.
Proof. unfold header_ok. intros H. boolprop. by match goal with H : u64b (base_applied_through _) = true |- _ => apply u64b_spec in H as [? _] end. Qed.

Lemma wrap_next n : 0 <= n -> n + 1 <= U64_MAX -> wrap64 (n + 1) = n + 1.
Proof. intros. apply wrap64_small. unfold U64_MAX in *. lia. Qed.

Lemma recover_loop_skip n recs k sat r at_ :
  numbered n recs -> (k <= length recs)%nat -> 0 <= n -> n + Z.of_nat (length recs) <= U64_MAX -> n + Z.of_nat k - 1 <= sat ->
  recover_loop n sat recs r at_ = recover_loop (n + Z.of_nat k) sat (drop k recs) r at_.
Proof.
  revert n recs. induction k as [|k IH]; intros n recs Hn Hk H0 Hb Hs.
  - by rewrite Z.add_0_r, drop_0.
  - destruct recs as [|rec recs]; cbn [length] in Hk, Hb; [lia|]. destruct Hn as [He Hn].
    cbn [recover_loop drop]. rewrite He, Z.eqb_refl. cbn [guard rbind].
    destruct (Z.leb_spec n sat); [|lia]. rewrite wrap_next by lia.
    rewrite IH by (done || lia). f_equal. lia.
Qed.

Lemma recover_loop_apply n recs sat r :
  numbered n recs -> 0 <= n -> n + Z.of_nat (length recs) <= U64_MAX -> sat < n ->
  recover_loop n sat recs r (n - 1) =
  let? r' := replay_edits r (map edit_ops recs) in Ok (r', n - 1 + Z.of_nat (length recs)).
Proof.
  revert n r. induction recs as [|rec recs IH]; intros n r Hn H0 Hb Hs; cbn [recover_loop map replay_edits].
  - cbn. by rewrite Z.add_0_r.
  - destruct Hn as [He Hn]. cbn [length] in Hb. rewrite He, Z.eqb_refl. cbn [guard rbind].
    destruct (Z.leb_spec n sat); [lia|]. destruct (replayer_apply r (edit_ops rec)) as [r1|]; cbn [rbind]; [|done].
    rewrite wrap_next by lia. replace n with (n + 1 - 1) at 2 by lia. rewrite IH by (done || lia).
    destruct (replay_edits r1 _); cbn [rbind]; [|done]. do 2 f_equal. cbn [length]. lia.
Qed.

Lemma numbered_drop n recs k : numbered n recs -> numbered (n + Z.of_nat k) (drop k recs).
Proof.
  revert n recs. induction k as [|k IH]; intros n recs H.
  - by rewrite Z.add_0_r, drop_0.
  - destruct recs as [|r recs]; [done|]. destruct H as [_ H]. cbn [drop].
    replace (n + Z.of_nat (S k)) with (n + 1 + Z.of_nat k) by lia. by apply IH.
Qed.

Lemma numbered_snoc n recs r :
  numbered n recs -> edit_id r = n + Z.of_nat (length recs) -> numbered n (recs ++ [r]).
Proof.
  revert n. induction recs as [|x recs IH]; intros n Hn Hr; cbn in *; [split; [lia|done]|].
  destruct Hn as [? Hn]. split; [done|]. apply IH; [done|]. lia.
Qed.

(** What recovery makes of a log: the edits recorded since the snapshot, over the snapshot. *)
Definition recovered (st : CatState) : result Manifest :=
  let? r := replay_edits (replayer_new (snapshot st)) (since st) in
  Ok (reconciled (with_cursor (r_manifest r) (next_edit_id (mem st) - 1))).

Lemma recover_spec st tl h recs k :
  has_bit (caps (snapshot st)) CAP_MANIFEST_EDITS = true -> log_holds st h recs k -> torn checksum tl ->
  decode_records checksum (log st ++ tl) = Ok (recs, length (log st)) /\
  recover_catalog checksum (snapshot st) (Some (log st ++ tl)) = recovered st.
Proof.
  intros Hcaps [Hlog Hh Hok Hk Hnum Hs Hm Hb Hsi] Ht. pose proof (header_base _ Hh) as H0.
  pose proof (decode_records_enc checksum checksum_u32 h recs tl Hok Ht) as Hd. rewrite app_assoc, <- Hlog in Hd.
  split; [done|]. unfold recover_catalog. rewrite Hcaps. cbn [guard rbind].
  rewrite Hlog, <- app_assoc, decode_edit_header_enc by done. cbn [rbind].
  rewrite app_assoc, <- Hlog, Hd. destruct (Z.ltb_spec (applied_through (snapshot st)) (base_applied_through h)); [lia|].
  cbn [negb guard rbind]. rewrite wrap_next, (recover_loop_skip _ recs k) by (done || lia).
  replace (applied_through (snapshot st)) with (base_applied_through h + 1 + Z.of_nat k - 1) at 2 by lia.
  rewrite recover_loop_apply; [|by apply numbered_drop|lia|rewrite length_drop; lia|lia].
  unfold recovered. rewrite Hsi. destruct (replay_edits _ _) as [rr|]; [|done]. cbn [rbind].
  do 3 f_equal. rewrite Hm, length_drop. lia.
Qed.

Lemma log_holds_fresh m s :
  header_ok (mkEditLogHeader (applied_through s) (generation_ s)) = true ->
  applied_through s = next_edit_id m - 1 -> next_edit_id m <= U64_MAX ->
  log_holds (mkCatState m s (fresh_log checksum s) []) (mkEditLogHeader (applied_through s) (generation_ s)) [] 0.
Proof.
  intros. constructor; cbn [log mem snapshot since base_applied_through length drop map]; try done; try lia.
Qed.

Lemma records_bytes_snoc recs r :
  records_bytes checksum (recs ++ [r]) =
  records_bytes checksum recs ++ encode_record checksum (edit_id r) (edit_ops r).
Proof. unfold records_bytes. by rewrite map_app, concat_app; cbn; rewrite app_nil_r. Qed.

(** The record of the next edit, behind the others. *)
Lemma log_holds_append m m' s l e ops h recs k :
  log_holds (mkCatState m s l e) h recs k -> appendable m ops -> next_edit_id m' = next_edit_id m + 1 ->
  log_holds (mkCatState m' s (l ++ encode_record checksum (next_edit_id m) ops) (e ++ [ops])) h (recs ++ [edit_record m ops]) k.
Proof.
  intros [Hlog Hh Hok Hk Hnum Hs Hm Hb Hsi] (_ & Hrok & Hlt) Hn. cbn [mem snapshot log since] in *.
  constructor; cbn [mem snapshot log since]; rewrite ?length_app, ?drop_app_le, ?map_app by done; try done; try (cbn; lia).
  - by rewrite records_bytes_snoc, Hlog, <- app_assoc.
  - rewrite forallb_app, Hok. cbn [forallb]. by rewrite Hrok.
  - apply numbered_snoc; [done|]. cbn [edit_record edit_id]. lia.
  - by rewrite Hsi.
Qed.

(** Another catalog in memory at the same edit. *)
Lemma log_holds_mem m m' s l e h recs k :
  log_holds (mkCatState m s l e) h recs k -> next_edit_id m' = next_edit_id m -> log_holds (mkCatState m' s l e) h recs k.
Proof. intros [] E. cbn in *. constructor; cbn; rewrite ?E; done. Qed.

Lemma log_holds_next st h recs k : log_holds st h recs k -> 1 <= next_edit_id (mem st).
Proof. intros [_ Hh _ _ _ _ Hm _ _]. pose proof (header_base _ Hh). lia. Qed.

(** A crash in front of [fl]'s publication leaves a log that holds it. *)
Lemma crash_log m s l e fl h recs k :
  log_holds (mkCatState m s l e) h recs k -> (forall ops, fl = Some ops -> appendable m ops) ->
  exists m' recs', log_holds (mkCatState m' s (l ++ flight_bytes m fl) (e ++ option_list fl)) h recs' k.
Proof.
  intros Hl Hf. destruct fl as [ops|]; cbn [flight_bytes option_list].
  - exists (published m m (next_edit_id m + 1)), (recs ++ [edit_record m ops]). apply (log_holds_append m); [done|by apply Hf|done].
  - exists m, recs. by rewrite !app_nil_r.
Qed.

Lemma recovered_next st m' h recs k : log_holds st h recs k -> recovered st = Ok m' -> next_edit_id m' = next_edit_id (mem st).
Proof.
  intros Hl E. unfold recovered in E. destruct (replay_edits _ _) as [r|]; [|done]. injection E as <-. cbn.
  pose proof (log_holds_next _ _ _ _ Hl). pose proof (lh_bound _ _ _ _ Hl). rewrite wrap_next; lia.
Qed.

Lemma cat_step_inv st st' : cat_inv st -> cat_step st st' -> cat_inv st'.
Proof.
  intros [Hcaps (h & recs & k & Hl)] Hs. pose proof (log_holds_next _ _ _ _ Hl) as H1.
  destruct Hs as [m s l e ops m' Ha _|m s l e m' _|m s l e nf gs _ _|m s l e Hcm Hhok m'|m s l e Hat Hhok
    |m s l e fl tl m' recs' ve Hf Ht data E Ed]; cbn [mem snapshot log since] in *; (split; [done|]).
  - exists h, (recs ++ [edit_record m ops]), k. apply (log_holds_append m); [done|done|]. cbn. destruct Ha as (_ & _ & ?). apply wrap_next; lia.
  - exists h, recs, k. by eapply log_holds_mem.
  - exists h, recs, k. by eapply log_holds_mem.
  - exists h, recs, (length recs). pose proof Hl as []. cbn [mem snapshot log since] in *.
    subst m'. constructor; cbn [mem snapshot log since compacted with_cursor applied_through next_edit_id]; rewrite ?wrap_next by lia; try done; try lia.
    by rewrite drop_all.
  - eexists _, _, _. destruct Hl as [_ _ _ ? _ ? ? ? Hsi]. cbn [mem snapshot log since] in *.
    rewrite drop_ge in Hsi by lia. subst e. by apply log_holds_fresh.
  - destruct (crash_log _ _ _ _ fl _ _ _ Hl Hf) as (m1 & recs1 & Hl1).
    destruct (recover_spec (mkCatState m1 s (l ++ flight_bytes m fl) (e ++ option_list fl)) tl _ _ _ Hcaps Hl1 Ht) as [Hd Hrec]. cbn [mem snapshot log since] in *. fold data in Hd, Hrec.
    rewrite Hrec in E. rewrite Hd in Ed. injection Ed as _ <-. unfold data. rewrite take_app_length.
    exists h, recs1, k. eapply log_holds_mem; [done|]. by eapply recovered_next in E; [|exact Hl1].
Qed.

Lemma cat_start_inv m : cat_start_ok m -> cat_inv (cat_init m).
Proof.
  intros (_ & Hc & Hh & Hn & Hb). split; [done|]. eexists _, _, _. apply log_holds_fresh; [done|lia|lia].
Qed.

Lemma cat_reachable_inv m st : cat_start_ok m -> rtc cat_step (cat_init m) st -> cat_inv st.
Proof.
  intros Hm H. apply cat_start_inv in Hm. induction H as [|x y z Hxy _ IH]; [done|].
  apply IH. by eapply cat_step_inv.
Qed.

(** *** Transactions that publish what their edit says *)

Context (faithful : forall m ops m', publishes m ops m' -> apply_edit m ops = Ok m').

Lemma mutate_generation ops m : generation_ (mutate_ops m ops) = generation_ m.
Proof.
  revert m. induction ops as [|op ops IH]; intros m; [done|]. unfold mutate_ops in *. cbn [fold_left].
  rewrite IH. by destruct op.
Qed.

Lemma apply_edits_generation edits m m' :
  apply_edits m edits = Ok m' -> generation_ m' = generation_ m.
Proof.
  revert m. induction edits as [|e edits IH]; intros m H; cbn in H; [by injection H as ->|].
  unfold apply_edit in H. destruct (validate_ops (lazy_candidate m) e); [|done]. cbn in H.
  rewrite (IH _ H). apply mutate_generation.
Qed.

Lemma has_bit_lor x y b : has_bit x b = true -> has_bit (Z.lor x y) b = true.
Proof.
  unfold has_bit. rewrite !negb_true_iff, !Z.eqb_neq, Z.land_lor_distr_l, Z.lor_eq_0_iff. tauto.
Qed.

Lemma mutate_caps op m b : has_bit (caps m) b = true -> has_bit (caps (mutate m op)) b = true.
Proof. destruct op; try done. cbn. apply has_bit_lor. Qed.

Lemma apply_edits_keeps edits m m' :
  cat_wf m -> apply_edits m edits = Ok m' ->
  cat_wf m' /\ forall b, has_bit (caps m) b = true -> has_bit (caps m') b = true.
Proof.
  revert m. induction edits as [|e edits IH]; intros m Hwf H; cbn in H; [by injection H as ->|].
  destruct (apply_edit m e) as [m1|] eqn:E; [|done]. cbn in H.
  destruct (IH m1 (apply_edit_wf _ _ _ Hwf E) H) as [? Hc]. split; [done|]. intros b Hb. apply Hc.
  unfold apply_edit in E. destruct (validate_ops (lazy_candidate m) e); [|done]. cbn in E. injection E as <-.
  clear -Hb. revert m Hb. unfold mutate_ops. induction e as [|op e IH]; intros m Hb; [done|].
  cbn [fold_left]. apply IH. by apply mutate_caps.
Qed.

(** The recorded edits give the catalog in memory, up to its allocators. *)
Record mem_inv (st : CatState) : Prop := {
  mi_wf : cat_wf (snapshot st);
  mi_gen : generation_ (mem st) = generation_ (snapshot st);
  mi_replay : exists r, apply_edits (snapshot st) (since st) = Ok r /\ behind r (mem st);
}.

Lemma behind_trans a b c : behind a b -> behind b c -> behind a c.
Proof. intros [] []. constructor; (lia || congruence). Qed.

Lemma behind_published r m m' n : behind r m' -> behind r (published m m' n).
Proof. intros []. by constructor. Qed.

Lemma recovered_apply st :
  cat_wf (snapshot st) ->
  recovered st = let? r := apply_edits (snapshot st) (since st) in Ok (reconciled (with_cursor r (next_edit_id (mem st) - 1))).
Proof.
  intros Hwf. unfold recovered. pose proof (replay_edits_spec (since st) (replayer_new (snapshot st)) Hwf (eager_tracks _ Hwf)) as H.
  cbn [r_manifest replayer_new] in H. rewrite <- H. by destruct (replay_edits _ _).
Qed.

Lemma mem_step_inv st st' : cat_inv st -> mem_inv st -> cat_step st st' -> mem_inv st'.
Proof.
  intros [Hcaps (h & recs & k & Hl)] [Hwf Hg (r & Hr & Hb)] Hs.
  destruct Hs as [m s l e ops m' Ha Hp|m s l e m' Hp|m s l e nf gs Hnf Hgs|m s l e Hcm Hhok m'|m s l e Hat Hhok
    |m s l e fl tl m' recs' ve Hf Ht data E Ed]; cbn [mem snapshot log since] in *.
  - destruct (apply_edit_behind _ _ _ _ Hb (faithful _ _ _ Hp)) as (r' & Hr' & Hb').
    constructor; [done|done|]. exists r'. cbn [mem snapshot since]. rewrite apply_edits_snoc, Hr. split; [done|]. by apply behind_published.
  - apply faithful in Hp. injection Hp as <-. constructor; [done|done|]. exists r. split; [done|]. by apply behind_published.
  - constructor; [done|done|]. exists r. split; [done|]. eapply behind_trans; [exact Hb|]. constructor; cbn; done.
  - destruct (apply_edits_keeps _ _ _ Hwf Hr) as [Hwfr _]. destruct Hb as [? ? Hcfs ? ? ? ?].
    constructor; [|done|by exists m'; split; [|apply behind_refl]]. unfold cat_wf in *. cbn. by rewrite <- Hcfs.
  - constructor; [done|done|by exists r].
  - destruct (crash_log _ _ _ _ fl _ _ _ Hl Hf) as (m1 & recs1 & Hl1).
    destruct (recover_spec (mkCatState m1 s (l ++ flight_bytes m fl) (e ++ option_list fl)) tl _ _ _ Hcaps Hl1 Ht) as [_ Hrec].
    cbn [mem snapshot log since] in *. fold data in Hrec. rewrite Hrec, recovered_apply in E by done. cbn [mem snapshot since] in E.
    destruct (apply_edits s (e ++ option_list fl)) as [r1|] eqn:Er; [|done]. injection E as <-.
    constructor; cbn [mem snapshot since]; [done|exact (apply_edits_generation _ _ _ Er)|]. exists r1. split; [done|].
    constructor; cbn; (done || lia).
Qed.

Lemma mem_reachable_inv m st : cat_start_ok m -> rtc cat_step (cat_init m) st -> mem_inv st.
Proof.
  intros Hm H. assert (mem_inv (cat_init m)) as Hi by (constructor; [apply Hm|done|exists m; split; [done|apply behind_refl]]).
  apply cat_start_inv in Hm. induction H as [|x y z Hxy _ IH]; [done|]. apply IH; [by eapply cat_step_inv|by eapply mem_step_inv].
Qed.
End Protocol.

(** ** Allocators after recovery *)

Lemma fold_max_ge {A} (f : A -> Z) l acc :
  acc <= fold_left (fun a x => Z.max a (f x)) l acc /\
  forall x, x ∈ l -> f x <= fold_left (fun a x => Z.max a (f x)) l acc.
Proof.
  revert acc. induction l as [|y l IH]; intros acc; cbn; [split; [lia|by intros x ?%elem_of_nil]|].
  destruct (IH (Z.max acc (f y))) as [H1 H2]. split; [lia|].
  intros x [->|Hx]%elem_of_cons; [lia|by apply H2].
Qed.

Lemma max_over_ge f m cf s : cf ∈ cfs m -> s ∈ sstables cf -> f s <= max_over f m.
Proof.
  unfold max_over. generalize 0. induction (cfs m) as [|c l IH]; intros acc Hc Hs; [by apply elem_of_nil in Hc|].
  cbn. apply elem_of_cons in Hc as [<-|Hc]; [|by apply IH].
  pose proof (fold_max_ge f (sstables cf) acc) as [_ H]. specialize (H s Hs).
  revert H. generalize (fold_left (fun a x => Z.max a (f x)) (sstables cf) acc). clear. 
  revert l. intros l z Hz. enough (z <= fold_left (fun acc cf => fold_left (fun acc s => Z.max acc (f s)) (sstables cf) acc) l z) by lia.
  clear Hz. revert z. induction l as [|c l IH]; intros z; cbn; [lia|].
  pose proof (fold_max_ge f (sstables c) z) as [H _]. etrans; [exact H|apply IH].
Qed.

Lemma fold_max_le {A} (f : A -> Z) l acc b :
  acc <= b -> (forall x, x ∈ l -> f x <= b) -> fold_left (fun a x => Z.max a (f x)) l acc <= b.
Proof.
  revert acc. induction l as [|y l IH]; intros acc Ha H; cbn; [done|]. apply IH; [|intros x Hx; apply H; by right].
  specialize (H y ltac:(left)). lia.
Qed.

Lemma max_over_le f m b :
  0 <= b -> (forall cf s, cf ∈ cfs m -> s ∈ sstables cf -> f s <= b) -> 0 <= max_over f m <= b.
Proof.
  intros Hb H. unfold max_over. assert (forall l acc, 0 <= acc <= b -> (forall cf, cf ∈ l -> cf ∈ cfs m) ->
    0 <= fold_left (fun acc cf => fold_left (fun acc s => Z.max acc (f s)) (sstables cf) acc) l acc <= b) as Hf; [|by apply Hf].
  induction l as [|c l IH]; intros acc Ha Hin; cbn; [done|]. apply IH; [|intros cf Hcf; apply Hin; by right].
  pose proof (fold_max_ge f (sstables c) acc) as [? _].
  pose proof (fold_max_le f (sstables c) acc b ltac:(lia) (fun s => H c s (Hin c ltac:(left)))). lia.
Qed.

(** Every table id leaves room for the next one. *)
Definition ids_below (m : Manifest) : Prop :=
  forall cf s, cf ∈ cfs m -> s ∈ sstables cf -> id s < U64_MAX.

Lemma reconciled_dominates m :
  (forall cf s, cf ∈ cfs m -> s ∈ sstables cf -> max_seq s <= global_seq (reconciled m)) /\
  (ids_below m -> forall cf s, cf ∈ cfs m -> s ∈ sstables cf -> id s < next_file_id (reconciled m)).
Proof.
  split.
  - intros cf s Hcf Hs. pose proof (max_over_ge max_seq _ _ _ Hcf Hs). cbn. lia.
  - intros Hb cf s Hcf Hs. pose proof (max_over_ge id _ _ _ Hcf Hs). destruct (max_over_le id m (U64_MAX - 1)) as [H1 H2]; [done| |].
    + intros cf' s' Hcf' Hs'. specialize (Hb cf' s' Hcf' Hs'). lia.
    + cbn. rewrite wrap64_small by (unfold U64_MAX in *; lia). lia.
Qed.

(** ** Recovery from arbitrary bytes *)

Definition keeps_caps (m m' : Manifest) : Prop :=
  forall b, has_bit (caps m) b = true -> has_bit (caps m') b = true.

Lemma replayer_apply_keeps r ops r' :
  cat_wf (r_manifest r) -> tracks (r_candidate r) (r_manifest r) -> replayer_apply r ops = Ok r' ->
  cat_wf (r_manifest r') /\ tracks (r_candidate r') (r_manifest r') /\
  keeps_caps (r_manifest r) (r_manifest r').
Proof.
  intros Hwf Ht E. unfold replayer_apply in E. pose proof (apply_edit_spec _ _ ops Hwf Ht) as H.
  destruct (validate_ops (r_candidate r) ops); [|done]. cbn in E. injection E as <-. cbn.
  destruct H as (Ha & Ht' & Hwf'). conj_split; [done..|].
  refine (proj2 (apply_edits_keeps [ops] _ _ Hwf _)). cbn. by rewrite Ha.
Qed.

Lemma recover_loop_keeps recs expected sat r at_ r' at' :
  cat_wf (r_manifest r) -> tracks (r_candidate r) (r_manifest r) -> sat <= at_ ->
  recover_loop expected sat recs r at_ = Ok (r', at') ->
  cat_wf (r_manifest r') /\ keeps_caps (r_manifest r) (r_manifest r') /\ sat <= at'.
Proof.
  revert expected r at_. induction recs as [|rec recs IH]; intros expected r at_ Hwf Ht Hat E; cbn [recover_loop] in E.
  - injection E as -> ->. conj_split; [done..| |done]. by intros ?.
  - destruct (Z.eqb_spec (edit_id rec) expected); [|done]. cbn [guard rbind] in E.
    destruct (Z.leb_spec (edit_id rec) sat); [by eapply IH|].
    destruct (replayer_apply r (edit_ops rec)) as [r1|] eqn:E1; [|done]. cbn [rbind] in E.
    destruct (replayer_apply_keeps _ _ _ Hwf Ht E1) as (Hwf1 & Ht1 & Hc).
    destruct (IH _ _ (edit_id rec) Hwf1 Ht1 ltac:(lia) E) as (? & Hc' & ?). conj_split; [done| |done].
    intros b Hb. by apply Hc', Hc.
Qed.

(** ** Properties *)

Definition same_catalog (a b : Manifest) : Prop :=
  cfs a = cfs b /\ wal_layout a = wal_layout b /\ instance_nonce a = instance_nonce b /\
  caps a = caps b /\ wal_floor a = wal_floor b /\ generation_ a = generation_ b /\
  next_edit_id a = next_edit_id b.

(** C4: crash recovery of the catalog.  From a freshly created edit log, take any interleaving of catalog
    transactions, allocator advances, snapshot writes, log replacements and crashes with recovery (also
    between the sync of an edit and its publication), and any cut-off edit at the end of the log.
    Whatever the transactions published in memory, [recover_catalog] is the replay, over the snapshot,
    of exactly the edits recorded since it, in order: none is lost, none applied twice, and the open fails
    when one of them does not apply.  If every transaction published what its edit says, the open
    succeeds with the families, tables, layout, nonce, capabilities, floor, generation and next edit id of
    the catalog in memory. *)
Theorem recovery_rebuilds_catalog checksum (Hck : forall b, is_u32 (checksum b)) publishes m0 st tl :
  cat_start_ok m0 -> rtc (cat_step checksum publishes) (cat_init checksum m0) st -> torn checksum tl ->
  let recovery := recover_catalog checksum (snapshot st) (Some (log st ++ tl)) in
  recovery = (let? r := replay_edits (replayer_new (snapshot st)) (since st) in
              Ok (reconciled (with_cursor (r_manifest r) (next_edit_id (mem st) - 1)))) /\
  ((forall m ops m', publishes m ops m' -> apply_edit m ops = Ok m') ->
   exists m, recovery = Ok m /\ same_catalog m (mem st)).
Proof.
  intros H0 Hst Ht. destruct (cat_reachable_inv _ Hck _ _ _ H0 Hst) as [Hc (h & recs & k & Hl)].
  destruct (recover_spec _ Hck _ _ _ _ _ Hc Hl Ht) as [_ Hrec]. cbv zeta. rewrite Hrec. split; [done|]. intros Hf.
  destruct (mem_reachable_inv _ Hck _ Hf _ _ H0 Hst) as [Hwf Hg (r & Hr & [])].
  rewrite recovered_apply by done. rewrite Hr. eexists. split; [done|]. unfold same_catalog. cbn.
  rewrite Hg, (apply_edits_generation _ _ _ Hr). pose proof (log_holds_next _ _ _ _ _ Hl). pose proof (lh_bound _ _ _ _ _ Hl).
  conj_split; [done..|]. rewrite wrap_next; lia.
Qed.

Definition sample_catalog : Manifest :=
  mkManifest 5 40 [] Unified None CAP_MANIFEST_EDITS 2 7 8 0.

Definition sample_table : SstMeta :=
  mkSstMeta 9 1 10 0 77 4096 0 [x61] [x7a] None None None None None 0 0 0 None None None.

Definition sample_edit : list Op := [CreateCf [x63; x66] []; AddTable [x63; x66] sample_table].

Definition sample_edit_after : Manifest :=
  match apply_edit sample_catalog sample_edit with Ok m => m | Err _ => sample_catalog end.

Lemma recovery_rebuilds_catalog_witness :
  let ck := fun _ : list byte => 7 in
  exists m, recover_catalog ck sample_catalog
      (Some ((fresh_log ck sample_catalog ++ encode_record ck 8 sample_edit) ++ [])) = Ok m /\
    same_catalog m (published sample_catalog sample_edit_after 9).
Proof.
  destruct (recovery_rebuilds_catalog (fun _ => 7) ltac:(intros; split; vm_compute; congruence)
    (fun m ops m' => apply_edit m ops = Ok m') sample_catalog
    (mkCatState (published sample_catalog sample_edit_after 9) sample_catalog
      (fresh_log (fun _ => 7) sample_catalog ++ encode_record (fun _ => 7) 8 sample_edit) [sample_edit]) [])
    as (_ & m & Hm & Hs).
  - split; [split; constructor|]. split; [vm_compute; reflexivity|]. split; [|split]; vm_compute; reflexivity.
  - eapply rtc_l; [|apply rtc_refl]. apply (cat_txn _ _ sample_catalog _ _ [] sample_edit sample_edit_after); [|vm_compute; reflexivity].
    split; [done|]. split; vm_compute; reflexivity.
  - left; reflexivity.
  - done.
  - exists m. split; [exact Hm|exact Hs].
Defined.

(** replaying a log with one index kept across its records is applying the edits one after the
    other, each validated against the catalog it finds; the first rejected edit stops both with the
    same error. *)
Theorem replay_is_sequential_application m edits :
  cat_wf m -> rmap r_manifest (replay_edits (replayer_new m) edits) = apply_edits m edits.
Proof. intros Hwf. by rewrite replay_edits_spec; [| |apply eager_tracks]. Qed.

Lemma replay_is_sequential_application_witness :
  rmap r_manifest (replay_edits (replayer_new sample_catalog) [sample_edit; [DropCf [x63; x66]]; [DropCf [x63; x66]]]) =
  Err Corruption.
Proof.
  rewrite (replay_is_sequential_application sample_catalog); [vm_compute; reflexivity|split; constructor].
Defined.

(** C27: whatever bytes the edit log holds, a recovery from a well-formed snapshot that succeeds returns a
    well-formed catalog: one entry per family name and one per table id within a family, no capability of
    the snapshot lost, a cursor that never goes back with the next edit id right after it, a sequence at
    or above every sequence number the catalog references, and a file-id allocator past every table id,
    provided that no table has the largest id there is, 2^64 - 1, after which the allocator would wrap. *)
Theorem recovered_catalog_well_formed checksum m data m' :
  cat_wf m -> next_edit_id m = wrap64 (applied_through m + 1) -> recover_catalog checksum m data = Ok m' ->
  cat_wf m' /\ keeps_caps m m' /\ applied_through m <= applied_through m' /\
  next_edit_id m' = wrap64 (applied_through m' + 1) /\
  (forall cf s, cf ∈ cfs m' -> s ∈ sstables cf -> max_seq s <= global_seq m') /\
  (ids_below m' -> forall cf s, cf ∈ cfs m' -> s ∈ sstables cf -> id s < next_file_id m').
Proof.
  intros Hwf Hn E.
  enough (exists m1, m' = reconciled m1 /\ cat_wf m1 /\ keeps_caps m m1 /\
    applied_through m <= applied_through m1 /\ next_edit_id m1 = wrap64 (applied_through m1 + 1))
    as (m1 & -> & Hwf1 & Hc & Ha & Hx).
  { destruct (reconciled_dominates m1) as [H1 H2]. by conj_split. }
  destruct data as [data|]; cbn [recover_catalog] in E.
  - destruct (has_bit (caps m) CAP_MANIFEST_EDITS); [|done]. cbn [guard rbind] in E.
    destruct (decode_edit_header checksum data) as [h|]; [|done]. cbn [rbind] in E.
    destruct (negb _); [|done]. cbn [guard rbind] in E.
    destruct (decode_records checksum data) as [[recs e]|]; [|done]. cbn [rbind] in E.
    destruct (recover_loop _ _ _ _ _) as [[r at_]|] eqn:Er; [|done]. cbn [rbind] in E. injection E as <-.
    destruct (recover_loop_keeps _ _ _ (replayer_new m) _ _ _ Hwf (eager_tracks _ Hwf) (Z.le_refl _) Er) as (? & ? & ?).
    by exists (with_cursor (r_manifest r) at_).
  - injection E as <-. exists m. conj_split; [done|done|by intros ?|lia|done].
Qed.

Lemma recovered_catalog_well_formed_witness :
  exists m', recover_catalog (fun _ => 7) sample_catalog
      (Some (fresh_log (fun _ => 7) sample_catalog ++ encode_record (fun _ => 7) 8 sample_edit)) = Ok m' /\
    cat_wf m' /\ next_edit_id m' = wrap64 (applied_through m' + 1).
Proof.
  eexists. split; [vm_compute; reflexivity|].
  destruct (recovered_catalog_well_formed (fun _ => 7) sample_catalog
    (Some (fresh_log (fun _ => 7) sample_catalog ++ encode_record (fun _ => 7) 8 sample_edit))
    (reconciled (with_cursor sample_edit_after 8))) as (Hwf & _ & _ & Hn & _ & _);
    [split; constructor|vm_compute; reflexivity|vm_compute; reflexivity|split; [exact Hwf|exact Hn]].
Defined.
