(* ===== verification/Snapshot.v ===== *)
(** * The catalog snapshot file (manifest.rs)

    The MANIFEST encoding: the fixed header, the flagged database sections, the
    column families with their flagged tables, and the whole-file checksum.
    A field that a section cannot carry is dropped by the encoder ([canonical]
    is what is left), and the decoder refuses every section that no encoder
    produces. *)

From Stdlib Require Import ZArith Lia.
From Stdlib.Strings Require Import Byte.
From stdpp Require Import base list gmap relations.
From S2P Require Import Prelude Encoding Codec Comparator Format Wal Manifest Catalog.

Open Scope Z_scope.

(** ** Constants (format.rs [manifest_file]) *)

Definition MANIFEST_MAGIC : list byte := [x59; x4f; x4c; x4f; x44; x42; x4d; x46].
Definition MANIFEST_VERSION : Z := 1.
Definition MANIFEST_HEADER_LEN : nat := 40.
Definition ONDA09_MAGIC : Z := 0x57564D46.

Definition DB_UNIFIED_WAL : Z := Z.shiftl 1 0.
Definition DB_INSTANCE_NONCE : Z := Z.shiftl 1 1.
Definition DB_EDIT_LOG : Z := Z.shiftl 1 2.
Definition DB_WAL_FLOOR : Z := Z.shiftl 1 4.
Definition DB_KNOWN : Z := Z.lor (Z.lor (Z.lor DB_UNIFIED_WAL DB_INSTANCE_NONCE) DB_EDIT_LOG) DB_WAL_FLOOR.

Definition CF_UNIFIED_ID : Z := Z.shiftl 1 0.
Definition CF_KNOWN : Z := CF_UNIFIED_ID.

Definition SST_PARTITION : Z := Z.shiftl 1 0.
Definition SST_TIER : Z := Z.shiftl 1 1.
Definition SST_OBJECT : Z := Z.shiftl 1 2.
Definition SST_MAX_ENTRY_TIME : Z := Z.shiftl 1 3.
Definition SST_LAST_COMPACTION_TIME : Z := Z.shiftl 1 4.
Definition SST_RANGE : Z := Z.shiftl 1 5.
Definition SST_TABLE_CAPS : Z := Z.shiftl 1 6.
Definition SST_KNOWN : Z :=
  Z.lor (Z.lor (Z.lor (Z.lor (Z.lor (Z.lor SST_PARTITION SST_TIER) SST_OBJECT) SST_MAX_ENTRY_TIME)
    SST_LAST_COMPACTION_TIME) SST_RANGE) SST_TABLE_CAPS.

Definition CAP_WAVES08_BODIES : Z := Z.shiftl 1 10.

(** [Manifest::default()]. *)
Definition default_manifest : Manifest := mkManifest 1 0 [] PerColumnFamily None 0 0 0 1 0.

(** ** Encoding *)

Definition or_bit (b : bool) (m bit : Z) : Z := if b then Z.lor m bit else m.

(** [append_uvarint(b, t as u64)]. *)
Definition enc_time (t : Z) : list byte := enc_uvarint (wrap64 t).

(** The age stamp that is written, and whether the range summary is. *)
Definition written_age (caps : Z) (s : SstMeta) : option Z :=
  if has_bit caps CAP_PERIODIC_AGE then last_compaction_time s else None.
Definition written_range (caps : Z) (s : SstMeta) : bool :=
  (0 <? range_count s) && has_bit caps CAP_RANGE_DELETES.

Definition some {A} (o : option A) : bool := if o is Some _ then true else false.

Definition sst_flags (caps : Z) (s : SstMeta) : Z :=
  let f := or_bit (some (partition s)) 0 SST_PARTITION in
  let f := or_bit (some (tier s)) f SST_TIER in
  let f := or_bit (some (object s)) f SST_OBJECT in
  let f := or_bit (some (max_entry_time s)) f SST_MAX_ENTRY_TIME in
  let f := or_bit (some (written_age caps s)) f SST_LAST_COMPACTION_TIME in
  let f := or_bit (written_range caps s) f SST_RANGE in
  or_bit (some (table_caps s)) f SST_TABLE_CAPS.

Definition or_empty (o : option (list byte)) : list byte := if o is Some k then k else [].

Definition encode_sstable (caps : Z) (s : SstMeta) : list byte :=
  enc_uvarint (id s) ++ enc_uvarint (level s) ++ enc_uvarint (num_entries s)
  ++ enc_uvarint (num_tombstones s) ++ enc_uvarint (max_seq s) ++ enc_uvarint (klog_size s)
  ++ enc_uvarint (vlog_size s) ++ enc_lenbytes (min_key s) ++ enc_lenbytes (max_key s)
  ++ enc_uvarint (sst_flags caps s)
  ++ enc_present enc_lenbytes (partition s) ++ enc_present enc_lenbytes (tier s)
  ++ enc_present enc_lenbytes (object s) ++ enc_present enc_time (max_entry_time s)
  ++ enc_present enc_time (written_age caps s)
  ++ (if written_range caps s then
        enc_uvarint (range_count s) ++ enc_uvarint (range_min_seq s) ++ enc_uvarint (range_max_seq s)
        ++ enc_lenbytes (or_empty (range_min_key s)) ++ enc_lenbytes (or_empty (range_max_key s))
      else [])
  ++ enc_present enc_uvarint (table_caps s).

(** [CfManifest::effective_unified_id], [stored_unified_id]. *)
Definition effective_unified_id (c : CfManifest) : Z :=
  if unified_id c is Some i then i else cf_id (cf_name c).
Definition stored_unified_id (c : CfManifest) : option Z :=
  match unified_id c with
  | Some i => if i =? cf_id (cf_name c) then None else Some i
  | None => None
  end.

Definition encode_cf (caps : Z) (c : CfManifest) : list byte :=
  enc_uvarint (if some (stored_unified_id c) then CF_UNIFIED_ID else 0)
  ++ enc_lenbytes (cf_name c) ++ enc_lenbytes (cf_config c)
  ++ enc_present (le_bytes 8) (stored_unified_id c)
  ++ enc_uvarint (Z.of_nat (length (sstables c))) ++ concat (map (encode_sstable caps) (sstables c)).

Definition at_default_cursor (m : Manifest) : bool :=
  (generation_ m =? 0) && (applied_through m =? 0) && (next_edit_id m =? 1).

Definition db_flags (m : Manifest) : Z :=
  let f := or_bit (bool_decide (wal_layout m = Unified)) 0 DB_UNIFIED_WAL in
  let f := or_bit (some (instance_nonce m)) f DB_INSTANCE_NONCE in
  let f := or_bit (negb (at_default_cursor m)) f DB_EDIT_LOG in
  or_bit (negb (wal_floor m =? 0)) f DB_WAL_FLOOR.

Definition manifest_body (m : Manifest) : list byte :=
  MANIFEST_MAGIC ++ le_bytes 4 MANIFEST_VERSION ++ le_bytes 8 (caps m) ++ le_bytes 4 (db_flags m)
  ++ le_bytes 8 (next_file_id m) ++ le_bytes 8 (global_seq m)
  ++ enc_present (le_bytes 8) (instance_nonce m)
  ++ (if has_bit (db_flags m) DB_EDIT_LOG then
        le_bytes 8 (generation_ m) ++ le_bytes 8 (applied_through m) ++ le_bytes 8 (next_edit_id m)
      else [])
  ++ (if has_bit (db_flags m) DB_WAL_FLOOR then le_bytes 8 (wal_floor m) else [])
  ++ enc_uvarint (Z.of_nat (length (cfs m))) ++ concat (map (encode_cf (caps m)) (cfs m)).

Definition manifest_encode (checksum : list byte -> Z) (m : Manifest) : list byte :=
  manifest_body m ++ le_bytes 4 (checksum (manifest_body m)).

(** ** Decoding *)

Definition cur_u32 : decoder Z := dec_le Corruption 4.

(** [c.uvar()? as i64]. *)
Definition cur_time : decoder Z := fun p => let? (x, p) := cur_uvar p in Ok (to_i64 x, p).

Record RangeSection := mkRangeSection {
  rs_count : Z; rs_min_seq : Z; rs_max_seq : Z; rs_min_key : list byte; rs_max_key : list byte;
}.

Definition cur_age (caps : Z) : decoder Z := fun p =>
  ensure? has_bit caps CAP_PERIODIC_AGE else Corruption ;; cur_time p.

Definition cur_range (caps : Z) : decoder RangeSection := fun p =>
  ensure? has_bit caps CAP_RANGE_DELETES else Corruption ;;
  let? (count, p) := cur_uvar p in
  let? (min_seq, p) := cur_uvar p in
  let? (max_seq, p) := cur_uvar p in
  let? (min_key, p) := cur_bytes p in
  let? (max_key, p) := cur_bytes p in
  ensure? negb ((count =? 0) || (zlen min_key =? 0) || (zlen max_key =? 0) || (max_seq <? min_seq))
    else Corruption ;;
  Ok (mkRangeSection count min_seq max_seq min_key max_key, p).

Definition cur_table_caps (caps : Z) : decoder Z := fun p =>
  let? (t, p) := cur_uvar p in
  ensure? negb ((t =? 0) || outside t caps) else Corruption ;; Ok (t, p).

Definition decode_sstable (caps : Z) : decoder SstMeta := fun p =>
  let? (id, p) := cur_uvar p in
  let? (level, p) := cur_u32_from_uvar p in
  let? (num_entries, p) := cur_uvar p in
  let? (num_tombstones, p) := cur_uvar p in
  let? (max_seq, p) := cur_uvar p in
  let? (klog_size, p) := cur_uvar p in
  let? (vlog_size, p) := cur_uvar p in
  let? (min_key, p) := cur_bytes p in
  let? (max_key, p) := cur_bytes p in
  let? (flags, p) := cur_uvar p in
  ensure? negb (outside flags SST_KNOWN) else UnsupportedFormat ;;
  let? (partition, p) := cur_present flags SST_PARTITION cur_string p in
  let? (tier, p) := cur_present flags SST_TIER cur_string p in
  let? (object, p) := cur_present flags SST_OBJECT cur_string p in
  let? (max_entry_time, p) := cur_present flags SST_MAX_ENTRY_TIME cur_time p in
  let? (age, p) := cur_present flags SST_LAST_COMPACTION_TIME (cur_age caps) p in
  let? (range, p) := cur_present flags SST_RANGE (cur_range caps) p in
  let? (tc, p) := cur_present flags SST_TABLE_CAPS (cur_table_caps caps) p in
  Ok (mkSstMeta id level num_entries num_tombstones max_seq klog_size vlog_size min_key max_key
        partition tier max_entry_time object age
        (if range is Some r then rs_count r else 0) (if range is Some r then rs_min_seq r else 0)
        (if range is Some r then rs_max_seq r else 0) (rs_min_key <$> range) (rs_max_key <$> range) tc, p).

Definition cur_unified_id (name : list byte) : decoder Z := fun p =>
  let? (i, p) := cur_u64le p in
  ensure? negb (i =? cf_id name) else Corruption ;; Ok (i, p).

Definition decode_cf (caps : Z) : decoder CfManifest := fun p =>
  let? (flags, p) := cur_uvar p in
  ensure? negb (outside flags CF_KNOWN) else UnsupportedFormat ;;
  let? (name, p) := cur_string p in
  let? (config, p) := cur_bytes p in
  let? (uid, p) := cur_present flags CF_UNIFIED_ID (cur_unified_id name) p in
  let? (count, p) := cur_uvar p in
  let? (ssts, p) := dec_repeat Corruption (decode_sstable caps) count p in
  Ok (mkCf name config ssts uid, p).

(** [checked_add(1) != Some(next_edit_id)]. *)
Definition cur_edit_log : decoder (Z * Z * Z) := fun p =>
  let? (gen, p) := cur_u64le p in
  let? (at_, p) := cur_u64le p in
  let? (next, p) := cur_u64le p in
  ensure? (at_ + 1 <? 2 ^ 64) && (at_ + 1 =? next) else Corruption ;;
  ensure? negb ((gen =? 0) && (at_ =? 0)) else Corruption ;;
  Ok ((gen, at_, next), p).

Definition cur_wal_floor (caps flags : Z) : decoder Z := fun p =>
  ensure? has_bit caps CAP_WAL_FLOOR else Corruption ;;
  ensure? has_bit flags DB_UNIFIED_WAL else Corruption ;;
  let? (f, p) := cur_u64le p in
  ensure? negb (f =? 0) else Corruption ;; Ok (f, p).

(** The body after the magic. *)
Definition decode_body : decoder Manifest := fun p =>
  let? (version, p) := cur_u32 p in
  ensure? version =? MANIFEST_VERSION else UnsupportedFormat ;;
  let? (caps, p) := cur_u64le p in
  ensure? negb (has_bit caps CAP_WAVES08_BODIES) else UnsupportedFormat ;;
  let? _ := check_caps caps in
  let? (flags, p) := cur_u32 p in
  ensure? negb (outside flags DB_KNOWN) else UnsupportedFormat ;;
  let? (next_file_id, p) := cur_u64le p in
  let? (global_seq, p) := cur_u64le p in
  let? (nonce, p) := cur_present flags DB_INSTANCE_NONCE cur_u64le p in
  let? (cursor, p) := cur_present flags DB_EDIT_LOG cur_edit_log p in
  let? (floor, p) := cur_present flags DB_WAL_FLOOR (cur_wal_floor caps flags) p in
  let? (count, p) := cur_uvar p in
  let? (cfs, p) := dec_repeat Corruption (decode_cf caps) count p in
  let '(gen, at_, next) := default (0, 0, 1) cursor in
  Ok (mkManifest next_file_id global_seq cfs
        (if has_bit flags DB_UNIFIED_WAL then Unified else PerColumnFamily)
        nonce caps gen at_ next (default 0 floor), p).

Definition manifest_decode (checksum : list byte -> Z) (data : list byte) : result Manifest :=
  ensure? negb ((4 <=? length data)%nat && (from_le_bytes (take 4 data) =? ONDA09_MAGIC))
    else UnsupportedFormat ;;
  ensure? (8 <=? length data)%nat && beq (take 8 data) MANIFEST_MAGIC else Corruption ;;
  ensure? (MANIFEST_HEADER_LEN + 4 <=? length data)%nat else Corruption ;;
  let body := take (length data - 4) data in
  ensure? from_le_bytes (drop (length data - 4) data) =? checksum body else Corruption ;;
  let? (m, p) := decode_body (drop 8 body) in
  ensure? zlen p =? 0 else Corruption ;; Ok m.

(** [Manifest::load]: a missing file is an empty database. *)
Definition manifest_load (checksum : list byte -> Z) (file : option (list byte)) : result Manifest :=
  match file with
  | None => Ok default_manifest
  | Some data => manifest_decode checksum data
  end.

(** ** What a writer encodes, and what is left of it *)

Definition range_ok (caps : Z) (s : SstMeta) : bool :=
  if written_range caps s then
    u64b (range_count s) && u64b (range_min_seq s) && u64b (range_max_seq s)
    && bytes_ok (or_empty (range_min_key s)) && bytes_ok (or_empty (range_max_key s))
    && negb (zlen (or_empty (range_min_key s)) =? 0) && negb (zlen (or_empty (range_max_key s)) =? 0)
    && (range_min_seq s <=? range_max_seq s)
  else true.

Definition table_caps_ok (caps t : Z) : bool := u64b t && negb (t =? 0) && negb (outside t caps).

Definition sst_ok (caps : Z) (s : SstMeta) : bool :=
  u64b (id s) && u32b (level s) && u64b (num_entries s) && u64b (num_tombstones s)
  && u64b (max_seq s) && u64b (klog_size s) && u64b (vlog_size s)
  && bytes_ok (min_key s) && bytes_ok (max_key s)
  && opt_ok str_ok (partition s) && opt_ok str_ok (tier s) && opt_ok str_ok (object s)
  && opt_ok i64b (max_entry_time s) && opt_ok i64b (last_compaction_time s)
  && range_ok caps s && opt_ok (table_caps_ok caps) (table_caps s).

Definition cf_ok (caps : Z) (c : CfManifest) : bool :=
  str_ok (cf_name c) && bytes_ok (cf_config c) && opt_ok u64b (unified_id c)
  && u64b (Z.of_nat (length (sstables c))) && forallb (sst_ok caps) (sstables c).

Definition snapshot_ok (m : Manifest) : bool :=
  u64b (next_file_id m) && u64b (global_seq m) && opt_ok u64b (instance_nonce m)
  && u64b (caps m) && negb (outside (caps m) KNOWN_CAPS)
  && u64b (generation_ m) && u64b (applied_through m) && u64b (next_edit_id m)
  && (next_edit_id m =? applied_through m + 1)
  && u64b (wal_floor m)
  && ((wal_floor m =? 0) || (has_bit (caps m) CAP_WAL_FLOOR && bool_decide (wal_layout m = Unified)))
  && u64b (Z.of_nat (length (cfs m))) && forallb (cf_ok (caps m)) (cfs m).

Definition canonical_sst (caps : Z) (s : SstMeta) : SstMeta :=
  let r := written_range caps s in
  mkSstMeta (id s) (level s) (num_entries s) (num_tombstones s) (max_seq s) (klog_size s) (vlog_size s)
    (min_key s) (max_key s) (partition s) (tier s) (max_entry_time s) (object s) (written_age caps s)
    (if r then range_count s else 0) (if r then range_min_seq s else 0) (if r then range_max_seq s else 0)
    (if r then Some (or_empty (range_min_key s)) else None)
    (if r then Some (or_empty (range_max_key s)) else None) (table_caps s).

Definition canonical_cf (caps : Z) (c : CfManifest) : CfManifest :=
  mkCf (cf_name c) (cf_config c) (map (canonical_sst caps) (sstables c)) (stored_unified_id c).

Definition canonical (m : Manifest) : Manifest := with_cfs m (map (canonical_cf (caps m)) (cfs m)).

(** ** Lemmas *)

Lemma some_spec {A} (o : option A) : some o = bool_decide (is_Some o).
Proof. destruct o; [by rewrite bool_decide_eq_true_2 by eauto|done]. Qed.

Lemma to_i64_wrap64 t : is_i64 t -> to_i64 (wrap64 t) = t.
Proof.
  unfold is_i64, to_i64, wrap64. intros Ht. rewrite Z.mod_mod by lia.
  destruct (Z.lt_ge_cases t 0) as [Hn|Hp].
  - replace (t mod 2 ^ 64) with (t + 2 ^ 64) by (apply Z.mod_unique with (-1); lia).
    destruct (Z.ltb_spec (t + 2 ^ 64) (2 ^ 63)); lia.
  - rewrite Z.mod_small by lia. destruct (Z.ltb_spec t (2 ^ 63)); lia.
Qed.

Lemma wrap64_range t : is_u64 (wrap64 t).
Proof. apply Z.mod_pos_bound. lia. Qed.

Lemma cur_time_enc t : i64b t = true -> decodes cur_time (enc_time t) t.
Proof.
  intros Ht rest. apply i64b_spec in Ht. unfold cur_time, enc_time.
  rewrite cur_uvar_enc by by apply u64b_spec, wrap64_range. cbn [rbind]. by rewrite to_i64_wrap64.
Qed.

Lemma cur_age_enc caps t :
  has_bit caps CAP_PERIODIC_AGE = true -> i64b t = true -> decodes (cur_age caps) (enc_time t) t.
Proof. intros Hc Ht rest. unfold cur_age. rewrite Hc. by apply cur_time_enc. Qed.

Lemma cur_table_caps_enc caps t :
  table_caps_ok caps t = true -> decodes (cur_table_caps caps) (enc_uvarint t) t.
Proof.
  unfold table_caps_ok. intros H rest. apply andb_true_iff in H as [H H3]. apply andb_true_iff in H as [H1 H2].
  unfold cur_table_caps. rewrite cur_uvar_enc by done. cbn [rbind].
  apply negb_true_iff in H2, H3. by rewrite H2, H3.
Qed.

Lemma sst_flags_bits caps s :
  let f := sst_flags caps s in
  u64b f = true /\ outside f SST_KNOWN = false /\
  has_bit f SST_PARTITION = some (partition s) /\ has_bit f SST_TIER = some (tier s) /\
  has_bit f SST_OBJECT = some (object s) /\ has_bit f SST_MAX_ENTRY_TIME = some (max_entry_time s) /\
  has_bit f SST_LAST_COMPACTION_TIME = some (written_age caps s) /\
  has_bit f SST_RANGE = written_range caps s /\ has_bit f SST_TABLE_CAPS = some (table_caps s).
Proof.
  unfold sst_flags. generalize (some (partition s)), (some (tier s)), (some (object s)),
    (some (max_entry_time s)), (some (written_age caps s)), (written_range caps s), (some (table_caps s)).
  intros [] [] [] [] [] [] []; by vm_compute.
Qed.

Definition range_section (caps : Z) (s : SstMeta) : option RangeSection :=
  if written_range caps s then
    Some (mkRangeSection (range_count s) (range_min_seq s) (range_max_seq s)
      (or_empty (range_min_key s)) (or_empty (range_max_key s)))
  else None.

Definition enc_range (r : RangeSection) : list byte :=
  enc_uvarint (rs_count r) ++ enc_uvarint (rs_min_seq r) ++ enc_uvarint (rs_max_seq r)
  ++ enc_lenbytes (rs_min_key r) ++ enc_lenbytes (rs_max_key r).

Lemma cur_range_enc caps s rest :
  range_ok caps s = true ->
  cur_present (sst_flags caps s) SST_RANGE (cur_range caps) (enc_present enc_range (range_section caps s) ++ rest) =
  Ok (range_section caps s, rest).
Proof.
  destruct (sst_flags_bits caps s) as (_ & _ & _ & _ & _ & _ & _ & Hr & _). unfold cur_present. rewrite Hr.
  unfold range_ok, range_section. destruct (written_range caps s) eqn:Hw; [|done]. intros H.
  unfold written_range in Hw. apply andb_true_iff in Hw as [Hcount Hcap]. apply Z.ltb_lt in Hcount.
  boolprop. unfold cur_range, enc_present, enc_range. cbn [rs_count rs_min_seq rs_max_seq rs_min_key rs_max_key].
  rewrite Hcap. cbn [guard rbind]. run_fields.
  repeat match goal with H : zlen _ <> 0 |- _ => apply Z.eqb_neq in H; rewrite H; clear H end.
  rewrite (proj2 (Z.eqb_neq _ _)) by lia. rewrite (proj2 (Z.ltb_ge _ _)) by done. done.
Qed.

Lemma enc_range_section caps s :
  (if written_range caps s then
     enc_uvarint (range_count s) ++ enc_uvarint (range_min_seq s) ++ enc_uvarint (range_max_seq s)
     ++ enc_lenbytes (or_empty (range_min_key s)) ++ enc_lenbytes (or_empty (range_max_key s))
   else []) = enc_present enc_range (range_section caps s).
Proof. unfold range_section. by destruct (written_range caps s). Qed.

(** A flagged section decodes to the option it was written from. *)
Lemma present_enc {A} (d : decoder A) enc (ok : A -> bool) m bit o rest :
  has_bit m bit = some o -> (forall x, ok x = true -> decodes d (enc x) x) -> opt_ok ok o = true ->
  cur_present m bit d (enc_present enc o ++ rest) = Ok (o, rest).
Proof. intros Hb. rewrite some_spec in Hb. intros. by eapply cur_present_enc. Qed.

Lemma written_age_ok caps s :
  opt_ok i64b (last_compaction_time s) = true ->
  opt_ok (fun t => has_bit caps CAP_PERIODIC_AGE && i64b t) (written_age caps s) = true.
Proof.
  unfold written_age. destruct (has_bit caps CAP_PERIODIC_AGE); [|done]. by destruct (last_compaction_time s).
Qed.

Lemma decode_sstable_enc caps s :
  sst_ok caps s = true -> decodes (decode_sstable caps) (encode_sstable caps s) (canonical_sst caps s).
Proof.
  unfold sst_ok. intros H rest. boolprop.
  destruct (sst_flags_bits caps s) as (Hu & Hk & B1 & B2 & B3 & B4 & B5 & B6 & B7).
  unfold decode_sstable, encode_sstable. rewrite enc_range_section. run_fields. rewrite Hk. cbn [negb guard rbind].
  rewrite (present_enc _ _ _ _ _ _ _ B1 cur_string_enc) by done. cbn [rbind].
  rewrite (present_enc _ _ _ _ _ _ _ B2 cur_string_enc) by done. cbn [rbind].
  rewrite (present_enc _ _ _ _ _ _ _ B3 cur_string_enc) by done. cbn [rbind].
  rewrite (present_enc _ _ _ _ _ _ _ B4 cur_time_enc) by done. cbn [rbind].
  erewrite (present_enc (cur_age caps) enc_time _ _ _ _ _ B5); [|..|by apply written_age_ok].
  2:{ intros t Ht. apply andb_true_iff in Ht as [? ?]. by apply cur_age_enc. }
  cbn [rbind]. rewrite cur_range_enc by done. cbn [rbind].
  rewrite (present_enc _ _ _ _ _ _ _ B7 (cur_table_caps_enc caps)) by done. cbn [rbind].
  unfold canonical_sst, range_section. by destruct (written_range caps s).
Qed.

Lemma encode_sstable_nonempty caps s : (0 < length (encode_sstable caps s))%nat.
Proof. unfold encode_sstable. rewrite length_app. pose proof (enc_uvarint_nonempty (id s)). lia. Qed.

(** A counted sequence decodes to the images of its elements. *)
Lemma dec_repeat_map {A} e (d : decoder A) enc (f : A -> A) (xs : list A) rest :
  (forall x, x ∈ xs -> decodes d (enc x) (f x)) -> (forall x, (0 < length (enc x))%nat) ->
  dec_repeat e d (Z.of_nat (length xs)) (concat (map enc xs) ++ rest) = Ok (map f xs, rest).
Proof.
  intros Hd Hp. unfold dec_repeat.
  assert (length (concat (map enc xs)) < S (length (concat (map enc xs) ++ rest)))%nat as Hf
    by (rewrite length_app; lia).
  revert Hf. generalize (S (length (concat (map enc xs) ++ rest))).
  induction xs as [|x xs IH]; intros fuel Hf; [by destruct fuel|].
  destruct fuel as [|fuel]; [lia|]. cbn [dec_repeat_loop length map concat] in *. rewrite length_app in Hf.
  specialize (Hp x). destruct (Z.leb_spec (Z.of_nat (S (length xs))) 0); [lia|].
  rewrite <- app_assoc, Hd by left. cbn [rbind].
  replace (Z.of_nat (S (length xs)) - 1) with (Z.of_nat (length xs)) by lia.
  rewrite IH; [done|intros; apply Hd; by right|lia].
Qed.

Lemma stored_unified_id_ok c :
  opt_ok u64b (unified_id c) = true ->
  opt_ok (fun i => u64b i && negb (i =? cf_id (cf_name c))) (stored_unified_id c) = true.
Proof.
  unfold stored_unified_id. destruct (unified_id c) as [i|]; [|done]. cbn.
  destruct (i =? cf_id (cf_name c)) eqn:E; [done|]. cbn. rewrite E. by intros ->.
Qed.

Lemma decode_cf_enc caps c :
  cf_ok caps c = true -> decodes (decode_cf caps) (encode_cf caps c) (canonical_cf caps c).
Proof.
  unfold cf_ok. intros H rest. boolprop. unfold decode_cf, encode_cf.
  set (f := if some (stored_unified_id c) then CF_UNIFIED_ID else 0).
  assert (u64b f = true /\ outside f CF_KNOWN = false /\ has_bit f CF_UNIFIED_ID = some (stored_unified_id c))
    as (Hf1 & Hf2 & Hf3) by (unfold f; destruct (some _); by vm_compute).
  run_fields. rewrite Hf2. cbn [negb guard rbind]. run_fields.
  erewrite (present_enc (cur_unified_id (cf_name c)) _ _ _ _ _ _ Hf3); [|..|by apply stored_unified_id_ok].
  2:{ intros i Hi rest'. apply andb_true_iff in Hi as [? Hi]. unfold cur_unified_id.
      rewrite cur_u64le_enc by done. cbn [rbind]. by rewrite Hi. }
  cbn [rbind]. run_fields. rewrite (dec_repeat_map _ _ _ (canonical_sst caps)); [done|..].
  - intros x Hx. apply decode_sstable_enc. rewrite forallb_forall in *.
    match goal with H : forall x, In x _ -> _ |- _ => by apply H, list_elem_of_In end.
  - apply encode_sstable_nonempty.
Qed.

Lemma db_flags_bits m :
  let f := db_flags m in
  is_u32 f /\ outside f DB_KNOWN = false /\
  has_bit f DB_UNIFIED_WAL = bool_decide (wal_layout m = Unified) /\
  has_bit f DB_INSTANCE_NONCE = some (instance_nonce m) /\
  has_bit f DB_EDIT_LOG = negb (at_default_cursor m) /\
  has_bit f DB_WAL_FLOOR = negb (wal_floor m =? 0).
Proof.
  unfold db_flags. generalize (bool_decide (wal_layout m = Unified)), (some (instance_nonce m)),
    (at_default_cursor m), (wal_floor m =? 0).
  intros [] [] [] []; (split; [split; by vm_compute|by vm_compute]).
Qed.

Lemma known_caps_not_waves08 c : outside c KNOWN_CAPS = false -> has_bit c CAP_WAVES08_BODIES = false.
Proof.
  unfold outside, has_bit. rewrite !negb_false_iff, !Z.eqb_eq. intros H.
  replace CAP_WAVES08_BODIES with (Z.land (Z.lnot KNOWN_CAPS) CAP_WAVES08_BODIES) by done.
  by rewrite Z.land_assoc, H.
Qed.

Definition cursor_section (m : Manifest) : option (Z * Z * Z) :=
  if at_default_cursor m then None else Some (generation_ m, applied_through m, next_edit_id m).

Definition enc_cursor (c : Z * Z * Z) : list byte :=
  let '(g, a, n) := c in le_bytes 8 g ++ le_bytes 8 a ++ le_bytes 8 n.

Definition floor_section (m : Manifest) : option Z := if wal_floor m =? 0 then None else Some (wal_floor m).

Definition cursor_ok (c : Z * Z * Z) : bool :=
  let '(g, a, n) := c in u64b g && u64b a && u64b n && (n =? a + 1) && negb ((g =? 0) && (a =? 0)).

Lemma cur_edit_log_enc c : cursor_ok c = true -> decodes cur_edit_log (enc_cursor c) c.
Proof.
  destruct c as [[g a] n]. unfold cursor_ok, cur_edit_log, enc_cursor. intros H rest.
  apply andb_true_iff in H as [H Hd]. boolprop. run_fields. subst n.
  match goal with H : u64b (a + 1) = true |- _ => apply andb_true_iff in H as [_ Hn] end.
  by rewrite Hn, Z.eqb_refl, Hd.
Qed.

Lemma cursor_section_ok m :
  u64b (generation_ m) = true -> u64b (applied_through m) = true -> u64b (next_edit_id m) = true ->
  next_edit_id m = applied_through m + 1 -> opt_ok cursor_ok (cursor_section m) = true.
Proof.
  intros Hg Ha Hn E. unfold cursor_section, at_default_cursor.
  destruct ((generation_ m =? 0) && (applied_through m =? 0)) eqn:Ed.
  - apply andb_true_iff in Ed as [_ Ed]. apply Z.eqb_eq in Ed.
    rewrite (proj2 (Z.eqb_eq (next_edit_id m) 1)) by lia. done.
  - cbn [andb opt_ok cursor_ok]. by rewrite Hg, Ha, Hn, Ed, (proj2 (Z.eqb_eq _ _) E).
Qed.

Lemma manifest_body_sections m :
  manifest_body m =
  MANIFEST_MAGIC ++ le_bytes 4 MANIFEST_VERSION ++ le_bytes 8 (caps m) ++ le_bytes 4 (db_flags m)
  ++ le_bytes 8 (next_file_id m) ++ le_bytes 8 (global_seq m)
  ++ enc_present (le_bytes 8) (instance_nonce m) ++ enc_present enc_cursor (cursor_section m)
  ++ enc_present (le_bytes 8) (floor_section m)
  ++ enc_uvarint (Z.of_nat (length (cfs m))) ++ concat (map (encode_cf (caps m)) (cfs m)).
Proof.
  destruct (db_flags_bits m) as (_ & _ & _ & _ & B3 & B4). unfold manifest_body, cursor_section, floor_section.
  rewrite B3, B4. by destruct (at_default_cursor m), (wal_floor m =? 0).
Qed.

Lemma cur_floor_enc m rest :
  u64b (wal_floor m) = true ->
  (wal_floor m =? 0) || (has_bit (caps m) CAP_WAL_FLOOR && bool_decide (wal_layout m = Unified)) = true ->
  cur_present (db_flags m) DB_WAL_FLOOR (cur_wal_floor (caps m) (db_flags m))
    (enc_present (le_bytes 8) (floor_section m) ++ rest) = Ok (floor_section m, rest).
Proof.
  destruct (db_flags_bits m) as (_ & _ & B1 & _ & _ & B4). unfold floor_section, cur_present, cur_wal_floor.
  rewrite B4, B1. intros Hu H. destruct (wal_floor m =? 0) eqn:E; [done|].
  cbn [orb] in H. apply andb_true_iff in H as [-> ->]. cbn [negb guard rbind enc_present].
  rewrite cur_u64le_enc by done. cbn [rbind]. by rewrite E.
Qed.

Lemma cursor_section_default m :
  default (0, 0, 1) (cursor_section m) = (generation_ m, applied_through m, next_edit_id m).
Proof.
  unfold cursor_section. destruct (at_default_cursor m) eqn:E; [|done]. unfold at_default_cursor in E.
  boolprop. cbn. congruence.
Qed.

Lemma floor_section_default m : default 0 (floor_section m) = wal_floor m.
Proof. unfold floor_section. by destruct (Z.eqb_spec (wal_floor m) 0). Qed.

Lemma encode_cf_nonempty caps c : (0 < length (encode_cf caps c))%nat.
Proof.
  unfold encode_cf. rewrite length_app.
  pose proof (enc_uvarint_nonempty (if some (stored_unified_id c) then CF_UNIFIED_ID else 0)). lia.
Qed.

Lemma decode_body_enc m :
  snapshot_ok m = true -> decode_body (drop 8 (manifest_body m)) = Ok (canonical m, []).
Proof.
  unfold snapshot_ok. intros H. boolprop. rewrite manifest_body_sections.
  destruct (db_flags_bits m) as (Hu & Hk & B1 & B2 & B3 & B4).
  rewrite drop_app_exact by done. unfold decode_body, cur_u32.
  rewrite (dec_le_enc Corruption 4 MANIFEST_VERSION) by done. cbn [rbind]. rewrite Z.eqb_refl. cbn [guard rbind].
  run_fields. match goal with H : outside (caps m) _ = false |- _ => rename H into Hcaps end.
  rewrite (known_caps_not_waves08 _ Hcaps). unfold check_caps. rewrite Hcaps. cbn [negb guard rbind].
  rewrite (dec_le_enc Corruption 4 (db_flags m)) by done. cbn [rbind]. rewrite Hk. cbn [negb guard rbind]. run_fields.
  rewrite (present_enc _ _ _ _ _ _ _ B2 cur_u64le_enc) by done. cbn [rbind].
  assert (has_bit (db_flags m) DB_EDIT_LOG = some (cursor_section m)) as B3'
    by (rewrite B3; unfold cursor_section; by destruct (at_default_cursor m)).
  rewrite (present_enc _ _ _ _ _ _ _ B3' cur_edit_log_enc) by by apply cursor_section_ok. cbn [rbind].
  rewrite cur_floor_enc by done. cbn [rbind]. run_fields.
  match goal with |- context [dec_repeat _ _ _ ?p] => rewrite <- (app_nil_r p) end.
  rewrite (dec_repeat_map _ _ _ (canonical_cf (caps m))); [|..|apply encode_cf_nonempty].
  2:{ intros x Hx. apply decode_cf_enc. rewrite forallb_forall in *.
      match goal with H : forall x, In x _ -> _ |- _ => by apply H, list_elem_of_In end. }
  cbn [rbind]. rewrite cursor_section_default, floor_section_default, B1. unfold canonical, with_cfs.
  by destruct (wal_layout m).
Qed.

Lemma manifest_body_length m : (40 <= length (manifest_body m))%nat.
Proof. unfold manifest_body. rewrite !length_app, !le_bytes_length. cbn [length MANIFEST_MAGIC]. lia. Qed.

Lemma manifest_decode_enc checksum m :
  (forall b, is_u32 (checksum b)) -> snapshot_ok m = true ->
  manifest_decode checksum (manifest_encode checksum m) = Ok (canonical m).
Proof.
  intros Hck Hm. unfold manifest_decode, manifest_encode. pose proof (manifest_body_length m) as Hl.
  set (body := manifest_body m) in *. rewrite length_app, le_bytes_length.
  replace (length body + 4 - 4)%nat with (length body) by lia. rewrite take_app_length, drop_app_length.
  assert (take 8 (body ++ le_bytes 4 (checksum body)) = MANIFEST_MAGIC) as H8 by done.
  assert (take 4 (body ++ le_bytes 4 (checksum body)) = [x59; x4f; x4c; x4f]) as H4 by done.
  rewrite H4, H8. change (from_le_bytes [x59; x4f; x4c; x4f] =? ONDA09_MAGIC) with false. rewrite andb_false_r.
  unfold MANIFEST_HEADER_LEN. rewrite !(proj2 (Nat.leb_le _ _)) by lia.
  change (beq MANIFEST_MAGIC MANIFEST_MAGIC) with true. cbn [negb andb guard rbind].
  rewrite from_le_bytes_u32, Z.eqb_refl by done. cbn [guard rbind].
  unfold body. rewrite decode_body_enc by done. done.
Qed.

(** ** What the decoder accepts *)

Ltac dec_inv :=
  repeat match goal with
  | H : rbind (guard ?b _) _ = Ok _ |- _ =>
      let E := fresh "G" in destruct b eqn:E; [|discriminate H]; cbn [guard rbind] in H
  | H : rbind (?d ?p) _ = Ok _ |- _ =>
      let E := fresh "E" in destruct (d p) as [[? ?]|] eqn:E; [|discriminate H]; cbn [rbind] in H
  | H : Ok _ = Ok _ |- _ => injection H as <- <-
  end.

(** [d] returns only values of which [ok] holds. *)
Definition yields {A} (d : decoder A) (ok : A -> bool) : Prop :=
  forall p x p', d p = Ok (x, p') -> ok x = true.

Lemma cur_uvar_yields : yields cur_uvar u64b.
Proof.
  intros p x p'. unfold cur_uvar, dec_uvarint. destruct (uvarint p) as [[y n]|] eqn:E; [|done].
  intros H. injection H as <- <-. apply u64b_spec. by apply uvarint_bounds in E as [? _].
Qed.

Lemma cur_u32_yields : yields cur_u32_from_uvar u32b.
Proof.
  intros p x p'. unfold cur_u32_from_uvar. intros H. dec_inv. unfold u32b. rewrite G, andb_true_r.
  apply cur_uvar_yields in E. by apply andb_true_iff in E as [? _].
Qed.

Lemma cur_u64le_yields : yields cur_u64le u64b.
Proof.
  intros p x p'. unfold cur_u64le, dec_le, read_le. destruct (Nat.leb_spec 8 (length p)); [|done].
  intros H'. injection H' as <- <-. apply u64b_spec. pose proof (from_le_bytes_range (take 8 p)) as Hr.
  rewrite length_take, Nat.min_l in Hr by done. exact Hr.
Qed.

Lemma cur_bytes_yields : yields cur_bytes bytes_ok.
Proof.
  intros p x p'. unfold cur_bytes, dec_lenbytes. intros H. dec_inv. apply cur_uvar_yields, u64b_spec in E.
  unfold dec_bytes in H. destruct (_ <? _); [done|]. injection H as <- <-.
  unfold bytes_ok, zlen. apply Z.ltb_lt. unfold is_u64 in E. rewrite length_take. lia.
Qed.

Lemma cur_string_yields : yields cur_string str_ok.
Proof.
  intros p x p'. unfold cur_string. intros H. dec_inv. unfold str_ok. rewrite G.
  by rewrite (cur_bytes_yields _ _ _ E).
Qed.

Lemma cur_time_yields : yields cur_time i64b.
Proof. intros p x p'. unfold cur_time. intros H. dec_inv. apply i64b_spec, to_i64_range. Qed.

Lemma cur_present_yields {A} (d : decoder A) ok m bit : yields d ok -> yields (cur_present m bit d) (opt_ok ok).
Proof.
  intros Hd p x p'. unfold cur_present. destruct (has_bit m bit); intros H; dec_inv; [|done].
  by eapply Hd.
Qed.

Lemma dec_repeat_all {A} e (d : decoder A) (P : A -> Prop) count p xs p' :
  (forall p x p', d p = Ok (x, p') -> P x) -> 0 <= count -> dec_repeat e d count p = Ok (xs, p') ->
  Forall P xs /\ Z.of_nat (length xs) = count.
Proof.
  intros Hd. unfold dec_repeat. generalize (S (length p)). intros fuel. revert count p xs.
  induction fuel as [|fuel IH]; intros count p xs Hc H; cbn [dec_repeat_loop] in H;
    destruct (Z.leb_spec count 0); try discriminate H.
  1,2: injection H as <- <-; split; [done|cbn; lia].
  dec_inv. destruct (IH (count - 1) _ _ ltac:(lia) E0) as [H1 H2]. cbn [length].
  split; [constructor; [by eapply Hd|done]|lia].
Qed.

(** Elements that are accepted and kept. *)
Lemma Forall_accepted {A} (ok : A -> bool) (f : A -> A) l :
  Forall (fun x => ok x = true /\ f x = x) l -> forallb ok l = true /\ map f l = l.
Proof. induction 1 as [|x l [H1 H2] _ [IH1 IH2]]; cbn; [done|]. by rewrite H1, H2, IH1, IH2. Qed.

Lemma cur_age_yields caps : yields (cur_age caps) (fun t => has_bit caps CAP_PERIODIC_AGE && i64b t).
Proof.
  intros p x p'. unfold cur_age. intros H. dec_inv. by apply cur_time_yields in H.
Qed.

Definition summary_ok (caps : Z) (r : RangeSection) : bool :=
  has_bit caps CAP_RANGE_DELETES && u64b (rs_count r) && u64b (rs_min_seq r) && u64b (rs_max_seq r)
  && bytes_ok (rs_min_key r) && bytes_ok (rs_max_key r)
  && negb ((rs_count r =? 0) || (zlen (rs_min_key r) =? 0) || (zlen (rs_max_key r) =? 0)
           || (rs_max_seq r <? rs_min_seq r)).

Lemma cur_range_yields caps : yields (cur_range caps) (summary_ok caps).
Proof.
  intros p x p'. unfold cur_range. intros H. dec_inv. unfold summary_ok. cbn [rs_count rs_min_seq rs_max_seq rs_min_key rs_max_key].
  apply cur_uvar_yields in E, E0, E1. apply cur_bytes_yields in E2, E3. by rewrite G, E, E0, E1, E2, E3, G0.
Qed.

Lemma cur_table_caps_yields caps : yields (cur_table_caps caps) (table_caps_ok caps).
Proof.
  intros p x p'. unfold cur_table_caps. intros H. dec_inv. unfold table_caps_ok.
  apply cur_uvar_yields in E. rewrite negb_orb in G. apply andb_true_iff in G as [-> ->]. by rewrite E.
Qed.

Definition canonical_sst_ok (caps : Z) (s : SstMeta) : Prop := sst_ok caps s = true /\ canonical_sst caps s = s.

Lemma age_canonical caps o :
  opt_ok (fun t => has_bit caps CAP_PERIODIC_AGE && i64b t) o = true ->
  opt_ok i64b o = true /\ (if has_bit caps CAP_PERIODIC_AGE then o else None) = o.
Proof. destruct o as [t|]; cbn; [|by destruct (has_bit _ _)]. intros H. apply andb_true_iff in H as [-> ?]. done. Qed.

Lemma summary_canonical caps r :
  summary_ok caps r = true ->
  has_bit caps CAP_RANGE_DELETES = true /\ (0 <? rs_count r) = true /\
  u64b (rs_count r) && u64b (rs_min_seq r) && u64b (rs_max_seq r) && bytes_ok (rs_min_key r)
  && bytes_ok (rs_max_key r) && negb (zlen (rs_min_key r) =? 0) && negb (zlen (rs_max_key r) =? 0)
  && (rs_min_seq r <=? rs_max_seq r) = true.
Proof.
  unfold summary_ok. rewrite !negb_orb. intros H. repeat rewrite andb_true_iff in H. rewrite <- Z.leb_antisym in H.
  destruct H as ((((((-> & Hc) & ->) & ->) & ->) & ->) & ((Hz & ->) & ->) & ->). rewrite Hc.
  apply u64b_spec in Hc. apply negb_true_iff, Z.eqb_neq in Hz. unfold is_u64 in Hc.
  conj_split; [done| |done]. apply Z.ltb_lt. lia.
Qed.

Lemma decode_sstable_yields caps p s p' :
  decode_sstable caps p = Ok (s, p') -> canonical_sst_ok caps s.
Proof.
  unfold decode_sstable. intros H. dec_inv.
  repeat match goal with
  | E : cur_uvar _ = Ok _ |- _ => apply cur_uvar_yields in E
  | E : cur_u32_from_uvar _ = Ok _ |- _ => apply cur_u32_yields in E
  | E : cur_bytes _ = Ok _ |- _ => apply cur_bytes_yields in E
  | E : cur_present _ _ cur_string _ = Ok _ |- _ => apply (cur_present_yields _ _ _ _ cur_string_yields) in E
  | E : cur_present _ _ cur_time _ = Ok _ |- _ => apply (cur_present_yields _ _ _ _ cur_time_yields) in E
  | E : cur_present _ _ (cur_age _) _ = Ok _ |- _ => apply (cur_present_yields _ _ _ _ (cur_age_yields _)) in E
  | E : cur_present _ _ (cur_range _) _ = Ok _ |- _ => apply (cur_present_yields _ _ _ _ (cur_range_yields _)) in E
  | E : cur_present _ _ (cur_table_caps _) _ = Ok _ |- _ =>
      apply (cur_present_yields _ _ _ _ (cur_table_caps_yields _)) in E
  end.
  destruct (age_canonical _ _ E13) as [Ha Ha'].
  unfold canonical_sst_ok, sst_ok, canonical_sst, range_ok, written_range, written_age.
  cbn [id level num_entries num_tombstones max_seq klog_size vlog_size min_key max_key partition tier
    max_entry_time object last_compaction_time range_count range_min_seq range_max_seq range_min_key
    range_max_key table_caps].
  rewrite E, E0, E1, E2, E3, E4, E5, E6, E7, E9, E10, E11, E12, Ha, Ha', E15.
  destruct o4 as [r|]; [|done]. apply summary_canonical in E14 as (Hb & Hc & Hr). cbn [fmap option_fmap option_map or_empty].
  by rewrite Hb, Hc, Hr.
Qed.

Lemma cur_unified_id_yields name :
  yields (cur_unified_id name) (fun i => u64b i && negb (i =? cf_id name)).
Proof. intros p x p'. unfold cur_unified_id. intros H. dec_inv. rewrite G. by rewrite (cur_u64le_yields _ _ _ E). Qed.

Lemma decode_cf_yields caps p c p' :
  decode_cf caps p = Ok (c, p') -> cf_ok caps c = true /\ canonical_cf caps c = c.
Proof.
  unfold decode_cf. intros H. dec_inv. pose proof (cur_uvar_yields _ _ _ E3) as Hn.
  apply u64b_spec in Hn as Hn'.
  destruct (dec_repeat_all _ _ (canonical_sst_ok caps) _ _ _ _ (decode_sstable_yields caps) (proj1 Hn') E4) as [HF HL].
  apply Forall_accepted in HF as [HF1 HF2]. apply cur_string_yields in E0. apply cur_bytes_yields in E1.
  apply (cur_present_yields _ _ _ _ (cur_unified_id_yields _)) in E2.
  unfold cf_ok, canonical_cf, stored_unified_id. cbn [cf_name cf_config sstables unified_id].
  rewrite E0, E1, HL, Hn, HF1, HF2. destruct o as [i|]; [|done]. cbn [opt_ok] in *.
  apply andb_true_iff in E2 as [-> Hi]. apply negb_true_iff in Hi. by rewrite Hi.
Qed.

Lemma cur_edit_log_yields : yields cur_edit_log cursor_ok.
Proof.
  intros p x p'. unfold cur_edit_log. intros H. dec_inv. unfold cursor_ok.
  apply cur_u64le_yields in E, E0, E1. apply andb_true_iff in G as [_ G]. apply Z.eqb_eq in G. subst.
  by rewrite E, E0, E1, Z.eqb_refl, G0.
Qed.

Lemma cur_wal_floor_yields caps flags :
  yields (cur_wal_floor caps flags)
    (fun f => u64b f && negb (f =? 0) && has_bit caps CAP_WAL_FLOOR && has_bit flags DB_UNIFIED_WAL).
Proof.
  intros p x p'. unfold cur_wal_floor. intros H. dec_inv. apply cur_u64le_yields in E. by rewrite E, G1.
Qed.

Lemma decode_body_yields p m p' :
  decode_body p = Ok (m, p') -> snapshot_ok m = true /\ canonical m = m.
Proof.
  unfold decode_body, check_caps. intros H. dec_inv.
  destruct (outside z0 KNOWN_CAPS) eqn:Hk; [discriminate H|]. cbn [negb guard rbind] in H. dec_inv.
  pose proof (cur_uvar_yields _ _ _ E7) as Hn. apply u64b_spec in Hn as Hn'.
  destruct (dec_repeat_all _ _ (fun c => cf_ok z0 c = true /\ canonical_cf z0 c = c) _ _ _ _
    (decode_cf_yields z0) (proj1 Hn') E8) as [HF HL].
  apply Forall_accepted in HF as [HF1 HF2]. apply cur_u64le_yields in E0, E2, E3.
  apply (cur_present_yields _ _ _ _ cur_u64le_yields) in E4.
  apply (cur_present_yields _ _ _ _ cur_edit_log_yields) in E5.
  apply (cur_present_yields _ _ _ _ (cur_wal_floor_yields _ _)) in E6.
  destruct (default (0, 0, 1) o0) as [[gen at_] next] eqn:Hc. injection H as <- <-.
  assert (u64b gen = true /\ u64b at_ = true /\ u64b next = true /\ (next =? at_ + 1) = true) as (Hg & Ha & Hx & He).
  { destruct o0 as [[[g a] n]|]; cbn in Hc; injection Hc as <- <- <-; [|done]. cbn [opt_ok cursor_ok] in E5.
    repeat rewrite andb_true_iff in E5. tauto. }
  unfold snapshot_ok, canonical, with_cfs.
  cbn [next_file_id global_seq cfs wal_layout instance_nonce caps generation_ applied_through next_edit_id wal_floor].
  rewrite E2, E3, E4, E0, Hk, Hg, Ha, Hx, He, HL, Hn, HF1, HF2. split; [|done].
  destruct o1 as [f|]; [|done]. cbn [opt_ok default] in *. repeat rewrite andb_true_iff in E6.
  destruct E6 as [[[Hf _] Hw] Hun]. cbn. by rewrite Hf, Hw, Hun, bool_decide_eq_true_2, !orb_true_r.
Qed.

Lemma manifest_decode_yields checksum data m :
  manifest_decode checksum data = Ok m -> snapshot_ok m = true /\ canonical m = m.
Proof. unfold manifest_decode. intros H. dec_inv. injection H as <-. by eapply decode_body_yields. Qed.

(** ** Properties *)

(** C28: a catalog written as a snapshot reads back, up to what its sections can carry: the decoder
    returns the catalog without the age stamps and range summaries its capabilities do not announce and
    without the family ids that are the derived ones. *)
Theorem manifest_snapshot_roundtrip checksum (Hck : forall b, is_u32 (checksum b)) m :
  snapshot_ok m = true ->
  manifest_decode checksum (manifest_encode checksum m) = Ok (canonical m) /\
  map effective_unified_id (cfs (canonical m)) = map effective_unified_id (cfs m) /\
  canonical (canonical m) = canonical m.
Proof.
  intros Hm. pose proof (manifest_decode_enc checksum m Hck Hm) as Hd. conj_split; [done| |].
  - cbn. rewrite map_map. apply map_ext. intros c. unfold canonical_cf, effective_unified_id, stored_unified_id. cbn.
    destruct (unified_id c) as [i|]; [|done]. by destruct (Z.eqb_spec i (cf_id (cf_name c))).
  - by apply manifest_decode_yields in Hd as [_ ?].
Qed.

Definition sample_snapshot : Manifest :=
  mkManifest 12 90
    [mkCf [x63; x66] [x01; x02]
       [mkSstMeta 9 1 10 0 77 4096 0 [x61] [x7a] (Some [x70]) None (Some (-5)) None (Some 3)
          2 40 50 (Some [x61]) (Some [x63]) (Some 4)] (Some 7);
     mkCf [x64] [] [] None]
    Unified (Some 99) (Z.lor CAP_RANGE_DELETES CAP_WAL_FLOOR) 2 7 8 6.

Lemma manifest_snapshot_roundtrip_witness :
  manifest_decode (fun _ => 7) (manifest_encode (fun _ => 7) sample_snapshot) = Ok (canonical sample_snapshot) /\
  canonical sample_snapshot <> sample_snapshot.
Proof.
  split; [|vm_compute; congruence].
  apply (manifest_snapshot_roundtrip (fun _ => 7) ltac:(intros; split; vm_compute; congruence) sample_snapshot).
  vm_compute; reflexivity.
Defined.

(** the decoder accepts only what an encoder produces.  Whatever the file holds, a catalog that is
    returned is well formed and canonical, and writing it again gives a file that reads back to it. *)
Theorem manifest_decode_canonical checksum (Hck : forall b, is_u32 (checksum b)) data m :
  manifest_decode checksum data = Ok m ->
  snapshot_ok m = true /\ canonical m = m /\
  manifest_decode checksum (manifest_encode checksum m) = Ok m.
Proof.
  intros H. apply manifest_decode_yields in H as [Hm Hc]. conj_split; [done..|].
  by rewrite manifest_decode_enc, Hc.
Qed.

Lemma manifest_decode_canonical_witness :
  let m := canonical sample_snapshot in
  manifest_decode (fun _ => 7) (manifest_encode (fun _ => 7) sample_snapshot) = Ok m /\
  manifest_decode (fun _ => 7) (manifest_encode (fun _ => 7) m) = Ok m.
Proof.
  split; [vm_compute; reflexivity|].
  apply (manifest_decode_canonical (fun _ => 7) ltac:(intros; split; vm_compute; congruence)
    (manifest_encode (fun _ => 7) sample_snapshot)).
  vm_compute; reflexivity.
Defined.
