(* ===== verification/RangeTombstone.v ===== *)
(** * Range tombstones (range_tombstone.rs, and the fragment helpers of
    compaction.rs)

    The set of range deletes a memtable holds, its fragmentation into disjoint
    sorted intervals with a stack of sequences each, the on-disk codec of the
    fragments, and the three read shapes: the backward scan of a set, the
    binary search of a fragment list, and the monotonic cursor of a scan.

    One reference answers for all of them: [newest_cover], the greatest
    sequence at or below the read sequence among the spans that contain the
    key.  The lock around the set serialises its operations, so an execution
    is a sequence of them; the weak-pointer accounting of [FragmentRegistry]
    is not modelled. *)

From Stdlib Require Import ZArith Lia Sorted.
From Stdlib.Strings Require Import Byte.
From stdpp Require Import base list sets sorting.
From S2P Require Import Prelude Encoding Codec Comparator.

Open Scope Z_scope.

(** ** Data *)

Record Span := mkSpan { s_start : key; s_end : key; s_seq : Z }.

Record Fragment := mkFragment { f_start : key; f_end : key; f_seqs : list Z }.

#[export] Instance Fragment_eq_dec : EqDecision Fragment.
Proof. solve_decision. Defined.

Definition max_seq (f : Fragment) : Z := default 0 (head (f_seqs f)).
Definition min_seq (f : Fragment) : Z := default 0 (last (f_seqs f)).

Definition visible_seq (f : Fragment) (read_seq : Z) : option Z :=
  List.find (fun s => s <=? read_seq) (f_seqs f).

Record SetInner := mkSetInner {
  spans : list Span;
  cache : option (list Fragment);
  resident : bool;
  retired : bool;
  builds : Z;
  prefix_max_end : list key
}.

Record RangeTombstoneSet := mkSet { inner : SetInner; set_len : nat; hits : Z }.

Definition set_new : RangeTombstoneSet :=
  mkSet (mkSetInner [] None false false 0 []) 0 0.

Definition set_is_empty (t : RangeTombstoneSet) : bool := (set_len t =? 0)%nat.

(** ** The set *)

(** The [running] fold of [add]: the greatest end so far, element by element. *)
Fixpoint running_max (cmp : Comparator) (running : option key) (ends : list key) : list key :=
  match ends with
  | [] => []
  | e :: ends =>
      let m := match running with
               | Some m => if is_ge (compare cmp m e) then m else e
               | None => e
               end in
      m :: running_max cmp (Some m) ends
  end.

Definition set_add (cmp : Comparator) (start end_ : key) (seq : Z)
    (t : RangeTombstoneSet) : RangeTombstoneSet :=
  let g := inner t in
  let at_ := partition_point (fun s => is_le (compare cmp (s_start s) start)) (spans g) in
  let spans' := insert_at at_ (mkSpan start end_ seq) (spans g) in
  let kept := take at_ (prefix_max_end g) in
  let prefix' := kept ++ running_max cmp (last kept) (map s_end (drop at_ spans')) in
  mkSet (mkSetInner spans' None false (retired g) (builds g) prefix')
    (S (set_len t)) (hits t).

(** [best.map_or(s, |b| b.max(s))]. *)
Definition opt_max (best : option Z) (s : Z) : option Z :=
  Some (match best with Some b => Z.max b s | None => s end).

(** The [while i > 0] loop of [covering_seq]; an index is always in range. *)
Fixpoint cover_scan (cmp : Comparator) (g : SetInner) (k : key) (read_seq : Z)
    (i : nat) (best : option Z) : option Z :=
  match i with
  | O => best
  | S i =>
      match prefix_max_end g !! i, spans g !! i with
      | Some m, Some s =>
          if is_le (compare cmp m k) then best
          else cover_scan cmp g k read_seq i
                 (if (s_seq s <=? read_seq) && is_gt (compare cmp (s_end s) k)
                  then opt_max best (s_seq s) else best)
      | _, _ => best
      end
  end.

Definition set_covering_seq (cmp : Comparator) (t : RangeTombstoneSet) (k : key)
    (read_seq : Z) : option Z :=
  if set_is_empty t then None
  else
    let g := inner t in
    let i := partition_point (fun s => is_le (compare cmp (s_start s) k)) (spans g) in
    cover_scan cmp g k read_seq i None.

(** ** Fragmentation *)

Definition clip_low (cmp : Comparator) (lower : option key) (k : key) : key :=
  match lower with
  | Some l => if is_lt (compare cmp k l) then l else k
  | None => k
  end.

Definition clip_high (cmp : Comparator) (upper : option key) (k : key) : key :=
  match upper with
  | Some u => if is_gt (compare cmp k u) then u else k
  | None => k
  end.

Definition span_bounds (cmp : Comparator) (lower upper : option key) (s : Span) : list key :=
  let a := clip_low cmp lower (s_start s) in
  let b := clip_high cmp upper (s_end s) in
  if is_ge (compare cmp a b) then [] else [a; b].

(** The stack of one elementary interval [\[a, b)]: the sequences of the spans
    that contain it, newest first, each once. *)
Definition stack_of (cmp : Comparator) (ss : list Span) (a b : key) : list Z :=
  dedup_by Z.eqb
    (sort_by (fun x y => y ?= x)
       (map s_seq
          (List.filter
             (fun s => is_le (compare cmp (s_start s) a) && is_ge (compare cmp (s_end s) b)) ss))).

(** One iteration of the loop over [bounds.windows(2)]. *)
Definition frag_step (cmp : Comparator) (ss : list Span) (out : list Fragment)
    (ab : key * key) : list Fragment :=
  let '(a, b) := ab in
  let seqs := stack_of cmp ss a b in
  match seqs with
  | [] => out
  | _ =>
      match last out with
      | Some prev =>
          if bool_decide (f_seqs prev = seqs) && is_eq (compare cmp (f_end prev) a)
          then removelast out ++ [mkFragment (f_start prev) b (f_seqs prev)]
          else out ++ [mkFragment a b seqs]
      | None => out ++ [mkFragment a b seqs]
      end
  end.

Definition fragment_bounds (cmp : Comparator) (ss : list Span) (lower upper : option key)
    : list key :=
  dedup_by (fun a b => is_eq (compare cmp a b))
    (sort_by (compare cmp) (concat (map (span_bounds cmp lower upper) ss))).

Definition fragment_spans (cmp : Comparator) (ss : list Span) (lower upper : option key)
    : list Fragment :=
  fold_left (frag_step cmp ss) (windows2 (fragment_bounds cmp ss lower upper)) [].

(** [RangeTombstoneSet::fragments]. *)
Definition set_fragments (cmp : Comparator) (t : RangeTombstoneSet) (lower upper : option key)
    : list Fragment :=
  if set_is_empty t then [] else fragment_spans cmp (spans (inner t)) lower upper.

Definition set_retire (t : RangeTombstoneSet) : RangeTombstoneSet :=
  let g := inner t in
  mkSet (mkSetInner (spans g) None false true (builds g) (prefix_max_end g)) (set_len t) (hits t).

(** [fragment_snapshot]: serve the cached fragments, or build and cache them.
    The recheck under the write lock finds the cache a concurrent reader built,
    which is the first branch at the point the lock was taken. *)
Definition fragment_snapshot (cmp : Comparator) (t : RangeTombstoneSet)
    : list Fragment * RangeTombstoneSet :=
  let g := inner t in
  match cache g with
  | Some snapshot => (snapshot, mkSet g (set_len t) (hits t + 1))
  | None =>
      let snapshot := fragment_spans cmp (spans g) None None in
      (snapshot,
       mkSet (mkSetInner (spans g) (Some snapshot) (negb (retired g)) (retired g)
                (builds g + 1) (prefix_max_end g)) (set_len t) (hits t))
  end.

(** ** Summaries and explosion *)

Record RangeSummary := mkRangeSummary {
  rs_count : Z; rs_min_seq : Z; rs_max_seq : Z;
  rs_min_key : option key; rs_max_key : option key
}.

(** [Iterator::min] / [max] with [unwrap_or(0)]. *)
Definition min_or_zero (l : list Z) : Z :=
  match l with [] => 0 | x :: l => fold_left Z.min l x end.
Definition max_or_zero (l : list Z) : Z :=
  match l with [] => 0 | x :: l => fold_left Z.max l x end.

Definition summarize (frags : list Fragment) : RangeSummary :=
  mkRangeSummary (Z.of_nat (length frags))
    (min_or_zero (map min_seq frags)) (max_or_zero (map max_seq frags))
    (f_start <$> head frags) (f_end <$> last frags).

Definition spans_of_fragments (frags : list Fragment) : list Span :=
  concat (map (fun f => map (mkSpan (f_start f) (f_end f)) (f_seqs f)) frags).

(** ** The fragment section of a table *)

Definition encode_fragment (f : Fragment) : list byte :=
  enc_lenbytes (f_start f) ++ enc_lenbytes (f_end f) ++
  enc_uvarint (Z.of_nat (length (f_seqs f))) ++ concat (map enc_uvarint (f_seqs f)).

Definition encode_fragments (frags : list Fragment) : list byte :=
  enc_uvarint (Z.of_nat (length frags)) ++ concat (map encode_fragment frags).

(** [seqs.windows(2).any(|w| w\[0\] <= w\[1\])], negated. *)
Definition strictly_descending (l : list Z) : bool :=
  negb (existsb (fun w => fst w <=? snd w) (windows2 l)).

Definition decode_fragment : decoder Fragment := fun p =>
  let? (start, p) := dec_lenbytes Corruption p in
  let? (end_, p) := dec_lenbytes Corruption p in
  let? (nseq, p) := dec_uvarint Corruption p in
  ensure? negb (nseq =? 0) else Corruption ;;
  let? (seqs, p) := dec_repeat Corruption (dec_uvarint Corruption) nseq p in
  ensure? strictly_descending seqs else Corruption ;;
  Ok (mkFragment start end_ seqs, p).

Definition decode_fragments (p : list byte) : result (list Fragment) :=
  let? (count, p) := dec_uvarint Corruption p in
  let? (out, p) := dec_repeat Corruption decode_fragment count p in
  ensure? bool_decide (p = []) else Corruption ;;
  Ok out.

(** ** Reading *)

Definition covering_seq_in (cmp : Comparator) (frags : list Fragment) (k : key) (read_seq : Z)
    : option Z :=
  match frags !! partition_point (fun f => is_le (compare cmp (f_end f) k)) frags with
  | None => None
  | Some f => if is_gt (compare cmp (f_start f) k) then None else visible_seq f read_seq
  end.

Record FragCursor := mkFragCursor {
  c_frags : list Fragment;
  idx : nat;
  window_start : nat;
  window_end : nat;
  c_prefix : option key
}.

(** A cursor over a unified source compares the 8-byte prefix first; the bounds
    of such a source carry it. *)
Definition cursor_compare (cmp : Comparator) (c : FragCursor) (bound k : key) : comparison :=
  match c_prefix c with
  | Some prefix =>
      then_with (slice_cmp (take 8 bound) prefix) (compare cmp (drop 8 bound) k)
  | None => compare cmp bound k
  end.

(** The first [while]: advance past the fragments that end at or before the
    key.  [n] bounds the iterations by the window. *)
Fixpoint advance (cmp : Comparator) (c : FragCursor) (k : key) (n i : nat) : nat :=
  match n with
  | O => i
  | S n =>
      if (i <? window_end c)%nat then
        match c_frags c !! i with
        | Some f => if is_le (cursor_compare cmp c (f_end f) k) then advance cmp c k n (S i) else i
        | None => i
        end
      else i
  end.

(** The second [while]: back up while the previous fragment ends above it. *)
Fixpoint retreat (cmp : Comparator) (c : FragCursor) (k : key) (i : nat) : nat :=
  match i with
  | O => O
  | S j =>
      if (window_start c <? S j)%nat then
        match c_frags c !! j with
        | Some f => if is_gt (cursor_compare cmp c (f_end f) k) then retreat cmp c k j else S j
        | None => S j
        end
      else S j
  end.

Definition cursor_seek (cmp : Comparator) (c : FragCursor) (k : key) : nat :=
  retreat cmp c k (advance cmp c k (window_end c - idx c) (idx c)).

Definition cursor_covering_seq (cmp : Comparator) (c : FragCursor) (k : key) (read_seq : Z)
    : option Z * FragCursor :=
  let i := cursor_seek cmp c k in
  let c' := mkFragCursor (c_frags c) i (window_start c) (window_end c) (c_prefix c) in
  if (i =? window_end c)%nat then (None, c')
  else match c_frags c !! i with
  | Some f =>
      if is_gt (cursor_compare cmp c (f_start f) k) then (None, c')
      else (visible_seq f read_seq, c')
  | None => (None, c')
  end.

(** [RangeMask]: the cursors of one read.  The window of a snapshot leaves out
    the fragments that end at or before [lower] and those that start at or
    after [upper]. *)
Definition window_lo (cmp : Comparator) (frags : list Fragment) (lower : option key) : nat :=
  match lower with
  | Some k => partition_point (fun f => is_le (compare cmp (f_end f) k)) frags
  | None => 0%nat
  end.

Definition window_hi (cmp : Comparator) (frags : list Fragment) (upper : option key) : nat :=
  match upper with
  | Some k => partition_point (fun f => is_lt (compare cmp (f_start f) k)) frags
  | None => length frags
  end.

Definition push_snapshot (cmp : Comparator) (sources : list FragCursor) (frags : list Fragment)
    (lower upper prefix : option key) : list FragCursor :=
  let start := window_lo cmp frags lower in
  let end_ := window_hi cmp frags upper in
  if (start <? end_)%nat then sources ++ [mkFragCursor frags start start end_ prefix] else sources.

Fixpoint mask_covering_seq (cmp : Comparator) (sources : list FragCursor) (k : key) (read_seq : Z)
    (best : option Z) : option Z * list FragCursor :=
  match sources with
  | [] => (best, [])
  | src :: sources =>
      let '(o, src') := cursor_covering_seq cmp src k read_seq in
      let best' := match o with Some s => opt_max best s | None => best end in
      let '(r, sources') := mask_covering_seq cmp sources k read_seq best' in
      (r, src' :: sources')
  end.

(** ** Compaction's fragment helpers (compaction.rs) *)

Definition retained_fragment_seqs (seqs : list Z) (oldest_snapshot : Z) (droppable : bool)
    : list Z :=
  let out := List.filter (fun s => oldest_snapshot <? s) seqs in
  match List.find (fun s => s <=? oldest_snapshot) seqs with
  | Some newest_old => if droppable then out else out ++ [newest_old]
  | None => out
  end.

Definition clip_fragment (cmp : Comparator) (lower upper : option key) (f : Fragment)
    : list Fragment :=
  let start := clip_low cmp lower (f_start f) in
  let end_ := clip_high cmp upper (f_end f) in
  if is_ge (compare cmp start end_) then [] else [mkFragment start end_ (f_seqs f)].

Definition clip_fragments (cmp : Comparator) (frags : list Fragment) (lower upper : option key)
    : list Fragment :=
  concat (map (clip_fragment cmp lower upper) frags).

(** ** The reference answer *)

Definition covers (cmp : Comparator) (s : Span) (k : key) : bool :=
  is_le (compare cmp (s_start s) k) && is_gt (compare cmp (s_end s) k).

(** Greatest sequence at or below [read_seq] of a span containing [k]. *)
Definition newest_cover (cmp : Comparator) (ss : list Span) (k : key) (read_seq : Z) : option Z :=
  fold_left opt_max
    (map s_seq (List.filter (fun s => covers cmp s k && (s_seq s <=? read_seq)) ss)) None.

(** [o] is the greatest element of [P], or there is none. *)
Definition is_newest (P : Z -> Prop) (o : option Z) : Prop :=
  match o with
  | Some m => P m /\ forall x, P x -> x <= m
  | None => forall x, ~ P x
  end.

Lemma is_newest_unique P o o' : is_newest P o -> is_newest P o' -> o = o'.
Proof.
  destruct o as [m|], o' as [m'|]; cbn; [|naive_solver..].
  intros [Hm H1] [Hm' H2]. apply H1 in Hm'. apply H2 in Hm. f_equal. lia.
Qed.

Lemma is_newest_ext P Q o : (forall x, P x <-> Q x) -> is_newest P o -> is_newest Q o.
Proof. intros E. destruct o; cbn; [|naive_solver]. intros [? H]. split; [naive_solver|]. intros x Hx. by apply H, E. Qed.

Lemma opt_max_newest P o s :
  is_newest P o -> is_newest (fun x => P x \/ x = s) (opt_max o s).
Proof.
  destruct o as [m|]; cbn.
  - intros [Hm H]. split; [|intros x [?| ->]; [apply H in H0|]; lia].
    destruct (Z.max_spec m s) as [[? ->]|[? ->]]; auto.
  - intros H. split; [by right|]. intros x [?| ->]; [naive_solver|lia].
Qed.

Lemma fold_newest P l o :
  is_newest P o -> is_newest (fun x => P x \/ x ∈ l) (fold_left opt_max l o).
Proof.
  revert P o. induction l as [|s l IH]; intros P o H; cbn.
  - eapply is_newest_ext, H. intros x. rewrite elem_of_nil. tauto.
  - eapply is_newest_ext, IH, opt_max_newest, H. intros x. rewrite elem_of_cons. tauto.
Qed.

(** The sequences that cover [k], as a predicate. *)
Definition span_at (cmp : Comparator) (ss : list Span) (k : key) (x : Z) : Prop :=
  exists s, s ∈ ss /\ kle cmp (s_start s) k /\ klt cmp k (s_end s) /\ s_seq s = x.

Section Cover.
Context (cmp : Comparator) `{!TotalOrder cmp}.
Implicit Types (k : key) (s : Span) (f : Fragment).

Lemma covers_spec s k : covers cmp s k = true <-> kle cmp (s_start s) k /\ klt cmp k (s_end s).
Proof. unfold covers. by rewrite andb_true_iff, is_le_true, is_gt_true. Qed.

Lemma newest_cover_spec ss k rs :
  is_newest (fun x => span_at cmp ss k x /\ x <= rs) (newest_cover cmp ss k rs).
Proof.
  unfold newest_cover. eapply is_newest_ext, (fold_newest (fun _ => False)); [|by intros ? ?].
  intros x. cbn beta. rewrite elem_of_map. unfold span_at. split.
  - intros [[]|(s & Hs & <-)]. apply elem_of_lfilter in Hs as [Hs E].
    apply andb_true_iff in E as [E ?]. apply covers_spec in E as [? ?]. boolprop.
    split; [|done]. by exists s.
  - intros [(s & Hs & ? & ? & <-) ?]. right. exists s. split; [|done].
    apply elem_of_lfilter. split; [done|].
    apply andb_true_iff. split; [by apply covers_spec | by apply Z.leb_le].
Qed.

(** Only the set of spans matters, not their order. *)
Lemma newest_cover_Permutation ss ss' k rs :
  ss ≡ₚ ss' -> newest_cover cmp ss k rs = newest_cover cmp ss' k rs.
Proof.
  intros E. eapply is_newest_unique; [apply newest_cover_spec|].
  eapply is_newest_ext, newest_cover_spec. intros x. unfold span_at. by setoid_rewrite E.
Qed.

(** ** The set *)

Definition start_sorted (ss : list Span) : Prop :=
  StronglySorted (fun a b => kle cmp (s_start a) (s_start b)) ss.

(** What the lock protects: the spans are sorted by start, the running maximum
    and the length belong to them, and a cache holds their fragments. *)
Definition set_wf (t : RangeTombstoneSet) : Prop :=
  start_sorted (spans (inner t)) /\
  prefix_max_end (inner t) = running_max cmp None (map s_end (spans (inner t))) /\
  set_len t = length (spans (inner t)) /\
  (forall fs, cache (inner t) = Some fs -> fs = fragment_spans cmp (spans (inner t)) None None).

Lemma start_le_closed k a b :
  kle cmp (s_start a) (s_start b) ->
  is_le (compare cmp (s_start b) k) = true -> is_le (compare cmp (s_start a) k) = true.
Proof. intros. kbool. apply is_le_true. korder. Qed.

Lemma start_sorted_insert ss s :
  start_sorted ss ->
  start_sorted
    (insert_at (partition_point (fun x => is_le (compare cmp (s_start x) (s_start s))) ss) s ss).
Proof.
  intros Hs. unfold insert_at. set (p := fun x => is_le _).
  pose proof (partition_point_take p ss) as Ht.
  pose proof (partition_point_drop p _ ss Hs (start_le_closed (s_start s))) as Hd.
  rewrite Forall_forall in Ht, Hd. rewrite <- (take_drop (partition_point p ss) ss) in Hs.
  apply StronglySorted_app in Hs as (H12 & Hs1 & Hs2). apply StronglySorted_app_2.
  - intros x y Hx [->|Hy]%elem_of_cons; [|by auto]. apply Ht in Hx. unfold p in Hx. by kbool.
  - done.
  - constructor; [done|]. apply Forall_forall. intros y Hy. apply Hd in Hy. unfold p in Hy.
    kbool. korder.
Qed.

Lemma running_max_app r l l' :
  running_max cmp r (l ++ l') =
  running_max cmp r l ++ running_max cmp (match last (running_max cmp r l) with
                                          | Some m => Some m | None => r end) l'.
Proof.
  revert r. induction l as [|e l IH]; intros r; [done|].
  cbn [app running_max]. rewrite IH. rewrite last_cons.
  by destruct (last (running_max cmp _ l)).
Qed.

Lemma running_max_length r l : length (running_max cmp r l) = length l.
Proof. revert r. induction l as [|e l IH]; intros r; cbn; [done|]. by rewrite IH. Qed.

Lemma running_max_take r l n : take n (running_max cmp r l) = running_max cmp r (take n l).
Proof. revert r n. induction l as [|e l IH]; intros r [|n]; cbn; [done..|]. by rewrite IH. Qed.

(** [running_max\[i\]] bounds every end up to [i]. *)
Lemma running_max_bound r l i m :
  running_max cmp r l !! i = Some m ->
  (forall e, e ∈ take (S i) l -> kle cmp e m) /\ (forall r', r = Some r' -> kle cmp r' m).
Proof.
  revert r i. induction l as [|e l IH]; intros r i H; [done|].
  cbn [running_max] in H. set (m0 := match r with Some _ => _ | None => e end) in *.
  assert (H0 : kle cmp e m0 /\ forall r', r = Some r' -> kle cmp r' m0).
  { subst m0. destruct r as [r'|]; [|by split; [apply kle_refl|]].
    destruct (is_ge (compare cmp r' e)) eqn:E; kbool; (split; [|intros ? [= ->]]); korder || apply kle_refl; exact _. }
  destruct H0 as [He Hr]. destruct i as [|i]; cbn in H.
  - injection H as <-. split; [|done]. intros x Hx. cbn in Hx. rewrite take_0 in Hx.
    by apply list_elem_of_singleton in Hx as ->.
  - apply IH in H as [Hl Hm]. specialize (Hm m0 eq_refl). split.
    + cbn [take]. intros x [->|Hx]%elem_of_cons; [korder|auto].
    + intros r' Er. specialize (Hr r' Er). korder.
Qed.

Lemma set_new_wf : set_wf set_new.
Proof. repeat split; [constructor | done]. Qed.

Lemma set_add_wf start end_ seq t : set_wf t -> set_wf (set_add cmp start end_ seq t).
Proof.
  intros (Hs & Hp & Hl & _). unfold set_add. set (at_ := partition_point _ _).
  pose proof (partition_point_le (fun s => is_le (compare cmp (s_start s) start)) (spans (inner t))).
  fold at_ in H. split; [|split; [|split]]; cbn.
  - by apply (start_sorted_insert _ (mkSpan start end_ seq)).
  - rewrite Hp, running_max_take. set (l := spans (inner t)) in *.
    rewrite <- (take_drop at_ (insert_at at_ (mkSpan start end_ seq) l)) at 2.
    rewrite map_app, running_max_app. unfold insert_at.
    rewrite (take_app_exact (take at_ l)) by (rewrite length_take; lia).
    rewrite firstn_map. by destruct (last (running_max cmp None (map s_end (take at_ l)))).
  - rewrite insert_at_Permutation. cbn. by rewrite Hl.
  - done.
Qed.

Lemma set_retire_wf t : set_wf t -> set_wf (set_retire t).
Proof. intros (? & ? & ? & _). by repeat split. Qed.

Lemma fragment_snapshot_wf t : set_wf t -> set_wf (snd (fragment_snapshot cmp t)).
Proof.
  intros (? & ? & ? & ?). unfold fragment_snapshot.
  destruct (cache (inner t)) eqn:E; repeat split; cbn; rewrite ?E; naive_solver.
Qed.

(** A snapshot is the fragmentation of the spans held, cached or not, and
    taking one does not change the spans. *)
Lemma fragment_snapshot_spec t :
  set_wf t ->
  fst (fragment_snapshot cmp t) = fragment_spans cmp (spans (inner t)) None None /\
  spans (inner (snd (fragment_snapshot cmp t))) = spans (inner t).
Proof.
  intros (_ & _ & _ & Hc). unfold fragment_snapshot.
  destruct (cache (inner t)) as [fs|] eqn:E; cbn; [by rewrite (Hc fs)|done].
Qed.

(** The scan from [i] down answers for the spans below [i]; the early stop
    skips only spans that end at or before the key. *)
Lemma cover_scan_spec t k rs i P best :
  set_wf t -> (i <= length (spans (inner t)))%nat ->
  (forall s, s ∈ take i (spans (inner t)) -> kle cmp (s_start s) k) ->
  is_newest P best ->
  is_newest (fun x => P x \/ (span_at cmp (take i (spans (inner t))) k x /\ x <= rs))
    (cover_scan cmp (inner t) k rs i best).
Proof.
  intros (_ & Hp & _ & _). revert P best. set (l := spans (inner t)) in *.
  induction i as [|i IH]; intros P best Hi Hst HP; cbn [cover_scan].
  { eapply is_newest_ext, HP. unfold span_at. set_solver. }
  fold l. destruct (l !! i) as [s|] eqn:Es; [|apply lookup_ge_None in Es; lia].
  destruct (prefix_max_end (inner t) !! i) as [m|] eqn:Em;
    [|apply lookup_ge_None in Em; rewrite Hp, running_max_length, length_map in Em; fold l in Em; lia].
  rewrite Hp in Em. apply running_max_bound in Em as [Hm _].
  rewrite (take_S_r _ _ _ Es) in Hst |- *.
  destruct (is_le (compare cmp m k)) eqn:E; kbool.
  - eapply is_newest_ext, HP. intros x. split; [by left|]. intros [?|[(s' & Hs' & ? & ? & _) _]]; [done|].
    assert (kle cmp (s_end s') m); [|korder]. apply Hm.
    rewrite firstn_map, (take_S_r _ _ _ Es). apply elem_of_map. eauto.
  - assert (Hs : kle cmp (s_start s) k) by (apply Hst; set_solver).
    eapply is_newest_ext; [|apply IH; [lia|set_solver|]].
    2: { instantiate (1 := fun x => P x \/ (s_seq s = x /\ klt cmp k (s_end s) /\ x <= rs)).
      destruct (_ && _) eqn:Ec; kbool.
      - eapply is_newest_ext, opt_max_newest, HP. naive_solver.
      - eapply is_newest_ext, HP. intros x. split; [by left|]. intros [?|(<- & ? & ?)]; [done|].
        apply andb_false_iff in Ec as [Ec|Ec]; kbool; [lia|korder]. }
    intros x. unfold span_at. setoid_rewrite elem_of_app. setoid_rewrite list_elem_of_singleton.
    split.
    + intros [[?|(? & ? & ?)]|[(s0 & ? & ? & ? & ?) ?]]; [by left| |]; right; split; eauto 8.
    + intros [?|[(s0 & [?| ->] & ? & ? & ?) ?]]; [by left; left | right; split; eauto 8 | auto].
Qed.

Lemma set_covering_seq_spec t k rs :
  set_wf t -> set_covering_seq cmp t k rs = newest_cover cmp (spans (inner t)) k rs.
Proof.
  intros Hwf. eapply is_newest_unique; [|apply newest_cover_spec].
  pose proof Hwf as (Hs & _ & Hl & _). unfold set_covering_seq, set_is_empty.
  destruct (Nat.eqb_spec (set_len t) 0) as [E|E].
  { rewrite Hl in E. apply nil_length_inv in E. rewrite E. intros x [(s & Hs' & _) _].
    by apply elem_of_nil in Hs'. }
  set (p := fun s => _). set (i := partition_point p _).
  pose proof (partition_point_take p (spans (inner t))) as Ht.
  pose proof (partition_point_drop p _ _ Hs (start_le_closed k)) as Hd.
  rewrite Forall_forall in Ht, Hd.
  eapply is_newest_ext; [|apply (cover_scan_spec t k rs i (fun _ => False)); try done].
  - intros x. cbn beta. unfold span_at. split; [|intros [(s & Hin & ? & ? & ?) ?]].
    + intros [[]|[(s & Hin & ?) ?]]. split; [|done]. exists s. split; [by eapply elem_of_take|done].
    + right. split; [|done]. exists s. split; [|done].
      rewrite <- (take_drop i (spans (inner t))) in Hin. apply elem_of_app in Hin as [Hin|Hin]; [done|].
      apply Hd in Hin. unfold p in Hin. kbool. exfalso. korder.
  - apply partition_point_le.
  - intros s Hin. apply Ht in Hin. unfold p in Hin. by kbool.
  - by intros ? ?.
Qed.

(** ** Fragment lists *)

(** What a table stores: non-empty intervals, disjoint and in key order, each
    with a non-empty, strictly descending stack of sequences. *)
Definition frag_ok (f : Fragment) : Prop :=
  klt cmp (f_start f) (f_end f) /\ f_seqs f <> [] /\ StronglySorted Z.gt (f_seqs f).

Definition frags_wf (fs : list Fragment) : Prop :=
  Forall frag_ok fs /\ StronglySorted (fun f g => kle cmp (f_end f) (f_start g)) fs.

Definition frag_at (fs : list Fragment) (k : key) (x : Z) : Prop :=
  exists f, f ∈ fs /\ kle cmp (f_start f) k /\ klt cmp k (f_end f) /\ x ∈ f_seqs f.

Lemma frags_wf_app fs gs :
  frags_wf (fs ++ gs) <->
  frags_wf fs /\ frags_wf gs /\ (forall f g, f ∈ fs -> g ∈ gs -> kle cmp (f_end f) (f_start g)).
Proof. unfold frags_wf. rewrite Forall_app, StronglySorted_app. tauto. Qed.

Lemma frag_at_app fs gs k x : frag_at (fs ++ gs) k x <-> frag_at fs k x \/ frag_at gs k x.
Proof.
  unfold frag_at. setoid_rewrite elem_of_app. split.
  - intros (f & [?|?] & ?); [left|right]; eauto.
  - intros [(f & ? & ?)|(f & ? & ?)]; eauto.
Qed.

Lemma frag_at_singleton f k x :
  frag_at [f] k x <-> kle cmp (f_start f) k /\ klt cmp k (f_end f) /\ x ∈ f_seqs f.
Proof.
  unfold frag_at. setoid_rewrite list_elem_of_singleton. split; [|by eauto].
  by intros (? & -> & ?).
Qed.

Lemma visible_seq_spec f rs :
  StronglySorted Z.gt (f_seqs f) ->
  is_newest (fun x => x ∈ f_seqs f /\ x <= rs) (visible_seq f rs).
Proof.
  unfold visible_seq. induction 1 as [|s l Hs IH HF]; cbn.
  - intros x [Hx _]. by apply elem_of_nil in Hx.
  - rewrite Forall_forall in HF. destruct (Z.leb_spec s rs).
    + split; [split; [left|done]|]. intros x [[->|Hx]%elem_of_cons _]; [lia|].
      apply HF in Hx. lia.
    + eapply is_newest_ext, IH. intros x. rewrite elem_of_cons. split; [naive_solver|].
      intros [[->|?] ?]; [lia|done].
Qed.

Lemma covering_seq_in_spec fs k rs :
  frags_wf fs ->
  is_newest (fun x => frag_at fs k x /\ x <= rs) (covering_seq_in cmp fs k rs).
Proof.
  intros [Hok Hs]. unfold covering_seq_in. set (p := fun f => _).
  pose proof (partition_point_take p fs) as Ht. rewrite Forall_forall in Ht, Hok.
  set (i := partition_point p fs) in *. pose proof (take_drop i fs) as Hsplit.
  destruct (fs !! i) as [f|] eqn:E.
  - rewrite (drop_S _ _ _ E) in Hsplit. rewrite <- Hsplit in Hs, Hok |- *.
    apply partition_point_at in E. unfold p in E.
    apply StronglySorted_app_1_r in Hs. apply StronglySorted_inv in Hs as [_ HF].
    rewrite Forall_forall in HF.
    assert (Hf : frag_ok f) by (apply Hok; set_solver). destruct Hf as (Hlt & _ & Hseqs).
    assert (Honly : forall x, frag_at (take i fs ++ f :: drop (S i) fs) k x <->
                              kle cmp (f_start f) k /\ x ∈ f_seqs f).
    { intros x. split; [|intros [? ?]; exists f; kbool; set_solver].
      intros (g & Hg & ? & ? & ?). apply elem_of_app in Hg as [Hg|[->|Hg]%elem_of_cons]; [..|done|].
      - apply Ht in Hg. unfold p in Hg. kbool. exfalso. korder.
      - apply HF in Hg. kbool. exfalso. korder. }
    destruct (is_gt (compare cmp (f_start f) k)) eqn:E2; kbool.
    + intros x [[? ?]%Honly _]. korder.
    + eapply is_newest_ext, visible_seq_spec, Hseqs. intros x. rewrite Honly. tauto.
  - apply lookup_ge_None in E. rewrite take_ge in Ht by done.
    intros x [(g & Hg & ? & ? & ?) _]. apply Ht in Hg. unfold p in Hg. kbool. korder.
Qed.

(** ** Fragmenting spans *)

Lemma stack_of_elem ss a b x :
  x ∈ stack_of cmp ss a b <->
  exists s, s ∈ ss /\ kle cmp (s_start s) a /\ kle cmp b (s_end s) /\ s_seq s = x.
Proof.
  unfold stack_of. rewrite (dedup_by_elem Z.eqb Z.eqb_eq).
  rewrite sort_by_Permutation, elem_of_map. setoid_rewrite elem_of_lfilter.
  setoid_rewrite andb_true_iff. setoid_rewrite is_le_true. setoid_rewrite (is_ge_true cmp). naive_solver.
Qed.

Lemma stack_of_sorted ss a b : StronglySorted Z.gt (stack_of cmp ss a b).
Proof.
  unfold stack_of. apply (StronglySorted_impl (fun x y => (y ?= x) <> Gt /\ x <> y)).
  - intros x y [? ?]. rewrite Z.compare_gt_iff in *. lia.
  - apply (dedup_by_sorted Z.eqb Z.eqb_eq); [|apply sort_by_sorted];
      intros *; rewrite !Z.compare_gt_iff; lia.
Qed.

(** The elementary intervals of a boundary list: consecutive boundaries. *)
Lemma windows2_gap l c d :
  StronglySorted (klt cmp) l -> (c, d) ∈ windows2 l ->
  klt cmp c d /\ c ∈ l /\ d ∈ l /\ forall x, x ∈ l -> kle cmp x c \/ kle cmp d x.
Proof.
  induction 1 as [|a l Hs IH HF]; cbn; [by intros ?%elem_of_nil|].
  rewrite Forall_forall in HF. destruct l as [|b l]; [by intros ?%elem_of_nil|].
  intros [[= -> ->]|H]%elem_of_cons.
  - split; [by apply HF; left|]. repeat split; [by left | by right; left |].
    intros x [->|[->|Hx]%elem_of_cons]%elem_of_cons; [left; apply kle_refl; exact _ |right; apply kle_refl; exact _ |].
    right. apply StronglySorted_inv in Hs as [_ Hb]. rewrite Forall_forall in Hb.
    by apply klt_kle, Hb.
  - apply IH in H as (? & ? & ? & Hx). split; [done|]. repeat split; [by right..|].
    intros x [->|?]%elem_of_cons; [|by auto]. left. apply klt_kle; [exact _|]. by apply HF.
Qed.

(** What one elementary interval needs of the span list: a span contains all of
    it or nothing of it. *)
Definition uniform (ss : list Span) (c d : key) : Prop :=
  forall s k, s ∈ ss -> kle cmp c k -> klt cmp k d ->
  (kle cmp (s_start s) k /\ klt cmp k (s_end s)) <-> (kle cmp (s_start s) c /\ kle cmp d (s_end s)).

(** The loop invariant: [out] is well formed and answers for the keys from
    [lo] up to the current boundary [c]. *)
Definition frag_inv (ss : list Span) (lo c : key) (out : list Fragment) : Prop :=
  frags_wf out /\
  (forall f, f ∈ out -> kle cmp lo (f_start f) /\ kle cmp (f_end f) c) /\
  (forall k x, kle cmp lo k -> klt cmp k c -> frag_at out k x <-> span_at cmp ss k x).

Lemma uniform_stack ss c d k x :
  uniform ss c d -> kle cmp c k -> klt cmp k d ->
  x ∈ stack_of cmp ss c d <-> span_at cmp ss k x.
Proof.
  intros U Hc Hd. rewrite stack_of_elem. unfold span_at. split.
  - intros (s & Hs & ? & ? & ?). destruct (U s k Hs Hc Hd) as [_ []]; eauto 6.
  - intros (s & Hs & ? & ? & ?). destruct (U s k Hs Hc Hd) as [[] _]; eauto 6.
Qed.

(** Extending the answer from [c] to [d] by the stack of [\[c, d)]. *)
Lemma frag_inv_extend ss lo c d out out' :
  frag_inv ss lo c out -> klt cmp c d -> uniform ss c d ->
  frags_wf out' ->
  (forall f, f ∈ out' -> kle cmp lo (f_start f) /\ kle cmp (f_end f) d) ->
  (forall k x, klt cmp k c -> frag_at out' k x <-> frag_at out k x) ->
  (forall k x, kle cmp c k -> klt cmp k d -> frag_at out' k x <-> x ∈ stack_of cmp ss c d) ->
  frag_inv ss lo d out'.
Proof.
  intros (_ & _ & Hin) Hcd U Hwf Hb Hlow Hmid. split; [done|]. split; [done|].
  intros k x Hlo Hd. destruct (decide (klt cmp k c)) as [?|?]; kbool.
  - by rewrite Hlow, Hin.
  - by rewrite Hmid, (uniform_stack ss c d k).
Qed.

Lemma frag_at_above ss lo c out k x :
  frag_inv ss lo c out -> kle cmp c k -> ~ frag_at out k x.
Proof. intros (_ & Hb & _) ? (f & Hf & ? & ? & _). apply Hb in Hf as [? ?]. korder. Qed.

Lemma frag_step_inv ss lo c d out :
  frag_inv ss lo c out -> kle cmp lo c -> klt cmp c d -> uniform ss c d ->
  frag_inv ss lo d (frag_step cmp ss out (c, d)).
Proof.
  intros Hinv Hlo Hcd U. pose proof Hinv as (Hwf & Hb & _). unfold frag_step.
  pose proof (stack_of_sorted ss c d) as Hsort.
  destruct (stack_of cmp ss c d) as [|y0 ys] eqn:Est.
  { apply (frag_inv_extend ss lo c d out); auto; rewrite ?Est.
    - intros f Hf. apply Hb in Hf as [? ?]. split; [done|korder].
    - intros k x Hck _. split; [intros Hat|by intros ?%elem_of_nil].
      by destruct (frag_at_above _ _ _ _ _ _ Hinv Hck Hat). }
  rewrite <- Est in *. set (st := stack_of cmp ss c d) in *.
  assert (Hpush : frag_inv ss lo d (out ++ [mkFragment c d st])).
  { apply (frag_inv_extend ss lo c d out); auto.
    - apply frags_wf_app. split; [done|]. split.
      + repeat constructor; cbn; [done| by rewrite Est |done].
      + intros f g Hf ->%list_elem_of_singleton. cbn. by apply Hb.
    - intros f [Hf| ->%list_elem_of_singleton]%elem_of_app; cbn.
      + apply Hb in Hf as [? ?]. split; [done|korder].
      + split; [done|apply kle_refl; exact _].
    - intros k x ?. rewrite frag_at_app, frag_at_singleton. cbn. split; [|by left].
      intros [?|(? & _)]; [done|]. exfalso. korder.
    - intros k x Hck ?. rewrite frag_at_app, frag_at_singleton. cbn. split; [|by auto].
      intros [Hat|(_ & _ & ?)]; [|done]. by destruct (frag_at_above _ _ _ _ _ _ Hinv Hck Hat). }
  destruct (last out) as [prev|] eqn:El; [|done].
  destruct (bool_decide (f_seqs prev = st) && is_eq (compare cmp (f_end prev) c)) eqn:E; [|done].
  clear Hpush. kbool. apply last_Some in El as [o ->]. rewrite removelast_last.
  apply frags_wf_app in Hwf as (Hwf1 & Hwf2 & Hwf12).
  pose proof (Hb prev ltac:(set_solver)) as [Hp1 Hp2].
  apply (frag_inv_extend ss lo c d (o ++ [prev])); auto.
  - apply frags_wf_app. split; [done|]. split.
    + destruct Hwf2 as [HF _]. apply Forall_cons in HF as [(? & ? & ?) _].
      repeat constructor; cbn; [korder|done..].
    + intros f g Hf ->%list_elem_of_singleton. cbn. apply Hwf12; set_solver.
  - intros f [Hf| ->%list_elem_of_singleton]%elem_of_app; cbn.
    + destruct (Hb f ltac:(set_solver)) as [? ?]. split; [done|korder].
    + split; [done|apply kle_refl; exact _].
  - intros k x ?. rewrite !frag_at_app, !frag_at_singleton. cbn.
    assert (klt cmp k d) by korder. assert (klt cmp k (f_end prev)) by korder. tauto.
  - intros k x Hck ?. rewrite frag_at_app, frag_at_singleton. cbn. rewrite H.
    assert (kle cmp (f_start prev) k).
    { destruct Hwf2 as [HF _]. apply Forall_cons in HF as [(? & ? & ?) _]. korder. }
    split; [|by auto]. intros [Hat|(_ & _ & ?)]; [|done].
    exfalso. apply (frag_at_above _ _ _ _ k x Hinv Hck), frag_at_app. by left.
Qed.

Definition in_window (lower upper : option key) (k : key) : Prop :=
  (forall l, lower = Some l -> kle cmp l k) /\ (forall u, upper = Some u -> klt cmp k u).

Lemma clip_low_spec lower k x :
  kle cmp (clip_low cmp lower k) x <-> kle cmp k x /\ forall l, lower = Some l -> kle cmp l x.
Proof.
  unfold clip_low. destruct lower as [l|]; [|naive_solver].
  destruct (is_lt (compare cmp k l)) eqn:E; kbool; (split; [intros; split; [|intros ? [= <-]]; korder|]).
  all: intros [? Hl]; specialize (Hl l eq_refl); korder.
Qed.

Lemma clip_high_spec upper k x :
  klt cmp x (clip_high cmp upper k) <-> klt cmp x k /\ forall u, upper = Some u -> klt cmp x u.
Proof.
  unfold clip_high. destruct upper as [u|]; [|naive_solver].
  destruct (is_gt (compare cmp k u)) eqn:E; kbool; (split; [intros; split; [|intros ? [= <-]]; korder|]).
  all: intros [? Hl]; specialize (Hl u eq_refl); korder.
Qed.

Lemma fragment_bounds_elem ss lower upper x :
  x ∈ fragment_bounds cmp ss lower upper <->
  exists s, s ∈ ss /\ x ∈ span_bounds cmp lower upper s.
Proof.
  unfold fragment_bounds. rewrite dedup_by_elem by (intros; by apply is_eq_true).
  by rewrite sort_by_Permutation, elem_of_concat_map.
Qed.

Lemma fragment_bounds_sorted ss lower upper :
  StronglySorted (klt cmp) (fragment_bounds cmp ss lower upper).
Proof.
  unfold fragment_bounds.
  apply (StronglySorted_impl (fun a b => compare cmp a b <> Gt /\ a <> b)).
  - intros a b [? ?]. by apply kneq_lt.
  - apply dedup_by_sorted; [intros; by apply is_eq_true | |apply sort_by_sorted].
    + intros a b ? ?. by apply (kle_antisym cmp).
    + intros a b E1 E2. rewrite (ol_anti _ total_laws a b) in E1. by rewrite E2 in E1.
    + intros a b c. apply (kle_trans cmp).
Qed.

(** Every boundary of a clipped span lies in the window. *)
Lemma span_bounds_window lower upper s x :
  x ∈ span_bounds cmp lower upper s ->
  (forall l, lower = Some l -> kle cmp l x) /\ (forall u, upper = Some u -> kle cmp x u).
Proof.
  unfold span_bounds. set (a := clip_low _ _ _). set (b := clip_high _ _ _).
  destruct (is_ge (compare cmp a b)) eqn:E; [by intros ?%elem_of_nil|]. kbool.
  assert (Ha : forall l, lower = Some l -> kle cmp l a).
  { apply (clip_low_spec lower (s_start s) a). apply kle_refl; exact _. }
  assert (Hb : forall u, upper = Some u -> kle cmp b u).
  { intros u Hu. apply not_klt; [exact _|]. intros H.
    apply (clip_high_spec upper (s_end s) u) in H as [_ H]. apply H in Hu. korder. }
  intros [->|[->|?%elem_of_nil]%elem_of_cons]%elem_of_cons; [| |done];
    (split; [intros l Hl; specialize (Ha l Hl) | intros u Hu; specialize (Hb u Hu)]; korder).
Qed.

(** A span that contains a key of the window contributes both its clipped
    boundaries, around the key. *)
Lemma span_bounds_around lower upper s k :
  in_window lower upper k -> kle cmp (s_start s) k -> klt cmp k (s_end s) ->
  exists a b, span_bounds cmp lower upper s = [a; b] /\
    kle cmp (s_start s) a /\ kle cmp a k /\ klt cmp k b /\ kle cmp b (s_end s).
Proof.
  intros [Hl Hu] Hs He. unfold span_bounds.
  assert (Ha : kle cmp (clip_low cmp lower (s_start s)) k) by by apply clip_low_spec.
  assert (Hb : klt cmp k (clip_high cmp upper (s_end s))) by by apply clip_high_spec.
  destruct (clip_low_spec lower (s_start s) (clip_low cmp lower (s_start s))) as [[H1 _] _];
    [apply kle_refl; exact _|].
  assert (H2 : kle cmp (clip_high cmp upper (s_end s)) (s_end s)).
  { apply not_klt; [exact _|]. intros H. apply clip_high_spec in H as [H _]. korder. }
  destruct (is_ge _) eqn:E; kbool; [exfalso; korder|eauto 8].
Qed.

Lemma fragment_bounds_uniform ss lower upper c d :
  (c, d) ∈ windows2 (fragment_bounds cmp ss lower upper) ->
  klt cmp c d /\ uniform ss c d.
Proof.
  intros H. apply windows2_gap in H as (Hcd & Hc & Hd & Hgap); [|apply fragment_bounds_sorted].
  split; [done|]. intros s k Hs Hck Hkd. split; [|intros [? ?]; split; korder].
  intros [Hsk Hke]. apply fragment_bounds_elem in Hc as (sc & _ & Hc), Hd as (sd & _ & Hd).
  apply span_bounds_window in Hc as [Hc _], Hd as [_ Hd].
  destruct (span_bounds_around lower upper s k) as (a & b & E & ? & ? & ? & ?); [|done..|].
  { split; [intros l Hl; specialize (Hc l Hl) | intros u Hu; specialize (Hd u Hu)]; korder. }
  destruct (Hgap a) as [?|?]; [apply fragment_bounds_elem; exists s; rewrite E; set_solver| |exfalso; korder].
  destruct (Hgap b) as [?|?]; [apply fragment_bounds_elem; exists s; rewrite E; set_solver|exfalso; korder|].
  split; korder.
Qed.

Lemma frag_fold_inv ss lo c l out :
  (forall a b, (a, b) ∈ windows2 (c :: l) -> klt cmp a b /\ uniform ss a b) ->
  kle cmp lo c -> frag_inv ss lo c out ->
  exists hi, last (c :: l) = Some hi /\
    frag_inv ss lo hi (fold_left (frag_step cmp ss) (windows2 (c :: l)) out).
Proof.
  revert c out. induction l as [|d l IH]; intros c out Hw Hlo Hinv; [by exists c|].
  destruct (Hw c d) as [Hcd U]; [left|].
  destruct (IH d (frag_step cmp ss out (c, d))) as (hi & Hhi & ?).
  - intros a b Hab. apply Hw. by right.
  - korder.
  - by apply frag_step_inv.
  - exists hi. by rewrite last_cons_cons.
Qed.

(** No two fragments that abut carry the same stack. *)
Definition frags_merged (fs : list Fragment) : Prop :=
  forall f g, (f, g) ∈ windows2 fs -> f_end f = f_start g -> f_seqs f <> f_seqs g.

Lemma frag_step_merged ss out ab : frags_merged out -> frags_merged (frag_step cmp ss out ab).
Proof.
  destruct ab as [a b]. intros Hm. unfold frag_step. set (st := stack_of cmp ss a b).
  assert (Hpush : (forall prev, last out = Some prev -> f_end prev = a -> f_seqs prev <> st) ->
                  frags_merged (out ++ [mkFragment a b st])).
  { intros Hl f g. rewrite windows2_snoc. destruct (last out) as [prev|] eqn:El.
    - intros [?|[= -> ->]%list_elem_of_singleton]%elem_of_app; [by auto|]. cbn. by apply Hl.
    - rewrite app_nil_r. apply Hm. }
  destruct st as [|y ys] eqn:Est; [done|]. rewrite <- Est in *.
  destruct (last out) as [prev|] eqn:El; [|by apply Hpush].
  destruct (_ && _) eqn:E.
  - kbool. apply last_Some in El as [o ->]. rewrite removelast_last. unfold frags_merged in *.
    rewrite windows2_snoc in *. intros f g Hfg. apply elem_of_app in Hfg as [Hfg|Hfg].
    + apply Hm, elem_of_app. by left.
    + destruct (last o) as [o'|]; [|by apply elem_of_nil in Hfg].
      apply list_elem_of_singleton in Hfg as [= -> ->]. cbn. apply (Hm o' prev). set_solver.
  - apply Hpush. intros ? [= <-] ? ?. apply andb_false_iff in E as [E|E]; kbool; done.
Qed.

Lemma fragment_spans_merged ss lower upper : frags_merged (fragment_spans cmp ss lower upper).
Proof.
  unfold fragment_spans. generalize (windows2 (fragment_bounds cmp ss lower upper)).
  assert (H0 : frags_merged []) by (intros f g ?%elem_of_nil; done).
  intros l. revert H0. generalize (@nil Fragment). induction l as [|ab l IH]; intros out H0; [done|].
  cbn. by apply IH, frag_step_merged.
Qed.

Lemma frag_inv_nil ss c : frag_inv ss c c [].
Proof.
  split; [repeat constructor|]. split; [by intros ? ?%elem_of_nil|].
  intros k x ? ?. exfalso. korder.
Qed.

Lemma fragment_spans_spec ss lower upper :
  frags_wf (fragment_spans cmp ss lower upper) /\
  (forall k x, in_window lower upper k ->
     frag_at (fragment_spans cmp ss lower upper) k x <-> span_at cmp ss k x) /\
  (forall k x, frag_at (fragment_spans cmp ss lower upper) k x -> in_window lower upper k).
Proof.
  unfold fragment_spans. pose proof (fragment_bounds_uniform ss lower upper) as Hu.
  pose proof (fragment_bounds_elem ss lower upper) as He.
  pose proof (fragment_bounds_sorted ss lower upper) as Hs.
  destruct (fragment_bounds cmp ss lower upper) as [|c l].
  { split; [repeat constructor|]. split; [|by intros k x (? & ?%elem_of_nil & _)].
    intros k x Hk. split; [by intros (? & ?%elem_of_nil & _)|]. intros (s & Hin & H1 & H2 & _).
    destruct (span_bounds_around _ _ s k Hk H1 H2) as (a & b & E & _).
    assert (Ha : a ∈ @nil key) by (apply He; exists s; rewrite E; set_solver).
    by apply elem_of_nil in Ha. }
  destruct (frag_fold_inv ss c c l []) as (hi & Hhi & Hinv);
    [done|apply kle_refl; exact _|apply frag_inv_nil|].
  set (out := fold_left _ _ _) in *. destruct Hinv as (Hwf & Hb & Hin).
  assert (Hlo : forall x, x ∈ c :: l -> kle cmp c x /\ kle cmp x hi).
  { clear -Hs Hhi TotalOrder0. intros x Hx. split.
    - apply StronglySorted_inv in Hs as [_ HF]. rewrite Forall_forall in HF.
      apply elem_of_cons in Hx as [->|Hx]; [apply kle_refl; exact _|by apply klt_kle, HF].
    - apply last_Some in Hhi as [l' E]. rewrite E in Hs, Hx. apply StronglySorted_app in Hs as (H & _).
      apply elem_of_app in Hx as [Hx| ->%list_elem_of_singleton]; [|apply kle_refl; exact _].
      apply klt_kle; [exact _|]. apply H; set_solver. }
  split; [done|]. split.
  - intros k x Hk. split.
    + intros H. pose proof H as (f & Hf & ? & ? & _). apply Hb in Hf as [? ?].
      apply Hin; [korder..|done].
    + intros H. pose proof H as (s & Hs' & H1 & H2 & _).
      destruct (span_bounds_around _ _ s k Hk H1 H2) as (a & b & E & ? & ? & ? & ?).
      destruct (Hlo a) as [? _]; [apply He; exists s; rewrite E; set_solver|].
      destruct (Hlo b) as [_ ?]; [apply He; exists s; rewrite E; set_solver|].
      apply Hin; [korder..|done].
  - intros k x (f & Hf & ? & ? & _). apply Hb in Hf as [? ?].
    destruct (proj1 (He c)) as (sc & _ & [Hc _]%span_bounds_window); [left|].
    destruct (proj1 (He hi)) as (sh & _ & [_ Hh]%span_bounds_window);
      [apply last_Some in Hhi as [l' ->]; set_solver|].
    split; [intros l' Hl; specialize (Hc l' Hl) | intros u Hu'; specialize (Hh u Hu')]; korder.
Qed.

Lemma spans_of_fragments_at fs k x : span_at cmp (spans_of_fragments fs) k x <-> frag_at fs k x.
Proof.
  unfold span_at, frag_at, spans_of_fragments. setoid_rewrite elem_of_concat_map.
  setoid_rewrite elem_of_map. split.
  - intros (s & (f & Hf & y & Hy & <-) & ? & ? & <-). by exists f.
  - intros (f & Hf & ? & ? & Hx). exists (mkSpan (f_start f) (f_end f) x).
    split; [|done]. by exists f; eauto.
Qed.

Lemma span_at_app ss ss' k x :
  span_at cmp (ss ++ ss') k x <-> span_at cmp ss k x \/ span_at cmp ss' k x.
Proof.
  unfold span_at. setoid_rewrite elem_of_app. split.
  - intros (s & [?|?] & ?); [left|right]; eauto.
  - intros [(s & ? & ?)|(s & ? & ?)]; eauto.
Qed.

End Cover.

(** ** The cursor of a scan *)

(** The fragments a cursor may visit. *)
Definition cursor_slice (c : FragCursor) : list Fragment :=
  take (window_end c - window_start c) (drop (window_start c) (c_frags c)).

Definition cursor_ok (U : Comparator) (c : FragCursor) : Prop :=
  frags_wf U (c_frags c) /\
  (window_start c <= idx c <= window_end c)%nat /\ (window_end c <= length (c_frags c))%nat.

(** The cursor orders its bounds against [k] as [U] orders them against [k']. *)
Definition cursor_view (cmp U : Comparator) (c : FragCursor) (k k' : key) : Prop :=
  forall f, f ∈ c_frags c ->
  cursor_compare cmp c (f_start f) k = compare U (f_start f) k' /\
  cursor_compare cmp c (f_end f) k = compare U (f_end f) k'.

Section Cursor.
Context (cmp U : Comparator) `{!TotalOrder U}.
Context (c : FragCursor) (k k' : key).
Context (Hok : cursor_ok U c) (Hview : cursor_view cmp U c k k').

Lemma cursor_end i f :
  c_frags c !! i = Some f -> cursor_compare cmp c (f_end f) k = compare U (f_end f) k'.
Proof. intros H. apply Hview. by eapply list_elem_of_lookup_2. Qed.

(** Ends ascend along the fragment list. *)
Lemma frag_ends_sorted fs i j f g :
  frags_wf U fs -> (i < j)%nat -> fs !! i = Some f -> fs !! j = Some g ->
  klt U (f_end f) (f_end g).
Proof.
  intros [Hf Hs] Hij Hi Hj. rewrite Forall_forall in Hf.
  assert (kle U (f_end f) (f_start g)).
  { rewrite <- (take_drop (S i) fs) in Hs. rewrite (take_S_r _ _ _ Hi) in Hs.
    apply StronglySorted_app in Hs as (H & _). apply H; [set_solver|].
    apply (list_elem_of_lookup_2 _ (j - S i)). rewrite lookup_drop.
    by replace (S i + (j - S i))%nat with j by lia. }
  destruct (Hf g) as [? _]; [by eapply list_elem_of_lookup_2|]. korder.
Qed.

Lemma advance_spec n i :
  (window_end c - i <= n)%nat -> (i <= window_end c)%nat ->
  let j := advance cmp c k n i in
  (i <= j <= window_end c)%nat /\
  (forall f, (j < window_end c)%nat -> c_frags c !! j = Some f -> klt U k' (f_end f)).
Proof.
  revert i. induction n as [|n IH]; intros i Hn Hi; cbn [advance]; [split; [lia|intros; lia]|].
  destruct (Nat.ltb_spec i (window_end c)); [|split; [lia|intros; lia]].
  destruct (c_frags c !! i) as [f|] eqn:E; [|split; [lia|congruence]].
  rewrite (cursor_end i f E). destruct (is_le (compare U (f_end f) k')) eqn:E2.
  - destruct (IH (S i)); [lia..|]. split; [lia|done].
  - split; [lia|]. intros g _ Hg. rewrite E in Hg. injection Hg as <-. by kbool.
Qed.

Lemma retreat_spec i :
  (window_start c <= i <= window_end c)%nat ->
  (forall f, (i < window_end c)%nat -> c_frags c !! i = Some f -> klt U k' (f_end f)) ->
  let j := retreat cmp c k i in
  (window_start c <= j <= window_end c)%nat /\
  (forall f, (j < window_end c)%nat -> c_frags c !! j = Some f -> klt U k' (f_end f)) /\
  (forall t f, (window_start c <= t < j)%nat -> c_frags c !! t = Some f -> kle U (f_end f) k').
Proof.
  destruct Hok as (Hwf & Hw & Hlen). induction i as [|i IH]; intros Hi Hat; cbn [retreat].
  { split; [done|]. split; [done|intros; lia]. }
  destruct (Nat.ltb_spec (window_start c) (S i)); [|split; [done|]; split; [done|intros; lia]].
  destruct (c_frags c !! i) as [f|] eqn:E; [|apply lookup_ge_None in E; lia].
  rewrite (cursor_end i f E). destruct (is_gt (compare U (f_end f) k')) eqn:E2; kbool.
  - apply IH; [lia|]. by intros g _ [= <-].
  - split; [done|]. split; [done|]. intros t g Ht Hg.
    destruct (decide (t = i)) as [->|]; [rewrite E in Hg; by injection Hg as <-|].
    pose proof (frag_ends_sorted _ t i g f Hwf ltac:(lia) Hg E). korder.
Qed.

Lemma cursor_seek_spec :
  let j := cursor_seek cmp c k in
  (window_start c <= j <= window_end c)%nat /\
  partition_point (fun f => is_le (compare U (f_end f) k')) (cursor_slice c) = (j - window_start c)%nat.
Proof.
  destruct Hok as (Hwf & Hw & Hlen). unfold cursor_seek.
  destruct (advance_spec (window_end c - idx c) (idx c)) as [Hj Hge]; [lia..|].
  destruct (retreat_spec (advance cmp c k (window_end c - idx c) (idx c))) as (Hj' & Hat & Hlt);
    [lia|done|]. cbn. set (j := retreat _ _ _ _) in *. split; [done|]. unfold cursor_slice.
  apply partition_point_unique.
  - rewrite length_take, length_drop. lia.
  - intros i f Hi Hf. apply is_le_true. rewrite lookup_take_lt, lookup_drop in Hf by lia.
    apply Hlt in Hf; [done|lia].
  - intros f Hf. apply lookup_take_Some in Hf as [Hf ?]. rewrite lookup_drop in Hf.
    apply is_le_false; [done|]. apply Hat; [lia|].
    by replace j with (window_start c + (j - window_start c))%nat by lia.
Qed.

Lemma cursor_covering_seq_spec rs :
  fst (cursor_covering_seq cmp c k rs) = covering_seq_in U (cursor_slice c) k' rs.
Proof.
  destruct Hok as (Hwf & Hw & Hlen). destruct cursor_seek_spec as [Hj Hp].
  unfold cursor_covering_seq, covering_seq_in. rewrite Hp. set (j := cursor_seek cmp c k) in *.
  unfold cursor_slice. destruct (Nat.eqb_spec j (window_end c)) as [E|E].
  - rewrite lookup_take_ge by lia. done.
  - rewrite lookup_take_lt, lookup_drop by lia.
    replace (window_start c + (j - window_start c))%nat with j by lia.
    destruct (c_frags c !! j) as [f|] eqn:Ef; [|done].
    rewrite (proj1 (Hview f (list_elem_of_lookup_2 _ _ _ Ef))).
    by destruct (is_gt (compare U (f_start f) k')).
Qed.

(** A query moves the cursor inside its window and changes nothing else. *)
Lemma cursor_covering_seq_ok rs :
  let c' := snd (cursor_covering_seq cmp c k rs) in
  cursor_ok U c' /\ cursor_slice c' = cursor_slice c /\ c_prefix c' = c_prefix c /\
  c_frags c' = c_frags c.
Proof.
  destruct Hok as (Hwf & Hw & Hlen). destruct cursor_seek_spec as [Hj _].
  unfold cursor_covering_seq. set (j := cursor_seek cmp c k) in *.
  assert (cursor_ok U (mkFragCursor (c_frags c) j (window_start c) (window_end c) (c_prefix c)))
    by (split; [done|]; cbn; lia).
  repeat case_match; cbn; done.
Qed.

End Cursor.

(** ** The mask of a read *)

Section Mask.
Context (cmp : Comparator) `{!TotalOrder cmp}.

Lemma cursor_view_plain c k : c_prefix c = None -> cursor_view cmp cmp c k k.
Proof. intros E f _. unfold cursor_compare. by rewrite E. Qed.

Lemma frags_wf_slice fs n m : frags_wf cmp fs -> frags_wf cmp (take m (drop n fs)).
Proof.
  intros H. rewrite <- (take_drop n fs) in H. apply frags_wf_app in H as (_ & H & _).
  rewrite <- (take_drop m (drop n fs)) in H. by apply frags_wf_app in H as (H & _ & _).
Qed.

(** The sources of a mask against the fragment lists they came from. *)
Definition mask_inv (lower upper : option key) (sources : list FragCursor)
    (frss : list (list Fragment)) : Prop :=
  Forall (fun c => cursor_ok cmp c /\ c_prefix c = None) sources /\
  forall k x, in_window cmp lower upper k ->
  (exists c, c ∈ sources /\ frag_at cmp (cursor_slice c) k x) <->
  (exists fs, fs ∈ frss /\ frag_at cmp fs k x).

Lemma frag_starts_closed fs k :
  frags_wf cmp fs ->
  Forall (fun f => is_lt (compare cmp (f_start f) k) = false)
    (drop (partition_point (fun f => is_lt (compare cmp (f_start f) k)) fs) fs).
Proof.
  intros [Hok Hs]. rewrite Forall_forall in Hok.
  assert (Hs' : StronglySorted (fun f g => klt cmp (f_start f) (f_start g)) fs).
  { clear -Hok Hs TotalOrder0. induction Hs as [|f l Hs IH HF]; [constructor|].
    constructor; [apply IH; intros; apply Hok; by right|].
    rewrite Forall_forall in HF |- *. intros g Hg. pose proof (HF g Hg).
    destruct (Hok f) as [? _]; [by left|]. korder. }
  apply (partition_point_drop _ _ _ Hs'). intros f g ? ?. kbool. apply is_lt_true. korder.
Qed.

(** A fragment left out of the window contains no key of the window. *)
Lemma push_snapshot_window fs lower upper k x :
  frags_wf cmp fs -> in_window cmp lower upper k ->
  frag_at cmp (take (window_hi cmp fs upper - window_lo cmp fs lower)
                 (drop (window_lo cmp fs lower) fs)) k x <-> frag_at cmp fs k x.
Proof.
  intros Hwf [Hl Hu]. split.
  { intros (f & Hf & ?). exists f. split; [|done]. by eapply elem_of_drop, elem_of_take. }
  intros (f & Hf & ? & ? & Hx). exists f. split; [|done].
  apply list_elem_of_lookup in Hf as [i Hi].
  assert (Hlo : (window_lo cmp fs lower <= i)%nat).
  { destruct lower as [l|]; cbn; [|lia]. apply Nat.nlt_ge. intros Hlt. specialize (Hl l eq_refl).
    pose proof (partition_point_take (fun f => is_le (compare cmp (f_end f) l)) fs) as Ht.
    rewrite Forall_forall in Ht. assert (Hp : is_le (compare cmp (f_end f) l) = true).
    { apply Ht, (list_elem_of_lookup_2 _ i). by rewrite lookup_take_lt. }
    kbool. korder. }
  assert (Hhi : (i < window_hi cmp fs upper)%nat).
  { destruct upper as [u|]; cbn; [|by eapply lookup_lt_Some]. apply Nat.nle_gt. intros Hge.
    specialize (Hu u eq_refl). pose proof (frag_starts_closed fs u Hwf) as Hd.
    rewrite Forall_forall in Hd. assert (Hp : is_lt (compare cmp (f_start f) u) = false).
    { apply Hd. set (e := partition_point _ _) in *.
      apply (list_elem_of_lookup_2 _ (i - e)). rewrite lookup_drop.
      by replace (e + (i - e))%nat with i by lia. }
    kbool. korder. }
  set (start := window_lo cmp fs lower) in *.
  apply (list_elem_of_lookup_2 _ (i - start)). rewrite lookup_take_lt, lookup_drop by lia.
  by replace (start + (i - start))%nat with i by lia.
Qed.

Lemma push_snapshot_inv lower upper sources frss fs :
  mask_inv lower upper sources frss -> frags_wf cmp fs ->
  mask_inv lower upper (push_snapshot cmp sources fs lower upper None) (frss ++ [fs]).
Proof.
  intros [Hok Hat] Hwf. unfold push_snapshot.
  assert (Hend : (window_hi cmp fs upper <= length fs)%nat).
  { destruct upper; cbn; [apply partition_point_le|done]. }
  pose proof (fun k x => push_snapshot_window fs lower upper k x Hwf) as Hw.
  set (start := window_lo cmp fs lower) in *. set (end_ := window_hi cmp fs upper) in *.
  destruct (Nat.ltb_spec start end_).
  - split.
    + apply Forall_app. split; [done|]. repeat constructor; cbn; try done; lia || apply Hwf.
    + intros k x Hk. specialize (Hat k x Hk). specialize (Hw k x Hk).
      setoid_rewrite elem_of_app. setoid_rewrite list_elem_of_singleton. split.
      * intros (c & [Hc| ->] & Hx); [|exists fs; split; [by right|by apply Hw]].
        destruct (proj1 Hat) as (fs' & ? & ?); eauto.
      * intros (fs' & [Hf| ->] & Hx); [|eexists; split; [by right|by apply Hw]].
        destruct (proj2 Hat) as (c & ? & ?); eauto.
  - split; [done|]. intros k x Hk. specialize (Hat k x Hk). specialize (Hw k x Hk).
    replace (end_ - start)%nat with 0%nat in Hw by lia. rewrite take_0 in Hw.
    setoid_rewrite elem_of_app. setoid_rewrite list_elem_of_singleton. split.
    + intros (c & Hc & Hx). destruct (proj1 Hat) as (fs' & ? & ?); eauto.
    + intros (fs' & [Hf| ->] & Hx); [destruct (proj2 Hat) as (c & ? & ?); eauto|].
      apply Hw in Hx as (? & ?%elem_of_nil & _). done.
Qed.

Lemma mask_covering_seq_newest sources k rs P best :
  Forall (fun c => cursor_ok cmp c /\ c_prefix c = None) sources ->
  is_newest P best ->
  is_newest (fun x => P x \/ ((exists c, c ∈ sources /\ frag_at cmp (cursor_slice c) k x) /\ x <= rs))
    (fst (mask_covering_seq cmp sources k rs best)).
Proof.
  intros Hok. revert P best. induction Hok as [|c l [Hc Hp] Hl IH]; intros P best HP; cbn.
  { eapply is_newest_ext, HP. set_solver. }
  pose proof (cursor_covering_seq_spec cmp cmp c k k Hc (cursor_view_plain c k Hp) rs) as E.
  destruct (cursor_covering_seq cmp c k rs) as [o c']. cbn in E. subst o.
  set (best' := match covering_seq_in _ _ _ _ with Some _ => _ | None => _ end).
  destruct (mask_covering_seq cmp l k rs best') as [r l'] eqn:Er. cbn.
  replace r with (fst (mask_covering_seq cmp l k rs best')) by by rewrite Er.
  eapply is_newest_ext; [|apply (IH (fun x => P x \/ (frag_at cmp (cursor_slice c) k x /\ x <= rs)))].
  - intros x. setoid_rewrite elem_of_cons. split.
    + intros [[?|[? ?]]|[(c2 & ? & ?) ?]]; [by left|right..]; split; eauto.
    + intros [?|[(c2 & [->|?] & ?) ?]]; [auto..|]. right. split; eauto.
  - subst best'. pose proof (covering_seq_in_spec cmp (cursor_slice c) k rs) as H.
    ospecialize (H _); [apply frags_wf_slice, Hc|].
    destruct (covering_seq_in cmp (cursor_slice c) k rs) as [m|]; cbn in H.
    + destruct H as [[H1 H2] H3]. destruct best as [b|]; cbn in HP |- *.
      * destruct HP as [HP1 HP2]. split.
        -- destruct (Z.max_spec b m) as [[? ->]|[? ->]]; auto.
        -- intros x [Hx|Hx]; [apply HP2 in Hx|apply H3 in Hx]; lia.
      * split; [by right|]. intros x [Hx|Hx]; [by apply HP in Hx|by apply H3].
    + eapply is_newest_ext, HP. intros x. split; [by left|]. intros [?|?]; [done|]. by destruct (H x).
Qed.

Lemma mask_covering_seq_inv lower upper sources frss k rs best :
  mask_inv lower upper sources frss ->
  mask_inv lower upper (snd (mask_covering_seq cmp sources k rs best)) frss.
Proof.
  intros [Hok Hat]. assert (H : Forall2 (fun c c' => cursor_slice c' = cursor_slice c /\
      cursor_ok cmp c' /\ c_prefix c' = None) sources (snd (mask_covering_seq cmp sources k rs best))).
  { clear Hat. revert best. induction Hok as [|c l [Hc Hp] Hl IH]; intros best; cbn; [constructor|].
    pose proof (cursor_covering_seq_ok cmp cmp c k k Hc (cursor_view_plain c k Hp) rs) as E.
    destruct (cursor_covering_seq cmp c k rs) as [o c']. cbn in E. destruct E as (? & ? & ? & ?).
    set (best' := match o with Some _ => _ | None => _ end). specialize (IH best').
    destruct (mask_covering_seq cmp l k rs best') as [r l']. constructor; [|done].
    split; [done|]. split; [done|congruence]. }
  set (out := snd _) in *. split.
  - apply Forall_forall. intros c' Hc'. apply list_elem_of_lookup in Hc' as [i Hi].
    destruct (Forall2_lookup_r _ _ _ _ _ H Hi) as (c & _ & _ & ? & ?). done.
  - intros j x Hj. rewrite <- (Hat j x Hj). split.
    + intros (c' & Hc' & Hx). apply list_elem_of_lookup in Hc' as [i Hi].
      destruct (Forall2_lookup_r _ _ _ _ _ H Hi) as (c & Hc & E & _).
      exists c. rewrite <- E. split; [by eapply list_elem_of_lookup_2|done].
    + intros (c & Hc & Hx). apply list_elem_of_lookup in Hc as [i Hi].
      destruct (Forall2_lookup_l _ _ _ _ _ H Hi) as (c' & Hc' & E & _).
      exists c'. rewrite E. split; [by eapply list_elem_of_lookup_2|done].
Qed.

End Mask.

(** ** The codec *)

Definition frag_encodable (f : Fragment) : Prop :=
  is_len (f_start f) /\ is_len (f_end f) /\ f_seqs f <> [] /\
  is_u64 (Z.of_nat (length (f_seqs f))) /\
  Forall is_u64 (f_seqs f) /\ StronglySorted Z.gt (f_seqs f).

Lemma strictly_descending_sorted l : StronglySorted Z.gt l -> strictly_descending l = true.
Proof.
  unfold strictly_descending. induction 1 as [|x l Hs IH HF]; [done|].
  destruct l as [|y l]; [done|]. apply Forall_cons in HF as [? _].
  cbn [windows2 existsb fst snd] in *. destruct (Z.leb_spec x y); [lia|done].
Qed.

Lemma decode_fragment_enc f : frag_encodable f -> decodes decode_fragment (encode_fragment f) f.
Proof.
  intros (Hs & He & Hne & Hn & Hu & Hd) rest. unfold decode_fragment, encode_fragment.
  rewrite <- !app_assoc, (dec_lenbytes_enc _ _ Hs). cbn [rbind].
  rewrite (dec_lenbytes_enc _ _ He). cbn [rbind]. rewrite (dec_uvarint_enc _ _ Hn). cbn [rbind].
  destruct (Z.eqb_spec (Z.of_nat (length (f_seqs f))) 0).
  { destruct (f_seqs f); [done|cbn in *; lia]. }
  cbn [negb guard rbind]. rewrite Forall_forall in Hu.
  rewrite (dec_repeat_enc Corruption (dec_uvarint Corruption) enc_uvarint _ (f_seqs f)) by auto with onda.
  cbn [rbind]. rewrite strictly_descending_sorted by done. by destruct f.
Qed.

Lemma encode_fragment_nonempty f : (0 < length (encode_fragment f))%nat.
Proof.
  unfold encode_fragment, enc_lenbytes. rewrite !length_app.
  pose proof (enc_uvarint_nonempty (Z.of_nat (length (f_start f)))). lia.
Qed.

Lemma decode_fragments_encode fs :
  is_u64 (Z.of_nat (length fs)) -> Forall frag_encodable fs ->
  decode_fragments (encode_fragments fs) = Ok fs.
Proof.
  intros Hn Hf. unfold decode_fragments, encode_fragments. rewrite (dec_uvarint_enc _ _ Hn).
  cbn [rbind]. rewrite Forall_forall in Hf.
  pose proof (dec_repeat_enc Corruption decode_fragment encode_fragment _ fs
    (fun f Hin => decode_fragment_enc f (Hf f Hin)) (fun f _ => encode_fragment_nonempty f) eq_refl []) as H.
  rewrite app_nil_r in H. by rewrite H.
Qed.

(** ** Compaction's helpers *)

(** Dropping the sequences compaction drops changes no read at or above the
    oldest snapshot, except that at the bottom ([droppable]) a tombstone at or
    below it is gone for good. *)
Lemma retained_seqs_visible seqs oldest droppable rs :
  StronglySorted Z.gt seqs -> oldest <= rs ->
  List.find (fun s => s <=? rs) (retained_fragment_seqs seqs oldest droppable) =
  match List.find (fun s => s <=? rs) seqs with
  | Some m => if droppable && (m <=? oldest) then None else Some m
  | None => None
  end.
Proof.
  unfold retained_fragment_seqs. induction 1 as [|s l Hs IH HF]; intros Hrs; [done|].
  cbn [List.filter List.find]. rewrite Forall_forall in HF. specialize (IH Hrs).
  destruct (Z.leb_spec s oldest) as [Hle|Hgt].
  - replace (oldest <? s) with false by (symmetry; apply Z.ltb_ge; lia).
    replace (s <=? rs) with true by (symmetry; apply Z.leb_le; lia).
    replace (s <=? oldest) with true by (symmetry; apply Z.leb_le; lia).
    assert (List.filter (fun x => oldest <? x) l = []) as ->.
    { destruct (List.filter _ l) as [|y ?] eqn:E; [done|].
      assert (Hy : y ∈ List.filter (fun x => oldest <? x) l) by (rewrite E; left).
      apply elem_of_lfilter in Hy as [Hy ?]. apply HF in Hy. boolprop. lia. }
    destruct droppable; cbn [List.find app andb]; [done|].
    by replace (s <=? rs) with true by (symmetry; apply Z.leb_le; lia).
  - replace (oldest <? s) with true by (symmetry; apply Z.ltb_lt; lia).
    replace (s <=? oldest) with false by (symmetry; apply Z.leb_gt; lia).
    destruct (s <=? rs) eqn:E;
      destruct (List.find (fun s => s <=? oldest) l), droppable; cbn [List.find app]; rewrite E, ?(proj2 (Z.leb_gt s oldest)) by done; done.
Qed.

Lemma retained_seqs_sorted seqs oldest droppable :
  StronglySorted Z.gt seqs -> StronglySorted Z.gt (retained_fragment_seqs seqs oldest droppable).
Proof.
  intros Hs. unfold retained_fragment_seqs.
  pose proof (lfilter_StronglySorted Z.gt (fun s => oldest <? s) seqs Hs) as Hf.
  destruct (List.find _ seqs) as [m|] eqn:E; [|done]. destruct droppable; [done|].
  apply find_some in E as [_ E]. apply StronglySorted_app_2; [|done|repeat constructor].
  intros x y [_ Hx]%elem_of_lfilter ->%list_elem_of_singleton. boolprop. lia.
Qed.

Section Clip.
Context (cmp : Comparator) `{!TotalOrder cmp}.

Lemma clip_fragment_at lower upper f k x :
  frag_at cmp (clip_fragment cmp lower upper f) k x <->
  frag_at cmp [f] k x /\ in_window cmp lower upper k.
Proof.
  unfold clip_fragment. rewrite frag_at_singleton.
  pose proof (clip_low_spec cmp lower (f_start f) k) as Hl.
  pose proof (clip_high_spec cmp upper (f_end f) k) as Hh.
  destruct (is_ge _) eqn:E; kbool.
  - split; [by intros (? & ?%elem_of_nil & _)|]. intros ((? & ? & ?) & Hw1 & Hw2).
    assert (kle cmp (clip_low cmp lower (f_start f)) k) by by apply Hl.
    assert (klt cmp k (clip_high cmp upper (f_end f))) by by apply Hh. exfalso. korder.
  - rewrite frag_at_singleton. cbn. rewrite Hl, Hh. unfold in_window. tauto.
Qed.

Lemma clip_fragments_at lower upper fs k x :
  frag_at cmp (clip_fragments cmp fs lower upper) k x <->
  frag_at cmp fs k x /\ in_window cmp lower upper k.
Proof.
  unfold clip_fragments. induction fs as [|f fs IH]; cbn.
  - split; [by intros (? & ?%elem_of_nil & _)|by intros ((? & ?%elem_of_nil & _) & _)].
  - rewrite frag_at_app, clip_fragment_at, IH. change (f :: fs) with ([f] ++ fs).
    rewrite frag_at_app. tauto.
Qed.

Lemma clip_fragment_inside lower upper f g :
  g ∈ clip_fragment cmp lower upper f ->
  klt cmp (f_start g) (f_end g) /\ kle cmp (f_start f) (f_start g) /\
  kle cmp (f_end g) (f_end f) /\ f_seqs g = f_seqs f.
Proof.
  unfold clip_fragment. destruct (is_ge _) eqn:E; [by intros ?%elem_of_nil|].
  intros ->%list_elem_of_singleton. kbool. cbn. split; [done|].
  destruct (proj1 (clip_low_spec cmp lower (f_start f) _) (kle_refl cmp _)) as [? _].
  split; [done|]. split; [|done]. apply not_klt; [exact _|]. intros Hh.
  apply clip_high_spec in Hh as [Hh _]; [|exact _]. korder.
Qed.

Lemma clip_fragments_wf lower upper fs :
  frags_wf cmp fs -> frags_wf cmp (clip_fragments cmp fs lower upper).
Proof.
  intros [Hok Hs]. unfold clip_fragments. induction Hs as [|f fs Hs IH HF]; [repeat constructor|].
  apply Forall_cons in Hok as [(Hf1 & Hf2 & Hf3) Hok]. cbn. apply frags_wf_app. split; [|split].
  - unfold clip_fragment. destruct (is_ge _) eqn:E; kbool; repeat constructor; done.
  - by apply IH.
  - intros g h Hg Hh. apply elem_of_concat_map in Hh as (f' & Hf' & Hh).
    apply clip_fragment_inside in Hg as (_ & _ & ? & _), Hh as (_ & ? & _).
    rewrite Forall_forall in HF. apply HF in Hf'. korder.
Qed.
End Clip.

(** ** Executions of a set *)

Inductive set_op : Type :=
| OpAdd (start end_ : key) (seq : Z)
| OpRetire
| OpSnapshot.

Definition set_step (cmp : Comparator) (t : RangeTombstoneSet) (o : set_op) : RangeTombstoneSet :=
  match o with
  | OpAdd start end_ seq => set_add cmp start end_ seq t
  | OpRetire => set_retire t
  | OpSnapshot => snd (fragment_snapshot cmp t)
  end.

Definition set_exec (cmp : Comparator) (ops : list set_op) : RangeTombstoneSet :=
  fold_left (set_step cmp) ops set_new.

(** The range deletes issued, in order. *)
Definition added (ops : list set_op) : list Span :=
  concat (map (fun o => match o with OpAdd a b q => [mkSpan a b q] | _ => [] end) ops).

Lemma set_exec_wf cmp `{!TotalOrder cmp} ops :
  set_wf cmp (set_exec cmp ops) /\ spans (inner (set_exec cmp ops)) ≡ₚ added ops.
Proof.
  unfold set_exec. induction ops as [|o ops [IH1 IH2]] using rev_ind.
  - split; [apply set_new_wf | done].
  - rewrite fold_left_app. cbn. set (t := fold_left _ ops set_new) in *. unfold added.
    rewrite map_app, concat_app. fold (added ops). cbn. rewrite app_nil_r.
    destruct o as [a b q| |]; cbn [set_step]; (split; [auto using set_add_wf, set_retire_wf, fragment_snapshot_wf|]).
    + cbn. rewrite insert_at_Permutation, IH2. apply Permutation_cons_append.
    + cbn. by rewrite IH2, app_nil_r.
    + by rewrite (proj2 (fragment_snapshot_spec cmp t IH1)), IH2, app_nil_r.
Qed.

Lemma covering_seq_in_newest cmp `{!TotalOrder cmp} fs ss k rs :
  frags_wf cmp fs -> (forall x, frag_at cmp fs k x <-> span_at cmp ss k x) ->
  covering_seq_in cmp fs k rs = newest_cover cmp ss k rs.
Proof.
  intros Hwf E. eapply is_newest_unique; [by apply covering_seq_in_spec|].
  eapply is_newest_ext, (newest_cover_spec cmp ss k rs). intros x. by rewrite E.
Qed.

Lemma in_window_alt cmp lower upper k :
  in_window cmp lower upper k <->
  (match lower with Some l => kle cmp l k | None => True end) /\
  (match upper with Some u => klt cmp k u | None => True end).
Proof.
  unfold in_window. destruct lower, upper; split; intros [H1 H2]; split; try done; auto;
    by intros ? [= <-].
Qed.

#[export] Instance in_window_dec cmp lower upper k : Decision (in_window cmp lower upper k).
Proof.
  assert (D : Decision ((match lower with Some l => kle cmp l k | None => True end) /\
                        (match upper with Some u => klt cmp k u | None => True end)))
    by (destruct lower, upper; apply _).
  destruct D as [H|H]; [left; by apply in_window_alt | right; by rewrite in_window_alt].
Defined.

(** ** Properties *)

(** C21: Whatever sequence of range deletes, retirements and snapshots a set went
    through, the backward scan with its early stop answers exactly the newest
    visible span over the key, and the cached fragment snapshot answers the
    same. *)
Theorem range_set_covering_seq_correct cmp (TO : TotalOrder cmp) ops k rs :
  set_covering_seq cmp (set_exec cmp ops) k rs = newest_cover cmp (added ops) k rs /\
  covering_seq_in cmp (fst (fragment_snapshot cmp (set_exec cmp ops))) k rs
  = newest_cover cmp (added ops) k rs.
Proof.
  destruct (set_exec_wf cmp ops) as [Hwf E]. split.
  - rewrite set_covering_seq_spec by done. by apply newest_cover_Permutation.
  - rewrite (proj1 (fragment_snapshot_spec cmp _ Hwf)).
    rewrite <- (newest_cover_Permutation cmp _ _ k rs E).
    destruct (fragment_spans_spec cmp (spans (inner (set_exec cmp ops))) None None) as (? & Hat & _).
    apply covering_seq_in_newest; [done..|]. intros x. by apply Hat.
Qed.

Lemma range_set_covering_seq_correct_witness :
  set_covering_seq Bytewise
    (set_exec Bytewise [OpAdd [x61] [x64] 3; OpSnapshot; OpAdd [x62] [x65] 7]) [x63] 5 = Some 3.
Proof.
  destruct (range_set_covering_seq_correct Bytewise _
    [OpAdd [x61] [x64] 3; OpSnapshot; OpAdd [x62] [x65] 7] [x63] 5) as [H _].
  rewrite H. reflexivity.
Defined.

(** Fragmenting any overlapping, unsorted span list over a window yields
    non-empty, disjoint, key-ordered intervals with strictly descending
    stacks, merged wherever neighbours agree; a point read of the fragments
    answers, for every key and read sequence, the newest visible span over the
    key inside the window and nothing outside it. *)
Theorem fragment_spans_correct cmp (TO : TotalOrder cmp) ss lower upper k rs :
  frags_wf cmp (fragment_spans cmp ss lower upper) /\
  frags_merged (fragment_spans cmp ss lower upper) /\
  covering_seq_in cmp (fragment_spans cmp ss lower upper) k rs
  = if decide (in_window cmp lower upper k) then newest_cover cmp ss k rs else None.
Proof.
  destruct (fragment_spans_spec cmp ss lower upper) as (Hwf & Hat & Hout).
  split; [done|]. split; [apply fragment_spans_merged; exact _|].
  destruct (decide (in_window cmp lower upper k)) as [Hk|Hk].
  - apply covering_seq_in_newest; [done..|]. intros x. by apply Hat.
  - eapply is_newest_unique; [by apply covering_seq_in_spec|]. intros x [Hx _].
    by apply Hk, (Hout k x).
Qed.

Lemma fragment_spans_correct_witness :
  covering_seq_in Bytewise
    (fragment_spans Bytewise [mkSpan [x62] [x65] 7; mkSpan [x61] [x64] 3] None (Some [x64])) [x63] 9
  = Some 7.
Proof.
  destruct (fragment_spans_correct Bytewise _ [mkSpan [x62] [x65] 7; mkSpan [x61] [x64] 3]
    None (Some [x64]) [x63] 9) as (_ & _ & H).
  rewrite H. reflexivity.
Defined.

(** The mask of a read over several sources, after some queries. *)
Definition mask_of (cmp : Comparator) (frss : list (list Fragment)) (lower upper : option key)
    : list FragCursor :=
  fold_left (fun m fs => push_snapshot cmp m fs lower upper None) frss [].

Definition mask_after (cmp : Comparator) (sources : list FragCursor) (queries : list (key * Z))
    : list FragCursor :=
  fold_left (fun m q => snd (mask_covering_seq cmp m (fst q) (snd q) None)) queries sources.

Lemma mask_after_inv cmp (TO : TotalOrder cmp) lower upper frss queries :
  Forall (frags_wf cmp) frss ->
  mask_inv cmp lower upper (mask_after cmp (mask_of cmp frss lower upper) queries) frss.
Proof.
  intros Hwf. assert (H0 : mask_inv cmp lower upper (mask_of cmp frss lower upper) frss).
  { unfold mask_of. induction frss as [|fs frss IH] using rev_ind.
    - split; [constructor|]. set_solver.
    - rewrite fold_left_app. cbn. apply Forall_app in Hwf as [? Hwf]. apply Forall_cons in Hwf as [? _].
      apply push_snapshot_inv; auto. }
  unfold mask_after. induction queries as [|q qs IH] using rev_ind; [done|].
  rewrite fold_left_app. cbn. by apply mask_covering_seq_inv.
Qed.

Lemma span_at_sources cmp frss k x :
  span_at cmp (concat (map spans_of_fragments frss)) k x <->
  exists fs, fs ∈ frss /\ frag_at cmp fs k x.
Proof.
  induction frss as [|fs frss IH]; cbn.
  - split; [by intros (? & ?%elem_of_nil & _)|by intros (? & ?%elem_of_nil & _)].
  - rewrite span_at_app, spans_of_fragments_at, IH. setoid_rewrite elem_of_cons. split.
    + intros [?|(fs' & ? & ?)]; [by exists fs; auto|by exists fs'; auto].
    + intros (fs' & [->|?] & ?); [by left|right; by exists fs'].
Qed.

Lemma mask_inv_covering cmp (TO : TotalOrder cmp) lower upper sources frss k rs :
  mask_inv cmp lower upper sources frss -> in_window cmp lower upper k ->
  fst (mask_covering_seq cmp sources k rs None) = newest_cover cmp (concat (map spans_of_fragments frss)) k rs.
Proof.
  intros [Hok Hat] Hk. eapply is_newest_unique;
    [apply (mask_covering_seq_newest cmp _ k rs (fun _ => False)); [done|by intros ? ?]|].
  eapply is_newest_ext, (newest_cover_spec cmp). intros x. rewrite (Hat k x Hk).
  rewrite span_at_sources. tauto.
Qed.

(** C22: The monotonic cursors of a scan answer like a point read: over any
    number of sources, after any earlier queries in any direction (the scan may
    reverse), the mask returns the newest visible sequence covering the key
    among all the sources' fragments. *)
Theorem range_mask_correct cmp (TO : TotalOrder cmp) frss lower upper queries k rs :
  Forall (frags_wf cmp) frss -> in_window cmp lower upper k ->
  fst (mask_covering_seq cmp (mask_after cmp (mask_of cmp frss lower upper) queries) k rs None)
  = newest_cover cmp (concat (map spans_of_fragments frss)) k rs.
Proof.
  intros Hwf Hk. by apply mask_inv_covering with lower upper; [|apply mask_after_inv|].
Qed.

Lemma range_mask_correct_witness :
  fst (mask_covering_seq Bytewise
    (mask_after Bytewise
       (mask_of Bytewise [[mkFragment [x61] [x63] [9; 2]; mkFragment [x65] [x67] [4]];
                          [mkFragment [x62] [x66] [5]]] None None)
       [([x66], 10); ([x61], 10)]) [x62] 8 None) = Some 5.
Proof.
  rewrite range_mask_correct; [reflexivity|apply _| |by split].
  repeat constructor; done.
Defined.

(** The fragment section of a table decodes to the fragments that were
    encoded. *)
Theorem fragments_codec_roundtrip fs :
  is_u64 (Z.of_nat (length fs)) -> Forall frag_encodable fs ->
  decode_fragments (encode_fragments fs) = Ok fs.
Proof. apply decode_fragments_encode. Qed.

Lemma fragments_codec_roundtrip_witness :
  decode_fragments (encode_fragments [mkFragment [x61] [x63] [300; 2]])
  = Ok [mkFragment [x61] [x63] [300; 2]].
Proof.
  apply fragments_codec_roundtrip; [by split|].
  repeat constructor; cbn; unfold is_u64; lia || done.
Defined.
