(* ===== verification/ReadPath.v ===== *)
(** * Point reads (column_family.rs; memtable.rs, sst/reader.rs, sst/iter.rs as sorted runs)

    A column family answers a read at a sequence number from its memtable, the
    sealed memtables and the tables its levels select for the key: the newest
    visible version wins, a range tombstone is a delete at its sequence, and a
    winning merge operand is folded with its whole chain.  A memtable and a
    table are modelled by what their lookups see, the list of their entries in
    internal order; the skip list, the block layout and the caches are not
    modelled. *)

From Stdlib Require Import ZArith Lia Sorted.
From Stdlib.Strings Require Import Byte.
From stdpp Require Import base list sets sorting.
From S2P Require Import Prelude Encoding Codec Comparator Format RangeTombstone Wal Manifest.

Open Scope Z_scope.

(** ** Entries *)

(** One stored version.  [e_readable] is whether its value can be read: a
    value kept in the value log is behind a checksum of its own. *)
Record Entry := mkEntry {
  e_key : key;
  e_seq : Z;
  e_kind : Z;
  e_ttl : Z;
  e_value : list byte;
  e_readable : bool;
}.

#[export] Instance Entry_eq_dec : EqDecision Entry.
Proof. solve_decision. Defined.

(** The tombstone bit a writer derives from the kind. *)
Definition e_tombstone (e : Entry) : bool :=
  (e_kind e =? KIND_DELETE) || (e_kind e =? KIND_SINGLE_DELETE).

Definition e_merge (e : Entry) : bool := e_kind e =? KIND_MERGE.

Definition expired (ttl now : Z) : bool := negb (ttl =? 0) && (ttl <=? now).

Definition dead (now : Z) (e : Entry) : bool := e_tombstone e || expired (e_ttl e) now.

Definition read_value (e : Entry) : result (list byte) :=
  if e_readable e then Ok (e_value e) else Err Corruption.

(** [cmp_internal(..).is_lt()]: user key ascending, sequence descending. *)
Definition before (cmp : Comparator) (e : Entry) (k : key) (s : Z) : bool :=
  match compare cmp (e_key e) k with
  | Lt => true
  | Eq => s <? e_seq e
  | Gt => false
  end.

(** Position on the first entry at or after [(k, s)]. *)
Fixpoint seek (cmp : Comparator) (es : list Entry) (k : key) (s : Z) : list Entry :=
  match es with
  | [] => []
  | e :: es' => if before cmp e k s then seek cmp es' k s else es
  end.

(** ** Sources *)

Record Mem := mkMem { m_entries : list Entry; m_ranges : RangeTombstoneSet }.

Record Table := mkTable {
  t_meta : SstMeta;
  t_entries : list Entry;
  t_may_contain : key -> bool;
  t_frags : list Fragment;
}.

Record Lookup := mkLookup {
  l_value : option (list byte);
  l_seq : Z;
  l_found : bool;
  l_deleted : bool;
  l_kind : Z;
}.

Definition miss : Lookup := mkLookup None 0 false false KIND_PUT.

(** [Memtable::get]. *)
Definition mem_get (cmp : Comparator) (es : list Entry) (k : key) (read_seq now : Z) : Lookup :=
  match seek cmp es k read_seq with
  | [] => miss
  | e :: _ =>
      if is_eq (compare cmp (e_key e) k) then
        if dead now e then mkLookup None (e_seq e) true true (e_kind e)
        else mkLookup (Some (e_value e)) (e_seq e) true false (e_kind e)
      else miss
  end.

(** [Reader::get_unfiltered]. *)
Definition get_unfiltered (cmp : Comparator) (es : list Entry) (k : key) (read_seq now : Z)
    : result Lookup :=
  match seek cmp es k read_seq with
  | [] => Ok miss
  | e :: _ =>
      if is_eq (compare cmp (e_key e) k) then
        if dead now e then Ok (mkLookup None (e_seq e) true true (e_kind e))
        else let? v := read_value e in Ok (mkLookup (Some v) (e_seq e) true false (e_kind e))
      else Ok miss
  end.

(** ** The candidate pass *)

Record PointReadCandidate := mkCand {
  c_value : option (list byte);
  c_seq : Z;
  c_found : bool;
  c_deleted : bool;
  c_kind : Z;
  c_range_floor : option Z;
}.

Definition cand_default : PointReadCandidate := mkCand None 0 false false KIND_PUT None.

Definition consider (c : PointReadCandidate) (l : Lookup) : PointReadCandidate :=
  if l_found l && (negb (c_found c) || (c_seq c <? l_seq l))
  then mkCand (l_value l) (l_seq l) true (l_deleted l) (l_kind l) (c_range_floor c)
  else c.

Definition mask_candidate (c : PointReadCandidate) (covering : option Z) : PointReadCandidate :=
  match covering with
  | None => c
  | Some s =>
      if negb (c_found c) || (c_seq c <? s)
      then mkCand None s true true KIND_DELETE (Some s)
      else mkCand (c_value c) (c_seq c) (c_found c) (c_deleted c) (c_kind c) (Some s)
  end.

Definition cand_finish (c : PointReadCandidate) : result (list byte) :=
  if c_found c && negb (c_deleted c) then Ok (default [] (c_value c)) else Err NotFound.

(** [PointReadSources]; the sealed memtables are oldest first. *)
Record Sources := mkSources {
  s_mem : Mem;
  s_imms : list Mem;
  s_tables : list Table;
  s_range_tables : list Table;
}.

Definition meta_has_ranges (m : SstMeta) : bool := 0 <? range_count m.

Definition sources_has_ranges (s : Sources) : bool :=
  negb (Nat.eqb (length (s_range_tables s)) 0)
  || negb (set_is_empty (m_ranges (s_mem s)))
  || existsb (fun m => negb (set_is_empty (m_ranges m))) (s_imms s)
  || existsb (fun t => meta_has_ranges (t_meta t)) (s_tables s).

Definition take_cover (best o : option Z) : option Z :=
  match o with None => best | Some s => opt_max best s end.

(** [Reader::covering_seq]. *)
Definition table_covering_seq (cmp : Comparator) (t : Table) (k : key) (read_seq : Z) : option Z :=
  match t_frags t with [] => None | _ => covering_seq_in cmp (t_frags t) k read_seq end.

Definition covering_range_seq (cmp : Comparator) (s : Sources) (k : key) (read_seq : Z) : option Z :=
  if negb (sources_has_ranges s) then None
  else
    let best := take_cover None (set_covering_seq cmp (m_ranges (s_mem s)) k read_seq) in
    let best := fold_left (fun b m => take_cover b (set_covering_seq cmp (m_ranges m) k read_seq))
                  (s_imms s) best in
    fold_left
      (fun b t => if meta_has_ranges (t_meta t) then take_cover b (table_covering_seq cmp t k read_seq) else b)
      (s_tables s ++ s_range_tables s) best.

Fixpoint consider_sstables (cmp : Comparator) (early_exit : bool) (k : key) (read_seq now : Z)
    (c : PointReadCandidate) (tables : list Table) : result PointReadCandidate :=
  match tables with
  | [] => Ok c
  | t :: tables =>
      if early_exit && c_found c && (Manifest.max_seq (t_meta t) <=? c_seq c)
      then consider_sstables cmp early_exit k read_seq now c tables
      else if negb (t_may_contain t k) then consider_sstables cmp early_exit k read_seq now c tables
      else
        let? l := get_unfiltered cmp (t_entries t) k read_seq now in
        consider_sstables cmp early_exit k read_seq now (consider c l) tables
  end.

Definition resolve_point (cmp : Comparator) (early_exit : bool) (s : Sources) (k : key)
    (read_seq now : Z) : result PointReadCandidate :=
  let c := consider cand_default (mem_get cmp (m_entries (s_mem s)) k read_seq now) in
  let c := fold_left (fun c m => consider c (mem_get cmp (m_entries m) k read_seq now)) (rev (s_imms s)) c in
  let c := mask_candidate c (covering_range_seq cmp s k read_seq) in
  consider_sstables cmp early_exit k read_seq now c (s_tables s).

(** ** Merge chains *)

Record ChainVersion := mkCV { cv_seq : Z; cv_merge : bool; cv_value : option (list byte) }.

#[export] Instance ChainVersion_eq_dec : EqDecision ChainVersion.
Proof. solve_decision. Defined.

(** [MergeOperator::full_merge]: operands oldest first; [None] is its error. *)
Definition MergeOp : Type := key -> option (list byte) -> list (list byte) -> option (list byte).

Definition chain_version (now : Z) (e : Entry) : ChainVersion :=
  mkCV (e_seq e) (e_merge e) (if dead now e then None else Some (e_value e)).

(** [Memtable::chain] driven by [collect_chain]: up to the first base. *)
Fixpoint mem_chain_from (cmp : Comparator) (k : key) (now : Z) (es : list Entry) : list ChainVersion :=
  match es with
  | [] => []
  | e :: es =>
      if is_eq (compare cmp (e_key e) k) then
        chain_version now e :: (if e_merge e then mem_chain_from cmp k now es else [])
      else []
  end.

Definition mem_chain (cmp : Comparator) (es : list Entry) (k : key) (read_seq now : Z) : list ChainVersion :=
  mem_chain_from cmp k now (seek cmp es k read_seq).

Fixpoint table_chain_from (cmp : Comparator) (k : key) (now : Z) (es : list Entry)
    : result (list ChainVersion) :=
  match es with
  | [] => Ok []
  | e :: es =>
      if is_eq (compare cmp (e_key e) k) then
        if e_merge e then
          let? v := read_value e in
          let? vs := table_chain_from cmp k now es in
          Ok (mkCV (e_seq e) true (Some v) :: vs)
        else if dead now e then Ok [mkCV (e_seq e) false None]
        else let? v := read_value e in Ok [mkCV (e_seq e) false (Some v)]
      else Ok []
  end.

Definition collect_table_chain (cmp : Comparator) (t : Table) (k : key) (read_seq now : Z)
    : result (list ChainVersion) :=
  if negb (t_may_contain t k) then Ok []
  else table_chain_from cmp k now (seek cmp (t_entries t) k read_seq).

(** [versions.sort_by_key(|v| Reverse(v.seq))]. *)
Definition by_seq_desc (a b : ChainVersion) : comparison := cv_seq b ?= cv_seq a.

(** The loop of [fold_chain]: the operands above the first base, oldest first, and the base. *)
Fixpoint fold_loop (last_seq : option Z) (operands : list (list byte)) (vs : list ChainVersion)
    : list (list byte) * option (list byte) :=
  match vs with
  | [] => (operands, None)
  | v :: vs =>
      if bool_decide (last_seq = Some (cv_seq v)) then fold_loop (Some (cv_seq v)) operands vs
      else if cv_merge v then fold_loop (Some (cv_seq v)) (default [] (cv_value v) :: operands) vs
      else (operands, cv_value v)
  end.

Definition full_merge (op : MergeOp) (k : key) (existing : option (list byte)) (operands : list (list byte))
    : result (list byte) :=
  match op k existing operands with Some v => Ok v | None => Err Corruption end.

Definition fold_chain (op : MergeOp) (k : key) (vs : list ChainVersion) : result (list byte) :=
  let '(operands, existing) := fold_loop None [] (sort_by by_seq_desc vs) in
  match operands with
  | [] => match existing with Some v => Ok v | None => Err NotFound end
  | _ => full_merge op k existing operands
  end.

Fixpoint table_chains (cmp : Comparator) (tables : list Table) (k : key) (read_seq now : Z)
    : result (list ChainVersion) :=
  match tables with
  | [] => Ok []
  | t :: tables =>
      let? vs := collect_table_chain cmp t k read_seq now in
      let? rest := table_chains cmp tables k read_seq now in
      Ok (vs ++ rest)
  end.

Definition floor_version (floor : option Z) : list ChainVersion :=
  match floor with Some s => [mkCV s false None] | None => [] end.

Definition fold_point_chain (cmp : Comparator) (op : MergeOp) (s : Sources) (k : key) (read_seq now : Z)
    (range_floor : option Z) : result (list byte) :=
  let mems := concat (map (fun m => mem_chain cmp (m_entries m) k read_seq now) (s_mem s :: rev (s_imms s))) in
  let? tables := table_chains cmp (s_tables s) k read_seq now in
  fold_chain op k (floor_version range_floor ++ mems ++ tables).

(** [get_impl]. *)
Definition get_impl (cmp : Comparator) (op : option MergeOp) (early_exit : bool) (s : Sources) (k : key)
    (read_seq now : Z) : result (list byte) :=
  let? c := resolve_point cmp early_exit s k read_seq now in
  if c_kind c =? KIND_MERGE then
    match op with
    | Some op => fold_point_chain cmp op s k read_seq now (c_range_floor c)
    | None => Err Corruption
    end
  else cand_finish c.

(** ** Selecting the tables of a read *)

(** The binary searches: the first index at which [p] fails. *)
Fixpoint bsearch {A} (p : A -> bool) (l : list A) (fuel lo hi : nat) : nat :=
  match fuel with
  | O => lo
  | S fuel =>
      if (lo <? hi)%nat then
        let mid := Nat.div2 (lo + hi) in
        match l !! mid with
        | Some x => if p x then bsearch p l fuel (S mid) hi else bsearch p l fuel lo mid
        | None => lo
        end
      else lo
  end.

Definition key_in_range (cmp : Comparator) (t : Table) (k : key) : bool :=
  is_ge (compare cmp k (min_key (t_meta t))) && is_le (compare cmp k (max_key (t_meta t))).

Definition span_min (cmp : Comparator) (m : SstMeta) : key :=
  match range_min_key m with
  | Some k => if is_lt (compare cmp k (min_key m)) then k else min_key m
  | None => min_key m
  end.

Definition span_max (cmp : Comparator) (m : SstMeta) : key :=
  match range_max_key m with
  | Some k => if is_gt (compare cmp k (max_key m)) then k else max_key m
  | None => max_key m
  end.

Definition span_contains (cmp : Comparator) (m : SstMeta) (k : key) : bool :=
  is_ge (compare cmp k (span_min cmp m)) && is_le (compare cmp k (span_max cmp m)).

Definition find_overlapping_at (cmp : Comparator) (level : list Table) (k : key) : option nat * nat :=
  let lo := bsearch (fun t => is_lt (compare cmp (max_key (t_meta t)) k)) level (length level) 0 (length level) in
  (match level !! lo with
   | Some t => if is_ge (compare cmp k (min_key (t_meta t))) then Some lo else None
   | None => None
   end, lo).

Definition gap_owner (cmp : Comparator) (level : list Table) (k : key) (point : option nat) (lo : nat)
    : option nat :=
  match match point with Some i => i | None => lo end with
  | O => None
  | S candidate =>
      match level !! candidate with
      | None => None
      | Some t =>
          if negb (meta_has_ranges (t_meta t)) then None
          else match range_max_key (t_meta t) with
               | Some end_ => if is_lt (compare cmp k end_) then Some candidate else None
               | None => None
               end
      end
  end.

Definition opt_table (level : list Table) (i : option nat) : list Table :=
  match i with Some i => option_list (level !! i) | None => [] end.

Definition l0_tables (cmp : Comparator) (l0 : list Table) (k : key) : list Table :=
  List.filter (fun t => key_in_range cmp t k) l0.

Definition l0_range_tables (cmp : Comparator) (l0 : list Table) (k : key) : list Table :=
  List.filter (fun t => negb (key_in_range cmp t k) && (meta_has_ranges (t_meta t) && span_contains cmp (t_meta t) k)) l0.

Definition level_tables (cmp : Comparator) (level : list Table) (k : key) : list Table :=
  opt_table level (fst (find_overlapping_at cmp level k)).

Definition level_range_tables (cmp : Comparator) (level : list Table) (k : key) : list Table :=
  let '(hit, lo) := find_overlapping_at cmp level k in opt_table level (gap_owner cmp level k hit lo).

(** [point_read_sources]; the first level is L0, newest table first. *)
Definition point_read_sources (cmp : Comparator) (mem : Mem) (imms : list Mem) (levels : list (list Table))
    (k : key) : Sources :=
  let l0 := hd [] levels in
  let deep := tl levels in
  mkSources mem imms
    (l0_tables cmp l0 k ++ concat (map (fun l => level_tables cmp l k) deep))
    (l0_range_tables cmp l0 k ++ concat (map (fun l => level_range_tables cmp l k) deep)).

(** ** The reference: every version, then one fold *)

Definition run_versions (cmp : Comparator) (k : key) (read_seq : Z) (es : list Entry) : list Entry :=
  List.filter (fun e => is_eq (compare cmp (e_key e) k) && (e_seq e <=? read_seq)) es.

(** For one key, a range delete is a deleted version at its sequence. *)
Definition span_versions (cmp : Comparator) (k : key) (read_seq : Z) (ss : list Span) : list ChainVersion :=
  map (fun s => mkCV (s_seq s) false None)
    (List.filter (fun s => covers cmp s k && (s_seq s <=? read_seq)) ss).

Definition read_all (op : option MergeOp) (k : key) (vs : list ChainVersion) : result (list byte) :=
  let '(operands, existing) := fold_loop None [] (sort_by by_seq_desc vs) in
  match operands with
  | [] => match existing with Some v => Ok v | None => Err NotFound end
  | _ => match op with Some op => full_merge op k existing operands | None => Err Corruption end
  end.

(** ** Chains as sets of versions *)

(** The loop of [fold_chain] on a chain without copies. *)
Fixpoint walk (operands : list (list byte)) (vs : list ChainVersion) : list (list byte) * option (list byte) :=
  match vs with
  | [] => (operands, None)
  | v :: vs => if cv_merge v then walk (default [] (cv_value v) :: operands) vs else (operands, cv_value v)
  end.

Definition newer (a b : ChainVersion) : Prop := cv_seq b < cv_seq a.

Definition same_seq (a b : ChainVersion) : bool := cv_seq a =? cv_seq b.

Definition chain (vs : list ChainVersion) : list ChainVersion := dedup_by same_seq (sort_by by_seq_desc vs).

(** One sequence is one version. *)
Definition consistent (vs : list ChainVersion) : Prop :=
  forall v v', v ∈ vs -> v' ∈ vs -> cv_seq v = cv_seq v' -> v = v'.

Lemma fold_loop_dedup v ops vs :
  fold_loop (Some (cv_seq v)) ops vs = walk ops (dedup_from same_seq v vs).
Proof.
  revert v ops. induction vs as [|w vs IH]; intros v ops; cbn; [done|]. unfold same_seq at 1.
  destruct (Z.eqb_spec (cv_seq w) (cv_seq v)) as [E|E].
  - rewrite bool_decide_eq_true_2 by by rewrite E. by rewrite E, IH.
  - rewrite bool_decide_eq_false_2 by congruence. cbn. destruct (cv_merge w); [apply IH|done].
Qed.

Lemma fold_loop_chain vs : fold_loop None [] (sort_by by_seq_desc vs) = walk [] (chain vs).
Proof.
  unfold chain. destruct (sort_by by_seq_desc vs) as [|v l]; cbn; [done|].
  destruct (cv_merge v); [apply fold_loop_dedup|done].
Qed.

Lemma by_seq_desc_sorted vs : StronglySorted (fun a b => cv_seq b <= cv_seq a) (sort_by by_seq_desc vs).
Proof.
  eapply StronglySorted_impl; [|apply (sort_by_sorted by_seq_desc)].
  - unfold by_seq_desc. intros x y H. by apply Z.compare_le_iff in H.
  - unfold by_seq_desc. intros x y H1. rewrite Z.compare_gt_iff in H1. rewrite Z.compare_le_iff. lia.
  - unfold by_seq_desc. intros x y z. rewrite !Z.compare_le_iff. lia.
Qed.

Lemma dedup_seq v l :
  consistent (v :: l) -> StronglySorted (fun a b => cv_seq b <= cv_seq a) (v :: l) ->
  StronglySorted newer (v :: dedup_from same_seq v l) /\
  forall z, z ∈ v :: dedup_from same_seq v l <-> z ∈ v :: l.
Proof.
  revert v. induction l as [|w l IH]; intros v Hc Hs; cbn [dedup_from]; [split; [repeat constructor|done]|].
  apply StronglySorted_inv in Hs as [Hs HF]. apply Forall_cons in HF as [Hvw HF].
  destruct (same_seq w v) eqn:E; [apply Z.eqb_eq in E|apply Z.eqb_neq in E].
  - assert (w = v) as -> by (apply Hc; [right; left|left|done]).
    destruct (IH v) as [H1 H2]; [intros a b Ha Hb; apply Hc; by right|done|]. split; [done|].
    intros z. rewrite H2. rewrite !elem_of_cons. tauto.
  - destruct (IH w) as [H1 H2]; [intros a b Ha Hb; apply Hc; by right|done|]. split.
    + constructor; [done|]. apply Forall_forall. intros z Hz. apply H2 in Hz. unfold newer.
      apply StronglySorted_inv in Hs as [_ Hw]. rewrite Forall_forall in Hw.
      apply elem_of_cons in Hz as [->|Hz]; [lia|]. specialize (Hw z Hz). lia.
    + intros z. by rewrite elem_of_cons, H2, !elem_of_cons.
Qed.

Lemma chain_spec vs :
  consistent vs -> StronglySorted newer (chain vs) /\ forall v, v ∈ chain vs <-> v ∈ vs.
Proof.
  intros Hc. unfold chain. pose proof (by_seq_desc_sorted vs) as Hs.
  pose proof (sort_by_Permutation by_seq_desc vs) as HP.
  destruct (sort_by by_seq_desc vs) as [|v l]; cbn.
  - apply Permutation_nil in HP as ->. split; [constructor|done].
  - destruct (dedup_seq v l) as [H1 H2]; [|done|].
    + intros a b Ha Hb. apply Hc; by rewrite <- HP.
    + split; [done|]. intros z. by rewrite H2, HP.
Qed.

Lemma NoDup_consistent vs : NoDup (map cv_seq vs) -> consistent vs.
Proof.
  intros Hn v w Hv Hw E. induction vs as [|x vs IH]; [by apply elem_of_nil in Hv|]. cbn in Hn.
  apply NoDup_cons in Hn as [Hx Hn]. assert (forall y, y ∈ vs -> cv_seq y <> cv_seq x) as Hd.
  { intros y Hy Ey. apply Hx. rewrite <- Ey. apply elem_of_map. eauto. }
  apply elem_of_cons in Hv as [->|Hv]; apply elem_of_cons in Hw as [->|Hw]; [done|..|auto].
  - by destruct (Hd w Hw).
  - by destruct (Hd v Hv).
Qed.

(** A sub-chain that keeps everything down to the newest base reads the same. *)
Lemma walk_prefix A B ops :
  StronglySorted newer A -> StronglySorted newer B -> (forall b, b ∈ B -> b ∈ A) ->
  (forall a, a ∈ A -> (forall b, b ∈ A -> newer b a -> cv_merge b = true) -> a ∈ B) ->
  walk ops A = walk ops B.
Proof.
  revert B ops. induction A as [|a A IH]; intros B ops HA HB Hsub Hpre.
  - destruct B as [|b B]; [done|]. specialize (Hsub b ltac:(left)). by apply elem_of_nil in Hsub.
  - apply StronglySorted_inv in HA as [HA Ha]. rewrite Forall_forall in Ha.
    assert (a ∈ B) as Hin.
    { apply Hpre; [left|]. intros b Hb Hn. apply elem_of_cons in Hb as [->|Hb]; [unfold newer in Hn; lia|].
      specialize (Ha b Hb). unfold newer in *. lia. }
    destruct B as [|b B]; [by apply elem_of_nil in Hin|].
    apply StronglySorted_inv in HB as [HB Hb]. rewrite Forall_forall in Hb.
    assert (b = a) as ->.
    { apply elem_of_cons in Hin as [->|Hin]; [done|]. specialize (Hsub b ltac:(left)).
      apply elem_of_cons in Hsub as [->|Hsub]; [done|]. specialize (Ha b Hsub). specialize (Hb a Hin).
      unfold newer in *. lia. }
    cbn. destruct (cv_merge a) eqn:Em; [|done]. apply IH; [done..| |].
    + intros x Hx. specialize (Hsub x ltac:(by right)). apply elem_of_cons in Hsub as [->|]; [|done].
      specialize (Hb a Hx). unfold newer in Hb. lia.
    + intros x Hx Hbase. assert (x ∈ a :: B) as Hx'.
      { apply Hpre; [by right|]. intros y Hy Hn. apply elem_of_cons in Hy as [->|Hy]; [done|]. by apply Hbase. }
      apply elem_of_cons in Hx' as [->|]; [|done]. specialize (Ha a Hx). unfold newer in Ha. lia.
Qed.

Lemma consistent_sub vs ws : consistent vs -> (forall w, w ∈ ws -> w ∈ vs) -> consistent ws.
Proof. intros H Hs a b Ha Hb. apply H; auto. Qed.

(** Reading everything equals reading a part that holds what is above the newest base. *)
Lemma read_all_part op k vs ws :
  consistent vs -> (forall w, w ∈ ws -> w ∈ vs) ->
  (forall v, v ∈ vs -> (forall b, b ∈ vs -> newer b v -> cv_merge b = true) -> v ∈ ws) ->
  read_all op k vs = read_all op k ws.
Proof.
  intros Hc Hs Hp. unfold read_all. rewrite !fold_loop_chain.
  destruct (chain_spec vs Hc) as [S1 E1]. destruct (chain_spec ws (consistent_sub _ _ Hc Hs)) as [S2 E2].
  rewrite (walk_prefix (chain vs) (chain ws)); [done|done|done| |].
  - intros b. rewrite E1, E2. auto.
  - intros a. rewrite E1, E2. intros Ha Hb. apply Hp; [done|]. intros b Hb'. apply Hb. by rewrite E1.
Qed.

(** ** Sorted runs *)

Definition entry_lt (cmp : Comparator) (a b : Entry) : Prop :=
  klt cmp (e_key a) (e_key b) \/ (e_key a = e_key b /\ e_seq b < e_seq a).

Definition run_sorted (cmp : Comparator) (es : list Entry) : Prop := StronglySorted (entry_lt cmp) es.

Section Runs.
Context (cmp : Comparator) `{!TotalOrder cmp}.
Implicit Types (es : list Entry) (k : key).

Lemma elem_of_run_versions k rs es e :
  e ∈ run_versions cmp k rs es <-> e ∈ es /\ e_key e = k /\ e_seq e <= rs.
Proof.
  unfold run_versions. rewrite list_elem_of_In, filter_In, <- list_elem_of_In, andb_true_iff.
  rewrite (is_eq_true cmp), Z.leb_le. tauto.
Qed.

Lemma run_versions_cons_in k rs e es :
  e_key e = k -> e_seq e <= rs -> run_versions cmp k rs (e :: es) = e :: run_versions cmp k rs es.
Proof.
  intros Hk Hs. unfold run_versions. cbn [List.filter].
  by rewrite (proj2 (is_eq_true cmp _ _) Hk), (proj2 (Z.leb_le _ _) Hs).
Qed.

Lemma run_versions_cons_out k rs e es :
  (e_key e = k -> rs < e_seq e) -> run_versions cmp k rs (e :: es) = run_versions cmp k rs es.
Proof.
  intros H. unfold run_versions. cbn [List.filter].
  destruct (is_eq (compare cmp (e_key e) k)) eqn:E; [|done]. apply (is_eq_true cmp) in E.
  by rewrite (proj2 (Z.leb_gt _ _) (H E)).
Qed.

Lemma run_versions_none k rs es : (forall e, e ∈ es -> e_key e <> k) -> run_versions cmp k rs es = [].
Proof.
  intros H. destruct (run_versions cmp k rs es) as [|e l] eqn:E; [done|]. exfalso.
  assert (e ∈ run_versions cmp k rs es) as Hin by (rewrite E; left).
  apply elem_of_run_versions in Hin as (Hi & Hk & _). by apply (H e).
Qed.

(** The position a seek lands on, as the visible versions of the key and what follows them. *)
Definition ends_key k (rest : list Entry) : Prop :=
  match rest with [] => True | e :: _ => e_key e <> k end.

Lemma run_tail k rs es :
  run_sorted cmp es -> (forall e, e ∈ es -> e_key e = k -> e_seq e <= rs) ->
  (forall e, e ∈ es -> kle cmp k (e_key e)) ->
  exists rest, es = run_versions cmp k rs es ++ rest /\ ends_key k rest.
Proof.
  induction es as [|e es IH]; intros Hs Hv Hk; [by exists []|].
  apply StronglySorted_inv in Hs as [Hs He]. rewrite Forall_forall in He.
  destruct (decide (e_key e = k)) as [E|E].
  - destruct IH as (rest & Hr & Hd); [done|intros x Hx; apply Hv; by right|intros x Hx; apply Hk; by right|].
    exists rest. rewrite run_versions_cons_in by (first [done | apply Hv; [left|done]]). cbn. by rewrite <- Hr.
  - exists (e :: es). rewrite run_versions_none; [done|]. intros x Hx. apply elem_of_cons in Hx as [->|Hx]; [done|].
    pose proof (Hk e ltac:(left)) as Hke. destruct (He x Hx) as [Hlt|[Heq _]]; [|congruence].
    intros Hxk. rewrite Hxk in Hlt. apply E. apply (kle_antisym cmp); [by apply klt_kle|done].
Qed.

Lemma seek_split k rs es :
  run_sorted cmp es -> exists rest, seek cmp es k rs = run_versions cmp k rs es ++ rest /\ ends_key k rest.
Proof.
  induction es as [|e es IH]; intros Hs; [by exists []|]. pose proof Hs as Hs'.
  apply StronglySorted_inv in Hs as [Hs He]. rewrite Forall_forall in He. cbn [seek].
  destruct (before cmp e k rs) eqn:Eb; unfold before in Eb.
  - rewrite run_versions_cons_out; [by apply IH|]. intros Hk.
    rewrite (proj2 (kcompare_eq cmp _ _) Hk) in Eb. by apply Z.ltb_lt in Eb.
  - assert (kle cmp k (e_key e) /\ (e_key e = k -> e_seq e <= rs)) as [Hke Hse].
    { destruct (compare cmp (e_key e) k) eqn:Ec; [|done|].
      - apply (kcompare_eq cmp) in Ec as ->. split; [by apply kle_refl|]. intros _. by apply Z.ltb_ge.
      - split; [|intros Hk; apply (kcompare_eq cmp) in Hk; congruence].
        apply (not_klt cmp). unfold klt. congruence. }
    apply run_tail; [done| |].
    + intros x Hx Hk. apply elem_of_cons in Hx as [->|Hx]; [by apply Hse|].
      destruct (He x Hx) as [Hlt|[Heq Hlt]]; [rewrite Hk in Hlt; korder|]. rewrite Heq in Hse.
      specialize (Hse Hk). lia.
    + intros x Hx. apply elem_of_cons in Hx as [->|Hx]; [done|].
      destruct (He x Hx) as [Hlt|[Heq _]]; [by apply (kle_trans cmp _ (e_key e)); [|apply klt_kle]|by rewrite <- Heq].
Qed.

Lemma run_versions_sorted k rs es : run_sorted cmp es -> StronglySorted (fun a b => e_seq b < e_seq a) (run_versions cmp k rs es).
Proof.
  intros Hs. assert (StronglySorted (entry_lt cmp) (run_versions cmp k rs es)) as H.
  { unfold run_versions. induction Hs as [|e es Hs IH HF]; cbn; [constructor|].
    destruct (_ && _); [|done]. constructor; [done|]. rewrite Forall_forall in *. intros x Hx.
    apply HF. apply list_elem_of_In, filter_In in Hx as [Hx _]. by apply list_elem_of_In. }
  assert (Forall (fun e => e_key e = k) (run_versions cmp k rs es)) as HF.
  { apply Forall_forall. intros e He. by apply elem_of_run_versions in He as (_ & ? & _). }
  induction H as [|e l H IH Hl]; [constructor|]. apply Forall_cons in HF as [Hk HF].
  constructor; [by apply IH|]. rewrite Forall_forall in *. intros x Hx.
  destruct (Hl x Hx) as [Hlt|[_ ?]]; [|done]. rewrite Hk, (HF x Hx) in Hlt. by apply klt_irrefl in Hlt.
Qed.
End Runs.

(** ** The candidate pass keeps the newest version *)

Definition versions (cmp : Comparator) (k : key) (rs now : Z) (es : list Entry) : list ChainVersion :=
  map (chain_version now) (run_versions cmp k rs es).

Definition is_none {A} (o : option A) : bool := if o is Some _ then false else true.

(** [v] is the newest of [vs] and what a lookup reports. *)
Definition newest_is (vs : list ChainVersion) (v : ChainVersion) (value : option (list byte)) (seq : Z)
    (deleted : bool) (kind : Z) : Prop :=
  v ∈ vs /\ (forall w, w ∈ vs -> cv_seq w <= cv_seq v) /\
  value = cv_value v /\ seq = cv_seq v /\ deleted = is_none (cv_value v) /\ (kind =? KIND_MERGE) = cv_merge v.

Definition lookup_for (l : Lookup) (vs : list ChainVersion) : Prop :=
  (l_found l = false /\ vs = []) \/
  (l_found l = true /\ exists v, newest_is vs v (l_value l) (l_seq l) (l_deleted l) (l_kind l)).

Definition cand_for (c : PointReadCandidate) (vs : list ChainVersion) : Prop :=
  (c_found c = false /\ vs = [] /\ c_kind c = KIND_PUT) \/
  (c_found c = true /\ exists v, newest_is vs v (c_value c) (c_seq c) (c_deleted c) (c_kind c)).

Lemma cand_default_for : cand_for cand_default [].
Proof. by left. Qed.

Lemma newest_is_l vs ws v a s d n :
  newest_is vs v a s d n -> (forall w, w ∈ ws -> cv_seq w <= cv_seq v) -> newest_is (vs ++ ws) v a s d n.
Proof.
  intros (H1 & H2 & H3) Hw. split; [apply elem_of_app; by left|]. split; [|done].
  intros w [Hx|Hx]%elem_of_app; auto.
Qed.

Lemma newest_is_r vs ws v a s d n :
  newest_is ws v a s d n -> (forall w, w ∈ vs -> cv_seq w <= cv_seq v) -> newest_is (vs ++ ws) v a s d n.
Proof.
  intros (H1 & H2 & H3) Hw. split; [apply elem_of_app; by right|]. split; [|done].
  intros w [Hx|Hx]%elem_of_app; auto.
Qed.

Lemma consider_for c vs l ws : cand_for c vs -> lookup_for l ws -> cand_for (consider c l) (vs ++ ws).
Proof.
  unfold consider. intros Hc [[Hl ->]|(Hl & w & Hw)].
  { rewrite Hl, app_nil_r. done. }
  rewrite Hl. destruct Hc as [(Hc & -> & _)|(Hc & v & Hv)].
  { rewrite Hc. right. split; [done|]. exists w. done. }
  rewrite Hc. pose proof Hw as (_ & Hwm & _ & Hws & _). pose proof Hv as (_ & Hvm & _ & Hvs & _).
  right. destruct (Z.ltb_spec (c_seq c) (l_seq l)); cbn.
  - split; [done|]. exists w. apply newest_is_r; [done|]. intros x Hx. specialize (Hvm x Hx). lia.
  - split; [done|]. exists v. apply newest_is_l; [done|]. intros x Hx. specialize (Hwm x Hx). lia.
Qed.

(** [o] is the newest of the delete versions [ws]. *)
Definition cover_for (o : option Z) (ws : list ChainVersion) : Prop :=
  match o with
  | None => ws = []
  | Some s => mkCV s false None ∈ ws /\ forall w, w ∈ ws -> cv_seq w <= s
  end.

Lemma mask_for c vs o ws : cand_for c vs -> cover_for o ws -> cand_for (mask_candidate c o) (vs ++ ws).
Proof.
  unfold mask_candidate, cover_for. destruct o as [s|]; [|intros Hc ->; by rewrite app_nil_r].
  intros Hc [Hin Hm]. right. assert (newest_is ws (mkCV s false None) None s true KIND_DELETE) as Hw by done.
  destruct Hc as [(Hc & -> & _)|(Hc & v & Hv)]; rewrite Hc; [split; [done|]; by eexists|].
  pose proof Hv as (_ & Hvm & _ & Hvs & _). cbn [negb orb]. destruct (Z.ltb_spec (c_seq c) s).
  - split; [done|]. eexists. apply newest_is_r; [done|]. intros x Hx. specialize (Hvm x Hx). cbn. lia.
  - split; [done|]. exists v. apply newest_is_l; [done|]. intros x Hx. specialize (Hm x Hx). lia.
Qed.

Lemma consider_floor c l : c_range_floor (consider c l) = c_range_floor c.
Proof. unfold consider. by destruct (_ && _). Qed.

Lemma mask_floor c o : c_range_floor c = None -> c_range_floor (mask_candidate c o) = o.
Proof. unfold mask_candidate. destruct o; [|done]. by destruct (_ || _). Qed.

Section Lookups.
Context (cmp : Comparator) `{!TotalOrder cmp}.

Lemma newest_head k rs now es e l :
  run_sorted cmp es -> run_versions cmp k rs es = e :: l ->
  newest_is (versions cmp k rs now es) (chain_version now e)
    (if dead now e then None else Some (e_value e)) (e_seq e) (dead now e) (e_kind e).
Proof.
  intros Hs E. pose proof (run_versions_sorted cmp k rs es Hs) as Ho. rewrite E in Ho.
  apply StronglySorted_inv in Ho as [_ Ho]. rewrite Forall_forall in Ho.
  unfold versions. rewrite E. cbn [map]. split; [left|]. split.
  - intros w [->|Hw]%elem_of_cons; [done|]. apply elem_of_map in Hw as (x & Hx & <-).
    specialize (Ho x Hx). cbn. lia.
  - cbn. unfold e_merge. by destruct (dead now e).
Qed.

Lemma mem_get_for k rs now es :
  run_sorted cmp es -> lookup_for (mem_get cmp es k rs now) (versions cmp k rs now es).
Proof.
  intros Hs. unfold mem_get. destruct (seek_split cmp k rs es Hs) as (rest & -> & Hr).
  destruct (run_versions cmp k rs es) as [|e l] eqn:E; cbn [app].
  - left. unfold versions. rewrite E. split; [|done]. destruct rest as [|e rest]; [done|].
    by rewrite (proj2 (is_eq_false cmp _ _) Hr).
  - right. assert (e ∈ run_versions cmp k rs es) as Hin by (rewrite E; left).
    apply elem_of_run_versions in Hin as (_ & Hk & _); [|done]. rewrite (proj2 (is_eq_true cmp _ _) Hk).
    pose proof (newest_head k rs now es e l Hs E) as Hn.
    destruct (dead now e); (split; [done|]; by eexists).
Qed.

Lemma get_unfiltered_for k rs now es :
  run_sorted cmp es -> Forall (fun e => e_readable e = true) es ->
  exists l, get_unfiltered cmp es k rs now = Ok l /\ lookup_for l (versions cmp k rs now es).
Proof.
  intros Hs Hr. pose proof (mem_get_for k rs now es Hs) as H. unfold mem_get in H. unfold get_unfiltered.
  destruct (seek cmp es k rs) as [|e l] eqn:E; [eauto|].
  destruct (is_eq _); [|eauto]. destruct (dead now e); [eauto|]. unfold read_value.
  assert (e ∈ es) as Hin.
  { assert (forall x, x ∈ seek cmp es k rs -> x ∈ es) as Hsub.
    { clear. intros x. induction es as [|y es IH]; cbn; [done|]. destruct (before _ _ _ _); [|done].
      intros Hx. right. auto. }
    apply Hsub. rewrite E. left. }
  rewrite Forall_forall in Hr. rewrite (Hr e Hin). cbn. eauto.
Qed.
End Lookups.

(** ** What a read assumes of its sources *)

Definition operands_unexpiring (es : list Entry) : Prop := forall e, e ∈ es -> e_merge e = true -> e_ttl e = 0.

Definition mem_ok (cmp : Comparator) (m : Mem) : Prop :=
  run_sorted cmp (m_entries m) /\ set_wf cmp (m_ranges m) /\ operands_unexpiring (m_entries m).

Record table_ok (cmp : Comparator) (t : Table) : Prop := {
  to_sorted : run_sorted cmp (t_entries t);
  to_readable : Forall (fun e => e_readable e = true) (t_entries t);
  to_max_seq : forall e, e ∈ t_entries t -> e_seq e <= Manifest.max_seq (t_meta t);
  to_bloom : forall e, e ∈ t_entries t -> t_may_contain t (e_key e) = true;
  to_operands : operands_unexpiring (t_entries t);
  to_frags : frags_wf cmp (t_frags t);
  to_ranges : meta_has_ranges (t_meta t) = false -> t_frags t = [];
}.

Definition sources_ok (cmp : Comparator) (s : Sources) : Prop :=
  Forall (mem_ok cmp) (s_mem s :: s_imms s) /\ Forall (table_ok cmp) (s_tables s ++ s_range_tables s).

Definition mem_spans (m : Mem) : list Span := spans (inner (m_ranges m)).
Definition table_spans (t : Table) : list Span := spans_of_fragments (t_frags t).

Definition source_spans (s : Sources) : list Span :=
  concat (map mem_spans (s_mem s :: s_imms s)) ++ concat (map table_spans (s_tables s ++ s_range_tables s)).

Definition source_versions (cmp : Comparator) (s : Sources) (k : key) (rs now : Z) : list ChainVersion :=
  concat (map (fun m => versions cmp k rs now (m_entries m)) (s_mem s :: rev (s_imms s)))
  ++ concat (map (fun t => versions cmp k rs now (t_entries t)) (s_tables s)).

Section Reads.
Context (cmp : Comparator) `{!TotalOrder cmp}.

Lemma take_cover_newest P Q b o : is_newest P b -> is_newest Q o -> is_newest (fun x => P x \/ Q x) (take_cover b o).
Proof.
  intros Hb Ho. destruct o as [s|]; cbn [take_cover].
  - destruct Ho as [Hs Hm]. pose proof (opt_max_newest P b s Hb) as H. unfold opt_max in *. cbn in *.
    destruct H as [[Hp|Hp] Hx]; (split; [auto|]).
    + intros x [Hpx|Hqx]; [by apply Hx; left|]. specialize (Hm x Hqx). specialize (Hx s ltac:(by right)). lia.
    + rewrite Hp. by right.
    + intros x [Hpx|Hqx]; [by apply Hx; left|]. specialize (Hm x Hqx). specialize (Hx s ltac:(by right)). lia.
  - eapply is_newest_ext, Hb. intros x. specialize (Ho x). tauto.
Qed.

(** Folding [take_cover] over sources. *)
Lemma fold_cover {A} (f : A -> option Z) (Q : A -> Z -> Prop) l P b :
  is_newest P b -> (forall a, a ∈ l -> is_newest (Q a) (f a)) ->
  is_newest (fun x => P x \/ exists a, a ∈ l /\ Q a x) (fold_left (fun b a => take_cover b (f a)) l b).
Proof.
  revert P b. induction l as [|a l IH]; intros P b Hb Hf; cbn.
  - eapply is_newest_ext, Hb. intros x. split; [by left|]. intros [?|(a & Ha & _)]; [done|]. by apply elem_of_nil in Ha.
  - eapply is_newest_ext, IH; [|apply take_cover_newest; [done|apply Hf; left]|intros; apply Hf; by right].
    intros x. cbn. split.
    + intros [[?|?]|(c & ? & ?)]; [by left|right; exists a; split; [left|done]|right; exists c; split; [by right|done]].
    + intros [?|(c & [->|?]%elem_of_cons & ?)]; eauto.
Qed.

Lemma span_at_concat {A} (f : A -> list Span) l k x :
  span_at cmp (concat (map f l)) k x <-> exists a, a ∈ l /\ span_at cmp (f a) k x.
Proof.
  unfold span_at. setoid_rewrite elem_of_concat_map. split.
  - intros (s & (a & Ha & Hs) & H). eauto.
  - intros (a & Ha & s & Hs & H). eauto.
Qed.

Lemma table_cover_newest t k rs :
  table_ok cmp t ->
  is_newest (fun x => span_at cmp (table_spans t) k x /\ x <= rs)
    (if meta_has_ranges (t_meta t) then table_covering_seq cmp t k rs else None).
Proof.
  intros Ht. assert (is_newest (fun x => span_at cmp (table_spans t) k x /\ x <= rs) (table_covering_seq cmp t k rs)) as H.
  { unfold table_covering_seq, table_spans. destruct (t_frags t) as [|f fs] eqn:E.
    - intros x [(s & Hs & _) _]. by apply elem_of_nil in Hs.
    - rewrite <- E. eapply is_newest_ext, (covering_seq_in_spec cmp _ k rs (to_frags _ _ Ht)).
      intros x. by rewrite spans_of_fragments_at. }
  destruct (meta_has_ranges (t_meta t)) eqn:E; [done|]. unfold table_covering_seq in H.
  by rewrite (to_ranges _ _ Ht E) in H.
Qed.

Lemma set_empty_spans m : mem_ok cmp m -> set_is_empty (m_ranges m) = true -> mem_spans m = [].
Proof.
  intros (_ & (_ & _ & Hl & _) & _). unfold set_is_empty, mem_spans. intros E. apply Nat.eqb_eq in E.
  rewrite E in Hl. by apply nil_length_inv.
Qed.

Lemma no_ranges_no_spans s : sources_ok cmp s -> sources_has_ranges s = false -> source_spans s = [].
Proof.
  intros [Hm Ht] E. unfold sources_has_ranges in E. rewrite !orb_false_iff in E. destruct E as [[[E1 E2] E3] E4].
  apply negb_false_iff, Nat.eqb_eq, nil_length_inv in E1. apply negb_false_iff in E2.
  apply Forall_cons in Hm as [Hm0 Hm]. unfold source_spans. rewrite E1, app_nil_r in *. cbn [map concat].
  rewrite (set_empty_spans _ Hm0 E2). cbn [app].
  assert (concat (map mem_spans (s_imms s)) = []) as ->.
  { clear -Hm E3. induction Hm as [|m l H Hm IH]; [done|]. cbn in *. apply orb_false_iff in E3 as [E E3].
    apply negb_false_iff in E. by rewrite (set_empty_spans _ H E), IH. }
  cbn [app]. clear -Ht E4. induction Ht as [|t l H Ht IH]; [done|]. cbn in *. apply orb_false_iff in E4 as [E E4].
  unfold table_spans at 1. by rewrite (to_ranges _ _ H E), IH.
Qed.

Lemma covering_range_seq_spec s k rs :
  sources_ok cmp s ->
  is_newest (fun x => span_at cmp (source_spans s) k x /\ x <= rs) (covering_range_seq cmp s k rs).
Proof.
  intros Hok. unfold covering_range_seq. destruct (sources_has_ranges s) eqn:E; cbn [negb].
  2:{ rewrite (no_ranges_no_spans _ Hok E). intros x [(sp & Hs & _) _]. by apply elem_of_nil in Hs. }
  destruct Hok as [Hm Ht]. rewrite Forall_forall in Hm. rewrite Forall_forall in Ht.
  set (Qm := fun (m : Mem) x => span_at cmp (mem_spans m) k x /\ x <= rs).
  set (Qt := fun (t : Table) x => span_at cmp (table_spans t) k x /\ x <= rs).
  assert (forall m, m ∈ s_mem s :: s_imms s -> is_newest (Qm m) (set_covering_seq cmp (m_ranges m) k rs)) as HQm.
  { intros m H. destruct (Hm m H) as (_ & Hwf & _). rewrite (set_covering_seq_spec cmp _ k rs Hwf). apply newest_cover_spec; exact _. }
  pose proof (take_cover_newest (fun _ => False) (Qm (s_mem s)) None _ (fun x H => H) (HQm _ ltac:(left))) as H0.
  pose proof (fold_cover (fun m => set_covering_seq cmp (m_ranges m) k rs) Qm (s_imms s) _ _ H0
    ltac:(intros; apply HQm; by right)) as H1.
  pose proof (fold_cover (fun t => if meta_has_ranges (t_meta t) then table_covering_seq cmp t k rs else None)
    Qt (s_tables s ++ s_range_tables s) _ _ H1 ltac:(intros t H; apply table_cover_newest, Ht, H)) as H2.
  assert (forall l b, fold_left (fun b t => if meta_has_ranges (t_meta t) then take_cover b (table_covering_seq cmp t k rs) else b) l b =
    fold_left (fun b t => take_cover b (if meta_has_ranges (t_meta t) then table_covering_seq cmp t k rs else None)) l b) as Hf.
  { clear. induction l as [|t l IH]; intros b; cbn; [done|]. rewrite IH. by destruct (meta_has_ranges (t_meta t)). }
  rewrite Hf. eapply is_newest_ext, H2. intros x. unfold source_spans, Qm, Qt.
  rewrite span_at_app, !span_at_concat. cbn [map concat]. setoid_rewrite elem_of_cons.
  clear. naive_solver.
Qed.

Lemma cover_for_spans o k rs ss :
  is_newest (fun x => span_at cmp ss k x /\ x <= rs) o -> cover_for o (span_versions cmp k rs ss).
Proof.
  assert (forall w, w ∈ span_versions cmp k rs ss <-> w = mkCV (cv_seq w) false None /\ span_at cmp ss k (cv_seq w) /\ cv_seq w <= rs) as Hw.
  { intros w. unfold span_versions, span_at. rewrite elem_of_map. setoid_rewrite elem_of_lfilter.
    setoid_rewrite andb_true_iff. setoid_rewrite (covers_spec cmp). setoid_rewrite Z.leb_le. split.
    - intros (sp & (Hs & [? ?] & ?) & <-). cbn. eauto 10.
    - intros (Hw & (sp & Hs & ? & ? & Hseq) & ?). exists sp. rewrite Hw, Hseq. eauto. }
  destruct o as [m|]; cbn.
  - intros [Hm Hmax]. split; [by apply Hw|]. intros w H. apply Hw in H as (_ & H1 & H2). auto.
  - intros H. destruct (span_versions cmp k rs ss) as [|w l]; [done|]. exfalso.
    destruct (proj1 (Hw w) ltac:(left)) as (_ & H1 & H2). by apply (H (cv_seq w)).
Qed.

Lemma fold_mems_for k rs now ms c vs :
  Forall (mem_ok cmp) ms -> cand_for c vs ->
  let c' := fold_left (fun c m => consider c (mem_get cmp (m_entries m) k rs now)) ms c in
  cand_for c' (vs ++ concat (map (fun m => versions cmp k rs now (m_entries m)) ms)) /\
  c_range_floor c' = c_range_floor c.
Proof.
  intros Hm. revert c vs. induction Hm as [|m ms [Hs _] Hm IH]; intros c vs Hc; cbn.
  - by rewrite app_nil_r.
  - destruct (IH _ _ (consider_for _ _ _ _ Hc (mem_get_for cmp k rs now _ Hs))) as [H1 H2].
    rewrite <- app_assoc in H1. by rewrite H2, consider_floor.
Qed.

Lemma consider_sstables_for ee k rs now ts c vs :
  Forall (table_ok cmp) ts -> cand_for c vs ->
  exists c', consider_sstables cmp ee k rs now c ts = Ok c' /\
    cand_for c' (vs ++ concat (map (fun t => versions cmp k rs now (t_entries t)) ts)) /\
    c_range_floor c' = c_range_floor c.
Proof.
  intros Ht. revert c vs. induction Ht as [|t ts H Ht IH]; intros c vs Hc; cbn [consider_sstables map concat].
  - exists c. by rewrite app_nil_r.
  - rewrite app_assoc.
    assert (forall w, w ∈ versions cmp k rs now (t_entries t) -> exists e, e ∈ t_entries t /\ e_key e = k /\ w = chain_version now e) as Hv.
    { intros w Hw. apply elem_of_map in Hw as (e & He & <-). apply (elem_of_run_versions cmp) in He as (? & ? & _). eauto. }
    destruct (ee && c_found c && (Manifest.max_seq (t_meta t) <=? c_seq c)) eqn:Ee.
    { apply IH. apply andb_true_iff in Ee as [Ee Hs]. apply andb_true_iff in Ee as [_ Hf]. apply Z.leb_le in Hs.
      destruct Hc as [(Hf' & _)|(_ & v & Hn)]; [congruence|]. right. split; [done|]. exists v.
      apply newest_is_l; [done|]. intros w Hw. destruct (Hv w Hw) as (e & He & _ & ->).
      pose proof (to_max_seq _ _ H e He). destruct Hn as (_ & _ & _ & <- & _). cbn. lia. }
    destruct (t_may_contain t k) eqn:Eb; cbn [negb].
    + destruct (get_unfiltered_for cmp k rs now _ (to_sorted _ _ H) (to_readable _ _ H)) as (l & -> & Hl). cbn [rbind].
      destruct (IH _ _ (consider_for _ _ _ _ Hc Hl)) as (c' & E & H1 & H2). exists c'.
      by rewrite H2, consider_floor.
    + apply IH. assert (versions cmp k rs now (t_entries t) = []) as ->; [|by rewrite app_nil_r].
      destruct (versions cmp k rs now (t_entries t)) as [|w l]; [done|]. exfalso.
      destruct (Hv w ltac:(left)) as (e & He & Hk & _). pose proof (to_bloom _ _ H e He). congruence.
Qed.

Lemma cand_for_perm c vs ws : cand_for c vs -> vs ≡ₚ ws -> cand_for c ws.
Proof.
  intros [(H & -> & Hk)|(H & v & Hv)] HP; [left; by apply Permutation_nil in HP as ->|].
  right. split; [done|]. exists v. unfold newest_is in *. by setoid_rewrite <- HP.
Qed.

Definition all_versions (s : Sources) (k : key) (rs now : Z) : list ChainVersion :=
  span_versions cmp k rs (source_spans s) ++ source_versions cmp s k rs now.

Lemma resolve_point_spec ee s k rs now :
  sources_ok cmp s ->
  exists c, resolve_point cmp ee s k rs now = Ok c /\ cand_for c (all_versions s k rs now) /\
    c_range_floor c = covering_range_seq cmp s k rs.
Proof.
  intros Hok. pose proof Hok as [Hm Ht]. apply Forall_app in Ht as [Ht _]. unfold resolve_point.
  assert (Forall (mem_ok cmp) (s_mem s :: rev (s_imms s))) as Hm'.
  { apply Forall_cons in Hm as [? ?]. constructor; [done|]. by apply Forall_rev. }
  destruct (fold_mems_for k rs now (s_mem s :: rev (s_imms s)) cand_default [] Hm' cand_default_for) as [H1 H2].
  cbn [fold_left] in H1, H2. set (c1 := fold_left _ (rev (s_imms s)) _) in *.
  pose proof (mask_for _ _ _ _ H1 (cover_for_spans _ _ _ _ (covering_range_seq_spec s k rs Hok))) as H3.
  destruct (consider_sstables_for ee k rs now (s_tables s) _ _ Ht H3) as (c' & E & H4 & H5).
  exists c'. split; [done|]. split.
  - eapply cand_for_perm; [exact H4|]. unfold all_versions, source_versions. cbn [app].
    rewrite <- app_assoc. apply Permutation_app_swap_app.
  - rewrite H5. by apply mask_floor.
Qed.

(** ** Gathering a chain *)

Lemma mem_chain_from_spec k now vs rest :
  Forall (fun e => e_key e = k) vs -> ends_key k rest -> StronglySorted (fun a b => e_seq b < e_seq a) vs ->
  (forall w, w ∈ mem_chain_from cmp k now (vs ++ rest) -> w ∈ map (chain_version now) vs) /\
  (forall v, v ∈ map (chain_version now) vs ->
     (forall b, b ∈ map (chain_version now) vs -> newer b v -> cv_merge b = true) ->
     v ∈ mem_chain_from cmp k now (vs ++ rest)).
Proof.
  intros Hk Hr Hs. induction vs as [|e vs IH]; cbn [app map].
  - split; [|by intros v ?%elem_of_nil]. destruct rest as [|e rest]; cbn; [done|].
    by rewrite (proj2 (is_eq_false cmp _ _) Hr).
  - apply Forall_cons in Hk as [Hke Hk]. apply StronglySorted_inv in Hs as [Hs He].
    destruct (IH Hk Hs) as [IH1 IH2]. cbn [mem_chain_from]. rewrite (proj2 (is_eq_true cmp _ _) Hke). split.
    + intros w [->|Hw]%elem_of_cons; [left|]. right. destruct (e_merge e); [auto|by apply elem_of_nil in Hw].
    + intros v [->|Hv]%elem_of_cons Hb; [left|]. right. rewrite Forall_forall in He.
      assert (e_merge e = true) as ->.
      { apply (Hb (chain_version now e) ltac:(left)). apply elem_of_map in Hv as (x & Hx & <-).
        specialize (He x Hx). unfold newer. cbn. lia. }
      apply IH2; [done|]. intros b Hb'. apply Hb. by right.
Qed.

Lemma mem_chain_spec k rs now es :
  run_sorted cmp es ->
  (forall w, w ∈ mem_chain cmp es k rs now -> w ∈ versions cmp k rs now es) /\
  (forall v, v ∈ versions cmp k rs now es ->
     (forall b, b ∈ versions cmp k rs now es -> newer b v -> cv_merge b = true) ->
     v ∈ mem_chain cmp es k rs now).
Proof.
  intros Hs. unfold mem_chain, versions. destruct (seek_split cmp k rs es Hs) as (rest & -> & Hr).
  apply mem_chain_from_spec; [|done|by apply run_versions_sorted].
  apply Forall_forall. intros e He. by apply (elem_of_run_versions cmp) in He as (_ & ? & _).
Qed.

Lemma table_chain_from_eq k now es :
  Forall (fun e => e_readable e = true) es -> operands_unexpiring es ->
  table_chain_from cmp k now es = Ok (mem_chain_from cmp k now es).
Proof.
  intros Hr Ho. induction es as [|e es IH]; [done|]. apply Forall_cons in Hr as [He Hr].
  cbn [table_chain_from mem_chain_from]. destruct (is_eq _); [|done]. unfold read_value, chain_version. rewrite He.
  rewrite IH; [|done|intros x Hx; apply Ho; by right].
  destruct (e_merge e) eqn:Em; cbn [rbind].
  - assert (dead now e = false) as ->; [|done]. unfold dead, e_tombstone, expired. unfold e_merge in Em.
    rewrite (Ho e ltac:(left) Em). apply Z.eqb_eq in Em. by rewrite Em.
  - by destruct (dead now e).
Qed.

Lemma seek_suffix es k rs : exists pre, es = pre ++ seek cmp es k rs.
Proof.
  induction es as [|e es (pre & IH)]; cbn; [by exists []|]. destruct (before cmp e k rs); [|by exists []].
  exists (e :: pre). cbn. by rewrite <- IH.
Qed.

Lemma collect_table_chain_spec t k rs now :
  table_ok cmp t ->
  exists vs, collect_table_chain cmp t k rs now = Ok vs /\
  (forall w, w ∈ vs -> w ∈ versions cmp k rs now (t_entries t)) /\
  (forall v, v ∈ versions cmp k rs now (t_entries t) ->
     (forall b, b ∈ versions cmp k rs now (t_entries t) -> newer b v -> cv_merge b = true) -> v ∈ vs).
Proof.
  intros H. unfold collect_table_chain. destruct (t_may_contain t k) eqn:Eb; cbn [negb].
  - exists (mem_chain cmp (t_entries t) k rs now). split; [|by apply mem_chain_spec, to_sorted].
    destruct (seek_suffix (t_entries t) k rs) as (pre & Hp). unfold mem_chain. apply table_chain_from_eq.
    + pose proof (to_readable _ _ H) as Hr. rewrite Hp in Hr. by apply Forall_app in Hr as [_ ?].
    + intros e He. apply (to_operands _ _ H). rewrite Hp. apply elem_of_app. by right.
  - exists []. split; [done|]. split; [by intros w ?%elem_of_nil|]. intros v Hv. exfalso.
    apply elem_of_map in Hv as (e & He & _). apply (elem_of_run_versions cmp) in He as (He & Hk & _).
    pose proof (to_bloom _ _ H e He). congruence.
Qed.

Lemma table_chains_spec ts k rs now :
  Forall (table_ok cmp) ts ->
  exists vs, table_chains cmp ts k rs now = Ok vs /\
  (forall w, w ∈ vs -> w ∈ concat (map (fun t => versions cmp k rs now (t_entries t)) ts)) /\
  (forall v, v ∈ concat (map (fun t => versions cmp k rs now (t_entries t)) ts) ->
     (forall b, b ∈ concat (map (fun t => versions cmp k rs now (t_entries t)) ts) -> newer b v -> cv_merge b = true) ->
     v ∈ vs).
Proof.
  induction 1 as [|t ts H Ht (vs & IH & IH1 & IH2)]; cbn [table_chains map concat].
  - exists []. split; [done|]. split; intros ? ?%elem_of_nil; done.
  - destruct (collect_table_chain_spec t k rs now H) as (ws & -> & H1 & H2). rewrite IH. cbn [rbind].
    exists (ws ++ vs). split; [done|]. setoid_rewrite elem_of_app. split; [naive_solver|].
    intros v [Hv|Hv] Hb; [left; apply H2|right; apply IH2]; auto.
Qed.
End Reads.

(** ** Table selection *)

Lemma bsearch_spec {A} (p : A -> bool) (l : list A) fuel lo hi :
  (lo <= hi <= length l)%nat -> (hi - lo <= fuel)%nat ->
  (forall i j x y, (i <= j)%nat -> l !! i = Some x -> l !! j = Some y -> p y = true -> p x = true) ->
  (forall i x, (i < lo)%nat -> l !! i = Some x -> p x = true) ->
  (forall i x, (hi <= i)%nat -> l !! i = Some x -> p x = false) ->
  let r := bsearch p l fuel lo hi in
  (lo <= r <= hi)%nat /\
  (forall i x, (i < r)%nat -> l !! i = Some x -> p x = true) /\
  (forall i x, (r <= i)%nat -> l !! i = Some x -> p x = false).
Proof.
  intros Hb Hf Hm. revert lo hi Hb Hf. induction fuel as [|fuel IH]; intros lo hi Hb Hf Hlo Hhi; cbn [bsearch].
  - replace hi with lo in Hhi by lia. split; [lia|done].
  - destruct (Nat.ltb_spec lo hi); [|replace hi with lo in Hhi by lia; split; [lia|done]].
    pose proof (Nat.div2_div (lo + hi)) as Hd. set (mid := Nat.div2 (lo + hi)) in *.
    pose proof (Nat.div_mod_eq (lo + hi) 2). pose proof (Nat.mod_upper_bound (lo + hi) 2 ltac:(lia)).
    destruct (l !! mid) as [x|] eqn:E; [|apply lookup_ge_None in E; lia].
    destruct (p x) eqn:Ep.
    + destruct (IH (S mid) hi) as (Hr & Hr1 & Hr2); [lia|lia| |done|split; [lia|done]].
      intros i y Hi Hy. apply (Hm i mid y x); [lia|done..].
    + destruct (IH lo mid) as (Hr & Hr1 & Hr2); [lia|lia|done| |split; [lia|done]].
      intros i y Hi Hy. destruct (p y) eqn:Ey; [|done]. rewrite (Hm mid i x y Hi E Hy Ey) in Ep. done.
Qed.

(** A level below L0: tables in key order, each with its entries inside its bounds, its fragments inside its
    span and ending before the next table.  A fragment may start before the first key of its table. *)
Record level_ok (cmp : Comparator) (level : list Table) : Prop := {
  lo_sorted : StronglySorted (fun a b => klt cmp (max_key (t_meta a)) (min_key (t_meta b))) level;
  lo_bounds : forall t, t ∈ level -> kle cmp (min_key (t_meta t)) (max_key (t_meta t));
  lo_entries : forall t e, t ∈ level -> e ∈ t_entries t ->
    kle cmp (min_key (t_meta t)) (e_key e) /\ kle cmp (e_key e) (max_key (t_meta t));
  lo_has_ranges : forall t, t ∈ level -> t_frags t <> [] -> meta_has_ranges (t_meta t) = true;
  lo_range_max : forall t f, t ∈ level -> f ∈ t_frags t ->
    exists m, range_max_key (t_meta t) = Some m /\ kle cmp (f_end f) m;
  lo_range_min : forall t f, t ∈ level -> f ∈ t_frags t ->
    exists m, range_min_key (t_meta t) = Some m /\ kle cmp m (f_start f);
  lo_frag_end : forall i t u f, level !! i = Some t -> level !! S i = Some u -> f ∈ t_frags t ->
    kle cmp (f_end f) (min_key (t_meta u));
}.

(** No fragment of the level reaches the key from before the first key of its table: the selection of
    tables by point bounds and the table to their left does not find one that does. *)
Definition no_early_cover (cmp : Comparator) (k : key) (level : list Table) : Prop :=
  forall t f, t ∈ level -> f ∈ t_frags t -> kle cmp (f_start f) k -> klt cmp k (f_end f) ->
    kle cmp (min_key (t_meta t)) k.

Section Select.
Context (cmp : Comparator) `{!TotalOrder cmp}.

Lemma level_order level i j t u :
  level_ok cmp level -> (i < j)%nat -> level !! i = Some t -> level !! j = Some u ->
  klt cmp (max_key (t_meta t)) (min_key (t_meta u)).
Proof.
  intros H Hij Ht Hu. pose proof (lo_sorted _ _ H) as Hs. clear H. revert i j Hij Ht Hu.
  induction Hs as [|x l Hs IH HF]; intros i j Hij Ht Hu; [done|].
  destruct j as [|j]; [lia|]. destruct i as [|i]; cbn in *; [|apply (IH i j); (lia || done)].
  injection Ht as ->. rewrite Forall_forall in HF. apply HF. by eapply list_elem_of_lookup_2.
Qed.

Lemma find_overlapping_spec level k hit lo :
  level_ok cmp level -> find_overlapping_at cmp level k = (hit, lo) ->
  (lo <= length level)%nat /\
  (forall i t, (i < lo)%nat -> level !! i = Some t -> klt cmp (max_key (t_meta t)) k) /\
  (forall i t, (lo <= i)%nat -> level !! i = Some t -> kle cmp k (max_key (t_meta t))) /\
  hit = (match level !! lo with
         | Some t => if is_ge (compare cmp k (min_key (t_meta t))) then Some lo else None
         | None => None end).
Proof.
  intros H E. unfold find_overlapping_at in E. injection E as E1 E2.
  destruct (bsearch_spec (fun t => is_lt (compare cmp (max_key (t_meta t)) k)) level (length level) 0 (length level))
    as (Hb & H1 & H2); [lia|lia| |intros; lia|intros i x Hi Hx; apply lookup_lt_Some in Hx; lia|].
  - intros i j x y Hij Hx Hy Hp. apply (is_lt_true cmp) in Hp. apply (is_lt_true cmp).
    destruct (decide (i = j)) as [->|Hne]; [congruence|].
    pose proof (level_order _ i j _ _ H ltac:(lia) Hx Hy).
    pose proof (lo_bounds _ _ H y ltac:(by eapply list_elem_of_lookup_2)). korder.
  - rewrite E2 in *. conj_split; [lia|..|congruence].
    + intros i t Hi Ht. apply (is_lt_true cmp). by eapply H1.
    + intros i t Hi Ht. apply (is_lt_false cmp). by eapply H2.
Qed.

(** The table that holds a key, and the tables whose fragments cover it, are selected. *)
Lemma select_entry level k t e :
  level_ok cmp level -> t ∈ level -> e ∈ t_entries t -> e_key e = k -> t ∈ level_tables cmp level k.
Proof.
  intros H Ht He Hk. unfold level_tables. destruct (find_overlapping_at cmp level k) as [hit lo] eqn:E.
  destruct (find_overlapping_spec _ _ _ _ H E) as (Hlen & H1 & H2 & ->). cbn [fst].
  destruct (lo_entries _ _ H t e Ht He) as [Hmin Hmax]. rewrite Hk in *.
  apply list_elem_of_lookup in Ht as (i & Hi).
  assert (~ (i < lo)%nat) as Hge by (intros Hlt; specialize (H1 i t Hlt Hi); korder).
  destruct (decide (i = lo)) as [->|Hne].
  - rewrite Hi, (proj2 (is_ge_true cmp _ _) Hmin). cbn. rewrite Hi. left.
  - exfalso. destruct (level !! lo) as [u|] eqn:Eu.
    + pose proof (level_order _ lo i _ _ H ltac:(lia) Eu Hi). specialize (H2 lo u ltac:(lia) Eu). korder.
    + apply lookup_ge_None in Eu. apply lookup_lt_Some in Hi. lia.
Qed.

Lemma select_fragment level k t f :
  level_ok cmp level -> no_early_cover cmp k level -> t ∈ level -> f ∈ t_frags t -> kle cmp (f_start f) k -> klt cmp k (f_end f) ->
  t ∈ level_tables cmp level k \/ t ∈ level_range_tables cmp level k.
Proof.
  intros H Hearly Ht Hf Hs He. unfold level_tables, level_range_tables.
  destruct (find_overlapping_at cmp level k) as [hit lo] eqn:E.
  destruct (find_overlapping_spec _ _ _ _ H E) as (Hlen & H1 & H2 & ->). cbn [fst].
  pose proof (Hearly t f Ht Hf Hs He) as Hmin.
  destruct (lo_range_max _ _ H t f Ht Hf) as (m & Hm & Hfm).
  assert (meta_has_ranges (t_meta t) = true) as Hr
    by (apply (lo_has_ranges _ _ H t Ht); intros En; rewrite En in Hf; by apply elem_of_nil in Hf).
  apply list_elem_of_lookup in Ht as (i & Hi). destruct (decide (i < lo)%nat) as [Hlt|Hge].
  - right. pose proof (H1 i t Hlt Hi) as Hmax. assert (lo = S i) as ->.
    { destruct (level !! S i) as [u|] eqn:Eu; [|apply lookup_ge_None in Eu; lia].
      pose proof (lo_frag_end _ _ H i t u f Hi Eu Hf).
      pose proof (lo_bounds _ _ H u ltac:(by eapply list_elem_of_lookup_2)).
      destruct (decide (S i < lo)%nat) as [Hc|]; [|lia]. pose proof (H1 _ u Hc Eu). exfalso. korder. }
    assert ((match level !! S i with Some t => if is_ge (compare cmp k (min_key (t_meta t))) then Some (S i) else None
      | None => None end) = None) as ->.
    { destruct (level !! S i) as [u|] eqn:Eu; [|done]. pose proof (lo_frag_end _ _ H i t u f Hi Eu Hf).
      rewrite (proj2 (is_ge_false cmp _ _)); [done|korder]. }
    unfold gap_owner. rewrite Hi, Hr, Hm. cbn [negb].
    rewrite (proj2 (is_lt_true cmp _ _)) by korder. cbn. rewrite Hi. left.
  - left. destruct (decide (i = lo)) as [->|Hne].
    + rewrite Hi, (proj2 (is_ge_true cmp k (min_key (t_meta t)))) by korder. cbn. rewrite Hi. left.
    + exfalso. destruct (level !! lo) as [u|] eqn:Eu; [|apply lookup_ge_None in Eu; apply lookup_lt_Some in Hi; lia].
      pose proof (level_order _ lo i _ _ H ltac:(lia) Eu Hi). specialize (H2 lo u ltac:(lia) Eu). korder.
Qed.
End Select.

(** L0: tables may overlap, each has its entries within its bounds and its fragments within its span. *)
Record l0_ok (cmp : Comparator) (l0 : list Table) : Prop := {
  l0_entries : forall t e, t ∈ l0 -> e ∈ t_entries t ->
    kle cmp (min_key (t_meta t)) (e_key e) /\ kle cmp (e_key e) (max_key (t_meta t));
  l0_frags : forall t f, t ∈ l0 -> f ∈ t_frags t ->
    meta_has_ranges (t_meta t) = true /\
    (exists m, range_min_key (t_meta t) = Some m /\ kle cmp m (f_start f)) /\
    (exists m, range_max_key (t_meta t) = Some m /\ kle cmp (f_end f) m);
}.

(** Everything a column family stores about a key, as versions. *)
Definition stored_versions (cmp : Comparator) (mem : Mem) (imms : list Mem) (levels : list (list Table))
    (k : key) (rs now : Z) : list ChainVersion :=
  span_versions cmp k rs
    (concat (map mem_spans (mem :: imms)) ++ concat (map table_spans (concat levels)))
  ++ concat (map (fun m => versions cmp k rs now (m_entries m)) (mem :: imms))
  ++ concat (map (fun t => versions cmp k rs now (t_entries t)) (concat levels)).

Section Complete.
Context (cmp : Comparator) `{!TotalOrder cmp}.

Lemma elem_of_span_versions k rs ss w :
  w ∈ span_versions cmp k rs ss <-> w = mkCV (cv_seq w) false None /\ span_at cmp ss k (cv_seq w) /\ cv_seq w <= rs.
Proof.
  unfold span_versions, span_at. rewrite elem_of_map. setoid_rewrite elem_of_lfilter.
  setoid_rewrite andb_true_iff. setoid_rewrite (covers_spec cmp). setoid_rewrite Z.leb_le. split.
  - intros (sp & (Hs & [? ?] & ?) & <-). cbn. eauto 10.
  - intros (Hw & (sp & Hs & ? & ? & Hseq) & ?). exists sp. rewrite Hw, Hseq. eauto.
Qed.

Lemma select_l0_entry l0 k t e :
  l0_ok cmp l0 -> t ∈ l0 -> e ∈ t_entries t -> e_key e = k -> t ∈ l0_tables cmp l0 k.
Proof.
  intros H Ht He Hk. unfold l0_tables. apply elem_of_lfilter. split; [done|].
  destruct (l0_entries _ _ H t e Ht He) as [H1 H2]. rewrite Hk in *. unfold key_in_range.
  by rewrite (proj2 (is_ge_true cmp _ _) H1), (proj2 (is_le_true cmp _ _) H2).
Qed.

Lemma select_l0_fragment l0 k t f :
  l0_ok cmp l0 -> t ∈ l0 -> f ∈ t_frags t -> kle cmp (f_start f) k -> klt cmp k (f_end f) ->
  t ∈ l0_tables cmp l0 k \/ t ∈ l0_range_tables cmp l0 k.
Proof.
  intros H Ht Hf Hs He. unfold l0_tables, l0_range_tables. rewrite !elem_of_lfilter.
  destruct (key_in_range cmp t k); [by left|]. right. split; [done|]. cbn [negb andb].
  destruct (l0_frags _ _ H t f Ht Hf) as (-> & (m & Hm & Hm') & (n & Hn & Hn')). cbn [andb].
  unfold span_contains, span_min, span_max. rewrite Hm, Hn. apply andb_true_iff. split.
  - apply (is_ge_true cmp). destruct (is_lt (compare cmp m (min_key (t_meta t)))) eqn:E; kbool; korder.
  - apply (is_le_true cmp). destruct (is_gt (compare cmp n (max_key (t_meta t)))) eqn:E; kbool; korder.
Qed.

Lemma level_tables_sub level k t : t ∈ level_tables cmp level k -> t ∈ level.
Proof.
  unfold level_tables, opt_table. destruct (fst _) as [i|]; [|by intros ?%elem_of_nil].
  destruct (level !! i) as [u|] eqn:E; cbn; [|by intros ?%elem_of_nil].
  intros ->%list_elem_of_singleton. by eapply list_elem_of_lookup_2.
Qed.

Lemma level_range_tables_sub level k t : t ∈ level_range_tables cmp level k -> t ∈ level.
Proof.
  unfold level_range_tables, opt_table. destruct (find_overlapping_at _ _ _) as [hit lo].
  destruct (gap_owner _ _ _ _ _) as [i|]; [|by intros ?%elem_of_nil].
  destruct (level !! i) as [u|] eqn:E; cbn; [|by intros ?%elem_of_nil].
  intros ->%list_elem_of_singleton. by eapply list_elem_of_lookup_2.
Qed.

Lemma selected_tables mem imms levels k t :
  t ∈ s_tables (point_read_sources cmp mem imms levels k) ++ s_range_tables (point_read_sources cmp mem imms levels k) ->
  t ∈ concat levels.
Proof.
  unfold point_read_sources. cbn [s_tables s_range_tables]. rewrite !elem_of_app, !elem_of_concat_map. intros H.
  assert (t ∈ hd [] levels \/ exists l, l ∈ tl levels /\ t ∈ l) as [H'|(l & Hl & H')].
  { destruct H as [[H|(l & Hl & H)]|[H|(l & Hl & H)]].
    - left. by apply elem_of_lfilter in H as [? _].
    - right. exists l. split; [done|]. by eapply level_tables_sub.
    - left. by apply elem_of_lfilter in H as [? _].
    - right. exists l. split; [done|]. by eapply level_range_tables_sub. }
  - destruct levels; cbn in H'; [by apply elem_of_nil in H'|]. cbn. apply elem_of_app. by left.
  - destruct levels; cbn in Hl; [by apply elem_of_nil in Hl|]. cbn. apply elem_of_app. right.
    apply elem_of_concat. eauto.
Qed.

(** Both selections have what the family stores about the key. *)
Lemma stored_selected mem imms levels k rs now w :
  l0_ok cmp (hd [] levels) -> Forall (level_ok cmp) (tl levels) -> Forall (no_early_cover cmp k) (tl levels) ->
  w ∈ all_versions cmp (point_read_sources cmp mem imms levels k) k rs now <->
  w ∈ stored_versions cmp mem imms levels k rs now.
Proof.
  intros H0 Hd Hea. rewrite Forall_forall in Hd, Hea. set (s := point_read_sources cmp mem imms levels k).
  assert (forall t, t ∈ concat levels -> (t ∈ hd [] levels) \/ (exists l, l ∈ tl levels /\ t ∈ l)) as Hsplit.
  { intros t Ht. apply elem_of_concat in Ht as (l & Hl & Ht). destruct levels as [|l0 ls]; [by apply elem_of_nil in Hl|].
    cbn. apply elem_of_cons in Hl as [->|Hl]; eauto. }
  assert (forall t e, t ∈ concat levels -> e ∈ t_entries t -> e_key e = k -> t ∈ s_tables s) as He.
  { intros t e Ht He Hk. unfold s, point_read_sources. cbn [s_tables]. rewrite elem_of_app, elem_of_concat_map.
    destruct (Hsplit t Ht) as [Ht'|(l & Hl & Ht')]; [left; by eapply select_l0_entry|].
    right. exists l. split; [done|]. eapply select_entry; eauto. }
  assert (forall t f, t ∈ concat levels -> f ∈ t_frags t -> kle cmp (f_start f) k -> klt cmp k (f_end f) ->
    t ∈ s_tables s ++ s_range_tables s) as Hf.
  { intros t f Ht Hf Ha Hb. unfold s, point_read_sources. cbn [s_tables s_range_tables].
    rewrite !elem_of_app, !elem_of_concat_map. destruct (Hsplit t Ht) as [Ht'|(l & Hl & Ht')].
    - destruct (select_l0_fragment _ _ _ _ H0 Ht' Hf Ha Hb); auto.
    - destruct (select_fragment cmp _ _ _ _ (Hd l Hl) (Hea l Hl) Ht' Hf Ha Hb); eauto 6. }
  pose proof (selected_tables mem imms levels k) as Hsub. fold s in Hsub.
  unfold all_versions, stored_versions, source_versions, source_spans. rewrite !elem_of_app, !elem_of_span_versions.
  setoid_rewrite span_at_app. setoid_rewrite span_at_concat; [|exact _..]. rewrite !elem_of_concat_map.
  assert (forall m, m ∈ s_mem s :: rev (s_imms s) <-> m ∈ mem :: imms) as Hm.
  { intros m. unfold s, point_read_sources. cbn [s_mem s_imms]. rewrite !elem_of_cons, !list_elem_of_In, <- in_rev. done. }
  assert (forall m, m ∈ s_mem s :: s_imms s <-> m ∈ mem :: imms) as Hm' by done.
  assert ((exists a, a ∈ s_tables s ++ s_range_tables s /\ span_at cmp (table_spans a) k (cv_seq w)) <->
    exists a, a ∈ concat levels /\ span_at cmp (table_spans a) k (cv_seq w)) as T1.
  { split; intros (t & Ht & Hs); exists t; (split; [|done]); [by apply Hsub|].
    unfold table_spans in Hs. apply spans_of_fragments_at in Hs as (f & Hf' & Ha & Hb & _). by eapply Hf. }
  assert ((exists x, x ∈ s_tables s /\ w ∈ versions cmp k rs now (t_entries x)) <->
    exists x, x ∈ concat levels /\ w ∈ versions cmp k rs now (t_entries x)) as T2.
  { split; intros (t & Ht & Hs); exists t; (split; [|done]); [apply Hsub, elem_of_app; by left|].
    apply elem_of_map in Hs as (e & He' & _). apply (elem_of_run_versions cmp) in He' as (? & ? & _). by eapply He. }
  rewrite T1, T2. by setoid_rewrite Hm; setoid_rewrite Hm'.
Qed.

(** The newest version decides which way a read goes. *)
Lemma read_all_newest op k vs v :
  consistent vs -> v ∈ vs -> (forall w, w ∈ vs -> cv_seq w <= cv_seq v) ->
  exists rest, walk [] (chain vs) = walk [] (v :: rest) /\
    read_all op k vs = (if cv_merge v then read_all op k vs else match cv_value v with Some x => Ok x | None => Err NotFound end).
Proof.
  intros Hc Hv Hm. destruct (chain_spec vs Hc) as [Hs He].
  assert (exists rest, chain vs = v :: rest) as (rest & Hr).
  { destruct (chain vs) as [|w l]; [apply He in Hv; by apply elem_of_nil in Hv|].
    apply StronglySorted_inv in Hs as [_ Hs]. rewrite Forall_forall in Hs.
    assert (w ∈ vs) as Hw by (apply He; left). specialize (Hm w Hw). apply He in Hv.
    apply elem_of_cons in Hv as [->|Hv]; [eauto|]. specialize (Hs v Hv). unfold newer in Hs. lia. }
  exists rest. split; [by rewrite Hr|]. unfold read_all. rewrite fold_loop_chain, Hr. cbn.
  by destruct (cv_merge v).
Qed.

Lemma walk_operands ops vs : ops <> [] -> fst (walk ops vs) <> [].
Proof. revert ops. induction vs as [|v vs IH]; intros ops H; cbn; [done|]. destruct (cv_merge v); [by apply IH|done]. Qed.

Lemma fold_chain_read_all op k vs : fold_chain op k vs = read_all (Some op) k vs.
Proof. done. Qed.

Lemma mem_chains_spec ms k rs now :
  Forall (mem_ok cmp) ms ->
  let vs := concat (map (fun m => mem_chain cmp (m_entries m) k rs now) ms) in
  let all := concat (map (fun m => versions cmp k rs now (m_entries m)) ms) in
  (forall w, w ∈ vs -> w ∈ all) /\
  (forall v, v ∈ all -> (forall b, b ∈ all -> newer b v -> cv_merge b = true) -> v ∈ vs).
Proof.
  intros Hm. cbn zeta. setoid_rewrite elem_of_concat_map. rewrite Forall_forall in Hm. split.
  - intros w (m & Hi & Hw). exists m. split; [done|]. apply (mem_chain_spec cmp); [by apply Hm|done].
  - intros v (m & Hi & Hv) Hb. exists m. split; [done|]. apply (mem_chain_spec cmp); [by apply Hm|done|].
    intros b Hb'. apply Hb. eauto.
Qed.

(** What the chain walk gathers is enough to fold. *)
Lemma gather_spec s k rs now tv :
  sources_ok cmp s -> table_chains cmp (s_tables s) k rs now = Ok tv ->
  let got := floor_version (covering_range_seq cmp s k rs)
    ++ concat (map (fun m => mem_chain cmp (m_entries m) k rs now) (s_mem s :: rev (s_imms s))) ++ tv in
  let all := all_versions cmp s k rs now in
  (forall w, w ∈ got -> w ∈ all) /\
  (forall v, v ∈ all -> (forall b, b ∈ all -> newer b v -> cv_merge b = true) -> v ∈ got).
Proof.
  intros Hok E. pose proof (cover_for_spans cmp _ _ _ _ (covering_range_seq_spec cmp s k rs Hok)) as Hcov.
  destruct Hok as [Hm Ht]. apply Forall_app in Ht as [Ht _].
  destruct (table_chains_spec cmp (s_tables s) k rs now Ht) as (tv' & E' & T1 & T2).
  rewrite E in E'. injection E' as <-.
  assert (Forall (mem_ok cmp) (s_mem s :: rev (s_imms s))) as Hm'.
  { apply Forall_cons in Hm as [? ?]. constructor; [done|]. by apply Forall_rev. }
  destruct (mem_chains_spec _ k rs now Hm') as [M1 M2]. cbn zeta in M1, M2.
  cbn zeta. unfold all_versions, source_versions. setoid_rewrite elem_of_app. setoid_rewrite elem_of_app. split.
  - intros w [Hw|[Hw|Hw]]; [left|right; left; auto|right; right; auto].
    destruct (covering_range_seq cmp s k rs) as [f|]; cbn [floor_version cover_for] in *; [|by apply elem_of_nil in Hw].
    apply list_elem_of_singleton in Hw as ->. by destruct Hcov.
  - intros v [Hv|[Hv|Hv]] Hb; [left|right; left; apply M2; auto|right; right; apply T2; auto].
    destruct (covering_range_seq cmp s k rs) as [f|]; cbn [cover_for] in Hcov; [|rewrite Hcov in Hv; by apply elem_of_nil in Hv].
    destruct Hcov as [Hf Hmax]. cbn. apply list_elem_of_singleton. specialize (Hmax v Hv).
    apply elem_of_span_versions in Hv as (Hv & _). rewrite Hv. f_equal.
    destruct (decide (cv_seq v < f)) as [Hlt|]; [|lia].
    assert (cv_merge (mkCV f false None) = true) by (apply Hb; [by left|done]). done.
Qed.

Lemma get_impl_read_all op ee s k rs now :
  sources_ok cmp s -> consistent (all_versions cmp s k rs now) ->
  get_impl cmp op ee s k rs now = read_all op k (all_versions cmp s k rs now).
Proof.
  intros Hok Hc. destruct (resolve_point_spec cmp ee s k rs now Hok) as (c & E & Hcand & Hfl).
  unfold get_impl. rewrite E. cbn [rbind]. destruct Hcand as [(Hf & Hv & Hk)|(Hf & v & Hin & Hmax & Hval & Hseq & Hdel & Hkind)].
  { rewrite Hv, Hk. unfold cand_finish. rewrite Hf. done. }
  destruct (read_all_newest op k _ v Hc Hin Hmax) as (rest & Hw & Hread). rewrite Hkind.
  destruct (cv_merge v) eqn:Em.
  - destruct op as [op|].
    + unfold fold_point_chain. pose proof Hok as [_ Ht]. apply Forall_app in Ht as [Ht _].
      destruct (table_chains_spec cmp (s_tables s) k rs now Ht) as (tv & Etv & _). rewrite Etv. cbn [rbind].
      rewrite fold_chain_read_all, Hfl. symmetry. destruct (gather_spec s k rs now tv Hok Etv) as [G1 G2].
      by apply read_all_part.
    + unfold read_all. rewrite fold_loop_chain, Hw. cbn [walk]. rewrite Em.
      pose proof (walk_operands [default [] (cv_value v)] rest ltac:(done)) as Ho.
      destruct (walk _ rest) as [[|o ops] ex]; [done|]. done.
  - rewrite Hread. unfold cand_finish. rewrite Hf, Hdel, Hval. by destruct (cv_value v).
Qed.

(** A read of the sources selected for a key is a read of everything stored about it. *)
Lemma stored_read op ee mem imms levels k rs now :
  Forall (mem_ok cmp) (mem :: imms) -> Forall (table_ok cmp) (concat levels) ->
  l0_ok cmp (hd [] levels) -> Forall (level_ok cmp) (tl levels) -> Forall (no_early_cover cmp k) (tl levels) ->
  consistent (stored_versions cmp mem imms levels k rs now) ->
  get_impl cmp op ee (point_read_sources cmp mem imms levels k) k rs now =
  read_all op k (stored_versions cmp mem imms levels k rs now).
Proof.
  intros Hm Ht H0 Hd Hea Hc. pose proof (fun w => stored_selected mem imms levels k rs now w H0 Hd Hea) as Hsel.
  rewrite get_impl_read_all.
  - symmetry. apply read_all_part; [done|intros w; apply Hsel|]. intros v Hv _. by apply Hsel.
  - split; [exact Hm|]. rewrite Forall_forall in Ht |- *. intros t H. apply Ht. by eapply selected_tables.
  - eapply consistent_sub; [done|]. intros w. apply Hsel.
Qed.
End Complete.

(** ** Properties *)


Definition concat_op : MergeOp := fun _ existing operands => Some (default [] existing ++ concat operands).

Definition meta_of (i max : Z) (lo hi : key) (ranges : Z) (rmax : option key) : SstMeta :=
  mkSstMeta i 1 1 0 max 0 0 lo hi None None None None None ranges 0 0 (Some lo) rmax None.

Definition put_entry (k : key) (seq : Z) (v : list byte) : Entry := mkEntry k seq KIND_PUT 0 v true.

(** An operand in the memtable, a range delete in the gap of a level, the base below both. *)
Definition sample_mem : Mem := mkMem [mkEntry [x62] 20 KIND_MERGE 0 [x6f] true] set_new.
Definition sample_levels : list (list Table) :=
  [[];
   [mkTable (meta_of 1 6 [x61] [x61] 1 (Some [x63])) [put_entry [x61] 6 [x31]] (fun _ => true)
      [mkFragment [x61] [x63] [5]];
    mkTable (meta_of 2 4 [x64] [x64] 0 None) [put_entry [x64] 4 [x32]] (fun _ => true) []];
   [mkTable (meta_of 3 2 [x62] [x62] 0 None) [put_entry [x62] 2 [x33]] (fun _ => true) []]].

(** Split the membership hypotheses in concrete lists. *)
Ltac elems :=
  repeat match goal with
  | H : _ ∈ [] |- _ => exfalso; exact (not_elem_of_nil _ H)
  | H : _ ∈ _ :: _ |- _ => apply elem_of_cons in H; destruct H as [H|H]; [subst|]
  end.

Ltac sorted_runs := repeat first [apply SSorted_nil | apply SSorted_cons | apply Forall_nil_2 | apply Forall_cons_2].

Lemma sample_mem_ok : Forall (mem_ok Bytewise) [sample_mem].
Proof. sorted_runs. split; [sorted_runs|]. split; [apply set_new_wf|]. intros e He _. cbn in He. elems. reflexivity. Qed.

Lemma sample_tables_ok : Forall (table_ok Bytewise) (concat sample_levels).
Proof.
  cbn [concat sample_levels app]. sorted_runs; (split; cbn [t_entries t_meta t_frags t_may_contain];
    [sorted_runs|sorted_runs; reflexivity|intros e He; elems; vm_compute; congruence|reflexivity
    |intros e He _; elems; reflexivity
    |split; sorted_runs; repeat split; (reflexivity || discriminate || sorted_runs)
    |intros Hr; vm_compute in Hr; congruence || reflexivity]).
Qed.

Lemma sample_l0_ok : l0_ok Bytewise (hd [] sample_levels).
Proof. split; cbn; intros; elems. Qed.

Lemma sample_levels_ok : Forall (level_ok Bytewise) (tl sample_levels).
Proof.
  cbn [tl sample_levels]. sorted_runs.
  all: split; [sorted_runs; reflexivity|..].
  all: cbn; intros; elems; cbn in *; elems;
    try (vm_compute; congruence); try (split; vm_compute; congruence).
  - exists [x63]. split; [reflexivity|vm_compute; congruence].
  - exists [x61]. split; [reflexivity|vm_compute; congruence].
  - destruct i as [|[|i]]; cbn in *; simplify_eq. cbn in *. elems. vm_compute. congruence.
  - destruct i as [|i]; cbn in *; simplify_eq.
Qed.

Lemma sample_no_early_cover k : Forall (no_early_cover Bytewise k) (tl sample_levels).
Proof.
  cbn [tl sample_levels]. sorted_runs; intros t f Ht Hf Hs _; elems; cbn in Hf; elems. exact Hs.
Qed.

