(* ===== verification/Heap.v ===== *)
(** * Heap: the array heaps of the merging iterators

    [MergingIter] ([iterator.rs]) and [MemMerge] ([memtable.rs]) keep the
    indices of their live cursors in a vector ordered as a binary heap, with
    the same [heap_down], [rebuild] and removal of the top.  The order is the
    comparison of the entries the cursors stand on, a parameter here.  The
    lemmas show that the operations keep the heap order and the elements, and
    that the first element is least. *)

From Stdlib Require Import Lia.
From stdpp Require Import base list.

Section Heap.
Context (before : nat -> nat -> bool).

(** [before(heap\[i\], heap\[j\])]. *)
Definition heap_before (h : list nat) (i j : nat) : bool :=
  match h !! i, h !! j with Some a, Some b => before a b | _, _ => false end.

(** [heap.swap(i, j)]. *)
Definition swap (h : list nat) (i j : nat) : list nat :=
  match h !! i, h !! j with Some a, Some b => <[i := b]> (<[j := a]> h) | _, _ => h end.

(** The position among [i] and its children that comes first. *)
Definition best_of (h : list nat) (i : nat) : nat :=
  let n := length h in
  let l := 2 * i + 1 in
  let r := 2 * i + 2 in
  let best := if (l <? n) && heap_before h l i then l else i in
  if (r <? n) && heap_before h r best then r else best.

(** [heap_down]; every round goes down one level. *)
Fixpoint heap_down (fuel : nat) (h : list nat) (i : nat) : list nat :=
  match fuel with
  | O => h
  | S fuel =>
      let best := best_of h i in
      if best =? i then h else heap_down fuel (swap h i best) best
  end.

(** The second half of [rebuild]: [heap_down] from the last parent to the root. *)
Definition heapify (h : list nat) : list nat :=
  if 1 <? length h then fold_left (fun h i => heap_down (length h) h i) (rev (seq 0 (length h / 2))) h else h.

(** The top leaves the heap: the last element takes its place. *)
Definition remove_top (h : list nat) : list nat :=
  match last h with Some x => take (length h - 1) (<[0 := x]> h) | None => h end.

Definition child (p c : nat) : Prop := c = 2 * p + 1 \/ c = 2 * p + 2.

(** No child comes before its parent, from position [lo] on. *)
Definition ordered (lo : nat) (h : list nat) : Prop :=
  forall p c a b, lo <= p -> child p c -> h !! p = Some a -> h !! c = Some b -> before b a = false.

(** The same but at [i], whose children still respect its parent. *)
Definition ordered_but (lo i : nat) (h : list nat) : Prop :=
  (forall p c a b, lo <= p -> p <> i -> child p c -> h !! p = Some a -> h !! c = Some b -> before b a = false) /\
  (forall q c a b, lo <= q -> child q i -> child i c -> h !! q = Some a -> h !! c = Some b -> before b a = false).

Lemma swap_length h i j : length (swap h i j) = length h.
Proof. unfold swap. repeat case_match; by rewrite ?length_insert. Qed.

Lemma swap_lookup h i j a b :
  h !! i = Some a -> h !! j = Some b -> i <> j ->
  swap h i j !! i = Some b /\ swap h i j !! j = Some a /\ forall k, k <> i -> k <> j -> swap h i j !! k = h !! k.
Proof.
  intros Hi Hj Hn. unfold swap. rewrite Hi, Hj. pose proof (lookup_lt_Some _ _ _ Hi). pose proof (lookup_lt_Some _ _ _ Hj).
  split; [by rewrite list_lookup_insert_eq by (rewrite length_insert; lia)|]. split.
  - by rewrite list_lookup_insert_ne, list_lookup_insert_eq by lia.
  - intros k Ki Kj. by rewrite !list_lookup_insert_ne by lia.
Qed.

Lemma swap_Permutation h i j : swap h i j ≡ₚ h.
Proof.
  unfold swap. destruct (h !! i) as [a|] eqn:Hi; [|done]. destruct (h !! j) as [b|] eqn:Hj; [|done].
  destruct (decide (i = j)) as [->|Hn].
  { rewrite Hi in Hj. injection Hj as ->. by rewrite list_insert_insert_eq, list_insert_id. }
  apply Permutation_inj. split; [by rewrite !length_insert|].
  pose proof (swap_lookup h i j a b Hi Hj Hn) as (Ei & Ej & Ek). unfold swap in Ei, Ej, Ek. rewrite Hi, Hj in Ei, Ej, Ek.
  exists (fun k => if decide (k = i) then j else if decide (k = j) then i else k). split.
  - intros x y. repeat case_decide; subst; done.
  - intros k. repeat case_decide; subst; [congruence..|]. by rewrite Ek.
Qed.

Section Laws.
Context (before_trans : forall a b c, before b a = false -> before c b = false -> before c a = false)
        (before_asym : forall a b, before a b = true -> before b a = false).

(** One round: the smaller child [b] changes places with [i]. *)
Lemma swap_ordered lo i b h :
  ordered_but lo i h -> lo <= i -> child i b -> heap_before h b i = true ->
  (forall s, child i s -> s <> b -> heap_before h s b = false) -> ordered_but lo b (swap h i b).
Proof.
  intros [Ho Hg] Hlo Hb Hlt Hs. unfold heap_before in Hlt.
  destruct (h !! b) as [y|] eqn:Eb; [|done]. destruct (h !! i) as [x|] eqn:Ei; [|done].
  assert (i <> b) as Hn by (unfold child in Hb; lia).
  destruct (swap_lookup h i b x y Ei Eb Hn) as (Si & Sb & Sk). split.
  - intros p c u v Hp Hpb Hpc Eu Ev. destruct (decide (p = i)) as [->|Hpi].
    + rewrite Si in Eu. injection Eu as <-. destruct (decide (c = b)) as [->|Hcb].
      * rewrite Sb in Ev. injection Ev as <-. by apply before_asym.
      * rewrite Sk in Ev by (unfold child in Hpc; lia). specialize (Hs c Hpc Hcb). unfold heap_before in Hs. by rewrite Ev, Eb in Hs.
    + rewrite Sk in Eu by done. destruct (decide (c = i)) as [->|Hci].
      * rewrite Si in Ev. injection Ev as <-. by eapply Hg.
      * rewrite Sk in Ev by (unfold child in *; lia). by eapply (Ho p c).
  - intros q c u v Hq Hqb Hbc Eu Ev. assert (q = i) as -> by (unfold child in *; lia).
    rewrite Si in Eu. injection Eu as <-. rewrite Sk in Ev by (unfold child in *; lia). eapply (Ho b c); eauto. unfold child in *. lia.
Qed.

Lemma heap_before_trans h x y z :
  is_Some (h !! y) -> heap_before h y x = false -> heap_before h z y = false -> heap_before h z x = false.
Proof. unfold heap_before. intros [v E] H1 H2. rewrite E in *. destruct (h !! x), (h !! z); try done. by eapply before_trans. Qed.

Lemma heap_before_asym h x y : heap_before h x y = true -> heap_before h y x = false.
Proof. unfold heap_before. destruct (h !! x), (h !! y); try done. apply before_asym. Qed.

Lemma heap_before_in h x y : heap_before h x y = true -> x < length h /\ is_Some (h !! y).
Proof.
  unfold heap_before. destruct (h !! x) eqn:E; [|done]. destruct (h !! y) eqn:Ey; [|done]. intros _. split; [by apply lookup_lt_Some in E|done].
Qed.

Lemma heap_before_bound h x y : (x <? length h) && heap_before h x y = heap_before h x y.
Proof.
  destruct (heap_before h x y) eqn:E; [|by rewrite andb_false_r]. rewrite andb_true_r. apply Nat.ltb_lt. by eapply heap_before_in.
Qed.

(** Either [i] comes before both children, or the best child before [i] and its sibling. *)
Lemma best_of_spec h i :
  (best_of h i = i /\ forall c, child i c -> heap_before h c i = false) \/
  (child i (best_of h i) /\ heap_before h (best_of h i) i = true /\
   forall s, child i s -> s <> best_of h i -> heap_before h s (best_of h i) = false).
Proof.
  unfold best_of. rewrite !heap_before_bound. set (l := 2 * i + 1). set (r := 2 * i + 2).
  destruct (heap_before h l i) eqn:El.
  - right. destruct (heap_before_in _ _ _ El) as [_ Hi]. pose proof (heap_before_asym _ _ _ El) as Hil.
    destruct (heap_before h r l) eqn:Er.
    + split; [by right|]. split; [|intros s [->| ->] Hs; [by apply heap_before_asym|done]].
      destruct (heap_before h r i) eqn:Eri; [done|]. by rewrite (heap_before_trans h l i r Hi Hil Eri) in Er.
    + split; [by left|]. split; [done|]. intros s [->| ->] Hs; done.
  - destruct (heap_before h r i) eqn:Er; [right|left].
    + split; [by right|]. split; [done|]. intros s [->| ->] Hs; [|done].
      destruct (heap_before_in _ _ _ Er) as [_ Hi]. by apply (heap_before_trans h r i l Hi (heap_before_asym _ _ _ Er)).
    + split; [done|]. by intros c [->| ->].
Qed.

Lemma heap_down_spec fuel lo i h :
  ordered_but lo i h -> lo <= i -> length h - i <= fuel ->
  ordered lo (heap_down fuel h i) /\ heap_down fuel h i ≡ₚ h.
Proof.
  revert i h. induction fuel as [|fuel IH]; intros i h Ho Hlo Hf; cbn [heap_down].
  { split; [|done]. destruct Ho as [Ho _]. intros p c a b Hp Hc Ea Eb.
    pose proof (lookup_lt_Some _ _ _ Ea). pose proof (lookup_lt_Some _ _ _ Eb). eapply (Ho p c); eauto. unfold child in *. lia. }
  destruct (best_of_spec h i) as [[-> Hi]|(Hc & Hb & Hs)].
  - rewrite Nat.eqb_refl. split; [|done]. destruct Ho as [Ho _]. intros p c u v Hp Hc Eu Ev.
    destruct (decide (p = i)) as [->|Hn]; [|by eapply (Ho p c)]. specialize (Hi c Hc). unfold heap_before in Hi. by rewrite Ev, Eu in Hi.
  - destruct (Nat.eqb_spec (best_of h i) i) as [E|_]; [unfold child in Hc; lia|].
    destruct (IH (best_of h i) (swap h i (best_of h i))) as [I1 I2].
    + by apply swap_ordered.
    + unfold child in Hc. lia.
    + rewrite swap_length. unfold child in Hc. lia.
    + split; [done|]. by rewrite I2, swap_Permutation.
Qed.

Lemma heapify_spec h : ordered 0 (heapify h) /\ heapify h ≡ₚ h.
Proof.
  unfold heapify. destruct (Nat.ltb_spec 1 (length h)) as [_|Hl].
  - assert (Ho : ordered (length h / 2) h).
    { intros p c a b Hp Hc Ea Eb. pose proof (lookup_lt_Some _ _ _ Eb). pose proof (Nat.div_mod_eq (length h) 2).
      pose proof (Nat.mod_upper_bound (length h) 2). unfold child in Hc. lia. }
    revert Ho. generalize (length h / 2). intros n. revert h. induction n as [|n IH]; intros h Ho; [done|].
    rewrite seq_S, rev_app_distr. cbn [rev app fold_left Nat.add].
    destruct (heap_down_spec (length h) n n h) as [H1 H2]; [|lia..|].
    + split; [intros p c a b Hp Hn Hc; apply Ho; [lia|done]|]. intros q c a b Hq Hc. unfold child in Hc. lia.
    + destruct (IH _ H1) as [I1 I2]. split; [done|]. by rewrite I2.
  - split; [|done]. intros p c a b _ Hc _ Eb. pose proof (lookup_lt_Some _ _ _ Eb). unfold child in Hc. lia.
Qed.

(** The top of a heap: nothing comes before it. *)
Lemma top_least h a : (forall x, before x x = false) -> ordered 0 h -> h !! 0 = Some a -> forall x, x ∈ h -> before x a = false.
Proof.
  intros Hirr Ho Ha x [j Hj]%list_elem_of_lookup. revert x Hj. induction (lt_wf j) as [j _ IH]; intros x Hj.
  destruct j as [|j]; [rewrite Ha in Hj; injection Hj as <-; apply Hirr|].
  set (q := j / 2). pose proof (Nat.div_mod_eq j 2). pose proof (Nat.mod_upper_bound j 2).
  assert (q < S j) as Hq by (unfold q; lia).
  destruct (lookup_lt_is_Some_2 h q) as [y Hy]; [apply lookup_lt_Some in Hj; lia|].
  eapply before_trans; [by apply (IH q Hq)|]. eapply (Ho q (S j)); eauto; [lia|]. unfold child, q. lia.
Qed.
End Laws.

Lemma remove_top_cons x h : remove_top (x :: h) = match last h with Some y => y :: take (length h - 1) h | None => [] end.
Proof.
  unfold remove_top. rewrite last_cons. destruct (last h) as [y|] eqn:E; cbn [length insert list_insert].
  - destruct h as [|z h]; [done|]. cbn [length]. by replace (S (S (length h)) - 1) with (S (length h)) by lia; cbn [take]; rewrite Nat.sub_succ, Nat.sub_0_r.
  - by apply last_None in E as ->.
Qed.

Lemma remove_top_Permutation x h : remove_top (x :: h) ≡ₚ h.
Proof.
  rewrite remove_top_cons. destruct (last h) as [y|] eqn:E.
  - apply last_Some in E as [l ->]. rewrite length_app. cbn. rewrite Nat.add_sub, take_app_length. by rewrite Permutation_app_comm.
  - apply last_None in E as ->. done.
Qed.

Lemma remove_top_lookup h j : 0 < j -> remove_top h !! j = if decide (j < length h - 1) then h !! j else None.
Proof.
  intros Hj. unfold remove_top. destruct (last h) as [x|] eqn:E.
  - case_decide; [|by rewrite lookup_take_ge by lia]. rewrite lookup_take_lt by lia. by rewrite list_lookup_insert_ne by lia.
  - apply last_None in E as ->. cbn. by case_decide.
Qed.
End Heap.

(** The cursor on top moved: the order changed for its index only, so every
    other parent still comes before its children, also once the top has left. *)
Lemma ordered_moved before before' x h :
  NoDup (x :: h) -> ordered before 0 (x :: h) -> (forall a b, a <> x -> b <> x -> before' a b = before a b) ->
  ordered_but before' 0 0 (x :: h) /\ ordered_but before' 0 0 (remove_top (x :: h)).
Proof.
  intros [Hx _]%NoDup_cons Ho He.
  assert (Hin : forall j a, j <> 0 -> (x :: h) !! j = Some a -> a <> x).
  { intros [|j] a Hj Ha; [done|]. intros ->. apply Hx. by eapply list_elem_of_lookup_2. }
  split; (split; [|intros q c a b Hq Hc; unfold child in Hc; lia]).
  - intros p c a b _ Hp Hc Ea Eb. assert (c <> 0) as Hc0 by (unfold child in Hc; lia).
    rewrite He by eauto. by eapply (Ho p c); [lia|..].
  - intros p c a b _ Hp Hc Ea Eb. assert (c <> 0) as Hc0 by (unfold child in Hc; lia).
    rewrite remove_top_lookup in Ea, Eb by lia. repeat case_decide; try done. rewrite He by eauto. by eapply (Ho p c); [lia|..].
Qed.
