(* ===== verification/Cursor.v ===== *)
(** * Cursor: what a merge promises and asks of its children

    [ChildIter] ([iterator.rs]) is the surface that the cursors of memtables
    and tables share.  It is an interface here: the class [CursorOps] holds the
    operations, and [Cursor] what they do to a cursor over a sorted run of
    entries.  A cursor may fail (a table's block may not read); a failed cursor
    is invalid and says why.  [ShardCur] ([memtable.rs]), the cursor of one
    skip list, is the first implementation.

    The eight-byte key prefix that merges compare first ([key_prefix8],
    [sst/iter.rs]) is shown to decide as the full comparison. *)

From Stdlib Require Import ZArith Lia Sorted.
From Stdlib.Strings Require Import Byte.
From stdpp Require Import base list.
From S2P Require Import Prelude Encoding Codec Comparator Format RangeTombstone ReadPath.

Open Scope Z_scope.

(** ** Internal order *)

(** [cmp_internal] of an entry and a probe. *)
Definition entry_cmp (cmp : Comparator) (e : Entry) (k : key) (s : Z) : comparison :=
  then_with (compare cmp (e_key e) k) (s ?= e_seq e).

(** The key comparison of a merge: the cached prefixes decide when they differ. *)
Definition key_prefix8 (k : key) : Z := from_be_bytes 0 (take 8 k ++ repeat x00 (8 - length (take 8 k))).

Definition merge_key_cmp (cmp : Comparator) (a b : key) : comparison :=
  if is_bytewise cmp then then_with (key_prefix8 a ?= key_prefix8 b) (slice_cmp a b) else compare cmp a b.

(** ** The interface *)

Class CursorOps (C : Type) := {
  cur_valid : C -> bool;
  cur_err : C -> option OndaError;
  cur_entry : C -> Entry;
  cur_first : C -> C;
  cur_last : C -> C;
  cur_next : C -> C;
  cur_prev : C -> C;
  cur_ge : key -> Z -> C -> C;
  cur_le : key -> Z -> C -> C;
}.

Definition cur_step `{CursorOps C} (forward : bool) (c : C) : C := if forward then cur_next c else cur_prev c.

(** What a cursor at a position has still to visit, its current entry first. *)
Definition rem (forward : bool) (es : list Entry) (p : option nat) : list Entry :=
  match p with
  | Some i => if forward then drop i es else reverse (take (S i) es)
  | None => []
  end.

Definition at_or_after (cmp : Comparator) (k : key) (s : Z) (e : Entry) : bool := is_ge (entry_cmp cmp e k s).
Definition at_or_before (cmp : Comparator) (k : key) (s : Z) (e : Entry) : bool := is_le (entry_cmp cmp e k s).

(** [cur_on es p c]: [c] stands at [p] of the run [es].  [cur_dead es c]: a
    cursor of that run that failed. *)
Class Cursor (cmp : Comparator) (C : Type) `{CursorOps C} := {
  cur_on : list Entry -> option nat -> C -> Prop;
  cur_dead : list Entry -> C -> Prop;
  on_err es p c : cur_on es p c -> cur_err c = None;
  on_none es c : cur_on es None c -> cur_valid c = false;
  on_some es i c : cur_on es (Some i) c -> cur_valid c = true /\ es !! i = Some (cur_entry c);
  dead_err es c : cur_dead es c -> cur_valid c = false /\ cur_err c <> None;
  on_step es i c forward : cur_on es (Some i) c ->
    (exists p, cur_on es p (cur_step forward c) /\ rem forward es p = tail (rem forward es (Some i))) \/
    cur_dead es (cur_step forward c);
  on_first es c : (exists p, cur_on es p c) \/ cur_dead es c ->
    (exists p, cur_on es p (cur_first c) /\ rem true es p = es) \/ cur_dead es (cur_first c);
  on_last es c : (exists p, cur_on es p c) \/ cur_dead es c ->
    (exists p, cur_on es p (cur_last c) /\ rem false es p = reverse es) \/ cur_dead es (cur_last c);
  on_ge es c k s : run_sorted cmp es -> (exists p, cur_on es p c) \/ cur_dead es c ->
    (exists p, cur_on es p (cur_ge k s c) /\ rem true es p = List.filter (at_or_after cmp k s) es) \/
    cur_dead es (cur_ge k s c);
  on_le es c k s : run_sorted cmp es -> (exists p, cur_on es p c) \/ cur_dead es c ->
    (exists p, cur_on es p (cur_le k s c) /\ rem false es p = reverse (List.filter (at_or_before cmp k s) es)) \/
    cur_dead es (cur_le k s c);
}.

(** ** One skip list *)

(** [ShardCur] over the entries of its map; [cur] is [None] past either end. *)
Record ShardCur := mkShardCur { sc_map : list Entry; sc_cur : option nat }.

(** [SkipMap::front], [back], [lower_bound] and [upper_bound]. *)
Definition map_front (es : list Entry) : option nat := match es with [] => None | _ => Some 0%nat end.
Definition map_back (es : list Entry) : option nat := match length es with O => None | S i => Some i end.

(** The first entry at which [below] fails, and the last at which it holds. *)
Definition map_lower (below : Entry -> bool) (es : list Entry) : option nat :=
  let i := partition_point below es in if (i <? length es)%nat then Some i else None.
Definition map_upper (below : Entry -> bool) (es : list Entry) : option nat :=
  match partition_point below es with O => None | S i => Some i end.

Definition no_entry : Entry := mkEntry [] 0 0 0 [] false.

Definition shard_move (p : option nat) (c : ShardCur) : ShardCur := mkShardCur (sc_map c) p.

Definition step_next (c : ShardCur) : ShardCur :=
  match sc_cur c with
  | Some i => shard_move (if (S i <? length (sc_map c))%nat then Some (S i) else None) c
  | None => c
  end.

Definition step_prev (c : ShardCur) : ShardCur :=
  match sc_cur c with
  | Some (S i) => shard_move (Some i) c
  | Some O => shard_move None c
  | None => c
  end.

Definition shard_seek_ge (cmp : Comparator) (k : key) (s : Z) (c : ShardCur) : ShardCur :=
  shard_move (map_lower (fun e => is_lt (entry_cmp cmp e k s)) (sc_map c)) c.
Definition shard_seek_gt (cmp : Comparator) (k : key) (s : Z) (c : ShardCur) : ShardCur :=
  shard_move (map_lower (fun e => is_le (entry_cmp cmp e k s)) (sc_map c)) c.
Definition shard_seek_le (cmp : Comparator) (k : key) (s : Z) (c : ShardCur) : ShardCur :=
  shard_move (map_upper (fun e => is_le (entry_cmp cmp e k s)) (sc_map c)) c.
Definition shard_seek_lt (cmp : Comparator) (k : key) (s : Z) (c : ShardCur) : ShardCur :=
  shard_move (map_upper (fun e => is_lt (entry_cmp cmp e k s)) (sc_map c)) c.

Definition shard_ops (cmp : Comparator) : CursorOps ShardCur := {|
  cur_valid c := if sc_cur c is Some _ then true else false;
  cur_err _ := None;
  cur_entry c := default no_entry (i ← sc_cur c; sc_map c !! i);
  cur_first c := shard_move (map_front (sc_map c)) c;
  cur_last c := shard_move (map_back (sc_map c)) c;
  cur_next := step_next;
  cur_prev := step_prev;
  cur_ge := shard_seek_ge cmp;
  cur_le := shard_seek_le cmp;
|}.

(** ** The prefix decides as the key *)

(** The first [n] bytes, padded with zeros. *)
Definition pad (n : nat) (k : key) : key := take n k ++ repeat x00 (n - length (take n k)).

Lemma pad_length n k : length (pad n k) = n.
Proof. unfold pad. rewrite length_app, repeat_length, length_take. lia. Qed.

Lemma pad_cons n x k : pad (S n) (x :: k) = x :: pad n k.
Proof. done. Qed.

Lemma pad_nil n : pad (S n) [] = x00 :: pad n [].
Proof. unfold pad. cbn. by rewrite take_nil, Nat.sub_0_r. Qed.

Lemma pad_lt n a b : slice_cmp (pad n a) (pad n b) = Lt -> slice_cmp a b = Lt.
Proof.
  revert a b. induction n as [|n IH]; intros a b; [done|].
  destruct a as [|x a], b as [|y b]; rewrite ?pad_cons, ?pad_nil; unfold slice_cmp; cbn [lex_cmp]; fold slice_cmp; fold (slice_cmp (pad n []) (pad n [])).
  - change (byte_cmp x00 x00) with Eq. cbn. by rewrite (ol_refl _ _ slice_ord_laws).
  - done.
  - unfold byte_cmp. change (Z_of_byte x00) with 0. pose proof (Z_of_byte_range x).
    destruct (Z.compare_spec (Z_of_byte x) 0); cbn; [|lia|done]. intros H'. apply (IH a []) in H'. by destruct a.
  - destruct (byte_cmp x y); cbn; [apply IH|done|done].
Qed.

Lemma key_prefix8_compare a b : (key_prefix8 a ?= key_prefix8 b) = slice_cmp (pad 8 a) (pad 8 b).
Proof. unfold key_prefix8. by rewrite from_be_bytes_compare by (fold (pad 8 a) (pad 8 b); by rewrite !pad_length). Qed.

(** ** Lemmas *)

Lemma rem_forward es i e : es !! i = Some e -> rem true es (Some i) = e :: drop (S i) es.
Proof. intros E. cbn. by apply drop_S. Qed.

Lemma rem_backward es i e : es !! i = Some e -> rem false es (Some i) = e :: reverse (take i es).
Proof. intros E. cbn [rem]. by rewrite (take_S_r _ _ _ E), reverse_snoc. Qed.

(** The head of what remains is the current entry. *)
Lemma rem_head forward es i e : es !! i = Some e -> exists r, rem forward es (Some i) = e :: r.
Proof. intros E. destruct forward; [rewrite (rem_forward _ _ _ E)|rewrite (rem_backward _ _ _ E)]; eauto. Qed.

(** A sorted list is split by a predicate that only holds at its front. *)
Lemma partition_filter {A} (p : A -> bool) (R : A -> A -> Prop) l :
  StronglySorted R l -> (forall x y, R x y -> p y = true -> p x = true) ->
  take (partition_point p l) l = List.filter p l /\ drop (partition_point p l) l = List.filter (fun x => negb (p x)) l.
Proof.
  intros Hs Hc. pose proof (partition_point_take p l) as Ht.
  assert (Hd : Forall (fun x => p x = false) (drop (partition_point p l) l)).
  { by apply (partition_point_drop p R). }
  set (n := partition_point p l) in *. rewrite <- (take_drop n l) at 2 4. rewrite !List.filter_app.
  rewrite (filter_all p (take n l) Ht), (filter_none p (drop n l) Hd).
  rewrite (filter_none _ (take n l)), (filter_all _ (drop n l)); [by rewrite app_nil_r| |].
  - eapply Forall_impl; [apply Hd|]. cbn. by intros x ->.
  - eapply Forall_impl; [apply Ht|]. cbn. by intros x ->.
Qed.

Section Order.
Context (cmp : Comparator) `{!TotalOrder cmp}.

Lemma entry_cmp_spec e k s :
  CompareSpec (e_key e = k /\ e_seq e = s) (klt cmp (e_key e) k \/ (e_key e = k /\ s < e_seq e))
    (klt cmp k (e_key e) \/ (e_key e = k /\ e_seq e < s)) (entry_cmp cmp e k s).
Proof.
  unfold entry_cmp, then_with. destruct (compare cmp (e_key e) k) eqn:E.
  - apply (kcompare_eq cmp) in E. destruct (Z.compare_spec s (e_seq e)); constructor; auto.
  - constructor. by left.
  - constructor. left. by apply is_gt_true; [|rewrite E].
Qed.

Lemma entry_cmp_lt e k s : is_lt (entry_cmp cmp e k s) = true <-> klt cmp (e_key e) k \/ (e_key e = k /\ s < e_seq e).
Proof.
  destruct (entry_cmp_spec e k s) as [[E Hs]|H|H]; cbn; [split; [done|]|split; [by intros _|done]|split; [done|]; destruct H as [H|[E H]]].
  - intros [H|[_ H]]; [exfalso; korder|lia].
  - intros [H'|[H' _]]; exfalso; korder.
  - intros [H'|[_ H']]; [exfalso; korder|lia].
Qed.

Lemma entry_cmp_le e k s : is_le (entry_cmp cmp e k s) = true <-> klt cmp (e_key e) k \/ (e_key e = k /\ s <= e_seq e).
Proof.
  destruct (entry_cmp_spec e k s) as [[E Hs]|H|H]; cbn.
  - split; [|done]. intros _. right. split; [done|lia].
  - split; [|done]. intros _. destruct H as [H|[E H]]; [by left|right; split; [done|lia]].
  - split; [done|]. destruct H as [H|[E H]]; intros [H'|[E' H']]; try lia; exfalso; korder.
Qed.

Lemma entry_cmp_lt_closed k s a b : entry_lt cmp a b -> is_lt (entry_cmp cmp b k s) = true -> is_lt (entry_cmp cmp a k s) = true.
Proof.
  rewrite !entry_cmp_lt. unfold entry_lt. intros [H|[E H]] [Hb|[Eb Hb]]; [left; korder..|right; split; [congruence|lia]].
Qed.

Lemma entry_cmp_le_closed k s a b : entry_lt cmp a b -> is_le (entry_cmp cmp b k s) = true -> is_le (entry_cmp cmp a k s) = true.
Proof.
  rewrite !entry_cmp_le. unfold entry_lt. intros [H|[E H]] [Hb|[Eb Hb]]; [left; korder..|right; split; [congruence|lia]].
Qed.

Lemma is_ge_negb o : is_ge o = negb (is_lt o).
Proof. by destruct o. Qed.

Lemma merge_key_cmp_eq a b : merge_key_cmp cmp a b = compare cmp a b.
Proof.
  unfold merge_key_cmp. destruct (is_bytewise cmp) eqn:E; [|done]. rewrite (bytewise_exact a b E), key_prefix8_compare.
  destruct (slice_cmp (pad 8 a) (pad 8 b)) eqn:Ep; cbn; [done|by rewrite (pad_lt _ _ _ Ep)|].
  rewrite (ol_anti _ slice_ord_laws) in Ep. destruct (slice_cmp (pad 8 b) (pad 8 a)) eqn:Eq; try done.
  by rewrite (ol_anti _ slice_ord_laws), (pad_lt _ _ _ Eq).
Qed.

(** ** The skip-list cursor is a cursor *)

Lemma map_lower_rem below es :
  run_sorted cmp es -> (forall a b, entry_lt cmp a b -> below b = true -> below a = true) ->
  rem true es (map_lower below es) = List.filter (fun e => negb (below e)) es.
Proof.
  intros Hs Hc. destruct (partition_filter below (entry_lt cmp) es Hs Hc) as [_ Hd]. rewrite <- Hd. unfold map_lower.
  destruct (Nat.ltb_spec (partition_point below es) (length es)); [done|]. by rewrite drop_ge by lia.
Qed.

Lemma map_upper_rem below es :
  run_sorted cmp es -> (forall a b, entry_lt cmp a b -> below b = true -> below a = true) ->
  rem false es (map_upper below es) = reverse (List.filter below es).
Proof.
  intros Hs Hc. destruct (partition_filter below (entry_lt cmp) es Hs Hc) as [Ht _]. rewrite <- Ht. unfold map_upper.
  by destruct (partition_point below es).
Qed.

Lemma map_lower_lt below es i : map_lower below es = Some i -> (i < length es)%nat.
Proof. unfold map_lower. destruct (Nat.ltb_spec (partition_point below es) (length es)); naive_solver. Qed.

Lemma map_upper_lt below es i : map_upper below es = Some i -> (i < length es)%nat.
Proof. unfold map_upper. pose proof (partition_point_le below es). destruct (partition_point below es); [done|]. intros [= ->]. lia. Qed.

Definition shard_on (es : list Entry) (p : option nat) (c : ShardCur) : Prop :=
  sc_map c = es /\ sc_cur c = p /\ forall i, p = Some i -> (i < length es)%nat.

#[export] Program Instance shard_cursor : @Cursor cmp ShardCur (shard_ops cmp) :=
  {| cur_on := shard_on; cur_dead _ _ := False |}.
Next Obligation. done. Qed.
Next Obligation. intros es c (_ & E & _). cbn. by rewrite E. Qed.
Next Obligation.
  intros es i c (Em & E & Hi). cbn. rewrite E, Em. cbn. destruct (lookup_lt_is_Some_2 es i (Hi i eq_refl)) as [e He]. by rewrite He.
Qed.
Next Obligation. done. Qed.
Next Obligation.
  intros es i c forward (Em & E & Hi). left. specialize (Hi i eq_refl). destruct (lookup_lt_is_Some_2 es i Hi) as [e He].
  destruct forward; cbn [cur_step cur_next cur_prev shard_ops].
  - rewrite (rem_forward _ _ _ He). unfold step_next. rewrite E, Em. destruct (Nat.ltb_spec (S i) (length es)).
    + exists (Some (S i)). split; [|done]. split; [done|]. split; [done|]. by intros ? [= <-].
    + exists None. split; [|cbn; by rewrite drop_ge by lia]. by split.
  - rewrite (rem_backward _ _ _ He). unfold step_prev. rewrite E. destruct i as [|i].
    + exists None. split; [by split|done].
    + exists (Some i). split; [|done]. split; [done|]. split; [done|]. intros ? [= <-]. lia.
Qed.
Next Obligation.
  intros es c [[p (Em & _)]|[]]. left. cbn. rewrite Em. exists (map_front es). destruct es as [|e es]; cbn.
  - split; [|done]. by split.
  - split; [|done]. split; [done|]. split; [done|]. intros i [= <-]. cbn. lia.
Qed.
Next Obligation.
  intros es c [[p (Em & _)]|[]]. left. cbn. rewrite Em. exists (map_back es). unfold map_back. destruct (length es) as [|n] eqn:E.
  - apply nil_length_inv in E as ->. split; [|done]. by split.
  - split; [|cbn [rem]; by rewrite take_ge by lia]. split; [done|]. split; [done|]. intros i [= <-]. lia.
Qed.
Next Obligation.
  intros es c k s Hs [[p (Em & _)]|[]]. left. cbn [cur_ge shard_ops]. unfold shard_seek_ge. rewrite Em. exists (map_lower (fun e => is_lt (entry_cmp cmp e k s)) es). split.
  - split; [done|]. split; [done|]. apply map_lower_lt.
  - rewrite map_lower_rem by (done || apply entry_cmp_lt_closed). unfold at_or_after. apply List.filter_ext. intros e. by rewrite is_ge_negb.
Qed.
Next Obligation.
  intros es c k s Hs [[p (Em & _)]|[]]. left. cbn [cur_le shard_ops]. unfold shard_seek_le. rewrite Em. exists (map_upper (fun e => is_le (entry_cmp cmp e k s)) es). split.
  - split; [done|]. split; [done|]. apply map_upper_lt.
  - by rewrite map_upper_rem by (done || apply entry_cmp_le_closed).
Qed.
End Order.
