(* ===== verification/Merge.v ===== *)
(** * Merge: the k-way merge of a scan

    [MergingIter] ([iterator.rs]) keeps a heap over its children and yields
    their entries in internal order, forward or backward; entries equal in key
    and sequence come in the order of the children in both directions.  The
    children are any [CursorOps]; the proofs use the contract [Cursor] only.

    The merge is characterised by the stream of tagged entries it has still to
    visit, [ahead]: each seek makes it the entries of all the runs from the
    probe on, in order, and [merge_advance] takes its head off.  A child that
    fails is recorded in [m_err], and stays recorded. *)

From Stdlib Require Import ZArith Lia Sorted.
From Stdlib.Strings Require Import Byte.
From stdpp Require Import base list sets sorting.
From S2P Require Import Prelude Encoding Codec Comparator Format RangeTombstone ReadPath Heap Cursor.

Open Scope Z_scope.

Record MergingIter (C : Type) := mkMerging {
  m_children : list C;
  m_heap : list nat;
  m_forward : bool;  (* [dir > 0] *)
  m_cmp : Comparator;
  m_err : option OndaError;
}.
Arguments mkMerging {C} _ _ _ _ _.
Arguments m_children {C} _.
Arguments m_heap {C} _.
Arguments m_forward {C} _.
Arguments m_cmp {C} _.
Arguments m_err {C} _.

(** The order of two entries with the indices of their children. *)
Definition tag_before (cmp : Comparator) (forward : bool) (x y : nat * Entry) : bool :=
  match then_with (merge_key_cmp cmp (e_key (snd x)) (e_key (snd y))) (e_seq (snd y) ?= e_seq (snd x)) with
  | Eq => (fst x <? fst y)%nat
  | c => if forward then is_lt c else is_gt c
  end.

Section Merging.
Context {C : Type} `{CursorOps C}.
Implicit Types m : MergingIter C.

Definition merging_new (cmp : Comparator) (children : list C) : MergingIter C := mkMerging children [] true cmp None.

(** [note_invalid] for a child. *)
Definition note_invalid (err : option OndaError) (c : C) : option OndaError :=
  match err with Some e => Some e | None => cur_err c end.

(** The entry a child stands on; the heap holds indices of valid children only. *)
Definition child_entry (children : list C) (i : nat) : Entry :=
  match children !! i with Some c => cur_entry c | None => no_entry end.

(** [before] for two children. *)
Definition child_before (cmp : Comparator) (forward : bool) (children : list C) (i j : nat) : bool :=
  tag_before cmp forward (i, child_entry children i) (j, child_entry children j).

Definition valid_indices (children : list C) : list nat :=
  List.filter (fun i => match children !! i with Some c => cur_valid c | None => false end) (List.seq 0%nat (length children)).

Definition invalid_children (children : list C) : list C := List.filter (fun c => negb (cur_valid c)) children.

(** [rebuild], after the children and the direction have been set. *)
Definition rebuild (forward : bool) (children : list C) m : MergingIter C :=
  mkMerging children (heapify (child_before (m_cmp m) forward children) (valid_indices children)) forward (m_cmp m)
    (fold_left note_invalid (invalid_children children) (m_err m)).

Definition merge_first m : MergingIter C := rebuild true (map cur_first (m_children m)) m.
Definition merge_last m : MergingIter C := rebuild false (map cur_last (m_children m)) m.
Definition merge_ge (k : key) (s : Z) m : MergingIter C := rebuild true (map (cur_ge k s) (m_children m)) m.
Definition merge_le (k : key) (s : Z) m : MergingIter C := rebuild false (map (cur_le k s) (m_children m)) m.

(** The loop of [seek_lt] that walks a child behind the versions of [k]. *)
Fixpoint walk_back (cmp : Comparator) (fuel : nat) (k : key) (c : C) : C :=
  match fuel with
  | O => c
  | S fuel =>
      if cur_valid c && (if is_bytewise cmp then beq (e_key (cur_entry c)) k else is_eq (compare cmp (e_key (cur_entry c)) k))
      then walk_back cmp fuel k (cur_prev c) else c
  end.

Definition merge_lt (fuel : nat) (k : key) m : MergingIter C :=
  rebuild false (map (fun c => walk_back (m_cmp m) fuel k (cur_le k U64_MAX c)) (m_children m)) m.

Definition merge_valid m : bool := match m_heap m with [] => false | _ => true end.

(** [top], for a merge that is valid. *)
Definition merge_top m : Entry :=
  match m_heap m with i :: _ => child_entry (m_children m) i | [] => no_entry end.

Definition merge_advance (forward : bool) m : MergingIter C :=
  match m_heap m with
  | [] => m
  | idx :: _ =>
      let children := alter (cur_step forward) idx (m_children m) in
      let gone := match children !! idx with Some c => negb (cur_valid c) | None => false end in
      let err := if gone then match children !! idx with Some c => note_invalid (m_err m) c | None => m_err m end else m_err m in
      let heap := if gone then remove_top (m_heap m) else m_heap m in
      let heap := match heap with
                  | [] => []
                  | _ => heap_down (child_before (m_cmp m) (m_forward m) children) (length heap) heap 0%nat
                  end in
      mkMerging children heap (m_forward m) (m_cmp m) err
  end.
End Merging.

(** ** The order of tagged entries *)

Definition place (x : nat * Entry) : key * Z * nat := (e_key (snd x), e_seq (snd x), fst x).

(** Key, then sequence, then child; the first two run against the direction. *)
Definition place_cmp (cmp : Comparator) (forward : bool) : key * Z * nat -> key * Z * nat -> comparison :=
  pair_cmp (pair_cmp (fun a b => if forward then compare cmp a b else compare cmp b a)
                     (fun s t => if forward then t ?= s else s ?= t)) Nat.compare.

Definition tag_cmp (cmp : Comparator) (forward : bool) (x y : nat * Entry) : comparison :=
  place_cmp cmp forward (place x) (place y).

Definition tag_lt (cmp : Comparator) (forward : bool) (x y : nat * Entry) : Prop := tag_cmp cmp forward x y = Lt.

(** What the children have still to visit, with their indices, and in the order of the merge. *)
Fixpoint tagged_from (n : nat) (rems : list (list Entry)) : list (nat * Entry) :=
  match rems with [] => [] | r :: rems => map (pair n) r ++ tagged_from (S n) rems end.

Definition tagged : list (list Entry) -> list (nat * Entry) := tagged_from 0.

Definition ahead (cmp : Comparator) (forward : bool) (rems : list (list Entry)) : list (nat * Entry) :=
  sort_by (tag_cmp cmp forward) (tagged rems).

Lemma nat_ord_laws : ord_laws Nat.compare.
Proof.
  split.
  - intros a b. apply Nat.compare_eq_iff.
  - intros a b. rewrite Nat.compare_antisym. by destruct (b ?= a)%nat.
  - intros x y z. rewrite !Nat.compare_lt_iff. lia.
Qed.

Lemma ol_not_lt_trans {A} (c : A -> A -> comparison) x y z :
  ord_laws c -> is_lt (c y x) = false -> is_lt (c z y) = false -> is_lt (c z x) = false.
Proof.
  intros L H1 H2. destruct (c z x) eqn:E; [done| |done]. exfalso. destruct (c z y) eqn:E2; [| |]; try done.
  - apply (ol_eq _ L) in E2 as ->. by rewrite E in H1.
  - rewrite (ol_anti _ L) in E2. destruct (c y z) eqn:E3; try done. by rewrite (ol_trans _ L y z x E3 E) in H1.
Qed.

Lemma place_laws cmp forward : TotalOrder cmp -> ord_laws (place_cmp cmp forward).
Proof.
  intros TO. pose proof total_laws as L. repeat apply pair_laws; try apply nat_ord_laws; destruct forward.
  - apply L.
  - by apply flip_laws.
  - apply (flip_laws Z.compare), Z_ord_laws.
  - apply Z_ord_laws.
Qed.

Section Order.
Context (cmp : Comparator) `{!TotalOrder cmp} (forward : bool).
Local Abbreviation R := (tag_lt cmp forward).

Lemma tag_before_lt x y : tag_before cmp forward x y = is_lt (tag_cmp cmp forward x y).
Proof.
  unfold tag_before, tag_cmp, place_cmp, pair_cmp, place. cbn [fst snd]. rewrite merge_key_cmp_eq by done.
  pose proof (ol_anti _ total_laws (e_key (snd x)) (e_key (snd y))) as Hk. pose proof (ol_anti _ Z_ord_laws (e_seq (snd x)) (e_seq (snd y))) as Hs.
  assert ((fst x <? fst y)%nat = is_lt (fst x ?= fst y)%nat) as ->.
  { destruct (Nat.compare_spec (fst x) (fst y)), (Nat.ltb_spec (fst x) (fst y)); first [done|lia]. }
  destruct forward; [|rewrite Hk, Hs]; clear Hk Hs; destruct (compare cmp _ _), (e_seq (snd y) ?= e_seq (snd x)); done.
Qed.

Lemma tag_lt_trans x y z : R x y -> R y z -> R x z.
Proof. apply (ol_trans _ (place_laws cmp forward _)). Qed.

Lemma tag_lt_irrefl x : ~ R x x.
Proof. unfold tag_lt, tag_cmp. by rewrite (ol_refl _ _ (place_laws cmp forward _)). Qed.

Lemma tag_total x y : R x y \/ place x = place y \/ R y x.
Proof.
  unfold tag_lt, tag_cmp. pose proof (ol_anti _ (place_laws cmp forward _) (place y) (place x)) as Ha.
  destruct (place_cmp cmp forward (place x) (place y)) eqn:E; [|by left|].
  - right. left. by apply (ol_eq _ (place_laws cmp forward _)).
  - right. right. by rewrite Ha.
Qed.

Lemma tag_not_before x y : tag_before cmp forward x y = false -> place x <> place y -> R y x.
Proof.
  rewrite tag_before_lt. intros Hb Hn. destruct (tag_total x y) as [Hr|[?|?]]; [|done|done]. unfold tag_lt in Hr. by rewrite Hr in Hb.
Qed.

Lemma tag_sorted_unique l l' : StronglySorted R l -> StronglySorted R l' -> l ≡ₚ l' -> l = l'.
Proof.
  intros Hl Hl' HP. assert (AntiSymm (=) R) by (intros x y Hx Hy; destruct (tag_lt_irrefl x); by eapply tag_lt_trans).
  by apply (StronglySorted_unique R).
Qed.
End Order.

(** ** Tagged entries *)

Lemma elem_of_tagged_from n rems i e : (i, e) ∈ tagged_from n rems <-> exists j r, i = (n + j)%nat /\ rems !! j = Some r /\ e ∈ r.
Proof.
  revert n. induction rems as [|r rems IH]; intros n; cbn [tagged_from].
  { split; [by intros ?%elem_of_nil|]. by intros (j & r & _ & ? & _). }
  rewrite elem_of_app, IH. split.
  - intros [(e' & [= -> ->] & He)%list_elem_of_fmap|(j & r' & -> & Hr & He)]; [exists 0%nat, r|exists (S j), r']; (split; [lia|done]).
  - intros ([|j] & r' & -> & Hr & He); cbn in Hr.
    + injection Hr as ->. left. apply list_elem_of_fmap. exists e. split; [by rewrite Nat.add_0_r|done].
    + right. exists j, r'. split; [lia|done].
Qed.

Lemma elem_of_tagged rems i e : (i, e) ∈ tagged rems <-> exists r, rems !! i = Some r /\ e ∈ r.
Proof. unfold tagged. rewrite elem_of_tagged_from. cbn. split; [intros (j & r & -> & ?)|intros (r & ?)]; eauto. Qed.

Lemma tagged_snd n rems : map snd (tagged_from n rems) = concat rems.
Proof. revert n. induction rems as [|r rems IH]; intros n; cbn; [done|]. rewrite map_app, map_map, IH. cbn. by rewrite map_id. Qed.

Lemma tagged_pop rems i e r : rems !! i = Some (e :: r) -> tagged rems ≡ₚ (i, e) :: tagged (alter tail i rems).
Proof.
  unfold tagged. change i with (0 + i)%nat at 2. generalize 0%nat as n. revert i. induction rems as [|r' rems IH]; intros i n; [done|].
  destruct i as [|i]; cbn.
  - intros [= ->]. by rewrite Nat.add_0_r.
  - intros Hi. rewrite (IH i (S n) Hi). rewrite Nat.add_succ_r. cbn. by rewrite Permutation_middle.
Qed.

Lemma tagged_filter p rems : tagged (map (List.filter p) rems) = List.filter (fun x => p (snd x)) (tagged rems).
Proof.
  unfold tagged. generalize 0%nat as n. induction rems as [|r rems IH]; intros n; cbn; [done|]. rewrite List.filter_app, IH. f_equal.
  induction r as [|e r IHr]; cbn; [done|]. destruct (p e); cbn; by rewrite IHr.
Qed.

Lemma tagged_reverse rems : tagged (map reverse rems) ≡ₚ tagged rems.
Proof.
  unfold tagged. generalize 0%nat as n. induction rems as [|r rems IH]; intros n; cbn; [done|]. by rewrite IH, reverse_Permutation.
Qed.

Lemma tagged_nil rems : (forall r, r ∈ rems -> r = []) -> tagged rems = [].
Proof.
  unfold tagged. generalize 0%nat as n. induction rems as [|r rems IH]; intros n Hr; cbn; [done|].
  rewrite (Hr r) by left. apply IH. intros. apply Hr. by right.
Qed.

(** A run, in the direction of the merge. *)
Definition rem_lt (cmp : Comparator) (forward : bool) (a b : Entry) : Prop := if forward then entry_lt cmp a b else entry_lt cmp b a.

Lemma rem_sorted cmp forward es p : run_sorted cmp es -> StronglySorted (rem_lt cmp forward) (rem forward es p).
Proof.
  intros Hs. destruct p as [i|]; [|constructor]. destruct forward; cbn [rem rem_lt].
  - by apply StronglySorted_drop.
  - apply StronglySorted_reverse. by apply StronglySorted_take.
Qed.

Lemma Forall3_alter_mr {A B D} (P : A -> B -> D -> Prop) l k k' i (f : B -> B) (g : D -> D) :
  Forall3 P l k k' ->
  (forall x y z, l !! i = Some x -> k !! i = Some y -> k' !! i = Some z -> P x y z -> P x (f y) (g z)) ->
  Forall3 P l (alter f i k) (alter g i k').
Proof.
  intros H3. revert i. induction H3 as [|x y z l k k' Hp H3 IH]; intros i Hi; [constructor|].
  destruct i as [|i]; cbn; constructor; auto.
Qed.

Section Spec.
Context (cmp : Comparator) `{!TotalOrder cmp} {C : Type} `{Ops : CursorOps C} `{!Cursor cmp C}.
Implicit Types m : MergingIter C.

Definition child_at (forward : bool) (es : list Entry) (c : C) (r : list Entry) : Prop :=
  exists p, cur_on es p c /\ rem forward es p = r.

(** The merge visits [l] in this direction, over children that have not failed. *)
Record merge_at (forward : bool) (runs : list (list Entry)) m (l : list (nat * Entry)) : Prop := {
  ma_forward : m_forward m = forward;
  ma_cmp : m_cmp m = cmp;
  ma_err : m_err m = None;
  ma_rems : exists rems, Forall3 (child_at forward) runs (m_children m) rems /\ l ≡ₚ tagged rems;
  ma_sorted : StronglySorted (tag_lt cmp forward) l;
  ma_heap : m_heap m ≡ₚ valid_indices (m_children m);
  ma_ordered : ordered (child_before cmp forward (m_children m)) 0 (m_heap m);
}.

(** A child failed and the merge says so. *)
Definition merge_failed (runs : list (list Entry)) m : Prop :=
  m_err m <> None /\ exists es c, es ∈ runs /\ cur_dead es c.

Lemma child_at_valid forward es c r :
  child_at forward es c r ->
  cur_err c = None /\ match r with [] => cur_valid c = false | e :: _ => cur_valid c = true /\ cur_entry c = e end.
Proof.
  intros (p & Hp & <-). split; [by eapply on_err|]. destruct p as [i|]; [|by eapply on_none].
  apply on_some in Hp as [Hv He]. destruct (rem_head forward es i _ He) as [r ->]. done.
Qed.

Lemma rem_lt_tag forward i a b : rem_lt cmp forward a b -> tag_lt cmp forward (i, a) (i, b).
Proof.
  unfold rem_lt, entry_lt, tag_lt, tag_cmp, place_cmp, pair_cmp, place. cbn. rewrite Nat.compare_refl, then_with_Eq_r.
  destruct forward; intros [H|[E H]].
  - by rewrite H.
  - rewrite (proj2 (kcompare_eq cmp _ _) E). cbn. by apply Z.compare_lt_iff.
  - by rewrite H.
  - rewrite (proj2 (kcompare_eq cmp _ _) E). cbn. by apply Z.compare_lt_iff.
Qed.

Lemma child_laws forward (children : list C) :
  (forall a b c, child_before cmp forward children b a = false -> child_before cmp forward children c b = false ->
    child_before cmp forward children c a = false) /\
  (forall a b, child_before cmp forward children a b = true -> child_before cmp forward children b a = false) /\
  (forall a, child_before cmp forward children a a = false).
Proof.
  pose proof (place_laws cmp forward _) as L. unfold child_before. split; [|split].
  - intros a b c. rewrite !tag_before_lt by done. by apply (ol_not_lt_trans (place_cmp cmp forward)).
  - intros a b. rewrite !tag_before_lt by done. unfold tag_cmp. rewrite (ol_anti _ L).
    by destruct (place_cmp cmp forward (place (b, child_entry children b)) _).
  - intros a. rewrite tag_before_lt by done. unfold tag_cmp. by rewrite (ol_refl _ _ L).
Qed.

Lemma elem_of_valid_indices (children : list C) i :
  i ∈ valid_indices children <-> exists c, children !! i = Some c /\ cur_valid c = true.
Proof.
  unfold valid_indices. rewrite list_elem_of_In, List.filter_In, in_seq. cbn. split.
  - intros [_ H]. destruct (children !! i); [|done]. eauto.
  - intros (c & E & Hv). rewrite E. split; [|done]. apply lookup_lt_Some in E. lia.
Qed.

Lemma valid_indices_NoDup (children : list C) : NoDup (valid_indices children).
Proof. unfold valid_indices. apply NoDup_ListNoDup, List.NoDup_filter, seq_NoDup. Qed.

(** What child [i] has ahead, seen from the merge. *)
Lemma child_lookup forward runs (children : list C) rems i c :
  Forall3 (child_at forward) runs children rems -> Forall (run_sorted cmp) runs -> children !! i = Some c ->
  exists es r, runs !! i = Some es /\ rems !! i = Some r /\ child_at forward es c r /\ StronglySorted (rem_lt cmp forward) r.
Proof.
  intros H3 Hr Hc. destruct (Forall3_lookup_m _ _ _ _ _ _ H3 Hc) as (es & r & He & Hrem & Hat). exists es, r.
  split; [done|]. split; [done|]. split; [done|]. destruct Hat as (p & _ & <-). apply rem_sorted.
  rewrite Forall_forall in Hr. apply Hr. by eapply list_elem_of_lookup_2.
Qed.

(** An element of a child's rest is its current entry, or comes after it. *)
Lemma child_head forward es c r i e :
  child_at forward es c r -> StronglySorted (rem_lt cmp forward) r -> e ∈ r ->
  cur_valid c = true /\ (e = cur_entry c \/ tag_lt cmp forward (i, cur_entry c) (i, e)).
Proof.
  intros Hat Hs He. destruct (child_at_valid _ _ _ _ Hat) as [_ Hv]. destruct r as [|e0 r]; [by apply elem_of_nil in He|].
  destruct Hv as [Hv <-]. split; [done|]. apply elem_of_cons in He as [->|He]; [by left|]. right. apply rem_lt_tag.
  apply StronglySorted_inv in Hs as [_ Hs]. rewrite Forall_forall in Hs. by apply Hs.
Qed.

(** The first of the heap is the head of what is ahead. *)
Lemma merge_top_ahead forward runs m l :
  merge_at forward runs m l -> Forall (run_sorted cmp) runs ->
  match m_heap m with
  | [] => l = []
  | i :: _ => exists l', l = (i, child_entry (m_children m) i) :: l'
  end.
Proof.
  intros [Hf Hc He (rems & H3 & HP) Hs Hh Ho] Hr.
  assert (Hrest : forall j e, (j, e) ∈ l -> j ∈ m_heap m /\
    (e = child_entry (m_children m) j \/ tag_lt cmp forward (j, child_entry (m_children m) j) (j, e))).
  { intros j e Hje. rewrite HP in Hje. apply elem_of_tagged in Hje as (r & Hrj & Hje).
    destruct (Forall3_lookup_r _ _ _ _ _ _ H3 Hrj) as (es & c & _ & Hcj & _).
    destruct (child_lookup _ _ _ _ _ _ H3 Hr Hcj) as (es' & r' & _ & Er & Hat & Hsr). rewrite Hrj in Er. injection Er as <-.
    destruct (child_head forward es' c r j e Hat Hsr Hje) as [Hv Hor]. unfold child_entry. rewrite Hcj. split; [|done].
    rewrite Hh. apply elem_of_valid_indices. eauto. }
  destruct (m_heap m) as [|i h] eqn:Eh.
  { destruct l as [|[j e] l]; [done|]. destruct (Hrest j e) as [?%elem_of_nil _]; [left|done]. }
  assert (Hi : i ∈ valid_indices (m_children m)) by (rewrite <- Hh; left).
  apply elem_of_valid_indices in Hi as (c & Hci & Hv).
  destruct (child_lookup _ _ _ _ _ _ H3 Hr Hci) as (es & r & _ & Hri & Hat & _).
  destruct (child_at_valid _ _ _ _ Hat) as [_ Hr']. destruct r as [|e r]; [congruence|]. destruct Hr' as [_ Ee].
  set (x := (i, child_entry (m_children m) i)).
  assert (Hx : x ∈ l). { rewrite HP. apply elem_of_tagged. exists (e :: r). split; [done|]. unfold child_entry. rewrite Hci, Ee. left. }
  destruct l as [|[j e'] l']; [by apply elem_of_nil in Hx|]. exists l'. f_equal.
  destruct (child_laws forward (m_children m)) as (Lt & La & Li).
  destruct (Hrest j e') as [Hj Hor]; [left|].
  assert (Hle : x = (j, child_entry (m_children m) j) \/ tag_lt cmp forward x (j, child_entry (m_children m) j)).
  { destruct (decide (j = i)) as [->|Hn]; [by left|]. right. apply tag_not_before; [done| |intros [= _ _ Hij]; done].
    apply (top_least _ Lt (i :: h)); try done. }
  apply elem_of_cons in Hx as [Hx|Hx]; [done|]. exfalso. apply StronglySorted_inv in Hs as [_ Hs]. rewrite Forall_forall in Hs.
  apply Hs in Hx. apply (tag_lt_irrefl cmp forward x). destruct Hle as [El|Hle]; rewrite <- ?El in Hor;
    (destruct Hor as [Eo|Hor]; [rewrite Eo, <- ?El in Hx|]); eauto using tag_lt_trans.
Qed.
Lemma child_entry_alter (f : C -> C) (children : list C) i j : j <> i -> child_entry (alter f i children) j = child_entry children j.
Proof. intros Hn. unfold child_entry. by rewrite list_lookup_alter_ne. Qed.

Lemma valid_alter (f : C -> C) (children : list C) i c :
  children !! i = Some c -> cur_valid c = true ->
  if cur_valid (f c) then valid_indices (alter f i children) ≡ₚ valid_indices children
  else i :: valid_indices (alter f i children) ≡ₚ valid_indices children.
Proof.
  intros Hi Hv. pose proof (list_lookup_alter_eq f children i) as Hf. rewrite Hi in Hf. cbn in Hf.
  assert (Hj : forall j, j <> i -> (j ∈ valid_indices (alter f i children) <-> j ∈ valid_indices children)).
  { intros j Hn. rewrite !elem_of_valid_indices. by rewrite list_lookup_alter_ne. }
  assert (i ∈ valid_indices children) by (apply elem_of_valid_indices; eauto).
  assert (Hi' : i ∈ valid_indices (alter f i children) <-> cur_valid (f c) = true).
  { rewrite elem_of_valid_indices, Hf. split; [by intros (? & [= <-] & ?)|eauto]. }
  destruct (cur_valid (f c)) eqn:Ef.
  - apply NoDup_Permutation; [apply valid_indices_NoDup..|]. intros j. destruct (decide (j = i)) as [->|Hn]; [by rewrite Hi'|by apply Hj].
  - assert (i ∉ valid_indices (alter f i children)) by (rewrite Hi'; done).
    apply NoDup_Permutation; [constructor; [done|apply valid_indices_NoDup]|apply valid_indices_NoDup|]. intros j. rewrite elem_of_cons.
    destruct (decide (j = i)) as [->|Hn]; [naive_solver|]. rewrite Hj by done. naive_solver.
Qed.

(** The heap after the top child moved. *)
Lemma heap_after forward (children : list C) f i h c :
  (i :: h) ≡ₚ valid_indices children -> ordered (child_before cmp forward children) 0 (i :: h) ->
  children !! i = Some c ->
  let children' := alter f i children in
  let heap := if cur_valid (f c) then i :: h else remove_top (i :: h) in
  let heap := match heap with [] => [] | _ => heap_down (child_before cmp forward children') (length heap) heap 0 end in
  heap ≡ₚ valid_indices children' /\ ordered (child_before cmp forward children') 0 heap.
Proof.
  intros HP Ho Hi children' heap0. destruct (child_laws forward children') as (Lt & La & _).
  assert (Hv : cur_valid c = true).
  { assert (i ∈ valid_indices children) as Hin by (rewrite <- HP; left). apply elem_of_valid_indices in Hin as (c' & Hc' & ?). congruence. }
  pose proof (valid_alter f children i c Hi Hv) as HV. fold children' in HV.
  destruct (ordered_moved (child_before cmp forward children) (child_before cmp forward children') i h) as [M1 M2].
  { rewrite HP. apply valid_indices_NoDup. }
  { done. }
  { intros a b Ha Hb. unfold child_before, children'. by rewrite !child_entry_alter. }
  assert (Hp : heap0 ≡ₚ valid_indices children').
  { unfold heap0. destruct (cur_valid (f c)); [by rewrite HV|]. rewrite remove_top_Permutation.
    eapply (Permutation_cons_inv (a := i)). by rewrite HV. }
  assert (Hb : ordered_but (child_before cmp forward children') 0 0 heap0) by (unfold heap0; by destruct (cur_valid (f c))).
  clearbody heap0. destruct heap0 as [|x h0]; [split; [done|]; intros p q a b _ _ Hpa; by rewrite lookup_nil in Hpa|].
  destruct (heap_down_spec _ Lt La (length (x :: h0)) 0 0 (x :: h0) Hb) as [D1 D2]; [lia..|]. split; [by rewrite D2|done].
Qed.
(** [advance] takes the head off what is ahead, or a child failed. *)
Lemma merge_advance_spec forward runs m i e l :
  merge_at forward runs m ((i, e) :: l) -> Forall (run_sorted cmp) runs ->
  merge_at forward runs (merge_advance forward m) l \/ merge_failed runs (merge_advance forward m).
Proof.
  intros Hm Hr. pose proof (merge_top_ahead _ _ _ _ Hm Hr) as Ht. destruct Hm as [Hf Hc He (rems & H3 & HP) Hs Hh Ho].
  unfold merge_advance. destruct (m_heap m) as [|i' h] eqn:Eh; [done|]. destruct Ht as (l' & [= -> -> <-]).
  assert (Hi : i' ∈ valid_indices (m_children m)) by (rewrite <- Hh; left). apply elem_of_valid_indices in Hi as (c & Hci & Hv).
  destruct (child_lookup _ _ _ _ _ _ H3 Hr Hci) as (es & r & Hes & Hri & (p & Hon & Hrem) & _).
  assert (Hin : (i', child_entry (m_children m) i') ∈ tagged rems) by (rewrite <- HP; left).
  apply elem_of_tagged in Hin as (r' & Er & Hin). rewrite Hri in Er. injection Er as <-.
  destruct p as [n|]; [|subst r; by apply elem_of_nil in Hin].
  pose proof (list_lookup_alter_eq (cur_step forward) (m_children m) i') as Ha. rewrite Hci in Ha. cbn in Ha. rewrite Ha.
  destruct (on_step es n c forward Hon) as [(p & Hon' & Hrem')|Hd].
  - left. destruct (heap_after forward (m_children m) (cur_step forward) i' h c Hh Ho Hci) as [HP' Ho'].
    pose proof (on_err _ _ _ Hon') as He'. rewrite Hf, Hc.
    destruct (cur_valid (cur_step forward c)); cbn [negb]; (split; cbn [m_forward m_cmp m_err m_children m_heap];
      [done|done|unfold note_invalid; by rewrite ?He| |by apply StronglySorted_inv in Hs as [? _]|exact HP'|exact Ho']).
    all: exists (alter tail i' rems); (split; [apply Forall3_alter_mr; [done|]|]).
    all: try (intros x y z Ex Ey Ez _; rewrite Hes in Ex; rewrite Hci in Ey; rewrite Hri in Ez; injection Ex as <-; injection Ey as <-; injection Ez as <-;
              exists p; split; [done|by rewrite Hrem', Hrem]).
    all: destruct r as [|e' r]; [by apply elem_of_nil in Hin|]; rewrite (tagged_pop rems i' e' r Hri) in HP;
      destruct (on_some _ _ _ Hon) as [_ Hn]; destruct (rem_head forward _ _ _ Hn) as [r2 Er2]; rewrite Er2 in Hrem; injection Hrem as <- <-;
      unfold child_entry in HP; rewrite Hci in HP; by apply Permutation_cons_inv in HP.
  - right. apply dead_err in Hd as Hd'. destruct Hd' as [Hv' He']. rewrite Hv'. cbn. split; cbn; [unfold note_invalid; by rewrite He|].
    exists es, (cur_step forward c). split; [by eapply list_elem_of_lookup_2|done].
Qed.

(** The children of a merge that has not failed stand on their runs. *)
Definition children_on (runs : list (list Entry)) m : Prop :=
  Forall2 (fun es c => exists p, cur_on es p c) runs (m_children m).

Lemma merge_at_on forward runs m l : merge_at forward runs m l -> children_on runs m.
Proof.
  intros [_ _ _ (rems & H3 & _) _ _ _]. unfold children_on. induction H3 as [|es c r runs cs rems (p & Hp & _) H3 IH]; constructor; eauto.
Qed.

Lemma note_invalid_fold (cs : list C) err :
  fold_left note_invalid cs err = None <-> err = None /\ forall c, c ∈ cs -> cur_err c = None.
Proof.
  revert err. induction cs as [|c cs IH]; intros err; cbn; [split; [intros ->; split; [done|]; by intros ? ?%elem_of_nil|by intros [-> _]]|].
  rewrite IH. destruct err as [e|]; cbn; [naive_solver|]. setoid_rewrite elem_of_cons. naive_solver.
Qed.

Lemma tagged_places forward n rems :
  (forall r, r ∈ rems -> StronglySorted (rem_lt cmp forward) r) -> NoDup (map place (tagged_from n rems)).
Proof.
  revert n. induction rems as [|r rems IH]; intros n Hs; cbn [tagged_from]; [constructor|]. rewrite map_app. apply NoDup_app. split; [|split].
  - specialize (Hs r ltac:(left)). clear IH. induction Hs as [|e r Hs IH HF]; cbn; constructor; [|done].
    intros (x & Ex & (e' & -> & He')%list_elem_of_fmap)%list_elem_of_fmap. rewrite Forall_forall in HF. specialize (HF e' He').
    apply (rem_lt_tag forward n) in HF. unfold tag_lt, tag_cmp in HF. rewrite Ex in HF. by rewrite (ol_refl _ _ (place_laws cmp forward _)) in HF.
  - intros x (y & -> & (e & -> & _)%list_elem_of_fmap)%list_elem_of_fmap ([j e'] & [= _ _ ->] & Hj)%list_elem_of_fmap.
    apply elem_of_tagged_from in Hj as (j' & r' & Ej & _). lia.
  - apply IH. intros. apply Hs. by right.
Qed.

Lemma sorted_strict forward l :
  NoDup (map place l) -> StronglySorted (fun x y => tag_cmp cmp forward x y <> Gt) l -> StronglySorted (tag_lt cmp forward) l.
Proof.
  intros Hn Hs. induction Hs as [|x l Hs IH HF]; [constructor|]. cbn in Hn. apply NoDup_cons in Hn as [Hx Hn]. constructor; [by apply IH|].
  rewrite Forall_forall in HF |- *. intros y Hy. specialize (HF y Hy). unfold tag_lt. destruct (tag_cmp cmp forward x y) eqn:E; [|done|done].
  destruct Hx. apply (ol_eq _ (place_laws cmp forward _)) in E. rewrite E. apply list_elem_of_fmap. eauto.
Qed.

Lemma ahead_spec forward rems :
  (forall r, r ∈ rems -> StronglySorted (rem_lt cmp forward) r) ->
  StronglySorted (tag_lt cmp forward) (ahead cmp forward rems) /\ ahead cmp forward rems ≡ₚ tagged rems.
Proof.
  intros Hs. pose proof (place_laws cmp forward _) as L. assert (HP : ahead cmp forward rems ≡ₚ tagged rems) by apply sort_by_Permutation.
  split; [|done]. apply sorted_strict.
  - unfold ahead. rewrite HP. by apply (tagged_places forward).
  - apply sort_by_sorted; unfold tag_cmp.
    + intros x y Hxy. rewrite (ol_anti _ L), Hxy. done.
    + intros x y z Hxy Hyz. rewrite (ol_anti _ L) in Hxy, Hyz |- *.
      assert (forall o, CompOpp o <> Gt <-> is_lt o = false) as Hg by (by intros []). rewrite Hg in *. by eapply (ol_not_lt_trans _ _ _ _ L).
Qed.

Section Seek.
Context (forward : bool) (f : C -> C) (g : list Entry -> list Entry) (P : list Entry -> Prop)
  (seek_on : forall es c, P es -> (exists p, cur_on es p c) ->
     (exists p, cur_on es p (f c) /\ rem forward es p = g es) \/ cur_dead es (f c)).

Lemma children_seek runs (cs : list C) :
  Forall2 (fun es c => exists p, cur_on es p c) runs cs -> Forall P runs ->
  Forall3 (child_at forward) runs (map f cs) (map g runs) \/ exists es c, es ∈ runs /\ c ∈ map f cs /\ cur_dead es c.
Proof.
  induction 1 as [|es c runs cs Hon _ IH]; intros Hr; [left; constructor|]. apply Forall_cons in Hr as [Hes Hr].
  destruct (seek_on es c Hes Hon) as [Hat|Hd]; [|right; exists es, (f c); cbn; set_solver].
  destruct (IH Hr) as [H3|(es' & c' & ? & ? & ?)]; [left; by constructor|]. right. exists es', c'. cbn. set_solver.
Qed.

(** Seeking: every child goes where [f] puts it, with [g] of its run ahead. *)
Lemma rebuild_spec runs m :
  m_cmp m = cmp -> m_err m = None -> children_on runs m -> Forall (run_sorted cmp) runs -> Forall P runs ->
  merge_at forward runs (rebuild forward (map f (m_children m)) m) (ahead cmp forward (map g runs)) \/
  merge_failed runs (rebuild forward (map f (m_children m)) m).
Proof.
  intros Hc He Hon Hr HPr. destruct (child_laws forward (map f (m_children m))) as (Lt & La & _).
  destruct (heapify_spec (child_before cmp forward (map f (m_children m))) Lt La (valid_indices (map f (m_children m)))) as [Ho HP].
  destruct (children_seek runs (m_children m) Hon HPr) as [H3|(es & c & Hes & Hin & Hd)]; [left|right].
  - assert (Hg : forall r, r ∈ map g runs -> StronglySorted (rem_lt cmp forward) r).
    { intros r [i Hi]%list_elem_of_lookup. destruct (Forall3_lookup_r _ _ _ _ _ _ H3 Hi) as (es & c & _ & Hci & _).
      destruct (child_lookup _ _ _ _ _ _ H3 Hr Hci) as (es' & r' & _ & Er & _ & ?). congruence. }
    destruct (ahead_spec forward _ Hg) as [Hs HPa]. split; unfold rebuild; cbn [m_forward m_cmp m_err m_children m_heap]; rewrite ?Hc; try done.
    + apply note_invalid_fold. split; [done|]. intros c Hin. apply list_elem_of_In, List.filter_In in Hin as [Hin _].
      apply list_elem_of_In, list_elem_of_lookup in Hin as [i Hi].
      destruct (child_lookup _ _ _ _ _ _ H3 Hr Hi) as (es & r & _ & _ & Hat & _). by destruct (child_at_valid _ _ _ _ Hat).
    + eauto.
  - destruct (dead_err es c Hd) as [Hv Hce]. split; [|eauto]. cbn [rebuild m_err]. intros Hn. apply note_invalid_fold in Hn as [_ Hn].
    apply Hce, Hn. apply list_elem_of_In, List.filter_In. split; [by apply list_elem_of_In|]. by rewrite Hv.
Qed.
End Seek.

Context (runs : list (list Entry)) (runs_sorted : Forall (run_sorted cmp) runs).

Lemma merge_first_spec m :
  m_cmp m = cmp -> m_err m = None -> children_on runs m ->
  merge_at true runs (merge_first m) (ahead cmp true runs) \/ merge_failed runs (merge_first m).
Proof.
  intros Hc He Hon. rewrite <- (map_id runs) at 2. apply (rebuild_spec true cur_first id (run_sorted cmp)); try done. intros es c _ Hp. apply on_first. by left.
Qed.

Lemma merge_last_spec m :
  m_cmp m = cmp -> m_err m = None -> children_on runs m ->
  merge_at false runs (merge_last m) (ahead cmp false (map reverse runs)) \/ merge_failed runs (merge_last m).
Proof. intros Hc He Hon. apply (rebuild_spec false cur_last reverse (run_sorted cmp)); try done. intros es c _ Hp. apply on_last. by left. Qed.

Lemma merge_ge_spec k s m :
  m_cmp m = cmp -> m_err m = None -> children_on runs m ->
  merge_at true runs (merge_ge k s m) (ahead cmp true (map (List.filter (at_or_after cmp k s)) runs)) \/ merge_failed runs (merge_ge k s m).
Proof. intros Hc He Hon. apply (rebuild_spec true (cur_ge k s) _ (run_sorted cmp)); try done. intros es c Hs Hp. apply on_ge; [done|]. by left. Qed.

Lemma merge_le_spec k s m :
  m_cmp m = cmp -> m_err m = None -> children_on runs m ->
  merge_at false runs (merge_le k s m) (ahead cmp false (map (fun es => reverse (List.filter (at_or_before cmp k s) es)) runs)) \/
  merge_failed runs (merge_le k s m).
Proof. intros Hc He Hon. apply (rebuild_spec false (cur_le k s) _ (run_sorted cmp)); try done. intros es c Hs Hp. apply on_le; [done|]. by left. Qed.
(** The loop of [seek_lt] ends behind the versions of [k]. *)
Definition below (k : key) (e : Entry) : bool := is_lt (compare cmp (e_key e) k).

Lemma key_is k e : (if is_bytewise cmp then beq (e_key e) k else is_eq (compare cmp (e_key e) k)) = bool_decide (e_key e = k).
Proof. destruct (is_bytewise cmp); [done|]. apply eq_bool_prop_intro. rewrite bool_decide_spec. by rewrite Is_true_true, is_eq_true. Qed.

Lemma walk_back_dead fuel k es c : cur_dead es c -> walk_back cmp fuel k c = c.
Proof. intros Hd. destruct fuel; cbn; [done|]. by destruct (dead_err _ _ Hd) as [-> _]. Qed.

Lemma walk_back_spec fuel k es c a :
  child_at false es c (a ++ reverse (List.filter (below k) es)) -> Forall (fun e => e_key e = k) a -> (length a < fuel)%nat ->
  child_at false es (walk_back cmp fuel k c) (reverse (List.filter (below k) es)) \/ cur_dead es (walk_back cmp fuel k c).
Proof.
  set (rest := reverse _). revert c a. induction fuel as [|fuel IH]; intros c a Hat Ha Hf; [lia|]. cbn [walk_back]. rewrite key_is.
  destruct (child_at_valid _ _ _ _ Hat) as [_ Hv]. destruct a as [|e a]; cbn [app] in *.
  - left. destruct rest as [|e r] eqn:Er; [by rewrite Hv|]. destruct Hv as [-> ->].
    assert (He : e ∈ List.filter (below k) es) by (apply elem_of_reverse; fold rest; rewrite Er; left).
    apply list_elem_of_In, List.filter_In in He as [_ He]. unfold below in He. rewrite bool_decide_eq_false_2; [done|].
    intros E. kbool. rewrite E in He. by apply klt_irrefl in He.
  - destruct Hv as [-> Ee]. apply Forall_cons in Ha as [Hk Ha]. rewrite Ee, bool_decide_eq_true_2 by done. cbn [andb].
    destruct Hat as ([n|] & Hon & Hrem); [|done]. change (cur_prev c) with (cur_step false c).
    destruct (on_step es n c false Hon) as [(p & Hp & Hr)|Hd]; [|right; by rewrite (walk_back_dead fuel k es _ Hd)].
    apply (IH _ a); [|done|cbn in Hf; lia]. exists p. split; [done|]. by rewrite Hr, Hrem.
Qed.

Lemma filter_at_before k s es :
  run_sorted cmp es ->
  exists a, reverse (List.filter (at_or_before cmp k s) es) = a ++ reverse (List.filter (below k) es) /\
    Forall (fun e => e_key e = k) a /\ (length a <= length es)%nat.
Proof.
  intros Hs. exists (reverse (List.filter (fun e => negb (below k e) && at_or_before cmp k s e) es)).
  assert (List.filter (at_or_before cmp k s) es = List.filter (below k) es ++ List.filter (fun e => negb (below k e) && at_or_before cmp k s e) es) as ->.
  { clear -Hs TotalOrder0. induction Hs as [|e es Hs IH HF]; cbn; [done|]. rewrite IH. destruct (below k e) eqn:Eb; cbn.
    - assert (at_or_before cmp k s e = true) as -> by (unfold below in Eb; kbool; apply entry_cmp_le; [done|]; by left). done.
    - assert (List.filter (below k) es = []) as ->.
      { apply filter_none. eapply Forall_impl; [exact HF|]. cbn. intros x Hx. unfold below in *. kbool.
        apply is_lt_false; [done|]. destruct Hx as [Hx|[Hx _]]; korder. }
      by destruct (at_or_before cmp k s e). }
  rewrite reverse_app. split; [done|]. split.
  - apply Forall_reverse, Forall_forall. intros e He. apply list_elem_of_In, List.filter_In in He as [_ He].
    apply andb_true_iff in He as [H1 H2]. unfold below in H1. kbool. apply (entry_cmp_le cmp) in H2 as [H2|[H2 _]]; [|done]. korder.
  - rewrite length_reverse. apply List.filter_length_le.
Qed.

Lemma merge_lt_spec fuel k m :
  m_cmp m = cmp -> m_err m = None -> children_on runs m -> Forall (fun es => (length es < fuel)%nat) runs ->
  merge_at false runs (merge_lt fuel k m) (ahead cmp false (map (fun es => reverse (List.filter (below k) es)) runs)) \/
  merge_failed runs (merge_lt fuel k m).
Proof.
  intros Hc He Hon Hl. unfold merge_lt. rewrite Hc.
  apply (rebuild_spec false (fun c => walk_back cmp fuel k (cur_le k U64_MAX c)) _ (fun es => run_sorted cmp es /\ (length es < fuel)%nat)); try done.
  - intros es c [Hs Hf] Hp. destruct (filter_at_before k U64_MAX es Hs) as (a & Ea & Hk & Hla).
    destruct (on_le es c k U64_MAX Hs (or_introl Hp)) as [(p & Hon' & Hrem)|Hd]; [|right; by rewrite (walk_back_dead fuel k es _ Hd)].
    apply (walk_back_spec fuel k es _ a); [|done|lia]. exists p. by rewrite Hrem, Ea.
  - rewrite Forall_forall in *. intros es Hes. split; auto.
Qed.
End Spec.

(** ** Filters of what is ahead *)

(** Every entry of the runs, in the order of a direction. *)
Definition all_ahead (cmp : Comparator) (forward : bool) (runs : list (list Entry)) : list (nat * Entry) :=
  ahead cmp forward (if forward then runs else map reverse runs).

Section Filters.
Context (cmp : Comparator) `{!TotalOrder cmp} (runs : list (list Entry)) (runs_sorted : Forall (run_sorted cmp) runs).

Lemma all_ahead_spec forward :
  StronglySorted (tag_lt cmp forward) (all_ahead cmp forward runs) /\ all_ahead cmp forward runs ≡ₚ tagged runs.
Proof.
  unfold all_ahead. destruct forward.
  - apply ahead_spec; [done|]. intros r Hr. rewrite Forall_forall in runs_sorted. by apply runs_sorted.
  - destruct (ahead_spec cmp false (map reverse runs)) as [Hs HP]; [|split; [done|by rewrite HP, tagged_reverse]].
    intros r (es & -> & Hes)%list_elem_of_fmap. rewrite Forall_forall in runs_sorted. apply StronglySorted_reverse. by apply runs_sorted.
Qed.

Lemma filter_Permutation {A} (p : A -> bool) l l' : l ≡ₚ l' -> List.filter p l ≡ₚ List.filter p l'.
Proof. induction 1; cbn; repeat case_match; try done; [by constructor|by rewrite Permutation_swap|by etrans]. Qed.

(** Seeking with a predicate on entries keeps the part of the whole it selects. *)
Lemma ahead_filter forward p :
  ahead cmp forward (map (fun es => if forward then List.filter p es else reverse (List.filter p es)) runs) =
  List.filter (fun x => p (snd x)) (all_ahead cmp forward runs).
Proof.
  destruct (all_ahead_spec forward) as [Hs HP]. rewrite Forall_forall in runs_sorted.
  destruct (ahead_spec cmp forward (map (fun es => if forward then List.filter p es else reverse (List.filter p es)) runs)) as [Hs' HP'].
  { intros r (es & -> & Hes)%list_elem_of_fmap. destruct forward; [|apply StronglySorted_reverse]; by apply StronglySorted_filter, runs_sorted. }
  apply (tag_sorted_unique cmp forward); [done|by apply StronglySorted_filter|]. rewrite HP', (filter_Permutation _ _ _ HP), <- tagged_filter.
  destruct forward; [done|]. rewrite <- (tagged_reverse (map (List.filter p) runs)). by rewrite map_map.
Qed.

(** A seek by key only. *)
Definition on_key (p : key -> bool) (x : nat * Entry) : bool := p (e_key (snd x)).

Lemma filter_agree {A} (p q : A -> bool) l : (forall x, x ∈ l -> p x = q x) -> List.filter p l = List.filter q l.
Proof. intros H. apply List.filter_ext_in. intros x Hx. apply H. by apply list_elem_of_In. Qed.

Lemma elem_of_all_ahead forward i e : (i, e) ∈ all_ahead cmp forward runs <-> exists es, runs !! i = Some es /\ e ∈ es.
Proof. destruct (all_ahead_spec forward) as [_ HP]. by rewrite HP, elem_of_tagged. Qed.
End Filters.
