(* ===== verification/MemIter.v ===== *)
(** * MemIter: the read iterator of a memtable

    [MemMerge] ([memtable.rs]) merges one cursor per shard.  Unlike the merge
    of a scan it turns in place: [flip_to_forward] and [flip_to_backward] move
    the other cursors to the side of the current entry.  It breaks no ties,
    since no two shards hold the same internal key.

    [iterators_agree] shows the claim of the source: any interleaving of calls
    matches a random-access cursor over the sorted entries; [mem_cursor] makes
    the merge a child of a scan. *)

From Stdlib Require Import ZArith Lia Sorted.
From Stdlib.Strings Require Import Byte.
From stdpp Require Import base list sets sorting.
From S2P Require Import Prelude Encoding Codec Comparator Format RangeTombstone ReadPath Heap Cursor Merge.

Open Scope Z_scope.

Record MemMerge := mkMemMerge {
  mm_shards : list ShardCur;
  mm_heap : list nat;
  mm_forward : bool;  (* [dir >= 0] *)
  mm_cmp : Comparator;
}.

(** [MemMerge::new] over the maps of the shards. *)
Definition mem_merge_new (cmp : Comparator) (maps : list (list Entry)) : MemMerge :=
  mkMemMerge (map (fun es => mkShardCur es None) maps) [] true cmp.

Definition shard_valid (c : ShardCur) : bool := if sc_cur c is Some _ then true else false.

Definition shard_entry (shards : list ShardCur) (i : nat) : Entry :=
  match shards !! i with Some c => default no_entry (p ← sc_cur c; sc_map c !! p) | None => no_entry end.

Definition mem_before (cmp : Comparator) (forward : bool) (shards : list ShardCur) (a b : nat) : bool :=
  let x := shard_entry shards a in
  let y := shard_entry shards b in
  let ord := then_with (merge_key_cmp cmp (e_key x) (e_key y)) (e_seq y ?= e_seq x) in
  if forward then is_lt ord else is_gt ord.

(** [rebuild], after the cursors and the direction have been set. *)
Definition mem_rebuild (forward : bool) (shards : list ShardCur) (m : MemMerge) : MemMerge :=
  let valid := List.filter (fun i => match shards !! i with Some c => shard_valid c | None => false end) (List.seq 0 (length shards)) in
  mkMemMerge shards (heapify (mem_before (mm_cmp m) forward shards) valid) forward (mm_cmp m).

Definition mem_first (m : MemMerge) : MemMerge :=
  mem_rebuild true (map (fun c => shard_move (map_front (sc_map c)) c) (mm_shards m)) m.
Definition mem_last (m : MemMerge) : MemMerge :=
  mem_rebuild false (map (fun c => shard_move (map_back (sc_map c)) c) (mm_shards m)) m.
Definition mem_ge (k : key) (s : Z) (m : MemMerge) : MemMerge :=
  mem_rebuild true (map (shard_seek_ge (mm_cmp m) k s) (mm_shards m)) m.
Definition mem_le (k : key) (s : Z) (m : MemMerge) : MemMerge :=
  mem_rebuild false (map (shard_seek_le (mm_cmp m) k s) (mm_shards m)) m.

Definition settle_top (shards : list ShardCur) (m : MemMerge) : MemMerge :=
  let heap :=
    match mm_heap m with
    | idx :: _ => if match shards !! idx with Some c => negb (shard_valid c) | None => false end then remove_top (mm_heap m) else mm_heap m
    | [] => []
    end in
  mkMemMerge shards (match heap with [] => [] | _ => heap_down (mem_before (mm_cmp m) (mm_forward m) shards) (length heap) heap 0 end)
    (mm_forward m) (mm_cmp m).

(** The loops of the flips: every cursor but the top. *)
Definition flip_others (f : ShardCur -> ShardCur) (top : nat) (shards : list ShardCur) : list ShardCur :=
  imap (fun i c => if (i =? top)%nat then c else f c) shards.

Definition flip_to_forward (top : nat) (m : MemMerge) : MemMerge :=
  let probe := shard_entry (mm_shards m) top in
  let shards := flip_others (shard_seek_gt (mm_cmp m) (e_key probe) (e_seq probe)) top (mm_shards m) in
  mem_rebuild true (alter step_next top shards) m.

Definition flip_to_backward (top : nat) (m : MemMerge) : MemMerge :=
  let probe := shard_entry (mm_shards m) top in
  let shards := flip_others (shard_seek_lt (mm_cmp m) (e_key probe) (e_seq probe)) top (mm_shards m) in
  mem_rebuild false (alter step_prev top shards) m.

Definition mem_next (m : MemMerge) : MemMerge :=
  match mm_heap m with
  | [] => m
  | idx :: _ => if mm_forward m then settle_top (alter step_next idx (mm_shards m)) m else flip_to_forward idx m
  end.

Definition mem_prev (m : MemMerge) : MemMerge :=
  match mm_heap m with
  | [] => m
  | idx :: _ => if mm_forward m then flip_to_backward idx m else settle_top (alter step_prev idx (mm_shards m)) m
  end.

Definition mem_valid (m : MemMerge) : bool := match mm_heap m with [] => false | _ => true end.

Definition mem_top (m : MemMerge) : Entry := match mm_heap m with i :: _ => shard_entry (mm_shards m) i | [] => no_entry end.

(** The surface of [LazyMemIter]. *)
Definition mem_ops : CursorOps MemMerge := {|
  cur_valid := mem_valid;
  cur_err _ := None;
  cur_entry := mem_top;
  cur_first := mem_first;
  cur_last := mem_last;
  cur_next := mem_next;
  cur_prev := mem_prev;
  cur_ge := mem_ge;
  cur_le := mem_le;
|}.

(** The calls of an iterator, and any cursor under them. *)
Inductive Call := CFirst | CLast | CSeekGe (k : key) (s : Z) | CSeekLe (k : key) (s : Z) | CNext | CPrev.

Definition call `{CursorOps C} (c : C) (a : Call) : C :=
  match a with
  | CFirst => cur_first c
  | CLast => cur_last c
  | CSeekGe k s => cur_ge k s c
  | CSeekLe k s => cur_le k s c
  | CNext => cur_next c
  | CPrev => cur_prev c
  end.

Definition shown `{CursorOps C} (c : C) : option Entry := if cur_valid c then Some (cur_entry c) else None.

(** ** As the merge of a scan *)

(** Heaps under orders that agree on their elements. *)
Section Congruence.
Context (before before' : nat -> nat -> bool).

Lemma heap_before_cong h i j : (forall a b, a ∈ h -> b ∈ h -> before a b = before' a b) -> heap_before before h i j = heap_before before' h i j.
Proof.
  intros Hb. unfold heap_before. destruct (h !! i) as [a|] eqn:Ea; [|done]. destruct (h !! j) as [b|] eqn:Eb; [|done].
  apply Hb; by eapply list_elem_of_lookup_2.
Qed.

Lemma best_of_cong h i : (forall a b, a ∈ h -> b ∈ h -> before a b = before' a b) -> best_of before h i = best_of before' h i.
Proof. intros Hb. unfold best_of. by rewrite !(heap_before_cong h) by done. Qed.

Lemma heap_down_cong fuel h i : (forall a b, a ∈ h -> b ∈ h -> before a b = before' a b) -> heap_down before fuel h i = heap_down before' fuel h i.
Proof.
  revert h i. induction fuel as [|fuel IH]; intros h i Hb; cbn; [done|]. rewrite best_of_cong by done. destruct (_ =? _)%nat; [done|].
  apply IH. intros a b. rewrite swap_Permutation. apply Hb.
Qed.

Lemma heap_down_Permutation fuel h i : heap_down before fuel h i ≡ₚ h.
Proof.
  revert h i. induction fuel as [|fuel IH]; intros h i; cbn; [done|]. destruct (_ =? _)%nat; [done|]. by rewrite IH, swap_Permutation.
Qed.

Lemma heapify_cong h : (forall a b, a ∈ h -> b ∈ h -> before a b = before' a b) -> heapify before h = heapify before' h.
Proof.
  intros Hb. unfold heapify. destruct (1 <? length h)%nat; [|done]. generalize (rev (List.seq 0 (length h / 2))). intros l. revert h Hb.
  induction l as [|i l IH]; intros h Hb; cbn; [done|]. rewrite <- heap_down_cong by done. apply IH. intros a b. rewrite heap_down_Permutation. apply Hb.
Qed.
End Congruence.

(** The merge of a scan in the same state. *)
Definition as_merging (m : MemMerge) : MergingIter ShardCur := mkMerging (mm_shards m) (mm_heap m) (mm_forward m) (mm_cmp m) None.

Section Simulate.
Context (cmp : Comparator) `{!TotalOrder cmp}.
#[local] Hint Extern 0 (CursorOps ShardCur) => exact (shard_ops cmp) : typeclass_instances.

(** No two cursors stand on the same internal key. *)
Definition no_ties (shards : list ShardCur) : Prop :=
  forall i j c d, shards !! i = Some c -> shards !! j = Some d -> i <> j -> shard_valid c = true -> shard_valid d = true ->
  (e_key (shard_entry shards i), e_seq (shard_entry shards i)) <> (e_key (shard_entry shards j), e_seq (shard_entry shards j)).

Lemma mem_before_child shards forward a b :
  no_ties shards -> a ∈ valid_indices shards -> b ∈ valid_indices shards -> mem_before cmp forward shards a b = child_before cmp forward shards a b.
Proof.
  intros Hn (c & Ec & Hc)%elem_of_valid_indices (d & Ed & Hd)%elem_of_valid_indices.
  unfold mem_before, child_before, tag_before. cbn [fst snd]. change (child_entry shards a) with (shard_entry shards a). change (child_entry shards b) with (shard_entry shards b).
  destruct (then_with _ _) eqn:E; [|done..]. destruct (decide (a = b)) as [->|Hab]; [rewrite Nat.ltb_irrefl; by destruct forward|]. exfalso.
  apply (Hn a b c d Ec Ed Hab Hc Hd). rewrite (merge_key_cmp_eq cmp) in E. destruct (compare cmp _ _) eqn:E1; [cbn in E; rename E into E2|done..]. apply (kcompare_eq cmp) in E1. apply Z.compare_eq in E2. congruence.
Qed.

Lemma mem_rebuild_merging forward shards m :
  mm_cmp m = cmp -> no_ties shards -> as_merging (mem_rebuild forward shards m) = rebuild forward shards (as_merging m).
Proof.
  intros Hc Hn. unfold as_merging, mem_rebuild, rebuild. cbn [mm_shards mm_heap mm_forward mm_cmp m_cmp m_err]. rewrite Hc. f_equal.
  - apply heapify_cong. intros a b Ha Hb. by apply mem_before_child.
  - symmetry. apply note_invalid_fold. by split.
Qed.

Lemma settled_heap (f : ShardCur -> ShardCur) (shards : list ShardCur) i h c :
  (i :: h) ≡ₚ valid_indices shards -> shards !! i = Some c ->
  (if negb (shard_valid (f c)) then remove_top (i :: h) else i :: h) ≡ₚ valid_indices (alter f i shards).
Proof.
  intros HP Hi. assert (shard_valid c = true) as Hv.
  { assert (i ∈ valid_indices shards) as Hin by (rewrite <- HP; left). apply elem_of_valid_indices in Hin as (c' & Hc' & ?). rewrite Hi in Hc'. by injection Hc' as <-. }
  pose proof (valid_alter f shards i c Hi Hv) as HV. change (cur_valid (f c)) with (shard_valid (f c)) in HV.
  destruct (shard_valid (f c)); cbn [negb]; [by rewrite HV|]. rewrite remove_top_Permutation. apply (Permutation_cons_inv (a := i)). by rewrite HV.
Qed.

Lemma settle_top_merging forward m idx h :
  mm_cmp m = cmp -> mm_forward m = forward -> mm_heap m = idx :: h -> mm_heap m ≡ₚ valid_indices (mm_shards m) ->
  let shards := alter (cur_step forward) idx (mm_shards m) in
  no_ties shards -> as_merging (settle_top shards m) = merge_advance forward (as_merging m).
Proof.
  intros Hc Hf Eh HP shards Hn. unfold as_merging, settle_top, merge_advance. cbn [mm_shards mm_heap mm_forward mm_cmp m_children m_heap m_forward m_cmp m_err].
  rewrite Eh, Hc, Hf in *. fold shards. assert (idx ∈ valid_indices (mm_shards m)) as (c & Ec & Hv)%elem_of_valid_indices by (rewrite <- HP; left).
  pose proof (list_lookup_alter_eq (cur_step forward) (mm_shards m) idx) as Ea. rewrite Ec in Ea. cbn [fmap option_fmap option_map] in Ea. fold shards in Ea. rewrite Ea.
  pose proof (settled_heap (cur_step forward) (mm_shards m) idx h c HP Ec) as Hs. fold shards in Hs.
  change (cur_valid (cur_step forward c)) with (shard_valid (cur_step forward c)). f_equal; [|by destruct (negb _)].
  destruct (if negb _ then _ else _) as [|x l]; [done|]. apply heap_down_cong. intros a b Ha Hb. rewrite Hs in Ha, Hb. by apply mem_before_child.
Qed.

(** ** The shards against the sorted entries *)

Lemma same_place es x y : run_sorted cmp es -> x ∈ es -> y ∈ es -> e_key x = e_key y -> e_seq x = e_seq y -> x = y.
Proof.
  induction 1 as [|z es Hs IH HF]; [by intros ?%elem_of_nil|]. rewrite Forall_forall in HF.
  assert (forall w, w ∈ es -> e_key w = e_key z -> e_seq w = e_seq z -> False) as Hz.
  { intros w Hw Ek Eq. destruct (HF w Hw) as [Hlt|[_ Hlt]]; [korder|lia]. }
  intros [->|Hx]%elem_of_cons [->|Hy]%elem_of_cons Ek Eq; [done|by destruct (Hz y)|by destruct (Hz x)|by apply IH].
Qed.

Lemma run_NoDup es : run_sorted cmp es -> NoDup es.
Proof.
  induction 1 as [|z es Hs IH HF]; constructor; [|done]. intros Hz. rewrite Forall_forall in HF. destruct (HF z Hz) as [Hlt|[_ Hlt]]; [by apply (klt_irrefl cmp) in Hlt|lia].
Qed.

Lemma concat_apart {A} (ls : list (list A)) i j a b x : NoDup (concat ls) -> ls !! i = Some a -> ls !! j = Some b -> i <> j -> x ∈ a -> x ∈ b -> False.
Proof.
  revert i j. induction ls as [|l ls IH]; intros i j Hn Hi Hj Hij Ha Hb; [done|]. cbn in Hn. apply NoDup_app in Hn as (_ & Hd & Hn).
  destruct i as [|i], j as [|j]; cbn in Hi, Hj; [done|..].
  - injection Hi as ->. apply (Hd x Ha), elem_of_concat. exists b. split; [by eapply list_elem_of_lookup_2|done].
  - injection Hj as ->. apply (Hd x Hb), elem_of_concat. exists a. split; [by eapply list_elem_of_lookup_2|done].
  - apply (IH i j); congruence || done.
Qed.

Context (es : list Entry) (runs : list (list Entry)).
Context (es_sorted : run_sorted cmp es) (runs_sorted : Forall (run_sorted cmp) runs) (same_entries : es ≡ₚ concat runs).

Lemma tag_lt_entry forward x y :
  tag_lt cmp forward x y -> rem_lt cmp forward (snd x) (snd y) \/ (e_key (snd x) = e_key (snd y) /\ e_seq (snd x) = e_seq (snd y)).
Proof.
  unfold tag_lt, tag_cmp, place_cmp, pair_cmp, place, rem_lt, entry_lt. cbn. destruct forward.
  - destruct (compare cmp (e_key (snd x)) (e_key (snd y))) eqn:E; cbn; [|by intros _; left; left|done]. apply (kcompare_eq cmp) in E.
    destruct (Z.compare_spec (e_seq (snd y)) (e_seq (snd x))); cbn; [by right|by left; right|done].
  - destruct (compare cmp (e_key (snd y)) (e_key (snd x))) eqn:E; cbn; [|by intros _; left; left|done]. apply (kcompare_eq cmp) in E.
    destruct (Z.compare_spec (e_seq (snd x)) (e_seq (snd y))); cbn; [by right|by left; right|done].
Qed.

Lemma all_ahead_flat forward : map snd (all_ahead cmp forward runs) = if forward then es else reverse es.
Proof.
  destruct (all_ahead_spec cmp runs runs_sorted forward) as [Hs HP].
  assert (HPe : map snd (all_ahead cmp forward runs) ≡ₚ es) by (rewrite HP, same_entries; unfold tagged; by rewrite tagged_snd).
  set (R a b := rem_lt cmp forward a b \/ (e_key a = e_key b /\ e_seq a = e_seq b)).
  apply (StronglySorted_unique_strong R).
  - intros x y Hx Hy Hxy Hyx. rewrite HPe in Hx. assert (y ∈ es) as Hy' by (destruct forward; [done|by rewrite reverse_Permutation in Hy]).
    assert (~ (rem_lt cmp forward x y /\ rem_lt cmp forward y x)) as Hn.
    { unfold rem_lt, entry_lt. destruct forward; intros [[H1|[E1 H1]] [H2|[E2 H2]]]; try lia; korder. }
    unfold R in *. destruct Hxy as [Hxy|[? ?]], Hyx as [Hyx|[? ?]]; [naive_solver|by apply (same_place es)..].
  - eapply StronglySorted_map; [|exact Hs]. apply tag_lt_entry.
  - eapply (StronglySorted_impl (rem_lt cmp forward)); [by left|]. destruct forward; [done|]. by apply StronglySorted_reverse.
  - rewrite HPe. destruct forward; [done|]. by rewrite reverse_Permutation.
Qed.

(** Every cursor where a seek put it: what is ahead is a part of the whole. *)
Lemma ahead_flat forward q :
  map snd (ahead cmp forward (map (fun r => if forward then List.filter q r else reverse (List.filter q r)) runs)) =
  if forward then List.filter q es else reverse (List.filter q es).
Proof.
  rewrite (ahead_filter cmp runs runs_sorted). transitivity (List.filter q (map snd (all_ahead cmp forward runs))).
  - generalize (all_ahead cmp forward runs). intros l. induction l as [|x l IH]; cbn; [done|]. destruct (q (snd x)); cbn; by rewrite IH.
  - rewrite all_ahead_flat. destruct forward; [done|]. unfold reverse. by rewrite <- !rev_alt, List.filter_rev.
Qed.

Lemma runs_apart i j a b x y : runs !! i = Some a -> runs !! j = Some b -> i <> j -> x ∈ a -> y ∈ b -> (e_key x, e_seq x) <> (e_key y, e_seq y).
Proof.
  intros Hi Hj Hij Hx Hy [= Ek Eq]. assert (forall r z, r ∈ runs -> z ∈ r -> z ∈ es) as Hin by (intros r z Hr Hz; rewrite same_entries; apply elem_of_concat; eauto).
  assert (x = y) as <- by (apply (same_place es); try done; [eapply (Hin a)|eapply (Hin b)]; try done; by eapply list_elem_of_lookup_2).
  apply (concat_apart runs i j a b x); try done. rewrite <- same_entries. by apply run_NoDup.
Qed.

(** Cursors on their runs. *)
Definition shards_on (shards : list ShardCur) : Prop := Forall2 (fun r c => exists p, shard_on r p c) runs shards.

Lemma shard_entry_in shards i c : shards_on shards -> shards !! i = Some c -> shard_valid c = true -> exists r, runs !! i = Some r /\ shard_entry shards i ∈ r.
Proof.
  intros Hon Hi Hv. destruct (Forall2_lookup_r _ _ _ _ _ Hon Hi) as (r & Hr & p & Em & Ep & Hp). exists r. split; [done|].
  unfold shard_entry. rewrite Hi, Ep, Em. unfold shard_valid in Hv. rewrite Ep in Hv. destruct p as [n|]; [|done]. cbn.
  destruct (lookup_lt_is_Some_2 r n (Hp n eq_refl)) as [e He]. rewrite He. by eapply list_elem_of_lookup_2.
Qed.

Lemma shards_no_ties shards : shards_on shards -> no_ties shards.
Proof.
  intros Hon i j c d Hi Hj Hij Hc Hd. destruct (shard_entry_in shards i c Hon Hi Hc) as (a & Ha & Hx). destruct (shard_entry_in shards j d Hon Hj Hd) as (b & Hb & Hy).
  by apply (runs_apart i j a b).
Qed.

(** Two places with the same entries ahead are the same. *)
Lemma rem_inj r forward p q : (forall i, p = Some i -> (i < length r)%nat) -> (forall i, q = Some i -> (i < length r)%nat) -> rem forward r p = rem forward r q -> p = q.
Proof.
  intros Hp Hq E. apply (f_equal length) in E.
  assert (forall p, (forall i, p = Some i -> (i < length r)%nat) ->
    length (rem forward r p) = match p with Some i => if forward then length r - i else S i | None => 0 end)%nat as Hl.
  { intros [i|] Hi; [|done]. specialize (Hi i eq_refl). destruct forward; cbn [rem]; [by rewrite length_drop|rewrite length_reverse, length_take; lia]. }
  rewrite (Hl p Hp), (Hl q Hq) in E. destruct p as [i|], q as [j|]; try specialize (Hp _ eq_refl); try specialize (Hq _ eq_refl); destruct forward; f_equal; (lia || done).
Qed.

(** The entries on either side of one. *)
Lemma sides r i e (f := fun x => entry_cmp cmp x (e_key e) (e_seq e)) : run_sorted cmp r -> r !! i = Some e ->
  List.filter (fun x => negb (is_le (f x))) r = drop (S i) r /\ List.filter (fun x => is_lt (f x)) r = take i r.
Proof.
  intros Hs Hi. rewrite <- (take_drop_middle r i e Hi) in Hs. apply StronglySorted_app in Hs as (H12 & _ & H2). apply StronglySorted_inv in H2 as [_ H2]. rewrite Forall_forall in H2.
  assert (forall x, x ∈ take i r -> is_lt (f x) = true /\ is_le (f x) = true) as Hb.
  { intros x Hx. specialize (H12 x e Hx ltac:(left)). split; [by apply (entry_cmp_lt cmp)|apply (entry_cmp_le cmp)]. destruct H12 as [?|[? ?]]; [by left|right; split; [done|lia]]. }
  assert (forall x, x ∈ drop (S i) r -> is_lt (f x) = false /\ is_le (f x) = false) as Ha.
  { intros x Hx. specialize (H2 x Hx). unfold f. split; apply not_true_iff_false; [rewrite (entry_cmp_lt cmp)|rewrite (entry_cmp_le cmp)]; intros [Hk|[Ek Hk]]; destruct H2 as [?|[? ?]]; try lia; korder. }
  assert (is_lt (f e) = false /\ is_le (f e) = true) as [E1 E2].
  { unfold f, entry_cmp. rewrite (ol_refl _ _ total_laws), Z.compare_refl. done. }
  rewrite <- (take_drop_middle r i e Hi) at 1 3. rewrite !List.filter_app. cbn [List.filter]. rewrite E1, E2. cbn [negb]. split.
  - rewrite (filter_none _ (take i r)), (filter_all _ (drop (S i) r)); [done| |]; apply Forall_forall; intros x Hx; [by destruct (Ha x Hx) as [_ ->]|by destruct (Hb x Hx) as [_ ->]].
  - rewrite (filter_all _ (take i r)), (filter_none _ (drop (S i) r)), app_nil_r; [done| |]; apply Forall_forall; intros x Hx; [by apply Ha|by apply Hb].
Qed.

(** The merge stands at [p] of the sorted entries. *)
Record mm_on (p : option nat) (m : MemMerge) : Prop := {
  mo_cmp : mm_cmp m = cmp;
  mo_range : forall i, p = Some i -> (i < length es)%nat;
  mo_shards : shards_on (mm_shards m);
  mo_at : exists l, merge_at cmp (mm_forward m) runs (as_merging m) l /\ map snd l = rem (mm_forward m) es p;
}.

Definition part (forward : bool) (q : Entry -> bool) (r : list Entry) : list Entry := if forward then List.filter q r else reverse (List.filter q r).

Lemma mm_rebuild forward f q m p :
  mm_on p m ->
  (forall r c, run_sorted cmp r -> (exists p, shard_on r p c) -> exists p, shard_on r p (f c) /\ rem forward r p = part forward q r) ->
  exists p', mm_on p' (mem_rebuild forward (map f (mm_shards m)) m) /\ rem forward es p' = part forward q es.
Proof.
  intros Hm Hf. destruct (Hf es (mkShardCur es None) es_sorted) as (p' & (_ & _ & Hr) & Hp'); [by exists None|]. exists p'. split; [|done].
  assert (shards_on (map f (mm_shards m))) as Hon.
  { pose proof (mo_shards _ _ Hm) as Hs. unfold shards_on in *. clear -Hs Hf runs_sorted.
    induction Hs as [|r c rs cs Hc _ IH]; cbn; constructor; [|apply IH; by apply Forall_cons in runs_sorted as [_ ?]].
    apply Forall_cons in runs_sorted as [Hr _]. destruct (Hf r c Hr Hc) as (p & ? & _). eauto. }
  pose proof (mem_rebuild_merging forward _ m (mo_cmp _ _ Hm) (shards_no_ties _ Hon)) as E.
  constructor; [apply Hm|done|done|]. exists (ahead cmp forward (map (part forward q) runs)). split; [|transitivity (part forward q es); [apply ahead_flat|done]].
  change (mm_forward _) with forward. rewrite E. destruct (rebuild_spec cmp forward f (part forward q) (run_sorted cmp)) with (runs := runs) (m := as_merging m) as [?|(_ & ? & ? & _ & [])]; try done.
  - intros r c Hs Hc. left. by apply Hf.
  - apply Hm.
  - apply Hm.
Qed.

Lemma mm_none m p : mm_on p m -> mm_heap m = [] <-> p = None.
Proof.
  intros Hm. destruct (mo_at _ _ Hm) as (l & Hat & El). pose proof (merge_top_ahead _ _ _ _ _ Hat runs_sorted) as Ht. cbn [m_heap as_merging] in Ht. split.
  - intros Eh. rewrite Eh in Ht. subst l. destruct p as [i|]; [|done]. exfalso. destruct (lookup_lt_is_Some_2 es i (mo_range _ _ Hm i eq_refl)) as [e He].
    destruct (rem_head (mm_forward m) es i e He) as [r Er]. by rewrite Er in El.
  - intros ->. destruct (mm_heap m); [done|]. destruct Ht as (l' & ->). done.
Qed.

Lemma mm_top m i : mm_on (Some i) m -> exists idx h, mm_heap m = idx :: h /\ es !! i = Some (shard_entry (mm_shards m) idx).
Proof.
  intros Hm. destruct (mo_at _ _ Hm) as (l & Hat & El). pose proof (merge_top_ahead _ _ _ _ _ Hat runs_sorted) as Ht. cbn [m_heap m_children as_merging] in Ht.
  destruct (mm_heap m) as [|idx h] eqn:Eh; [by apply (mm_none m (Some i) Hm) in Eh|]. exists idx, h. split; [done|]. destruct Ht as (l' & ->).
  destruct (lookup_lt_is_Some_2 es i (mo_range _ _ Hm i eq_refl)) as [e He]. destruct (rem_head (mm_forward m) es i e He) as [r Er]. rewrite Er in El. cbn in El. by injection El as <- _.
Qed.

(** Turning: the top steps to where the seek puts the others. *)
Lemma gt_on k s r c : run_sorted cmp r -> (exists p, shard_on r p c) ->
  exists p, shard_on r p (shard_seek_gt cmp k s c) /\ rem true r p = List.filter (fun x => negb (is_le (entry_cmp cmp x k s))) r.
Proof.
  intros Hs (p & Em & _). unfold shard_seek_gt. rewrite Em. exists (map_lower (fun e => is_le (entry_cmp cmp e k s)) r). split.
  - split; [done|]. split; [done|]. apply map_lower_lt.
  - apply (map_lower_rem cmp); [done|]. apply entry_cmp_le_closed; exact _.
Qed.

Lemma lt_on k s r c : run_sorted cmp r -> (exists p, shard_on r p c) ->
  exists p, shard_on r p (shard_seek_lt cmp k s c) /\ rem false r p = reverse (List.filter (fun x => is_lt (entry_cmp cmp x k s)) r).
Proof.
  intros Hs (p & Em & _). unfold shard_seek_lt. rewrite Em. exists (map_upper (fun e => is_lt (entry_cmp cmp e k s)) r). split.
  - split; [done|]. split; [done|]. apply map_upper_lt.
  - apply (map_upper_rem cmp); [done|]. apply entry_cmp_lt_closed; exact _.
Qed.

Lemma shard_eq r c d p q forward : shard_on r p c -> shard_on r q d -> rem forward r p = rem forward r q -> c = d.
Proof.
  intros (Ec & Ep & Hp) (Ed & Eq & Hq) E. destruct c as [mc cc], d as [md cd]. cbn in *. subst. f_equal. by apply (rem_inj r forward).
Qed.

Lemma step_is_seek (forward : bool) r n c e :
  run_sorted cmp r -> shard_on r (Some n) c -> r !! n = Some e ->
  (if forward then step_next c else step_prev c) = (if forward then shard_seek_gt cmp else shard_seek_lt cmp) (e_key e) (e_seq e) c.
Proof.
  intros Hs Hc He. destruct (sides r n e Hs He) as [Ea Eb].
  destruct (on_step (Cursor := shard_cursor cmp) r n c forward Hc) as [(p & Hp & Er)|[]]. destruct forward; cbn [cur_step cur_next cur_prev shard_ops] in Hp.
  - destruct (gt_on (e_key e) (e_seq e) r c Hs) as (q & Hq & Er'); [eauto|]. apply (shard_eq r _ _ p q true Hp Hq). rewrite Er, Er', Ea. by rewrite (rem_forward _ _ _ He).
  - destruct (lt_on (e_key e) (e_seq e) r c Hs) as (q & Hq & Er'); [eauto|]. apply (shard_eq r _ _ p q false Hp Hq). rewrite Er, Er', Eb. by rewrite (rem_backward _ _ _ He).
Qed.

Lemma flip_is_seek (forward : bool) f top shards c n r e :
  f = (if forward then shard_seek_gt cmp else shard_seek_lt cmp) (e_key e) (e_seq e) ->
  shards !! top = Some c -> run_sorted cmp r -> shard_on r (Some n) c -> r !! n = Some e ->
  alter (if forward then step_next else step_prev) top (flip_others f top shards) = map f shards.
Proof.
  intros Ef Ht Hs Hc He. apply list_eq. intros j. rewrite list_lookup_fmap. destruct (decide (j = top)) as [->|Hj].
  - rewrite list_lookup_alter_eq. unfold flip_others. rewrite list_lookup_imap, Ht. cbn. rewrite Nat.eqb_refl. f_equal. rewrite Ef.
    pose proof (step_is_seek forward r n c e Hs Hc He) as E. by destruct forward.
  - rewrite list_lookup_alter_ne by done. unfold flip_others. rewrite list_lookup_imap. destruct (shards !! j); [|done]. cbn. by rewrite (proj2 (Nat.eqb_neq j top) Hj).
Qed.

(** Stepping from a position. *)
Lemma mm_turn (forward : bool) m i idx h :
  mm_on (Some i) m -> mm_heap m = idx :: h -> mm_forward m = negb forward ->
  let m' := (if forward then flip_to_forward idx m else flip_to_backward idx m) in
  exists p, mm_on p m' /\ rem forward es p = tail (rem forward es (Some i)).
Proof.
  intros Hm Eh Hd. destruct (mm_top m i Hm) as (idx' & h' & Eh' & He). rewrite Eh in Eh'. injection Eh' as <- <-. destruct (mo_at _ _ Hm) as (l & Hat & _).
  assert (idx ∈ valid_indices (mm_shards m)) as (c & Ec & Hv)%elem_of_valid_indices.
  { pose proof (ma_heap _ _ _ _ _ Hat) as HP. cbn in HP. rewrite <- HP, Eh. left. }
  destruct (Forall2_lookup_r _ _ _ _ _ (mo_shards _ _ Hm) Ec) as (r & Hr & p & Hc). destruct p as [n|]; [|destruct Hc as (_ & E & _); cbn in Hv; by rewrite E in Hv].
  destruct (on_some (Cursor := shard_cursor cmp) r n c Hc) as [_ Hn].
  assert (Ee : shard_entry (mm_shards m) idx = cur_entry c) by (unfold shard_entry; by rewrite Ec). rewrite <- Ee in Hn.
  assert (Hrs : run_sorted cmp r) by (rewrite Forall_forall in runs_sorted; apply runs_sorted; by eapply list_elem_of_lookup_2).
  destruct (sides es i _ es_sorted He) as [Ea Eb]. pose proof (mo_cmp _ _ Hm) as Hcmp.
  destruct forward; cbn zeta; unfold flip_to_forward, flip_to_backward; rewrite Hcmp.
  - rewrite (flip_is_seek true _ idx (mm_shards m) c n r _ eq_refl Ec Hrs Hc Hn). rewrite (rem_forward _ _ _ He). cbn [tail]. rewrite <- Ea.
    apply (mm_rebuild true _ _ m (Some i) Hm). intros r' c' Hr' Hc'. by apply gt_on.
  - rewrite (flip_is_seek false _ idx (mm_shards m) c n r _ eq_refl Ec Hrs Hc Hn). rewrite (rem_backward _ _ _ He). cbn [tail]. rewrite <- Eb.
    apply (mm_rebuild false _ _ m (Some i) Hm). intros r' c' Hr' Hc'. by apply lt_on.
Qed.

Lemma mm_advance (forward : bool) m i idx h :
  mm_on (Some i) m -> mm_heap m = idx :: h -> mm_forward m = forward ->
  exists p, mm_on p (settle_top (alter (cur_step forward) idx (mm_shards m)) m) /\ rem forward es p = tail (rem forward es (Some i)).
Proof.
  intros Hm Eh Hd. destruct (mo_at _ _ Hm) as (l & Hat & El). rewrite Hd in *. pose proof (ma_heap _ _ _ _ _ Hat) as HP. cbn [m_heap m_children as_merging] in HP.
  assert (idx ∈ valid_indices (mm_shards m)) as (c & Ec & Hv)%elem_of_valid_indices by (rewrite <- HP, Eh; left).
  destruct (on_step (Cursor := shard_cursor cmp) es i (mkShardCur es (Some i)) forward) as [(p & (_ & _ & Hp) & Er)|[]].
  { split; [done|]. split; [done|]. apply (mo_range _ _ Hm). }
  exists p. split; [|done]. assert (shards_on (alter (cur_step forward) idx (mm_shards m))) as Hon.
  { apply Forall2_same_length_lookup. split; [rewrite length_alter; by apply (Forall2_length _ _ _ (mo_shards _ _ Hm))|].
    intros j r d Hr Hj. destruct (decide (j = idx)) as [->|Hn].
    - rewrite list_lookup_alter_eq, Ec in Hj. injection Hj as <-. destruct (Forall2_lookup_lr _ _ _ _ _ _ (mo_shards _ _ Hm) Hr Ec) as (q & Hq).
      destruct q as [n|]; [|destruct Hq as (_ & E & _); cbn in Hv; by rewrite E in Hv].
      destruct (on_step (Cursor := shard_cursor cmp) r n c forward Hq) as [(q' & ? & _)|[]]. eauto.
    - rewrite list_lookup_alter_ne in Hj by done. by apply (Forall2_lookup_lr _ _ _ _ _ _ (mo_shards _ _ Hm) Hr Hj). }
  pose proof (settle_top_merging forward m idx h (mo_cmp _ _ Hm) Hd Eh HP (shards_no_ties _ Hon)) as E. cbn zeta in E.
  constructor; [apply Hm|done|done|]. change (mm_forward (settle_top _ m)) with (mm_forward m). rewrite Hd, E.
  destruct l as [|[j e] l]; [destruct (mm_top m i Hm) as (? & ? & ? & He); destruct (rem_head forward es i _ He) as [r Er']; by rewrite Er' in El|].
  destruct (merge_advance_spec cmp forward runs (as_merging m) j e l Hat runs_sorted) as [Hat'|(_ & ? & ? & _ & [])]. exists l. split; [done|].
  rewrite Er, <- El. done.
Qed.

(** ** Each call moves as a cursor over the sorted entries *)

Lemma mm_step (forward : bool) m i : mm_on (Some i) m ->
  exists p, mm_on p (if forward then mem_next m else mem_prev m) /\ rem forward es p = tail (rem forward es (Some i)).
Proof.
  intros Hm. destruct (mm_top m i Hm) as (idx & h & Eh & _). unfold mem_next, mem_prev. rewrite Eh.
  destruct forward, (mm_forward m) eqn:Ef.
  - by apply (mm_advance true m i idx h).
  - by apply (mm_turn true m i idx h).
  - by apply (mm_turn false m i idx h).
  - by apply (mm_advance false m i idx h).
Qed.

Lemma part_all forward r : part forward (fun _ => true) r = if forward then r else reverse r.
Proof. unfold part. rewrite filter_all; [done|]. by apply Forall_forall. Qed.

Lemma mm_first m p : mm_on p m -> exists p', mm_on p' (mem_first m) /\ rem true es p' = es.
Proof.
  intros Hm. destruct (mm_rebuild true (fun c => shard_move (map_front (sc_map c)) c) (fun _ => true) m p Hm) as (p' & H' & E'); [|exists p'; by rewrite E', part_all].
  intros r c _ Hc. rewrite part_all. by destruct (on_first (Cursor := shard_cursor cmp) r c (or_introl Hc)) as [?|[]].
Qed.

Lemma mm_last m p : mm_on p m -> exists p', mm_on p' (mem_last m) /\ rem false es p' = reverse es.
Proof.
  intros Hm. destruct (mm_rebuild false (fun c => shard_move (map_back (sc_map c)) c) (fun _ => true) m p Hm) as (p' & H' & E'); [|exists p'; by rewrite E', part_all].
  intros r c _ Hc. rewrite part_all. by destruct (on_last (Cursor := shard_cursor cmp) r c (or_introl Hc)) as [?|[]].
Qed.

Lemma mm_ge k s m p : mm_on p m -> exists p', mm_on p' (mem_ge k s m) /\ rem true es p' = List.filter (at_or_after cmp k s) es.
Proof.
  intros Hm. unfold mem_ge. rewrite (mo_cmp _ _ Hm). apply (mm_rebuild true _ (at_or_after cmp k s) m p Hm).
  intros r c Hr Hc. by destruct (on_ge (Cursor := shard_cursor cmp) r c k s Hr (or_introl Hc)) as [?|[]].
Qed.

Lemma mm_le k s m p : mm_on p m -> exists p', mm_on p' (mem_le k s m) /\ rem false es p' = reverse (List.filter (at_or_before cmp k s) es).
Proof.
  intros Hm. unfold mem_le. rewrite (mo_cmp _ _ Hm). apply (mm_rebuild false _ (at_or_before cmp k s) m p Hm).
  intros r c Hr Hc. by destruct (on_le (Cursor := shard_cursor cmp) r c k s Hr (or_introl Hc)) as [?|[]].
Qed.

Lemma mm_new : mm_on None (mem_merge_new cmp runs).
Proof.
  constructor; [done|done| |].
  - unfold shards_on. cbn. clear. induction runs; cbn; constructor; [|done]. by exists None.
  - exists []. split; [|done]. assert (valid_indices (map (fun r => mkShardCur r None) runs) = []) as Ev.
    { apply filter_none, Forall_forall. intros j _. rewrite list_lookup_fmap. by destruct (runs !! j). }
    constructor; try done; cbn.
    + exists (map (fun _ => []) runs). split; [|rewrite tagged_nil; [done|by intros r (? & _ & <-)%elem_of_map]].
      * clear. induction runs; cbn; constructor; [|done]. by exists None.
    + constructor.
    + unfold valid_indices in Ev. cbn in Ev. by rewrite Ev.
Qed.
End Simulate.

(** ** A memtable's iterator is a cursor *)

Section Interface.
Context (cmp : Comparator) `{!TotalOrder cmp}.

(** At a place of the entries of all the shards. *)
Definition mem_on (es : list Entry) (p : option nat) (m : MemMerge) : Prop :=
  exists runs, run_sorted cmp es /\ Forall (run_sorted cmp) runs /\ es ≡ₚ concat runs /\ mm_on cmp es runs p m.

Lemma mem_on_lift es runs forward m X :
  run_sorted cmp es -> Forall (run_sorted cmp) runs -> es ≡ₚ concat runs ->
  (exists p, mm_on cmp es runs p m /\ rem forward es p = X) -> exists p, mem_on es p m /\ rem forward es p = X.
Proof. intros Hs Hr HP (p & Hm & E). exists p. split; [|done]. by exists runs. Qed.

#[export] Program Instance mem_cursor : @Cursor cmp MemMerge mem_ops := {| cur_on := mem_on; cur_dead _ _ := False |}.
Next Obligation. done. Qed.
Next Obligation.
  intros es m (runs & Hs & Hr & HP & Hm). cbn. unfold mem_valid. by rewrite (proj2 (mm_none cmp es runs Hr m None Hm) eq_refl).
Qed.
Next Obligation.
  intros es i m (runs & Hs & Hr & HP & Hm). cbn. unfold mem_valid, mem_top. destruct (mm_top cmp es runs Hr m i Hm) as (idx & h & -> & He). done.
Qed.
Next Obligation. done. Qed.
Next Obligation.
  intros es i m forward (runs & Hs & Hr & HP & Hm). left. apply (mem_on_lift es runs); try done.
  pose proof (mm_step cmp es runs Hs Hr HP forward m i Hm) as H. by destruct forward.
Qed.
Next Obligation.
  intros es m [[p (runs & Hs & Hr & HP & Hm)]|[]]. left. apply (mem_on_lift es runs); try done. by apply (mm_first cmp es runs Hs Hr HP m p).
Qed.
Next Obligation.
  intros es m [[p (runs & Hs & Hr & HP & Hm)]|[]]. left. apply (mem_on_lift es runs); try done. by apply (mm_last cmp es runs Hs Hr HP m p).
Qed.
Next Obligation.
  intros es m k s _ [[p (runs & Hs & Hr & HP & Hm)]|[]]. left. apply (mem_on_lift es runs); try done. by apply (mm_ge cmp es runs Hs Hr HP k s m p).
Qed.
Next Obligation.
  intros es m k s _ [[p (runs & Hs & Hr & HP & Hm)]|[]]. left. apply (mem_on_lift es runs); try done. by apply (mm_le cmp es runs Hs Hr HP k s m p).
Qed.

Lemma mem_new_on es maps :
  run_sorted cmp es -> Forall (run_sorted cmp) maps -> es ≡ₚ concat maps -> mem_on es None (mem_merge_new cmp maps).
Proof. intros Hs Hr HP. exists maps. split_and!; try done. by apply mm_new. Qed.

(** Two cursors of one run that do not fail, and stay where they are past an
    end, show the same under the same calls. *)
Section Together.
Context {C D : Type} `{COps : CursorOps C} `{!Cursor cmp C} `{DOps : CursorOps D} `{!Cursor cmp D}.
Context (es : list Entry) (es_sorted : run_sorted cmp es).
Context (c_alive : forall c : C, ~ cur_dead es c) (d_alive : forall d : D, ~ cur_dead es d).
Context (c_idle : forall f (c : C), cur_valid c = false -> cur_step f c = c) (d_idle : forall f (d : D), cur_valid d = false -> cur_step f d = d).

Definition together (c : C) (d : D) : Prop := exists p, cur_on es p c /\ cur_on es p d.

Lemma on_range `{Ops : CursorOps E} `{!Cursor cmp E} p (c : E) : cur_on es p c -> forall i, p = Some i -> (i < length es)%nat.
Proof. intros Hc i ->. apply on_some in Hc as [_ He]. by eapply lookup_lt_Some. Qed.

Lemma meet forward X (c : C) (d : D) :
  (exists p, cur_on es p c /\ rem forward es p = X) \/ cur_dead es c -> (exists p, cur_on es p d /\ rem forward es p = X) \/ cur_dead es d -> together c d.
Proof.
  intros [(p & Hc & Ep)|Hc] [(q & Hd & Eq)|Hd]; [|by destruct (d_alive d)|by destruct (c_alive c)|by destruct (c_alive c)].
  assert (p = q) as <- by (apply (rem_inj es forward); [exact (on_range p c Hc)|exact (on_range q d Hd)|congruence]). by exists p.
Qed.

Lemma together_call c d a : together c d -> together (call c a) (call d a).
Proof.
  intros (p & Hc & Hd). assert (forall forward, together (cur_step forward c) (cur_step forward d)) as Hstep.
  { intros forward. destruct p as [i|].
    - apply (meet forward (tail (rem forward es (Some i)))); by apply on_step.
    - rewrite (c_idle forward c (on_none _ _ Hc)), (d_idle forward d (on_none _ _ Hd)). by exists None. }
  destruct a; cbn [call]; [eapply meet..| |].
  - apply on_first. eauto.
  - apply on_first. eauto.
  - apply on_last. eauto.
  - apply on_last. eauto.
  - apply on_ge; eauto.
  - apply on_ge; eauto.
  - apply on_le; eauto.
  - apply on_le; eauto.
  - apply (Hstep true).
  - apply (Hstep false).
Qed.

Lemma together_shown c d calls : together c d -> shown (fold_left call calls c) = shown (fold_left call calls d).
Proof.
  revert c d. induction calls as [|a calls IH]; intros c d Hcd; cbn; [|by apply IH, together_call]. destruct Hcd as (p & Hc & Hd). unfold shown. destruct p as [i|].
  - apply on_some in Hc as [-> Ec]. apply on_some in Hd as [-> Ed]. congruence.
  - by rewrite (on_none _ _ Hc), (on_none _ _ Hd).
Qed.
End Together.
End Interface.

(** An iterator of a memtable under calls, and a cursor over the sorted entries. *)
Lemma iterators_agree cmp (TO : TotalOrder cmp) es m calls :
  run_sorted cmp es -> mem_on cmp es None m ->
  @shown _ mem_ops (fold_left (@call _ mem_ops) calls m) = @shown _ (shard_ops cmp) (fold_left (@call _ (shard_ops cmp)) calls (mkShardCur es None)).
Proof.
  intros Hs Hm. apply (together_shown cmp es Hs).
  - intros c [].
  - intros d [].
  - intros f c Hv. cbn in Hv. unfold mem_valid in Hv. destruct f; cbn; unfold mem_next, mem_prev; by destruct (mm_heap c).
  - intros f d Hv. cbn in Hv. destruct f; cbn; unfold step_next, step_prev; by destruct (sc_cur d).
  - by exists None.
Qed.
