(* ===== verification/Memtable.v ===== *)
(** * Memtable: shards, filter and counters

    [memtable.rs], the default build: a memtable routes every key by its hash
    to one of sixteen skip lists, keeps a word-granular filter over the hashes,
    counters and the range tombstones.  [put_batch] sorts the records by shard
    with a counting sort before inserting.

    A skip list is the list of its entries in order; [SkipMap::insert] replaces
    an entry with an equal key.  Internal keys appear split, as key and
    sequence (see [Format.internal_key_roundtrip_and_order]).  The hash is a
    parameter.  Atomic counters are plain numbers, since each operation is one
    writer's. *)

From Stdlib Require Import ZArith Lia Sorted.
From Stdlib.Strings Require Import Byte.
From stdpp Require Import base gmap list sets sorting.
From S2P Require Import Prelude Encoding Codec Comparator Format Wal RangeTombstone ReadPath Heap Cursor Merge MemIter.

Open Scope Z_scope.

(** ** Data *)

Record Slot := mkSlot {
  sl_key : key;
  sl_seq : Z;
  sl_value : list byte;
  sl_ttl : Z;
  sl_flags : Z;
  sl_kind : Z;  (* a byte *)
}.

Record Memtable := mkMemtable {
  mt_shards : list (list Slot);
  mt_cmp : Comparator;
  mt_approx_size : Z;
  mt_num_entries : Z;
  mt_max_seq : Z;
  mt_filter : option (gmap Z Z);  (* the words that are not zero *)
  mt_ranges : RangeTombstoneSet;
}.

Definition NUM_SHARDS : Z := 16.
Definition FILTER_BITS_PER_KEY : nat := 4.
Definition FILTER_WORDS : Z := 2 ^ 16.

(** [IKey::cmp]. *)
Definition ikey_cmp (cmp : Comparator) (ka : key) (sa : Z) (kb : key) (sb : Z) : comparison :=
  then_with (if is_bytewise cmp then slice_cmp ka kb else compare cmp ka kb) (sb ?= sa).

Definition slot_cmp (cmp : Comparator) (a b : Slot) : comparison := ikey_cmp cmp (sl_key a) (sl_seq a) (sl_key b) (sl_seq b).

(** ** The filter *)

Definition word_of (words : gmap Z Z) (w : Z) : Z := default 0 (words !! w).

Fixpoint mask_bits (n : nat) (x mask : Z) : Z :=
  match n with
  | O => mask
  | S n => mask_bits n (Z.shiftr x 6) (Z.lor mask (Z.shiftl 1 (Z.land x 63)))
  end.

Definition word_and_mask (h : Z) : Z * Z :=
  (Z.land (Z.shiftr h 24) (FILTER_WORDS - 1), mask_bits FILTER_BITS_PER_KEY h 0).

Definition filter_insert (words : gmap Z Z) (h : Z) : gmap Z Z :=
  let '(w, mask) := word_and_mask h in
  let cur := word_of words w in
  if negb (Z.land cur mask =? mask) then <[w := Z.lor cur mask]> words else words.

Definition filter_may_contain (words : gmap Z Z) (h : Z) : bool :=
  let '(w, mask) := word_and_mask h in Z.land (word_of words w) mask =? mask.

(** ** Writing *)

(** [SkipMap::insert]. *)
Fixpoint skip_insert (cmp : Comparator) (x : Slot) (l : list Slot) : list Slot :=
  match l with
  | [] => [x]
  | y :: l => match slot_cmp cmp x y with Lt => x :: y :: l | Eq => x :: l | Gt => y :: skip_insert cmp x l end
  end.

Definition flag_bits_for_kind (kind ttl : Z) : Z :=
  normalized_entry_flags ((kind =? KIND_DELETE) || (kind =? KIND_SINGLE_DELETE)) (kind =? KIND_SINGLE_DELETE) (negb (ttl =? 0)) false.

(** The slot of a record, its kind narrowed to a byte. *)
Definition slot_of (r : Record_) : Slot :=
  mkSlot (r_key r) (r_seq r) (r_value r) (r_ttl r) (flag_bits_for_kind (r_kind r) (r_ttl r)) (r_kind r mod 256).

Definition record_size (r : Record_) : Z := Z.of_nat (length (r_key r)) + Z.of_nat (length (r_value r)) + 64.

Definition shard_of (h : Z) : nat := Z.to_nat (Z.land (Z.lxor h (Z.shiftr h 32)) (NUM_SHARDS - 1)).

Section Ops.
Context (key_hash : key -> Z).

Definition memtable_new (cmp : Comparator) : Memtable := mkMemtable (repeat [] (Z.to_nat NUM_SHARDS)) cmp 0 0 0 None set_new.

Definition shard_insert (s : nat) (r : Record_) (t : Memtable) : Memtable :=
  mkMemtable (alter (skip_insert (mt_cmp t) (slot_of r)) s (mt_shards t)) (mt_cmp t) (mt_approx_size t) (mt_num_entries t) (mt_max_seq t)
    (mt_filter t) (mt_ranges t).

Definition note_hash (h : Z) (t : Memtable) : Memtable :=
  mkMemtable (mt_shards t) (mt_cmp t) (mt_approx_size t) (mt_num_entries t) (mt_max_seq t) (Some (filter_insert (default ∅ (mt_filter t)) h)) (mt_ranges t).

(** [after_insert]; a batch ends the same way, for all of its records. *)
Definition after_insert (added n seq : Z) (t : Memtable) : Memtable :=
  mkMemtable (mt_shards t) (mt_cmp t) (to_i64 (mt_approx_size t + added)) (to_i64 (mt_num_entries t + n)) (Z.max (mt_max_seq t) seq)
    (mt_filter t) (mt_ranges t).

(** [put] and [put_ref]. *)
Definition mt_put (t : Memtable) (r : Record_) : Memtable :=
  let h := key_hash (r_key r) in
  let t := note_hash h t in
  let t := shard_insert (shard_of h) r t in
  after_insert (record_size r) 1 (r_seq r) t.

Definition mt_add_range (start end_ : key) (seq : Z) (t : Memtable) : Memtable :=
  mkMemtable (mt_shards t) (mt_cmp t) (mt_approx_size t) (mt_num_entries t) (Z.max (mt_max_seq t) seq) (mt_filter t)
    (set_add (mt_cmp t) start end_ seq (mt_ranges t)).

(** The counting sort of [put_batch]: records per shard, where each shard's
    part of [order] starts, and the indices of the records laid out by shard. *)
Definition shard_counts (idx : list nat) : list nat :=
  fold_left (fun counts s => alter S s counts) idx (repeat 0%nat (Z.to_nat NUM_SHARDS)).

Fixpoint prefix_starts (acc : nat) (counts : list nat) : list nat :=
  match counts with [] => [] | c :: counts => acc :: prefix_starts (acc + c) counts end.

Fixpoint place_all (i : nat) (idx order cursor : list nat) : list nat * list nat :=
  match idx with
  | [] => (order, cursor)
  | s :: idx => place_all (S i) idx (<[nth s cursor 0%nat := i]> order) (alter S s cursor)
  end.

Definition insert_group (recs : list Record_) (s : nat) (group : list nat) (t : Memtable) : Memtable :=
  fold_left (fun t i => match recs !! i with Some r => shard_insert s r t | None => t end) group t.

Definition mt_put_batch (t : Memtable) (recs : list Record_) : Memtable :=
  match recs with
  | [] => t
  | [r] => mt_put t r
  | _ =>
      let idx := map (fun r => shard_of (key_hash (r_key r))) recs in
      let t := fold_left (fun t r => note_hash (key_hash (r_key r)) t) recs t in
      let starts := prefix_starts 0 (shard_counts idx) in
      let '(order, cursor) := place_all 0 idx (repeat 0%nat (length recs)) starts in
      let added := fold_left (fun a r => a + record_size r) recs 0 in
      let batch_max := fold_left (fun m r => if m <? r_seq r then r_seq r else m) recs 0 in
      let t := fold_left (fun t s => let lo := nth s starts 0%nat in let hi := nth s cursor 0%nat in
                            if (lo =? hi)%nat then t else insert_group recs s (take (hi - lo) (drop lo order)) t)
                 (List.seq 0 (Z.to_nat NUM_SHARDS)) t in
      after_insert added (Z.of_nat (length recs)) batch_max t
  end.

(** ** Reading *)

(** [lower_bound(Included(probe))]: the first slot not below the probe, and those after it. *)
Fixpoint slots_from (cmp : Comparator) (k : key) (s : Z) (l : list Slot) : list Slot :=
  match l with
  | [] => []
  | x :: l' => if is_lt (ikey_cmp cmp (sl_key x) (sl_seq x) k s) then slots_from cmp k s l' else l
  end.

Definition slot_dead (now : Z) (x : Slot) : bool :=
  has_bit (sl_flags x) FLAG_TOMBSTONE || (negb (sl_ttl x =? 0) && (sl_ttl x <=? now)).

(** The checks before a shard is read, and the shard. *)
Definition routed (t : Memtable) (k : key) : option (list Slot) :=
  if mt_num_entries t =? 0 then None
  else
    let h := key_hash k in
    match mt_filter t with
    | None => None
    | Some words => if negb (filter_may_contain words h) then None else Some (nth (shard_of h) (mt_shards t) [])
    end.

Definition mt_get (t : Memtable) (k : key) (read_seq now : Z) : Lookup :=
  match routed t k with
  | None => miss
  | Some shard =>
      match slots_from (mt_cmp t) k read_seq shard with
      | [] => miss
      | x :: _ =>
          if negb (is_eq (compare (mt_cmp t) (sl_key x) k)) then miss
          else if has_bit (sl_flags x) FLAG_TOMBSTONE then mkLookup None (sl_seq x) true true (sl_kind x)
          else if negb (sl_ttl x =? 0) && (sl_ttl x <=? now) then mkLookup None (sl_seq x) true true (sl_kind x)
          else mkLookup (Some (sl_value x)) (sl_seq x) true false (sl_kind x)
      end
  end.

(** What [chain] passes to its callback, which asks for more while it gets operands. *)
Fixpoint chain_slots (cmp : Comparator) (k : key) (now : Z) (l : list Slot) : list ChainVersion :=
  match l with
  | [] => []
  | x :: l =>
      if negb (is_eq (compare cmp (sl_key x) k)) then []
      else
        mkCV (sl_seq x) (sl_kind x =? KIND_MERGE) (if slot_dead now x then None else Some (sl_value x))
        :: (if sl_kind x =? KIND_MERGE then chain_slots cmp k now l else [])
  end.

Definition mt_chain (t : Memtable) (k : key) (read_seq now : Z) : list ChainVersion :=
  match routed t k with
  | None => []
  | Some shard => chain_slots (mt_cmp t) k now (slots_from (mt_cmp t) k read_seq shard)
  end.

Definition entry_of (x : Slot) : Entry := mkEntry (sl_key x) (sl_seq x) (sl_kind x) (sl_ttl x) (sl_value x) true.

Definition mt_snapshot (t : Memtable) : list Entry :=
  sort_by (fun a b => ikey_cmp (mt_cmp t) (e_key a) (e_seq a) (e_key b) (e_seq b)) (map entry_of (concat (mt_shards t))).

(** [Memtable::iter]. *)
Definition mt_iter (t : Memtable) : MemMerge := mem_merge_new (mt_cmp t) (map (map entry_of) (mt_shards t)).
End Ops.

(** What writers do to a memtable. *)
Inductive MtOp := OPut (r : Record_) | OBatch (rs : list Record_) | ORange (start end_ : key) (seq : Z).

Definition mt_step (key_hash : key -> Z) (t : Memtable) (o : MtOp) : Memtable :=
  match o with
  | OPut r => mt_put key_hash t r
  | OBatch rs => mt_put_batch key_hash t rs
  | ORange a b s => mt_add_range a b s t
  end.

Definition op_records (o : MtOp) : list Record_ := match o with OPut r => [r] | OBatch rs => rs | ORange _ _ _ => [] end.

(** ** The counting sort *)

(** The positions of [s]. *)
Fixpoint where_ (s i : nat) (idx : list nat) : list nat :=
  match idx with [] => [] | x :: idx => if (x =? s)%nat then i :: where_ s (S i) idx else where_ s (S i) idx end.

Definition count (s : nat) (idx : list nat) : nat := length (where_ s 0 idx).

Lemma where_length s i idx : length (where_ s i idx) = count s idx.
Proof.
  unfold count. generalize 0%nat. revert i. induction idx as [|x idx IH]; intros i j; cbn; [done|]. destruct (_ =? _)%nat; cbn; [f_equal|]; apply IH.
Qed.

Lemma count_cons s x idx : count s (x :: idx) = ((if (x =? s)%nat then 1 else 0) + count s idx)%nat.
Proof. unfold count at 1. cbn. destruct (_ =? _)%nat; cbn; by rewrite where_length. Qed.

(** What a shard's part of [order] holds so far. *)
Definition placed (order : list nat) (start : nat) (ps : list nat) : Prop := forall j x, ps !! j = Some x -> order !! (start + j)%nat = Some x.

Section Placing.
Context (start size : nat -> nat) (n shards : nat).
Context (apart_ : forall s s', s <> s' -> (s < shards)%nat -> (s' < shards)%nat -> (start s + size s <= start s' \/ start s' + size s' <= start s)%nat).
Context (fits : forall s, (s < shards)%nat -> (start s + size s <= n)%nat).

Lemma place_all_spec i idx order cursor ps :
  length order = n -> length cursor = shards -> (forall s, s ∈ idx -> (s < shards)%nat) ->
  (forall s, (s < shards)%nat -> nth s cursor 0 = start s + length (ps s) /\ length (ps s) + count s idx = size s /\ placed order (start s) (ps s))%nat ->
  let '(order', cursor') := place_all i idx order cursor in
  forall s, (s < shards)%nat -> nth s cursor' 0%nat = (start s + size s)%nat /\ placed order' (start s) (ps s ++ where_ s i idx).
Proof.
  revert i order cursor ps. induction idx as [|x idx IH]; intros i order cursor ps Ho Hc Hin Hs; cbn [place_all].
  { intros s Hlt. destruct (Hs s Hlt) as (-> & E & Hp). cbn. rewrite app_nil_r. split; [|done]. cbn in E. lia. }
  assert (x < shards)%nat as Hx by (apply Hin; left). destruct (Hs x Hx) as (Ex & Sx & Px). rewrite count_cons, Nat.eqb_refl in Sx.
  specialize (IH (S i) (<[nth x cursor 0%nat := i]> order) (alter S x cursor) (fun s => if (x =? s)%nat then ps s ++ [i] else ps s)).
  destruct (place_all _ _ _ _) as [order' cursor']. intros s Hlt. destruct IH with (s := s) as [E1 E2]; try done; clear IH.
  - by rewrite length_insert.
  - by rewrite length_alter.
  - intros s' Hs'. apply Hin. by right.
  - intros s' Hlt'. destruct (Hs s' Hlt') as (Ec & Sc & Pc). rewrite count_cons in Sc. destruct (Nat.eqb_spec x s') as [<-|Hne].
    + rewrite length_app. cbn. split_and!; [|lia|].
      * rewrite nth_lookup, list_lookup_alter_eq. rewrite nth_lookup in Ex. destruct (lookup_lt_is_Some_2 cursor x) as [c Hcx]; [lia|]. rewrite Hcx in *. cbn in *. lia.
      * intros j y Hj. rewrite Ex. apply lookup_app_Some in Hj as [Hj|[Hl Hj]].
        -- rewrite list_lookup_insert_ne; [by apply Px|]. apply lookup_lt_Some in Hj. lia.
        -- apply list_lookup_singleton_Some in Hj as [Ej <-]. replace (start x + j)%nat with (start x + length (ps x))%nat by lia.
           apply list_lookup_insert_eq. specialize (fits x Hx). lia.
    + split_and!; [|lia|].
      * by rewrite nth_lookup, list_lookup_alter_ne, <- nth_lookup.
      * intros j y Hj. rewrite list_lookup_insert_ne; [by apply Pc|]. apply lookup_lt_Some in Hj. rewrite Ex. destruct (apart_ x s' Hne Hx Hlt'); lia.
  - split; [done|]. cbn. destruct (Nat.eqb_spec x s) as [<-|Hne]; [by rewrite <- app_assoc in E2|done].
Qed.
End Placing.

Lemma shard_counts_spec idx (k := Z.to_nat NUM_SHARDS) :
  (forall s, s ∈ idx -> (s < k)%nat) -> length (shard_counts idx) = k /\ (forall s, (s < k)%nat -> nth s (shard_counts idx) 0%nat = count s idx) /\
  list_sum (shard_counts idx) = length idx.
Proof.
  intros Hin. unfold shard_counts.
  assert (forall l, length l = k -> let r := fold_left (fun counts s => alter S s counts) idx l in
    length r = k /\ (forall s, (s < k)%nat -> nth s r 0 = nth s l 0 + count s idx)%nat /\ list_sum r = (list_sum l + length idx)%nat) as H.
  { induction idx as [|x idx IH]; intros l Hl; cbn [fold_left].
    - split_and!; [done|intros; cbn; lia|cbn; lia].
    - destruct (IH ltac:(intros s Hs; apply Hin; by right) (alter S x l)) as (H1 & H2 & H3); [by rewrite length_alter|].
      assert (x < length l)%nat as Hx by (rewrite Hl; apply Hin; left). destruct (lookup_lt_is_Some_2 l x Hx) as [c Hc]. split_and!; [done| |].
      + intros s Hs. rewrite H2, count_cons by done. rewrite !nth_lookup. destruct (Nat.eqb_spec x s) as [<-|Hne].
        * rewrite list_lookup_alter_eq, Hc. cbn. lia.
        * rewrite list_lookup_alter_ne by done. lia.
      + rewrite H3. cbn [length]. enough (list_sum (alter S x l) = S (list_sum l)) by lia. clear -Hc. revert x Hc.
        induction l as [|y l IH]; intros x Hc; [done|]. destruct x as [|x]; [done|]. change (alter S (S x) (y :: l)) with (y :: alter S x l). change (y + list_sum (alter S x l) = S (y + list_sum l))%nat. rewrite (IH x Hc). lia. }
  destruct (H (repeat 0%nat k)) as (H1 & H2 & H3); [apply repeat_length|]. split_and!; [done| |].
  - intros s Hs. rewrite H2 by done. by rewrite nth_repeat.
  - etransitivity; [exact H3|]. assert (forall m, list_sum (repeat 0%nat m) = 0%nat) as E0 by (induction m as [|m IHm]; [done|exact IHm]). by rewrite E0.
Qed.

Lemma prefix_starts_spec counts acc s :
  (s < length counts)%nat -> length (prefix_starts acc counts) = length counts /\ nth s (prefix_starts acc counts) 0%nat = (acc + list_sum (take s counts))%nat.
Proof.
  revert acc s. induction counts as [|c counts IH]; intros acc s Hs; cbn in Hs; [lia|].
  assert (forall a, length (prefix_starts a counts) = length counts) as Hl by (clear; induction counts as [|x l IHl]; intros a; cbn; [done|by rewrite IHl]). split; [cbn; by f_equal|].
  destruct s as [|s]; [cbn; lia|]. change (nth s (prefix_starts (acc + c) counts) 0 = acc + (c + list_sum (take s counts)))%nat. destruct (IH (acc + c)%nat s) as [_ ->]; lia.
Qed.

Lemma list_sum_take l s s' : (s < s')%nat -> (s < length l)%nat -> (list_sum (take s l) + nth s l 0 <= list_sum (take s' l))%nat.
Proof.
  revert s s'. induction l as [|x l IH]; intros s s' Hs Hl; cbn in Hl; [lia|]. destruct s' as [|s']; [lia|]. destruct s as [|s].
  - change (0 + x <= x + list_sum (take s' l))%nat. lia.
  - change (x + list_sum (take s l) + nth s l 0 <= x + list_sum (take s' l))%nat. specialize (IH s s'). lia.
Qed.

Lemma list_sum_take_le l s : (list_sum (take s l) <= list_sum l)%nat.
Proof. revert s. induction l as [|x l IH]; intros [|s]; [cbn; lia..|].
  change (x + list_sum (take s l) <= x + list_sum l)%nat. specialize (IH s). lia. Qed.

(** The sort groups the records of a shard in their order. *)
Lemma counting_sort idx (k := Z.to_nat NUM_SHARDS) (starts := prefix_starts 0 (shard_counts idx)) :
  (forall s, s ∈ idx -> (s < k)%nat) ->
  let '(order, cursor) := place_all 0 idx (repeat 0%nat (length idx)) starts in
  forall s, (s < k)%nat -> take (nth s cursor 0 - nth s starts 0)%nat (drop (nth s starts 0%nat) order) = where_ s 0 idx.
Proof.
  intros Hin. destruct (shard_counts_spec idx Hin) as (Hl & Hn & Hsum). fold k in Hl, Hn.
  assert (forall s, (s < k)%nat -> nth s starts 0%nat = list_sum (take s (shard_counts idx))) as Hst.
  { intros s Hs. destruct (prefix_starts_spec (shard_counts idx) 0 s) as [_ E]; [lia|]. exact E. }
  pose proof (place_all_spec (fun s => nth s starts 0%nat) (fun s => count s idx) (length idx) k) as Hp.
  specialize (fun a f => Hp a f 0%nat idx (repeat 0%nat (length idx)) starts (fun _ => [])). cbn beta in Hp.
  destruct (place_all 0 idx _ starts) as [order cursor] eqn:E. intros s Hs.
  destruct Hp with (s := s) as [Ec Hpl]; try done; clear Hp.
  - intros a b Hab Ha Hb. rewrite !Hst by done. rewrite <- !Hn by done. destruct (decide (a < b)%nat).
    + left. apply list_sum_take; lia.
    + right. apply list_sum_take; lia.
  - intros a Ha. rewrite Hst, <- Hn, <- Hsum by done. etransitivity; [apply (list_sum_take _ a (S a)); lia|apply list_sum_take_le].
  - apply repeat_length.
  - destruct (prefix_starts_spec (shard_counts idx) 0 0) as [Hl' _]; [rewrite Hl; unfold k; cbn; lia|]. fold starts in Hl'. lia.
  - cbn in Hpl. rewrite Ec. replace (nth s starts 0 + count s idx - nth s starts 0)%nat with (count s idx) by lia.
    rewrite <- (where_length s 0 idx). apply list_eq. intros j. destruct (where_ s 0 idx !! j) as [x|] eqn:Ej.
    + rewrite lookup_take_lt, lookup_drop by (by eapply lookup_lt_Some). by apply Hpl.
    + apply lookup_ge_None in Ej. by rewrite lookup_take_ge.
Qed.

(** ** A batch is its records in turn *)

Lemma to_i64_add a b : to_i64 (to_i64 a + b) = to_i64 (a + b).
Proof.
  assert ((to_i64 a + b) mod 2 ^ 64 = (a + b) mod 2 ^ 64) as E; [|unfold to_i64 at 1 3; by rewrite E].
  assert (exists k, to_i64 a = a + k * 2 ^ 64) as (k & ->).
  { unfold to_i64. pose proof (Z.div_mod a (2 ^ 64) ltac:(lia)). destruct (_ <? _); [exists (- (a / 2 ^ 64))|exists (- (a / 2 ^ 64) - 1)]; lia. }
  replace (a + k * 2 ^ 64 + b) with (a + b + k * 2 ^ 64) by lia. apply Z.mod_add. lia.
Qed.

Lemma to_i64_id a : is_i64 a -> to_i64 a = a.
Proof.
  unfold is_i64, to_i64. intros Ha. destruct (Z.ltb_spec (a mod 2 ^ 64) (2 ^ 63)) as [Hl|Hl].
  - destruct (decide (0 <= a)); [by apply Z.mod_small; lia|]. exfalso. rewrite <- (Z.mod_add a 1 (2 ^ 64)), Z.mod_small in Hl by lia. lia.
  - destruct (decide (0 <= a)); [exfalso; rewrite Z.mod_small in Hl by lia; lia|]. rewrite <- (Z.mod_add a 1 (2 ^ 64)), Z.mod_small by lia. lia.
Qed.

Definition counters_ok (t : Memtable) : Prop := is_i64 (mt_approx_size t) /\ is_i64 (mt_num_entries t) /\ 0 <= mt_max_seq t.

Section Batch.
Context (key_hash : key -> Z).
Local Abbreviation hash r := (key_hash (r_key r)).
Local Abbreviation route r := (shard_of (hash r)).

Definition inserts (cmp : Comparator) (rs : list Record_) (l : list Slot) : list Slot := fold_left (fun l r => skip_insert cmp (slot_of r) l) rs l.

Definition to_shard (s : nat) (recs : list Record_) : list Record_ := List.filter (fun r => (route r =? s)%nat) recs.

Definition total (recs : list Record_) : Z := fold_left (fun a r => a + record_size r) recs 0.
Definition newest (m : Z) (recs : list Record_) : Z := fold_left (fun m r => Z.max m (r_seq r)) recs m.

(** The state after inserting [recs]. *)
Definition after_records (recs : list Record_) (t : Memtable) : Memtable :=
  mkMemtable (imap (fun s l => inserts (mt_cmp t) (to_shard s recs) l) (mt_shards t)) (mt_cmp t) (to_i64 (mt_approx_size t + total recs))
    (to_i64 (mt_num_entries t + Z.of_nat (length recs))) (newest (mt_max_seq t) recs)
    (match recs with [] => mt_filter t | _ => Some (fold_left filter_insert (map (fun r => hash r) recs) (default ∅ (mt_filter t))) end) (mt_ranges t).

Lemma total_cons r recs : total (r :: recs) = record_size r + total recs.
Proof.
  unfold total. cbn. generalize (record_size r). intros a. assert (forall b c, fold_left (fun a r => a + record_size r) recs (b + c) = b + fold_left (fun a r => a + record_size r) recs c) as H.
  { induction recs as [|x recs IH]; intros b c; cbn; [done|]. by rewrite <- Z.add_assoc, IH. }
  rewrite <- (H a 0). f_equal. lia.
Qed.

Lemma imap_alter {A} (f : nat -> A -> A) (g : A -> A) i (l : list A) : imap f (alter g i l) = imap (fun j x => f j (if (i =? j)%nat then g x else x)) l.
Proof.
  apply list_eq. intros j. rewrite !list_lookup_imap. destruct (Nat.eqb_spec i j) as [<-|Hne].
  - rewrite list_lookup_alter_eq. by destruct (l !! i).
  - rewrite list_lookup_alter_ne by done. done.
Qed.

Lemma puts_after recs t : counters_ok t -> fold_left (mt_put key_hash) recs t = after_records recs t.
Proof.
  revert t. induction recs as [|r recs IH]; intros t (Hs & Hn & Hm); cbn [fold_left].
  - unfold after_records. cbn. rewrite !Z.add_0_r, !to_i64_id by done. destruct t; cbn. f_equal. symmetry. apply list_eq. intros j. rewrite list_lookup_imap. by destruct (_ !! j).
  - rewrite IH by (split_and!; cbn; [apply to_i64_range..|lia]). unfold after_records. cbn [mt_put after_insert shard_insert note_hash mt_shards mt_cmp mt_approx_size mt_num_entries mt_max_seq mt_filter mt_ranges].
    rewrite !to_i64_add, imap_alter. f_equal.
    + apply imap_ext. intros s l _. unfold to_shard, inserts. cbn [List.filter]. by destruct (route r =? s)%nat.
    + f_equal. rewrite total_cons. lia.
    + f_equal. cbn [length]. lia.
    + by destruct recs.
Qed.

Definition with_shards (shards : list (list Slot)) (t : Memtable) : Memtable :=
  mkMemtable shards (mt_cmp t) (mt_approx_size t) (mt_num_entries t) (mt_max_seq t) (mt_filter t) (mt_ranges t).

Lemma alter_twice {A} (f g : A -> A) (i : nat) (l : list A) : alter f i (alter g i l) = alter (fun x => f (g x)) i l.
Proof.
  apply list_eq. intros j. destruct (decide (i = j)) as [<-|Hne]; [rewrite !list_lookup_alter_eq; by destruct (l !! i)|by rewrite !list_lookup_alter_ne].
Qed.

Lemma shard_inserts s rs t : fold_left (fun t r => shard_insert s r t) rs t = with_shards (alter (inserts (mt_cmp t) rs) s (mt_shards t)) t.
Proof.
  revert t. induction rs as [|r rs IH]; intros t; cbn [fold_left].
  - unfold with_shards. rewrite list_alter_id by done. by destruct t.
  - rewrite IH. unfold with_shards, shard_insert. cbn. by rewrite alter_twice.
Qed.

Lemma insert_group_where pre rest s t :
  insert_group (pre ++ rest) s (where_ s (length pre) (map (fun r => route r) rest)) t = fold_left (fun t r => shard_insert s r t) (to_shard s rest) t.
Proof.
  revert pre t. induction rest as [|r rest IH]; intros pre t; cbn; [done|].
  assert (E : pre ++ r :: rest = (pre ++ [r]) ++ rest) by by rewrite <- app_assoc.
  assert (El : S (length pre) = length (pre ++ [r])) by (rewrite length_app; cbn; lia). rewrite E, El.
  assert (Hl : ((pre ++ [r]) ++ rest) !! length pre = Some r) by (rewrite <- app_assoc; by apply list_lookup_middle).
  destruct (route r =? s)%nat; [|apply IH]. unfold insert_group. cbn [fold_left]. rewrite Hl. apply IH.
Qed.

Lemma alter_each {A} (g : nat -> A -> A) n (l : list A) :
  fold_left (fun l s => alter (g s) s l) (List.seq 0 n) l = imap (fun s x => if (s <? n)%nat then g s x else x) l.
Proof.
  induction n as [|n IH].
  - cbn. apply list_eq. intros j. rewrite list_lookup_imap. by destruct (l !! j).
  - rewrite List.seq_S, fold_left_app, IH. cbn [fold_left Nat.add]. apply list_eq. intros j. rewrite list_lookup_imap. destruct (decide (n = j)) as [<-|Hne].
    + rewrite list_lookup_alter_eq, list_lookup_imap. destruct (l !! n); [|done]. cbn [fmap option_fmap option_map]. destruct (Nat.ltb_spec n n), (Nat.ltb_spec n (S n)); (lia || done).
    + rewrite list_lookup_alter_ne, list_lookup_imap by done. destruct (l !! j); [|done]. cbn [fmap option_fmap option_map]. destruct (Nat.ltb_spec j n), (Nat.ltb_spec j (S n)); (lia || done).
Qed.

Lemma shard_of_lt h : (shard_of h < Z.to_nat NUM_SHARDS)%nat.
Proof.
  unfold shard_of, NUM_SHARDS. change (16 - 1) with (Z.ones 4). rewrite Z.land_ones by lia. pose proof (Z.mod_pos_bound (Z.lxor h (Z.shiftr h 32)) (2 ^ 4)). lia.
Qed.

Lemma note_hashes recs t : recs <> [] ->
  fold_left (fun t r => note_hash (hash r) t) recs t =
  mkMemtable (mt_shards t) (mt_cmp t) (mt_approx_size t) (mt_num_entries t) (mt_max_seq t)
    (Some (fold_left filter_insert (map (fun r => hash r) recs) (default ∅ (mt_filter t)))) (mt_ranges t).
Proof.
  revert t. induction recs as [|r recs IH]; intros t Hn; [done|]. cbn [fold_left map]. destruct recs as [|r' recs]; [done|]. by rewrite IH.
Qed.

Lemma batch_newest recs m : 0 <= m -> Z.max m (fold_left (fun m r => if m <? r_seq r then r_seq r else m) recs 0) = newest m recs.
Proof.
  assert (forall a, fold_left (fun m r => if m <? r_seq r then r_seq r else m) recs a = newest a recs) as ->.
  { unfold newest. induction recs as [|r recs IH]; intros a; cbn; [done|]. rewrite IH. f_equal. destruct (Z.ltb_spec a (r_seq r)); lia. }
  assert (forall a b, Z.max a (newest b recs) = newest (Z.max a b) recs) as ->.
  { unfold newest. induction recs as [|r recs IH]; intros a b; cbn; [done|]. rewrite IH. f_equal. lia. }
  intros Hm. f_equal. lia.
Qed.

Lemma insert_groups idx recs order starts cursor t :
  idx = map (fun r => route r) recs ->
  (forall s, (s < Z.to_nat NUM_SHARDS)%nat -> take (nth s cursor 0 - nth s starts 0)%nat (drop (nth s starts 0%nat) order) = where_ s 0 idx) ->
  fold_left (fun t s => let lo := nth s starts 0%nat in let hi := nth s cursor 0%nat in
               if (lo =? hi)%nat then t else insert_group recs s (take (hi - lo) (drop lo order)) t) (List.seq 0 (Z.to_nat NUM_SHARDS)) t =
  with_shards (imap (fun s l => if (s <? Z.to_nat NUM_SHARDS)%nat then inserts (mt_cmp t) (to_shard s recs) l else l) (mt_shards t)) t.
Proof.
  intros -> Hg. rewrite <- alter_each. set (k := Z.to_nat NUM_SHARDS) in *. clearbody k. revert Hg. induction k as [|k IH]; intros Hg.
  - cbn. by destruct t.
  - rewrite List.seq_S, !fold_left_app, IH by (intros s Hs; apply Hg; lia). cbn [fold_left Nat.add]. specialize (Hg k ltac:(lia)).
    pose proof (insert_group_where [] recs k) as Hi. cbn [app length] in Hi.
    assert (forall t : Memtable, (if (nth k starts 0 =? nth k cursor 0)%nat then t else insert_group recs k (take (nth k cursor 0 - nth k starts 0)%nat (drop (nth k starts 0%nat) order)) t) =
      with_shards (alter (inserts (mt_cmp t) (to_shard k recs)) k (mt_shards t)) t) as Hk.
    { intros t'. rewrite <- shard_inserts, <- Hi, <- Hg. destruct (Nat.eqb_spec (nth k starts 0%nat) (nth k cursor 0%nat)) as [E|_]; [|done].
      rewrite E, Nat.sub_diag, take_0. done. }
    cbv zeta. rewrite Hk. done.
Qed.

Lemma batch_after recs t :
  counters_ok t -> length (mt_shards t) = Z.to_nat NUM_SHARDS -> mt_put_batch key_hash t recs = after_records recs t.
Proof.
  intros Hc Hl. destruct recs as [|r1 [|r2 recs]]; cbn [mt_put_batch].
  - symmetry. by rewrite <- puts_after.
  - by rewrite <- puts_after.
  - set (rs := r1 :: r2 :: recs). set (idx := map (fun r => route r) rs).
    pose proof (counting_sort idx) as Hs. assert (length idx = length rs) as El by apply length_map. rewrite El in Hs.
    specialize (Hs ltac:(intros s (r & _ & <-)%elem_of_map; apply shard_of_lt)). cbv zeta in Hs. destruct (place_all 0 idx _ _) as [order cursor] eqn:E.
    cbv zeta. rewrite (insert_groups idx) by (reflexivity || exact Hs). rewrite note_hashes by done.
    unfold after_insert, with_shards, after_records. cbn [mt_shards mt_cmp mt_approx_size mt_num_entries mt_max_seq mt_filter mt_ranges]. destruct Hc as (_ & _ & Hm). rewrite batch_newest by done.
    f_equal. apply imap_ext. intros s l Hs'. apply lookup_lt_Some in Hs'. rewrite Hl in Hs'. by rewrite (proj2 (Nat.ltb_lt _ _) Hs').
Qed.
End Batch.

(** ** What a read of a run depends on *)

Section Runs.
Context (cmp : Comparator) `{!TotalOrder cmp}.

Lemma mem_get_same k rs now es es' :
  run_sorted cmp es -> run_sorted cmp es' -> run_versions cmp k rs es = run_versions cmp k rs es' -> mem_get cmp es k rs now = mem_get cmp es' k rs now.
Proof.
  intros Hs Hs' E. unfold mem_get. destruct (seek_split cmp k rs es Hs) as (r & -> & Hr). destruct (seek_split cmp k rs es' Hs') as (r' & -> & Hr'). rewrite E.
  destruct (run_versions cmp k rs es') as [|e l]; [|done]. cbn [app]. unfold ends_key in *.
  destruct r as [|e r], r' as [|e' r']; rewrite ?(proj2 (is_eq_false cmp _ _) Hr), ?(proj2 (is_eq_false cmp _ _) Hr'); done.
Qed.

Lemma mem_chain_same k rs now es es' :
  run_sorted cmp es -> run_sorted cmp es' -> run_versions cmp k rs es = run_versions cmp k rs es' -> mem_chain cmp es k rs now = mem_chain cmp es' k rs now.
Proof.
  intros Hs Hs' E. unfold mem_chain. destruct (seek_split cmp k rs es Hs) as (r & -> & Hr). destruct (seek_split cmp k rs es' Hs') as (r' & -> & Hr'). rewrite E.
  assert (forall r, ends_key k r -> mem_chain_from cmp k now r = []) as Hn by (intros [|e l] He; cbn; [done|]; by rewrite (proj2 (is_eq_false cmp _ _) He)).
  clear E. induction (run_versions cmp k rs es') as [|e l IH]; cbn; [by rewrite (Hn r Hr), (Hn r' Hr')|]. by rewrite IH.
Qed.

(** Two sorted runs with the same entries of a key have the same versions of it. *)
Lemma run_versions_same k rs es es' :
  run_sorted cmp es -> run_sorted cmp es' -> (forall e, e_key e = k -> e ∈ es <-> e ∈ es') -> run_versions cmp k rs es = run_versions cmp k rs es'.
Proof.
  intros Hs Hs' Hk. assert (forall l, run_sorted cmp l -> NoDup (run_versions cmp k rs l)) as Hn.
  { intros l Hl. apply (run_NoDup cmp), StronglySorted_filter, Hl. }
  assert (AntiSymm eq (fun a b : Entry => e_seq b < e_seq a)) as Ha by (intros x y ? ?; lia).
  apply (StronglySorted_unique (fun a b => e_seq b < e_seq a)); [by apply run_versions_sorted..|].
  apply NoDup_Permutation; [by apply Hn..|]. intros e. rewrite !(elem_of_run_versions cmp). split; intros (? & ? & ?); (split; [by apply Hk|done]).
Qed.
End Runs.

(** ** The shards hold the records *)

Section Refine.
Context (cmp : Comparator) `{!TotalOrder cmp} (key_hash : key -> Z).
Local Abbreviation hash r := (key_hash (r_key r)).
Local Abbreviation route r := (shard_of (hash r)).

Definition record_entry (r : Record_) : Entry := entry_of (slot_of r).
Definition record_id (r : Record_) : key * Z := (r_key r, r_seq r).

Lemma slot_cmp_entry a b : slot_cmp cmp a b = entry_cmp cmp (entry_of a) (sl_key b) (sl_seq b).
Proof. unfold slot_cmp, ikey_cmp, entry_cmp. cbn. destruct (is_bytewise cmp) eqn:E; [|done]. by rewrite (bytewise_exact _ _ E). Qed.

Lemma entry_lt_trans a b c : entry_lt cmp a b -> entry_lt cmp b c -> entry_lt cmp a c.
Proof. unfold entry_lt. intros [H1|[E1 H1]] [H2|[E2 H2]]; [left; korder..|right; split; [congruence|lia]]. Qed.

Lemma skip_insert_spec x l :
  run_sorted cmp (map entry_of l) -> (forall y, y ∈ l -> (sl_key y, sl_seq y) <> (sl_key x, sl_seq x)) ->
  run_sorted cmp (map entry_of (skip_insert cmp x l)) /\ skip_insert cmp x l ≡ₚ x :: l.
Proof.
  induction l as [|y l IH]; intros Hs Hx; cbn [skip_insert]; [split; [repeat constructor|done]|].
  cbn in Hs. pose proof Hs as Hs'. apply StronglySorted_inv in Hs as [Hs HF]. rewrite slot_cmp_entry. destruct (entry_cmp_spec cmp (entry_of x) (sl_key y) (sl_seq y)) as [[Ek Eq]|Hlt|Hgt].
  - exfalso. apply (Hx y); [left|]. cbn in *. congruence.
  - split; [|done]. cbn. constructor; [done|]. constructor; [done|]. eapply Forall_impl; [exact HF|]. intros z Hz. by apply (entry_lt_trans _ (entry_of y)).
  - destruct IH as [IHs IHp]; [done|intros z Hz; apply Hx; by right|]. split; [|rewrite IHp; apply Permutation_swap]. cbn. constructor; [done|].
    apply Forall_forall. intros z (w & Hw & <-)%elem_of_map. rewrite IHp in Hw. apply elem_of_cons in Hw as [->|Hw]; [unfold entry_lt; cbn in *; naive_solver|].
    rewrite Forall_forall in HF. apply HF, elem_of_map. eauto.
Qed.

Lemma inserts_spec rs :
  NoDup (map record_id rs) -> run_sorted cmp (map entry_of (inserts cmp rs [])) /\ inserts cmp rs [] ≡ₚ map slot_of rs.
Proof.
  induction rs as [|r rs IH] using rev_ind; intros Hn; [split; [constructor|done]|]. unfold inserts. rewrite fold_left_app. cbn [fold_left]. fold (inserts cmp rs []).
  rewrite map_app in Hn. apply NoDup_app in Hn as (Hn & Hd & _). destruct (IH Hn) as [Hs HP].
  destruct (skip_insert_spec (slot_of r) (inserts cmp rs []) Hs) as [Hs' HP'].
  - intros y Hy E. rewrite HP in Hy. apply elem_of_map in Hy as (q & Hq & <-). apply (Hd (record_id q)); [apply elem_of_map; eauto|]. apply list_elem_of_singleton. exact E.
  - split; [done|]. rewrite HP', HP, map_app. cbn. by rewrite Permutation_app_comm.
Qed.

Lemma partition_Permutation {A} (f : A -> nat) n l :
  (forall x, x ∈ l -> (f x < n)%nat) -> concat (map (fun s => List.filter (fun x => (f x =? s)%nat) l) (List.seq 0 n)) ≡ₚ l.
Proof.
  intros Hf. assert (concat (map (fun s => List.filter (fun x => (f x =? s)%nat) l) (List.seq 0 n)) ≡ₚ List.filter (fun x => (f x <? n)%nat) l) as ->.
  { clear Hf. induction n as [|n IH]; [by rewrite filter_none by (by apply Forall_forall)|]. rewrite List.seq_S, map_app, concat_app, IH. cbn [map concat Nat.add]. rewrite app_nil_r. clear IH.
    induction l as [|x l IH]; [done|]. cbn [List.filter]. destruct (Nat.ltb_spec (f x) n), (Nat.eqb_spec (f x) n), (Nat.ltb_spec (f x) (S n)); try lia; cbn [app]; rewrite <- IH; [done|by rewrite Permutation_middle|done]. }
  rewrite filter_all; [done|]. apply Forall_forall. intros x Hx. apply Nat.ltb_lt. by apply Hf.
Qed.

(** The filter never denies a hash it has seen. *)
Lemma filter_insert_new words h : filter_may_contain (filter_insert words h) h = true.
Proof.
  unfold filter_may_contain, filter_insert. destruct (word_and_mask h) as [w mask]. destruct (Z.eqb_spec (Z.land (word_of words w) mask) mask) as [E|E]; cbn [negb]; [by apply Z.eqb_eq|].
  unfold word_of at 1. rewrite lookup_insert_eq. cbn. apply Z.eqb_eq. apply Z.bits_inj'. intros n _. rewrite Z.land_spec, Z.lor_spec. by destruct (Z.testbit (word_of words w) n), (Z.testbit mask n).
Qed.

Lemma filter_insert_old words h h' : filter_may_contain words h = true -> filter_may_contain (filter_insert words h') h = true.
Proof.
  unfold filter_may_contain, filter_insert. destruct (word_and_mask h) as [w mask], (word_and_mask h') as [w' mask']. intros E. destruct (negb _); [|done].
  destruct (decide (w' = w)) as [->|Hne]; [|unfold word_of in *; by rewrite lookup_insert_ne].
  unfold word_of at 1. rewrite lookup_insert_eq. cbn. apply Z.eqb_eq in E. apply Z.eqb_eq. apply Z.bits_inj'. intros n Hn. apply (f_equal (fun z => Z.testbit z n)) in E.
  rewrite Z.land_spec in E. rewrite Z.land_spec, Z.lor_spec. by destruct (Z.testbit (word_of words w) n), (Z.testbit mask n), (Z.testbit mask' n).
Qed.

(** A memtable after the records [recs]. *)
Record mt_inv (recs : list Record_) (t : Memtable) : Prop := {
  mi_cmp : mt_cmp t = cmp;
  mi_shards : mt_shards t = map (fun s => inserts cmp (to_shard key_hash s recs) []) (List.seq 0 (Z.to_nat NUM_SHARDS));
  mi_counters : counters_ok t;
  mi_entries : mt_num_entries t = to_i64 (Z.of_nat (length recs));
  mi_filter : match mt_filter t with None => recs = [] | Some words => forall r, r ∈ recs -> filter_may_contain words (hash r) = true end;
  mi_ranges : set_wf cmp (mt_ranges t);
}.

Lemma mt_inv_new : mt_inv [] (memtable_new cmp).
Proof. constructor; try done. apply set_new_wf. Qed.

Lemma mt_inv_put recs t r : mt_inv recs t -> mt_inv (recs ++ [r]) (mt_put key_hash t r).
Proof.
  intros [Hc Hs (H1 & H2 & H3) He Hf Hr]. constructor; cbn [mt_put after_insert shard_insert note_hash mt_shards mt_cmp mt_num_entries mt_filter mt_ranges]; try done.
  - rewrite Hs, Hc. apply list_eq. intros j. rewrite list_lookup_fmap. destruct (decide (route r = j)) as [<-|Hne].
    + rewrite list_lookup_alter_eq, list_lookup_fmap. destruct (List.seq _ _ !! route r) as [x|] eqn:E; [|done]. cbn. apply lookup_seq in E as [-> _]. cbn.
      f_equal. unfold to_shard. rewrite List.filter_app. cbn. rewrite Nat.eqb_refl. unfold inserts. by rewrite fold_left_app.
    + rewrite list_lookup_alter_ne, list_lookup_fmap by done. destruct (List.seq _ _ !! j) as [x|] eqn:E; [|done]. cbn. apply lookup_seq in E as [-> _]. cbn.
      f_equal. unfold to_shard. rewrite List.filter_app. cbn. rewrite (proj2 (Nat.eqb_neq _ _) Hne). by rewrite app_nil_r.
  - split_and!; cbn; [apply to_i64_range..|lia].
  - rewrite He, to_i64_add, length_app. f_equal. cbn. lia.
  - intros q [Hq|<-%list_elem_of_singleton%eq_sym]%elem_of_app; [|apply filter_insert_new]. apply filter_insert_old. destruct (mt_filter t); [by apply Hf|]. subst. by apply elem_of_nil in Hq.
Qed.

Lemma mt_inv_puts rs recs t : mt_inv recs t -> mt_inv (recs ++ rs) (fold_left (mt_put key_hash) rs t).
Proof.
  revert recs t. induction rs as [|r rs IH]; intros recs t Hi; cbn; [by rewrite app_nil_r|]. replace (recs ++ r :: rs) with ((recs ++ [r]) ++ rs) by by rewrite <- app_assoc. by apply IH, mt_inv_put.
Qed.

Lemma mt_inv_exec ops : mt_inv (concat (map op_records ops)) (fold_left (mt_step key_hash) ops (memtable_new cmp)).
Proof.
  induction ops as [|o ops IH] using rev_ind; [apply mt_inv_new|]. rewrite fold_left_app, map_app, concat_app. cbn. rewrite app_nil_r. set (t := fold_left _ _ _) in *.
  destruct o as [r|rs|a b s]; cbn [mt_step op_records].
  - by apply mt_inv_put.
  - rewrite batch_after, <- puts_after; [by apply mt_inv_puts|apply IH|apply IH|]. rewrite (mi_shards _ _ IH), length_map. apply List.length_seq.
  - rewrite app_nil_r. destruct IH as [Hc Hs (H1 & H2 & H3) He Hf Hr]. constructor; cbn; try done; [split_and!; cbn; (done || lia)|]. rewrite Hc. by apply set_add_wf.
Qed.

(** ** Reads *)

Context (recs : list Record_) (t : Memtable) (inv : mt_inv recs t).
Context (ids : NoDup (map record_id recs)) (kinds : forall r, r ∈ recs -> 0 <= r_kind r < 256) (few : Z.of_nat (length recs) < 2 ^ 63).

Lemma shard_spec s : run_sorted cmp (map entry_of (inserts cmp (to_shard key_hash s recs) [])) /\ inserts cmp (to_shard key_hash s recs) [] ≡ₚ map slot_of (to_shard key_hash s recs).
Proof.
  apply inserts_spec. unfold to_shard. revert ids. generalize (fun r => (route r =? s)%nat). intros p. clear. induction recs as [|r l IH]; cbn; [constructor|].
  intros [Hx Hn]%NoDup_cons. destruct (p r); cbn; [|by apply IH]. apply NoDup_cons. split; [|by apply IH].
  intros (q & Hq & E)%elem_of_map. apply Hx. rewrite <- E. apply elem_of_map. apply elem_of_lfilter in Hq as [Hq _]. eauto.
Qed.

Lemma shards_entries : map entry_of (concat (mt_shards t)) ≡ₚ map record_entry recs.
Proof.
  rewrite (mi_shards _ _ inv). assert (concat (map (fun s => inserts cmp (to_shard key_hash s recs) []) (List.seq 0 (Z.to_nat NUM_SHARDS))) ≡ₚ map slot_of recs) as ->; [|by rewrite map_map].
  etransitivity; [|apply Permutation_map, (partition_Permutation (fun r => route r) (Z.to_nat NUM_SHARDS) recs); intros; apply shard_of_lt].
  generalize (List.seq 0 (Z.to_nat NUM_SHARDS)). intros ss. induction ss as [|s ss IH]; cbn; [done|]. rewrite map_app, IH. by rewrite (proj2 (shard_spec s)).
Qed.

Lemma snapshot_entries : mt_snapshot t ≡ₚ map record_entry recs.
Proof. unfold mt_snapshot. by rewrite sort_by_Permutation, shards_entries. Qed.

Lemma snapshot_sorted : run_sorted cmp (mt_snapshot t).
Proof.
  pose proof snapshot_entries as HP. assert (NoDup (map (fun e => (e_key e, e_seq e)) (mt_snapshot t))) as Hn by (rewrite HP, map_map; exact ids). clear HP.
  assert (StronglySorted (fun x y => entry_cmp cmp x (e_key y) (e_seq y) <> Gt) (mt_snapshot t)) as Hs.
  { unfold mt_snapshot. rewrite (mi_cmp _ _ inv).
    assert (forall a b : Entry, ikey_cmp cmp (e_key a) (e_seq a) (e_key b) (e_seq b) = entry_cmp cmp a (e_key b) (e_seq b)) as E.
    { intros a b. unfold ikey_cmp, entry_cmp. destruct (is_bytewise cmp) eqn:Eb; [|done]. by rewrite (bytewise_exact _ _ Eb). }
    eapply StronglySorted_impl; [|apply sort_by_sorted]; cbn beta.
    - intros x y. by rewrite E.
    - intros x y. rewrite !E. destruct (entry_cmp_spec cmp x (e_key y) (e_seq y)) as [|?|Hg]; [done..|]. intros _.
      destruct (entry_cmp_spec cmp y (e_key x) (e_seq x)) as [|?|Hg']; [done..|]. destruct Hg as [?|[? ?]], Hg' as [?|[? ?]]; try lia; korder.
    - intros x y z. rewrite !E. destruct (entry_cmp_spec cmp x (e_key y) (e_seq y)) as [[? ?]|Hxy|?], (entry_cmp_spec cmp y (e_key z) (e_seq z)) as [[? ?]|Hyz|?], (entry_cmp_spec cmp x (e_key z) (e_seq z)) as [|?|Hxz]; try done; intros _ _; exfalso.
      all: try destruct Hxy as [?|[? ?]]; try destruct Hyz as [?|[? ?]]; destruct Hxz as [?|[? ?]]; try lia; korder. }
  revert Hn. induction Hs as [|x l Hs IH HF]; intros Hn; [constructor|]. cbn in Hn. apply NoDup_cons in Hn as [Hx Hn]. constructor; [by apply IH|].
  rewrite Forall_forall in HF |- *. intros y Hy. specialize (HF y Hy). destruct (entry_cmp_spec cmp x (e_key y) (e_seq y)) as [[Ek Eq]|?|?]; [|done..]. exfalso. apply Hx, elem_of_map. exists y. split; [done|congruence].
Qed.

Lemma flags_tombstone r : 0 <= r_kind r < 256 -> has_bit (sl_flags (slot_of r)) FLAG_TOMBSTONE = e_tombstone (record_entry r) /\ sl_kind (slot_of r) = r_kind r.
Proof.
  intros Hk. cbn. rewrite Z.mod_small by lia. split; [|done]. unfold e_tombstone, record_entry. cbn. rewrite Z.mod_small by lia. unfold flag_bits_for_kind.
  by destruct (r_kind r =? KIND_DELETE), (r_kind r =? KIND_SINGLE_DELETE), (r_ttl r =? 0).
Qed.

Lemma slots_from_seek k s l : map entry_of (slots_from cmp k s l) = seek cmp (map entry_of l) k s.
Proof.
  induction l as [|x l IH]; cbn [slots_from map seek]; [done|]. assert (is_lt (ikey_cmp cmp (sl_key x) (sl_seq x) k s) = before cmp (entry_of x) k s) as ->.
  { unfold before, ikey_cmp. cbn. assert ((if is_bytewise cmp then slice_cmp (sl_key x) k else compare cmp (sl_key x) k) = compare cmp (sl_key x) k) as ->.
    { destruct (is_bytewise cmp) eqn:E; [|done]. by rewrite (bytewise_exact _ _ E). }
    destruct (compare cmp (sl_key x) k); cbn; [|done..]. unfold Z.ltb. by destruct (s ?= sl_seq x). }
  by destruct (before _ _ _ _).
Qed.

Lemma slots_from_in k s l x : x ∈ slots_from cmp k s l -> x ∈ l.
Proof. induction l as [|y l IH]; cbn; [done|]. destruct (is_lt _); [intros Hx; right; by apply IH|done]. Qed.

(** Slots of records of this memtable carry what their entries say. *)
Lemma slot_read now x : x ∈ concat (mt_shards t) -> has_bit (sl_flags x) FLAG_TOMBSTONE = e_tombstone (entry_of x) /\ slot_dead now x = dead now (entry_of x).
Proof.
  rewrite (mi_shards _ _ inv). intros (s & _ & Hx)%elem_of_concat_map. rewrite (proj2 (shard_spec s)) in Hx. apply elem_of_map in Hx as (r & Hr & <-).
  apply elem_of_lfilter in Hr as [Hr _]. destruct (flags_tombstone r (kinds r Hr)) as [E _]. split; [exact E|]. unfold slot_dead, dead, expired. by rewrite E.
Qed.

Lemma routed_spec k :
  match routed key_hash t k with
  | None => forall e, e ∈ mt_snapshot t -> e_key e <> k
  | Some shard => run_sorted cmp (map entry_of shard) /\ (forall x, x ∈ shard -> x ∈ concat (mt_shards t)) /\
      forall e, e_key e = k -> e ∈ map entry_of shard <-> e ∈ mt_snapshot t
  end.
Proof.
  assert (recs = [] -> forall e, e ∈ mt_snapshot t -> e_key e <> k) as Hnil.
  { intros En e He. rewrite snapshot_entries, En in He. by apply elem_of_nil in He. }
  unfold routed. destruct (Z.eqb_spec (mt_num_entries t) 0) as [E0|_].
  { apply Hnil. rewrite (mi_entries _ _ inv), to_i64_small in E0 by lia. apply nil_length_inv. lia. }
  pose proof (mi_filter _ _ inv) as Hf. destruct (mt_filter t) as [words|]; [|by apply Hnil]. destruct (filter_may_contain words (key_hash k)) eqn:Em; cbn [negb].
  - assert (nth (shard_of (key_hash k)) (mt_shards t) [] = inserts cmp (to_shard key_hash (shard_of (key_hash k)) recs) []) as Es.
    { rewrite (mi_shards _ _ inv). apply nth_lookup_Some. rewrite list_lookup_fmap, lookup_seq_lt by apply shard_of_lt. done. }
    rewrite Es. destruct (shard_spec (shard_of (key_hash k))) as [Hs HP]. split; [done|]. split.
    + intros x Hx. apply elem_of_concat. exists (inserts cmp (to_shard key_hash (shard_of (key_hash k)) recs) []). split; [|done]. rewrite <- Es. apply nth_elem_of.
      rewrite (mi_shards _ _ inv), length_map, List.length_seq. apply shard_of_lt.
    + intros e He. rewrite snapshot_entries, HP, map_map, !elem_of_map. split; intros (r & Hr & <-); exists r; (split; [|done]).
      * by apply elem_of_lfilter in Hr as [? _].
      * apply elem_of_lfilter. split; [done|]. apply Nat.eqb_eq. cbn in He. by rewrite He.
  - intros e He Ek. rewrite snapshot_entries in He. apply elem_of_map in He as (r & Hr & <-). cbn in Ek. specialize (Hf r Hr). rewrite Ek in Hf. congruence.
Qed.

Lemma get_refines k rs now : mt_get key_hash t k rs now = mem_get cmp (mt_snapshot t) k rs now.
Proof.
  pose proof (routed_spec k) as Hr. unfold mt_get. pose proof snapshot_sorted as Hs. destruct (routed key_hash t k) as [shard|].
  - destruct Hr as (Hss & Hin & Hk). rewrite <- (mem_get_same cmp k rs now (map entry_of shard) (mt_snapshot t)) by (done || by apply run_versions_same).
    unfold mem_get. rewrite <- slots_from_seek, (mi_cmp _ _ inv). destruct (slots_from cmp k rs shard) as [|x l] eqn:E; [done|]. cbn [map].
    destruct (slot_read now x) as [Et Ed]; [apply Hin, (slots_from_in k rs); rewrite E; left|]. cbn [e_key entry_of].
    destruct (is_eq _); [|done]. cbn [negb]. unfold dead. rewrite Et. unfold expired. cbn. destruct (e_tombstone (entry_of x)); [done|]. by destruct (negb _ && _).
  - rewrite (mem_get_same cmp k rs now (mt_snapshot t) []); [done|done|constructor|]. apply run_versions_none; [done|exact Hr].
Qed.

Lemma chain_refines k rs now : mt_chain key_hash t k rs now = mem_chain cmp (mt_snapshot t) k rs now.
Proof.
  pose proof (routed_spec k) as Hr. unfold mt_chain. pose proof snapshot_sorted as Hs. destruct (routed key_hash t k) as [shard|].
  - destruct Hr as (Hss & Hin & Hk). rewrite <- (mem_chain_same cmp k rs now (map entry_of shard) (mt_snapshot t)) by (done || by apply run_versions_same).
    unfold mem_chain. rewrite <- slots_from_seek, (mi_cmp _ _ inv). assert (forall x, x ∈ slots_from cmp k rs shard -> x ∈ concat (mt_shards t)) as Hin' by (intros x Hx; by eapply Hin, slots_from_in).
    induction (slots_from cmp k rs shard) as [|x l IH]; [done|]. cbn. destruct (is_eq _); [|done]. cbn [negb]. destruct (slot_read now x) as [_ Ed]; [apply Hin'; left|].
    unfold chain_version. rewrite Ed. f_equal. unfold e_merge. cbn. destruct (_ =? _); [|done]. apply IH. intros y Hy. apply Hin'. by right.
  - rewrite (mem_chain_same cmp k rs now (mt_snapshot t) []); [done|done|constructor|]. apply run_versions_none; [done|exact Hr].
Qed.

Lemma iter_refines : mem_on cmp (mt_snapshot t) None (mt_iter t).
Proof.
  unfold mt_iter. rewrite (mi_cmp _ _ inv). apply (mem_new_on cmp); [apply snapshot_sorted| |].
  - rewrite (mi_shards _ _ inv), map_map. apply Forall_forall. intros l (s & _ & <-)%elem_of_map. apply shard_spec.
  - rewrite <- concat_map. unfold mt_snapshot. by rewrite sort_by_Permutation.
Qed.
End Refine.

(** C11: a memtable is the sorted run of its records.  After any sequence of
    puts, batches and range deletes whose records differ in key or sequence,
    [snapshot] is sorted and holds the records written; [get] and [chain],
    through the hash routing, the filter and the counters, read what the sorted
    run says; the lazy iterator shows under any calls what a cursor over the
    run shows; and the range set is well formed.  The hash is arbitrary. *)
Theorem memtable_refines_run cmp (TO : TotalOrder cmp) key_hash ops
    (t := fold_left (mt_step key_hash) ops (memtable_new cmp)) (recs := concat (map op_records ops)) :
  NoDup (map record_id recs) -> (forall r, r ∈ recs -> 0 <= r_kind r < 256) -> Z.of_nat (length recs) < 2 ^ 63 ->
  run_sorted cmp (mt_snapshot t) /\ mt_snapshot t ≡ₚ map record_entry recs /\ set_wf cmp (mt_ranges t) /\
  (forall k rs now, mt_get key_hash t k rs now = mem_get cmp (mt_snapshot t) k rs now) /\
  (forall k rs now, mt_chain key_hash t k rs now = mem_chain cmp (mt_snapshot t) k rs now) /\
  (forall calls, @shown _ mem_ops (fold_left (@call _ mem_ops) calls (mt_iter t)) =
     @shown _ (shard_ops cmp) (fold_left (@call _ (shard_ops cmp)) calls (mkShardCur (mt_snapshot t) None))).
Proof.
  intros Hn Hk Hl. pose proof (mt_inv_exec cmp key_hash ops) as Hi. fold t recs in Hi. split_and!.
  - by apply (snapshot_sorted cmp key_hash recs).
  - by apply (snapshot_entries cmp key_hash).
  - apply Hi.
  - intros k rs now. by apply (get_refines cmp key_hash recs).
  - intros k rs now. by apply (chain_refines cmp key_hash recs).
  - intros calls. apply (iterators_agree cmp _); [by apply (snapshot_sorted cmp key_hash recs)|]. by apply (iter_refines cmp key_hash recs).
Qed.

Definition sample_hash (k : key) : Z := Z.of_nat (length k) * 1000003 + from_be_bytes 0 k.

Lemma memtable_refines_run_witness :
  mt_get sample_hash (fold_left (mt_step sample_hash)
    [OPut (mkRecord [x61] [x31] 1 0 KIND_PUT); OBatch [mkRecord [x62] [x32] 2 0 KIND_PUT; mkRecord [x61] [] 3 0 KIND_DELETE; mkRecord [x63] [x33] 4 0 KIND_MERGE]; ORange [x61] [x62] 5]
    (memtable_new Bytewise)) [x61] 2 0 = mkLookup (Some [x31]) 1 true false KIND_PUT.
Proof.
  pose proof (memtable_refines_run Bytewise _ sample_hash
    [OPut (mkRecord [x61] [x31] 1 0 KIND_PUT); OBatch [mkRecord [x62] [x32] 2 0 KIND_PUT; mkRecord [x61] [] 3 0 KIND_DELETE; mkRecord [x63] [x33] 4 0 KIND_MERGE]; ORange [x61] [x62] 5]) as H.
  destruct H as (_ & _ & _ & H & _).
  - apply (bool_decide_unpack _). vm_compute. exact I.
  - cbn. intros r Hr. elems; cbn; vm_compute; split; congruence.
  - cbn. lia.
  - rewrite H. vm_compute. reflexivity.
Defined.

(** A batch leaves the memtable its records would leave one at a time, in
    every field: the counting sort by shard keeps the order of the records of a
    shard, and the filter and the counters do not depend on the grouping. *)
Theorem put_batch_is_puts key_hash t recs :
  counters_ok t -> length (mt_shards t) = Z.to_nat NUM_SHARDS -> mt_put_batch key_hash t recs = fold_left (mt_put key_hash) recs t.
Proof. intros Hc Hl. by rewrite batch_after, puts_after. Qed.

Lemma put_batch_is_puts_witness :
  let recs := [mkRecord [x62] [x32] 2 0 KIND_PUT; mkRecord [x61] [] 3 0 KIND_DELETE; mkRecord [x62] [x33] 1 0 KIND_PUT] in
  mt_put_batch sample_hash (memtable_new Bytewise) recs = fold_left (mt_put sample_hash) recs (memtable_new Bytewise).
Proof. apply put_batch_is_puts; [|reflexivity]. split_and!; cbn; done. Defined.
