(* ===== verification/Scan.v ===== *)
(** * Scan: the iterator of a column family

    [Iterator] ([iterator.rs]) walks a merge of memtables and tables in either
    direction, gathers the versions of one user key into a group, resolves the
    group at the read sequence (tombstones, expiry, merge operands, range
    deletes) and stops at each key that has a value.  The pinned blocks behind
    a key or a value are immutable, so a pinned slice is its bytes here.

    The loops over a group and over groups take the fuel of the section; the
    theorem asks for more fuel than there are entries. *)

From Stdlib Require Import ZArith Lia Sorted.
From Stdlib.Strings Require Import Byte.
From stdpp Require Import base list sets sorting.
From S2P Require Import Prelude Encoding Codec Comparator Format RangeTombstone ReadPath Heap Cursor Merge.

Open Scope Z_scope.

Record VisibleVersion := mkVisible {
  v_found : bool;
  v_seq : Z;
  v_tombstone : bool;
  v_ttl : Z;
  v_merged : bool;
}.

Definition visible_default : VisibleVersion := mkVisible false 0 false 0 false.

Inductive VersionDecision := Ignore | Tombstone | Value.

Definition visible_consider (v : VisibleVersion) (seq : Z) (tombstone : bool) (ttl read_seq : Z) : VisibleVersion * VersionDecision :=
  if (read_seq <? seq) || (v_found v && (seq <=? v_seq v)) then (v, Ignore)
  else (mkVisible true seq tombstone ttl (v_merged v), if tombstone then Tombstone else Value).

Definition is_live (v : VisibleVersion) (now : Z) : bool :=
  v_merged v || (v_found v && negb (v_tombstone v) && negb (expired (v_ttl v) now)).

Record Iterator (C : Type) := mkIterator {
  it_m : MergingIter C;
  it_read_seq : Z;
  it_now : Z;
  it_key : key;
  it_group_pfx : Z;
  it_val : list byte;  (* what [value()] returns; empty for [CurVal::Empty] *)
  it_valid : bool;
  it_err : option OndaError;
  it_lower : Bound;
  it_upper : Bound;
  it_mask : list FragCursor;
  it_merge_op : option MergeOp;
  it_operands : list (list byte * Z);
}.
Arguments mkIterator {C} _ _ _ _ _ _ _ _ _ _ _ _ _.
Arguments it_m {C} _.
Arguments it_read_seq {C} _.
Arguments it_now {C} _.
Arguments it_key {C} _.
Arguments it_group_pfx {C} _.
Arguments it_val {C} _.
Arguments it_valid {C} _.
Arguments it_err {C} _.
Arguments it_lower {C} _.
Arguments it_upper {C} _.
Arguments it_mask {C} _.
Arguments it_merge_op {C} _.
Arguments it_operands {C} _.

Section Scan.
Context {C : Type} `{CursorOps C}.
Implicit Types it : Iterator C.

Definition set_m m it : Iterator C :=
  mkIterator m (it_read_seq it) (it_now it) (it_key it) (it_group_pfx it) (it_val it) (it_valid it) (it_err it)
    (it_lower it) (it_upper it) (it_mask it) (it_merge_op it) (it_operands it).
Definition set_val v it : Iterator C :=
  mkIterator (it_m it) (it_read_seq it) (it_now it) (it_key it) (it_group_pfx it) v (it_valid it) (it_err it)
    (it_lower it) (it_upper it) (it_mask it) (it_merge_op it) (it_operands it).
Definition set_state valid err it : Iterator C :=
  mkIterator (it_m it) (it_read_seq it) (it_now it) (it_key it) (it_group_pfx it) (it_val it) valid err
    (it_lower it) (it_upper it) (it_mask it) (it_merge_op it) (it_operands it).
Definition set_mask mask it : Iterator C :=
  mkIterator (it_m it) (it_read_seq it) (it_now it) (it_key it) (it_group_pfx it) (it_val it) (it_valid it) (it_err it)
    (it_lower it) (it_upper it) mask (it_merge_op it) (it_operands it).
Definition set_operands ops it : Iterator C :=
  mkIterator (it_m it) (it_read_seq it) (it_now it) (it_key it) (it_group_pfx it) (it_val it) (it_valid it) (it_err it)
    (it_lower it) (it_upper it) (it_mask it) (it_merge_op it) ops.

(** [Iterator::new] with its merge operator. *)
Definition iterator_new (cmp : Comparator) (children : list C) (read_seq now : Z) (lower upper : Bound)
    (mask : list FragCursor) (op : option MergeOp) : Iterator C :=
  mkIterator (merging_new cmp children) read_seq now [] 0 [] false None lower upper mask op [].

(** [Iterator::failed]. *)
Definition iterator_failed (cmp : Comparator) (e : OndaError) : Iterator C :=
  mkIterator (merging_new cmp []) 0 0 [] 0 [] false (Some e) Unbounded Unbounded [] None [].

Definition group_covering_seq it : option Z * Iterator C :=
  match it_mask it with
  | [] => (None, it)
  | mask =>
      let '(covering, mask) := mask_covering_seq (m_cmp (it_m it)) mask (it_key it) (it_read_seq it) None in
      (covering, set_mask mask it)
  end.

Definition masked_by_range (v : VisibleVersion) it : bool * Iterator C :=
  let '(covering, it) := group_covering_seq it in
  (match covering with Some seq => v_seq v <? seq | None => false end, it).

(** [MergingIter::key_cmp]. *)
Definition key_cmp (m : MergingIter C) (a b : key) : comparison := if is_bytewise (m_cmp m) then slice_cmp a b else compare (m_cmp m) a b.

Definition past_upper it : bool :=
  match it_upper it with
  | Unbounded => false
  | Included u => is_gt (key_cmp (it_m it) (it_key it) u)
  | Excluded u => is_ge (key_cmp (it_m it) (it_key it) u)
  end.

Definition below_lower it : bool :=
  match it_lower it with
  | Unbounded => false
  | Included l => is_lt (key_cmp (it_m it) (it_key it) l)
  | Excluded l => is_le (key_cmp (it_m it) (it_key it) l)
  end.

Definition capture_group_key it : Iterator C :=
  let k := e_key (merge_top (it_m it)) in
  mkIterator (it_m it) (it_read_seq it) (it_now it) k (key_prefix8 k) (it_val it) (it_valid it) (it_err it)
    (it_lower it) (it_upper it) (it_mask it) (it_merge_op it) (it_operands it).

Definition top_in_group it : bool :=
  if negb (merge_valid (it_m it)) then false
  else
    let k := e_key (merge_top (it_m it)) in
    if is_bytewise (m_cmp (it_m it)) then
      if negb (key_prefix8 k =? it_group_pfx it) then false else beq k (it_key it)
    else is_eq (key_cmp (it_m it) k (it_key it)).

Definition capture_value it : result (Iterator C) :=
  let? v := read_value (merge_top (it_m it)) in Ok (set_val v it).

Definition push_operand (seq : Z) it : result (Iterator C) :=
  let? v := read_value (merge_top (it_m it)) in Ok (set_operands (it_operands it ++ [(v, seq)]) it).

Definition advance_top (forward : bool) it : Iterator C := set_m (merge_advance forward (it_m it)) it.

(** What a decision does to the current value. *)
Definition apply_decision (d : VersionDecision) it : result (Iterator C) :=
  match d with
  | Ignore => Ok it
  | Tombstone => Ok (set_val [] it)
  | Value => capture_value it
  end.

(** The loop of [resolve_current_group]. *)
Fixpoint plain_loop (fuel : nat) (forward : bool) (v : VisibleVersion) it : Iterator C * result VisibleVersion :=
  match fuel with
  | O => (it, Ok v)
  | S fuel =>
      if top_in_group it then
        let top := merge_top (it_m it) in
        let '(v, d) := visible_consider v (e_seq top) (e_tombstone top) (e_ttl top) (it_read_seq it) in
        match apply_decision d it with
        | Err e => (it, Err e)
        | Ok it => plain_loop fuel forward v (advance_top forward it)
        end
      else (it, Ok v)
  end.

(** The body of the loop of [resolve_merging_group] for an entry that is not a copy. *)
Definition merging_top (forward : bool) (v : VisibleVersion) it : result (VisibleVersion * Iterator C) :=
  let top := merge_top (it_m it) in
  let seq := e_seq top in
  if e_kind top =? KIND_MERGE then
    let? it := if (seq <=? it_read_seq it) && negb (forward && v_found v) then push_operand seq it else Ok it in
    Ok (v, it)
  else
    let '(v, d) := visible_consider v seq (e_tombstone top) (e_ttl top) (it_read_seq it) in
    let? it := apply_decision d it in
    Ok (v, match d with Ignore => it | _ => if forward then it else set_operands [] it end).

Fixpoint merging_loop (fuel : nat) (forward : bool) (last_seq : option Z) (v : VisibleVersion) it
    : Iterator C * result VisibleVersion :=
  match fuel with
  | O => (it, Ok v)
  | S fuel =>
      if top_in_group it then
        let seq := e_seq (merge_top (it_m it)) in
        if bool_decide (last_seq = Some seq) then merging_loop fuel forward (Some seq) v (advance_top forward it)
        else match merging_top forward v it with
             | Err e => (it, Err e)
             | Ok (v, it) => merging_loop fuel forward (Some seq) v (advance_top forward it)
             end
      else (it, Ok v)
  end.

Definition seq_max (l : list (list byte * Z)) : option Z :=
  match l with [] => None | x :: l => Some (fold_left (fun m y => Z.max m (snd y)) l (snd x)) end.

Definition fold_group (op : MergeOp) (v : VisibleVersion) (forward : bool) (cover : option Z) it
    : Iterator C * result VisibleVersion :=
  let spans := match cover with
               | Some c => List.filter (fun o => c <? snd o) (it_operands it)
               | None => it_operands it
               end in
  match spans with
  | [] => (set_operands spans it, Ok v)
  | _ =>
      let spans := if forward then rev spans else spans in
      let it := set_operands spans it in
      let existing :=
        if v_found v && negb (v_tombstone v) && negb (expired (v_ttl v) (it_now it))
           && negb (match cover with Some c => v_seq v <=? c | None => false end)
        then Some (it_val it) else None in
      match full_merge op (it_key it) existing (map fst spans) with
      | Err e => (it, Err e)
      | Ok folded =>
          (set_val folded it,
           Ok (mkVisible true (match seq_max spans with Some newest => Z.max (v_seq v) newest | None => v_seq v end)
                 (v_tombstone v) (v_ttl v) true))
      end
  end.

Definition resolve_merging_group (fuel : nat) (op : MergeOp) (forward : bool) it : Iterator C * result VisibleVersion :=
  let it := set_operands [] (set_val [] it) in
  let '(it, r) := merging_loop fuel forward None visible_default it in
  match r with
  | Err e => (it, Err e)
  | Ok v =>
      match it_operands it with
      | [] => (it, Ok v)
      | _ => let '(cover, it) := group_covering_seq it in fold_group op v forward cover it
      end
  end.

Definition resolve_current_group (fuel : nat) (forward : bool) it : Iterator C * result VisibleVersion :=
  match it_merge_op it with
  | Some op => resolve_merging_group fuel op forward it
  | None => plain_loop fuel forward visible_default (set_val [] it)
  end.

(** [child_failed]. *)
Definition child_failed it : option (Iterator C) :=
  match m_err (it_m it) with None => None | Some e => Some (set_state false (Some e) it) end.

(** [advance_forward] and [advance_backward], which differ in the bound they stop at. *)
Fixpoint advance_groups (groups fuel : nat) (forward : bool) it : Iterator C :=
  match groups with
  | O => it
  | S groups =>
      match child_failed it with
      | Some it => it
      | None =>
          if merge_valid (it_m it) then
            let '(it, r) := resolve_current_group fuel forward (capture_group_key it) in
            match r with
            | Err e => set_state false (Some e) it
            | Ok v =>
                match child_failed it with
                | Some it => it
                | None =>
                    let '(hidden, it) := if is_live v (it_now it) then masked_by_range v it else (true, it) in
                    if hidden then advance_groups groups fuel forward it
                    else set_state (negb (if forward then past_upper it else below_lower it)) (it_err it) it
                end
            end
          else set_state false (it_err it) it
      end
  end.

Section Positioning.
Context (fuel : nat).

Definition advance_forward it : Iterator C := advance_groups fuel fuel true it.
Definition advance_backward it : Iterator C := advance_groups fuel fuel false it.

Definition seek_to_first it : Iterator C :=
  advance_forward (set_m (match it_lower it with
                          | Unbounded => merge_first (it_m it)
                          | Included l => merge_ge l U64_MAX (it_m it)
                          | Excluded l => merge_ge l 0 (it_m it)
                          end) it).

Definition seek_to_last it : Iterator C :=
  advance_backward (set_m (match it_upper it with
                           | Unbounded => merge_last (it_m it)
                           | Included u => merge_le u 0 (it_m it)
                           | Excluded u => merge_lt fuel u (it_m it)
                           end) it).

Definition iter_seek (k : key) it : Iterator C := advance_forward (set_m (merge_ge k U64_MAX (it_m it)) it).

Definition seek_for_prev (k : key) it : Iterator C := advance_backward (set_m (merge_le k 0 (it_m it)) it).

Definition iter_next it : Iterator C :=
  advance_forward (if it_valid it && negb (m_forward (it_m it)) then set_m (merge_ge (it_key it) 0 (it_m it)) it else it).

Definition iter_prev it : Iterator C :=
  advance_backward (if it_valid it && m_forward (it_m it) then set_m (merge_lt fuel (it_key it) (it_m it)) it else it).
End Positioning.
End Scan.

(** ** Groups as lists

    The loops over the merge are folds over the entries of the group. *)

(** A group's state: the visible version, the current value, the operands. *)
Abbreviation GroupState := (VisibleVersion * list byte * list (list byte * Z))%type.

Definition decide_value (d : VersionDecision) (e : Entry) (val : list byte) : result (list byte) :=
  match d with Ignore => Ok val | Tombstone => Ok [] | Value => read_value e end.

Definition plain_step (rs : Z) (e : Entry) (g : GroupState) : result GroupState :=
  let '(v, val, ops) := g in
  let '(v, d) := visible_consider v (e_seq e) (e_tombstone e) (e_ttl e) rs in
  let? val := decide_value d e val in Ok (v, val, ops).

Definition merging_step (rs : Z) (forward : bool) (e : Entry) (g : GroupState) : result GroupState :=
  let '(v, val, ops) := g in
  if e_merge e then
    if (e_seq e <=? rs) && negb (forward && v_found v) then
      let? b := read_value e in Ok (v, val, ops ++ [(b, e_seq e)])
    else Ok g
  else
    let '(v, d) := visible_consider v (e_seq e) (e_tombstone e) (e_ttl e) rs in
    let? val := decide_value d e val in
    Ok (v, val, match d with Ignore => ops | _ => if forward then ops else [] end).

Fixpoint fold_res {A S} (f : A -> S -> result S) (l : list A) (s : S) : result S :=
  match l with [] => Ok s | x :: l => let? s := f x s in fold_res f l s end.

(** One copy of each sequence: consecutive entries of one sequence are one version. *)
Definition same_entry_seq (x y : nat * Entry) : bool := e_seq (snd x) =? e_seq (snd y).

Fixpoint skip_copies (last_seq : option Z) (g : list (nat * Entry)) : list (nat * Entry) :=
  match g with
  | [] => []
  | x :: g =>
      if bool_decide (last_seq = Some (e_seq (snd x))) then skip_copies (Some (e_seq (snd x))) g
      else x :: skip_copies (Some (e_seq (snd x))) g
  end.

Lemma skip_copies_from x g : skip_copies (Some (e_seq (snd x))) g = dedup_from same_entry_seq x g.
Proof.
  revert x. induction g as [|y g IH]; intros x; cbn; [done|]. unfold same_entry_seq at 1.
  destruct (Z.eqb_spec (e_seq (snd y)) (e_seq (snd x))) as [E|E].
  - rewrite bool_decide_eq_true_2 by by rewrite E. by rewrite E, IH.
  - rewrite bool_decide_eq_false_2 by congruence. by rewrite IH.
Qed.

Lemma skip_copies_dedup g : skip_copies None g = dedup_by same_entry_seq g.
Proof. destruct g as [|x g]; cbn; [done|]. by rewrite skip_copies_from. Qed.

Lemma fold_res_app {A S} (f : A -> S -> result S) l1 l2 s :
  fold_res f (l1 ++ l2) s = let? s := fold_res f l1 s in fold_res f l2 s.
Proof. revert s. induction l1 as [|x l1 IH]; intros s; cbn; [done|]. destruct (f x s); cbn; [apply IH|done]. Qed.

Section Groups.
Context (cmp : Comparator) `{!TotalOrder cmp} {C : Type} `{Ops : CursorOps C} `{!Cursor cmp C}.
Context (runs : list (list Entry)) (runs_sorted : Forall (run_sorted cmp) runs).
Implicit Types it : Iterator C.

Lemma merge_err_advance forward (m : MergingIter C) : m_err m <> None -> m_err (merge_advance forward m) <> None.
Proof.
  intros He. unfold merge_advance. destruct (m_heap m) as [|i h]; [done|]. cbn [m_err]. destruct (m_err m); [|done].
  by repeat case_match.
Qed.

(** The top of the merge is the head of what is ahead. *)
Lemma top_ahead forward m l :
  merge_at cmp forward runs m l ->
  match l with
  | [] => merge_valid m = false
  | (_, e) :: _ => merge_valid m = true /\ merge_top m = e
  end.
Proof.
  intros Hm. pose proof (merge_top_ahead cmp _ _ _ _ Hm runs_sorted) as Ht. unfold merge_valid, merge_top.
  destruct (m_heap m) as [|i h]; [by subst l|]. destruct Ht as [l' ->]. done.
Qed.

(** [it] is inside the group of its key. *)
Definition in_group it : Prop := it_group_pfx it = key_prefix8 (it_key it).

Lemma top_in_group_spec forward it l :
  merge_at cmp forward runs (it_m it) l -> in_group it ->
  top_in_group it = match l with [] => false | (_, e) :: _ => bool_decide (e_key e = it_key it) end.
Proof.
  intros Hm Hg. pose proof (top_ahead _ _ _ Hm) as Ht. unfold top_in_group. destruct l as [|[i e] l]; [by rewrite Ht|].
  destruct Ht as [-> ->]. cbn [negb]. rewrite Hg. unfold key_cmp. rewrite (ma_cmp _ _ _ _ _ Hm). destruct (is_bytewise cmp).
  - destruct (Z.eqb_spec (key_prefix8 (e_key e)) (key_prefix8 (it_key it))) as [|Hn]; cbn [negb]; [done|].
    symmetry. apply bool_decide_eq_false. congruence.
  - destruct (compare cmp (e_key e) (it_key it)) eqn:E; cbn; symmetry; [apply bool_decide_eq_true|apply bool_decide_eq_false..].
    + by apply (kcompare_eq cmp).
    + intros He. apply (kcompare_eq cmp) in He. congruence.
    + intros He. apply (kcompare_eq cmp) in He. congruence.
Qed.

(** What the group's loops leave alone. *)
Definition same_group it it' : Prop :=
  it_read_seq it' = it_read_seq it /\ it_now it' = it_now it /\ it_key it' = it_key it /\ it_group_pfx it' = it_group_pfx it /\
  it_valid it' = it_valid it /\ it_err it' = it_err it /\ it_lower it' = it_lower it /\ it_upper it' = it_upper it /\
  it_mask it' = it_mask it /\ it_merge_op it' = it_merge_op it.

Lemma same_group_trans a b c : same_group a b -> same_group b c -> same_group a c.
Proof. unfold same_group. intuition congruence. Qed.
Lemma plain_loop_err fuel forward v it :
  m_err (it_m it) <> None ->
  let '(it', _) := plain_loop fuel forward v it in same_group it it' /\ m_err (it_m it') <> None.
Proof.
  revert v it. induction fuel as [|fuel IH]; intros v it He; cbn [plain_loop]; [by split|]. destruct (top_in_group it); [|by split].
  destruct (visible_consider _ _ _ _ _) as [v' d]. destruct (apply_decision d it) as [it1|e] eqn:Ed; [|by split].
  assert (same_group it it1 /\ it_m it1 = it_m it) as [Hs Em].
  { destruct d; cbn in Ed; [by injection Ed as <-|by injection Ed as <-|]. unfold capture_value in Ed. destruct (read_value _); [|done]. by injection Ed as <-. }
  specialize (IH v' (advance_top forward it1)). destruct (plain_loop fuel forward v' (advance_top forward it1)) as [it2 r].
  destruct IH as [IH1 IH2]; [cbn; rewrite Em; by apply merge_err_advance|]. split; [|done]. by eapply same_group_trans.
Qed.

Definition died : Prop := exists es c, es ∈ runs /\ cur_dead es c.

(** What a group's loop returns. *)
Definition group_done (forward : bool) it (rest : list (nat * Entry)) (r : result GroupState) (out : Iterator C * result VisibleVersion) : Prop :=
  same_group it (fst out) /\
  ((m_err (it_m (fst out)) <> None /\ died) \/
   match r with
   | Err e => snd out = Err e
   | Ok (v, val, ops) =>
       snd out = Ok v /\ it_val (fst out) = val /\ it_operands (fst out) = ops /\ merge_at cmp forward runs (it_m (fst out)) rest
   end).

Definition outside it (rest : list (nat * Entry)) : Prop :=
  match rest with [] => True | (_, e) :: _ => e_key e <> it_key it end.

Lemma apply_decision_spec d it e :
  merge_top (it_m it) = e ->
  match decide_value d e (it_val it) with
  | Err er => apply_decision d it = Err er
  | Ok val => exists it1, apply_decision d it = Ok it1 /\ same_group it it1 /\ it_m it1 = it_m it /\ it_val it1 = val /\ it_operands it1 = it_operands it
  end.
Proof.
  intros <-. destruct d; cbn; [by exists it|by eexists|]. unfold capture_value. destruct (read_value _); cbn; [by eexists|done].
Qed.

Lemma plain_loop_spec fuel forward v it g rest :
  merge_at cmp forward runs (it_m it) (g ++ rest) -> in_group it -> Forall (fun x => e_key (snd x) = it_key it) g -> outside it rest ->
  (length g < fuel)%nat ->
  group_done forward it rest (fold_res (plain_step (it_read_seq it)) (map snd g) (v, it_val it, it_operands it)) (plain_loop fuel forward v it).
Proof.
  revert v it g. induction fuel as [|fuel IH]; intros v it g Hm Hg Hk Ho Hf; [lia|]. cbn [plain_loop].
  rewrite (top_in_group_spec _ _ _ Hm Hg). pose proof (top_ahead _ _ _ Hm) as Ht. destruct g as [|[i e] g]; cbn [app map fold_res] in *.
  - assert (match rest with [] => false | (_, e) :: _ => bool_decide (e_key e = it_key it) end = false) as ->.
    { destruct rest as [|[j e] rest]; [done|]. by apply bool_decide_eq_false. }
    split; [done|]. right. done.
  - apply Forall_cons in Hk as [Hke Hk]. cbn in Hke. destruct Ht as [_ Ht]. rewrite bool_decide_eq_true_2 by done. rewrite Ht. cbn [plain_step snd].
    destruct (visible_consider v (e_seq e) (e_tombstone e) (e_ttl e) (it_read_seq it)) as [v' d].
    pose proof (apply_decision_spec d it e Ht) as Hd. destruct (decide_value d e (it_val it)) as [val|er]; cbn [rbind].
    2: { rewrite Hd. split; [done|by right]. }
    destruct Hd as (it1 & -> & Hs & Em & <- & <-). rewrite <- Em in Hm.
    assert (it_read_seq it = it_read_seq (advance_top forward it1)) as -> by (symmetry; apply Hs).
    destruct (merge_advance_spec cmp _ _ _ _ _ _ Hm runs_sorted) as [Hm'|[He Hd]].
    + specialize (IH v' (advance_top forward it1) g Hm'). destruct IH as [I1 I2].
      * unfold in_group in *. cbn. destruct Hs as (_ & _ & -> & -> & _). done.
      * cbn. by destruct Hs as (_ & _ & -> & _).
      * unfold outside. cbn. by destruct Hs as (_ & _ & -> & _).
      * cbn in Hf. lia.
      * split; [|done]. eapply same_group_trans; [|exact I1]. exact Hs.
    + pose proof (plain_loop_err fuel forward v' (advance_top forward it1) He) as Hp.
      destruct (plain_loop fuel forward v' (advance_top forward it1)) as [it2 r]. destruct Hp as [P1 P2].
      split; [by eapply same_group_trans|]. left. done.
Qed.
Lemma merging_top_spec forward v it e :
  merge_top (it_m it) = e ->
  match merging_step (it_read_seq it) forward e (v, it_val it, it_operands it) with
  | Err er => merging_top forward v it = Err er
  | Ok (v1, val, ops) => exists it1, merging_top forward v it = Ok (v1, it1) /\ same_group it it1 /\ it_m it1 = it_m it /\
      it_val it1 = val /\ it_operands it1 = ops
  end.
Proof.
  intros Ht. unfold merging_step, merging_top, e_merge. rewrite Ht. destruct (e_kind e =? KIND_MERGE).
  - destruct ((e_seq e <=? it_read_seq it) && negb (forward && v_found v)); cbn; [|by exists it].
    unfold push_operand. rewrite Ht. destruct (read_value e); cbn; [by eexists|done].
  - destruct (visible_consider v (e_seq e) (e_tombstone e) (e_ttl e) (it_read_seq it)) as [v' d].
    pose proof (apply_decision_spec d it e Ht) as Hd. destruct (decide_value d e (it_val it)) as [val|er]; cbn [rbind]; [|by rewrite Hd].
    destruct Hd as (it1 & -> & Hs & Em & Ev & Eo). cbn [rbind]. destruct d, forward; by eexists.
Qed.

Lemma merging_loop_err fuel forward last v it :
  m_err (it_m it) <> None ->
  let '(it', _) := merging_loop fuel forward last v it in same_group it it' /\ m_err (it_m it') <> None.
Proof.
  revert last v it. induction fuel as [|fuel IH]; intros last v it He; cbn [merging_loop]; [by split|]. destruct (top_in_group it); [|by split].
  assert (Hstep : forall v' it1, same_group it it1 -> it_m it1 = it_m it ->
    let '(it', _) := merging_loop fuel forward (Some (e_seq (merge_top (it_m it)))) v' (advance_top forward it1) in
    same_group it it' /\ m_err (it_m it') <> None).
  { intros v' it1 Hs Em. specialize (IH (Some (e_seq (merge_top (it_m it)))) v' (advance_top forward it1)).
    destruct (merging_loop _ _ _ _ _) as [it2 r]. destruct IH as [I1 I2]; [cbn; rewrite Em; by apply merge_err_advance|].
    split; [|done]. by eapply same_group_trans. }
  case_bool_decide; [by apply Hstep|]. pose proof (merging_top_spec forward v it _ eq_refl) as Hm.
  destruct (merging_step _ _ _ _) as [[[v1 val] ops]|er]; [|rewrite Hm; by split].
  destruct Hm as (it1 & -> & Hs & Em & _). by apply Hstep.
Qed.

Lemma merging_loop_spec fuel forward last v it g rest :
  merge_at cmp forward runs (it_m it) (g ++ rest) -> in_group it -> Forall (fun x => e_key (snd x) = it_key it) g -> outside it rest ->
  (length g < fuel)%nat ->
  group_done forward it rest
    (fold_res (merging_step (it_read_seq it) forward) (map snd (skip_copies last g)) (v, it_val it, it_operands it))
    (merging_loop fuel forward last v it).
Proof.
  revert last v it g. induction fuel as [|fuel IH]; intros last v it g Hm Hg Hk Ho Hf; [lia|]. cbn [merging_loop].
  rewrite (top_in_group_spec _ _ _ Hm Hg). pose proof (top_ahead _ _ _ Hm) as Ht. destruct g as [|[i e] g]; cbn [app skip_copies] in *.
  - assert (match rest with [] => false | (_, e) :: _ => bool_decide (e_key e = it_key it) end = false) as ->.
    { destruct rest as [|[j e] rest]; [done|]. by apply bool_decide_eq_false. }
    split; [done|]. right. done.
  - apply Forall_cons in Hk as [Hke Hk]. cbn in Hke. destruct Ht as [_ Ht]. rewrite (bool_decide_eq_true_2 (e_key e = it_key it)) by done. rewrite Ht. cbn [snd].
    assert (Hstep : forall v' it1, same_group it it1 -> it_m it1 = it_m it ->
      group_done forward it rest
        (fold_res (merging_step (it_read_seq it) forward) (map snd (skip_copies (Some (e_seq e)) g)) (v', it_val it1, it_operands it1))
        (merging_loop fuel forward (Some (e_seq e)) v' (advance_top forward it1))).
    { intros v' it1 Hs Em. rewrite <- Em in Hm. assert (it_read_seq it = it_read_seq (advance_top forward it1)) as -> by (symmetry; apply Hs).
      destruct (merge_advance_spec cmp _ _ _ _ _ _ Hm runs_sorted) as [Hm'|[He Hd]].
      - specialize (IH (Some (e_seq e)) v' (advance_top forward it1) g Hm'). destruct IH as [I1 I2].
        + unfold in_group in *. cbn. destruct Hs as (_ & _ & -> & -> & _). done.
        + cbn. by destruct Hs as (_ & _ & -> & _).
        + unfold outside. cbn. by destruct Hs as (_ & _ & -> & _).
        + cbn in Hf. lia.
        + split; [|done]. eapply same_group_trans; [|exact I1]. exact Hs.
      - pose proof (merging_loop_err fuel forward (Some (e_seq e)) v' (advance_top forward it1) He) as Hp.
        destruct (merging_loop _ _ _ _ _) as [it2 r]. destruct Hp as [P1 P2]. split; [by eapply same_group_trans|]. left. done. }
    case_bool_decide; [by apply Hstep|]. cbn [map fold_res snd].
    pose proof (merging_top_spec forward v it e Ht) as Hs. destruct (merging_step _ _ _ _) as [[[v1 val] ops]|er]; cbn [rbind].
    + destruct Hs as (it1 & -> & Hs & Em & <- & <-). by apply Hstep.
    + rewrite Hs. split; [done|by right].
Qed.
End Groups.
