(* ===== verification/ScanGroup.v ===== *)
(** * ScanGroup: what the versions of one key resolve to

    The merge hands a scan the versions of a key newest first (forward) or
    oldest first (backward), copies of one sequence in the order of the
    sources.  Both orders are shown to hold the same chain, the one a point
    read folds ([chain], [ReadPath]), and the scan's running resolution of the
    group to give what [read_all] gives on every version and range delete. *)

From Stdlib Require Import ZArith Lia Sorted.
From Stdlib.Strings Require Import Byte.
From stdpp Require Import base list sets sorting.
From S2P Require Import Prelude Encoding Codec Comparator Format RangeTombstone ReadPath Heap Cursor Merge Scan.

Open Scope Z_scope.

(** ** Sorting, filtering and deduplicating *)

Lemma sort_by_map {A B} (f : A -> B) (c : B -> B -> comparison) l :
  sort_by c (map f l) = map f (sort_by (fun x y => c (f x) (f y)) l).
Proof.
  unfold sort_by. induction l as [|x l IH]; cbn; [done|]. rewrite IH. generalize (foldr (sort_insert (fun x y => c (f x) (f y))) [] l).
  intros s. induction s as [|y s IHs]; cbn; [done|]. destruct (c (f x) (f y)); cbn; [done|done|by rewrite IHs].
Qed.

Lemma dedup_by_map {A B} (f : A -> B) (same : B -> B -> bool) l :
  dedup_by same (map f l) = map f (dedup_by (fun x y => same (f x) (f y)) l).
Proof.
  destruct l as [|x l]; cbn; [done|]. f_equal. revert x. induction l as [|y l IH]; intros x; cbn; [done|].
  destruct (same (f y) (f x)); cbn; by rewrite IH.
Qed.

(** Sorting is stable: an index that already grows breaks no tie. *)
Lemma sort_by_stable {A} (c d : A -> A -> comparison) (idx : A -> nat) l :
  StronglySorted (fun x y => idx x <= idx y)%nat l ->
  (forall x y, x ∈ l -> y ∈ l -> (idx x <= idx y)%nat -> d x y = Gt <-> c x y = Gt) -> sort_by d l = sort_by c l.
Proof.
  intros Hs Hd. unfold sort_by. induction Hs as [|x l Hs IH HF]; cbn; [done|]. rewrite IH by (intros; apply Hd; [by right..|done]).
  assert (HF' : Forall (fun y => y ∈ l /\ (idx x <= idx y)%nat) (foldr (sort_insert c) [] l)).
  { change (foldr (sort_insert c) [] l) with (sort_by c l). rewrite sort_by_Permutation. rewrite Forall_forall in HF |- *. auto. }
  clear IH. induction HF' as [|y s [Hin Hy] _ IH]; cbn; [done|]. pose proof (Hd x y ltac:(left) ltac:(by right) Hy) as Hxy. destruct (d x y) eqn:Ed, (c x y) eqn:Ec; try done.
  all: try (by rewrite IH). all: exfalso; naive_solver.
Qed.

Section FilterSort.
Context {A : Type} (c : A -> A -> comparison) (p : A -> bool).
Context (c_total : forall x y, c x y = Gt -> c y x <> Gt) (c_trans : forall x y z, c x y <> Gt -> c y z <> Gt -> c x z <> Gt).

Lemma filter_sort_insert x l :
  StronglySorted (fun x y => c x y <> Gt) l ->
  List.filter p (sort_insert c x l) = if p x then sort_insert c x (List.filter p l) else List.filter p l.
Proof.
  induction 1 as [|y l Hs IH HF]; cbn; [by destruct (p x)|]. destruct (c x y) eqn:E; cbn.
  3: { rewrite IH. destruct (p x), (p y); cbn; rewrite ?E; done. }
  all: destruct (p x) eqn:Ex; [|done]; destruct (p y) eqn:Ey; cbn; [by rewrite E|].
  all: destruct (List.filter p l) as [|z l'] eqn:El; [done|]; cbn; assert (z ∈ l) as Hz by
    (assert (z ∈ List.filter p l) as Hz by (rewrite El; left); by apply elem_of_lfilter in Hz as [? _]).
  all: rewrite Forall_forall in HF; specialize (HF z Hz); assert (c x z <> Gt) by (apply c_trans with y; [congruence|done]);
    by destruct (c x z).
Qed.

Lemma filter_sort_by l : List.filter p (sort_by c l) = sort_by c (List.filter p l).
Proof.
  induction l as [|x l IH]; cbn; [done|]. change (foldr (sort_insert c) [] l) with (sort_by c l).
  rewrite filter_sort_insert by by apply sort_by_sorted. rewrite IH. by destruct (p x).
Qed.
End FilterSort.

(** Filtering by something equal copies share commutes with dropping copies. *)
Lemma dedup_filter {A} (R : A -> A -> Prop) (same : A -> A -> bool) (p : A -> bool) l :
  StronglySorted R l -> (forall x y, same x y = true -> p x = p y) ->
  (forall x y z, R x y -> R y z \/ y = z -> same y x = false -> same z x = false) ->
  List.filter p (dedup_by same l) = dedup_by same (List.filter p l).
Proof.
  intros Hs Hp Hr. destruct l as [|x l]; [done|]. cbn [dedup_by].
  assert (H : List.filter p (dedup_from same x l) = if p x then dedup_from same x (List.filter p l) else dedup_by same (List.filter p l)).
  2: { cbn. rewrite H. by destruct (p x). }
  revert x Hs. induction l as [|y l IH]; intros x Hs; cbn; [by destruct (p x)|].
  apply StronglySorted_inv in Hs as [Hs HF]. apply Forall_cons in HF as [Hxy HF]. destruct (same y x) eqn:E.
  - rewrite IH by (constructor; [by apply StronglySorted_inv in Hs as [? _]|done]). rewrite (Hp y x E). destruct (p x); cbn; [by rewrite E|done].
  - cbn. rewrite (IH y Hs). destruct (p y) eqn:Ey; cbn; [rewrite E; by destruct (p x)|].
    destruct (p x); [|done]. destruct (List.filter p l) as [|z l'] eqn:El; [done|]. cbn.
    assert (z ∈ l) as Hz by (assert (z ∈ List.filter p l) as Hz by (rewrite El; left); by apply elem_of_lfilter in Hz as [? _]).
    apply StronglySorted_inv in Hs as [_ Hs]. rewrite Forall_forall in Hs. by rewrite (Hr x y z Hxy (or_introl (Hs z Hz)) E).
Qed.

(** ** The versions of a key, in either direction *)

Definition key_is_k (k : key) (x : nat * Entry) : bool := bool_decide (e_key (snd x) = k).

Definition group_of (cmp : Comparator) (forward : bool) (runs : list (list Entry)) (k : key) : list (nat * Entry) :=
  List.filter (key_is_k k) (all_ahead cmp forward runs).

(** The versions a read sees, newest first, one for each sequence. *)
Definition visible_chain (cmp : Comparator) (runs : list (list Entry)) (rs : Z) (k : key) : list (nat * Entry) :=
  List.filter (fun x => e_seq (snd x) <=? rs) (dedup_by same_entry_seq (group_of cmp true runs k)).

Definition seq_order (forward : bool) (x y : nat * Entry) : Prop :=
  if forward then e_seq (snd y) < e_seq (snd x) else e_seq (snd x) < e_seq (snd y).

(** The first copy of a sequence. *)
Definition leader (g : list (nat * Entry)) (x : nat * Entry) : Prop :=
  x ∈ g /\ forall y, y ∈ g -> e_seq (snd y) = e_seq (snd x) -> (fst x <= fst y)%nat.

Section Chain.
Context (cmp : Comparator) `{!TotalOrder cmp}.

Lemma tag_same_key forward x y :
  e_key (snd x) = e_key (snd y) ->
  tag_lt cmp forward x y <-> seq_order forward x y \/ (e_seq (snd x) = e_seq (snd y) /\ (fst x < fst y)%nat).
Proof.
  intros Ek. unfold tag_lt, tag_cmp, place_cmp, pair_cmp, place, seq_order. cbn. rewrite Ek.
  assert (compare cmp (e_key (snd y)) (e_key (snd y)) = Eq) as Er by by apply (kcompare_eq cmp). destruct forward; rewrite Er; cbn.
  - destruct (Z.compare_spec (e_seq (snd y)) (e_seq (snd x))); cbn; [rewrite Nat.compare_lt_iff|..]; split; try done; intros; try lia; by left.
  - destruct (Z.compare_spec (e_seq (snd x)) (e_seq (snd y))); cbn; [rewrite Nat.compare_lt_iff|..]; split; try done; intros; try lia; by left.
Qed.

Lemma dedup_group_from forward k x g :
  StronglySorted (tag_lt cmp forward) (x :: g) -> Forall (fun y => e_key (snd y) = k) (x :: g) ->
  StronglySorted (seq_order forward) (x :: dedup_from same_entry_seq x g) /\
  forall z, z ∈ x :: dedup_from same_entry_seq x g <-> leader (x :: g) z.
Proof.
  revert x. induction g as [|y g IH]; intros x Hs Hk; cbn [dedup_from].
  { split; [repeat constructor|]. intros z. unfold leader. rewrite list_elem_of_singleton. split; [|by intros [? _]].
    intros ->. split; [done|]. by intros y ->%list_elem_of_singleton. }
  apply StronglySorted_inv in Hs as [Hs HF]. apply Forall_cons in HF as [Hxy HF]. pose proof (Forall_inv Hk) as Hkx. cbn in Hkx.
  apply Forall_inv_tail in Hk as Hk'. pose proof (Forall_inv Hk') as Hky. cbn in Hky.
  apply tag_same_key in Hxy; [|congruence]. destruct (same_entry_seq y x) eqn:E; [apply Z.eqb_eq in E|apply Z.eqb_neq in E].
  - assert (fst x < fst y)%nat as Hlt by (unfold seq_order in Hxy; destruct forward; lia).
    destruct (IH x) as [I1 I2]; [constructor; [by apply StronglySorted_inv in Hs as [? _]|done]|constructor; [done|by apply Forall_inv_tail in Hk']|].
    split; [done|]. intros z. rewrite I2. unfold leader. setoid_rewrite elem_of_cons. setoid_rewrite elem_of_cons. split.
    + intros [Hz Hl]. split; [tauto|]. intros w [->|[->|Hw]] Ew; [apply Hl; auto| |apply Hl; auto].
      assert (fst z <= fst x)%nat by (apply Hl; [by left|congruence]). lia.
    + intros [[->|[->|Hz]] Hl]; [split; [by left|]; intros w Hw; apply Hl; tauto| |split; [by right|]; intros w Hw; apply Hl; tauto].
      exfalso. assert (fst y <= fst x)%nat by (apply Hl; [by left|done]). lia.
  - destruct (IH y Hs Hk') as [I1 I2]. assert (Hxall : forall z, z ∈ y :: g -> seq_order forward x z).
    { assert (seq_order forward x y) as Hso by (destruct Hxy as [?|[? _]]; congruence). intros z [->|Hz]%elem_of_cons; [done|].
      apply StronglySorted_inv in Hs as [_ Hy]. rewrite Forall_forall in Hy, Hk'. pose proof (Hy z Hz) as Hyz.
      apply tag_same_key in Hyz; [|rewrite Hky; symmetry; apply Hk'; by right]. unfold seq_order in *. destruct forward; lia. }
    split.
    + constructor; [done|]. apply Forall_forall. intros z Hz. apply I2 in Hz as [Hz _]. by apply Hxall.
    + intros z. rewrite elem_of_cons, I2. unfold leader. rewrite (elem_of_cons (y :: g) z x). split.
      * intros [->|[Hz Hl]].
        -- split; [by left|]. intros w [->|Hw]%elem_of_cons Ew; [done|]. apply Hxall in Hw. unfold seq_order in Hw. destruct forward; lia.
        -- split; [by right|]. intros w [->|Hw]%elem_of_cons Ew; [|by apply Hl]. apply Hxall in Hz. unfold seq_order in Hz. destruct forward; lia.
      * intros [[->|Hz] Hl]; [by left|]. right. split; [done|]. intros w Hw. apply Hl. by right.
Qed.

Lemma dedup_group forward k g :
  StronglySorted (tag_lt cmp forward) g -> Forall (fun y => e_key (snd y) = k) g ->
  StronglySorted (seq_order forward) (dedup_by same_entry_seq g) /\ forall z, z ∈ dedup_by same_entry_seq g <-> leader g z.
Proof.
  intros Hs Hk. destruct g as [|x g]; cbn.
  - split; [constructor|]. intros z. unfold leader. split; [by intros ?%elem_of_nil|by intros [?%elem_of_nil _]].
  - by apply (dedup_group_from forward k).
Qed.

Context (runs : list (list Entry)) (runs_sorted : Forall (run_sorted cmp) runs).

Lemma group_of_spec forward k :
  StronglySorted (tag_lt cmp forward) (group_of cmp forward runs k) /\ Forall (fun y => e_key (snd y) = k) (group_of cmp forward runs k) /\
  group_of cmp forward runs k ≡ₚ List.filter (key_is_k k) (tagged runs).
Proof.
  destruct (all_ahead_spec cmp runs runs_sorted forward) as [Hs HP]. split; [by apply StronglySorted_filter|]. split.
  - apply Forall_forall. intros x [_ Hx]%elem_of_lfilter. by apply bool_decide_eq_true in Hx.
  - by apply filter_Permutation.
Qed.

(** Backward, the same versions come in the opposite order. *)
Lemma group_reverse k :
  dedup_by same_entry_seq (group_of cmp false runs k) = reverse (dedup_by same_entry_seq (group_of cmp true runs k)).
Proof.
  destruct (group_of_spec true k) as (S1 & K1 & P1). destruct (group_of_spec false k) as (S2 & K2 & P2).
  destruct (dedup_group true k _ S1 K1) as [D1 E1]. destruct (dedup_group false k _ S2 K2) as [D2 E2].
  assert (HN : forall (R : nat * Entry -> nat * Entry -> Prop) l, (forall x, ~ R x x) -> StronglySorted R l -> NoDup l).
  { intros R l Hirr. induction 1 as [|x l Hs IH HF]; constructor; [|done]. intros Hx. rewrite Forall_forall in HF. by apply (Hirr x), HF. }
  assert (AntiSymm (=) (seq_order false)) by (intros x y Hx Hy; cbn in *; lia).
  apply (StronglySorted_unique (seq_order false)); [done|by apply (StronglySorted_reverse (seq_order true))|].
  apply NoDup_Permutation; [eapply HN; [|exact D2]; cbn; lia|rewrite reverse_Permutation; eapply HN; [|exact D1]; cbn; lia|].
  intros z. rewrite reverse_Permutation, E1, E2. unfold leader. setoid_rewrite P1. by setoid_rewrite P2.
Qed.
Lemma tagged_idx n rems : StronglySorted (fun x y => fst x <= fst y)%nat (tagged_from n rems).
Proof.
  revert n. induction rems as [|r rems IH]; intros n; cbn; [constructor|]. apply StronglySorted_app_2; [| |apply IH].
  - intros x [j e] (e' & -> & _)%list_elem_of_fmap Hy. cbn. apply elem_of_tagged_from in Hy as (j' & _ & -> & _). lia.
  - induction r as [|e r IHr]; cbn; constructor; [done|]. apply Forall_forall. by intros x (e' & -> & _)%list_elem_of_fmap.
Qed.

(** The point versions of a key that a read at [rs] sees, source by source. *)
Definition point_versions (rs now : Z) (k : key) : list ChainVersion :=
  map (chain_version now) (concat (map (run_versions cmp k rs) runs)).

Lemma sorted_versions rs now k :
  sort_by by_seq_desc (point_versions rs now k) =
  map (fun x => chain_version now (snd x)) (List.filter (fun x => e_seq (snd x) <=? rs) (group_of cmp true runs k)).
Proof.
  unfold point_versions. rewrite <- (tagged_snd 0), map_map, sort_by_map. f_equal.
  set (q := fun e => is_eq (compare cmp (e_key e) k) && (e_seq e <=? rs)). change (run_versions cmp k rs) with (List.filter q).
  assert (Ha : ahead cmp true (map (List.filter q) runs) = List.filter (fun x => q (snd x)) (all_ahead cmp true runs))
    by apply (ahead_filter cmp runs runs_sorted true q).
  rewrite <- (sort_by_stable _ (tag_cmp cmp true) fst); [|apply tagged_idx|].
  - etrans; [exact Ha|]. unfold group_of, key_is_k, q. generalize (all_ahead cmp true runs). intros l.
    induction l as [|x l IH]; cbn; [done|]. assert (is_eq (compare cmp (e_key (snd x)) k) = bool_decide (e_key (snd x) = k)) as ->.
    { apply eq_bool_prop_intro. rewrite bool_decide_spec. by rewrite Is_true_true, (is_eq_true cmp). }
    rewrite IH. case_bool_decide; [|done]. cbn. by destruct (e_seq (snd x) <=? rs).
  - fold tagged. rewrite tagged_filter. intros x y [_ Hx]%elem_of_lfilter [_ Hy]%elem_of_lfilter Hi. unfold q in *. kbool.
    unfold tag_cmp, place_cmp, pair_cmp, place, by_seq_desc. cbn.
    assert (compare cmp (e_key (snd x)) (e_key (snd y)) = Eq) as -> by (apply (kcompare_eq cmp); congruence). cbn.
    destruct (e_seq (snd y) ?= e_seq (snd x)); cbn; [|done..]. split; [rewrite Nat.compare_gt_iff; lia|done].
Qed.

Lemma chain_versions rs now k :
  chain (point_versions rs now k) = map (fun x => chain_version now (snd x)) (visible_chain cmp runs rs k).
Proof.
  unfold chain. rewrite sorted_versions, dedup_by_map. f_equal.
  change (dedup_by _ ?l) with (dedup_by same_entry_seq l). destruct (group_of_spec true k) as (Hs & Hk & _). symmetry.
  apply (dedup_filter (fun x y => e_seq (snd y) <= e_seq (snd x))).
  - revert Hk. induction Hs as [|x l Hs IH HF]; intros Hk; constructor; [by apply IH, (Forall_inv_tail Hk)|].
    rewrite Forall_forall in HF, Hk |- *. intros y Hy. specialize (HF y Hy). apply tag_same_key in HF; [unfold seq_order in HF; lia|].
    rewrite (Hk x), (Hk y); [done|by right|by left].
  - unfold same_entry_seq. intros x y E%Z.eqb_eq. by rewrite E.
  - unfold same_entry_seq. intros x y z Hxy Hyz. rewrite !Z.eqb_neq. destruct Hyz as [Hyz| ->]; lia.
Qed.
End Chain.

(** ** What the folds compute *)

(** The operands above the newest base, newest first, and the base. *)
Fixpoint lead_ops (d : list Entry) : list Entry :=
  match d with [] => [] | e :: d => if e_merge e then e :: lead_ops d else [] end.

Fixpoint base_of (d : list Entry) : option Entry :=
  match d with [] => None | e :: d => if e_merge e then base_of d else Some e end.

Definition vis_of (b : option Entry) : VisibleVersion :=
  match b with Some e => mkVisible true (e_seq e) (e_tombstone e) (e_ttl e) false | None => visible_default end.

Definition val_of (b : option Entry) : list byte :=
  match b with Some e => if e_tombstone e then [] else e_value e | None => [] end.

Definition operand (e : Entry) : list byte * Z := (e_value e, e_seq e).

Definition newer_entry (a b : Entry) : Prop := e_seq b < e_seq a.

Definition seen (rs : Z) (e : Entry) : bool := e_seq e <=? rs.

Section Folds.
Context (rs : Z).

Lemma read_value_cases e : (e_readable e = true /\ read_value e = Ok (e_value e)) \/ (e_readable e = false /\ exists er, read_value e = Err er).
Proof. unfold read_value. destruct (e_readable e); [by left|right; eauto]. Qed.

Lemma fold_found l v val ops :
  v_found v = true -> Forall (fun e => e_seq e <= v_seq v) l -> fold_res (merging_step rs true) l (v, val, ops) = Ok (v, val, ops).
Proof.
  intros Hf. induction 1 as [|e l He _ IH]; cbn; [done|]. destruct (e_merge e).
  - rewrite Hf, andb_false_r. cbn. apply IH.
  - unfold visible_consider. rewrite Hf. destruct (Z.leb_spec (e_seq e) (v_seq v)); [|lia]. rewrite orb_true_r. cbn. apply IH.
Qed.

Lemma decide_new e val :
  decide_value (if e_tombstone e then Tombstone else Value) e val = Ok (val_of (Some e)) \/
  (e_readable e = false /\ exists er, decide_value (if e_tombstone e then Tombstone else Value) e val = Err er).
Proof.
  cbn. destruct (e_tombstone e); cbn; [by left|]. destruct (read_value_cases e) as [[_ ->]|[? [er ->]]]; [by left|right; eauto].
Qed.

Lemma step_unseen forward e g : seen rs e = false -> merging_step rs forward e g = Ok g.
Proof.
  unfold seen. intros E. destruct g as [[v val] ops]. cbn. rewrite E. destruct (e_merge e); [done|].
  unfold visible_consider. rewrite Z.ltb_antisym, E. done.
Qed.

(** A visible operand joins the chain, or cannot be read. *)
Lemma step_operand forward e v val ops :
  seen rs e = true -> e_merge e = true -> forward && v_found v = false ->
  merging_step rs forward e (v, val, ops) = Ok (v, val, ops ++ [operand e]) \/
  (e_readable e = false /\ exists er, merging_step rs forward e (v, val, ops) = Err er).
Proof.
  unfold seen. intros E Em Hf. cbn. rewrite Em, E, Hf. cbn. destruct (read_value_cases e) as [[_ ->]|[? [er ->]]]; cbn; eauto.
Qed.

(** A visible base newer than what was found takes its place, or cannot be read. *)
Lemma step_base forward e v val ops :
  seen rs e = true -> e_merge e = false -> v_merged v = false -> (v_found v = true -> v_seq v < e_seq e) ->
  merging_step rs forward e (v, val, ops) = Ok (vis_of (Some e), val_of (Some e), if forward then ops else []) \/
  (e_readable e = false /\ exists er, merging_step rs forward e (v, val, ops) = Err er).
Proof.
  unfold seen. intros E Em Hm Hf. cbn [merging_step]. rewrite Em. unfold visible_consider. rewrite Z.ltb_antisym, E. cbn [negb orb].
  assert (v_found v && (e_seq e <=? v_seq v) = false) as ->.
  { destruct (v_found v); [|done]. specialize (Hf eq_refl). cbn. apply Z.leb_gt. lia. }
  destruct (decide_new e val) as [Hd|[? [er Hd]]]; rewrite Hd; cbn [rbind]; [left|right; eauto].
  unfold vis_of. rewrite Hm. by destruct (e_tombstone e).
Qed.

Definition unread (l : list Entry) : Prop := exists e, e ∈ l /\ e_readable e = false.

Lemma fold_forward l ops :
  StronglySorted newer_entry l ->
  match fold_res (merging_step rs true) l (visible_default, [], ops) with
  | Ok g => let d := List.filter (seen rs) l in g = (vis_of (base_of d), val_of (base_of d), ops ++ map operand (lead_ops d))
  | Err _ => unread l
  end.
Proof.
  assert (Hcons : forall e l, unread l -> unread (e :: l)) by (intros e l' (e' & ? & ?); exists e'; split; [by right|done]).
  intros Hs. revert ops. induction Hs as [|e l Hs IH HF]; intros ops; cbn [fold_res List.filter].
  { cbn. by rewrite app_nil_r. }
  destruct (seen rs e) eqn:Es; [destruct (e_merge e) eqn:Em|].
  - destruct (step_operand true e visible_default [] ops Es Em eq_refl) as [->|[? [er ->]]]; cbn [rbind]; [|exists e; split; [left|done]].
    specialize (IH (ops ++ [operand e])). destruct (fold_res _ _ _); [|by apply Hcons]. cbn. rewrite Em. by rewrite IH, <- app_assoc.
  - destruct (step_base true e visible_default [] ops Es Em eq_refl ltac:(done)) as [->|[? [er ->]]]; cbn [rbind]; [|exists e; split; [left|done]].
    rewrite fold_found; [|done|eapply Forall_impl; [exact HF|]; unfold newer_entry; cbn; lia]. cbn. rewrite Em. cbn. by rewrite app_nil_r.
  - rewrite step_unseen by done. cbn [rbind]. specialize (IH ops). destruct (fold_res _ _ _); [done|by apply Hcons].
Qed.

Lemma base_of_elem d b : base_of d = Some b -> b ∈ d.
Proof. induction d as [|e d IH]; cbn; [done|]. destruct (e_merge e); [right; auto|]. intros [= <-]. left. Qed.

Lemma fold_backward l :
  StronglySorted newer_entry l ->
  match fold_res (merging_step rs false) (reverse l) (visible_default, [], []) with
  | Ok g => let d := List.filter (seen rs) l in g = (vis_of (base_of d), val_of (base_of d), map operand (reverse (lead_ops d)))
  | Err _ => unread l
  end.
Proof.
  induction 1 as [|e l Hs IH HF]; [done|]. rewrite reverse_cons, fold_res_app. cbn [List.filter].
  destruct (fold_res _ (reverse l) _) as [g|er]; cbn [rbind]; [|destruct IH as (e' & ? & ?); exists e'; split; [by right|done]].
  cbn zeta in IH. subst g. set (d := List.filter (seen rs) l). cbn [fold_res].
  assert (Hb : v_found (vis_of (base_of d)) = true -> v_seq (vis_of (base_of d)) < e_seq e).
  { destruct (base_of d) as [b|] eqn:Eb; [|done]. intros _. cbn. apply base_of_elem, elem_of_lfilter in Eb as [Eb _].
    rewrite Forall_forall in HF. by apply HF. }
  assert (Hm : v_merged (vis_of (base_of d)) = false) by by destruct (base_of d).
  destruct (seen rs e) eqn:Es; [destruct (e_merge e) eqn:Em|].
  - destruct (step_operand false e (vis_of (base_of d)) (val_of (base_of d)) (map operand (reverse (lead_ops d))) Es Em eq_refl) as [->|[? [er ->]]];
      cbn [rbind]; [|exists e; split; [left|done]].
    cbn [fold_res lead_ops base_of]. rewrite Em, reverse_cons, map_app. done.
  - destruct (step_base false e (vis_of (base_of d)) (val_of (base_of d)) (map operand (reverse (lead_ops d))) Es Em Hm Hb) as [->|[? [er ->]]];
      cbn [rbind]; [|exists e; split; [left|done]].
    cbn. by rewrite Em.
  - by rewrite step_unseen.
Qed.

(** Without operands the plain loop computes the same, copies or not. *)
Lemma plain_skip last g v val ops :
  (forall q, last = Some q -> rs < q \/ (v_found v = true /\ q <= v_seq v)) ->
  fold_res (plain_step rs) (map snd g) (v, val, ops) = fold_res (plain_step rs) (map snd (skip_copies last g)) (v, val, ops).
Proof.
  revert last v val. induction g as [|[i e] g IH]; intros last v val Hl; cbn [map fold_res skip_copies]; [done|].
  case_bool_decide as El.
  - cbn [snd plain_step] in *. unfold visible_consider.
    assert ((rs <? e_seq e) || (v_found v && (e_seq e <=? v_seq v)) = true) as ->.
    { apply orb_true_iff. destruct (Hl _ El) as [?|[-> ?]]; [left; by apply Z.ltb_lt|right; by apply Z.leb_le]. }
    cbn [decide_value rbind]. apply IH. intros q [= <-]. by apply Hl.
  - cbn [map fold_res snd plain_step]. unfold visible_consider. destruct ((rs <? e_seq e) || (v_found v && (e_seq e <=? v_seq v))) eqn:E.
    + cbn [decide_value rbind]. apply IH. intros q [= <-]. apply orb_true_iff in E as [E|[? ?]%andb_true_iff]; [left; by apply Z.ltb_lt|right].
      split; [done|by apply Z.leb_le].
    + destruct (decide_value _ e val); cbn [rbind]; [|done]. apply IH. intros q [= <-]. right. cbn. split; [done|lia].
Qed.

Lemma plain_merging forward l v val ops :
  Forall (fun e => e_merge e = false) l ->
  match fold_res (merging_step rs forward) l (v, val, []) with
  | Ok (v', val', ops') => ops' = [] /\ fold_res (plain_step rs) l (v, val, ops) = Ok (v', val', ops)
  | Err er => fold_res (plain_step rs) l (v, val, ops) = Err er
  end.
Proof.
  intros Hm. revert v val. induction Hm as [|e l He _ IH]; intros v val; cbn [fold_res]; [done|]. cbn [merging_step plain_step]. rewrite He.
  destruct (visible_consider v (e_seq e) (e_tombstone e) (e_ttl e) rs) as [v' d]. destruct (decide_value d e val) as [val'|er]; cbn [rbind]; [|done].
  assert (match d with Ignore => [] | _ => if forward then [] else [] end = @nil (list byte * Z)) as -> by by destruct d, forward. apply IH.
Qed.
End Folds.

(** ** The reference at one key *)

(** Whether a version survives the newest covering range delete. *)
Definition above (cover : option Z) (seq : Z) : bool := match cover with Some c => c <? seq | None => true end.

Definition live_base (now : Z) (d : list Entry) : option (list byte) :=
  match base_of d with Some b => if dead now b then None else Some (e_value b) | None => None end.

(** What a chain of entries reads as. *)
Definition chain_read (op : option MergeOp) (k : key) (now : Z) (d : list Entry) : result (list byte) :=
  match lead_ops d with
  | [] => match live_base now d with Some v => Ok v | None => Err NotFound end
  | _ =>
      match op with
      | Some op => full_merge op k (live_base now d) (rev (map e_value (lead_ops d)))
      | None => Err Corruption
      end
  end.

Lemma walk_entries now d ops :
  operands_unexpiring d ->
  walk ops (map (chain_version now) d) = (rev (map e_value (lead_ops d)) ++ ops, live_base now d).
Proof.
  revert ops. induction d as [|e d IH]; intros ops Hu; cbn; [done|]. unfold live_base. cbn. destruct (e_merge e) eqn:Em; [|done].
  rewrite IH by (intros e' He'; apply Hu; by right). cbn. rewrite <- app_assoc. cbn.
  assert (dead now e = false) as ->; [|done]. unfold dead, e_tombstone, expired. rewrite (Hu e ltac:(left) Em). unfold e_merge in Em.
  apply Z.eqb_eq in Em. rewrite Em. done.
Qed.

Lemma fold_loop_by l : fold_loop None [] l = walk [] (dedup_by same_seq l).
Proof. destruct l as [|v l]; cbn; [done|]. destruct (cv_merge v); [apply fold_loop_dedup|done]. Qed.

(** A deleted version ends the fold as the end of the chain does. *)
Lemma fold_loop_cut last ops l s rest :
  cv_merge s = false -> cv_value s = None -> last <> Some (cv_seq s) -> Forall (fun v => cv_seq v <> cv_seq s) l ->
  fold_loop last ops (l ++ s :: rest) = fold_loop last ops l.
Proof.
  intros Hm Hv. revert last ops. induction l as [|v l IH]; intros last ops Hl HF; cbn.
  - rewrite bool_decide_eq_false_2 by done. by rewrite Hm, Hv.
  - apply Forall_cons in HF as [Hne HF]. rewrite !IH by (done || congruence). done.
Qed.

Lemma desc_dedup_filter (p : Z -> bool) l :
  StronglySorted (fun a b => cv_seq b <= cv_seq a) l ->
  List.filter (fun v => p (cv_seq v)) (dedup_by same_seq l) = dedup_by same_seq (List.filter (fun v => p (cv_seq v)) l).
Proof.
  intros Hs. apply (dedup_filter (fun a b => cv_seq b <= cv_seq a)); [done|..]; unfold same_seq.
  - intros x y E%Z.eqb_eq. by rewrite E.
  - intros x y z Hxy Hyz. rewrite !Z.eqb_neq. destruct Hyz as [Hyz| ->]; lia.
Qed.

Lemma sort_desc_filter (p : Z -> bool) vs :
  List.filter (fun v => p (cv_seq v)) (sort_by by_seq_desc vs) = sort_by by_seq_desc (List.filter (fun v => p (cv_seq v)) vs).
Proof.
  apply filter_sort_by; unfold by_seq_desc.
  - intros x y. rewrite Z.compare_gt_iff, Z.compare_le_iff. lia.
  - intros x y z. rewrite !Z.compare_le_iff. lia.
Qed.

(** A deleted version at [c] hides everything at or below it. *)
Lemma fold_loop_cover c vs sp :
  mkCV c false None ∈ sp -> Forall (fun s => cv_seq s <= c /\ cv_merge s = false /\ cv_value s = None) sp ->
  Forall (fun v => cv_seq v <> c) vs ->
  fold_loop None [] (sort_by by_seq_desc (vs ++ sp)) = walk [] (List.filter (fun v => c <? cv_seq v) (chain vs)).
Proof.
  intros Hc Hsp Hvs. pose proof (by_seq_desc_sorted (vs ++ sp)) as Hs. set (l := sort_by by_seq_desc (vs ++ sp)) in *.
  assert (HPl : l ≡ₚ vs ++ sp) by apply sort_by_Permutation. rewrite Forall_forall in Hsp, Hvs.
  destruct (partition_filter (fun v => c <? cv_seq v) _ l Hs) as [Ht Hd].
  { intros x y Hxy. rewrite !Z.ltb_lt. lia. }
  rewrite <- (take_drop (partition_point (fun v => c <? cv_seq v) l) l), Ht, Hd.
  assert (Hsd := StronglySorted_filter _ (fun v => negb (c <? cv_seq v)) _ Hs).
  assert (Hin : mkCV c false None ∈ List.filter (fun v => negb (c <? cv_seq v)) l).
  { apply elem_of_lfilter. split; [rewrite HPl; apply elem_of_app; by right|]. cbn. by rewrite Z.ltb_irrefl. }
  destruct (List.filter (fun v => negb (c <? cv_seq v)) l) as [|h rest] eqn:Eh; [by apply elem_of_nil in Hin|].
  assert (Hh : h ∈ l /\ cv_seq h <= c).
  { assert (h ∈ h :: rest) as Hh by left. rewrite <- Eh in Hh. apply elem_of_lfilter in Hh as [? ?]. split; [done|]. lia. }
  destruct Hh as [Hhl Hhc]. assert (cv_seq h = c) as Ehc.
  { apply elem_of_cons in Hin as [<-|Hin]; [done|]. apply StronglySorted_inv in Hsd as [_ Hsd]. rewrite Forall_forall in Hsd. apply Hsd in Hin. cbn in Hin. lia. }
  assert (h ∈ sp) as Hhs. { rewrite HPl in Hhl. apply elem_of_app in Hhl as [Hh|?]; [|done]. by destruct (Hvs h Hh). }
  destruct (Hsp h Hhs) as (_ & Hm & Hv). rewrite fold_loop_cut; [|done|done|done|].
  - unfold l. rewrite (sort_desc_filter (fun q => c <? q)), List.filter_app, (filter_none _ sp), app_nil_r.
    + rewrite fold_loop_by. unfold chain. by rewrite (desc_dedup_filter (fun q => c <? q)), (sort_desc_filter (fun q => c <? q)) by apply by_seq_desc_sorted.
    + apply Forall_forall. intros x Hx. apply Hsp in Hx as [? _]. by apply Z.ltb_ge.
  - apply Forall_forall. intros x [_ Hx]%elem_of_lfilter. apply Z.ltb_lt in Hx. lia.
Qed.

Section Reference.
Context (cmp : Comparator) `{!TotalOrder cmp} (runs : list (list Entry)) (runs_sorted : Forall (run_sorted cmp) runs).
Context (ss : list Span) (rs now : Z).

(** The read of a scan at [k]: every version in every source, in the order of the sources, and every range delete. *)
Definition scan_get (op : option MergeOp) (k : key) : result (list byte) :=
  read_all op k (point_versions cmp runs rs now k ++ span_versions cmp k rs ss).

(** Sequences are handed out once: no version shares one with a range delete over its key. *)
Definition apart : Prop :=
  forall es e, es ∈ runs -> e ∈ es -> ~ span_at cmp ss (e_key e) (e_seq e).

(** The visible versions of [k] above its range deletes. *)
Definition chain_above (k : key) : list Entry :=
  List.filter (fun e => above (newest_cover cmp ss k rs) (e_seq e)) (map snd (visible_chain cmp runs rs k)).

Lemma elem_of_visible_chain k x : x ∈ visible_chain cmp runs rs k -> exists es, es ∈ runs /\ snd x ∈ es /\ e_key (snd x) = k /\ e_seq (snd x) <= rs.
Proof.
  unfold visible_chain. intros [Hx Hrs]%elem_of_lfilter. apply Z.leb_le in Hrs.
  destruct (group_of_spec cmp runs runs_sorted true k) as (Hs & Hk & HP). apply (dedup_group cmp true k _ Hs Hk) in Hx as [Hx _].
  rewrite Forall_forall in Hk. pose proof (Hk x Hx) as Hkx. rewrite HP in Hx. apply elem_of_lfilter in Hx as [Hx _]. destruct x as [i e].
  apply elem_of_tagged in Hx as (es & Hes & He). exists es. split; [by eapply list_elem_of_lookup_2|]. done.
Qed.

Lemma point_versions_elem k v : v ∈ point_versions cmp runs rs now k -> exists es e, es ∈ runs /\ e ∈ es /\ e_key e = k /\ cv_seq v = e_seq e.
Proof.
  unfold point_versions. intros (e & He & <-)%elem_of_map. apply elem_of_concat_map in He as (es & Hes & He).
  apply (elem_of_run_versions cmp) in He as (? & ? & ?). eauto 6.
Qed.

Lemma read_chain op k : apart -> (forall es, es ∈ runs -> operands_unexpiring es) -> scan_get op k = chain_read op k now (chain_above k).
Proof.
  intros Hap Hu. unfold scan_get, read_all.
  assert (Hf : fold_loop None [] (sort_by by_seq_desc (point_versions cmp runs rs now k ++ span_versions cmp k rs ss)) =
               walk [] (map (chain_version now) (chain_above k))).
  2: { rewrite Hf, walk_entries, app_nil_r; [unfold chain_read|]. 
       - destruct (lead_ops (chain_above k)) as [|e l] eqn:El; [done|]. cbn [map rev]. destruct (rev (map e_value l) ++ [e_value e]) eqn:E; [|done].
         by apply app_nil in E as [_ ?].
       - intros e [He _]%elem_of_lfilter. apply elem_of_map in He as (x & Hx & <-). apply elem_of_visible_chain in Hx as (es & Hes & He & _).
         by apply (Hu es Hes). }
  pose proof (newest_cover_spec cmp ss k rs) as Hn. unfold chain_above.
  assert (Hmap : forall (p : Z -> bool) (l : list (nat * Entry)), map (chain_version now) (List.filter (fun e => p (e_seq e)) (map snd l)) =
    List.filter (fun v => p (cv_seq v)) (map (fun x => chain_version now (snd x)) l)).
  { intros p l. induction l as [|x l IH]; cbn; [done|]. destruct (p (e_seq (snd x))); cbn; by rewrite IH. }
  rewrite (Hmap (above (newest_cover cmp ss k rs))), <- (chain_versions cmp runs runs_sorted).
  destruct (newest_cover cmp ss k rs) as [c|]; cbn [above].
  - destruct Hn as [[Hc Hcrs] Hmax]. apply fold_loop_cover.
    + by apply (elem_of_span_versions cmp).
    + apply Forall_forall. intros s (Es & Hs & Hrs)%(elem_of_span_versions cmp). rewrite Es. cbn. split; [|done]. apply Hmax. done.
    + apply Forall_forall. intros v (es & e & Hes & He & <- & Ev)%point_versions_elem E. apply (Hap es e Hes He). by rewrite <- Ev, E.
  - assert (span_versions cmp k rs ss = []) as ->.
    { destruct (span_versions cmp k rs ss) as [|w l] eqn:E; [done|]. assert (w ∈ w :: l) as Hw by left. rewrite <- E in Hw.
      apply (elem_of_span_versions cmp) in Hw as (_ & ? & ?). by destruct (Hn (cv_seq w)). }
    rewrite app_nil_r, fold_loop_chain. f_equal. symmetry. apply filter_all. by apply Forall_forall.
Qed.
End Reference.

(** ** A range delete cuts a chain *)

Lemma lead_ops_above cover d :
  StronglySorted newer_entry d ->
  let p := fun e => above cover (e_seq e) in
  lead_ops (List.filter p d) = List.filter p (lead_ops d) /\
  base_of (List.filter p d) = match base_of d with Some b => if p b then Some b else None | None => None end.
Proof.
  intros Hs p. induction Hs as [|e d Hs IH HF]; cbn; [done|]. destruct IH as [I1 I2]. destruct (p e) eqn:Ep; cbn.
  - rewrite I1, I2. destruct (e_merge e); cbn; rewrite ?Ep; done.
  - assert (Hall : Forall (fun x => p x = false) d).
    { eapply Forall_impl; [exact HF|]. unfold newer_entry, p, above in *. cbn. intros x Hx. destruct cover; [|done]. apply Z.ltb_ge in Ep. apply Z.ltb_ge. lia. }
    rewrite (filter_none p d Hall) in *. cbn. destruct (e_merge e); cbn; rewrite ?Ep; [by rewrite <- I1, <- I2|done].
Qed.

Lemma base_newer e d b : StronglySorted newer_entry (e :: d) -> e_merge e = true -> base_of (e :: d) = Some b -> e_seq b < e_seq e.
Proof.
  intros Hs Em Hb. cbn in Hb. rewrite Em in Hb. apply base_of_elem in Hb. apply StronglySorted_inv in Hs as [_ Hs].
  rewrite Forall_forall in Hs. by apply Hs.
Qed.

Lemma lead_ops_sub d e : e ∈ lead_ops d -> e ∈ d /\ e_merge e = true.
Proof.
  induction d as [|x d IH]; cbn; [by intros ?%elem_of_nil|]. destruct (e_merge x) eqn:Ex; [|by intros ?%elem_of_nil].
  intros [->|H]%elem_of_cons; [split; [left|done]|]. destruct (IH H). split; [by right|done].
Qed.

Section Outcome.
Context (cmp : Comparator) `{!TotalOrder cmp} (runs : list (list Entry)) (runs_sorted : Forall (run_sorted cmp) runs).

Lemma visible_chain_sorted rs k : StronglySorted newer_entry (map snd (visible_chain cmp runs rs k)).
Proof.
  destruct (group_of_spec cmp runs runs_sorted true k) as (Hs & Hk & _). destruct (dedup_group cmp true k _ Hs Hk) as [Hd _].
  apply (StronglySorted_filter _ (fun x => e_seq (snd x) <=? rs)) in Hd. fold (visible_chain cmp runs rs k) in Hd.
  induction Hd as [|x l Hd IH HF]; cbn; constructor; [done|]. rewrite Forall_forall in HF. apply Forall_forall.
  intros e (y & Hy & <-)%elem_of_map. by apply HF.
Qed.

Lemma dedup_sorted_entries k : StronglySorted newer_entry (map snd (dedup_by same_entry_seq (group_of cmp true runs k))).
Proof.
  destruct (group_of_spec cmp runs runs_sorted true k) as (Hs & Hk & _). destruct (dedup_group cmp true k _ Hs Hk) as [Hd _].
  induction Hd as [|x l Hd IH HF]; cbn; constructor; [done|]. rewrite Forall_forall in HF. apply Forall_forall.
  intros e (y & Hy & <-)%elem_of_map. by apply HF.
Qed.

Lemma seen_chain rs k : List.filter (seen rs) (map snd (dedup_by same_entry_seq (group_of cmp true runs k))) = map snd (visible_chain cmp runs rs k).
Proof.
  unfold visible_chain. generalize (dedup_by same_entry_seq (group_of cmp true runs k)). intros l. unfold seen.
  induction l as [|x l IH]; cbn; [done|]. destruct (e_seq (snd x) <=? rs); cbn; by rewrite IH.
Qed.

Definition unreadable : Prop := exists es e, es ∈ runs /\ e ∈ es /\ e_readable e = false.

Lemma unread_group forward k : unread (map snd (dedup_by same_entry_seq (group_of cmp forward runs k))) -> unreadable.
Proof.
  intros (e & (x & Hx & <-)%elem_of_map & He). destruct (group_of_spec cmp runs runs_sorted forward k) as (Hs & Hk & HP).
  apply (dedup_group cmp forward k _ Hs Hk) in Hx as [Hx _]. rewrite HP in Hx. apply elem_of_lfilter in Hx as [Hx _]. destruct x as [i e].
  apply elem_of_tagged in Hx as (es & Hes & Hin). exists es, e. split; [by eapply list_elem_of_lookup_2|done].
Qed.

(** The merging fold of a group, in either direction. *)
Lemma merging_group rs forward k :
  match fold_res (merging_step rs forward) (map snd (skip_copies None (group_of cmp forward runs k))) (visible_default, [], []) with
  | Ok g => let d := map snd (visible_chain cmp runs rs k) in
      g = (vis_of (base_of d), val_of (base_of d), map operand (if forward then lead_ops d else reverse (lead_ops d)))
  | Err _ => unreadable
  end.
Proof.
  rewrite skip_copies_dedup. pose proof (unread_group true k) as Hu. destruct forward.
  - pose proof (fold_forward rs _ [] (dedup_sorted_entries k)) as Hf. destruct (fold_res _ _ _) as [g|er]; [|auto].
    cbn zeta in *. by rewrite seen_chain in Hf.
  - rewrite group_reverse by done. pose proof (fold_backward rs _ (dedup_sorted_entries k)) as Hf.
    assert (forall l : list (nat * Entry), map snd (reverse l) = reverse (map snd l)) as Hr by (intros l; by rewrite <- !fmap_reverse).
    rewrite Hr. destruct (fold_res _ _ _) as [g|er]; [|auto]. cbn zeta in *. by rewrite seen_chain in Hf.
Qed.

(** The plain fold of a group without operands. *)
Lemma plain_group rs forward k ops :
  (forall es e, es ∈ runs -> e ∈ es -> e_merge e = false) ->
  match fold_res (plain_step rs) (map snd (group_of cmp forward runs k)) (visible_default, [], ops) with
  | Ok g => let d := map snd (visible_chain cmp runs rs k) in g = (vis_of (base_of d), val_of (base_of d), ops)
  | Err _ => unreadable
  end.
Proof.
  intros Hnm. rewrite (plain_skip rs None) by done.
  assert (Hm : Forall (fun e => e_merge e = false) (map snd (skip_copies None (group_of cmp forward runs k)))).
  { apply Forall_forall. intros e (x & Hx & <-)%elem_of_map. rewrite skip_copies_dedup in Hx.
    destruct (group_of_spec cmp runs runs_sorted forward k) as (Hs & Hk & HP). apply (dedup_group cmp forward k _ Hs Hk) in Hx as [Hx _].
    rewrite HP in Hx. apply elem_of_lfilter in Hx as [Hx _]. destruct x as [i e]. apply elem_of_tagged in Hx as (es & Hes & He).
    apply (Hnm es); [by eapply list_elem_of_lookup_2|done]. }
  pose proof (merging_group rs forward k) as Hg. pose proof (plain_merging rs forward _ visible_default [] ops Hm) as Hp.
  destruct (fold_res (merging_step rs forward) _ _) as [[[v val] ops']|er]; [|by rewrite Hp].
  destruct Hp as [-> ->]. cbn zeta in *. injection Hg as -> -> _. done.
Qed.
End Outcome.
