(* ===== verification/ScanIter.v ===== *)
(** * ScanIter: a scan is a cursor over the visible keys

    The specification of an iterator is a position in a list: the keys inside
    the bounds that have a value at the read sequence, each with the value a
    read of every version gives ([visible_pairs]).  [scan_refines] shows that
    the iterator follows it through any sequence of positioning calls in either
    direction, over any cursors that meet [Cursor], or reports an error for
    which there is a cause. *)

From Stdlib Require Import ZArith Lia Sorted.
From Stdlib.Strings Require Import Byte.
From stdpp Require Import base list sets sorting.
From S2P Require Import Prelude Encoding Codec Comparator Format RangeTombstone ReadPath Heap Cursor Merge Scan ScanGroup.

Open Scope Z_scope.

(** ** The specification *)

Definition above_lower (cmp : Comparator) (lower : Bound) (k : key) : bool :=
  match lower with Unbounded => true | Included l => is_ge (compare cmp k l) | Excluded l => is_gt (compare cmp k l) end.

Definition below_upper (cmp : Comparator) (upper : Bound) (k : key) : bool :=
  match upper with Unbounded => true | Included u => is_le (compare cmp k u) | Excluded u => is_lt (compare cmp k u) end.

Definition in_bounds (cmp : Comparator) (lower upper : Bound) (k : key) : bool := above_lower cmp lower k && below_upper cmp upper k.

(** Every key with an entry, once, in order. *)
Definition scan_keys (cmp : Comparator) (runs : list (list Entry)) : list key :=
  dedup_by beq (sort_by (compare cmp) (map e_key (concat runs))).

(** The calls of an iterator. *)
Inductive Move := MFirst | MLast | MSeek (k : key) | MSeekForPrev (k : key) | MNext | MPrev.

Definition move `{CursorOps C} (fuel : nat) (it : Iterator C) (mv : Move) : Iterator C :=
  match mv with
  | MFirst => seek_to_first fuel it
  | MLast => seek_to_last fuel it
  | MSeek k => iter_seek fuel k it
  | MSeekForPrev k => seek_for_prev fuel k it
  | MNext => iter_next fuel it
  | MPrev => iter_prev fuel it
  end.

(** What a caller sees. *)
Definition observe {C} (it : Iterator C) : option (key * list byte) :=
  if it_valid it then Some (it_key it, it_val it) else None.

(** The window the range mask of a scan is cut to: [iterator_range_mask] widens an inclusive upper bound. *)
Definition window_lower (lower : Bound) : option key :=
  match lower with Unbounded => None | Included k | Excluded k => Some k end.
Definition window_upper (upper : Bound) : option key :=
  match upper with Included _ | Unbounded => None | Excluded k => Some k end.

Section Spec.
Context (cmp : Comparator) (lower upper : Bound) (pairs : list (key * list byte)).

Definition first_from (p : key -> bool) : option (key * list byte) := head (List.filter (fun x => p (fst x)) pairs).
Definition last_to (p : key -> bool) : option (key * list byte) := last (List.filter (fun x => p (fst x)) pairs).

Definition spec_move (pos : option (key * list byte)) (mv : Move) : option (key * list byte) :=
  match mv, pos with
  | MFirst, _ => head pairs
  | MLast, _ => last pairs
  | MSeek k, _ => first_from (fun x => is_ge (compare cmp x k))
  | MSeekForPrev k, _ => last_to (fun x => is_le (compare cmp x k))
  | MNext, Some (k, _) => first_from (fun x => is_gt (compare cmp x k))
  | MPrev, Some (k, _) => last_to (fun x => is_lt (compare cmp x k))
  | _, None => None
  end.

(** Stepping from a valid position and seeking inside the bounds.  The code accepts the other calls, but then
    compares keys with the far bound only. *)
Definition allowed (pos : option (key * list byte)) (mv : Move) : bool :=
  match mv with
  | MFirst | MLast => true
  | MSeek k => above_lower cmp lower k
  | MSeekForPrev k => below_upper cmp upper k
  | MNext | MPrev => match pos with Some _ => true | None => false end
  end.

Fixpoint allowed_all (pos : option (key * list byte)) (mvs : list Move) : bool :=
  match mvs with [] => true | mv :: mvs => allowed pos mv && allowed_all (spec_move pos mv) mvs end.
End Spec.

(** The keys inside the bounds that a read finds, each with what it returns. *)
Definition pairs_of (cmp : Comparator) (lower upper : Bound) (get : key -> result (list byte)) (ks : list key) : list (key * list byte) :=
  omap (fun k => if in_bounds cmp lower upper k then match get k with Ok v => Some (k, v) | Err _ => None end else None) ks.

Definition visible_pairs (cmp : Comparator) (runs : list (list Entry)) (ss : list Span) (rs now : Z) (op : option MergeOp)
    (lower upper : Bound) : list (key * list byte) :=
  pairs_of cmp lower upper (scan_get cmp runs ss rs now op) (scan_keys cmp runs).

(** ** The keys of a scan *)

Section Keys.
Context (cmp : Comparator) `{!TotalOrder cmp} (runs : list (list Entry)).

Lemma beq_spec a b : beq a b = true <-> a = b.
Proof. unfold beq. by rewrite bool_decide_eq_true. Qed.

Lemma elem_of_scan_keys k : k ∈ scan_keys cmp runs <-> exists es e, es ∈ runs /\ e ∈ es /\ e_key e = k.
Proof.
  unfold scan_keys. rewrite (dedup_by_elem beq beq_spec), sort_by_Permutation, elem_of_map. setoid_rewrite elem_of_concat. naive_solver.
Qed.

Lemma scan_keys_sorted : StronglySorted (klt cmp) (scan_keys cmp runs).
Proof.
  pose proof total_laws as L. unfold scan_keys.
  eapply StronglySorted_impl; [|apply (dedup_by_sorted beq beq_spec (kle cmp)); [apply kle_antisym; exact _|apply sort_by_sorted]].
  - intros a b [Hle Hn]. cbn in *. by apply kneq_lt.
  - intros x y Hxy. rewrite (ol_anti _ L), Hxy. done.
  - intros x y z. apply kle_trans; exact _.
Qed.

Lemma elem_of_pairs_of lower upper get ks k v :
  (k, v) ∈ pairs_of cmp lower upper get ks <-> k ∈ ks /\ in_bounds cmp lower upper k = true /\ get k = Ok v.
Proof.
  unfold pairs_of. rewrite list_elem_of_omap. split.
  - intros (k' & Hk & Hv). destruct (in_bounds cmp lower upper k') eqn:Eb; [|done]. destruct (get k') eqn:Eg; [|done]. by injection Hv as -> ->.
  - intros (Hk & Hb & Hg). exists k. by rewrite Hb, Hg.
Qed.

Lemma pairs_of_sorted lower upper get ks : StronglySorted (klt cmp) ks -> StronglySorted (fun x y => klt cmp (fst x) (fst y)) (pairs_of cmp lower upper get ks).
Proof.
  induction 1 as [|k ks Hs IH HF]; [constructor|]. rewrite Forall_forall in HF. cbn.
  destruct (in_bounds cmp lower upper k); [|exact IH]. destruct (get k) as [v|]; [|exact IH]. constructor; [exact IH|].
  apply Forall_forall. intros [k2 v2] (Hk2 & _)%elem_of_pairs_of. by apply HF.
Qed.

(** Two lists of pairs with the same members are the same. *)
Lemma pairs_of_eq lower upper get get' ks ks' :
  StronglySorted (klt cmp) ks -> StronglySorted (klt cmp) ks' ->
  (forall k, in_bounds cmp lower upper k = true -> get k = get' k) ->
  (forall k v, in_bounds cmp lower upper k = true -> get k = Ok v -> k ∈ ks <-> k ∈ ks') ->
  pairs_of cmp lower upper get ks = pairs_of cmp lower upper get' ks'.
Proof.
  intros Hs Hs' Hg Hk. pose proof (pairs_of_sorted lower upper get ks Hs) as H1. pose proof (pairs_of_sorted lower upper get' ks' Hs') as H2.
  assert (forall l, StronglySorted (fun x y : key * list byte => klt cmp (fst x) (fst y)) l -> NoDup l) as Hnd.
  { intros l Hl. apply NoDup_ListNoDup. induction Hl as [|x l Hl IH HF]; constructor; [|done]. rewrite <- list_elem_of_In. intros Hx. rewrite Forall_forall in HF. specialize (HF x Hx). by apply klt_irrefl in HF. }
  assert (AntiSymm eq (fun x y : key * list byte => klt cmp (fst x) (fst y))) as Ha by (intros x y ? ?; exfalso; korder).
  apply (StronglySorted_unique (fun x y => klt cmp (fst x) (fst y))); [done..|].
  apply NoDup_Permutation; [by apply Hnd..|]. intros [k v]. rewrite !elem_of_pairs_of. split.
  - intros (Hin & Hb & Hv). rewrite <- Hg by done. split_and!; try done. by apply (Hk k v).
  - intros (Hin & Hb & Hv). rewrite <- Hg in Hv by done. split_and!; try done. by apply (Hk k v).
Qed.

Context (ss : list Span) (rs now : Z) (op : option MergeOp) (lower upper : Bound).
Local Abbreviation pairs := (visible_pairs cmp runs ss rs now op lower upper).

Lemma elem_of_pairs k v :
  (k, v) ∈ pairs <-> k ∈ scan_keys cmp runs /\ in_bounds cmp lower upper k = true /\ scan_get cmp runs ss rs now op k = Ok v.
Proof. apply elem_of_pairs_of. Qed.

Lemma pairs_sorted : StronglySorted (fun x y => klt cmp (fst x) (fst y)) pairs.
Proof. apply pairs_of_sorted, scan_keys_sorted. Qed.

(** The first pair a predicate selects, by what makes it the first. *)
Lemma first_from_spec p k v :
  (k, v) ∈ pairs -> p k = true -> (forall k' v', (k', v') ∈ pairs -> p k' = true -> kle cmp k k') -> first_from pairs p = Some (k, v).
Proof.
  intros Hin Hp Hmin. unfold first_from. pose proof (StronglySorted_filter _ (fun x => p (fst x)) _ pairs_sorted) as Hs.
  assert (Hf : (k, v) ∈ List.filter (fun x => p (fst x)) pairs) by by apply elem_of_lfilter.
  destruct (List.filter (fun x => p (fst x)) pairs) as [|[k' v'] l] eqn:El; [by apply elem_of_nil in Hf|]. cbn.
  apply elem_of_cons in Hf as [->|Hf]; [done|]. exfalso. apply StronglySorted_inv in Hs as [_ Hs]. rewrite Forall_forall in Hs. apply Hs in Hf. cbn in Hf.
  assert ((k', v') ∈ (k', v') :: l) as Hk by left. rewrite <- El in Hk. apply elem_of_lfilter in Hk as [Hk Hpk]. specialize (Hmin k' v' Hk Hpk). korder.
Qed.

Lemma last_to_spec p k v :
  (k, v) ∈ pairs -> p k = true -> (forall k' v', (k', v') ∈ pairs -> p k' = true -> kle cmp k' k) -> last_to pairs p = Some (k, v).
Proof.
  intros Hin Hp Hmax. unfold last_to. pose proof (StronglySorted_filter _ (fun x => p (fst x)) _ pairs_sorted) as Hs.
  assert (Hf : (k, v) ∈ List.filter (fun x => p (fst x)) pairs) by by apply elem_of_lfilter.
  destruct (last (List.filter (fun x => p (fst x)) pairs)) as [[k' v']|] eqn:El; [|apply last_None in El; rewrite El in Hf; by apply elem_of_nil in Hf].
  apply last_Some in El as [l El]. rewrite El in Hf, Hs. apply elem_of_app in Hf as [Hf|Hf%list_elem_of_singleton]; [|by injection Hf as -> ->]. exfalso.
  apply StronglySorted_app in Hs as (Hs & _ & _). specialize (Hs _ (k', v') Hf ltac:(left)). cbn in Hs.
  assert ((k', v') ∈ List.filter (fun x => p (fst x)) pairs) as Hk by (rewrite El; apply elem_of_app; right; left).
  apply elem_of_lfilter in Hk as [Hk Hpk]. specialize (Hmax k' v' Hk Hpk). korder.
Qed.

(** No pair is selected. *)
Lemma none_from p : (forall k v, (k, v) ∈ pairs -> p k = false) -> first_from pairs p = None /\ last_to pairs p = None.
Proof.
  intros Hn. unfold first_from, last_to. rewrite filter_none; [done|]. apply Forall_forall. intros [k v] Hk. by apply (Hn k v).
Qed.
End Keys.

(** ** Errors last *)

Section Sticky.
Context {C : Type} `{CursorOps C}.
Implicit Types it : Iterator C.

Lemma capture_value_err it it' : capture_value it = Ok it' -> it_err it' = it_err it.
Proof. unfold capture_value. destruct (read_value _); cbn; [|done]. by intros [= <-]. Qed.

Lemma push_operand_err s it it' : push_operand s it = Ok it' -> it_err it' = it_err it.
Proof. unfold push_operand. destruct (read_value _); cbn; [|done]. by intros [= <-]. Qed.

Lemma apply_decision_err d it it' : apply_decision d it = Ok it' -> it_err it' = it_err it.
Proof. destruct d; [by intros [= <-]..|apply capture_value_err]. Qed.

Lemma plain_loop_it_err fuel forward v it : it_err (fst (plain_loop fuel forward v it)) = it_err it.
Proof.
  revert v it. induction fuel as [|fuel IH]; intros v it; cbn [plain_loop]; [done|]. destruct (top_in_group it); [|done].
  destruct (visible_consider _ _ _ _ _) as [v' d]. destruct (apply_decision d it) as [it'|e] eqn:Ed; [|done]. rewrite IH. by apply apply_decision_err in Ed.
Qed.

Lemma merging_top_err forward v it v' it' : merging_top forward v it = Ok (v', it') -> it_err it' = it_err it.
Proof.
  unfold merging_top. destruct (_ =? _).
  - destruct (_ && _); cbn; [|by intros [= <- <-]]. destruct (push_operand _ _) as [i|] eqn:Ep; cbn; [|done]. intros [= <- <-]. by apply push_operand_err in Ep.
  - destruct (visible_consider _ _ _ _ _) as [v1 d]. destruct (apply_decision d it) as [i|] eqn:Ed; cbn; [|done]. intros [= <- <-]. apply apply_decision_err in Ed. by destruct d, forward.
Qed.

Lemma merging_loop_it_err fuel forward last v it : it_err (fst (merging_loop fuel forward last v it)) = it_err it.
Proof.
  revert last v it. induction fuel as [|fuel IH]; intros last v it; cbn [merging_loop]; [done|]. destruct (top_in_group it); [|done].
  cbv zeta. case_bool_decide; [by rewrite IH|]. destruct (merging_top forward v it) as [[v' it']|e] eqn:Et; [|done]. rewrite IH. by apply merging_top_err in Et.
Qed.

Lemma group_covering_err it : it_err (snd (group_covering_seq it)) = it_err it.
Proof. unfold group_covering_seq. destruct (it_mask it); [done|]. by destruct (mask_covering_seq _ _ _ _ _). Qed.

Lemma fold_group_err op v forward cover it : it_err (fst (fold_group op v forward cover it)) = it_err it.
Proof. unfold fold_group. destruct (match cover with Some _ => _ | None => _ end); [done|]. by destruct (full_merge _ _ _ _). Qed.

Lemma resolve_err fuel forward it : it_err (fst (resolve_current_group fuel forward it)) = it_err it.
Proof.
  unfold resolve_current_group, resolve_merging_group. destruct (it_merge_op it) as [op|]; [|by rewrite plain_loop_it_err].
  pose proof (merging_loop_it_err fuel forward None visible_default (set_operands [] (set_val [] it))) as Hl.
  destruct (merging_loop _ _ _ _ _) as [it1 [v|e]]; cbn in Hl; [|done]. destruct (it_operands it1); [done|].
  pose proof (group_covering_err it1) as Hc. destruct (group_covering_seq it1) as [cover it2]. cbn in Hc. rewrite fold_group_err. congruence.
Qed.

Lemma advance_groups_err groups fuel forward it : it_err it <> None -> it_err (advance_groups groups fuel forward it) <> None.
Proof.
  revert it. induction groups as [|groups IH]; intros it He; cbn [advance_groups]; [done|]. unfold child_failed. destruct (m_err (it_m it)); [done|].
  destruct (merge_valid (it_m it)); [|done]. pose proof (resolve_err fuel forward (capture_group_key it)) as Hr.
  destruct (resolve_current_group _ _ _) as [it1 [v|e]]; [|done]. cbn in Hr. destruct (m_err (it_m it1)); [done|].
  destruct (is_live v (it_now it1)); [|apply IH; congruence].
  unfold masked_by_range. pose proof (group_covering_err it1) as Hc. destruct (group_covering_seq it1) as [cover it2]. cbn in Hc.
  destruct (match cover with Some _ => _ | None => _ end); [apply IH|cbn]; congruence.
Qed.

Lemma move_err fuel it mv : it_err it <> None -> it_err (move fuel it mv) <> None.
Proof.
  intros He. destruct mv; cbn; apply advance_groups_err; try done; destruct (_ && _); done.
Qed.

Lemma moves_err fuel mvs it : it_err it <> None -> it_err (fold_left (move fuel) mvs it) <> None.
Proof. revert it. induction mvs as [|mv mvs IH]; intros it He; cbn; [done|]. by apply IH, move_err. Qed.

(** The merge keeps the error of the first child that failed. *)
Lemma note_invalid_some (cs : list C) err : err <> None -> fold_left note_invalid cs err <> None.
Proof. revert err. induction cs as [|c cs IH]; intros [e|] He; cbn; try done. by apply IH. Qed.

Lemma advance_groups_merr groups fuel forward it : m_err (it_m it) <> None -> it_m (advance_groups groups fuel forward it) = it_m it.
Proof. intros He. destruct groups; cbn [advance_groups]; [done|]. unfold child_failed. by destruct (m_err (it_m it)). Qed.

Lemma moves_merr fuel mvs it : m_err (it_m it) <> None -> m_err (it_m (fold_left (move fuel) mvs it)) <> None.
Proof.
  revert it. induction mvs as [|mv mvs IH]; intros it He; cbn; [done|]. apply IH.
  assert (forall forward it', m_err (it_m it') <> None -> m_err (it_m (advance_groups fuel fuel forward it')) <> None) as Hgo
    by (intros forward it' H'; by rewrite advance_groups_merr).
  destruct mv; cbn; apply Hgo; cbn;
    repeat first [exact He | by apply note_invalid_some | match goal with |- context [match ?b with _ => _ end] => destruct b; cbn end].
Qed.
End Sticky.

(** ** Resolving a group *)

(** The merge operator refused the operands of a key of the runs, all visible at [rs]; a key inside the bounds is
    then one whose read fails. *)
Definition refused (cmp : Comparator) (runs : list (list Entry)) (rs : Z) (op : option MergeOp) (lower upper : Bound)
    (get : key -> result (list byte)) : Prop :=
  exists o k existing ops, op = Some o /\ o k existing ops = None /\ ops <> [] /\
    (forall v, v ∈ ops -> exists es e, es ∈ runs /\ e ∈ es /\ e_key e = k /\ e_seq e <= rs /\ e_merge e = true /\ e_value e = v) /\
    (in_bounds cmp lower upper k = true -> exists e, get k = Err e /\ e <> NotFound).

Section Walk.
Context (cmp : Comparator) `{!TotalOrder cmp} {C : Type} `{Ops : CursorOps C} `{!Cursor cmp C}.
Context (runs : list (list Entry)) (runs_sorted : Forall (run_sorted cmp) runs).
Context (frss : list (list Fragment)) (wl wu : option key) (rs now : Z) (op : option MergeOp) (lower upper : Bound).
Context (operands_ok : forall es, es ∈ runs -> operands_unexpiring es).
Context (op_ok : op = None -> forall es e, es ∈ runs -> e ∈ es -> e_merge e = false).
Local Abbreviation ss := (concat (map spans_of_fragments frss)).
Context (ranges_apart : apart cmp runs ss).
Context (bounds_in_window : forall k, in_bounds cmp lower upper k = true -> in_window cmp wl wu k).
Implicit Types it : Iterator C.

(** What can go wrong: a child fails, a value does not read, the operator refuses. *)
Local Abbreviation op_fails := (refused cmp runs rs op lower upper (scan_get cmp runs ss rs now op)).
Definition fault it : Prop := (m_err (it_m it) <> None /\ died cmp runs) \/ unreadable runs \/ op_fails.

(** The part of an iterator that does not change. *)
Record env it : Prop := {
  env_rs : it_read_seq it = rs;
  env_now : it_now it = now;
  env_op : it_merge_op it = op;
  env_lower : it_lower it = lower;
  env_upper : it_upper it = upper;
  env_mask : mask_inv cmp wl wu (it_mask it) frss;
}.

(** The same key and outcome so far. *)
Definition kept it it' : Prop := env it' /\ it_key it' = it_key it /\ it_err it' = it_err it.

Lemma same_group_kept it it' : env it -> same_group it it' -> kept it it'.
Proof.
  intros [? ? ? ? ? Hm] (? & ? & ? & ? & ? & ? & ? & ? & Em & ?). split; [|done]. constructor; congruence.
Qed.

Lemma kept_trans a b c : kept a b -> kept b c -> kept a c.
Proof. intros (_ & ? & ?) (? & ? & ?). split; [done|]. split; congruence. Qed.

Definition hides (cover : option Z) (v : VisibleVersion) : bool := match cover with Some c => v_seq v <? c | None => false end.

Lemma covering_spec it :
  env it -> m_cmp (it_m it) = cmp ->
  let '(cover, it') := group_covering_seq it in
  kept it it' /\ it_m it' = it_m it /\ it_val it' = it_val it /\ it_operands it' = it_operands it /\
  (in_window cmp wl wu (it_key it) -> cover = newest_cover cmp ss (it_key it) rs).
Proof.
  intros He Hc. unfold group_covering_seq. destruct (it_mask it) as [|c0 mask] eqn:Em.
  - split; [by split|]. split; [done|]. split; [done|]. split; [done|]. intros Hw.
    rewrite <- (mask_inv_covering cmp _ wl wu [] frss); [done| |done]. rewrite <- Em. apply He.
  - rewrite Hc, (env_rs _ He). pose proof (env_mask _ He) as Hm. rewrite Em in Hm.
    pose proof (mask_covering_seq_inv cmp wl wu _ frss (it_key it) rs None Hm) as Hi.
    pose proof (mask_inv_covering cmp _ wl wu _ frss (it_key it) rs Hm) as Hcov.
    destruct (mask_covering_seq cmp (c0 :: mask) (it_key it) rs None) as [cover mask']. cbn in Hi, Hcov.
    split; [|done]. split; [|done]. destruct He. by split.
Qed.

(** A group resolved: its value when it has one. *)
Definition resolved it (v : VisibleVersion) : Prop :=
  in_window cmp wl wu (it_key it) ->
  scan_get cmp runs ss rs now op (it_key it) =
  if is_live v now && negb (hides (newest_cover cmp ss (it_key it) rs) v) then Ok (it_val it) else Err NotFound.

Lemma live_base_vis b :
  is_live (vis_of b) now = match b with Some e => negb (dead now e) | None => false end.
Proof. unfold is_live, dead. destruct b as [e|]; [|done]. cbn. by rewrite negb_orb. Qed.

(** Without operands the group is its base. *)
Lemma resolved_base it :
  let d := map snd (visible_chain cmp runs rs (it_key it)) in
  lead_ops d = [] -> it_val it = val_of (base_of d) -> resolved it (vis_of (base_of d)).
Proof.
  intros d Hl Hv _. rewrite read_chain by done. unfold chain_read, chain_above. fold d.
  destruct (lead_ops_above (newest_cover cmp ss (it_key it) rs) d) as [El Eb]; [by apply visible_chain_sorted|].
  rewrite El, Hl. cbn [List.filter]. unfold live_base. rewrite Eb, live_base_vis. destruct (base_of d) as [b|] eqn:Ebd; [|done].
  assert (above (newest_cover cmp ss (it_key it) rs) (e_seq b) = negb (hides (newest_cover cmp ss (it_key it) rs) (vis_of (Some b)))) as ->.
  { pose proof (newest_cover_spec cmp ss (it_key it) rs) as Hn. destruct (newest_cover cmp ss (it_key it) rs) as [c|]; [|done]. cbn.
    assert (e_seq b <> c). { apply base_of_elem, elem_of_map in Ebd as (x & Hx & <-). apply (elem_of_visible_chain cmp runs runs_sorted) in Hx as (es & Hes & He & Hk & _).
      intros E. apply (ranges_apart es (snd x) Hes He). rewrite Hk, E. apply Hn. }
    destruct (Z.ltb_spec c (e_seq b)), (Z.ltb_spec (e_seq b) c); cbn; try done; lia. }
  rewrite Hv. cbn. destruct (hides _ _); cbn [negb]; [by rewrite andb_false_r|]. rewrite andb_true_r. unfold dead.
  destruct (e_tombstone b); cbn; [done|]. by destruct (expired (e_ttl b) now).
Qed.
Lemma fold_seq_max (l : list (list byte * Z)) a : a <= fold_left (fun m y => Z.max m (snd y)) l a.
Proof. revert a. induction l as [|y l IH]; intros a; cbn; [done|]. specialize (IH (Z.max a (snd y))). lia. Qed.

Lemma seq_max_ge x l : exists m, seq_max (x :: l) = Some m /\ snd x <= m.
Proof. eexists. split; [done|]. apply fold_seq_max. Qed.

Lemma operands_above (forward : bool) cover d :
  match cover with Some c => List.filter (fun o => c <? snd o) (map operand (if forward then lead_ops d else reverse (lead_ops d)))
                 | None => map operand (if forward then lead_ops d else reverse (lead_ops d)) end =
  map operand (if forward then List.filter (fun e => above cover (e_seq e)) (lead_ops d)
               else reverse (List.filter (fun e => above cover (e_seq e)) (lead_ops d))).
Proof.
  assert (Hm : forall c l, List.filter (fun o => c <? snd o) (map operand l) = map operand (List.filter (fun e => above (Some c) (e_seq e)) l)).
  { intros c l. induction l as [|e l IH]; cbn; [done|]. destruct (c <? e_seq e); cbn; by rewrite IH. }
  destruct cover as [c|]; [|by rewrite (filter_all _ (lead_ops d)) by by apply Forall_forall].
  rewrite Hm. destruct forward; [done|]. f_equal. generalize (lead_ops d) as l. induction l as [|e l IH]; [done|].
  rewrite reverse_cons, List.filter_app, IH. cbn [List.filter above]. destruct (c <? e_seq e); [by rewrite reverse_cons|by rewrite app_nil_r].
Qed.

(** [existing], for the base the chain keeps. *)
Lemma existing_spec cover d (b := base_of d) :
  StronglySorted newer_entry d ->
  (if v_found (vis_of b) && negb (v_tombstone (vis_of b)) && negb (expired (v_ttl (vis_of b)) now)
      && negb (match cover with Some c => v_seq (vis_of b) <=? c | None => false end)
   then Some (val_of b) else None) = live_base now (List.filter (fun e => above cover (e_seq e)) d).
Proof.
  intros Hs. unfold live_base. rewrite (proj2 (lead_ops_above cover d Hs)). fold b. destruct b as [e|]; [|done]. cbn.
  assert (negb (match cover with Some c => e_seq e <=? c | None => false end) = above cover (e_seq e)) as ->.
  { destruct cover as [c|]; [|done]. cbn. by rewrite Z.leb_antisym, negb_involutive. }
  destruct (above cover (e_seq e)); [|by rewrite andb_false_r]. rewrite andb_true_r. unfold dead. by destruct (e_tombstone e), (expired (e_ttl e) now).
Qed.

(** Every operand is masked: so is the base below them. *)
Lemma all_masked cover d :
  StronglySorted newer_entry d -> lead_ops d <> [] -> List.filter (fun e => above cover (e_seq e)) (lead_ops d) = [] ->
  is_live (vis_of (base_of d)) now && negb (hides cover (vis_of (base_of d))) = false /\
  live_base now (List.filter (fun e => above cover (e_seq e)) d) = None.
Proof.
  intros Hs Hl Hn. unfold live_base. rewrite (proj2 (lead_ops_above cover d Hs)). destruct (base_of d) as [b|] eqn:Eb; [|done].
  destruct d as [|e d]; [done|]. destruct (e_merge e) eqn:Em; cbn in Hl, Hn; rewrite Em in Hl, Hn; [|done].
  pose proof (base_newer e d b Hs Em Eb). cbn in Hn. destruct (above cover (e_seq e)) eqn:Ea; [done|].
  destruct cover as [c|]; [|done]. cbn in *. apply Z.ltb_ge in Ea. rewrite (proj2 (Z.ltb_lt (e_seq b) c)) by lia.
  rewrite (proj2 (Z.ltb_ge c (e_seq b))) by lia. split; [|done]. by rewrite andb_false_r.
Qed.

(** A folded group is newer than the range delete that cut it. *)
Lemma folded_newer cover d x l v t ttl :
  List.filter (fun e => above cover (e_seq e)) (lead_ops d) = x :: l ->
  hides cover (mkVisible true (match seq_max (map operand (reverse (x :: l))) with Some newest => Z.max v newest | None => v end) t ttl true) = false.
Proof.
  intros El. destruct cover as [c|]; [|done]. cbn [hides v_seq]. apply Z.ltb_ge.
  destruct (map operand (reverse (x :: l))) as [|y ys] eqn:Ey; [by apply (f_equal length) in Ey; rewrite length_map, length_reverse in Ey|].
  destruct (seq_max_ge y ys) as (m & -> & Hm). assert (y ∈ map operand (reverse (x :: l))) as Hy by (rewrite Ey; left).
  apply elem_of_map in Hy as (e & He & <-). rewrite reverse_Permutation, <- El in He. apply elem_of_lfilter in He as [_ He]. cbn in He, Hm.
  apply Z.ltb_lt in He. lia.
Qed.

Lemma fold_group_spec o (forward : bool) cover it (d := map snd (visible_chain cmp runs rs (it_key it))) :
  op = Some o -> env it -> lead_ops d <> [] -> it_val it = val_of (base_of d) ->
  it_operands it = map operand (if forward then lead_ops d else reverse (lead_ops d)) ->
  (in_window cmp wl wu (it_key it) -> cover = newest_cover cmp ss (it_key it) rs) ->
  let '(it', r) := fold_group o (vis_of (base_of d)) forward cover it in
  kept it it' /\ it_m it' = it_m it /\ ((exists e, r = Err e /\ op_fails) \/ exists v, r = Ok v /\ resolved it' v).
Proof.
  intros Ho He Hl Hval Hops Hcov. unfold fold_group. rewrite Hops, operands_above. set (l := List.filter _ (lead_ops d)).
  assert (Hsd : StronglySorted newer_entry d) by by apply visible_chain_sorted.
  assert (Hkept : forall ops, kept it (set_operands ops it)) by (intros ops; by apply same_group_kept).
  assert (Hread : in_window cmp wl wu (it_key it) -> scan_get cmp runs ss rs now op (it_key it) =
    chain_read op (it_key it) now (List.filter (fun e => above cover (e_seq e)) d)).
  { intros Hw. rewrite (Hcov Hw). by apply read_chain. }
  destruct (lead_ops_above cover d Hsd) as [El Eb]. fold l in El.
  destruct l as [|x l'] eqn:Ell.
  - assert (map operand (if forward then [] else reverse []) = []) as -> by by destruct forward.
    split; [apply Hkept|]. split; [done|]. right. eexists. split; [done|]. intros Hw. cbn [it_key set_operands] in *. rewrite (Hread Hw).
    unfold chain_read. rewrite El. destruct (all_masked cover d Hsd Hl Ell) as [Ha ->]. rewrite <- (Hcov Hw). by rewrite Ha.
  - set (spans := map operand (if forward then x :: l' else reverse (x :: l'))).
    assert (Hsp : (if forward then rev spans else spans) = map operand (reverse (x :: l'))).
    { unfold spans. destruct forward; [|done]. by rewrite <- map_rev, rev_alt. }
    assert (spans <> []) as Hne. { unfold spans. destruct forward; [done|]. intros E%(f_equal length). by rewrite length_map, length_reverse in E. }
    destruct spans as [|s0 spans0] eqn:Espans; [done|]. rewrite <- Espans in *. rewrite Hsp.
    cbn [it_val it_now it_key set_operands]. rewrite Hval, (env_now _ He), (existing_spec cover d Hsd).
    assert (map fst (map operand (reverse (x :: l'))) = rev (map e_value (x :: l'))) as ->.
    { rewrite map_map. cbn [operand fst]. by rewrite <- map_rev, rev_alt. }
    destruct (full_merge o (it_key it) _ _) as [folded|er] eqn:Ef.
    + split; [apply (kept_trans _ (set_operands (map operand (reverse (x :: l'))) it)); [apply Hkept|apply same_group_kept; [apply Hkept|done]]|].
      split; [done|]. right. eexists. split; [done|]. intros Hw. cbn [it_key it_val set_val set_operands]. rewrite (Hread Hw).
      unfold chain_read. rewrite El, Ho, Ef. unfold is_live. cbn [v_merged orb]. rewrite <- (Hcov Hw). by rewrite (folded_newer cover d x l' _ _ _ Ell).
    + split; [apply Hkept|]. split; [done|]. left. exists er. split; [done|]. eexists o, (it_key it), _, _. split; [done|].
      assert (er <> NotFound) as Her by (unfold full_merge in Ef; destruct (o _ _ _); [done|]; by injection Ef as <-).
      split; [unfold full_merge in Ef; destruct (o _ _ _) eqn:Eo; [done|exact Eo]|].
      split; [cbn; intros E%(f_equal length); rewrite length_app in E; cbn in E; lia|]. split.
      * intros v Hv. rewrite list_elem_of_In, <- in_rev, <- list_elem_of_In, <- Ell in Hv. apply elem_of_map in Hv as (e & He' & <-). apply elem_of_lfilter in He' as [He' _].
        apply lead_ops_sub in He' as [(y & Hy & <-)%elem_of_map Hm]. apply (elem_of_visible_chain cmp runs runs_sorted) in Hy as (es & ? & ? & ? & ?). eauto 10.
      * intros Hb. exists er. split; [|done]. rewrite (Hread (bounds_in_window _ Hb)). unfold chain_read. by rewrite El, Ho.
Qed.
Lemma covering_m it : it_m (snd (group_covering_seq it)) = it_m it.
Proof. unfold group_covering_seq. destruct (it_mask it); [done|]. by destruct (mask_covering_seq _ _ _ _ _). Qed.

Lemma fold_group_m o v forward cover it : it_m (fst (fold_group o v forward cover it)) = it_m it.
Proof.
  unfold fold_group. generalize (match cover with Some c => List.filter (fun o => c <? snd o) (it_operands it) | None => it_operands it end).
  intros [|x l]; [done|]. by destruct (full_merge _ _ _ _).
Qed.

Lemma group_length forward k : (length (group_of cmp forward runs k) <= length (concat runs))%nat.
Proof.
  destruct (group_of_spec cmp runs runs_sorted forward k) as (_ & _ & HP). rewrite HP. etrans; [apply List.filter_length_le|].
  by rewrite <- (tagged_snd 0 runs), length_map.
Qed.

(** A step of the walk over groups: a failure with its cause, or the group's value. *)
Definition group_result (forward : bool) (rest : list (nat * Entry)) it (out : Iterator C * result VisibleVersion) : Prop :=
  (m_err (it_m (fst out)) <> None /\ died cmp runs) \/
  (kept it (fst out) /\
   ((exists e, snd out = Err e /\ (unreadable runs \/ op_fails)) \/
    exists v, snd out = Ok v /\ merge_at cmp forward runs (it_m (fst out)) rest /\ resolved (fst out) v)).

Context (fuel : nat) (fuel_enough : (length (concat runs) < fuel)%nat).

Lemma resolve_plain_spec forward it rest :
  op = None -> env it -> merge_at cmp forward runs (it_m it) (group_of cmp forward runs (it_key it) ++ rest) -> in_group it -> outside it rest ->
  group_result forward rest it (plain_loop fuel forward visible_default (set_val [] it)).
Proof.
  intros Ho He Hm Hg Hout. destruct (group_of_spec cmp runs runs_sorted forward (it_key it)) as (_ & Hk & _). pose proof (group_length forward (it_key it)).
  destruct (plain_loop_spec cmp runs runs_sorted fuel forward visible_default (set_val [] it) _ rest Hm Hg Hk Hout) as [Hs Hr]; [lia|].
  destruct Hr as [Hf|Hr]; [by left|]. right. assert (kept it (fst (plain_loop fuel forward visible_default (set_val [] it)))) as Hkept by by apply same_group_kept.
  split; [done|]. cbn [it_read_seq it_val it_operands set_val] in Hr. rewrite (env_rs _ He) in Hr.
  pose proof (plain_group cmp runs runs_sorted rs forward (it_key it) (it_operands it) (op_ok Ho)) as Hp.
  destruct (fold_res _ _ _) as [[[v val] ops]|er]; [|left; exists er; split; [done|]; by left].
  destruct Hr as (Hr & Hval & _ & Hm'). right. exists v. split; [done|]. split; [done|]. cbn zeta in Hp. injection Hp as -> -> _.
  destruct Hkept as (_ & Hkey & _). rewrite <- Hkey. apply resolved_base; [|by rewrite Hkey].
  rewrite Hkey. destruct (lead_ops (map snd (visible_chain cmp runs rs (it_key it)))) as [|e l] eqn:El; [done|].
  assert (e ∈ e :: l) as Hin by left. rewrite <- El in Hin. apply lead_ops_sub in Hin as [(x & Hx & <-)%elem_of_map Hmg].
  apply (elem_of_visible_chain cmp runs runs_sorted) in Hx as (es & Hes & Hin & _). by rewrite (op_ok Ho es _ Hes Hin) in Hmg.
Qed.

Lemma resolve_merging_spec o forward it rest :
  op = Some o -> env it -> merge_at cmp forward runs (it_m it) (group_of cmp forward runs (it_key it) ++ rest) -> in_group it -> outside it rest ->
  group_result forward rest it (resolve_merging_group fuel o forward it).
Proof.
  intros Ho He Hm Hg Hout. unfold resolve_merging_group. set (it0 := set_operands [] (set_val [] it)).
  destruct (group_of_spec cmp runs runs_sorted forward (it_key it)) as (_ & Hk & _). pose proof (group_length forward (it_key it)).
  destruct (merging_loop_spec cmp runs runs_sorted fuel forward None visible_default it0 _ rest Hm Hg Hk Hout) as [Hs Hr]; [lia|].
  assert (env it0) as He0 by (destruct He; by constructor).
  assert (kept it (fst (merging_loop fuel forward None visible_default it0))) as Hkept by (apply (same_group_kept it0) in Hs; done).
  cbn [it_read_seq it_val it_operands set_val set_operands it0] in Hr. rewrite (env_rs _ He) in Hr.
  pose proof (merging_group cmp runs runs_sorted rs forward (it_key it)) as Hp.
  destruct (merging_loop fuel forward None visible_default it0) as [it1 r]. cbn [fst snd] in *. destruct Hr as [[Hf Hd]|Hr].
  { left. destruct r as [v|e]; [|done]. destruct (it_operands it1); [done|]. pose proof (covering_m it1) as Hcm.
    destruct (group_covering_seq it1) as [cover it2]. cbn in Hcm. rewrite fold_group_m, Hcm. done. }
  right. destruct (fold_res _ _ _) as [[[v val] ops]|er]; [|rewrite Hr; split; [done|]; left; exists er; split; [done|]; by left].
  destruct Hr as (-> & Hval & Hops & Hm'). cbn zeta in Hp. injection Hp as -> -> ->. pose proof Hkept as (He1 & Hkey & _). rewrite <- Hkey in Hval, Hops |- *.
  destruct (it_operands it1) as [|o0 os] eqn:Eo.
  - split; [done|]. right. eexists. split; [done|]. split; [done|]. apply resolved_base; [|done].
    destruct (lead_ops (map snd (visible_chain cmp runs rs (it_key it1)))); [done|]. destruct forward; [done|].
    apply (f_equal length) in Hops. by rewrite length_map, length_reverse in Hops.
  - pose proof (covering_spec it1 He1 (ma_cmp _ _ _ _ _ Hm')) as Hc. destruct (group_covering_seq it1) as [cover it2].
    destruct Hc as (Hk2 & Em2 & Ev2 & Eo2 & Hcov). pose proof Hk2 as (He2 & Hkey2 & _).
    pose proof (fold_group_spec o forward cover it2 Ho He2) as Hf. rewrite Hkey2 in Hf.
    destruct (fold_group o _ forward cover it2) as [it3 r3]. destruct Hf as (Hk3 & Em3 & Hres).
    + intros El. rewrite El in Hops. by destruct forward.
    + by rewrite Ev2.
    + by rewrite Eo2, Eo.
    + done.
    + cbn [fst snd]. split; [eauto using kept_trans|]. destruct Hres as [(e & ? & ?)|(v & -> & ?)]; [left; exists e; split; [done|]; by right|].
      right. exists v. split; [done|]. split; [by rewrite Em3, Em2|done].
Qed.

Lemma resolve_spec forward it rest :
  env it -> merge_at cmp forward runs (it_m it) (group_of cmp forward runs (it_key it) ++ rest) -> in_group it -> outside it rest ->
  group_result forward rest it (resolve_current_group fuel forward it).
Proof.
  intros He. unfold resolve_current_group. pose proof (env_op _ He) as Eo. destruct (it_merge_op it) as [o|].
  - by apply resolve_merging_spec.
  - by apply resolve_plain_spec.
Qed.
(** ** The walk over groups *)

Definition beyond (forward : bool) (k x : key) : bool := if forward then is_gt (compare cmp x k) else is_lt (compare cmp x k).

(** A predicate on keys that holds from some point on, in the direction of the walk. *)
Definition onward (forward : bool) (p : key -> bool) : Prop :=
  forall a b, p a = true -> (if forward then klt cmp a b else klt cmp b a) -> p b = true.

Local Abbreviation ALL forward := (all_ahead cmp forward runs).

Lemma tag_lt_key forward x y : tag_lt cmp forward x y -> e_key (snd y) = e_key (snd x) \/ beyond forward (e_key (snd x)) (e_key (snd y)) = true.
Proof.
  unfold tag_lt, tag_cmp, place_cmp, pair_cmp, place, beyond. cbn. pose proof (ol_anti _ total_laws (e_key (snd y)) (e_key (snd x))) as Ha.
  destruct forward.
  - rewrite Ha. destruct (compare cmp (e_key (snd x)) (e_key (snd y))) eqn:E; cbn; intros Hlt; [|by right|done]. left. by apply (kcompare_eq cmp) in E.
  - destruct (compare cmp (e_key (snd y)) (e_key (snd x))) eqn:E; cbn; intros Hlt; [|by right|done]. left. by apply (kcompare_eq cmp) in E.
Qed.

Lemma beyond_tag forward k x y : e_key (snd x) = k -> beyond forward k (e_key (snd y)) = true -> tag_lt cmp forward x y.
Proof.
  intros <-. unfold tag_lt, tag_cmp, place_cmp, pair_cmp, place, beyond. cbn. pose proof (ol_anti _ total_laws (e_key (snd y)) (e_key (snd x))) as Ha.
  destruct forward; [rewrite Ha; by destruct (compare cmp (e_key (snd x)) (e_key (snd y)))|by destruct (compare cmp (e_key (snd y)) (e_key (snd x)))].
Qed.

Lemma beyond_not_eq forward k : beyond forward k k = false.
Proof. unfold beyond. assert (compare cmp k k = Eq) as -> by by apply (kcompare_eq cmp). by destruct forward. Qed.

Lemma filter_parts {A} (p q r : A -> bool) l :
  (forall x, x ∈ l -> p x = q x || r x) -> (forall x, x ∈ l -> q x = true -> r x = false) -> List.filter p l ≡ₚ List.filter q l ++ List.filter r l.
Proof.
  induction l as [|x l IH]; intros H1 H2; cbn; [done|]. pose proof (H1 x ltac:(left)) as E1. pose proof (H2 x ltac:(left)) as E2.
  assert (HP : List.filter p l ≡ₚ List.filter q l ++ List.filter r l).
  { apply IH; intros; [apply H1|apply H2]; try done; by right. }
  rewrite E1. destruct (q x); [rewrite E2 by done; cbn; by rewrite HP|]. destruct (r x); cbn; [by rewrite HP, Permutation_middle|done].
Qed.

(** What is ahead starts with every version of its first key. *)
Lemma split_ahead forward p i e l :
  onward forward p -> List.filter (on_key p) (ALL forward) = (i, e) :: l ->
  List.filter (on_key p) (ALL forward) =
  group_of cmp forward runs (e_key e) ++ List.filter (on_key (fun x => p x && beyond forward (e_key e) x)) (ALL forward).
Proof.
  intros Hon El. destruct (all_ahead_spec cmp runs runs_sorted forward) as [Hs _].
  pose proof (StronglySorted_filter _ (on_key p) _ Hs) as Hsp. destruct (group_of_spec cmp runs runs_sorted forward (e_key e)) as (Hsg & Hkg & _).
  assert (Hin : (i, e) ∈ List.filter (on_key p) (ALL forward)) by (rewrite El; left). apply elem_of_lfilter in Hin as [_ Hpe]. unfold on_key in Hpe. cbn in Hpe.
  apply (tag_sorted_unique cmp forward); [done| |].
  - apply StronglySorted_app_2; [|done|by apply StronglySorted_filter]. intros x y Hx [_ Hy]%elem_of_lfilter. rewrite Forall_forall in Hkg.
    apply andb_true_iff in Hy as [_ Hy]. by apply (beyond_tag forward (e_key e)); [apply Hkg|].
  - unfold group_of. apply filter_parts.
    + intros [j x] Hx. unfold on_key, key_is_k. cbn. destruct (p (e_key x)) eqn:Ep; cbn.
      * assert (Hxl : (j, x) ∈ (i, e) :: l) by (rewrite <- El; apply elem_of_lfilter; done). apply elem_of_cons in Hxl as [[= -> ->]|Hxl].
        { by rewrite bool_decide_eq_true_2. }
        rewrite El in Hsp. apply StronglySorted_inv in Hsp as [_ Hsp]. rewrite Forall_forall in Hsp. apply Hsp, tag_lt_key in Hxl as [Hk|Hb]; cbn in *.
        -- by rewrite bool_decide_eq_true_2.
        -- by rewrite Hb, orb_true_r.
      * rewrite orb_false_r. symmetry. apply bool_decide_eq_false. intros E. by rewrite E, Hpe in Ep.
    + intros [j x] _ Hk. unfold on_key, key_is_k in *. cbn in *. apply bool_decide_eq_true in Hk. by rewrite Hk, beyond_not_eq, andb_false_r.
Qed.

Lemma key_cmp_eq (m : MergingIter C) a b : m_cmp m = cmp -> key_cmp m a b = compare cmp a b.
Proof. intros Hc. unfold key_cmp. rewrite Hc. destruct (is_bytewise cmp) eqn:E; [|done]. by rewrite bytewise_exact. Qed.

Lemma far_bound (forward : bool) it :
  env it -> m_cmp (it_m it) = cmp ->
  (if forward then past_upper it else below_lower it) =
  negb (if forward then below_upper cmp upper (it_key it) else above_lower cmp lower (it_key it)).
Proof.
  intros He Hc. unfold past_upper, below_lower, below_upper, above_lower. rewrite (env_lower _ He), (env_upper _ He).
  destruct forward; [destruct upper as [|u|u]|destruct lower as [|u|u]]; rewrite ?key_cmp_eq by done; try done; by destruct (compare cmp (it_key it) u).
Qed.
Local Abbreviation pairs := (visible_pairs cmp runs ss rs now op lower upper).

(** An iterator at a position of the specification. *)
Record at_pos it (pos : option (key * list byte)) : Prop := {
  ap_env : env it;
  ap_err : it_err it = None;
  ap_cmp : m_cmp (it_m it) = cmp;
  ap_merr : m_err (it_m it) = None;
  ap_on : children_on cmp runs (it_m it);
  ap_observe : observe it = pos;
  ap_ahead : forall k v, pos = Some (k, v) -> in_bounds cmp lower upper k = true /\
    exists forward, merge_at cmp forward runs (it_m it) (List.filter (on_key (beyond forward k)) (ALL forward));
}.

Definition target (forward : bool) (p : key -> bool) : option (key * list byte) :=
  if forward then first_from pairs p else last_to pairs p.

Definition near (forward : bool) (k : key) : bool := if forward then above_lower cmp lower k else below_upper cmp upper k.
Definition far (forward : bool) (k : key) : bool := if forward then below_upper cmp upper k else above_lower cmp lower k.

Lemma in_bounds_near_far forward k : in_bounds cmp lower upper k = near forward k && far forward k.
Proof. unfold in_bounds, near, far. destruct forward; [done|]. apply andb_comm. Qed.

Lemma far_closed forward k k' : far forward k = false -> beyond forward k k' = true -> far forward k' = false.
Proof.
  unfold far, beyond, below_upper, above_lower. destruct forward.
  - destruct upper as [|u|u]; [done|..]; intros Hf Hb; kbool; [apply is_le_false|apply is_lt_false]; try done; korder.
  - destruct lower as [|u|u]; [done|..]; intros Hf Hb; kbool; [apply is_ge_false|apply is_gt_false]; try done; korder.
Qed.

Lemma onward_beyond forward p k : onward forward p -> onward forward (fun x => p x && beyond forward k x).
Proof.
  intros Hon a b [Ha Hb]%andb_true_iff Hlt. apply andb_true_iff. split; [by eapply Hon|]. unfold beyond in *.
  destruct forward; kbool; [apply is_gt_true|apply is_lt_true]; try done; korder.
Qed.

(** Every pair's key is ahead when its predicate selects it. *)
Lemma pair_ahead forward p k v : (k, v) ∈ pairs -> p k = true -> exists x, x ∈ List.filter (on_key p) (ALL forward) /\ e_key (snd x) = k.
Proof.
  intros (Hk & _ & _)%elem_of_pairs Hp. apply elem_of_scan_keys in Hk as (es & e & Hes & He & Hek).
  apply list_elem_of_lookup in Hes as [i Hi]. exists (i, e). split; [|done]. apply elem_of_lfilter. split.
  - apply (elem_of_all_ahead cmp runs runs_sorted). eauto.
  - unfold on_key. cbn. by rewrite Hek.
Qed.

Lemma target_found forward p k v :
  (k, v) ∈ pairs -> p k = true -> (forall k' v', (k', v') ∈ pairs -> p k' = true -> k' = k \/ beyond forward k k' = true) ->
  target forward p = Some (k, v).
Proof.
  intros Hin Hp Hmin. unfold target, beyond in *. destruct forward; [apply (first_from_spec cmp)|apply (last_to_spec cmp)]; try done.
  - intros k' v' H' Hp'. destruct (Hmin k' v' H' Hp') as [->|Hb]; [apply kle_refl; exact _|kbool; korder].
  - intros k' v' H' Hp'. destruct (Hmin k' v' H' Hp') as [->|Hb]; [apply kle_refl; exact _|kbool; korder].
Qed.

Lemma target_none forward p : (forall k v, (k, v) ∈ pairs -> p k = false) -> target forward p = None.
Proof. intros Hn. destruct (none_from cmp runs ss rs now op lower upper p Hn). by destruct forward. Qed.

Lemma target_ext forward p q : (forall k v, (k, v) ∈ pairs -> p k = q k) -> target forward p = target forward q.
Proof.
  intros He. assert (List.filter (fun x => p (fst x)) pairs = List.filter (fun x => q (fst x)) pairs) as E.
  { apply filter_agree. intros [k v] Hk. by apply (He k v). }
  unfold target, first_from, last_to. by rewrite E.
Qed.
Lemma first_least forward p i e l k v :
  List.filter (on_key p) (ALL forward) = (i, e) :: l -> (k, v) ∈ pairs -> p k = true -> k = e_key e \/ beyond forward (e_key e) k = true.
Proof.
  intros El Hk Hp. destruct (pair_ahead forward p k v Hk Hp) as (x & Hx & <-). rewrite El in Hx. apply elem_of_cons in Hx as [->|Hx]; [by left|].
  destruct (all_ahead_spec cmp runs runs_sorted forward) as [Hs _]. apply (StronglySorted_filter _ (on_key p)) in Hs. rewrite El in Hs.
  apply StronglySorted_inv in Hs as [_ Hs]. rewrite Forall_forall in Hs. by apply Hs, tag_lt_key in Hx.
Qed.

Definition iter_failed it : Prop := it_err it <> None /\ fault it.

(** The end of the walk, once a group is known to be shown. *)
Lemma walk_stops forward p i e l it v :
  List.filter (on_key p) (ALL forward) = (i, e) :: l -> onward forward p -> (forall k, p k = true -> near forward k = true) ->
  env it -> it_err it = None -> it_key it = e_key e -> resolved it v ->
  merge_at cmp forward runs (it_m it) (List.filter (on_key (fun x => p x && beyond forward (e_key e) x)) (ALL forward)) ->
  (in_window cmp wl wu (e_key e) -> is_live v now && negb (hides (newest_cover cmp ss (e_key e) rs) v) = true) ->
  at_pos (set_state (negb (if forward then past_upper it else below_lower it)) (it_err it) it) (target forward p).
Proof.
  intros El Hon Hnear He Herr Hkey Hres Hm Hshown. rewrite (far_bound forward it He (ma_cmp _ _ _ _ _ Hm)), negb_involutive, Hkey. fold (far forward (e_key e)).
  assert (Hp : p (e_key e) = true).
  { assert ((i, e) ∈ List.filter (on_key p) (ALL forward)) as Hin by (rewrite El; left). by apply elem_of_lfilter in Hin as [_ ?]. }
  destruct (far forward (e_key e)) eqn:Ef.
  - assert (Hb : in_bounds cmp lower upper (e_key e) = true) by by rewrite (in_bounds_near_far forward), Hnear, Ef.
    assert (Hg : scan_get cmp runs ss rs now op (e_key e) = Ok (it_val it)).
    { rewrite <- Hkey at 1. rewrite Hres by (rewrite Hkey; auto). by rewrite Hkey, Hshown by auto. }
    assert (target forward p = Some (e_key e, it_val it)) as ->.
    { apply target_found; [|done|intros k' v' Hk' Hp'; by apply (first_least forward p i e l k' v')]. apply elem_of_pairs. split; [|done].
      apply elem_of_scan_keys. assert ((i, e) ∈ List.filter (on_key p) (ALL forward)) as Hin by (rewrite El; left).
      apply elem_of_lfilter in Hin as [Hin _]. apply (elem_of_all_ahead cmp runs runs_sorted) in Hin as (es & Hes & Hin). exists es, e.
      split; [by eapply list_elem_of_lookup_2|done]. }
    split; [destruct He; by constructor|done|apply Hm|apply Hm|by eapply merge_at_on|unfold observe; cbn; by rewrite Hkey|].
    intros k v' [= <- <-]. split; [done|]. exists forward. cbn [it_m set_state]. erewrite filter_agree; [exact Hm|]. intros [j x] _. unfold on_key. cbn.
    destruct (beyond forward (e_key e) (e_key x)) eqn:Eb; [|by rewrite andb_false_r]. rewrite andb_true_r. symmetry. apply (Hon (e_key e)); [done|].
    unfold beyond in Eb. by destruct forward; kbool.
  - rewrite target_none.
    + split; [destruct He; by constructor|done|apply Hm|apply Hm|by eapply merge_at_on|done|done].
    + intros k' v' Hk'. destruct (p k') eqn:Ep; [|done]. exfalso. apply elem_of_pairs in Hk' as Hk2. destruct Hk2 as (_ & Hb & _).
      rewrite (in_bounds_near_far forward) in Hb. apply andb_true_iff in Hb as [_ Hb].
      destruct (first_least forward p i e l k' v' El Hk' Ep) as [->|Hby]; [congruence|]. by rewrite (far_closed forward _ _ Ef Hby) in Hb.
Qed.

Lemma child_ok it : m_err (it_m it) = None -> child_failed it = None.
Proof. unfold child_failed. by intros ->. Qed.

Lemma advance_groups_spec forward groups it p :
  env it -> it_err it = None -> onward forward p -> (forall k, p k = true -> near forward k = true) ->
  merge_at cmp forward runs (it_m it) (List.filter (on_key p) (ALL forward)) -> (length (List.filter (on_key p) (ALL forward)) < groups)%nat ->
  at_pos (advance_groups groups fuel forward it) (target forward p) \/ iter_failed (advance_groups groups fuel forward it).
Proof.
  revert it p. induction groups as [|groups IH]; intros it p He Herr Hon Hnear Hm Hlen; [lia|]. cbn [advance_groups].
  rewrite (child_ok it (ma_err _ _ _ _ _ Hm)). pose proof (top_ahead cmp runs runs_sorted _ _ _ Hm) as Ht.
  destruct (List.filter (on_key p) (ALL forward)) as [|[i e] l] eqn:El.
  { rewrite Ht. left. rewrite target_none.
    - split; [destruct He; by constructor|done|apply Hm|apply Hm|by eapply merge_at_on|done|done].
    - intros k v Hk. destruct (p k) eqn:Ep; [|done]. destruct (pair_ahead forward p k v Hk Ep) as (x & Hx & _). rewrite El in Hx. by apply elem_of_nil in Hx. }
  destruct Ht as [-> Ht]. set (it0 := capture_group_key it). set (rest := List.filter (on_key (fun x => p x && beyond forward (e_key e) x)) (ALL forward)).
  assert (Hk0 : it_key it0 = e_key e) by (unfold it0; cbn; by rewrite Ht). assert (He0 : env it0) by (destruct He; by constructor).
  pose proof (split_ahead forward p i e l Hon El) as Hsplit. fold rest in Hsplit.
  assert (Hout : outside it0 rest).
  { unfold outside. destruct rest as [|[j x] r] eqn:Er; [done|]. assert ((j, x) ∈ rest) as Hx by (rewrite Er; left).
    apply elem_of_lfilter in Hx as [_ Hx]. unfold on_key in Hx. cbn in Hx. rewrite Hk0. intros E. by rewrite E, beyond_not_eq, andb_false_r in Hx. }
  assert (Hm0 : merge_at cmp forward runs (it_m it0) (group_of cmp forward runs (it_key it0) ++ rest)) by (rewrite Hk0, <- Hsplit, El; exact Hm).
  assert (Hrest : (length rest < groups)%nat).
  { apply (f_equal length) in Hsplit. rewrite length_app, El in Hsplit. assert ((i, e) ∈ group_of cmp forward runs (e_key e)) as Hin.
    { apply elem_of_lfilter. split; [|by apply bool_decide_eq_true]. assert ((i, e) ∈ List.filter (on_key p) (ALL forward)) as Hin by (rewrite El; left).
      by apply elem_of_lfilter in Hin as [? _]. }
    destruct (group_of cmp forward runs (e_key e)); [by apply elem_of_nil in Hin|]. cbn in Hsplit, Hlen. lia. }
  assert (Hg0 : in_group it0) by done. pose proof (resolve_spec forward it0 rest He0 Hm0 Hg0 Hout) as Hres.
  destruct (resolve_current_group fuel forward it0) as [it1 r]. destruct Hres as [[Hf Hd]|[Hkept Hres]]; cbn [fst snd] in *.
  { right. destruct r as [v|er]; [|split; [done|by left]]. unfold child_failed. destruct (m_err (it_m it1)) eqn:Em; [|done].
    split; [done|]. left. cbn [it_m set_state]. by rewrite Em. }
  destruct Hkept as (He1 & Hk1 & Herr1). destruct Hres as [(er & -> & Hflt)|(v & -> & Hm1 & Hv)]; [right; split; [done|by right]|].
  rewrite (child_ok it1 (ma_err _ _ _ _ _ Hm1)), (env_now _ He1). rewrite Hk0 in Hk1. assert (Herr1' : it_err it1 = None) by (rewrite Herr1; exact Herr).
  assert (Hgo : forall it2, env it2 -> it_err it2 = None -> it_m it2 = it_m it1 -> (in_window cmp wl wu (e_key e) -> scan_get cmp runs ss rs now op (e_key e) = Err NotFound) ->
    at_pos (advance_groups groups fuel forward it2) (target forward p) \/ iter_failed (advance_groups groups fuel forward it2)).
  { intros it2 He2 Herr2 Em2 Hnf. rewrite (target_ext forward p (fun x => p x && beyond forward (e_key e) x)).
    - apply IH; [done|done|by apply onward_beyond|intros k [Hk _]%andb_true_iff; auto|by rewrite Em2|exact Hrest].
    - intros k v' Hk. destruct (p k) eqn:Ep; [|done]. destruct (first_least forward p i e l k v' El Hk Ep) as [->|Hb]; [|by rewrite Hb].
      apply elem_of_pairs in Hk as (_ & Hb & Hg). rewrite Hnf in Hg; [done|]. auto. }
  unfold resolved in Hv. rewrite Hk1 in Hv. destruct (is_live v now) eqn:Elive; [|apply Hgo; try done; intros Hw; by rewrite Hv].
  unfold masked_by_range. pose proof (covering_spec it1 He1 (ma_cmp _ _ _ _ _ Hm1)) as Hc. destruct (group_covering_seq it1) as [cover it2].
  destruct Hc as ((He2 & Hk2 & Herr2) & Em2 & Ev2 & _ & Hcov). fold (hides cover v). rewrite Hk1 in Hcov, Hk2. destruct (hides cover v) eqn:Eh.
  - apply Hgo; [done|congruence|done|]. intros Hw. rewrite (Hcov Hw) in Eh. by rewrite (Hv Hw), Eh.
  - left. eapply walk_stops; [exact El|done|done|done|congruence|done| |rewrite Em2; exact Hm1|].
    + unfold resolved. rewrite Hk2, Ev2, Elive. exact Hv.
    + intros Hw. by rewrite Elive, <- (Hcov Hw), Eh.
Qed.
(** ** Positioning *)

Context (seqs_ok : forall es e, es ∈ runs -> e ∈ es -> 1 <= e_seq e <= U64_MAX).

Lemma seek_filter forward (q : Entry -> bool) (p : key -> bool) :
  (forall e, 1 <= e_seq e <= U64_MAX -> q e = p (e_key e)) ->
  ahead cmp forward (map (fun es => if forward then List.filter q es else reverse (List.filter q es)) runs) = List.filter (on_key p) (ALL forward).
Proof.
  intros Hq. rewrite (ahead_filter cmp runs runs_sorted forward q). apply filter_agree. intros [i e] Hx.
  apply (elem_of_all_ahead cmp runs runs_sorted) in Hx as (es & Hes & He). apply Hq, (seqs_ok es); [by eapply list_elem_of_lookup_2|done].
Qed.

Lemma after_max k e : e_seq e <= U64_MAX -> at_or_after cmp k U64_MAX e = is_ge (compare cmp (e_key e) k).
Proof.
  intros Hs. unfold at_or_after. rewrite !is_ge_negb. f_equal. apply eq_bool_prop_intro. rewrite !Is_true_true, entry_cmp_lt, is_lt_true by done. naive_solver lia.
Qed.

Lemma after_zero k e : 1 <= e_seq e -> at_or_after cmp k 0 e = is_gt (compare cmp (e_key e) k).
Proof.
  intros Hs. unfold at_or_after. rewrite is_ge_negb. apply eq_bool_prop_intro. rewrite !Is_true_true, negb_true_iff, is_gt_true by done.
  rewrite <- not_true_iff_false, entry_cmp_lt by done. split.
  - intros Hn. apply (not_kle cmp). rewrite (kle_lt_or_eq cmp). intros [?|?]; apply Hn; [by left|right; split; [done|lia]].
  - intros Hk [?|[? _]]; korder.
Qed.

Lemma before_zero k e : 1 <= e_seq e -> at_or_before cmp k 0 e = is_le (compare cmp (e_key e) k).
Proof.
  intros Hs. unfold at_or_before. apply eq_bool_prop_intro. rewrite !Is_true_true, entry_cmp_le, is_le_true, kle_lt_or_eq by done. naive_solver lia.
Qed.

Lemma all_length forward p : (length (List.filter (on_key p) (ALL forward)) < fuel)%nat.
Proof.
  destruct (all_ahead_spec cmp runs runs_sorted forward) as [_ HP]. pose proof (List.filter_length_le (on_key p) (ALL forward)) as Hle.
  rewrite HP in Hle at 2. rewrite <- (length_map snd (tagged runs)) in Hle. unfold tagged in Hle. rewrite tagged_snd in Hle. lia.
Qed.

Lemma seek_advance forward p it m :
  env it -> it_err it = None -> onward forward p -> (forall k, p k = true -> near forward k = true) ->
  (merge_at cmp forward runs m (List.filter (on_key p) (ALL forward)) \/ merge_failed cmp runs m) ->
  at_pos (advance_groups fuel fuel forward (set_m m it)) (target forward p) \/ iter_failed (advance_groups fuel fuel forward (set_m m it)).
Proof.
  intros He Herr Hon Hnear [Hm|[Hf Hd]].
  - apply advance_groups_spec; try done; [destruct He; by constructor|apply all_length].
  - right. destruct fuel as [|n]; [lia|]. cbn [advance_groups]. unfold child_failed. cbn [it_m set_m]. destruct (m_err m) eqn:Em; [|done]. split; [done|]. left. cbn [it_m set_state set_m]. by rewrite Em.
Qed.

Lemma onward_bounds forward : onward forward (near forward).
Proof.
  unfold near, above_lower, below_upper. destruct forward; intros a b Ha Hlt.
  - destruct lower as [|u|u]; [done|..]; kbool; [apply is_ge_true|apply is_gt_true]; try done; korder.
  - destruct upper as [|u|u]; [done|..]; kbool; [apply is_le_true|apply is_lt_true]; try done; korder.
Qed.

Lemma target_all forward : target forward (near forward) = if forward then head pairs else last pairs.
Proof.
  assert (List.filter (fun x => near forward (fst x)) pairs = pairs) as E.
  { apply filter_all, Forall_forall. intros [k v] (_ & Hb & _)%elem_of_pairs. rewrite (in_bounds_near_far forward) in Hb. by apply andb_true_iff in Hb as [? _]. }
  unfold target, first_from, last_to. rewrite E. done.
Qed.

Lemma merge_keeps_place it pos : at_pos it pos -> forall forward p m,
  (merge_at cmp forward runs m (List.filter (on_key p) (ALL forward)) \/ merge_failed cmp runs m) ->
  onward forward p -> (forall k, p k = true -> near forward k = true) ->
  at_pos (advance_groups fuel fuel forward (set_m m it)) (target forward p) \/ iter_failed (advance_groups fuel fuel forward (set_m m it)).
Proof. intros Hat forward p m Hm Hon Hnear. apply seek_advance; try done; apply Hat. Qed.

Lemma ge_place it pos k : at_pos it pos ->
  merge_at cmp true runs (merge_ge k U64_MAX (it_m it)) (List.filter (on_key (fun x => is_ge (compare cmp x k))) (ALL true)) \/
  merge_failed cmp runs (merge_ge k U64_MAX (it_m it)).
Proof.
  intros Hat. rewrite <- (seek_filter true (at_or_after cmp k U64_MAX)) by (intros e ?; apply after_max; lia). apply merge_ge_spec; try done; apply Hat.
Qed.

Lemma gt_place it pos k : at_pos it pos ->
  merge_at cmp true runs (merge_ge k 0 (it_m it)) (List.filter (on_key (fun x => is_gt (compare cmp x k))) (ALL true)) \/
  merge_failed cmp runs (merge_ge k 0 (it_m it)).
Proof.
  intros Hat. rewrite <- (seek_filter true (at_or_after cmp k 0)) by (intros e ?; apply after_zero; lia). apply merge_ge_spec; try done; apply Hat.
Qed.

Lemma le_place it pos k : at_pos it pos ->
  merge_at cmp false runs (merge_le k 0 (it_m it)) (List.filter (on_key (fun x => is_le (compare cmp x k))) (ALL false)) \/
  merge_failed cmp runs (merge_le k 0 (it_m it)).
Proof.
  intros Hat. rewrite <- (seek_filter false (at_or_before cmp k 0)) by (intros e ?; apply before_zero; lia). apply merge_le_spec; try done; apply Hat.
Qed.

Lemma lt_place it pos k : at_pos it pos ->
  merge_at cmp false runs (merge_lt fuel k (it_m it)) (List.filter (on_key (fun x => is_lt (compare cmp x k))) (ALL false)) \/
  merge_failed cmp runs (merge_lt fuel k (it_m it)).
Proof.
  intros Hat. rewrite <- (seek_filter false (below cmp k)) by done. apply merge_lt_spec; try done; try apply Hat.
  apply Forall_forall. intros es Hes. apply list_elem_of_split in Hes as (a & b & E). rewrite E, concat_app, length_app in fuel_enough. cbn in fuel_enough. rewrite length_app in fuel_enough. lia.
Qed.

Lemma lower_place it pos b (m := match b with
                                | Unbounded => merge_first (it_m it)
                                | Included l => merge_ge l U64_MAX (it_m it)
                                | Excluded l => merge_ge l 0 (it_m it)
                                end) :
  at_pos it pos -> merge_at cmp true runs m (List.filter (on_key (above_lower cmp b)) (ALL true)) \/ merge_failed cmp runs m.
Proof.
  intros Hat. subst m. destruct b as [|l|l].
  - change (above_lower cmp Unbounded) with (fun _ : key => true). rewrite <- (seek_filter true (fun _ => true) (fun _ => true)) by done.
    rewrite (map_ext _ id), map_id by (intros es; apply filter_all, Forall_forall; done). apply merge_first_spec; try done; apply Hat.
  - by apply (ge_place it pos).
  - by apply (gt_place it pos).
Qed.

Lemma upper_place it pos b (m := match b with
                                | Unbounded => merge_last (it_m it)
                                | Included u => merge_le u 0 (it_m it)
                                | Excluded u => merge_lt fuel u (it_m it)
                                end) :
  at_pos it pos -> merge_at cmp false runs m (List.filter (on_key (below_upper cmp b)) (ALL false)) \/ merge_failed cmp runs m.
Proof.
  intros Hat. subst m. destruct b as [|u|u].
  - change (below_upper cmp Unbounded) with (fun _ : key => true). rewrite <- (seek_filter false (fun _ => true) (fun _ => true)) by done.
    rewrite (map_ext _ reverse) by (intros es; f_equal; apply filter_all, Forall_forall; done). apply merge_last_spec; try done; apply Hat.
  - by apply (le_place it pos).
  - by apply (lt_place it pos).
Qed.

Lemma first_moves it pos : at_pos it pos -> at_pos (seek_to_first fuel it) (head pairs) \/ iter_failed (seek_to_first fuel it).
Proof.
  intros Hat. rewrite <- (target_all true). apply (merge_keeps_place it pos Hat); [|exact (onward_bounds true)|done].
  rewrite (env_lower _ (ap_env _ _ Hat)). by apply (lower_place it pos).
Qed.

Lemma last_moves it pos : at_pos it pos -> at_pos (seek_to_last fuel it) (last pairs) \/ iter_failed (seek_to_last fuel it).
Proof.
  intros Hat. rewrite <- (target_all false). apply (merge_keeps_place it pos Hat); [|exact (onward_bounds false)|done].
  rewrite (env_upper _ (ap_env _ _ Hat)). by apply (upper_place it pos).
Qed.

Lemma beyond_near forward k x : in_bounds cmp lower upper k = true -> beyond forward k x = true -> near forward x = true.
Proof.
  rewrite (in_bounds_near_far forward). intros [Hn _]%andb_true_iff Hb. apply (onward_bounds forward k); [done|]. unfold beyond in Hb. destruct forward; kbool; done.
Qed.

(** Stepping on in the direction of the last move, or turning. *)
Lemma step_moves (forward : bool) it k v :
  at_pos it (Some (k, v)) ->
  let it' := (if forward then iter_next fuel it else iter_prev fuel it) in
  at_pos it' (target forward (beyond forward k)) \/ iter_failed it'.
Proof.
  intros Hat. cbv zeta. pose proof (ap_observe _ _ Hat) as Ho. unfold observe in Ho. destruct (it_valid it) eqn:Ev; [|done]. injection Ho as Ek _.
  destruct (ap_ahead _ _ Hat k v eq_refl) as (Hb & fwd & Hm). pose proof (ma_forward _ _ _ _ _ Hm) as Ef.
  assert (forall m, (merge_at cmp forward runs m (List.filter (on_key (beyond forward k)) (ALL forward)) \/ merge_failed cmp runs m) ->
    at_pos (advance_groups fuel fuel forward (set_m m it)) (target forward (beyond forward k)) \/ iter_failed (advance_groups fuel fuel forward (set_m m it))) as Hgo.
  { intros m Hm'. apply (merge_keeps_place it _ Hat); [done|by apply (onward_beyond forward (fun _ => true) k)|]. intros x. by apply beyond_near. }
  assert (set_m (it_m it) it = it) as Eid by by destruct it.
  destruct forward; unfold iter_next, iter_prev, advance_forward, advance_backward; rewrite Ev, Ef, Ek; destruct fwd; cbn [negb andb].
  - rewrite <- Eid. apply Hgo. by left.
  - apply Hgo. by apply (gt_place it (Some (k, v))).
  - apply Hgo. by apply (lt_place it (Some (k, v))).
  - rewrite <- Eid. apply Hgo. by left.
Qed.

Lemma move_spec it pos mv :
  at_pos it pos -> allowed cmp lower upper pos mv = true ->
  at_pos (move fuel it mv) (spec_move cmp pairs pos mv) \/ iter_failed (move fuel it mv).
Proof.
  intros Hat Hal. destruct mv as [| |k|k| |]; cbn [move spec_move allowed] in *.
  - by apply (first_moves it pos).
  - by apply (last_moves it pos).
  - apply (merge_keeps_place it pos Hat true _ _ (ge_place it pos k Hat)).
    + intros a b Ha Hlt. kbool. apply (is_ge_true cmp). korder.
    + intros x Hx. cbn [near]. kbool. apply (kle_lt_or_eq cmp) in Hx as [Hx| <-]; [|done]. by apply (onward_bounds true k).
  - apply (merge_keeps_place it pos Hat false _ _ (le_place it pos k Hat)).
    + intros a b Ha Hlt. kbool. apply (is_le_true cmp). korder.
    + intros x Hx. cbn [near]. kbool. apply (kle_lt_or_eq cmp) in Hx as [Hx|Hx]; [|by subst]. by apply (onward_bounds false k).
  - destruct pos as [[k v]|]; [|done]. by apply (step_moves true it k v).
  - destruct pos as [[k v]|]; [|done]. by apply (step_moves false it k v).
Qed.

Lemma moves_spec mvs it pos :
  at_pos it pos -> allowed_all cmp lower upper pairs pos mvs = true ->
  at_pos (fold_left (move fuel) mvs it) (fold_left (spec_move cmp pairs) mvs pos) \/ iter_failed (fold_left (move fuel) mvs it).
Proof.
  revert it pos. induction mvs as [|mv mvs IH]; intros it pos Hat Hal; cbn in *; [by left|]. apply andb_true_iff in Hal as [Ha Hal].
  destruct (move_spec it pos mv Hat Ha) as [Hat'|[He Hf]]; [by apply IH|]. right. split; [by apply moves_err|].
  destruct Hf as [[Hm Hd]|Hf]; [left; split; [by apply moves_merr|done]|by right].
Qed.

Lemma new_at_pos children mask :
  Forall2 (fun es c => exists p, cur_on es p c) runs children -> mask_inv cmp wl wu mask frss ->
  at_pos (iterator_new cmp children rs now lower upper mask op) None.
Proof. intros Hc Hm. constructor; try done. Qed.

(** The iterator of a scan, after any calls. *)
Lemma scan_moves children mask mvs (it := fold_left (move fuel) mvs (iterator_new cmp children rs now lower upper mask op)) :
  Forall2 (fun es c => exists p, cur_on es p c) runs children -> mask_inv cmp wl wu mask frss ->
  allowed_all cmp lower upper pairs None mvs = true ->
  (it_err it = None /\ observe it = fold_left (spec_move cmp pairs) mvs None) \/ (it_err it <> None /\ fault it).
Proof.
  intros Hc Hm Hal. destruct (moves_spec mvs _ _ (new_at_pos children mask Hc Hm) Hal) as [Hat|Hf]; [left|by right]. split; apply Hat.
Qed.
End Walk.

Lemma bounds_in_window cmp `{!TotalOrder cmp} lower upper k :
  in_bounds cmp lower upper k = true -> in_window cmp (window_lower lower) (window_upper upper) k.
Proof.
  unfold in_bounds, above_lower, below_upper. intros [Hl Hu]%andb_true_iff. split.
  - intros l. destruct lower; intros [= ->]; kbool; korder.
  - intros u. destruct upper; intros [= ->]; by kbool.
Qed.


Lemma entries_of (P : Entry -> Prop) runs : Forall P (concat runs) -> forall es e, es ∈ runs -> e ∈ es -> P e.
Proof. intros HF es e Hes He. rewrite Forall_forall in HF. apply HF, elem_of_concat. by exists es. Qed.

(** Two shards, an overwritten key, operands over a value, a range delete and a bound; forward, back and by seeks. *)
Definition witness_runs : list (list Entry) :=
  [[mkEntry [x61] 5 KIND_PUT 0 [x31] true; mkEntry [x63] 7 KIND_MERGE 0 [x32] true];
   [mkEntry [x61] 2 KIND_PUT 0 [x33] true; mkEntry [x62] 3 KIND_PUT 0 [x34] true; mkEntry [x63] 4 KIND_PUT 0 [x35] true;
    mkEntry [x64] 6 KIND_PUT 0 [x36] true; mkEntry [x65] 1 KIND_PUT 0 [x37] true]].
Definition witness_op : MergeOp := fun _ existing ops => Some (default [] existing ++ concat ops).
Definition witness_moves : list Move := [MFirst; MNext; MNext; MPrev; MLast; MPrev; MNext].


(** ** Off the bound

    One child over a run with one version of each key, no operator and no range
    deletes: what the iterator does once it has run off its upper bound. *)

Section Overrun.
Context (cmp : Comparator) `{!TotalOrder cmp} (run : list Entry) (rs now : Z) (lower upper : Bound).
Context (keys_apart : StronglySorted (fun x y => klt cmp (e_key x) (e_key y)) run).
Local Instance overrun_ops : CursorOps ShardCur := shard_ops cmp.
Implicit Types it : Iterator ShardCur.

(** A version that a read at [rs] shows. *)
Definition shows_entry (e : Entry) : Prop :=
  e_tombstone e = false /\ expired (e_ttl e) now = false /\ e_readable e = true /\ 1 <= e_seq e <= rs /\ e_seq e <= U64_MAX.

(** The merge ordered forwards, its child at [p]. *)
Definition lone (p : option nat) : MergingIter ShardCur :=
  mkMerging [mkShardCur run p] (if p is Some _ then [0%nat] else []) true cmp None.

Definition lone_step (forward : bool) (n : nat) : option nat :=
  if forward then (if (S n <? length run)%nat then Some (S n) else None) else match n with S m => Some m | O => None end.

Record lone_at it (p : option nat) : Prop := {
  la_m : it_m it = lone p;
  la_rs : it_read_seq it = rs;
  la_now : it_now it = now;
  la_lower : it_lower it = lower;
  la_upper : it_upper it = upper;
  la_mask : it_mask it = [];
  la_op : it_merge_op it = None;
  la_err : it_err it = None;
}.

Lemma lone_advance forward n : merge_advance forward (lone (Some n)) = lone (lone_step forward n).
Proof.
  unfold merge_advance, lone, lone_step. destruct forward; cbn -[Nat.ltb]; [|by destruct n].
  unfold step_next, shard_move. cbn -[Nat.ltb]. by destruct (S n <? length run)%nat.
Qed.

Lemma lone_neighbour forward n x : run !! n = Some x ->
  match lone_step forward n with Some m => exists y, run !! m = Some y /\ e_key y <> e_key x | None => True end.
Proof.
  intros Hx. unfold lone_step. assert (forall i j y z, (i < j)%nat -> run !! i = Some y -> run !! j = Some z -> e_key y <> e_key z) as Hne.
  { intros i j y z Hij Hy Hz E. pose proof (StronglySorted_lookup_lt _ _ _ _ _ _ keys_apart Hy Hz Hij) as Hlt. cbn in Hlt. rewrite E in Hlt. by apply klt_irrefl in Hlt. }
  destruct forward.
  - destruct (Nat.ltb_spec (S n) (length run)) as [Hl|]; [|done]. destruct (lookup_lt_is_Some_2 run (S n) Hl) as [y Hy]. exists y. split; [done|].
    intros E. by apply (Hne n (S n) x y); [lia|..].
  - destruct n as [|m]; [done|]. apply lookup_lt_Some in Hx as Hl. destruct (lookup_lt_is_Some_2 run m) as [y Hy]; [lia|]. exists y. split; [done|].
    by apply (Hne m (S m)); [lia|..].
Qed.

Lemma lone_in_group it p : it_m it = lone p -> it_group_pfx it = key_prefix8 (it_key it) ->
  top_in_group it = match p with Some m => match run !! m with Some y => bool_decide (e_key y = it_key it) | None => bool_decide ([] = it_key it) end | None => false end.
Proof.
  intros Hm Hp. unfold top_in_group. rewrite Hm. destruct p as [m|]; [|done]. cbn [merge_valid lone m_heap negb merge_top child_entry m_children lookup list_lookup cur_entry overrun_ops shard_ops].
  cbn [sc_cur sc_map mbind option_bind]. rewrite Hp. set (k := e_key _).
  assert (match run !! m with Some y => bool_decide (e_key y = it_key it) | None => bool_decide ([] = it_key it) end = bool_decide (k = it_key it)) as -> by (unfold k; by destruct (run !! m)).
  clearbody k. change (m_cmp (lone (Some m))) with cmp. destruct (is_bytewise cmp) eqn:Eb.
  - destruct (Z.eqb_spec (key_prefix8 k) (key_prefix8 (it_key it))) as [_|Hne]; [reflexivity|]. cbn. symmetry. apply bool_decide_eq_false. by intros ->.
  - unfold key_cmp. change (m_cmp (lone (Some m))) with cmp. rewrite Eb. apply eq_bool_prop_intro. by rewrite !Is_true_true, (is_eq_true cmp), bool_decide_eq_true.
Qed.

(** One group, whichever way the walk steps: the entry the child stands on. *)
Lemma lone_group forward n x it g fuel :
  lone_at it (Some n) -> run !! n = Some x -> shows_entry x ->
  let it' := advance_groups (S g) (S (S fuel)) forward it in
  lone_at it' (lone_step forward n) /\ it_key it' = e_key x /\ it_val it' = e_value x /\
  it_valid it' = (if forward then below_upper cmp upper (e_key x) else above_lower cmp lower (e_key x)).
Proof.
  intros [Hm Hrs Hnow Hlo Hup Hmask Hop Herr] Hx (Ht & Hexp & Hr & Hseq & _). cbn zeta. cbn [advance_groups]. unfold child_failed. rewrite Hm. cbn [m_err lone merge_valid m_heap].
  set (it0 := capture_group_key it). assert (merge_top (it_m it) = x) as Etop by (rewrite Hm; cbn; by rewrite Hx).
  unfold resolve_current_group. cbn [it_merge_op it0 capture_group_key]. rewrite Hop. set (it1 := set_val [] it0).
  assert (it_key it1 = e_key x) as Ek by (cbn; by rewrite Etop).
  assert (top_in_group it1 = true) as Eg1 by (rewrite (lone_in_group it1 (Some n) Hm eq_refl), Hx; by apply bool_decide_eq_true_2).
  cbn [plain_loop]. rewrite Eg1. change (merge_top (it_m it1)) with (merge_top (it_m it)). rewrite Etop.
  change (it_read_seq it1) with (it_read_seq it). rewrite Hrs. unfold visible_consider. rewrite (proj2 (Z.ltb_ge rs (e_seq x))) by lia. cbn [visible_default v_found andb orb].
  rewrite Ht. cbn [apply_decision]. unfold capture_value. change (merge_top (it_m it1)) with (merge_top (it_m it)). rewrite Etop. unfold read_value. rewrite Hr. cbn [rbind].
  set (it2 := advance_top forward _). assert (it_m it2 = lone (lone_step forward n)) as Em2 by (unfold it2; cbn; rewrite Hm; apply lone_advance).
  assert (top_in_group it2 = false) as Eg2.
  { rewrite (lone_in_group it2 (lone_step forward n) Em2 eq_refl). pose proof (lone_neighbour forward n x Hx) as Hn.
    destruct (lone_step forward n) as [m|]; [|done]. destruct Hn as (y & -> & Hne). apply bool_decide_eq_false. by change (it_key it2) with (it_key it1); rewrite Ek. }
  rewrite Eg2, Em2. cbn [m_err lone]. unfold is_live. cbn [v_merged v_found v_tombstone v_ttl orb andb negb].
  change (it_now it2) with (it_now it). rewrite Hnow, Hexp. cbn [negb]. unfold masked_by_range, group_covering_seq. change (it_mask it2) with (it_mask it). rewrite Hmask. cbn [visible_default v_merged orb].
  assert ((if forward then past_upper it2 else below_lower it2) = negb (if forward then below_upper cmp upper (e_key x) else above_lower cmp lower (e_key x))) as ->.
  { unfold past_upper, below_lower, below_upper, above_lower. change (it_lower it2) with (it_lower it). change (it_upper it2) with (it_upper it). rewrite Hlo, Hup.
    change (it_key it2) with (it_key it1). rewrite Ek, Em2. assert (forall a b, key_cmp (lone (lone_step forward n)) a b = compare cmp a b) as Hkc.
    { intros a b. unfold key_cmp. cbn [m_cmp lone]. destruct (is_bytewise cmp) eqn:E; [|done]. by rewrite bytewise_exact. }
    destruct forward; [destruct upper as [|u|u]|destruct lower as [|u|u]]; rewrite ?Hkc; try done; by destruct (compare cmp (e_key x) u). }
  rewrite negb_involutive. split; [by constructor|]. cbn [it_key it_val it_valid set_state]. split; [exact Ek|done].
Qed.

Lemma lone_none forward it g fuel : lone_at it None -> observe (advance_groups (S g) fuel forward it) = None.
Proof. intros [Hm _ _ _ _ _ _ _]. cbn [advance_groups]. unfold child_failed. by rewrite Hm. Qed.

(** Seeking to an entry of the run stands on it. *)
Lemma lone_seek n x : run !! n = Some x -> e_seq x <= U64_MAX ->
  lone_at (set_m (merge_ge (e_key x) U64_MAX (merging_new cmp [mkShardCur run None])) (iterator_new cmp [mkShardCur run None] rs now lower upper [] None)) (Some n).
Proof.
  intros Hx Hs. constructor; try done. cbn [it_m set_m]. unfold merge_ge, rebuild. cbn [m_children merging_new map m_cmp m_err cur_ge overrun_ops shard_ops]. unfold shard_seek_ge, shard_move.
  cbn [sc_map]. set (p := fun e => is_lt (entry_cmp cmp e (e_key x) U64_MAX)). apply lookup_lt_Some in Hx as Hl.
  assert (partition_point p run = n) as Ep.
  { apply partition_point_unique; [lia|..].
    - intros i y Hi Hy. unfold p. apply (entry_cmp_lt cmp). left. by apply (StronglySorted_lookup_lt _ _ _ _ _ _ keys_apart Hy Hx Hi).
    - intros y Hy. rewrite Hx in Hy. injection Hy as <-. unfold p, entry_cmp. rewrite (proj2 (kcompare_eq cmp _ _) eq_refl). cbn [then_with].
      destruct (Z.compare_spec U64_MAX (e_seq x)); [done|lia|done]. }
  unfold map_lower. rewrite Ep, (proj2 (Nat.ltb_lt n (length run)) Hl). reflexivity.
Qed.
End Overrun.

(** C40: a bounded iterator that has run off its upper bound does not step back into the bounds.  Over any
    sorted run with one version of each key, from the last key [a] inside the bounds, [next] finds the key [b]
    past the bound and stops with the merge behind it; [prev] turns only from a valid position, so it resolves
    the entry the merge stands on, and [advance_backward] compares it with the lower bound alone.  When the
    run goes on after [b], [prev] shows the key after [b], beyond the bound; when [b] is the last key, the
    iterator stays invalid.  The comments ask that no key outside the bounds ever surface from a bounded
    iterator. *)
Theorem prev_surfaces_past_upper_bound cmp (TO : TotalOrder cmp) A a b D rs now lower upper fuel :
  let run := A ++ a :: b :: D in
  StronglySorted (fun x y => klt cmp (e_key x) (e_key y)) run -> Forall (shows_entry rs now) run ->
  in_bounds cmp lower upper (e_key a) = true -> below_upper cmp upper (e_key b) = false -> (2 <= fuel)%nat ->
  let moved mvs := fold_left (@move ShardCur (shard_ops cmp) fuel) mvs (iterator_new cmp [mkShardCur run None] rs now lower upper [] None) in
  observe (moved [MSeek (e_key a)]) = Some (e_key a, e_value a) /\
  observe (moved [MSeek (e_key a); MNext]) = None /\ it_err (moved [MSeek (e_key a); MNext]) = None /\
  observe (moved [MSeek (e_key a); MNext; MPrev]) = (match D with c :: _ => Some (e_key c, e_value c) | [] => None end) /\
  Forall (fun c => in_bounds cmp lower upper (e_key c) = false) D.
Proof.
  intros run Hs HF [Hla Hua]%andb_true_iff Hub Hfuel moved. destruct fuel as [|[|fuel]]; [lia..|].
  rewrite Forall_forall in HF.
  assert (run !! length A = Some a) as Ha by (unfold run; by rewrite lookup_app_r, Nat.sub_diag).
  assert (run !! S (length A) = Some b) as Hb by (unfold run; rewrite lookup_app_r by lia; by replace (S (length A) - length A)%nat with 1%nat by lia).
  assert (shows_entry rs now a) as HFa by (apply HF; by eapply list_elem_of_lookup_2).
  assert (shows_entry rs now b) as HFb by (apply HF; by eapply list_elem_of_lookup_2).
  destruct (lone_group cmp run rs now lower upper Hs true (length A) a _ (S fuel) fuel (lone_seek cmp run rs now lower upper Hs (length A) a Ha ltac:(apply HFa)) Ha HFa) as (H1 & K1 & V1 & W1).
  set (it1 := advance_groups _ _ _ _) in H1, K1, V1, W1. change (moved [MSeek (e_key a)]) with it1.
  change (moved [MSeek (e_key a); MNext]) with (@iter_next ShardCur (shard_ops cmp) (S (S fuel)) it1).
  change (moved [MSeek (e_key a); MNext; MPrev]) with (@iter_prev ShardCur (shard_ops cmp) (S (S fuel)) (@iter_next ShardCur (shard_ops cmp) (S (S fuel)) it1)).
  assert (lone_step run true (length A) = Some (S (length A))) as E1.
  { unfold lone_step. apply lookup_lt_Some in Hb. by rewrite (proj2 (Nat.ltb_lt _ _) Hb). }
  rewrite E1 in H1. unfold iter_next at 1 2 3. rewrite (la_m _ _ _ _ _ _ _ _ H1). cbn [m_forward lone negb]. rewrite andb_false_r.
  destruct (lone_group cmp run rs now lower upper Hs true (S (length A)) b it1 (S fuel) fuel H1 Hb HFb) as (H2 & K2 & V2 & W2).
  unfold advance_forward. set (it2 := advance_groups _ _ _ it1) in *. rewrite Hub in W2.
  assert (forall x, x ∈ D -> klt cmp (e_key b) (e_key x) /\ klt cmp (e_key a) (e_key x)) as HD.
  { unfold run in Hs. apply StronglySorted_app in Hs as (_ & _ & Hs). apply StronglySorted_inv in Hs as [Hs Ha']. apply StronglySorted_inv in Hs as [_ Hb'].
    rewrite Forall_forall in Ha', Hb'. intros x Hx. split; [by apply Hb'|apply Ha'; by right]. }
  split; [unfold observe; by rewrite W1, Hua, K1, V1|]. split; [unfold observe; by rewrite W2|]. split; [apply H2|]. split.
  - unfold iter_prev, advance_backward. rewrite W2. cbn [andb]. destruct D as [|c D'].
    + assert (lone_step run true (S (length A)) = None) as E2.
      { unfold lone_step, run. rewrite length_app. cbn [length]. by rewrite (proj2 (Nat.ltb_ge _ _)) by lia. }
      rewrite E2 in H2. by apply (lone_none cmp run rs now lower upper).
    + assert (run !! S (S (length A)) = Some c) as Hc by (unfold run; rewrite lookup_app_r by lia; by replace (S (S (length A)) - length A)%nat with 2%nat by lia).
      assert (lone_step run true (S (length A)) = Some (S (S (length A)))) as E2.
      { unfold lone_step. apply lookup_lt_Some in Hc as Hl. by rewrite (proj2 (Nat.ltb_lt _ _) Hl). }
      rewrite E2 in H2. destruct (lone_group cmp run rs now lower upper Hs false (S (S (length A))) c it2 (S fuel) fuel H2 Hc) as (_ & K3 & V3 & W3).
      { apply HF. by eapply list_elem_of_lookup_2. }
      change (overrun_ops cmp) with (shard_ops cmp) in K3, V3, W3. unfold observe. rewrite K3, V3, W3. destruct (HD c ltac:(left)) as [_ Hac].
      assert (above_lower cmp lower (e_key c) = true) as -> by (destruct lower as [|l|l]; cbn in *; [done|..]; kbool; [apply (is_ge_true cmp)|apply (is_gt_true cmp)]; korder). done.
  - apply Forall_forall. intros c Hc. destruct (HD c Hc) as [Hbc _]. apply andb_false_iff. right.
    destruct upper as [|u|u]; cbn in *; [done|..]; kbool; [apply (is_le_false cmp)|apply (is_lt_false cmp)]; korder.
Qed.

Lemma prev_surfaces_past_upper_bound_witness :
  observe (fold_left (@move ShardCur (shard_ops Bytewise) 10) [MSeek [x61]; MNext; MPrev]
    (iterator_new Bytewise [mkShardCur [put_entry [x61] 1 [x31]; put_entry [x62] 2 [x32]; put_entry [x63] 3 [x33]] None] 9 0 Unbounded (Excluded [x62]) [] None)) =
  Some ([x63], [x33]).
Proof.
  apply (prev_surfaces_past_upper_bound Bytewise _ [] (put_entry [x61] 1 [x31]) (put_entry [x62] 2 [x32]) [put_entry [x63] 3 [x33]] 9 0 Unbounded (Excluded [x62]) 10).
  - sorted_runs; reflexivity.
  - repeat constructor; done.
  - reflexivity.
  - reflexivity.
  - lia.
Defined.
