(* ===== verification/CfScan.v ===== *)
(** * CfScan: building a scan of a column family

    [column_family.rs]: [new_iterator] with the children it merges
    ([iterator_children]) and the range deletes it honours
    ([iterator_range_mask]), from one state of the family.  Tables outside the
    bounds are left out.  [scan_shows_stored] composes the pieces: a bounded
    scan shows exactly the keys whose point read returns a value, with that
    value.  [FileScan] puts the memtables and the files under it.

    The unified memtable is off.  [th.reader()] goes through the reader cache
    and may fail; it is the parameter [open], and [mem_iter] and [sst_iter] are
    the iterators of a memtable and of an open table, used only through
    [Cursor]. *)

From Stdlib Require Import ZArith Lia Sorted.
From Stdlib.Strings Require Import Byte.
From stdpp Require Import base list sets sorting.
From S2P Require Import Prelude Encoding Codec Comparator Format Manifest RangeTombstone ReadPath Heap Cursor Merge Scan ScanGroup ScanIter.

Open Scope Z_scope.

(** The state a scan reads: sealed memtables oldest first, L0 newest first. *)
Record FamilyState := mkFamily { cs_mem : Mem; cs_imm : list Mem; cs_levels : list (list Table) }.

Section Build.
Context (cmp : Comparator).

Definition key_is_below_upper (k : key) (upper : Bound) : bool :=
  match upper with
  | Unbounded => true
  | Included limit => is_le (compare cmp k limit)
  | Excluded limit => is_lt (compare cmp k limit)
  end.

Definition sst_in_bounds (th : Table) (lower upper : Bound) : bool :=
  let above_lower :=
    match lower with
    | Unbounded => true
    | Included l => is_ge (compare cmp (max_key (t_meta th)) l)
    | Excluded l => is_gt (compare cmp (max_key (t_meta th)) l)
    end in
  let below_upper :=
    match upper with
    | Unbounded => true
    | Included u => is_le (compare cmp (min_key (t_meta th)) u)
    | Excluded u => is_lt (compare cmp (min_key (t_meta th)) u)
    end in
  above_lower && below_upper.

Definition span_in_bounds (meta : SstMeta) (lower upper : Bound) : bool :=
  let lo := span_min cmp meta in
  let hi := span_max cmp meta in
  let above_lower :=
    match lower with
    | Unbounded => true
    | Included l => is_ge (compare cmp hi l)
    | Excluded l => is_gt (compare cmp hi l)
    end in
  let below_upper :=
    match upper with
    | Unbounded => true
    | Included u => is_le (compare cmp lo u)
    | Excluded u => is_lt (compare cmp lo u)
    end in
  above_lower && below_upper.

Definition sorted_level_start (level : list Table) (lower : Bound) : nat :=
  match lower with
  | Unbounded => 0%nat
  | Included k => partition_point (fun th => is_lt (compare cmp (max_key (t_meta th)) k)) level
  | Excluded k => partition_point (fun th => is_le (compare cmp (max_key (t_meta th)) k)) level
  end.

Section Children.
Context {C : Type} (open : Table -> result unit) (mem_iter : Mem -> C) (sst_iter : Table -> C).

Definition append_memtable_children (children : list C) (s : FamilyState) (extra : option Mem) : list C :=
  let children := match extra with Some extra => children ++ [mem_iter extra] | None => children end in
  children ++ [mem_iter (cs_mem s)] ++ map mem_iter (rev (cs_imm s)).

Fixpoint append_l0_children (children : list C) (level : list Table) (lower upper : Bound) : result (list C) :=
  match level with
  | [] => Ok children
  | th :: level =>
      if sst_in_bounds th lower upper then
        let? _ := open th in append_l0_children (children ++ [sst_iter th]) level lower upper
      else append_l0_children children level lower upper
  end.

(** The loop over [level[start..]]. *)
Fixpoint append_until (children : list C) (level : list Table) (upper : Bound) : result (list C) :=
  match level with
  | [] => Ok children
  | th :: level =>
      if negb (key_is_below_upper (min_key (t_meta th)) upper) then Ok children
      else let? _ := open th in append_until (children ++ [sst_iter th]) level upper
  end.

Definition append_sorted_level_children (children : list C) (level : list Table) (lower upper : Bound) : result (list C) :=
  append_until children (drop (sorted_level_start level lower) level) upper.

Fixpoint append_levels (children : list C) (levels : list (list Table)) (lower upper : Bound) : result (list C) :=
  match levels with
  | [] => Ok children
  | level :: levels =>
      let? children := append_sorted_level_children children level lower upper in
      append_levels children levels lower upper
  end.

Definition iterator_children (s : FamilyState) (extra : option Mem) (lower upper : Bound) : result (list C) :=
  let children := append_memtable_children [] s extra in
  let? children := append_l0_children children (hd [] (cs_levels s)) lower upper in
  append_levels children (tl (cs_levels s)) lower upper.

(** Reading the fragments of a memtable caches them in its set. *)
Definition push_mem (lower upper : option key) (mask : list FragCursor) (m : Mem) : list FragCursor * Mem :=
  if set_is_empty (m_ranges m) then (mask, m)
  else
    let '(frags, set) := fragment_snapshot cmp (m_ranges m) in
    (push_snapshot cmp mask frags lower upper None, mkMem (m_entries m) set).

Fixpoint push_mems (lower upper : option key) (mask : list FragCursor) (ms : list Mem) : list FragCursor * list Mem :=
  match ms with
  | [] => (mask, [])
  | m :: ms =>
      let '(mask, m) := push_mem lower upper mask m in
      let '(mask, ms) := push_mems lower upper mask ms in
      (mask, m :: ms)
  end.

Fixpoint push_tables (lower upper : Bound) (mask : list FragCursor) (ts : list Table) : result (list FragCursor) :=
  match ts with
  | [] => Ok mask
  | th :: ts =>
      if negb (meta_has_ranges (t_meta th)) || negb (span_in_bounds (t_meta th) lower upper)
      then push_tables lower upper mask ts
      else
        let? _ := open th in
        push_tables lower upper (push_snapshot cmp mask (t_frags th) (window_lower lower) (window_upper upper) None) ts
  end.

Definition push_extra (lower upper : option key) (extra : option Mem) : list FragCursor * option Mem :=
  match extra with
  | Some m => let '(mask, m) := push_mem lower upper [] m in (mask, Some m)
  | None => ([], None)
  end.

Definition iterator_range_mask (s : FamilyState) (extra : option Mem) (lower upper : Bound)
    : result (list FragCursor) * FamilyState * option Mem :=
  let wl := window_lower lower in
  let wu := window_upper upper in
  let '(mask, extra) := push_extra wl wu extra in
  let '(mask, mem) := push_mem wl wu mask (cs_mem s) in
  let '(mask, imm) := push_mems wl wu mask (cs_imm s) in
  (push_tables lower upper mask (concat (cs_levels s)), mkFamily mem imm (cs_levels s), extra).

Definition new_iterator (op : option MergeOp) (s : FamilyState) (read_seq now : Z) (extra : option Mem) (lower upper : Bound)
    : Iterator C * FamilyState :=
  let '(mask, s, extra) := iterator_range_mask s extra lower upper in
  match mask with
  | Err e => (iterator_failed cmp e, s)
  | Ok mask =>
      match iterator_children s extra lower upper with
      | Err e => (iterator_failed cmp e, s)
      | Ok children => (iterator_new cmp children read_seq now lower upper mask op, s)
      end
  end.
End Children.
End Build.

(** ** The selected children *)

Section Select.
Context (cmp : Comparator) `{!TotalOrder cmp}.

(** The tables of a level at the bound or before it. *)
Fixpoint below_prefix (upper : Bound) (level : list Table) : list Table :=
  match level with
  | [] => []
  | th :: level => if key_is_below_upper cmp (min_key (t_meta th)) upper then th :: below_prefix upper level else []
  end.

Definition level_selected (lower upper : Bound) (level : list Table) : list Table :=
  below_prefix upper (drop (sorted_level_start cmp level lower) level).

Definition selected (lower upper : Bound) (levels : list (list Table)) : list Table :=
  List.filter (fun th => sst_in_bounds cmp th lower upper) (hd [] levels) ++ concat (map (level_selected lower upper) (tl levels)).

Lemma below_prefix_sub upper level : sublist (below_prefix upper level) level.
Proof. induction level as [|t level IH]; cbn; [constructor|]. destruct (key_is_below_upper _ _ _); [by constructor|apply sublist_nil_l]. Qed.

Lemma selected_sub lower upper levels : sublist (selected lower upper levels) (concat levels).
Proof.
  unfold selected. destruct levels as [|l0 levels]; cbn [hd tl concat]; [by constructor|]. apply sublist_app; [apply filter_sublist|].
  induction levels as [|l levels IH]; cbn; [constructor|]. apply sublist_app; [|done]. etransitivity; [apply below_prefix_sub|apply sublist_drop].
Qed.

Lemma below_upper_down upper a b : kle cmp a b -> key_is_below_upper cmp b upper = true -> key_is_below_upper cmp a upper = true.
Proof. intros Hab. destruct upper as [|u|u]; cbn; [done|..]; intros Hb; kbool; [apply (is_le_true cmp)|apply (is_lt_true cmp)]; korder. Qed.

Lemma below_prefix_in upper level t :
  StronglySorted (fun a b => klt cmp (max_key (t_meta a)) (min_key (t_meta b))) level ->
  (forall t, t ∈ level -> kle cmp (min_key (t_meta t)) (max_key (t_meta t))) ->
  t ∈ level -> key_is_below_upper cmp (min_key (t_meta t)) upper = true -> t ∈ below_prefix upper level.
Proof.
  intros Hs Hb. induction Hs as [|x l Hs IH HF]; [by intros ?%elem_of_nil|]. cbn. rewrite Forall_forall in HF. intros [->|Ht]%elem_of_cons Hu.
  - rewrite Hu. left.
  - rewrite (below_upper_down upper _ (min_key (t_meta t))); [|pose proof (HF t Ht); pose proof (Hb x ltac:(left)); korder|done].
    right. apply IH; [|done..]. intros y Hy. apply Hb. by right.
Qed.

Lemma start_before level lower t k :
  t ∈ level -> kle cmp k (max_key (t_meta t)) -> above_lower cmp lower k = true -> t ∈ drop (sorted_level_start cmp level lower) level.
Proof.
  intros Ht Hk Hl. rewrite <- (take_drop (sorted_level_start cmp level lower) level) in Ht. apply elem_of_app in Ht as [Ht|Ht]; [|done]. exfalso.
  destruct lower as [|l|l]; cbn [sorted_level_start above_lower] in *; [by rewrite take_0 in Ht; apply elem_of_nil in Ht|..].
  - pose proof (partition_point_take (fun th => is_lt (compare cmp (max_key (t_meta th)) l)) level) as HF. rewrite Forall_forall in HF.
    specialize (HF t Ht). cbn in HF. kbool. korder.
  - pose proof (partition_point_take (fun th => is_le (compare cmp (max_key (t_meta th)) l)) level) as HF. rewrite Forall_forall in HF.
    specialize (HF t Ht). cbn in HF. kbool. korder.
Qed.

Lemma below_key upper a k : kle cmp a k -> below_upper cmp upper k = true -> key_is_below_upper cmp a upper = true.
Proof. intros Ha Hu. apply (below_upper_down upper a k); [done|]. by destruct upper. Qed.

(** A table with an entry inside the bounds is among the children. *)
Lemma selected_entry lower upper levels t e :
  l0_ok cmp (hd [] levels) -> Forall (level_ok cmp) (tl levels) ->
  t ∈ concat levels -> e ∈ t_entries t -> in_bounds cmp lower upper (e_key e) = true -> t ∈ selected lower upper levels.
Proof.
  intros H0 Hd Ht He [Hl Hu]%andb_true_iff. rewrite Forall_forall in Hd. unfold selected. apply elem_of_app.
  destruct levels as [|l0 levels]; cbn [hd tl concat] in *; [by apply elem_of_nil in Ht|]. apply elem_of_app in Ht as [Ht|Ht].
  - left. apply elem_of_lfilter. split; [done|]. destruct (l0_entries _ _ H0 t e Ht He) as [Hmin Hmax]. unfold sst_in_bounds. apply andb_true_iff. split.
    + destruct lower as [|l|l]; cbn in Hl; [done|..]; kbool; [apply (is_ge_true cmp)|apply (is_gt_true cmp)]; korder.
    + apply (below_key upper _ _ Hmin Hu).
  - right. apply elem_of_concat in Ht as (level & Hlv & Ht). apply elem_of_concat_map. exists level. split; [done|]. specialize (Hd level Hlv).
    destruct (lo_entries _ _ Hd t e Ht He) as [Hmin Hmax]. unfold level_selected. apply below_prefix_in.
    + pose proof (lo_sorted _ _ Hd) as Hs. rewrite <- (take_drop (sorted_level_start cmp level lower) level) in Hs. by apply StronglySorted_app in Hs as (_ & _ & Hs).
    + intros x Hx. apply (lo_bounds _ _ Hd). by eapply elem_of_drop.
    + by apply (start_before level lower t (e_key e)).
    + by apply (below_key upper _ (e_key e)).
Qed.

(** A table with a fragment over a key inside the bounds is in the mask. *)
Lemma span_selected lower upper levels t f k :
  l0_ok cmp (hd [] levels) -> Forall (level_ok cmp) (tl levels) ->
  t ∈ concat levels -> f ∈ t_frags t -> kle cmp (f_start f) k -> klt cmp k (f_end f) -> in_bounds cmp lower upper k = true ->
  meta_has_ranges (t_meta t) = true /\ span_in_bounds cmp (t_meta t) lower upper = true.
Proof.
  intros H0 Hd Ht Hf Hs He [Hl Hu]%andb_true_iff. rewrite Forall_forall in Hd.
  assert (meta_has_ranges (t_meta t) = true /\ kle cmp (span_min cmp (t_meta t)) k /\ klt cmp k (span_max cmp (t_meta t))) as (Hr & Hmin & Hmax).
  { destruct levels as [|l0 levels]; cbn [hd tl concat] in *; [by apply elem_of_nil in Ht|]. unfold span_min, span_max. apply elem_of_app in Ht as [Ht|Ht].
    - destruct (l0_frags _ _ H0 t f Ht Hf) as (Hr & (m & -> & Hm) & (n & -> & Hn)). split; [done|].
      destruct (is_lt _) eqn:E1, (is_gt _) eqn:E2; kbool; split; korder.
    - apply elem_of_concat in Ht as (level & Hlv & Ht). specialize (Hd level Hlv). split.
      { apply (lo_has_ranges _ _ Hd t Ht). intros En. rewrite En in Hf. by apply elem_of_nil in Hf. }
      destruct (lo_range_min _ _ Hd t f Ht Hf) as (m & -> & Hm). destruct (lo_range_max _ _ Hd t f Ht Hf) as (n & -> & Hn).
      destruct (is_lt _) eqn:E1, (is_gt _) eqn:E2; kbool; split; korder. }
  split; [done|]. unfold span_in_bounds. apply andb_true_iff. split.
  - destruct lower as [|l|l]; cbn in Hl; [done|..]; kbool; [apply (is_ge_true cmp)|apply (is_gt_true cmp)]; korder.
  - apply (below_key upper _ _ Hmin Hu).
Qed.
End Select.

Section Built.
Context (cmp : Comparator) `{!TotalOrder cmp} {C : Type} (open : Table -> result unit) (mem_iter : Mem -> C) (sst_iter : Table -> C).

(** Every table asked for opened, or one that did not is the cause. *)
Definition opened (ts : list Table) {A} (r : result A) (a : A) : Prop :=
  match r with
  | Ok x => x = a /\ Forall (fun t => open t = Ok tt) ts
  | Err e => exists t, t ∈ ts /\ open t = Err e
  end.

Lemma opened_cons t ts {A} (r : result A) a : open t = Ok tt -> opened ts r a -> opened (t :: ts) r a.
Proof. intros Ht. destruct r; cbn; [intros [-> HF]; by repeat constructor|]. intros (u & Hu & E). exists u. split; [by right|done]. Qed.

Lemma open_then t ts {A} (r : result A) a : (open t = Ok tt -> opened ts r a) -> opened (t :: ts) (let? _ := open t in r) a.
Proof. destruct (open t) as [[]|e] eqn:E; cbn [rbind]; intros H; [by apply opened_cons; auto|]. exists t. split; [left|done]. Qed.

Lemma append_l0_opened level ch lower upper :
  let sel := List.filter (fun th => sst_in_bounds cmp th lower upper) level in
  opened sel (append_l0_children cmp open sst_iter ch level lower upper) (ch ++ map sst_iter sel).
Proof.
  cbn zeta. revert ch. induction level as [|t level IH]; intros ch; cbn; [by rewrite app_nil_r|]. destruct (sst_in_bounds _ _ _ _); [|apply IH].
  apply open_then. intros _. cbn [map]. rewrite (push_then _ ch (map _ _)). apply IH.
Qed.

Lemma append_until_opened level ch upper :
  let sel := below_prefix cmp upper level in
  opened sel (append_until cmp open sst_iter ch level upper) (ch ++ map sst_iter sel).
Proof.
  cbn zeta. revert ch. induction level as [|t level IH]; intros ch; cbn; [by rewrite app_nil_r|].
  destruct (key_is_below_upper _ _ _); cbn [negb]; [|by cbn; rewrite app_nil_r].
  apply open_then. intros _. cbn [map]. rewrite (push_then _ ch (map _ _)). apply IH.
Qed.

Lemma opened_bind ts us {A B} (r : result A) (f : A -> result B) a b : opened ts r a -> opened us (f a) b -> opened (ts ++ us) (let? x := r in f x) b.
Proof.
  destruct r as [x|e]; cbn [rbind]; [intros [-> Ht]|intros (t & Ht & E) _; exists t; split; [apply elem_of_app; by left|done]].
  unfold opened. destruct (f a); [intros [-> Hu]; split; [done|by apply Forall_app]|]. intros (t & Ht' & E). exists t. split; [apply elem_of_app; by right|done].
Qed.

Lemma append_levels_opened levels ch lower upper :
  let sel := concat (map (level_selected cmp lower upper) levels) in
  opened sel (append_levels cmp open sst_iter ch levels lower upper) (ch ++ map sst_iter sel).
Proof.
  cbn zeta. revert ch. induction levels as [|l levels IH]; intros ch; cbn [append_levels map concat]; [by cbn; rewrite app_nil_r|].
  rewrite map_app, app_assoc. eapply opened_bind; [apply append_until_opened|apply IH].
Qed.

Lemma iterator_children_opened s extra lower upper :
  let sel := selected cmp lower upper (cs_levels s) in
  opened sel (iterator_children cmp open mem_iter sst_iter s extra lower upper)
    (map mem_iter (option_list extra ++ [cs_mem s] ++ rev (cs_imm s)) ++ map sst_iter sel).
Proof.
  cbn zeta. unfold iterator_children, selected. rewrite (map_app sst_iter), app_assoc.
  eapply opened_bind; [|apply append_levels_opened]. unfold append_memtable_children. destruct extra; apply append_l0_opened.
Qed.

(** ** The range mask *)

(** A memtable with its fragments cached, or not. *)
Definition same_mem (m m' : Mem) : Prop := m_entries m' = m_entries m /\ mem_spans m' = mem_spans m /\ (mem_ok cmp m -> mem_ok cmp m').

(** A mask that has taken in the range deletes [ss]. *)
Definition masks (wl wu : option key) (mask : list FragCursor) (ss : list Span) : Prop :=
  exists frss, mask_inv cmp wl wu mask frss /\ forall k x, span_at cmp (concat (map spans_of_fragments frss)) k x <-> span_at cmp ss k x.

Lemma masks_nil wl wu : masks wl wu [] [].
Proof.
  exists []. split; [|done]. split; [constructor|]. intros k x _. split; intros (c & Hc & _); by apply elem_of_nil in Hc.
Qed.

Lemma masks_push wl wu mask ss fs ss' :
  masks wl wu mask ss -> frags_wf cmp fs -> (forall k x, frag_at cmp fs k x <-> span_at cmp ss' k x) ->
  masks wl wu (push_snapshot cmp mask fs wl wu None) (ss ++ ss').
Proof.
  intros (frss & Hm & Hs) Hf Hss'. exists (frss ++ [fs]). split; [by apply push_snapshot_inv|]. intros k x.
  rewrite map_app, concat_app, !span_at_app, Hs. cbn [map concat]. by rewrite app_nil_r, spans_of_fragments_at, Hss'.
Qed.

Lemma push_mem_masks wl wu mask ss m :
  masks wl wu mask ss -> mem_ok cmp m ->
  masks wl wu (fst (push_mem cmp wl wu mask m)) (ss ++ mem_spans m) /\ same_mem m (snd (push_mem cmp wl wu mask m)).
Proof.
  intros Hm (Hs & Hw & Ho). unfold push_mem. destruct (set_is_empty (m_ranges m)) eqn:Ee; cbn [fst snd].
  - assert (mem_spans m = []) as E by (unfold mem_spans; destruct Hw as (_ & _ & Hl & _); apply nil_length_inv; apply Nat.eqb_eq in Ee; congruence).
    rewrite E, app_nil_r. split; [done|]. split_and!; [done|done|]. by intros _.
  - destruct (fragment_snapshot_spec cmp _ Hw) as [Ef Es]. pose proof (fragment_snapshot_wf cmp _ Hw) as Hw'.
    destruct (fragment_snapshot cmp (m_ranges m)) as [frags set]. cbn [fst snd] in *. subst frags.
    destruct (fragment_spans_spec cmp (spans (inner (m_ranges m))) None None) as (Hf & Hat & _). split.
    + apply masks_push; [done|done|]. intros k x. apply Hat. by split.
    + split_and!; [done|exact Es|]. by intros _.
Qed.

Lemma push_mems_masks wl wu ms mask ss :
  masks wl wu mask ss -> Forall (mem_ok cmp) ms ->
  masks wl wu (fst (push_mems cmp wl wu mask ms)) (ss ++ concat (map mem_spans ms)) /\
  Forall2 same_mem ms (snd (push_mems cmp wl wu mask ms)).
Proof.
  revert mask ss. induction ms as [|m ms IH]; intros mask ss Hm Hok; cbn; [by rewrite app_nil_r|]. apply Forall_cons in Hok as [Hk Hok].
  destruct (push_mem_masks wl wu mask ss m Hm Hk) as [Hm1 Hsm]. destruct (push_mem cmp wl wu mask m) as [mask1 m1]. cbn [fst snd] in *.
  destruct (IH mask1 _ Hm1 Hok) as [Hm2 Hs2]. destruct (push_mems cmp wl wu mask1 ms) as [mask2 ms2]. cbn [fst snd] in *.
  rewrite app_assoc. split; [done|]. by constructor.
Qed.

Definition mask_selected (lower upper : Bound) (t : Table) : bool := meta_has_ranges (t_meta t) && span_in_bounds cmp (t_meta t) lower upper.

Lemma push_tables_opened lower upper ts mask :
  opened (List.filter (mask_selected lower upper) ts) (push_tables cmp open lower upper mask ts)
    (fold_left (fun mask t => push_snapshot cmp mask (t_frags t) (window_lower lower) (window_upper upper) None) (List.filter (mask_selected lower upper) ts) mask).
Proof.
  revert mask. induction ts as [|t ts IH]; intros mask; cbn [push_tables List.filter]; [done|]. rewrite <- negb_andb.
  fold (mask_selected lower upper t). destruct (mask_selected lower upper t); cbn [negb]; [|apply IH]. apply open_then. intros _. apply IH.
Qed.

Lemma fold_masks wl wu ts mask ss :
  masks wl wu mask ss -> Forall (table_ok cmp) ts ->
  masks wl wu (fold_left (fun mask t => push_snapshot cmp mask (t_frags t) wl wu None) ts mask) (ss ++ concat (map table_spans ts)).
Proof.
  revert mask ss. induction ts as [|t ts IH]; intros mask ss Hm Hok; cbn; [by rewrite app_nil_r|]. apply Forall_cons in Hok as [Hk Hok].
  rewrite app_assoc. apply IH; [|done]. apply masks_push; [done|apply Hk|]. intros k x. unfold table_spans. by rewrite spans_of_fragments_at.
Qed.

End Built.

(** ** A scan against reads *)

Section Reads.
Context (cmp : Comparator) `{!TotalOrder cmp}.

Definition family_ok (s : FamilyState) : Prop :=
  Forall (mem_ok cmp) (cs_mem s :: cs_imm s) /\ Forall (table_ok cmp) (concat (cs_levels s)) /\
  l0_ok cmp (hd [] (cs_levels s)) /\ Forall (level_ok cmp) (tl (cs_levels s)).

Definition family_runs (s : FamilyState) : list (list Entry) := map m_entries (cs_mem s :: rev (cs_imm s)) ++ map t_entries (concat (cs_levels s)).
Definition family_spans (s : FamilyState) : list Span :=
  concat (map mem_spans (cs_mem s :: cs_imm s)) ++ concat (map table_spans (concat (cs_levels s))).

(** The runs a scan reads. *)
Definition scan_runs (lower upper : Bound) (s : FamilyState) : list (list Entry) :=
  map m_entries (cs_mem s :: rev (cs_imm s)) ++ map t_entries (selected cmp lower upper (cs_levels s)).
(** The range deletes it honours. *)
Definition scan_spans (lower upper : Bound) (s : FamilyState) : list Span :=
  concat (map mem_spans (cs_mem s :: cs_imm s)) ++ concat (map table_spans (List.filter (mask_selected cmp lower upper) (concat (cs_levels s)))).

Lemma scan_runs_sub lower upper s : sublist (scan_runs lower upper s) (family_runs s).
Proof. unfold scan_runs, family_runs. apply sublist_app; [done|]. apply map_sublist, selected_sub. Qed.

Lemma scan_run_in lower upper s es e :
  family_ok s -> es ∈ family_runs s -> e ∈ es -> in_bounds cmp lower upper (e_key e) = true -> es ∈ scan_runs lower upper s.
Proof.
  intros (_ & _ & H0 & Hd) Hes He Hb. unfold family_runs, scan_runs in *. apply elem_of_app. apply elem_of_app in Hes as [Hes|Hes]; [by left|]. right.
  apply elem_of_map in Hes as (t & Ht & <-). apply elem_of_map. exists t. split; [|done]. by apply (selected_entry cmp lower upper (cs_levels s) t e).
Qed.

Lemma scan_span_at lower upper s k x :
  family_ok s -> in_bounds cmp lower upper k = true -> span_at cmp (scan_spans lower upper s) k x <-> span_at cmp (family_spans s) k x.
Proof.
  intros (_ & _ & H0 & Hd) Hb. unfold scan_spans, family_spans. rewrite !span_at_app. apply or_iff_compat_l. rewrite !(span_at_concat cmp).
  setoid_rewrite elem_of_lfilter. split; [naive_solver|]. intros (t & Ht & Hs). exists t. split; [|done]. split; [done|].
  unfold table_spans in Hs. apply spans_of_fragments_at in Hs as (f & Hf & Ha & He & _). apply andb_true_iff. by apply (span_selected cmp lower upper (cs_levels s) t f k).
Qed.

Lemma scan_span_sub lower upper s k x : span_at cmp (scan_spans lower upper s) k x -> span_at cmp (family_spans s) k x.
Proof.
  unfold scan_spans, family_spans. rewrite !span_at_app, !(span_at_concat cmp). setoid_rewrite elem_of_lfilter. naive_solver.
Qed.

Lemma elem_of_versions_at runs rs now k v :
  v ∈ point_versions cmp runs rs now k <-> exists es e, es ∈ runs /\ e ∈ es /\ e_key e = k /\ e_seq e <= rs /\ chain_version now e = v.
Proof.
  unfold point_versions. rewrite elem_of_map. setoid_rewrite elem_of_concat_map. setoid_rewrite (elem_of_run_versions cmp). naive_solver.
Qed.

Lemma elem_of_family_versions s k rs now v :
  v ∈ stored_versions cmp (cs_mem s) (cs_imm s) (cs_levels s) k rs now <->
  v ∈ point_versions cmp (family_runs s) rs now k ++ span_versions cmp k rs (family_spans s).
Proof.
  unfold stored_versions. rewrite !elem_of_app, elem_of_versions_at. change (concat (map mem_spans _) ++ _) with (family_spans s).
  rewrite (or_comm (_ ∈ span_versions _ _ _ _)). apply or_iff_compat_r. unfold versions, family_runs. rewrite !elem_of_concat_map.
  setoid_rewrite elem_of_map. setoid_rewrite (elem_of_run_versions cmp). setoid_rewrite elem_of_app. setoid_rewrite elem_of_map. split.
  - intros [(m & Hm & e & (? & ? & ?) & ?)|(t & Ht & e & (? & ? & ?) & ?)]; eexists _, e; (split; [|done]); [left|right]; eexists; (split; [|done]); [|done].
    rewrite elem_of_cons, list_elem_of_In, <- in_rev, <- list_elem_of_In. by apply elem_of_cons.
  - intros (es & e & [(m & Hm & <-)|(t & Ht & <-)] & ? & ? & ? & ?); [left; exists m|right; exists t]; (split; [|by exists e]); [|done].
    rewrite elem_of_cons, list_elem_of_In, <- in_rev, <- list_elem_of_In in Hm. by apply elem_of_cons.
Qed.

(** What everything the family stores about a key says of it. *)
Definition stored_get (op : option MergeOp) (s : FamilyState) (rs now : Z) (k : key) : result (list byte) :=
  read_all op k (stored_versions cmp (cs_mem s) (cs_imm s) (cs_levels s) k rs now).

Lemma scan_reads_stored op rs now lower upper s ss k :
  family_ok s -> consistent (stored_versions cmp (cs_mem s) (cs_imm s) (cs_levels s) k rs now) -> in_bounds cmp lower upper k = true ->
  (forall x, span_at cmp ss k x <-> span_at cmp (scan_spans lower upper s) k x) ->
  scan_get cmp (scan_runs lower upper s) ss rs now op k = stored_get op s rs now k.
Proof.
  intros Hok Hc Hb Hss. unfold scan_get, stored_get. symmetry.
  assert (forall v, v ∈ stored_versions cmp (cs_mem s) (cs_imm s) (cs_levels s) k rs now <->
    v ∈ point_versions cmp (scan_runs lower upper s) rs now k ++ span_versions cmp k rs ss) as Hv.
  { intros v. rewrite elem_of_family_versions, !elem_of_app, !(elem_of_span_versions cmp), Hss, scan_span_at, !elem_of_versions_at by done.
    apply or_iff_compat_r. split; intros (es & e & Hes & He & Hk & Hx); exists es, e; (split; [|done]).
    - apply (scan_run_in lower upper s es e Hok Hes He). by rewrite Hk.
    - eapply elem_of_sublist; [exact Hes|apply scan_runs_sub]. }
  apply read_all_part; [done|by intros w; apply Hv|intros v Hw _; by apply Hv].
Qed.

(** What reading the fragments leaves of the state. *)
Definition same_family (s s' : FamilyState) : Prop :=
  same_mem cmp (cs_mem s) (cs_mem s') /\ Forall2 (same_mem cmp) (cs_imm s) (cs_imm s') /\ cs_levels s' = cs_levels s.

Lemma same_mems_entries ms ms' : Forall2 (same_mem cmp) ms ms' -> map m_entries ms' = map m_entries ms /\ map mem_spans ms' = map mem_spans ms.
Proof. induction 1 as [|m m' ms ms' (He & Hs & _) _ [IH1 IH2]]; cbn; [done|]. split; congruence. Qed.

Lemma same_family_reads s s' :
  same_family s s' -> family_runs s' = family_runs s /\ family_spans s' = family_spans s /\ (family_ok s -> family_ok s').
Proof.
  intros (Hm & Hi & El). pose proof Hm as (E1 & E2 & Hok). destruct (same_mems_entries _ _ Hi) as [E3 E4].
  unfold family_runs, family_spans, family_ok. cbn [map]. rewrite El, !map_rev, E1, E2, E3, E4. split_and!; [done..|]. intros (Hms & Ht & H0 & Hd).
  split_and!; try done. apply Forall_cons in Hms as [Hm1 Hms]. constructor; [by apply Hok|]. clear -Hi Hms.
  induction Hi as [|m m' ms ms' (_ & _ & Hk) _ IH]; [done|]. apply Forall_cons in Hms as [? ?]. constructor; auto.
Qed.

Lemma range_mask_built open s lower upper :
  family_ok s ->
  let '(r, s', extra) := iterator_range_mask cmp open s None lower upper in
  same_family s s' /\ extra = None /\
  match r with
  | Ok mask => masks cmp (window_lower lower) (window_upper upper) mask (scan_spans lower upper s)
  | Err e => exists t, t ∈ concat (cs_levels s) /\ open t = Err e
  end.
Proof.
  intros (Hms & Ht & _). apply Forall_cons in Hms as [Hm Hms]. unfold iterator_range_mask, push_extra.
  destruct (push_mem_masks cmp _ _ [] [] (cs_mem s) (masks_nil cmp (window_lower lower) (window_upper upper)) Hm) as [K1 S1].
  destruct (push_mem _ _ _ [] (cs_mem s)) as [mask1 m1]. cbn [fst snd] in *.
  destruct (push_mems_masks cmp _ _ (cs_imm s) mask1 _ K1 Hms) as [K2 S2]. destruct (push_mems _ _ _ mask1 (cs_imm s)) as [mask2 imm2]. cbn [fst snd] in *.
  split; [done|]. split; [done|]. pose proof (push_tables_opened cmp open lower upper (concat (cs_levels s)) mask2) as Ho.
  destruct (push_tables _ _ _ _ _ _) as [mask|e].
  - destruct Ho as [-> _]. unfold scan_spans. apply (fold_masks cmp); [exact K2|]. rewrite Forall_forall in Ht |- *. intros t [Hin _]%elem_of_lfilter. by apply Ht.
  - destruct Ho as (t & [Hin _]%elem_of_lfilter & E). by exists t.
Qed.
End Reads.

Section Agree.
Context (cmp : Comparator) `{!TotalOrder cmp} {C : Type} `{Ops : CursorOps C} `{!Cursor cmp C}.
Context (open : Table -> result unit) (mem_iter : Mem -> C) (sst_iter : Table -> C).

Lemma children_on_runs s lower upper :
  (forall m, m ∈ cs_mem s :: cs_imm s -> exists p, cur_on (m_entries m) p (mem_iter m)) ->
  (forall t, t ∈ concat (cs_levels s) -> open t = Ok tt -> exists p, cur_on (t_entries t) p (sst_iter t)) ->
  Forall (fun t => open t = Ok tt) (selected cmp lower upper (cs_levels s)) ->
  Forall2 (fun es c => exists p, cur_on es p c) (scan_runs cmp lower upper s)
    (map mem_iter (cs_mem s :: rev (cs_imm s)) ++ map sst_iter (selected cmp lower upper (cs_levels s))).
Proof.
  intros Hm Ht Ho. unfold scan_runs. apply Forall2_app; apply Forall2_fmap, Forall_Forall2_diag, Forall_forall.
  - intros m Hin. apply Hm. apply elem_of_cons in Hin as [->|Hin]; [left|right]. by rewrite list_elem_of_In, in_rev, <- list_elem_of_In.
  - rewrite Forall_forall in Ho. intros t Hin. apply Ht; [|by apply Ho]. eapply elem_of_sublist; [exact Hin|apply selected_sub].
Qed.

Lemma scan_runs_sorted s lower upper : family_ok cmp s -> Forall (run_sorted cmp) (scan_runs cmp lower upper s).
Proof.
  intros (Hms & Ht & _). apply Forall_cons in Hms as [Hm Hms]. rewrite Forall_forall in Ht. rewrite Forall_forall in Hms. apply Forall_forall. intros es Hes.
  unfold scan_runs in Hes. apply elem_of_app in Hes as [(m & [->|Hin]%elem_of_cons & <-)%elem_of_map|(t & Hin & <-)%elem_of_map].
  - apply Hm.
  - apply Hms. by rewrite list_elem_of_In, in_rev, <- list_elem_of_In.
  - apply Ht. eapply elem_of_sublist; [exact Hin|apply selected_sub].
Qed.

Lemma family_operands s es : family_ok cmp s -> es ∈ family_runs s -> operands_unexpiring es.
Proof.
  intros (Hms & Ht & _). rewrite Forall_forall in Ht. rewrite Forall_forall in Hms. unfold family_runs. intros [(m & Hin & <-)%elem_of_map|(t & Hin & <-)%elem_of_map]%elem_of_app.
  - apply Hms. apply elem_of_cons in Hin as [->|Hin]; [left|right]. by rewrite list_elem_of_In, in_rev, <- list_elem_of_In.
  - by apply Ht.
Qed.

Lemma same_scan_runs s s' lower upper : same_family cmp s s' -> scan_runs cmp lower upper s' = scan_runs cmp lower upper s.
Proof.
  intros (Hm & Hi & El). unfold scan_runs. cbn [map]. rewrite El, !map_rev. destruct Hm as (-> & _). by destruct (same_mems_entries cmp _ _ Hi) as [-> _].
Qed.

Context (op : option MergeOp) (s : FamilyState) (rs now : Z) (lower upper : Bound) (fuel : nat).
Context (ok : family_ok cmp s).
Context (seqs_ok : forall es e, es ∈ family_runs s -> e ∈ es -> 1 <= e_seq e <= U64_MAX).
Context (op_ok : op = None -> forall es e, es ∈ family_runs s -> e ∈ es -> e_merge e = false).
Context (ranges_apart : apart cmp (family_runs s) (family_spans s)).
Context (versions_ok : forall k, consistent (stored_versions cmp (cs_mem s) (cs_imm s) (cs_levels s) k rs now)).
Context (fuel_enough : (length (concat (family_runs s)) < fuel)%nat).
Local Abbreviation pairs := (pairs_of cmp lower upper (stored_get cmp op s rs now) (scan_keys cmp (family_runs s))).

Lemma run_of_family es : es ∈ scan_runs cmp lower upper s -> es ∈ family_runs s.
Proof. intros Hes. eapply elem_of_sublist; [exact Hes|apply scan_runs_sub]. Qed.

Lemma scan_pairs ss :
  (forall k x, span_at cmp ss k x <-> span_at cmp (scan_spans cmp lower upper s) k x) ->
  visible_pairs cmp (scan_runs cmp lower upper s) ss rs now op lower upper = pairs.
Proof.
  intros Hss. unfold visible_pairs. apply (pairs_of_eq cmp); [by apply scan_keys_sorted..| |].
  - intros k Hb. by apply (scan_reads_stored cmp op).
  - intros k v Hb _. rewrite !elem_of_scan_keys. split; intros (es & e & Hes & He & Hk); exists es, e; (split; [|done]); [by apply run_of_family|].
    apply (scan_run_in cmp lower upper s es e); try done. by rewrite Hk.
Qed.

Lemma built_moves mask children mvs (it := fold_left (move fuel) mvs (iterator_new cmp children rs now lower upper mask op)) :
  Forall2 (fun es c => exists p, cur_on es p c) (scan_runs cmp lower upper s) children ->
  masks cmp (window_lower lower) (window_upper upper) mask (scan_spans cmp lower upper s) ->
  allowed_all cmp lower upper pairs None mvs = true ->
  (it_err it = None /\ observe it = fold_left (spec_move cmp pairs) mvs None) \/
  (it_err it <> None /\ ((m_err (it_m it) <> None /\ died cmp (family_runs s)) \/ unreadable (family_runs s) \/
     refused cmp (family_runs s) rs op lower upper (stored_get cmp op s rs now))).
Proof.
  intros Hch (frss & Hm & Hss) Hal. rewrite <- (scan_pairs _ Hss) in Hal |- *.
  destruct (scan_moves cmp (scan_runs cmp lower upper s) (scan_runs_sorted s lower upper ok) frss (window_lower lower) (window_upper upper) rs now op lower upper)
    with (fuel := fuel) (children := children) (mask := mask) (mvs := mvs) as [?|[He Hf]]; try done.
  - intros es Hes. apply (family_operands s); [done|]. by apply run_of_family.
  - intros Hn es e Hes. apply op_ok; [done|]. by apply run_of_family.
  - intros es e Hes He Hat. apply (ranges_apart es e); [by apply run_of_family|done|]. by apply (scan_span_sub cmp lower upper), Hss.
  - intros k. by apply bounds_in_window.
  - eapply Nat.le_lt_trans; [|exact fuel_enough]. apply sublist_length, concat_sublist, scan_runs_sub.
  - intros es e Hes. apply seqs_ok. by apply run_of_family.
  - by left.
  - right. split; [done|]. destruct Hf as [(Hme & es & c & Hes & Hd)|[(es & e & Hes & Hr)|(o & k & ex & ops & Ho & Hn & Hne & Hops & Hg)]].
    + left. split; [done|]. exists es, c. split; [by apply run_of_family|done].
    + right; left. exists es, e. split; [by apply run_of_family|done].
    + right; right. exists o, k, ex, ops. split; [done|]. split; [done|]. split; [done|]. split.
      * intros v (es & e & Hes & Hin)%Hops. exists es, e. split; [by apply run_of_family|done].
      * intros Hb. rewrite <- (scan_reads_stored cmp op rs now lower upper s _ k ok (versions_ok k) Hb (Hss k)). by apply Hg.
Qed.
End Agree.

(** A bounded scan over any children that are cursors of their runs shows
    exactly the keys for which everything the family stores gives a value, with
    that value, or reports an error that has a cause. *)
Lemma scan_shows_stored cmp (TO : TotalOrder cmp) C (Ops : CursorOps C) (Cur : Cursor cmp C) open mem_iter sst_iter op s rs now lower upper mvs fuel :
  family_ok cmp s ->
  (forall m, m_entries m ∈ map m_entries (cs_mem s :: cs_imm s) -> exists p, cur_on (m_entries m) p (mem_iter m)) ->
  (forall t, t ∈ concat (cs_levels s) -> open t = Ok tt -> exists p, cur_on (t_entries t) p (sst_iter t)) ->
  (forall es e, es ∈ family_runs s -> e ∈ es -> 1 <= e_seq e <= U64_MAX) ->
  (op = None -> forall es e, es ∈ family_runs s -> e ∈ es -> e_merge e = false) ->
  apart cmp (family_runs s) (family_spans s) ->
  (forall k, consistent (stored_versions cmp (cs_mem s) (cs_imm s) (cs_levels s) k rs now)) ->
  (length (concat (family_runs s)) < fuel)%nat ->
  let pairs := pairs_of cmp lower upper (stored_get cmp op s rs now) (scan_keys cmp (family_runs s)) in
  allowed_all cmp lower upper pairs None mvs = true ->
  let '(it, s') := new_iterator cmp open mem_iter sst_iter op s rs now None lower upper in
  let it := fold_left (move fuel) mvs it in
  ((it_err it = None /\ observe it = fold_left (spec_move cmp pairs) mvs None) \/
   (it_err it <> None /\
    ((exists t e, t ∈ concat (cs_levels s) /\ open t = Err e) \/ (m_err (it_m it) <> None /\ died cmp (family_runs s)) \/ unreadable (family_runs s) \/
     refused cmp (family_runs s) rs op lower upper (stored_get cmp op s rs now)))) /\
  family_runs s' = family_runs s /\ family_spans s' = family_spans s.
Proof.
  intros Hok Hmi Hsi Hq Hop Hap Hc Hfuel pairs Hal. pose proof (range_mask_built cmp open s lower upper Hok) as Hmask. unfold new_iterator.
  destruct (iterator_range_mask _ _ _ _ _ _) as [[r s'] extra]. destruct Hmask as (Hsame & -> & Hr). destruct (same_family_reads cmp s s' Hsame) as (E1 & E2 & Hok').
  destruct r as [mask|e].
  2:{ split; [|done]. right. split; [by apply moves_err|]. left. destruct Hr as (t & ? & ?). eauto. }
  pose proof (iterator_children_opened cmp open mem_iter sst_iter s' None lower upper) as Ho. destruct (iterator_children _ _ _ _ _ _ _ _) as [children|e]; cbn [opened] in Ho.
  - destruct Ho as [-> Ho]. split; [|done]. 
    assert (map m_entries (cs_mem s' :: cs_imm s') = map m_entries (cs_mem s :: cs_imm s) /\ cs_levels s' = cs_levels s) as [Em El].
    { destruct Hsame as (Hm & Hi & El). split; [|done]. cbn [map]. by rewrite (proj1 Hm), (proj1 (same_mems_entries cmp _ _ Hi)). }
    pose proof (children_on_runs cmp open mem_iter sst_iter s' lower upper ltac:(intros m Hm; apply Hmi; rewrite <- Em; by apply list_elem_of_fmap_2)
      ltac:(intros t Ht; apply Hsi; by rewrite <- El) Ho) as Hch.
    rewrite (same_scan_runs cmp s s') in Hch by done. destruct (built_moves cmp op s rs now lower upper fuel Hok Hq Hop Hap Hc Hfuel mask _ mvs Hch Hr Hal) as [?|[? ?]]; [by left|right; auto].
  - split; [|done]. right. split; [by apply moves_err|]. left. destruct Ho as (t & Hin & E). exists t, e. split; [|done].
    eapply elem_of_sublist; [exact Hin|]. destruct Hsame as (_ & _ & <-). apply selected_sub.
Qed.

(** Reads of the sample family at any key draw on five versions. *)
Definition sample_family : FamilyState := mkFamily sample_mem [] sample_levels.

Lemma sample_consistent k : consistent (stored_versions Bytewise sample_mem [] sample_levels k 30 0).
Proof.
  apply consistent_sub with (map (chain_version 0) (concat (family_runs sample_family)) ++ [mkCV 5 false None]).
  - apply NoDup_consistent, (bool_decide_unpack _). vm_compute. exact I.
  - intros w Hw. apply (elem_of_family_versions Bytewise sample_family) in Hw. apply elem_of_app in Hw as [Hw|Hw]; apply elem_of_app; [left|right].
    + apply (elem_of_versions_at Bytewise) in Hw as (es & e & Hes & He & _ & _ & <-). apply elem_of_map. exists e. split; [|done]. apply elem_of_concat. by exists es.
    + apply (elem_of_span_versions Bytewise) in Hw as (Ew & (sp & Hsp & _ & _ & Eq) & _). apply list_elem_of_singleton. rewrite Ew, <- Eq. f_equal.
      revert sp Hsp Eq. apply (Forall_forall (fun sp => s_seq sp = cv_seq w -> s_seq sp = 5)). repeat constructor.
Qed.
