(* ===== verification/DataBlock.v ===== *)
(** * Data blocks (sst/writer.rs, sst/reader.rs)

    A data block is its entries, in one of the three layouts of [SstEntry], and
    a trailer of restart offsets.  Here: what a block of given entries looks
    like, how a reader splits it, finds a restart point and scans for a key, and
    that the scan answers as the sorted run of [ReadPath] does. *)

From Stdlib Require Import ZArith Lia Sorting.Sorted.
From Stdlib.Strings Require Import Byte.
From stdpp Require Import base list sorting.
From S2P Require Import Prelude Encoding Codec Comparator Format Block SstEntry Manifest RangeTombstone ReadPath.

Open Scope Z_scope.

(** An entry as it is stored: its value inline, or in the value log at [s_off]. *)
Record Stored := mkStored {
  s_key : key;
  s_value : list byte;
  s_seq : Z;
  s_ttl : Z;
  s_kind : Z;
  s_vlog : bool;
  s_off : Z;
}.

(** The version a stored entry is. *)
Definition entry_of (e : Stored) : Entry := mkEntry (s_key e) (s_seq e) (s_kind e) (s_ttl e) (s_value e) true.

Section DataBlock.
Context (cmp : Comparator) (prefix_delta : bool) (layout : EntryLayout).

Definition encode_stored (dst prev_key : list byte) (e : Stored) : list byte :=
  if prefix_delta then
    encode_entry_delta dst prev_key (s_key e) (s_value e) (s_seq e) (s_ttl e) (s_kind e) (s_vlog e) (s_off e)
  else encode_entry dst layout (s_key e) (s_value e) (s_seq e) (s_ttl e) (s_kind e) (s_vlog e) (s_off e).

(** ** Reading a block *)

(** The next entry and its key; [scratch] is the running key of a delta block. *)
Definition next_entry (raw : list byte) (offset : nat) (scratch : list byte) : result (DecEntry * nat * list byte) :=
  if prefix_delta then decode_entry_delta raw offset scratch (is_bytewise cmp)
  else
    let? (entry, next) := decode_entry raw layout offset in
    Ok (entry, next, stored_key raw entry).

Definition split_block (raw : list byte) : result (list byte * list byte) :=
  ensure? negb (length raw <? 4)%nat else Corruption ;;
  let count := from_le_bytes (drop (length raw - 4) raw) in
  let trailer := count * 4 + 4 in
  ensure? trailer <=? zlen raw else Corruption ;;
  let entries_end := (length raw - Z.to_nat trailer)%nat in
  let entries := take entries_end raw in
  let restarts := slice raw entries_end (length raw - 4) in
  let? _ := if prefix_delta then validate_delta_restarts (length entries) restarts else Ok tt in
  Ok (entries, restarts).

(** The anchor the restart search decodes. *)
Definition anchor_entry (raw : list byte) (off : nat) : result (DecEntry * nat) :=
  if prefix_delta then decode_delta_anchor raw off else decode_entry raw layout off.

Definition restart_scan_offset (raw restarts : list byte) (user_key : key) (read_seq : Z) : result nat :=
  if (length restarts <? 8)%nat then Ok 0%nat
  else
    let? lo := restart_lower_bound (length restarts / 4) (fun i =>
      let? (entry, _) := anchor_entry raw (restart_off restarts i) in
      Ok (is_lt (cmp_internal cmp (stored_key raw entry) (d_seq entry) user_key read_seq))) in
    Ok (if (0 <? lo)%nat then restart_off restarts (lo - 1) else 0%nat).

Context (separated : Z -> Z -> result (list byte)).

(** The loop of [scan_point_entry_into]; every entry is at least a byte, so the block's length is fuel enough. *)
Fixpoint scan_entries (raw : list byte) (user_key : key) (read_seq now : Z) (fuel offset : nat) (scratch : list byte)
    : result Lookup :=
  if (offset <? length raw)%nat then
    match fuel with
    | O => Ok miss
    | S fuel =>
        let? (entry, next, entry_key) := next_entry raw offset scratch in
        if is_lt (cmp_internal cmp entry_key (d_seq entry) user_key read_seq) then
          scan_entries raw user_key read_seq now fuel next entry_key
        else if negb (is_eq (compare cmp entry_key user_key)) then Ok miss
        else if d_tombstone entry || (negb (d_ttl entry =? 0) && (d_ttl entry <=? now)) then
          Ok (mkLookup None (d_seq entry) true true (d_kind entry))
        else
          let? value := if d_has_vlog entry then separated (d_vlog_off entry) (val_len entry) else Ok (inline_value raw entry) in
          Ok (mkLookup (Some value) (d_seq entry) true false (d_kind entry))
    end
  else Ok miss.

Definition scan_point_entry (raw : list byte) (offset : nat) (user_key : key) (read_seq now : Z) : result Lookup :=
  scan_entries raw user_key read_seq now (length raw) offset [].

(** What [get_unfiltered] does inside one block. *)
Definition block_get (block : list byte) (user_key : key) (read_seq now : Z) : result Lookup :=
  let? (raw, restarts) := split_block block in
  let? offset := restart_scan_offset raw restarts user_key read_seq in
  scan_point_entry raw offset user_key read_seq now.
End DataBlock.

(** ** The block of given entries *)

Section Layout.
Context (prefix_delta : bool) (layout : EntryLayout) (interval : nat).

Definition is_anchor (i : nat) : bool := (i mod interval =? 0)%nat.
Definition anchored (i : nat) (prev : key) : key := if is_anchor i then [] else prev.
Definition last_key (prev : key) (es : list Stored) : key := match last es with Some e => s_key e | None => prev end.

Fixpoint block_bytes (i : nat) (prev : key) (es : list Stored) : list byte :=
  match es with
  | [] => []
  | e :: es => encode_stored prefix_delta layout [] (anchored i prev) e ++ block_bytes (S i) (s_key e) es
  end.

Fixpoint restart_offs (i off : nat) (prev : key) (es : list Stored) : list nat :=
  match es with
  | [] => []
  | e :: es =>
      (if is_anchor i then [off] else [])
      ++ restart_offs (S i) (off + length (encode_stored prefix_delta layout [] (anchored i prev) e)) (s_key e) es
  end.

Definition trailer_bytes (rs : list nat) : list byte :=
  restart_bytes rs ++ le_bytes 4 (Z.of_nat (length rs)).

Definition block_raw (es : list Stored) : list byte := block_bytes 0 [] es ++ trailer_bytes (restart_offs 0 0 [] es).

Lemma encode_stored_app dst prev e : encode_stored prefix_delta layout dst prev e = dst ++ encode_stored prefix_delta layout [] prev e.
Proof. unfold encode_stored. by destruct prefix_delta. Qed.

Lemma last_key_cons prev e es : last_key prev (e :: es) = last_key (s_key e) es.
Proof. unfold last_key. rewrite last_cons. by destruct (last es). Qed.

Lemma last_key_snoc prev es e : last_key prev (es ++ [e]) = s_key e.
Proof. unfold last_key. by rewrite last_snoc. Qed.

Lemma block_bytes_app i prev a b :
  block_bytes i prev (a ++ b) = block_bytes i prev a ++ block_bytes (i + length a) (last_key prev a) b.
Proof.
  revert i prev. induction a as [|e a IH]; intros i prev; cbn [app block_bytes length]; [by rewrite Nat.add_0_r|].
  rewrite IH, last_key_cons, <- app_assoc. by replace (S i + length a)%nat with (i + S (length a))%nat by lia.
Qed.

Lemma restart_offs_app i off prev a b :
  restart_offs i off prev (a ++ b) =
    restart_offs i off prev a ++ restart_offs (i + length a) (off + length (block_bytes i prev a)) (last_key prev a) b.
Proof.
  revert i off prev. induction a as [|e a IH]; intros i off prev; cbn [app block_bytes restart_offs length]; [by rewrite !Nat.add_0_r|].
  rewrite IH, last_key_cons, <- app_assoc, length_app.
  by replace (S i + length a)%nat with (i + S (length a))%nat by lia; rewrite Nat.add_assoc.
Qed.

Lemma encode_stored_nonempty prev e : (0 < length (encode_stored prefix_delta layout [] prev e))%nat.
Proof.
  pose proof (enc_uvarint_nonempty (s_kind e)). unfold encode_stored, encode_entry_delta, encode_entry. cbn zeta.
  destruct prefix_delta, layout; rewrite !length_app; cbn [length]; try rewrite length_app; lia.
Qed.

Lemma block_bytes_length i prev es : (length es <= length (block_bytes i prev es))%nat.
Proof.
  revert i prev. induction es as [|e es IH]; intros i prev; cbn [block_bytes length]; [lia|].
  rewrite length_app. pose proof (encode_stored_nonempty (anchored i prev) e). specialize (IH (S i) (s_key e)). lia.
Qed.

(** A restart offset is where an anchor is. *)
Lemma restart_offs_elem i off prev es o :
  o ∈ restart_offs i off prev es <->
  exists a e b, es = a ++ e :: b /\ is_anchor (i + length a) = true /\ o = (off + length (block_bytes i prev a))%nat.
Proof.
  revert i off prev. induction es as [|e es IH]; intros i off prev; cbn [restart_offs].
  - rewrite elem_of_nil. split; [done|]. intros (a & e & b & E & _). by destruct a.
  - rewrite elem_of_app, IH. split.
    + intros [Ho|(a & e' & b & -> & Ha & ->)].
      * destruct (is_anchor i) eqn:Ei; [|by apply elem_of_nil in Ho]. apply list_elem_of_singleton in Ho as ->.
        exists [], e, es. cbn. by rewrite !Nat.add_0_r.
      * exists (e :: a), e', b. cbn [app length block_bytes]. rewrite length_app.
        replace (i + S (length a))%nat with (S i + length a)%nat by lia. split; [done|]. split; [done|lia].
    + intros (a & e' & b & E & Ha & ->). destruct a as [|x a]; cbn in E; injection E as -> ->.
      * left. cbn [length block_bytes] in *. rewrite Nat.add_0_r in *. rewrite Ha. by apply list_elem_of_singleton.
      * right. exists a, e', b. cbn [length block_bytes] in *. rewrite length_app.
        replace (i + S (length a))%nat with (S i + length a)%nat in Ha by lia. split; [done|]. split; [done|lia].
Qed.

Lemma restart_offs_bound i off prev es o :
  o ∈ restart_offs i off prev es -> (off <= o < off + length (block_bytes i prev es))%nat.
Proof.
  intros (a & e & b & -> & _ & ->)%restart_offs_elem. rewrite block_bytes_app, length_app. cbn [block_bytes].
  rewrite length_app. pose proof (encode_stored_nonempty (anchored (i + length a) (last_key prev a)) e). lia.
Qed.

Lemma restart_offs_sorted i off prev es : StronglySorted lt (restart_offs i off prev es).
Proof.
  revert i off prev. induction es as [|e es IH]; intros i off prev; cbn [restart_offs]; [constructor|].
  destruct (is_anchor i); cbn [app]; [|apply IH]. constructor; [apply IH|]. apply Forall_forall. intros o Ho.
  apply restart_offs_bound in Ho. pose proof (encode_stored_nonempty (anchored i prev) e). lia.
Qed.
End Layout.

Lemma sorted_lt_length rs lo hi :
  StronglySorted lt rs -> (forall o, o ∈ rs -> (lo <= o < hi)%nat) -> (length rs <= hi - lo)%nat.
Proof.
  revert lo. induction rs as [|o rs IH]; intros lo Hs Hb; cbn [length]; [lia|]. apply StronglySorted_inv in Hs as [Hs Hf].
  rewrite Forall_forall in Hf. pose proof (Hb o ltac:(left)). specialize (IH (S o) Hs).
  assert (length rs <= hi - S o)%nat; [|lia]. apply IH. intros x Hx. specialize (Hf x Hx). specialize (Hb x ltac:(by right)). lia.
Qed.

(** ** Reading a block back *)

Section ReadBack.
Context (cmp : Comparator) `{!TotalOrder cmp} (prefix_delta : bool) (layout : EntryLayout) (interval : nat).
Context (separated : Z -> Z -> result (list byte)).

Definition stored_ok (e : Stored) : Prop :=
  entry_enc_ok (if prefix_delta then Extended else layout) (s_key e) (s_value e) (s_seq e) (s_ttl e) (s_kind e) (s_vlog e) (s_off e).

(** The value log gives the value back. *)
Definition separated_ok (e : Stored) : Prop := s_vlog e = true -> separated (s_off e) (zlen (s_value e)) = Ok (s_value e).

Definition stored_dec (raw : list byte) (d : DecEntry) (e : Stored) : Prop :=
  exists shared kb, dec_is raw d shared kb (s_value e) (s_seq e) (s_ttl e) (s_kind e) (s_vlog e) (s_off e).

Lemma next_entry_enc raw off i prev scratch e rest :
  stored_ok e -> is_anchor interval i = true \/ prev = scratch ->
  (is_bytewise cmp = true -> slice_cmp (s_key e) scratch <> Lt) ->
  let enc := encode_stored prefix_delta layout [] (anchored interval i prev) e in
  at_ raw off (enc ++ rest) ->
  exists d, next_entry cmp prefix_delta layout raw off scratch = Ok (d, (off + length enc)%nat, s_key e) /\ stored_dec raw d e.
Proof.
  intros Hok Hp Hb enc Hat. unfold enc, next_entry, encode_stored, stored_ok, stored_dec in *. destruct prefix_delta.
  - destruct (decode_entry_delta_enc raw off (anchored interval i prev) scratch (is_bytewise cmp) _ _ _ _ _ _ _ rest Hok)
      as (d & n & kb & E & Hd); [|done|done|eauto].
    unfold anchored. destruct Hp as [->|E]; [by left|]. destruct (is_anchor interval i); auto.
  - destruct (decode_entry_enc raw off layout _ _ _ _ _ _ _ _ Hok Hat) as (d & E & Hd). rewrite E. cbn [rbind].
    exists d. rewrite (dx_key _ _ _ _ _ _ _ _ _ _ Hd). eauto.
Qed.

Lemma before_of e k s : is_lt (cmp_internal cmp (s_key e) (s_seq e) k s) = before cmp (entry_of e) k s.
Proof.
  unfold cmp_internal, before. cbn. destruct (compare cmp (s_key e) k); [|done|done]. unfold Z.ltb. by destruct (s ?= s_seq e).
Qed.

Lemma sorted_next e e' es : run_sorted cmp (map entry_of (e :: e' :: es)) -> is_bytewise cmp = true -> slice_cmp (s_key e') (s_key e) <> Lt.
Proof.
  intros Hs Hb. rewrite <- (bytewise_exact _ _ Hb). cbn in Hs. apply StronglySorted_inv in Hs as [_ Hf]. inv Hf as [|? ? Hlt _].
  destruct Hlt as [Hlt|[E _]]; cbn in *; [|rewrite E; apply (klt_irrefl cmp)]. apply (not_klt cmp). by apply klt_kle.
Qed.

(** Scanning from an anchor, or with the right running key, answers as the run from there on. *)
Lemma scan_entries_spec raw k rs now es i prev scratch off fuel :
  at_ raw off (block_bytes prefix_delta layout interval i prev es) -> Forall stored_ok es -> Forall separated_ok es -> run_sorted cmp (map entry_of es) ->
  is_anchor interval i = true \/ prev = scratch ->
  (is_bytewise cmp = true -> match es with e :: _ => slice_cmp (s_key e) scratch <> Lt | [] => True end) ->
  (length raw - off <= fuel)%nat ->
  scan_entries cmp prefix_delta layout separated raw k rs now fuel off scratch = get_unfiltered cmp (map entry_of es) k rs now.
Proof.
  revert i prev scratch off fuel. induction es as [|e es IH]; intros i prev scratch off fuel Hat Hok Hsep Hs Hp Hb Hf.
  - apply at_length in Hat. cbn in Hat. destruct fuel; cbn [scan_entries]; (destruct (Nat.ltb_spec off (length raw)); [lia|done]).
  - inv Hok as [|? ? He Hok']. inv Hsep as [|? ? Hv Hsep']. pose proof (at_length _ _ _ Hat) as HL. cbn [block_bytes] in Hat, HL.
    rewrite length_app in HL. pose proof (encode_stored_nonempty prefix_delta layout (anchored interval i prev) e) as Hne.
    destruct (next_entry_enc raw off i prev scratch e _ He Hp Hb Hat) as (d & Hd & n & kb & Hi).
    destruct fuel as [|fuel]; cbn [scan_entries]; (destruct (Nat.ltb_spec off (length raw)); [|lia]); [lia|].
    rewrite Hd. cbn [rbind]. destruct Hi as [_ _ -> -> -> -> -> -> Hin Hoff]. rewrite before_of. cbn [map].
    unfold get_unfiltered. cbn [seek]. destruct (before cmp (entry_of e) k rs) eqn:Eb.
    + apply at_step in Hat. fold (get_unfiltered cmp (map entry_of es) k rs now).
      apply (IH (S i) (s_key e)); [done|done|done|by apply StronglySorted_inv in Hs as [? _]|by right| |lia].
      intros Hbw. destruct es; [done|]. by eapply sorted_next.
    + cbn [entry_of e_key e_seq e_kind]. destruct (is_eq (compare cmp (s_key e) k)); [|done]. cbn [negb].
      unfold dead, e_tombstone, expired. cbn [entry_of e_ttl e_kind]. destruct (_ || _); [done|].
      unfold read_value. cbn [e_readable e_value entry_of]. destruct (s_vlog e) eqn:Ev; [by rewrite Hoff, Hv by done|by rewrite Hin].
Qed.
Lemma entry_lt_before a b k s : entry_lt cmp a b -> before cmp b k s = true -> before cmp a k s = true.
Proof.
  unfold before. intros Hab Hb. destruct (compare cmp (e_key b) k) eqn:Eb; [|clear Hb|done].
  - apply (kcompare_eq cmp) in Eb. subst k. apply Z.ltb_lt in Hb. destruct Hab as [Hlt|[E Hlt]]; [by rewrite Hlt|].
    rewrite (proj2 (kcompare_eq cmp _ _) E). apply Z.ltb_lt. lia.
  - assert (klt cmp (e_key a) k) as ->; [|done]. destruct Hab as [Hlt|[-> _]]; [|done]. by eapply klt_trans.
Qed.

Lemma seek_skip a b k s : Forall (fun e => before cmp e k s = true) a -> seek cmp (a ++ b) k s = seek cmp b k s.
Proof. induction 1 as [|e a He _ IH]; [done|]. cbn. by rewrite He. Qed.

Lemma get_unfiltered_skip a b k s now :
  Forall (fun e => before cmp e k s = true) a -> get_unfiltered cmp (a ++ b) k s now = get_unfiltered cmp b k s now.
Proof. intros Ha. unfold get_unfiltered. by rewrite seek_skip. Qed.

(** Everything in front of an entry that is before the target is before the target. *)
Lemma sorted_before a e b k s :
  run_sorted cmp (a ++ e :: b) -> before cmp e k s = true -> Forall (fun x => before cmp x k s = true) a.
Proof.
  intros Hs He. apply Forall_forall. intros x Hx. eapply entry_lt_before; [|exact He].
  eapply StronglySorted_app_1_elem_of; [exact Hs|done|by left].
Qed.

Lemma anchor_entry_enc raw off i prev e rest :
  stored_ok e -> is_anchor interval i = true ->
  at_ raw off (encode_stored prefix_delta layout [] (anchored interval i prev) e ++ rest) ->
  exists d n, anchor_entry prefix_delta layout raw off = Ok (d, n) /\ stored_key raw d = s_key e /\ d_seq d = s_seq e.
Proof.
  intros Hok Ha Hat. unfold anchored in Hat. rewrite Ha in Hat. unfold anchor_entry, encode_stored, stored_ok in *. destruct prefix_delta.
  - destruct (decode_delta_anchor_enc raw off _ _ _ _ _ _ _ _ Hok Hat) as (d & E & Hd). exists d. eexists. split; [exact E|].
    by destruct Hd.
  - destruct (decode_entry_enc raw off layout _ _ _ _ _ _ _ _ Hok Hat) as (d & E & Hd). exists d. eexists. split; [exact E|].
    by destruct Hd.
Qed.

Lemma restart_scan_offset_spec es k s :
  let raw := block_bytes prefix_delta layout interval 0 [] es in
  let rs := restart_offs prefix_delta layout interval 0 0 [] es in
  Forall stored_ok es -> run_sorted cmp (map entry_of es) -> zlen raw < 2 ^ 32 ->
  exists a b, es = a ++ b /\ is_anchor interval (length a) = true /\ Forall (fun e => before cmp e k s = true) (map entry_of a) /\
    restart_scan_offset cmp prefix_delta layout raw (restart_bytes rs) k s =
      Ok (length (block_bytes prefix_delta layout interval 0 [] a)).
Proof.
  intros raw rs Hok Hs Hlen. set (restarts := restart_bytes rs). unfold restart_scan_offset.
  destruct (Nat.ltb_spec (length restarts) 8); [exists [], es; split; [done|]; split; [apply Nat.eqb_eq; by rewrite Nat.Div0.mod_0_l|by split; [constructor|]]|].
  assert (length restarts = length rs * 4)%nat as HLr by apply restart_bytes_length.
  rewrite HLr, Nat.div_mul by lia.
  match goal with |- context [restart_lower_bound _ ?f] => set (p := f) end. assert (forall i, (i < length rs)%nat -> exists a e b, es = a ++ e :: b /\ is_anchor interval (length a) = true /\
     restart_off restarts i = length (block_bytes prefix_delta layout interval 0 [] a) /\ p i = Ok (before cmp (entry_of e) k s)) as Hp.
  { intros i Hi. destruct (lookup_lt_is_Some_2 rs i Hi) as [o Ho]. pose proof (list_elem_of_lookup_2 _ _ _ Ho) as Hel.
    pose proof (restart_offs_bound _ _ _ _ _ _ _ _ Hel) as Hb. fold raw in Hb.
    apply restart_offs_elem in Hel as (a & e & b & -> & Ha & Eo). exists a, e, b. split; [done|]. split; [done|].
    assert (restart_off restarts i = o) as Er by (apply restart_off_at; [done|unfold zlen in Hlen; lia]).
    split; [by rewrite Er|]. unfold p. rewrite Er. apply Forall_app in Hok as [_ Hok]. inv Hok as [|? ? He _].
    cbn [Nat.add] in *. destruct (anchor_entry_enc raw (length (block_bytes prefix_delta layout interval 0 [] a)) (length a) (last_key [] a) e (block_bytes prefix_delta layout interval (S (length a)) (s_key e) b) He Ha)
      as (d & n & E & Ek & Es); [|rewrite E; cbn [rbind]; by rewrite Ek, Es, before_of].
    unfold raw. rewrite block_bytes_app. cbn [block_bytes Nat.add]. apply at_app. }
  destruct (restart_search_spec p (fun i => match p i with Ok b => b | Err _ => false end) (length rs) 0 (length rs)) as (r & Er & Hr & Hq);
    [lia|lia|intros i Hi; destruct (Hp i Hi) as (? & ? & ? & _ & _ & _ & ->); done|by left|].
  unfold restart_lower_bound. rewrite Er. cbn [rbind]. destruct (Nat.ltb_spec 0 r).
  - destruct Hq as [->|Hq]; [lia|]. destruct (Hp (r - 1)%nat ltac:(lia)) as (a & e & b & Ees & Ha & Eo & Ep).
    exists a, (e :: b). split; [done|]. split; [done|]. split; [|by rewrite Eo]. rewrite Ep in Hq. rewrite Ees, map_app in Hs.
    by eapply sorted_before.
  - exists [], es. split; [done|]. split; [apply Nat.eqb_eq; by rewrite Nat.Div0.mod_0_l|]. by split; [constructor|].
Qed.
Lemma split_block_raw es :
  let raw := block_bytes prefix_delta layout interval 0 [] es in
  zlen raw < 2 ^ 32 ->
  split_block prefix_delta (block_raw prefix_delta layout interval es) =
    Ok (raw, restart_bytes (restart_offs prefix_delta layout interval 0 0 [] es)).
Proof.
  intros raw Hlen. unfold block_raw, trailer_bytes. fold raw. set (rs := restart_offs prefix_delta layout interval 0 0 [] es).
  set (R := restart_bytes rs). set (C := le_bytes 4 (Z.of_nat (length rs))). assert (length C = 4)%nat as LC by (unfold C; by rewrite le_bytes_length).
  assert (length R = length rs * 4)%nat as LR by apply restart_bytes_length.
  assert (forall o, o ∈ rs -> (o < length raw)%nat) as Hb by (intros o Ho; apply restart_offs_bound in Ho; fold raw in Ho; lia).
  pose proof (restart_offs_sorted prefix_delta layout interval 0 0 [] es) as Hss. fold rs in Hss.
  assert (length rs <= length raw)%nat as Hcount.
  { replace (length raw) with (length raw - 0)%nat by lia. apply (sorted_lt_length rs 0); [done|]. intros o Ho. specialize (Hb o Ho). lia. }
  unfold split_block. rewrite !app_assoc. rewrite (length_app (raw ++ R)), LC. destruct (Nat.ltb_spec (length (raw ++ R) + 4) 4); [lia|]. cbn [negb guard rbind].
  rewrite Nat.add_sub, drop_app_length.
  assert (from_le_bytes C = Z.of_nat (length rs)) as -> by (unfold C; apply from_le_bytes_u32; unfold is_u32, zlen in *; lia).
  rewrite !zlen_app. destruct (Z.leb_spec (Z.of_nat (length rs) * 4 + 4) (zlen raw + zlen R + zlen C)); [|unfold zlen in *; lia]. cbn [guard rbind].
  replace (length (raw ++ R) + 4 - Z.to_nat (Z.of_nat (length rs) * 4 + 4))%nat with (length raw) by (rewrite length_app; lia).
  rewrite <- !app_assoc, take_app_length. rewrite (slice_app raw R C) by (rewrite ?length_app; lia).
  assert ((if prefix_delta then validate_delta_restarts (length raw) R else Ok tt) = Ok tt) as ->; [|done].
  destruct prefix_delta eqn:Epd; [|done]. unfold validate_delta_restarts. rewrite LR, Nat.div_mul by lia.
  assert (es = [] \/ exists e es', es = e :: es') as [->|(e & es' & Ees)] by (destruct es; eauto); [done|].
  assert (rs = 0%nat :: tail rs) as Ers.
  { unfold rs. rewrite Ees. cbn [restart_offs]. unfold is_anchor. by rewrite Nat.Div0.mod_0_l. }
  pose proof (Hb 0%nat ltac:(rewrite Ers; left)). destruct (Nat.eqb_spec (length raw) 0); [lia|].
  destruct (Nat.eqb_spec (length rs) 0) as [E0|_]; [rewrite Ers in E0; done|]. cbn [negb guard rbind].
  apply validate_anchors_ok; [|intros o Ho; split; [by apply Hb|done]|done|intros _; by rewrite Ers].
  intros j o Ho. cbn [Nat.add]. apply restart_off_at; [done|]. apply list_elem_of_lookup_2, Hb in Ho. unfold zlen in Hlen. lia.
Qed.

(** A lookup in a written block answers as the run of its entries. *)
Lemma block_get_spec es k s now :
  Forall stored_ok es -> Forall separated_ok es -> run_sorted cmp (map entry_of es) ->
  zlen (block_bytes prefix_delta layout interval 0 [] es) < 2 ^ 32 ->
  block_get cmp prefix_delta layout separated (block_raw prefix_delta layout interval es) k s now =
    get_unfiltered cmp (map entry_of es) k s now.
Proof.
  intros Hok Hsep Hs Hlen. unfold block_get. rewrite split_block_raw by done. cbn [rbind].
  destruct (restart_scan_offset_spec es k s Hok Hs Hlen) as (a & b & -> & Ha & Hbef & ->). cbn [rbind]. unfold scan_point_entry.
  apply Forall_app in Hok as [_ Hok], Hsep as [_ Hsep]. rewrite map_app in *. apply StronglySorted_app_1_r in Hs as Hs2.
  rewrite (scan_entries_spec _ k s now b (length a) (last_key [] a)); [by rewrite get_unfiltered_skip| |done|done|done|by left| |lia].
  - rewrite block_bytes_app. apply at_app.
  - intros _. destruct b; [done|]. by destruct (s_key s0).
Qed.
End ReadBack.
