(* ===== verification/TableWriter.v ===== *)
(** * Writing a table (sst/writer.rs)

    [Writer::add] and [Writer::finish]: blocks cut by size and by compression
    rule, values moved to the value log, deferred and shortened index
    separators, the filter, the aux block, the flat or tree index and the
    footer.  The two files are the bytes written so far, so the offsets of the
    source are their lengths.  A writer that returned an error is dropped.

    [xxh3] is the filter's hash; [bloom_sizing] is the floating-point sizing of
    [Bloom::new], for a number of keys and a false-positive rate. *)

From Stdlib Require Import ZArith Lia Sorted.
From Stdlib.Strings Require Import Byte.
From stdpp Require Import base list sorting.
From S2P Require Import Prelude Encoding Codec Comparator Format Bloom Block SstEntry Manifest RangeTombstone ReadPath DataBlock.

Open Scope Z_scope.

(** ** Options *)

Record CompressionRule := mkRule { cr_prefix : list byte; cr_compression : Compression }.

Fixpoint starts_with (k prefix : list byte) : bool :=
  match prefix, k with
  | [], _ => true
  | p :: prefix, x :: k => bool_decide (p = x) && starts_with k prefix
  | _, [] => false
  end.

(** The longest matching prefix; [max_by_key] keeps the last of the greatest. *)
Definition compression_for_key (rules : list CompressionRule) (user_key : key) : option Compression :=
  cr_compression <$>
    fold_left (fun best r => match best with
                             | Some b => if (length (cr_prefix b) <=? length (cr_prefix r))%nat then Some r else best
                             | None => Some r
                             end)
      (List.filter (fun r => starts_with user_key (cr_prefix r)) rules) None.

Record WriterOptions (F : Type) := mkWriterOptions {
  o_compression : Compression;
  o_compression_rules : list CompressionRule;
  o_cmp : Comparator;
  o_enable_bloom : bool;
  o_bloom_fpr : option F;
  o_klog_value_threshold : Z;
  o_block_size : Z;
  o_use_btree : bool;
  o_restart_interval : nat;
  o_extended_entries : bool;
  o_prefix_delta : bool;
}.
Arguments o_compression {F}.
Arguments o_compression_rules {F}.
Arguments o_cmp {F}.
Arguments o_enable_bloom {F}.
Arguments o_bloom_fpr {F}.
Arguments o_klog_value_threshold {F}.
Arguments o_block_size {F}.
Arguments o_use_btree {F}.
Arguments o_restart_interval {F}.
Arguments o_extended_entries {F}.
Arguments o_prefix_delta {F}.

(** ** State *)

Record IndexEntry := mkIndexEntry { ie_key : key; ie_seq : Z; ie_handle : BlockHandle }.

(** The block being built. *)
Record Building := mkBuilding {
  cur_block : list byte;
  cur_block_alg : Compression;
  cur_restarts : list nat;
  prev_key : key;
  cur_entries : nat;
}.

(** What the footer and the catalog say of the entries so far. *)
Record Tally := mkTally {
  y_num_entries : Z;
  y_num_tombstones : Z;
  y_max_seq : Z;
  y_min_key : option key;
  y_last_key : key;
  y_last_seq : Z;
  y_wrote_merge : bool;
  y_bloom_hashes : option (list Z);
}.

Record Writer := mkWriter {
  w_klog : list byte;
  w_vlog : option (list byte);
  w_cur : Building;
  w_index : list IndexEntry;
  w_pending_index : option IndexEntry;
  w_tally : Tally;
  w_pending_block : bool;
  w_range_fragments : list Fragment;
}.

Record FileMeta := mkFileMeta {
  fm_min_key : key;
  fm_max_key : key;
  fm_num_entries : Z;
  fm_num_tombstones : Z;
  fm_max_seq : Z;
  fm_klog_size : Z;
  fm_vlog_size : Z;
  fm_range : RangeSummary;
}.

Definition to_sst_meta (m : FileMeta) (sst_id lvl : Z) : SstMeta :=
  mkSstMeta sst_id lvl (fm_num_entries m) (fm_num_tombstones m) (fm_max_seq m) (fm_klog_size m) (fm_vlog_size m)
    (fm_min_key m) (fm_max_key m) None None None None None
    (rs_count (fm_range m)) (rs_min_seq (fm_range m)) (rs_max_seq (fm_range m)) (rs_min_key (fm_range m)) (rs_max_key (fm_range m)) None.

(** ** Separators *)

(** Where two keys first differ. *)
Definition diverge (a b : key) : nat := shared_prefix_len a b.

(** [a\[..=i\]] with its last byte incremented. *)
Definition bump (a : key) (i : nat) (x : byte) : key := take i a ++ [byte_of_Z (Z_of_byte x + 1)].

Definition shortest_separator (a b : key) : key :=
  let i := diverge a b in
  match a !! i, b !! i with
  | Some x, Some y =>
      if (Z_of_byte x <? 0xff) && (Z_of_byte x + 1 <? Z_of_byte y) then bump a i x
      else if (Z_of_byte x <? 0xff) && (Z_of_byte x + 1 =? Z_of_byte y) && (i + 1 <? length b)%nat then bump a i x
      else a
  | _, _ => a
  end.

Section Writer.
Context (checksum : list byte -> Z) `{Codecs} (xxh3 : list byte -> Z) {F : Type} (bloom_sizing : Z -> F -> Z * Z).
Implicit Types (o : WriterOptions F) (w : Writer).

Definition extended o : bool := o_extended_entries o || o_prefix_delta o.
Definition entry_layout o : EntryLayout := if extended o then Extended else Base.

Definition DEFAULT_BLOCK_SIZE : Z := Z.shiftl 4 10.

Definition writer_new (o : WriterOptions F) : result (WriterOptions F * Writer) :=
  ensure? negb (o_restart_interval o =? 0)%nat else InvalidArgs ;;
  let o := mkWriterOptions F (o_compression o) (o_compression_rules o) (o_cmp o) (o_enable_bloom o) (o_bloom_fpr o)
             (if o_klog_value_threshold o =? 0 then 512 else o_klog_value_threshold o)
             (if o_block_size o =? 0 then DEFAULT_BLOCK_SIZE else o_block_size o)
             (o_use_btree o) (o_restart_interval o) (o_extended_entries o) (o_prefix_delta o) in
  let hashes := if o_enable_bloom o && (if o_bloom_fpr o is Some _ then true else false) then Some [] else None in
  Ok (o, mkWriter [] None (mkBuilding [] (o_compression o) [] [] 0) [] None (mkTally 0 0 0 None [] 0 false hashes) false []).

Definition set_range_fragments (frags : list Fragment) w : Writer :=
  mkWriter (w_klog w) (w_vlog w) (w_cur w) (w_index w) (w_pending_index w) (w_tally w) (w_pending_block w) frags.

Definition settle_pending_index o (next_key : key) w : Writer :=
  match w_pending_index w with
  | Some p =>
      let sep := if is_bytewise (o_cmp o) then shortest_separator (ie_key p) next_key else ie_key p in
      let sq := if bool_decide (sep = ie_key p) then ie_seq p else 0 in
      mkWriter (w_klog w) (w_vlog w) (w_cur w) (w_index w ++ [mkIndexEntry sep sq (ie_handle p)]) None (w_tally w)
        (w_pending_block w) (w_range_fragments w)
  | None => w
  end.

Definition pending_trailer_len w : Z := 4 * Z.of_nat (length (cur_restarts (w_cur w))) + 4.

(** [write_all] of a framed block, and its handle. *)
Definition append_block (klog : list byte) (alg : Compression) (payload : list byte) : result (list byte * BlockHandle) :=
  let? (framed, n) := write_block checksum [] alg payload in
  Ok (klog ++ framed, mkHandle (zlen klog) n).

Definition flush_block w : result Writer :=
  let c := w_cur w in
  if (length (cur_block c) =? 0)%nat then Ok w
  else
    let raw := cur_block c ++ trailer_bytes (cur_restarts c) in
    let? (klog, h) := append_block (w_klog w) (cur_block_alg c) raw in
    Ok (mkWriter klog (w_vlog w) (mkBuilding [] (cur_block_alg c) [] [] 0) (w_index w)
          (Some (mkIndexEntry (y_last_key (w_tally w)) (y_last_seq (w_tally w)) h)) (w_tally w) false (w_range_fragments w)).

(** The block the key of compression [alg] goes into. *)
Definition cut_for_rule o (alg : Compression) (user_key : key) w : result Writer :=
  let? w := if negb (length (cur_block (w_cur w)) =? 0)%nat && negb (bool_decide (alg = cur_block_alg (w_cur w))) then
              let? w := flush_block w in Ok (settle_pending_index o user_key w)
            else Ok w in
  let c := w_cur w in
  Ok (if (length (cur_block c) =? 0)%nat then
        mkWriter (w_klog w) (w_vlog w) (mkBuilding (cur_block c) alg (cur_restarts c) (prev_key c) (cur_entries c))
          (w_index w) (w_pending_index w) (w_tally w) (w_pending_block w) (w_range_fragments w)
      else w).

(** The block with one more entry. *)
Definition push_entry o (e : Stored) (c : Building) : Building :=
  let anchor := (cur_entries c mod o_restart_interval o =? 0)%nat in
  let restarts := if anchor then cur_restarts c ++ [length (cur_block c)] else cur_restarts c in
  let prev := if anchor then [] else prev_key c in
  mkBuilding (encode_stored (o_prefix_delta o) (entry_layout o) (cur_block c) prev e) (cur_block_alg c) restarts
    (if o_prefix_delta o then s_key e else prev) (S (cur_entries c)).

Definition is_tombstone (kind : Z) : bool := (kind =? KIND_DELETE) || (kind =? KIND_SINGLE_DELETE).

Definition count_entry (e : Stored) (y : Tally) : Tally :=
  mkTally (y_num_entries y + 1) (if is_tombstone (s_kind e) then y_num_tombstones y + 1 else y_num_tombstones y)
    (if y_max_seq y <? s_seq e then s_seq e else y_max_seq y)
    (match y_min_key y with Some k => Some k | None => Some (s_key e) end) (s_key e) (s_seq e)
    (y_wrote_merge y || (s_kind e =? KIND_MERGE)) ((fun hs => hs ++ [xxh3 (s_key e)]) <$> y_bloom_hashes y).

Definition add o (user_key value : list byte) (seq ttl kind : Z) w : result Writer :=
  let? _ := check_kind kind in
  ensure? negb (negb (extended o) && negb (is_point_kind kind)) else InvalidArgs ;;
  let w := settle_pending_index o user_key w in
  let alg := default (o_compression o) (compression_for_key (o_compression_rules o) user_key) in
  let? w := cut_for_rule o alg user_key w in
  let? (vlog, has_vlog, vlog_off) :=
    if negb (is_tombstone kind) && (o_klog_value_threshold o <=? zlen value) then
      let? (off, log) := write_vlog checksum (w_vlog w) value alg in Ok (Some log, true, off)
    else Ok (w_vlog w, false, 0) in
  let e := mkStored user_key value seq ttl kind has_vlog vlog_off in
  let w := mkWriter (w_klog w) vlog (push_entry o e (w_cur w)) (w_index w) (w_pending_index w)
             (count_entry e (w_tally w)) true (w_range_fragments w) in
  if o_block_size o <=? zlen (cur_block (w_cur w)) + pending_trailer_len w then flush_block w else Ok w.

(** ** The index *)

Definition encode_index_entry (e : IndexEntry) : list byte :=
  enc_lenbytes (ie_key e) ++ enc_uvarint (ie_seq e) ++ enc_uvarint (bh_offset (ie_handle e)) ++ enc_uvarint (bh_length (ie_handle e)).

Definition encode_index (min_key : key) (index : list IndexEntry) : list byte :=
  enc_lenbytes min_key ++ enc_uvarint (Z.of_nat (length index)) ++ concat (map encode_index_entry index).

Definition BTREE_FANOUT : nat := 256.

(** [slice::chunks]; [length l] is fuel enough. *)
Fixpoint chunks {A} (fuel n : nat) (l : list A) : list (list A) :=
  match fuel, l with
  | S fuel, _ :: _ => take n l :: chunks fuel n (drop n l)
  | _, _ => []
  end.

Definition write_meta_block (klog payload : list byte) : result (list byte * BlockHandle) := append_block klog NoCompression payload.

(** One node per chunk, in order. *)
Fixpoint write_nodes {A} (node : list A -> list byte) (sep : A -> key) (cs : list (list A)) (klog : list byte)
    : result (list byte * list (key * BlockHandle)) :=
  match cs with
  | [] => Ok (klog, [])
  | c :: cs =>
      let? (klog, h) := write_meta_block klog (node c) in
      let? (klog, level) := write_nodes node sep cs klog in
      Ok (klog, (default [] (sep <$> last c), h) :: level)
  end.

Definition leaf_node (c : list IndexEntry) : list byte :=
  x01 :: enc_uvarint (Z.of_nat (length c)) ++ concat (map encode_index_entry c).

Definition encode_child (c : key * BlockHandle) : list byte :=
  enc_lenbytes (fst c) ++ enc_uvarint (bh_offset (snd c)) ++ enc_uvarint (bh_length (snd c)).

Definition inner_node (root_key : option key) (c : list (key * BlockHandle)) : list byte :=
  x00 :: match root_key with Some k => enc_lenbytes k | None => [] end
  ++ enc_uvarint (Z.of_nat (length c)) ++ concat (map encode_child c).

(** The levels above the leaves; each is at most half as long as the one below, so its length is fuel enough. *)
Fixpoint write_levels (fuel : nat) (min_key : key) (level : list (key * BlockHandle)) (klog : list byte)
    : result (list byte * BlockHandle) :=
  let is_root := (length level <=? BTREE_FANOUT)%nat in
  let? (klog, parent) := write_nodes (inner_node (if is_root then Some min_key else None)) fst
                           (chunks (length level) BTREE_FANOUT level) klog in
  if is_root then match parent with (_, h) :: _ => Ok (klog, h) | [] => Err Corruption end
  else match fuel with O => Err Corruption | S fuel => write_levels fuel min_key parent klog end.

Definition write_btree_index (min_key : key) (index : list IndexEntry) (klog : list byte) : result (list byte * BlockHandle) :=
  let? (klog, level) := write_nodes leaf_node ie_key (chunks (length index) BTREE_FANOUT index) klog in
  let? (klog, level) :=
    match level with
    | [] => let? (klog, h) := write_meta_block klog (leaf_node []) in Ok (klog, [([], h)])
    | _ => Ok (klog, level)
    end in
  write_levels (length level) min_key level klog.

(** ** Finishing *)

Record TableFile := mkTableFile { tf_klog : list byte; tf_vlog : option (list byte); tf_meta : FileMeta }.

(** The filter over the hashes of the keys; [None] when a bit falls outside the words. *)
Definition build_filter (hashes : list Z) (fpr : F) : option Bloom :=
  let '(mf, kf) := bloom_sizing (Z.max (Z.of_nat (length hashes)) 1) fpr in
  add_hashes (bloom_new mf kf) hashes.

Definition write_filter o (y : Tally) (klog : list byte) : result (list byte * option BlockHandle) :=
  match y_bloom_hashes y, o_bloom_fpr o with
  | Some hashes, Some fpr =>
      match build_filter hashes fpr with
      | Some b => let? (klog, h) := write_meta_block klog (bloom_encode b) in Ok (klog, Some h)
      | None => Err Corruption
      end
  | _, _ => Ok (klog, None)
  end.

Definition write_aux o (frags : list Fragment) (klog : list byte) : result (list byte * option BlockHandle) :=
  if (length frags =? 0)%nat then Ok (klog, None)
  else
    ensure? extended o else InvalidArgs ;;
    let? (klog, h) := write_meta_block klog (encode_aux_sections [(AUX_SECTION_RANGE, encode_fragments frags)]) in
    Ok (klog, Some h).

Definition table_caps_word o (merge ranges : bool) : Z :=
  let caps := 0 in
  let caps := if extended o then Z.lor caps CAP_EXTENDED_RECORDS else caps in
  let caps := if o_prefix_delta o then Z.lor caps CAP_PREFIX_DELTA else caps in
  let caps := if merge then Z.lor caps CAP_MERGE_OPERANDS else caps in
  if ranges then Z.lor caps CAP_RANGE_DELETES else caps.

Definition finish o w : result TableFile :=
  let? w := if w_pending_block w then flush_block w else Ok w in
  let index := w_index w ++ match w_pending_index w with Some p => [p] | None => [] end in
  let y := w_tally w in
  let frags := w_range_fragments w in
  let? (klog, bloom) := write_filter o y (w_klog w) in
  let? (klog, aux) := write_aux o frags klog in
  let min_key := default [] (y_min_key y) in
  let? (klog, index_handle) :=
    if o_use_btree o then write_btree_index min_key index klog else write_meta_block klog (encode_index min_key index) in
  let caps := table_caps_word o (y_wrote_merge y) (negb (length frags =? 0)%nat) in
  let klog := klog ++ encode_footer checksum (mkFooter index_handle bloom (y_num_entries y) (y_max_seq y) (o_use_btree o) caps aux) in
  Ok (mkTableFile klog (w_vlog w)
        (mkFileMeta min_key (y_last_key y) (y_num_entries y) (y_num_tombstones y) (y_max_seq y) (zlen klog)
           (match w_vlog w with Some l => zlen l | None => 0 end) (summarize frags))).

(** A whole table: the entries in order, then [finish]. *)
Fixpoint add_all o (es : list Entry) w : result Writer :=
  match es with
  | [] => Ok w
  | e :: es => let? w := add o (e_key e) (e_value e) (e_seq e) (e_ttl e) (e_kind e) w in add_all o es w
  end.

Definition write_table o (es : list Entry) (frags : list Fragment) : result TableFile :=
  let? (o, w) := writer_new o in
  let? w := add_all o es (set_range_fragments frags w) in
  finish o w.
End Writer.

(** ** Separators *)

Lemma byte_succ_cmp x y : Z_of_byte x < 0xff -> byte_cmp (byte_of_Z (Z_of_byte x + 1)) y = (Z_of_byte x + 1 ?= Z_of_byte y).
Proof. intros Hx. unfold byte_cmp. rewrite Z_of_byte_of_Z_small; [done|]. pose proof (Z_of_byte_range x). unfold is_u8. lia. Qed.

(** A separator is the left key, or strictly between the two; it is never longer than the left key. *)
Lemma shortest_separator_spec a b :
  slice_cmp a b <> Gt ->
  let s := shortest_separator a b in
  (length s <= length a)%nat /\ (s = a \/ (slice_cmp a s = Lt /\ slice_cmp s b = Lt)).
Proof.
  intros Hab. cbn zeta. unfold shortest_separator, diverge. destruct (shared_prefix_spec a b) as (La & Lb & Ht).
  set (i := shared_prefix_len a b) in *. destruct (a !! i) as [x|] eqn:Ex; [|split; [done|by left]].
  destruct (b !! i) as [y|] eqn:Ey; [|split; [done|by left]]. pose proof (lookup_lt_Some _ _ _ Ex) as Hi.
  assert (length (bump a i x) <= length a)%nat as HL by (unfold bump; rewrite length_app, length_take; cbn; lia).
  assert (Z_of_byte x < 0xff -> slice_cmp a (bump a i x) = Lt) as Hlt.
  { intros Hx. rewrite <- (take_drop_middle a i x Ex) at 1. unfold bump. rewrite slice_cmp_app_l. unfold slice_cmp. cbn [lex_cmp].
    unfold byte_cmp. rewrite Z_of_byte_of_Z_small by (pose proof (Z_of_byte_range x); unfold is_u8; lia).
    by rewrite (proj2 (Z.compare_lt_iff _ _)) by lia. }
  assert (Z_of_byte x < 0xff -> slice_cmp (bump a i x) b = match Z_of_byte x + 1 ?= Z_of_byte y with Eq => match drop (S i) b with [] => Eq | _ => Lt end | c => c end) as Hb.
  { intros Hx. rewrite <- (take_drop_middle b i y Ey) at 1. unfold bump. rewrite Ht, slice_cmp_app_l. unfold slice_cmp. cbn [lex_cmp].
    rewrite byte_succ_cmp by done. destruct (Z_of_byte x + 1 ?= Z_of_byte y); [|done|done]. cbn. by destruct (drop (S i) b). }
  destruct (Z.ltb_spec (Z_of_byte x) 0xff) as [Hx|_]; [|split; [done|by left]]. cbn [andb].
  destruct (Z.ltb_spec (Z_of_byte x + 1) (Z_of_byte y)) as [Hxy|_].
  - split; [done|]. right. split; [by apply Hlt|]. rewrite Hb by done. by rewrite (proj2 (Z.compare_lt_iff _ _)).
  - destruct (Z.eqb_spec (Z_of_byte x + 1) (Z_of_byte y)) as [Hxy|_]; [|split; [done|by left]]. cbn [andb].
    destruct (Nat.ltb_spec (i + 1) (length b)) as [Hlb|_]; [|split; [done|by left]]. split; [done|]. right. split; [by apply Hlt|].
    rewrite Hb, Hxy, Z.compare_refl by done. destruct (drop (S i) b) eqn:Ed; [|done]. apply (f_equal length) in Ed. rewrite length_drop in Ed. cbn in Ed. lia.
Qed.

(** ** Blocks of a growing file *)

(** The compression libraries do not fail on data in memory. *)
Class CodecsTotal `{Codecs} : Prop := {
  snap_total s : exists c, snap_compress s = Ok c;
  zstd_total s : exists c, zstd_compress s = Ok c;
  deflate_total s : exists c, deflate_encode s = Ok c;
}.

Section Frames.
Context (checksum : list byte -> Z) `{Codecs}.

Definition block_at (klog : list byte) (h : BlockHandle) (payload : list byte) : Prop :=
  exists pre rest alg a p, stored_form alg payload = Ok (a, p) /\ klog = pre ++ block_frame checksum a p (zlen payload) ++ rest /\
    h = mkHandle (zlen pre) (zlen (block_frame checksum a p (zlen payload))).

Lemma block_at_app klog x h payload : block_at klog h payload -> block_at (klog ++ x) h payload.
Proof. intros (pre & rest & alg & a & p & E & -> & ->). exists pre, (rest ++ x), alg, a, p. by rewrite <- !app_assoc. Qed.

Lemma stored_form_total `{!CodecsTotal} alg raw : exists a p, stored_form alg raw = Ok (a, p).
Proof.
  unfold stored_form. destruct (decide (alg = NoCompression)); [eauto|].
  assert (exists c, compress alg raw = Ok c) as [c ->].
  { destruct alg; cbn; [eauto|apply snap_total|eauto|apply zstd_total|eauto|apply deflate_total]. }
  cbn. destruct (_ <? _); eauto.
Qed.

Lemma append_block_spec `{!CodecsTotal} klog alg payload :
  exists klog' h, append_block checksum klog alg payload = Ok (klog', h) /\ block_at klog' h payload /\ exists x, klog' = klog ++ x.
Proof.
  unfold append_block, write_block. destruct (stored_form_total alg payload) as (a & p & E). rewrite E. cbn [rbind app].
  eexists _, _. split; [done|]. split; [|eauto]. exists klog, [], alg, a, p. split; [done|]. rewrite app_nil_r. split; [done|].
  by f_equal.
Qed.

Lemma block_at_handle klog h payload : block_at klog h payload -> handle_ok (zlen klog) h /\ 13 <= bh_length h.
Proof.
  intros (pre & rest & alg & a & p & _ & -> & ->). unfold handle_ok. cbn [bh_offset bh_length]. rewrite !zlen_app, block_frame_length.
  unfold zlen. lia.
Qed.

Lemma block_at_read `{!CodecsInvert} (checksum_u32 : forall b, is_u32 (checksum b)) klog h payload :
  block_at klog h payload -> zlen payload < 2 ^ 32 -> read_block_at checksum klog h = Ok payload.
Proof. intros (pre & rest & alg & a & p & E & -> & ->) Hl. by eapply read_block_at_frame. Qed.

(** So does the mapped view of it. *)
Lemma block_at_mapped `{!CodecsInvert} (checksum_u32 : forall b, is_u32 (checksum b)) klog h payload :
  block_at klog h payload -> zlen payload < 2 ^ 32 -> mapped_block checksum klog h = Ok payload.
Proof.
  intros (pre & rest & alg & a & p & E & -> & ->) Hl. destruct (stored_form_spec _ _ _ _ E) as (Hle & Hd & Hn). unfold mapped_block. cbn [bh_offset bh_length].
  set (fr := block_frame checksum a p (zlen payload)). assert (Z.to_nat (zlen pre) = length pre) as -> by (unfold zlen; lia).
  rewrite (mapped_slice_at (pre ++ fr ++ rest) pre fr rest) by (try done; unfold zlen; lia). cbn [rbind].
  rewrite <- (app_nil_r fr) at 1. unfold fr at 1. rewrite block_payload_frame by (try done; unfold is_u32, zlen in *; lia). cbn [rbind].
  destruct (decide (stored_alg a = NoCompression)) as [Ea|Ea]; [|done]. rewrite <- (Hn (stored_alg_none a Ea)).
  set (hd := [byte_of_Z (codec_id a)] ++ le_bytes 4 (zlen p) ++ le_bytes 4 (zlen payload) ++ le_bytes 4 (checksum p)).
  assert (fr = hd ++ p) as -> by (unfold fr, hd, block_frame; cbn [app]; by rewrite <- !app_assoc).
  assert (length hd = 13)%nat as Lh by (unfold hd; by rewrite !length_app, !le_bytes_length).
  apply (mapped_slice_at _ (pre ++ hd) p rest); [by rewrite <- !app_assoc|rewrite length_app, Lh; done|]. rewrite length_app, Lh. unfold BLOCK_HEADER, zlen. lia.
Qed.
End Frames.

(** ** The writer's invariant *)

(** A written block with its index entry. *)
Notation Piece := (list Stored * IndexEntry)%type.

Definition flat (ds : list Piece) : list Stored := concat (map fst ds).

(** The key of the first entry, or [nk] when there is none. *)
Definition hd_key (es : list Stored) (nk : option key) : option key := match es with e :: _ => Some (s_key e) | [] => nk end.

(** A separator is the block's last entry, or a key strictly between it and the next entry's, and no longer. *)
Definition sep_ok (cmp : Comparator) (l : Stored) (next : option key) (ie : IndexEntry) : Prop :=
  (length (ie_key ie) <= length (s_key l))%nat /\ (ie_seq ie = s_seq l \/ ie_seq ie = 0) /\
  ((ie_key ie = s_key l /\ ie_seq ie = s_seq l) \/ (klt cmp (s_key l) (ie_key ie) /\ forall k, next = Some k -> klt cmp (ie_key ie) k)).

Lemma flat_app a b : flat (a ++ b) = flat a ++ flat b.
Proof. unfold flat. by rewrite map_app, concat_app. Qed.

Lemma hd_key_app a b nk : hd_key (a ++ b) nk = hd_key a (hd_key b nk).
Proof. by destruct a. Qed.

Section Invariant.
Context (checksum : list byte -> Z) (checksum_u32 : forall b, is_u32 (checksum b)) `{CodecsInvert, !CodecsTotal}.
Context (xxh3 : list byte -> Z) {F : Type} (o : WriterOptions F) (y0 : Tally) (fr : list Fragment) `{!TotalOrder (o_cmp o)}.
Implicit Types (w : Writer) (ds pend : list Piece) (cur : list Stored).

Definition raw_of (es : list Stored) : list byte := block_raw (o_prefix_delta o) (entry_layout o) (o_restart_interval o) es.

(** Blocks in key order, each where its handle says, with separators that route a search. *)
Fixpoint chain_ok (klog : list byte) ds (nk : option key) : Prop :=
  match ds with
  | [] => True
  | (b, ie) :: ds =>
      (exists l, last b = Some l /\ sep_ok (o_cmp o) l (hd_key (flat ds) nk) ie) /\
      block_at checksum klog (ie_handle ie) (raw_of b) /\ chain_ok klog ds nk
  end.

Lemma chain_ok_app klog a b nk : chain_ok klog (a ++ b) nk <-> chain_ok klog a (hd_key (flat b) nk) /\ chain_ok klog b nk.
Proof.
  clear xxh3. induction a as [|[c ie] a IH]; cbn [app chain_ok]; [tauto|]. rewrite IH, flat_app, hd_key_app. tauto.
Qed.

Lemma chain_ok_grow klog x ds nk : chain_ok klog ds nk -> chain_ok (klog ++ x) ds nk.
Proof. induction ds as [|[c ie] ds IH]; cbn [chain_ok]; [done|]. intros (? & ? & ?). auto using block_at_app. Qed.

Definition building_ok (c : Building) cur : Prop :=
  cur_block c = block_bytes (o_prefix_delta o) (entry_layout o) (o_restart_interval o) 0 [] cur /\
  cur_restarts c = restart_offs (o_prefix_delta o) (entry_layout o) (o_restart_interval o) 0 0 [] cur /\
  cur_entries c = length cur /\ (o_prefix_delta o = true -> prev_key c = last_key [] cur).

(** Every separated value reads back, also when the log grows. *)
Definition vlog_holds (vlog : option (list byte)) (es : list Stored) : Prop :=
  (forall l, vlog = Some l -> vlog_wf checksum l) /\
  forall e, e ∈ es -> (s_vlog e = false -> s_off e = 0) /\ (s_vlog e = true ->
    is_tombstone (s_kind e) = false /\ exists l, vlog = Some l /\ 0 <= s_off e <= zlen l /\
    forall rest, read_vlog checksum (l ++ rest) (s_off e) (zlen (s_value e)) = Ok (s_value e)).

(** [ds] are indexed, [pend] is flushed and not yet indexed, [cur] is being built; [nk] is the key that comes next, if known. *)
Record winv w ds pend cur (nk : option key) : Prop := {
  wi_index : w_index w = map snd ds;
  wi_pending : match w_pending_index w with
               | None => pend = []
               | Some p => exists b l, pend = [(b, p)] /\ cur = [] /\ last b = Some l /\ ie_key p = s_key l /\ ie_seq p = s_seq l
               end;
  wi_chain : chain_ok (w_klog w) (ds ++ pend) (hd_key cur nk);
  wi_cur : building_ok (w_cur w) cur;
  wi_block : w_pending_block w = negb (length cur =? 0)%nat;
  wi_start : pend = [] -> cur = [] -> nk = None -> ds = [];
  wi_tally : w_tally w = fold_left (fun y e => count_entry xxh3 e y) (flat (ds ++ pend) ++ cur) y0;
  wi_vlog : vlog_holds (w_vlog w) (flat (ds ++ pend) ++ cur);
  wi_frags : w_range_fragments w = fr;
}.

Lemma cur_empty c cur : building_ok c cur -> (length (cur_block c) =? 0)%nat = (length cur =? 0)%nat.
Proof.
  intros (-> & _). destruct cur as [|e cur]; [done|]. cbn [block_bytes]. rewrite length_app.
  pose proof (encode_stored_nonempty (o_prefix_delta o) (entry_layout o) (anchored (o_restart_interval o) 0 []) e).
  cbn [length Nat.eqb]. by apply Nat.eqb_neq; lia.
Qed.

Lemma settle_sep b p l k h :
  last b = Some l -> ie_key p = s_key l -> ie_seq p = s_seq l -> kle (o_cmp o) (s_key l) k ->
  let sep := if is_bytewise (o_cmp o) then shortest_separator (ie_key p) k else ie_key p in
  sep_ok (o_cmp o) l (Some k) (mkIndexEntry sep (if bool_decide (sep = ie_key p) then ie_seq p else 0) h).
Proof.
  intros Hl Hk Hs Hle sep. unfold sep_ok. cbn [ie_key ie_seq]. rewrite Hk in *.
  destruct (decide (sep = s_key l)) as [E|E]; [rewrite bool_decide_eq_true_2, E by done; auto|].
  rewrite bool_decide_eq_false_2 by done. revert E. unfold sep. clear sep.
  destruct (is_bytewise (o_cmp o)) eqn:Eb; [|done]. rewrite Hk. intros E. unfold klt, kle in *. rewrite !(bytewise_exact _ _ Eb) in *.
  destruct (shortest_separator_spec (s_key l) k Hle) as [HL [Es|[HA HB]]]; [done|]. split; [done|]. split; [by right|]. right. split; [done|]. intros k' [= <-]. by rewrite (bytewise_exact _ _ Eb).
Qed.

Lemma settle_inv w ds pend cur nk k :
  winv w ds pend cur nk -> nk = None \/ nk = Some k ->
  (forall l, last (flat (ds ++ pend) ++ cur) = Some l -> kle (o_cmp o) (s_key l) k) ->
  exists pend', winv (settle_pending_index o k w) (ds ++ pend') [] cur (Some k) /\ flat pend' = flat pend.
Proof.
  intros [Hi Hp Hc Hcur Hb Hst Hy Hv Hf] Hnk Hle. unfold settle_pending_index. destruct (w_pending_index w) as [p|] eqn:Ep.
  - destruct Hp as (b & l & -> & -> & Hl & Hk & Hs). apply chain_ok_app in Hc as [Hc1 Hc2].
    set (sep := if is_bytewise (o_cmp o) then _ else _). set (ie := mkIndexEntry sep _ (ie_handle p)).
    assert (sep_ok (o_cmp o) l (Some k) ie) as Hsep.
    { apply (settle_sep b p l k); [done..|]. apply Hle. rewrite app_nil_r, flat_app. unfold flat at 2. cbn [map concat fst].
      rewrite app_nil_r, last_app. by rewrite Hl. }
    exists [(b, ie)]. split; [|done]. assert (flat ((ds ++ [(b, ie)]) ++ []) = flat (ds ++ [(b, p)])) as Ef by (rewrite app_nil_r, !flat_app; done).
    split; cbn [w_index w_pending_index w_klog w_cur w_pending_block w_tally w_vlog]; rewrite ?Ef; try done.
    + by rewrite map_app, Hi.
    + rewrite app_nil_r. apply chain_ok_app. split; [by destruct b|]. cbn [chain_ok] in *. destruct Hc2 as ((l' & Hl' & _) & Hat & _).
      split; [|done]. exists l. split; [done|]. by cbn.
  - subst pend. exists []. rewrite !app_nil_r in *. split; [|done].
    split; rewrite ?app_nil_r; try done; [by rewrite Ep|]. destruct cur; [|done]. destruct Hnk as [->| ->]; [|done]. by rewrite Hst.
Qed.
Lemma push_entry_ok e c cur : building_ok c cur -> building_ok (push_entry o e c) (cur ++ [e]).
Proof.
  intros (Hb & Hr & Hn & Hp). unfold push_entry, building_ok. cbn [cur_block cur_restarts cur_entries prev_key].
  rewrite block_bytes_app, restart_offs_app, length_app, last_key_snoc. cbn [block_bytes restart_offs length Nat.add]. rewrite !app_nil_r, Hn.
  fold (is_anchor (o_restart_interval o) (length cur)). split; [|split; [|split; [lia|by intros ->]]].
  - rewrite encode_stored_app, <- Hb. f_equal. unfold anchored, encode_stored. destruct (o_prefix_delta o); [|done]. by rewrite Hp.
  - rewrite Hr, Hb. by destruct (is_anchor _ _); rewrite ?app_nil_r.
Qed.

Lemma tally_snoc es e : fold_left (fun y e => count_entry xxh3 e y) (es ++ [e]) y0 = count_entry xxh3 e (fold_left (fun y e => count_entry xxh3 e y) es y0).
Proof. by rewrite fold_left_app. Qed.

Lemma flush_inv w ds cur nk nk' :
  winv w ds [] cur nk -> cur <> [] ->
  exists w' ie, flush_block checksum w = Ok w' /\ winv w' ds [(cur, ie)] [] nk'.
Proof.
  intros [Hi Hp Hc Hcur Hb Hst Hy Hv Hf] Hne. unfold flush_block. rewrite (cur_empty _ _ Hcur). destruct (Nat.eqb_spec (length cur) 0) as [E|_]; [by destruct cur|].
  destruct Hcur as (Eb & Er & _ & _). rewrite Eb, Er. fold (block_raw (o_prefix_delta o) (entry_layout o) (o_restart_interval o) cur). fold (raw_of cur).
  destruct (append_block_spec checksum (w_klog w) (cur_block_alg (w_cur w)) (raw_of cur)) as (klog' & h & -> & Hat & x & ->). cbn [rbind].
  destruct (exists_last Hne) as (cur' & l & Ec). rewrite app_nil_r in *.
  assert (y_last_key (w_tally w) = s_key l /\ y_last_seq (w_tally w) = s_seq l) as [E1 E2] by (rewrite Hy, Ec, app_assoc, tally_snoc; done).
  set (ie := mkIndexEntry _ _ h). eexists _, ie. split; [reflexivity|].
  assert (flat (ds ++ [(cur, ie)]) ++ [] = flat ds ++ cur) as Ef by (rewrite app_nil_r, flat_app; unfold flat at 2; cbn; by rewrite app_nil_r).
  assert (last cur = Some l) as El by (rewrite Ec; apply last_snoc).
  split; cbn [w_index w_pending_index w_klog w_cur w_pending_block w_tally w_vlog w_range_fragments]; rewrite ?Ef; try done.
  - exists cur, l. split; [done|]. split; [done|]. split; [done|]. by unfold ie; cbn.
  - apply chain_ok_app. split.
    + unfold flat. cbn [map concat fst]. rewrite app_nil_r. apply chain_ok_grow. by destruct cur.
    + cbn [chain_ok]. split; [|done]. exists l. split; [done|]. unfold sep_ok, ie; cbn. rewrite E1, E2. auto.
Qed.

Lemma cut_inv w ds cur k alg :
  winv w ds [] cur (Some k) -> (forall l, last (flat ds ++ cur) = Some l -> kle (o_cmp o) (s_key l) k) ->
  exists w' ds' cur', cut_for_rule checksum o alg k w = Ok w' /\ winv w' ds' [] cur' (Some k) /\ flat ds' ++ cur' = flat ds ++ cur.
Proof.
  intros Hw Hle. unfold cut_for_rule.
  assert (exists w1 ds' cur', (if negb (length (cur_block (w_cur w)) =? 0)%nat && negb (bool_decide (alg = cur_block_alg (w_cur w))) then
              let? w := flush_block checksum w in Ok (settle_pending_index o k w) else Ok w) = Ok w1 /\
            winv w1 ds' [] cur' (Some k) /\ flat ds' ++ cur' = flat ds ++ cur) as (w1 & ds' & cur' & -> & Hw1 & Ef).
  { rewrite (cur_empty _ _ (wi_cur _ _ _ _ _ Hw)). destruct cur as [|e0 cur0] eqn:Ecur; cbn [length Nat.eqb negb andb]; [by exists w, ds, []|].
    destruct (bool_decide _); cbn [negb]; [by exists w, ds, (e0 :: cur0)|]. rewrite <- Ecur in *.
    destruct (flush_inv w ds cur (Some k) (Some k) Hw ltac:(by rewrite Ecur)) as (w1 & ie & -> & Hw1). cbn [rbind].
    assert (flat (ds ++ [(cur, ie)]) ++ [] = flat ds ++ cur) as Ef by (rewrite app_nil_r, flat_app; unfold flat at 2; cbn; by rewrite app_nil_r).
    destruct (settle_inv w1 ds [(cur, ie)] [] (Some k) k Hw1) as (pend' & Hw2 & Ep); [by right|by rewrite Ef|].
    eexists _, _, []. split; [done|]. split; [exact Hw2|]. rewrite flat_app, Ep, app_nil_r. unfold flat at 2. cbn. by rewrite app_nil_r. }
  cbn [rbind]. eexists _, ds', cur'. split; [reflexivity|]. split; [|done].
  destruct (length (cur_block (w_cur w1)) =? 0)%nat eqn:E0; [|done]. destruct Hw1 as [Hi Hp Hc (B1 & B2 & B3 & B4) Hb Hst Hy Hv Hf]. by split.
Qed.
(** What a writer accepts: a point kind its layout can carry, and fields of their widths. *)
Record entry_in (e : Entry) : Prop := {
  en_readable : e_readable e = true;
  en_kind : check_point_kind (e_kind e) = Ok tt;
  en_base : extended o = false -> is_point_kind (e_kind e) = true;
  en_key : is_len (e_key e);
  en_value : zlen (e_value e) <= U32_MAX;
  en_seq : is_u64 (e_seq e);
  en_ttl : is_i64 (e_ttl e);
}.

(** The value goes to the log or stays; either way it reads back. *)
Lemma separate_inv vlog es (k value : list byte) sq ttl kind alg :
  vlog_holds vlog es -> zlen value <= U32_MAX ->
  exists vlog' has off,
    (if negb (is_tombstone kind) && (o_klog_value_threshold o <=? zlen value) then
       let? (off, log) := write_vlog checksum vlog value alg in Ok (Some log, true, off)
     else Ok (vlog, false, 0)) = Ok (vlog', has, off) /\ vlog_holds vlog' (es ++ [mkStored k value sq ttl kind has off]).
Proof.
  intros [Hwf Hes] Hl. destruct (negb (is_tombstone kind) && _) eqn:Eb.
  2:{ exists vlog, false, 0. split; [done|]. split; [done|]. intros e [He|He%list_elem_of_singleton]%elem_of_app; [by apply Hes|]. by subst e. }
  apply andb_true_iff in Eb as [Ht _]. apply negb_true_iff in Ht.
  assert (exists off log, write_vlog checksum vlog value alg = Ok (off, log)) as (off & log & Ew).
  { unfold write_vlog. destruct (stored_form_total alg value) as (a & p & E). rewrite E. cbn [rbind].
    destruct (stored_form_spec _ _ _ _ E) as (Hp & _). unfold vlog_stored_len. destruct (Z.leb_spec (zlen p) U32_MAX); [|lia]. cbn. eauto. }
  rewrite Ew. cbn [rbind]. exists (Some log), true, off. split; [done|].
  destruct (write_vlog_spec checksum checksum_u32 _ _ _ _ _ Ew Hwf) as (Hw & Eo & (frame & Elog) & Hrd).
  split; [by intros l [= <-]|]. intros e [He|He%list_elem_of_singleton]%elem_of_app.
  - destruct (Hes e He) as [Hf Hv]. split; [done|]. intros Hs. destruct (Hv Hs) as (Hk & l & El & Hb & Hr). split; [done|]. exists log.
    rewrite El in *. split; [done|]. rewrite Elog, zlen_app. split; [unfold zlen in *; lia|]. intros rest. rewrite <- app_assoc. apply Hr.
  - subst e. cbn. split; [done|]. intros _. split; [done|]. exists log. split; [done|]. split; [|done].
    rewrite Elog, zlen_app, <- Eo. rewrite Eo. unfold zlen. lia.
Qed.

Lemma add_inv w ds pend cur e :
  winv w ds pend cur None -> entry_in e -> (forall l, last (flat (ds ++ pend) ++ cur) = Some l -> kle (o_cmp o) (s_key l) (e_key e)) ->
  exists w' ds' pend' cur' st, add checksum xxh3 o (e_key e) (e_value e) (e_seq e) (e_ttl e) (e_kind e) w = Ok w' /\
    winv w' ds' pend' cur' None /\ flat (ds' ++ pend') ++ cur' = (flat (ds ++ pend) ++ cur) ++ [st] /\ entry_of st = e.
Proof.
  intros Hw [Hr Hk Hb _ Hv _ _] Hle. unfold add.
  assert (check_kind (e_kind e) = Ok tt) as -> by (destruct (point_kinds _ Hk) as [->|[->|[->| ->]]]; done). cbn [rbind].
  assert (negb (negb (extended o) && negb (is_point_kind (e_kind e))) = true) as -> by (destruct (extended o); [done|by rewrite Hb]). cbn [guard rbind].
  destruct (settle_inv w ds pend cur None (e_key e) Hw) as (pend1 & Hw1 & Ef1); [by left|done|].
  set (alg := default _ _). destruct (cut_inv _ (ds ++ pend1) cur (e_key e) alg Hw1) as (w2 & ds2 & cur2 & -> & Hw2 & Ef2);
    [by rewrite flat_app, Ef1, <- flat_app|]. cbn [rbind]. rewrite flat_app, Ef1, <- flat_app in Ef2.
  pose proof (wi_vlog _ _ _ _ _ Hw2) as Hvl. destruct (separate_inv _ _ (e_key e) (e_value e) (e_seq e) (e_ttl e) (e_kind e) alg Hvl Hv)
    as (vlog' & has & off & -> & Hvl'). cbn [rbind]. set (st := mkStored _ _ _ _ _ has off) in *.
  set (w3 := mkWriter _ _ _ _ _ _ _ _). rewrite app_nil_r in Hvl'.
  assert (winv w3 ds2 [] (cur2 ++ [st]) None) as Hw3.
  { destruct Hw2 as [Hi Hp Hc Hcur Hpb Hst Hy Hv2 Hf]. rewrite app_nil_r in *.
    split; unfold w3; cbn [w_index w_pending_index w_klog w_cur w_pending_block w_tally w_vlog w_range_fragments]; rewrite ?app_nil_r; try done.
    - destruct (w_pending_index w2); [|done]. by destruct Hp as (? & ? & ? & _).
    - by destruct cur2.
    - by apply push_entry_ok.
    - by rewrite length_app; cbn; rewrite Nat.add_comm.
    - by destruct cur2.
    - by rewrite app_assoc, tally_snoc, Hy.
    - by rewrite app_assoc. }
  assert (flat (ds2 ++ []) ++ cur2 ++ [st] = (flat (ds ++ pend) ++ cur) ++ [st]) as Ef3 by (by rewrite app_nil_r, app_assoc, Ef2).
  assert (entry_of st = e) as Est by (destruct e; cbn in *; by subst).
  destruct (_ <=? _); [|by exists w3, ds2, [], (cur2 ++ [st]), st].
  destruct (flush_inv w3 ds2 (cur2 ++ [st]) None None Hw3) as (w4 & ie & E4 & Hw4); [by destruct cur2|].
  exists w4, ds2, [(cur2 ++ [st], ie)], [], st. split; [done|]. split; [done|]. split; [|done].
  rewrite <- Ef3, !app_nil_r, flat_app. unfold flat at 2. cbn. by rewrite app_nil_r.
Qed.
Lemma add_all_inv es w ds pend cur :
  winv w ds pend cur None -> Forall entry_in es -> run_sorted (o_cmp o) (map entry_of (flat (ds ++ pend) ++ cur) ++ es) ->
  exists w' ds' pend' cur' sts, add_all checksum xxh3 o es w = Ok w' /\ winv w' ds' pend' cur' None /\
    flat (ds' ++ pend') ++ cur' = (flat (ds ++ pend) ++ cur) ++ sts /\ map entry_of sts = es.
Proof.
  revert w ds pend cur. induction es as [|e es IH]; intros w ds pend cur Hw Hin Hs; cbn [add_all].
  - exists w, ds, pend, cur, []. by rewrite app_nil_r.
  - inv Hin as [|? ? He Hin']. destruct (add_inv w ds pend cur e Hw He) as (w1 & ds1 & pend1 & cur1 & st & -> & Hw1 & Ef1 & Est).
    { intros l Hl. apply last_Some in Hl as [es0 Hl]. rewrite Hl in Hs.
      assert (entry_lt (o_cmp o) (entry_of l) e) as [Hlt|[Heq _]].
      { eapply StronglySorted_app_1_elem_of; [exact Hs| |by left]. rewrite map_app. apply elem_of_app. right. by left. }
      - by apply klt_kle in Hlt.
      - cbn in Heq. rewrite Heq. apply kle_refl. done. }
    cbn [rbind]. destruct (IH w1 ds1 pend1 cur1 Hw1 Hin') as (w2 & ds2 & pend2 & cur2 & sts & -> & Hw2 & Ef2 & Ests).
    { rewrite Ef1, map_app. cbn [map]. by rewrite Est, <- app_assoc. }
    exists w2, ds2, pend2, cur2, (st :: sts). split; [done|]. split; [done|]. rewrite Ef2, Ef1, <- app_assoc. split; [done|]. cbn. by rewrite Est, Ests.
Qed.
End Invariant.
