(* ===== verification/TableReader.v ===== *)
(** * Reading a table (sst/reader.rs)

    [Reader::open] of an epoch-1 table, and a point lookup in it: the filter,
    the search in the index, the block and the scan.  The block and value caches
    return what a read of the file returns and are left out.

    The theorem of this file joins it to [TableWriter]: a table written from a
    sorted run opens, and answers every lookup as the run itself does. *)

From Stdlib Require Import ZArith Lia Sorted.
From Stdlib.Strings Require Import Byte.
From stdpp Require Import base list sorting.
From S2P Require Import Prelude Encoding Codec Comparator Format Bloom Block SstEntry Manifest RangeTombstone ReadPath DataBlock TableWriter.

Open Scope Z_scope.

Record Reader := mkReader {
  r_klog : list byte;
  r_cmp : Comparator;
  r_index : list IndexEntry;
  r_min_key : key;
  r_max_key : key;
  r_num_entries : Z;
  r_max_seq : Z;
  r_bloom : option Bloom;
  r_layout : EntryLayout;
  r_prefix_delta : bool;
  r_table_caps : Z;
  r_fragments : list Fragment;
}.

Definition dec_handle : decoder BlockHandle := fun p =>
  let? (off, p) := dec_uvarint Corruption p in
  let? (len, p) := dec_uvarint Corruption p in
  Ok (mkHandle off len, p).

Definition dec_index_entry : decoder IndexEntry := fun p =>
  let? (k, p) := dec_lenbytes Corruption p in
  let? (sq, p) := dec_uvarint Corruption p in
  let? (h, p) := dec_handle p in
  Ok (mkIndexEntry k sq h, p).

Definition dec_child : decoder (key * BlockHandle) := fun p =>
  let? (sep, p) := dec_lenbytes Corruption p in
  let? (h, p) := dec_handle p in
  Ok ((sep, h), p).

Definition decode_index (p : list byte) : result (key * list IndexEntry) :=
  let? (min_key, p) := dec_lenbytes Corruption p in
  let? (count, p) := dec_uvarint Corruption p in
  let? (index, _) := dec_repeat Corruption dec_index_entry count p in
  Ok (min_key, index).

Section Reader.
Context (checksum : list byte -> Z) `{Codecs} (xxh3 : list byte -> Z).
Implicit Types (r : Reader) (klog : list byte).

(** The subtrees one after the other, their separators unused; the first error ends the walk. *)
Definition walk_children (walk : BlockHandle -> result (option key * list IndexEntry))
    : list (key * BlockHandle) -> result (list IndexEntry) :=
  fix go hs :=
    match hs with
    | [] => Ok []
    | (_, h) :: hs => let? (_, a) := walk h in let? b := go hs in Ok (a ++ b)
    end.

(** [fuel] bounds the depth, which the source leaves to its stack. *)
Fixpoint walk_btree_node (fuel : nat) klog (is_root : bool) (h : BlockHandle) : result (option key * list IndexEntry) :=
  let? block := read_block_at checksum klog h in
  match block with
  | [] => Err Corruption
  | node_type :: p =>
      let? (min_key, p) := if is_root then let? (k, p) := dec_lenbytes Corruption p in Ok (Some k, p) else Ok (None, p) in
      let? (count, p) := dec_uvarint Corruption p in
      if Z_of_byte node_type =? 1 then
        let? (index, _) := dec_repeat Corruption dec_index_entry count p in Ok (min_key, index)
      else
        let? (children, _) := dec_repeat Corruption dec_child count p in
        match fuel with
        | O => Err Corruption
        | S fuel => let? index := walk_children (walk_btree_node fuel klog false) children in Ok (min_key, index)
        end
  end.

Definition load_btree klog (root : BlockHandle) : result (key * list IndexEntry) :=
  let? (min_key, index) := walk_btree_node (length klog) klog true root in
  Ok (default [] min_key, index).

(** Fragments sorted, disjoint and none empty after the first. *)
Definition fragments_sorted (cmp : Comparator) (frags : list Fragment) : bool :=
  negb (existsb (fun w => is_gt (compare cmp (f_end (fst w)) (f_start (snd w))) || is_ge (compare cmp (f_start (snd w)) (f_end (snd w))))
          (windows2 frags)).

(** The fragments of the sections; a later section of the same tag replaces an earlier one. *)
Fixpoint section_fragments (sections : list (Z * list byte)) (acc : list Fragment) : result (list Fragment) :=
  match sections with
  | [] => Ok acc
  | (tag, payload) :: sections =>
      let? acc := if tag =? AUX_SECTION_RANGE then decode_fragments payload else Ok acc in
      section_fragments sections acc
  end.

Definition read_fragments (cmp : Comparator) klog (aux : option BlockHandle) : result (list Fragment) :=
  match aux with
  | Some h =>
      if 0 <? bh_length h then
        let? payload := read_block_at checksum klog h in
        let? sections := decode_aux_sections payload in
        let? frags := section_fragments sections [] in
        ensure? fragments_sorted cmp frags else Corruption ;;
        Ok frags
      else Ok []
  | None => Ok []
  end.

Definition open_table (cmp : Comparator) klog : result Reader :=
  let size := zlen klog in
  let tail_len := Z.min size (Z.of_nat FOOTER_SIZE) in
  let? tail := read_exact_at klog tail_len (size - tail_len) in
  let? footer := decode_footer checksum tail size in
  let caps := ff_caps footer in
  let? frags := read_fragments cmp klog (ff_aux footer) in
  ensure? eqb (has_bit caps CAP_RANGE_DELETES) (negb (length frags =? 0)%nat) else Corruption ;;
  let? bloom := match ff_bloom footer with
                | Some h => let? raw := read_block_at checksum klog h in let? b := bloom_decode raw in Ok (Some b)
                | None => Ok None
                end in
  let? (min_key, index) :=
    if ff_btree footer then load_btree klog (ff_index footer)
    else let? raw := read_block_at checksum klog (ff_index footer) in decode_index raw in
  let max_key := match last index with Some e => ie_key e | None => min_key end in
  Ok (mkReader klog cmp index min_key max_key (ff_num_entries footer) (ff_max_seq footer) bloom
        (if has_bit caps CAP_EXTENDED_RECORDS then Extended else Base) (has_bit caps CAP_PREFIX_DELTA) caps frags).

(** ** Lookups *)

(** [bloom_may_contain_hash] of [bloom_hash]; [None] when a probe falls outside the filter's words. *)
Definition may_contain r (k : key) : option bool :=
  match r_bloom r with Some b => may_contain_hash b (xxh3 k) | None => Some true end.

Definition find_block r (k : key) (s : Z) : nat :=
  bsearch (fun e => is_lt (cmp_internal (r_cmp r) (ie_key e) (ie_seq e) k s)) (r_index r) (length (r_index r)) 0 (length (r_index r)).

(** The file is mapped ([mmap]) or read; a cached block is one read before. *)
Definition read_data_block (mmap : bool) r (h : BlockHandle) : result (list byte) :=
  if mmap then mapped_block checksum (r_klog r) h else read_block_at checksum (r_klog r) h.

Definition read_separated (vlog : option (list byte)) (off len : Z) : result (list byte) :=
  match vlog with Some f => read_vlog checksum f off len | None => Err Io end.

Definition table_get_unfiltered (mmap : bool) r (vlog : option (list byte)) (k : key) (s now : Z) : result Lookup :=
  match r_index r !! find_block r k s with
  | None => Ok miss
  | Some e =>
      let? block := read_data_block mmap r (ie_handle e) in
      block_get (r_cmp r) (r_prefix_delta r) (r_layout r) (read_separated vlog) block k s now
  end.

(** [Reader::get]; a probe outside the filter would panic. *)
Definition table_get (mmap : bool) r (vlog : option (list byte)) (k : key) (s now : Z) : option (result Lookup) :=
  match may_contain r k with
  | Some true => Some (table_get_unfiltered mmap r vlog k s now)
  | Some false => Some (Ok miss)
  | None => None
  end.
End Reader.

(** ** Sizes *)

(** A bound on what keys add to an index block. *)
Fixpoint weight (ks : list key) : Z := match ks with [] => 0 | k :: ks => zlen k + 40 + weight ks end.

Lemma weight_app a b : weight (a ++ b) = weight a + weight b.
Proof. induction a as [|k a IH]; cbn; [done|]. rewrite IH. lia. Qed.

Lemma weight_nonneg ks : 40 * Z.of_nat (length ks) <= weight ks.
Proof. induction ks as [|k ks IH]; cbn [weight length]; [done|]. unfold zlen in *. lia. Qed.

Lemma weight_elem k ks : k ∈ ks -> zlen k + 40 <= weight ks.
Proof.
  intros (a & b & ->)%list_elem_of_split. rewrite weight_app. cbn. pose proof (weight_nonneg a). pose proof (weight_nonneg b). lia.
Qed.

Lemma weight_concat (cs : list (list key)) c : c ∈ cs -> weight c <= weight (concat cs).
Proof.
  intros (a & b & ->)%list_elem_of_split. rewrite concat_app. cbn. rewrite !weight_app.
  pose proof (weight_nonneg (concat a)). pose proof (weight_nonneg (concat b)). lia.
Qed.

Lemma enc_lenbytes_zlen k : zlen (enc_lenbytes k) <= zlen k + 10.
Proof. unfold enc_lenbytes. rewrite zlen_app. pose proof (enc_uvarint_length (Z.of_nat (length k))). unfold zlen. lia. Qed.

Lemma enc_uvarint_zlen10 x : 0 <= zlen (enc_uvarint x) <= 10.
Proof. pose proof (enc_uvarint_length x). unfold zlen. lia. Qed.

Lemma concat_map_zlen {A} (enc : A -> list byte) (f : A -> key) l :
  (forall x, zlen (enc x) <= zlen (f x) + 40) -> zlen (concat (map enc l)) <= weight (map f l).
Proof. intros He. induction l as [|x l IH]; cbn [map concat weight]; [done|]. rewrite zlen_app. specialize (He x). lia. Qed.

Lemma index_entry_zlen e : zlen (encode_index_entry e) <= zlen (ie_key e) + 40.
Proof.
  unfold encode_index_entry. rewrite !zlen_app. pose proof (enc_lenbytes_zlen (ie_key e)). pose proof (enc_uvarint_zlen10 (ie_seq e)).
  pose proof (enc_uvarint_zlen10 (bh_offset (ie_handle e))). pose proof (enc_uvarint_zlen10 (bh_length (ie_handle e))). lia.
Qed.

Lemma child_zlen c : zlen (encode_child c) <= zlen (fst c) + 40.
Proof.
  unfold encode_child. rewrite !zlen_app. pose proof (enc_lenbytes_zlen (fst c)).
  pose proof (enc_uvarint_zlen10 (bh_offset (snd c))). pose proof (enc_uvarint_zlen10 (bh_length (snd c))). lia.
Qed.

Lemma leaf_node_zlen c : zlen (leaf_node c) <= weight (map ie_key c) + 11.
Proof.
  unfold leaf_node. pose proof (concat_map_zlen encode_index_entry ie_key c index_entry_zlen).
  pose proof (enc_uvarint_zlen10 (Z.of_nat (length c))). change (x01 :: ?l) with ([x01] ++ l). rewrite !zlen_app. change (zlen [x01]) with 1. lia.
Qed.

Lemma inner_node_zlen k c : zlen (inner_node k c) <= weight (map fst c) + zlen (default [] k) + 21.
Proof.
  unfold inner_node. pose proof (concat_map_zlen encode_child fst c child_zlen). pose proof (enc_uvarint_zlen10 (Z.of_nat (length c))).
  change (x00 :: ?l) with ([x00] ++ l). rewrite !zlen_app. change (zlen [x00]) with 1. destruct k as [k|]; cbn; [pose proof (enc_lenbytes_zlen k)|]; unfold Datatypes.id, zlen in *; cbn in *; lia.
Qed.

Lemma encode_index_zlen k c : zlen (encode_index k c) <= weight (map ie_key c) + zlen k + 20.
Proof.
  unfold encode_index. pose proof (concat_map_zlen encode_index_entry ie_key c index_entry_zlen).
  pose proof (enc_uvarint_zlen10 (Z.of_nat (length c))). pose proof (enc_lenbytes_zlen k). rewrite !zlen_app. lia.
Qed.

(** ** Index blocks decode *)

Definition handle_u (h : BlockHandle) : Prop := is_u64 (bh_offset h) /\ is_u64 (bh_length h).

Lemma dec_handle_enc h : handle_u h -> decodes dec_handle (enc_uvarint (bh_offset h) ++ enc_uvarint (bh_length h)) h.
Proof.
  intros [Ho Hl] rest. unfold dec_handle. rewrite <- app_assoc, (dec_uvarint_enc Corruption _ Ho). cbn [rbind].
  rewrite (dec_uvarint_enc Corruption _ Hl). by destruct h.
Qed.

Definition index_entry_u (e : IndexEntry) : Prop := is_u64 (ie_seq e) /\ handle_u (ie_handle e).

Lemma dec_index_entry_enc e : is_len (ie_key e) -> index_entry_u e -> decodes dec_index_entry (encode_index_entry e) e.
Proof.
  intros Hk [Hs Hh] rest. unfold dec_index_entry, encode_index_entry. rewrite <- !app_assoc, (dec_lenbytes_enc Corruption _ Hk). cbn [rbind].
  rewrite (dec_uvarint_enc Corruption _ Hs). cbn [rbind]. rewrite app_assoc, (dec_handle_enc _ Hh). by destruct e.
Qed.

Lemma dec_child_enc c : is_len (fst c) -> handle_u (snd c) -> decodes dec_child (encode_child c) c.
Proof.
  intros Hk Hh rest. unfold dec_child, encode_child. rewrite <- !app_assoc, (dec_lenbytes_enc Corruption _ Hk). cbn [rbind].
  rewrite app_assoc, (dec_handle_enc _ Hh). by destruct c.
Qed.

(** Keys and counts of a block of bounded weight fit their fields. *)
Lemma weight_small ks : weight ks < 2 ^ 32 -> is_u64 (Z.of_nat (length ks)) /\ forall k, k ∈ ks -> is_len k.
Proof.
  intros Hw. pose proof (weight_nonneg ks). split; [unfold is_u64; lia|]. intros k Hk. apply weight_elem in Hk.
  unfold is_len, is_u64, zlen in *. lia.
Qed.

Lemma enc_lenbytes_nonempty k x : (0 < length (enc_lenbytes k ++ x))%nat.
Proof. unfold enc_lenbytes. rewrite !length_app. pose proof (enc_uvarint_nonempty (Z.of_nat (length k))). lia. Qed.

Lemma dec_entries_enc c :
  weight (map ie_key c) < 2 ^ 32 -> Forall index_entry_u c ->
  decodes (dec_repeat Corruption dec_index_entry (Z.of_nat (length c))) (concat (map encode_index_entry c)) c.
Proof.
  intros Hw Hu. rewrite Forall_forall in Hu. destruct (weight_small _ Hw) as [_ Hk].
  apply dec_repeat_enc; [|intros e _; apply enc_lenbytes_nonempty|done].
  intros e He. apply dec_index_entry_enc; [|by apply Hu]. apply Hk, list_elem_of_fmap. eauto.
Qed.

Lemma dec_children_enc c :
  weight (map fst c) < 2 ^ 32 -> Forall (fun x => handle_u (snd x)) c ->
  decodes (dec_repeat Corruption dec_child (Z.of_nat (length c))) (concat (map encode_child c)) c.
Proof.
  intros Hw Hu. rewrite Forall_forall in Hu. destruct (weight_small _ Hw) as [_ Hk].
  apply dec_repeat_enc; [|intros e _; apply enc_lenbytes_nonempty|done].
  intros e He. apply dec_child_enc; [|by apply Hu]. apply Hk, list_elem_of_fmap. eauto.
Qed.

Lemma decode_index_enc k c :
  is_len k -> weight (map ie_key c) < 2 ^ 32 -> Forall index_entry_u c -> decode_index (encode_index k c) = Ok (k, c).
Proof.
  intros Hk Hw Hu. destruct (weight_small _ Hw) as [Hn _]. rewrite length_map in Hn. unfold decode_index, encode_index.
  rewrite (dec_lenbytes_enc Corruption _ Hk). cbn [rbind]. rewrite (dec_uvarint_enc Corruption _ Hn). cbn [rbind].
  rewrite <- (app_nil_r (concat _)). by rewrite (dec_entries_enc c Hw Hu).
Qed.

(** ** The tree index *)

Section Tree.
Context (checksum : list byte -> Z) (checksum_u32 : forall b, is_u32 (checksum b)) `{CodecsInvert, !CodecsTotal}.
Implicit Types (klog : list byte).

(** A subtree of depth [d] behind [h] that holds [ies]. *)
Fixpoint tree_at klog (d : nat) (h : BlockHandle) (ies : list IndexEntry) : Prop :=
  match d with
  | O => block_at checksum klog h (leaf_node ies) /\ weight (map ie_key ies) + 40 < 2 ^ 32
  | S d => exists cs subs, block_at checksum klog h (inner_node None cs) /\ weight (map fst cs) + 40 < 2 ^ 32 /\
             Forall2 (fun c s => tree_at klog d (snd c) s) cs subs /\ ies = concat subs
  end.

Definition root_at klog (d : nat) (h : BlockHandle) (min_key : key) (ies : list IndexEntry) : Prop :=
  exists cs subs, block_at checksum klog h (inner_node (Some min_key) cs) /\ weight (map fst cs) + zlen min_key + 40 < 2 ^ 32 /\
    Forall2 (fun c s => tree_at klog d (snd c) s) cs subs /\ ies = concat subs.

Lemma tree_at_grow klog x d h ies : tree_at klog d h ies -> tree_at (klog ++ x) d h ies.
Proof.
  revert h ies. induction d as [|d IH]; intros h ies; cbn [tree_at].
  - intros [? ?]. auto using block_at_app.
  - intros (cs & subs & Hb & Hw & Hf & ->). exists cs, subs. split; [by apply block_at_app|]. split; [done|]. split; [|done].
    eapply Forall2_impl; [exact Hf|]. intros ? ?. apply IH.
Qed.

Lemma root_at_grow klog x d h k ies : root_at klog d h k ies -> root_at (klog ++ x) d h k ies.
Proof.
  intros (cs & subs & Hb & Hw & Hf & ->). exists cs, subs. split; [by apply block_at_app|]. split; [done|]. split; [|done].
  eapply Forall2_impl; [exact Hf|]. intros ? ?. apply tree_at_grow.
Qed.

Lemma block_at_handle_u klog h p : zlen klog < 2 ^ 64 -> block_at checksum klog h p -> handle_u h.
Proof. intros Hl Hb. apply block_at_handle in Hb as [Hb _]. by eapply handle_u64. Qed.

Lemma tree_at_handle klog d h ies : zlen klog < 2 ^ 64 -> tree_at klog d h ies -> handle_u h.
Proof. intros Hl. destruct d; cbn; [intros [Hb _]|intros (? & ? & Hb & _)]; by eapply block_at_handle_u. Qed.

Lemma tree_children klog d cs (subs : list (list IndexEntry)) :
  zlen klog < 2 ^ 64 -> Forall2 (fun c s => tree_at klog d (snd c) s) cs subs -> Forall (fun x : key * BlockHandle => handle_u (snd x)) cs.
Proof. intros Hl Hf. induction Hf as [|c s cs subs Hc _ IH]; constructor; [by eapply tree_at_handle|done]. Qed.

Lemma walk_children_ok (walk : BlockHandle -> result (option key * list IndexEntry)) cs subs :
  Forall2 (fun (c : key * BlockHandle) s => walk (snd c) = Ok (None, s)) cs subs -> walk_children walk cs = Ok (concat subs).
Proof. induction 1 as [|[k h] s cs subs Hw _ IH]; [done|]. cbn in *. rewrite Hw. cbn. by rewrite IH. Qed.

Lemma walk_inner klog d fuel (root : option key) h cs subs :
  zlen klog < 2 ^ 64 ->
  (forall c s, tree_at klog d c s -> Forall index_entry_u s -> walk_btree_node checksum fuel klog false c = Ok (None, s)) ->
  block_at checksum klog h (inner_node root cs) -> weight (map fst cs) + zlen (default [] root) + 40 < 2 ^ 32 ->
  Forall2 (fun c s => tree_at klog d (snd c) s) cs subs -> Forall index_entry_u (concat subs) ->
  walk_btree_node checksum (S fuel) klog (if root is Some _ then true else false) h = Ok (root, concat subs).
Proof.
  intros Hl IH Hb Hw Hf Hu. pose proof (inner_node_zlen root cs) as Hz. cbn [walk_btree_node]. rewrite (block_at_read checksum checksum_u32 klog h _ Hb) by lia.
  cbn [rbind]. unfold inner_node. assert (0 <= zlen (default [] root)) by (unfold zlen; lia).
  assert ((if (if root is Some _ then true else false) then let? (k, p) := dec_lenbytes Corruption (match root with Some k => enc_lenbytes k | None => [] end ++ enc_uvarint (Z.of_nat (length cs)) ++ concat (map encode_child cs)) in Ok (Some k, p)
            else Ok (None, match root with Some k => enc_lenbytes k | None => [] end ++ enc_uvarint (Z.of_nat (length cs)) ++ concat (map encode_child cs)))
          = Ok (root, enc_uvarint (Z.of_nat (length cs)) ++ concat (map encode_child cs))) as ->.
  { destruct root as [k|]; [|done]. rewrite dec_lenbytes_enc; [done|]. cbn in Hw. unfold Datatypes.id in Hw. pose proof (weight_nonneg (map fst cs)). unfold is_len, is_u64, zlen in *. lia. }
  cbn [rbind]. destruct (weight_small (map fst cs)) as [Hn _]; [lia|]. rewrite length_map in Hn. rewrite (dec_uvarint_enc Corruption _ Hn). cbn [rbind].
  change (Z_of_byte x00 =? 1) with false. cbn iota. rewrite <- (app_nil_r (concat _)).
  pose proof (weight_nonneg (map fst cs)). rewrite (dec_children_enc cs ltac:(lia) (tree_children klog d cs subs Hl Hf)). cbn [rbind].
  rewrite (walk_children_ok _ cs subs); [done|]. clear - Hf Hu IH. induction Hf as [|c s cs subs Hc _ IH']; constructor;
    apply Forall_app in Hu as [Hu1 Hu2]; [by apply IH|by apply IH'].
Qed.

Lemma walk_tree klog d fuel h ies :
  zlen klog < 2 ^ 64 -> tree_at klog d h ies -> Forall index_entry_u ies -> (d <= fuel)%nat ->
  walk_btree_node checksum fuel klog false h = Ok (None, ies).
Proof.
  intros Hl. revert fuel h ies. induction d as [|d IH]; intros fuel h ies Ht Hu Hd.
  - destruct Ht as [Hb Hw]. pose proof (leaf_node_zlen ies). destruct fuel; cbn [walk_btree_node];
      (rewrite (block_at_read checksum checksum_u32 klog h _ Hb) by lia); cbn [rbind]; unfold leaf_node;
      (destruct (weight_small (map ie_key ies)) as [Hn _]; [lia|]); rewrite length_map in Hn; rewrite (dec_uvarint_enc Corruption _ Hn); cbn [rbind];
      change (Z_of_byte x01 =? 1) with true; cbn iota; rewrite <- (app_nil_r (concat _)); by rewrite (dec_entries_enc ies ltac:(lia) Hu).
  - destruct fuel as [|fuel]; [lia|]. destruct Ht as (cs & subs & Hb & Hw & Hf & ->).
    apply (walk_inner klog d fuel None h cs subs); try done; [|change (zlen (default [] None)) with 0; lia]. intros c s Hc Hs. apply IH; [done|done|lia].
Qed.

Lemma load_btree_ok klog d h k ies :
  zlen klog < 2 ^ 64 -> root_at klog d h k ies -> Forall index_entry_u ies -> (d < length klog)%nat ->
  load_btree checksum klog h = Ok (k, ies).
Proof.
  intros Hl (cs & subs & Hb & Hw & Hf & ->) Hu Hd. unfold load_btree. destruct (length klog) as [|fuel]; [lia|].
  rewrite (walk_inner klog d fuel (Some k) h cs subs); [done|done| |done|done|done|done].
  intros c s Hc Hs. by apply (walk_tree klog d); [done..|lia].
Qed.
End Tree.

(** ** Writing the tree *)

Lemma chunks_concat {A} n (l : list A) fuel : (0 < n)%nat -> (length l <= fuel)%nat -> concat (chunks fuel n l) = l.
Proof.
  intros Hn. revert l. induction fuel as [|fuel IH]; intros [|x l] Hl; cbn [length] in Hl; [done|lia|done|]. cbn [chunks concat].
  rewrite IH; [apply take_drop|]. rewrite length_drop. cbn [length]. lia.
Qed.

Lemma chunks_nonempty {A} n (l : list A) fuel : (0 < n)%nat -> Forall (fun c => c <> []) (chunks fuel n l).
Proof.
  intros Hn. revert l. induction fuel as [|fuel IH]; intros [|x l]; cbn [chunks]; constructor; [|apply IH]. by destruct n; [lia|].
Qed.

Lemma chunks_length {A} n (l : list A) fuel : (2 <= n)%nat -> (2 * length (chunks fuel n l) <= length l + 1)%nat.
Proof.
  intros Hn. revert l. induction fuel as [|fuel IH]; intros [|x l]; cbn [chunks]; [cbn; lia..|].
  specialize (IH (drop n (x :: l))). rewrite length_drop in IH. cbn [length] in *.
  destruct (decide (S (length l) <= n)%nat); [|lia]. rewrite drop_ge in * by (cbn; lia). destruct fuel; cbn; lia.
Qed.

Lemma chunks_one {A} n (l : list A) fuel : l <> [] -> (length l <= n)%nat -> (0 < fuel)%nat -> chunks fuel n l = [l].
Proof.
  intros Hl Hn Hf. destruct l as [|x l]; [done|]. destruct fuel; [lia|]. cbn [chunks]. rewrite take_ge, drop_ge by done. by destruct fuel.
Qed.

Lemma chunks_Forall2 {A B} (R : A -> B -> Prop) n l1 l2 fuel : Forall2 R l1 l2 -> Forall2 (Forall2 R) (chunks fuel n l1) (chunks fuel n l2).
Proof.
  revert l1 l2. induction fuel as [|fuel IH]; intros l1 l2 Hf; [constructor|]. destruct Hf; cbn [chunks]; constructor;
    [by apply Forall2_take; constructor|apply IH, Forall2_drop; by constructor].
Qed.

Lemma concat_map_concat {A} (ls : list (list (list A))) : concat (map (@concat A) ls) = concat (concat ls).
Proof. induction ls as [|l ls IH]; [done|]. cbn. by rewrite concat_app, IH. Qed.

Lemma chunk_weight {A} (f : A -> key) n l fuel c :
  (0 < n)%nat -> (length l <= fuel)%nat -> c ∈ chunks fuel n l -> weight (map f c) <= weight (map f l).
Proof.
  intros Hn Hf Hc. rewrite <- (chunks_concat n l fuel Hn Hf). rewrite concat_map. apply weight_concat. by apply list_elem_of_fmap_2.
Qed.

(** The separators of the parents weigh no more than those of the children. *)
Lemma parent_weight {A} (f : A -> key) (cs : list (list A)) :
  Forall (fun c => c <> []) cs -> weight (map (fun c => default [] (f <$> last c)) cs) <= weight (map f (concat cs)).
Proof.
  induction 1 as [|c cs Hc _ IH]; cbn [map concat weight]; [done|]. rewrite map_app, weight_app.
  destruct (exists_last Hc) as (c' & x & ->). 
  assert (default [] (f <$> last (c' ++ [x])) = f x) as -> by by rewrite last_snoc.
  rewrite map_app, weight_app. cbn [map weight]. pose proof (weight_nonneg (map f c')). lia.
Qed.

Section WriteTree.
Context (checksum : list byte -> Z) (checksum_u32 : forall b, is_u32 (checksum b)) `{CodecsInvert, !CodecsTotal}.
Implicit Types (klog : list byte).

(** [klog'] is [klog] with something behind it. *)
Definition grown klog klog' : Prop := exists x, klog' = klog ++ x /\ x <> [].

Lemma meta_block_spec klog p :
  exists klog' h, write_meta_block checksum klog p = Ok (klog', h) /\ block_at checksum klog' h p /\ grown klog klog'.
Proof.
  destruct (append_block_spec checksum klog NoCompression p) as (klog' & h & E & Hb & x & ->). exists (klog ++ x), h.
  split; [done|]. split; [done|]. exists x. split; [done|]. intros ->. unfold append_block, write_block in E. cbn [stored_form rbind] in E.
  destruct (stored_form NoCompression p) as [[a q]|]; [|done]. cbn [rbind app] in E. injection E as E _. apply (f_equal zlen) in E.
  rewrite !zlen_app, block_frame_length in E. unfold zlen in E. cbn [length] in E. lia.
Qed.

Lemma write_nodes_spec {A} (node : list A -> list byte) (sep : A -> key) cs klog :
  exists klog' level, write_nodes checksum node sep cs klog = Ok (klog', level) /\ (exists x, klog' = klog ++ x /\ (cs <> [] -> x <> [])) /\
    map fst level = map (fun c => default [] (sep <$> last c)) cs /\ Forall2 (fun c e => block_at checksum klog' (snd e) (node c)) cs level.
Proof.
  revert klog. induction cs as [|c cs IH]; intros klog; cbn [write_nodes].
  - exists klog, []. split; [done|]. split; [exists []; by rewrite app_nil_r|]. split; [done|constructor].
  - destruct (meta_block_spec klog (node c)) as (k1 & h & -> & Hb & x & -> & Hx). cbn [rbind].
    destruct (IH (klog ++ x)) as (k2 & level & -> & (y & -> & _) & Hk & Hf). cbn [rbind]. eexists _, _. split; [done|].
    split; [exists (x ++ y); rewrite app_assoc; split; [done|]; intros _; by destruct x|]. split; [cbn; by rewrite Hk|].
    constructor; [by apply block_at_app|done].
Qed.

Lemma write_levels_spec fuel k level klog d (subs : list (list IndexEntry)) :
  level <> [] -> (length level <= fuel)%nat -> weight (map fst level) + zlen k + 40 < 2 ^ 32 ->
  Forall2 (fun c s => tree_at checksum klog d (snd c) s) level subs -> (d < length klog)%nat ->
  exists klog' h d', write_levels checksum fuel k level klog = Ok (klog', h) /\ grown klog klog' /\
    root_at checksum klog' d' h k (concat subs) /\ (d' < length klog')%nat.
Proof.
  revert level klog d subs. induction fuel as [|fuel IH]; intros level klog d subs Hne Hl Hw Hf Hd; [destruct level; [done|cbn in Hl; lia]|].
  cbn [write_levels]. set (n := BTREE_FANOUT) in *. assert (2 <= n)%nat as Hn by (unfold n, BTREE_FANOUT; lia).
  assert (0 < length level)%nat as Hl0 by (destruct level; [done|cbn; lia]).
  destruct (Nat.leb_spec (length level) n) as [Hr|Hr].
  - rewrite chunks_one by (first [done|lia]).
    destruct (write_nodes_spec (inner_node (Some k)) fst [level] klog) as (k1 & parent & -> & (x & -> & Hx) & _ & Hp). cbn [rbind].
    inversion Hp as [|? [sep h] ? ? Hb Hnil]; subst. eexists _, h, d. split; [done|]. split; [exists x; split; [done|by apply Hx]|].
    split; [|rewrite length_app; lia]. exists level, subs. split; [done|]. split; [done|]. split; [|done].
    eapply Forall2_impl; [exact Hf|]. intros ? ?. by apply tree_at_grow.
  - set (cs := chunks (length level) n level). assert (concat cs = level) as Ec by (apply chunks_concat; lia).
    pose proof (chunks_nonempty n level (length level) ltac:(lia)) as Hcn. fold cs in Hcn.
    destruct (write_nodes_spec (inner_node None) fst cs klog) as (k1 & parent & -> & (x & -> & Hx) & Hk & Hp). cbn [rbind].
    pose proof (parent_weight fst cs Hcn) as Hpw. rewrite Ec, <- Hk in Hpw. pose proof (Forall2_length _ _ _ Hp) as Hpl.
    pose proof (chunks_length n level (length level) Hn) as Hcl. fold cs in Hcl. rewrite Hpl in Hcl.
    assert (cs <> []) as Hcs by (intros E; rewrite E in Ec; by rewrite <- Ec in Hne).
    pose proof (chunks_Forall2 _ n _ _ (length level) Hf) as Hcf. fold cs in Hcf. set (ss := chunks (length level) n subs) in *.
    pose proof (Forall2_length _ _ _ Hf) as Hfl.
    destruct (IH parent (klog ++ x) (S d) (map (@concat IndexEntry) ss)) as (k2 & h & d' & -> & (y & -> & Hy) & Hroot & Hd').
    + by destruct parent, cs.
    + lia.
    + lia.
    + assert (Forall (fun c => weight (map fst c) + 40 < 2 ^ 32) cs) as Hwc.
      { apply Forall_forall. intros c Hc. pose proof (chunk_weight fst n level (length level) c ltac:(lia) ltac:(lia) Hc). unfold zlen in *. lia. }
      clear - Hp Hcf Hwc. clearbody cs ss. revert ss Hcf Hwc. induction Hp as [|c e cs parent Hb _ IH]; intros ss Hcf Hwc; inv Hcf as [|? s ? ss' Hcs Hcf'];
        [constructor|]. inv Hwc as [|? ? Hw1 Hw2]. cbn [map]. constructor; [|by apply IH].
      exists c, s. split; [done|]. split; [done|]. split; [|done]. eapply Forall2_impl; [exact Hcs|]. intros ? ?. apply tree_at_grow.
    + rewrite length_app. destruct x; [by destruct Hx|]. cbn. lia.
    + eexists _, h, d'. split; [done|]. split; [exists (x ++ y); rewrite app_assoc; split; [done|]; intros E; apply app_eq_nil in E as [E _]; by destruct Hx|].
      split; [|done]. unfold ss in Hroot. by rewrite concat_map_concat, chunks_concat in Hroot by lia.
Qed.

Lemma write_btree_index_spec k index klog :
  weight (map ie_key index) + zlen k + 80 < 2 ^ 32 ->
  exists klog' h d, write_btree_index checksum k index klog = Ok (klog', h) /\ grown klog klog' /\
    root_at checksum klog' d h k index /\ (d < length klog')%nat.
Proof.
  intros Hw. unfold write_btree_index. set (n := BTREE_FANOUT) in *. assert (0 < n)%nat as Hn by (unfold n, BTREE_FANOUT; lia).
  set (cs := chunks (length index) n index). assert (concat cs = index) as Ec by (apply chunks_concat; lia).
  pose proof (chunks_nonempty n index (length index) Hn) as Hcn. fold cs in Hcn.
  destruct (write_nodes_spec leaf_node ie_key cs klog) as (k1 & level & -> & (x & -> & Hx) & Hk & Hp). cbn [rbind].
  pose proof (parent_weight ie_key cs Hcn) as Hpw. rewrite Ec, <- Hk in Hpw. assert (0 <= zlen k) by (unfold zlen; lia).
  destruct level as [|l0 level0].
  - apply Forall2_nil_inv_r in Hp. assert (index = []) as -> by (by rewrite <- Ec, Hp).
    destruct (meta_block_spec (klog ++ x) (leaf_node [])) as (k2 & h & -> & Hb & y & -> & Hy). cbn [rbind length].
    assert (0 < length y)%nat by (destruct y; [done|cbn; lia]).
    destruct (write_levels_spec 1 k [([], h)] ((klog ++ x) ++ y) 0 [[]]) as (k3 & h' & d & -> & (z & -> & Hz) & Hr & Hd);
      [done|done|change (weight (map fst [([] : key, h)])) with 40; change (weight (map ie_key [])) with 0 in Hw; lia|constructor; [|constructor]; split; [done|cbn; lia]|rewrite length_app; lia|].
    eexists _, h', d. split; [done|]. split; [|done]. exists (x ++ y ++ z). rewrite !app_assoc. split; [done|]. intros E. rewrite !app_nil in E. tauto.
  - assert (cs <> []) as Hcs by (intros E; rewrite E in Hp; by apply Forall2_nil_inv_l in Hp). assert (0 < length x)%nat by (destruct x; [by destruct Hx|cbn; lia]).
    cbn [rbind]. destruct (write_levels_spec (length (l0 :: level0)) k (l0 :: level0) (klog ++ x) 0 cs)
      as (k3 & h' & d & -> & (z & -> & Hz) & Hr & Hd); [done|done|lia| |rewrite length_app; lia|].
    + assert (Forall (fun c => weight (map ie_key c) + 40 < 2 ^ 32) cs) as Hwc.
      { apply Forall_forall. intros c Hc. pose proof (chunk_weight ie_key n index (length index) c ltac:(lia) ltac:(lia) Hc). lia. }
      clear - Hp Hwc. clearbody cs. induction Hp as [|c e cs level Hb _ IH]; [constructor|]. inv Hwc as [|? ? Hw1 Hw2]. constructor; [done|by apply IH].
    + eexists _, h', d. split; [done|]. rewrite Ec in Hr. split; [|done]. exists (x ++ z). rewrite app_assoc. split; [done|]. intros E. rewrite app_nil in E. tauto.
Qed.
End WriteTree.

(** ** Routing a lookup to one block *)

(** Where the search stops: behind an element that satisfies [p], in front of one that does not. *)
Lemma bsearch_edges {A} (p : A -> bool) (l : list A) fuel lo hi :
  (lo <= hi <= length l)%nat -> (hi - lo <= fuel)%nat ->
  (lo = 0%nat \/ exists x, (0 < lo)%nat /\ l !! (lo - 1)%nat = Some x /\ p x = true) -> (hi = length l \/ exists x, l !! hi = Some x /\ p x = false) ->
  let r := bsearch p l fuel lo hi in
  (r <= length l)%nat /\ (r = 0%nat \/ exists x, (0 < r)%nat /\ l !! (r - 1)%nat = Some x /\ p x = true) /\
  (r = length l \/ exists x, l !! r = Some x /\ p x = false).
Proof.
  revert lo hi. induction fuel as [|fuel IH]; intros lo hi Hb Hf Hlo Hhi; cbn [bsearch].
  - replace hi with lo in Hhi by lia. split; [lia|done].
  - destruct (Nat.ltb_spec lo hi); [|replace hi with lo in Hhi by lia; split; [lia|done]].
    pose proof (Nat.div2_div (lo + hi)) as Hd. set (mid := Nat.div2 (lo + hi)) in *.
    pose proof (Nat.div_mod_eq (lo + hi) 2). pose proof (Nat.mod_upper_bound (lo + hi) 2 ltac:(lia)).
    destruct (l !! mid) as [x|] eqn:E; [|apply lookup_ge_None in E; lia].
    destruct (p x) eqn:Ep; apply IH; try lia; eauto. right. exists x. split; [lia|]. by replace (S mid - 1)%nat with mid by lia.
Qed.

Section Route.
Context (cmp : Comparator) `{!TotalOrder cmp}.

Lemma seek_cons_before a b k s e rest : seek cmp a k s = e :: rest -> seek cmp (a ++ b) k s = e :: rest ++ b.
Proof.
  induction a as [|x a IH]; [done|]. cbn. destruct (before cmp x k s); [done|]. intros [= <- <-]. done.
Qed.

Lemma seek_nil_before a k s : seek cmp a k s = [] -> Forall (fun e => before cmp e k s = true) a.
Proof. induction a as [|x a IH]; [constructor|]. cbn. destruct (before cmp x k s) eqn:E; [|done]. constructor; [done|by apply IH]. Qed.

(** A block answers for the run when the target is not behind its last entry, or is in front of what follows. *)
Lemma get_block_only b rest k s now :
  (exists l, l ∈ b /\ before cmp l k s = false) \/ match rest with n :: _ => klt cmp k (e_key n) | [] => True end ->
  get_unfiltered cmp (b ++ rest) k s now = get_unfiltered cmp b k s now.
Proof.
  intros Hr. destruct (seek cmp b k s) as [|e r] eqn:E.
  - apply seek_nil_before in E as Hb. rewrite get_unfiltered_skip by done. unfold get_unfiltered. rewrite E.
    destruct Hr as [(l & Hl & Hlf)|Hr]; [rewrite Forall_forall in Hb; by rewrite (Hb l Hl) in Hlf|].
    destruct rest as [|n rest]; [done|]. cbn [seek]. unfold before. destruct (compare cmp (e_key n) k) eqn:Ec.
    + apply (kcompare_eq cmp) in Ec. rewrite Ec in Hr. by apply klt_irrefl in Hr.
    + assert (klt cmp k k) as Hx by (by eapply klt_trans). by apply klt_irrefl in Hx.
    + cbn iota. by rewrite Ec.
  - unfold get_unfiltered. by rewrite E, (seek_cons_before b rest k s e r E).
Qed.

Definition index_lt (k : key) (s : Z) (e : IndexEntry) : bool := is_lt (cmp_internal cmp (ie_key e) (ie_seq e) k s).

(** A separator in front of the target has its block in front of the target. *)
Lemma sep_lt l next ie k s : sep_ok cmp l next ie -> index_lt k s ie = true -> before cmp (entry_of l) k s = true.
Proof.
  intros (_ & _ & [[E1 E2]|[Hlt _]]) Hi; unfold index_lt in Hi.
  - rewrite E1, E2 in Hi. by rewrite before_of in Hi.
  - unfold before. cbn. assert (klt cmp (s_key l) k) as ->; [|done]. unfold cmp_internal in Hi.
    destruct (compare cmp (ie_key ie) k) eqn:Ec; [apply (kcompare_eq cmp) in Ec as <-; done|by eapply klt_trans|done].
Qed.

(** A separator not in front of the target keeps the target out of the blocks behind. *)
Lemma sep_ge l next ie k s :
  sep_ok cmp l next ie -> index_lt k s ie = false ->
  before cmp (entry_of l) k s = false \/ forall n, next = Some n -> klt cmp k n.
Proof.
  intros (_ & _ & [[E1 E2]|[_ Hlt]]) Hi; unfold index_lt in Hi.
  - left. rewrite E1, E2 in Hi. by rewrite before_of in Hi.
  - right. intros n Hn. specialize (Hlt n Hn). unfold cmp_internal in Hi. destruct (compare cmp (ie_key ie) k) eqn:Ec; [|done|].
    + by apply (kcompare_eq cmp) in Ec as <-.
    + eapply kle_lt_trans; [done| |exact Hlt]. apply (not_klt cmp). unfold klt. congruence.
Qed.
End Route.

Section Chain.
Context (checksum : list byte -> Z) `{Codecs} {F : Type} (o : WriterOptions F) `{!TotalOrder (o_cmp o)}.
Implicit Types (ps : list Piece).

(** Where the search of the index stops. *)
Definition route ps (k : key) (s : Z) : nat := bsearch (index_lt (o_cmp o) k s) (map snd ps) (length (map snd ps)) 0 (length (map snd ps)).

Lemma route_edges ps k s :
  (route ps k s <= length ps)%nat /\
  (route ps k s = 0%nat \/ exists p, (0 < route ps k s)%nat /\ ps !! (route ps k s - 1)%nat = Some p /\ index_lt (o_cmp o) k s (snd p) = true) /\
  (forall p, ps !! route ps k s = Some p -> index_lt (o_cmp o) k s (snd p) = false).
Proof.
  destruct (bsearch_edges (index_lt (o_cmp o) k s) (map snd ps) (length (map snd ps)) 0 (length (map snd ps))) as (Hb & Hlo & Hhi);
    [lia|lia|by left|by left|]. fold (route ps k s) in Hb, Hlo, Hhi. rewrite length_map in Hb, Hhi. split; [done|]. split.
  - destruct Hlo as [->|(ie & Hpos & Hie & Hlt)]; [by left|right]. apply list_lookup_fmap_Some in Hie as (p & -> & Hp). eauto.
  - intros p Hp. destruct Hhi as [Hend|(x & Hx & Hge)]; [apply lookup_lt_Some in Hp; lia|]. apply list_lookup_fmap_Some in Hx as (q & -> & Hq). congruence.
Qed.

Lemma flat_middle a b ie c : flat (a ++ (b, ie) :: c) = flat a ++ b ++ flat c.
Proof. rewrite flat_app. by unfold flat. Qed.

(** The blocks in front of that one are in front of the target. *)
Lemma chain_before klog ps k s :
  chain_ok checksum o klog ps None -> run_sorted (o_cmp o) (map entry_of (flat ps)) ->
  Forall (fun e => before (o_cmp o) e k s = true) (map entry_of (flat (take (route ps k s) ps))).
Proof.
  intros Hc Hs. destruct (route_edges ps k s) as (Hb & Hlo & _). set (bi := route ps k s) in *. clearbody bi.
  destruct Hlo as [->|([b ie] & Hpos & Hp & Hlt)]; [constructor|]. cbn in Hlt.
  rewrite <- (take_drop_middle ps (bi - 1) _ Hp) in Hc. apply chain_ok_app in Hc as [_ Hc]. destruct Hc as ((l & Hl & Hsep) & _).
  apply (sep_lt (o_cmp o) _ _ _ _ _ Hsep) in Hlt. assert (take bi ps = take (S (bi - 1)) ps) as -> by (f_equal; lia). rewrite (take_S_r ps _ _ Hp), flat_app, map_app.
  apply last_Some in Hl as [b' ->]. unfold flat at 2. cbn [map concat fst]. rewrite app_nil_r, map_app, app_assoc. apply Forall_app. split; [|by repeat constructor].
  eapply (sorted_before (o_cmp o) _ (entry_of l)); [|exact Hlt]. rewrite <- (take_drop_middle ps (bi - 1) _ Hp), flat_middle, <- app_assoc, !map_app in Hs. cbn [map app] in Hs.
  rewrite app_assoc in Hs. exact Hs.
Qed.

(** The block that the search stops at keeps the target out of the blocks behind it. *)
Lemma chain_behind klog ps k s b ie :
  chain_ok checksum o klog ps None -> ps !! route ps k s = Some (b, ie) ->
  (exists l, l ∈ map entry_of b /\ before (o_cmp o) l k s = false) \/
  match map entry_of (flat (drop (S (route ps k s)) ps)) with n :: _ => klt (o_cmp o) k (e_key n) | [] => True end.
Proof.
  intros Hc Ep. destruct (route_edges ps k s) as (_ & _ & Hhi). specialize (Hhi _ Ep). set (bi := route ps k s) in *. clearbody bi.
  rewrite <- (take_drop_middle ps bi _ Ep) in Hc. apply chain_ok_app in Hc as [_ Hc]. destruct Hc as ((l & Hl & Hsep) & _).
  apply (sep_ge (o_cmp o) _ _ _ _ _ Hsep) in Hhi as [Hge|Hge].
  - left. exists (entry_of l). split; [|done]. apply list_elem_of_fmap_2. by apply last_Some_elem_of.
  - right. destruct (flat (drop (S bi) ps)) as [|n rest]; [done|]. cbn. by apply Hge.
Qed.

(** The blocks behind it are not in front of the target. *)
Lemma chain_after klog ps k s :
  chain_ok checksum o klog ps None -> run_sorted (o_cmp o) (map entry_of (flat ps)) ->
  Forall (fun e => before (o_cmp o) e k s = false) (map entry_of (flat (drop (S (route ps k s)) ps))).
Proof.
  intros Hc Hs. set (bi := route ps k s). destruct (ps !! bi) as [[b ie]|] eqn:Ep; [|apply lookup_ge_None in Ep; rewrite drop_ge by lia; constructor].
  pose proof (chain_behind klog ps k s b ie Hc Ep) as Hb. fold bi in Hb. rewrite <- (take_drop_middle ps bi _ Ep), flat_middle, !map_app in Hs.
  apply StronglySorted_app_1_r in Hs. set (rest := map entry_of (flat (drop (S bi) ps))) in *. apply Forall_forall. intros x Hx.
  destruct (before (o_cmp o) x k s) eqn:Ex; [|done]. exfalso. destruct Hb as [(l & Hl & Hf)|Hb].
  - rewrite (entry_lt_before (o_cmp o) l x k s) in Hf; [done| |done]. by eapply StronglySorted_app_1_elem_of.
  - destruct rest as [|n rest]; [by apply elem_of_nil in Hx|]. assert (before (o_cmp o) n k s = true) as Hn.
    { apply elem_of_cons in Hx as [->|Hx]; [done|]. apply (entry_lt_before (o_cmp o) n x); [|done]. apply StronglySorted_app_1_r, StronglySorted_inv in Hs as [_ Hs].
      rewrite Forall_forall in Hs. by apply Hs. }
    unfold before in Hn. destruct (compare (o_cmp o) (e_key n) k) eqn:Ec; [|change (klt (o_cmp o) (e_key n) k) in Ec|done].
    + apply (kcompare_eq (o_cmp o)) in Ec. rewrite Ec in Hb. by apply klt_irrefl in Hb.
    + pose proof (klt_trans (o_cmp o) _ _ _ Hb Ec) as Hx'. by apply klt_irrefl in Hx'.
Qed.

(** The search picks the block that answers for the whole table. *)
Lemma chain_route klog ps k s now :
  chain_ok checksum o klog ps None -> run_sorted (o_cmp o) (map entry_of (flat ps)) ->
  match ps !! route ps k s with
  | Some (b, ie) => get_unfiltered (o_cmp o) (map entry_of (flat ps)) k s now = get_unfiltered (o_cmp o) (map entry_of b) k s now /\
                    run_sorted (o_cmp o) (map entry_of b) /\ block_at checksum klog (ie_handle ie) (raw_of o b)
  | None => get_unfiltered (o_cmp o) (map entry_of (flat ps)) k s now = Ok miss
  end.
Proof.
  intros Hc Hs. pose proof (chain_before klog ps k s Hc Hs) as Hpre. destruct (ps !! route ps k s) as [[b ie]|] eqn:Ep.
  - pose proof (chain_behind klog ps k s b ie Hc Ep) as Hbh. set (bi := route ps k s) in *. clearbody bi.
    rewrite <- (take_drop_middle ps bi _ Ep) in Hc, Hs |- *. apply chain_ok_app in Hc as [_ (_ & Hat & _)]. rewrite flat_middle, !map_app in Hs |- *.
    apply StronglySorted_app_1_r, StronglySorted_app_1_l in Hs. split; [|done]. rewrite get_unfiltered_skip by done. by apply (get_block_only (o_cmp o)).
  - apply lookup_ge_None in Ep. rewrite take_ge in Hpre by done. rewrite <- (app_nil_r (map _ _)), get_unfiltered_skip by done. done.
Qed.
End Chain.

(** ** Sizes of data blocks and filters *)

(** A bound on what an entry adds to a table, its index and its filter aside. *)
Fixpoint table_size (es : list Entry) : Z :=
  match es with [] => 0 | e :: es => 2 * zlen (e_key e) + zlen (e_value e) + 128 + table_size es end.

Lemma table_size_app a b : table_size (a ++ b) = table_size a + table_size b.
Proof. induction a as [|e a IH]; cbn; [done|]. rewrite IH. lia. Qed.

Lemma table_size_nonneg es : 128 * Z.of_nat (length es) <= table_size es.
Proof. induction es as [|e es IH]; cbn [table_size length]; [done|]. unfold zlen in *. lia. Qed.

Lemma stored_weight sts : weight (map s_key sts) <= table_size (map entry_of sts).
Proof. induction sts as [|e sts IH]; cbn [table_size map weight entry_of e_key e_value]; [done|]. unfold zlen in *. lia. Qed.

Lemma enc_ttl_zlen ttl : 0 <= zlen (enc_ttl ttl) <= 10.
Proof. unfold enc_ttl. destruct (negb _); [|by cbn]. apply enc_uvarint_zlen10. Qed.

Lemma entry_tail_zlen k v fl off : zlen (entry_tail k v fl off) <= zlen k + zlen v + 8.
Proof.
  unfold entry_tail. rewrite zlen_app. assert (0 <= zlen v) by (unfold zlen; lia). destruct (has_bit _ _); [|lia].
  unfold zlen at 2. rewrite le_bytes_length. lia.
Qed.

Lemma encode_stored_zlen pd layout prev e : zlen (encode_stored pd layout [] prev e) <= zlen (s_key e) + zlen (s_value e) + 100.
Proof.
  unfold encode_stored. pose proof (enc_uvarint_zlen10 (s_kind e)). pose proof (enc_uvarint_zlen10 (zlen (s_value e))).
  pose proof (enc_uvarint_zlen10 (s_seq e)). pose proof (enc_ttl_zlen (s_ttl e)). pose proof (enc_uvarint_zlen10 (zlen (s_key e))).
  set (fl := entry_flags (s_kind e) (s_ttl e) (s_vlog e)). pose proof (enc_uvarint_zlen10 (Z.land fl MOD_KNOWN)).
  destruct pd.
  - unfold encode_entry_delta. fold fl. set (n := shared_prefix_len prev (s_key e)). pose proof (enc_uvarint_zlen10 (Z.of_nat n)).
    pose proof (enc_uvarint_zlen10 (Z.of_nat (length (s_key e) - n))). pose proof (entry_tail_zlen (drop n (s_key e)) (s_value e) fl (s_off e)) as Ht.
    assert (zlen (drop n (s_key e)) <= zlen (s_key e)) by (unfold zlen; rewrite length_drop; lia). rewrite !zlen_app. change (zlen []) with 0. lia.
  - unfold encode_entry. fold fl. pose proof (entry_tail_zlen (s_key e) (s_value e) fl (s_off e)) as Ht. rewrite !zlen_app. change (zlen []) with 0.
    destruct layout; [change (zlen [byte_of_Z fl]) with 1|rewrite zlen_app]; lia.
Qed.

Lemma block_bytes_zlen pd layout n i prev es : zlen (block_bytes pd layout n i prev es) + 28 * Z.of_nat (length es) <= table_size (map entry_of es).
Proof.
  revert i prev. induction es as [|e es IH]; intros i prev; [done|]. cbn [block_bytes map table_size length]. rewrite zlen_app.
  pose proof (encode_stored_zlen pd layout (anchored n i prev) e). specialize (IH (S i) (s_key e)). cbn [entry_of e_key e_value]. unfold zlen in *. lia.
Qed.

Lemma restart_offs_length pd layout n i off prev es : (length (restart_offs pd layout n i off prev es) <= length es)%nat.
Proof.
  revert i off prev. induction es as [|e es IH]; intros i off prev; cbn [restart_offs length]; [lia|]. rewrite length_app.
  specialize (IH (S i) (off + length (encode_stored pd layout [] (anchored n i prev) e))%nat (s_key e)). destruct (is_anchor n i); cbn [length]; lia.
Qed.

Lemma block_raw_zlen pd layout n es : zlen (block_raw pd layout n es) <= table_size (map entry_of es) + 4.
Proof.
  unfold block_raw, trailer_bytes. rewrite !zlen_app. pose proof (block_bytes_zlen pd layout n 0 [] es).
  pose proof (restart_offs_length pd layout n 0 0 [] es). unfold zlen in *. rewrite restart_bytes_length, le_bytes_length. lia.
Qed.

Lemma bloom_encode_zlen b : bloom_wf b -> zlen (bloom_encode b) < 2 ^ 32.
Proof.
  intros [Hm _ Hl _]. unfold bloom_encode. pose proof (concat_le_length 8 (b_bits b)) as Hc.
  pose proof (enc_uvarint_length (b_m b)). pose proof (enc_uvarint_length (b_k b)).
  assert (div_ceil (b_m b) 64 <= 2 ^ 26 + 1) by (unfold div_ceil; apply Z.div_le_upper_bound; lia).
  assert (0 <= div_ceil (b_m b) 64) by (unfold div_ceil; apply Z.div_pos; lia).
  unfold zlen. rewrite ?length_cons, ?length_app. cbn [length]. lia.
Qed.
