(* ===== verification/SstTable.v ===== *)
(** * A written table reads back (sst/writer.rs with sst/reader.rs)

    The two halves of the table format against each other: whatever
    [TableWriter] writes from a sorted run, [TableReader] opens, and it answers
    every lookup as [ReadPath] answers it from the run. *)

From Stdlib Require Import ZArith Lia Sorted.
From Stdlib.Strings Require Import Byte.
From stdpp Require Import base list sorting.
From S2P Require Import Prelude Encoding Codec Comparator Format Bloom Block SstEntry Manifest RangeTombstone ReadPath DataBlock TableWriter TableReader.

Open Scope Z_scope.

(** ** What the counters say *)

Section Tally.
Context (xxh3 : list byte -> Z).

Definition tally0 (hashes : option (list Z)) : Tally := mkTally 0 0 0 None [] 0 false hashes.
Definition tally_of (hashes : option (list Z)) (es : list Stored) : Tally :=
  fold_left (fun y e => count_entry xxh3 e y) es (tally0 hashes).

Lemma tally_of_snoc hashes es e : tally_of hashes (es ++ [e]) = count_entry xxh3 e (tally_of hashes es).
Proof. unfold tally_of. by rewrite fold_left_app. Qed.

Record tally_ok (hashes : option (list Z)) (es : list Stored) (y : Tally) : Prop := {
  ta_num : y_num_entries y = Z.of_nat (length es);
  ta_min : y_min_key y = s_key <$> head es;
  ta_last : y_last_key y = last_key [] es;
  ta_hashes : y_bloom_hashes y = (fun hs => hs ++ map (fun e => xxh3 (s_key e)) es) <$> hashes;
  ta_merge : y_wrote_merge y = existsb (fun e => s_kind e =? KIND_MERGE) es;
  ta_max : 0 <= y_max_seq y /\ (forall e, e ∈ es -> s_seq e <= y_max_seq y) /\
    (y_max_seq y = 0 \/ exists e, e ∈ es /\ y_max_seq y = s_seq e);
}.

Lemma tally_of_ok hashes es : tally_ok hashes es (tally_of hashes es).
Proof.
  induction es as [|e es IH] using rev_ind.
  - split; cbn; try done; [by destruct hashes as [hs|]; cbn; rewrite ?app_nil_r|]. split; [done|]. split; [|by left]. intros e He. by apply elem_of_nil in He.
  - rewrite tally_of_snoc. destruct IH as [H1 H2 H3 H4 H5 (H6 & H7 & H8)].
    split; unfold count_entry; cbn [y_num_entries y_min_key y_last_key y_bloom_hashes y_wrote_merge y_max_seq].
    + rewrite H1, length_app. cbn. lia.
    + rewrite H2. by destruct es.
    + by rewrite last_key_snoc.
    + rewrite H4. destruct hashes as [hs|]; [|done]. cbn. by rewrite map_app, app_assoc.
    + by rewrite H5, existsb_app; cbn; rewrite orb_false_r.
    + destruct (Z.ltb_spec (y_max_seq (tally_of hashes es)) (s_seq e)); (split; [lia|]; split;
        [intros x [Hx|Hx%list_elem_of_singleton]%elem_of_app; [specialize (H7 x Hx)|subst]; lia|]).
      * right. exists e. split; [|done]. apply elem_of_app. right. by left.
      * destruct H8 as [H8|(x & Hx & H8)]; [by left|]. right. exists x. split; [|done]. apply elem_of_app. by left.
Qed.
End Tally.

Section Table.
Context (checksum : list byte -> Z) (checksum_u32 : forall b, is_u32 (checksum b)) `{CodecsInvert, !CodecsTotal}.
Context (xxh3 : list byte -> Z) {F : Type} (bloom_sizing : Z -> F -> Z * Z) (o : WriterOptions F) `{!TotalOrder (o_cmp o)}.
Implicit Types (ps : list Piece) (fr : list Fragment).

(** ** Finishing *)

Lemma chain_weight klog ps nk : chain_ok checksum o klog ps nk -> weight (map ie_key (map snd ps)) <= weight (map s_key (flat ps)).
Proof.
  induction ps as [|[b ie] ps IH]; [done|]. intros ((l & Hl & HL & _) & _ & Hc). specialize (IH Hc). unfold flat. cbn [map concat weight fst snd].
  apply last_Some in Hl as [b' ->]. rewrite !map_app, !weight_app. cbn [map weight]. fold (flat ps). pose proof (weight_nonneg (map s_key b')). unfold zlen in *. lia.
Qed.

Lemma chain_entries_u klog ps nk :
  zlen klog < 2 ^ 64 -> chain_ok checksum o klog ps nk -> Forall (fun e => is_u64 (s_seq e)) (flat ps) -> Forall index_entry_u (map snd ps).
Proof.
  intros Hl. induction ps as [|[b ie] ps IH]; [constructor|]. intros ((l & El & _ & Hs & _) & Hb & Hc) Hu. unfold flat in Hu. cbn [map concat fst] in Hu.
  apply Forall_app in Hu as [Hu1 Hu2]. constructor; [|by apply IH]. split; [|by eapply block_at_handle_u].
  cbn. apply last_Some in El as [b' ->]. apply Forall_app in Hu1 as [_ Hu1]. inv Hu1. destruct Hs as [->| ->]; [done|]. unfold is_u64. lia.
Qed.

(** The blocks of a finished table, in front of its footer. *)
Record table_in (hashes : option (list Z)) fr (K : list byte) (hi : BlockHandle) (hb ha : option BlockHandle) (min_key : key) ps : Prop := {
  ti_chain : chain_ok checksum o K ps None;
  ti_last : match last (map snd ps) with Some e => ie_key e = last_key [] (flat ps) | None => flat ps = [] end;
  ti_index : if o_use_btree o then exists d, root_at checksum K d hi min_key (map snd ps) /\ (d < length K)%nat
             else block_at checksum K hi (encode_index min_key (map snd ps));
  ti_bloom : forall h, hb = Some h -> exists hs fpr b, hashes = Some hs /\ build_filter bloom_sizing hs fpr = Some b /\ block_at checksum K h (bloom_encode b);
  ti_aux : match ha with
           | Some h => fr <> [] /\ block_at checksum K h (encode_aux_sections [(AUX_SECTION_RANGE, encode_fragments fr)])
           | None => fr = []
           end;
}.

Lemma build_filter_total hs fpr : exists b, build_filter bloom_sizing hs fpr = Some b /\ bloom_wf b /\ forall h, h ∈ hs -> may_contain_hash b h = Some true.
Proof.
  unfold build_filter. destruct (bloom_sizing _ fpr) as [mf kf]. destruct (add_hashes_spec hs _ (bloom_new_wf mf kf)) as (b & E & Hw & Hm & Hk & _ & HS).
  exists b. split; [done|]. split; [done|]. intros h Hh. unfold may_contain_hash. rewrite Hm, Hk. by apply all_set_true, HS.
Qed.

Lemma write_filter_spec y klog :
  exists klog' hb, write_filter checksum bloom_sizing o y klog = Ok (klog', hb) /\ (exists x, klog' = klog ++ x) /\
    forall h, hb = Some h -> exists hs fpr b, y_bloom_hashes y = Some hs /\ build_filter bloom_sizing hs fpr = Some b /\ block_at checksum klog' h (bloom_encode b).
Proof.
  unfold write_filter. destruct (y_bloom_hashes y) as [hs|]; [|exists klog, None; split; [done|]; split; [exists []; by rewrite app_nil_r|done]].
  destruct (o_bloom_fpr o) as [fpr|]; [|exists klog, None; split; [done|]; split; [exists []; by rewrite app_nil_r|done]].
  destruct (build_filter_total hs fpr) as (b & E & _). rewrite E. destruct (meta_block_spec checksum klog (bloom_encode b)) as (k1 & h & -> & Hb & x & -> & _).
  cbn [rbind]. eexists _, _. split; [done|]. split; [eauto|]. intros h' [= <-]. eauto 8.
Qed.

Lemma write_aux_spec fr klog :
  (fr <> [] -> extended o = true) ->
  exists klog' ha, write_aux checksum o fr klog = Ok (klog', ha) /\ (exists x, klog' = klog ++ x) /\
    match ha with
    | Some h => fr <> [] /\ block_at checksum klog' h (encode_aux_sections [(AUX_SECTION_RANGE, encode_fragments fr)])
    | None => fr = []
    end.
Proof.
  intros Hext. unfold write_aux. destruct fr as [|f fr]; [exists klog, None; split; [done|]; split; [exists []; by rewrite app_nil_r|done]|].
  cbn [length Nat.eqb]. rewrite Hext by done. cbn [guard rbind].
  destruct (meta_block_spec checksum klog (encode_aux_sections [(AUX_SECTION_RANGE, encode_fragments (f :: fr))])) as (k1 & h & -> & Hb & x & -> & _).
  cbn [rbind]. eexists _, _. split; [done|]. split; [eauto|done].
Qed.

Lemma write_index_spec min_key index klog :
  weight (map ie_key index) + zlen min_key + 80 < 2 ^ 32 ->
  exists klog' h, (if o_use_btree o then write_btree_index checksum min_key index klog else write_meta_block checksum klog (encode_index min_key index)) = Ok (klog', h) /\
    (exists x, klog' = klog ++ x) /\
    if o_use_btree o then exists d, root_at checksum klog' d h min_key index /\ (d < length klog')%nat
    else block_at checksum klog' h (encode_index min_key index).
Proof.
  intros Hw. destruct (o_use_btree o).
  - destruct (write_btree_index_spec checksum min_key index klog Hw) as (k1 & h & d & E & (x & -> & _) & Hr & Hd). eauto 8.
  - destruct (meta_block_spec checksum klog (encode_index min_key index)) as (k1 & h & E & Hb & x & -> & _). eauto 8.
Qed.
Lemma flush_last fr hashes w ds pend cur :
  winv checksum xxh3 o (tally0 hashes) fr w ds pend cur None ->
  exists w' ps, (if w_pending_block w then flush_block checksum w else Ok w) = Ok w' /\
    w_index w' ++ match w_pending_index w' with Some p => [p] | None => [] end = map snd ps /\
    chain_ok checksum o (w_klog w') ps None /\ flat ps = flat (ds ++ pend) ++ cur /\
    w_tally w' = tally_of xxh3 hashes (flat ps) /\ vlog_holds checksum (w_vlog w') (flat ps) /\ w_range_fragments w' = fr /\
    match last (map snd ps) with Some e => ie_key e = last_key [] (flat ps) | None => flat ps = [] end.
Proof.
  intros Hw. rewrite (wi_block _ _ _ _ _ _ _ _ _ _ Hw).
  assert (exists w' ds' pend', (if negb (length cur =? 0)%nat then flush_block checksum w else Ok w) = Ok w' /\
            winv checksum xxh3 o (tally0 hashes) fr w' ds' pend' [] None /\ flat (ds' ++ pend') = flat (ds ++ pend) ++ cur) as (w' & ds' & pend' & -> & Hw' & Ef).
  { destruct cur as [|e cur]; cbn [length Nat.eqb negb]; [exists w, ds, pend; by rewrite app_nil_r|].
    assert (pend = []) as ->.
    { pose proof (wi_pending _ _ _ _ _ _ _ _ _ _ Hw) as Hp. destruct (w_pending_index w); [|done]. by destruct Hp as (? & ? & _ & ? & _). }
    destruct (flush_inv checksum xxh3 o _ _ w ds (e :: cur) None None Hw) as (w' & ie & E & Hw'); [done|]. exists w', ds, [(e :: cur, ie)].
    split; [done|]. split; [done|]. rewrite app_nil_r, flat_app. unfold flat at 2. cbn. by rewrite app_nil_r. }
  exists w', (ds' ++ pend'). destruct Hw' as [Hi Hp Hc _ _ Hst Hy Hv Hf]. rewrite app_nil_r in *. split; [done|].
  split; [|split; [done|]; split; [done|]; split; [done|]; split; [done|]; split; [done|]].
  - rewrite map_app, Hi. f_equal. destruct (w_pending_index w'); [|by subst]. by destruct Hp as (? & ? & -> & _).
  - destruct (w_pending_index w') as [p|]; [|subst; by rewrite Hst]. destruct Hp as (b & l & -> & _ & Hl & Hk & _).
    rewrite map_app, last_app, flat_app. cbn [map snd last]. rewrite Hk. unfold last_key, flat at 2. cbn. by rewrite app_nil_r, last_app, Hl.
Qed.

Lemma finish_spec fr hashes w ds pend cur :
  winv checksum xxh3 o (tally0 hashes) fr w ds pend cur None -> (fr <> [] -> extended o = true) ->
  let es := flat (ds ++ pend) ++ cur in
  let y := tally_of xxh3 hashes es in
  let min_key := default [] (y_min_key y) in
  weight (map s_key es) + zlen min_key + 80 < 2 ^ 32 ->
  exists t K hi hb ha ps,
    finish checksum bloom_sizing o w = Ok t /\ flat ps = es /\ table_in (y_bloom_hashes y) fr K hi hb ha min_key ps /\ vlog_holds checksum (tf_vlog t) es /\
    tf_klog t = K ++ encode_footer checksum (mkFooter hi hb (y_num_entries y) (y_max_seq y) (o_use_btree o)
                       (table_caps_word o (y_wrote_merge y) (negb (length fr =? 0)%nat)) ha) /\
    fm_min_key (tf_meta t) = min_key /\ fm_max_key (tf_meta t) = y_last_key y /\ fm_max_seq (tf_meta t) = y_max_seq y /\
    fm_num_entries (tf_meta t) = y_num_entries y /\ fm_range (tf_meta t) = summarize fr /\ fm_klog_size (tf_meta t) = zlen (tf_klog t).
Proof.
  intros Hw Hext es y min_key Hsz. unfold finish. destruct (flush_last _ _ _ _ _ _ Hw) as (w' & ps & -> & Ei & Hc & Ef & Hy & Hv & Hfr & Hla). cbn [rbind].
  fold es in Ef. rewrite Ef in Hy, Hv. fold y in Hy. rewrite Hfr, Hy, Ei. fold min_key.
  destruct (write_filter_spec y (w_klog w')) as (k1 & hb & -> & (x1 & ->) & Hbl). cbn [rbind].
  destruct (write_aux_spec fr (w_klog w' ++ x1) Hext) as (k2 & ha & -> & (x2 & ->) & Hax). cbn [rbind].
  pose proof (chain_weight _ _ _ Hc) as Hcw. rewrite Ef in Hcw.
  destruct (write_index_spec min_key (map snd ps) ((w_klog w' ++ x1) ++ x2)) as (k3 & hi & E3 & (x3 & ->) & Hix); [lia|]. rewrite E3. cbn [rbind].
  eexists _, (((w_klog w' ++ x1) ++ x2) ++ x3), hi, hb, ha, ps. split; [reflexivity|]. split; [done|].
  split; [|split; [done|by cbn]]. split.
  - by do 3 apply chain_ok_grow.
  - done.
  - done.
  - intros h Hh. destruct (Hbl h Hh) as (hs & fpr & b & F1 & F2 & F3). exists hs, fpr, b. split; [done|]. split; [done|]. by do 2 apply block_at_app.
  - destruct ha; [|done]. destruct Hax as [? ?]. split; [done|]. by apply block_at_app.
Qed.
(** ** Opening *)

Lemma caps_word_ok merge ranges (caps := table_caps_word o merge ranges) :
  (merge = true -> extended o = true) -> (ranges = true -> extended o = true) ->
  is_u64 caps /\ check_table_caps caps = Ok tt /\ has_bit caps CAP_RANGE_DELETES = ranges /\
  has_bit caps CAP_EXTENDED_RECORDS = extended o /\ has_bit caps CAP_PREFIX_DELTA = o_prefix_delta o.
Proof.
  unfold caps, table_caps_word, extended. destruct (o_extended_entries o), (o_prefix_delta o), merge, ranges; cbn [orb];
    intros Hm Hr; try (by specialize (Hm eq_refl)); try (by specialize (Hr eq_refl)); by vm_compute.
Qed.

Lemma frags_wf_sorted cmp fr : TotalOrder cmp -> frags_wf cmp fr -> fragments_sorted cmp fr = true.
Proof.
  intros HT [Hok Hs]. unfold fragments_sorted. apply negb_true_iff. induction fr as [|f fr IH]; [done|].
  apply StronglySorted_inv in Hs as [Hs Hf]. inv Hok as [|? ? Hf1 Hok']. destruct fr as [|g fr]; [done|].
  change (windows2 (f :: g :: fr)) with ((f, g) :: windows2 (g :: fr)). cbn [existsb fst snd].
  rewrite IH by done. rewrite orb_false_r. inv Hf as [|? ? Hfg _]. inv Hok' as [|? ? (Hg & _) _].
  rewrite (proj2 (is_gt_false cmp _ _) Hfg), (proj2 (is_ge_false cmp _ _) Hg). done.
Qed.

Definition frags_storable fr : Prop :=
  frags_wf (o_cmp o) fr /\ Forall frag_encodable fr /\ is_u64 (Z.of_nat (length fr)) /\ zlen (encode_fragments fr) + 64 < 2 ^ 32.

Lemma aux_zlen p : zlen (encode_aux_sections [(AUX_SECTION_RANGE, p)]) <= zlen p + 21.
Proof.
  unfold encode_aux_sections. cbn [length map concat fst snd]. rewrite app_nil_r. pose proof (enc_lenbytes_zlen p). pose proof (enc_uvarint_zlen10 (Z.of_nat 1)).
  rewrite zlen_app. change (byte_of_Z AUX_SECTION_RANGE :: ?l) with ([byte_of_Z AUX_SECTION_RANGE] ++ l). rewrite zlen_app. change (zlen [byte_of_Z AUX_SECTION_RANGE]) with 1. lia.
Qed.

Lemma read_fragments_ok fr klog ha :
  frags_storable fr ->
  match ha with
  | Some h => fr <> [] /\ block_at checksum klog h (encode_aux_sections [(AUX_SECTION_RANGE, encode_fragments fr)])
  | None => fr = []
  end -> read_fragments checksum (o_cmp o) klog (Some (default no_handle ha)) = Ok fr.
Proof.
  intros (Hwf & He & Hn & Hz) Ha. destruct ha as [h|]; [|by subst]. destruct Ha as [Hne Hb]. unfold read_fragments. cbn [default from_option]. unfold Datatypes.id.
  destruct (block_at_handle _ _ _ _ Hb) as [_ Hlen]. destruct (Z.ltb_spec 0 (bh_length h)); [|lia].
  pose proof (aux_zlen (encode_fragments fr)). rewrite (block_at_read checksum checksum_u32 klog h _ Hb) by lia. cbn [rbind].
  rewrite decode_aux_sections_encode; [|by split|apply Forall_singleton; split; [done|]; change (is_len (encode_fragments fr)); unfold is_len, is_u64, zlen in *; lia]. cbn [rbind section_fragments].
  change (AUX_SECTION_RANGE =? AUX_SECTION_RANGE) with true. cbn iota. rewrite decode_fragments_encode by done. cbn [rbind].
  by rewrite frags_wf_sorted.
Qed.

Lemma open_spec hashes fr K hi hb ha mk ps num ms merge (ranges := negb (length fr =? 0)%nat)
    (klog := K ++ encode_footer checksum (mkFooter hi hb num ms (o_use_btree o) (table_caps_word o merge ranges) ha)) :
  table_in hashes fr K hi hb ha mk ps -> frags_storable fr -> (fr <> [] -> extended o = true) -> (merge = true -> extended o = true) ->
  Forall (fun e => is_u64 (s_seq e)) (flat ps) -> is_u64 num -> is_u64 ms -> weight (map ie_key (map snd ps)) + zlen mk + 80 < 2 ^ 32 ->
  zlen klog < 2 ^ 64 ->
  exists bl, open_table checksum (o_cmp o) klog =
      Ok (mkReader klog (o_cmp o) (map snd ps) mk (match last (map snd ps) with Some e => ie_key e | None => mk end) num ms bl
            (entry_layout o) (o_prefix_delta o) (table_caps_word o merge ranges) fr) /\
    (bl = None \/ exists hs fpr b, hashes = Some hs /\ bl = Some b /\ build_filter bloom_sizing hs fpr = Some b).
Proof.
  intros [Hc _ Hi Hb Ha] Hfs Hx Hm Hu Hnum Hms Hw Hl. destruct (caps_word_ok merge ranges Hm) as (C1 & C2 & C3 & C4 & C5).
  { unfold ranges. intros E. apply Hx. by destruct fr. }
  assert (zlen klog = zlen K + 96) as Hkl by (unfold klog; rewrite zlen_app; unfold zlen; by rewrite encode_footer_length).
  assert (0 <= zlen K) as HK by (unfold zlen; lia).
  assert (exists p, block_at checksum K hi p) as (pi & Hpi) by (destruct (o_use_btree o); [destruct Hi as (d & (cs & subs & ? & _) & _)|]; eauto).
  pose proof (block_at_handle _ _ _ _ Hpi) as [Hhi _].
  unfold open_table. rewrite Hkl, Z.min_r by (unfold FOOTER_SIZE; lia). unfold klog at 1. rewrite <- (app_nil_r (encode_footer checksum _)).
  rewrite (read_exact_at_app K _ []) by (unfold zlen; rewrite ?encode_footer_length; unfold FOOTER_SIZE; lia). cbn [rbind].
  rewrite decode_footer_encode; [|done|]; cycle 1.
  { split; cbn [ff_index ff_bloom ff_aux ff_num_entries ff_max_seq ff_caps]; try done; unfold FOOTER_SIZE in *; try lia.
    - by replace (zlen K + 96 - 96) with (zlen K) by lia.
    - intros h Hh. destruct (Hb h Hh) as (hs & fpr & b & _ & _ & Hbb). apply block_at_handle in Hbb as [Hbb ?]. replace (zlen K + 96 - 96) with (zlen K) by lia. split; [done|lia].
    - intros h ->. destruct Ha as [_ Haa]. apply block_at_handle in Haa as [Haa ?]. replace (zlen K + 96 - 96) with (zlen K) by lia. split; [done|lia]. }
  cbn [rbind ff_caps ff_aux ff_bloom ff_btree ff_index ff_num_entries ff_max_seq].
  rewrite (read_fragments_ok fr klog ha Hfs) by (destruct ha; [destruct Ha; split; [done|by apply block_at_app]|done]). cbn [rbind].
  rewrite C3, C4, C5. unfold ranges at 1. rewrite eqb_reflx. cbn [guard rbind].
  assert (exists bl, match hb with Some h => let? raw := read_block_at checksum klog h in let? b := bloom_decode raw in Ok (Some b) | None => Ok None end = Ok bl /\
    (bl = None \/ exists hs fpr b, hashes = Some hs /\ bl = Some b /\ build_filter bloom_sizing hs fpr = Some b)) as (bl & -> & Hbl).
  { destruct hb as [h|]; [|eauto]. destruct (Hb h eq_refl) as (hs & fpr & b & Eh & Ef & Hbb). destruct (build_filter_total hs fpr) as (b' & Eb' & Hwf & _).
    rewrite Ef in Eb'. injection Eb' as <-. unfold klog. rewrite (block_at_read checksum checksum_u32 _ h _ (block_at_app _ _ _ _ _ Hbb)) by by apply bloom_encode_zlen.
    cbn [rbind]. rewrite bloom_decode_encode by done. cbn. exists (Some b). split; [done|]. right. eauto 8. }
  cbn [rbind]. exists bl. split; [|done].
  assert ((if o_use_btree o then load_btree checksum klog hi else let? raw := read_block_at checksum klog hi in decode_index raw) = Ok (mk, map snd ps)) as ->; [|done].
  pose proof (chain_entries_u K ps None ltac:(lia) Hc Hu) as Hue. pose proof (weight_nonneg (map ie_key (map snd ps))). destruct (o_use_btree o).
  - destruct Hi as (d & Hr & Hd). apply (load_btree_ok checksum checksum_u32 klog d); [done|by apply root_at_grow|done|]. unfold klog. rewrite length_app. lia.
  - pose proof (encode_index_zlen mk (map snd ps)). unfold klog. rewrite (block_at_read checksum checksum_u32 _ hi _ (block_at_app _ _ _ _ _ Hi)) by lia. cbn [rbind].
    assert (0 <= zlen mk) by (unfold zlen; lia). apply decode_index_enc; [unfold is_len, is_u64, zlen in *; lia|lia|done].
Qed.
(** ** Lookups *)

(** The blocks [ps] behind the index of [r] hold the entries [es]. *)
Record table_blocks r (vlog : option (list byte)) ps (es : list Entry) : Prop := {
  tb_cmp : r_cmp r = o_cmp o;
  tb_index : r_index r = map snd ps;
  tb_layout : r_layout r = entry_layout o;
  tb_delta : r_prefix_delta r = o_prefix_delta o;
  tb_chain : chain_ok checksum o (r_klog r) ps None;
  tb_entries : map entry_of (flat ps) = es;
  tb_ok : Forall (stored_ok (o_prefix_delta o) (entry_layout o)) (flat ps);
  tb_sep : Forall (separated_ok (read_separated checksum vlog)) (flat ps);
}.

Lemma find_block_route r vlog ps es k s : table_blocks r vlog ps es -> find_block r k s = route o ps k s.
Proof. intros []. unfold find_block, route, index_lt. by rewrite tb_cmp0, tb_index0. Qed.

Lemma flat_lookup ps i b ie : ps !! i = Some (b, ie) -> flat ps = flat (take i ps) ++ b ++ flat (drop (S i) ps).
Proof. intros E. rewrite <- (take_drop_middle ps i _ E) at 1. apply flat_middle. Qed.

Lemma block_size ps i b ie :
  ps !! i = Some (b, ie) ->
  zlen (block_bytes (o_prefix_delta o) (entry_layout o) (o_restart_interval o) 0 [] b) <= table_size (map entry_of (flat ps)) /\
  zlen (raw_of o b) <= table_size (map entry_of (flat ps)) + 4.
Proof.
  intros E. rewrite (flat_lookup ps i b ie E), !map_app, !table_size_app.
  pose proof (table_size_nonneg (map entry_of (flat (take i ps)))). pose proof (table_size_nonneg (map entry_of (flat (drop (S i) ps)))).
  pose proof (block_raw_zlen (o_prefix_delta o) (entry_layout o) (o_restart_interval o) b). pose proof (block_bytes_zlen (o_prefix_delta o) (entry_layout o) (o_restart_interval o) 0 [] b).
  unfold raw_of. lia.
Qed.

(** Every block reads back. *)
Lemma block_reads mmap r vlog ps es i b ie :
  table_blocks r vlog ps es -> table_size es + 4 < 2 ^ 32 -> ps !! i = Some (b, ie) -> read_data_block checksum mmap r (ie_handle ie) = Ok (raw_of o b).
Proof.
  intros [_ _ _ _ Hc <- _ _] Hsz E. destruct (block_size ps i b ie E) as [_ Hz]. rewrite <- (take_drop_middle ps i _ E) in Hc.
  apply chain_ok_app in Hc as [_ (_ & Hat & _)]. unfold read_data_block. destruct mmap; [by apply block_at_mapped; [..|lia]|by apply block_at_read; [..|lia]].
Qed.

Lemma lookup_spec mmap r vlog ps es k s now :
  table_blocks r vlog ps es -> run_sorted (o_cmp o) es -> table_size es + 4 < 2 ^ 32 ->
  table_get_unfiltered checksum mmap r vlog k s now = get_unfiltered (o_cmp o) es k s now.
Proof.
  intros Htb Hs Hsz. pose proof Htb as [Ec Ei El Ep Hc <- Hok Hsep]. unfold table_get_unfiltered. rewrite (find_block_route r vlog ps _ k s Htb), Ei, Ec, El, Ep.
  pose proof (chain_route checksum o (r_klog r) ps k s now Hc Hs) as Hr. rewrite list_lookup_fmap. destruct (ps !! route o ps k s) as [[b ie]|] eqn:Eb; cbn; [|done].
  destruct Hr as (-> & Hsb & _). rewrite (block_reads mmap r vlog ps _ _ b ie Htb Hsz Eb). cbn [rbind]. destruct (block_size ps _ b ie Eb) as [Hz _].
  rewrite (flat_lookup ps _ b ie Eb) in Hok, Hsep. apply Forall_app in Hok as [_ [Hok _]%Forall_app], Hsep as [_ [Hsep _]%Forall_app]. apply block_get_spec; try done. lia.
Qed.

(** A key no entry has is a miss. *)
Lemma get_unfiltered_absent es k s now : (forall e, e ∈ es -> e_key e <> k) -> get_unfiltered (o_cmp o) es k s now = Ok miss.
Proof.
  intros Hk. unfold get_unfiltered. destruct (seek (o_cmp o) es k s) as [|e rest] eqn:E; [done|].
  assert (e ∈ es) as He.
  { clear Hk. induction es as [|x es IH]; cbn in E; [done|]. destruct (before (o_cmp o) x k s); [right; by apply IH|]. injection E as -> _. by left. }
  by rewrite (proj2 (is_eq_false (o_cmp o) _ _) (Hk e He)).
Qed.
Lemma stored_entries_ok vlog sts es :
  vlog_holds checksum vlog sts -> (forall l, vlog = Some l -> zlen l < 2 ^ 64) -> map entry_of sts = es -> Forall (entry_in o) es ->
  Forall (stored_ok (o_prefix_delta o) (entry_layout o)) sts /\ Forall (separated_ok (read_separated checksum vlog)) sts.
Proof.
  intros [_ Hv] Hl <- Hin. rewrite Forall_map in Hin. rewrite Forall_forall in Hin. split; apply Forall_forall; intros st Hst; destruct (Hv st Hst) as [Hf Ht].
  - destruct (Hin st Hst) as [_ Hk Hb Hkl Hvl Hs Httl]. cbn in *. split; try done.
    + unfold is_len, is_u64, zlen, U32_MAX in *. lia.
    + unfold entry_layout. intros E. apply Hb. by destruct (o_prefix_delta o), (extended o).
    + destruct (s_vlog st); [|rewrite Hf by done; unfold is_u64; lia]. destruct (Ht eq_refl) as (_ & l & -> & Ho & _). specialize (Hl l eq_refl). unfold is_u64. lia.
    + intros E. destruct (Ht E) as (Hnt & _). destruct (point_kinds _ Hk) as [Ek|[Ek|[Ek|Ek]]]; rewrite Ek in *; auto; done.
  - intros E. destruct (Ht E) as (_ & l & -> & _ & Hr). specialize (Hr []). rewrite app_nil_r in Hr. done.
Qed.

(** The writer of a table whose options are already normal. *)
Lemma table_spec hashes fr es w :
  winv checksum xxh3 o (tally0 hashes) fr w [] [] [] None -> (hashes = None \/ hashes = Some []) ->
  run_sorted (o_cmp o) es -> Forall (entry_in o) es -> frags_storable fr -> (fr <> [] -> extended o = true) -> table_size es + 128 < 2 ^ 32 ->
  exists t, (let? w := add_all checksum xxh3 o es w in finish checksum bloom_sizing o w) = Ok t /\
    (zlen (tf_klog t) < 2 ^ 64 -> (forall l, tf_vlog t = Some l -> zlen l < 2 ^ 64) ->
     exists r ps, open_table checksum (o_cmp o) (tf_klog t) = Ok r /\ r_fragments r = fr /\ table_blocks r (tf_vlog t) ps es /\
       (forall k, exists b, may_contain xxh3 r k = Some b) /\ (forall e, e ∈ es -> may_contain xxh3 r (e_key e) = Some true) /\
       (forall e, e ∈ es -> e_seq e <= fm_max_seq (tf_meta t)) /\
       r_min_key r = fm_min_key (tf_meta t) /\ r_max_key r = fm_max_key (tf_meta t) /\ fm_range (tf_meta t) = summarize fr).
Proof.
  intros Hw0 Hh Hs Hin Hfs Hx Hsz. destruct (add_all_inv checksum checksum_u32 xxh3 o _ _ es w [] [] [] Hw0 Hin Hs)
    as (w' & ds & pend & cur & sts & -> & Hw & Ef & Em). cbn [rbind]. cbn in Ef.
  pose proof (tally_of_ok xxh3 hashes sts) as Hy. pose proof (stored_weight sts) as Htw. rewrite Em in Htw.
  assert (zlen (default [] (y_min_key (tally_of xxh3 hashes sts))) + weight (map s_key sts) <= table_size es) as Hmin.
  { rewrite (ta_min _ _ _ _ Hy), <- Em. destruct sts as [|e0 sts0]; [done|]. cbn [map table_size weight head default from_option fmap option_fmap option_map]. unfold Datatypes.id.
    pose proof (stored_weight sts0). cbn [entry_of e_key e_value]. unfold zlen in *. lia. }
  destruct (finish_spec fr hashes w' ds pend cur Hw Hx) as (t & K & hi & hb & ha & ps & -> & Efl & Hti & Hv & Ek & M1 & M2 & M3 & M4 & M5 & _).
  { rewrite Ef. lia. }
  rewrite Ef in *. set (y := tally_of xxh3 hashes sts) in *. exists t. split; [done|]. intros Hkl Hvl.
  destruct (stored_entries_ok _ sts es Hv Hvl Em Hin) as [Hok Hsep]. rewrite Ek in Hkl.
  assert (Forall (fun e => is_u64 (s_seq e)) (flat ps)) as Hu by (rewrite Efl; eapply Forall_impl; [exact Hok|]; by intros e [? ? ? _ _ _ _ _]).
  assert (y_wrote_merge y = true -> extended o = true) as Hm.
  { rewrite (ta_merge _ _ _ _ Hy). intros (st & Hst & Ek')%existsb_exists. destruct (extended o) eqn:Ex; [done|]. rewrite <- Em, Forall_map, Forall_forall in Hin.
    apply list_elem_of_In in Hst. pose proof (en_base _ _ (Hin st Hst) Ex) as Hb. cbn in Hb. apply Z.eqb_eq in Ek'. by rewrite Ek' in Hb. }
  assert (is_u64 (y_max_seq y)) as Hms.
  { destruct (ta_max _ _ _ _ Hy) as (_ & _ & [->|(e & He & ->)]); [unfold is_u64; lia|]. rewrite Efl, Forall_forall in Hu. by apply Hu. }
  assert (is_u64 (y_num_entries y)) as Hnum.
  { rewrite (ta_num _ _ _ _ Hy). pose proof (table_size_nonneg es). assert (length es = length sts) by by rewrite <- Em, length_map. unfold is_u64. lia. }
  pose proof (chain_weight _ _ _ (ti_chain _ _ _ _ _ _ _ _ Hti)) as Hcw. rewrite Efl in Hcw.
  destruct (open_spec _ fr K hi hb ha _ ps _ _ _ Hti Hfs Hx Hm Hu Hnum Hms ltac:(lia) Hkl) as (bl & Eo & Hbl). rewrite <- Ek in Eo. eexists _, ps. split; [exact Eo|].
  split; [done|]. split; [|split; [|split; [|split]]].
  - split; try done; cbn [r_klog]; rewrite ?Efl, ?Em; try done. rewrite Ek. apply chain_ok_grow. apply Hti.
  - intros k. unfold may_contain. cbn. destruct Hbl as [->|(hs & fpr & b & _ & -> & Eb)]; [eauto|]. destruct (build_filter_total hs fpr) as (b' & Eb' & Hwf & _).
    rewrite Eb in Eb'. injection Eb' as <-. by apply may_contain_total.
  - intros e He. unfold may_contain. cbn. destruct Hbl as [->|(hs & fpr & b & Ehs & -> & Eb)]; [done|]. destruct (build_filter_total hs fpr) as (b' & Eb' & _ & Hf).
    rewrite Eb in Eb'. injection Eb' as <-. apply Hf. rewrite (ta_hashes _ _ _ _ Hy) in Ehs. destruct Hh as [->| ->]; [done|]. cbn in Ehs. injection Ehs as <-.
    rewrite <- Em in He. apply list_elem_of_fmap in He as (st & -> & Hst). apply list_elem_of_fmap. by exists st.
  - intros e He. rewrite M3. destruct (ta_max _ _ _ _ Hy) as (_ & Hmx & _). rewrite <- Em in He. apply list_elem_of_fmap in He as (st & -> & Hst). by apply Hmx.
  - cbn [r_min_key r_max_key]. rewrite M1, M2, M5. split; [done|]. split; [|done]. rewrite (ta_last _ _ _ _ Hy), <- Efl.
    pose proof (ti_last _ _ _ _ _ _ _ _ Hti) as Hl. destruct (last (map snd ps)); [done|]. rewrite Hl.
    rewrite (ta_min _ _ _ _ Hy), <- Efl, Hl. done.
Qed.
End Table.

(** ** What the catalog is told of a table *)

Section Meta.
Context (checksum : list byte -> Z) `{Codecs} (xxh3 : list byte -> Z) {F : Type} (bloom_sizing : Z -> F -> Z * Z).
Implicit Types (o : WriterOptions F) (w : Writer).

Definition same_tally w w' : Prop := w_tally w' = w_tally w /\ w_range_fragments w' = w_range_fragments w.

Lemma flush_tally w w' : flush_block checksum w = Ok w' -> same_tally w w'.
Proof.
  unfold flush_block. destruct (_ =? 0)%nat; [by intros [= <-]|]. intros ([k h] & _ & [= <-])%bind_inv. done.
Qed.

Lemma settle_tally o k w : same_tally w (settle_pending_index o k w).
Proof. unfold settle_pending_index. by destruct (w_pending_index w). Qed.

Lemma cut_tally o alg k w w' : cut_for_rule checksum o alg k w = Ok w' -> same_tally w w'.
Proof.
  unfold cut_for_rule. intros (w1 & H1 & [= <-])%bind_inv.
  assert (same_tally w w1) as [E1 E2].
  { destruct (_ && _); [|by injection H1 as <-]. apply bind_inv in H1 as (w2 & [E1 E2]%flush_tally & [= <-]).
    destruct (settle_tally o k w2) as [E3 E4]. split; congruence. }
  unfold same_tally. destruct (length (cur_block (w_cur w1)) =? 0)%nat; by rewrite <- E1, <- E2.
Qed.

(** Adding an entry counts it. *)
Lemma add_tally o k v seq ttl kind w w' : add checksum xxh3 o k v seq ttl kind w = Ok w' ->
  exists e, s_key e = k /\ w_tally w' = count_entry xxh3 e (w_tally w) /\ w_range_fragments w' = w_range_fragments w.
Proof.
  unfold add. intros (u & _ & Hr)%bind_inv. apply bind_inv in Hr as (u' & _ & Hr). apply bind_inv in Hr as (w1 & [E1 E2]%cut_tally & Hr).
  apply bind_inv in Hr as ([[l h] off] & _ & Hr). destruct (settle_tally o k w) as [E3 E4]. rewrite E3 in E1. rewrite E4 in E2.
  eexists. split; [|destruct (_ <=? _); [apply flush_tally in Hr as [-> ->]|injection Hr as <-]; cbn; rewrite E1, E2; done]. done.
Qed.

Lemma add_all_tally o es w w' : add_all checksum xxh3 o es w = Ok w' ->
  exists sts, map s_key sts = map e_key es /\ w_tally w' = fold_left (fun y e => count_entry xxh3 e y) sts (w_tally w) /\
    w_range_fragments w' = w_range_fragments w.
Proof.
  revert w. induction es as [|e es IH]; intros w; cbn [add_all].
  - intros [= <-]. by exists [].
  - intros (w1 & (st & Ek & E1 & E2)%add_tally & (sts & Es & E3 & E4)%IH)%bind_inv. exists (st :: sts).
    cbn. rewrite Ek, Es. split; [done|]. rewrite E3, E4, E1, E2. done.
Qed.

(** The bounds, the count and the range summary of a finished table are those of what it was given. *)
Lemma write_table_meta o es frags t :
  write_table checksum xxh3 bloom_sizing o es frags = Ok t ->
  fm_min_key (tf_meta t) = default [] (e_key <$> head es) /\ fm_max_key (tf_meta t) = default [] (e_key <$> last es) /\
  fm_num_entries (tf_meta t) = Z.of_nat (length es) /\ fm_range (tf_meta t) = summarize frags.
Proof.
  unfold write_table, writer_new. intros ([o' w] & Hn & Hr)%bind_inv. apply bind_inv in Hn as (u & _ & [= <- <-]).
  set (o' := mkWriterOptions F _ _ _ _ _ _ _ _ _ _ _) in *. set (hashes := if _ && _ then _ else _) in *.
  apply bind_inv in Hr as (w1 & (sts & Es & Ey & Ef)%add_all_tally & Hf). cbn in Ey, Ef.
  unfold finish in Hf. apply bind_inv in Hf as (w2 & H2 & Hf).
  assert (same_tally w1 w2) as [E1 E2] by (destruct (w_pending_block w1); [by apply flush_tally|by injection H2 as <-]).
  apply bind_inv in Hf as ([k1 b] & _ & Hf). apply bind_inv in Hf as ([k2 ax] & _ & Hf). apply bind_inv in Hf as ([k3 ih] & _ & [= <-]).
  cbn [tf_meta fm_min_key fm_max_key fm_num_entries fm_range]. rewrite E1, E2, Ef, Ey.
  destruct (tally_of_ok xxh3 hashes sts) as [T1 T2 T3 _ _ _]. unfold tally_of, tally0 in *. rewrite T1, T2, T3.
  assert (length sts = length es) as -> by by rewrite <- (length_map s_key), Es, length_map.
  split; [destruct sts, es; by inv Es|]. split; [|done]. unfold last_key.
  assert (s_key <$> last sts = e_key <$> last es) as E by (rewrite <- !fmap_last; by apply (f_equal last)).
  by destruct (last sts), (last es); simplify_eq/=.
Qed.
End Meta.

(** ** Properties *)

(** What a lookup uses of an opened table, as [ReadPath] sees it. *)
Definition table_view (xxh3 : list byte -> Z) (r : Reader) (m : SstMeta) (es : list Entry) : Table :=
  mkTable m es (fun k => match may_contain xxh3 r k with Some b => b | None => false end) (r_fragments r).

(** What a table may be written from. *)
Record table_input {F} (o : WriterOptions F) (es : list Entry) (frags : list Fragment) : Prop := {
  tn_order : TotalOrder (o_cmp o);
  tn_interval : o_restart_interval o <> 0%nat;
  tn_sorted : run_sorted (o_cmp o) es;
  tn_entries : Forall (entry_in o) es;
  tn_frags : frags_storable o frags;
  tn_extended : frags <> [] -> extended o = true;
  tn_size : table_size es + 128 < 2 ^ 32;
}.

(** What the writer leaves, under the options it settles on. *)
Lemma write_table_spec (checksum : list byte -> Z) `{Codecs} (xxh3 : list byte -> Z) {F : Type} (bloom_sizing : Z -> F -> Z * Z)
    (o : WriterOptions F) (es : list Entry) (frags : list Fragment) :
  (forall b, is_u32 (checksum b)) -> CodecsInvert -> CodecsTotal -> table_input o es frags ->
  exists t o', o_cmp o' = o_cmp o /\ o_restart_interval o' = o_restart_interval o /\ write_table checksum xxh3 bloom_sizing o es frags = Ok t /\
    (zlen (tf_klog t) < 2 ^ 64 -> (forall l, tf_vlog t = Some l -> zlen l < 2 ^ 64) ->
     exists r ps, open_table checksum (o_cmp o) (tf_klog t) = Ok r /\ r_fragments r = frags /\ table_blocks checksum (F := F) o' r (tf_vlog t) ps es /\
       (forall k, exists b, may_contain xxh3 r k = Some b) /\ (forall e, e ∈ es -> may_contain xxh3 r (e_key e) = Some true) /\
       (forall e, e ∈ es -> e_seq e <= fm_max_seq (tf_meta t)) /\
       r_min_key r = fm_min_key (tf_meta t) /\ r_max_key r = fm_max_key (tf_meta t) /\ fm_range (tf_meta t) = summarize frags).
Proof.
  intros Hck Hci Hct [HT Hn Hs Hin Hfs Hx Hsz]. unfold write_table, writer_new.
  destruct (Nat.eqb_spec (o_restart_interval o) 0); [done|]. cbn [negb guard rbind].
  set (o' := mkWriterOptions F _ _ _ _ _ _ _ _ _ _ _). set (hashes := if _ && _ then _ else _).
  destruct (table_spec checksum Hck xxh3 bloom_sizing o' hashes frags es (set_range_fragments frags (mkWriter [] None (mkBuilding [] (o_compression o') [] [] 0) [] None
              (tally0 hashes) false []))) as (t & E & Ht).
  - split; try done. split; [done|]. intros e He. by apply elem_of_nil in He.
  - unfold hashes. destruct (_ && _); auto.
  - done.
  - eapply Forall_impl; [exact Hin|]. intros e [? ? ? ? ? ? ?]. by split.
  - done.
  - done.
  - done.
  - exists t, o'. split; [done|]. split; [done|]. split; [exact E|exact Ht].
Qed.

(** C7: A table is the sorted run it was written from.  For every writer
    configuration - base, extended or prefix-delta entries, any block size,
    restart interval, value threshold and compression rules, flat or tree index,
    with or without a filter - writing a sorted run of entries and its range
    fragments succeeds, and the files, unless longer than a 64-bit offset,
    open.  Through the mapping or through reads, every lookup in the opened
    table returns what the run itself returns: the shortened separators route it
    to the right block, the restart points skip nothing, the value log gives
    every value back, and the filter never changes an answer.  The table meets
    what the read path asks of one. *)
Theorem table_refines_run (checksum : list byte -> Z) `{Codecs} (xxh3 : list byte -> Z) {F : Type} (bloom_sizing : Z -> F -> Z * Z)
    (o : WriterOptions F) (es : list Entry) (frags : list Fragment) :
  (forall b, is_u32 (checksum b)) -> CodecsInvert -> CodecsTotal -> table_input o es frags ->
  exists t, write_table checksum xxh3 bloom_sizing o es frags = Ok t /\
    (zlen (tf_klog t) < 2 ^ 64 -> (forall l, tf_vlog t = Some l -> zlen l < 2 ^ 64) ->
     exists r, open_table checksum (o_cmp o) (tf_klog t) = Ok r /\
       (forall mmap k s now, table_get checksum xxh3 mmap r (tf_vlog t) k s now = Some (get_unfiltered (o_cmp o) es k s now)) /\
       r_fragments r = frags /\ r_min_key r = fm_min_key (tf_meta t) /\ r_max_key r = fm_max_key (tf_meta t) /\
       forall sst_id lvl, operands_unexpiring es -> table_ok (o_cmp o) (table_view xxh3 r (to_sst_meta (tf_meta t) sst_id lvl) es)).
Proof.
  intros Hck Hci Hct Hti. destruct (write_table_spec checksum xxh3 bloom_sizing o es frags Hck Hci Hct Hti) as (t & o' & Ec & _ & E & Ht). destruct Hti as [HT Hn Hs Hin Hfs Hx Hsz].
  exists t. split; [exact E|]. intros Hk Hv. destruct (Ht Hk Hv) as (r & ps & Er & Hfr & Htb & Hmt & Hmc & Hms & Hmin & Hmax & Hrg). exists r. split; [done|].
  split; [|split; [done|]; split; [done|]; split; [done|]].
  - intros mmap k s now. assert (table_get_unfiltered checksum mmap r (tf_vlog t) k s now = get_unfiltered (o_cmp o) es k s now) as Hget.
    { rewrite <- Ec in *. apply (lookup_spec checksum Hck o' mmap r (tf_vlog t) ps); try done. lia. }
    unfold table_get. destruct (Hmt k) as [b Eb]. rewrite Eb. destruct b; [by rewrite Hget|].
    rewrite (get_unfiltered_absent o); [done|]. intros e He <-. by rewrite (Hmc e He) in Eb.
  - intros sst_id lvl Hop. split; cbn; try done.
    + rewrite Forall_forall in *. intros e He. by apply Hin.
    + intros e He. by rewrite (Hmc e He).
    + rewrite Hfr. apply Hfs.
    + unfold meta_has_ranges. cbn. rewrite Hrg, Hfr. unfold summarize. cbn. destruct frags; [done|]. cbn. intros E0. apply Z.ltb_ge in E0. lia.
Qed.

(** Libraries that leave their input as it is. *)
Definition plain_codecs : Codecs := Build_Codecs Ok Ok (fun s => s) (fun s _ => Ok s) Ok (fun s _ => Ok s) Ok Ok.

(** Prefix-delta entries, one block each, a tree index, a filter and separated values. *)
Definition sample_options : WriterOptions unit := mkWriterOptions unit Snappy [mkRule [x62] Zstd] Bytewise true (Some tt) 2 1 true 2 true true.
Definition sample_entries : list Entry :=
  [mkEntry [x61] 5 KIND_PUT 0 [x76] true; mkEntry [x61] 3 KIND_DELETE 0 [] true; mkEntry [x62; x63] 9 KIND_MERGE 0 [x77; x78; x79] true].
Definition sample_fragments : list Fragment := [mkFragment [x61] [x63] [4; 2]].

Lemma sample_input : table_input sample_options sample_entries sample_fragments.
Proof.
  split; [apply _|done| | | |done|by vm_compute].
  - repeat first [apply SSorted_nil|apply SSorted_cons|apply List.Forall_nil|apply List.Forall_cons]; first [by left|right; split; [done|cbn; lia]].
  - repeat constructor; cbn; try done; unfold is_len, is_u64, is_i64, U32_MAX, zlen; cbn; lia.
  - split; [split; repeat constructor; cbn; done|]. split; [repeat constructor; cbn; unfold is_u64, is_len; cbn; lia || done|]. split; [by split|by vm_compute].
Qed.

Lemma table_refines_run_witness :
  exists t r, write_table (H := plain_codecs) (fun _ => 0) zlen (fun n (_ : unit) => (10 * n, 4)) sample_options sample_entries sample_fragments = Ok t /\
    open_table (H := plain_codecs) (fun _ => 0) Bytewise (tf_klog t) = Ok r /\ r_fragments r = sample_fragments /\
    table_get (H := plain_codecs) (fun _ => 0) zlen true r (tf_vlog t) [x62; x63] 20 0 = Some (Ok (mkLookup (Some [x77; x78; x79]) 9 true false KIND_MERGE)).
Proof.
  destruct (table_refines_run (H := plain_codecs) (fun _ => 0) zlen (fun n (_ : unit) => (10 * n, 4)) sample_options sample_entries sample_fragments)
    as (t & E & Ht).
  - intros b. by split.
  - split; cbn; intros; congruence.
  - split; cbn; eauto.
  - apply sample_input.
  - assert (zlen (tf_klog t) < 2 ^ 64 /\ forall l, tf_vlog t = Some l -> zlen l < 2 ^ 64) as [Hk Hv].
    { pose proof E as E'. vm_compute in E'. injection E' as <-. split; [by vm_compute|]. intros l [= <-]. by vm_compute. }
    destruct (Ht Hk Hv) as (r & Er & Hget & Hf & _). exists t, r. split; [done|]. split; [done|]. split; [done|]. by rewrite Hget.
Defined.
