(* ===== verification/SstIter.v ===== *)
(** * SstIter: iterating a table (sst/iter.rs)

    [SstIterator] walks the blocks of an open table in both directions.  Blocks
    of base and extended entries are walked by entry offsets; blocks of
    prefix-delta entries by their restart runs, one of which is held decoded
    ([RunCursor]) with its keys in an arena, or without them when they outgrow
    it.

    The iterator is a [Cursor]: over a table whose blocks hold a sorted run it
    moves as a cursor over that run, and when a block does not read it fails and
    says so.  [table_iterator_refines_run] composes this with the writer and the
    reader: any use of an iterator over a written table, a part of which may
    since have become unreadable, shows what the run it was written from shows,
    or an error. *)

From Stdlib Require Import ZArith Lia Sorted.
From Stdlib.Strings Require Import Byte.
From stdpp Require Import base list sorting.
From S2P Require Import Prelude Encoding Codec Comparator Format Bloom Block SstEntry Manifest RangeTombstone ReadPath Cursor MemIter DataBlock TableWriter TableReader SstTable.

Open Scope Z_scope.

Definition MIN_RUN_ARENA_BYTES : nat := Z.to_nat (Z.shiftl 64 10).

(** [as u32]. *)
Definition as_u32 (n : nat) : nat := Z.to_nat (Z.of_nat n mod 2 ^ 32).

(** ** One decoded run *)

Record RunCursor := mkRun {
  rc_at : option (Z * nat);
  rc_starts : list nat;
  rc_seqs : list Z;
  rc_keys : list byte;
  rc_key_ends : list nat;
  rc_scratch : key;
  rc_overflowed : bool;
  rc_overflows : Z;
}.

Definition run_default : RunCursor := mkRun None [] [] [] [] [] false 0.

Definition run_reset (rc : RunCursor) : RunCursor := mkRun None [] [] [] [] (rc_scratch rc) false (rc_overflows rc).

Definition key_span (rc : RunCursor) (i : nat) : option (nat * nat) :=
  if rc_overflowed rc then None
  else
    match rc_key_ends rc !! i with
    | None => None
    | Some e => Some (match i with O => 0%nat | S i => nth i (rc_key_ends rc) 0%nat end, e)
    end.

(** An entry at [off] with the key now in [scratch] joins the run. *)
Definition run_push (bound : nat) (off : nat) (seq : Z) (scratch : key) (rc : RunCursor) : RunCursor :=
  let starts := rc_starts rc ++ [as_u32 off] in
  let seqs := rc_seqs rc ++ [seq] in
  if rc_overflowed rc then mkRun (rc_at rc) starts seqs (rc_keys rc) (rc_key_ends rc) scratch true (rc_overflows rc)
  else if (bound <? length (rc_keys rc) + length scratch)%nat then
    mkRun (rc_at rc) starts seqs [] [] scratch true (rc_overflows rc + 1)
  else
    let keys := rc_keys rc ++ scratch in
    mkRun (rc_at rc) starts seqs keys (rc_key_ends rc ++ [as_u32 (length keys)]) scratch false (rc_overflows rc).

(** The loop of [materialize] and the offset it ends at.  An entry takes at
    least a byte, so the length of the entries is fuel enough. *)
Fixpoint materialize_loop (fuel : nat) (entries : list byte) (stop bound : nat) (bytewise : bool) (off : nat) (rc : RunCursor)
    : RunCursor * result nat :=
  if (off <? stop)%nat then
    match fuel with
    | O => (rc, Ok off)
    | S fuel =>
        match decode_entry_delta entries off (rc_scratch rc) bytewise with
        | Err e => (rc, Err e)
        | Ok (entry, next, scratch) =>
            materialize_loop fuel entries stop bound bytewise next (run_push bound off (d_seq entry) scratch rc)
        end
    end
  else (rc, Ok off).

Definition run_clear_scratch (rc : RunCursor) : RunCursor :=
  mkRun (rc_at rc) (rc_starts rc) (rc_seqs rc) (rc_keys rc) (rc_key_ends rc) [] (rc_overflowed rc) (rc_overflows rc).

Definition run_set_at (at_ : option (Z * nat)) (rc : RunCursor) : RunCursor :=
  mkRun at_ (rc_starts rc) (rc_seqs rc) (rc_keys rc) (rc_key_ends rc) (rc_scratch rc) (rc_overflowed rc) (rc_overflows rc).

Definition materialize (block : Z) (run : nat) (entries : list byte) (start stop bound : nat) (bytewise : bool) (rc : RunCursor)
    : RunCursor * result unit :=
  let rc := run_clear_scratch (run_reset rc) in
  match (if (start <? stop)%nat then let? _ := decode_delta_anchor entries start in Ok tt else Ok tt) with
  | Err e => (rc, Err e)
  | Ok _ =>
      match materialize_loop (length entries) entries stop bound bytewise start rc with
      | (rc, Err e) => (rc, Err e)
      | (rc, Ok off) => if negb (off =? stop)%nat then (rc, Err Corruption) else (run_set_at (Some (block, run)) rc, Ok tt)
      end
  end.

(** ** The iterator *)

(** The fields of [SstIterator] that change; the reader, and the two flags
    cached from it, are arguments. *)
Record SstState := mkSst {
  si_block_idx : Z;
  si_raw : option (list byte);
  si_entries_len : nat;
  si_offsets : list nat;
  si_pos : Z;
  si_cur : option DecEntry;
  si_cur_pfx : Z;
  si_cur_next : nat;
  si_valid : bool;
  si_err : option OndaError;
  si_key_buf : key;
  si_restarts : list nat;
  si_run_idx : nat;
  si_run_pos : nat;
  si_run : RunCursor;
}.

Definition sst_state_new : SstState := mkSst (-1) None 0 [] (-1) None 0 0 false None [] [] 0 0 run_default.

(** Assignments to fields. *)
Definition with_raw (raw : option (list byte)) (st : SstState) : SstState :=
  mkSst (si_block_idx st) raw (si_entries_len st) (si_offsets st) (si_pos st) (si_cur st) (si_cur_pfx st) (si_cur_next st) (si_valid st)
    (si_err st) (si_key_buf st) (si_restarts st) (si_run_idx st) (si_run_pos st) (si_run st).
Definition with_block (idx : Z) (len : nat) (offsets restarts : list nat) (run : RunCursor) (st : SstState) : SstState :=
  mkSst idx (si_raw st) len offsets (si_pos st) (si_cur st) (si_cur_pfx st) (si_cur_next st) (si_valid st)
    (si_err st) (si_key_buf st) restarts (si_run_idx st) (si_run_pos st) run.
Definition with_offsets (offsets : list nat) (pos : Z) (st : SstState) : SstState :=
  mkSst (si_block_idx st) (si_raw st) (si_entries_len st) offsets pos (si_cur st) (si_cur_pfx st) (si_cur_next st) (si_valid st)
    (si_err st) (si_key_buf st) (si_restarts st) (si_run_idx st) (si_run_pos st) (si_run st).
Definition with_run (run : RunCursor) (st : SstState) : SstState :=
  mkSst (si_block_idx st) (si_raw st) (si_entries_len st) (si_offsets st) (si_pos st) (si_cur st) (si_cur_pfx st) (si_cur_next st) (si_valid st)
    (si_err st) (si_key_buf st) (si_restarts st) (si_run_idx st) (si_run_pos st) run.
Definition with_place (run_idx run_pos : nat) (st : SstState) : SstState :=
  mkSst (si_block_idx st) (si_raw st) (si_entries_len st) (si_offsets st) (si_pos st) (si_cur st) (si_cur_pfx st) (si_cur_next st) (si_valid st)
    (si_err st) (si_key_buf st) (si_restarts st) run_idx run_pos (si_run st).
Definition with_key (k : key) (st : SstState) : SstState :=
  mkSst (si_block_idx st) (si_raw st) (si_entries_len st) (si_offsets st) (si_pos st) (si_cur st) (si_cur_pfx st) (si_cur_next st) (si_valid st)
    (si_err st) k (si_restarts st) (si_run_idx st) (si_run_pos st) (si_run st).
Definition with_err (e : OndaError) (st : SstState) : SstState :=
  mkSst (si_block_idx st) (si_raw st) (si_entries_len st) (si_offsets st) (si_pos st) (si_cur st) (si_cur_pfx st) (si_cur_next st) (si_valid st)
    (Some e) (si_key_buf st) (si_restarts st) (si_run_idx st) (si_run_pos st) (si_run st).
Definition invalid (st : SstState) : SstState :=
  mkSst (si_block_idx st) (si_raw st) (si_entries_len st) (si_offsets st) (si_pos st) (si_cur st) (si_cur_pfx st) (si_cur_next st) false
    (si_err st) (si_key_buf st) (si_restarts st) (si_run_idx st) (si_run_pos st) (si_run st).

(** A decoded entry becomes the current one. *)
Definition publish (entry : DecEntry) (user_key : key) (next : nat) (st : SstState) : SstState :=
  mkSst (si_block_idx st) (si_raw st) (si_entries_len st) (si_offsets st) (si_pos st) (Some entry) (key_prefix8 user_key) next true
    (si_err st) (si_key_buf st) (si_restarts st) (si_run_idx st) (si_run_pos st) (si_run st).

Definition failed_with (e : OndaError) (st : SstState) : SstState := invalid (with_err e st).

(** [raw.as_ref().unwrap().bytes()], and its entries region. *)
Definition raw_bytes (st : SstState) : list byte := default [] (si_raw st).
Definition entries_region (st : SstState) : list byte := take (si_entries_len st) (raw_bytes st).

(** The restart array, decoded. *)
Definition restart_list (restarts : list byte) : list nat := map (restart_off restarts) (List.seq 0 (length restarts / 4)).

Section Iter.
Context (checksum : list byte -> Z) `{Codecs} (mmap : bool) (r : Reader) (vlog : option (list byte)).

Definition num_blocks : nat := length (r_index r).

(** [read_data_block] of a block number; the callers keep it in range. *)
Definition read_block_no (i : nat) : result (list byte) :=
  match r_index r !! i with
  | Some e => read_data_block checksum mmap r (ie_handle e)
  | None => Err Io
  end.

(** The offsets of all entries of a block, up to the first that does not decode. *)
Fixpoint block_offsets (fuel : nat) (raw : list byte) (entries_len off : nat) : list nat * option OndaError :=
  if (off <? entries_len)%nat then
    match fuel with
    | O => ([], None)
    | S fuel =>
        match decode_entry raw (r_layout r) off with
        | Ok (_, next) => let '(offs, e) := block_offsets fuel raw entries_len next in (as_u32 off :: offs, e)
        | Err e => ([], Some e)
        end
    end
  else ([], None).

Definition load_block (i : Z) (full : bool) (st : SstState) : SstState * bool :=
  if (i <? 0) || (Z.of_nat num_blocks <=? i) then
    (invalid (with_raw None (with_block (si_block_idx st) (si_entries_len st) [] [] (run_reset (si_run st)) st)), false)
  else
    match read_block_no (Z.to_nat i) with
    | Err e => (failed_with e (with_raw None st), false)
    | Ok raw =>
        match split_block (r_prefix_delta r) raw with
        | Err e => (failed_with e (with_raw None (with_block (si_block_idx st) (si_entries_len st) (si_offsets st) [] (si_run st) st)), false)
        | Ok (entries, restarts) =>
            let restarts := if r_prefix_delta r then restart_list restarts else [] in
            let st := with_block i (length entries) [] restarts (run_reset (si_run st)) st in
            if full && negb (r_prefix_delta r) then
              match block_offsets (length entries) raw (length entries) 0 with
              | (offs, None) => (with_raw (Some raw) (with_offsets offs (si_pos st) st), true)
              | (offs, Some e) => (with_raw (Some raw) (with_err e (with_offsets offs (si_pos st) st)), false)
              end
            else (with_raw (Some raw) st, true)
        end
    end.

Definition decode_at (off : nat) (st : SstState) : SstState :=
  let raw := raw_bytes st in
  match decode_entry raw (r_layout r) off with
  | Ok (e, next) => publish e (stored_key raw e) next st
  | Err e => failed_with e st
  end.

Definition sst_valid (st : SstState) : bool := si_valid st && match si_err st with None => true | Some _ => false end.

(** ** Runs of a prefix-delta block *)

Definition run_range (run : nat) (st : SstState) : nat * nat :=
  (nth run (si_restarts st) 0%nat, default (si_entries_len st) (si_restarts st !! S run)).

Definition ensure_run (run : nat) (st : SstState) : SstState * bool :=
  if bool_decide (rc_at (si_run st) = Some (si_block_idx st, run)) then (st, true)
  else if (length (si_restarts st) <=? run)%nat then (invalid st, false)
  else
    let '(start, stop) := run_range run st in
    let bound := Nat.max MIN_RUN_ARENA_BYTES (2 * si_entries_len st) in
    match materialize (si_block_idx st) run (entries_region st) start stop bound (is_bytewise (r_cmp r)) (si_run st) with
    | (rc, Ok _) => (with_run rc st, true)
    | (rc, Err e) => (failed_with e (with_run rc st), false)
    end.

Definition step_delta (off : nat) (st : SstState) : SstState :=
  match decode_entry_delta (entries_region st) off (si_key_buf st) (is_bytewise (r_cmp r)) with
  | Ok (e, next, k) => publish e k next (with_key k st)
  | Err e => failed_with e st
  end.

(** [n] steps from [off]; [false] when one fails. *)
Fixpoint walk_run (n off : nat) (st : SstState) : SstState * bool :=
  match n with
  | O => (st, true)
  | S n => let st := step_delta off st in if si_valid st then walk_run n (si_cur_next st) st else (st, false)
  end.

Definition position_in_run (run i : nat) (st : SstState) : SstState :=
  match rc_starts (si_run st) !! i with
  | None => invalid st
  | Some off =>
      match key_span (si_run st) i with
      | Some (ks, ke) =>
          let k := slice (rc_keys (si_run st)) ks ke in
          let st := with_key k st in
          with_place run i
            match decode_delta_header (entries_region st) off with
            | Ok (e, next) => publish e k next st
            | Err e => failed_with e st
            end
      | None =>
          match walk_run (S i) (nth 0 (rc_starts (si_run st)) 0%nat) (with_key [] st) with
          | (st, true) => with_place run i st
          | (st, false) => st
          end
      end
  end.

Definition target_lt (user_key : key) (seq : Z) (k : key) (s : Z) : bool := is_lt (cmp_internal (r_cmp r) k s user_key seq).

(** The walk of an overflowed run: [n] entries left, the next is entry [i] at [off]. *)
Fixpoint find_walk (user_key : key) (seq : Z) (n i off : nat) (st : SstState) : SstState * option nat :=
  match n with
  | O => (st, None)
  | S n =>
      let st := step_delta off st in
      if negb (si_valid st) then (st, None)
      else if negb (target_lt user_key seq (si_key_buf st) (default 0 (d_seq <$> si_cur st))) then (st, Some i)
      else find_walk user_key seq n (S i) (si_cur_next st) st
  end.

Definition find_in_run (user_key : key) (seq : Z) (st : SstState) : SstState * option nat :=
  let run := si_run st in
  let n := length (rc_starts run) in
  if rc_overflowed run then find_walk user_key seq n 0 (nth 0 (rc_starts run) 0%nat) (with_key [] st)
  else
    let lo := bsearch (fun mid => match key_span run mid with
                                  | Some (ks, ke) => target_lt user_key seq (slice (rc_keys run) ks ke) (nth mid (rc_seqs run) 0)
                                  | None => false
                                  end) (List.seq 0 n) n 0 n in
    (st, if (lo <? n)%nat then Some lo else None).

(** ** Entering a block *)

Definition enter_block_start (st : SstState) : SstState :=
  if r_prefix_delta r then step_delta 0 (with_key [] (with_place 0 0 st))
  else decode_at 0 (with_offsets [0%nat] 0 st).

Definition enter_block_end (st : SstState) : SstState :=
  match length (si_restarts st) with
  | O => invalid st
  | S last_run =>
      match ensure_run last_run st with
      | (st, false) => st
      | (st, true) => match length (rc_starts (si_run st)) with O => invalid st | S last => position_in_run last_run last st end
      end
  end.

(** The last entry of a block of offsets. *)
Definition enter_last_offset (st : SstState) : SstState :=
  match length (si_offsets st) with
  | O => invalid st
  | S last => decode_at (nth last (si_offsets st) 0%nat) (with_offsets (si_offsets st) (Z.of_nat last) st)
  end.

Definition enter_next_block (i : Z) (st : SstState) : SstState :=
  match load_block (i + 1) false st with
  | (st, true) => enter_block_start st
  | (st, false) => invalid st
  end.

(** ** Positioning *)

Definition sst_seek_to_first (st : SstState) : SstState :=
  match load_block 0 false st with (st, false) => st | (st, true) => enter_block_start st end.

Definition sst_seek_to_last (st : SstState) : SstState :=
  let last := Z.of_nat num_blocks - 1 in
  if r_prefix_delta r then match load_block last false st with (st, false) => st | (st, true) => enter_block_end st end
  else match load_block last true st with (st, false) => st | (st, true) => enter_last_offset st end.

Definition seek_delta (bi : Z) (user_key : key) (seq : Z) (st : SstState) : SstState :=
  match load_block bi false st with
  | (st, false) => st
  | (st, true) =>
      let count := length (si_restarts st) in
      match restart_lower_bound count (fun i =>
              let? (e, _) := decode_delta_anchor (entries_region st) (nth i (si_restarts st) 0%nat) in
              Ok (target_lt user_key seq (stored_key (entries_region st) e) (d_seq e))) with
      | Err e => failed_with e st
      | Ok lower =>
          let run := (lower - 1)%nat in
          if (count =? 0)%nat then invalid st
          else
            match ensure_run run st with
            | (st, false) => st
            | (st, true) =>
                match find_in_run user_key seq st with
                | (st, Some i) => position_in_run run i st
                | (st, None) =>
                    match si_err st with
                    | Some _ => st
                    | None =>
                        if (S run <? count)%nat then
                          match ensure_run (S run) st with (st, true) => position_in_run (S run) 0 st | (st, false) => st end
                        else enter_next_block bi st
                    end
                end
            end
      end
  end.

(** Every offset of a loaded block decodes. *)
Definition offset_lt (raw : list byte) (user_key : key) (seq : Z) (off : nat) : bool :=
  match decode_entry raw (r_layout r) off with
  | Ok (e, _) => target_lt user_key seq (stored_key raw e) (d_seq e)
  | Err _ => false
  end.

Definition sst_seek (user_key : key) (seq : Z) (st : SstState) : SstState :=
  let bi := find_block r user_key seq in
  if (num_blocks <=? bi)%nat then invalid st
  else if r_prefix_delta r then seek_delta (Z.of_nat bi) user_key seq st
  else
    match load_block (Z.of_nat bi) true st with
    | (st, false) => st
    | (st, true) =>
        let n := length (si_offsets st) in
        let lo := bsearch (offset_lt (raw_bytes st) user_key seq) (si_offsets st) n 0 n in
        if (n <=? lo)%nat then enter_next_block (Z.of_nat bi) st
        else decode_at (nth lo (si_offsets st) 0%nat) (with_offsets (si_offsets st) (Z.of_nat lo) st)
    end.

(** ** Stepping *)

Definition next_delta (st : SstState) : SstState :=
  if (si_entries_len st <=? si_cur_next st)%nat then enter_next_block (si_block_idx st) st
  else
    let off := si_cur_next st in
    let '(run, i) := match si_restarts st !! S (si_run_idx st) with
                     | Some anchor => if (anchor =? off)%nat then (S (si_run_idx st), 0%nat) else (si_run_idx st, S (si_run_pos st))
                     | None => (si_run_idx st, S (si_run_pos st))
                     end in
    let st := step_delta off st in
    if si_valid st then with_place run i st else st.

Definition sst_next (st : SstState) : SstState :=
  if negb (si_valid st) then st
  else if r_prefix_delta r then next_delta st
  else if si_pos st + 1 <? Z.of_nat (length (si_offsets st)) then
    decode_at (nth (Z.to_nat (si_pos st + 1)) (si_offsets st) 0%nat) (with_offsets (si_offsets st) (si_pos st + 1) st)
  else if (si_entries_len st <=? si_cur_next st)%nat then enter_next_block (si_block_idx st) st
  else decode_at (si_cur_next st) (with_offsets (si_offsets st ++ [as_u32 (si_cur_next st)]) (si_pos st + 1) st).

Definition prev_delta (st : SstState) : SstState :=
  match si_run_pos st with
  | S i =>
      let run := si_run_idx st in
      match ensure_run run st with (st, true) => position_in_run run i st | (st, false) => st end
  | O =>
      match si_run_idx st with
      | S run =>
          match ensure_run run st with
          | (st, false) => st
          | (st, true) => match length (rc_starts (si_run st)) with O => invalid st | S last => position_in_run run last st end
          end
      | O =>
          if 1 <=? si_block_idx st then
            match load_block (si_block_idx st - 1) false st with
            | (st, true) => enter_block_end st
            | (st, false) => invalid st
            end
          else invalid st
      end
  end.

Definition sst_prev (st : SstState) : SstState :=
  match si_err st, si_raw st with
  | None, Some _ =>
      if r_prefix_delta r then prev_delta st
      else if 0 <? si_pos st then
        decode_at (nth (Z.to_nat (si_pos st - 1)) (si_offsets st) 0%nat) (with_offsets (si_offsets st) (si_pos st - 1) st)
      else if 1 <=? si_block_idx st then
        match load_block (si_block_idx st - 1) true st with
        | (st, true) => enter_last_offset st
        | (st, false) => invalid st
        end
      else invalid st
  | _, _ => st
  end.

(** ** The current entry *)

Definition sst_user_key (st : SstState) : key :=
  if r_prefix_delta r then si_key_buf st
  else match si_cur st with Some e => stored_key (raw_bytes st) e | None => [] end.

Definition sst_value (st : SstState) : result (list byte) :=
  match si_cur st with
  | Some e => if d_has_vlog e then read_separated checksum vlog (d_vlog_off e) (val_len e) else Ok (inline_value (raw_bytes st) e)
  | None => Err Io
  end.

(** The entry as its accessors give it. *)
Definition sst_entry (st : SstState) : Entry :=
  match si_cur st with
  | Some e => mkEntry (sst_user_key st) (d_seq e) (d_kind e) (d_ttl e)
                (match sst_value st with Ok v => v | Err _ => [] end) (match sst_value st with Ok _ => true | Err _ => false end)
  | None => no_entry
  end.

Definition sst_seek_for_prev (user_key : key) (seq : Z) (st : SstState) : SstState :=
  let st := sst_seek user_key seq st in
  if negb (sst_valid st) then sst_seek_to_last st
  else if is_gt (cmp_internal (r_cmp r) (sst_user_key st) (default 0 (d_seq <$> si_cur st)) user_key seq) then sst_prev st
  else st.
End Iter.

(** ** As a child of a merge *)

Record SstIterator := mkSstIterator {
  it_mmap : bool;
  it_reader : Reader;
  it_vlog : option (list byte);
  it_state : SstState;
}.

Definition sst_new (mmap : bool) (r : Reader) (vlog : option (list byte)) : SstIterator := mkSstIterator mmap r vlog sst_state_new.

Definition it_with (f : SstState -> SstState) (it : SstIterator) : SstIterator :=
  mkSstIterator (it_mmap it) (it_reader it) (it_vlog it) (f (it_state it)).

Definition sst_ops (checksum : list byte -> Z) `{Codecs} : CursorOps SstIterator := {|
  cur_valid it := sst_valid (it_state it);
  cur_err it := si_err (it_state it);
  cur_entry it := sst_entry checksum (it_reader it) (it_vlog it) (it_state it);
  cur_first it := it_with (sst_seek_to_first checksum (it_mmap it) (it_reader it)) it;
  cur_last it := it_with (sst_seek_to_last checksum (it_mmap it) (it_reader it)) it;
  cur_next it := it_with (sst_next checksum (it_mmap it) (it_reader it)) it;
  cur_prev it := it_with (sst_prev checksum (it_mmap it) (it_reader it)) it;
  cur_ge k s it := it_with (sst_seek checksum (it_mmap it) (it_reader it) k s) it;
  cur_le k s it := it_with (sst_seek_for_prev checksum (it_mmap it) (it_reader it) k s) it;
|}.

(** ** Where the entries of a block are *)

Lemma as_u32_small n : Z.of_nat n < 2 ^ 32 -> as_u32 n = n.
Proof. intros Hn. unfold as_u32. rewrite Z.mod_small by lia. lia. Qed.

Lemma at_weaken x t p rest : at_ x p rest -> at_ (x ++ t) p (rest ++ t).
Proof. intros [Hp <-]. split; [rewrite length_app; lia|]. by rewrite drop_app_le. Qed.

(** What a decoded entry says, its key aside. *)
Record dec_shows (raw : list byte) (d : DecEntry) (e : Stored) : Prop := {
  ds_seq : d_seq d = s_seq e;
  ds_ttl : d_ttl d = s_ttl e;
  ds_kind : d_kind d = s_kind e;
  ds_vlog : d_has_vlog d = s_vlog e;
  ds_len : val_len d = zlen (s_value e);
  ds_inline : s_vlog e = false -> inline_value raw d = s_value e;
  ds_off : s_vlog e = true -> d_vlog_off d = s_off e;
}.

Lemma dec_shows_app raw t d e : dec_shows raw d e -> dec_shows (raw ++ t) d e.
Proof.
  intros [? ? ? ? Hl Hi ?]. split; try done. intros Hv. specialize (Hi Hv). unfold inline_value, slice in *. rewrite Hl in *.
  assert (length (s_value e) = length (take (val_start d + Z.to_nat (zlen (s_value e)) - val_start d) (drop (val_start d) raw))) as HL by by rewrite Hi.
  rewrite length_take, length_drop in HL. unfold zlen in *. destruct (decide (s_value e = [])) as [E|Hne].
  - rewrite E. cbn [length]. by rewrite Nat.add_0_r, Nat.sub_diag.
  - assert (0 < length (s_value e))%nat by (destruct (s_value e); [done|cbn; lia]). rewrite drop_app_le by lia. rewrite take_app_le; [done|]. rewrite length_drop. lia.
Qed.

Lemma dec_is_shows raw d n kb e :
  dec_is raw d n kb (s_value e) (s_seq e) (s_ttl e) (s_kind e) (s_vlog e) (s_off e) -> dec_shows raw d e.
Proof. by intros []. Qed.

Section Facts.
Context (cmp : Comparator) `{!TotalOrder cmp} (pd : bool) (lay : EntryLayout) (interval : nat).
Implicit Types (b : list Stored).

Abbreviation bytes b := (block_bytes pd lay interval 0 [] b).

Definition entry_off b (j : nat) : nat := length (bytes (take j b)).
Definition prev_key b (j : nat) : key := last_key [] (take j b).

Lemma prev_key_S b j e : b !! j = Some e -> prev_key b (S j) = s_key e.
Proof. intros E. unfold prev_key. by rewrite (take_S_r _ _ _ E), last_key_snoc. Qed.

Lemma entry_off_0 b : entry_off b 0 = 0%nat.
Proof. done. Qed.

Lemma entry_off_full b : entry_off b (length b) = length (bytes b).
Proof. unfold entry_off. by rewrite firstn_all. Qed.

Lemma bytes_split b j e : b !! j = Some e ->
  bytes b = bytes (take j b) ++ encode_stored pd lay [] (anchored interval j (prev_key b j)) e ++ block_bytes pd lay interval (S j) (s_key e) (drop (S j) b).
Proof.
  intros E. pose proof (lookup_lt_Some _ _ _ E). rewrite <- (take_drop_middle b j e E) at 1. rewrite block_bytes_app. cbn [block_bytes Nat.add].
  rewrite length_take, Nat.min_l by lia. done.
Qed.

Lemma entry_off_S b j e : b !! j = Some e ->
  entry_off b (S j) = (entry_off b j + length (encode_stored pd lay [] (anchored interval j (prev_key b j)) e))%nat.
Proof.
  intros E. pose proof (lookup_lt_Some _ _ _ E). unfold entry_off. rewrite (take_S_r _ _ _ E), block_bytes_app, length_app. cbn [block_bytes Nat.add].
  by rewrite app_nil_r, length_take, Nat.min_l by lia.
Qed.

Lemma entry_at b j e : b !! j = Some e ->
  at_ (bytes b) (entry_off b j)
    (encode_stored pd lay [] (anchored interval j (prev_key b j)) e ++ block_bytes pd lay interval (S j) (s_key e) (drop (S j) b)).
Proof. intros E. rewrite (bytes_split b j e E). apply at_app. Qed.

Lemma entry_off_lt b i j : (i < j <= length b)%nat -> (entry_off b i < entry_off b j)%nat.
Proof.
  assert (forall i, (i < length b)%nat -> (entry_off b i < entry_off b (S i))%nat) as Hone.
  { intros k Hk. destruct (lookup_lt_is_Some_2 b k Hk) as [e E]. rewrite (entry_off_S b k e E).
    pose proof (encode_stored_nonempty pd lay (anchored interval k (prev_key b k)) e). lia. }
  intros [Hij Hj]. induction Hij as [|j Hij IH]; [apply Hone; lia|]. specialize (IH ltac:(lia)). specialize (Hone j ltac:(lia)). lia.
Qed.

Lemma entry_off_bound b j : (j <= length b)%nat -> (entry_off b j <= length (bytes b))%nat.
Proof.
  intros Hj. rewrite <- entry_off_full. destruct (decide (j = length b)) as [->|]; [done|].
  pose proof (entry_off_lt b j (length b) ltac:(lia)). lia.
Qed.

(** ** Decoding *)

Context (b : list Stored) (b_ok : Forall (stored_ok pd lay) b) (b_sorted : run_sorted cmp (map entry_of b)).

Lemma base_decode j e t :
  pd = false -> b !! j = Some e ->
  exists d, decode_entry (bytes b ++ t) lay (entry_off b j) = Ok (d, entry_off b (S j)) /\ stored_key (bytes b ++ t) d = s_key e /\ dec_shows (bytes b ++ t) d e.
Proof.
  intros Hpd E. pose proof (at_weaken _ t _ _ (entry_at b j e E)) as Hat. rewrite (entry_off_S b j e E). rewrite <- app_assoc in Hat.
  pose proof (proj1 (Forall_lookup _ _) b_ok j e E) as Hok. unfold encode_stored, stored_ok in *. rewrite Hpd in *.
  destruct (decode_entry_enc _ _ lay _ _ _ _ _ _ _ _ Hok Hat) as (d & Ed & Hd). exists d. split; [exact Ed|]. split; [apply Hd|by eapply dec_is_shows].
Qed.

Lemma key_order j e : b !! j = Some e -> is_bytewise cmp = true -> slice_cmp (s_key e) (prev_key b j) <> Lt.
Proof.
  intros E Hb. destruct j as [|j]; [by destruct (s_key e)|]. destruct (lookup_lt_is_Some_2 b j) as [e' E']; [apply lookup_lt_Some in E; lia|].
  rewrite (prev_key_S b j e' E'). apply (sorted_next cmp e' e (drop (S (S j)) b)); [|done]. rewrite <- (drop_S b e (S j) E), <- (drop_S b e' j E').
  rewrite <- skipn_map. by apply StronglySorted_drop.
Qed.

Lemma delta_decode j e scratch t :
  pd = true -> b !! j = Some e -> scratch = prev_key b j \/ (scratch = [] /\ is_anchor interval j = true) ->
  exists d, decode_delta_header (bytes b) (entry_off b j) = Ok (d, entry_off b (S j)) /\ dec_shows (bytes b ++ t) d e /\
    decode_entry_delta (bytes b) (entry_off b j) scratch (is_bytewise cmp) = Ok (d, entry_off b (S j), s_key e).
Proof.
  intros Hpd E Hs. pose proof (entry_at b j e E) as Hat. rewrite (entry_off_S b j e E).
  pose proof (proj1 (Forall_lookup _ _) b_ok j e E) as Hok. unfold encode_stored, stored_ok in *. rewrite Hpd in *.
  destruct (decode_delta_header_enc _ _ _ _ _ _ _ _ _ _ _ Hok Hat) as (d & Ed & Hd). exists d. split; [exact Ed|].
  split; [by apply dec_shows_app; eapply dec_is_shows|].
  destruct (decode_entry_delta_enc (block_bytes true lay interval 0 [] b) (entry_off b j) (anchored interval j (prev_key b j)) scratch (is_bytewise cmp)
    (s_key e) (s_value e) (s_seq e) (s_ttl e) (s_kind e) (s_vlog e) (s_off e) (block_bytes true lay interval (S j) (s_key e) (drop (S j) b)) Hok)
    as (d' & n & kb & Ed' & _); [| |exact Hat|].
  - destruct Hs as [->|[-> Ha]]; unfold anchored; [destruct (is_anchor interval j); auto|rewrite Ha; auto].
  - destruct Hs as [->|[-> _]]; [by apply key_order|]. by destruct (s_key e).
  - assert (d' = d) as ->; [|exact Ed']. unfold decode_entry_delta in Ed'. rewrite Ed in Ed'. cbn [rbind] in Ed'.
    repeat match type of Ed' with context [guard ?c _] => destruct c; cbn [guard rbind] in Ed'; [|done] end. by injection Ed' as <-.
Qed.

Lemma anchor_decode j e :
  pd = true -> b !! j = Some e -> is_anchor interval j = true ->
  exists d n, decode_delta_anchor (bytes b) (entry_off b j) = Ok (d, n) /\ stored_key (bytes b) d = s_key e /\ d_seq d = s_seq e.
Proof.
  intros Hpd E Ha. pose proof (entry_at b j e E) as Hat. pose proof (proj1 (Forall_lookup _ _) b_ok j e E) as Hok.
  destruct (anchor_entry_enc pd lay interval (bytes b) (entry_off b j) j (prev_key b j) e _ Hok Ha Hat) as (d & n & Ed & Ek & Es).
  unfold anchor_entry in Ed. rewrite Hpd in *. eauto.
Qed.
End Facts.

(** ** Restart runs *)

Lemma restart_list_bytes rs : (forall o, o ∈ rs -> Z.of_nat o < 2 ^ 32) -> restart_list (restart_bytes rs) = rs.
Proof.
  intros Hs. unfold restart_list. rewrite restart_bytes_length, Nat.div_mul by lia. apply map_seq_lookup. intros i o E.
  apply restart_off_at; [done|]. by eapply Hs, list_elem_of_lookup_2.
Qed.

(** Where each of the keys ends when they are laid end to end. *)
Definition ends (ks : list key) : list nat := map (fun i => length (concat (take (S i) ks))) (List.seq 0 (length ks)).

Lemma ends_snoc ks k : ends (ks ++ [k]) = ends ks ++ [length (concat (ks ++ [k]))].
Proof.
  unfold ends. rewrite length_app, Nat.add_1_r, seq_S, map_app. cbn [map Nat.add]. f_equal.
  - apply map_ext_in. intros i Hi%in_seq. rewrite take_app_le by lia. done.
  - rewrite take_ge; [done|]. rewrite length_app. cbn. lia.
Qed.

Lemma ends_lookup ks i : (i < length ks)%nat -> ends ks !! i = Some (length (concat (take (S i) ks))).
Proof. intros Hi. unfold ends. by rewrite list_lookup_fmap, lookup_seq_lt. Qed.

Section Runs.
Context (cmp : Comparator) `{!TotalOrder cmp} (pd : bool) (lay : EntryLayout) (interval : nat) (interval_pos : (0 < interval)%nat).
Implicit Types (b : list Stored).

Abbreviation bytes b := (block_bytes pd lay interval 0 [] b).
Abbreviation offset b j := (entry_off pd lay interval b j).

Definition run_count (n : nat) : nat := ((n + (interval - 1)) / interval)%nat.
Definition run_of b (k : nat) : list Stored := take interval (drop (k * interval) b).

Lemma run_count_lt n k : (k < run_count n)%nat <-> (k * interval < n)%nat.
Proof.
  unfold run_count. split; intros Hk.
  - pose proof (Nat.Div0.mul_div_le (n + (interval - 1)) interval). nia.
  - assert (S k <= (n + (interval - 1)) / interval)%nat; [|lia]. apply Nat.div_le_lower_bound; nia.
Qed.

Lemma run_count_S n : run_count (S n) = (run_count n + if is_anchor interval n then 1 else 0)%nat.
Proof.
  unfold is_anchor. pose proof (Nat.div_mod_eq n interval) as Hn. pose proof (Nat.mod_upper_bound n interval ltac:(lia)).
  set (q := (n / interval)%nat) in *. destruct (Nat.eqb_spec (n mod interval) 0) as [E|E].
  - assert (run_count n = q) as -> by (unfold run_count; symmetry; apply (Nat.div_unique _ _ _ (interval - 1)); nia).
    unfold run_count. symmetry. apply (Nat.div_unique _ _ _ 0); nia.
  - assert (run_count n = S q) as -> by (unfold run_count; symmetry; apply (Nat.div_unique _ _ _ (n mod interval - 1)); nia).
    unfold run_count. symmetry. apply (Nat.div_unique _ _ _ (n mod interval)); nia.
Qed.

Lemma restart_offs_runs b : restart_offs pd lay interval 0 0 [] b = map (fun k => offset b (k * interval)) (List.seq 0 (run_count (length b))).
Proof.
  induction b as [|e b IH] using rev_ind; [cbn [restart_offs length]; unfold run_count; rewrite Nat.div_small by lia; done|].
  rewrite restart_offs_app, IH, length_app, Nat.add_1_r, run_count_S. cbn [restart_offs Nat.add]. rewrite app_nil_r, seq_app, map_app. f_equal.
  - apply map_ext_in. intros k Hk%in_seq. unfold entry_off. rewrite take_app_le; [done|]. assert (k * interval < length b)%nat by (apply run_count_lt; lia). lia.
  - destruct (is_anchor interval (length b)) eqn:Ea; [|done]. cbn [List.seq map Nat.add]. f_equal.
    unfold is_anchor in Ea. apply Nat.eqb_eq in Ea. pose proof (Nat.div_mod_eq (length b) interval).
    assert (run_count (length b) = length b / interval)%nat as -> by (unfold run_count; symmetry; apply (Nat.div_unique _ _ _ (interval - 1)); nia).
    assert (length b / interval * interval = length b)%nat as -> by nia. unfold entry_off. by rewrite take_app_length.
Qed.

Lemma restarts_lookup b k : (k * interval < length b)%nat -> restart_offs pd lay interval 0 0 [] b !! k = Some (offset b (k * interval)).
Proof. intros Hk. rewrite restart_offs_runs, list_lookup_fmap, lookup_seq_lt by (by apply run_count_lt). done. Qed.

Lemma restarts_length b : length (restart_offs pd lay interval 0 0 [] b) = run_count (length b).
Proof. by rewrite restart_offs_runs, length_map, length_seq. Qed.

Lemma run_of_lookup b k i : run_of b k !! i = if (i <? interval)%nat then b !! (k * interval + i)%nat else None.
Proof. unfold run_of. destruct (Nat.ltb_spec i interval); [by rewrite lookup_take_lt, lookup_drop|by rewrite lookup_take_ge]. Qed.

Lemma run_of_length b k : length (run_of b k) = Nat.min interval (length b - k * interval).
Proof. unfold run_of. by rewrite length_take, length_drop. Qed.

(** The end of a run is the next restart point, or the end of the entries. *)
Lemma run_end b k : (k * interval < length b)%nat ->
  default (length (bytes b)) (restart_offs pd lay interval 0 0 [] b !! S k) = offset b (k * interval + length (run_of b k)).
Proof.
  intros Hk. rewrite run_of_length. destruct (decide (S k * interval < length b)%nat) as [Hs|Hs].
  - rewrite restarts_lookup by done. cbn [default from_option]. unfold Datatypes.id. f_equal. cbn in *. lia.
  - rewrite lookup_ge_None_2; [|rewrite restarts_length; pose proof (run_count_lt (length b) (S k)); lia].
    cbn [default from_option]. rewrite <- entry_off_full. f_equal. cbn in *. lia.
Qed.

Lemma anchor_run k : is_anchor interval (k * interval) = true.
Proof. unfold is_anchor. by rewrite Nat.Div0.mod_mul. Qed.

(** ** A decoded run *)

(** The first [m] entries of run [k] are in [rc]. *)
Record run_holds b (k m : nat) (rc : RunCursor) : Prop := {
  rh_starts : rc_starts rc = map (fun i => offset b (k * interval + i)) (List.seq 0 m);
  rh_seqs : rc_seqs rc = map s_seq (take m (run_of b k));
  rh_keys : rc_overflowed rc = false ->
    rc_keys rc = concat (map s_key (take m (run_of b k))) /\ rc_key_ends rc = ends (map s_key (take m (run_of b k)));
}.

Lemma run_push_holds b k m rc e bound :
  Z.of_nat (length (bytes b)) < 2 ^ 32 -> Z.of_nat bound < 2 ^ 32 ->
  run_of b k !! m = Some e -> run_holds b k m rc ->
  run_holds b k (S m) (run_push bound (offset b (k * interval + m)) (s_seq e) (s_key e) rc).
Proof.
  intros Hb Hbd Ee [Hs Hq Hk]. assert (as_u32 (offset b (k * interval + m)) = offset b (k * interval + m)) as Eo.
  { apply as_u32_small. rewrite run_of_lookup in Ee. destruct (Nat.ltb_spec m interval); [|done]. apply lookup_lt_Some in Ee.
    pose proof (entry_off_bound pd lay interval b (k * interval + m) ltac:(lia)). lia. }
  unfold run_push. rewrite Eo, Hs, Hq.
  assert (forall a ks en ov n, (ov = false -> ks = concat (map s_key (take (S m) (run_of b k))) /\ en = ends (map s_key (take (S m) (run_of b k)))) ->
    run_holds b k (S m) (mkRun a (map (fun i => offset b (k * interval + i)) (List.seq 0 m) ++ [offset b (k * interval + m)])
      (map s_seq (take m (run_of b k)) ++ [s_seq e]) ks en (s_key e) ov n)) as Hmk.
  { intros a ks en ov n Hov. split; cbn [rc_starts rc_seqs rc_keys rc_key_ends rc_overflowed]; [|by rewrite (take_S_r _ _ _ Ee), map_app|done].
    by rewrite seq_S, map_app. }
  destruct (rc_overflowed rc); [by apply Hmk|]. destruct (Nat.ltb_spec bound (length (rc_keys rc) + length (s_key e))); [by apply Hmk|].
  apply Hmk. intros _. destruct (Hk eq_refl) as [-> ->]. rewrite (take_S_r _ _ _ Ee), map_app. cbn [map].
  rewrite ends_snoc, concat_app. cbn [concat]. rewrite app_nil_r. split; [done|]. do 2 f_equal. apply as_u32_small. rewrite length_app in *.
  destruct (Hk eq_refl) as [Hk1 _]. rewrite Hk1 in *. lia.
Qed.

Lemma key_span_run b k rc i e :
  run_holds b k (length (run_of b k)) rc -> run_of b k !! i = Some e -> rc_overflowed rc = false ->
  exists ks ke, key_span rc i = Some (ks, ke) /\ slice (rc_keys rc) ks ke = s_key e.
Proof.
  intros [_ _ Hk] Ei Ho. destruct (Hk Ho) as [Ek Ee]. rewrite firstn_all in Ek, Ee. unfold key_span. rewrite Ho, Ee. set (kl := map s_key (run_of b k)) in *.
  assert (kl !! i = Some (s_key e)) as El by (unfold kl; by rewrite list_lookup_fmap, Ei). pose proof (lookup_lt_Some _ _ _ El) as Hi.
  rewrite ends_lookup by done. eexists _, _. split; [done|]. rewrite Ek.
  assert (match i with O => 0%nat | S i => nth i (ends kl) 0%nat end = length (concat (take i kl))) as ->.
  { destruct i as [|i]; [done|]. apply (nth_lookup_Some (ends kl) i 0%nat). rewrite ends_lookup by lia. done. }
  rewrite <- (take_drop_middle kl i _ El) at 1. rewrite concat_app. cbn [concat]. rewrite (take_S_r _ _ _ El), concat_app, length_app. cbn [concat]. rewrite app_nil_r.
  apply slice_app; lia.
Qed.
Context (b : list Stored) (b_ok : Forall (stored_ok pd lay) b) (b_sorted : run_sorted cmp (map entry_of b)) (b_delta : pd = true).
Context (b_small : Z.of_nat (length (bytes b)) < 2 ^ 32) (bound : nat) (bound_small : Z.of_nat bound < 2 ^ 32).

Lemma materialize_loop_holds k n fuel m rc :
  (n + m)%nat = length (run_of b k) -> (n <= fuel)%nat -> run_holds b k m rc ->
  rc_scratch rc = prev_key b (k * interval + m) \/ (rc_scratch rc = [] /\ m = 0%nat) ->
  exists rc', materialize_loop fuel (bytes b) (offset b (k * interval + length (run_of b k))) bound (is_bytewise cmp) (offset b (k * interval + m)) rc
    = (rc', Ok (offset b (k * interval + length (run_of b k)))) /\ run_holds b k (length (run_of b k)) rc'.
Proof.
  revert fuel m rc. induction n as [|n IH]; intros fuel m rc Hm Hf Hh Hsc.
  - cbn in Hm. subst m. exists rc. split; [|done]. destruct fuel; cbn [materialize_loop]; by rewrite Nat.ltb_irrefl.
  - destruct fuel as [|fuel]; [lia|]. cbn [materialize_loop]. rewrite run_of_length in Hm.
    destruct (lookup_lt_is_Some_2 b (k * interval + m) ltac:(lia)) as [e Ee].
    destruct (Nat.ltb_spec (offset b (k * interval + m)) (offset b (k * interval + length (run_of b k)))) as [_|Hge].
    2: { pose proof (entry_off_lt pd lay interval b (k * interval + m) (k * interval + length (run_of b k))) as Hlt. rewrite run_of_length in *. lia. }
    destruct (delta_decode cmp pd lay interval b b_ok b_sorted (k * interval + m) e (rc_scratch rc) [] b_delta Ee) as (d & _ & Hd & ->).
    { destruct Hsc as [->|[-> ->]]; [by left|right]. split; [done|]. rewrite Nat.add_0_r. apply anchor_run. }
    rewrite (ds_seq _ _ _ Hd). replace (S (k * interval + m)) with (k * interval + S m)%nat by lia.
    apply IH; [rewrite run_of_length; lia|lia| |].
    + apply run_push_holds; try done. rewrite run_of_lookup. destruct (Nat.ltb_spec m interval); [done|lia].
    + left. replace (k * interval + S m)%nat with (S (k * interval + m)) by lia. rewrite (prev_key_S b _ e Ee).
      unfold run_push. destruct (rc_overflowed rc); [done|]. by destruct (_ <? _)%nat.
Qed.

Lemma materialize_holds blk k rc :
  (k * interval < length b)%nat ->
  exists rc', materialize blk k (bytes b) (offset b (k * interval)) (offset b (k * interval + length (run_of b k))) bound (is_bytewise cmp) rc = (rc', Ok tt) /\
    rc_at rc' = Some (blk, k) /\ run_holds b k (length (run_of b k)) rc'.
Proof.
  intros Hk. unfold materialize. destruct (lookup_lt_is_Some_2 b (k * interval) Hk) as [e Ee].
  destruct (anchor_decode pd lay interval b b_ok (k * interval) e b_delta Ee (anchor_run k)) as (d & n & -> & _). cbn [rbind].
  destruct (materialize_loop_holds k (length (run_of b k)) (length (bytes b)) 0 (run_clear_scratch (run_reset rc))) as (rc' & E & Hh).
  - lia.
  - rewrite run_of_length. pose proof (block_bytes_length pd lay interval 0 [] b). lia.
  - split; cbn; [done|done|]. by rewrite take_0.
  - by right.
  - rewrite Nat.add_0_r in E. rewrite E. destruct (_ <? _)%nat; rewrite Nat.eqb_refl; cbn [negb]; eexists; (split; [done|]); (split; [done|]);
      destruct Hh as [? ? ?]; by split.
Qed.
End Runs.

(** ** A recorded error stays *)

Section Sticky.
Context (checksum : list byte -> Z) `{Codecs} (mmap : bool) (r : Reader).

Definition failing (st : SstState) : Prop := si_err st <> None.

Lemma load_failing i full st st' ok : load_block checksum mmap r i full st = (st', ok) -> failing st -> failing st'.
Proof. unfold load_block. intros E He. repeat case_match; by simplify_eq. Qed.

Lemma decode_at_failing off st : failing st -> failing (decode_at r off st).
Proof. unfold decode_at. intros He. by repeat case_match. Qed.

Lemma step_delta_failing off st : failing st -> failing (step_delta r off st).
Proof. unfold step_delta. intros He. by repeat case_match. Qed.

Lemma ensure_run_failing k st st' ok : ensure_run r k st = (st', ok) -> failing st -> failing st'.
Proof. unfold ensure_run. intros E He. repeat case_match; by simplify_eq. Qed.

Lemma walk_run_failing n off st st' ok : walk_run r n off st = (st', ok) -> failing st -> failing st'.
Proof.
  revert off st. induction n as [|n IH]; intros off st; cbn [walk_run]; [by intros [= <- _]|]. intros E He.
  pose proof (step_delta_failing off st He). destruct (si_valid _); [by eapply IH|by simplify_eq].
Qed.

Lemma position_in_run_failing k i st : failing st -> failing (position_in_run r k i st).
Proof.
  unfold position_in_run. intros He. destruct (rc_starts _ !! i); [|done]. destruct (key_span _ _) as [[]|]; [by repeat case_match|].
  destruct (walk_run _ _ _ _) as [st' ok] eqn:E. apply walk_run_failing in E; [|done]. by destruct ok.
Qed.

Lemma find_walk_failing uk s n i off st st' o : find_walk r uk s n i off st = (st', o) -> failing st -> failing st'.
Proof.
  revert i off st. induction n as [|n IH]; intros i off st; cbn [find_walk]; [by intros [= <- _]|]. intros E He.
  pose proof (step_delta_failing off st He). repeat case_match; simplify_eq; try done. by eapply IH.
Qed.

Lemma find_in_run_failing uk s st st' o : find_in_run r uk s st = (st', o) -> failing st -> failing st'.
Proof. unfold find_in_run. destruct (rc_overflowed _); [intros E ?; by eapply find_walk_failing|by intros [= <- _]]. Qed.

Lemma enter_start_failing st : failing st -> failing (enter_block_start r st).
Proof. unfold enter_block_start. intros He. destruct (r_prefix_delta r); [by apply step_delta_failing|by apply decode_at_failing]. Qed.

Lemma enter_end_failing st : failing st -> failing (enter_block_end r st).
Proof.
  unfold enter_block_end. intros He. destruct (length (si_restarts st)); [done|]. destruct (ensure_run _ _ _) as [st' ok] eqn:E.
  apply ensure_run_failing in E; [|done]. destruct ok; [|done]. destruct (length _); [done|by apply position_in_run_failing].
Qed.

Lemma enter_last_failing st : failing st -> failing (enter_last_offset r st).
Proof. unfold enter_last_offset. intros He. destruct (length _); [done|by apply decode_at_failing]. Qed.

Lemma enter_next_failing i st : failing st -> failing (enter_next_block checksum mmap r i st).
Proof.
  unfold enter_next_block. intros He. destruct (load_block _ _ _ _ _ _) as [st' ok] eqn:E. apply load_failing in E; [|done].
  destruct ok; [by apply enter_start_failing|done].
Qed.

Lemma first_failing st : failing st -> failing (sst_seek_to_first checksum mmap r st).
Proof.
  unfold sst_seek_to_first. intros He. destruct (load_block _ _ _ _ _ _) as [st' ok] eqn:E. apply load_failing in E; [|done]. destruct ok; [by apply enter_start_failing|done].
Qed.

Lemma last_failing st : failing st -> failing (sst_seek_to_last checksum mmap r st).
Proof.
  unfold sst_seek_to_last. intros He. destruct (r_prefix_delta r); destruct (load_block _ _ _ _ _ _) as [st' ok] eqn:E; (apply load_failing in E; [|done]); destruct ok;
    auto using enter_end_failing, enter_last_failing.
Qed.

Lemma seek_delta_failing bi uk s st : failing st -> failing (seek_delta checksum mmap r bi uk s st).
Proof.
  unfold seek_delta. intros He. destruct (load_block _ _ _ _ _ _) as [st1 ok] eqn:E1. apply load_failing in E1; [|done]. destruct ok; [|done].
  destruct (restart_lower_bound _ _); [|done]. destruct (_ =? 0)%nat; [done|]. destruct (ensure_run _ _ _) as [st2 ok] eqn:E2. apply ensure_run_failing in E2; [|done].
  destruct ok; [|done]. destruct (find_in_run _ _ _ _) as [st3 o] eqn:E3. apply find_in_run_failing in E3; [|done]. destruct o; [by apply position_in_run_failing|].
  destruct (si_err st3) eqn:E; [done|]. by unfold failing in E3.
Qed.

Lemma seek_failing uk s st : failing st -> failing (sst_seek checksum mmap r uk s st).
Proof.
  unfold sst_seek. intros He. destruct (_ <=? _)%nat; [done|]. destruct (r_prefix_delta r); [by apply seek_delta_failing|].
  destruct (load_block _ _ _ _ _ _) as [st1 ok] eqn:E1. apply load_failing in E1; [|done]. destruct ok; [|done].
  destruct (_ <=? _)%nat; [by apply enter_next_failing|by apply decode_at_failing].
Qed.

Lemma prev_failing st : failing st -> failing (sst_prev checksum mmap r st).
Proof. unfold sst_prev, failing. intros He. destruct (si_err st) eqn:E; [by rewrite E|done]. Qed.

Lemma seek_for_prev_failing uk s st : failing st -> failing (sst_seek_for_prev checksum mmap r uk s st).
Proof.
  intros He. pose proof (seek_failing uk s st He) as Hs. unfold sst_seek_for_prev. destruct (negb _); [by apply last_failing|]. destruct (is_gt _); [by apply prev_failing|done].
Qed.
End Sticky.

(** ** Searches *)

(** The binary search of one list finds the partition point of another that agrees with it. *)
Lemma bsearch_partition {A B} (p : A -> bool) (l : list A) (q : B -> bool) (m : list B) :
  length l = length m -> (forall i x y, l !! i = Some x -> m !! i = Some y -> p x = q y) ->
  (forall i j x y, (i <= j)%nat -> m !! i = Some x -> m !! j = Some y -> q y = true -> q x = true) ->
  bsearch p l (length l) 0 (length l) = partition_point q m.
Proof.
  intros HL Hpq Hm. assert (forall i x, l !! i = Some x -> exists y, m !! i = Some y) as Hy.
  { intros i x Hi. apply lookup_lt_is_Some_2. rewrite <- HL. by eapply lookup_lt_Some. }
  destruct (bsearch_spec p l (length l) 0 (length l)) as (Hr & H1 & H2); [lia|lia| |lia|intros i x Hi Hx; apply lookup_lt_Some in Hx; lia|].
  - intros i j x y Hij Hx Hy' Hp. destruct (Hy i x Hx) as [x' Ex], (Hy j y Hy') as [y' Ey]. rewrite (Hpq i x x' Hx Ex). apply (Hm i j x' y'); try done.
    by rewrite <- (Hpq j y y' Hy' Ey).
  - symmetry. apply partition_point_unique; [lia| |].
    + intros i y Hi Ey. destruct (lookup_lt_is_Some_2 l i) as [x Ex]; [rewrite HL; by eapply lookup_lt_Some|]. rewrite <- (Hpq i x y Ex Ey). by eapply H1.
    + set (n := bsearch p l (length l) 0 (length l)) in *. intros y Ey. destruct (lookup_lt_is_Some_2 l n) as [x Ex]; [rewrite HL; by eapply lookup_lt_Some|].
      rewrite <- (Hpq _ x y Ex Ey). by eapply H2.
Qed.

(** Both sides of where the restart search ends. *)
Lemma restart_search_edges p (q : nat -> bool) n fuel lo hi :
  (lo <= hi <= n)%nat -> (hi - lo <= fuel)%nat -> (forall i, (i < n)%nat -> p i = Ok (q i)) ->
  (lo = 0%nat \/ q (lo - 1)%nat = true) -> (hi = n \/ q hi = false) ->
  exists l, restart_search p fuel lo hi = Ok l /\ (l <= n)%nat /\ (l = 0%nat \/ q (l - 1)%nat = true) /\ (l = n \/ q l = false).
Proof.
  revert lo hi. induction fuel as [|fuel IH]; intros lo hi Hle Hf Hp Hlo Hhi; cbn [restart_search];
    (destruct (Nat.ltb_spec lo hi); [|exists lo; replace hi with lo in Hhi by lia; split; [done|split; [lia|done]]]); [lia|].
  pose proof (Nat.div_mod_eq (lo + hi) 2). pose proof (Nat.mod_upper_bound (lo + hi) 2 ltac:(lia)).
  set (mid := ((lo + hi) / 2)%nat) in *. rewrite Hp by lia. cbn [rbind]. destruct (q mid) eqn:Em; apply IH; try lia; auto.
  right. by replace (S mid - 1)%nat with mid by lia.
Qed.

(** ** The iterator over the blocks of a run *)

Section Walk.
Context (checksum : list byte -> Z) `{Codecs} (mmap : bool) (r : Reader) (vlog : option (list byte)) `{!TotalOrder (r_cmp r)}.
Context (interval : nat) (blocks : list (list Stored)).

Abbreviation pd := (r_prefix_delta r).
Abbreviation lay := (r_layout r).
Abbreviation bytes b := (block_bytes pd lay interval 0 [] b).
Abbreviation raw b := (block_raw pd lay interval b).
Abbreviation offset b j := (entry_off pd lay interval b j).
Abbreviation restarts b := (restart_offs pd lay interval 0 0 [] b).
Abbreviation read_no i := (read_block_no checksum mmap r i).
Abbreviation load i full st := (load_block checksum mmap r i full st).

Definition stored_lt (k : key) (s : Z) (e : Stored) : bool := target_lt r k s (s_key e) (s_seq e).

(** The index leads to blocks that hold the run; any of them may fail to read. *)
Record table_shape : Prop := {
  ts_interval : (0 < interval)%nat;
  ts_count : num_blocks r = length blocks;
  ts_read : forall i b, blocks !! i = Some b -> read_no i = Ok (raw b) \/ exists e, read_no i = Err e;
  ts_nonempty : forall i b, blocks !! i = Some b -> b <> [];
  ts_entries : forall i b, blocks !! i = Some b -> Forall (stored_ok pd lay) b /\ Forall (separated_ok (read_separated checksum vlog)) b;
  ts_small : forall i b, blocks !! i = Some b -> 2 * Z.of_nat (length (bytes b)) < 2 ^ 32;
  ts_sorted : run_sorted (r_cmp r) (map entry_of (concat blocks));
  ts_route : forall k s, (find_block r k s <= length blocks)%nat /\
    (forall i b e, (i < find_block r k s)%nat -> blocks !! i = Some b -> e ∈ b -> stored_lt k s e = true) /\
    (forall i b e, (find_block r k s < i)%nat -> blocks !! i = Some b -> e ∈ b -> stored_lt k s e = false);
}.

(** Some block does not read; and an iterator that found out. *)
Definition broken : Prop := exists i e, (i < num_blocks r)%nat /\ read_no i = Err e.
Definition dead (st : SstState) : Prop := si_err st <> None /\ broken.

(** Block [bi], which holds [b], is loaded. *)
Record loaded (bi : nat) (b : list Stored) (st : SstState) : Prop := {
  ld_block : blocks !! bi = Some b;
  ld_idx : si_block_idx st = Z.of_nat bi;
  ld_raw : si_raw st = Some (raw b);
  ld_len : si_entries_len st = length (bytes b);
  ld_restarts : pd = true -> si_restarts st = restarts b;
  ld_run : pd = true -> forall k, rc_at (si_run st) = Some (si_block_idx st, k) ->
    run_holds pd lay interval b k (length (run_of interval b k)) (si_run st);
  ld_err : si_err st = None;
}.

(** The iterator stands on entry [j] of block [bi], which is [e]. *)
Record shows (bi j : nat) (b : list Stored) (e : Stored) (st : SstState) : Prop := {
  sh_loaded : loaded bi b st;
  sh_entry : b !! j = Some e;
  sh_valid : si_valid st = true;
  sh_cur : exists d, si_cur st = Some d /\ dec_shows (raw b) d e;
  sh_key : sst_user_key r st = s_key e;
  sh_pfx : si_cur_pfx st = key_prefix8 (s_key e);
  sh_next : si_cur_next st = offset b (S j);
}.

(** Its bookkeeping: the place in the runs, or the offsets found so far. *)
Definition placed (j : nat) (b : list Stored) (st : SstState) : Prop :=
  if pd then si_run_idx st = (j / interval)%nat /\ si_run_pos st = (j mod interval)%nat
  else si_pos st = Z.of_nat j /\ exists m, (j < m <= length b)%nat /\ si_offsets st = map (entry_off pd lay interval b) (List.seq 0 m).

Definition stands (bi j : nat) (b : list Stored) (e : Stored) (st : SstState) : Prop := shows bi j b e st /\ placed j b st.

(** At a position, or past the end. *)
Definition on_place (p : option (nat * nat)) (st : SstState) : Prop :=
  match p with
  | Some (bi, j) => exists b e, stands bi j b e st
  | None => si_valid st = false /\ si_err st = None
  end.

Definition lands (p : option (nat * nat)) (st : SstState) : Prop := on_place p st \/ dead st.

Definition start_of (bi : nat) : option (nat * nat) := if (bi <? length blocks)%nat then Some (bi, 0%nat) else None.
Definition end_of (bi : nat) : option (nat * nat) := (fun b => (bi, (length b - 1)%nat)) <$> blocks !! bi.

Context (shape : table_shape).

Lemma small_offset bi b j : blocks !! bi = Some b -> (j <= length b)%nat -> Z.of_nat (offset b j) < 2 ^ 32.
Proof. intros Hb Hj. pose proof (ts_small shape bi b Hb). pose proof (entry_off_bound pd lay interval b j Hj). lia. Qed.

Lemma block_sorted bi b : blocks !! bi = Some b -> run_sorted (r_cmp r) (map entry_of b).
Proof.
  intros Hb. pose proof (ts_sorted shape) as Hs. rewrite <- (take_drop_middle blocks bi b Hb), concat_app, map_app in Hs. cbn [concat] in Hs. rewrite map_app in Hs.
  apply StronglySorted_app_1_r in Hs. by apply StronglySorted_app_1_l in Hs.
Qed.

Lemma loaded_entries bi b st : loaded bi b st -> entries_region st = bytes b.
Proof. intros Hl. unfold entries_region, raw_bytes. rewrite (ld_raw _ _ _ Hl), (ld_len _ _ _ Hl). cbn. unfold block_raw. by rewrite take_app_length. Qed.

Lemma stored_lt_before k s e : stored_lt k s e = before (r_cmp r) (entry_of e) k s.
Proof. apply before_of. Qed.

(** In a sorted run, what is in front of an entry in front of the target is in front of the target. *)
Lemma stored_lt_down k s l i j x y :
  run_sorted (r_cmp r) (map entry_of l) -> (i <= j)%nat -> l !! i = Some x -> l !! j = Some y -> stored_lt k s y = true -> stored_lt k s x = true.
Proof.
  intros Hs Hij Hx Hy. destruct (decide (i = j)) as [->|Hne]; [congruence|]. rewrite !stored_lt_before. apply entry_lt_before; [done|].
  apply (StronglySorted_lookup_lt _ _ i j _ _ Hs); [by rewrite list_lookup_fmap, Hx|by rewrite list_lookup_fmap, Hy|lia].
Qed.

(** ** Loading *)

Lemma dead_invalid st : dead st -> dead (invalid st).
Proof. done. Qed.

Lemma load_out i full st : i < 0 \/ Z.of_nat (length blocks) <= i -> exists st', load i full st = (st', false) /\ si_valid st' = false /\ si_err st' = si_err st.
Proof.
  intros Hi. unfold load_block. rewrite (ts_count shape).
  assert ((i <? 0) || (Z.of_nat (length blocks) <=? i) = true) as ->; [|eauto].
  destruct Hi; [destruct (Z.ltb_spec i 0); [done|lia]|destruct (Z.leb_spec (Z.of_nat (length blocks)) i); [by rewrite orb_true_r|lia]].
Qed.

Lemma block_offsets_all bi b j fuel :
  pd = false -> blocks !! bi = Some b -> (j <= length b)%nat -> (length b - j <= fuel)%nat ->
  block_offsets r fuel (raw b) (length (bytes b)) (offset b j) = (map (entry_off pd lay interval b) (List.seq j (length b - j)), None).
Proof.
  intros Hpd Hb. revert j. induction fuel as [|fuel IH]; intros j Hj Hf; cbn [block_offsets].
  - replace j with (length b) by lia. rewrite entry_off_full, Nat.ltb_irrefl, Nat.sub_diag. done.
  - destruct (decide (j = length b)) as [->|Hne]; [by rewrite entry_off_full, Nat.ltb_irrefl, Nat.sub_diag|].
    pose proof (entry_off_lt pd lay interval b j (length b) ltac:(lia)) as Hlt. rewrite entry_off_full in Hlt.
    destruct (Nat.ltb_spec (offset b j) (length (bytes b))); [|lia]. destruct (lookup_lt_is_Some_2 b j ltac:(lia)) as [e Ee].
    destruct (base_decode pd lay interval b (proj1 (ts_entries shape bi b Hb)) j e (trailer_bytes (restarts b)) Hpd Ee) as (d & Ed & _).
    unfold block_raw at 1. rewrite Ed, (IH (S j)) by lia. rewrite as_u32_small by (eapply small_offset; [done|lia]).
    replace (length b - j)%nat with (S (length b - S j)) by lia. done.
Qed.

Lemma load_spec bi b full st :
  blocks !! bi = Some b -> si_err st = None ->
  (exists st', load (Z.of_nat bi) full st = (st', true) /\ loaded bi b st' /\
     (full = true -> pd = false -> si_offsets st' = map (entry_off pd lay interval b) (List.seq 0 (length b)))) \/
  (exists st', load (Z.of_nat bi) full st = (st', false) /\ dead st').
Proof.
  intros Hb He. pose proof (lookup_lt_Some _ _ _ Hb) as Hlt. pose proof (ts_small shape bi b Hb) as Hs. unfold load_block. rewrite (ts_count shape).
  destruct (Z.ltb_spec (Z.of_nat bi) 0); [lia|]. destruct (Z.leb_spec (Z.of_nat (length blocks)) (Z.of_nat bi)); [lia|]. cbn [orb]. rewrite Nat2Z.id.
  destruct (ts_read shape bi b Hb) as [Hr|[e Hr]]; rewrite Hr.
  2: { right. eexists. split; [done|]. split; [done|]. exists bi, e. rewrite (ts_count shape). done. }
  left. rewrite split_block_raw by (unfold zlen; lia).
  assert (forall st', si_block_idx st' = Z.of_nat bi -> si_raw st' = Some (raw b) -> si_entries_len st' = length (bytes b) ->
    si_restarts st' = (if pd then restart_list (restart_bytes (restarts b)) else []) -> rc_at (si_run st') = None -> si_err st' = None -> loaded bi b st') as Hmk.
  { intros st' ? ? ? Hrs Hat ?. split; try done; [|congruence]. intros Hpd. rewrite Hrs. destruct pd; [|done]. apply restart_list_bytes.
    intros o Ho. apply restart_offs_bound in Ho. lia. }
  destruct (full && negb pd) eqn:Ef.
  - apply andb_true_iff in Ef as [-> Hpd%negb_true_iff].
    pose proof (block_bytes_length pd lay interval 0 [] b). pose proof (block_offsets_all bi b 0 (length (bytes b)) Hpd Hb ltac:(lia) ltac:(lia)) as Hall.
    rewrite entry_off_0 in Hall. rewrite Hall.
    eexists. split; [done|]. split; [by apply Hmk|]. intros _ _. cbn. by rewrite Nat.sub_0_r.
  - eexists. split; [done|]. split; [by apply Hmk|]. intros -> Hpd. by rewrite Hpd in Ef.
Qed.

(** ** Publishing an entry *)

Lemma loaded_same bi b st st' :
  loaded bi b st -> si_block_idx st' = si_block_idx st -> si_raw st' = si_raw st -> si_entries_len st' = si_entries_len st ->
  si_restarts st' = si_restarts st -> si_run st' = si_run st -> si_err st' = si_err st -> loaded bi b st'.
Proof. intros [? ? ? ? ? ? ?] E1 E2 E3 E4 E5 E6. split; rewrite ?E1, ?E2, ?E3, ?E4, ?E5, ?E6; try done. Qed.

Ltac keep_loaded :=
  match goal with Hl : loaded ?bi ?b ?st |- loaded ?bi ?b _ => by apply (loaded_same bi b st) end.

Lemma publish_shows bi j b e d st :
  loaded bi b st -> b !! j = Some e -> dec_shows (raw b) d e ->
  (pd = true -> si_key_buf st = s_key e) -> (pd = false -> stored_key (raw b) d = s_key e) -> shows bi j b e (publish d (s_key e) (offset b (S j)) st).
Proof.
  intros Hl Ej Hd Hk Hk'. split; try done; [keep_loaded|by exists d|]. unfold sst_user_key, raw_bytes. destruct pd eqn:Hpd; [by apply Hk|].
  cbn. rewrite (ld_raw _ _ _ Hl), Hpd. by apply Hk'.
Qed.

Lemma decode_at_stands bi j b e m st :
  pd = false -> loaded bi b st -> b !! j = Some e -> (j < m <= length b)%nat ->
  stands bi j b e (decode_at r (offset b j) (with_offsets (map (entry_off pd lay interval b) (List.seq 0 m)) (Z.of_nat j) st)).
Proof.
  intros Hpd Hl Ej Hm. destruct (base_decode pd lay interval b (proj1 (ts_entries shape bi b (ld_block _ _ _ Hl))) j e (trailer_bytes (restarts b)) Hpd Ej)
    as (d & Ed & Ek & Hd). unfold decode_at. assert (forall o p, raw_bytes (with_offsets o p st) = raw b) as -> by (intros; unfold raw_bytes; cbn; by rewrite (ld_raw _ _ _ Hl)).
  fold (raw b) in Ed, Ek, Hd. rewrite Ed, Ek. split.
  - apply publish_shows; [keep_loaded|done|done|by rewrite Hpd|done].
  - unfold placed. rewrite Hpd. cbn. split; [done|]. by exists m.
Qed.

(** ** Runs *)

Section Delta.
Context (delta : pd = true).

(** Decoding entry [j] next is possible. *)
Definition ready (j : nat) (b : list Stored) (st : SstState) : Prop :=
  si_key_buf st = prev_key b j \/ (si_key_buf st = [] /\ is_anchor interval j = true).

Lemma step_delta_eq bi j b e st :
  loaded bi b st -> b !! j = Some e -> ready j b st ->
  exists d, step_delta r (offset b j) st = publish d (s_key e) (offset b (S j)) (with_key (s_key e) st) /\ dec_shows (raw b) d e.
Proof.
  intros Hl Ej Hr. pose proof (ld_block _ _ _ Hl) as Hb.
  destruct (delta_decode (r_cmp r) pd lay interval b (proj1 (ts_entries shape bi b Hb)) (block_sorted bi b Hb) j e (si_key_buf st) (trailer_bytes (restarts b)) delta Ej Hr)
    as (d & _ & Hd & Ed). exists d. unfold step_delta. rewrite (loaded_entries _ _ _ Hl), Ed. done.
Qed.

Lemma step_delta_shows bi j b e st :
  loaded bi b st -> b !! j = Some e -> ready j b st ->
  let st' := step_delta r (offset b j) st in
  shows bi j b e st' /\ ready (S j) b st' /\ si_run_idx st' = si_run_idx st /\ si_run_pos st' = si_run_pos st /\ si_run st' = si_run st.
Proof.
  intros Hl Ej Hr. destruct (step_delta_eq bi j b e st Hl Ej Hr) as (d & -> & Hd). cbn zeta. split; [|split; [|done]].
  - apply publish_shows; [keep_loaded|done|done|done|by rewrite delta].
  - left. cbn. by rewrite (prev_key_S b j e Ej).
Qed.

Lemma run_index k i : (i < interval)%nat -> ((k * interval + i) / interval = k /\ (k * interval + i) mod interval = i)%nat.
Proof.
  intros Hi. split; [symmetry; apply (Nat.div_unique _ _ _ i)|symmetry; apply (Nat.mod_unique _ _ k)]; lia.
Qed.

Lemma ensure_run_spec bi b k st :
  loaded bi b st -> (k * interval < length b)%nat ->
  exists st', ensure_run r k st = (st', true) /\ loaded bi b st' /\ run_holds pd lay interval b k (length (run_of interval b k)) (si_run st').
Proof.
  intros Hl Hk. pose proof (ld_block _ _ _ Hl) as Hb. unfold ensure_run. case_bool_decide as Hat; [exists st; split; [done|]; split; [done|by apply (ld_run _ _ _ Hl)]|].
  rewrite (ld_restarts _ _ _ Hl delta). unfold run_range. rewrite (ld_restarts _ _ _ Hl delta), (ld_len _ _ _ Hl), (loaded_entries _ _ _ Hl).
  rewrite (run_end pd lay interval (ts_interval shape) b k Hk). pose proof (restarts_lookup pd lay interval (ts_interval shape) b k Hk) as Hn.
  destruct (Nat.leb_spec (length (restarts b)) k); [apply lookup_lt_Some in Hn; lia|]. rewrite (nth_lookup_Some _ _ _ _ Hn).
  pose proof (ts_small shape bi b Hb). destruct (materialize_holds (r_cmp r) pd lay interval (ts_interval shape) b (proj1 (ts_entries shape bi b Hb)) (block_sorted bi b Hb) delta
    ltac:(lia) (Nat.max MIN_RUN_ARENA_BYTES (2 * length (bytes b)))) with (blk := si_block_idx st) (k := k) (rc := si_run st) as (rc & -> & Ha & Hh).
  - unfold MIN_RUN_ARENA_BYTES. change (Z.shiftl 64 10) with 65536. lia.
  - done.
  - eexists. split; [done|]. split; [|done]. destruct Hl. split; try done. cbn. intros _ k' Hk'. rewrite Ha in Hk'. by injection Hk' as <-.
Qed.

Lemma walk_run_shows bi b n j st e :
  loaded bi b st -> b !! (j + n)%nat = Some e -> ready j b st ->
  exists st', walk_run r (S n) (offset b j) st = (st', true) /\ shows bi (j + n) b e st'.
Proof.
  revert j st. induction n as [|n IH]; intros j st Hl Ej Hr; cbn [walk_run].
  - rewrite Nat.add_0_r in *. destruct (step_delta_shows bi j b e st Hl Ej Hr) as (Hs & _). rewrite (sh_valid _ _ _ _ _ Hs). eauto.
  - destruct (lookup_lt_is_Some_2 b j) as [e' Ee]; [apply lookup_lt_Some in Ej; lia|].
    destruct (step_delta_shows bi j b e' st Hl Ee Hr) as (Hs & Hr' & _). rewrite (sh_valid _ _ _ _ _ Hs), (sh_next _ _ _ _ _ Hs).
    replace (j + S n)%nat with (S j + n)%nat in * by lia. apply IH; [apply Hs|done|done].
Qed.

Lemma run_lookup b k i e : run_of interval b k !! i = Some e -> (i < interval)%nat /\ b !! (k * interval + i)%nat = Some e.
Proof. rewrite run_of_lookup. by destruct (Nat.ltb_spec i interval). Qed.

Lemma starts_lookup b k rc i e :
  run_holds pd lay interval b k (length (run_of interval b k)) rc -> run_of interval b k !! i = Some e ->
  rc_starts rc !! i = Some (offset b (k * interval + i)).
Proof. intros [-> _ _] Ei. rewrite list_lookup_fmap, lookup_seq_lt by by eapply lookup_lt_Some. done. Qed.

Lemma position_in_run_stands bi b k i e st :
  loaded bi b st -> run_holds pd lay interval b k (length (run_of interval b k)) (si_run st) -> run_of interval b k !! i = Some e ->
  stands bi (k * interval + i) b e (position_in_run r k i st).
Proof.
  intros Hl Hh Ei. destruct (run_lookup b k i e Ei) as [Hi Ej]. pose proof (ld_block _ _ _ Hl) as Hb. unfold position_in_run. rewrite (starts_lookup b k _ i e Hh Ei).
  assert (forall st', shows bi (k * interval + i) b e st' -> stands bi (k * interval + i) b e (with_place k i st')) as Hst.
  { intros st' [? ? ? ? ? ? ?]. split; [split; try done; keep_loaded|]. unfold placed. rewrite delta. destruct (run_index k i Hi) as [-> ->]. done. }
  destruct (rc_overflowed (si_run st)) eqn:Eo.
  - unfold key_span at 1. rewrite Eo. destruct (walk_run_shows bi b i (k * interval) (with_key [] st) e) as (st' & Ew & Hs).
    + keep_loaded.
    + done.
    + right. split; [done|apply anchor_run].
    + assert (nth 0 (rc_starts (si_run st)) 0%nat = offset b (k * interval)) as ->; [|rewrite Ew; by apply Hst].
      destruct (lookup_lt_is_Some_2 (run_of interval b k) 0) as [e0 E0]; [apply lookup_lt_Some in Ei; lia|].
      apply nth_lookup_Some. by rewrite (starts_lookup b k _ 0 e0 Hh E0), Nat.add_0_r.
  - destruct (key_span_run pd lay interval (ts_interval shape) b k _ i e Hh Ei Eo) as (ks & ke & -> & ->).
    destruct (delta_decode (r_cmp r) pd lay interval b (proj1 (ts_entries shape bi b Hb)) (block_sorted bi b Hb) _ e _ (trailer_bytes (restarts b)) delta Ej (or_introl eq_refl))
      as (d & Ed & Hd & _).
    replace (entries_region (with_key (s_key e) st)) with (bytes b) by (symmetry; by apply (loaded_entries bi), (loaded_same bi b st)). rewrite Ed.
    apply Hst, publish_shows; [keep_loaded|done|done|done|by rewrite delta].
Qed.

Lemma run_sorted_of bi b k : blocks !! bi = Some b -> run_sorted (r_cmp r) (map entry_of (run_of interval b k)).
Proof. intros Hb. unfold run_of. rewrite <- firstn_map, <- skipn_map. apply StronglySorted_take, StronglySorted_drop. by eapply block_sorted. Qed.

Lemma shows_key_buf bi j b e st : shows bi j b e st -> si_key_buf st = s_key e.
Proof. intros Hs. pose proof (sh_key _ _ _ _ _ Hs) as Hk. unfold sst_user_key in Hk. by rewrite delta in Hk. Qed.

Lemma shows_seq bi j b e st : shows bi j b e st -> default 0 (d_seq <$> si_cur st) = s_seq e.
Proof. intros Hs. destruct (sh_cur _ _ _ _ _ Hs) as (d & -> & Hd). cbn. apply Hd. Qed.

Lemma find_walk_spec bi b uk s n j i st (rest := take n (drop j b)) :
  loaded bi b st -> (j + n <= length b)%nat -> ready j b st ->
  exists st', find_walk r uk s n i (offset b j) st = (st', if (partition_point (stored_lt uk s) rest <? n)%nat then Some (i + partition_point (stored_lt uk s) rest)%nat else None) /\
    loaded bi b st' /\ si_run st' = si_run st.
Proof.
  unfold rest. clear rest. revert j i st. induction n as [|n IH]; intros j i st Hl Hj Hr; cbn [find_walk]; [eauto|].
  destruct (lookup_lt_is_Some_2 b j) as [e Ee]; [lia|]. rewrite (drop_S b e j Ee). cbn [take partition_point].
  destruct (step_delta_shows bi j b e st Hl Ee Hr) as (Hs & Hr' & _ & _ & Erun). rewrite (sh_valid _ _ _ _ _ Hs), (shows_key_buf _ _ _ _ _ Hs), (shows_seq _ _ _ _ _ Hs).
  cbn [negb]. fold (stored_lt uk s e). destruct (stored_lt uk s e) eqn:El; cbn [negb].
  - rewrite (sh_next _ _ _ _ _ Hs). destruct (IH (S j) (S i) _ (sh_loaded _ _ _ _ _ Hs) ltac:(lia) Hr') as (st' & -> & Hl' & Er). exists st'.
    split; [|split; [done|congruence]]. f_equal. change (S ?a <? S n)%nat with (a <? n)%nat. destruct (_ <? n)%nat; [|done]. f_equal. lia.
  - eexists. split; [|split; [apply Hs|done]]. cbn [Nat.ltb Nat.leb]. by rewrite Nat.add_0_r.
Qed.

Lemma find_in_run_spec bi b k uk s st (run := run_of interval b k) :
  loaded bi b st -> (k * interval < length b)%nat -> run_holds pd lay interval b k (length run) (si_run st) ->
  exists st', find_in_run r uk s st = (st', if (partition_point (stored_lt uk s) run <? length run)%nat then Some (partition_point (stored_lt uk s) run) else None) /\
    loaded bi b st' /\ si_run st' = si_run st.
Proof.
  intros Hl Hk Hh. assert (length (rc_starts (si_run st)) = length run) as Hn by (rewrite (rh_starts _ _ _ _ _ _ _ Hh), length_map, length_seq; done).
  unfold find_in_run. rewrite Hn. destruct (rc_overflowed (si_run st)) eqn:Eo.
  - destruct (lookup_lt_is_Some_2 run 0) as [e0 E0]; [unfold run; rewrite run_of_length; pose proof (ts_interval shape); lia|].
    assert (nth 0 (rc_starts (si_run st)) 0%nat = offset b (k * interval)) as ->.
    { apply nth_lookup_Some. by rewrite (starts_lookup b k _ 0 e0 Hh E0), Nat.add_0_r. }
    assert (length run = Nat.min interval (length b - k * interval)) as HL by apply run_of_length.
    destruct (find_walk_spec bi b uk s (length run) (k * interval) 0 (with_key [] st)) as (st' & -> & Hl' & Er); [keep_loaded|lia|right; split; [done|apply anchor_run]|].
    exists st'. split; [|done]. assert (take (length run) (drop (k * interval) b) = run) as ->; [|done].
    unfold run at 2, run_of. rewrite HL, <- length_drop. set (l := drop (k * interval) b).
    destruct (Nat.min_spec interval (length l)) as [[? ->]|[? ->]]; [done|]. by rewrite !take_ge by lia.
  - exists st. split; [|done]. f_equal. pose proof (bsearch_partition (fun mid => match key_span (si_run st) mid with
      | Some (ks, ke) => target_lt r uk s (slice (rc_keys (si_run st)) ks ke) (nth mid (rc_seqs (si_run st)) 0) | None => false end)
      (List.seq 0 (length run)) (stored_lt uk s) run) as Hbs. rewrite length_seq in Hbs. rewrite Hbs; [done|done| |].
    + intros i x e Hx He. pose proof (lookup_lt_Some _ _ _ He). rewrite lookup_seq_lt in Hx by done. injection Hx as <-.
      destruct (key_span_run pd lay interval (ts_interval shape) b k _ i e Hh He Eo) as (ks & ke & -> & ->). unfold stored_lt. f_equal.
      apply nth_lookup_Some. rewrite (rh_seqs _ _ _ _ _ _ _ Hh), firstn_all, list_lookup_fmap. unfold run in He. by rewrite He.
    + intros i j x y. apply stored_lt_down. eapply run_sorted_of, Hl.
Qed.

Lemma last_run_spec b k : b <> [] -> run_count interval (length b) = S k ->
  (k * interval < length b)%nat /\ (k * interval + length (run_of interval b k))%nat = length b /\ (0 < length (run_of interval b k))%nat.
Proof.
  intros Hb Ek. pose proof (ts_interval shape) as Hi. pose proof (run_count_lt interval Hi (length b)) as Hc.
  assert (k * interval < length b)%nat as Hk by (apply Hc; lia). split; [done|]. rewrite run_of_length.
  assert (length b <= S k * interval)%nat; [|cbn in *; lia]. destruct (decide (S k * interval < length b)%nat) as [Hx%Hc|]; lia.
Qed.

Lemma run_last_stands bi b k st :
  loaded bi b st -> (k * interval < length b)%nat -> run_holds pd lay interval b k (length (run_of interval b k)) (si_run st) ->
  exists e, stands bi (k * interval + (length (run_of interval b k) - 1)) b e
    (match length (rc_starts (si_run st)) with O => invalid st | S last => position_in_run r k last st end).
Proof.
  intros Hl Hk Hh. pose proof (ts_interval shape). assert (length (rc_starts (si_run st)) = length (run_of interval b k)) as ->
    by (rewrite (rh_starts _ _ _ _ _ _ _ Hh), length_map, length_seq; done).
  destruct (length (run_of interval b k)) as [|n] eqn:En; [rewrite run_of_length in En; lia|]. rewrite Nat.sub_succ, Nat.sub_0_r.
  destruct (lookup_lt_is_Some_2 (run_of interval b k) n) as [e Ee]; [lia|]. exists e. apply position_in_run_stands; [done|by rewrite En|done].
Qed.

Lemma enter_end_delta bi b st : loaded bi b st -> exists e, stands bi (length b - 1) b e (enter_block_end r st).
Proof.
  intros Hl. pose proof (ts_nonempty shape bi b (ld_block _ _ _ Hl)) as Hne. unfold enter_block_end.
  rewrite (ld_restarts _ _ _ Hl delta), (restarts_length pd lay interval (ts_interval shape)).
  destruct (run_count interval (length b)) as [|k] eqn:Ek.
  - assert (0 < run_count interval (length b))%nat; [|lia]. apply (run_count_lt interval (ts_interval shape)). destruct b; [done|cbn; lia].
  - destruct (last_run_spec b k Hne Ek) as (Hk & Hend & Hpos). destruct (ensure_run_spec bi b k st Hl Hk) as (st' & -> & Hl' & Hh).
    destruct (run_last_stands bi b k st' Hl' Hk Hh) as [e He]. exists e. by replace (length b - 1)%nat with (k * interval + (length (run_of interval b k) - 1))%nat by lia.
Qed.
End Delta.

(** ** Entering a block *)

Lemma enter_start_stands bi b st : loaded bi b st -> exists e, stands bi 0 b e (enter_block_start r st).
Proof.
  intros Hl. pose proof (ts_nonempty shape bi b (ld_block _ _ _ Hl)) as Hne. destruct (lookup_lt_is_Some_2 b 0) as [e Ee]; [destruct b; [done|cbn; lia]|].
  exists e. unfold enter_block_start. assert (pd = true \/ pd = false) as [Hpd|Hpd] by (destruct pd; auto); rewrite Hpd.
  - destruct (step_delta_shows Hpd bi 0 b e (with_key [] (with_place 0 0 st))) as (Hs & _ & E1 & E2 & _); [keep_loaded|done|by left|]. rewrite entry_off_0 in *.
    split; [done|]. unfold placed. rewrite Hpd, E1, E2. cbn. by rewrite Nat.Div0.div_0_l, Nat.Div0.mod_0_l.
  - apply (decode_at_stands bi 0 b e 1 st Hpd Hl Ee). split; [lia|]. destruct b; [done|cbn; lia].
Qed.

Lemma enter_last_stands bi b st :
  pd = false -> loaded bi b st -> si_offsets st = map (entry_off pd lay interval b) (List.seq 0 (length b)) ->
  exists e, stands bi (length b - 1) b e (enter_last_offset r st).
Proof.
  intros Hpd Hl Ho. pose proof (ts_nonempty shape bi b (ld_block _ _ _ Hl)) as Hne. unfold enter_last_offset. rewrite Ho, length_map, length_seq.
  destruct (length b) as [|n] eqn:En; [by destruct b|]. rewrite Nat.sub_succ, Nat.sub_0_r. destruct (lookup_lt_is_Some_2 b n) as [e Ee]; [lia|]. exists e.
  rewrite (nth_lookup_Some _ n _ (offset b n)) by (rewrite list_lookup_fmap, lookup_seq_lt by lia; done). rewrite <- En in *. apply decode_at_stands; try done. lia.
Qed.

Lemma enter_next_lands bi st : si_err st = None -> (bi < length blocks)%nat -> lands (start_of (S bi)) (enter_next_block checksum mmap r (Z.of_nat bi) st).
Proof.
  intros He Hbi. unfold enter_next_block, start_of. replace (Z.of_nat bi + 1) with (Z.of_nat (S bi)) by lia. destruct (Nat.ltb_spec (S bi) (length blocks)) as [Hlt|Hge].
  - destruct (lookup_lt_is_Some_2 blocks (S bi) Hlt) as [b Hb]. destruct (load_spec (S bi) b false st Hb He) as [(st' & -> & Hl & _)|(st' & -> & Hd)].
    + left. exists b. by apply enter_start_stands.
    + right. by apply dead_invalid.
  - destruct (load_out (Z.of_nat (S bi)) false st) as (st' & -> & Hv & He'); [lia|]. left. split; [done|]. cbn. congruence.
Qed.

(** The last entry of block [bi]. *)
Lemma enter_last_lands bi b st :
  blocks !! bi = Some b -> si_err st = None ->
  lands (Some (bi, (length b - 1)%nat))
    (if pd then match load (Z.of_nat bi) false st with (st, true) => enter_block_end r st | (st, false) => invalid st end
     else match load (Z.of_nat bi) true st with (st, true) => enter_last_offset r st | (st, false) => invalid st end) /\
  lands (Some (bi, (length b - 1)%nat))
    (if pd then match load (Z.of_nat bi) false st with (st, false) => st | (st, true) => enter_block_end r st end
     else match load (Z.of_nat bi) true st with (st, false) => st | (st, true) => enter_last_offset r st end).
Proof.
  intros Hb He. assert (pd = true \/ pd = false) as [Hpd|Hpd] by (destruct pd; auto); rewrite Hpd.
  - destruct (load_spec bi b false st Hb He) as [(st' & -> & Hl & _)|(st' & -> & Hd)]; [|by split; right].
    destruct (enter_end_delta Hpd bi b st' Hl) as [e Hs]. split; left; by exists b, e.
  - destruct (load_spec bi b true st Hb He) as [(st' & -> & Hl & Ho)|(st' & -> & Hd)]; [|by split; right].
    destruct (enter_last_stands bi b st' Hpd Hl (Ho eq_refl Hpd)) as [e Hs]. split; left; by exists b, e.
Qed.

Lemma first_lands st : si_err st = None -> lands (start_of 0) (sst_seek_to_first checksum mmap r st).
Proof.
  intros He. unfold sst_seek_to_first, start_of. destruct (Nat.ltb_spec 0 (length blocks)) as [Hlt|Hge].
  - destruct (lookup_lt_is_Some_2 blocks 0 Hlt) as [b Hb]. change 0 with (Z.of_nat 0). destruct (load_spec 0 b false st Hb He) as [(st' & -> & Hl & _)|(st' & -> & Hd)].
    + left. exists b. by apply enter_start_stands.
    + by right.
  - destruct (load_out 0 false st) as (st' & -> & Hv & He'); [lia|]. left. split; [done|congruence].
Qed.

Lemma last_lands st : si_err st = None ->
  lands (match length blocks with O => None | S i => end_of i end) (sst_seek_to_last checksum mmap r st).
Proof.
  intros He. unfold sst_seek_to_last. rewrite (ts_count shape). destruct (length blocks) as [|i] eqn:El.
  - destruct pd; edestruct (load_out (Z.of_nat 0 - 1)) as (st' & -> & Hv & He'); try lia; left; (split; [done|congruence]).
  - destruct (lookup_lt_is_Some_2 blocks i) as [b Hb]; [lia|]. unfold end_of. rewrite Hb. cbn [fmap option_fmap option_map]. replace (Z.of_nat (S i) - 1) with (Z.of_nat i) by lia.
    by apply (enter_last_lands i b st Hb He).
Qed.

(** ** Stepping *)

Definition after (bi j : nat) (b : list Stored) : option (nat * nat) := if (S j <? length b)%nat then Some (bi, S j) else start_of (S bi).
Definition before_ (bi j : nat) : option (nat * nat) :=
  match j, bi with
  | S j, _ => Some (bi, j)
  | O, S bi => end_of bi
  | O, O => None
  end.

(** The place of the entry behind one, in the runs. *)
Lemma run_step j : (if S j mod interval =? 0 then S j / interval = S (j / interval) /\ S j = S (j / interval) * interval
                    else S j / interval = j / interval /\ S j mod interval = S (j mod interval))%nat.
Proof.
  pose proof (ts_interval shape). pose proof (Nat.div_mod_eq j interval). pose proof (Nat.mod_upper_bound j interval ltac:(lia)).
  set (q := (j / interval)%nat) in *. set (m := (j mod interval)%nat) in *. destruct (decide (S m = interval)) as [E|E].
  - assert (S j mod interval = 0)%nat as -> by (symmetry; apply (Nat.mod_unique _ _ (S q)); nia). cbn [Nat.eqb].
    split; [symmetry; apply (Nat.div_unique _ _ _ 0); nia|nia].
  - assert (S j mod interval = S m)%nat as -> by (symmetry; apply (Nat.mod_unique _ _ q); nia). cbn [Nat.eqb].
    split; [symmetry; apply (Nat.div_unique _ _ _ (S m)); nia|done].
Qed.

Lemma offset_end bi j b e : loaded bi b e -> (S j <= length b)%nat -> (si_entries_len e <=? offset b (S j))%nat = negb (S j <? length b)%nat.
Proof.
  intros Hl Hj. rewrite (ld_len _ _ _ Hl), <- entry_off_full. destruct (Nat.ltb_spec (S j) (length b)) as [Hlt|Hge]; cbn [negb].
  - apply Nat.leb_gt. by apply entry_off_lt.
  - apply Nat.leb_le. by replace (S j) with (length b) by lia.
Qed.

Lemma next_delta_lands bi j b e st : pd = true -> stands bi j b e st -> lands (after bi j b) (next_delta checksum mmap r st).
Proof.
  intros Hpd [Hs Hp]. pose proof (sh_loaded _ _ _ _ _ Hs) as Hl. pose proof (lookup_lt_Some _ _ _ (sh_entry _ _ _ _ _ Hs)) as Hj.
  unfold placed in Hp. rewrite Hpd in Hp. destruct Hp as [Hri Hrp].
  unfold next_delta, after. rewrite (sh_next _ _ _ _ _ Hs), (offset_end bi j b st Hl ltac:(lia)). destruct (Nat.ltb_spec (S j) (length b)) as [Hlt|Hge]; cbn [negb].
  2: { rewrite (ld_idx _ _ _ Hl). apply enter_next_lands; [apply Hl|]. eapply lookup_lt_Some, Hl. }
  destruct (lookup_lt_is_Some_2 b (S j) Hlt) as [e' Ee].
  assert ((match si_restarts st !! S (si_run_idx st) with
           | Some anchor => if (anchor =? offset b (S j))%nat then (S (si_run_idx st), 0%nat) else (si_run_idx st, S (si_run_pos st))
           | None => (si_run_idx st, S (si_run_pos st)) end) = (S j / interval, S j mod interval)%nat) as ->.
  { rewrite (ld_restarts _ _ _ Hl Hpd), Hri, Hrp. pose proof (run_step j) as Hst. destruct (Nat.eqb_spec (S j mod interval) 0) as [E0|E0].
    - destruct Hst as [Hd Ej]. rewrite Hd, E0. rewrite (restarts_lookup pd lay interval (ts_interval shape)) by lia. by rewrite <- Ej, Nat.eqb_refl.
    - destruct Hst as [Hd Em]. rewrite Hd, Em. destruct (restarts b !! S (j / interval)) as [o|] eqn:Eo; [|done].
      assert (S (j / interval) * interval < length b)%nat as Hk.
      { apply (run_count_lt interval (ts_interval shape)). rewrite <- (restarts_length pd lay interval (ts_interval shape)). by eapply lookup_lt_Some. }
      rewrite (restarts_lookup pd lay interval (ts_interval shape) b _ Hk) in Eo. apply (inj Some) in Eo as <-.
      destruct (Nat.eqb_spec (offset b (S (j / interval) * interval)) (offset b (S j))) as [Eq|]; [|done].
      assert (S j < S (j / interval) * interval)%nat as Hlt2.
      { pose proof (Nat.div_mod_eq j interval). pose proof (Nat.mod_upper_bound (S j) interval). pose proof (ts_interval shape). nia. }
      pose proof (entry_off_lt pd lay interval b _ _ (conj Hlt2 (Nat.lt_le_incl _ _ Hk))). lia. }
  destruct (step_delta_shows Hpd bi (S j) b e' st Hl Ee) as (Hs' & _).
  { left. rewrite (shows_key_buf Hpd _ _ _ _ _ Hs). by rewrite (prev_key_S b j e (sh_entry _ _ _ _ _ Hs)). }
  rewrite (sh_valid _ _ _ _ _ Hs'). left. exists b, e'. split; [|unfold placed; by rewrite Hpd].
  destruct Hs' as [Hl' ? ? ? ? ? ?]. split; try done. keep_loaded.
Qed.

Lemma next_lands bi j b e st : stands bi j b e st -> lands (after bi j b) (sst_next checksum mmap r st).
Proof.
  intros Hst. pose proof Hst as [Hs Hp]. pose proof (sh_loaded _ _ _ _ _ Hs) as Hl. pose proof (lookup_lt_Some _ _ _ (sh_entry _ _ _ _ _ Hs)) as Hj.
  unfold sst_next. rewrite (sh_valid _ _ _ _ _ Hs). cbn [negb]. assert (pd = true \/ pd = false) as [Hpd|Hpd] by (destruct pd; auto); rewrite Hpd.
  { by eapply next_delta_lands. }
  unfold placed in Hp. rewrite Hpd in Hp. destruct Hp as (Hpos & m & Hm & Ho). rewrite <- Hpd in Ho. rewrite Hpos, Ho, length_map, length_seq. unfold after.
  replace (Z.of_nat j + 1) with (Z.of_nat (S j)) by lia. rewrite Nat2Z.id. destruct (Z.ltb_spec (Z.of_nat (S j)) (Z.of_nat m)).
  - destruct (Nat.ltb_spec (S j) (length b)); [|lia]. destruct (lookup_lt_is_Some_2 b (S j)) as [e' Ee]; [lia|]. left. exists b, e'.
    rewrite (nth_lookup_Some _ (S j) _ (offset b (S j))) by (rewrite list_lookup_fmap, lookup_seq_lt by lia; done). apply decode_at_stands; try done. lia.
  - rewrite (sh_next _ _ _ _ _ Hs), (offset_end bi j b st Hl ltac:(lia)). destruct (Nat.ltb_spec (S j) (length b)) as [Hlt|Hge]; cbn [negb].
    + destruct (lookup_lt_is_Some_2 b (S j) Hlt) as [e' Ee]. left. exists b, e'. assert (m = S j) as -> by lia.
      rewrite as_u32_small by (eapply small_offset; [apply Hl|lia]).
      assert (map (entry_off pd lay interval b) (List.seq 0 (S j)) ++ [offset b (S j)] = map (entry_off pd lay interval b) (List.seq 0 (S (S j)))) as ->
        by (rewrite (seq_S (S j)), map_app; done).
      apply decode_at_stands; try done. lia.
    + rewrite (ld_idx _ _ _ Hl). apply enter_next_lands; [apply Hl|]. eapply lookup_lt_Some, Hl.
Qed.

Lemma prev_block_lands bi st : si_err st = None -> (bi < length blocks)%nat -> si_block_idx st = Z.of_nat bi ->
  lands (before_ bi 0)
    (if 1 <=? si_block_idx st then
       if pd then match load (si_block_idx st - 1) false st with (st, true) => enter_block_end r st | (st, false) => invalid st end
       else match load (si_block_idx st - 1) true st with (st, true) => enter_last_offset r st | (st, false) => invalid st end
     else invalid st).
Proof.
  intros He Hbi ->. cbn [before_]. destruct bi as [|bi].
  - left. done.
  - destruct (Z.leb_spec 1 (Z.of_nat (S bi))); [|lia]. replace (Z.of_nat (S bi) - 1) with (Z.of_nat bi) by lia.
    destruct (lookup_lt_is_Some_2 blocks bi) as [b Hb]; [lia|]. unfold end_of. rewrite Hb. cbn [fmap option_fmap option_map]. by apply (enter_last_lands bi b st Hb He).
Qed.

Lemma prev_lands bi j b e st : stands bi j b e st -> lands (before_ bi j) (sst_prev checksum mmap r st).
Proof.
  intros [Hs Hp]. pose proof (sh_loaded _ _ _ _ _ Hs) as Hl. pose proof (lookup_lt_Some _ _ _ (sh_entry _ _ _ _ _ Hs)) as Hj.
  pose proof (prev_block_lands bi st (ld_err _ _ _ Hl) ltac:(eapply lookup_lt_Some, Hl) (ld_idx _ _ _ Hl)) as Hprev.
  unfold sst_prev. rewrite (ld_err _ _ _ Hl), (ld_raw _ _ _ Hl). assert (pd = true \/ pd = false) as [Hpd|Hpd] by (destruct pd; auto); rewrite Hpd; rewrite Hpd in Hprev.
  - unfold placed in Hp. rewrite Hpd in Hp. destruct Hp as [Hri Hrp]. unfold prev_delta. rewrite Hri, Hrp. pose proof (ts_interval shape).
    pose proof (Nat.div_mod_eq j interval) as Hd. pose proof (Nat.mod_upper_bound j interval ltac:(lia)). destruct (j mod interval)%nat as [|i] eqn:Em.
    + destruct (j / interval)%nat as [|k] eqn:Ek; [assert (j = 0)%nat as -> by lia; done|]. destruct (ensure_run_spec Hpd bi b k st Hl ltac:(nia)) as (st' & -> & Hl' & Hh).
      destruct (run_last_stands Hpd bi b k st' Hl' ltac:(nia) Hh) as [e' He']. left.
      assert (j = S (k * interval + (length (run_of interval b k) - 1))) as -> by (rewrite run_of_length; nia). by exists b, e'.
    + destruct (ensure_run_spec Hpd bi b (j / interval) st Hl ltac:(nia)) as (st' & -> & Hl' & Hh). destruct j as [|j]; [rewrite Nat.Div0.mod_0_l in Em; done|].
      left. destruct (lookup_lt_is_Some_2 b j) as [e' Ee]; [lia|]. exists b, e'. set (k := (S j / interval)%nat) in *. assert (j = k * interval + i)%nat as Ej by nia. rewrite Ej in Ee. rewrite Ej.
      apply (position_in_run_stands Hpd); try done. rewrite run_of_lookup. destruct (Nat.ltb_spec i interval); [done|lia].
  - unfold placed in Hp. rewrite Hpd in Hp. destruct Hp as (Hpos & m & Hm & Ho). rewrite <- Hpd in Ho. rewrite Hpos, Ho. destruct j as [|j]; [done|].
    destruct (Z.ltb_spec 0 (Z.of_nat (S j))); [|lia]. replace (Z.of_nat (S j) - 1) with (Z.of_nat j) by lia. rewrite Nat2Z.id.
    destruct (lookup_lt_is_Some_2 b j) as [e' Ee]; [lia|]. left. exists b, e'.
    rewrite (nth_lookup_Some _ j _ (offset b j)) by (rewrite list_lookup_fmap, lookup_seq_lt by lia; done). apply decode_at_stands; try done. lia.
Qed.

(** ** Seeking *)

(** Entry [j] of a block, or what follows it. *)
Definition place_ge (bi : nat) (b : list Stored) (j : nat) : option (nat * nat) := if (j <? length b)%nat then Some (bi, j) else start_of (S bi).

(** The partition point of a block, from the run the restart search picked. *)
Lemma run_partition bi b uk s l (k := (l - 1)%nat) (p := partition_point (stored_lt uk s) (run_of interval b k)) :
  blocks !! bi = Some b -> (l <= run_count interval (length b))%nat ->
  (l = 0%nat \/ forall e, b !! ((l - 1) * interval)%nat = Some e -> stored_lt uk s e = true) ->
  (l = run_count interval (length b) \/ forall e, b !! (l * interval)%nat = Some e -> stored_lt uk s e = false) ->
  partition_point (stored_lt uk s) b =
    (if (p <? length (run_of interval b k))%nat then k * interval + p
     else if (S k <? run_count interval (length b))%nat then S k * interval else length b)%nat.
Proof.
  intros Hb Hl Hlo Hhi. pose proof (ts_interval shape) as HI. pose proof (run_count_lt interval HI (length b)) as Hc. pose proof (block_sorted bi b Hb) as Hs.
  pose proof (ts_nonempty shape bi b Hb) as Hne. assert (0 < length b)%nat by (destruct b; [done|cbn; lia]).
  assert (k * interval < length b)%nat as Hk by (apply Hc; pose proof (proj2 (Hc 0%nat)); unfold k; lia).
  assert (forall i e, (i < k * interval)%nat -> b !! i = Some e -> stored_lt uk s e = true) as Hpre.
  { intros i e Hi Ei. destruct Hlo as [->|Hlo]; [cbn in *; lia|]. destruct (lookup_lt_is_Some_2 b _ Hk) as [e' Ee]. apply (stored_lt_down uk s b i (k * interval) e e' Hs); try done; [lia|by apply Hlo]. }
  assert (forall i e, (i < p)%nat -> b !! (k * interval + i)%nat = Some e -> stored_lt uk s e = true) as Hin.
  { intros i e Hi Ei. pose proof (partition_point_take (stored_lt uk s) (run_of interval b k)) as Ht. fold p in Ht. pose proof (partition_point_le (stored_lt uk s) (run_of interval b k)) as Hple. fold p in Hple.
    rewrite run_of_length in Hple. rewrite Forall_lookup in Ht. apply (Ht i). rewrite lookup_take_lt, run_of_lookup by done. destruct (Nat.ltb_spec i interval); [done|lia]. }
  assert (forall i e, (i < k * interval + p)%nat -> b !! i = Some e -> stored_lt uk s e = true) as Hall.
  { intros i e Hi Ei. destruct (decide (i < k * interval)%nat); [by apply (Hpre i)|]. apply (Hin (i - k * interval)%nat); [lia|]. by replace (k * interval + (i - k * interval))%nat with i by lia. }
  pose proof (partition_point_le (stored_lt uk s) (run_of interval b k)) as Hple. fold p in Hple. pose proof (run_of_length interval b k) as HL.
  destruct (Nat.ltb_spec p (length (run_of interval b k))) as [Hp|Hp]; [|destruct (Nat.ltb_spec (S k) (run_count interval (length b))) as [Hk2|Hk2]].
  - apply partition_point_unique; [lia|done|]. intros e Ee. apply (partition_point_at (stored_lt uk s) (run_of interval b k)). fold p.
    rewrite run_of_lookup. destruct (Nat.ltb_spec p interval); [done|lia].
  - apply Hc in Hk2. assert (p = interval) as Ep by (cbn in Hk2; lia). apply partition_point_unique; [lia|intros i e Hi; apply Hall; cbn in Hi; lia|]. intros e Ee.
    destruct (decide (l = 0)%nat) as [El|Hl0].
    + exfalso. destruct (lookup_lt_is_Some_2 b 0) as [e0 E0]; [lia|]. assert (stored_lt uk s e0 = true) as Ht by (apply (Hall 0%nat); [lia|done]).
      destruct Hhi as [E|Hhi]; [pose proof (proj2 (Hc 0%nat)); lia|]. rewrite El in Hhi. rewrite (Hhi e0 E0) in Ht. done.
    + destruct Hhi as [E|Hhi]; [pose proof (proj2 (Hc (S k))); unfold k in *; lia|]. apply Hhi. by replace l with (S k) by (unfold k; lia).
  - assert (length b <= S k * interval)%nat by (destruct (decide (S k * interval < length b)%nat) as [Hx%Hc|]; lia).
    apply partition_point_unique; [lia|intros i e Hi; apply Hall; cbn in *; lia|]. intros e Ee. apply lookup_lt_Some in Ee. lia.
Qed.

Lemma restart_search_block bi b uk s st :
  pd = true -> loaded bi b st ->
  exists l, restart_lower_bound (length (si_restarts st)) (fun i =>
        let? (e, _) := decode_delta_anchor (entries_region st) (nth i (si_restarts st) 0%nat) in
        Ok (target_lt r uk s (stored_key (entries_region st) e) (d_seq e))) = Ok l /\ (l <= run_count interval (length b))%nat /\
    (l = 0%nat \/ forall e, b !! ((l - 1) * interval)%nat = Some e -> stored_lt uk s e = true) /\
    (l = run_count interval (length b) \/ forall e, b !! (l * interval)%nat = Some e -> stored_lt uk s e = false).
Proof.
  intros Hpd Hl. pose proof (ts_interval shape) as HI. rewrite (loaded_entries _ _ _ Hl), (ld_restarts _ _ _ Hl Hpd), (restarts_length pd lay interval HI).
  set (n := run_count interval (length b)). set (q := fun i => match b !! (i * interval)%nat with Some e => stored_lt uk s e | None => false end). unfold restart_lower_bound.
  match goal with |- context [restart_search ?f] => destruct (restart_search_edges f q n n 0 n) as (l & El & Hln & Hlo & Hhi); [lia|lia| |by left|by left|] end.
  - intros i Hi. apply (run_count_lt interval HI) in Hi. rewrite (nth_lookup_Some _ _ _ _ (restarts_lookup pd lay interval HI b i Hi)).
    destruct (lookup_lt_is_Some_2 b _ Hi) as [e Ee].
    destruct (anchor_decode pd lay interval b (proj1 (ts_entries shape bi b (ld_block _ _ _ Hl))) (i * interval) e Hpd Ee (anchor_run interval i)) as (d & m & -> & Ek & Es).
    cbn [rbind]. unfold q. by rewrite Ek, Es, Ee.
  - exists l. split; [done|]. split; [done|]. unfold q in *. split.
    + destruct Hlo as [->|Hlo]; [by left|right]. intros e Ee. by rewrite Ee in Hlo.
    + destruct Hhi as [->|Hhi]; [by left|right]. intros e Ee. by rewrite Ee in Hhi.
Qed.

Lemma seek_delta_lands bi b uk s st :
  pd = true -> blocks !! bi = Some b -> si_err st = None ->
  lands (place_ge bi b (partition_point (stored_lt uk s) b)) (seek_delta checksum mmap r (Z.of_nat bi) uk s st).
Proof.
  intros Hpd Hb He. pose proof (ts_interval shape) as HI. unfold seek_delta.
  destruct (load_spec bi b false st Hb He) as [(st1 & -> & Hl & _)|(st1 & -> & Hd)]; [|by right].
  destruct (restart_search_block bi b uk s st1 Hpd Hl) as (l & -> & Hln & Hlo & Hhi). set (k := (l - 1)%nat).
  rewrite (run_partition bi b uk s l Hb Hln Hlo Hhi). fold k. set (p := partition_point _ (run_of interval b k)).
  rewrite (ld_restarts _ _ _ Hl Hpd), (restarts_length pd lay interval HI). pose proof (run_count_lt interval HI (length b)) as Hc.
  assert (0 < length b)%nat as Hb0 by (pose proof (ts_nonempty shape bi b Hb); destruct b; [done|cbn; lia]).
  assert (0 < run_count interval (length b))%nat as Hn0 by (apply Hc; lia). assert (k * interval < length b)%nat as Hk by (apply Hc; unfold k; lia).
  destruct (Nat.eqb_spec (run_count interval (length b)) 0); [lia|].
  destruct (ensure_run_spec Hpd bi b k st1 Hl Hk) as (st2 & -> & Hl2 & Hh).
  destruct (find_in_run_spec Hpd bi b k uk s st2 Hl2 Hk Hh) as (st3 & -> & Hl3 & Er). fold p. rewrite <- Er in Hh.
  unfold place_ge. pose proof (run_of_length interval b k). destruct (Nat.ltb_spec p (length (run_of interval b k))) as [Hp|Hp].
  - destruct (Nat.ltb_spec (k * interval + p) (length b)); [|lia]. destruct (lookup_lt_is_Some_2 _ _ Hp) as [e Ee]. left. exists b, e. by apply (position_in_run_stands Hpd).
  - rewrite (ld_err _ _ _ Hl3). destruct (Nat.ltb_spec (S k) (run_count interval (length b))) as [Hk2|Hk2].
    + apply Hc in Hk2. destruct (Nat.ltb_spec (S k * interval) (length b)); [|lia]. destruct (ensure_run_spec Hpd bi b (S k) st3 Hl3 Hk2) as (st4 & -> & Hl4 & Hh4).
      destruct (lookup_lt_is_Some_2 (run_of interval b (S k)) 0) as [e Ee]; [rewrite run_of_length; lia|]. left. exists b, e.
      rewrite <- (Nat.add_0_r (S k * interval)). by apply (position_in_run_stands Hpd).
    + rewrite Nat.ltb_irrefl. apply enter_next_lands; [apply Hl3|by eapply lookup_lt_Some].
Qed.

(** Where a seek ends. *)
Definition seek_place (uk : key) (s : Z) : option (nat * nat) :=
  let bi := find_block r uk s in
  match blocks !! bi with
  | Some b => place_ge bi b (partition_point (stored_lt uk s) b)
  | None => None
  end.

Lemma seek_lands uk s st : si_err st = None -> lands (seek_place uk s) (sst_seek checksum mmap r uk s st).
Proof.
  intros He. unfold sst_seek, seek_place. rewrite (ts_count shape). set (bi := find_block r uk s). destruct (Nat.leb_spec (length blocks) bi) as [Hge|Hlt].
  { rewrite (proj2 (lookup_ge_None blocks bi) Hge). left. done. }
  destruct (lookup_lt_is_Some_2 blocks bi Hlt) as [b Hb]. rewrite Hb. assert (pd = true \/ pd = false) as [Hpd|Hpd] by (destruct pd; auto); rewrite Hpd.
  { by apply seek_delta_lands. }
  destruct (load_spec bi b true st Hb He) as [(st1 & -> & Hl & Ho)|(st1 & -> & Hd)]; [|by right]. specialize (Ho eq_refl Hpd).
  assert (bsearch (offset_lt r (raw_bytes st1) uk s) (si_offsets st1) (length (si_offsets st1)) 0 (length (si_offsets st1)) = partition_point (stored_lt uk s) b) as ->.
  { apply bsearch_partition; [by rewrite Ho, length_map, length_seq| |intros i j x y; by apply stored_lt_down, (block_sorted bi)].
    intros i o e Hi Ee. rewrite Ho, list_lookup_fmap, lookup_seq_lt in Hi by by eapply lookup_lt_Some. injection Hi as <-. unfold offset_lt, raw_bytes. rewrite (ld_raw _ _ _ Hl). cbn [default from_option].
    destruct (base_decode pd lay interval b (proj1 (ts_entries shape bi b Hb)) i e (trailer_bytes (restarts b)) Hpd Ee) as (d & Ed & Ek & Hd).
    unfold Datatypes.id. fold (raw b) in Ed, Ek, Hd. rewrite Ed, Ek, (ds_seq _ _ _ Hd). done. }
  rewrite Ho, length_map, length_seq. unfold place_ge. set (p := partition_point _ b). destruct (Nat.ltb_spec p (length b)) as [Hp|Hp]; destruct (Nat.leb_spec (length b) p); try lia.
  - destruct (lookup_lt_is_Some_2 b p Hp) as [e Ee]. left. exists b, e. rewrite (nth_lookup_Some _ p _ (offset b p)) by (rewrite list_lookup_fmap, lookup_seq_lt by lia; done).
    apply decode_at_stands; try done; lia.
  - apply enter_next_lands; [apply Hl|done].
Qed.

(** ** Positions in the run *)

Definition start (bi : nat) : nat := length (concat (take bi blocks)).
Definition in_run (q : option (nat * nat)) : option nat := match q with Some (bi, j) => Some (start bi + j)%nat | None => None end.
Definition run_entries : list Entry := map entry_of (concat blocks).

Lemma start_S bi b : blocks !! bi = Some b -> start (S bi) = (start bi + length b)%nat.
Proof. intros Hb. unfold start. rewrite (take_S_r _ _ _ Hb), concat_app, length_app. cbn [concat]. by rewrite app_nil_r. Qed.

Lemma start_all : start (length blocks) = length run_entries.
Proof. unfold start, run_entries. by rewrite firstn_all, length_map. Qed.

Lemma run_split bi b : blocks !! bi = Some b -> concat blocks = concat (take bi blocks) ++ b ++ concat (drop (S bi) blocks).
Proof. intros Hb. rewrite <- (take_drop_middle blocks bi b Hb) at 1. by rewrite concat_app. Qed.

Lemma in_run_lookup bi b j e : blocks !! bi = Some b -> b !! j = Some e -> run_entries !! (start bi + j)%nat = Some (entry_of e).
Proof.
  intros Hb Ej. unfold run_entries, start. rewrite list_lookup_fmap, (run_split bi b Hb), lookup_app_r, Nat.add_comm, Nat.add_sub by lia.
  rewrite lookup_app_l by by eapply lookup_lt_Some. by rewrite Ej.
Qed.

Lemma rem_start bi : (bi <= length blocks)%nat -> rem true run_entries (in_run (start_of bi)) = drop (start bi) run_entries.
Proof.
  intros Hbi. unfold start_of. destruct (Nat.ltb_spec bi (length blocks)); cbn [in_run rem]; [by rewrite Nat.add_0_r|].
  replace bi with (length blocks) by lia. by rewrite start_all, drop_all.
Qed.

Lemma rem_place_ge bi b j : blocks !! bi = Some b -> (j <= length b)%nat -> rem true run_entries (in_run (place_ge bi b j)) = drop (start bi + j) run_entries.
Proof.
  intros Hb Hj. unfold place_ge. destruct (Nat.ltb_spec j (length b)); [done|]. rewrite rem_start by (apply lookup_lt_Some in Hb; lia).
  rewrite (start_S bi b Hb). do 2 f_equal. lia.
Qed.

Lemma rem_end bi : (S bi <= length blocks)%nat -> rem false run_entries (in_run (end_of bi)) = reverse (take (start (S bi)) run_entries).
Proof.
  intros Hbi. destruct (lookup_lt_is_Some_2 blocks bi Hbi) as [b Hb]. unfold end_of. rewrite Hb. cbn [fmap option_fmap option_map in_run rem]. do 2 f_equal.
  rewrite (start_S bi b Hb). pose proof (ts_nonempty shape bi b Hb). destruct b; [done|cbn; lia].
Qed.

Lemma rem_before bi b j : blocks !! bi = Some b -> rem false run_entries (in_run (before_ bi j)) = reverse (take (start bi + j) run_entries).
Proof.
  intros Hb. destruct j as [|j]; [|cbn [before_ in_run rem]; do 2 f_equal; lia]. rewrite Nat.add_0_r. destruct bi as [|bi]; [done|].
  apply (rem_end bi). apply lookup_lt_Some in Hb. lia.
Qed.

Lemma cmp_internal_entry uk s e : cmp_internal (r_cmp r) (s_key e) (s_seq e) uk s = entry_cmp (r_cmp r) (entry_of e) uk s.
Proof. unfold cmp_internal, entry_cmp. cbn. by destruct (compare (r_cmp r) (s_key e) uk). Qed.

Lemma stored_lt_entry uk s e : stored_lt uk s e = is_lt (entry_cmp (r_cmp r) (entry_of e) uk s).
Proof. unfold stored_lt, target_lt. by rewrite cmp_internal_entry. Qed.

Lemma partition_point_map {A B} (f : A -> B) (p : B -> bool) (q : A -> bool) l :
  (forall x, p (f x) = q x) -> partition_point p (map f l) = partition_point q l.
Proof. intros Hpq. induction l as [|x l IH]; [done|]. cbn. by rewrite Hpq, IH. Qed.

(** The block the index names and its partition point are those of the run. *)
Lemma rem_seek uk s : rem true run_entries (in_run (seek_place uk s)) = List.filter (at_or_after (r_cmp r) uk s) run_entries.
Proof.
  destruct (ts_route shape uk s) as (Hle & Hlt & Hge). unfold seek_place. set (bi := find_block r uk s) in *.
  assert (forall e, e ∈ concat (take bi blocks) -> stored_lt uk s e = true) as Hpre.
  { intros e (b & Hb & He)%elem_of_concat. apply list_elem_of_lookup in Hb as [i Hi]. apply lookup_take_Some in Hi as [Hi Hib]. by eapply Hlt. }
  destruct (partition_filter (fun e => is_lt (entry_cmp (r_cmp r) e uk s)) (entry_lt (r_cmp r)) run_entries (ts_sorted shape)) as [_ Hd].
  { intros a b. by apply (entry_cmp_lt_closed (r_cmp r)). }
  assert (List.filter (at_or_after (r_cmp r) uk s) run_entries = drop (partition_point (stored_lt uk s) (concat blocks)) run_entries) as ->.
  { rewrite <- (partition_point_map entry_of (fun e => is_lt (entry_cmp (r_cmp r) e uk s)) _ _ (fun e => eq_sym (stored_lt_entry uk s e))). fold run_entries. rewrite Hd. apply List.filter_ext. intros e. apply is_ge_negb. }
  destruct (blocks !! bi) as [b|] eqn:Eb.
  - rewrite (rem_place_ge bi b) by (done || apply partition_point_le). f_equal. symmetry. rewrite (run_split bi b Eb). apply partition_point_unique.
    + rewrite !length_app. pose proof (partition_point_le (stored_lt uk s) b). unfold start. lia.
    + intros i e Hi Ei. destruct (decide (i < start bi)%nat).
      * rewrite lookup_app_l in Ei by done. by eapply Hpre, list_elem_of_lookup_2.
      * unfold start in *. rewrite lookup_app_r in Ei by lia. pose proof (partition_point_le (stored_lt uk s) b). rewrite lookup_app_l in Ei by lia.
        pose proof (partition_point_take (stored_lt uk s) b) as Ht. rewrite Forall_lookup in Ht. apply (Ht (i - length (concat (take bi blocks)))%nat). by rewrite lookup_take_lt by lia.
    + intros e Ee. unfold start in Ee. rewrite lookup_app_r, Nat.add_comm, Nat.add_sub in Ee by lia. destruct (decide (partition_point (stored_lt uk s) b < length b)%nat).
      * rewrite lookup_app_l in Ee by done. by apply (partition_point_at _ b).
      * rewrite lookup_app_r in Ee by lia. apply list_elem_of_lookup_2, elem_of_concat in Ee as (b' & Hb' & He'). apply list_elem_of_lookup in Hb' as [i Hi].
        rewrite lookup_drop in Hi. eapply (Hge (S bi + i)%nat); [lia|exact Hi|done].
  - apply lookup_ge_None in Eb. cbn [in_run rem]. rewrite drop_ge; [done|]. unfold run_entries. rewrite length_map. rewrite take_ge in Hpre by done.
    enough (partition_point (stored_lt uk s) (concat blocks) = length (concat blocks)) by lia. apply partition_point_unique; [done| |].
    + intros i e _ Ei. by eapply Hpre, list_elem_of_lookup_2.
    + intros e Ee. apply lookup_lt_Some in Ee. lia.
Qed.

(** ** At or before a target *)

(** It stands where [X] remains, or failed. *)
Definition arrives (forward : bool) (X : list Entry) (st : SstState) : Prop :=
  (exists q, on_place q st /\ rem forward run_entries (in_run q) = X) \/ dead st.

Lemma lands_arrives forward q X st : lands q st -> rem forward run_entries (in_run q) = X -> arrives forward X st.
Proof. intros [Hq|Hd] E; [left; eauto|by right]. Qed.

Lemma on_place_valid bi j b e st : stands bi j b e st -> sst_valid st = true.
Proof. intros [Hs _]. unfold sst_valid. by rewrite (sh_valid _ _ _ _ _ Hs), (ld_err _ _ _ (sh_loaded _ _ _ _ _ Hs)). Qed.

Lemma failing_invalid st : failing st -> sst_valid st = false.
Proof. unfold failing, sst_valid. intros He. destruct (si_err st); [apply andb_false_r|done]. Qed.

Lemma rem_last : rem false run_entries (in_run (match length blocks with O => None | S i => end_of i end)) = reverse run_entries.
Proof.
  destruct (length blocks) as [|i] eqn:El.
  - assert (run_entries = []) as ->; [|done]. unfold run_entries. by destruct blocks.
  - rewrite rem_end by lia. rewrite <- El, start_all. by rewrite firstn_all.
Qed.

(** The entries up to a target, from where a seek to it stands. *)
Lemma le_prefix uk s g e :
  run_entries !! g = Some e -> drop g run_entries = List.filter (at_or_after (r_cmp r) uk s) run_entries ->
  List.filter (at_or_before (r_cmp r) uk s) run_entries = if is_gt (entry_cmp (r_cmp r) e uk s) then take g run_entries else take (S g) run_entries.
Proof.
  intros Eg Hd. pose proof (ts_sorted shape) as Hs. fold run_entries in Hs. set (cmp := r_cmp r) in *.
  assert (forall i x, (i < g)%nat -> run_entries !! i = Some x -> is_lt (entry_cmp cmp x uk s) = true) as Hpre.
  { destruct (partition_filter (fun x => is_lt (entry_cmp cmp x uk s)) (entry_lt cmp) run_entries Hs) as [Ht Hd']; [intros a b; by apply entry_cmp_lt_closed|].
    set (n := partition_point _ run_entries) in *. assert (n = g) as ->.
    { apply (f_equal length) in Hd, Hd'. rewrite length_drop in Hd, Hd'. assert (List.filter (at_or_after cmp uk s) run_entries = List.filter (fun x => negb (is_lt (entry_cmp cmp x uk s))) run_entries) as E by (apply List.filter_ext; intros x; apply is_ge_negb).
      rewrite E in Hd. apply lookup_lt_Some in Eg. assert (n <= length run_entries)%nat by apply partition_point_le. lia. }
    intros i x Hi Hx. assert (x ∈ take g run_entries) as Hx' by (apply (list_elem_of_lookup_2 _ i); by rewrite lookup_take_lt).
    rewrite Ht in Hx'. apply list_elem_of_In, List.filter_In in Hx' as [_ ?]. done. }
  assert (is_lt (entry_cmp cmp e uk s) = false) as Hge.
  { assert (e ∈ drop g run_entries) as He by (apply (list_elem_of_lookup_2 _ 0); by rewrite lookup_drop, Nat.add_0_r).
    rewrite Hd in He. apply list_elem_of_In, List.filter_In in He as [_ He]. unfold at_or_after in He. rewrite is_ge_negb in He. by apply negb_true_iff. }
  assert (forall n, (forall i x, (i < n)%nat -> run_entries !! i = Some x -> at_or_before cmp uk s x = true) ->
    (forall i x, (n <= i)%nat -> run_entries !! i = Some x -> at_or_before cmp uk s x = false) -> List.filter (at_or_before cmp uk s) run_entries = take n run_entries) as Hsplit.
  { intros n H1 H2. rewrite <- (take_drop n run_entries) at 1. rewrite List.filter_app, filter_all, filter_none, app_nil_r; [done| |]; apply Forall_lookup.
    - intros i x. rewrite lookup_drop. apply H2. lia.
    - intros i x [Hx Hi]%lookup_take_Some. by eapply H1. }
  assert (forall i x, (i < g)%nat -> run_entries !! i = Some x -> at_or_before cmp uk s x = true) as Hle.
  { intros i x Hi Hx. specialize (Hpre i x Hi Hx). unfold at_or_before. by destruct (entry_cmp cmp x uk s). }
  assert (forall i x, (g < i)%nat -> run_entries !! i = Some x -> at_or_before cmp uk s x = false) as Hgt.
  { intros i x Hi Hx. pose proof (StronglySorted_lookup_lt _ _ g i e x Hs Eg Hx Hi) as Hex. unfold at_or_before. destruct (is_le (entry_cmp cmp x uk s)) eqn:E; [|done].
    apply (entry_cmp_le cmp) in E. pose proof (entry_cmp_lt cmp e uk s) as [_ Hlt]. rewrite Hge in Hlt. exfalso. enough (false = true) by done. apply Hlt. unfold entry_lt in Hex.
    destruct Hex as [Hex|[Ek Hex]], E as [E|[Ek' E]]; [left; korder|left; congruence|left; congruence|right; split; [congruence|lia]]. }
  destruct (is_gt (entry_cmp cmp e uk s)) eqn:Eg'; apply Hsplit.
  - done.
  - intros i x Hi Hx. destruct (decide (i = g)) as [->|]; [|apply (Hgt i); [lia|done]]. rewrite Eg in Hx. injection Hx as <-. unfold at_or_before. by destruct (entry_cmp cmp e uk s).
  - intros i x Hi Hx. destruct (decide (i = g)) as [->|]; [|apply (Hle i); [lia|done]]. rewrite Eg in Hx. injection Hx as <-. unfold at_or_before. by destruct (entry_cmp cmp e uk s).
  - intros i x Hi Hx. apply (Hgt i); [lia|done].
Qed.

Lemma seek_for_prev_arrives uk s st : si_err st = None ->
  arrives false (reverse (List.filter (at_or_before (r_cmp r) uk s) run_entries)) (sst_seek_for_prev checksum mmap r uk s st).
Proof.
  intros He. unfold sst_seek_for_prev. pose proof (rem_seek uk s) as Hr. destruct (seek_lands uk s st He) as [Hq|[Hd Hb]].
  2: { rewrite (failing_invalid _ Hd). right. split; [by apply last_failing|done]. }
  set (st1 := sst_seek checksum mmap r uk s st) in *. destruct (seek_place uk s) as [[bi j]|].
  - destruct Hq as (b & e & Hst). rewrite (on_place_valid _ _ _ _ _ Hst). cbn [negb]. pose proof Hst as [Hs _]. pose proof (ld_block _ _ _ (sh_loaded _ _ _ _ _ Hs)) as Hb.
    rewrite (sh_key _ _ _ _ _ Hs), (shows_seq _ _ _ _ _ Hs), cmp_internal_entry. cbn [in_run rem] in Hr.
    rewrite (le_prefix uk s _ _ (in_run_lookup bi b j e Hb (sh_entry _ _ _ _ _ Hs)) Hr). destruct (is_gt _).
    + eapply lands_arrives; [by eapply prev_lands|]. by apply (rem_before bi b).
    + left. exists (Some (bi, j)). split; [by exists b, e|done].
  - destruct Hq as [Hv Hn]. assert (sst_valid st1 = false) as -> by (unfold sst_valid; by rewrite Hv). cbn [negb].
    eapply lands_arrives; [by apply last_lands|]. rewrite rem_last. f_equal. symmetry. apply filter_all. apply Forall_forall. intros x Hx.
    unfold at_or_before. destruct (at_or_after (r_cmp r) uk s x) eqn:Ea; [|unfold at_or_after in Ea; by destruct (entry_cmp (r_cmp r) x uk s)].
    exfalso. cbn [in_run rem] in Hr. assert (x ∈ List.filter (at_or_after (r_cmp r) uk s) run_entries) as Hin by (apply list_elem_of_In, List.filter_In; by rewrite <- list_elem_of_In).
    rewrite <- Hr in Hin. by apply elem_of_nil in Hin.
Qed.

Lemma shows_entry bi j b e st : shows bi j b e st -> sst_entry checksum r vlog st = entry_of e.
Proof.
  intros Hs. pose proof (ld_block _ _ _ (sh_loaded _ _ _ _ _ Hs)) as Hb. pose proof (proj1 (Forall_lookup _ _) (proj2 (ts_entries shape bi b Hb)) j e (sh_entry _ _ _ _ _ Hs)) as Hsep.
  unfold sst_entry. destruct (sh_cur _ _ _ _ _ Hs) as (d & Ed & Hd). rewrite Ed, (sh_key _ _ _ _ _ Hs), (ds_seq _ _ _ Hd), (ds_kind _ _ _ Hd), (ds_ttl _ _ _ Hd).
  assert (sst_value checksum vlog st = Ok (s_value e)) as ->; [|done]. unfold sst_value, raw_bytes. rewrite Ed, (ds_vlog _ _ _ Hd), (ld_raw _ _ _ (sh_loaded _ _ _ _ _ Hs)).
  destruct (s_vlog e) eqn:Ev; [rewrite (ds_off _ _ _ Hd Ev), (ds_len _ _ _ Hd); by apply Hsep|by rewrite <- (ds_inline _ _ _ Hd Ev)].
Qed.
End Walk.

(** ** The iterator is a cursor *)

Section Cursor.
Context (checksum : list byte -> Z) `{Codecs} (cmp : Comparator) `{!TotalOrder cmp}.

Definition sst_on (es : list Entry) (p : option nat) (it : SstIterator) : Prop :=
  r_cmp (it_reader it) = cmp /\ exists interval blocks q,
    table_shape checksum (it_mmap it) (it_reader it) (it_vlog it) interval blocks /\ es = run_entries blocks /\
    on_place (it_reader it) interval blocks q (it_state it) /\ p = in_run blocks q.

(** A failed iterator is still one of its table. *)
Definition sst_dead (es : list Entry) (it : SstIterator) : Prop :=
  dead checksum (it_mmap it) (it_reader it) (it_state it).

Lemma arrives_on interval blocks forward X it f :
  table_shape checksum (it_mmap it) (it_reader it) (it_vlog it) interval blocks -> r_cmp (it_reader it) = cmp ->
  arrives checksum (it_mmap it) (it_reader it) interval blocks forward X (f (it_state it)) ->
  (exists p, sst_on (run_entries blocks) p (it_with f it) /\ rem forward (run_entries blocks) p = X) \/ sst_dead (run_entries blocks) (it_with f it).
Proof.
  intros Hsh Hc [(q & Hq & E)|Hd]; [left|by right]. exists (in_run blocks q). split; [|done]. split; [done|]. by exists interval, blocks, q.
Qed.

(** An operation that keeps errors and arrives from wherever there is none. *)
Lemma op_on forward (X : list Entry -> list Entry) es it f :
  (forall st, failing st -> failing (f st)) ->
  (r_cmp (it_reader it) = cmp -> forall interval blocks st, table_shape checksum (it_mmap it) (it_reader it) (it_vlog it) interval blocks -> si_err st = None ->
     arrives checksum (it_mmap it) (it_reader it) interval blocks forward (X (run_entries blocks)) (f st)) ->
  (exists p, sst_on es p it) \/ sst_dead es it ->
  (exists p, sst_on es p (it_with f it) /\ rem forward es p = X es) \/ sst_dead es (it_with f it).
Proof.
  intros Hf Ha [[p (Hc & interval & blocks & q & Hsh & -> & Hq & _)]|[Hd Hb]].
  - apply (arrives_on interval); [done|done|]. apply Ha; [done|done|]. destruct q as [[bi j]|]; [|apply Hq]. destruct Hq as (b & e & [Hs _]). apply Hs.
  - right. split; [by apply Hf|done].
Qed.

#[export] Program Instance sst_cursor : @Cursor cmp SstIterator (sst_ops checksum) := {| cur_on := sst_on; cur_dead := sst_dead |}.
Next Obligation.
  intros es p it (_ & interval & blocks & q & _ & _ & Hq & _). destruct q as [[bi j]|]; [|apply Hq]. destruct Hq as (b & e & [Hs _]). apply Hs.
Qed.
Next Obligation.
  intros es it (_ & interval & blocks & q & _ & _ & Hq & E). destruct q as [[bi j]|]; [done|]. destruct Hq as [Hv _]. cbn. unfold sst_valid. by rewrite Hv.
Qed.
Next Obligation.
  intros es i it (_ & interval & blocks & q & Hsh & -> & Hq & E). destruct q as [[bi j]|]; [|done]. destruct Hq as (b & e & Hst). injection E as ->.
  split; [by eapply on_place_valid|]. cbn. destruct Hst as [Hs _]. rewrite (shows_entry _ _ _ _ _ _ Hsh _ _ _ _ _ Hs). eapply in_run_lookup; [apply Hs|apply Hs].
Qed.
Next Obligation. intros es it [Hd _]. split; [by apply failing_invalid|done]. Qed.
Next Obligation.
  intros es i it forward (Hc & interval & blocks & q & Hsh & -> & Hq & E). destruct q as [[bi j]|]; [|done]. destruct Hq as (b & e & Hst). injection E as ->.
  assert (TotalOrder (r_cmp (it_reader it))) as HT by by rewrite Hc. pose proof Hst as [Hs _]. pose proof (ld_block _ _ _ _ _ _ (sh_loaded _ _ _ _ _ _ _ _ Hs)) as Hb.
  pose proof (sh_entry _ _ _ _ _ _ _ _ Hs) as Ej. pose proof (in_run_lookup blocks bi b j e Hb Ej) as Eg. destruct forward; cbn [cur_step cur_next cur_prev sst_ops];
    apply (arrives_on interval); try done; eapply lands_arrives.
  - by eapply next_lands.
  - rewrite (rem_forward _ _ _ Eg). cbn [tail]. rewrite <- Nat.add_succ_r. apply lookup_lt_Some in Ej. by apply (rem_place_ge blocks bi b (S j)).
  - by eapply prev_lands.
  - rewrite (rem_backward _ _ _ Eg). cbn [tail]. by eapply rem_before.
Qed.
Next Obligation.
  intros es it. apply (op_on true (fun es => es)); [apply first_failing|]. intros Hc interval blocks st Hsh He. assert (TotalOrder (r_cmp (it_reader it))) as HT by by rewrite Hc.
  eapply lands_arrives; [by eapply first_lands|]. by rewrite rem_start by lia.
Qed.
Next Obligation.
  intros es it. apply (op_on false (fun es => reverse es)); [apply last_failing|]. intros Hc interval blocks st Hsh He. assert (TotalOrder (r_cmp (it_reader it))) as HT by by rewrite Hc.
  eapply lands_arrives; [by eapply last_lands|]. by eapply rem_last.
Qed.
Next Obligation.
  intros es it k s _. apply (op_on true (fun es => List.filter (at_or_after cmp k s) es)); [apply seek_failing|]. intros Hc interval blocks st Hsh He.
  assert (TotalOrder (r_cmp (it_reader it))) as HT by by rewrite Hc. eapply lands_arrives; [by eapply seek_lands|]. rewrite <- Hc. by eapply rem_seek.
Qed.
Next Obligation.
  intros es it k s _. apply (op_on false (fun es => reverse (List.filter (at_or_before cmp k s) es))); [apply seek_for_prev_failing|]. intros Hc interval blocks st Hsh He.
  assert (TotalOrder (r_cmp (it_reader it))) as HT by by rewrite Hc. rewrite <- Hc. by eapply seek_for_prev_arrives.
Qed.
End Cursor.

(** ** Under calls *)

(** A client steps only from an entry. *)
Definition used `{CursorOps C} (c : C) (a : Call) : C :=
  match a with
  | CNext | CPrev => if cur_valid c then call c a else c
  | _ => call c a
  end.

(** A cursor beside one of the same run that cannot fail. *)
Section Beside.
Context (cmp : Comparator) {C D : Type} `{COps : CursorOps C} `{!Cursor cmp C} `{DOps : CursorOps D} `{!Cursor cmp D}.
Context (es : list Entry) (es_sorted : run_sorted cmp es) (d_alive : forall d : D, ~ cur_dead es d).

Definition beside (c : C) (d : D) : Prop := exists p, cur_on es p d /\ (cur_on es p c \/ cur_dead es c).

Lemma beside_meet forward X (c : C) (d : D) :
  (exists p, cur_on es p c /\ rem forward es p = X) \/ cur_dead es c -> (exists p, cur_on es p d /\ rem forward es p = X) \/ cur_dead es d -> beside c d.
Proof.
  intros Hc [(q & Hd & Eq)|Hd]; [|by destruct (d_alive d)]. exists q. split; [done|]. destruct Hc as [(p & Hc & Ep)|Hc]; [left|by right].
  assert (p = q) as <-; [|done]. apply (rem_inj es forward); [by apply (on_range cmp es p c)|by apply (on_range cmp es q d)|congruence].
Qed.

Lemma beside_step forward c d : beside c d -> beside (if cur_valid c then cur_step forward c else c) (if cur_valid d then cur_step forward d else d).
Proof.
  intros (p & Hd & Hc). assert (exists q, cur_on es q (if cur_valid d then cur_step forward d else d) /\ rem forward es q = tail (rem forward es p)) as (q & Hd' & Eq).
  { destruct p as [i|]; [|rewrite (on_none _ _ Hd); by exists None]. rewrite (proj1 (on_some _ _ _ Hd)). destruct (on_step _ _ _ forward Hd) as [?|Hx]; [done|by destruct (d_alive _ Hx)]. }
  destruct Hc as [Hc|Hc].
  - apply (beside_meet forward (tail (rem forward es p))); [|left; eauto]. destruct p as [i|]; [rewrite (proj1 (on_some _ _ _ Hc)); by apply on_step|].
    rewrite (on_none _ _ Hc). left. by exists None.
  - exists q. split; [done|]. right. by rewrite (proj1 (dead_err _ _ Hc)).
Qed.

Lemma beside_used c d a : beside c d -> beside (used c a) (used d a).
Proof.
  intros Hb. pose proof Hb as (p & Hd & Hc).
  assert ((exists p, cur_on es p c) \/ cur_dead es c) as Hc' by (destruct Hc; eauto). assert ((exists p, cur_on es p d) \/ cur_dead es d) as Hd' by eauto.
  destruct a; cbn [used call]; [eapply beside_meet; [by apply on_first|by apply on_first]|eapply beside_meet; [by apply on_last|by apply on_last]|
    eapply beside_meet; [by apply on_ge|by apply on_ge]|eapply beside_meet; [by apply on_le|by apply on_le]| |].
  - by apply (beside_step true).
  - by apply (beside_step false).
Qed.

Lemma beside_shown c d calls : beside c d ->
  (cur_err (fold_left used calls c) = None /\ shown (fold_left used calls c) = shown (fold_left used calls d)) \/
  (cur_dead es (fold_left used calls c) /\ cur_err (fold_left used calls c) <> None /\ shown (fold_left used calls c) = None).
Proof.
  revert c d. induction calls as [|a calls IH]; intros c d Hb; cbn; [|by apply IH, beside_used]. destruct Hb as (p & Hd & [Hc|Hc]).
  - left. split; [by eapply on_err|]. unfold shown. destruct p as [i|].
    + apply on_some in Hc as [-> Ec]. apply on_some in Hd as [-> Ed]. congruence.
    + by rewrite (on_none _ _ Hc), (on_none _ _ Hd).
  - right. destruct (dead_err _ _ Hc) as [Hv He]. split; [done|]. split; [done|]. unfold shown. by rewrite Hv.
Qed.
End Beside.

(** ** A written table *)

(** The file under an open reader, since changed to [klog]. *)
Definition with_klog (klog : list byte) (r : Reader) : Reader :=
  mkReader klog (r_cmp r) (r_index r) (r_min_key r) (r_max_key r) (r_num_entries r) (r_max_seq r) (r_bloom r) (r_layout r) (r_prefix_delta r) (r_table_caps r) (r_fragments r).

Section Written.
Context (checksum : list byte -> Z) (checksum_u32 : forall b, is_u32 (checksum b)) `{CodecsInvert, !CodecsTotal}.
Context {F : Type} (o : WriterOptions F) `{!TotalOrder (o_cmp o)}.

(** Every block of the changed file reads as it did, or not at all. *)
Definition same_or_unreadable (mmap : bool) (r : Reader) (klog : list byte) : Prop :=
  forall ie, ie ∈ r_index r -> read_data_block checksum mmap (with_klog klog r) (ie_handle ie) = read_data_block checksum mmap r (ie_handle ie) \/
    exists e, read_data_block checksum mmap (with_klog klog r) (ie_handle ie) = Err e.

Lemma pieces_lookup (ps : list Piece) i b : map fst ps !! i = Some b -> exists ie, ps !! i = Some (b, ie).
Proof. intros E. apply list_lookup_fmap_Some in E as ([b' ie] & -> & E). by exists ie. Qed.

Lemma written_shape mmap r vlog ps es klog :
  table_blocks checksum o r vlog ps es -> run_sorted (o_cmp o) es -> table_size es + 128 < 2 ^ 31 -> o_restart_interval o <> 0%nat ->
  same_or_unreadable mmap r klog -> table_shape checksum mmap (with_klog klog r) vlog (o_restart_interval o) (map fst ps).
Proof.
  intros Htb Hs Hsz Hi Hkl. pose proof Htb as [Ec Ei El Ep Hch Ees Hok Hsep].
  assert (forall k s, find_block (with_klog klog r) k s = route o ps k s) as Hfb by (intros k s; by rewrite <- (find_block_route checksum o r vlog ps es k s Htb)).
  assert (forall k s e, stored_lt (with_klog klog r) k s e = before (o_cmp o) (entry_of e) k s) as Hlt.
  { intros k s e. unfold stored_lt, target_lt. cbn [r_cmp with_klog]. rewrite Ec. apply before_of. }
  split; cbn [with_klog r_prefix_delta r_layout]; rewrite ?Ep, ?El.
  - lia.
  - unfold num_blocks. cbn. by rewrite Ei, !length_map.
  - intros i b (ie & E)%pieces_lookup. unfold read_block_no. cbn [r_index with_klog]. rewrite Ei, list_lookup_fmap, E. cbn.
    pose proof (block_reads checksum checksum_u32 o mmap r vlog ps es i b ie Htb ltac:(lia) E) as Hr. unfold raw_of in Hr. rewrite <- Hr. apply Hkl. rewrite Ei. apply list_elem_of_fmap. exists (b, ie).
    split; [done|]. by eapply list_elem_of_lookup_2.
  - intros i b (ie & E)%pieces_lookup ->. rewrite <- (take_drop_middle ps i _ E) in Hch. apply chain_ok_app in Hch as [_ ((l & Hl & _) & _)]. done.
  - intros i b (ie & E)%pieces_lookup. rewrite (flat_lookup ps i b ie E) in Hok, Hsep. apply Forall_app in Hok as [_ [? _]%Forall_app], Hsep as [_ [? _]%Forall_app]. done.
  - intros i b (ie & E)%pieces_lookup. destruct (block_size o ps i b ie E) as [Hz _]. rewrite Ees in Hz. unfold zlen in Hz. lia.
  - change (r_cmp (with_klog klog r)) with (r_cmp r). rewrite Ec. fold (flat ps). by rewrite Ees.
  - intros k s. rewrite Hfb, length_map. subst es. pose proof (chain_before checksum o (r_klog r) ps k s Hch Hs) as Hb. pose proof (chain_after checksum o (r_klog r) ps k s Hch Hs) as Ha.
    rewrite Forall_map, Forall_forall in Hb, Ha. split; [apply route_edges|]. split; intros i b e Hi' (ie & E)%pieces_lookup He; rewrite Hlt; [apply Hb|apply Ha]; unfold flat; apply elem_of_concat_map; exists (b, ie); (split; [|done]).
    + apply (list_elem_of_lookup_2 _ i). by rewrite lookup_take_lt.
    + apply (list_elem_of_lookup_2 _ (i - S (route o ps k s))). rewrite lookup_drop. by replace (S (route o ps k s) + (i - S (route o ps k s)))%nat with i by lia.
Qed.

Lemma intact_unbroken mmap r vlog ps es : table_blocks checksum o r vlog ps es -> table_size es + 128 < 2 ^ 31 -> ~ broken checksum mmap r.
Proof.
  intros Htb Hsz (i & e & Hi & Hr). unfold num_blocks, read_block_no in *. rewrite (tb_index _ _ _ _ _ _ Htb) in *. rewrite length_map in Hi.
  destruct (lookup_lt_is_Some_2 ps i Hi) as [[b ie] E]. rewrite list_lookup_fmap, E in Hr. cbn in Hr.
  by rewrite (block_reads checksum checksum_u32 o mmap r vlog ps es i b ie Htb ltac:(lia) E) in Hr.
Qed.
End Written.

Lemma used_table (checksum : list byte -> Z) `{Codecs} calls it :
  it_mmap (fold_left (@used _ (sst_ops checksum)) calls it) = it_mmap it /\ it_reader (fold_left (@used _ (sst_ops checksum)) calls it) = it_reader it.
Proof.
  revert it. induction calls as [|a calls IH]; intros it; cbn [fold_left]; [done|]. destruct (IH (@used _ (sst_ops checksum) it a)) as [-> ->].
  destruct a; cbn; try done; by destruct (sst_valid _).
Qed.

Lemma with_klog_same r : with_klog (r_klog r) r = r.
Proof. by destruct r. Qed.

(** C8: iterating a table is iterating the run it was written from.  For every
    writer configuration, an iterator over the opened table, under any
    sequence of seeks (first, last, at or after, at or before) and of steps in
    either direction from the entry it stands on, shows exactly the entries,
    values included, that a cursor over the run shows.  The block and restart
    searches, the offsets found while walking, the decoded runs and their
    fallback when the keys outgrow the arena, and the moves between blocks all
    agree with the run.  Should some blocks have become unreadable since the
    table was opened, every use of the iterator either still shows the right
    entry or is invalid and reports an error; it never skips a block silently.
    The keys of a run are indexed by 32-bit ends, hence the bound of 2 GiB. *)
Theorem table_iterator_refines_run (checksum : list byte -> Z) `{Codecs} (xxh3 : list byte -> Z) {F : Type} (bloom_sizing : Z -> F -> Z * Z)
    (o : WriterOptions F) (es : list Entry) (frags : list Fragment) :
  (forall b, is_u32 (checksum b)) -> CodecsInvert -> CodecsTotal -> table_input o es frags -> table_size es + 128 < 2 ^ 31 ->
  exists t, write_table checksum xxh3 bloom_sizing o es frags = Ok t /\
    (zlen (tf_klog t) < 2 ^ 64 -> (forall l, tf_vlog t = Some l -> zlen l < 2 ^ 64) ->
     exists r, open_table checksum (o_cmp o) (tf_klog t) = Ok r /\
       forall mmap klog calls, same_or_unreadable checksum mmap r klog ->
         let it := fold_left (@used _ (sst_ops checksum)) calls (sst_new mmap (with_klog klog r) (tf_vlog t)) in
         let run := fold_left (@used _ (shard_ops (o_cmp o))) calls (mkShardCur es None) in
         (si_err (it_state it) = None /\ @shown _ (sst_ops checksum) it = @shown _ (shard_ops (o_cmp o)) run) \/
         (si_err (it_state it) <> None /\ @shown _ (sst_ops checksum) it = None /\ klog <> r_klog r)).
Proof.
  intros Hck Hci Hct Hti Hsz. destruct (write_table_spec checksum xxh3 bloom_sizing o es frags Hck Hci Hct Hti) as (t & o' & Ec & Ein & E & Ht).
  destruct Hti as [HT Hn Hs _ _ _ _]. exists t. split; [exact E|]. intros Hk Hv. destruct (Ht Hk Hv) as (r & ps & Er & _ & Htb & _). exists r. split; [done|].
  intros mmap klog calls Hkl. rewrite <- Ec, <- Ein in *. pose proof (written_shape checksum Hck o' mmap r (tf_vlog t) ps es klog Htb Hs Hsz Hn Hkl) as Hsh.
  destruct (beside_shown (o_cmp o') (DOps := shard_ops (o_cmp o')) (COps := sst_ops checksum) es Hs) with (c := sst_new mmap (with_klog klog r) (tf_vlog t))
    (d := mkShardCur es None) (calls := calls) as [?|(Hd & He & Hsn)].
  - by intros d [].
  - exists None. split; [by split|]. left. split; [apply Htb|]. exists (o_restart_interval o'), (map fst ps), None. split; [done|]. split; [|done].
    unfold run_entries. fold (flat ps). symmetry. apply Htb.
  - by left.
  - right. split; [done|]. split; [done|]. intros ->. destruct Hd as [_ Hb]. destruct (used_table checksum calls (sst_new mmap (with_klog (r_klog r) r) (tf_vlog t))) as [E1 E2]. rewrite E1, E2 in Hb. cbn [it_mmap it_reader sst_new] in Hb.
    rewrite with_klog_same in Hb. by eapply (intact_unbroken checksum Hck o').
Qed.

Lemma table_iterator_refines_run_witness :
  exists t r, write_table (H := plain_codecs) (fun _ => 0) zlen (fun n (_ : unit) => (10 * n, 4)) sample_options sample_entries sample_fragments = Ok t /\
    open_table (H := plain_codecs) (fun _ => 0) Bytewise (tf_klog t) = Ok r /\
    @shown _ (sst_ops (H := plain_codecs) (fun _ => 0)) (fold_left (@used _ (sst_ops (H := plain_codecs) (fun _ => 0)))
      [CSeekGe [x61] 4; CNext; CPrev; CPrev] (sst_new true r (tf_vlog t))) = Some (mkEntry [x61] 5 KIND_PUT 0 [x76] true).
Proof.
  destruct (table_iterator_refines_run (H := plain_codecs) (fun _ => 0) zlen (fun n (_ : unit) => (10 * n, 4)) sample_options sample_entries sample_fragments)
    as (t & E & Ht).
  - intros b. by split.
  - split; cbn; intros; congruence.
  - split; cbn; eauto.
  - apply sample_input.
  - by vm_compute.
  - assert (zlen (tf_klog t) < 2 ^ 64 /\ forall l, tf_vlog t = Some l -> zlen l < 2 ^ 64) as [Hk Hv].
    { pose proof E as E'. vm_compute in E'. injection E' as <-. split; [by vm_compute|]. intros l [= <-]. by vm_compute. }
    destruct (Ht Hk Hv) as (r & Er & Hit). exists t, r. split; [done|]. split; [done|].
    specialize (Hit true (r_klog r) [CSeekGe [x61] 4; CNext; CPrev; CPrev]). rewrite with_klog_same in Hit.
    assert (same_or_unreadable (H := plain_codecs) (fun _ => 0) true r (r_klog r)) as Hsame by (intros ie _; left; rewrite with_klog_same; reflexivity).
    destruct (Hit Hsame) as [[_ Hs]|(_ & _ & Hn)]; [rewrite Hs; vm_compute; reflexivity|exfalso; apply Hn; reflexivity].
Defined.
