(* ===== verification/FileScan.v ===== *)
(** * FileScan: a scan over memtables and files (iterator.rs)

    [ChildIter], the children of a merge: the iterator of a memtable or the
    iterator of a table.  The operations only dispatch; that both are cursors
    makes the child one.  With it [CfScan] is closed over the containers
    themselves: sharded memtables as [Memtable] fills them, and table files as
    [TableWriter] writes and [TableReader] opens them.

    [ChildIter::Unified], the view of a shared memtable, is not modelled. *)

From Stdlib Require Import ZArith Lia Sorted.
From Stdlib.Strings Require Import Byte.
From stdpp Require Import base list sets sorting.
From S2P Require Import Prelude Encoding Codec Comparator Format Block SstEntry Wal Manifest RangeTombstone ReadPath Heap Cursor Merge MemIter Memtable Scan ScanGroup ScanIter CfScan DataBlock TableWriter TableReader SstTable SstIter.

Open Scope Z_scope.

Inductive ChildIter := ChildMem (m : MemMerge) | ChildSst (s : SstIterator).

Definition on_child {A} (f : MemMerge -> A) (g : SstIterator -> A) (c : ChildIter) : A :=
  match c with ChildMem m => f m | ChildSst s => g s end.

Definition child_ops (checksum : list byte -> Z) `{Codecs} : CursorOps ChildIter :=
  let M := mem_ops in
  let S := sst_ops checksum in {|
  cur_valid := on_child (@cur_valid _ M) (@cur_valid _ S);
  cur_err := on_child (fun _ => None) (@cur_err _ S);
  cur_entry := on_child (@cur_entry _ M) (@cur_entry _ S);
  cur_first := on_child (fun m => ChildMem (@cur_first _ M m)) (fun s => ChildSst (@cur_first _ S s));
  cur_last := on_child (fun m => ChildMem (@cur_last _ M m)) (fun s => ChildSst (@cur_last _ S s));
  cur_next := on_child (fun m => ChildMem (@cur_next _ M m)) (fun s => ChildSst (@cur_next _ S s));
  cur_prev := on_child (fun m => ChildMem (@cur_prev _ M m)) (fun s => ChildSst (@cur_prev _ S s));
  cur_ge k s := on_child (fun m => ChildMem (@cur_ge _ M k s m)) (fun x => ChildSst (@cur_ge _ S k s x));
  cur_le k s := on_child (fun m => ChildMem (@cur_le _ M k s m)) (fun x => ChildSst (@cur_le _ S k s x));
|}.

(** A table file under an open reader. *)
Record OpenFile := mkOpenFile { of_mmap : bool; of_reader : Reader; of_vlog : option (list byte) }.

(** [mem.iter()] and [SstIterator::new], as children. *)
Definition child_of_mem (mt : Memtable) : ChildIter := ChildMem (mt_iter mt).
Definition child_of_file (f : OpenFile) : ChildIter := ChildSst (sst_new (of_mmap f) (of_reader f) (of_vlog f)).

(** ** A child is a cursor *)

Section Child.
Context (checksum : list byte -> Z) `{Codecs} (cmp : Comparator) `{!TotalOrder cmp}.

(** At a place of a run; every block of a table reads. *)
Definition child_on (es : list Entry) (p : option nat) (c : ChildIter) : Prop :=
  match c with
  | ChildMem m => mem_on cmp es p m
  | ChildSst s => sst_on checksum cmp es p s /\ ~ broken checksum (it_mmap s) (it_reader s)
  end.

(** A table whose blocks all read does not fail. *)
Lemma sst_lift es s f forward X :
  ~ broken checksum (it_mmap s) (it_reader s) ->
  (exists p, sst_on checksum cmp es p (it_with f s) /\ rem forward es p = X) \/ sst_dead checksum es (it_with f s) ->
  (exists p, child_on es p (ChildSst (it_with f s)) /\ rem forward es p = X) \/ False.
Proof. intros Hb [(p & Hp & E)|[_ Hd]]; [|done]. left. by exists p. Qed.

#[export] Program Instance child_cursor : @Cursor cmp ChildIter (child_ops checksum) := {| cur_on := child_on; cur_dead _ _ := False |}.
Next Obligation. intros es p [m|s]; cbn; [done|]. intros [Hp _]. by apply (on_err (Cursor := sst_cursor checksum cmp) es p s). Qed.
Next Obligation. intros es [m|s]; cbn; [apply (on_none (Cursor := mem_cursor cmp))|]. intros [Hp _]. by apply (on_none (Cursor := sst_cursor checksum cmp) es s). Qed.
Next Obligation. intros es i [m|s]; cbn; [apply (on_some (Cursor := mem_cursor cmp))|]. intros [Hp _]. by apply (on_some (Cursor := sst_cursor checksum cmp) es i s). Qed.
Next Obligation. done. Qed.
Next Obligation.
  intros es i [m|s] forward Hc; [pose proof (on_step (Cursor := mem_cursor cmp) es i m forward Hc) as Hs; by destruct forward|]. destruct Hc as [Hp Hb].
  pose proof (on_step (Cursor := sst_cursor checksum cmp) es i s forward Hp) as Hs. destruct forward; by apply sst_lift.
Qed.
Next Obligation.
  intros es [m|s] [[p Hc]|[]]; [apply (on_first (Cursor := mem_cursor cmp)); eauto|]. destruct Hc as [Hp Hb].
  apply sst_lift; [done|]. apply (on_first (Cursor := sst_cursor checksum cmp) es s). eauto.
Qed.
Next Obligation.
  intros es [m|s] [[p Hc]|[]]; [apply (on_last (Cursor := mem_cursor cmp)); eauto|]. destruct Hc as [Hp Hb].
  apply sst_lift; [done|]. apply (on_last (Cursor := sst_cursor checksum cmp) es s). eauto.
Qed.
Next Obligation.
  intros es [m|s] k sq Hs [[p Hc]|[]]; [apply (on_ge (Cursor := mem_cursor cmp)); eauto|]. destruct Hc as [Hp Hb].
  apply sst_lift; [done|]. apply (on_ge (Cursor := sst_cursor checksum cmp) es s); eauto.
Qed.
Next Obligation.
  intros es [m|s] k sq Hs [[p Hc]|[]]; [apply (on_le (Cursor := mem_cursor cmp)); eauto|]. destruct Hc as [Hp Hb].
  apply sst_lift; [done|]. apply (on_le (Cursor := sst_cursor checksum cmp) es s); eauto.
Qed.
End Child.

(** ** What is behind a family *)

Section Behind.
Context (checksum : list byte -> Z) `{Codecs} (xxh3 : list byte -> Z) {F : Type} (bloom_sizing : Z -> F -> Z * Z).
Context (cmp : Comparator) `{!TotalOrder cmp} (key_hash : key -> Z).

(** A memtable that writers have filled with the entries [es]. *)
Definition filled_with (mt : Memtable) (es : list Entry) : Prop :=
  exists ops, let recs := concat (map op_records ops) in
    mt = fold_left (mt_step key_hash) ops (memtable_new cmp) /\ NoDup (map record_id recs) /\ (forall r, r ∈ recs -> 0 <= r_kind r < 256) /\
    Z.of_nat (length recs) < 2 ^ 63 /\ mt_snapshot mt = es.

(** A file that some writer left for the entries and range deletes of [t], open. *)
Definition stored_in (f : OpenFile) (t : Table) : Prop :=
  exists (o : WriterOptions F) w, o_cmp o = cmp /\ table_input o (t_entries t) (t_frags t) /\ table_size (t_entries t) + 128 < 2 ^ 31 /\
    write_table checksum xxh3 bloom_sizing o (t_entries t) (t_frags t) = Ok w /\ zlen (tf_klog w) < 2 ^ 64 /\ (forall l, tf_vlog w = Some l -> zlen l < 2 ^ 64) /\
    open_table checksum cmp (tf_klog w) = Ok (of_reader f) /\ of_vlog f = tf_vlog w.

Lemma filled_on mt es : filled_with mt es -> child_on checksum cmp es None (child_of_mem mt).
Proof.
  intros (ops & -> & Hn & Hk & Hl & <-). cbn. by apply (iter_refines cmp key_hash (concat (map op_records ops)) _ (mt_inv_exec cmp key_hash ops)).
Qed.

Lemma filled_readable mt es e : filled_with mt es -> e ∈ es -> e_readable e = true.
Proof.
  intros (ops & -> & Hn & Hk & Hl & <-) He.
  rewrite (snapshot_entries cmp key_hash (concat (map op_records ops)) _ (mt_inv_exec cmp key_hash ops)) in He by done. by apply elem_of_map in He as (r & _ & <-).
Qed.

Lemma stored_on f t : (forall b, is_u32 (checksum b)) -> CodecsInvert -> CodecsTotal -> stored_in f t -> child_on checksum cmp (t_entries t) None (child_of_file f).
Proof.
  intros Hck Hci Hct (o & w & Ec & Hti & Hsz & Ew & Hk & Hv & Er & Ev). destruct (write_table_spec checksum xxh3 bloom_sizing o _ _ Hck Hci Hct Hti) as (w' & o' & Ec' & Ei & Ew' & Ht).
  rewrite Ew in Ew'. injection Ew' as <-. destruct (Ht Hk Hv) as (r & ps & Er' & _ & Htb & _). rewrite Ec, Er in Er'. injection Er' as <-.
  destruct Hti as [HT Hn Hs _ _ _ _]. rewrite <- Ec', <- Ei, <- Ev in *. cbn. split; [|by eapply (intact_unbroken checksum Hck o')].
  split; [cbn; rewrite <- Ec; apply Htb|]. exists (o_restart_interval o'), (map fst ps), None. split; [|split; [|done]].
  - cbn. rewrite <- (with_klog_same (of_reader f)). apply (written_shape checksum Hck o' _ _ _ ps (t_entries t)); try done. intros ie _. left. by rewrite with_klog_same.
  - unfold run_entries. fold (flat ps). symmetry. apply Htb.
Qed.

Lemma stored_readable f t e : stored_in f t -> e ∈ t_entries t -> e_readable e = true.
Proof. intros (o & w & _ & Hti & _) He. destruct Hti as [_ _ _ Hin _ _ _]. rewrite Forall_forall in Hin. by apply Hin. Qed.
End Behind.


(** One table of the sample family, written and opened. *)
Definition no_reader : Reader := mkReader [] Bytewise [] [] [] 0 0 None Base false 0 [].
Definition sample_file (t : Table) : OpenFile :=
  match write_table (H := plain_codecs) (fun _ => 0) zlen (fun n (_ : unit) => (10 * n, 4)) sample_options (t_entries t) (t_frags t) with
  | Ok w => match open_table (H := plain_codecs) (fun _ => 0) Bytewise (tf_klog w) with
            | Ok r => mkOpenFile true r (tf_vlog w)
            | Err _ => mkOpenFile true no_reader None
            end
  | Err _ => mkOpenFile true no_reader None
  end.

Definition sample_memtable : Memtable := fold_left (mt_step sample_hash) [OPut (mkRecord [x62] [x6f] 20 0 KIND_MERGE)] (memtable_new Bytewise).

Lemma sample_filled m : m_entries m ∈ map m_entries (cs_mem sample_family :: cs_imm sample_family) -> filled_with Bytewise sample_hash sample_memtable (m_entries m).
Proof.
  intros Hm. cbn in Hm. apply list_elem_of_singleton in Hm as ->. eexists. split; [reflexivity|]. split; [cbn; apply NoDup_singleton|].
  split; [intros r Hr; cbn in Hr; apply list_elem_of_singleton in Hr as ->; by vm_compute|]. split; [by vm_compute|by vm_compute].
Qed.

Lemma sample_stored t : t ∈ concat (cs_levels sample_family) -> stored_in (H := plain_codecs) (fun _ => 0) zlen (fun n (_ : unit) => (10 * n, 4)) Bytewise (sample_file t) t.
Proof.
  intros Ht. assert (Forall (fun t => table_input sample_options (t_entries t) (t_frags t)) (concat (cs_levels sample_family))) as Hin.
  { cbn [cs_levels sample_family sample_levels concat app]. repeat apply List.Forall_cons; [..|apply List.Forall_nil];
      (split; [apply _|done| | | |done|by vm_compute]; cbn [t_entries t_frags];
       [sorted_runs|repeat constructor; cbn; try done; unfold is_len, is_u64, is_i64, U32_MAX, zlen; cbn; lia|]);
      (split; [split; repeat constructor; cbn; done|]; split; [repeat constructor; cbn; unfold is_u64, is_len; cbn; lia || done|]; split; [by split|by vm_compute]). }
  rewrite Forall_forall in Hin. specialize (Hin t Ht). cbn in Ht.
  elems; (eexists sample_options, _; split; [done|]; split; [done|]; split; [by vm_compute|]; split; [vm_compute; reflexivity|];
          split; [by vm_compute|]; split; [intros l [= <-]; by vm_compute|]; split; [vm_compute; reflexivity|vm_compute; reflexivity]).
Qed.

