(* ===== verification/Compaction.v ===== *)
(** * Compaction (compaction.rs)

    One span of a compaction job: the merge of its input tables, the retention
    of versions below the oldest live snapshot, the masking by range deletes,
    the folding of operand chains, and the output builder that cuts the merged
    stream into tables and clips the range tombstones to what each of them
    owns.  An input is what its iterator yields: the entries of a sorted run
    and, possibly, the error at which it stops.  An output is what it holds; the
    file and the catalog record it becomes are the subject of [LevelOutput].  A
    failed write aborts the job. *)

From Stdlib Require Import ZArith Lia Sorted.
From Stdlib.Strings Require Import Byte.
From stdpp Require Import base list sets sorting.
From S2P Require Import Prelude Encoding Codec Comparator Format RangeTombstone Wal Manifest ReadPath.

Open Scope Z_scope.

(** ** Version retention *)

Inductive Retention := Drop | Keep (filter_eligible : bool).

Record VersionRetention := mkVR {
  bottom : bool;
  oldest_snapshot : Z;
  now : Z;
  last_key : option key;
  emitted_at_or_below_snapshot : bool;
  live_operands : bool;
}.

Definition retention_new (b : bool) (oldest n : Z) : VersionRetention := mkVR b oldest n None false false.

Definition vr_with (r : VersionRetention) (k : option key) (em live : bool) : VersionRetention :=
  mkVR (bottom r) (oldest_snapshot r) (now r) k em live.

Definition decide_version (cmp : Comparator) (r : VersionRetention) (k : key) (seq kind : Z) (tombstone : bool)
    (ttl : Z) : Retention * VersionRetention :=
  let merge := kind =? KIND_MERGE in
  let new_key := match last_key r with None => true | Some l => negb (is_eq (compare cmp l k)) end in
  let r := if new_key then vr_with r (Some k) false false else r in
  let old := seq <=? oldest_snapshot r in
  if old && emitted_at_or_below_snapshot r then (Drop, r)
  else
    let r' := if old && negb merge then vr_with r (last_key r) true (live_operands r) else r in
    if old && negb merge && (tombstone && bottom r && negb (live_operands r)) then (Drop, r')
    else if bottom r && negb merge && negb tombstone && negb (ttl =? 0) && (ttl <=? now r) then (Drop, r')
    else
      (Keep (negb merge && negb tombstone && old && ((ttl =? 0) || (now r <? ttl))),
       vr_with r' (last_key r') (emitted_at_or_below_snapshot r') merge).

(** ** The job *)

Record FrozenJob := mkJob {
  j_bottom : bool;
  j_oldest : Z;
  j_now : Z;
  j_filter : option (key -> list byte -> bool);
  j_merge_fold : option MergeOp;
  j_cancelled : key -> Z -> bool;
  j_ranges : list Span;
  j_foreign : list (key * key);
}.

Definition mount_overlaps (cmp : Comparator) (j : FrozenJob) (start end_ : key) : bool :=
  existsb (fun lh => is_lt (compare cmp (fst lh) end_) && is_le (compare cmp start (snd lh))) (j_foreign j).

Definition span_edges (lower upper : Bound) : option key * option key :=
  (match lower with Unbounded => None | Included k | Excluded k => Some k end,
   match upper with Excluded k => Some k | Included _ | Unbounded => None end).

Definition past_upper (cmp : Comparator) (upper : Bound) (k : key) : bool :=
  match upper with
  | Unbounded => false
  | Excluded e => is_ge (compare cmp k e)
  | Included e => is_gt (compare cmp k e)
  end.

(** ** The inputs *)

Record Iter := mkIter { it_rest : list Entry; it_err : option OndaError }.

Definition U64_LAST : Z := 2 ^ 64 - 1.

Definition iter_seek_lower (cmp : Comparator) (lower : Bound) (it : Iter) : Iter :=
  match lower with
  | Unbounded => it
  | Included k => mkIter (seek cmp (it_rest it) k U64_LAST) (it_err it)
  | Excluded k =>
      let rest := seek cmp (it_rest it) k 0 in
      mkIter (match rest with
              | e :: rest' => if is_eq (compare cmp (e_key e) k) then rest' else rest
              | [] => []
              end) (it_err it)
  end.

(** The input whose current entry sorts first; the first of equals. *)
Fixpoint smallest_from (cmp : Comparator) (its : list Iter) (i : nat) (best : option (nat * Entry))
    : result (option (nat * Entry)) :=
  match its with
  | [] => Ok best
  | it :: its =>
      match it_rest it with
      | [] => match it_err it with
              | Some e => Err e
              | None => smallest_from cmp its (S i) best
              end
      | e :: _ =>
          smallest_from cmp its (S i)
            (match best with
             | None => Some (i, e)
             | Some (_, p) => if before cmp e (e_key p) (e_seq p) then Some (i, e) else best
             end)
      end
  end.

Definition smallest_input (cmp : Comparator) (its : list Iter) : result (option (nat * Entry)) :=
  smallest_from cmp its 0 None.

Definition iter_next (it : Iter) : Iter := mkIter (drop 1 (it_rest it)) (it_err it).

(** ** Folding operand chains *)

Record PendingFold := mkPending {
  p_key : key;
  p_newest_seq : Z;
  p_operands : list (Z * list byte);
}.

Definition written (k : key) (v : list byte) (seq ttl kind : Z) : Entry := mkEntry k seq kind ttl v true.

Definition emit_operands (p : PendingFold) : list Entry :=
  map (fun so => written (p_key p) (snd so) (fst so) 0 KIND_MERGE) (p_operands p).

Definition filter_removes (j : FrozenJob) (k : key) (v : list byte) : bool :=
  match j_filter j with Some f => f k v | None => false end.

Definition emit_fold (j : FrozenJob) (op : MergeOp) (p : PendingFold) (base : option (list byte))
    : result (list Entry) :=
  let? folded := full_merge op (p_key p) base (rev (map snd (p_operands p))) in
  if filter_removes j (p_key p) folded && j_bottom j then Ok []
  else
    Ok [if filter_removes j (p_key p) folded
        then written (p_key p) [] (p_newest_seq p) 0 KIND_DELETE
        else written (p_key p) folded (p_newest_seq p) 0 KIND_PUT].

Definition flush_pending (j : FrozenJob) (op : option MergeOp) (p : option PendingFold) : result (list Entry) :=
  match p, op with
  | None, _ => Ok []
  | Some p, Some op => if j_bottom j then emit_fold j op p None else Ok (emit_operands p)
  | Some p, None => Ok (emit_operands p)
  end.

(** ** One entry of the merge *)

Record SpanState := mkSpan_ {
  sp_ret : VersionRetention;
  sp_pending : option PendingFold;
  sp_prev : option (key * Z);
}.

Definition push_operand (p : option PendingFold) (k : key) (seq : Z) (v : list byte) : PendingFold :=
  match p with
  | Some p => mkPending (p_key p) (p_newest_seq p) (p_operands p ++ [(seq, v)])
  | None => mkPending k seq [(seq, v)]
  end.

Definition is_copy (cmp : Comparator) (prev : option (key * Z)) (e : Entry) : bool :=
  match prev with
  | Some (k, s) => (s =? e_seq e) && is_eq (compare cmp k (e_key e))
  | None => false
  end.

Definition ends_pending (cmp : Comparator) (p : option PendingFold) (k : key) : bool :=
  match p with Some p => negb (is_eq (compare cmp (p_key p) k)) | None => false end.

(** Dropped by a range delete at or below the oldest snapshot. *)
Definition range_masked (cmp : Comparator) (j : FrozenJob) (covering : list Fragment) (e : Entry) : bool :=
  match covering with
  | [] => false
  | _ => match covering_seq_in cmp covering (e_key e) (j_oldest j) with
         | Some c => e_seq e <? c
         | None => false
         end
  end.

(** A kept version: collected, folded into, or written. *)
Definition keep_version (j : FrozenJob) (pending : option PendingFold) (e : Entry) (filter_eligible : bool)
    : result (option PendingFold * list Entry) :=
  let? v := read_value e in
  let write :=
    let removes := filter_eligible && filter_removes j (e_key e) v in
    if removes && j_bottom j then []
    else [written (e_key e) v (e_seq e) (e_ttl e) (if removes then KIND_DELETE else e_kind e)] in
  match j_merge_fold j with
  | Some op =>
      let foldable := e_seq e <=? j_oldest j in
      if foldable && e_merge e then Ok (Some (push_operand pending (e_key e) (e_seq e) v), [])
      else match pending with
           | Some p =>
               if foldable && (e_ttl e =? 0) then
                 let? ws := emit_fold j op p (if e_tombstone e then None else Some v) in Ok (None, ws)
               else Ok (None, emit_operands p ++ write)
           | None => Ok (None, write)
           end
  | None =>
      match pending with
      | Some p => Ok (None, emit_operands p ++ write)
      | None => Ok (None, write)
      end
  end.

(** One iteration of [run_span]'s loop: the new state and what is written. *)
Definition span_step (cmp : Comparator) (j : FrozenJob) (covering : list Fragment) (st : SpanState) (e : Entry)
    : result (SpanState * list Entry) :=
  if is_copy cmp (sp_prev st) e then Ok (st, [])
  else
    let prev := Some (e_key e, e_seq e) in
    ensure? negb (j_cancelled j (e_key e) (e_seq e)) else Unknown ;;
    let? (pending, flushed) :=
      (if ends_pending cmp (sp_pending st) (e_key e)
       then let? ws := flush_pending j (j_merge_fold j) (sp_pending st) in Ok (None, ws)
       else Ok (sp_pending st, [])) in
    if range_masked cmp j covering e then Ok (mkSpan_ (sp_ret st) pending prev, flushed)
    else
      let '(retention, ret) :=
        decide_version cmp (sp_ret st) (e_key e) (e_seq e) (e_kind e) (e_tombstone e) (e_ttl e) in
      match retention with
      | Drop => Ok (mkSpan_ ret pending prev, flushed)
      | Keep filter_eligible =>
          let? (pending, ws) := keep_version j pending e filter_eligible in
          Ok (mkSpan_ ret pending prev, flushed ++ ws)
      end.

(** ** The output builder *)

Record PartitionResolver := mkResolver { name_of : key -> option (list byte); boundary : key -> option (list byte) }.

Record CurrentOutput := mkCurrent { o_entries : list Entry; o_bytes : Z; o_partition : option (list byte) }.

Record Output := mkOutput { out_entries : list Entry; out_frags : list Fragment; out_partition : option (list byte) }.

Record OutputBuilder := mkBuilder {
  b_target_bytes : Z;
  b_partitioner : option PartitionResolver;
  b_current : option CurrentOutput;
  b_outputs : list Output;
  b_last_boundary : option (list byte);
  b_fragments : list Fragment;
  b_interval_lower : option key;
  b_span_upper : option key;
  b_pending_cut : bool;
  b_cut_after : key;
}.

Definition builder_new (target_bytes : Z) (partitioner : option PartitionResolver) (frags : list Fragment)
    (span_upper : option key) : OutputBuilder :=
  mkBuilder (Z.max target_bytes 1) partitioner None [] None frags None span_upper false [].

Definition finish_current (cmp : Comparator) (b : OutputBuilder) (upper : option key) : OutputBuilder :=
  match b_current b with
  | None => b
  | Some c =>
      let hi := match upper with Some u => Some u | None => b_span_upper b end in
      let frags := match b_fragments b with
                   | [] => []
                   | fs => clip_fragments cmp fs (b_interval_lower b) hi
                   end in
      mkBuilder (b_target_bytes b) (b_partitioner b) None
        (b_outputs b ++ [mkOutput (o_entries c) frags (o_partition c)])
        (b_last_boundary b) (b_fragments b) upper (b_span_upper b) (b_pending_cut b) (b_cut_after b)
  end.

Definition output_boundary_change (b : OutputBuilder) (k : key) (partition : option (list byte)) : bool :=
  match b_current b with
  | None => false
  | Some c =>
      (match b_partitioner b, b_last_boundary b with
       | Some r, Some previous => negb (bool_decide (boundary r k = Some previous))
       | Some r, None => if boundary r k is Some _ then true else false
       | None, _ => false
       end)
      || negb (bool_decide (o_partition c = partition))
  end.

Definition open_output (b : OutputBuilder) (partition : option (list byte)) : OutputBuilder :=
  mkBuilder (b_target_bytes b) (b_partitioner b) (Some (mkCurrent [] 0 partition)) (b_outputs b)
    (b_last_boundary b) (b_fragments b) (b_interval_lower b) (b_span_upper b) (b_pending_cut b) (b_cut_after b).

Definition builder_write (cmp : Comparator) (b : OutputBuilder) (e : Entry) : OutputBuilder :=
  let k := e_key e in
  let partition := match b_partitioner b with Some r => name_of r k | None => None end in
  let cut := output_boundary_change b k partition in
  let size_cut := b_pending_cut b && (if b_current b is Some _ then true else false)
                  && negb (is_eq (compare cmp k (b_cut_after b))) in
  let b := if cut || size_cut then
             let b := finish_current cmp b (Some k) in
             mkBuilder (b_target_bytes b) (b_partitioner b) (b_current b) (b_outputs b) (b_last_boundary b)
               (b_fragments b) (b_interval_lower b) (b_span_upper b) false (b_cut_after b)
           else b in
  let last := match b_partitioner b with Some r => boundary r k | None => None end in
  let b := match b_current b with None => open_output b partition | Some _ => b end in
  let c := default (mkCurrent [] 0 partition) (b_current b) in
  let bytes := o_bytes c + zlen k + zlen (e_value e) in
  let c := mkCurrent (o_entries c ++ [e]) bytes (o_partition c) in
  let arm := (b_target_bytes b <=? bytes) && negb (b_pending_cut b) in
  mkBuilder (b_target_bytes b) (b_partitioner b) (Some c) (b_outputs b) last (b_fragments b)
    (b_interval_lower b) (b_span_upper b) (arm || b_pending_cut b) (if arm then k else b_cut_after b).

Definition builder_finish (cmp : Comparator) (b : OutputBuilder) : list Output :=
  let b := match b_current b, b_outputs b, b_fragments b with
           | None, [], _ :: _ => open_output b None
           | _, _, _ => b
           end in
  b_outputs (finish_current cmp b None).

(** ** The span *)

Definition retained_fragments (cmp : Comparator) (j : FrozenJob) (covering : list Fragment) : list Fragment :=
  List.filter (fun f => negb (Nat.eqb (length (f_seqs f)) 0))
    (map (fun f =>
            let droppable := j_bottom j && negb (mount_overlaps cmp j (f_start f) (f_end f)) in
            mkFragment (f_start f) (f_end f) (retained_fragment_seqs (f_seqs f) (j_oldest j) droppable))
         covering).

(** The loop of [run_span]; [None] is a loop that has not ended within the fuel. *)
Fixpoint span_loop (cmp : Comparator) (j : FrozenJob) (covering : list Fragment) (upper : Bound) (fuel : nat)
    (its : list Iter) (st : SpanState) (b : OutputBuilder) : option (result (SpanState * OutputBuilder)) :=
  match fuel with
  | O => None
  | S fuel =>
      match smallest_input cmp its with
      | Err e => Some (Err e)
      | Ok None => Some (Ok (st, b))
      | Ok (Some (index, e)) =>
          if past_upper cmp upper (e_key e) then Some (Ok (st, b))
          else
            match span_step cmp j covering st e with
            | Err e => Some (Err e)
            | Ok (st, ws) =>
                span_loop cmp j covering upper fuel (alter iter_next index its) st
                  (fold_left (builder_write cmp) ws b)
            end
      end
  end.

Definition covering_of (cmp : Comparator) (j : FrozenJob) (lower upper : Bound) : list Fragment :=
  match j_ranges j with
  | [] => []
  | ss => let '(lo, hi) := span_edges lower upper in fragment_spans cmp ss lo hi
  end.

Definition span_fuel (its : list Iter) : nat := S (length (concat (map it_rest its))).

Definition run_span (cmp : Comparator) (j : FrozenJob) (target_bytes : Z) (partitioner : option PartitionResolver)
    (inputs : list Iter) (lower upper : Bound) : option (result (list Output)) :=
  let its := map (iter_seek_lower cmp lower) inputs in
  let covering := covering_of cmp j lower upper in
  let b := builder_new target_bytes partitioner (retained_fragments cmp j covering) (snd (span_edges lower upper)) in
  let st := mkSpan_ (retention_new (j_bottom j) (j_oldest j) (j_now j)) None None in
  (fun r =>
     let? (st, b) := r in
     let? ws := flush_pending j (j_merge_fold j) (sp_pending st) in
     Ok (builder_finish cmp (fold_left (builder_write cmp) ws b)))
  <$> span_loop cmp j covering upper (span_fuel its) its st b.

(** ** Sorted chains *)

Lemma newer_sorted_unique A B :
  StronglySorted newer A -> StronglySorted newer B -> (forall v, v ∈ A <-> v ∈ B) -> A = B.
Proof.
  revert B. induction A as [|a A IH]; intros B HA HB E.
  - destruct B as [|b B]; [done|]. exfalso. apply (elem_of_nil b), E. left.
  - destruct B as [|b B]; [exfalso; apply (elem_of_nil a), E; left|].
    apply StronglySorted_inv in HA as [HA Ha]. apply StronglySorted_inv in HB as [HB Hb].
    rewrite Forall_forall in Ha. rewrite Forall_forall in Hb. unfold newer in *.
    assert (a = b) as <-.
    { pose proof (proj1 (E a) ltac:(left)) as H1. pose proof (proj2 (E b) ltac:(left)) as H2.
      apply elem_of_cons in H1 as [->|H1]; [done|]. apply elem_of_cons in H2 as [->|H2]; [done|].
      specialize (Ha b H2). specialize (Hb a H1). lia. }
    f_equal. apply IH; [done..|]. intros v. specialize (E v). rewrite !elem_of_cons in E.
    split; intros Hv.
    + destruct (proj1 E (or_intror Hv)) as [->|]; [|done]. specialize (Ha a Hv). lia.
    + destruct (proj2 E (or_intror Hv)) as [->|]; [|done]. specialize (Hb a Hv). lia.
Qed.

Lemma sorted_consistent L : StronglySorted newer L -> consistent L.
Proof.
  intros Hs. apply NoDup_consistent. induction Hs as [|v L Hs IH HF]; cbn; constructor; [|done].
  rewrite Forall_forall in HF. intros Hin. apply elem_of_map in Hin as (w & Hw & E). specialize (HF w Hw).
  unfold newer in HF. lia.
Qed.

Lemma sorted_app A B :
  StronglySorted newer A -> StronglySorted newer B -> (forall a b, a ∈ A -> b ∈ B -> newer a b) ->
  StronglySorted newer (A ++ B).
Proof.
  intros HA HB H. induction HA as [|a A HA IH HF]; cbn; [done|]. constructor.
  - apply IH. intros x y Hx. apply H. by right.
  - rewrite Forall_forall in HF |- *. intros x [Hx|Hx]%elem_of_app; [by apply HF|]. by apply H; [left|].
Qed.

Lemma chain_app A B :
  consistent (A ++ B) -> (forall a b, a ∈ A -> b ∈ B -> newer a b) -> chain (A ++ B) = chain A ++ chain B.
Proof.
  intros Hc H. destruct (chain_spec _ Hc) as [S E].
  destruct (chain_spec A) as [SA EA]; [eapply consistent_sub; [exact Hc|]; intros w Hw; apply elem_of_app; by left|].
  destruct (chain_spec B) as [SB EB]; [eapply consistent_sub; [exact Hc|]; intros w Hw; apply elem_of_app; by right|].
  apply newer_sorted_unique; [done| |].
  - apply sorted_app; [done..|]. intros a b. rewrite EA, EB. apply H.
  - intros v. by rewrite E, !elem_of_app, EA, EB.
Qed.

(** What a walk resolves to. *)
Definition resolve (op : option MergeOp) (k : key) (r : list (list byte) * option (list byte)) : result (list byte) :=
  match fst r with
  | [] => match snd r with Some v => Ok v | None => Err NotFound end
  | operands => match op with Some op => full_merge op k (snd r) operands | None => Err Corruption end
  end.

Lemma read_all_resolve op k vs : read_all op k vs = resolve op k (walk [] (chain vs)).
Proof. unfold read_all, resolve. rewrite fold_loop_chain. by destruct (walk [] (chain vs)) as [[|o ops] ex]. Qed.

(** Two chains that resolve alike from any operands collected above them. *)
Definition alike (op : option MergeOp) (k : key) (A B : list ChainVersion) : Prop :=
  forall acc, resolve op k (walk acc A) = resolve op k (walk acc B).

Lemma alike_app_l op k N A B : alike op k A B -> alike op k (N ++ A) (N ++ B).
Proof.
  intros H. induction N as [|v N IH]; intros acc; cbn; [apply H|]. destruct (cv_merge v); [apply IH|done].
Qed.

Lemma walk_base acc A b C D : cv_merge b = false -> walk acc (A ++ b :: C) = walk acc (A ++ b :: D).
Proof.
  intros Hb. revert acc. induction A as [|a A IH]; intros acc; cbn; [by rewrite Hb|].
  destruct (cv_merge a); [apply IH|done].
Qed.

(** Running out of versions is the same as meeting a deleted base. *)
Lemma walk_deleted acc A s C : walk acc (A ++ mkCV s false None :: C) = walk acc A.
Proof. revert acc. induction A as [|a A IH]; intros acc; cbn; [done|]. destruct (cv_merge a); [apply IH|done]. Qed.

(** ** The versions of one key *)

(** Contract 2 of [MergeOperator]: folding in two parts is folding at once. *)
Definition merge_assoc (op : MergeOp) : Prop :=
  forall k existing a b v, a <> [] -> b <> [] -> op k existing a = Some v ->
    op k existing (a ++ b) = op k (Some v) b.

Section Group.
Context (j : FrozenJob) (k : key).

(** [decide] within one key: the two flags it carries. *)
Definition gdecide (em live : bool) (e : Entry) : Retention * bool * bool :=
  let old := e_seq e <=? j_oldest j in
  if old && em then (Drop, em, live)
  else
    let em' := em || (old && negb (e_merge e)) in
    if old && negb (e_merge e) && (e_tombstone e && j_bottom j && negb live) then (Drop, em', live)
    else if j_bottom j && negb (e_merge e) && negb (e_tombstone e) && expired (e_ttl e) (j_now j)
    then (Drop, em', live)
    else (Keep (negb (e_merge e) && negb (e_tombstone e) && old && ((e_ttl e =? 0) || (j_now j <? e_ttl e))),
          em', e_merge e).

Fixpoint grun (em live : bool) (pend : option PendingFold) (es : list Entry)
    : result (option PendingFold * list Entry) :=
  match es with
  | [] => Ok (pend, [])
  | e :: es =>
      match gdecide em live e with
      | (Drop, em, live) => grun em live pend es
      | (Keep fe, em, live) =>
          let? (pend, ws) := keep_version j pend e fe in
          let? (pend, ws') := grun em live pend es in
          Ok (pend, ws ++ ws')
      end
  end.

Context (Hfilter : j_filter j = None).

Lemma no_filter_removes key v : filter_removes j key v = false.
Proof. unfold filter_removes. by rewrite Hfilter. Qed.

Definition rewritten (e : Entry) : Entry := written (e_key e) (e_value e) (e_seq e) (e_ttl e) (e_kind e).

Lemma rewritten_version n e : chain_version n (rewritten e) = chain_version n e.
Proof. done. Qed.

(** What [keep_version] does without a filter. *)
Lemma keep_version_ok pend e fe pend' ws :
  keep_version j pend e fe = Ok (pend', ws) ->
  match j_merge_fold j with
  | Some op =>
      if (e_seq e <=? j_oldest j) && e_merge e
      then pend' = Some (push_operand pend (e_key e) (e_seq e) (e_value e)) /\ ws = []
      else pend' = None /\
        match pend with
        | Some p =>
            if (e_seq e <=? j_oldest j) && (e_ttl e =? 0)
            then exists v, op (p_key p) (if e_tombstone e then None else Some (e_value e)) (rev (map snd (p_operands p))) = Some v /\
                   ws = [written (p_key p) v (p_newest_seq p) 0 KIND_PUT]
            else ws = emit_operands p ++ [rewritten e]
        | None => ws = [rewritten e]
        end
  | None => pend' = None /\ ws = match pend with Some p => emit_operands p ++ [rewritten e] | None => [rewritten e] end
  end.
Proof.
  unfold keep_version, read_value. destruct (e_readable e); [|done]. cbn [rbind].
  rewrite !no_filter_removes, andb_false_r. cbn [andb]. destruct (j_merge_fold j) as [op|].
  - destruct ((e_seq e <=? j_oldest j) && e_merge e); [intros H; by injection H as <- <-|].
    destruct pend as [p|]; [|intros H; by injection H as <- <-].
    destruct ((e_seq e <=? j_oldest j) && (e_ttl e =? 0)); [|intros H; by injection H as <- <-].
    unfold emit_fold, full_merge. destruct (op _ _ _) as [v|] eqn:E; [|done]. cbn [rbind]. rewrite !no_filter_removes. cbn.
    intros H. injection H as <- <-. split; [done|]. by exists v.
  - destruct pend; intros H; by injection H as <- <-.
Qed.

Lemma flush_ok p fw :
  flush_pending j (j_merge_fold j) p = Ok fw ->
  match p with
  | None => fw = []
  | Some p =>
      match j_merge_fold j with
      | Some op =>
          if j_bottom j
          then exists v, op (p_key p) None (rev (map snd (p_operands p))) = Some v /\
                 fw = [written (p_key p) v (p_newest_seq p) 0 KIND_PUT]
          else fw = emit_operands p
      | None => fw = emit_operands p
      end
  end.
Proof.
  destruct p as [p|]; cbn; [|intros H; by injection H as <-].
  destruct (j_merge_fold j) as [op|]; [|intros H; by injection H as <-].
  destruct (j_bottom j); [|intros H; by injection H as <-].
  unfold emit_fold, full_merge. destruct (op _ _ _) as [v|] eqn:E; [|done]. cbn [rbind]. rewrite !no_filter_removes. cbn.
  intros H. injection H as <-. by exists v.
Qed.

(** Everything below the base that terminates the chain is dropped. *)
Lemma grun_dead live pend es :
  Forall (fun e => e_seq e <= j_oldest j) es -> grun true live pend es = Ok (pend, []).
Proof.
  induction 1 as [|e es He _ IH]; [done|]. cbn [grun]. unfold gdecide.
  by rewrite (proj2 (Z.leb_le _ _) He).
Qed.

(** The chain of operands a fold has collected. *)
Definition pend_chain (p : option PendingFold) : list ChainVersion :=
  match p with
  | Some p => map (fun so => mkCV (fst so) true (Some (snd so))) (p_operands p)
  | None => []
  end.

Definition pend_ok (live : bool) (p : option PendingFold) : Prop :=
  match p with
  | Some p => p_key p = k /\ live = true /\ is_Some (j_merge_fold j) /\
              exists so rest, p_operands p = so :: rest /\ p_newest_seq p = fst so
  | None => True
  end.

Lemma emit_operands_chain n p : map (chain_version n) (emit_operands p) = pend_chain (Some p).
Proof. unfold emit_operands. cbn. rewrite map_map. done. Qed.

Lemma walk_pending acc p A :
  walk acc (pend_chain (Some p) ++ A) = walk (rev (map snd (p_operands p)) ++ acc) A.
Proof.
  cbn. revert acc. induction (p_operands p) as [|[s o] l IH]; intros acc; cbn; [done|].
  by rewrite IH, <- app_assoc.
Qed.

Lemma resolve_fold f ex ops acc v :
  merge_assoc f -> ops <> [] -> f k ex ops = Some v ->
  resolve (Some f) k (acc, Some v) = resolve (Some f) k (ops ++ acc, ex).
Proof.
  intros Hm Hn Hf. unfold resolve. cbn. destruct acc as [|a acc]; [rewrite app_nil_r|]; destruct ops as [|o ops]; try done.
  - unfold full_merge. by rewrite Hf.
  - cbn. unfold full_merge. by rewrite <- (Hm _ _ (o :: ops) (a :: acc) _ Hn ltac:(done) Hf).
Qed.

Lemma pend_ok_push live p e :
  pend_ok live p -> e_key e = k -> is_Some (j_merge_fold j) ->
  pend_ok true (Some (push_operand p (e_key e) (e_seq e) (e_value e))).
Proof.
  destruct p as [p|]; cbn; [|eauto 10].
  intros (Hk & _ & _ & so & rest & E & Hs) He Hf. conj_split; [done..|]. exists so, (rest ++ [(e_seq e, e_value e)]).
  by rewrite E.
Qed.

Lemma pend_chain_push n p e :
  e_merge e = true -> e_ttl e = 0 ->
  pend_chain (Some (push_operand p (e_key e) (e_seq e) (e_value e))) = pend_chain p ++ [chain_version n e].
Proof.
  intros Hm Ht. assert (chain_version n e = mkCV (e_seq e) true (Some (e_value e))) as ->.
  { unfold chain_version, dead, expired. rewrite Hm, Ht. unfold e_merge, e_tombstone in *. apply Z.eqb_eq in Hm.
    by rewrite Hm. }
  destruct p as [p|]; cbn; [by rewrite map_app|done].
Qed.

Section Old.
Context (n : Z) (op : option MergeOp) (T T' O : list ChainVersion).
Context (Hop : forall f, j_merge_fold j = Some f -> op = Some f /\ merge_assoc f).
Context (Hn : j_now j <= n).
Context (HT : T = [] \/ exists c, T = [mkCV c false None]).
Context (HT' : T' = T \/ (j_bottom j = true /\ T' = [])).
Context (HO : j_bottom j = true -> O = []).

(** The versions of [lo] are at or below the oldest snapshot. *)
Definition old_entry (e : Entry) : Prop :=
  e_key e = k /\ e_seq e <= j_oldest j /\ (e_merge e = true -> e_ttl e = 0).

Lemma tail_deleted acc A U : j_bottom j = true -> U = T \/ U = T' -> walk acc (A ++ U ++ O) = walk acc A.
Proof.
  intros Hb HU. rewrite (HO Hb). assert (U = [] \/ exists c, U = [mkCV c false None]) as [->|[c ->]].
  { destruct HU as [->| ->]; [done|]. destruct HT' as [->|[_ ->]]; [done|by left]. }
  - by rewrite !app_nil_r.
  - apply walk_deleted.
Qed.

Lemma fold_alike live p ex v A :
  pend_ok live (Some p) ->
  (exists f, j_merge_fold j = Some f /\ f (p_key p) ex (rev (map snd (p_operands p))) = Some v) ->
  forall acc, (forall acc', walk acc' A = (acc', ex)) ->
  resolve op k (walk acc ([mkCV (p_newest_seq p) false (Some v)] ++ T' ++ O)) =
  resolve op k (walk acc (pend_chain (Some p) ++ A)).
Proof.
  intros (Hk & _ & _ & so & rest & E & _) (f & Hf & Hv) acc HA. destruct (Hop f Hf) as [-> Hm].
  rewrite walk_pending, HA. cbn [walk app cv_merge cv_value]. rewrite Hk in Hv. apply resolve_fold; [done| |done].
  rewrite E. cbn. intros H. by apply app_eq_nil in H as [_ ?].
Qed.

Lemma flush_alike live p fw :
  pend_ok live p -> flush_pending j (j_merge_fold j) p = Ok fw ->
  alike op k (map (chain_version n) fw ++ T' ++ O) (pend_chain p ++ T ++ O).
Proof.
  intros Hp Hf%flush_ok acc. destruct p as [p|].
  - pose proof Hp as (_ & _ & [f Ef] & _). rewrite Ef in Hf. case_eq (j_bottom j); intros Hb; rewrite Hb in Hf.
    + destruct Hf as (v & Hv & ->).
      apply (fold_alike live p None v); [done|by exists f|]. intros acc'. exact (tail_deleted acc' [] T Hb (or_introl eq_refl)).
    + subst fw. rewrite emit_operands_chain. pose proof HT' as [E|[? _]]; [by rewrite E|congruence].
  - subst fw. cbn. pose proof HT' as [E|[Hb E]]; rewrite E; [done|].
    pose proof (tail_deleted acc [] T Hb (or_introl eq_refl)) as ET. cbn [app] in *. rewrite ET. by rewrite (HO Hb).
Qed.

(** At the bottom a deleted base is as good as none. *)
Lemma flush_alike_deleted live p fw b X :
  pend_ok live p -> j_bottom j = true -> cv_merge b = false -> cv_value b = None ->
  flush_pending j (j_merge_fold j) p = Ok fw ->
  alike op k (map (chain_version n) fw ++ T' ++ O) (pend_chain p ++ b :: X).
Proof.
  intros Hp Hb Hm Hv Hf acc. rewrite (flush_alike _ _ _ Hp Hf). rewrite tail_deleted by auto.
  destruct b as [s m v]. cbn in *. subst. by rewrite walk_deleted.
Qed.

(** The base that ends a chain, kept: folded into, or written under its operands. *)
Lemma keep_base_alike live pend e fe p ws fw X :
  pend_ok live pend -> e_merge e = false -> e_seq e <= j_oldest j ->
  keep_version j pend e fe = Ok (p, ws) -> flush_pending j (j_merge_fold j) p = Ok fw ->
  alike op k (map (chain_version n) (ws ++ fw) ++ T' ++ O) (pend_chain pend ++ chain_version n e :: X).
Proof.
  intros Hp Em Hs Hk Hf acc. apply keep_version_ok in Hk. rewrite Em, andb_false_r, (proj2 (Z.leb_le _ _) Hs) in Hk.
  assert (p = None /\ (ws = map rewritten [e] /\ pend = None \/
            (exists pp, pend = Some pp /\ ws = emit_operands pp ++ [rewritten e]) \/
            exists pp v, pend = Some pp /\ e_ttl e = 0 /\ ws = [written (p_key pp) v (p_newest_seq pp) 0 KIND_PUT] /\
                   exists f, j_merge_fold j = Some f /\
                     f (p_key pp) (if e_tombstone e then None else Some (e_value e)) (rev (map snd (p_operands pp))) = Some v))
    as (-> & Hws).
  { destruct (j_merge_fold j) as [f|] eqn:Ef; destruct Hk as [-> Hk]; (split; [done|]); destruct pend as [pp|]; auto.
    - cbn [andb] in Hk. destruct (Z.eqb_spec (e_ttl e) 0).
      + destruct Hk as (v & Hv & ->). right. right. exists pp, v. eauto 10.
      + right. left. by exists pp.
    - right. left. by exists pp. }
  injection Hf as <-. rewrite app_nil_r. destruct Hws as [[-> ->]|[(pp & -> & ->)|(pp & v & -> & Ht & -> & Hfold)]].
  - cbn [map pend_chain app]. rewrite rewritten_version. f_equal.
    exact (walk_base acc [] (chain_version n e) (T' ++ O) X Em).
  - rewrite map_app, emit_operands_chain. cbn [map]. rewrite rewritten_version, <- app_assoc.
    f_equal. exact (walk_base acc _ (chain_version n e) _ X Em).
  - eapply (fold_alike live pp); [done|exact Hfold|]. intros acc'. cbn. rewrite Em. unfold dead, expired. rewrite Ht. cbn.
    by rewrite orb_false_r.
Qed.

Lemma grun_old_alike lo : forall live pend p ws fw,
  Forall old_entry lo -> pend_ok live pend ->
  grun false live pend lo = Ok (p, ws) -> flush_pending j (j_merge_fold j) p = Ok fw ->
  alike op k (map (chain_version n) (ws ++ fw) ++ T' ++ O) (pend_chain pend ++ map (chain_version n) lo ++ T ++ O).
Proof.
  induction lo as [|e lo IH]; intros live pend p ws fw HF Hp Hr Hf; cbn [grun map] in *.
  { injection Hr as <- <-. by apply (flush_alike live). }
  apply Forall_cons in HF as [(Hk & Hs & Ht) HF]. unfold gdecide in Hr. rewrite (proj2 (Z.leb_le _ _) Hs) in Hr.
  rewrite andb_false_r in Hr. cbn [andb orb] in Hr. destruct (e_merge e) eqn:Em; cbn [negb andb] in Hr.
  - rewrite andb_false_r in Hr. cbn [andb] in Hr.
    apply bind_inv in Hr as ([pend1 ws1] & Hkeep & Hr). apply bind_inv in Hr as ([p2 ws2] & Hr & [= <- <-]).
    apply keep_version_ok in Hkeep. rewrite Em, andb_true_r, (proj2 (Z.leb_le _ _) Hs) in Hkeep.
    case_eq (j_merge_fold j); [intros f|]; intros Ef; rewrite Ef in Hkeep; destruct Hkeep as [-> ->].
    + cbn [app] in *. pose proof (IH true _ _ _ _ HF (pend_ok_push _ _ _ Hp Hk ltac:(by rewrite Ef)) Hr Hf) as IH'.
      rewrite (pend_chain_push n) in IH' by auto. by rewrite <- app_assoc in IH'.
    + destruct pend as [pp|]; [destruct Hp as (_ & _ & [f ?] & _); congruence|].
      cbn [pend_chain app map]. rewrite rewritten_version. apply (alike_app_l _ _ [chain_version n e]).
      by apply (IH true None _ _ _ HF I Hr Hf).
  - assert (Forall (fun e => e_seq e <= j_oldest j) lo) as HF' by (eapply Forall_impl; [exact HF|]; by intros ? (_ & ? & _)).
    assert (forall X, dead n e = true -> j_bottom j = true -> flush_pending j (j_merge_fold j) pend = Ok fw ->
              alike op k (map (chain_version n) fw ++ T' ++ O) (pend_chain pend ++ chain_version n e :: X)) as Hdel.
    { intros X Hd Hb Hf'. apply (flush_alike_deleted live); [done..| |done]. unfold chain_version. by rewrite Hd. }
    destruct (e_tombstone e && j_bottom j && negb live) eqn:Ed; [|destruct (j_bottom j && true && negb (e_tombstone e) && expired _ _) eqn:Ex].
    + rewrite grun_dead in Hr by done. injection Hr as <- <-. boolprop. apply Hdel; [|done..]. unfold dead. by rewrite H.
    + rewrite grun_dead in Hr by done. injection Hr as <- <-. boolprop. apply Hdel; [|done..]. unfold dead, expired in *.
      apply orb_true_iff. right. boolprop. rewrite (proj2 (Z.leb_le _ _)) by lia. by rewrite andb_true_r, (proj2 (Z.eqb_neq _ _)).
    + apply bind_inv in Hr as ([pend1 ws1] & Hkeep & Hr). rewrite grun_dead in Hr by done. injection Hr as <- <-.
      rewrite app_nil_r. eapply keep_base_alike; [done..|exact Hkeep|exact Hf].
Qed.
End Old.

(** ** What is written carries sequences of the versions it stands for *)

Definition carries (ws : list Entry) (ss : list Z) : Prop :=
  sublist (map e_seq ws) ss /\ Forall (fun e => e_key e = k) ws.

Lemma carries_app ws ws' ss ss' : carries ws ss -> carries ws' ss' -> carries (ws ++ ws') (ss ++ ss').
Proof. intros [H1 H2] [H3 H4]. split; [rewrite map_app; by apply sublist_app|by apply Forall_app]. Qed.

Lemma carries_rewritten e : e_key e = k -> carries [rewritten e] [e_seq e].
Proof. intros He. split; [done|by constructor]. Qed.

Lemma carries_operands live p : pend_ok live (Some p) -> carries (emit_operands p) (map cv_seq (pend_chain (Some p))).
Proof.
  intros (Hk & _). unfold emit_operands. cbn. split; [by rewrite !map_map|]. rewrite Forall_map. by apply Forall_true.
Qed.

Lemma carries_folded live p v :
  pend_ok live (Some p) -> carries [written (p_key p) v (p_newest_seq p) 0 KIND_PUT] (map cv_seq (pend_chain (Some p))).
Proof.
  intros (Hk & _ & _ & so & rest & E & Hs). split; [|by constructor]. cbn. rewrite E. cbn. rewrite Hs.
  apply sublist_skip, sublist_nil_l.
Qed.

Lemma carries_flush live p fw :
  pend_ok live p -> flush_pending j (j_merge_fold j) p = Ok fw -> carries fw (map cv_seq (pend_chain p)).
Proof.
  intros Hp Hf%flush_ok. destruct p as [p|]; [|subst; by split].
  destruct (j_merge_fold j); [destruct (j_bottom j)|]; [destruct Hf as (v & _ & ->); by eapply carries_folded|subst..];
    by eapply carries_operands.
Qed.

Lemma carries_keep live pend e fe p ws :
  pend_ok live pend -> e_key e = k -> keep_version j pend e fe = Ok (p, ws) ->
  pend_ok true p /\ exists a b, map cv_seq (pend_chain pend) ++ [e_seq e] = a ++ b /\
    carries ws a /\ b = map cv_seq (pend_chain p).
Proof.
  intros Hp He Hk%keep_version_ok. pose proof (carries_rewritten e He) as Hw.
  destruct (j_merge_fold j) as [f|] eqn:Ef.
  - destruct (_ && e_merge e); destruct Hk as [-> Hk].
    + subst ws. split; [apply (pend_ok_push live); [done..|by rewrite Ef]|]. exists [], (map cv_seq (pend_chain pend) ++ [e_seq e]).
      conj_split; [done..|]. destruct pend as [pp|]; [|done]. cbn. by rewrite !map_app.
    + split; [done|]. exists (map cv_seq (pend_chain pend) ++ [e_seq e]), []. rewrite app_nil_r. conj_split; [done| |done].
      destruct pend as [pp|]; [|by subst]. destruct (_ && _).
      * destruct Hk as (v & _ & ->). rewrite <- (app_nil_r [_]). apply carries_app; [by eapply carries_folded|].
        split; [apply sublist_nil_l|done].
      * subst. apply carries_app; [by eapply carries_operands|done].
  - destruct Hk as [-> ->]. split; [done|]. exists (map cv_seq (pend_chain pend) ++ [e_seq e]), []. rewrite app_nil_r.
    conj_split; [done| |done]. destruct pend as [pp|]; [|done]. apply carries_app; [by eapply carries_operands|done].
Qed.

Lemma carries_weaken ws ss ss' : carries ws ss -> sublist ss ss' -> carries ws ss'.
Proof. intros [H ?] Hs. split; [by etrans|done]. Qed.

Lemma grun_carries es : forall em live pend p ws fw,
  Forall (fun e => e_key e = k) es -> pend_ok true pend ->
  grun em live pend es = Ok (p, ws) -> flush_pending j (j_merge_fold j) p = Ok fw ->
  carries (ws ++ fw) (map cv_seq (pend_chain pend) ++ map e_seq es).
Proof.
  induction es as [|e es IH]; intros em live pend p ws fw HF Hp Hr Hf; cbn [grun map] in *.
  { injection Hr as <- <-. rewrite app_nil_r. by eapply carries_flush. }
  apply Forall_cons in HF as [He HF]. destruct (gdecide em live e) as [[[|fe] em'] live'].
  - eapply carries_weaken; [by eapply IH|]. apply sublist_app; [done|]. by apply sublist_cons.
  - apply bind_inv in Hr as ([pend1 ws1] & Hkeep & Hr). apply bind_inv in Hr as ([p2 ws2] & Hr & [= <- <-]).
    destruct (carries_keep _ _ _ _ _ _ Hp He Hkeep) as (Hp' & a & b & E & Ha & ->).
    change (e_seq e :: map e_seq es) with ([e_seq e] ++ map e_seq es). rewrite app_assoc, E, <- !app_assoc.
    apply carries_app; [done|]. by eapply IH.
Qed.

(** Versions above the oldest snapshot pass through, unless the bottom drops an expired one. *)
Definition new_entry (e : Entry) : Prop :=
  j_oldest j < e_seq e /\
  (j_bottom j = true -> e_merge e = false -> e_tombstone e = false -> expired (e_ttl e) (j_now j) = false).

Lemma grun_new hi lo : forall live p ws,
  Forall new_entry hi -> grun false live None (hi ++ lo) = Ok (p, ws) ->
  exists live' ws', ws = map rewritten hi ++ ws' /\ grun false live' None lo = Ok (p, ws').
Proof.
  induction hi as [|e hi IH]; intros live p ws HF Hr; cbn [app grun map] in *; [by exists live, ws|].
  apply Forall_cons in HF as [[Hs Hx] HF]. unfold gdecide in Hr. rewrite (proj2 (Z.leb_gt _ _) Hs) in Hr. cbn [andb orb] in Hr.
  destruct (j_bottom j && _ && _ && _) eqn:Ex.
  { boolprop. rewrite Hx in * by done. done. }
  apply bind_inv in Hr as ([pend1 ws1] & Hkeep & Hr). apply bind_inv in Hr as ([p2 ws2] & Hr & [= <- <-]).
  apply keep_version_ok in Hkeep. rewrite (proj2 (Z.leb_gt _ _) Hs) in Hkeep. cbn [andb] in Hkeep.
  assert (pend1 = None /\ ws1 = [rewritten e]) as [-> ->] by (by destruct (j_merge_fold j)).
  destruct (IH _ _ _ HF Hr) as (live' & ws' & -> & Hr'). by exists live', ws'.
Qed.
End Group.

(** ** The steps of one key *)

Fixpoint steps (cmp : Comparator) (j : FrozenJob) (covering : list Fragment) (st : SpanState) (es : list Entry)
    : result (SpanState * list Entry) :=
  match es with
  | [] => Ok (st, [])
  | e :: es =>
      let? (st, ws) := span_step cmp j covering st e in
      let? (st, ws') := steps cmp j covering st es in
      Ok (st, ws ++ ws')
  end.

(** A group without the copies of a version. *)
Fixpoint fresh_seqs (last : option Z) (es : list Entry) : list Entry :=
  match es with
  | [] => []
  | e :: es => if bool_decide (last = Some (e_seq e)) then fresh_seqs last es
               else e :: fresh_seqs (Some (e_seq e)) es
  end.

Section Steps.
Context (cmp : Comparator) `{!TotalOrder cmp} (j : FrozenJob) (covering : list Fragment) (k : key).

Definition ret_of (r : VersionRetention) : Prop :=
  bottom r = j_bottom j /\ oldest_snapshot r = j_oldest j /\ now r = j_now j.

(** What the state remembers of key [k]. *)
Definition flags_of (r : VersionRetention) : bool * bool :=
  if bool_decide (last_key r = Some k) then (emitted_at_or_below_snapshot r, live_operands r) else (false, false).

Definition last_of (prev : option (key * Z)) : option Z :=
  match prev with Some (k', s) => if decide (k' = k) then Some s else None | None => None end.

Lemma new_key_flags r :
  ret_of r ->
  exists em live, flags_of r = (em, live) /\
    (if match last_key r with None => true | Some l => negb (is_eq (compare cmp l k)) end
     then vr_with r (Some k) false false else r) = mkVR (j_bottom j) (j_oldest j) (j_now j) (Some k) em live.
Proof.
  intros (E1 & E2 & E3). unfold flags_of, vr_with. destruct r as [b o n l em live]. cbn in *. subst.
  destruct l as [l|]; [|by exists false, false].
  case_bool_decide as E.
  - injection E as ->. exists em, live. rewrite (proj2 (is_eq_true cmp k k) eq_refl). done.
  - exists false, false. destruct (is_eq (compare cmp l k)) eqn:El; [|done]. apply (is_eq_true cmp) in El. congruence.
Qed.

Lemma decide_gdecide r e em live R r' :
  ret_of r -> e_key e = k -> flags_of r = (em, live) ->
  decide_version cmp r k (e_seq e) (e_kind e) (e_tombstone e) (e_ttl e) = (R, r') ->
  ret_of r' /\ last_key r' = Some k /\
  gdecide j em live e = (R, emitted_at_or_below_snapshot r', live_operands r').
Proof.
  intros Hr He Hf. destruct (new_key_flags r Hr) as (em' & live' & Hf' & E). rewrite Hf in Hf'. injection Hf' as <- <-.
  unfold decide_version. rewrite E. clear. unfold gdecide, vr_with, e_merge, expired, ret_of. cbn.
  generalize (e_seq e <=? j_oldest j), (e_kind e =? KIND_MERGE), (e_tombstone e), (e_ttl e =? 0),
    (e_ttl e <=? j_now j), (j_now j <? e_ttl e).
  intros [] [] [] [] [] y; destruct em, live, (j_bottom j); cbn; intros [= <- <-]; done.
Qed.

Lemma flags_after r : last_key r = Some k -> flags_of r = (emitted_at_or_below_snapshot r, live_operands r).
Proof. intros H. unfold flags_of. by rewrite bool_decide_eq_true_2. Qed.

Lemma is_copy_last prev e :
  e_key e = k -> is_copy cmp prev e = bool_decide (last_of prev = Some (e_seq e)).
Proof.
  intros He. unfold is_copy, last_of. rewrite He. destruct prev as [[k' s]|]; [|done]. destruct (decide _) as [E|E].
  - rewrite (proj2 (is_eq_true cmp k' k) E), andb_true_r.
    destruct (Z.eqb_spec s (e_seq e)) as [->|]; [by rewrite bool_decide_eq_true_2|]. rewrite bool_decide_eq_false_2; congruence.
  - destruct (is_eq (compare cmp k' k)) eqn:Ek; [by apply (is_eq_true cmp) in Ek|]. by rewrite andb_false_r.
Qed.

Definition pend_in (P : key -> Prop) (p : option PendingFold) : Prop :=
  match p with Some p => P (p_key p) | None => True end.

Definition unmasked (es : list Entry) : list Entry := List.filter (fun e => negb (range_masked cmp j covering e)) es.

Lemma pend_in_push P p e s v : pend_in P p -> P e -> pend_in P (Some (push_operand p e s v)).
Proof. by destruct p. Qed.

Lemma keep_pend_in P p e fe p' ws : pend_in P p -> P (e_key e) -> keep_version j p e fe = Ok (p', ws) -> pend_in P p'.
Proof.
  intros Hp He. unfold keep_version. intros Hk. apply bind_inv in Hk as (v & _ & Hk).
  destruct (j_merge_fold j) as [f|].
  - destruct (_ && e_merge e); [injection Hk as <- _; by apply pend_in_push|].
    destruct p as [p|]; [|by injection Hk as <- _]. destruct (_ && _); [|by injection Hk as <- _].
    apply bind_inv in Hk as (w & _ & Hk). by injection Hk as <- _.
  - destruct p as [p|]; by injection Hk as <- _.
Qed.

Lemma not_ends_pending p e : pend_in (eq k) p -> e_key e = k -> ends_pending cmp p (e_key e) = false.
Proof. intros Hp ->. destruct p as [p|]; [|done]. cbn in *. by rewrite (proj2 (is_eq_true cmp (p_key p) k)). Qed.

Lemma last_of_here s : last_of (Some (k, s)) = Some s.
Proof. unfold last_of. by destruct (decide _). Qed.

Lemma steps_group g : forall st st' ws,
  Forall (fun e => e_key e = k) g -> ret_of (sp_ret st) -> pend_in (eq k) (sp_pending st) ->
  steps cmp j covering st g = Ok (st', ws) ->
  grun j (fst (flags_of (sp_ret st))) (snd (flags_of (sp_ret st))) (sp_pending st)
    (unmasked (fresh_seqs (last_of (sp_prev st)) g)) = Ok (sp_pending st', ws) /\
  ret_of (sp_ret st') /\ pend_in (eq k) (sp_pending st').
Proof.
  induction g as [|e g IH]; intros st st' ws HF Hr Hp Hs; cbn [steps fresh_seqs] in *; [by injection Hs as <- <-|].
  apply Forall_cons in HF as [He HF]. apply bind_inv in Hs as ([st1 ws1] & H1 & Hs).
  apply bind_inv in Hs as ([st2 ws2] & H2 & [= <- <-]). unfold span_step in H1.
  rewrite (is_copy_last _ _ He) in H1. destruct (bool_decide (last_of _ = _)).
  { injection H1 as <- <-. by apply IH. }
  apply bind_inv in H1 as ([] & _ & H1). rewrite (not_ends_pending _ _ Hp He) in H1. cbn [rbind] in H1.
  unfold unmasked in *. cbn [List.filter]. destruct (range_masked cmp j covering e); cbn [negb].
  - injection H1 as <- <-. apply IH in H2; [|done..]. cbn [sp_prev sp_ret sp_pending] in H2. by rewrite He, last_of_here in H2.
  - destruct (flags_of (sp_ret st)) as [em live] eqn:Ef. rewrite He in H1.
    destruct (decide_version _ _ _ _ _ _ _) as [R ret] eqn:Ed.
    apply (decide_gdecide _ _ _ _ _ _ Hr He Ef) in Ed as (Hr' & Hl & Hg). cbn [fst snd grun]. rewrite Hg.
    destruct R as [|fe].
    + injection H1 as <- <-. apply IH in H2; [|done..]. cbn [sp_prev sp_ret sp_pending] in H2. by rewrite last_of_here, flags_after in H2.
    + apply bind_inv in H1 as ([p ws3] & Hk & [= <- <-]). rewrite Hk. cbn [rbind].
      apply IH in H2; [|done..|by eapply keep_pend_in; [..|exact Hk]; [|symmetry]]. cbn [sp_prev sp_ret sp_pending] in H2. rewrite last_of_here, flags_after in H2 by done.
      cbn in H2. destruct H2 as [-> H2]. done.
Qed.
End Steps.

(** ** The stream, key by key *)

Section Keys.
Context (cmp : Comparator) `{!TotalOrder cmp} (j : FrozenJob) (covering : list Fragment).

Definition keys_in (P : key -> Prop) (es : list Entry) : Prop := Forall (fun e => P (e_key e)) es.

Lemma emit_fold_in P op p base ws : P (p_key p) -> emit_fold j op p base = Ok ws -> keys_in P ws.
Proof.
  intros Hp. unfold emit_fold. intros H. apply bind_inv in H as (v & _ & H).
  destruct (_ && _); injection H as <-; [constructor|]. constructor; [|constructor]. by destruct (filter_removes _ _ _).
Qed.

Lemma emit_operands_in (P : key -> Prop) p : P (p_key p) -> keys_in P (emit_operands p).
Proof. intros Hp. unfold keys_in, emit_operands. rewrite Forall_map. by apply Forall_true. Qed.

Lemma flush_in P p fw : pend_in P p -> flush_pending j (j_merge_fold j) p = Ok fw -> keys_in P fw.
Proof.
  intros Hp H. destruct p as [p|]; cbn in *; [|injection H as <-; constructor].
  destruct (j_merge_fold j) as [op|]; [|injection H as <-; by apply emit_operands_in].
  destruct (j_bottom j); [by eapply emit_fold_in|]. injection H as <-. by apply emit_operands_in.
Qed.

Lemma keep_in P p e fe p' ws :
  pend_in P p -> P (e_key e) -> keep_version j p e fe = Ok (p', ws) -> keys_in P ws.
Proof.
  intros Hp He. unfold keep_version. intros Hk. apply bind_inv in Hk as (v & _ & Hk).
  set (w := if _ && j_bottom j then _ else _) in Hk.
  assert (keys_in P w) as Hw by (unfold w; destruct (_ && j_bottom j); by repeat constructor). clearbody w.
  destruct (j_merge_fold j) as [f|].
  - destruct (_ && e_merge e); [injection Hk as _ <-; constructor|].
    destruct p as [p|]; [|by injection Hk as _ <-].
    destruct (_ && _); [|injection Hk as _ <-; apply Forall_app; split; [by apply emit_operands_in|done]].
    apply bind_inv in Hk as (fw & Hf & Hk). injection Hk as _ <-. by eapply emit_fold_in.
  - destruct p as [p|]; injection Hk as _ <-; [|done]. apply Forall_app; split; [by apply emit_operands_in|done].
Qed.

Lemma step_in P st e st' ws :
  pend_in P (sp_pending st) -> P (e_key e) -> span_step cmp j covering st e = Ok (st', ws) ->
  pend_in P (sp_pending st') /\ keys_in P ws.
Proof.
  intros Hp He. unfold span_step. destruct (is_copy _ _ _); [intros [= <- <-]; split; [done|constructor]|]. intros H.
  apply bind_inv in H as ([] & _ & H). apply bind_inv in H as ([p fl] & Hf & H).
  assert (pend_in P p /\ keys_in P fl) as [Hp' Hfl].
  { destruct (ends_pending _ _ _); [|injection Hf as <- <-; split; [done|constructor]]. apply bind_inv in Hf as (fw & Hf & [= <- <-]).
    split; [done|]. by eapply flush_in. }
  destruct (range_masked _ _ _ _); [injection H as <- <-; by split|].
  destruct (decide_version _ _ _ _ _ _ _) as [[|fe] ret]; [injection H as <- <-; by split|].
  apply bind_inv in H as ([p2 w] & Hk & [= <- <-]). split; [exact (keep_pend_in j P _ _ _ _ _ Hp' He Hk)|].
  apply Forall_app. split; [done|]. by eapply keep_in.
Qed.

Lemma steps_in P es : forall st st' ws,
  pend_in P (sp_pending st) -> keys_in P es -> steps cmp j covering st es = Ok (st', ws) ->
  pend_in P (sp_pending st') /\ keys_in P ws.
Proof.
  induction es as [|e es IH]; intros st st' ws Hp HF H; cbn in H; [injection H as <- <-; split; [done|constructor]|].
  apply Forall_cons in HF as [He HF]. apply bind_inv in H as ([st1 ws1] & H1 & H).
  apply bind_inv in H as ([st2 ws2] & H2 & [= <- <-]).
  destruct (step_in P _ _ _ _ Hp He H1) as [Hp1 Hw1]. destruct (IH _ _ _ Hp1 HF H2) as [Hp2 Hw2].
  split; [done|]. by apply Forall_app.
Qed.

Lemma steps_app es fs st st' ws :
  steps cmp j covering st (es ++ fs) = Ok (st', ws) ->
  exists st1 ws1 ws2, steps cmp j covering st es = Ok (st1, ws1) /\ steps cmp j covering st1 fs = Ok (st', ws2) /\
    ws = ws1 ++ ws2.
Proof.
  revert st ws. induction es as [|e es IH]; intros st ws H; cbn in *; [by exists st, [], ws|].
  apply bind_inv in H as ([st1 ws1] & H1 & H). apply bind_inv in H as ([st2 ws2] & H2 & [= <- <-]).
  rewrite H1. cbn [rbind]. destruct (IH _ _ H2) as (s & a & b & -> & Hb & ->). cbn.
  exists s, (ws1 ++ a), b. by rewrite app_assoc.
Qed.

(** A state that remembers nothing of [k]. *)
Definition free_of (k : key) (st : SpanState) : Prop :=
  ret_of j (sp_ret st) /\ flags_of k (sp_ret st) = (false, false) /\ last_of k (sp_prev st) = None /\
  pend_in (fun k' => k' <> k) (sp_pending st).

Lemma decide_ret r e R r' :
  ret_of j r -> decide_version cmp r (e_key e) (e_seq e) (e_kind e) (e_tombstone e) (e_ttl e) = (R, r') ->
  ret_of j r' /\ last_key r' = Some (e_key e).
Proof.
  intros Hr Hd. destruct (flags_of (e_key e) r) as [em live] eqn:Ef.
  by destruct (decide_gdecide cmp j (e_key e) r e em live R r' Hr eq_refl Ef Hd) as (? & ? & _).
Qed.

Lemma step_free k st e st' ws :
  free_of k st -> e_key e <> k -> span_step cmp j covering st e = Ok (st', ws) -> free_of k st'.
Proof.
  intros (Hr & Hf & Hl & Hp) He H. destruct (step_in (fun k' => k' <> k) _ _ _ _ Hp He H) as [Hp' _].
  unfold span_step in H. destruct (is_copy _ _ _); [by injection H as <- <-|].
  apply bind_inv in H as ([] & _ & H). apply bind_inv in H as ([p fl] & _ & H).
  assert (last_of k (Some (e_key e, e_seq e)) = None) as Hl' by (unfold last_of; by destruct (decide _)).
  assert (forall r, last_key r = Some (e_key e) -> flags_of k r = (false, false)) as Hflag.
  { intros r Hlk. unfold flags_of. rewrite Hlk, bool_decide_eq_false_2; [done|]. congruence. }
  destruct (range_masked _ _ _ _); [injection H as <- <-; done|].
  destruct (decide_version _ _ _ _ _ _ _) as [[|fe] ret] eqn:Ed; apply decide_ret in Ed as [? ?]; try done.
  - injection H as <- <-. unfold free_of. cbn [sp_ret sp_prev]. auto.
  - apply bind_inv in H as ([p2 w] & Hk & [= <- <-]). unfold free_of. cbn [sp_ret sp_prev]. auto.
Qed.

Lemma steps_free k es : forall st st' ws,
  keys_in (fun k' => k' <> k) es -> free_of k st -> steps cmp j covering st es = Ok (st', ws) -> free_of k st'.
Proof.
  induction es as [|e es IH]; intros st st' ws HF Hf H; cbn in H; [by injection H as <- <-|].
  apply Forall_cons in HF as [He HF]. apply bind_inv in H as ([st1 ws1] & H1 & H).
  apply bind_inv in H as ([st2 ws2] & H2 & [= <- <-]). eapply IH; [done| |done]. by eapply step_free.
Qed.

Definition unpend (st : SpanState) : SpanState := mkSpan_ (sp_ret st) None (sp_prev st).

(** The first entry of another key flushes the pending fold, then acts as without one. *)
Lemma step_unpend st e s w :
  is_copy cmp (sp_prev st) e = false -> ends_pending cmp (sp_pending st) (e_key e) = true ->
  span_step cmp j covering st e = Ok (s, w) ->
  exists fl w', flush_pending j (j_merge_fold j) (sp_pending st) = Ok fl /\
    span_step cmp j covering (unpend st) e = Ok (s, w') /\ w = fl ++ w'.
Proof.
  intros Hc He. unfold span_step. cbn [unpend sp_prev sp_pending sp_ret ends_pending]. rewrite Hc, He. intros H.
  apply bind_inv in H as ([] & Hg & H). rewrite Hg. cbn [rbind].
  apply bind_inv in H as ([p fl] & Hf & H). apply bind_inv in Hf as (fw & Hf & [= <- <-]). exists fw. rewrite Hf.
  destruct (range_masked _ _ _ _); [injection H as <- <-; exists []; by rewrite app_nil_r|].
  destruct (decide_version _ _ _ _ _ _ _) as [[|fe] ret]; [injection H as <- <-; exists []; by rewrite app_nil_r|].
  apply bind_inv in H as ([p2 w2] & -> & [= <- <-]). cbn. by exists w2.
Qed.

Definition flushes (p : option PendingFold) (fw : list Entry) : Prop := flush_pending j (j_merge_fold j) p = Ok fw.

Lemma tail_flush k es : forall st st' ws fin,
  pend_in (eq k) (sp_pending st) -> keys_in (fun k' => k' <> k) es ->
  steps cmp j covering st es = Ok (st', ws) -> flushes (sp_pending st') fin ->
  exists fw rest, flushes (sp_pending st) fw /\ ws ++ fin = fw ++ rest /\ keys_in (fun k' => k' <> k) rest.
Proof.
  induction es as [|e es IH]; intros st st' ws fin Hp HF H Hfin.
  { injection H as <- <-. exists fin, []. rewrite app_nil_r. conj_split; [done..|constructor]. }
  pose proof HF as HF0. apply Forall_cons in HF as [He HF]. destruct (sp_pending st) as [p|] eqn:Ep.
  - pose proof H as H0. cbn in H. apply bind_inv in H as ([st1 ws1] & H1 & H).
    apply bind_inv in H as ([st2 ws2] & H2 & [= <- <-]). destruct (is_copy cmp (sp_prev st) e) eqn:Ec.
    + unfold span_step in H1. rewrite Ec in H1. injection H1 as <- <-. rewrite <- Ep. eapply IH; [by rewrite Ep|done..].
    + apply step_unpend in H1 as (fl & w' & Hfl & H1 & ->); [|done|].
      * apply (step_in (fun k' => k' <> k)) in H1 as [Hp1 Hw]; [|done..].
        destruct (steps_in (fun k' => k' <> k) _ _ _ _ Hp1 HF H2) as [Hp2 Hw2].
        exists fl, (w' ++ ws2 ++ fin). rewrite <- Ep, <- !app_assoc. conj_split; [done..|].
        unfold keys_in in *. rewrite !Forall_app. conj_split; [done..|]. by eapply (flush_in (fun k' => k' <> k)).
      * rewrite Ep. cbn in *. destruct (is_eq _) eqn:E; [|done]. apply (is_eq_true cmp) in E. congruence.
  - apply (steps_in (fun k' => k' <> k)) in H as [Hp' Hw]; [|by rewrite Ep|done].
    exists [], (ws ++ fin). conj_split; [done..|]. apply Forall_app. split; [done|]. by eapply (flush_in (fun k' => k' <> k)).
Qed.

Definition of_key (k : key) (es : list Entry) : list Entry := List.filter (fun e => is_eq (compare cmp (e_key e) k)) es.

Lemma of_key_app k es fs : of_key k (es ++ fs) = of_key k es ++ of_key k fs.
Proof. apply List.filter_app. Qed.

Lemma of_key_none k es : keys_in (fun k' => k' <> k) es -> of_key k es = [].
Proof.
  induction 1 as [|e es He _ IH]; [done|]. unfold of_key in *. cbn. destruct (is_eq _) eqn:E; [|done].
  by apply (is_eq_true cmp) in E.
Qed.

Lemma of_key_all k es : keys_in (fun k' => k' = k) es -> of_key k es = es.
Proof.
  induction 1 as [|e es He _ IH]; [done|]. unfold of_key in *. cbn. rewrite (proj2 (is_eq_true cmp (e_key e) k) He). by f_equal.
Qed.

(** A group entered with nothing of its key remembered. *)
Lemma group_enter k g st st' ws :
  keys_in (fun k' => k' = k) g -> free_of k st -> steps cmp j covering st g = Ok (st', ws) -> g <> [] ->
  exists fl wg, ws = fl ++ wg /\ keys_in (fun k' => k' <> k) fl /\
    grun j false false None (unmasked cmp j covering (fresh_seqs None g)) = Ok (sp_pending st', wg) /\
    pend_in (eq k) (sp_pending st').
Proof.
  intros HF (Hr & Hfl & Hl & Hp) Hs Hne.
  assert (exists fl wg, ws = fl ++ wg /\ keys_in (fun k' => k' <> k) fl /\
            steps cmp j covering (unpend st) g = Ok (st', wg)) as (fl & wg & -> & Hfk & Hs').
  { destruct g as [|e g]; [done|]. apply Forall_cons in HF as [He _]. cbn in Hs.
    apply bind_inv in Hs as ([st1 ws1] & H1 & Hs). apply bind_inv in Hs as ([st2 ws2] & H2 & [= <- <-]).
    destruct (ends_pending cmp (sp_pending st) (e_key e)) eqn:Ee.
    - apply step_unpend in H1 as (fl & w' & Hfl' & H1 & ->); [|by rewrite (is_copy_last cmp k _ _ He), Hl|done].
      exists fl, (w' ++ ws2). rewrite app_assoc. conj_split; [done|by eapply flush_in|]. cbn. rewrite H1. cbn. by rewrite H2.
    - assert (st = unpend st) as <-.
      { destruct st as [r [p|] pr]; [|done]. cbn in *. rewrite He in Ee. apply negb_false_iff in Ee.
        by apply (is_eq_true cmp) in Ee. }
      exists [], (ws1 ++ ws2). conj_split; [done|constructor|]. cbn. rewrite H1. cbn. by rewrite H2. }
  exists fl, wg. apply (steps_group cmp j covering k) in Hs' as (Hg & _ & Hp'); [|done..].
  cbn [unpend sp_ret sp_prev sp_pending] in Hg. rewrite Hfl, Hl in Hg. done.
Qed.

Lemma group_writes k pre g post st st' ws fin :
  keys_in (fun k' => k' <> k) pre -> keys_in (fun k' => k' = k) g -> keys_in (fun k' => k' <> k) post -> free_of k st ->
  steps cmp j covering st (pre ++ g ++ post) = Ok (st', ws) -> flushes (sp_pending st') fin ->
  exists p wg fw, grun j false false None (unmasked cmp j covering (fresh_seqs None g)) = Ok (p, wg) /\
    flushes p fw /\ of_key k (ws ++ fin) = of_key k (wg ++ fw).
Proof.
  intros H1 H2 H3 Hfree Hs Hfin. apply steps_app in Hs as (st1 & w1 & w23 & Hs1 & Hs & ->).
  apply steps_app in Hs as (st2 & w2 & w3 & Hs2 & Hs3 & ->).
  destruct (steps_in (fun k' => k' <> k) _ _ _ _ (proj2 (proj2 (proj2 Hfree))) H1 Hs1) as [Hp1 Hw1].
  pose proof (steps_free k _ _ _ _ H1 Hfree Hs1) as Hfree1.
  destruct (decide (g = [])) as [->|Hne].
  - injection Hs2 as <- <-. destruct (steps_in (fun k' => k' <> k) _ _ _ _ Hp1 H3 Hs3) as [Hp3 Hw3].
    exists None, [], []. conj_split; [done..|]. assert (keys_in (fun k' => k' <> k) fin) as Hf by by eapply (flush_in (fun k' => k' <> k)).
    cbn [app]. by rewrite !of_key_app, (of_key_none k w1), (of_key_none k w3), (of_key_none k fin).
  - destruct (group_enter k g st1 st2 w2 H2 Hfree1 Hs2 Hne) as (fl & wg & -> & Hfl & Hg & Hpg).
    destruct (tail_flush k post st2 st' w3 fin Hpg H3 Hs3 Hfin) as (fw & rest & Hfw & E & Hrest).
    exists (sp_pending st2), wg, fw. conj_split; [done..|].
    rewrite <- !app_assoc, E, !of_key_app. by rewrite (of_key_none k w1), (of_key_none k fl), (of_key_none k rest), app_nil_r.
Qed.
End Keys.

(** ** The merge of the inputs *)

Section Merge.
Context (cmp : Comparator) `{!TotalOrder cmp}.

Definition entry_le (a b : Entry) : Prop := entry_lt cmp a b \/ (e_key a = e_key b /\ e_seq a = e_seq b).

Lemma entry_le_alt a b : entry_le a b <-> klt cmp (e_key a) (e_key b) \/ (e_key a = e_key b /\ e_seq b <= e_seq a).
Proof.
  unfold entry_le, entry_lt. split.
  - intros [[H|[H1 H2]]|[H1 H2]]; [by left|right; split; [done|lia]..].
  - intros [H|[H1 H2]]; [by left; left|]. destruct (Z.eq_dec (e_seq a) (e_seq b)); [by right|].
    left. right. split; [done|lia].
Qed.

Lemma entry_le_refl a : entry_le a a.
Proof. by right. Qed.

Lemma entry_le_trans a b c : entry_le a b -> entry_le b c -> entry_le a c.
Proof.
  rewrite !entry_le_alt. intros [H1|[H1 H1']] [H2|[H2 H2']].
  - left. exact (klt_trans cmp _ _ _ H1 H2).
  - left. by rewrite <- H2.
  - left. by rewrite H1.
  - right. split; [congruence|lia].
Qed.

Lemma before_lt a b : before cmp a (e_key b) (e_seq b) = true <-> entry_lt cmp a b.
Proof.
  unfold before, entry_lt, klt. destruct (compare cmp (e_key a) (e_key b)) eqn:E.
  - apply (kcompare_eq cmp) in E. rewrite Z.ltb_lt. split; [auto|]. by intros [|[_ ?]].
  - split; [by left|done].
  - split; [done|]. intros [|[Hk _]]; [done|]. apply (kcompare_eq cmp) in Hk. congruence.
Qed.

Lemma not_before_le a b : before cmp a (e_key b) (e_seq b) = false -> entry_le b a.
Proof.
  intros H. apply entry_le_alt. destruct (decide (e_key a = e_key b)) as [E|E].
  - right. split; [done|]. destruct (Z.le_gt_cases (e_seq a) (e_seq b)) as [Hs|Hs]; [done|].
    rewrite (proj2 (before_lt a b)) in H; [done|]. right. split; [done|lia].
  - left. destruct (compare cmp (e_key a) (e_key b)) eqn:Ec; [by apply (kcompare_eq cmp) in Ec| |].
    + rewrite (proj2 (before_lt a b)) in H; [done|by left].
    + apply (not_kle cmp). unfold kle. rewrite Ec. auto.
Qed.

(** The least of the inputs' first entries. *)
Definition least_head (its : list Iter) (e : Entry) : Prop :=
  forall it e' rest, it ∈ its -> it_rest it = e' :: rest -> entry_le e e'.

Lemma better_spec (i : nat) (h : Entry) (best : option (nat * Entry)) :
  let nb := match best with
            | None => Some (i, h)
            | Some (_, p) => if before cmp h (e_key p) (e_seq p) then Some (i, h) else best
            end in
  (nb = Some (i, h) \/ nb = best) /\
  (forall bi be, nb = Some (bi, be) -> entry_le be h /\ forall bi' be', best = Some (bi', be') -> entry_le be be') /\
  nb <> None.
Proof.
  destruct best as [[pi p]|]; cbn.
  - destruct (before cmp h (e_key p) (e_seq p)) eqn:Eb.
    + conj_split; [by left| |done]. intros ? ? [= <- <-]. split; [apply entry_le_refl|]. intros ? ? [= <- <-].
      left. by apply before_lt.
    + conj_split; [by right| |done]. intros ? ? [= <- <-]. split; [by apply not_before_le|]. intros ? ? [= <- <-].
      apply entry_le_refl.
  - conj_split; [by left| |done]. intros ? ? [= <- <-]. split; [apply entry_le_refl|done].
Qed.

Lemma smallest_from_spec its : forall i best r,
  smallest_from cmp its i best = Ok r ->
  match r with
  | None => best = None /\ Forall (fun it => it_rest it = []) its
  | Some (ix, e) =>
      (best = Some (ix, e) \/ exists m it rest, ix = (i + m)%nat /\ its !! m = Some it /\ it_rest it = e :: rest) /\
      (forall bi be, best = Some (bi, be) -> entry_le e be) /\ least_head its e
  end.
Proof.
  induction its as [|it its IH]; intros i best r H; cbn [smallest_from] in H.
  { injection H as <-. destruct best as [[ix e]|]; [|by split; [|constructor]]. conj_split; [by left| |].
    - intros bi be [= <- <-]. apply entry_le_refl.
    - intros it e' rest Hin. by apply elem_of_nil in Hin. }
  destruct (it_rest it) as [|h t] eqn:Eh.
  - destruct (it_err it); [done|]. specialize (IH _ _ _ H). destruct r as [[ix e]|].
    + destruct IH as (IH1 & IH2 & IH3). conj_split; [|done|].
      * destruct IH1 as [?|(m & it' & rest & -> & ? & ?)]; [by left|]. right. exists (S m), it', rest. conj_split; [lia|done..].
      * intros it' e' rest Hin E. apply elem_of_cons in Hin as [->|Hin]; [congruence|by eapply IH3].
    + destruct IH as [? ?]. split; [done|by constructor].
  - specialize (IH _ _ _ H). destruct (better_spec i h best) as (N1 & N2 & N3).
    set (nb := match best with Some _ => _ | None => _ end) in *.
    clearbody nb. destruct nb as [[ni ne]|]; [|done]. destruct (N2 ni ne eq_refl) as [Nh Nb].
    destruct r as [[ix e]|]; [|by destruct IH]. destruct IH as (IH1 & IH2 & IH3). pose proof (IH2 _ _ eq_refl) as Hle. conj_split.
    + destruct IH1 as [[= -> ->]|(m & it' & rest & -> & ? & ?)].
      * destruct N1 as [[= -> ->]|N1]; [right; exists 0%nat, it, t; conj_split; [lia|done..]|by left].
      * right. exists (S m), it', rest. conj_split; [lia|done..].
    + intros bi be Eb. eapply entry_le_trans; [exact Hle|by eapply Nb].
    + intros it' e' rest Hin E. apply elem_of_cons in Hin as [->|Hin]; [|by eapply IH3].
      rewrite Eh in E. injection E as <- <-. by eapply entry_le_trans.
Qed.

Lemma past_upper_mono upper a b : past_upper cmp upper a = true -> kle cmp a b -> past_upper cmp upper b = true.
Proof. destruct upper; cbn; [done|rewrite !(is_gt_true cmp)|rewrite !(is_ge_true cmp)]; intros; korder. Qed.

Lemma advance_Permutation its i it e rest :
  its !! i = Some it -> it_rest it = e :: rest ->
  concat (map it_rest its) ≡ₚ e :: concat (map it_rest (alter iter_next i its)).
Proof.
  revert i. induction its as [|it' its IH]; intros [|i] Hl Hr; cbn in Hl; [done..| |].
  - injection Hl as ->. cbn. by rewrite Hr.
  - cbn. rewrite (IH i Hl Hr). symmetry. apply Permutation_middle.
Qed.

Lemma advance_sorted its i :
  Forall (fun it => run_sorted cmp (it_rest it)) its ->
  Forall (fun it => run_sorted cmp (it_rest it)) (alter iter_next i its).
Proof.
  intros H. apply Forall_alter; [done|]. intros it _ Hs. cbn. destruct (it_rest it) as [|e rest]; [done|].
  cbn. rewrite drop_0. by apply StronglySorted_inv in Hs as [? _].
Qed.

(** The entry [smallest_input] picks is at or before every entry left. *)
Lemma least_head_all its e x :
  Forall (fun it => run_sorted cmp (it_rest it)) its -> least_head its e -> x ∈ concat (map it_rest its) -> entry_le e x.
Proof.
  intros HF Hl Hx. apply elem_of_concat_map in Hx as (it & Hit & Hx).
  rewrite Forall_forall in HF. specialize (HF it Hit). destruct (it_rest it) as [|h t] eqn:Eh; [by apply elem_of_nil in Hx|].
  pose proof (Hl it h t Hit Eh) as Hh. apply elem_of_cons in Hx as [->|Hx]; [done|].
  eapply entry_le_trans; [exact Hh|]. left. apply StronglySorted_inv in HF as [_ HF]. rewrite Forall_forall in HF. by apply HF.
Qed.

Context (j : FrozenJob) (covering : list Fragment) (upper : Bound).

Definition below_upper (es : list Entry) (e : Entry) : Prop := e ∈ es /\ past_upper cmp upper (e_key e) = false.

Abbreviation under := (List.filter (fun e => negb (past_upper cmp upper (e_key e)))).

(** What the loop did when it ended: it took every entry below the upper bound, in order. *)
Lemma span_loop_stream fuel : forall its st b st' b',
  Forall (fun it => run_sorted cmp (it_rest it)) its ->
  span_loop cmp j covering upper fuel its st b = Some (Ok (st', b')) ->
  exists es ws, StronglySorted entry_le es /\ es ≡ₚ under (concat (map it_rest its)) /\
    steps cmp j covering st es = Ok (st', ws) /\ b' = fold_left (builder_write cmp) ws b.
Proof.
  induction fuel as [|fuel IH]; intros its st b st' b' HF H; [done|]. cbn [span_loop] in H.
  destruct (smallest_input cmp its) as [best|] eqn:Hb; [|done]. apply smallest_from_spec in Hb. destruct best as [[i e]|].
  - destruct Hb as ([?|(m & it & rest & -> & Hi & Hr)] & _ & Hl); [done|]. rewrite Nat.add_0_l in *.
    pose proof (advance_Permutation its m it e rest Hi Hr) as HP.
    pose proof (fun x => least_head_all its e x HF Hl) as Hmin.
    destruct (past_upper cmp upper (e_key e)) eqn:Eu.
    + injection H as <- <-. exists [], []. conj_split; [constructor| |done..]. rewrite lfilter_none; [done|].
      intros x Hx. apply negb_false_iff, (past_upper_mono upper (e_key e)); [done|].
      destruct (proj1 (entry_le_alt _ _) (Hmin x Hx)) as [Hk|[Hk _]]; [by apply klt_kle|rewrite Hk; by apply kle_refl].
    + destruct (span_step cmp j covering st e) as [[st1 ws1]|] eqn:H1; [|done].
      apply IH in H as (es & ws & Hs & Hin & Hst & ->); [|by apply advance_sorted].
      exists (e :: es), (ws1 ++ ws). cbn. rewrite H1. cbn. rewrite Hst. cbn. rewrite fold_left_app. conj_split; [|..|done|done].
      * constructor; [done|]. apply Forall_forall. intros x Hx. rewrite Hin in Hx. apply elem_of_lfilter in Hx as [Hx _].
        apply Hmin. rewrite HP. by right.
      * rewrite (lfilter_Permutation _ _ _ HP). cbn. rewrite Eu. cbn. by rewrite Hin.
  - injection H as <- <-. destruct Hb as [_ Hb]. exists [], []. conj_split; [constructor| |done..].
    replace (concat (map it_rest its)) with (@nil Entry); [done|]. clear IH HF. symmetry. induction Hb as [|it its E _ IH]; [done|]. cbn. by rewrite E.
Qed.

(** It always ends: every round takes an entry off an input. *)
Lemma span_loop_ends fuel : forall its st b,
  (length (concat (map it_rest its)) < fuel)%nat -> is_Some (span_loop cmp j covering upper fuel its st b).
Proof.
  induction fuel as [|fuel IH]; intros its st b Hlen; [lia|]. cbn [span_loop].
  destruct (smallest_input cmp its) as [[[i e]|]|] eqn:Hb; [|by eexists..].
  destruct (past_upper cmp upper (e_key e)); [by eexists|]. destruct (span_step cmp j covering st e) as [[st1 ws1]|]; [|by eexists].
  apply smallest_from_spec in Hb as ([?|(m & it & rest & -> & Hi & Hr)] & _); [done|]. rewrite Nat.add_0_l in *. apply IH.
  pose proof (advance_Permutation its m it e rest Hi Hr) as HP. apply Permutation_length in HP. cbn in HP. lia.
Qed.
End Merge.

(** ** The group of a key in the merged stream *)

Section Stream.
Context (cmp : Comparator) `{!TotalOrder cmp}.

Lemma sorted_split k es :
  StronglySorted (entry_le cmp) es ->
  exists pre post, es = pre ++ of_key cmp k es ++ post /\
    keys_in (fun k' => k' <> k) pre /\ keys_in (fun k' => k' <> k) post.
Proof.
  induction 1 as [|e es Hs IH HF]; [exists [], []; repeat constructor|].
  destruct IH as (pre & post & E & Hpre & Hpost). unfold of_key in *. cbn [List.filter].
  destruct (is_eq (compare cmp (e_key e) k)) eqn:Ek; kbool.
  - destruct pre as [|x pre]; [exists [], post; by rewrite E at 1|].
    assert (keys_in (fun k' => k' <> k) es) as Hgt.
    { apply Forall_forall. intros y Hy. rewrite E in HF, Hs, Hy. apply Forall_cons in Hpre as [Hx _].
      assert (entry_le cmp x y) as Hxy.
      { cbn in Hy, Hs. apply elem_of_cons in Hy as [->|Hy]; [by apply entry_le_refl|].
        apply StronglySorted_inv in Hs as [_ Hs]. rewrite Forall_forall in Hs. by apply Hs. }
      cbn in HF. apply Forall_cons in HF as [Hex _]. rewrite entry_le_alt in Hex, Hxy.
      destruct Hex as [Hex|[Hex _]]; [|congruence]. intros Hyk.
      destruct Hxy as [Hxy|[Hxy _]]; [|congruence]. rewrite Ek in Hex. rewrite Hyk in Hxy. korder. }
    exists [], es. fold (of_key cmp k es). rewrite (of_key_none cmp k es Hgt). conj_split; [done|constructor|done].
  - exists (e :: pre), post. cbn. rewrite <- E. conj_split; [done| |done]. by constructor.
Qed.

(** Without the copies, the versions of a key are newest first. *)
Lemma fresh_seqs_in last es e : e ∈ fresh_seqs last es -> e ∈ es.
Proof.
  revert last. induction es as [|x es IH]; intros last; cbn; [done|]. case_bool_decide; [intros; right; eauto|].
  rewrite !elem_of_cons. intros [->|?]; eauto.
Qed.

Lemma fresh_seqs_sorted last es :
  StronglySorted (fun a b => e_seq b <= e_seq a) es -> (forall s e, last = Some s -> e ∈ es -> e_seq e <= s) ->
  StronglySorted (fun a b => e_seq b < e_seq a) (fresh_seqs last es) /\
  forall s e, last = Some s -> e ∈ fresh_seqs last es -> e_seq e < s.
Proof.
  intros Hs. revert last. induction Hs as [|x es Hs IH HF]; intros last Hl; cbn.
  { split; [constructor|]. intros s e _ He. by apply elem_of_nil in He. }
  rewrite Forall_forall in HF. case_bool_decide as E.
  - apply IH. intros s e -> He. apply (Hl s); [done|by right].
  - destruct (IH (Some (e_seq x))) as [I1 I2]; [intros s e [= <-] He; by apply HF|]. split.
    + constructor; [done|]. apply Forall_forall. intros y Hy. by eapply I2.
    + intros s e -> He. pose proof (Hl s x eq_refl ltac:(left)). assert (e_seq x <> s) by congruence.
      apply elem_of_cons in He as [->|He]; [lia|]. specialize (I2 _ _ eq_refl He). lia.
Qed.

Lemma fresh_seqs_all last es :
  (forall e e', e ∈ es -> e' ∈ es -> e_seq e = e_seq e' -> e = e') ->
  forall e, e ∈ es -> last = Some (e_seq e) \/ e ∈ fresh_seqs last es.
Proof.
  revert last. induction es as [|x es IH]; intros last Hc e He; [by apply elem_of_nil in He|]. cbn.
  assert (forall a b, a ∈ es -> b ∈ es -> e_seq a = e_seq b -> a = b) as Hc' by (intros a b Ha Hb; apply Hc; by right).
  case_bool_decide as E.
  - apply elem_of_cons in He as [->|He]; [by left|by apply IH].
  - right. apply elem_of_cons in He as [->|He]; [left|]. destruct (IH (Some (e_seq x)) Hc' e He) as [[= Ex]|?]; [|by right].
    rewrite (Hc x e) by (done || by left || by right). left.
Qed.

Lemma of_key_sorted k es :
  StronglySorted (entry_le cmp) es -> StronglySorted (fun a b => e_seq b <= e_seq a) (of_key cmp k es).
Proof.
  induction 1 as [|e es Hs IH HF]; [constructor|]. unfold of_key in *. cbn.
  destruct (is_eq (compare cmp (e_key e) k)) eqn:E; [|done]. kbool. constructor; [done|].
  apply Forall_forall. intros x Hx. apply list_elem_of_In, filter_In in Hx as [Hx Hk]. kbool.
  rewrite Forall_forall in HF. apply list_elem_of_In in Hx. specialize (HF x Hx). rewrite entry_le_alt in HF.
  destruct HF as [HF|[_ ?]]; [|done]. rewrite E, Hk in HF. by apply klt_irrefl in HF.
Qed.

Lemma elem_of_of_key k es e : e ∈ of_key cmp k es <-> e ∈ es /\ e_key e = k.
Proof. unfold of_key. by rewrite list_elem_of_In, filter_In, <- list_elem_of_In, (is_eq_true cmp). Qed.
End Stream.

(** ** The span's window *)

Definition above_lower (cmp : Comparator) (lower : Bound) (k : key) : Prop :=
  match lower with Unbounded => True | Included l => kle cmp l k | Excluded l => klt cmp l k end.

Definition in_span (cmp : Comparator) (lower upper : Bound) (k : key) : Prop :=
  above_lower cmp lower k /\ past_upper cmp upper k = false.

(** [in_span] as a test. *)
Definition in_spanb (cmp : Comparator) (lower upper : Bound) (k : key) : bool :=
  match lower with
  | Unbounded => true
  | Included l => is_le (compare cmp l k)
  | Excluded l => is_lt (compare cmp l k)
  end && negb (past_upper cmp upper k).

Section Window.
Context (cmp : Comparator) `{!TotalOrder cmp}.

Lemma in_span_window lower upper k :
  in_span cmp lower upper k -> in_window cmp (fst (span_edges lower upper)) (snd (span_edges lower upper)) k.
Proof.
  intros [H1 H2]. apply in_window_alt. split; [destruct lower|destruct upper]; cbn in *; kbool; first [done | korder].
Qed.

Lemma seek_spec es k s :
  run_sorted cmp es ->
  run_sorted cmp (seek cmp es k s) /\ (forall e, e ∈ seek cmp es k s -> e ∈ es) /\
  (forall e, e ∈ es -> before cmp e k s = false -> e ∈ seek cmp es k s).
Proof.
  induction es as [|x es IH]; intros Hs; cbn; [done|]. destruct (before cmp x k s) eqn:E; [|done].
  apply StronglySorted_inv in Hs as [Hs _]. destruct (IH Hs) as (I1 & I2 & I3). conj_split; [done|by right; apply I2|].
  intros e [->|He]%elem_of_cons Hb; [congruence|auto].
Qed.

Lemma seek_lower_spec lower it :
  run_sorted cmp (it_rest it) ->
  run_sorted cmp (it_rest (iter_seek_lower cmp lower it)) /\
  (forall e, e ∈ it_rest (iter_seek_lower cmp lower it) -> e ∈ it_rest it) /\
  (forall e, e ∈ it_rest it -> above_lower cmp lower (e_key e) -> e_seq e <= U64_LAST ->
     e ∈ it_rest (iter_seek_lower cmp lower it)).
Proof.
  intros Hs. destruct lower as [|l|l]; cbn [iter_seek_lower it_rest above_lower]; [done|..].
  - destruct (seek_spec (it_rest it) l U64_LAST Hs) as (S1 & S2 & S3). conj_split; [done..|].
    intros e He Hk Hq. apply S3; [done|]. unfold before. unfold kle in Hk.
    destruct (compare cmp (e_key e) l) eqn:E; [by apply Z.ltb_ge| |done].
    exfalso. assert (klt cmp (e_key e) l) as Hlt by exact E. assert (kle cmp l (e_key e)) as Hle by exact Hk. korder.
  - destruct (seek_spec (it_rest it) l 0 Hs) as (S1 & S2 & S3).
    assert (forall e, e ∈ it_rest it -> klt cmp l (e_key e) -> e ∈ seek cmp (it_rest it) l 0) as S3'.
    { intros e He Hk. apply S3; [done|]. unfold before. destruct (compare cmp (e_key e) l) eqn:E; [| |done].
      - apply (kcompare_eq cmp) in E. rewrite E in Hk. by apply klt_irrefl in Hk.
      - assert (klt cmp (e_key e) l) as Hlt by exact E. exfalso. korder. }
    destruct (seek cmp (it_rest it) l 0) as [|x rest]; [by auto|]. destruct (is_eq (compare cmp (e_key x) l)) eqn:Ex; [|by auto].
    kbool. conj_split; [by apply StronglySorted_inv in S1 as [? _]|intros e He; apply S2; by right|].
    intros e He Hk _. specialize (S3' e He Hk). apply elem_of_cons in S3' as [->|?]; [|done].
    rewrite Ex in Hk. by apply klt_irrefl in Hk.
Qed.

Lemma before_iff e k s : before cmp e k s = true <-> klt cmp (e_key e) k \/ (e_key e = k /\ s < e_seq e).
Proof. exact (before_lt cmp e (mkEntry k s 0 0 [] true)). Qed.

Lemma run_seek_filter es k s :
  run_sorted cmp es -> seek cmp es k s = List.filter (fun e => negb (before cmp e k s)) es.
Proof.
  induction 1 as [|x es Hs IH HF]; [done|]. cbn. destruct (before cmp x k s) eqn:E; cbn; [done|].
  f_equal. symmetry. apply lfilter_all. intros e He. rewrite Forall_forall in HF. specialize (HF e He).
  apply negb_true_iff, not_true_is_false. intros Hb. apply not_true_iff_false in E. apply E. rewrite before_iff in *.
  destruct HF as [HF|[HF ?]], Hb as [Hb|[Hb ?]]; [left; by eapply klt_trans|left; by rewrite <- Hb|left; by rewrite HF|right; split; [congruence|lia]].
Qed.

(** Positioning an input is leaving out what lies before the lower bound. *)
Lemma seek_lower_rest lower it :
  run_sorted cmp (it_rest it) -> (forall e, e ∈ it_rest it -> is_u64 (e_seq e)) ->
  it_rest (iter_seek_lower cmp lower it) = List.filter (fun e => in_spanb cmp lower Unbounded (e_key e)) (it_rest it).
Proof.
  intros Hs Hu. unfold in_spanb. destruct lower as [|l|l]; cbn [iter_seek_lower it_rest past_upper negb]; [by rewrite lfilter_all|..].
  - rewrite run_seek_filter by done. apply lfilter_ext. intros e He. rewrite andb_true_r. apply eq_true_iff_eq.
    rewrite negb_true_iff, <- not_true_iff_false, before_iff, (is_le_true cmp). specialize (Hu e He) as [? ?]. unfold U64_LAST.
    split; [intros Hn; apply (not_klt cmp); tauto|]. intros Hle [Hlt|[_ ?]]; [korder|lia].
  - set (above := fun e => is_lt (compare cmp l (e_key e)) && true).
    assert (forall e, above e = true <-> klt cmp l (e_key e)) as Ha by (intros e; unfold above; by rewrite andb_true_r, (is_lt_true cmp)).
    clearbody above.
    rewrite <- (lfilter_lfilter above (fun e => negb (before cmp e l 0)) (it_rest it)).
    2:{ intros e He. apply Ha in He. apply negb_true_iff, not_true_is_false. rewrite before_iff. intros [?|[E _]]; [korder|].
        rewrite E in He. by apply klt_irrefl in He. }
    destruct (seek_spec (it_rest it) l 0 Hs) as (S1 & S2 & _).
    assert (forall e, e ∈ seek cmp (it_rest it) l 0 -> before cmp e l 0 = false) as S4.
    { intros e. rewrite run_seek_filter, elem_of_lfilter, negb_true_iff by done. tauto. }
    rewrite <- run_seek_filter by done. destruct (seek cmp (it_rest it) l 0) as [|x rest]; [done|].
    apply StronglySorted_inv in S1 as [_ S1]. rewrite Forall_forall in S1. specialize (S4 x ltac:(left)).
    rewrite <- not_true_iff_false, before_iff in S4. assert (is_u64 (e_seq x)) as [? ?] by (apply Hu, S2; left).
    destruct (is_eq (compare cmp (e_key x) l)) eqn:Ex; kbool.
    + cbn. replace (above x) with false by (symmetry; apply not_true_is_false; rewrite Ha, Ex; by apply klt_irrefl).
      symmetry. apply lfilter_all. intros e He. apply Ha. rewrite <- Ex. destruct (S1 e He) as [?|[E ?]]; [done|].
      assert (is_u64 (e_seq e)) as [? ?] by (apply Hu, S2; by right). exfalso.
      apply S4. right. split; [done|lia].
    + assert (kle cmp l (e_key x)) as Hx by (apply (not_klt cmp); tauto). apply (kle_lt_or_eq cmp) in Hx as [Hx|]; [|congruence].
      symmetry. apply lfilter_all. intros e [->|He]%elem_of_cons; apply Ha; [done|].
      destruct (S1 e He) as [?|[E ?]]; [by eapply klt_trans|by rewrite <- E].
Qed.

Lemma seek_lower_filter lower upper its :
  Forall (fun it => run_sorted cmp (it_rest it)) its -> (forall e, e ∈ concat (map it_rest its) -> is_u64 (e_seq e)) ->
  List.filter (fun e => negb (past_upper cmp upper (e_key e))) (concat (map it_rest (map (iter_seek_lower cmp lower) its))) =
  List.filter (fun e => in_spanb cmp lower upper (e_key e)) (concat (map it_rest its)).
Proof.
  induction 1 as [|it its Hs _ IH]; intros Hu; [done|]. cbn. rewrite !lfilter_app. f_equal.
  - rewrite seek_lower_rest by (done || (intros e He; apply Hu; cbn; apply elem_of_app; by left)).
    rewrite lfilter_and. apply lfilter_ext. intros e _. unfold in_spanb. cbn. by rewrite andb_true_r.
  - apply IH. intros e He. apply Hu. cbn. apply elem_of_app. by right.
Qed.

Lemma seek_lower_inputs lower its :
  Forall (fun it => run_sorted cmp (it_rest it)) its ->
  Forall (fun it => run_sorted cmp (it_rest it)) (map (iter_seek_lower cmp lower) its) /\
  forall e, above_lower cmp lower (e_key e) -> e_seq e <= U64_LAST ->
    e ∈ concat (map it_rest (map (iter_seek_lower cmp lower) its)) <-> e ∈ concat (map it_rest its).
Proof.
  intros HF. split.
  - apply Forall_map. eapply Forall_impl; [exact HF|]. intros it Hs. by apply (seek_lower_spec lower it).
  - intros e Hk Hq. rewrite map_map, !elem_of_concat_map. rewrite Forall_forall in HF.
    split; intros (it & Hit & He); exists it; (split; [done|]); destruct (seek_lower_spec lower it (HF it Hit)) as (_ & S2 & S3); auto.
Qed.

(** A span that ended with its tables took every entry of the inputs from the lower to the upper bound,
    in order, flushed what was pending, and closed the builder on what was written. *)
Lemma run_span_inv j target part inputs lower upper outs :
  run_span cmp j target part inputs lower upper = Some (Ok outs) -> Forall (fun it => run_sorted cmp (it_rest it)) inputs ->
  let covering := covering_of cmp j lower upper in
  exists es st ws fin, StronglySorted (entry_le cmp) es /\
    es ≡ₚ List.filter (fun e => negb (past_upper cmp upper (e_key e))) (concat (map it_rest (map (iter_seek_lower cmp lower) inputs))) /\
    steps cmp j covering (mkSpan_ (retention_new (j_bottom j) (j_oldest j) (j_now j)) None None) es = Ok (st, ws) /\
    flush_pending j (j_merge_fold j) (sp_pending st) = Ok fin /\
    outs = builder_finish cmp (fold_left (builder_write cmp) (ws ++ fin)
             (builder_new target part (retained_fragments cmp j covering) (snd (span_edges lower upper)))).
Proof.
  intros H HF covering. unfold run_span in H. destruct (seek_lower_inputs lower inputs HF) as [HF' _].
  destruct (span_loop _ _ _ _ _ _ _ _) as [r|] eqn:Hloop; [|done]. cbn in H. injection H as H.
  apply bind_inv in H as ([st b] & -> & H). apply bind_inv in H as (fin & Hfin & [= <-]).
  apply (span_loop_stream cmp j) in Hloop as (es & ws & Hs & Hes & Hst & ->); [|done].
  exists es, st, ws, fin. by rewrite fold_left_app.
Qed.

(** ** The tombstones that stay *)

Lemma retained_seqs_elem seqs oldest droppable x :
  x ∈ retained_fragment_seqs seqs oldest droppable <->
  (x ∈ seqs /\ oldest < x) \/ (droppable = false /\ List.find (fun s => s <=? oldest) seqs = Some x).
Proof.
  unfold retained_fragment_seqs.
  assert (x ∈ List.filter (fun s => oldest <? s) seqs <-> x ∈ seqs /\ oldest < x) as E.
  { by rewrite elem_of_lfilter, Z.ltb_lt. }
  destruct (List.find _ seqs) as [m|]; [destruct droppable|]; rewrite ?elem_of_app, ?list_elem_of_singleton, E; naive_solver.
Qed.

(** The fragment over a key is unique. *)
Lemma frag_unique fs f g k :
  frags_wf cmp fs -> f ∈ fs -> g ∈ fs -> kle cmp (f_start f) k -> klt cmp k (f_end f) ->
  kle cmp (f_start g) k -> klt cmp k (f_end g) -> f = g.
Proof.
  intros [_ Hs]. induction Hs as [|h fs Hs IH HF]; intros Hf Hg H1 H2 H3 H4; [by apply elem_of_nil in Hf|].
  rewrite Forall_forall in HF. apply elem_of_cons in Hf as [->|Hf], Hg as [->|Hg]; [done|..|by apply IH].
  - specialize (HF g Hg). exfalso. korder.
  - specialize (HF f Hf). exfalso. korder.
Qed.

Lemma retained_fragment_elem j covering g :
  g ∈ retained_fragments cmp j covering <->
  f_seqs g <> [] /\ exists f, f ∈ covering /\ f_start g = f_start f /\ f_end g = f_end f /\
    f_seqs g = retained_fragment_seqs (f_seqs f) (j_oldest j) (j_bottom j && negb (mount_overlaps cmp j (f_start f) (f_end f))).
Proof.
  unfold retained_fragments. rewrite elem_of_lfilter, elem_of_map, negb_true_iff, Nat.eqb_neq, length_zero_iff_nil. split.
  - intros [(f & Hf & <-) Hn]. split; [done|]. exists f. done.
  - intros [Hn (f & Hf & E1 & E2 & E3)]. split; [|done]. exists f. split; [done|]. destruct g. cbn in *. by subst.
Qed.

Lemma retained_fragments_at j covering k :
  frags_wf cmp covering ->
  exists drop, (drop = true -> j_bottom j = true) /\
    forall x, frag_at cmp (retained_fragments cmp j covering) k x <->
      (frag_at cmp covering k x /\ j_oldest j < x) \/
      (drop = false /\ covering_seq_in cmp covering k (j_oldest j) = Some x).
Proof.
  intros Hwf. pose proof (covering_seq_in_spec cmp covering k (j_oldest j) Hwf) as Hnew.
  destruct (decide (List.Exists (fun f => kle cmp (f_start f) k /\ klt cmp k (f_end f)) covering)) as [Hex|Hno].
  - apply Exists_exists in Hex as (f & Hf & H1 & H2).
    assert (forall x, frag_at cmp covering k x <-> x ∈ f_seqs f) as Hat.
    { intros x. split; [|intros Hx; by exists f]. intros (g & Hg & H3 & H4 & Hx).
      by rewrite (frag_unique covering f g k Hwf Hf Hg H1 H2 H3 H4). }
    assert (covering_seq_in cmp covering k (j_oldest j) = List.find (fun s => s <=? j_oldest j) (f_seqs f)) as Hfind.
    { eapply is_newest_unique; [exact Hnew|]. eapply is_newest_ext, visible_seq_spec; [intros x; by rewrite Hat|].
      destruct Hwf as [Hok _]. rewrite Forall_forall in Hok. by apply Hok in Hf as (_ & _ & ?). }
    exists (j_bottom j && negb (mount_overlaps cmp j (f_start f) (f_end f))). split; [by intros [? _]%andb_true_iff|].
    intros x. rewrite Hat, Hfind, <- retained_seqs_elem. split.
    + intros (g & Hg & H3 & H4 & Hx). apply retained_fragment_elem in Hg as (_ & f' & Hf' & E1 & E2 & E3).
      rewrite E1 in H3. rewrite E2 in H4. rewrite <- (frag_unique covering f f' k Hwf Hf Hf' H1 H2 H3 H4) in E3. by rewrite <- E3.
    + intros Hx. eexists (mkFragment (f_start f) (f_end f) _). conj_split; [|done|done|exact Hx]. apply retained_fragment_elem.
      split; [|by exists f]. cbn. intros E. rewrite E in Hx. by apply elem_of_nil in Hx.
  - assert (forall x, ~ frag_at cmp covering k x) as Hat.
    { intros x (f & Hf & H1 & H2 & _). apply Hno, Exists_exists. eauto. }
    exists false. split; [done|]. intros x. split.
    + intros (g & Hg & H3 & H4 & Hx). apply retained_fragment_elem in Hg as (_ & f & Hf & E1 & E2 & _).
      exfalso. apply Hno, Exists_exists. exists f. by rewrite <- E1, <- E2.
    + intros [[H _]|[_ H]]; [by apply Hat in H|]. rewrite H in Hnew. destruct Hnew as [[Hn _] _]. by apply Hat in Hn.
Qed.
End Window.

(** ** The output builder *)

Section Builder.
Context (cmp : Comparator) `{!TotalOrder cmp} (frags : list Fragment) (su : option key).

Definition frags_of (outs : list Output) : list Fragment := concat (map out_frags outs).
Definition entries_of (outs : list Output) : list Entry := concat (map out_entries outs).

Definition cur_entries (b : OutputBuilder) : list Entry :=
  match b_current b with Some c => o_entries c | None => [] end.

(** What the finished outputs and the open one hold after writing [ws]: the
    finished ones own the tombstones below the open interval. *)
Record builder_inv (b : OutputBuilder) (ws : list Entry) : Prop := {
  bi_frags : b_fragments b = frags;
  bi_upper : b_span_upper b = su;
  bi_entries : entries_of (b_outputs b) ++ cur_entries b = ws;
  bi_idle : b_current b = None -> ws = [] -> b_outputs b = [] /\ b_interval_lower b = None;
  bi_open : forall c, b_current b = Some c -> o_entries c <> [];
  bi_sub : forall q x, frag_at cmp (frags_of (b_outputs b)) q x -> frag_at cmp frags q x;
  bi_cover : forall q x, frag_at cmp frags q x -> in_window cmp None su q ->
    frag_at cmp (frags_of (b_outputs b)) q x \/ in_window cmp (b_interval_lower b) None q;
}.

Lemma builder_new_inv target part : builder_inv (builder_new target part frags su) [].
Proof.
  constructor; try done; cbn.
  - intros q x (f & Hf & _). by apply elem_of_nil in Hf.
  - intros q x _ _. right. by apply in_window_alt.
Qed.

Lemma finish_frags b upper :
  match b_fragments b with
  | [] => []
  | fs => clip_fragments cmp fs (b_interval_lower b) upper
  end = clip_fragments cmp (b_fragments b) (b_interval_lower b) upper.
Proof. by destruct (b_fragments b). Qed.

Lemma outs_app outs e fs p :
  entries_of (outs ++ [mkOutput e fs p]) = entries_of outs ++ e /\ frags_of (outs ++ [mkOutput e fs p]) = frags_of outs ++ fs.
Proof. unfold entries_of, frags_of. rewrite !map_app, !concat_app. cbn. by rewrite !app_nil_r. Qed.

(** A cut at [k] closes the interval below [k]. *)
Lemma finish_current_inv b ws k :
  builder_inv b ws -> is_Some (b_current b) ->
  builder_inv (finish_current cmp b (Some k)) ws /\ b_current (finish_current cmp b (Some k)) = None.
Proof.
  intros [Hf Hu He _ Ho Hs Hc] [c Ec]. unfold finish_current. rewrite Ec. rewrite finish_frags, Hf.
  split; [|done]. destruct (outs_app (b_outputs b) (o_entries c) (clip_fragments cmp frags (b_interval_lower b) (Some k)) (o_partition c)) as [O1 O2].
  unfold cur_entries in He. rewrite Ec in He.
  constructor; cbn [b_fragments b_span_upper b_outputs b_current b_interval_lower cur_entries]; try done.
  - unfold cur_entries. cbn. by rewrite O1, app_nil_r.
  - intros _ ->. apply app_eq_nil in He as [_ He]. by destruct (Ho c Ec).
  - intros q x. rewrite O2, frag_at_app, (clip_fragments_at cmp). intros [?|[? _]]; [by apply Hs|done].
  - intros q x Hq Hw. rewrite O2, frag_at_app, (clip_fragments_at cmp). destruct (Hc q x Hq Hw) as [?|Hl]; [by left; left|].
    destruct (decide (klt cmp q k)) as [Hlt|Hge].
    + left. right. split; [done|]. rewrite in_window_alt in Hl |- *. by destruct Hl.
    + right. apply in_window_alt. split; [|done]. by apply (not_klt cmp).
Qed.

(** A write appends one entry, to the open output or to a new one. *)
Lemma builder_write_inv b ws e :
  builder_inv b ws -> (b_current b = None -> ws = []) ->
  builder_inv (builder_write cmp b e) (ws ++ [e]) /\ is_Some (b_current (builder_write cmp b e)).
Proof.
  intros Hb Hn. unfold builder_write. split; [|done].
  set (part := match b_partitioner b with Some r => name_of r (e_key e) | None => None end).
  set (b1 := if _ || _ then _ else b).
  assert (builder_inv b1 ws) as [Hf Hu He Hi Ho Hs Hc].
  { unfold b1. destruct (_ || _) eqn:Ecut; [|done].
    assert (is_Some (b_current b)) as Hcur.
    { apply orb_true_iff in Ecut as [E|E]; unfold output_boundary_change in E; destruct (b_current b); try done.
      by rewrite andb_false_r in E. }
    destruct (finish_current_inv b ws (e_key e) Hb Hcur) as [[] ?]. by constructor. }
  clearbody b1. constructor; cbn [b_fragments b_span_upper b_outputs b_current b_interval_lower];
    destruct (b_current b1) as [c|] eqn:Ec; cbn [open_output b_fragments b_span_upper b_outputs b_current b_interval_lower default]; try done.
  - unfold cur_entries in He |- *. rewrite Ec in He |- *. cbn [b_current o_entries from_option Datatypes.id]. by rewrite app_assoc, He.
  - unfold cur_entries in He |- *. rewrite Ec, app_nil_r in He. cbn. by rewrite He.
  - intros c' [= <-]. rewrite Ec. cbn. intros H. by apply app_eq_nil in H as [_ ?].
  - by intros c' [= <-].
Qed.

Lemma builder_writes_inv ws' : forall b ws,
  builder_inv b ws -> (b_current b = None -> ws = []) ->
  builder_inv (fold_left (builder_write cmp) ws' b) (ws ++ ws') /\
  (b_current (fold_left (builder_write cmp) ws' b) = None -> ws ++ ws' = []).
Proof.
  induction ws' as [|e ws' IH]; intros b ws Hb Hn; cbn; [by rewrite app_nil_r|].
  destruct (builder_write_inv b ws e Hb Hn) as [Hb' [c Hc]]. rewrite (cons_middle e ws ws'), app_assoc. apply IH; [done|congruence].
Qed.

Lemma finish_last b ws c :
  b_current b = Some c -> entries_of (b_outputs b) ++ o_entries c = ws -> b_fragments b = frags /\ b_span_upper b = su ->
  (forall q x, frag_at cmp (frags_of (b_outputs b)) q x -> frag_at cmp frags q x) ->
  (forall q x, frag_at cmp frags q x -> in_window cmp None su q ->
     frag_at cmp (frags_of (b_outputs b)) q x \/ in_window cmp (b_interval_lower b) None q) ->
  entries_of (b_outputs (finish_current cmp b None)) = ws /\
  (forall q x, in_window cmp None su q ->
     frag_at cmp (frags_of (b_outputs (finish_current cmp b None))) q x <-> frag_at cmp frags q x).
Proof.
  intros Ec He [Hf Hu] Hs Hc. unfold finish_current. rewrite Ec, finish_frags, Hf, Hu. cbn [b_outputs].
  destruct (outs_app (b_outputs b) (o_entries c) (clip_fragments cmp frags (b_interval_lower b) su) (o_partition c)) as [O1 O2].
  rewrite O1, O2. split; [done|]. intros q x Hw. rewrite frag_at_app, (clip_fragments_at cmp). split.
  - intros [?|[? _]]; [by apply Hs|done].
  - intros Hq. destruct (Hc q x Hq Hw) as [?|Hl]; [by left|]. right. split; [done|].
    rewrite in_window_alt in Hl, Hw |- *. by destruct Hl, Hw.
Qed.

(** The outputs hold what was written, and every tombstone of the window. *)
Lemma builder_finish_spec b ws :
  builder_inv b ws -> (b_current b = None -> ws = []) ->
  entries_of (builder_finish cmp b) = ws /\
  (forall q x, in_window cmp None su q -> frag_at cmp (frags_of (builder_finish cmp b)) q x <-> frag_at cmp frags q x).
Proof.
  intros Hb Hn. unfold builder_finish. destruct (b_current b) as [c|] eqn:Ec.
  - destruct Hb as [Hf Hu He Hi Ho Hs Hc]. unfold cur_entries in He. rewrite Ec in He. by apply (finish_last b ws c).
  - specialize (Hn eq_refl). subst ws. destruct Hb as [Hf Hu He Hi Ho Hs Hc]. destruct (Hi Ec eq_refl) as [Eo El]. rewrite Eo, Hf.
    destruct frags as [|f fs] eqn:Efr.
    + unfold finish_current. rewrite Ec, Eo. done.
    + rewrite <- Efr in *. apply (finish_last _ _ (mkCurrent [] 0 None)); [done|cbn; by rewrite Eo|done|cbn..].
      * intros q x. rewrite Eo. intros (g & Hg & _). by apply elem_of_nil in Hg.
      * intros q x _ _. right. rewrite El. by apply in_window_alt.
Qed.
End Builder.

(** ** What a span does to one key *)

(** The inputs of a job: sorted runs of the program's own versions. *)
Record job_ok (cmp : Comparator) (j : FrozenJob) (inputs : list Iter) : Prop := {
  jo_sorted : Forall (fun it => run_sorted cmp (it_rest it)) inputs;
  jo_seqs : forall e, e ∈ concat (map it_rest inputs) -> e_seq e <= U64_LAST;
  jo_copies : forall e e', e ∈ concat (map it_rest inputs) -> e' ∈ concat (map it_rest inputs) ->
    e_key e = e_key e' -> e_seq e = e_seq e' -> e = e';
  jo_ranges : forall e sp, e ∈ concat (map it_rest inputs) -> sp ∈ j_ranges j ->
    covers cmp sp (e_key e) = true -> s_seq sp <> e_seq e;
  jo_operands : forall e, e ∈ concat (map it_rest inputs) -> e_merge e = true -> e_ttl e = 0;
  jo_fold : forall f, j_merge_fold j = Some f -> merge_assoc f;
}.

Section Job.
Context (cmp : Comparator) `{!TotalOrder cmp} (j : FrozenJob) (inputs : list Iter) (lower upper : Bound) (k : key).
Context (Hok : job_ok cmp j inputs) (Hin : in_span cmp lower upper k).

Lemma covering_of_spec :
  frags_wf cmp (covering_of cmp j lower upper) /\
  forall x, frag_at cmp (covering_of cmp j lower upper) k x <-> span_at cmp (j_ranges j) k x.
Proof.
  unfold covering_of. destruct (j_ranges j) as [|r rs] eqn:Er.
  - split; [repeat constructor|]. intros x. split; intros (y & Hy & _); by apply elem_of_nil in Hy.
  - pose proof (in_span_window cmp lower upper k Hin) as Hw. rewrite <- Er.
    destruct (span_edges lower upper) as [lo hi]. cbn in Hw. destruct (fragment_spans_spec cmp (j_ranges j) lo hi) as (W & A & _).
    split; [done|]. intros x. by apply A.
Qed.

Lemma range_masked_spec covering e :
  e_key e = k ->
  range_masked cmp j covering e = true <->
  exists c, covering_seq_in cmp covering k (j_oldest j) = Some c /\ e_seq e < c.
Proof.
  intros He. unfold range_masked. rewrite He. destruct covering as [|f fs].
  - split; [done|]. by intros (c & ? & _).
  - destruct (covering_seq_in _ _ _ _) as [c|]; [rewrite Z.ltb_lt; split; [eauto|by intros (c' & [= <-] & ?)]|].
    split; [done|]. by intros (c & ? & _).
Qed.

(** The versions of the key the merge hands to retention, newest first. *)
Lemma stream_group es :
  StronglySorted (entry_le cmp) es ->
  (forall e, e ∈ es <-> below_upper cmp upper (concat (map it_rest (map (iter_seek_lower cmp lower) inputs))) e) ->
  let u := unmasked cmp j (covering_of cmp j lower upper) (fresh_seqs None (of_key cmp k es)) in
  let c0 := covering_seq_in cmp (covering_of cmp j lower upper) k (j_oldest j) in
  StronglySorted (fun a b => e_seq b < e_seq a) u /\
  forall e, e ∈ u <-> e ∈ concat (map it_rest inputs) /\ e_key e = k /\ (forall c, c0 = Some c -> c <= e_seq e).
Proof.
  intros Hs He u c0. destruct (fresh_seqs_sorted None (of_key cmp k es)) as [Hf _]; [by apply of_key_sorted|done|].
  destruct (seek_lower_inputs cmp lower inputs (jo_sorted _ _ _ Hok)) as [_ Hseek].
  assert (forall e, e ∈ of_key cmp k es <-> e ∈ concat (map it_rest inputs) /\ e_key e = k) as Hmem.
  { intros e. rewrite (elem_of_of_key cmp), He. unfold below_upper. destruct Hin as [Hlo Hup]. split.
    - intros [[H1 _] H2]. split; [|done]. rewrite map_map in H1. apply elem_of_concat_map in H1 as (it & Hit & H1).
      apply elem_of_concat_map. exists it. split; [done|]. pose proof (jo_sorted _ _ _ Hok) as HF. rewrite Forall_forall in HF.
      by apply (seek_lower_spec cmp lower it (HF it Hit)).
    - intros [H1 H2]. rewrite Hseek by (by rewrite H2 || by apply (jo_seqs _ _ _ Hok)). by rewrite H2. }
  split.
  - by apply lfilter_StronglySorted.
  - intros e. unfold u, unmasked. rewrite elem_of_lfilter, negb_true_iff. split.
    + intros [H1 H2]. apply fresh_seqs_in, Hmem in H1 as [H1 H3]. conj_split; [done..|]. intros c Hc.
      destruct (Z.le_gt_cases c (e_seq e)); [done|]. rewrite (proj2 (range_masked_spec _ _ H3)) in H2; [done|eauto].
    + intros (H1 & H2 & H3). split.
      * destruct (fresh_seqs_all None (of_key cmp k es)) with (e := e) as [?|?]; [|by apply Hmem|done..].
        intros a b [Ha Ka]%Hmem [Hb Kb]%Hmem Hab. by apply (jo_copies _ _ _ Hok); [..|congruence|].
      * apply not_true_is_false. intros (c & Hc & Hlt)%range_masked_spec; [|done]. specialize (H3 c Hc). lia.
Qed.

Lemma of_key_keys es : keys_in (fun k' => k' = k) (of_key cmp k es).
Proof. apply Forall_forall. intros e He. by apply (elem_of_of_key cmp) in He as [_ ?]. Qed.

Lemma initial_free : free_of j k (mkSpan_ (retention_new (j_bottom j) (j_oldest j) (j_now j)) None None).
Proof. unfold free_of, ret_of, flags_of. cbn [retention_new sp_ret sp_prev sp_pending last_key bottom oldest_snapshot now]. done. Qed.

(** The outcome for the key: [u] went through retention, [c0] is the newest
    tombstone at or below the oldest snapshot. *)
Record key_outcome (outs : list Output) (c0 : option Z) (drop : bool) (u : list Entry) (p : option PendingFold)
    (wg fw : list Entry) : Prop := {
  ko_newest : is_newest (fun x => span_at cmp (j_ranges j) k x /\ x <= j_oldest j) c0;
  ko_drop : drop = true -> j_bottom j = true;
  ko_sorted : StronglySorted (fun a b => e_seq b < e_seq a) u;
  ko_elem : forall e, e ∈ u <-> e ∈ concat (map it_rest inputs) /\ e_key e = k /\ (forall c, c0 = Some c -> c <= e_seq e);
  ko_run : grun j false false None u = Ok (p, wg);
  ko_flush : flushes j p fw;
  ko_entries : of_key cmp k (entries_of outs) = of_key cmp k (wg ++ fw);
  ko_frags : forall x, frag_at cmp (frags_of outs) k x <->
    (span_at cmp (j_ranges j) k x /\ j_oldest j < x) \/ (drop = false /\ c0 = Some x);
}.

Lemma run_span_key target part outs :
  run_span cmp j target part inputs lower upper = Some (Ok outs) ->
  exists c0 drop u p wg fw, key_outcome outs c0 drop u p wg fw.
Proof.
  intros H. apply (run_span_inv cmp) in H as (es & st & ws & fin & Hs & Hes' & Hst & Hfin & ->); [|apply Hok].
  assert (forall e, e ∈ es <-> below_upper cmp upper (concat (map it_rest (map (iter_seek_lower cmp lower) inputs))) e) as Hes.
  { intros e. rewrite Hes', elem_of_lfilter, negb_true_iff. done. }
  destruct covering_of_spec as [Hwf Hat].
  destruct (sorted_split cmp k es Hs) as (pre & post & E & Hpre & Hpost).
  destruct (stream_group es Hs Hes) as [Hu Hue].
  rewrite E in Hst. destruct (group_writes cmp j _ k _ _ _ _ _ _ fin Hpre (of_key_keys es) Hpost initial_free Hst Hfin) as (p & wg & fw & Hg & Hfw & Hw).
  destruct (retained_fragments_at cmp j (covering_of cmp j lower upper) k Hwf) as (drop & Hd & Hret).
  set (frags := retained_fragments _ _ _) in *. set (su := snd (span_edges lower upper)) in *.
  destruct (builder_writes_inv cmp frags su (ws ++ fin) _ [] (builder_new_inv cmp frags su target part)) as [Hb Hb']; [done|].
  destruct (builder_finish_spec cmp frags su _ _ Hb Hb') as [B1 B2].
  exists (covering_seq_in cmp (covering_of cmp j lower upper) k (j_oldest j)), drop,
    (unmasked cmp j (covering_of cmp j lower upper) (fresh_seqs None (of_key cmp k es))), p, wg, fw. constructor; try done.
  - eapply is_newest_ext; [|exact (covering_seq_in_spec cmp _ k (j_oldest j) Hwf)]. intros x. cbn beta. by rewrite Hat.
  - by rewrite B1.
  - intros x. rewrite B2, Hret, Hat; [done|]. apply in_window_alt. split; [done|].
    pose proof (in_span_window cmp lower upper k Hin) as Hw'. apply in_window_alt in Hw' as [_ Hw']. exact Hw'.
Qed.
End Job.

(** ** Reading before and after *)

(** The versions of a key a reader at [s] finds in the inputs, and in the outputs. *)
Definition in_versions (cmp : Comparator) (j : FrozenJob) (inputs : list Iter) (k : key) (s n : Z) : list ChainVersion :=
  span_versions cmp k s (j_ranges j) ++ versions cmp k s n (concat (map it_rest inputs)).

Definition out_versions (cmp : Comparator) (outs : list Output) (k : key) (s n : Z) : list ChainVersion :=
  span_versions cmp k s (spans_of_fragments (frags_of outs)) ++ versions cmp k s n (entries_of outs).

Lemma chain_is L vs :
  StronglySorted newer L -> (forall v, v ∈ vs <-> v ∈ L) -> consistent vs /\ chain vs = L.
Proof.
  intros Hs E. assert (consistent vs) as Hc.
  { eapply consistent_sub; [by apply sorted_consistent, Hs|]. intros w. apply E. }
  split; [done|]. destruct (chain_spec vs Hc) as [Hs' E']. apply newer_sorted_unique; [done..|]. intros v. by rewrite E', E.
Qed.

Lemma consistent_app A B :
  consistent A -> consistent B -> (forall a b, a ∈ A -> b ∈ B -> newer a b) -> consistent (A ++ B).
Proof.
  intros HA HB H v w [Hv|Hv]%elem_of_app [Hw|Hw]%elem_of_app E; [by apply HA| | |by apply HB].
  - specialize (H v w Hv Hw). unfold newer in H. lia.
  - specialize (H w v Hw Hv). unfold newer in H. lia.
Qed.

(** The versions of [vs] whose sequence satisfies [p]. *)
Definition sel (p : Z -> bool) (vs : list ChainVersion) : list ChainVersion := List.filter (fun v => p (cv_seq v)) vs.

Lemma elem_of_sel p vs v : v ∈ sel p vs <-> v ∈ vs /\ p (cv_seq v) = true.
Proof. unfold sel. by rewrite elem_of_lfilter. Qed.

Lemma chain_sel p vs :
  consistent vs -> StronglySorted newer (chain (sel p vs)) /\ forall v, v ∈ chain (sel p vs) <-> v ∈ vs /\ p (cv_seq v) = true.
Proof.
  intros Hc. destruct (chain_spec (sel p vs)) as [Hs E].
  - eapply consistent_sub; [exact Hc|]. by intros w [? _]%elem_of_sel.
  - split; [done|]. intros v. by rewrite E, elem_of_sel.
Qed.

Lemma seqs_sorted n l : StronglySorted Z.gt (map e_seq l) -> StronglySorted newer (map (chain_version n) l).
Proof.
  induction l as [|e l IH]; cbn; intros Hs; [constructor|]. apply StronglySorted_inv in Hs as [Hs HF]. constructor; [by apply IH|].
  rewrite Forall_map in HF |- *. eapply Forall_impl; [exact HF|]. unfold newer. cbn. lia.
Qed.

Lemma sublist_sorted (a b : list Z) : sublist a b -> StronglySorted Z.gt b -> StronglySorted Z.gt a.
Proof.
  induction 1 as [|x a b Hs IH|x a b Hs IH]; intros H; [done|..]; apply StronglySorted_inv in H as [H HF]; [|by apply IH].
  constructor; [by apply IH|]. rewrite Forall_forall in HF |- *. intros y Hy. apply HF. by eapply elem_of_sublist.
Qed.

Lemma sorted_partition (o : Z) u :
  StronglySorted (fun a b => e_seq b < e_seq a) u ->
  u = List.filter (fun e => o <? e_seq e) u ++ List.filter (fun e => e_seq e <=? o) u.
Proof.
  induction 1 as [|e u Hs IH HF]; cbn; [done|]. destruct (Z.leb_spec (e_seq e) o) as [Hle|Hgt].
  - rewrite (proj2 (Z.ltb_ge _ _) Hle). assert (List.filter (fun e => o <? e_seq e) u = []) as E0.
    { apply elem_of_nil_inv. intros x [Hx Hx']%elem_of_lfilter. rewrite Forall_forall in HF. specialize (HF x Hx). boolprop. lia. }
    rewrite E0 in IH |- *. cbn in *. by rewrite <- IH.
  - rewrite (proj2 (Z.ltb_lt _ _) Hgt). cbn. by rewrite <- IH.
Qed.

Section Preserve.
Context (cmp : Comparator) `{!TotalOrder cmp} (j : FrozenJob) (inputs : list Iter) (k : key) (outs : list Output).
Context (c0 : option Z) (drop : bool) (u : list Entry) (p : option PendingFold) (wg fw : list Entry).
Context (Hok : job_ok cmp j inputs) (Hko : key_outcome cmp j inputs k outs c0 drop u p wg fw).
Context (s n : Z) (Hs : j_oldest j <= s) (Hn : j_now j <= n).

Let ins := in_versions cmp j inputs k s n.
Let lo := List.filter (fun e => e_seq e <=? j_oldest j) u.
Let hi := List.filter (fun e => j_oldest j <? e_seq e) u.
Let above := chain (sel (fun x => j_oldest j <? x) ins).
Let T := floor_version c0.
Let T' := if drop then [] else T.
Let rest := match c0 with Some c => chain (sel (fun x => x <? c) ins) | None => [] end.

Lemma elem_of_in v :
  v ∈ ins <-> (v = mkCV (cv_seq v) false None /\ span_at cmp (j_ranges j) k (cv_seq v) /\ cv_seq v <= s) \/
             (exists e, e ∈ concat (map it_rest inputs) /\ e_key e = k /\ e_seq e <= s /\ v = chain_version n e).
Proof.
  unfold ins, in_versions, versions. rewrite elem_of_app, (elem_of_span_versions cmp), elem_of_map.
  setoid_rewrite (elem_of_run_versions cmp). naive_solver.
Qed.

Lemma in_consistent : consistent ins.
Proof.
  assert (forall x e, span_at cmp (j_ranges j) k x -> e ∈ concat (map it_rest inputs) -> e_key e = k -> x <> e_seq e) as Hne.
  { intros x e (sp & Hsp & H1 & H2 & <-) He Hk. apply (jo_ranges _ _ _ Hok e sp He Hsp). rewrite Hk.
    by apply (covers_spec cmp). }
  intros v w Hv Hw E. apply elem_of_in in Hv as [(-> & Hv & _)|(e & He & Hk & _ & ->)];
    apply elem_of_in in Hw as [(-> & Hw & _)|(e' & He' & Hk' & _ & ->)]; cbn in *.
  - by rewrite E.
  - by destruct (Hne _ _ Hv He' Hk').
  - by destruct (Hne _ _ Hw He Hk).
  - f_equal. apply (jo_copies _ _ _ Hok); [done..|congruence|done].
Qed.

Lemma c0_old c : c0 = Some c -> span_at cmp (j_ranges j) k c /\ c <= j_oldest j.
Proof. intros E. pose proof (ko_newest _ _ _ _ _ _ _ _ _ _ _ Hko) as H. rewrite E in H. by destruct H. Qed.

Lemma elem_of_T v : v ∈ T <-> exists c, c0 = Some c /\ v = mkCV c false None.
Proof.
  unfold T, floor_version. destruct c0 as [c|]; [rewrite list_elem_of_singleton; naive_solver|].
  split; [by intros ?%elem_of_nil|naive_solver].
Qed.

Lemma T_shape : T = [] \/ exists c, T = [mkCV c false None].
Proof. unfold T. destruct c0; cbn; eauto. Qed.

Lemma elem_of_lo e :
  e ∈ lo <-> e ∈ concat (map it_rest inputs) /\ e_key e = k /\ (forall c, c0 = Some c -> c < e_seq e) /\ e_seq e <= j_oldest j.
Proof.
  unfold lo. rewrite elem_of_lfilter, (ko_elem _ _ _ _ _ _ _ _ _ _ _ Hko), Z.leb_le. split; [|naive_solver lia].
  intros [(H1 & H2 & H3) H4]. conj_split; [done..| |done]. intros c Hc. pose proof (H3 c Hc).
  destruct (c0_old c Hc) as [(sp & Hsp & K1 & K2 & Ksp) _].
  assert (s_seq sp <> e_seq e); [|lia]. apply (jo_ranges _ _ _ Hok); [done..|]. rewrite H2. by apply (covers_spec cmp).
Qed.

Lemma lo_seqs : StronglySorted Z.gt (map e_seq lo).
Proof.
  pose proof (ko_sorted _ _ _ _ _ _ _ _ _ _ _ Hko) as Hu. unfold lo. clear -Hu.
  induction Hu as [|e l Hu IH HF]; cbn; [constructor|]. destruct (_ <=? _); [|done]. cbn. constructor; [done|].
  apply Forall_map, Forall_forall. intros x [Hx _]%elem_of_lfilter. rewrite Forall_forall in HF. specialize (HF x Hx). lia.
Qed.

Lemma elem_of_rest v : v ∈ rest <-> exists c, c0 = Some c /\ v ∈ ins /\ cv_seq v < c.
Proof.
  unfold rest. case_eq c0; [intros c Ec|intros _; split; [by intros ?%elem_of_nil|naive_solver]].
  destruct (chain_sel (fun x => x <? c) ins in_consistent) as [_ ->]. rewrite Z.ltb_lt. naive_solver.
Qed.

Lemma elem_of_above v : v ∈ above <-> v ∈ ins /\ j_oldest j < cv_seq v.
Proof. unfold above. destruct (chain_sel (fun x => j_oldest j <? x) ins in_consistent) as [_ ->]. by rewrite Z.ltb_lt. Qed.

Lemma above_sorted : StronglySorted newer above.
Proof. unfold above. by destruct (chain_sel (fun x => j_oldest j <? x) ins in_consistent). Qed.

Lemma rest_sorted : StronglySorted newer rest.
Proof.
  unfold rest. case_eq c0; [intros c Ec|constructor]. by destruct (chain_sel (fun x => x <? c) ins in_consistent).
Qed.

Lemma elem_of_Vlo v : v ∈ map (chain_version n) lo -> cv_seq v <= j_oldest j /\ forall c, c0 = Some c -> c < cv_seq v.
Proof. intros (e & He & <-)%elem_of_map. by apply elem_of_lo in He as (_ & _ & ? & ?). Qed.

Lemma T_sorted : StronglySorted newer T.
Proof. destruct T_shape as [->|[c ->]]; repeat constructor. Qed.

Lemma newest_or_below x :
  span_at cmp (j_ranges j) k x -> x <= j_oldest j -> exists c, c0 = Some c /\ x <= c.
Proof.
  intros Hx Hle. pose proof (ko_newest _ _ _ _ _ _ _ _ _ _ _ Hko) as Hnew. case_eq c0; [intros c Ec|intros Ec]; rewrite Ec in Hnew.
  - exists c. split; [done|]. by apply Hnew.
  - by destruct (Hnew x).
Qed.

Lemma lo_or_below e :
  e ∈ concat (map it_rest inputs) -> e_key e = k -> e_seq e <= j_oldest j ->
  e ∈ lo \/ exists c, c0 = Some c /\ e_seq e < c.
Proof.
  intros He Hk Hle. unfold lo. rewrite elem_of_lfilter, (ko_elem _ _ _ _ _ _ _ _ _ _ _ Hko), Z.leb_le.
  case_eq c0; [intros c Ec|intros Ec]; [|left; naive_solver].
  destruct (Z.lt_ge_cases (e_seq e) c); [right; eauto|left]. conj_split; [done..| |done]. by intros c' [= <-].
Qed.

Lemma in_chain : chain ins = above ++ map (chain_version n) lo ++ T ++ rest.
Proof.
  apply chain_is.
  - apply sorted_app; [apply above_sorted| |].
    + apply sorted_app; [apply seqs_sorted, lo_seqs|apply sorted_app; [apply T_sorted|apply rest_sorted|]|].
      * intros a b (c & Ec & ->)%elem_of_T (c' & Ec' & _ & Hb)%elem_of_rest. unfold newer. cbn. congruence || (assert (c = c') by congruence; lia).
      * intros a b [_ Ha]%elem_of_Vlo [(c & Ec & ->)%elem_of_T|(c & Ec & _ & Hb)%elem_of_rest]%elem_of_app;
          specialize (Ha c Ec); unfold newer; cbn; lia.
    + intros a b [_ Ha]%elem_of_above [[Hb _]%elem_of_Vlo|[(c & Ec & ->)%elem_of_T|(c & Ec & _ & Hb)%elem_of_rest]%elem_of_app]%elem_of_app;
        unfold newer; cbn; try destruct (c0_old c Ec); lia.
  - intros v. rewrite !elem_of_app, elem_of_above, elem_of_T, elem_of_rest, elem_of_map. split.
    + intros Hv. destruct (Z.lt_ge_cases (j_oldest j) (cv_seq v)) as [?|Hle]; [by left|right].
      apply elem_of_in in Hv as Hv'. destruct Hv' as [(E & Hsp & _)|(e & He & Hk & _ & ->)].
      * right. destruct (newest_or_below _ Hsp Hle) as (c & Ec & Hc).
        destruct (Z.eq_dec (cv_seq v) c) as [<-|]; [left; eauto|]. right. exists c. conj_split; [done..|lia].
      * destruct (lo_or_below e He Hk Hle) as [?|(c & Ec & Hc)]; [left; eauto|]. right. right. by exists c.
    + intros [[? _]|[(e & He & <-)|[(c & Ec & ->)|(c & _ & ? & _)]]]; [done| | |done].
      * apply elem_of_in. right. exists e. apply elem_of_lo in He as (? & ? & _ & ?). conj_split; [done..|lia|done].
      * apply elem_of_in. left. destruct (c0_old c Ec). cbn. conj_split; [done..|lia].
Qed.

Context (Hfilter : j_filter j = None).
Context (Hexp : j_bottom j = true -> forall e, e ∈ concat (map it_rest inputs) -> e_key e = k ->
  e_merge e = false -> e_tombstone e = false -> expired (e_ttl e) (j_now j) = true -> e_seq e <= j_oldest j).

Lemma elem_of_hi e : e ∈ hi <-> e ∈ concat (map it_rest inputs) /\ e_key e = k /\ j_oldest j < e_seq e.
Proof.
  unfold hi. rewrite elem_of_lfilter, (ko_elem _ _ _ _ _ _ _ _ _ _ _ Hko), Z.ltb_lt. split; [tauto|].
  intros (H1 & H2 & H3). conj_split; [done..| |done]. intros c Hc. destruct (c0_old c Hc). lia.
Qed.

(** The writes for the key: the new versions as they were, then what became of the old ones. *)
Lemma out_split : exists live wl, wg = map rewritten hi ++ wl /\ grun j false live None lo = Ok (p, wl).
Proof.
  pose proof (ko_run _ _ _ _ _ _ _ _ _ _ _ Hko) as Hr.
  rewrite (sorted_partition (j_oldest j) u (ko_sorted _ _ _ _ _ _ _ _ _ _ _ Hko)) in Hr. eapply grun_new; [done| |exact Hr].
  apply Forall_forall. intros e He. apply elem_of_hi in He as (H1 & H2 & H3). split; [done|]. intros Hb Hm Ht.
  apply not_true_is_false. intros Hx. specialize (Hexp Hb e H1 H2 Hm Ht Hx). lia.
Qed.

Section Out.
Context (live : bool) (wl : list Entry) (Hwg : wg = map rewritten hi ++ wl) (Hwl : grun j false live None lo = Ok (p, wl)).

Lemma lout_carries : carries k (wl ++ fw) (map e_seq lo).
Proof.
  apply (grun_carries j k Hfilter lo false live None p); [|done|done|apply (ko_flush _ _ _ _ _ _ _ _ _ _ _ Hko)].
  apply Forall_forall. intros e He. by apply elem_of_lo in He as (_ & ? & _).
Qed.

Lemma out_entries_eq : of_key cmp k (entries_of outs) = map rewritten hi ++ wl ++ fw.
Proof.
  rewrite (ko_entries _ _ _ _ _ _ _ _ _ _ _ Hko), Hwg, <- app_assoc. apply (of_key_all cmp). apply Forall_app. split.
  - apply Forall_map, Forall_forall. intros e He. by apply elem_of_hi in He as (_ & ? & _).
  - apply lout_carries.
Qed.

Lemma elem_of_out v :
  v ∈ out_versions cmp outs k s n <->
  (v = mkCV (cv_seq v) false None /\ frag_at cmp (frags_of outs) k (cv_seq v) /\ cv_seq v <= s) \/
  (exists e, e ∈ map rewritten hi ++ wl ++ fw /\ e_seq e <= s /\ v = chain_version n e).
Proof.
  unfold out_versions, versions. rewrite elem_of_app, (elem_of_span_versions cmp), (spans_of_fragments_at cmp), elem_of_map.
  rewrite <- out_entries_eq. setoid_rewrite (elem_of_run_versions cmp). setoid_rewrite (elem_of_of_key cmp). naive_solver.
Qed.

Lemma elem_of_Vout v : v ∈ map (chain_version n) (wl ++ fw) -> cv_seq v <= j_oldest j /\ forall c, c0 = Some c -> c < cv_seq v.
Proof.
  intros (e & He & <-)%elem_of_map. destruct lout_carries as [Hsub _].
  assert (e_seq e ∈ map e_seq lo) as Hin by (eapply elem_of_sublist; [|exact Hsub]; apply elem_of_map; eauto).
  apply elem_of_map in Hin as (x & Hx & E). apply elem_of_lo in Hx as (_ & _ & ? & ?). cbn. by rewrite <- E.
Qed.

Lemma elem_of_T' v : v ∈ T' <-> drop = false /\ exists c, c0 = Some c /\ v = mkCV c false None.
Proof. unfold T'. rewrite <- elem_of_T. case_eq drop; intros _; [split; [by intros ?%elem_of_nil|naive_solver]|naive_solver]. Qed.

Lemma out_chain :
  consistent (out_versions cmp outs k s n) /\
  chain (out_versions cmp outs k s n) = above ++ map (chain_version n) (wl ++ fw) ++ T'.
Proof.
  apply chain_is.
  - apply sorted_app; [apply above_sorted|apply sorted_app|].
    + apply seqs_sorted. eapply sublist_sorted; [apply lout_carries|apply lo_seqs].
    + unfold T'. case_eq drop; intros _; [apply SSorted_nil|apply T_sorted].
    + intros a b [_ Ha]%elem_of_Vout [_ (c & Ec & ->)]%elem_of_T'. specialize (Ha c Ec). unfold newer. cbn. lia.
    + intros a b [_ Ha]%elem_of_above [[Hb _]%elem_of_Vout|[_ (c & Ec & ->)]%elem_of_T']%elem_of_app;
        unfold newer; cbn; try destruct (c0_old c Ec); lia.
  - intros v. rewrite elem_of_out, !elem_of_app, elem_of_above, elem_of_in, elem_of_T', elem_of_map.
    rewrite (ko_frags _ _ _ _ _ _ _ _ _ _ _ Hko). split.
    + intros [(E & [[Hsp Hlt]|[Hd Hc]] & Hle)|(e & [He|He]%elem_of_app & Hle & ->)].
      * left. auto.
      * right. right. eauto.
      * left. apply elem_of_map in He as (x & Hx & <-). apply elem_of_hi in Hx as (? & ? & ?).
        rewrite rewritten_version. split; [right; by exists x|done].
      * right. left. eauto.
    + intros [[[(E & Hsp & Hle)|(e & He & Hk & Hle & ->)] Hlt]|[(e & He & <-)|(Hd & c & Ec & ->)]].
      * left. auto.
      * right. exists (rewritten e). conj_split; [|done..]. apply elem_of_app. left. apply elem_of_map. exists e.
        split; [by apply elem_of_hi|done].
      * right. exists e. conj_split; [apply elem_of_app; by right| |done].
        destruct (elem_of_Vout (chain_version n e)) as [Hle _]; [apply elem_of_map; eauto|]. cbn in Hle. lia.
      * left. destruct (c0_old c Ec). cbn. conj_split; [done|by right|lia].
Qed.

(** Nothing is written at a sequence the inputs do not have. *)
Lemma out_seq_in v : v ∈ out_versions cmp outs k s n -> exists w, w ∈ ins /\ cv_seq w = cv_seq v.
Proof.
  rewrite elem_of_out, (ko_frags _ _ _ _ _ _ _ _ _ _ _ Hko).
  assert (forall x, span_at cmp (j_ranges j) k x -> x <= s -> exists w, w ∈ ins /\ cv_seq w = x) as Hsp.
  { intros x Hx Hle. exists (mkCV x false None). split; [|done]. apply elem_of_in. by left. }
  assert (forall e, e ∈ concat (map it_rest inputs) -> e_key e = k -> e_seq e <= s -> exists w, w ∈ ins /\ cv_seq w = e_seq e) as Hen.
  { intros e He Hk Hle. exists (chain_version n e). split; [|done]. apply elem_of_in. right. eauto. }
  intros [(E & [[Hx _]|[_ Hc]] & Hle)|(e & [He|He]%elem_of_app & Hle & ->)].
  - by apply Hsp.
  - destruct (c0_old _ Hc). by apply Hsp.
  - apply elem_of_map in He as (x & Hx & <-). apply elem_of_hi in Hx as (? & ? & ?). by apply (Hen x).
  - destruct lout_carries as [Hsub _].
    assert (e_seq e ∈ map e_seq lo) as Hi by (eapply elem_of_sublist; [|exact Hsub]; apply elem_of_map; eauto).
    apply elem_of_map in Hi as (x & Hx & E). apply elem_of_lo in Hx as (? & ? & _ & ?). cbn. rewrite <- E. apply Hen; [done..|lia].
Qed.

Context (op : option MergeOp) (Hop : forall f, j_merge_fold j = Some f -> op = Some f).

Lemma below_alike O :
  (j_bottom j = true -> O = []) ->
  alike op k (map (chain_version n) (wl ++ fw) ++ T' ++ O) (map (chain_version n) lo ++ T ++ rest ++ O).
Proof.
  intros HO acc. rewrite (grun_old_alike j k Hfilter n op T T' O) with (lo := lo) (live := live) (pend := None) (p := p);
    [| |done|apply T_shape| |done| |done|done|apply (ko_flush _ _ _ _ _ _ _ _ _ _ _ Hko)].
  - cbn [pend_chain app]. unfold T, rest. case_eq c0; [intros c _|done]. cbn [floor_version app]. f_equal.
    by apply walk_base.
  - intros f Hf. split; [by apply Hop|by apply (jo_fold _ _ _ Hok)].
  - unfold T'. case_eq drop; intros Hd; [right|by left]. split; [by apply (ko_drop _ _ _ _ _ _ _ _ _ _ _ Hko)|done].
  - apply Forall_forall. intros e He. apply elem_of_lo in He as (? & ? & _ & ?). unfold old_entry. conj_split; [done..|].
    by apply (jo_operands _ _ _ Hok).
Qed.

Lemma reads_preserved N O :
  consistent N -> consistent O -> (j_bottom j = true -> O = []) ->
  (forall a b, a ∈ N -> b ∈ ins ++ O -> newer a b) -> (forall a b, a ∈ ins -> b ∈ O -> newer a b) ->
  read_all op k (N ++ out_versions cmp outs k s n ++ O) = read_all op k (N ++ ins ++ O).
Proof.
  intros HN HO Hb H1 H2.
  assert (forall a b, a ∈ out_versions cmp outs k s n -> b ∈ O -> newer a b) as H2'.
  { intros a b (w & Hw & E)%out_seq_in Hb'. specialize (H2 w b Hw Hb'). unfold newer in *. lia. }
  assert (forall a b, a ∈ N -> b ∈ out_versions cmp outs k s n ++ O -> newer a b) as H1'.
  { intros a b Ha [(w & Hw & E)%out_seq_in|Hb']%elem_of_app; [|apply H1; [done|apply elem_of_app; by right]].
    assert (newer a w) by (apply H1; [done|apply elem_of_app; by left]). unfold newer in *. lia. }
  destruct out_chain as [Hco Ech]. rewrite !read_all_resolve. rewrite !(chain_app N), !(chain_app _ O), in_chain, Ech by (done || auto using consistent_app, in_consistent).
  rewrite <- !app_assoc. rewrite !(app_assoc (chain N)). apply alike_app_l, below_alike. intros Hbt. by rewrite (Hb Hbt).
Qed.
End Out.
End Preserve.

(** ** The job runs to its end *)

Record job_runs (j : FrozenJob) (inputs : list Iter) : Prop := {
  jr_errors : forall it, it ∈ inputs -> it_err it = None;
  jr_readable : forall e, e ∈ concat (map it_rest inputs) -> e_readable e = true;
  jr_cancelled : forall k seq, j_cancelled j k seq = false;
  jr_fold : forall f, j_merge_fold j = Some f -> forall k existing operands, f k existing operands <> None;
  jr_seqs : forall e, e ∈ concat (map it_rest inputs) -> is_u64 (e_seq e);
}.

Section Runs.
Context (cmp : Comparator) `{!TotalOrder cmp} (j : FrozenJob).
Context (Hfold : forall f, j_merge_fold j = Some f -> forall k existing operands, f k existing operands <> None).

Lemma emit_fold_runs f p base : j_merge_fold j = Some f -> exists ws, emit_fold j f p base = Ok ws.
Proof.
  intros Hf. unfold emit_fold, full_merge. specialize (Hfold f Hf (p_key p) base (rev (map snd (p_operands p)))).
  destruct (f _ _ _); [|done]. cbn. destruct (_ && _); eauto.
Qed.

Lemma flush_runs p : exists ws, flush_pending j (j_merge_fold j) p = Ok ws.
Proof.
  destruct p as [p|]; [|by exists []]. cbn. case_eq (j_merge_fold j); [intros f Ef|eauto].
  destruct (j_bottom j); [by apply emit_fold_runs|eauto].
Qed.

Lemma keep_runs p e fe : e_readable e = true -> exists r, keep_version j p e fe = Ok r.
Proof.
  intros He. unfold keep_version, read_value. rewrite He. cbn [rbind].
  case_eq (j_merge_fold j); [intros f Ef|destruct p; eauto].
  destruct (_ && e_merge e); [eauto|]. destruct p as [p|]; [|eauto]. destruct (_ && _); [|eauto].
  destruct (emit_fold_runs f p (if e_tombstone e then None else Some (e_value e)) Ef) as [ws ->]. cbn. eauto.
Qed.

Lemma step_runs covering st e :
  e_readable e = true -> (forall k seq, j_cancelled j k seq = false) ->
  exists r, span_step cmp j covering st e = Ok r.
Proof.
  intros He Hc. unfold span_step. destruct (is_copy _ _ _); [eauto|]. rewrite Hc. cbn [negb guard rbind].
  assert (exists p fl, (if ends_pending cmp (sp_pending st) (e_key e)
    then let? ws := flush_pending j (j_merge_fold j) (sp_pending st) in Ok (None, ws)
    else Ok (sp_pending st, [])) = Ok (p, fl)) as (p & fl & ->).
  { destruct (ends_pending _ _ _); [|eauto]. destruct (flush_runs (sp_pending st)) as [ws ->]. cbn. eauto. }
  cbn [rbind]. destruct (range_masked _ _ _ _); [eauto|]. destruct (decide_version _ _ _ _ _ _ _) as [[|fe] ret]; [eauto|].
  destruct (keep_runs p e fe He) as [[p' ws] ->]. cbn. eauto.
Qed.

Lemma smallest_runs its : (forall it, it ∈ its -> it_err it = None) -> forall i best, exists r, smallest_from cmp its i best = Ok r.
Proof.
  induction its as [|it its IH]; intros He i best; cbn; [eauto|].
  assert (forall it, it ∈ its -> it_err it = None) as He' by (intros x Hx; apply He; by right).
  destruct (it_rest it); [|by apply IH]. rewrite (He it) by left. by apply IH.
Qed.

Lemma advance_in its i e : e ∈ concat (map it_rest (alter iter_next i its)) -> e ∈ concat (map it_rest its).
Proof.
  rewrite !elem_of_concat_map. intros (it & Hit & He). apply list_elem_of_lookup in Hit as [m Hm].
  destruct (decide (m = i)) as [->|Hne].
  - rewrite list_lookup_alter_eq in Hm. apply fmap_Some in Hm as (it' & E & ->).
    exists it'. split; [by eapply list_elem_of_lookup_2|]. cbn in He.
    destruct (it_rest it') as [|h t]; cbn in He; [by apply elem_of_nil in He|]. rewrite drop_0 in He. by right.
  - rewrite list_lookup_alter_ne in Hm by done. exists it. split; [by eapply list_elem_of_lookup_2|done].
Qed.

Lemma advance_err (its : list Iter) i it : it ∈ alter iter_next i its -> (forall it, it ∈ its -> it_err it = None) -> it_err it = None.
Proof.
  intros Hit He. apply list_elem_of_lookup in Hit as [m Hm]. destruct (decide (m = i)) as [->|Hne].
  - rewrite list_lookup_alter_eq in Hm. apply fmap_Some in Hm as (it' & E & ->).
    cbn. apply He. by eapply list_elem_of_lookup_2.
  - rewrite list_lookup_alter_ne in Hm by done. apply He. by eapply list_elem_of_lookup_2.
Qed.

Lemma span_loop_runs covering upper fuel : forall its st b r,
  (forall it, it ∈ its -> it_err it = None) -> (forall e, e ∈ concat (map it_rest its) -> e_readable e = true) ->
  (forall k seq, j_cancelled j k seq = false) -> span_loop cmp j covering upper fuel its st b = Some r -> exists x, r = Ok x.
Proof.
  induction fuel as [|fuel IH]; intros its st b r He Hr Hc; cbn; [done|].
  destruct (smallest_runs its He 0 None) as [best Hb]. unfold smallest_input. rewrite Hb.
  destruct best as [[i e]|]; [|intros [= <-]; eauto]. destruct (past_upper _ _ _); [intros [= <-]; eauto|].
  assert (e_readable e = true) as Hre.
  { apply (smallest_from_spec cmp) in Hb as ([?|(m & it & rest & _ & Hi & Hh)] & _); [done|]. apply Hr, elem_of_concat_map.
    exists it. rewrite Hh. split; [by eapply list_elem_of_lookup_2|left]. }
  destruct (step_runs covering st e Hre Hc) as [[st1 ws1] ->]. apply IH; [|..|done].
  - intros it Hit. by eapply advance_err.
  - intros x Hx. apply Hr. by eapply advance_in.
Qed.
End Runs.

(** ** The outputs are disjoint *)

Section Disjoint.
Context (cmp : Comparator) `{!TotalOrder cmp} (j : FrozenJob) (covering : list Fragment).

Definition ascending (es : list Entry) : Prop := StronglySorted (fun a b => kle cmp (e_key a) (e_key b)) es.

Lemma ascending_app A B :
  ascending A -> ascending B -> (forall a b, a ∈ A -> b ∈ B -> kle cmp (e_key a) (e_key b)) -> ascending (A ++ B).
Proof. intros HA HB H. by apply StronglySorted_app_2. Qed.

Lemma ascending_one_key k es : keys_in (eq k) es -> ascending es.
Proof.
  induction 1 as [|e es He HF IH]; constructor; [done|]. eapply Forall_impl; [exact HF|]. intros x <-. rewrite He. by apply kle_refl.
Qed.

Lemma keys_in_elem P es e : keys_in P es -> e ∈ es -> P (e_key e).
Proof. unfold keys_in. rewrite Forall_forall. auto. Qed.

(** One entry writes the pending key, then its own. *)
Lemma step_ascending st e st' ws :
  pend_in (fun q => kle cmp q (e_key e)) (sp_pending st) -> span_step cmp j covering st e = Ok (st', ws) ->
  ascending ws /\ keys_in (fun q => kle cmp q (e_key e)) ws /\
  ((sp_pending st' = sp_pending st /\ ws = []) \/ pend_in (eq (e_key e)) (sp_pending st')).
Proof.
  intros Hp H. destruct (step_in cmp j covering (fun q => kle cmp q (e_key e)) st e st' ws Hp ltac:(by apply kle_refl) H) as [_ Hle].
  destruct (is_copy cmp (sp_prev st) e) eqn:Ec.
  { unfold span_step in H. rewrite Ec in H. injection H as <- <-. conj_split; [constructor|done|by left]. }
  destruct (ends_pending cmp (sp_pending st) (e_key e)) eqn:Ee.
  - apply step_unpend in H as (fl & w & Hfl & H & ->); [|done..].
    apply (step_in cmp j covering (eq (e_key e))) in H as [Hp' Hw]; [|done..]. conj_split; [|done|by right].
    destruct (sp_pending st) as [p|]; [|done]. apply (flush_in j (eq (p_key p))) in Hfl; [|done].
    apply ascending_app; [by eapply ascending_one_key|by eapply ascending_one_key|].
    intros a b Ha Hb. rewrite <- (keys_in_elem _ _ _ Hfl Ha), <- (keys_in_elem _ _ _ Hw Hb). exact Hp.
  - apply (step_in cmp j covering (eq (e_key e))) in H as [Hp' Hw]; [|destruct (sp_pending st) as [p|]; cbn in *; kbool; done|done].
    conj_split; [by eapply ascending_one_key|done|by right].
Qed.

Lemma steps_ascending es : forall st st' ws fin,
  StronglySorted (entry_le cmp) es -> pend_in (fun q => forall e, e ∈ es -> kle cmp q (e_key e)) (sp_pending st) ->
  steps cmp j covering st es = Ok (st', ws) -> flushes j (sp_pending st') fin -> ascending (ws ++ fin).
Proof.
  induction es as [|e es IH]; intros st st' ws fin Hs Hp H Hfin; cbn in H.
  { injection H as <- <-. cbn. destruct (sp_pending st) as [p|] eqn:Ep; [|injection Hfin as <-; constructor].
    rewrite <- Ep in *. eapply (ascending_one_key (p_key p)), flush_in, Hfin. by rewrite Ep. }
  apply bind_inv in H as ([st1 ws1] & H1 & H). apply bind_inv in H as ([st2 ws2] & H2 & [= <- <-]).
  apply StronglySorted_inv in Hs as [Hs HF]. rewrite Forall_forall in HF.
  assert (forall x, x ∈ es -> kle cmp (e_key e) (e_key x)) as Hle.
  { intros x Hx. destruct (proj1 (entry_le_alt cmp _ _) (HF x Hx)) as [?|[-> _]]; [by apply klt_kle|by apply kle_refl]. }
  apply step_ascending in H1 as (A1 & K1 & Hp1); [|destruct (sp_pending st); [apply Hp; left|done]].
  rewrite <- app_assoc. destruct Hp1 as [[Hp1 ->]|Hp1].
  - apply (IH st1 st2 ws2 fin); [done| |done..]. rewrite Hp1. destruct (sp_pending st); [|done]. intros x Hx. apply Hp. by right.
  - assert (keys_in (kle cmp (e_key e)) (ws2 ++ fin)) as K2.
    { apply (steps_in cmp j covering (kle cmp (e_key e))) in H2 as [Hp2 K2].
      - apply Forall_app. split; [done|]. by eapply (flush_in j (kle cmp (e_key e))).
      - destruct (sp_pending st1); [|done]. cbn in *. rewrite Hp1. by apply kle_refl.
      - apply Forall_forall. auto. }
    apply ascending_app; [done|apply (IH st1 st2); [done| |done..]|].
    + destruct (sp_pending st1); [|done]. cbn in *. by rewrite <- Hp1.
    + intros a b Ha Hb. pose proof (keys_in_elem _ _ _ K1 Ha). pose proof (keys_in_elem _ _ _ K2 Hb). cbn in *. korder.
Qed.

(** Every key of [A] sorts before every key of [B]. *)
Definition keys_before (A B : list Entry) : Prop := forall a b, a ∈ A -> b ∈ B -> klt cmp (e_key a) (e_key b).

Definition out_before (o o' : Output) : Prop := keys_before (out_entries o) (out_entries o').

Definition part_of (part : option PartitionResolver) (k : key) : option (list byte) :=
  match part with Some r => name_of r k | None => None end.
Definition boundary_of (part : option PartitionResolver) (k : key) : option (list byte) :=
  match part with Some r => boundary r k | None => None end.

(** The open output ends in [l], and its bookkeeping is that of [l]'s key. *)
Record open_at (b : OutputBuilder) (c : CurrentOutput) (l : Entry) : Prop := {
  oa_last : exists es, o_entries c = es ++ [l];
  oa_boundary : b_last_boundary b = boundary_of (b_partitioner b) (e_key l);
  oa_partition : o_partition c = part_of (b_partitioner b) (e_key l);
  oa_armed : b_pending_cut b = true -> b_cut_after b = e_key l;
  oa_greatest : forall e, e ∈ o_entries c -> kle cmp (e_key e) (e_key l);
}.

Record sep_inv (b : OutputBuilder) : Prop := {
  si_outs : StronglySorted out_before (b_outputs b);
  si_full : Forall (fun o => out_entries o <> []) (b_outputs b);
  si_open : match b_current b with
            | Some c => (exists l, open_at b c l) /\ Forall (fun o => keys_before (out_entries o) (o_entries c)) (b_outputs b)
            | None => b_outputs b = [] /\ b_pending_cut b = false
            end;
}.

(** No cut falls between two versions of a key. *)
Lemma no_cut_same_key b c l k :
  b_current b = Some c -> open_at b c l -> e_key l = k ->
  output_boundary_change b k (part_of (b_partitioner b) k) = false /\
  b_pending_cut b && (if b_current b is Some _ then true else false) && negb (is_eq (compare cmp k (b_cut_after b))) = false.
Proof.
  intros Ec [_ Hb Hp Ha _] <-. unfold output_boundary_change. rewrite Ec, Hb, Hp. split.
  - rewrite (bool_decide_eq_true_2 (_ = part_of _ _)) by done. cbn. unfold boundary_of. destruct (b_partitioner b) as [r|]; [|done].
    destruct (boundary r (e_key l)) as [x|]; [|done]. by rewrite bool_decide_eq_true_2.
  - destruct (b_pending_cut b); [|done]. rewrite (Ha eq_refl), (proj2 (is_eq_true cmp (e_key l) (e_key l)) eq_refl). done.
Qed.

Definition cuts (b : OutputBuilder) (k : key) : bool :=
  output_boundary_change b k (part_of (b_partitioner b) k) ||
  (b_pending_cut b && (if b_current b is Some _ then true else false) && negb (is_eq (compare cmp k (b_cut_after b)))).

Lemma write_cut b c e :
  b_current b = Some c -> cuts b (e_key e) = true ->
  exists o c', b_outputs (builder_write cmp b e) = b_outputs b ++ [o] /\ out_entries o = o_entries c /\
    b_current (builder_write cmp b e) = Some c' /\ o_entries c' = [e] /\ open_at (builder_write cmp b e) c' e.
Proof.
  intros Ec Hcut. unfold cuts, part_of in Hcut. unfold builder_write. rewrite Hcut. unfold finish_current. rewrite Ec.
  cbn [b_outputs b_current b_partitioner b_fragments open_output from_option b_pending_cut b_last_boundary].
  do 2 eexists. conj_split; [done..|]. constructor; cbn; [by exists []|done|done| |].
  - rewrite orb_false_r. intros ->. done.
  - intros x ->%list_elem_of_singleton. by apply kle_refl.
Qed.

Lemma write_first b e :
  b_current b = None -> b_pending_cut b = false ->
  exists c', b_outputs (builder_write cmp b e) = b_outputs b /\
    b_current (builder_write cmp b e) = Some c' /\ o_entries c' = [e] /\ open_at (builder_write cmp b e) c' e.
Proof.
  intros Ec Hp. assert (cuts b (e_key e) = false) as Hcut by (unfold cuts, output_boundary_change; by rewrite Ec, Hp).
  unfold cuts, part_of in Hcut. unfold builder_write. rewrite Hcut, Ec.
  cbn [b_outputs b_current b_partitioner b_fragments open_output from_option b_pending_cut b_last_boundary].
  eexists. conj_split; [done..|]. constructor; cbn; [by exists []|done|done| |].
  - rewrite Hp, orb_false_r. by intros ->.
  - intros x ->%list_elem_of_singleton. by apply kle_refl.
Qed.

Lemma write_same b c e :
  b_current b = Some c -> cuts b (e_key e) = false -> (forall x, x ∈ o_entries c -> kle cmp (e_key x) (e_key e)) ->
  exists c', b_outputs (builder_write cmp b e) = b_outputs b /\
    b_current (builder_write cmp b e) = Some c' /\ o_entries c' = o_entries c ++ [e] /\ open_at (builder_write cmp b e) c' e.
Proof.
  intros Ec Hcut Hle. pose proof Hcut as Hcut'. unfold cuts, part_of in Hcut. unfold builder_write. rewrite Hcut, Ec.
  cbn [b_outputs b_current b_partitioner b_fragments open_output from_option b_pending_cut b_last_boundary].
  rewrite Ec. cbn [from_option Datatypes.id]. eexists. conj_split; [done..|]. unfold cuts in Hcut'. apply orb_false_iff in Hcut' as [C1 C2].
  constructor; cbn; [by eexists|done| | |].
  - unfold output_boundary_change in C1. rewrite Ec in C1. by boolprop.
  - destruct (_ && negb (b_pending_cut b)) eqn:Ea; [done|]. cbn. intros Hp. rewrite Hp, Ec in C2. cbn in C2. by kbool.
  - intros x [Hx|Hx]%elem_of_app; [by apply Hle|]. apply list_elem_of_singleton in Hx as ->. by apply kle_refl.
Qed.

Lemma outs_snoc outs o (c : list Entry) :
  StronglySorted out_before outs -> Forall (fun o => out_entries o <> []) outs ->
  Forall (fun o => keys_before (out_entries o) c) outs -> out_entries o = c -> c <> [] ->
  StronglySorted out_before (outs ++ [o]) /\ Forall (fun o => out_entries o <> []) (outs ++ [o]).
Proof.
  intros H1 H2 H3 H4 H5. split.
  - apply StronglySorted_app_2; [|done|repeat constructor]. intros a b Ha ->%list_elem_of_singleton.
    rewrite Forall_forall in H3. unfold out_before. rewrite H4. by apply H3.
  - apply Forall_app. split; [done|]. constructor; [|done]. by rewrite H4.
Qed.

Lemma sep_write b e :
  sep_inv b -> (forall x, x ∈ cur_entries b -> kle cmp (e_key x) (e_key e)) -> sep_inv (builder_write cmp b e).
Proof.
  intros [H1 H2 H3] Hle. unfold cur_entries in Hle. destruct (b_current b) as [c|] eqn:Ec.
  - destruct H3 as [[l Hl] H3]. pose proof Hl as [(es & El) _ _ _ Hg].
    assert (l ∈ o_entries c) as Hlc by (rewrite El; apply elem_of_app; right; left). pose proof (Hle l Hlc) as Hle'.
    assert (Forall (fun o => keys_before (out_entries o) [e]) (b_outputs b)) as H4.
    { eapply Forall_impl; [exact H3|]. intros o Ho a x Ha ->%list_elem_of_singleton. specialize (Ho a l Ha Hlc). korder. }
    destruct (cuts b (e_key e)) eqn:Ecut.
    + destruct (write_cut b c e Ec Ecut) as (o & c' & E1 & E2 & E3 & E4 & E5).
      assert (klt cmp (e_key l) (e_key e)) as Hlt.
      { apply (kle_lt_or_eq cmp) in Hle' as [?|E]; [done|]. destruct (no_cut_same_key b c l (e_key e) Ec Hl E) as [N1 N2].
        unfold cuts in Ecut. by rewrite N1, N2 in Ecut. }
      destruct (outs_snoc (b_outputs b) o (o_entries c) H1 H2 H3 E2) as [S1 S2]; [rewrite El; by destruct es|].
      constructor; rewrite ?E1; [done..|]. rewrite E3, E4. split; [eauto|]. apply Forall_app. split; [done|].
      constructor; [|done]. rewrite E2. intros a x Ha ->%list_elem_of_singleton. specialize (Hg a Ha). korder.
    + destruct (write_same b c e Ec Ecut Hle) as (c' & E1 & E2 & E3 & E4). constructor; rewrite ?E1; [done..|].
      rewrite E2, E3. split; [eauto|]. rewrite Forall_forall in H3, H4 |- *. intros o Ho a x Ha [Hx|Hx]%elem_of_app;
        [by apply (H3 o Ho)|by apply (H4 o Ho)].
  - destruct H3 as [H3 Hp]. destruct (write_first b e Ec Hp) as (c' & E1 & E2 & E3 & E4).
    constructor; rewrite ?E1; [done..|]. rewrite E2. split; [eauto|]. by rewrite H3.
Qed.

Lemma cur_entries_write b e x : x ∈ cur_entries (builder_write cmp b e) -> x ∈ cur_entries b \/ x = e.
Proof.
  unfold builder_write, cur_entries at 1. cbn [b_current].
  set (b1 := if _ || _ then _ else b).
  assert (forall y, y ∈ cur_entries b1 -> y ∈ cur_entries b) as H1.
  { intros y. unfold b1. destruct (_ || _); [|done]. unfold finish_current, cur_entries. cbn [b_current].
    destruct (b_current b) eqn:E; cbn [b_current]; rewrite ?E; [by intros ?%elem_of_nil|done]. }
  intros [Hx|Hx%list_elem_of_singleton]%elem_of_app; [left|by right]. apply H1. unfold cur_entries.
  destruct (b_current b1) as [c|] eqn:E; cbn in Hx |- *; [by rewrite E in Hx|by apply elem_of_nil in Hx].
Qed.

Lemma sep_writes ws : forall b,
  sep_inv b -> ascending ws -> (forall x y, x ∈ cur_entries b -> y ∈ ws -> kle cmp (e_key x) (e_key y)) ->
  sep_inv (fold_left (builder_write cmp) ws b).
Proof.
  induction ws as [|e ws IH]; intros b Hb Ha Hle; cbn; [done|]. apply StronglySorted_inv in Ha as [Ha HF].
  rewrite Forall_forall in HF. apply IH; [|done|].
  - apply sep_write; [done|]. intros x Hx. apply Hle; [done|left].
  - intros x y [Hx| ->]%cur_entries_write Hy; [apply Hle; [done|by right]|by apply HF].
Qed.

(** Sorted, disjoint tables; or, of a span without entries, one table of tombstones. *)
Lemma sep_finish b :
  sep_inv b ->
  StronglySorted out_before (builder_finish cmp b) /\
  (Forall (fun o => out_entries o <> []) (builder_finish cmp b) \/
   exists o, builder_finish cmp b = [o] /\ out_entries o = []).
Proof.
  intros [H1 H2 H3]. unfold builder_finish, finish_current. destruct (b_current b) as [c|] eqn:Ec.
  - rewrite Ec. destruct H3 as [(l & [(es & El) _ _ _ _]) H3]. cbn [b_outputs].
    destruct (outs_snoc (b_outputs b) (mkOutput (o_entries c) (match b_fragments b with [] => [] | _ :: _ => clip_fragments cmp (b_fragments b) (b_interval_lower b) (b_span_upper b) end) (o_partition c)) (o_entries c) H1 H2 H3 eq_refl) as [S1 S2];
      [rewrite El; by destruct es|]. destruct (b_fragments b); (split; [exact S1|left; exact S2]).
  - destruct H3 as [H3 _]. rewrite H3. destruct (b_fragments b) as [|f fs]; [rewrite Ec, H3; split; [constructor|left; constructor]|].
    cbn. rewrite H3. split; [repeat constructor|]. right. by eexists.
Qed.
End Disjoint.

(** ** Properties *)

(** C5: a compaction without a compaction filter changes no answer.  For every key of the span and every
    snapshot at or above the oldest live one, at any later time, reading the outputs between the newer and
    the older versions of the key gives what reading the inputs gave: the versions shadowed below the
    oldest snapshot, the ones masked by a range delete, the dropped tombstones and the folded operands are
    never missed.  [N] stands for the versions above the job, [O] for the ones below it; at the bottom
    there are none below.  The conditions: the inputs are sorted runs whose copies of a version agree, no
    version has the sequence of a range delete over it, operands do not expire, the operator is associative
    and the one reads use ([job_ok]); and at the bottom no put of the key above the oldest snapshot has
    expired, since the job drops such a put and keeps the value under it (C30). *)
Theorem compaction_preserves_reads cmp (TO : TotalOrder cmp) j target part inputs lower upper outs k s n op N O :
  run_span cmp j target part inputs lower upper = Some (Ok outs) -> job_ok cmp j inputs -> in_span cmp lower upper k ->
  j_filter j = None -> (forall f, j_merge_fold j = Some f -> op = Some f) ->
  (j_bottom j = true -> forall e, e ∈ concat (map it_rest inputs) -> e_key e = k -> e_merge e = false ->
     e_tombstone e = false -> expired (e_ttl e) (j_now j) = true -> e_seq e <= j_oldest j) ->
  j_oldest j <= s -> j_now j <= n ->
  consistent N -> consistent O -> (j_bottom j = true -> O = []) ->
  (forall a b, a ∈ N -> b ∈ in_versions cmp j inputs k s n ++ O -> newer a b) ->
  (forall a b, a ∈ in_versions cmp j inputs k s n -> b ∈ O -> newer a b) ->
  read_all op k (N ++ out_versions cmp outs k s n ++ O) = read_all op k (N ++ in_versions cmp j inputs k s n ++ O).
Proof.
  intros Hrun Hok Hin Hfi Hop Hexp Hs Hn HN HO Hb H1 H2.
  destruct (run_span_key cmp j inputs lower upper k Hok Hin target part outs Hrun) as (c0 & drop & u & p & wg & fw & Hko).
  destruct (out_split cmp j inputs k outs c0 drop u p wg fw Hko Hfi Hexp) as (live & wl & Hwg & Hwl).
  by eapply reads_preserved.
Qed.

Definition sample_job (bot : bool) (ranges : list Span) : FrozenJob :=
  mkJob bot 10 100 None (Some concat_op) (fun _ _ => false) ranges [].

(** Two operands over a base, below the oldest snapshot, in two tables; the base's older copy goes. *)
Definition sample_inputs : list Iter :=
  [mkIter [mkEntry [x61] 9 KIND_MERGE 0 [x32] true; mkEntry [x61] 8 KIND_MERGE 0 [x31] true; put_entry [x62] 4 [x34]] None;
   mkIter [put_entry [x61] 3 [x30]; put_entry [x61] 2 [x39]; put_entry [x62] 4 [x34]] None].

Definition sample_ranges : list Span := [mkSpan [x62] [x64] 7].

Lemma concat_op_assoc : merge_assoc concat_op.
Proof. intros k existing a b v _ _ [= <-]. unfold concat_op. cbn. by rewrite concat_app, app_assoc. Qed.

Lemma sample_job_ok bot : job_ok Bytewise (sample_job bot sample_ranges) sample_inputs.
Proof.
  constructor.
  - unfold sample_inputs, run_sorted. sorted_runs; (by left) || (by right).
  - intros e He. cbn in He. elems; vm_compute; congruence.
  - intros e e' He He'. cbn in He, He'. elems; intros K1 K2; cbn in K1, K2; first [reflexivity | discriminate K1 | discriminate K2].
  - intros e sp He Hsp. cbn in He, Hsp. unfold sample_ranges in Hsp. elems; intros K; vm_compute in K; first [discriminate K | discriminate].
  - intros e He. cbn in He. elems; done.
  - intros f [= <-]. apply concat_op_assoc.
Qed.

Lemma compaction_preserves_reads_witness :
  read_all (Some concat_op) [x61]
    ([] ++ out_versions Bytewise
             [mkOutput [put_entry [x61] 9 [x30; x31; x32]] [mkFragment [x62] [x64] [7]] None] [x61] 20 200 ++ []) =
  Ok [x30; x31; x32].
Proof.
  rewrite (compaction_preserves_reads Bytewise _ (sample_job false sample_ranges) 100 None sample_inputs Unbounded Unbounded);
    [vm_compute; reflexivity|vm_compute; reflexivity|apply sample_job_ok|done|done|by intros f [= <-]|done
    |done|done|intros a b Ha; elems|intros a b Ha; elems|done|intros a b Ha; elems|intros a b _ Hb; elems].
Defined.

(** C29: a span runs to its end.  Whatever the inputs hold, the loop ends: it takes an entry off an input in
    every round, so it is never cut short.  With sorted, readable inputs, no cancellation and an operator that
    merges, it ends with its tables, and it has then taken exactly the entries of the inputs whose key lies
    in the span, each once and in the order of keys and sequences, and the entries of the tables, in
    order, are what those steps and the last flush wrote. *)
Theorem compaction_completes cmp (TO : TotalOrder cmp) j target part inputs lower upper :
  run_span cmp j target part inputs lower upper <> None /\
  (job_runs j inputs -> Forall (fun it => run_sorted cmp (it_rest it)) inputs ->
   exists outs es st ws fin, run_span cmp j target part inputs lower upper = Some (Ok outs) /\
     StronglySorted (entry_le cmp) es /\
     es ≡ₚ List.filter (fun e => in_spanb cmp lower upper (e_key e)) (concat (map it_rest inputs)) /\
     steps cmp j (covering_of cmp j lower upper) (mkSpan_ (retention_new (j_bottom j) (j_oldest j) (j_now j)) None None) es = Ok (st, ws) /\
     flush_pending j (j_merge_fold j) (sp_pending st) = Ok fin /\ entries_of outs = ws ++ fin).
Proof.
  set (its := map (iter_seek_lower cmp lower) inputs).
  destruct (span_loop_ends cmp j (covering_of cmp j lower upper) upper (span_fuel its) its
    (mkSpan_ (retention_new (j_bottom j) (j_oldest j) (j_now j)) None None)
    (builder_new target part (retained_fragments cmp j (covering_of cmp j lower upper)) (snd (span_edges lower upper)))) as [r Hl].
  { unfold span_fuel. lia. }
  split; [unfold run_span; fold its; by rewrite Hl|]. intros [R1 R2 R3 R4 R5] HF.
  assert (forall e, e ∈ concat (map it_rest its) -> e ∈ concat (map it_rest inputs)) as Hsub.
  { intros e. unfold its. rewrite map_map, !elem_of_concat_map. rewrite Forall_forall in HF. intros (it & Hit & He).
    exists it. split; [done|]. by apply (seek_lower_spec cmp lower it (HF it Hit)). }
  assert (exists x, r = Ok x) as [[st0 b0] ->].
  { eapply (span_loop_runs cmp j R4); [|by intros e He; apply R2, Hsub|done|exact Hl].
    unfold its. intros it (it' & Hit & <-)%elem_of_map. destruct lower; by apply (R1 it'). }
  destruct (flush_runs j R4 (sp_pending st0)) as [fin0 Hfin0].
  assert (exists outs, run_span cmp j target part inputs lower upper = Some (Ok outs)) as [outs E].
  { unfold run_span. fold its. rewrite Hl. cbn. rewrite Hfin0. cbn. by eexists. }
  destruct (run_span_inv cmp j target part inputs lower upper outs E HF) as (es & st & ws & fin & Hs & Hes & Hst & Hfin & Eo).
  exists outs, es, st, ws, fin. conj_split; try done.
  - by rewrite Hes, seek_lower_filter.
  - set (frags := retained_fragments cmp j _) in *. set (su := snd (span_edges lower upper)) in *.
    destruct (builder_writes_inv cmp frags su (ws ++ fin) _ [] (builder_new_inv cmp frags su target part)) as [Hb Hb']; [done|].
    rewrite Eo. by destruct (builder_finish_spec cmp frags su _ _ Hb Hb') as [-> _].
Qed.

Lemma compaction_completes_witness :
  exists outs es st ws fin, run_span Bytewise (sample_job true sample_ranges) 1 None sample_inputs Unbounded Unbounded = Some (Ok outs) /\
    StronglySorted (entry_le Bytewise) es /\
    es ≡ₚ List.filter (fun e => in_spanb Bytewise Unbounded Unbounded (e_key e)) (concat (map it_rest sample_inputs)) /\
    steps Bytewise (sample_job true sample_ranges) (covering_of Bytewise (sample_job true sample_ranges) Unbounded Unbounded)
      (mkSpan_ (retention_new true 10 100) None None) es = Ok (st, ws) /\
    flush_pending (sample_job true sample_ranges) (Some concat_op) (sp_pending st) = Ok fin /\ entries_of outs = ws ++ fin.
Proof.
  apply (compaction_completes Bytewise _ (sample_job true sample_ranges) 1 None sample_inputs Unbounded Unbounded); [|apply (sample_job_ok true)].
  constructor; [intros it Hit; unfold sample_inputs in Hit; elems; done|intros e He; cbn in He; elems; done|done| |intros e He; cbn in He; elems; by split; vm_compute].
  intros f [= <-] k existing operands. discriminate.
Defined.

(** The outputs are the builder's, on a stream in key order. *)
Lemma run_span_written cmp (TO : TotalOrder cmp) j target part inputs lower upper outs :
  run_span cmp j target part inputs lower upper = Some (Ok outs) -> Forall (fun it => run_sorted cmp (it_rest it)) inputs ->
  exists ws, ascending cmp ws /\
    outs = builder_finish cmp (fold_left (builder_write cmp) ws
             (builder_new target part (retained_fragments cmp j (covering_of cmp j lower upper)) (snd (span_edges lower upper)))).
Proof.
  intros H HF. apply (run_span_inv cmp) in H as (es & st & ws & fin & Hs & _ & Hst & Hfin & ->); [|done].
  exists (ws ++ fin). split; [|done]. by eapply (steps_ascending cmp j); [..|exact Hst|exact Hfin].
Qed.

Lemma written_disjoint cmp (TO : TotalOrder cmp) target part frags su ws :
  ascending cmp ws -> let outs := builder_finish cmp (fold_left (builder_write cmp) ws (builder_new target part frags su)) in
  StronglySorted (out_before cmp) outs /\
  (Forall (fun o => out_entries o <> []) outs \/ exists o, outs = [o] /\ out_entries o = []).
Proof.
  intros Hw. apply (sep_finish cmp), (sep_writes cmp); [constructor; [constructor..|done]|done|].
  intros x y Hx. by apply elem_of_nil in Hx.
Qed.

(** C13: the tables a span writes are disjoint and in key order, so they can stand in one level: all
    versions of a key are in one of them, however the size target and the partition boundaries cut.
    Each has an entry, unless the span kept none and the only table carries its tombstones. *)
Theorem compaction_outputs_disjoint cmp (TO : TotalOrder cmp) j target part inputs lower upper outs :
  run_span cmp j target part inputs lower upper = Some (Ok outs) -> Forall (fun it => run_sorted cmp (it_rest it)) inputs ->
  StronglySorted (out_before cmp) outs /\
  (Forall (fun o => out_entries o <> []) outs \/ exists o, outs = [o] /\ out_entries o = []).
Proof.
  intros H HF. apply (run_span_written cmp TO) in H as (ws & Hw & ->); [|done]. by apply written_disjoint.
Qed.

Lemma compaction_outputs_disjoint_witness :
  exists outs, run_span Bytewise (sample_job false sample_ranges) 1 None
    [mkIter [put_entry [x61] 20 [x31]; put_entry [x61] 3 [x30]; put_entry [x63] 12 [x30]] None] Unbounded Unbounded = Some (Ok outs) /\
    length outs = 2%nat /\ StronglySorted (out_before Bytewise) outs.
Proof.
  eexists. split; [vm_compute; reflexivity|]. split; [reflexivity|].
  eapply (compaction_outputs_disjoint Bytewise _ (sample_job false sample_ranges) 1 None
    [mkIter [put_entry [x61] 20 [x31]; put_entry [x61] 3 [x30]; put_entry [x63] 12 [x30]] None] Unbounded Unbounded);
    [vm_compute; reflexivity|]. unfold run_sorted. sorted_runs; (by left) || (by right).
Defined.

Definition bottom_job (oldest now_ : Z) : FrozenJob := mkJob true oldest now_ None None (fun _ _ => false) [] [].

(** Evaluate up to the comparisons of symbolic sequences and times. *)
Ltac zcbn := cbn -[Z.leb Z.ltb Z.eqb Z.max Z.compare zlen].
Ltac kcbn := change (KIND_PUT =? KIND_MERGE) with false; zcbn; repeat (change (e_tombstone _) with false); zcbn.

(** C30: why reads above need the expired versions at or below the oldest snapshot: the bottom drops an
    expired put above the oldest snapshot and keeps the older value below it, so a reader that saw the
    key as expired sees the older value after the compaction. *)
Theorem expired_drop_resurrects cmp (TO : TotalOrder cmp) oldest now_ ttl k s1 s2 old new target s n :
  s1 <= oldest -> oldest < s2 -> s2 <= s -> 0 < ttl -> ttl <= now_ -> now_ <= n ->
  let inputs := [mkIter [mkEntry k s2 KIND_PUT ttl new true; put_entry k s1 old] None] in
  exists outs, run_span cmp (bottom_job oldest now_) target None inputs Unbounded Unbounded = Some (Ok outs) /\
    read_all None k (in_versions cmp (bottom_job oldest now_) inputs k s n) = Err NotFound /\
    read_all None k (out_versions cmp outs k s n) = Ok old.
Proof.
  intros H1 H2 H3 H4 H5 H6 inputs. pose proof (proj2 (kcompare_eq cmp k k) eq_refl) as Ek.
  assert ((s2 <=? oldest) = false) as L2 by (apply Z.leb_gt; lia). assert ((s1 <=? oldest) = true) as L1 by (apply Z.leb_le; lia).
  assert ((ttl =? 0) = false) as T0 by (apply Z.eqb_neq; lia). assert ((ttl <=? now_) = true) as T1 by (apply Z.leb_le; lia).
  assert ((s2 =? s1) = false) as N12 by (apply Z.eqb_neq; lia). assert ((ttl <=? n) = true) as T2 by (apply Z.leb_le; lia).
  assert ((s2 <=? s) = true) as L3 by (apply Z.leb_le; lia). assert ((s1 <=? s) = true) as L4 by (apply Z.leb_le; lia).
  assert ((s1 ?= s2) = Lt) as C1 by (by apply Z.compare_lt_iff; lia).
  exists [mkOutput [put_entry k s1 old] [] None]. split; [|split].
  - unfold run_span, inputs, span_fuel. zcbn. rewrite ?Ek. zcbn. unfold decide_version. zcbn. rewrite L2, T0, T1. kcbn.
    unfold span_step. kcbn. rewrite N12. kcbn. unfold decide_version. kcbn. rewrite Ek. kcbn. rewrite L1. kcbn.
    unfold builder_finish, finish_current, builder_write. kcbn. reflexivity.
  - unfold inputs, in_versions, versions, run_versions. zcbn. rewrite Ek, L3, L4. zcbn.
    unfold read_all, by_seq_desc. zcbn. rewrite C1. unfold chain_version, dead, expired. kcbn. rewrite T0, T2. reflexivity.
  - unfold out_versions, versions, run_versions. zcbn. rewrite Ek, L4. zcbn. reflexivity.
Qed.

Lemma expired_drop_resurrects_witness :
  let inputs := [mkIter [mkEntry [x61] 20 KIND_PUT 50 [x32] true; put_entry [x61] 5 [x31]] None] in
  exists outs, run_span Bytewise (bottom_job 10 100) 1 None inputs Unbounded Unbounded = Some (Ok outs) /\
    read_all None [x61] (in_versions Bytewise (bottom_job 10 100) inputs [x61] 30 200) = Err NotFound /\
    read_all None [x61] (out_versions Bytewise outs [x61] 30 200) = Ok [x31].
Proof. apply (expired_drop_resurrects Bytewise _ 10 100 50 [x61] 5 20 [x31] [x32] 1 30 200); lia. Defined.
