(* ===== verification/LevelOutput.v ===== *)
(** * LevelOutput: the level a compaction writes (compaction.rs, sst/writer.rs)

    [Compaction] cuts a span into outputs and [TableWriter] writes one; here the
    two meet.  Every output owns an interval of keys, and the fragments it
    carries are the span's, clipped to it.  The catalog records of the written
    tables ([finish_current], from [Writer::finish] and [to_sst_meta]) make a
    level as [ReadPath] reads it, [level_ok].  The first output owns its interval
    from the lower edge of the span on, so its fragments may begin before its
    first key; [tombstone_before_first_key_missed] shows what point reads make
    of that. *)

From Stdlib Require Import ZArith Lia Sorted.
From Stdlib.Strings Require Import Byte.
From stdpp Require Import base list sorting.
From S2P Require Import Prelude Encoding Codec Comparator Format Bloom Block SstEntry Manifest RangeTombstone ReadPath DataBlock TableWriter SstTable Compaction.

Open Scope Z_scope.

(** ** The record of an output *)

(** The tail of [finish_current]: what the catalog is told of the file the writer finished. *)
Definition output_meta (m : FileMeta) (sst_id target : Z) (part : option (list byte)) (carry stamp : option Z) : SstMeta :=
  let s := to_sst_meta m sst_id target in
  let '(lo, hi) := if (num_entries s =? 0) && (0 <? range_count s)
                   then (default [] (range_min_key s), default [] (range_max_key s)) else (min_key s, max_key s) in
  mkSstMeta (id s) (level s) (num_entries s) (num_tombstones s) (Manifest.max_seq s) (klog_size s) (vlog_size s) lo hi
    part (tier s) carry (object s) stamp (range_count s) (range_min_seq s) (range_max_seq s) (range_min_key s) (range_max_key s)
    (table_caps s).

(** [t] is the output [o] as some writer wrote it and the catalog records it. *)
Definition output_table (checksum : list byte -> Z) `{Codecs} (xxh3 : list byte -> Z) {F : Type} (bloom_sizing : Z -> F -> Z * Z)
    (opts : WriterOptions F) (o : Output) (t : Table) : Prop :=
  exists w sst_id target carry stamp,
    write_table checksum xxh3 bloom_sizing opts (out_entries o) (out_frags o) = Ok w /\
    t_meta t = output_meta (tf_meta w) sst_id target (out_partition o) carry stamp /\
    t_entries t = out_entries o /\ t_frags t = out_frags o.

(** ** The interval of an output *)

Definition first_key (es : list Entry) : option key := e_key <$> head es.

(** The fragments clipped to what each list of entries owns: from its first key ([lo] for the first) to the first
    key of the next ([hi] after the last). *)
Fixpoint owned (cmp : Comparator) (frags : list Fragment) (lo hi : option key) (ess : list (list Entry)) : list (list Fragment) :=
  match ess with
  | [] => []
  | es :: ess =>
      match ess with
      | [] => [clip_fragments cmp frags lo hi]
      | es' :: _ => clip_fragments cmp frags lo (first_key es') :: owned cmp frags (first_key es') hi ess
      end
  end.

Section Owned.
Context (cmp : Comparator) `{!TotalOrder cmp} (frags : list Fragment).

Lemma owned_snoc lo hi ess es :
  owned cmp frags lo hi (ess ++ [es]) =
  owned cmp frags lo (first_key es) ess ++ [clip_fragments cmp frags (match ess with [] => lo | _ => first_key es end) hi].
Proof.
  revert lo. induction ess as [|x ess IH]; intros lo; [done|]. cbn [app owned].
  destruct ess as [|y ess]; [done|]. cbn [app]. change (y :: ess ++ [es]) with ((y :: ess) ++ [es]). rewrite IH. done.
Qed.

Lemma owned_lookup lo hi ess i fs :
  owned cmp frags lo hi ess !! i = Some fs ->
  fs = clip_fragments cmp frags (match i with O => lo | S _ => es ← ess !! i; first_key es end)
         (match ess !! S i with Some es' => first_key es' | None => hi end).
Proof.
  revert lo i. induction ess as [|x ess IH]; intros lo i; [done|]. cbn [owned]. destruct ess as [|y ess].
  - destruct i as [|i]; [|done]. by intros [= <-].
  - destruct i as [|i]; [by intros [= <-]|]. intros Hi. apply (IH (first_key y)) in Hi. rewrite Hi. destruct i; done.
Qed.

Lemma clip_fragments_window lower upper g :
  g ∈ clip_fragments cmp frags lower upper ->
  (forall l, lower = Some l -> kle cmp l (f_start g)) /\ (forall u, upper = Some u -> kle cmp (f_end g) u).
Proof.
  unfold clip_fragments. intros (f & _ & Hg)%elem_of_concat_map. unfold clip_fragment in Hg. destruct (is_ge _); [by apply elem_of_nil in Hg|].
  apply list_elem_of_singleton in Hg as ->. cbn. split.
  - intros l ->. cbn. destruct (is_lt (compare cmp (f_start f) l)) eqn:E; kbool; [by apply kle_refl|korder].
  - intros u ->. cbn. destruct (is_gt (compare cmp (f_end f) u)) eqn:E; kbool; [by apply kle_refl|korder].
Qed.

(** ** The builder *)

Record owns (b : OutputBuilder) : Prop := {
  ow_frags : b_fragments b = frags;
  ow_outs : map out_frags (b_outputs b) = owned cmp frags None (b_interval_lower b) (map out_entries (b_outputs b));
  ow_first : match b_outputs b with
             | [] => b_interval_lower b = None
             | _ => exists c, b_current b = Some c /\ b_interval_lower b = first_key (o_entries c)
             end;
  ow_cur : forall c, b_current b = Some c -> o_entries c <> [];
}.

Lemma owns_new target part su : owns (builder_new target part frags su).
Proof. by constructor. Qed.

Lemma owns_finish b c hi :
  owns b -> b_current b = Some c -> let b' := finish_current cmp b hi in
  let hi' := match hi with Some u => Some u | None => b_span_upper b end in
  map out_frags (b_outputs b') = owned cmp frags None hi' (map out_entries (b_outputs b')) /\ b_outputs b' <> [].
Proof.
  intros [Hf Ho Hi Hc] Ec. unfold finish_current. rewrite Ec, finish_frags, Hf. cbn [b_outputs]. rewrite !map_app. cbn [map out_frags out_entries].
  rewrite owned_snoc. split; [|by destruct (b_outputs b)]. f_equal.
  - rewrite Ho. destruct (b_outputs b); [done|]. destruct Hi as (c' & E & ->). by rewrite Ec in E; injection E as <-.
  - do 2 f_equal. destruct (b_outputs b); [done|]. destruct Hi as (c' & E & ->). by rewrite Ec in E; injection E as <-.
Qed.

Lemma owns_write b e : owns b -> owns (builder_write cmp b e).
Proof.
  intros Hb. unfold builder_write. set (cut := _ || _). destruct cut eqn:Ecut.
  - assert (exists c, b_current b = Some c) as [c Ec].
    { unfold cut, output_boundary_change in Ecut. destruct (b_current b) as [c|]; [by exists c|]. by rewrite andb_false_r in Ecut. }
    destruct (owns_finish b c (Some (e_key e)) Hb Ec) as [H1 H2]. destruct Hb as [Hf Ho Hi Hc].
    unfold finish_current in *. rewrite Ec in *. cbn [b_current b_outputs b_interval_lower b_fragments open_output from_option default] in *. constructor; cbn; [done|exact H1| |].
    + destruct (b_outputs b ++ _); [done|]. by eexists.
    + intros c' [= <-]. done.
  - destruct Hb as [Hf Ho Hi Hc]. destruct (b_current b) as [c|] eqn:Ec; cbn [b_current b_outputs b_interval_lower b_fragments open_output]; rewrite ?Ec; cbn; constructor; cbn; try done.
    + destruct (b_outputs b); [done|]. destruct Hi as (c' & [= <-] & ->). eexists. split; [done|]. cbn.
      specialize (Hc c eq_refl). by destruct (o_entries c).
    + intros c' [= <-]. cbn. by destruct (o_entries c).
    + destruct (b_outputs b); [done|]. by destruct Hi as (c' & E & _).
    + intros c' [= <-]. done.
Qed.

Lemma owns_writes ws b : owns b -> owns (fold_left (builder_write cmp) ws b).
Proof. revert b. induction ws as [|e ws IH]; intros b Hb; [done|]. cbn. by apply IH, owns_write. Qed.
End Owned.

Lemma builder_finish_owned cmp `{!TotalOrder cmp} target part frags su ws :
  let outs := builder_finish cmp (fold_left (builder_write cmp) ws (builder_new target part frags su)) in
  map out_frags outs = owned cmp frags None su (map out_entries outs).
Proof.
  intros outs. subst outs. pose proof (owns_writes cmp frags ws _ (owns_new cmp frags target part su)) as Hb.
  assert (b_span_upper (fold_left (builder_write cmp) ws (builder_new target part frags su)) = su) as Hu.
  { apply (builder_writes_inv cmp frags su ws _ [] (builder_new_inv cmp frags su target part)). done. }
  set (b := fold_left _ ws _) in *. clearbody b. unfold builder_finish. destruct (b_current b) as [c|] eqn:Ec.
  - destruct (owns_finish cmp frags b c None Hb Ec) as [H _]. by rewrite Hu in H.
  - destruct Hb as [Hf _ Hi _]. destruct (b_outputs b) as [|o os] eqn:Eo; [|destruct Hi as (c & E & _); congruence].
    destruct (b_fragments b) eqn:Ef; unfold finish_current; [by rewrite Ec, Eo|]. cbn. rewrite Eo, Ef, Hi, Hu, <- Hf. done.
Qed.

(** ** The fragments of a level *)

Section Frags.
Context (cmp : Comparator) `{!TotalOrder cmp}.

Lemma retained_fragments_wf j fs : frags_wf cmp fs -> frags_wf cmp (retained_fragments cmp j fs).
Proof.
  intros [Hok Hs]. split.
  - rewrite Forall_forall in Hok |- *. intros g (Hn & f & (H1 & _ & H3)%Hok & E1 & E2 & E3)%(retained_fragment_elem cmp).
    unfold frag_ok. rewrite E1, E2. conj_split; [done..|]. rewrite E3. by apply retained_seqs_sorted.
  - unfold retained_fragments. apply lfilter_StronglySorted. clear Hok. induction Hs as [|f fs Hs IH HF]; cbn; [constructor|]. constructor; [done|].
    rewrite Forall_forall in HF |- *. intros g (h & Hh & <-)%elem_of_map. cbn. by apply HF.
Qed.

Lemma frags_wf_head fs f : frags_wf cmp fs -> f ∈ fs -> exists g, head fs = Some g /\ kle cmp (f_start g) (f_start f).
Proof.
  intros [Hok Hs] Hf. destruct Hs as [|g fs Hs HF]; [by apply elem_of_nil in Hf|]. exists g. split; [done|].
  apply elem_of_cons in Hf as [->|Hf]; [by apply kle_refl|]. rewrite Forall_forall in HF. specialize (HF f Hf).
  apply Forall_cons in Hok as [(H1 & _) _]. korder.
Qed.

Lemma frags_wf_last fs f : frags_wf cmp fs -> f ∈ fs -> exists g, last fs = Some g /\ kle cmp (f_end f) (f_end g).
Proof.
  intros Hw Hf. destruct (last fs) as [g|] eqn:El; [|apply last_None in El as ->; by apply elem_of_nil in Hf].
  exists g. split; [done|]. apply last_Some in El as (fs' & ->). apply elem_of_app in Hf as [Hf|Hf].
  - apply frags_wf_app in Hw as (_ & [Hok _] & H). specialize (H f g Hf ltac:(left)). apply Forall_cons in Hok as [(H1 & _) _]. korder.
  - apply list_elem_of_singleton in Hf as ->. by apply kle_refl.
Qed.

Lemma ascending_head es e : ascending cmp es -> e ∈ es -> exists a, head es = Some a /\ kle cmp (e_key a) (e_key e).
Proof.
  intros Hs He. destruct Hs as [|a es Hs HF]; [by apply elem_of_nil in He|]. exists a. split; [done|].
  apply elem_of_cons in He as [->|He]; [by apply kle_refl|]. rewrite Forall_forall in HF. by apply HF.
Qed.

Lemma ascending_last es e : ascending cmp es -> e ∈ es -> exists z, last es = Some z /\ kle cmp (e_key e) (e_key z).
Proof.
  intros Hs He. destruct (last es) as [z|] eqn:El; [|apply last_None in El as ->; by apply elem_of_nil in He].
  exists z. split; [done|]. apply last_Some in El as (es' & ->). apply elem_of_app in He as [He|He].
  - unfold ascending in Hs. apply StronglySorted_app in Hs as (H & _). apply H; [done|left].
  - apply list_elem_of_singleton in He as ->. by apply kle_refl.
Qed.
End Frags.

(** ** The written level *)

Lemma Forall2_StronglySorted {A B} (P : A -> B -> Prop) (R : A -> A -> Prop) (S : B -> B -> Prop) l k :
  Forall2 P l k -> StronglySorted R l ->
  (forall x x' y y', x ∈ l -> x' ∈ l -> P x y -> P x' y' -> R x x' -> S y y') -> StronglySorted S k.
Proof.
  induction 1 as [|x y l k Hxy Hlk IH]; intros Hs HS; [constructor|]. apply StronglySorted_inv in Hs as [Hs HF]. constructor.
  - apply IH; [done|]. intros a a' b b' Ha Ha'. apply HS; by right.
  - apply Forall_forall. intros y' (i & Hi)%list_elem_of_lookup. destruct (Forall2_lookup_r _ _ _ _ _ Hlk Hi) as (x' & Hx' & Hp).
    apply list_elem_of_lookup_2 in Hx'. rewrite Forall_forall in HF. eapply HS; [left|right; exact Hx'|done|done|by apply HF].
Qed.

Section Level.
Context (checksum : list byte -> Z) `{Codecs} (xxh3 : list byte -> Z) {F : Type} (bloom_sizing : Z -> F -> Z * Z) (opts : WriterOptions F).
Context (cmp : Comparator) `{!TotalOrder cmp}.
Abbreviation output_table := (output_table checksum xxh3 bloom_sizing opts).

(** The recorded bounds: of the entries, or of the fragments when there are none. *)
Lemma output_table_meta o t :
  output_table o t ->
  t_entries t = out_entries o /\ t_frags t = out_frags o /\
  range_count (t_meta t) = Z.of_nat (length (out_frags o)) /\
  range_min_key (t_meta t) = f_start <$> head (out_frags o) /\ range_max_key (t_meta t) = f_end <$> last (out_frags o) /\
  (min_key (t_meta t), max_key (t_meta t)) =
    match out_entries o with
    | [] => (default [] (f_start <$> head (out_frags o)), default [] (f_end <$> last (out_frags o)))
    | es => (default [] (e_key <$> head es), default [] (e_key <$> last es))
    end.
Proof.
  intros (w & sst_id & target & carry & stamp & Hw & -> & -> & ->). apply (write_table_meta checksum xxh3 bloom_sizing) in Hw as (E1 & E2 & E3 & E4).
  unfold output_meta, to_sst_meta. cbn. rewrite E1, E2, E3, E4. cbn [summarize rs_count rs_min_key rs_max_key].
  destruct (out_entries o) as [|e es]; [|by conj_split].
  destruct (out_frags o) as [|f fs]; by conj_split.
Qed.

Context (frags : list Fragment) (su : option key) (outs : list Output) (tables : list Table).
Context (Hwf : frags_wf cmp frags) (Hown : map out_frags outs = owned cmp frags None su (map out_entries outs)).
Context (Hasc : forall o, o ∈ outs -> ascending cmp (out_entries o)) (Hsep : StronglySorted (out_before cmp) outs).
Context (Hfull : Forall (fun o => out_entries o <> []) outs \/ exists o, outs = [o] /\ out_entries o = []).
Context (Htab : Forall2 output_table outs tables).

Lemma level_table t : t ∈ tables -> exists i o, tables !! i = Some t /\ outs !! i = Some o /\ output_table o t.
Proof.
  intros (i & Hi)%list_elem_of_lookup. destruct (Forall2_lookup_r _ _ _ _ _ Htab Hi) as (o & Ho & Hot). eauto.
Qed.

Lemma out_frags_wf i o : outs !! i = Some o -> frags_wf cmp (out_frags o).
Proof.
  intros Ho. assert (owned cmp frags None su (map out_entries outs) !! i = Some (out_frags o)) as E
    by (rewrite <- Hown; change (@map) with (@fmap _ list_fmap); by rewrite list_lookup_fmap, Ho).
  apply owned_lookup in E as ->. by apply clip_fragments_wf.
Qed.

(** What the record says of an output that has entries. *)
Lemma full_bounds o t :
  output_table o t -> out_entries o <> [] ->
  exists a z, head (out_entries o) = Some a /\ last (out_entries o) = Some z /\ a ∈ out_entries o /\ z ∈ out_entries o /\
    min_key (t_meta t) = e_key a /\ max_key (t_meta t) = e_key z.
Proof.
  intros (_ & _ & _ & _ & _ & E)%output_table_meta Hn. destruct (out_entries o) as [|a es] eqn:Eo; [done|].
  destruct (last (a :: es)) as [z|] eqn:El; [|by apply last_None in El]. exists a, z. injection E as E1 E2. rewrite El in E2.
  conj_split; [done..|left|by apply last_Some_elem_of|done|done].
Qed.

Lemma output_bounds o t : o ∈ outs -> output_table o t -> frags_wf cmp (out_frags o) ->
  kle cmp (min_key (t_meta t)) (max_key (t_meta t)) /\
  forall e, e ∈ out_entries o -> kle cmp (min_key (t_meta t)) (e_key e) /\ kle cmp (e_key e) (max_key (t_meta t)).
Proof.
  intros Ho Ht Hw. pose proof (Hasc o Ho) as Ha. destruct (decide (out_entries o = [])) as [En|Hn].
  - split; [|intros e He; rewrite En in He; by apply elem_of_nil in He]. apply output_table_meta in Ht as (_ & _ & _ & _ & _ & E). rewrite En in E. injection E as -> ->.
    destruct (out_frags o) as [|f fs]; [by apply kle_refl|]. destruct (frags_wf_last cmp (f :: fs) f Hw ltac:(left)) as (g & -> & Hg).
    destruct Hw as [(Hlt & _)%Forall_inv _]. cbn. korder.
  - destruct (full_bounds o t Ht Hn) as (a & z & Eh & El & Ia & Iz & -> & ->).
    assert (forall e, e ∈ out_entries o -> kle cmp (e_key a) (e_key e) /\ kle cmp (e_key e) (e_key z)) as Hb.
    { intros e He. destruct (ascending_head cmp _ e Ha He) as (a' & E1 & H1), (ascending_last cmp _ e Ha He) as (z' & E2 & H2).
      rewrite Eh in E1. rewrite El in E2. by simplify_eq. }
    split; [|done]. by apply Hb.
Qed.

(** A fragment of an output ends before the first key of the next. *)
Lemma frag_before_next i o o' t' f :
  outs !! i = Some o -> outs !! S i = Some o' -> output_table o' t' -> f ∈ out_frags o -> kle cmp (f_end f) (min_key (t_meta t')).
Proof.
  intros Ho Ho' Ht' Hf. assert (out_entries o' <> []) as Hn.
  { destruct Hfull as [HF|(o1 & E & _)]; [|by rewrite E in Ho'; destruct i].
    rewrite Forall_forall in HF. by eapply HF, list_elem_of_lookup_2. }
  destruct (full_bounds o' t' Ht' Hn) as (a & z & Eh & _ & _ & _ & -> & _).
  assert (owned cmp frags None su (map out_entries outs) !! i = Some (out_frags o)) as E
    by (rewrite <- Hown; change (@map) with (@fmap _ list_fmap); by rewrite list_lookup_fmap, Ho).
  apply owned_lookup in E. change (@map) with (@fmap _ list_fmap) in E. rewrite !list_lookup_fmap, Ho' in E. cbn in E.
  rewrite E in Hf. apply clip_fragments_window in Hf as [_ Hu]; [|done]. apply Hu. unfold first_key. by rewrite Eh.
Qed.

Lemma tables_form_level : level_ok cmp tables.
Proof.
  constructor.
  - destruct Hfull as [HF|(o & E & _)].
    + eapply Forall2_StronglySorted; [exact Htab|exact Hsep|]. intros o o' t t' Ho Ho' Ht Ht' Hb. rewrite Forall_forall in HF.
      destruct (full_bounds o t Ht (HF o Ho)) as (_ & z & _ & _ & _ & Hz & _ & ->).
      destruct (full_bounds o' t' Ht' (HF o' Ho')) as (a & _ & _ & _ & Ha & _ & -> & _). by apply Hb.
    + rewrite E in Htab. apply Forall2_cons_inv_l in Htab as (t & ts & _ & H2 & ->). apply Forall2_nil_inv_l in H2 as ->. repeat constructor.
  - intros t (i & o & _ & Ho & Hot)%level_table. eapply output_bounds; [by eapply list_elem_of_lookup_2|done|by eapply out_frags_wf].
  - intros t e (i & o & _ & Ho & Hot)%level_table He. pose proof (output_table_meta o t Hot) as (E & _). rewrite E in He.
    eapply output_bounds; [by eapply list_elem_of_lookup_2|done|by eapply out_frags_wf|done].
  - intros t (i & o & _ & Ho & Hot)%level_table Hn. apply output_table_meta in Hot as (_ & E & Ec & _). rewrite E in Hn.
    unfold meta_has_ranges. rewrite Ec. apply Z.ltb_lt. destruct (out_frags o); [done|]. cbn. lia.
  - intros t f (i & o & _ & Ho & Hot)%level_table Hf. pose proof (output_table_meta o t Hot) as (_ & E & _ & _ & Em & _). rewrite E in Hf.
    destruct (frags_wf_last cmp _ f (out_frags_wf i o Ho) Hf) as (g & Eg & Hg). rewrite Em, Eg. by eexists.
  - intros t f (i & o & _ & Ho & Hot)%level_table Hf. pose proof (output_table_meta o t Hot) as (_ & E & _ & Em & _). rewrite E in Hf.
    destruct (frags_wf_head cmp _ f (out_frags_wf i o Ho) Hf) as (g & Eg & Hg). rewrite Em, Eg. by eexists.
  - intros i t u f Ht Hu Hf. destruct (Forall2_lookup_r _ _ _ _ _ Htab Ht) as (o & Ho & Hot), (Forall2_lookup_r _ _ _ _ _ Htab Hu) as (o' & Ho' & Hot').
    pose proof (output_table_meta o t Hot) as (_ & E & _). rewrite E in Hf. by eapply (frag_before_next i o o').
Qed.
End Level.

(** ** Keys before the first table *)

Section Skip.
Context (cmp : Comparator) `{!TotalOrder cmp} (k : key).

(** Between the tables before the key and the tables after it, the search finds no table that holds it. *)
Lemma find_between left right :
  level_ok cmp (left ++ right) ->
  (forall t, t ∈ left -> klt cmp (max_key (t_meta t)) k) -> (forall t, t ∈ right -> klt cmp k (min_key (t_meta t))) ->
  find_overlapping_at cmp (left ++ right) k = (None, length left).
Proof.
  intros Hl H1 H2. destruct (find_overlapping_at _ _ _) as [hit lo] eqn:E. destruct (find_overlapping_spec cmp _ k hit lo Hl E) as (Hb & L1 & L2 & ->).
  assert (lo = length left) as ->.
  { apply Nat.le_antisymm.
    - destruct (decide (lo <= length left)%nat) as [|Hn]; [done|]. exfalso.
      destruct (lookup_lt_is_Some_2 (left ++ right) (length left)) as [t Ht]; [lia|].
      pose proof (L1 (length left) t ltac:(lia) Ht) as Hm. pose proof (lo_bounds _ _ Hl t ltac:(by eapply list_elem_of_lookup_2)) as Hb'.
      rewrite lookup_app_r, Nat.sub_diag in Ht by lia. specialize (H2 t ltac:(by eapply list_elem_of_lookup_2)). korder.
    - destruct (decide (length left <= lo)%nat) as [|Hn]; [done|]. exfalso.
      destruct (lookup_lt_is_Some_2 left lo) as [t Ht]; [lia|]. pose proof (L2 lo t ltac:(lia) ltac:(by apply lookup_app_l_Some)) as Hm.
      specialize (H1 t ltac:(by eapply list_elem_of_lookup_2)). korder. }
  f_equal. destruct ((left ++ right) !! length left) as [t|] eqn:Et; [|done].
  rewrite lookup_app_r, Nat.sub_diag in Et by lia. specialize (H2 t ltac:(by eapply list_elem_of_lookup_2)).
  destruct (is_ge _) eqn:Eg; [|done]. kbool. exfalso. korder.
Qed.

(** So what a point read takes from the level depends on the tables to the left alone. *)
Lemma skip_right left right :
  level_ok cmp (left ++ right) ->
  (forall t, t ∈ left -> klt cmp (max_key (t_meta t)) k) -> (forall t, t ∈ right -> klt cmp k (min_key (t_meta t))) ->
  level_tables cmp (left ++ right) k = [] /\
  level_range_tables cmp (left ++ right) k = opt_table left (gap_owner cmp left k None (length left)).
Proof.
  intros Hl H1 H2. unfold level_tables, level_range_tables. rewrite (find_between left right Hl H1 H2). split; [done|].
  unfold gap_owner. destruct left as [|t left _] using rev_ind; [done|]. rewrite length_app, Nat.add_comm. cbn.
  rewrite lookup_app_l by (rewrite length_app; cbn; lia). destruct ((left ++ [t]) !! length left) as [t'|] eqn:E; [|done].
  destruct (negb _); [done|]. destruct (range_max_key _); [|done]. destruct (is_lt _); [|done]. cbn.
  by rewrite lookup_app_l by (rewrite length_app; cbn; lia).
Qed.
End Skip.

(** ** The outputs of a span *)

Lemma covering_of_wf cmp `{!TotalOrder cmp} j lower upper : frags_wf cmp (covering_of cmp j lower upper).
Proof.
  unfold covering_of. destruct (j_ranges j); [repeat constructor|]. destruct (span_edges lower upper) as [lo hi]. by apply fragment_spans_spec.
Qed.

Lemma ascending_concat cmp ess es : ascending cmp (concat ess) -> es ∈ ess -> ascending cmp es.
Proof.
  intros Hs (a & b & ->)%list_elem_of_split. rewrite concat_app in Hs. cbn in Hs. unfold ascending in *.
  apply StronglySorted_app in Hs as (_ & _ & Hs). by apply StronglySorted_app in Hs as (_ & Hs & _).
Qed.

(** The tables a span writes make a level that point reads and scans accept: in key order, each within the
    bounds the catalog records, its fragments within its range bounds and ending before the next table. *)
Theorem outputs_form_level checksum `{Codecs} xxh3 {F} bloom_sizing (opts : WriterOptions F) cmp (TO : TotalOrder cmp)
    j target part inputs lower upper outs tables :
  run_span cmp j target part inputs lower upper = Some (Ok outs) -> Forall (fun it => run_sorted cmp (it_rest it)) inputs ->
  Forall2 (output_table checksum xxh3 bloom_sizing opts) outs tables -> level_ok cmp tables.
Proof.
  intros Hrun HF Ht. destruct (run_span_written cmp TO j target part inputs lower upper outs Hrun HF) as (ws & Hw & Eo).
  set (fs := retained_fragments cmp j (covering_of cmp j lower upper)) in *. set (su := snd (span_edges lower upper)) in *.
  destruct (written_disjoint cmp TO target part fs su ws Hw) as [Hsep Hfull]. cbv zeta in Hsep, Hfull. rewrite <- Eo in Hsep, Hfull.
  pose proof (builder_finish_owned cmp target part fs su ws) as Hown. cbv zeta in Hown. rewrite <- Eo in Hown.
  eapply (tables_form_level checksum xxh3 bloom_sizing opts cmp fs su outs tables); [|exact Hown| |exact Hsep|exact Hfull|exact Ht].
  - apply (retained_fragments_wf cmp), (covering_of_wf cmp).
  - intros o Ho. destruct (builder_writes_inv cmp fs su ws _ [] (builder_new_inv cmp fs su target part)) as [Hi Hc]; [done|].
    destruct (builder_finish_spec cmp fs su _ _ Hi Hc) as [E _]. rewrite <- Eo in E. cbn in E.
    apply (ascending_concat cmp (map out_entries outs)); [|apply elem_of_map; by exists o]. unfold entries_of in E. by rewrite E.
Qed.

Lemma level_ok_prefix cmp left right : level_ok cmp (left ++ right) -> level_ok cmp left.
Proof.
  assert (forall t, t ∈ left -> t ∈ left ++ right) as Hin by (intros t Ht; apply elem_of_app; by left).
  intros [H1 H2 H3 H4 H5 H6 H7]. constructor; eauto.
  - by apply StronglySorted_app in H1 as (_ & H1 & _).
  - intros i t u f Ht Hu. apply (H7 i); by apply lookup_app_l_Some.
Qed.

(** A tombstone of an output is a stored version of the key. *)
Lemma stored_tombstone cmp `{!TotalOrder cmp} mem imms levels level t k x rs now :
  level ∈ levels -> t ∈ level -> frag_at cmp (t_frags t) k x -> x <= rs ->
  mkCV x false None ∈ stored_versions cmp mem imms levels k rs now.
Proof.
  intros Hl Ht Hf Hx. unfold stored_versions. apply elem_of_app. left. apply (elem_of_span_versions cmp). cbn. conj_split; [done| |done].
  rewrite (span_at_app cmp). right. apply (span_at_concat cmp). exists t. split; [apply elem_of_concat; by exists level|].
  unfold table_spans. by apply (spans_of_fragments_at cmp).
Qed.

(** A span that kept an entry wrote tables in key order, each with an entry. *)
Lemma span_full cmp `{TO : !TotalOrder cmp} j target part inputs lower upper outs :
  run_span cmp j target part inputs lower upper = Some (Ok outs) -> Forall (fun it => run_sorted cmp (it_rest it)) inputs ->
  entries_of outs <> [] -> StronglySorted (out_before cmp) outs /\ Forall (fun o => out_entries o <> []) outs /\ outs <> [].
Proof.
  intros Hrun HF Hn. destruct (run_span_written cmp TO j target part inputs lower upper outs Hrun HF) as (ws & Hw & Eo).
  destruct (written_disjoint cmp TO target part (retained_fragments cmp j (covering_of cmp j lower upper)) (snd (span_edges lower upper)) ws Hw) as [Hsep Hfull].
  cbv zeta in Hsep, Hfull. rewrite <- Eo in Hsep, Hfull. conj_split; [done| |by destruct outs].
  destruct Hfull as [|(o & -> & E)]; [done|]. unfold entries_of in Hn. cbn in Hn. by rewrite E in Hn.
Qed.

(** Outputs whose entries follow the key stand after it, and so does what follows them in the level. *)
Lemma outputs_after checksum `{Codecs} xxh3 {F} bloom_sizing (opts : WriterOptions F) cmp `{!TotalOrder cmp} outs tables left right k :
  StronglySorted (out_before cmp) outs -> Forall (fun o => out_entries o <> []) outs -> outs <> [] ->
  Forall2 (output_table checksum xxh3 bloom_sizing opts) outs tables ->
  (forall e, e ∈ entries_of outs -> klt cmp k (e_key e)) -> level_ok cmp (left ++ tables ++ right) ->
  forall t, t ∈ tables ++ right -> klt cmp k (min_key (t_meta t)).
Proof.
  intros Hs HF Hn Ht Hk Hl. rewrite Forall_forall in HF.
  assert (forall t, t ∈ tables -> klt cmp k (min_key (t_meta t))) as Htab.
  { intros t (i & Hi)%list_elem_of_lookup. destruct (Forall2_lookup_r _ _ _ _ _ Ht Hi) as (o & Ho%list_elem_of_lookup_2 & Hot).
    destruct (full_bounds checksum xxh3 bloom_sizing opts o t Hot (HF o Ho)) as (a & _ & _ & _ & Ha & _ & -> & _).
    apply Hk, elem_of_concat_map. by exists o. }
  intros t [H1|H1]%elem_of_app; [by apply Htab|]. destruct outs as [|o outs]; [done|]. apply Forall2_cons_inv_l in Ht as (t0 & ts & _ & _ & E).
  specialize (Htab t0 ltac:(rewrite E; left)).
  pose proof (lo_bounds _ _ Hl t0 ltac:(rewrite E, !elem_of_app; right; left; left)) as Hb.
  pose proof (lo_sorted _ _ Hl) as Hso. rewrite app_assoc in Hso. apply StronglySorted_app in Hso as (Hso & _).
  specialize (Hso t0 t ltac:(rewrite E, elem_of_app; right; left) H1). korder.
Qed.

(** C31: a range delete that a compaction keeps and that reaches a key before the first key of the span's
    outputs is not seen by a point read of the key.  The first output owns its interval from the lower edge of
    the span, so its fragments begin before its first key; the read looks into the table of the level whose
    bounds hold the key and the table to the left of it.  Whatever the writer recorded of the outputs and
    wherever they stand in the level, the read is the one of a family whose level ends before them: it
    finds an older value below, where the newest of all the versions stored for the key is the delete. *)
Theorem tombstone_before_first_key_missed checksum `{Codecs} xxh3 {F} bloom_sizing (opts : WriterOptions F) cmp (TO : TotalOrder cmp)
    j target part inputs lower upper outs tables mem imms l0 above left right below op ee k x rs now :
  job_ok cmp j inputs -> run_span cmp j target part inputs lower upper = Some (Ok outs) ->
  Forall2 (output_table checksum xxh3 bloom_sizing opts) outs tables ->
  entries_of outs <> [] -> (forall e, e ∈ entries_of outs -> klt cmp k (e_key e)) ->
  in_span cmp lower upper k -> span_at cmp (j_ranges j) k x -> j_oldest j < x -> x <= rs ->
  level_ok cmp (left ++ tables ++ right) -> (forall t, t ∈ left -> klt cmp (max_key (t_meta t)) k) ->
  let levels := l0 :: above ++ (left ++ tables ++ right) :: below in
  consistent (stored_versions cmp mem imms levels k rs now) ->
  (forall v, v ∈ stored_versions cmp mem imms levels k rs now -> cv_seq v <= x) ->
  read_all op k (stored_versions cmp mem imms levels k rs now) = Err NotFound /\
  get_impl cmp op ee (point_read_sources cmp mem imms levels k) k rs now =
  get_impl cmp op ee (point_read_sources cmp mem imms (l0 :: above ++ left :: below) k) k rs now.
Proof.
  intros Hok Hrun Ht Hne Hk Hin Hsp Hold Hrs Hl Hleft levels Hc Hm. split.
  - destruct (run_span_key cmp j inputs lower upper k Hok Hin target part outs Hrun) as (c0 & drop & u & p & wg & fw & Hko).
    assert (frag_at cmp (frags_of outs) k x) as (f & Hf & Hat) by (apply (ko_frags _ _ _ _ _ _ _ _ _ _ _ Hko); by left).
    apply elem_of_concat_map in Hf as (o & (i & Ho)%list_elem_of_lookup & Hf).
    destruct (Forall2_lookup_l _ _ _ _ _ Ht Ho) as (t & Hti & (_ & E & _)%output_table_meta).
    destruct (read_all_newest op k _ (mkCV x false None) Hc) as (_ & _ & ->); [|done|done].
    apply (stored_tombstone cmp mem imms levels (left ++ tables ++ right) t); [| | |done].
    + unfold levels. rewrite elem_of_cons, elem_of_app, elem_of_cons. auto.
    + rewrite !elem_of_app. right. left. by eapply list_elem_of_lookup_2.
    + exists f. by rewrite E.
  - assert (forall t, t ∈ tables ++ right -> klt cmp k (min_key (t_meta t))) as Hr.
    { destruct (span_full cmp j target part inputs lower upper outs Hrun (jo_sorted _ _ _ Hok) Hne) as (Hsep & Hfull & Hn). by eapply outputs_after. }
    assert (level_ok cmp (left ++ [])) as Hl' by (rewrite app_nil_r; by eapply level_ok_prefix).
    destruct (skip_right cmp k left (tables ++ right) Hl Hleft Hr) as [E1 E2].
    destruct (skip_right cmp k left [] Hl' Hleft) as [E3 E4]; [intros t Hn; by apply elem_of_nil in Hn|]. rewrite app_nil_r in E3, E4.
    unfold levels, point_read_sources. cbn [hd tl]. rewrite !map_app. cbn [map]. by rewrite E1, E2, E3, E4.
Qed.

(** A span whose range delete reaches from before its only entry, as it is written and recorded; an older value lies below. *)
Definition early_job : FrozenJob := sample_job false [mkSpan [x61] [x63] 17].
Definition early_inputs : list Iter := [mkIter [put_entry [x62] 18 [x32]] None].
Definition early_output : Output := mkOutput [put_entry [x62] 18 [x32]] [mkFragment [x61] [x63] [17]] None.
Definition early_table : Table :=
  let m := match write_table (H := plain_codecs) (fun _ => 0) zlen (fun n (_ : unit) => (10 * n, 4)) sample_options
                   (out_entries early_output) (out_frags early_output) with
           | Ok w => output_meta (tf_meta w) 1 1 None None None
           | Err _ => meta_of 1 0 [] [] 0 None
           end in
  mkTable m (out_entries early_output) (fun _ => true) (out_frags early_output).
Definition early_below : Table := mkTable (meta_of 2 3 [x61] [x61] 0 None) [put_entry [x61] 3 [x31]] (fun _ => true) [].

Lemma early_job_ok : job_ok Bytewise early_job early_inputs.
Proof.
  constructor.
  - unfold early_inputs, run_sorted. sorted_runs; (by left) || (by right).
  - intros e He. cbn in He. elems; vm_compute; congruence.
  - intros e e' He He'. cbn in He, He'. elems; done.
  - intros e sp He Hsp. cbn in He, Hsp. elems; done.
  - intros e He. cbn in He. elems; done.
  - intros f [= <-]. apply concat_op_assoc.
Qed.

Lemma early_output_table : output_table (H := plain_codecs) (fun _ => 0) zlen (fun n (_ : unit) => (10 * n, 4)) sample_options early_output early_table.
Proof. eexists _, 1, 1, None, None. conj_split; [vm_compute; reflexivity|vm_compute; reflexivity|done|done]. Qed.

Lemma early_run : run_span Bytewise early_job 1 None early_inputs Unbounded Unbounded = Some (Ok [early_output]).
Proof. vm_compute. reflexivity. Qed.

Lemma early_level : level_ok Bytewise [early_table].
Proof.
  eapply (outputs_form_level (fun _ => 0) zlen (fun n (_ : unit) => (10 * n, 4)) sample_options Bytewise _ early_job 1 None early_inputs Unbounded Unbounded);
    [apply early_run|apply (jo_sorted _ _ _ early_job_ok)|constructor; [apply early_output_table|constructor]].
Qed.

Lemma tombstone_before_first_key_missed_witness :
  let levels := [[]; [early_table]; [early_below]] in
  let empty := mkMem [] set_new in
  read_all None [x61] (stored_versions Bytewise empty [] levels [x61] 30 0) = Err NotFound /\
  get_impl Bytewise None true (point_read_sources Bytewise empty [] levels [x61]) [x61] 30 0 = Ok [x31].
Proof.
  intros levels empty.
  destruct (tombstone_before_first_key_missed (H := plain_codecs) (fun _ => 0) zlen (fun n (_ : unit) => (10 * n, 4)) sample_options Bytewise _
    early_job 1 None early_inputs Unbounded Unbounded [early_output] [early_table] empty [] [] [] [] [] [[early_below]] None true [x61] 17 30 0) as [E1 E2].
  - apply early_job_ok.
  - apply early_run.
  - constructor; [apply early_output_table|constructor].
  - done.
  - intros e He. cbn in He. elems. by vm_compute.
  - by vm_compute.
  - exists (mkSpan [x61] [x63] 17). conj_split; [left|by vm_compute..].
  - by vm_compute.
  - by vm_compute.
  - apply early_level.
  - intros t Ht. by apply elem_of_nil in Ht.
  - apply NoDup_consistent. vm_compute. repeat constructor; intros Hn; elems; discriminate.
  - intros v Hv. vm_compute in Hv. inversion Hv as [|? ? ? H1]; subst; [done|]. inversion H1 as [|? ? ? H2]; subst; [done|inversion H2].
  - split; [exact E1|]. etransitivity; [exact E2|]. vm_compute. reflexivity.
Defined.
