(* ===== verification/Txn.v ===== *)
(** * The write buffer of a transaction (txn.rs)

    A transaction buffers its writes in an arena, reads them back before the
    store, can be rolled back to a savepoint, and commits them in an order of
    one sequence per record.  This file models the buffer of an optimistic
    transaction: its operations, the index a large buffer is read through, the
    savepoints, the read set, the order in which a commit writes, and the
    records the commit hands to the families.  Taking point locks first
    (pessimistic transactions) is the lock table's; conflict validation against
    the store and the prepared transactions are not modelled here. *)

From Stdlib Require Import ZArith Lia Sorted.
From Stdlib.Strings Require Import Byte.
From stdpp Require Import base gmap list sets sorting.
From S2P Require Import Prelude Encoding Codec Comparator Format RangeTombstone Wal Manifest ReadPath Compaction.

Open Scope Z_scope.

(** ** The arena and its entries *)

Definition BufRange : Type := nat * nat.

Definition buf_slice (buf : list byte) (r : BufRange) : list byte := take (snd r) (drop (fst r) buf).

(** What the buffer uses of a column family; [f_id] is its identity. *)
Record Family := mkFamily {
  f_id : Z;
  f_cmp : Comparator;
  f_merge : option MergeOp;
  f_merge_writes : bool;
}.

Record WriteEntry := mkWrite {
  w_cf : Family;
  w_key : BufRange;
  w_value : BufRange;
  w_ttl : Z;
  w_kind : Z;
}.

Definition w_tombstone (w : WriteEntry) : bool := (w_kind w =? KIND_DELETE) || (w_kind w =? KIND_SINGLE_DELETE).
Definition w_is_merge (w : WriteEntry) : bool := w_kind w =? KIND_MERGE.
Definition w_is_range (w : WriteEntry) : bool := w_kind w =? KIND_RANGE_DELETE.

Definition I64_MAX : Z := 2 ^ 63 - 1.

(** [as i64]: the low 64 bits, as a signed number. *)
Definition as_i64 (x : Z) : Z := let m := x mod 2 ^ 64 in if m <? 2 ^ 63 then m else m - 2 ^ 64.

Definition saturating_add_i64 (a b : Z) : Z := Z.max (- 2 ^ 63) (Z.min I64_MAX (a + b)).

(** The absolute expiry of a duration of [nanos], at time [now]. *)
Definition ttl_to_abs (now_ nanos : Z) : Z :=
  if nanos =? 0 then 0 else saturating_add_i64 now_ (as_i64 nanos).

(** ** The index *)

Record WriteIndex := mkIndex { newest : gmap Z nat; prev : list (option nat) }.

Inductive TxnState := Active | Finished | Prepared.
Inductive IsolationLevel := ReadUncommitted | ReadCommitted | RepeatableRead | Snapshot_ | Serializable.

#[export] Instance TxnState_eq_dec : EqDecision TxnState.
Proof. solve_decision. Defined.
#[export] Instance IsolationLevel_eq_dec : EqDecision IsolationLevel.
Proof. solve_decision. Defined.

Record Txn := mkTxn {
  isolation : IsolationLevel;
  read_seq : Z;
  fixed : bool;
  buf : list byte;
  writes : list WriteEntry;
  write_index : option WriteIndex;
  write_index_min : nat;
  range_writes : list nat;
  read_set : gset (Z * list byte);
  read_log : list (Z * list byte);
  read_cfs : gset Z;
  savepoints : list (list byte * nat * nat * nat);
  state : TxnState;
}.

Section Index.
(** The third-party hash of a family's identity and a key. *)
Context (write_hash : Z -> list byte -> Z).

Definition hash_of (b : list byte) (w : WriteEntry) : Z := write_hash (f_id (w_cf w)) (buf_slice b (w_key w)).

Definition index_push (b : list byte) (w : WriteEntry) (ix : WriteIndex) : WriteIndex :=
  if w_is_range w then mkIndex (newest ix) (prev ix ++ [None])
  else mkIndex (<[hash_of b w := length (prev ix)]> (newest ix)) (prev ix ++ [newest ix !! hash_of b w]).

Definition index_build (b : list byte) (ws : list WriteEntry) : WriteIndex :=
  fold_left (fun ix w => index_push b w ix) ws (mkIndex ∅ []).

(** One round of [truncate]: forget the write at [at_]. *)
Definition index_unwind (b : list byte) (ws : list WriteEntry) (m : gmap Z nat) (prevs : list (option nat)) (at_ : nat)
    : gmap Z nat :=
  match ws !! at_ with
  | Some w =>
      if w_is_range w then m
      else match prevs !! at_ with
           | Some (Some p) => <[hash_of b w := p]> m
           | _ => delete (hash_of b w) m
           end
  | None => m
  end.

Definition index_truncate (b : list byte) (ws : list WriteEntry) (len : nat) (ix : WriteIndex) : WriteIndex :=
  mkIndex
    (fold_left (fun m at_ => index_unwind b ws m (prev ix) at_)
       (rev (List.seq len (length (prev ix) - len))) (newest ix))
    (take len (prev ix)).

(** The positions a walk visits from [at_]; a position is above its [prev]. *)
Fixpoint walk_prev (prevs : list (option nat)) (fuel : nat) (at_ : option nat) : list nat :=
  match fuel, at_ with
  | S fuel, Some i => i :: walk_prev prevs fuel (mjoin (prevs !! i))
  | _, _ => []
  end.

Definition index_chain (ix : WriteIndex) (h : Z) : list nat :=
  walk_prev (prev ix) (S (length (prev ix))) (newest ix !! h).

(** ** Buffering *)

Definition with_writes (t : Txn) (b : list byte) (ws : list WriteEntry) (ix : option WriteIndex) (rs : list nat) : Txn :=
  mkTxn (isolation t) (read_seq t) (fixed t) b ws ix (write_index_min t) rs (read_set t) (read_log t) (read_cfs t)
    (savepoints t) (state t).

Definition push_write (w : WriteEntry) (t : Txn) : Txn :=
  with_writes t (buf t) (writes t ++ [w])
    (match write_index t with Some ix => Some (index_push (buf t) w ix) | None => None end)
    (if w_is_range w then range_writes t ++ [length (writes t)] else range_writes t).

(** Key and value (or the two bounds of a range) go to the arena back to back. *)
Definition buffer (cf : Family) (k v : list byte) (ttl kind : Z) (t : Txn) : Txn :=
  let koff := length (buf t) in
  let b := buf t ++ k in
  let voff := length b in
  let b := b ++ v in
  push_write (mkWrite cf (koff, length k) (voff, length v) ttl kind)
    (with_writes t b (writes t) (write_index t) (range_writes t)).

Definition check_active (t : Txn) : result unit := guard (bool_decide (state t = Active)) InvalidArgs.

Definition txn_put (cf : Family) (k v : list byte) (now_ nanos : Z) (t : Txn) : result Txn :=
  let? _ := check_active t in Ok (buffer cf k v (ttl_to_abs now_ nanos) KIND_PUT t).

Definition txn_delete (cf : Family) (k : list byte) (t : Txn) : result Txn :=
  let? _ := check_active t in Ok (buffer cf k [] 0 KIND_DELETE t).

Definition txn_single_delete (cf : Family) (k : list byte) (t : Txn) : result Txn :=
  let? _ := check_active t in Ok (buffer cf k [] 0 KIND_SINGLE_DELETE t).

Definition txn_merge (cf : Family) (k operand : list byte) (t : Txn) : result Txn :=
  let? _ := check_active t in
  ensure? (if f_merge cf is Some _ then true else false) else InvalidArgs ;;
  ensure? f_merge_writes cf else ReadOnly ;;
  Ok (buffer cf k operand 0 KIND_MERGE t).

Definition validate_range_bounds (caps_ : Z) (cf : Family) (start end_ : list byte) : result unit :=
  ensure? negb (Z.land caps_ CAP_RANGE_DELETES =? 0) else InvalidArgs ;;
  ensure? negb ((length start =? 0)%nat || (length end_ =? 0)%nat) else InvalidArgs ;;
  ensure? is_lt (compare (f_cmp cf) start end_) else InvalidArgs ;;
  Ok tt.

Definition txn_delete_range (caps_ : Z) (cf : Family) (start end_ : list byte) (t : Txn) : result Txn :=
  let? _ := check_active t in
  let? _ := validate_range_bounds caps_ cf start end_ in
  Ok (buffer cf start end_ 0 KIND_RANGE_DELETE t).

(** ** Reading the buffer *)

Definition ensure_write_index (t : Txn) : Txn :=
  match write_index t with
  | None =>
      if (write_index_min t <=? length (writes t))%nat
      then with_writes t (buf t) (writes t) (Some (index_build (buf t) (writes t))) (range_writes t)
      else t
  | Some _ => t
  end.

Definition matches (b : list byte) (i : Z) (k : list byte) (w : WriteEntry) : bool :=
  negb (w_is_range w) && (f_id (w_cf w) =? i) && bool_decide (buf_slice b (w_key w) = k).

Definition at_pos {A} (p : A -> bool) (l : list A) (at_ : nat) : bool :=
  match l !! at_ with Some x => p x | None => false end.

(** [Iterator::rposition]. *)
Definition rposition {A} (p : A -> bool) (l : list A) : option nat :=
  List.find (at_pos p l) (rev (List.seq 0 (length l))).

Definition newest_point_write (t : Txn) (i : Z) (k : list byte) : option nat :=
  match write_index t with
  | Some ix => List.find (at_pos (matches (buf t) i k) (writes t)) (index_chain ix (write_hash i k))
  | None => rposition (matches (buf t) i k) (writes t)
  end.

Definition buffered_ranges (t : Txn) : list (Family * list byte * list byte) :=
  omap (fun at_ => match writes t !! at_ with
                   | Some w => Some (w_cf w, buf_slice (buf t) (w_key w), buf_slice (buf t) (w_value w))
                   | None => None
                   end) (range_writes t).

Definition range_covers (cmp : Comparator) (start end_ k : list byte) : bool :=
  is_le (compare cmp start k) && is_gt (compare cmp end_ k).

Definition own_range_covers (t : Txn) (cf : Family) (k : list byte) : bool :=
  existsb (fun '(c, start, end_) => (f_id c =? f_id cf) && range_covers (f_cmp cf) start end_ k) (buffered_ranges t).

Definition check_own_range_overlap (t : Txn) : result unit :=
  guard (forallb (fun w =>
           w_is_range w ||
           negb (existsb (fun '(c, start, end_) =>
                   (f_id c =? f_id (w_cf w)) && range_covers (f_cmp (w_cf w)) start end_ (buf_slice (buf t) (w_key w)))
                 (buffered_ranges t))) (writes t)) InvalidArgs.

Record BufferedChain := mkChain { bc_base : option (option (list byte)); bc_operands : list (list byte) }.

(** The base a write is: its value, or none for a delete. *)
Definition base_of (b : list byte) (w : WriteEntry) : option (list byte) :=
  if w_tombstone w then None else Some (buf_slice b (w_value w)).

(** The forward scan of [buffered_chain]. *)
Fixpoint scan_chain (b : list byte) (i : Z) (k : list byte) (ws : list WriteEntry) (acc : option BufferedChain)
    : option BufferedChain :=
  match ws with
  | [] => acc
  | w :: ws =>
      if negb (matches b i k w) then scan_chain b i k ws acc
      else
        let c := default (mkChain None []) acc in
        scan_chain b i k ws
          (Some (if w_is_merge w then mkChain (bc_base c) (bc_operands c ++ [buf_slice b (w_value w)])
                 else mkChain (Some (base_of b w)) []))
  end.

(** The backward walk of [indexed_chain]: operands newest first, up to the base. *)
Fixpoint chain_loop (b : list byte) (ws : list WriteEntry) (i : Z) (k : list byte) (ats : list nat) (seen : bool)
    (ops : list (list byte)) : bool * option (option (list byte)) * list (list byte) :=
  match ats with
  | [] => (seen, None, ops)
  | at_ :: ats =>
      match ws !! at_ with
      | Some w =>
          if negb ((f_id (w_cf w) =? i) && bool_decide (buf_slice b (w_key w) = k)) then chain_loop b ws i k ats seen ops
          else if w_is_merge w then chain_loop b ws i k ats true (ops ++ [buf_slice b (w_value w)])
          else (true, Some (base_of b w), ops)
      | None => (seen, None, ops)
      end
  end.

Definition indexed_chain (t : Txn) (ix : WriteIndex) (i : Z) (k : list byte) : option BufferedChain :=
  let '(seen, base, ops) := chain_loop (buf t) (writes t) i k (index_chain ix (write_hash i k)) false [] in
  if seen then Some (mkChain base (rev ops)) else None.

Definition buffered_chain (t : Txn) (i : Z) (k : list byte) : option BufferedChain :=
  match write_index t with
  | Some ix => indexed_chain t ix i k
  | None => scan_chain (buf t) i k (writes t) None
  end.

(** ** Reads *)

Inductive PlannedRead := Buffered (r : BufRange) | Missing | Store (rs : Z).

Definition with_reads (t : Txn) (rs : gset (Z * list byte)) (log : list (Z * list byte)) (cfs_ : gset Z) : Txn :=
  mkTxn (isolation t) (read_seq t) (fixed t) (buf t) (writes t) (write_index t) (write_index_min t) (range_writes t)
    rs log cfs_ (savepoints t) (state t).

(** The sequence to read the store at; [floor] is the database's read floor. *)
Definition note_store_read (t : Txn) (cf : Family) (k : list byte) (floor : Z) : Z * Txn :=
  (if fixed t then read_seq t else floor,
   if bool_decide (isolation t = Serializable) then
     with_reads t ({[(f_id cf, k)]} ∪ read_set t)
       (if bool_decide ((f_id cf, k) ∈ read_set t) then read_log t else read_log t ++ [(f_id cf, k)])
       ({[f_id cf]} ∪ read_cfs t)
   else t).

Definition plan_point_read (t : Txn) (cf : Family) (k : list byte) (floor : Z) : PlannedRead * Txn :=
  match newest_point_write t (f_id cf) k ≫= fun at_ => writes t !! at_ with
  | Some w => (if w_tombstone w then Missing else Buffered (w_value w), t)
  | None =>
      if own_range_covers t cf k then (Missing, t)
      else let '(rs, t) := note_store_read t cf k floor in (Store rs, t)
  end.

(** Only called with an operator; the source unwraps it. *)
Definition fold_buffered (cf : Family) (k : list byte) (committed : option (list byte)) (operands : list (list byte))
    : result (list byte) :=
  match f_merge cf with Some op => full_merge op k committed operands | None => Err Unknown end.

(** [store rs] is what the family answers for the key at [rs]. *)
Definition txn_get (t : Txn) (cf : Family) (k : list byte) (floor : Z) (store : Z -> result (list byte))
    : result (list byte) * Txn :=
  let t := ensure_write_index t in
  let plain t :=
    match plan_point_read t cf k floor with
    | (Buffered r, t) => (Ok (buf_slice (buf t) r), t)
    | (Missing, t) => (Err NotFound, t)
    | (Store rs, t) => (store rs, t)
    end in
  match f_merge cf with
  | None => plain t
  | Some _ =>
      match buffered_chain t (f_id cf) k with
      | None => plain t
      | Some c =>
          match bc_operands c, bc_base c with
          | [], Some (Some v) => (Ok v, t)
          | [], _ => (Err NotFound, t)
          | ops, Some base => (fold_buffered cf k base ops, t)
          | ops, None =>
              let '(rs, t) := note_store_read t cf k floor in
              (match store rs with
               | Ok v => fold_buffered cf k (Some v) ops
               | Err NotFound => fold_buffered cf k None ops
               | Err e => Err e
               end, t)
          end
      end
  end.

(** ** Savepoints *)

Definition with_savepoints (t : Txn) (sp : list (list byte * nat * nat * nat)) : Txn :=
  mkTxn (isolation t) (read_seq t) (fixed t) (buf t) (writes t) (write_index t) (write_index_min t) (range_writes t)
    (read_set t) (read_log t) (read_cfs t) sp (state t).

Definition set_savepoint (name : list byte) (t : Txn) : Txn :=
  with_savepoints t (savepoints t ++ [(name, length (writes t), length (buf t), length (read_log t))]).

Definition sp_named (name : list byte) (sp : list byte * nat * nat * nat) : bool :=
  let '(n, _, _, _) := sp in bool_decide (n = name).

Definition rollback_to_savepoint (name : list byte) (t : Txn) : result Txn :=
  let? pos := ok_or (rposition (sp_named name) (savepoints t)) InvalidArgs in
  match savepoints t !! pos with
  | Some (_, wlen, blen, rlen) =>
      let ix := match write_index t with
                | Some ix => Some (index_truncate (buf t) (writes t) wlen ix)
                | None => None
                end in
      let ranges_kept := partition_point (fun at_ => (at_ <? wlen)%nat) (range_writes t) in
      let rs := fold_left (fun rs r => rs ∖ {[r]}) (drop rlen (read_log t)) (read_set t) in
      let live : gset Z := list_to_set (map fst (elements rs)) in
      Ok (mkTxn (isolation t) (read_seq t) (fixed t) (take blen (buf t)) (take wlen (writes t)) ix (write_index_min t)
            (take ranges_kept (range_writes t)) rs (take rlen (read_log t)) (read_cfs t ∩ live)
            (take (S pos) (savepoints t)) (state t))
  | None => Err InvalidArgs
  end.

Definition release_savepoint (name : list byte) (t : Txn) : result Txn :=
  let? pos := ok_or (rposition (sp_named name) (savepoints t)) InvalidArgs in
  Ok (with_savepoints t (take pos (savepoints t))).

(** ** The order of a commit *)

Definition slot_key (b : list byte) (w : WriteEntry) : Z * list byte := (f_id (w_cf w), buf_slice b (w_key w)).

(** [iter().enumerate()]. *)
Definition enumerate {A} (l : list A) : list (nat * A) := imap pair l.

Definition merge_order_step (b : list byte) (st : gmap (Z * list byte) nat * list (list nat)) (iw : nat * WriteEntry)
    : gmap (Z * list byte) nat * list (list nat) :=
  let '(slot_of, runs) := st in
  let '(index, w) := iw in
  match slot_of !! slot_key b w with
  | None => (<[slot_key b w := length runs]> slot_of, runs ++ [[index]])
  | Some slot => (slot_of, alter (fun run => if w_is_merge w then run ++ [index] else [index]) slot runs)
  end.

Definition merge_aware_write_order (t : Txn) : list nat :=
  concat (snd (fold_left (merge_order_step (buf t)) (enumerate (writes t)) (∅, []))).

Definition dedup_order_step (b : list byte) (st : gmap (Z * list byte) nat * list nat) (iw : nat * WriteEntry)
    : gmap (Z * list byte) nat * list nat :=
  let '(slot_of, order) := st in
  let '(index, w) := iw in
  if w_is_range w then (slot_of, order ++ [index])
  else match slot_of !! slot_key b w with
       | None => (<[slot_key b w := length order]> slot_of, order ++ [index])
       | Some slot => (slot_of, <[slot := index]> order)
       end.

Definition deduplicated_write_order (t : Txn) : list nat :=
  if (length (writes t) =? 1)%nat then [0%nat]
  else if existsb w_is_merge (writes t) then merge_aware_write_order t
  else snd (fold_left (dedup_order_step (buf t)) (enumerate (writes t)) (∅, [])).

(** ** What a commit hands to the families *)

Inductive CommitRecord := PointRec (e : Entry) | RangeRec (s : Span).

Definition record_of (b : list byte) (w : WriteEntry) (seq : Z) : CommitRecord :=
  if w_is_range w then RangeRec (mkSpan (buf_slice b (w_key w)) (buf_slice b (w_value w)) seq)
  else PointRec (mkEntry (buf_slice b (w_key w)) seq (w_kind w) (w_ttl w) (buf_slice b (w_value w)) true).

(** The records of [apply_prepared], each with its family, at [start + slot]. *)
Definition apply_prepared (t : Txn) (order : list nat) (start : Z) : list (Z * CommitRecord) :=
  omap (fun '(slot, index) =>
          match writes t !! index with
          | Some w => Some (f_id (w_cf w), record_of (buf t) w (start + Z.of_nat slot))
          | None => None
          end) (enumerate order).

(** The group of one family: its points and its ranges. *)
Definition group_points (recs : list (Z * CommitRecord)) (i : Z) : list Entry :=
  omap (fun '(j, r) => match r with PointRec e => if j =? i then Some e else None | RangeRec _ => None end) recs.
Definition group_ranges (recs : list (Z * CommitRecord)) (i : Z) : list Span :=
  omap (fun '(j, r) => match r with RangeRec s => if j =? i then Some s else None | PointRec _ => None end) recs.
End Index.

(** * Positions *)

Definition positions {A} (p : A -> bool) (l : list A) : list nat :=
  List.filter (at_pos p l) (List.seq 0 (length l)).

Lemma at_pos_app {A} (p : A -> bool) l l' i : (i < length l)%nat -> at_pos p (l ++ l') i = at_pos p l i.
Proof. intros H. unfold at_pos. by rewrite lookup_app_l. Qed.

Lemma at_pos_snoc {A} (p : A -> bool) l x : at_pos p (l ++ [x]) (length l) = p x.
Proof. unfold at_pos. by rewrite list_lookup_middle. Qed.

Lemma filter_at_pos_app {A} (p : A -> bool) l l' ats :
  Forall (fun i => i < length l)%nat ats -> List.filter (at_pos p (l ++ l')) ats = List.filter (at_pos p l) ats.
Proof.
  intros H. apply filter_ext_in. intros i Hi. apply at_pos_app. rewrite List.Forall_forall in H. by apply H.
Qed.

Lemma positions_snoc {A} (p : A -> bool) l x :
  positions p (l ++ [x]) = positions p l ++ (if p x then [length l] else []).
Proof.
  unfold positions. rewrite length_app, seq_app, List.filter_app. cbn [length List.seq List.filter Nat.add].
  rewrite at_pos_snoc. rewrite filter_at_pos_app; [by destruct (p x)|].
  apply List.Forall_forall. intros i Hi. apply in_seq in Hi. lia.
Qed.

Lemma positions_lt {A} (p : A -> bool) l : Forall (fun i => i < length l)%nat (positions p l).
Proof.
  apply List.Forall_forall. intros i Hi. apply filter_In in Hi as [Hi _]. apply in_seq in Hi. lia.
Qed.

Lemma positions_ext {A} (p q : A -> bool) l : Forall (fun x => p x = q x) l -> positions p l = positions q l.
Proof.
  intros H. apply filter_ext_in. intros i _. unfold at_pos. destruct (l !! i) as [x|] eqn:E; [|done].
  by apply (Forall_lookup_1 _ _ _ _ H E).
Qed.

(** Positions are in order: those below a bound are the positions of the prefix. *)
Lemma positions_partition {A} (p : A -> bool) l n :
  (n <= length l)%nat -> take (partition_point (fun at_ => (at_ <? n)%nat) (positions p l)) (positions p l) = positions p (take n l).
Proof.
  intros Hn. assert (exists l', l = take n l ++ l') as [l' E] by (exists (drop n l); by rewrite take_drop).
  rewrite E at 1 2. assert (length (take n l) = n) as Hl by (rewrite length_take; lia).
  clear E Hn. revert Hl. generalize (take n l) as l0. clear l. intros l Hl.
  assert (forall l', exists ps, positions p (l ++ l') = positions p l ++ ps /\ Forall (fun i => n <= i)%nat ps) as H.
  { clear l'. intros l'. induction l' as [|x l' IH] using rev_ind.
    - exists []. by rewrite !app_nil_r.
    - destruct IH as (ps & E & H). rewrite app_assoc, positions_snoc, E.
      exists (ps ++ if p x then [length (l ++ l')] else []). split; [by rewrite app_assoc|].
      apply Forall_app. split; [done|]. destruct (p x); [|constructor]. repeat constructor. rewrite length_app. lia. }
  destruct (H l') as (ps & -> & Hps).
  assert (partition_point (fun at_ => (at_ <? n)%nat) (positions p l ++ ps) = length (positions p l)) as ->;
    [|by apply take_app_exact].
  apply partition_point_unique.
  - rewrite length_app. lia.
  - intros j i Hj Hi. rewrite lookup_app_l in Hi by done. pose proof (positions_lt p l) as Hlt. rewrite Hl in Hlt.
    apply Nat.ltb_lt. by apply (Forall_lookup_1 _ _ _ _ Hlt Hi).
  - intros i Hi. rewrite lookup_app_r, Nat.sub_diag in Hi by done.
    apply Nat.ltb_ge. by apply (Forall_lookup_1 _ _ _ _ Hps Hi).
Qed.

Lemma rposition_positions {A} (p : A -> bool) l : rposition p l = last (positions p l).
Proof.
  unfold rposition, positions. generalize (List.seq 0 (length l)) as ats. intros ats.
  induction ats as [|i ats IH] using rev_ind; [done|]. rewrite rev_app_distr, List.filter_app. cbn.
  destruct (at_pos p l i); [by rewrite last_snoc|]. by rewrite app_nil_r.
Qed.

Lemma rposition_Some {A} (p : A -> bool) l i :
  rposition p l = Some i -> exists x, l !! i = Some x /\ p x = true.
Proof.
  unfold rposition. intros H. apply find_some in H as [_ H]. unfold at_pos in H.
  destruct (l !! i) as [x|]; [eauto|done].
Qed.

Lemma rposition_exists {A} (p : A -> bool) l x :
  x ∈ l -> p x = true -> exists i y, rposition p l = Some i /\ l !! i = Some y /\ p y = true.
Proof.
  intros Hx Hp. destruct (rposition p l) as [i|] eqn:E.
  - exists i. apply rposition_Some in E as (y & ? & ?). eauto.
  - apply list_elem_of_lookup in Hx as [i Hi]. assert (at_pos p l i = true) as H by (unfold at_pos; by rewrite Hi).
    rewrite (find_none _ _ E i) in H; [done|]. rewrite <- in_rev. apply in_seq. apply lookup_lt_Some in Hi. lia.
Qed.

(** * The index is the positions of each hash *)

Section IndexFacts.
Context (write_hash : Z -> list byte -> Z).
#[local] Notation build := (index_build write_hash) (only parsing).

Definition hashed (b : list byte) (h : Z) (w : WriteEntry) : bool :=
  negb (w_is_range w) && (hash_of write_hash b w =? h).

Lemma build_snoc b ws w : build b (ws ++ [w]) = index_push write_hash b w (build b ws).
Proof. unfold index_build. by rewrite fold_left_app. Qed.

Lemma build_prev_length b ws : length (prev (build b ws)) = length ws.
Proof.
  induction ws as [|w ws IH] using rev_ind; [done|]. rewrite build_snoc. unfold index_push.
  destruct (w_is_range w); cbn [prev]; rewrite !length_app; cbn; lia.
Qed.

Lemma build_newest b ws h : newest (build b ws) !! h = last (positions (hashed b h) ws).
Proof.
  induction ws as [|w ws IH] using rev_ind; [apply lookup_empty|].
  rewrite build_snoc, positions_snoc. unfold index_push, hashed at 2.
  destruct (w_is_range w); cbn [newest negb andb]; [by rewrite app_nil_r|].
  rewrite build_prev_length. destruct (Z.eqb_spec (hash_of write_hash b w) h) as [<-|Hn].
  - by rewrite lookup_insert_eq, last_snoc.
  - by rewrite lookup_insert_ne, app_nil_r by done.
Qed.

(** A write points at the one before it with its hash. *)
Lemma build_prev b ws at_ w :
  ws !! at_ = Some w ->
  prev (build b ws) !! at_ =
  Some (if w_is_range w then None else last (positions (hashed b (hash_of write_hash b w)) (take at_ ws))).
Proof.
  induction ws as [|x ws IH] using rev_ind; [done|]. intros H. rewrite build_snoc.
  assert (forall m o, prev (mkIndex m (prev (build b ws) ++ [o])) = prev (build b ws) ++ [o]) as Hp by done.
  destruct (decide (at_ < length ws)%nat) as [Hlt|Hge].
  - rewrite lookup_app_l in H by done. rewrite take_app_le by lia. rewrite <- (IH H).
    unfold index_push. destruct (w_is_range x); rewrite Hp; apply lookup_app_l; by rewrite build_prev_length.
  - pose proof (lookup_lt_Some _ _ _ H) as Hlt. rewrite length_app in Hlt. cbn in Hlt.
    assert (at_ = length ws) as -> by lia. rewrite list_lookup_middle in H by done. simplify_eq.
    rewrite take_app_exact by done. unfold index_push. rewrite <- build_newest.
    destruct (w_is_range w); rewrite Hp; apply list_lookup_middle; by rewrite build_prev_length.
Qed.

Lemma positions_take_snoc {A} (p : A -> bool) l n i :
  last (positions p (take n l)) = Some i -> positions p (take n l) = positions p (take i l) ++ [i] /\ (i < n)%nat /\ at_pos p l i = true.
Proof.
  revert i. induction n as [|n IH]; intros i; [done|].
  destruct (l !! n) as [x|] eqn:E.
  - rewrite (take_S_r _ _ _ E), positions_snoc. pose proof (lookup_lt_Some _ _ _ E) as Hlt.
    rewrite length_take, Nat.min_l by lia. destruct (p x) eqn:Ep.
    + rewrite last_snoc. intros [= <-]. split; [done|]. split; [lia|]. unfold at_pos. by rewrite E.
    + rewrite app_nil_r. intros H. destruct (IH i H) as (? & ? & ?). split; [done|]. split; [lia|done].
  - apply lookup_ge_None in E. rewrite !take_ge by lia. rewrite take_ge in IH by lia. intros H.
    destruct (IH i H) as (? & ? & ?). split; [done|]. split; [lia|done].
Qed.

Lemma walk_prev_positions b ws h n fuel :
  (n < fuel)%nat ->
  walk_prev (prev (build b ws)) fuel (last (positions (hashed b h) (take n ws))) = rev (positions (hashed b h) (take n ws)).
Proof.
  revert fuel. induction (lt_wf n) as [n _ IH]. intros fuel Hf. destruct fuel as [|fuel]; [lia|].
  destruct (last (positions (hashed b h) (take n ws))) as [i|] eqn:E; cbn [walk_prev].
  - apply positions_take_snoc in E as (-> & Hi & Hat). rewrite rev_app_distr. cbn [rev app]. f_equal.
    unfold at_pos in Hat. destruct (ws !! i) as [w|] eqn:Ew; [|done]. rewrite (build_prev b ws i w Ew).
    apply andb_prop in Hat as [Hr Hh]. apply negb_true_iff in Hr as ->. apply Z.eqb_eq in Hh as ->.
    cbn [mjoin option_join]. apply IH; lia.
  - destruct (positions (hashed b h) (take n ws)) as [|y l] eqn:El; [done|].
    by apply last_None in E.
Qed.

Lemma index_chain_build b ws h : index_chain (build b ws) h = rev (positions (hashed b h) ws).
Proof.
  unfold index_chain. rewrite build_newest. pose proof (walk_prev_positions b ws h (length ws)) as H.
  rewrite firstn_all in H. apply H. rewrite build_prev_length. lia.
Qed.

(** ** Truncating is rebuilding *)

Lemma unwind_snoc b ws w :
  index_unwind write_hash b (ws ++ [w]) (newest (build b (ws ++ [w]))) (prev (build b (ws ++ [w]))) (length ws) =
  newest (build b ws).
Proof.
  unfold index_unwind. rewrite list_lookup_middle by done. rewrite build_prev with (w := w) by by rewrite list_lookup_middle.
  rewrite build_snoc. unfold index_push. destruct (w_is_range w) eqn:Er; [done|]. cbn [newest].
  rewrite take_app_exact, <- build_newest by done.
  destruct (newest (build b ws) !! hash_of write_hash b w) as [p|] eqn:E.
  - rewrite insert_insert_eq. by apply insert_id.
  - by rewrite delete_insert_id.
Qed.

Lemma unwind_app b ws ws' ps ps' m at_ :
  (at_ < length ws)%nat -> length ws = length ps ->
  index_unwind write_hash b (ws ++ ws') m (ps ++ ps') at_ = index_unwind write_hash b ws m ps at_.
Proof. intros H1 H2. unfold index_unwind. rewrite !lookup_app_l by lia. done. Qed.

Lemma build_prev_snoc b ws w : exists o, prev (build b (ws ++ [w])) = prev (build b ws) ++ [o].
Proof. rewrite build_snoc. unfold index_push. destruct (w_is_range w); cbn; eauto. Qed.

Lemma fold_unwind_app b ws w ps o ats m :
  length ws = length ps -> Forall (fun i => i < length ws)%nat ats ->
  fold_left (fun m at_ => index_unwind write_hash b (ws ++ [w]) m (ps ++ [o]) at_) ats m =
  fold_left (fun m at_ => index_unwind write_hash b ws m ps at_) ats m.
Proof.
  intros Hl HF. revert m. induction HF as [|i ats Hi HF IH]; intros m; cbn [fold_left]; [done|].
  by rewrite unwind_app, IH by done.
Qed.

Lemma truncate_build b ws len :
  (len <= length ws)%nat -> index_truncate write_hash b ws len (build b ws) = build b (take len ws).
Proof.
  induction ws as [|w ws IH] using rev_ind; intros Hl.
  - cbn in Hl. by replace len with 0%nat by lia.
  - rewrite length_app in Hl. cbn [length] in Hl. destruct (decide (len = length ws + 1)%nat) as [->|Hn].
    + rewrite take_ge by (rewrite length_app; cbn; lia). unfold index_truncate.
      rewrite build_prev_length, length_app, Nat.sub_diag. cbn [List.seq rev fold_left length].
      rewrite take_ge; [by destruct (build b (ws ++ [w]))|]. rewrite build_prev_length, length_app. cbn. lia.
    + rewrite take_app_le by lia. rewrite <- IH by lia. unfold index_truncate. rewrite !build_prev_length, length_app.
      cbn [length]. replace (length ws + 1 - len)%nat with (length ws - len + 1)%nat by lia.
      rewrite seq_app, rev_app_distr. cbn [List.seq rev app fold_left].
      replace (len + (length ws - len))%nat with (length ws) by lia. rewrite unwind_snoc.
      destruct (build_prev_snoc b ws w) as [o ->]. rewrite fold_unwind_app.
      * rewrite take_app_le; [done|]. rewrite build_prev_length. lia.
      * by rewrite build_prev_length.
      * apply Forall_rev. apply List.Forall_forall. intros i Hi. apply in_seq in Hi. lia.
Qed.

(** ** Reading through the index *)

Lemma matches_hashed b i k w : matches b i k w = true -> hashed b (write_hash i k) w = true.
Proof.
  unfold matches, hashed, hash_of. rewrite !andb_true_iff. intros [[H1 H2] H3]. split; [done|].
  apply Z.eqb_eq in H2. apply bool_decide_eq_true in H3. subst. apply Z.eqb_refl.
Qed.

Lemma find_filter {A} (p q : A -> bool) l :
  (forall x, p x = true -> q x = true) -> List.find p (List.filter q l) = List.find p l.
Proof.
  intros H. induction l as [|x l IH]; cbn; [done|]. destruct (q x) eqn:Eq; cbn; destruct (p x) eqn:Ep; auto.
  apply H in Ep. congruence.
Qed.

Lemma find_chain b ws i k :
  List.find (at_pos (matches b i k) ws) (index_chain (build b ws) (write_hash i k)) = rposition (matches b i k) ws.
Proof.
  rewrite index_chain_build. unfold positions, rposition. rewrite <- filter_rev. apply find_filter.
  intros at_. unfold at_pos. destruct (ws !! at_) as [w|]; [apply matches_hashed|done].
Qed.

Lemma chain_loop_acc b ws i k ats seen ops :
  chain_loop b ws i k ats seen ops =
  let '(s, base, o) := chain_loop b ws i k ats false [] in (seen || s, base, ops ++ o).
Proof.
  revert seen ops. induction ats as [|at_ ats IH]; intros seen ops; cbn; [by rewrite orb_false_r, app_nil_r|].
  destruct (ws !! at_) as [w|]; [|by rewrite orb_false_r, app_nil_r].
  destruct (negb _); [apply IH|]. destruct (w_is_merge w).
  - rewrite IH, (IH true [_]). destruct (chain_loop b ws i k ats false []) as [[s base] o].
    by rewrite orb_true_r, <- app_assoc.
  - by rewrite orb_true_r, app_nil_r.
Qed.

Lemma chain_loop_app b ws ws' i k ats seen ops :
  Forall (fun at_ => at_ < length ws)%nat ats ->
  chain_loop b (ws ++ ws') i k ats seen ops = chain_loop b ws i k ats seen ops.
Proof.
  intros HF. revert seen ops. induction HF as [|at_ ats Hat HF IH]; intros seen ops; cbn; [done|].
  rewrite lookup_app_l by done. destruct (ws !! at_); [|done]. by rewrite !IH.
Qed.

Lemma scan_chain_app b i k ws ws' acc :
  scan_chain b i k (ws ++ ws') acc = scan_chain b i k ws' (scan_chain b i k ws acc).
Proof. revert acc. induction ws as [|w ws IH]; intros acc; cbn; [done|]. by destruct (negb _). Qed.

Lemma scan_chain_loop b ws i k :
  scan_chain b i k ws None =
  let '(seen, base, ops) := chain_loop b ws i k (rev (positions (hashed b (write_hash i k)) ws)) false [] in
  if seen then Some (mkChain base (rev ops)) else None.
Proof.
  induction ws as [|w ws IH] using rev_ind; [done|]. rewrite scan_chain_app, IH, positions_snoc, rev_app_distr. clear IH.
  assert (Forall (fun at_ => at_ < length ws)%nat (rev (positions (hashed b (write_hash i k)) ws))) as HF.
  { apply Forall_rev, positions_lt. }
  cbn [scan_chain]. destruct (hashed b (write_hash i k) w) eqn:Eh; cbn [rev app chain_loop].
  - rewrite list_lookup_middle by done. rewrite !chain_loop_app by done.
    rewrite (chain_loop_acc _ _ _ _ _ true).
    destruct (chain_loop b ws i k _ false []) as [[seen base] ops] eqn:El.
    unfold matches. apply andb_prop in Eh as [-> _]. cbn [andb].
    destruct (negb _); [done|]. destruct (w_is_merge w); [|done].
    destruct seen; cbn; [done|]. cbn in *.
    assert (base = None /\ ops = []) as [-> ->]; [|done].
    clear -El. revert El. generalize (rev (positions (hashed b (write_hash i k)) ws)) as ats. intros ats.
    induction ats as [|at_ ats IH]; cbn; [by intros [= <- <-]|]. destruct (ws !! at_) as [x|]; [|by intros [= <- <-]].
    destruct (negb _); [done|]. destruct (w_is_merge x); [|congruence]. rewrite chain_loop_acc.
    destruct (chain_loop b ws i k ats false []) as [[s base'] o]. cbn. congruence.
  - rewrite chain_loop_app by done. destruct (matches b i k w) eqn:Em; [|cbn; done].
    apply matches_hashed in Em. congruence.
Qed.
End IndexFacts.

(** * The states a transaction reaches *)

Definition txn_new (iso : IsolationLevel) (seq : Z) (fixed_ : bool) (index_min : nat) : Txn :=
  mkTxn iso seq fixed_ [] [] None index_min [] ∅ [] ∅ [] Active.

Section Steps.
(** The hash, the open families by identity, and the capabilities of the database. *)
Context (write_hash : Z -> list byte -> Z) (fams : Z -> option Family) (caps_ : Z).
#[local] Notation build := (index_build write_hash) (only parsing).

Inductive txn_step : Txn -> Txn -> Prop :=
| step_put cf k v now_ nanos t t' :
    fams (f_id cf) = Some cf -> txn_put write_hash cf k v now_ nanos t = Ok t' -> txn_step t t'
| step_delete cf k t t' :
    fams (f_id cf) = Some cf -> txn_delete write_hash cf k t = Ok t' -> txn_step t t'
| step_single_delete cf k t t' :
    fams (f_id cf) = Some cf -> txn_single_delete write_hash cf k t = Ok t' -> txn_step t t'
| step_merge cf k v t t' :
    fams (f_id cf) = Some cf -> txn_merge write_hash cf k v t = Ok t' -> txn_step t t'
| step_delete_range cf k k' t t' :
    fams (f_id cf) = Some cf -> txn_delete_range write_hash caps_ cf k k' t = Ok t' -> txn_step t t'
| step_get cf k floor store t r t' :
    fams (f_id cf) = Some cf -> txn_get write_hash t cf k floor store = (r, t') -> txn_step t t'
| step_set name t :
    txn_step t (set_savepoint name t)
| step_rollback name t t' :
    rollback_to_savepoint write_hash name t = Ok t' -> txn_step t t'
| step_release name t t' :
    release_savepoint name t = Ok t' -> txn_step t t'.

Inductive reachable : Txn -> Prop :=
| reach_new iso seq fixed_ index_min : reachable (txn_new iso seq fixed_ index_min)
| reach_step t t' : reachable t -> txn_step t t' -> reachable t'.

(** Steps after which savepoint [n] is still there. *)
Inductive steps_keeping (n : nat) : Txn -> Txn -> Prop :=
| keep_refl t : steps_keeping n t t
| keep_step t t' t'' :
    steps_keeping n t t' -> txn_step t' t'' -> (n < length (savepoints t''))%nat -> steps_keeping n t t''.

(** ** The invariant *)

Definition in_arena (n : nat) (w : WriteEntry) : Prop :=
  (fst (w_key w) + snd (w_key w) <= n)%nat /\ (fst (w_value w) + snd (w_value w) <= n)%nat.

(** What each kind of write carries. *)
Definition kind_ok (w : WriteEntry) : Prop :=
  fams (f_id (w_cf w)) = Some (w_cf w) /\
  (w_is_merge w = true -> exists op, f_merge (w_cf w) = Some op) /\
  (w_kind w <> KIND_PUT -> w_ttl w = 0).

Definition range_ok (b : list byte) (w : WriteEntry) : Prop :=
  w_is_range w = true -> compare (f_cmp (w_cf w)) (buf_slice b (w_key w)) (buf_slice b (w_value w)) = Lt.

Definition save_ok (t : Txn) (sp : list byte * nat * nat * nat) : Prop :=
  let '(_, wlen, blen, rlen) := sp in
  (wlen <= length (writes t))%nat /\ (blen <= length (buf t))%nat /\ (rlen <= length (read_log t))%nat /\
  Forall (in_arena blen) (take wlen (writes t)).

Definition save_le (a b : list byte * nat * nat * nat) : Prop :=
  let '(_, w, l, r) := a in let '(_, w', l', r') := b in (w <= w')%nat /\ (l <= l')%nat /\ (r <= r')%nat.

Record txn_inv (t : Txn) : Prop := {
  inv_index : forall ix, write_index t = Some ix -> ix = build (buf t) (writes t);
  inv_arena : Forall (in_arena (length (buf t))) (writes t);
  inv_kinds : Forall kind_ok (writes t);
  inv_bounds : Forall (range_ok (buf t)) (writes t);
  inv_ranges : range_writes t = positions w_is_range (writes t);
  inv_log : NoDup (read_log t);
  inv_set : read_set t = list_to_set (read_log t);
  inv_cfs : read_cfs t = list_to_set (map fst (read_log t));
  inv_saves : Forall (save_ok t) (savepoints t);
  inv_nested : StronglySorted save_le (savepoints t);
}.

(** ** Slices of the arena *)

Lemma buf_slice_app b x r : (fst r + snd r <= length b)%nat -> buf_slice (b ++ x) r = buf_slice b r.
Proof.
  destruct r as [o l]. cbn. intros H. unfold buf_slice. cbn [fst snd].
  rewrite drop_app_le by lia. apply take_app_le. rewrite length_drop. lia.
Qed.

Lemma buf_slice_take b n r : (fst r + snd r <= n)%nat -> buf_slice (take n b) r = buf_slice b r.
Proof.
  destruct r as [o l]. cbn. intros H. unfold buf_slice. cbn [fst snd].
  apply list_eq. intros i.
  destruct (decide (i < l)%nat); [|by rewrite !lookup_take_ge by lia].
  rewrite !lookup_take_lt, !lookup_drop by done. apply lookup_take_lt. lia.
Qed.

Lemma buf_slice_last b k v : buf_slice (b ++ k ++ v) (length b, length k) = k.
Proof. unfold buf_slice. cbn [fst snd]. rewrite drop_app_exact by done. by apply take_app_exact. Qed.

Lemma buf_slice_value b k v : buf_slice ((b ++ k) ++ v) (length (b ++ k), length v) = v.
Proof. unfold buf_slice. cbn [fst snd]. rewrite drop_app_exact by done. by rewrite firstn_all. Qed.

Lemma build_ext b b' ws :
  Forall (fun w => buf_slice b (w_key w) = buf_slice b' (w_key w)) ws -> build b ws = build b' ws.
Proof.
  induction ws as [|w ws IH] using rev_ind; intros H; [done|]. apply Forall_app in H as [H Hw].
  apply Forall_cons in Hw as [Hw _]. rewrite !build_snoc, IH by done. unfold index_push, hash_of. by rewrite Hw.
Qed.

Lemma in_arena_le n m w : (n <= m)%nat -> in_arena n w -> in_arena m w.
Proof. unfold in_arena. lia. Qed.

Lemma build_app b x ws : Forall (in_arena (length b)) ws -> build (b ++ x) ws = build b ws.
Proof.
  intros H. apply build_ext. eapply Forall_impl; [exact H|]. intros w [Hk _]. by apply buf_slice_app.
Qed.

Lemma build_take n b ws : Forall (in_arena n) ws -> build (take n b) ws = build b ws.
Proof.
  intros H. apply build_ext. eapply Forall_impl; [exact H|]. intros w [Hk _]. by apply buf_slice_take.
Qed.

(** ** Every step keeps it *)

Lemma inv_new iso seq fixed_ m : txn_inv (txn_new iso seq fixed_ m).
Proof. split; cbn; try done; constructor. Qed.

Lemma inv_ensure t : txn_inv t -> txn_inv (ensure_write_index write_hash t).
Proof.
  intros H. unfold ensure_write_index. destruct (write_index t) eqn:E; [done|]. destruct (_ <=? _)%nat; [|done].
  destruct H. split; cbn; try done. intros ix [= <-]. done.
Qed.

Lemma inv_note t cf k floor : txn_inv t -> txn_inv (snd (note_store_read t cf k floor)).
Proof.
  intros H. unfold note_store_read. cbn [snd]. destruct (bool_decide (isolation t = Serializable)); [|done].
  destruct H. case_bool_decide as Hin; (split; cbn; try done).
  - rewrite inv_set0 in Hin |- *. set_solver.
  - rewrite inv_cfs0. rewrite inv_set0 in Hin. apply elem_of_list_to_set in Hin.
    assert (f_id cf ∈ map fst (read_log t)) by (apply elem_of_map; by exists (f_id cf, k)). set_solver.
  - apply NoDup_app. split; [done|]. split; [|apply NoDup_singleton].
    intros x Hx [= ->]%list_elem_of_singleton. apply Hin. rewrite inv_set0. by apply elem_of_list_to_set.
  - rewrite inv_set0, list_to_set_app_L. set_solver.
  - rewrite inv_cfs0, map_app, list_to_set_app_L. set_solver.
  - eapply Forall_impl; [exact inv_saves0|]. intros [[[n w] l] r]. unfold save_ok. cbn. rewrite length_app. intuition lia.
Qed.

Lemma get_state t cf k floor store r t' :
  txn_get write_hash t cf k floor store = (r, t') ->
  t' = ensure_write_index write_hash t \/ t' = snd (note_store_read (ensure_write_index write_hash t) cf k floor).
Proof.
  unfold txn_get. set (t0 := ensure_write_index write_hash t).
  assert (forall r' : result (list byte), match plan_point_read write_hash t0 cf k floor with
    | (Buffered r, t) => (Ok (buf_slice (buf t) r), t)
    | (Missing, t) => (Err NotFound, t)
    | (Store rs, t) => (store rs, t)
    end = (r', t') -> t' = t0 \/ t' = snd (note_store_read t0 cf k floor)) as Hp.
  { intros r'. unfold plan_point_read. destruct (_ ≫= _) as [w|]; [destruct (w_tombstone w); intros [= _ <-]; auto|].
    destruct (own_range_covers t0 cf k); [intros [= _ <-]; auto|].
    destruct (note_store_read t0 cf k floor) as [rs t1]. intros [= _ <-]. auto. }
  destruct (f_merge cf); [|apply Hp]. destruct (buffered_chain _ _ _ _) as [[base ops]|]; [|apply Hp]. cbn [bc_operands bc_base].
  destruct ops; [destruct base as [[v|]|]|destruct base]; try (intros [= _ <-]; by auto).
Qed.

Lemma Forall_impl_and {A} (P Q R : A -> Prop) l :
  Forall P l -> Forall Q l -> (forall x, P x -> Q x -> R x) -> Forall R l.
Proof. intros HP HQ H. rewrite Forall_forall in HP, HQ |- *. auto. Qed.

Lemma inv_buffer cf k v ttl kind t :
  txn_inv t -> fams (f_id cf) = Some cf -> (kind = KIND_MERGE -> exists op, f_merge cf = Some op) ->
  (kind <> KIND_PUT -> ttl = 0) -> (kind = KIND_RANGE_DELETE -> compare (f_cmp cf) k v = Lt) ->
  txn_inv (buffer write_hash cf k v ttl kind t).
Proof.
  intros [] Hf Hm Ht Hr. split; cbn -[index_build index_push positions w_is_range]; try done.
  - intros ix. destruct (write_index t) as [ix0|]; [|done]. intros [= <-]. rewrite build_snoc, <- app_assoc.
    by rewrite build_app, <- (inv_index0 ix0).
  - apply Forall_app. split.
    + eapply Forall_impl; [exact inv_arena0|]. intros w. apply in_arena_le. rewrite !length_app. lia.
    + repeat constructor; cbn; rewrite !length_app; lia.
  - apply Forall_app. split; [done|]. repeat constructor; cbn; auto. unfold w_is_merge. cbn. rewrite Z.eqb_eq. auto.
  - apply Forall_app. split.
    + apply (Forall_impl_and _ _ _ _ inv_arena0 inv_bounds0). intros w [Hk Hv] Hb Hw. rewrite <- app_assoc, !buf_slice_app by done. by apply Hb.
    + repeat constructor. unfold range_ok, w_is_range. cbn [w_kind w_key w_value w_cf]. rewrite Z.eqb_eq. intros ->.
      rewrite <- app_assoc, buf_slice_last, app_assoc, buf_slice_value. by apply Hr.
  - rewrite positions_snoc, inv_ranges0. by destruct (w_is_range _); [|rewrite app_nil_r].
  - eapply Forall_impl; [exact inv_saves0|]. intros [[[n w] l] r] (H1 & H2 & H3 & H4). unfold save_ok. cbn.
    rewrite !length_app. rewrite take_app_le by done. split; [lia|]. split; [lia|done].
Qed.

Lemma inv_set_savepoint name t : txn_inv t -> txn_inv (set_savepoint name t).
Proof.
  intros []. split; cbn; try done.
  - apply Forall_app. split; [done|]. repeat constructor. cbn. by rewrite firstn_all.
  - apply StronglySorted_app_2; [|done|repeat constructor]. intros a b Ha ->%list_elem_of_singleton.
    rewrite Forall_forall in inv_saves0. specialize (inv_saves0 a Ha). destruct a as [[[n w] l] r]. cbn in *. lia.
Qed.

Lemma fold_difference {A} `{Countable A} (l : list A) (s : gset A) :
  fold_left (fun rs r => rs ∖ {[r]}) l s = s ∖ list_to_set l.
Proof.
  revert s. induction l as [|x l IH]; intros s; cbn [fold_left]; [set_solver|]. rewrite IH. set_solver.
Qed.

Lemma unread_log {A} `{Countable A} (l : list A) n :
  NoDup l -> fold_left (fun rs r => rs ∖ {[r]}) (drop n l) (list_to_set l : gset A) = list_to_set (take n l).
Proof.
  intros Hn. rewrite fold_difference. rewrite <- (take_drop n l) in Hn. apply NoDup_app in Hn as (_ & Hn & _).
  rewrite <- (take_drop n l) at 1. rewrite list_to_set_app_L. set_solver.
Qed.

Lemma live_families (l : list (Z * list byte)) n :
  (list_to_set (map fst l) ∩ list_to_set (map fst (elements (list_to_set (take n l) : gset (Z * list byte)))) : gset Z) =
  list_to_set (map fst (take n l)).
Proof.
  apply set_eq. intros i. rewrite elem_of_intersection, !elem_of_list_to_set, !elem_of_map. split.
  - intros [_ (x & Hx & <-)]. rewrite elem_of_elements, elem_of_list_to_set in Hx. eauto.
  - intros (x & Hx & <-). split; [exists x; split; [by eapply elem_of_take|done]|].
    exists x. split; [|done]. by rewrite elem_of_elements, elem_of_list_to_set.
Qed.

(** The state a rollback to position [pos] leaves. *)
Definition rolled_back (t : Txn) (pos wlen blen rlen : nat) : Txn :=
  mkTxn (isolation t) (read_seq t) (fixed t) (take blen (buf t)) (take wlen (writes t))
    (match write_index t with Some _ => Some (build (take blen (buf t)) (take wlen (writes t))) | None => None end)
    (write_index_min t) (positions w_is_range (take wlen (writes t))) (list_to_set (take rlen (read_log t)))
    (take rlen (read_log t)) (list_to_set (map fst (take rlen (read_log t)))) (take (S pos) (savepoints t)) (state t).

Lemma rollback_eq name t :
  txn_inv t ->
  rollback_to_savepoint write_hash name t =
  match rposition (sp_named name) (savepoints t) ≫= fun pos => (pair pos) <$> savepoints t !! pos with
  | Some (pos, (_, wlen, blen, rlen)) => Ok (rolled_back t pos wlen blen rlen)
  | None => Err InvalidArgs
  end.
Proof.
  intros []. unfold rollback_to_savepoint, ok_or.
  destruct (rposition _ _) as [pos|]; cbn [rbind mbind option_bind]; [|done].
  destruct (savepoints t !! pos) as [[[[n wlen] blen] rlen]|] eqn:E; cbn [fmap option_fmap option_map]; [|done].
  pose proof (Forall_lookup_1 _ _ _ _ inv_saves0 E) as (Hw & Hb & Hr & Ha). unfold rolled_back. f_equal. f_equal.
  - destruct (write_index t) as [ix|]; [|done]. rewrite (inv_index0 ix), truncate_build by done. by rewrite build_take.
  - rewrite inv_ranges0. by apply positions_partition.
  - rewrite inv_set0. by apply unread_log.
  - rewrite inv_set0, inv_cfs0, unread_log by done. apply live_families.
Qed.

Lemma nested_lookup t i j a b :
  txn_inv t -> savepoints t !! i = Some a -> savepoints t !! j = Some b -> (i <= j)%nat -> save_le a b.
Proof.
  intros [] Ha Hb Hij. destruct (decide (i = j)) as [->|Hn].
  - assert (a = b) as -> by congruence. destruct b as [[[n w] l] r]. cbn. lia.
  - eapply StronglySorted_lookup_lt; [exact inv_nested0|exact Ha|exact Hb|lia].
Qed.

Lemma inv_rolled_back t pos sp wlen blen rlen :
  txn_inv t -> savepoints t !! pos = Some (sp, wlen, blen, rlen) -> txn_inv (rolled_back t pos wlen blen rlen).
Proof.
  intros HI E. pose proof HI as []. pose proof (Forall_lookup_1 _ _ _ _ inv_saves0 E) as (Hw & Hb & Hr & Ha).
  split; cbn -[index_build positions]; try done.
  - intros ix. destruct (write_index t); [|done]. by intros [= <-].
  - by rewrite length_take, Nat.min_l.
  - by apply Forall_take.
  - apply (Forall_impl_and _ _ _ _ Ha (Forall_take _ wlen _ inv_bounds0)). intros w [Hk Hv] H Hw'.
    rewrite !buf_slice_take by done. by apply H.
  - by apply (sublist_NoDup _ (read_log t)); [|apply sublist_take].
  - apply Forall_lookup_2. intros i [[[n w] l] r] Hi. apply lookup_take_Some in Hi as [Hi Hlt].
    pose proof (nested_lookup t i pos _ _ HI Hi E ltac:(lia)) as (H1 & H2 & H3).
    pose proof (Forall_lookup_1 _ _ _ _ inv_saves0 Hi) as (H4 & H5 & H6 & H7). cbn.
    rewrite !length_take, take_take, Nat.min_l by lia. split; [lia|]. split; [lia|]. split; [lia|]. by replace (w `min` wlen)%nat with w by lia.
  - by apply StronglySorted_take.
Qed.

Lemma inv_release t pos : txn_inv t -> txn_inv (with_savepoints t (take pos (savepoints t))).
Proof. intros []. split; cbn; try done; [by apply Forall_take|by apply StronglySorted_take]. Qed.

(** A write operation is a guarded [buffer]. *)
Inductive buffers : Txn -> Txn -> Prop :=
| buffers_intro cf k v ttl kind t :
    fams (f_id cf) = Some cf -> (kind = KIND_MERGE -> exists op, f_merge cf = Some op) -> (kind <> KIND_PUT -> ttl = 0) ->
    (kind = KIND_RANGE_DELETE -> compare (f_cmp cf) k v = Lt) ->
    buffers t (buffer write_hash cf k v ttl kind t).

Lemma validate_lt cf a b : validate_range_bounds caps_ cf a b = Ok tt -> compare (f_cmp cf) a b = Lt.
Proof.
  unfold validate_range_bounds. intros H. apply bind_inv in H as ([] & _ & H). apply bind_inv in H as ([] & _ & H).
  apply bind_inv in H as ([] & H & _). unfold guard in H. destruct (compare (f_cmp cf) a b); cbn in H; congruence.
Qed.

(** What a step does to the state. *)
Lemma step_cases t t' :
  txn_inv t -> txn_step t t' ->
  buffers t t' \/
  t' = ensure_write_index write_hash t \/
  (exists cf k floor, t' = snd (note_store_read (ensure_write_index write_hash t) cf k floor)) \/
  (exists name, t' = set_savepoint name t) \/
  (exists name pos wlen blen rlen, savepoints t !! pos = Some (name, wlen, blen, rlen) /\ t' = rolled_back t pos wlen blen rlen) \/
  (exists pos, t' = with_savepoints t (take pos (savepoints t))).
Proof.
  intros HI Hs. destruct Hs as [cf k v n d t t' Hf H|cf k t t' Hf H|cf k t t' Hf H|cf k v t t' Hf H|cf k k' t t' Hf H
                              |cf k floor store t r t' Hf H|name t|name t t' H|name t t' H].
  1-5: left; unfold txn_put, txn_delete, txn_single_delete, txn_merge, txn_delete_range in H;
    apply bind_inv in H as ([] & _ & H).
  - injection H as <-. constructor; [done|discriminate|congruence|discriminate].
  - injection H as <-. constructor; [done|discriminate|done|discriminate].
  - injection H as <-. constructor; [done|discriminate|done|discriminate].
  - apply bind_inv in H as ([] & Hm & H). apply bind_inv in H as ([] & _ & H). injection H as <-.
    constructor; [done|intros _|done|discriminate]. destruct (f_merge cf) as [op|]; [eauto|discriminate].
  - apply bind_inv in H as ([] & Hv & H). injection H as <-. constructor; [done|discriminate|done|intros _].
    by eapply validate_lt.
  - right. apply get_state in H as [->| ->]; [auto|right; left; eauto].
  - do 3 right. left. eauto.
  - do 4 right. left. rewrite rollback_eq in H by done.
    destruct (rposition _ _) as [pos|]; cbn in H; [|discriminate].
    destruct (savepoints t !! pos) as [[[[n w] b] r]|] eqn:E; cbn in H; [|discriminate]. injection H as <-. eauto 10.
  - do 5 right. apply bind_inv in H as (pos & _ & H). injection H as <-. eauto.
Qed.

Lemma inv_step t t' : txn_inv t -> txn_step t t' -> txn_inv t'.
Proof.
  intros HI Hs.
  destruct (step_cases t t' HI Hs) as [Hb|[->|[(cf & k & fl & ->)|[(name & ->)|[(name & pos & w & b & r & E & ->)|(pos & ->)]]]]].
  - destruct Hb. by apply inv_buffer.
  - by apply inv_ensure.
  - by apply inv_note, inv_ensure.
  - by apply inv_set_savepoint.
  - by eapply inv_rolled_back.
  - by apply inv_release.
Qed.

Lemma inv_reachable t : reachable t -> txn_inv t.
Proof. induction 1 as [|t t' _ IH Hs]; [apply inv_new|by eapply inv_step]. Qed.

(** ** What a savepoint keeps *)

(** [t] has grown from [t0], apart from the index. *)
Record grown (t0 t : Txn) : Prop := {
  grown_scalars : (isolation t, read_seq t, fixed t, write_index_min t, state t) =
                  (isolation t0, read_seq t0, fixed t0, write_index_min t0, state t0);
  grown_buf : buf t0 `prefix_of` buf t;
  grown_writes : writes t0 `prefix_of` writes t;
  grown_log : read_log t0 `prefix_of` read_log t;
  grown_saves : savepoints t0 `prefix_of` savepoints t;
}.

Lemma prefix_take_ge {A} (l l' : list A) n : l `prefix_of` l' -> (length l <= n)%nat -> l `prefix_of` take n l'.
Proof. intros [m ->] H. rewrite take_app_ge by done. by exists (take (n - length l) m). Qed.

Lemma prefix_snoc {A} (l l' m : list A) : l `prefix_of` l' -> l `prefix_of` l' ++ m.
Proof. intros [x ->]. exists (x ++ m). by rewrite app_assoc. Qed.

Lemma grown_ensure t0 t : grown t0 t -> grown t0 (ensure_write_index write_hash t).
Proof.
  intros []. unfold ensure_write_index. destruct (write_index t); [done|]. by destruct (_ <=? _)%nat.
Qed.

(** Every step that leaves the last savepoint of [t0] in place only grows the state. *)
Lemma grown_step t0 t t' name n wlen blen rlen :
  savepoints t0 !! n = Some (name, wlen, blen, rlen) -> length (savepoints t0) = S n ->
  wlen = length (writes t0) -> blen = length (buf t0) -> rlen = length (read_log t0) ->
  txn_inv t -> grown t0 t -> txn_step t t' -> (n < length (savepoints t'))%nat -> grown t0 t'.
Proof.
  intros Hsp Hn Hw Hb Hr HI HG Hs Hkeep. pose proof HG as [].
  destruct (step_cases t t' HI Hs) as [Hbuf|[->|[(cf & k & fl & ->)|[(m & ->)|[(m & pos & w & b & r & E & ->)|(pos & ->)]]]]].
  - destruct Hbuf. split; cbn; try done; rewrite <- ?app_assoc; by apply prefix_snoc.
  - by apply grown_ensure.
  - apply grown_ensure in HG. unfold note_store_read. cbn [snd]. destruct (bool_decide _); [|done].
    destruct HG. split; cbn; try done. case_bool_decide; [done|by apply prefix_snoc].
  - split; cbn; try done. by apply prefix_snoc.
  - cbn in Hkeep. rewrite length_take in Hkeep.
    assert (savepoints t !! n = Some (name, wlen, blen, rlen)) as Hn'.
    { by apply (prefix_lookup_Some _ _ _ _ Hsp grown_saves0). }
    pose proof (nested_lookup t n pos _ _ HI Hn' E ltac:(lia)) as (H1 & H2 & H3).
    split; cbn; try done; apply prefix_take_ge; (done || lia).
  - cbn in Hkeep. rewrite length_take in Hkeep. split; cbn; try done. apply prefix_take_ge; [done|lia].
Qed.

Lemma grown_steps n t0 t :
  length (savepoints t0) = S n -> txn_inv t0 ->
  (exists name, savepoints t0 !! n = Some (name, length (writes t0), length (buf t0), length (read_log t0))) ->
  steps_keeping n t0 t -> txn_inv t /\ grown t0 t.
Proof.
  intros Hn HI [name Hsp] Hs. induction Hs as [t|t t' t'' Hs IH Hst Hk].
  - split; [done|]. by split.
  - destruct IH as [HI' HG]; [done..|]. split; [by eapply inv_step|]. by eapply grown_step.
Qed.
End Steps.

(** * The order of a commit, per key *)

Section Order.
Context (b : list byte).

Definition has_key (sk : Z * list byte) (w : WriteEntry) : bool := bool_decide (slot_key b w = sk).
Definition point_key (sk : Z * list byte) (w : WriteEntry) : bool := negb (w_is_range w) && has_key sk w.

(** The writes of a key a commit keeps: the last base, and the operands after it. *)
Definition run_of (p : WriteEntry -> bool) (ws : list WriteEntry) : list nat :=
  fold_left (fun run iw => if p (snd iw) then if w_is_merge (snd iw) then run ++ [fst iw] else [fst iw] else run)
    (enumerate ws) [].

Lemma enumerate_snoc {A} (l : list A) x : enumerate (l ++ [x]) = enumerate l ++ [(length l, x)].
Proof. unfold enumerate. rewrite imap_app. cbn. by rewrite Nat.add_0_r. Qed.

Lemma run_of_snoc p ws w :
  run_of p (ws ++ [w]) =
  if p w then if w_is_merge w then run_of p ws ++ [length ws] else [length ws] else run_of p ws.
Proof. unfold run_of. by rewrite enumerate_snoc, fold_left_app. Qed.

Lemma run_of_pos p ws i : i ∈ run_of p ws -> exists w, ws !! i = Some w /\ p w = true.
Proof.
  induction ws as [|w ws IH] using rev_ind; [intros H; by apply elem_of_nil in H|]. rewrite run_of_snoc.
  assert (i ∈ run_of p ws -> exists x, (ws ++ [w]) !! i = Some x /\ p x = true) as IH'.
  { intros H. destruct (IH H) as (x & Hx & Hp). exists x. split; [by apply lookup_app_l_Some|done]. }
  destruct (p w) eqn:Ep; [|auto].
  destruct (w_is_merge w); [rewrite elem_of_app; intros [H|H]; [auto|]|intros H];
    apply list_elem_of_singleton in H as ->; exists w; (split; [by apply list_lookup_middle|done]).
Qed.

Lemma run_of_ext p q ws : (forall w, w ∈ ws -> p w = q w) -> run_of p ws = run_of q ws.
Proof.
  induction ws as [|w ws IH] using rev_ind; intros H; [done|]. rewrite !run_of_snoc.
  rewrite IH by (intros x Hx; apply H; set_solver). by rewrite (H w) by set_solver.
Qed.

Lemma run_of_none p ws : (forall w, w ∈ ws -> p w = false) -> run_of p ws = [].
Proof.
  intros H. rewrite (run_of_ext p (fun _ => false)) by done. clear H.
  induction ws as [|w ws IH] using rev_ind; [done|]. by rewrite run_of_snoc.
Qed.

(** A key is in its run as long as it has a write, and ends with the last one. *)
Lemma run_of_last p ws : last (run_of p ws) = last (positions p ws).
Proof.
  induction ws as [|w ws IH] using rev_ind; [done|]. rewrite run_of_snoc, positions_snoc.
  destruct (p w); [|by rewrite app_nil_r]. rewrite last_snoc. destruct (w_is_merge w); [apply last_snoc|done].
Qed.

Lemma run_of_bases p ws :
  (forall w, w ∈ ws -> p w = true -> w_is_merge w = false) -> run_of p ws = option_list (last (positions p ws)).
Proof.
  induction ws as [|w ws IH] using rev_ind; intros H; [done|]. rewrite run_of_snoc, positions_snoc.
  destruct (p w) eqn:Ep; [|rewrite app_nil_r; apply IH; intros x Hx; apply H; set_solver].
  rewrite last_snoc, (H w) by (set_solver || done). done.
Qed.

(** ** The merge-aware order *)

Lemma merge_order_spec ws :
  exists keys, NoDup keys /\ (forall w, w ∈ ws -> slot_key b w ∈ keys) /\
    (forall sk s, fst (fold_left (merge_order_step b) (enumerate ws) (∅, [])) !! sk = Some s <-> keys !! s = Some sk) /\
    snd (fold_left (merge_order_step b) (enumerate ws) (∅, [])) = map (fun sk => run_of (has_key sk) ws) keys.
Proof.
  induction ws as [|w ws IH] using rev_ind.
  { exists []. split; [constructor|]. split; [intros w Hw; by apply elem_of_nil in Hw|]. split; [|done].
    intros sk s. cbn. by rewrite lookup_empty. }
  destruct IH as (keys & Hn & Hin & Hm & Hr). rewrite enumerate_snoc, fold_left_app. cbn [fold_left].
  destruct (fold_left (merge_order_step b) (enumerate ws) (∅, [])) as [m runs]. cbn [fst snd] in *. subst runs.
  cbn [merge_order_step]. destruct (m !! slot_key b w) as [s|] eqn:E; cbn [fst snd].
  - exists keys. apply Hm in E. split; [done|]. split.
    { intros x Hx. apply elem_of_app in Hx as [Hx|Hx]; [auto|]. apply list_elem_of_singleton in Hx as ->.
      by eapply list_elem_of_lookup_2. }
    split; [done|]. apply list_eq. intros i. rewrite list_lookup_alter, !list_lookup_fmap.
    destruct (decide (s = i)) as [<-|Hne].
    + rewrite E. cbn. rewrite run_of_snoc. unfold has_key at 2. by rewrite bool_decide_eq_true_2.
    + destruct (keys !! i) as [sk|] eqn:Ei; cbn; [|done]. rewrite run_of_snoc. unfold has_key at 2.
      rewrite bool_decide_eq_false_2; [done|]. intros <-. by destruct (Hne (NoDup_lookup _ _ _ _ Hn E Ei)).
  - assert (slot_key b w ∉ keys) as Hnew.
    { intros Hk. apply list_elem_of_lookup in Hk as [s Hs]. apply Hm in Hs. congruence. }
    exists (keys ++ [slot_key b w]). split.
    { apply NoDup_app. split; [done|]. split; [|apply NoDup_singleton]. intros x Hx ->%list_elem_of_singleton. done. }
    split; [set_solver|]. split.
    + intros sk s. rewrite lookup_insert_Some, lookup_snoc_Some, length_map, Hm. split.
      * intros [[<- <-]|[Hne H]]; [by right|]. left. split; [by eapply lookup_lt_Some|done].
      * intros [[_ H]|[E1 E2]]; [right|left; split; congruence]. split; [|done]. intros <-. apply Hnew. by eapply list_elem_of_lookup_2.
    + rewrite map_app. cbn [map]. f_equal.
      * apply map_ext_in. intros sk Hsk. rewrite run_of_snoc. unfold has_key at 2.
        rewrite bool_decide_eq_false_2; [done|]. intros <-. apply Hnew. by apply list_elem_of_In.
      * rewrite run_of_snoc. unfold has_key at 1. rewrite bool_decide_eq_true_2 by done. rewrite run_of_none.
        -- by destruct (w_is_merge w).
        -- intros x Hx. apply bool_decide_eq_false_2. intros Ex. apply Hnew. rewrite <- Ex. auto.
Qed.

(** ** The order without operands *)

(** A slot of the order: a range, or a key. *)
Definition slot_value (ws : list WriteEntry) (x : nat + Z * list byte) : nat :=
  match x with inl i => i | inr sk => default 0%nat (last (positions (point_key sk) ws)) end.

Record dedup_keys (ws : list WriteEntry) (m : gmap (Z * list byte) nat) (keys : list (nat + Z * list byte)) : Prop := {
  dk_nodup : NoDup keys;
  dk_map sk s : m !! sk = Some s <-> keys !! s = Some (inr sk);
  dk_range i : inl i ∈ keys <-> at_pos w_is_range ws i = true;
  dk_point sk : inr sk ∈ keys <-> exists w, w ∈ ws /\ point_key sk w = true;
}.

Lemma at_pos_range_snoc ws w i :
  at_pos w_is_range (ws ++ [w]) i = true <-> at_pos w_is_range ws i = true \/ (i = length ws /\ w_is_range w = true).
Proof.
  unfold at_pos. destruct (decide (i < length ws)%nat) as [Hlt|Hge].
  - rewrite lookup_app_l by done. split; [auto|]. intros [H|[-> _]]; [done|lia].
  - rewrite lookup_app_r by lia. rewrite (lookup_ge_None_2 ws i) by lia.
    destruct (i - length ws)%nat as [|n] eqn:E; cbn.
    + split; [intros H; right; split; [lia|done]|]. by intros [H|[_ H]].
    + split; [done|]. intros [H|[H _]]; [done|lia].
Qed.

Lemma slot_value_self ws w :
  w_is_range w = false -> slot_value (ws ++ [w]) (inr (slot_key b w)) = length ws.
Proof.
  intros Hw. cbn [slot_value]. rewrite positions_snoc.
  assert (point_key (slot_key b w) w = true) as -> by (unfold point_key, has_key; by rewrite Hw, bool_decide_eq_true_2).
  by rewrite last_snoc.
Qed.

Lemma slot_value_other ws w x :
  x <> inr (slot_key b w) \/ w_is_range w = true -> slot_value (ws ++ [w]) x = slot_value ws x.
Proof.
  destruct x as [i|sk]; cbn [slot_value]; [done|]. intros Hx. rewrite positions_snoc.
  assert (point_key sk w = false) as ->; [|by rewrite app_nil_r]. unfold point_key, has_key.
  destruct (w_is_range w); [done|]. apply bool_decide_eq_false_2. intros <-. by destruct Hx.
Qed.

Lemma map_slot_value_other ws w keys :
  inr (slot_key b w) ∉ keys \/ w_is_range w = true -> map (slot_value (ws ++ [w])) keys = map (slot_value ws) keys.
Proof.
  intros H. apply map_ext_in. intros x Hx%list_elem_of_In. apply slot_value_other.
  destruct H as [H|H]; [left|by right]. by intros ->.
Qed.

Lemma point_exists_snoc ws w sk :
  (exists x, x ∈ ws ++ [w] /\ point_key sk x = true) <->
  (exists x, x ∈ ws /\ point_key sk x = true) \/ (sk = slot_key b w /\ w_is_range w = false).
Proof.
  split.
  - intros (x & Hx & Hk). apply elem_of_app in Hx as [Hx|Hx]; [eauto|]. apply list_elem_of_singleton in Hx as ->.
    right. unfold point_key, has_key in Hk. apply andb_prop in Hk as [H1 H2].
    apply bool_decide_eq_true in H2. by apply negb_true_iff in H1.
  - intros [(x & Hx & Hk)|[-> Hw]]; [exists x; set_solver|]. exists w. split; [set_solver|].
    unfold point_key, has_key. by rewrite Hw, bool_decide_eq_true_2.
Qed.

Lemma NoDup_snoc {A} (l : list A) x : NoDup l -> x ∉ l -> NoDup (l ++ [x]).
Proof.
  intros Hn Hx. apply NoDup_app. split; [done|]. split; [|apply NoDup_singleton]. by intros y Hy ->%list_elem_of_singleton.
Qed.

Lemma dedup_range_step ws m keys w :
  dedup_keys ws m keys -> w_is_range w = true -> dedup_keys (ws ++ [w]) m (keys ++ [inl (length ws)]).
Proof.
  intros [Hn Hm Hr Hp] Ew. split.
  - apply NoDup_snoc; [done|]. rewrite Hr. unfold at_pos. by rewrite lookup_ge_None_2.
  - intros sk s. rewrite lookup_snoc_Some, Hm. split; [|intros [[_ H]|[_ H]]; [done|discriminate]].
    intros H. left. split; [by eapply lookup_lt_Some|done].
  - intros i. rewrite elem_of_app, list_elem_of_singleton, Hr, at_pos_range_snoc. intuition congruence.
  - intros sk. rewrite elem_of_app, list_elem_of_singleton, Hp, point_exists_snoc. intuition congruence.
Qed.

Lemma dedup_old_step ws m keys w s :
  dedup_keys ws m keys -> w_is_range w = false -> m !! slot_key b w = Some s -> dedup_keys (ws ++ [w]) m keys.
Proof.
  intros [Hn Hm Hr Hp] Ew E. apply Hm in E. split; [done|done| |].
  - intros i. rewrite Hr, at_pos_range_snoc. intuition congruence.
  - intros sk. rewrite point_exists_snoc, <- Hp. split; [auto|]. intros [H|[-> _]]; [done|]. by eapply list_elem_of_lookup_2.
Qed.

Lemma dedup_new_key ws m keys sk : dedup_keys ws m keys -> m !! sk = None -> inr sk ∉ keys.
Proof. intros [_ Hm _ _] E Hk. apply list_elem_of_lookup in Hk as [s Hs]. apply Hm in Hs. congruence. Qed.

Lemma dedup_new_step ws m keys w :
  dedup_keys ws m keys -> w_is_range w = false -> m !! slot_key b w = None ->
  dedup_keys (ws ++ [w]) (<[slot_key b w := length keys]> m) (keys ++ [inr (slot_key b w)]).
Proof.
  intros HD Ew E. pose proof (dedup_new_key _ _ _ _ HD E) as Hnew. destruct HD as [Hn Hm Hr Hp]. split.
  - by apply NoDup_snoc.
  - intros sk s. rewrite lookup_insert_Some, lookup_snoc_Some, Hm. split.
    + intros [[<- <-]|[Hne H]]; [by right|]. left. split; [by eapply lookup_lt_Some|done].
    + intros [[_ H]|[E1 E2]]; [right|left; split; congruence]. split; [|done]. intros <-. apply Hnew.
      by eapply list_elem_of_lookup_2.
  - intros i. rewrite elem_of_app, list_elem_of_singleton, Hr, at_pos_range_snoc. intuition congruence.
  - intros sk. rewrite elem_of_app, list_elem_of_singleton, Hp, point_exists_snoc. intuition congruence.
Qed.

Lemma dedup_old_values ws m keys w s :
  dedup_keys ws m keys -> w_is_range w = false -> m !! slot_key b w = Some s ->
  <[s := length ws]> (map (slot_value ws) keys) = map (slot_value (ws ++ [w])) keys.
Proof.
  intros [Hn Hm _ _] Ew E. apply Hm in E. apply list_eq. intros i.
  destruct (decide (s = i)) as [<-|Hne].
  - rewrite list_lookup_insert_eq by (rewrite length_map; by eapply lookup_lt_Some).
    rewrite list_lookup_fmap, E. cbn [fmap option_fmap option_map]. by rewrite slot_value_self.
  - rewrite list_lookup_insert_ne, !list_lookup_fmap by done. destruct (keys !! i) as [x|] eqn:Ei; [|done].
    cbn [fmap option_fmap option_map]. rewrite slot_value_other; [done|]. left. intros ->.
    by destruct (Hne (NoDup_lookup _ _ _ _ Hn E Ei)).
Qed.

Lemma dedup_order_spec ws :
  exists keys, dedup_keys ws (fst (fold_left (dedup_order_step b) (enumerate ws) (∅, []))) keys /\
    snd (fold_left (dedup_order_step b) (enumerate ws) (∅, [])) = map (slot_value ws) keys.
Proof.
  induction ws as [|w ws IH] using rev_ind.
  { exists []. split; [|done]. split; [constructor|intros; cbn; by rewrite lookup_empty| |];
      intros; (split; [intros H; by apply elem_of_nil in H|]); [done|]. intros (w & H & _). by apply elem_of_nil in H. }
  destruct IH as (keys & HD & Ho). rewrite enumerate_snoc, fold_left_app. cbn [fold_left].
  destruct (fold_left (dedup_order_step b) (enumerate ws) (∅, [])) as [m order]. cbn [fst snd] in *. subst order.
  cbn [dedup_order_step]. destruct (w_is_range w) eqn:Ew; [|destruct (m !! slot_key b w) as [s|] eqn:E]; cbn [fst snd].
  - exists (keys ++ [inl (length ws)]). split; [by apply dedup_range_step|].
    rewrite map_app, map_slot_value_other by auto. done.
  - exists keys. split; [by eapply dedup_old_step|by eapply dedup_old_values].
  - exists (keys ++ [inr (slot_key b w)]). split; [rewrite length_map; by apply dedup_new_step|].
    rewrite map_app, map_slot_value_other by (left; by eapply dedup_new_key). cbn [map]. by rewrite slot_value_self.
Qed.
End Order.

(** Among runs of distinct keys, a predicate on one key selects its run. *)
Lemma filter_concat_single {A K} (f : K -> list A) (p : A -> bool) keys x :
  NoDup keys -> x ∈ keys -> (forall a, a ∈ f x -> p a = true) ->
  (forall y a, y ∈ keys -> y <> x -> a ∈ f y -> p a = false) ->
  List.filter p (concat (map f keys)) = f x.
Proof.
  intros Hn Hx Ht Hf. apply list_elem_of_split in Hx as (l1 & l2 & ->).
  apply NoDup_app in Hn as (_ & Hd & Hn). apply NoDup_cons in Hn as [Hx _].
  rewrite map_app, concat_app. cbn [map concat]. rewrite !List.filter_app, (lfilter_all p (f x)) by done.
  rewrite (lfilter_none p (concat (map f l1))), (lfilter_none p (concat (map f l2))); [by rewrite app_nil_r|..].
  - intros a Ha. apply elem_of_concat_map in Ha as (y & Hy & Ha). apply (Hf y a); [set_solver| |done]. by intros ->.
  - intros a Ha. apply elem_of_concat_map in Ha as (y & Hy & Ha). apply (Hf y a); [set_solver| |done].
    intros ->. apply (Hd x); [done|left].
Qed.

Lemma concat_singletons {A K} (g : K -> A) keys : concat (map (fun x => [g x]) keys) = map g keys.
Proof. induction keys as [|x keys IH]; cbn; [done|]. by rewrite IH. Qed.

Lemma matches_point_key b i k w : matches b i k w = point_key b (i, k) w.
Proof.
  unfold matches, point_key, has_key, slot_key. destruct (w_is_range w); cbn [negb andb]; [done|].
  destruct (Z.eqb_spec (f_id (w_cf w)) i) as [<-|H]; cbn [andb].
  - apply bool_decide_ext. split; congruence.
  - symmetry. apply bool_decide_eq_false_2. congruence.
Qed.

(** * Reading back what a commit wrote *)

Section Commit.
Context (write_hash : Z -> list byte -> Z) (fams : Z -> option Family).
Context (t : Txn) (HI : txn_inv write_hash fams t) (Hov : check_own_range_overlap t = Ok tt).

Lemma elem_of_buffered_ranges c s e :
  (c, s, e) ∈ buffered_ranges t <->
  exists w, w ∈ writes t /\ w_is_range w = true /\ c = w_cf w /\ s = buf_slice (buf t) (w_key w) /\ e = buf_slice (buf t) (w_value w).
Proof.
  unfold buffered_ranges. rewrite list_elem_of_omap, (inv_ranges _ _ _ HI). split.
  - intros (i & Hi & E). apply elem_of_lfilter in Hi as [_ Hi]. unfold at_pos in Hi.
    destruct (writes t !! i) as [w|] eqn:Ew; [|done]. injection E as <- <- <-. exists w.
    split; [by eapply list_elem_of_lookup_2|done].
  - intros (w & Hw & Hr & -> & -> & ->). apply list_elem_of_lookup in Hw as [i Hi]. exists i. rewrite Hi. split; [|done].
    apply elem_of_lfilter. split; [|unfold at_pos; by rewrite Hi].
    apply list_elem_of_In, in_seq. apply lookup_lt_Some in Hi. lia.
Qed.

Lemma family_of w cf : w ∈ writes t -> fams (f_id cf) = Some cf -> f_id (w_cf w) = f_id cf -> w_cf w = cf.
Proof.
  intros Hw Hf E. pose proof (inv_kinds _ _ _ HI) as HK. rewrite Forall_forall in HK.
  destruct (HK w Hw) as [HK' _]. rewrite E in HK'. congruence.
Qed.

(** No point write of the transaction is under one of its range deletes. *)
Lemma points_clear cf w :
  fams (f_id cf) = Some cf -> w ∈ writes t -> w_is_range w = false -> f_id (w_cf w) = f_id cf ->
  own_range_covers t cf (buf_slice (buf t) (w_key w)) = false.
Proof.
  intros Hf Hw Hr E. unfold check_own_range_overlap, guard in Hov.
  case_eq (forallb (fun w => w_is_range w ||
           negb (existsb (fun '(c, start, end_) =>
                   (f_id c =? f_id (w_cf w)) && range_covers (f_cmp (w_cf w)) start end_ (buf_slice (buf t) (w_key w)))
                 (buffered_ranges t))) (writes t)); intros Ef; rewrite Ef in Hov; [|discriminate].
  rewrite forallb_forall in Ef. specialize (Ef w (proj1 (list_elem_of_In _ _) Hw)). rewrite Hr in Ef. cbn [orb] in Ef.
  apply negb_true_iff in Ef. rewrite (family_of w cf) in Ef by done. exact Ef.
Qed.

Lemma range_self cf (TO : TotalOrder (f_cmp cf)) w :
  fams (f_id cf) = Some cf -> w ∈ writes t -> w_is_range w = true -> f_id (w_cf w) = f_id cf ->
  own_range_covers t cf (buf_slice (buf t) (w_key w)) = true.
Proof.
  intros Hf Hw Hr E. apply existsb_exists. exists (w_cf w, buf_slice (buf t) (w_key w), buf_slice (buf t) (w_value w)).
  split; [apply list_elem_of_In, elem_of_buffered_ranges; eauto 10|]. rewrite E, Z.eqb_refl. cbn [andb].
  pose proof (inv_bounds _ _ _ HI) as HB. rewrite Forall_forall in HB. specialize (HB w Hw Hr).
  rewrite (family_of w cf) in HB by done. unfold range_covers. apply andb_true_intro.
  split; [apply (is_le_true (f_cmp cf)), kle_refl; done|by apply (is_gt_true (f_cmp cf))].
Qed.

Lemma order_cases :
  deduplicated_write_order t =
  if existsb w_is_merge (writes t) then merge_aware_write_order t
  else snd (fold_left (dedup_order_step (buf t)) (enumerate (writes t)) (∅, [])).
Proof.
  unfold deduplicated_write_order. destruct (Nat.eqb_spec (length (writes t)) 1) as [E|_]; [|done].
  unfold merge_aware_write_order. destruct (writes t) as [|w [|w' l]]; cbn in E; try lia. cbn.
  rewrite lookup_empty. destruct (w_is_merge w); [done|]. by destruct (w_is_range w).
Qed.

Lemma at_pos_lookup {A} (p : A -> bool) l i : at_pos p l i = true <-> exists x, l !! i = Some x /\ p x = true.
Proof. unfold at_pos. destruct (l !! i) as [x|]; [|by split; [|intros (? & ? & ?)]]. split; [eauto|]. by intros (y & [= ->] & H). Qed.

Lemma matches_parts b i k w :
  matches b i k w = true <-> w_is_range w = false /\ f_id (w_cf w) = i /\ buf_slice b (w_key w) = k.
Proof. unfold matches. rewrite !andb_true_iff, negb_true_iff, Z.eqb_eq, bool_decide_eq_true. tauto. Qed.

Section Key.
Context (cf : Family) (k : list byte) (TO : TotalOrder (f_cmp cf)) (Hf : fams (f_id cf) = Some cf).

(** A key with a point write starts no range delete of its family. *)
Lemma key_is_point w x :
  w ∈ writes t -> matches (buf t) (f_id cf) k w = true -> x ∈ writes t -> has_key (buf t) (f_id cf, k) x = true ->
  matches (buf t) (f_id cf) k x = true.
Proof.
  intros Hw Hp Hx Hk. rewrite matches_point_key. unfold point_key. rewrite Hk, andb_true_r.
  destruct (w_is_range x) eqn:Er; [|done]. apply bool_decide_eq_true in Hk. injection Hk as Eid Es.
  apply matches_parts in Hp as (Hwr & Hwi & Hws).
  assert (own_range_covers t cf k = true) as Hc by (rewrite <- Es; by apply range_self).
  rewrite <- Hws, (points_clear cf w) in Hc by done. done.
Qed.

Lemma order_run_merge w :
  w ∈ writes t -> matches (buf t) (f_id cf) k w = true ->
  List.filter (at_pos (matches (buf t) (f_id cf) k) (writes t)) (merge_aware_write_order t) =
  run_of (matches (buf t) (f_id cf) k) (writes t).
Proof.
  intros Hw Hp. destruct (merge_order_spec (buf t) (writes t)) as (keys & Hn & Hin & _ & Hr).
  assert (slot_key (buf t) w = (f_id cf, k)) as Ew.
  { apply matches_parts in Hp as (_ & <- & <-). done. }
  unfold merge_aware_write_order. rewrite Hr. rewrite (filter_concat_single _ _ _ (f_id cf, k)); [|done|..].
  - apply run_of_ext. intros x Hx. destruct (has_key (buf t) (f_id cf, k) x) eqn:Ek.
    + symmetry. by apply (key_is_point w).
    + rewrite matches_point_key. unfold point_key. by rewrite Ek, andb_false_r.
  - rewrite <- Ew. auto.
  - intros i Hi. apply run_of_pos in Hi as (x & Hx & Hk). apply at_pos_lookup. exists x. split; [done|].
    apply (key_is_point w); [done|done|by eapply list_elem_of_lookup_2|done].
  - intros sk i Hsk Hne Hi. apply run_of_pos in Hi as (x & Hx & Hk). unfold at_pos. rewrite Hx, matches_point_key.
    apply andb_false_intro2. apply bool_decide_eq_true in Hk. apply bool_decide_eq_false_2. congruence.
Qed.

Lemma order_run_dedup w :
  w ∈ writes t -> matches (buf t) (f_id cf) k w = true ->
  List.filter (at_pos (matches (buf t) (f_id cf) k) (writes t))
    (snd (fold_left (dedup_order_step (buf t)) (enumerate (writes t)) (∅, []))) =
  option_list (last (positions (matches (buf t) (f_id cf) k) (writes t))).
Proof.
  intros Hw Hp. destruct (dedup_order_spec (buf t) (writes t)) as (keys & [Hn Hm Hr Hk] & ->).
  assert (forall sk, inr sk ∈ keys -> exists x, writes t !! slot_value (buf t) (writes t) (inr sk) = Some x /\
            point_key (buf t) sk x = true) as Hval.
  { intros sk Hsk. apply Hk in Hsk as (x & Hx & Hpx). cbn [slot_value]. rewrite <- rposition_positions.
    destruct (rposition_exists _ _ _ Hx Hpx) as (i & y & -> & Hy). eauto. }
  assert (inr (f_id cf, k) ∈ keys) as Hin.
  { apply Hk. exists w. split; [done|]. by rewrite <- matches_point_key. }
  rewrite <- concat_singletons, (filter_concat_single _ _ _ (inr (f_id cf, k))); [|done|done|..].
  - cbn [slot_value]. rewrite (positions_ext _ (matches (buf t) (f_id cf) k)).
    + rewrite <- rposition_positions. by destruct (rposition_exists _ _ _ Hw Hp) as (i & y & -> & _).
    + apply List.Forall_forall. intros x _. symmetry. apply matches_point_key.
  - intros i ->%list_elem_of_singleton. destruct (Hval _ Hin) as (x & Hx & Hpx). apply at_pos_lookup. exists x.
    by rewrite matches_point_key.
  - intros [j|sk] i Hj Hne ->%list_elem_of_singleton; unfold at_pos.
    + apply Hr in Hj. unfold at_pos in Hj. cbn [slot_value]. destruct (writes t !! j) as [x|]; [|done].
      unfold matches. by rewrite Hj.
    + destruct (Hval _ Hj) as (x & -> & Hx). rewrite matches_point_key. apply andb_prop in Hx as [_ Hx].
      apply andb_false_intro2. apply bool_decide_eq_true in Hx. apply bool_decide_eq_false_2. congruence.
Qed.

(** The writes of a key, in the order of the commit, are its run. *)
Lemma order_run :
  List.filter (at_pos (matches (buf t) (f_id cf) k) (writes t)) (deduplicated_write_order t) =
  run_of (matches (buf t) (f_id cf) k) (writes t).
Proof.
  set (p := matches (buf t) (f_id cf) k). destruct (existsb p (writes t)) eqn:Ex.
  - apply existsb_exists in Ex as (w & Hw%list_elem_of_In & Hpw). rewrite order_cases.
    destruct (existsb w_is_merge (writes t)) eqn:Em; [by apply (order_run_merge w)|].
    unfold p. rewrite (order_run_dedup w) by done. symmetry. apply run_of_bases. intros x Hx _.
    destruct (w_is_merge x) eqn:E; [|done]. rewrite <- Em. symmetry. apply existsb_exists.
    exists x. by rewrite <- list_elem_of_In.
  - assert (forall w, w ∈ writes t -> p w = false) as Hno.
    { intros w Hw. destruct (p w) eqn:E; [|done]. rewrite <- Ex. symmetry. apply existsb_exists.
      exists w. by rewrite <- list_elem_of_In. }
    rewrite run_of_none by done. apply lfilter_none. intros i _. destruct (at_pos p (writes t) i) eqn:E; [|done].
    apply at_pos_lookup in E as (w & Hw & Hp). rewrite Hno in Hp; [done|by eapply list_elem_of_lookup_2].
Qed.

(** No two range deletes of the family share a start. *)
Definition distinct_starts : Prop :=
  forall i j w w', writes t !! i = Some w -> writes t !! j = Some w' -> w_is_range w = true -> w_is_range w' = true ->
    f_id (w_cf w) = f_id cf -> slot_key (buf t) w = slot_key (buf t) w' -> i = j.

(** Every range delete of the family is committed. *)
Lemma order_ranges i w :
  existsb w_is_merge (writes t) = false \/ distinct_starts ->
  writes t !! i = Some w -> w_is_range w = true -> f_id (w_cf w) = f_id cf -> i ∈ deduplicated_write_order t.
Proof.
  intros Hd Hi Hr Hid. rewrite order_cases. case_eq (existsb w_is_merge (writes t)); intros Em.
  - destruct Hd as [Hd|Hd]; [congruence|]. destruct (merge_order_spec (buf t) (writes t)) as (keys & _ & Hin & _ & Hruns).
    assert (w ∈ writes t) as Hw by by eapply list_elem_of_lookup_2.
    unfold merge_aware_write_order. rewrite Hruns. apply elem_of_concat_map. exists (slot_key (buf t) w). split; [auto|].
    destruct (rposition_exists (has_key (buf t) (slot_key (buf t) w)) (writes t) w) as (j & x & Hj & Hx & Hk);
      [done|by apply bool_decide_eq_true_2|]. rewrite rposition_positions, <- run_of_last in Hj.
    apply last_Some in Hj as [l El]. assert (j = i) as ->; [|rewrite El; apply elem_of_app; right; by left].
    pose proof (proj1 (bool_decide_eq_true _) Hk) as Ek.
    destruct (w_is_range x) eqn:Ex; [by eapply Hd; eauto; unfold slot_key in Ek; congruence|].
    exfalso. assert (f_id (w_cf x) = f_id cf) as Exid by (unfold slot_key in Ek; congruence).
    assert (x ∈ writes t) as Hxin by by eapply list_elem_of_lookup_2.
    pose proof (range_self cf TO w Hf Hw Hr Hid) as Hc.
    replace (buf_slice (buf t) (w_key w)) with (buf_slice (buf t) (w_key x)) in Hc by (unfold slot_key in Ek; congruence).
    by rewrite points_clear in Hc.
  - destruct (dedup_order_spec (buf t) (writes t)) as (keys & [_ _ Hrk _] & ->).
    apply elem_of_map. exists (inl i). split; [|done]. apply Hrk. apply at_pos_lookup. eauto.
Qed.

(** ** The versions of a key a commit adds *)

Definition version_at (start : Z) (si : nat * nat) : option ChainVersion :=
  match writes t !! snd si with
  | Some w => Some (mkCV (start + Z.of_nat (fst si)) (w_is_merge w) (base_of (buf t) w))
  | None => None
  end.

Lemma group_points_versions start rs now_ (L : list (nat * nat)) :
  Forall (fun si => start + Z.of_nat (fst si) <= rs) L ->
  (forall w, w ∈ writes t -> matches (buf t) (f_id cf) k w = true -> expired (w_ttl w) now_ = false) ->
  map (chain_version now_) (run_versions (f_cmp cf) k rs (group_points
    (omap (fun '(slot, index) => match writes t !! index with
       | Some w => Some (f_id (w_cf w), record_of (buf t) w (start + Z.of_nat slot)) | None => None end) L) (f_id cf))) =
  omap (version_at start) (List.filter (fun si => at_pos (matches (buf t) (f_id cf) k) (writes t) (snd si)) L).
Proof.
  intros HL Hexp. induction HL as [|[slot i] L Hs HL IH]; [done|]. cbn [omap list_omap List.filter fst snd] in *.
  unfold at_pos at 1. destruct (writes t !! i) as [w|] eqn:Ew; [|exact IH].
  unfold group_points. cbn [omap list_omap]. fold (group_points). unfold record_of at 1.
  pose proof (Hexp w (list_elem_of_lookup_2 _ _ _ Ew)) as Hw. unfold matches in Hw |- *.
  destruct (w_is_range w); cbn [negb andb] in *; [exact IH|].
  destruct (Z.eqb_spec (f_id (w_cf w)) (f_id cf)) as [Eid|Eid]; cbn [andb] in *; [|exact IH].
  unfold run_versions. cbn [List.filter e_key e_seq].
  case_bool_decide as Ek.
  - replace (is_eq (compare (f_cmp cf) (buf_slice (buf t) (w_key w)) k)) with true
      by (symmetry; by apply (is_eq_true (f_cmp cf))).
    replace (start + Z.of_nat slot <=? rs) with true by (symmetry; by apply Z.leb_le). cbn [andb map omap list_omap].
    unfold version_at at 1. cbn [fst snd]. rewrite Ew. f_equal; [|exact IH].
    unfold chain_version, dead, e_tombstone, e_merge, base_of, w_tombstone, w_is_merge. cbn.
    by rewrite Hw, orb_false_r by done.
  - replace (is_eq (compare (f_cmp cf) (buf_slice (buf t) (w_key w)) k)) with false
      by (symmetry; by apply (is_eq_false (f_cmp cf))). exact IH.
Qed.

(** The slots of a key's run, oldest first. *)
Definition key_slots : list (nat * nat) :=
  List.filter (fun si => at_pos (matches (buf t) (f_id cf) k) (writes t) (snd si)) (enumerate (deduplicated_write_order t)).

Lemma map_snd_filter {A B} (p : B -> bool) (l : list (A * B)) :
  map snd (List.filter (fun x => p (snd x)) l) = List.filter p (map snd l).
Proof. induction l as [|[a b'] l IH]; cbn; [done|]. destruct (p b'); cbn; by rewrite IH. Qed.

Lemma enumerate_snd {A} (l : list A) : map snd (enumerate l) = l.
Proof. induction l as [|x l IH] using rev_ind; [done|]. by rewrite enumerate_snoc, map_app, IH. Qed.

Lemma enumerate_fst {A} (l : list A) : map fst (enumerate l) = List.seq 0 (length l).
Proof.
  induction l as [|x l IH] using rev_ind; [done|]. rewrite enumerate_snoc, map_app, IH, length_app, seq_app. done.
Qed.

Lemma key_slots_run : map snd key_slots = run_of (matches (buf t) (f_id cf) k) (writes t).
Proof. unfold key_slots. rewrite map_snd_filter, enumerate_snd. apply order_run. Qed.

Lemma enumerate_sorted {A} (l : list A) : StronglySorted (fun a b => fst a < fst b)%nat (enumerate l).
Proof.
  induction l as [|x l IH] using rev_ind; [constructor|]. rewrite enumerate_snoc.
  apply StronglySorted_app_2; [|done|repeat constructor]. intros a c Ha ->%list_elem_of_singleton. cbn.
  assert (fst a ∈ map fst (enumerate l)) as H by (apply elem_of_map; eauto). rewrite enumerate_fst in H.
  apply list_elem_of_In, in_seq in H. lia.
Qed.

Lemma StronglySorted_lfilter {A} (R : A -> A -> Prop) p l : StronglySorted R l -> StronglySorted R (List.filter p l).
Proof.
  induction 1 as [|x l Hs IH HF]; cbn; [constructor|]. destruct (p x); [|done]. constructor; [done|].
  rewrite Forall_forall in HF |- *. intros y Hy. apply elem_of_lfilter in Hy as [Hy _]. auto.
Qed.

Lemma key_slots_sorted : StronglySorted (fun a b => fst a < fst b)%nat key_slots.
Proof. apply StronglySorted_lfilter, enumerate_sorted. Qed.

Definition commit_spans (rs start : Z) : list ChainVersion :=
  span_versions (f_cmp cf) k rs (group_ranges (apply_prepared t (deduplicated_write_order t) start) (f_id cf)).

(** A version of a committed range delete is one of the transaction's. *)
Lemma commit_spans_covers rs start v :
  v ∈ commit_spans rs start -> cv_merge v = false /\ cv_value v = None /\ start <= cv_seq v /\ own_range_covers t cf k = true.
Proof.
  unfold commit_spans, span_versions. intros Hv. apply elem_of_map in Hv as (s & Hs & <-).
  apply elem_of_lfilter in Hs as [Hs Hc]. apply andb_prop in Hc as [Hc _]. unfold group_ranges in Hs.
  apply list_elem_of_omap in Hs as ([j r] & Hr & E). unfold apply_prepared in Hr.
  apply list_elem_of_omap in Hr as ([slot i] & Hi & Er). destruct (writes t !! i) as [w|] eqn:Ew; [|done].
  injection Er as <- <-. unfold record_of in E. destruct (w_is_range w) eqn:Hw; [|done].
  destruct (Z.eqb_spec (f_id (w_cf w)) (f_id cf)) as [Eid|]; [|done]. injection E as <-.
  cbn [cv_merge cv_value cv_seq s_seq]. split; [done|]. split; [done|]. split; [lia|].
  apply existsb_exists. exists (w_cf w, buf_slice (buf t) (w_key w), buf_slice (buf t) (w_value w)). split.
  - apply list_elem_of_In, elem_of_buffered_ranges. exists w. split; [by eapply list_elem_of_lookup_2|done].
  - rewrite Eid, Z.eqb_refl. exact Hc.
Qed.

Lemma commit_spans_exists rs start :
  existsb w_is_merge (writes t) = false \/ distinct_starts ->
  start + Z.of_nat (length (deduplicated_write_order t)) <= rs ->
  own_range_covers t cf k = true -> commit_spans rs start <> [].
Proof.
  intros Hd Hrs Hc. apply existsb_exists in Hc as ([[c s] e] & Hin & Hc). apply list_elem_of_In in Hin.
  apply elem_of_buffered_ranges in Hin as (w & Hw & Hr & -> & -> & ->). apply andb_prop in Hc as [Eid Hc].
  apply Z.eqb_eq in Eid. apply list_elem_of_lookup in Hw as [i Hi].
  pose proof (order_ranges i w Hd Hi Hr Eid) as Ho. apply list_elem_of_lookup in Ho as [slot Hslot].
  assert (mkCV (start + Z.of_nat slot) false None ∈ commit_spans rs start) as Hv; [|intros E; rewrite E in Hv; by apply elem_of_nil in Hv].
  unfold commit_spans, span_versions. apply elem_of_map.
  exists (mkSpan (buf_slice (buf t) (w_key w)) (buf_slice (buf t) (w_value w)) (start + Z.of_nat slot)). split; [|done].
  apply elem_of_lfilter. split.
  - unfold group_ranges. apply list_elem_of_omap. exists (f_id cf, record_of (buf t) w (start + Z.of_nat slot)). split.
    + unfold apply_prepared. apply list_elem_of_omap. exists (slot, i). rewrite Hi, Eid. split; [|done].
      apply (list_elem_of_lookup_2 _ slot). unfold enumerate. by rewrite list_lookup_imap, Hslot.
    + unfold record_of. by rewrite Hr, Z.eqb_refl.
  - apply andb_true_intro. split; [exact Hc|]. cbn [s_seq]. apply Z.leb_le. apply lookup_lt_Some in Hslot. lia.
Qed.

(** ** The buffered chain is the chain of those versions *)

Definition run_values (ws : list WriteEntry) (R : list nat) : list (list byte) :=
  omap (fun i => match ws !! i with Some w => Some (buf_slice (buf t) (w_value w)) | None => None end) R.

Definition chain_of_run (ws : list WriteEntry) (R : list nat) : option BufferedChain :=
  match R with
  | [] => None
  | i :: R' =>
      match ws !! i with
      | Some w => Some (if w_is_merge w then mkChain None (run_values ws R) else mkChain (Some (base_of (buf t) w)) (run_values ws R'))
      | None => None
      end
  end.

Lemma run_values_app ws ws' R : Forall (fun i => i < length ws)%nat R -> run_values (ws ++ ws') R = run_values ws R.
Proof. induction 1 as [|i R Hi _ IH]; cbn; [done|]. rewrite lookup_app_l by done. unfold run_values in IH. by rewrite IH. Qed.

Lemma chain_of_run_app ws ws' R : Forall (fun i => i < length ws)%nat R -> chain_of_run (ws ++ ws') R = chain_of_run ws R.
Proof.
  intros HF. destruct R as [|i R]; cbn [chain_of_run]; [done|]. pose proof HF as HF'. apply Forall_cons in HF' as [Hi HF'].
  rewrite lookup_app_l by done. destruct (ws !! i); [|done]. by rewrite !run_values_app.
Qed.

Lemma run_values_snoc ws R i w :
  ws !! i = Some w -> run_values ws (R ++ [i]) = run_values ws R ++ [buf_slice (buf t) (w_value w)].
Proof. intros Hi. unfold run_values. rewrite omap_app. cbn. by rewrite Hi. Qed.

Lemma scan_chain_run i ws :
  scan_chain (buf t) i k ws None = chain_of_run ws (run_of (matches (buf t) i k) ws).
Proof.
  induction ws as [|w ws IH] using rev_ind; [done|]. rewrite scan_chain_app, IH, run_of_snoc. clear IH. cbn [scan_chain].
  set (R := run_of (matches (buf t) i k) ws).
  assert (Forall (fun j => j < length ws)%nat R) as HF.
  { apply List.Forall_forall. intros j Hj%list_elem_of_In. apply run_of_pos in Hj as (x & Hx & _). by eapply lookup_lt_Some. }
  assert ((ws ++ [w]) !! length ws = Some w) as Hl by by apply list_lookup_middle.
  destruct (matches (buf t) i k w); cbn [negb]; [|by rewrite chain_of_run_app].
  destruct (w_is_merge w) eqn:Em; [|cbn [chain_of_run]; by rewrite Hl, Em].
  rewrite <- (chain_of_run_app ws [w] R) by done. destruct R as [|j R]; cbn [chain_of_run app].
  - rewrite Hl, Em. cbn. by rewrite Hl.
  - apply Forall_cons in HF as [Hj _]. rewrite lookup_app_l by done.
    destruct (lookup_lt_is_Some_2 _ _ Hj) as [x Hx]. rewrite Hx.
    change (j :: R ++ [length ws]) with ((j :: R) ++ [length ws]). rewrite !(run_values_snoc _ _ _ w) by done.
    by destruct (w_is_merge x).
Qed.

Lemma run_of_tail p ws i : i ∈ tail (run_of p ws) -> at_pos w_is_merge ws i = true.
Proof.
  induction ws as [|w ws IH] using rev_ind; [intros H; by apply elem_of_nil in H|]. rewrite run_of_snoc.
  assert (i ∈ tail (run_of p ws) -> at_pos w_is_merge (ws ++ [w]) i = true) as IH'.
  { intros H. apply IH in H. apply at_pos_lookup in H as (x & Hx & H). apply at_pos_lookup. exists x.
    split; [by apply lookup_app_l_Some|done]. }
  destruct (p w); [|done]. destruct (w_is_merge w) eqn:Em; [|intros H; by apply elem_of_nil in H].
  destruct (run_of p ws) as [|j R]; [intros H; by apply elem_of_nil in H|]. cbn [app tail].
  intros H. apply elem_of_app in H as [H|H]; [auto|]. apply list_elem_of_singleton in H as ->. by rewrite at_pos_snoc.
Qed.

(** What a chain and the store below it read as. *)
Definition chain_result (op : option MergeOp) (c : BufferedChain) (below : list (list byte) * option (list byte))
    : result (list byte) :=
  resolve op k (match bc_base c with Some base => (bc_operands c, base) | None => (fst below ++ bc_operands c, snd below) end).

Lemma walk_operand_app ops vs : walk ops vs = (fst (walk [] vs) ++ ops, snd (walk [] vs)).
Proof.
  revert ops. induction vs as [|v vs IH]; intros ops; cbn; [done|]. destruct (cv_merge v); [|done].
  rewrite IH, (IH [_]). cbn. by rewrite <- app_assoc.
Qed.

Lemma walk_merges start M ops C :
  Forall (fun si => at_pos w_is_merge (writes t) (snd si) = true) M ->
  walk ops (rev (omap (version_at start) M) ++ C) = walk (run_values (writes t) (map snd M) ++ ops) C.
Proof.
  intros HF. revert C. induction HF as [|[slot i] M Hsi _ IH]; intros C; [done|].
  apply at_pos_lookup in Hsi as (w & Hw & Hm). cbn [snd] in Hw. cbn [omap list_omap map run_values].
  unfold version_at at 1. cbn [fst snd]. rewrite Hw. cbn [rev]. rewrite <- app_assoc. cbn [app]. rewrite IH.
  cbn [walk cv_merge cv_value]. rewrite Hm. unfold base_of.
  assert (w_tombstone w = false) as -> by (unfold w_tombstone, w_is_merge in *; apply Z.eqb_eq in Hm; by rewrite Hm).
  done.
Qed.

Lemma walk_run start M C c :
  Forall (fun si => at_pos w_is_merge (writes t) (snd si) = true) (tail M) ->
  chain_of_run (writes t) (map snd M) = Some c ->
  walk [] (rev (omap (version_at start) M) ++ C) =
  match bc_base c with Some base => (bc_operands c, base) | None => (fst (walk [] C) ++ bc_operands c, snd (walk [] C)) end.
Proof.
  destruct M as [|[slot i] M]; cbn [tail map chain_of_run]; [done|]. intros HF.
  destruct (writes t !! snd (slot, i)) as [w|] eqn:Ew; [|done]. intros [= <-].
  destruct (w_is_merge w) eqn:Em; cbn [bc_base bc_operands].
  - rewrite walk_merges; [|constructor; [apply at_pos_lookup; eauto|done]]. rewrite walk_operand_app.
    by rewrite app_nil_r.
  - cbn [omap list_omap]. unfold version_at at 1. rewrite Ew. cbn [rev]. rewrite <- app_assoc, walk_merges by done.
    cbn. by rewrite Em, app_nil_r.
Qed.

Lemma elem_of_rev {A} (l : list A) x : x ∈ rev l <-> x ∈ l.
Proof. rewrite !list_elem_of_In. symmetry. apply in_rev. Qed.

Lemma StronglySorted_rev_newer vs : StronglySorted (fun a b => cv_seq a < cv_seq b) vs -> StronglySorted newer (rev vs).
Proof.
  induction 1 as [|v vs Hs IH HF]; cbn; [constructor|]. rewrite Forall_forall in HF.
  apply StronglySorted_app_2; [|done|repeat constructor]. intros a c Ha ->%list_elem_of_singleton.
  apply HF. by apply elem_of_rev.
Qed.

(** Newer versions in front of a chain. *)
Lemma read_all_above op vs sv :
  consistent sv -> StronglySorted (fun a b => cv_seq a < cv_seq b) vs ->
  (forall v w, v ∈ vs -> w ∈ sv -> cv_seq w < cv_seq v) ->
  read_all op k (vs ++ sv) = resolve op k (walk [] (rev vs ++ chain sv)).
Proof.
  intros Hc Hs Hb. assert (forall a c, a ∈ vs -> c ∈ vs -> cv_seq a = cv_seq c -> a = c) as Hvs.
  { intros a c Ha Hc' E. apply list_elem_of_lookup in Ha as [i Hi]. apply list_elem_of_lookup in Hc' as [j Hj].
    destruct (lt_eq_lt_dec i j) as [[Hlt|Hij]|Hlt]; [|congruence|].
    - pose proof (StronglySorted_lookup_lt _ _ _ _ _ _ Hs Hi Hj Hlt). cbn in *. lia.
    - pose proof (StronglySorted_lookup_lt _ _ _ _ _ _ Hs Hj Hi Hlt). cbn in *. lia. }
  assert (consistent (vs ++ sv)) as Hcc.
  { intros a c Ha Hc' E. apply elem_of_app in Ha as [Ha|Ha]; apply elem_of_app in Hc' as [Hc'|Hc']; [auto| | |auto].
    - specialize (Hb a c Ha Hc'). lia.
    - specialize (Hb c a Hc' Ha). lia. }
  destruct (chain_spec sv Hc) as [S1 E1]. destruct (chain_spec _ Hcc) as [S2 E2].
  rewrite read_all_resolve. f_equal. apply walk_prefix; [done| | |].
  - apply StronglySorted_app_2; [|by apply StronglySorted_rev_newer|done].
    intros a c Ha Hc'. apply Hb; [by apply elem_of_rev|by apply E1].
  - intros v. rewrite E2, !elem_of_app, E1. intros [H|H]; [left|by right]. by apply elem_of_rev.
  - intros v Hv _. rewrite E2, elem_of_app in Hv. rewrite elem_of_app, E1. destruct Hv as [H|H]; [left|by right].
    by apply elem_of_rev.
Qed.

(** ** What the key reads as once committed *)

Definition commit_versions (start rs now_ : Z) : list ChainVersion :=
  let recs := apply_prepared t (deduplicated_write_order t) start in
  map (chain_version now_) (run_versions (f_cmp cf) k rs (group_points recs (f_id cf))) ++
  span_versions (f_cmp cf) k rs (group_ranges recs (f_id cf)).

Definition own_run : list nat := run_of (matches (buf t) (f_id cf) k) (writes t).

Lemma key_slots_bound start rs :
  start + Z.of_nat (length (deduplicated_write_order t)) <= rs ->
  Forall (fun si => start + Z.of_nat (fst si) <= rs) (enumerate (deduplicated_write_order t)).
Proof.
  intros Hrs. apply Forall_forall. intros si Hsi.
  assert (fst si ∈ map fst (enumerate (deduplicated_write_order t))) as H by (apply elem_of_map; eauto).
  rewrite enumerate_fst in H. apply list_elem_of_In, in_seq in H. lia.
Qed.

Lemma key_versions_sorted start M :
  StronglySorted (fun a b => fst a < fst b)%nat M ->
  StronglySorted (fun a b => cv_seq a < cv_seq b) (omap (version_at start) M).
Proof.
  induction 1 as [|[slot i] M Hs IH HF]; cbn [omap list_omap]; [constructor|]. unfold version_at at 1. cbn [fst snd].
  destruct (writes t !! i); [|done]. constructor; [done|]. rewrite Forall_forall in HF. apply Forall_forall. intros v Hv.
  apply list_elem_of_omap in Hv as ([slot' i'] & Hin & E). specialize (HF _ Hin). unfold version_at in E. cbn [fst snd] in *.
  destruct (writes t !! i'); [|done]. injection E as <-. cbn. lia.
Qed.

Lemma key_versions_seq start v : v ∈ omap (version_at start) key_slots -> start <= cv_seq v.
Proof.
  intros Hv. apply list_elem_of_omap in Hv as ([slot i] & _ & E). unfold version_at in E. cbn [fst snd] in E.
  destruct (writes t !! i); [|done]. injection E as <-. cbn. lia.
Qed.

Section Read.
Context (start rs now_ : Z) (sv : list ChainVersion) (op : option MergeOp).
Context (Hd : existsb w_is_merge (writes t) = false \/ distinct_starts).
Context (Hexp : forall w, w ∈ writes t -> matches (buf t) (f_id cf) k w = true -> expired (w_ttl w) now_ = false).
Context (Hrs : start + Z.of_nat (length (deduplicated_write_order t)) <= rs).
Context (Hsv : consistent sv) (Hbelow : forall v, v ∈ sv -> cv_seq v < start).

Lemma commit_versions_eq : commit_versions start rs now_ = omap (version_at start) key_slots ++ commit_spans rs start.
Proof.
  unfold commit_versions, commit_spans. f_equal. unfold apply_prepared. rewrite group_points_versions; [done| |done].
  by apply key_slots_bound.
Qed.

Lemma commit_read_point c :
  chain_of_run (writes t) own_run = Some c ->
  read_all op k (commit_versions start rs now_ ++ sv) = chain_result op c (walk [] (chain sv)).
Proof.
  intros Hc. rewrite commit_versions_eq.
  assert (commit_spans rs start = []) as ->.
  { destruct (commit_spans rs start) as [|v l] eqn:E; [done|]. exfalso.
    destruct (commit_spans_covers rs start v) as (_ & _ & _ & Hcov); [rewrite E; left|].
    destruct own_run as [|i R] eqn:ER; [done|].
    destruct (run_of_pos (matches (buf t) (f_id cf) k) (writes t) i) as (w & Hw & Hm); [unfold own_run in ER; rewrite ER; left|].
    apply matches_parts in Hm as (Hr & Hid & <-). rewrite (points_clear cf w) in Hcov; [done..|by eapply list_elem_of_lookup_2|done|done]. }
  rewrite app_nil_r, read_all_above; [|done|apply key_versions_sorted, key_slots_sorted|].
  - unfold chain_result. rewrite (walk_run start key_slots _ c); [done| |by rewrite key_slots_run].
    apply Forall_forall. intros si Hsi. apply (run_of_tail (matches (buf t) (f_id cf) k)). rewrite <- key_slots_run.
    destruct key_slots as [|x l]; [by apply elem_of_nil in Hsi|]. cbn [map tail] in *. apply elem_of_map. eauto.
  - intros v w Hv%key_versions_seq Hw%Hbelow. lia.
Qed.

Lemma read_all_deleted ws :
  consistent ws -> ws <> [] ->
  (forall w, w ∈ ws -> (cv_merge w = false /\ cv_value w = None) \/ exists v, v ∈ ws /\ newer v w) ->
  read_all op k ws = Err NotFound.
Proof.
  intros Hc Hne Hw. rewrite read_all_resolve. destruct (chain_spec ws Hc) as [Hs He].
  destruct (chain ws) as [|h l].
  - destruct ws as [|w ws]; [done|]. assert (w ∈ @nil ChainVersion) as H by (apply He; left). by apply elem_of_nil in H.
  - apply StronglySorted_inv in Hs as [_ Hs]. rewrite Forall_forall in Hs.
    destruct (Hw h) as [[H1 H2]|(v & Hv & Hn)]; [apply He; left|cbn; by rewrite H1, H2|].
    apply He in Hv. apply elem_of_cons in Hv as [->|Hv]; [unfold newer in Hn; lia|].
    specialize (Hs v Hv). unfold newer in *. lia.
Qed.

Lemma commit_spans_consistent : consistent (commit_spans rs start ++ sv).
Proof.
  assert (forall x, x ∈ commit_spans rs start -> x = mkCV (cv_seq x) false None /\ start <= cv_seq x) as Hsp.
  { intros [s m o] Hx. apply commit_spans_covers in Hx as (Hm & Ho & Hs & _). cbn in *. by subst. }
  intros a c Ha Hc' Es.
  apply elem_of_app in Ha as [Ha|Ha]; apply elem_of_app in Hc' as [Hc'|Hc']; [| | |by apply Hsv].
  - destruct (Hsp a Ha) as [-> _], (Hsp c Hc') as [-> _]. cbn in Es. by rewrite Es.
  - destruct (Hsp a Ha) as [_ Hs1]. specialize (Hbelow c Hc'). lia.
  - destruct (Hsp c Hc') as [_ Hs1]. specialize (Hbelow a Ha). lia.
Qed.

Lemma commit_read_rest :
  own_run = [] ->
  read_all op k (commit_versions start rs now_ ++ sv) = if own_range_covers t cf k then Err NotFound else read_all op k sv.
Proof.
  intros HR. rewrite commit_versions_eq. pose proof key_slots_run as Hk. unfold own_run in HR. rewrite HR in Hk.
  destruct key_slots; [|done]. cbn [omap list_omap app].
  case_eq (own_range_covers t cf k); intros Hc.
  - destruct (commit_spans rs start) as [|v0 l0] eqn:E; [by destruct (commit_spans_exists rs start Hd Hrs Hc)|].
    rewrite <- E. apply read_all_deleted; [apply commit_spans_consistent|rewrite E; done|].
    intros w Hw. apply elem_of_app in Hw as [Hw|Hw].
    + left. by destruct (commit_spans_covers rs start w Hw) as (? & ? & _).
    + right. exists v0. assert (v0 ∈ commit_spans rs start) as Hv0 by (rewrite E; left).
      destruct (commit_spans_covers rs start v0 Hv0) as (_ & _ & Hs & _). specialize (Hbelow w Hw).
      split; [apply elem_of_app; by left|]. unfold newer. lia.
  - destruct (commit_spans rs start) as [|v0 l0] eqn:E; [done|].
    destruct (commit_spans_covers rs start v0) as (_ & _ & _ & Hc'); [rewrite E; left|congruence].
Qed.
End Read.

(** ** What it reads as before *)

Lemma chain_of_run_ops R c : chain_of_run (writes t) R = Some c -> bc_base c = None -> bc_operands c <> [].
Proof.
  destruct R as [|i R]; cbn [chain_of_run]; [done|]. destruct (writes t !! i) as [w|] eqn:E; [|done].
  destruct (w_is_merge w); intros [= <-]; cbn [bc_base bc_operands]; [|done]. unfold run_values. cbn. by rewrite E.
Qed.

(** Folding the buffered operands onto what the store answers is folding the whole chain. *)
Lemma fold_onto_store op o e ops :
  merge_assoc op -> ops <> [] -> resolve (Some op) k (o, e) <> Err Corruption ->
  match resolve (Some op) k (o, e) with
  | Ok v => full_merge op k (Some v) ops
  | Err NotFound => full_merge op k None ops
  | Err e => Err e
  end = full_merge op k e (o ++ ops).
Proof.
  intros Ha Hn Hok. unfold resolve in *. cbn [fst snd] in *. destruct o as [|x o].
  - by destruct e.
  - unfold full_merge in *. destruct (op k e (x :: o)) as [v|] eqn:E; [|done].
    by rewrite (Ha k e (x :: o) ops v ltac:(done) Hn E).
Qed.

Lemma no_operands w :
  f_merge cf = None -> w ∈ writes t -> matches (buf t) (f_id cf) k w = true -> w_is_merge w = false.
Proof.
  intros Hm Hw Hp. apply matches_parts in Hp as (_ & Hid & _). pose proof (inv_kinds _ _ _ HI) as HK.
  rewrite Forall_forall in HK. destruct (HK w Hw) as (_ & Hop & _). rewrite (family_of w cf Hw Hf Hid) in Hop.
  destruct (w_is_merge w); [|done]. destruct Hop as [op Hop]; [done|]. congruence.
Qed.

Lemma plain_read floor sv :
  (forall w, w ∈ writes t -> matches (buf t) (f_id cf) k w = true -> w_is_merge w = false) ->
  newest_point_write write_hash t (f_id cf) k = rposition (matches (buf t) (f_id cf) k) (writes t) ->
  fst (match plan_point_read write_hash t cf k floor with
    | (Buffered r, t) => (Ok (buf_slice (buf t) r), t)
    | (Missing, t) => (Err NotFound, t)
    | (Store rs, t) => (read_all (f_merge cf) k sv, t)
    end) =
  match chain_of_run (writes t) own_run with
  | Some c => chain_result (f_merge cf) c (walk [] (chain sv))
  | None => if own_range_covers t cf k then Err NotFound else read_all (f_merge cf) k sv
  end.
Proof.
  intros Hm Hn. unfold plan_point_read, own_run. rewrite Hn, run_of_bases, <- rposition_positions by done.
  destruct (rposition _ _) as [i|] eqn:E; cbn [mbind option_bind].
  - apply rposition_Some in E as (w & Hw & Hp). change (option_list (Some i)) with [i]. cbn [chain_of_run]. rewrite Hw, (Hm w) by (by eapply list_elem_of_lookup_2 || done).
    unfold chain_result, resolve. cbn. unfold base_of. by destruct (w_tombstone w).
  - by destruct (own_range_covers t cf k).
Qed.

Lemma get_read floor sv :
  ensure_write_index write_hash t = t ->
  (forall op, f_merge cf = Some op -> merge_assoc op) ->
  read_all (f_merge cf) k sv <> Err Corruption ->
  newest_point_write write_hash t (f_id cf) k = rposition (matches (buf t) (f_id cf) k) (writes t) ->
  buffered_chain write_hash t (f_id cf) k = scan_chain (buf t) (f_id cf) k (writes t) None ->
  fst (txn_get write_hash t cf k floor (fun _ => read_all (f_merge cf) k sv)) =
  match chain_of_run (writes t) own_run with
  | Some c => chain_result (f_merge cf) c (walk [] (chain sv))
  | None => if own_range_covers t cf k then Err NotFound else read_all (f_merge cf) k sv
  end.
Proof.
  intros He Ha Hok Hn Hb. unfold txn_get. rewrite He. pose proof (plain_read floor sv) as HP. case_eq (f_merge cf).
  2: { intros Hm. rewrite Hm in HP. apply HP; [|done]. intros w Hw Hp. by apply no_operands. }
  intros op Hop. rewrite Hop in HP, Hok. rewrite Hb, scan_chain_run. fold own_run.
  destruct (chain_of_run (writes t) own_run) as [[base ops]|] eqn:Ec; cbn [bc_operands bc_base].
  - unfold chain_result. cbn [bc_base bc_operands]. destruct base as [base|].
    + unfold fold_buffered, resolve. rewrite Hop. cbn [fst snd]. by destruct ops, base.
    + pose proof (chain_of_run_ops _ _ Ec eq_refl) as Hne. cbn [bc_operands] in Hne.
      destruct ops as [|o ops]; [done|]. unfold note_store_read, fold_buffered. cbn [fst]. rewrite Hop.
      rewrite read_all_resolve in *. destruct (walk [] (chain sv)) as [os e]. cbn [fst snd].
      rewrite fold_onto_store by auto. unfold resolve. cbn [fst snd].
      destruct (os ++ o :: ops) as [|? ?] eqn:E; [|done]. by apply app_eq_nil in E as [_ E].
  - apply HP; [|done]. intros w Hw Hp.
    assert (own_run = []) as HR.
    { destruct own_run as [|i R] eqn:ER; [done|]. exfalso.
      destruct (run_of_pos (matches (buf t) (f_id cf) k) (writes t) i) as (x & Hx & _); [unfold own_run in ER; rewrite ER; left|].
      cbn [chain_of_run] in Ec. by rewrite Hx in Ec. }
    destruct (rposition_exists _ _ _ Hw Hp) as (i & y & Hi & _). rewrite rposition_positions, <- run_of_last in Hi.
    unfold own_run in HR. by rewrite HR in Hi.
Qed.
End Key.
End Commit.

(** * Properties *)

Section Laws.
Context (write_hash : Z -> list byte -> Z) (fams : Z -> option Family) (caps_ : Z).

Lemma index_reads t i k :
  txn_inv write_hash fams t ->
  newest_point_write write_hash t i k = rposition (matches (buf t) i k) (writes t) /\
  buffered_chain write_hash t i k = scan_chain (buf t) i k (writes t) None.
Proof.
  intros HI. unfold newest_point_write, buffered_chain. destruct (write_index t) as [ix|] eqn:E; [|done].
  rewrite (inv_index _ _ _ HI ix E). split; [apply find_chain|]. unfold indexed_chain.
  by rewrite index_chain_build, (scan_chain_loop write_hash).
Qed.

(** Everything but the index, which is a cache. *)
Definition unindexed (t : Txn) : Txn := with_writes t (buf t) (writes t) None (range_writes t).

Lemma ensure_idem t :
  ensure_write_index write_hash (ensure_write_index write_hash t) = ensure_write_index write_hash t.
Proof.
  unfold ensure_write_index. destruct (write_index t) eqn:E; [by rewrite E|].
  destruct (_ <=? _)%nat eqn:El; [done|]. by rewrite E, El.
Qed.

Lemma txn_get_ensure t cf k floor store :
  txn_get write_hash (ensure_write_index write_hash t) cf k floor store = txn_get write_hash t cf k floor store.
Proof. unfold txn_get. by rewrite ensure_idem. Qed.

Lemma ensure_cases t :
  ensure_write_index write_hash t = t \/
  exists ix, ensure_write_index write_hash t = with_writes t (buf t) (writes t) ix (range_writes t).
Proof. unfold ensure_write_index. destruct (write_index t); [by left|]. destruct (_ <=? _)%nat; eauto. Qed.

Lemma own_reads_indexed t cf k floor start rs now_ sv (TO : TotalOrder (f_cmp cf)) :
  txn_inv write_hash fams t -> ensure_write_index write_hash t = t -> fams (f_id cf) = Some cf ->
  (forall op, f_merge cf = Some op -> merge_assoc op) ->
  check_own_range_overlap t = Ok tt ->
  existsb w_is_merge (writes t) = false \/ distinct_starts t cf ->
  (forall w, w ∈ writes t -> matches (buf t) (f_id cf) k w = true -> expired (w_ttl w) now_ = false) ->
  consistent sv -> (forall v, v ∈ sv -> cv_seq v < start) ->
  start + Z.of_nat (length (deduplicated_write_order t)) <= rs ->
  read_all (f_merge cf) k sv <> Err Corruption ->
  fst (txn_get write_hash t cf k floor (fun _ => read_all (f_merge cf) k sv)) =
  read_all (f_merge cf) k (commit_versions t cf k start rs now_ ++ sv).
Proof.
  intros HI He Hf Ha Hov Hd Hexp Hsv Hb Hrs Hok. destruct (index_reads t (f_id cf) k HI) as [Hn Hc].
  rewrite (get_read write_hash fams) by done.
  destruct (chain_of_run t (writes t) (own_run t cf k)) as [c|] eqn:Ec.
  - symmetry. by eapply commit_read_point.
  - symmetry. eapply commit_read_rest; try done.
    destruct (own_run t cf k) as [|i R] eqn:ER; [done|]. exfalso.
    destruct (run_of_pos (matches (buf t) (f_id cf) k) (writes t) i) as (x & Hx & _); [unfold own_run in ER; rewrite ER; left|].
    cbn [chain_of_run] in Ec. by rewrite Hx in Ec.
Qed.

(** C32: Whatever hash the buffer's index uses, colliding or not, and however
    the transaction came to its state (writes, range deletes, reads that build
    the index, savepoints and rollbacks that unwind it), a point lookup and a
    merge-chain lookup through the index answer exactly what the scan of the
    whole buffer answers. *)
Theorem index_reads_as_scan t i k :
  reachable write_hash fams caps_ t ->
  newest_point_write write_hash t i k = rposition (matches (buf t) i k) (writes t) /\
  buffered_chain write_hash t i k = scan_chain (buf t) i k (writes t) None.
Proof. intros HR. apply index_reads. by eapply inv_reachable. Qed.

(** C17: A rollback undoes everything since its savepoint: from any reachable
    state, set a savepoint, do anything that does not release it (nested
    savepoints and rollbacks included), and roll back to it, and the
    transaction is the one the savepoint was set in: arena, writes, range
    deletes, read set, read log, families read and older savepoints, up to
    the index, a cache. *)
Theorem rollback_restores name t t' :
  reachable write_hash fams caps_ t ->
  steps_keeping write_hash fams caps_ (length (savepoints t)) (set_savepoint name t) t' ->
  rposition (sp_named name) (savepoints t') = Some (length (savepoints t)) ->
  exists t'', rollback_to_savepoint write_hash name t' = Ok t'' /\ unindexed t'' = unindexed (set_savepoint name t).
Proof.
  intros HR Hs Hpos. apply inv_reachable in HR as HI. pose proof (inv_set_savepoint _ _ name t HI) as HI1.
  assert (savepoints (set_savepoint name t) !! length (savepoints t) =
          Some (name, length (writes t), length (buf t), length (read_log t))) as Hsp by by apply list_lookup_middle.
  destruct (grown_steps write_hash fams caps_ (length (savepoints t)) (set_savepoint name t) t') as [HI' HG];
    [cbn; rewrite length_app; cbn; lia|done|by exists name|done|].
  destruct HG as [Hsc [b Hb] [w Hw] [l Hl] Hsv]. cbn [buf writes read_log set_savepoint with_savepoints] in Hb, Hw, Hl.
  rewrite (rollback_eq write_hash fams caps_ name t' HI'), Hpos. cbn [mbind option_bind].
  rewrite (prefix_lookup_Some _ _ _ _ Hsp Hsv). cbn [fmap option_fmap option_map]. eexists. split; [done|].
  unfold unindexed, rolled_back, with_writes. cbn -[positions]. rewrite Hb, Hw, Hl, !take_app_exact by done.
  injection Hsc as -> -> -> -> ->. destruct Hsv as [sv Hsv]. rewrite Hsv, take_app_exact by (cbn; rewrite length_app; cbn; lia).
  rewrite <- (inv_ranges _ _ _ HI), <- (inv_set _ _ _ HI), <- (inv_cfs _ _ _ HI). done.
Qed.

(** C16: What a transaction reads of its own writes is what everyone reads once
    it has committed.  The buffered answer (the newest buffered write, the
    buffered merge chain folded onto the store, a covering range delete, or
    the store) is the newest-version reading of the store's versions together
    with the records the commit hands over, each at its own sequence above
    the store's, for every transaction the commit's own-overlap check
    accepts.  The conditions: the operator is associative as its contract asks;
    no buffered write of the key has expired by the time it is read; in a
    transaction that merges no two range deletes of the family share a start
    (the commit keeps only the later one, C33); and the store reads the key
    without corruption. *)
Theorem own_reads_survive_commit t cf k floor start rs now_ sv (TO : TotalOrder (f_cmp cf)) :
  reachable write_hash fams caps_ t -> fams (f_id cf) = Some cf ->
  (forall op, f_merge cf = Some op -> merge_assoc op) ->
  check_own_range_overlap t = Ok tt ->
  existsb w_is_merge (writes t) = false \/ distinct_starts t cf ->
  (forall w, w ∈ writes t -> matches (buf t) (f_id cf) k w = true -> expired (w_ttl w) now_ = false) ->
  consistent sv -> (forall v, v ∈ sv -> cv_seq v < start) ->
  start + Z.of_nat (length (deduplicated_write_order t)) <= rs ->
  read_all (f_merge cf) k sv <> Err Corruption ->
  fst (txn_get write_hash t cf k floor (fun _ => read_all (f_merge cf) k sv)) =
  read_all (f_merge cf) k (commit_versions t cf k start rs now_ ++ sv).
Proof.
  intros HR Hf Ha Hov Hd Hexp Hsv Hb Hrs Hok. apply inv_reachable in HR as HI.
  pose proof (inv_ensure _ _ t HI) as HI'. pose proof (ensure_idem t) as He. rewrite <- txn_get_ensure.
  destruct (ensure_cases t) as [E|[ix E]]; rewrite E in *;
    exact (own_reads_indexed _ cf k floor start rs now_ sv TO HI' He Hf Ha Hov Hd Hexp Hsv Hb Hrs Hok).
Qed.
End Laws.

(** [Duration::MAX] in nanoseconds. *)
Definition DURATION_MAX_NANOS : Z := (2 ^ 64 - 1) * 10 ^ 9 + 999999999.

(** C34: A time to live below 2^63 nanoseconds (292 years) is turned into the
    expiry it means, saturating at the largest instant, and the write is alive
    at every instant before it.  The conversion keeps only the low 64 bits of
    longer durations, as a signed number: [Duration::MAX], a natural way to
    write "never", is minus one nanosecond, and the write is expired as soon
    as it is made. *)
Theorem ttl_to_abs_bounds now_ :
  1 < now_ <= I64_MAX ->
  (forall nanos, 0 < nanos < 2 ^ 63 ->
     ttl_to_abs now_ nanos = Z.min I64_MAX (now_ + nanos) /\
     forall at_, at_ < Z.min I64_MAX (now_ + nanos) -> expired (ttl_to_abs now_ nanos) at_ = false) /\
  expired (ttl_to_abs now_ DURATION_MAX_NANOS) now_ = true.
Proof.
  unfold I64_MAX. intros Hnow. split.
  - intros nanos Hn. assert (ttl_to_abs now_ nanos = Z.min (2 ^ 63 - 1) (now_ + nanos)) as E.
    { unfold ttl_to_abs, as_i64, saturating_add_i64, I64_MAX. rewrite Z.mod_small by lia.
      destruct (Z.eqb_spec nanos 0); [lia|]. destruct (Z.ltb_spec nanos (2 ^ 63)); lia. }
    rewrite E. split; [done|]. intros at_ Ha. unfold expired. apply andb_false_intro2, Z.leb_gt. lia.
  - unfold ttl_to_abs. replace (as_i64 DURATION_MAX_NANOS) with (-1) by (vm_compute; reflexivity).
    replace (DURATION_MAX_NANOS =? 0) with false by (vm_compute; reflexivity).
    unfold saturating_add_i64, I64_MAX, expired. apply andb_true_intro. split; [apply negb_true_iff, Z.eqb_neq|apply Z.leb_le]; lia.
Qed.

Lemma ttl_to_abs_bounds_witness : expired (ttl_to_abs 1700000000000000000 DURATION_MAX_NANOS) 1700000000000000000 = true.
Proof. apply (ttl_to_abs_bounds 1700000000000000000). unfold I64_MAX. lia. Defined.

(** ** Two families, and a transaction on them *)

Definition merge_family : Family := mkFamily 1 Bytewise (Some concat_op) true.
Definition plain_family : Family := mkFamily 2 Bytewise None false.
Definition sample_fams (i : Z) : option Family :=
  if i =? 1 then Some merge_family else if i =? 2 then Some plain_family else None.

(** A hash under which every key of a family collides. *)
Definition poor_hash (i : Z) (_ : list byte) : Z := i.

(** Run a sequence of operations. *)
Fixpoint run_ops (ops : list (Txn -> result Txn)) (t : Txn) : result Txn :=
  match ops with [] => Ok t | op :: ops => let? t := op t in run_ops ops t end.

Lemma run_ops_reachable h fams caps_ ops t t' :
  Forall (fun op => forall t t', op t = Ok t' -> txn_step h fams caps_ t t') ops ->
  reachable h fams caps_ t -> run_ops ops t = Ok t' -> reachable h fams caps_ t'.
Proof.
  intros HF. revert t. induction HF as [|op ops Hop _ IH]; intros t HR H; cbn in H; [by injection H as <-|].
  apply bind_inv in H as (t1 & H1 & H). eapply IH; [|exact H]. eapply reach_step; [exact HR|auto].
Qed.

(** Close the side conditions of [run_ops_reachable] on concrete operations. *)
Ltac ops_steps :=
  repeat (apply List.Forall_cons || apply List.Forall_nil);
  intros ? ? ?;
  first [eapply step_put; [|eassumption] | eapply step_merge; [|eassumption] | eapply step_delete; [|eassumption]
        | eapply step_delete_range; [|eassumption]]; reflexivity.

Definition sample_ops (h : Z -> list byte -> Z) : list (Txn -> result Txn) :=
  [txn_put h merge_family [x6b] [x76] 5 100; txn_delete h plain_family [x6b];
   txn_merge h merge_family [x6b] [x6f]; txn_merge h merge_family [x6d] [x70];
   txn_delete_range h CAP_RANGE_DELETES merge_family [x78] [x7a]].

Definition sample_txn : Txn :=
  match run_ops (sample_ops poor_hash) (txn_new Serializable 9 true 0) with Ok t => t | Err _ => txn_new Serializable 9 true 0 end.

Lemma sample_txn_reachable : reachable poor_hash sample_fams CAP_RANGE_DELETES sample_txn.
Proof.
  apply (run_ops_reachable _ _ _ (sample_ops poor_hash) (txn_new Serializable 9 true 0)); [|constructor|vm_compute; reflexivity].
  unfold sample_ops. ops_steps.
Qed.

Lemma index_reads_as_scan_witness :
  newest_point_write poor_hash (ensure_write_index poor_hash sample_txn) 1 [x6b] = Some 2%nat /\
  buffered_chain poor_hash sample_txn 1 [x6b] = Some (mkChain (Some (Some [x76])) [[x6f]]).
Proof.
  assert (reachable poor_hash sample_fams CAP_RANGE_DELETES (ensure_write_index poor_hash sample_txn)) as HR.
  { eapply (reach_step _ _ _ sample_txn); [apply sample_txn_reachable|].
    eapply (step_get _ _ _ plain_family [x6b] 9 (fun _ => Err NotFound)); [reflexivity|]. vm_compute. reflexivity. }
  split.
  - rewrite (proj1 (index_reads_as_scan poor_hash sample_fams CAP_RANGE_DELETES _ 1 [x6b] HR)). vm_compute. reflexivity.
  - rewrite (proj2 (index_reads_as_scan poor_hash sample_fams CAP_RANGE_DELETES _ 1 [x6b] sample_txn_reachable)).
    vm_compute. reflexivity.
Defined.

Lemma rollback_restores_witness :
  exists t', rollback_to_savepoint poor_hash [x73]
               (buffer poor_hash plain_family [x71] [x71] 0 KIND_PUT (set_savepoint [x73] sample_txn)) = Ok t' /\
             unindexed t' = unindexed (set_savepoint [x73] sample_txn).
Proof.
  apply (rollback_restores poor_hash sample_fams CAP_RANGE_DELETES).
  - apply sample_txn_reachable.
  - eapply keep_step; [apply keep_refl| |vm_compute; lia].
    eapply (step_put _ _ _ plain_family [x71] [x71] 0 0); reflexivity.
  - vm_compute. reflexivity.
Defined.

Definition old_value : list ChainVersion := [mkCV 3 false (Some [x7a])].

Lemma own_reads_survive_commit_witness :
  fst (txn_get poor_hash sample_txn merge_family [x6d] 9 (fun _ => read_all (f_merge merge_family) [x6d] old_value)) =
  Ok [x7a; x70].
Proof.
  rewrite (own_reads_survive_commit poor_hash sample_fams CAP_RANGE_DELETES sample_txn merge_family [x6d] 9 10 20 50 old_value _).
  - vm_compute. reflexivity.
  - apply sample_txn_reachable.
  - reflexivity.
  - intros op [= <-]. apply concat_op_assoc.
  - vm_compute. reflexivity.
  - right. intros i j w w' Hi Hj Hw Hw' _ _.
    assert (forall n x, writes sample_txn !! n = Some x -> w_is_range x = true -> n = 4%nat) as H; [|by rewrite (H i w Hi Hw), (H j w' Hj Hw')].
    intros n x Hn Hx. do 5 (destruct n as [|n]; [cbn in Hn; injection Hn as <-; cbn in Hx; done|]). done.
  - intros w Hw%list_elem_of_In _. apply negb_true_iff. revert w Hw. apply forallb_forall. vm_compute. reflexivity.
  - apply NoDup_consistent. apply (bool_decide_unpack _). vm_compute. exact I.
  - intros v Hv. unfold old_value in Hv. elems. reflexivity.
  - vm_compute. discriminate.
  - vm_compute. discriminate.
Defined.

(** C33: A transaction that deletes two ranges with one start and also merges
    loses the earlier range when it commits.  The order of a transaction with
    an operand collapses writes by key, and a range delete's key is its start:
    [delete_range(a, z); delete_range(a, b); merge(x)] reads "m" as deleted
    while it is open, passes the own-overlap check, and commits records under
    which "m" still has its old value, whatever the index's hash. *)
Theorem merge_order_loses_range h :
  exists t, reachable h sample_fams CAP_RANGE_DELETES t /\ check_own_range_overlap t = Ok tt /\
    fst (txn_get h t merge_family [x6d] 9 (fun _ => read_all (Some concat_op) [x6d] old_value)) = Err NotFound /\
    read_all (Some concat_op) [x6d] (commit_versions t merge_family [x6d] 10 20 0 ++ old_value) = Ok [x7a].
Proof.
  set (ops := [txn_delete_range h CAP_RANGE_DELETES merge_family [x61] [x7a];
               txn_delete_range h CAP_RANGE_DELETES merge_family [x61] [x62];
               txn_merge h merge_family [x7b] [x31]]).
  destruct (run_ops ops (txn_new RepeatableRead 9 true 100)) as [t|] eqn:E; [|vm_compute in E; discriminate].
  exists t. split.
  - apply (run_ops_reachable _ _ _ ops (txn_new RepeatableRead 9 true 100)); [|constructor|done]. unfold ops. ops_steps.
  - vm_compute in E. injection E as <-. split; [|split]; vm_compute; reflexivity.
Qed.
