(* ===== verification/Prepared.v ===== *)
(** * Prepared transactions (prepared.rs)

    The registry of prepared transactions with the keys they reserve, and the
    pins that keep the log generation of a prepare, and of its decision, on
    disk.  The last part interleaves the atomic steps of a prepare with the
    flush worker that unlinks generations.  Transaction ids are the sixteen
    bytes the coordinator chose; the age of an entry and the listing for
    operators are not modelled. *)

From Stdlib Require Import ZArith Lia Sorted.
From Stdlib.Strings Require Import Byte.
From stdpp Require Import base gmap list sets sorting.
From S2P Require Import Prelude Encoding Codec Comparator Format RangeTombstone Wal Manifest ReadPath Compaction Txn.

Open Scope Z_scope.

Definition txn_id : Type := list byte.

(** ** The registry *)

Record PreparedWrite := mkPWrite {
  pw_cf : Z;
  pw_key : BufRange;
  pw_value : BufRange;
  pw_ttl : Z;
  pw_kind : Z;
}.

Record PreparedEntry := mkPEntry {
  pe_id : txn_id;
  pe_cf_ids : list Z;
  pe_buf : list byte;
  pe_writes : list PreparedWrite;
  pe_bytes : Z;
  prepare_gen : Z;
}.

Definition pw_slot (b : list byte) (w : PreparedWrite) : Z * list byte := (pw_cf w, buf_slice b (pw_key w)).

(** The keys of [records()]. *)
Definition entry_keys (e : PreparedEntry) : list (Z * list byte) := map (pw_slot (pe_buf e)) (pe_writes e).

Record PreparedRegistry := mkRegistry {
  by_id : gmap txn_id PreparedEntry;
  by_key : gmap (Z * list byte) txn_id;
  retiring : gset txn_id;
  reg_bytes : Z;
  max_bytes : Z;
}.

Definition registry_new (max : Z) : PreparedRegistry := mkRegistry ∅ ∅ ∅ 0 max.

Definition usize_saturating_add (a b : Z) : Z := Z.min U64_MAX (a + b).
Definition usize_saturating_sub (a b : Z) : Z := Z.max 0 (a - b).

Definition registry_len (r : PreparedRegistry) : nat := size (by_id r).
Definition registry_is_empty (r : PreparedRegistry) : bool := bool_decide (by_key r = ∅).

Definition owner_of (r : PreparedRegistry) (cf : Z) (k : list byte) : option txn_id := by_key r !! (cf, k).

(** The scan finds some reserved key of the family in the interval, if there is one. *)
Definition owner_in_range (r : PreparedRegistry) (cf : Z) (cmp : Comparator) (start end_ : list byte) : option txn_id :=
  match List.find (fun x => (fst (fst x) =? cf) && is_le (compare cmp start (snd (fst x))) && is_gt (compare cmp end_ (snd (fst x))))
          (map_to_list (by_key r)) with
  | Some x => Some (snd x)
  | None => None
  end.

Definition knows (r : PreparedRegistry) (id : txn_id) : bool :=
  bool_decide (is_Some (by_id r !! id)) || bool_decide (id ∈ retiring r).

Definition is_retiring (r : PreparedRegistry) (id : txn_id) : bool := bool_decide (id ∈ retiring r).

Definition check_capacity (r : PreparedRegistry) (bytes : Z) : result unit :=
  guard (usize_saturating_add (reg_bytes r) bytes <=? max_bytes r) TooLarge.

Definition register (e : PreparedEntry) (r : PreparedRegistry) : PreparedRegistry :=
  mkRegistry (<[pe_id e := e]> (by_id r))
    (fold_left (fun m sk => <[sk := pe_id e]> m) (entry_keys e) (by_key r))
    (retiring r) (usize_saturating_add (reg_bytes r) (pe_bytes e)) (max_bytes r).

Definition resolve_prepared (id : txn_id) (r : PreparedRegistry) : option (PreparedEntry * PreparedRegistry) :=
  match by_id r !! id with
  | None => None
  | Some e =>
      Some (e, mkRegistry (delete id (by_id r))
                 (fold_left (fun m sk => if bool_decide (m !! sk = Some id) then delete sk m else m) (entry_keys e) (by_key r))
                 ({[id]} ∪ retiring r) (usize_saturating_sub (reg_bytes r) (pe_bytes e)) (max_bytes r))
  end.

Definition forget (id : txn_id) (r : PreparedRegistry) : PreparedRegistry :=
  mkRegistry (by_id r) (by_key r) (retiring r ∖ {[id]}) (reg_bytes r) (max_bytes r).

Definition touches_cf (r : PreparedRegistry) (cf : Z) : bool :=
  existsb (fun x => bool_decide (cf ∈ pe_cf_ids (snd x))) (map_to_list (by_id r)).

(** ** Log generations *)

(** A resolved pair whose generations are not both unlinked. *)
Record Tombstone := mkTomb {
  tb_id : txn_id;
  tb_prepare : Z;
  tb_decision : Z;
  prepare_deleted : bool;
  decision_deleted : bool;
}.

(** [flushed] is a BTreeMap from generation to path; [live] counts pins. *)
Record WalGenState := mkGens {
  flushed : gmap Z (list byte);
  live : gmap Z Z;
  tombs : list Tombstone;
}.

Definition gens_default : WalGenState := mkGens ∅ ∅ [].

Definition gens_pin (gen : Z) (g : WalGenState) : WalGenState :=
  mkGens (flushed g) (<[gen := default 0 (live g !! gen) + 1]> (live g)) (tombs g).

Definition record_pair (id : txn_id) (p d : Z) (g : WalGenState) : WalGenState :=
  mkGens (flushed g) (live g) (tombs g ++ [mkTomb id p d false false]).

Definition gens_resolved (id : txn_id) (p d : Z) (g : WalGenState) : WalGenState :=
  let live' :=
    match live g !! p with
    | Some n => let n := usize_saturating_sub n 1 in if n =? 0 then delete p (live g) else <[p := n]> (live g)
    | None => live g
    end in
  record_pair id p d (mkGens (flushed g) live' (tombs g)).

Definition mark_flushed (gen : Z) (path : list byte) (g : WalGenState) : WalGenState :=
  mkGens (<[gen := path]> (flushed g)) (live g) (tombs g).

Definition gens_withheld (g : WalGenState) : nat := size (flushed g).

(** [BTreeMap::keys]: in order. *)
Definition gen_keys {A} (m : gmap Z A) : list Z := merge_sort Z.le (elements (dom m)).

Definition is_flushed (g : WalGenState) (gen : Z) : bool := bool_decide (is_Some (flushed g !! gen)).

Definition retirable (g : WalGenState) (gen : Z) : bool :=
  negb (0 <? default 0 (live g !! gen)) &&
  negb (existsb (fun t => (tb_prepare t =? gen) && negb (decision_deleted t) && negb (is_flushed g (tb_decision t))) (tombs g)) &&
  negb (existsb (fun t => (tb_decision t =? gen) && negb (tb_prepare t =? gen) && negb (prepare_deleted t)) (tombs g)).

Definition next_retirable (g : WalGenState) : option Z := List.find (retirable g) (gen_keys (flushed g)).

Definition mark_deleted (gen : Z) (t : Tombstone) : Tombstone :=
  mkTomb (tb_id t) (tb_prepare t) (tb_decision t)
    (prepare_deleted t || (tb_prepare t =? gen)) (decision_deleted t || (tb_decision t =? gen)).

Definition fully_deleted (t : Tombstone) : bool := prepare_deleted t && decision_deleted t.

(** One round of the loop: the state without the generation, and the pairs that are done. *)
Definition retire_gen (gen : Z) (g : WalGenState) : WalGenState * list txn_id :=
  let ts := map (mark_deleted gen) (tombs g) in
  (mkGens (delete gen (flushed g)) (live g) (List.filter (fun t => negb (fully_deleted t)) ts),
   map tb_id (List.filter fully_deleted ts)).

(** Every round removes a withheld generation: their number bounds the rounds. *)
Fixpoint sweep_loop (fuel : nat) (g : WalGenState) : list Z * list txn_id * WalGenState :=
  match fuel with
  | O => ([], [], g)
  | S fuel =>
      match next_retirable g with
      | None => ([], [], g)
      | Some gen =>
          let '(g1, done_) := retire_gen gen g in
          let '(unlink, retired, g2) := sweep_loop fuel g1 in
          (gen :: unlink, done_ ++ retired, g2)
      end
  end.

(** The generations to unlink, in order, and the ids whose pairs are gone. *)
Definition sweep (g : WalGenState) : list Z * list txn_id * WalGenState := sweep_loop (S (gens_withheld g)) g.

(** ** Recovery *)

Record RecoveredDecision := mkRDecision { rd_id : txn_id; rd_commit : option (Z * Z); rd_gen : Z }.
Record RecoveredPrepare := mkRPrepare { rp_id : txn_id; rp_cf_ids : list Z; rp_gen : Z }.

Definition add_prepare (p : RecoveredPrepare) (ps : list RecoveredPrepare) : result (list RecoveredPrepare) :=
  if existsb (fun q => bool_decide (rp_id q = rp_id p)) ps then Err Corruption else Ok (ps ++ [p]).

(** [max_by_key] keeps the last of the greatest. *)
Definition decision_for (ds : list RecoveredDecision) (id : txn_id) : option RecoveredDecision :=
  fold_left (fun best d => match best with
                           | Some b => if rd_gen b <=? rd_gen d then Some d else best
                           | None => Some d
                           end)
    (List.filter (fun d => bool_decide (rd_id d = id)) ds) None.

(** * The registry *)

(** The reserved keys are those of the live prepares, one owner each. *)
Record reg_ok (r : PreparedRegistry) : Prop := {
  ro_keys sk id : by_key r !! sk = Some id <-> exists e, by_id r !! id = Some e /\ sk ∈ entry_keys e;
  ro_ids id e : by_id r !! id = Some e -> pe_id e = id;
}.

Lemma fold_insert_lookup {K} `{Countable K} {V} (v : V) l (m : gmap K V) k :
  fold_left (fun m k => <[k := v]> m) l m !! k = if decide (k ∈ l) then Some v else m !! k.
Proof.
  revert m. induction l as [|x l IH]; intros m; cbn [fold_left].
  - rewrite decide_False; [done|]. apply not_elem_of_nil.
  - rewrite IH. destruct (decide (k ∈ l)) as [Hk|Hk]; [by rewrite decide_True by by right|].
    destruct (decide (k = x)) as [->|Hne].
    + rewrite decide_True by left. apply lookup_insert_eq.
    + rewrite decide_False by (intros [->|?]%elem_of_cons; done). by rewrite lookup_insert_ne.
Qed.

Lemma fold_release_lookup {K} `{Countable K} (id : txn_id) l (m : gmap K txn_id) k :
  fold_left (fun m k => if bool_decide (m !! k = Some id) then delete k m else m) l m !! k =
  if decide (k ∈ l /\ m !! k = Some id) then None else m !! k.
Proof.
  revert m. induction l as [|x l IH]; intros m; cbn [fold_left].
  - rewrite decide_False; [done|]. intros [Hk _]. by apply elem_of_nil in Hk.
  - rewrite IH. case_bool_decide as Hx; destruct (decide (k = x)) as [->|Hne].
    + rewrite lookup_delete_eq. rewrite (decide_True (P := x ∈ x :: l /\ _)) by (split; [left|done]). by destruct (decide _).
    + rewrite lookup_delete_ne by done. apply decide_ext. rewrite elem_of_cons. tauto.
    + rewrite !decide_False by tauto. done.
    + apply decide_ext. rewrite elem_of_cons. tauto.
Qed.

Lemma register_ok e r :
  reg_ok r -> by_id r !! pe_id e = None -> (forall sk, sk ∈ entry_keys e -> by_key r !! sk = None) -> reg_ok (register e r).
Proof.
  intros [Hk Hi] Hnew Hfree. split; cbn.
  - intros sk id. rewrite fold_insert_lookup. destruct (decide (sk ∈ entry_keys e)) as [Hin|Hin].
    + split.
      * intros [= <-]. exists e. by rewrite lookup_insert_eq.
      * intros (e' & He & Hs). apply lookup_insert_Some in He as [[<- <-]|[_ He]]; [done|].
        assert (by_key r !! sk = Some id) as Hbad by (apply Hk; eauto). rewrite Hfree in Hbad by done. done.
    + rewrite Hk. split; intros (e' & He & Hs).
      * exists e'. split; [|done]. rewrite lookup_insert_ne; [done|]. congruence.
      * apply lookup_insert_Some in He as [[<- <-]|[_ He]]; [done|eauto].
  - intros id e' He. apply lookup_insert_Some in He as [[<- <-]|[_ He]]; auto.
Qed.

Lemma resolve_ok id r e r' : reg_ok r -> resolve_prepared id r = Some (e, r') -> reg_ok r'.
Proof.
  intros [Hk Hi] H. unfold resolve_prepared in H. destruct (by_id r !! id) as [e0|] eqn:E; [|done]. injection H as <- <-.
  split; cbn.
  - intros sk i. rewrite fold_release_lookup. destruct (decide _) as [[Hin Hown]|Hn].
    + split; [done|]. intros (e' & He & Hs). apply lookup_delete_Some in He as [Hne He].
      assert (by_key r !! sk = Some i) as Hi' by (apply Hk; eauto). congruence.
    + rewrite Hk. split; intros (e' & He & Hs).
      * exists e'. split; [|done]. apply lookup_delete_Some. split; [|done]. intros ->. apply Hn.
        assert (e' = e0) as -> by congruence. split; [done|]. apply Hk. eauto.
      * apply lookup_delete_Some in He as [_ He]. eauto.
  - intros i e' He. apply lookup_delete_Some in He as [_ He]. auto.
Qed.

Lemma forget_ok id r : reg_ok r -> reg_ok (forget id r).
Proof. by intros []. Qed.

Lemma owner_in_range_none r cf cmp a b k :
  owner_in_range r cf cmp a b = None -> is_Some (by_key r !! (cf, k)) -> is_le (compare cmp a k) && is_gt (compare cmp b k) = false.
Proof.
  unfold owner_in_range. intros H [id Hid]. destruct (List.find _ _) eqn:E; [done|].
  pose proof (find_none _ _ E ((cf, k), id)) as Hf.
  cbn in Hf. rewrite Z.eqb_refl in Hf. cbn [andb] in Hf. apply Hf. apply list_elem_of_In. by apply elem_of_map_to_list.
Qed.

(** * The sweep *)

Definition marks (us : list Z) (t : Tombstone) : Tombstone :=
  mkTomb (tb_id t) (tb_prepare t) (tb_decision t)
    (prepare_deleted t || bool_decide (tb_prepare t ∈ us)) (decision_deleted t || bool_decide (tb_decision t ∈ us)).

Lemma bool_decide_cons (x u : Z) us : (x =? u) || bool_decide (x ∈ us) = bool_decide (x ∈ u :: us).
Proof.
  destruct (Z.eqb_spec x u) as [->|Hn]; cbn [orb].
  - symmetry. apply bool_decide_eq_true_2. left.
  - apply bool_decide_ext. rewrite elem_of_cons. tauto.
Qed.

Lemma marks_cons u us t : marks us (mark_deleted u t) = marks (u :: us) t.
Proof. unfold marks, mark_deleted. cbn. by rewrite <- !orb_assoc, !bool_decide_cons. Qed.

Lemma marks_nil t : marks [] t = t.
Proof. destruct t. unfold marks. cbn. by rewrite !orb_false_r. Qed.

(** What retiring [gen] next is allowed by. *)
Definition may_retire (g : WalGenState) (pre : list Z) (gen : Z) : Prop :=
  default 0 (live g !! gen) <= 0 /\
  forall t, t ∈ tombs g ->
    (tb_prepare t = gen -> decision_deleted t = true \/ is_flushed g (tb_decision t) = true) /\
    (tb_decision t = gen -> tb_prepare t <> gen -> prepare_deleted t = true \/ tb_prepare t ∈ pre).

Lemma retirable_may g gen : retirable g gen = true -> may_retire g [] gen.
Proof.
  unfold retirable. rewrite !andb_true_iff, !negb_true_iff. intros [[H1 H2] H3]. split.
  - apply Z.ltb_ge in H1. lia.
  - intros t Ht. split.
    + intros Hp. destruct (decision_deleted t) eqn:Ed; [auto|]. right. destruct (is_flushed g (tb_decision t)) eqn:Ef; [done|].
      rewrite <- H2. apply existsb_exists. exists t. rewrite <- list_elem_of_In. split; [done|].
      by rewrite Ed, Ef, Hp, Z.eqb_refl.
    + intros Hd Hne. left. destruct (prepare_deleted t) eqn:Ep; [done|].
      rewrite <- H3. apply existsb_exists. exists t. rewrite <- list_elem_of_In. split; [done|].
      rewrite Hd, Z.eqb_refl, Ep. by apply Z.eqb_neq in Hne as ->.
Qed.

(** A generation allowed after one round is allowed in the longer order. *)
Lemma may_retire_step g gen pre gen' g1 done_ :
  retire_gen gen g = (g1, done_) -> is_flushed g gen = true -> gen' <> gen ->
  may_retire g1 pre gen' -> may_retire g (gen :: pre) gen'.
Proof.
  intros [= <- <-] Hf Hne [Hl Ht]. split; [done|]. intros t Hin. cbn in Ht.
  destruct (fully_deleted (mark_deleted gen t)) eqn:Ed.
  - unfold fully_deleted, mark_deleted in Ed. cbn in Ed. apply andb_prop in Ed as [Ep Ed].
    apply orb_prop in Ep, Ed. split.
    + intros <-. destruct Ed as [Ed|Ed]; [auto|]. apply Z.eqb_eq in Ed. right. by rewrite Ed.
    + intros <- Hp. destruct Ep as [Ep|Ep]; [auto|]. apply Z.eqb_eq in Ep. right. rewrite Ep. left.
  - destruct (Ht (mark_deleted gen t)) as [H1 H2].
    { apply elem_of_lfilter. rewrite Ed. split; [|done]. apply elem_of_map. eauto. }
    cbn in H1, H2. split.
    + intros Hp. destruct (H1 Hp) as [H|H]; [apply orb_prop in H as [H|H]; [auto|]|].
      * apply Z.eqb_eq in H. right. by rewrite H.
      * right. unfold is_flushed in *. cbn in H. apply bool_decide_eq_true in H as [x H].
        apply lookup_delete_Some in H as [_ H]. apply bool_decide_eq_true. eauto.
    + intros Hd Hp. destruct (H2 Hd Hp) as [H|H]; [apply orb_prop in H as [H|H]; [auto|]|right; by right].
      apply Z.eqb_eq in H. right. rewrite H. left.
Qed.

Lemma next_retirable_Some g gen : next_retirable g = Some gen -> retirable g gen = true /\ is_flushed g gen = true.
Proof.
  unfold next_retirable. intros H. apply find_some in H as [Hin Hr]. split; [done|].
  apply list_elem_of_In in Hin. unfold gen_keys in Hin. rewrite merge_sort_Permutation, elem_of_elements, elem_of_dom in Hin.
  by apply bool_decide_eq_true.
Qed.

Record swept (g : WalGenState) (us : list Z) (g' : WalGenState) : Prop := {
  sw_live : live g' = live g;
  sw_nodup : NoDup us;
  sw_flushed gen : gen ∈ us -> is_flushed g gen = true;
  sw_rest gen : flushed g' !! gen = if decide (gen ∈ us) then None else flushed g !! gen;
  sw_tombs t' : t' ∈ tombs g' -> (us <> [] -> fully_deleted t' = false) /\ exists t, t ∈ tombs g /\ t' = marks us t;
  sw_order pre gen post : us = pre ++ gen :: post -> may_retire g pre gen;
}.

Lemma sweep_loop_spec fuel g us rs g' : sweep_loop fuel g = (us, rs, g') -> swept g us g'.
Proof.
  assert (forall g, swept g [] g) as Hnil.
  { intros g0. split; [done|constructor|intros gen Hg; by apply elem_of_nil in Hg|..].
    - intros gen. rewrite decide_False; [done|]. apply not_elem_of_nil.
    - intros t Ht. split; [done|]. exists t. by rewrite marks_nil.
    - intros [|? ?] ? ? E; discriminate. }
  revert g us rs g'. induction fuel as [|fuel IH]; intros g us rs g' H; cbn [sweep_loop] in H; [by injection H as <- <- <-|].
  destruct (next_retirable g) as [gen|] eqn:En; [|by injection H as <- <- <-].
  destruct (retire_gen gen g) as [g1 done_] eqn:Er. destruct (sweep_loop fuel g1) as [[u1 r1] g2] eqn:El.
  injection H as <- <- <-. destruct (IH _ _ _ _ El) as [Hl Hn Hf Hr Ht Ho]. apply next_retirable_Some in En as [Hret Hfl].
  pose proof Er as Er'. injection Er' as <- <-. cbn [live flushed tombs] in *.
  assert (gen ∉ u1) as Hnew.
  { intros Hin. apply Hf in Hin. unfold is_flushed in Hin. cbn in Hin. rewrite lookup_delete_eq in Hin.
    apply bool_decide_eq_true in Hin as [? ?]. done. }
  split; [done|by constructor|..].
  - intros x Hx. apply elem_of_cons in Hx as [->|Hx]; [done|]. apply Hf in Hx. unfold is_flushed in *. cbn in Hx.
    apply bool_decide_eq_true in Hx as [y Hy]. apply lookup_delete_Some in Hy as [_ Hy]. apply bool_decide_eq_true. eauto.
  - intros x. rewrite Hr. destruct (decide (x = gen)) as [->|Hne].
    + rewrite decide_False by done. rewrite decide_True by left. apply lookup_delete_eq.
    + rewrite lookup_delete_ne by done. destruct (decide (x ∈ u1)) as [Hx|Hx].
      * by rewrite decide_True by by right.
      * rewrite decide_False; [done|]. intros [->|?]%elem_of_cons; done.
  - intros t' Ht'. destruct (Ht t' Ht') as [H1 (t1 & Hin & ->)]. apply elem_of_lfilter in Hin as [Hin Hnf].
    apply elem_of_map in Hin as (t & Htin & <-). split; [|exists t; by rewrite marks_cons].
    intros _. destruct u1 as [|u u1]; [|by apply H1]. rewrite marks_nil. by apply negb_true_iff.
  - intros [|p pre] x post E; injection E as <- E; [by apply retirable_may|]. subst u1.
    eapply may_retire_step; [exact Er|done| |by eapply Ho]. intros ->. apply Hnew. set_solver.
Qed.

(** Enough rounds reach the end. *)
Lemma sweep_loop_done fuel g us rs g' :
  (size (flushed g) < fuel)%nat -> sweep_loop fuel g = (us, rs, g') -> next_retirable g' = None.
Proof.
  revert g us rs g'. induction fuel as [|fuel IH]; intros g us rs g' Hs H; [lia|]. cbn [sweep_loop] in H.
  destruct (next_retirable g) as [gen|] eqn:En; [|by injection H as <- <- <-].
  destruct (retire_gen gen g) as [g1 done_] eqn:Er. destruct (sweep_loop fuel g1) as [[u1 r1] g2] eqn:El.
  injection H as <- <- <-. eapply IH; [|exact El]. injection Er as <- <-. cbn [flushed].
  apply next_retirable_Some in En as [_ Hf]. apply bool_decide_eq_true in Hf as [x Hx].
  rewrite map_size_delete_Some by eauto.
  assert (size (flushed g) <> 0%nat) by (intros H0; apply map_size_empty_inv in H0; by rewrite H0, lookup_empty in Hx). lia.
Qed.

Lemma gen_keys_elem {A} (m : gmap Z A) gen : gen ∈ gen_keys m <-> is_Some (m !! gen).
Proof. unfold gen_keys. by rewrite merge_sort_Permutation, elem_of_elements, elem_of_dom. Qed.

Lemma gen_keys_least {A} (m : gmap Z A) : m <> ∅ -> exists gen, is_Some (m !! gen) /\ forall x, is_Some (m !! x) -> gen <= x.
Proof.
  intros Hne. pose proof (Sorted_merge_sort Z.le (elements (dom m))) as Hs.
  destruct (gen_keys m) as [|gen l] eqn:E.
  - exfalso. apply Hne, map_empty. intros i. destruct (m !! i) eqn:Ei; [|done]. exfalso.
    assert (i ∈ gen_keys m) as Hi by (apply gen_keys_elem; eauto). rewrite E in Hi. by apply elem_of_nil in Hi.
  - exists gen. split; [apply gen_keys_elem; rewrite E; left|]. intros x Hx. apply gen_keys_elem in Hx. rewrite E in Hx.
    unfold gen_keys in E. rewrite E in Hs. apply Sorted_StronglySorted in Hs; [|intros ? ? ?; lia].
    apply StronglySorted_inv in Hs as [_ Hs]. rewrite Forall_forall in Hs.
    apply elem_of_cons in Hx as [->|Hx]; [lia|by apply Hs].
Qed.

Lemma swept_flushed g us g' gen :
  swept g us g' -> is_flushed g gen = true -> gen ∉ us -> is_flushed g' gen = true.
Proof. intros HS Hf Hn. unfold is_flushed. by rewrite (sw_rest _ _ _ HS), decide_False by done. Qed.

(** A generation that is not retirable is held by a pin or by a pair. *)
Lemma not_retirable g gen :
  retirable g gen = false ->
  0 < default 0 (live g !! gen) \/
  exists t, t ∈ tombs g /\
    ((tb_prepare t = gen /\ decision_deleted t = false /\ is_flushed g (tb_decision t) = false) \/
     (tb_decision t = gen /\ tb_prepare t <> gen /\ prepare_deleted t = false)).
Proof.
  unfold retirable. rewrite !andb_false_iff, !negb_false_iff. intros [[H|H]|H]; [left; lia|right..];
    apply existsb_exists in H as (t & Hin & H); apply list_elem_of_In in Hin; exists t; (split; [done|]);
    rewrite !andb_true_iff, ?negb_true_iff, ?Z.eqb_eq, ?Z.eqb_neq in H; tauto.
Qed.

(** When everything is flushed and resolved, the least generation left would be retirable. *)
Lemma swept_everything g us g' :
  swept g us g' -> next_retirable g' = None ->
  (forall gen, is_flushed g gen = true -> live g !! gen = None) ->
  (forall t, t ∈ tombs g -> fully_deleted t = false /\ tb_prepare t <= tb_decision t /\
     (prepare_deleted t = true \/ is_flushed g (tb_prepare t) = true) /\
     (decision_deleted t = true \/ is_flushed g (tb_decision t) = true)) ->
  flushed g' = ∅ /\ tombs g' = [].
Proof.
  intros HS Hd Hlive Hready. assert (flushed g' = ∅) as He.
  { destruct (decide (flushed g' = ∅)) as [|Hne]; [done|]. exfalso.
    destruct (gen_keys_least _ Hne) as (m & Hm & Hmin).
    assert (is_flushed g m = true) as Hfm.
    { apply bool_decide_eq_true. rewrite (sw_rest _ _ _ HS) in Hm. destruct (decide (m ∈ us)); [by destruct Hm|done]. }
    assert (retirable g' m = false) as Hnr.
    { apply (find_none _ _ Hd). apply list_elem_of_In. by apply gen_keys_elem. }
    apply not_retirable in Hnr as [Hpin|(t' & Ht' & Hheld)].
    - rewrite (sw_live _ _ _ HS), (Hlive m Hfm) in Hpin. cbn in Hpin. lia.
    - destruct (sw_tombs _ _ _ HS t' Ht') as [_ (t & Htin & ->)].
      destruct (Hready t Htin) as (_ & Hle & Hp & Hdec). cbn in Hheld. rewrite !orb_false_iff, !bool_decide_eq_false in Hheld.
      destruct Hheld as [(<- & [Hdd Hdu] & Hnf)|(<- & Hne' & Hpd & Hpu)].
      + destruct Hdec as [|Hdec]; [congruence|]. by rewrite (swept_flushed g us) in Hnf.
      + destruct Hp as [|Hp]; [congruence|]. pose proof (swept_flushed g us g' _ HS Hp Hpu) as Hf'.
        apply bool_decide_eq_true in Hf'. specialize (Hmin _ Hf'). lia. }
  split; [done|]. destruct (tombs g') as [|t' l] eqn:Et; [done|]. exfalso.
  destruct (sw_tombs _ _ _ HS t') as [Hnf (t & Htin & ->)]; [rewrite Et; left|].
  destruct (Hready t Htin) as (Hn0 & _ & Hp & Hdec).
  assert (forall gen, is_flushed g gen = true -> gen ∈ us) as Hall.
  { intros gen Hf. destruct (decide (gen ∈ us)) as [|Hn]; [done|]. pose proof (swept_flushed g us g' _ HS Hf Hn) as H.
    unfold is_flushed in H. by rewrite He, lookup_empty in H. }
  assert (prepare_deleted t = true \/ tb_prepare t ∈ us) as Hpu by (destruct Hp; auto).
  assert (decision_deleted t = true \/ tb_decision t ∈ us) as Hdu by (destruct Hdec; auto). clear Hp Hdec.
  destruct us as [|u us].
  - rewrite !elem_of_nil in Hpu, Hdu. destruct Hpu as [Hp|[]], Hdu as [Hdd|[]]. unfold fully_deleted in Hn0. by rewrite Hp, Hdd in Hn0.
  - specialize (Hnf ltac:(done)). unfold fully_deleted in Hnf. cbn in Hnf. apply andb_false_iff in Hnf.
    rewrite !orb_false_iff, !bool_decide_eq_false in Hnf.
    destruct Hnf as [[H1 H2]|[H1 H2]]; [destruct Hpu|destruct Hdu]; (congruence || done).
Qed.

(** ** A prepare beside the flush worker *)

(** The files on disk, the generation a frame goes to, the frames of prepares,
    and what each thread in [prepare] has done: its frame is appended and
    synced, or the entry is also registered.  [retire_wal_paths] runs without
    the commit lock a prepare holds. *)
Record PrepState := mkPrep {
  ps_gens : WalGenState;
  ps_disk : gset Z;
  ps_cur : Z;
  ps_frames : gmap txn_id Z;
  ps_pinned : gset txn_id;
}.

Definition prep_new : PrepState := mkPrep gens_default {[0]} 0 ∅ ∅.

(** [append_prepare] and [sync], on the handle and generation taken together. *)
Definition prep_append (id : txn_id) (s : PrepState) : PrepState :=
  mkPrep (ps_gens s) (ps_disk s) (ps_cur s) (<[id := ps_cur s]> (ps_frames s)) (ps_pinned s).

(** [wal_gens.lock().pin(prepare_gen)], the last step of a prepare. *)
Definition prep_pin (id : txn_id) (s : PrepState) : PrepState :=
  match ps_frames s !! id with
  | Some gen => mkPrep (gens_pin gen (ps_gens s)) (ps_disk s) (ps_cur s) (ps_frames s) ({[id]} ∪ ps_pinned s)
  | None => s
  end.

Definition prep_rotate (s : PrepState) : PrepState :=
  mkPrep (ps_gens s) ({[ps_cur s + 1]} ∪ ps_disk s) (ps_cur s + 1) (ps_frames s) (ps_pinned s).

(** [retire_wal_paths] of a flushed generation, [sweep_wal_gens] included. *)
Definition prep_retire (gen : Z) (s : PrepState) : PrepState :=
  let '(unlink, _, g) := sweep (mark_flushed gen [] (ps_gens s)) in
  mkPrep g (ps_disk s ∖ list_to_set unlink) (ps_cur s) (ps_frames s) (ps_pinned s).

Inductive prep_step : PrepState -> PrepState -> Prop :=
| prep_append_step id s : ps_frames s !! id = None -> prep_step s (prep_append id s)
| prep_pin_step id s : id ∉ ps_pinned s -> prep_step s (prep_pin id s)
| prep_rotate_step s : prep_step s (prep_rotate s)
| prep_retire_step gen s : gen < ps_cur s -> gen ∈ ps_disk s -> prep_step s (prep_retire gen s).

(** * Properties *)

(** C18: The sweep unlinks log generations in an order that recovery can be cut
    at any point of.  A generation is unlinked only when no unresolved prepare
    is in it, a prepare's generation only once its decision's generation is
    flushed or gone, and a decision's generation never before its prepare's.
    The sweep removes exactly the generations it returns and stops only when
    no withheld one may go; and when every prepare is resolved and every
    generation of a pair is flushed, it leaves nothing behind. *)
Theorem wal_gens_retired_in_order g us rs g' :
  sweep g = (us, rs, g') ->
  (forall pre gen post, us = pre ++ gen :: post -> may_retire g pre gen) /\
  (forall gen, flushed g' !! gen = if decide (gen ∈ us) then None else flushed g !! gen) /\
  next_retirable g' = None /\
  ((forall gen, is_flushed g gen = true -> live g !! gen = None) ->
   (forall t, t ∈ tombs g -> fully_deleted t = false /\ tb_prepare t <= tb_decision t /\
      (prepare_deleted t = true \/ is_flushed g (tb_prepare t) = true) /\
      (decision_deleted t = true \/ is_flushed g (tb_decision t) = true)) ->
   flushed g' = ∅ /\ tombs g' = []).
Proof.
  intros Hs. pose proof (sweep_loop_spec _ _ _ _ _ Hs) as HS. pose proof HS as [Hl _ _ Hr Ht Ho].
  assert (next_retirable g' = None) as Hd by (eapply sweep_loop_done; [|exact Hs]; unfold gens_withheld; lia).
  split; [done|]. split; [done|]. split; [done|]. intros Hlive Hready. by eapply swept_everything.
Qed.

(** Two generations of a pair, and one the pair of an unresolved prepare keeps. *)
Definition sample_gens : WalGenState :=
  gens_pin 4 (mark_flushed 2 [x62] (mark_flushed 1 [x61] (record_pair [x70] 1 2 gens_default))).

Lemma wal_gens_retired_in_order_witness :
  sweep sample_gens = ([1; 2], [[x70]], gens_pin 4 gens_default) /\ may_retire sample_gens [1] 2.
Proof.
  assert (sweep sample_gens = ([1; 2], [[x70]], gens_pin 4 gens_default)) as E by (vm_compute; reflexivity).
  split; [exact E|]. apply (proj1 (wal_gens_retired_in_order _ _ _ _ E) [1] 2 []). reflexivity.
Defined.

(** C37: A prepare pins its log generation only after the frame is appended,
    synced and registered, and the flush worker does not wait for it: a flush
    that rotates and retires the generation in between unlinks it, and the
    prepare then reports success and pins a generation whose file, with the
    only durable copy of its writes, is gone. *)
Theorem prepare_pinned_too_late :
  exists s id gen, rtc prep_step prep_new s /\
    id ∈ ps_pinned s /\ ps_frames s !! id = Some gen /\ live (ps_gens s) !! gen = Some 1 /\ gen ∉ ps_disk s.
Proof.
  exists (prep_pin [x70] (prep_retire 0 (prep_rotate (prep_append [x70] prep_new)))), [x70], 0. split.
  - eapply rtc_l; [by apply (prep_append_step [x70])|]. eapply rtc_l; [apply prep_rotate_step|].
    eapply rtc_l; [apply (prep_retire_step 0)|].
    + vm_compute. reflexivity.
    + apply (bool_decide_unpack _). vm_compute. exact I.
    + eapply rtc_l; [apply (prep_pin_step [x70])|apply rtc_refl]. apply (bool_decide_unpack _). vm_compute. exact I.
  - split; [apply (bool_decide_unpack _); vm_compute; exact I|]. split; [vm_compute; reflexivity|].
    split; [vm_compute; reflexivity|]. apply (bool_decide_unpack _). vm_compute. exact I.
Qed.
