(* ===== verification/Commit.v ===== *)
(** * Committing a transaction (txn.rs, span_index.rs, db.rs)

    The conflict checks of a commit and what they read: the newest sequence of
    a key in the store, the index of recently committed spans with its bounded
    capacity, and the reservations of prepared transactions.  A commit is two
    atomic steps, the reservation of index slots ahead of the commit lock and
    the part under the lock; [prepare], [commit_prepared] and [abort_prepared]
    are one step each, as the lock is held throughout.  Sequences of a commit
    are published before the lock is released, so every sequence below the
    next one is visible between steps.  Fsync, log and memtable failures are
    the [applied] and [durable] arguments; commit hooks, thread-local floors and
    point locks are not modelled. *)

From Stdlib Require Import ZArith Lia Sorted.
From Stdlib.Strings Require Import Byte.
From stdpp Require Import base gmap list sets sorting.
From S2P Require Import Prelude Encoding Codec Comparator Format RangeTombstone Wal Manifest ReadPath Compaction Txn Prepared.

Open Scope Z_scope.

(** ** The span index *)

Record Marker := mkMarker { mk_cf : Z; mk_start : list byte; mk_end : option (list byte); mk_seq : Z }.

Definition marker_overlaps (cmp : Comparator) (m : Marker) (start end_ : list byte) : bool :=
  match mk_end m with
  | None => is_ge (compare cmp (mk_start m) start) && is_lt (compare cmp (mk_start m) end_)
  | Some mine_end => is_lt (compare cmp (mk_start m) end_) && is_lt (compare cmp start mine_end)
  end.

Definition marker_covers (cmp : Comparator) (m : Marker) (k : list byte) : bool :=
  match mk_end m with
  | None => is_eq (compare cmp (mk_start m) k)
  | Some end_ => is_le (compare cmp (mk_start m) k) && is_gt (compare cmp end_ k)
  end.

Record SpanIndex := mkSpanIndex {
  markers : list Marker;
  si_reserved : nat;
  si_capacity : nat;
  overflow_seq : Z;
}.

Definition span_index_new (capacity : nat) : SpanIndex := mkSpanIndex [] 0 (Nat.max capacity 1) 0.

Definition note_overflow (seq : Z) (x : SpanIndex) : SpanIndex :=
  mkSpanIndex (markers x) (si_reserved x) (si_capacity x) (Z.max (overflow_seq x) seq).

Definition has_room (x : SpanIndex) (n : nat) : bool := (length (markers x) + si_reserved x + n <=? si_capacity x)%nat.

Definition with_reserved (x : SpanIndex) (r : nat) : SpanIndex :=
  mkSpanIndex (markers x) r (si_capacity x) (overflow_seq x).

(** A reservation is the number of slots it still holds. *)
Definition try_reserve (n : nat) (x : SpanIndex) : option nat * SpanIndex :=
  if (n =? 0)%nat then (Some 0%nat, x)
  else if has_room x n then (Some n, with_reserved x (si_reserved x + n)) else (None, x).

Definition drop_reservation (outstanding : nat) (x : SpanIndex) : SpanIndex :=
  if (outstanding =? 0)%nat then x else with_reserved x (si_reserved x - outstanding).

Definition prune (below : Z) (x : SpanIndex) : SpanIndex :=
  mkSpanIndex (List.filter (fun m => below <? mk_seq m) (markers x)) (si_reserved x) (si_capacity x)
    (if negb (overflow_seq x =? 0) && (overflow_seq x <=? below) then 0 else overflow_seq x).

(** One pass of [reserve]'s loop; the rounds are what the caller's closures and
    the clock answer: the oldest snapshot, closing, and giving up. *)
Inductive ReserveOutcome := Reserved (slots : nat) | GaveUp | Closing | StillWaiting.

Fixpoint reserve_loop (n : nat) (rounds : list (Z * bool * bool)) (x : SpanIndex) : ReserveOutcome * SpanIndex :=
  match rounds with
  | [] => (StillWaiting, x)
  | (oldest, cancelled, futile) :: rounds =>
      let x := prune oldest x in
      if has_room x n then (Reserved n, with_reserved x (si_reserved x + n))
      else if cancelled then (Closing, x)
      else if futile then (GaveUp, x)
      else reserve_loop n rounds x
  end.

Definition reserve (n : nat) (rounds : list (Z * bool * bool)) (x : SpanIndex) : result ReserveOutcome * SpanIndex :=
  if (n =? 0)%nat then (Ok (Reserved 0), x)
  else if (si_capacity x <? n)%nat then (Err TooLarge, x)
  else match reserve_loop n rounds x with
       | (Closing, x) => (Err InvalidDb, x)
       | (o, x) => (Ok o, x)
       end.

Definition first_seq (p : Marker -> bool) (ms : list Marker) : option Z :=
  match List.find p ms with Some m => Some (mk_seq m) | None => None end.

Definition range_conflict (x : SpanIndex) (cf : Z) (cmp : Comparator) (start end_ : list byte) (read_seq : Z) : option Z :=
  if read_seq <? overflow_seq x then Some (overflow_seq x)
  else first_seq (fun m => (mk_cf m =? cf) && (read_seq <? mk_seq m) && marker_overlaps cmp m start end_) (markers x).

Definition point_conflict (x : SpanIndex) (cf : Z) (cmp : Comparator) (k : list byte) (read_seq : Z) : option Z :=
  if read_seq <? overflow_seq x then Some (overflow_seq x)
  else first_seq (fun m => (mk_cf m =? cf) && (if mk_end m is Some _ then true else false) && (read_seq <? mk_seq m)
                           && marker_covers cmp m k) (markers x).

(** [insert], consuming a slot of the reservation. *)
Definition insert_marker (m : Marker) (st : nat * SpanIndex) : nat * SpanIndex :=
  let '(outstanding, x) := st in
  let reserved := if (outstanding =? 0)%nat then si_reserved x else (si_reserved x - 1)%nat in
  (Nat.pred outstanding, mkSpanIndex (markers x ++ [m]) reserved (si_capacity x) (overflow_seq x)).

(** ** The newest sequence of a key *)

Definition reader_get_seq (cmp : Comparator) (t : Table) (k : list byte) (now_ : Z) : result (option Z) :=
  if negb (t_may_contain t k) then Ok None
  else let? l := get_unfiltered cmp (t_entries t) k U64_MAX now_ in Ok (if l_found l then Some (l_seq l) else None).

Fixpoint peek_tables (cmp : Comparator) (ts : list Table) (k : list byte) (now_ best : Z) : result Z :=
  match ts with
  | [] => Ok best
  | t :: ts =>
      let? s := reader_get_seq cmp t k now_ in
      peek_tables cmp ts k now_ (match s with Some s => Z.max best s | None => best end)
  end.

(** [peek_seq] of a family with its own log. *)
Definition peek_seq (cmp : Comparator) (mem : Mem) (imms : list Mem) (levels : list (list Table)) (k : list byte) (now_ : Z)
    : result Z :=
  let tables := l0_tables cmp (hd [] levels) k ++ concat (map (fun l => level_tables cmp l k) (tl levels)) in
  let best := fold_left (fun b m => let l := mem_get cmp (m_entries m) k U64_MAX now_ in
                                    if l_found l then Z.max b (l_seq l) else b) (mem :: rev imms) 0 in
  peek_tables cmp tables k now_ best.

(** ** Validation *)

(** What the checks read of the store: the newest sequence of a key of a family. *)
Definition Peek : Type := Z -> list byte -> result Z.

Fixpoint each_write (f : WriteEntry -> result unit) (t : Txn) (order : list nat) : result unit :=
  match order with
  | [] => Ok tt
  | i :: order =>
      match writes t !! i with
      | Some w => let? _ := f w in each_write f t order
      | None => each_write f t order
      end
  end.

Definition validate_write_conflicts (peek : Peek) (t : Txn) (order : list nat) : result unit :=
  each_write (fun w =>
    let? s := peek (f_id (w_cf w)) (buf_slice (buf t) (w_key w)) in
    guard (s <=? read_seq t) Conflict) t order.

Definition no_conflict (o : option Z) : result unit := match o with None => Ok tt | Some _ => Err Conflict end.

(** [read_cfs] names the families by identity; [fams] holds their handles. *)
Fixpoint validate_reads (peek : Peek) (fams : Z -> option Family) (spans : option SpanIndex) (t : Txn)
    (reads : list (Z * list byte)) : result unit :=
  match reads with
  | [] => Ok tt
  | (id, k) :: reads =>
      if negb (bool_decide (id ∈ read_cfs t)) then validate_reads peek fams spans t reads
      else match fams id with
           | None => validate_reads peek fams spans t reads
           | Some cf =>
               let? s := peek id k in
               let? _ := guard (s <=? read_seq t) Conflict in
               let? _ := no_conflict (x ← spans; point_conflict x id (f_cmp cf) k (read_seq t)) in
               validate_reads peek fams spans t reads
           end
  end.

Definition validate_read_conflicts (peek : Peek) (fams : Z -> option Family) (spans : option SpanIndex) (t : Txn) : result unit :=
  validate_reads peek fams spans t (elements (read_set t)).

Definition validate_span_conflicts (spans : option SpanIndex) (t : Txn) (order : list nat) : result unit :=
  match spans with
  | None => Ok tt
  | Some x =>
      each_write (fun w =>
        let a := buf_slice (buf t) (w_key w) in
        no_conflict
          (if w_is_range w then range_conflict x (f_id (w_cf w)) (f_cmp (w_cf w)) a (buf_slice (buf t) (w_value w)) (read_seq t)
           else point_conflict x (f_id (w_cf w)) (f_cmp (w_cf w)) a (read_seq t))) t order
  end.

Definition needs_check (t : Txn) : bool :=
  bool_decide (isolation t = Snapshot_) || bool_decide (isolation t = Serializable).

Definition validate_commit (peek : Peek) (fams : Z -> option Family) (spans : option SpanIndex) (t : Txn) (order : list nat)
    : result unit :=
  let? _ := (if needs_check t then validate_write_conflicts peek t order else Ok tt) in
  if bool_decide (isolation t = Serializable) then validate_read_conflicts peek fams spans t else Ok tt.

Definition check_reservations (reg : PreparedRegistry) (t : Txn) (order : list nat) : result unit :=
  if (registry_len reg =? 0)%nat then Ok tt
  else if registry_is_empty reg then Ok tt
  else
    each_write (fun w =>
      let a := buf_slice (buf t) (w_key w) in
      match (if w_is_range w then owner_in_range reg (f_id (w_cf w)) (f_cmp (w_cf w)) a (buf_slice (buf t) (w_value w))
             else owner_of reg (f_id (w_cf w)) a) with
      | Some _ => Err Conflict
      | None => Ok tt
      end) t order.

(** ** The database, as far as a commit sees it *)

(** [d_hist] is every record applied, with its family; [d_next] the next sequence. *)
Record Db := mkDb {
  d_ranges : bool;
  d_index : SpanIndex;
  d_reg : PreparedRegistry;
  d_next : Z;
  d_hist : list (Z * CommitRecord);
}.

Definition visible_seq (d : Db) : Z := d_next d - 1.

Definition span_index (d : Db) : option SpanIndex := if d_ranges d then Some (d_index d) else None.

Definition with_index (d : Db) (x : SpanIndex) : Db := mkDb (d_ranges d) x (d_reg d) (d_next d) (d_hist d).
Definition with_reg (d : Db) (r : PreparedRegistry) : Db := mkDb (d_ranges d) (d_index d) r (d_next d) (d_hist d).

(** A sequence range is reserved and published; its records are there if they were applied. *)
Definition install (d : Db) (n : Z) (recs : list (Z * CommitRecord)) : Db :=
  mkDb (d_ranges d) (d_index d) (d_reg d) (d_next d + n) (d_hist d ++ recs).

Definition enable_ranges (d : Db) : Db := mkDb true (d_index d) (d_reg d) (d_next d) (d_hist d).

Definition insert_span_markers (t : Txn) (order : list nat) (start : Z) (st : nat * SpanIndex) : nat * SpanIndex :=
  fold_left (fun st si =>
    match writes t !! snd si with
    | Some w =>
        let a := buf_slice (buf t) (w_key w) in
        insert_marker (mkMarker (f_id (w_cf w)) a
          (if w_is_range w then Some (buf_slice (buf t) (w_value w)) else None) (start + Z.of_nat (fst si))) st
    | None => st
    end) (enumerate order) st.

(** ** [commit] *)

(** A commit that has reserved its index slots and waits for the lock. *)
Record Pending := mkPending {
  p_txn : Txn;
  p_order : list nat;
  p_tracked : bool;
  p_slots : option nat;
}.

Inductive Started := Finished_ (r : result unit) | Waits (p : Pending).

(** More than one family, by identity. *)
Definition multi_family (t : Txn) (order : list nat) : bool :=
  match omap (fun i => match writes t !! i with Some w => Some (f_id (w_cf w)) | None => None end) order with
  | [] => false
  | i :: rest => negb (forallb (fun j => j =? i) rest)
  end.

(** Up to the lock.  [rounds] are the answers the capacity wait of a range commit gets. *)
Definition commit_start (unified poisoned : bool) (rounds : list (Z * bool * bool)) (t : Txn) (d : Db) : option (Started * Db) :=
  if negb (bool_decide (state t = Active)) then Some (Finished_ (Err InvalidArgs), d)
  else if poisoned then Some (Finished_ (Err Poisoned), d)
  else if (length (writes t) =? 0)%nat then Some (Finished_ (Ok tt), d)
  else
    let order := deduplicated_write_order t in
    if negb unified && multi_family t order then Some (Finished_ (Err InvalidArgs), d)
    else
      let has_range := existsb w_is_range (writes t) in
      if has_range && negb (is_ok (check_own_range_overlap t)) then Some (Finished_ (Err InvalidArgs), d)
      else
        let tracked := d_ranges d in
        let n := if tracked then length order else 0%nat in
        if has_range then
          match reserve n rounds (d_index d) with
          | (Err e, x) => Some (Finished_ (Err e), with_index d x)
          | (Ok (Reserved slots), x) => Some (Waits (mkPending t order tracked (Some slots)), with_index d x)
          | (Ok GaveUp, x) => Some (Waits (mkPending t order tracked None), with_index d x)
          | (Ok _, _) => None
          end
        else
          let '(slots, x) := try_reserve n (d_index d) in
          Some (Waits (mkPending t order tracked slots), with_index d x).

Definition drop_slots (slots : option nat) (d : Db) : Db :=
  match slots with Some n => with_index d (drop_reservation n (d_index d)) | None => d end.

(** The markers of an installed commit, or the watermark if it has no slots. *)
Definition record_markers (p : Pending) (start : Z) (d : Db) : Db :=
  match p_tracked p, p_slots p with
  | true, Some slots =>
      let '(rest, x) := insert_span_markers (p_txn p) (p_order p) start (slots, d_index d) in
      with_index d (drop_reservation rest x)
  | true, None =>
      if d_ranges d then with_index d (note_overflow (start + Z.of_nat (length (p_order p)) - 1) (d_index d)) else d
  | false, _ => drop_slots (p_slots p) d
  end.

(** Under the lock. *)
Definition commit_locked (peek : Peek) (fams : Z -> option Family) (applied : bool) (p : Pending) (d : Db) : result unit * Db :=
  let t := p_txn p in
  let order := p_order p in
  match (let? _ := check_reservations (d_reg d) t order in
         let? _ := validate_commit peek fams (span_index d) t order in
         if needs_check t then validate_span_conflicts (span_index d) t order else Ok tt) with
  | Err e => (Err e, drop_slots (p_slots p) d)
  | Ok _ =>
      let n := Z.of_nat (length order) in
      let start := d_next d in
      if negb applied then (Err Io, drop_slots (p_slots p) (install d n []))
      else
        (Ok tt, record_markers p start (install d n (apply_prepared t order start)))
  end.

(** ** Two-phase commit *)

Definition PREPARED_WRITE_SIZE : Z := 56.

Definition prepared_bytes (arena writes : nat) : Z := Z.of_nat arena + Z.of_nat writes * PREPARED_WRITE_SIZE.

Definition prepared_entry (id : txn_id) (t : Txn) (order : list nat) (gen : Z) : PreparedEntry :=
  mkPEntry id
    (dedup_by Z.eqb (sort_by Z.compare
       (omap (fun i => match writes t !! i with Some w => Some (f_id (w_cf w)) | None => None end) order)))
    (buf t)
    (omap (fun i => match writes t !! i with
                    | Some w => Some (mkPWrite (f_id (w_cf w)) (w_key w) (w_value w) (w_ttl w) (w_kind w))
                    | None => None
                    end) order)
    (prepared_bytes (length (buf t)) (length order)) gen.

(** [prepare_inner]; [durable] is the outcome of appending and syncing the frame in generation [gen]. *)
Definition txn_prepare (peek : Peek) (fams : Z -> option Family) (unified poisoned read_only decisions : bool) (durable : result unit) (gen : Z)
    (id : txn_id) (t : Txn) (d : Db) : result unit * Db :=
  match
    (let? _ := check_active t in
     ensure? negb poisoned else Poisoned ;;
     ensure? negb read_only else ReadOnly ;;
     ensure? decisions else InvalidArgs ;;
     ensure? unified else InvalidArgs ;;
     ensure? negb (existsb w_is_range (writes t)) else InvalidArgs ;;
     let order := deduplicated_write_order t in
     let? _ := validate_commit peek fams (span_index d) t order in
     let? _ := (if needs_check t then validate_span_conflicts (span_index d) t order else Ok tt) in
     ensure? negb (knows (d_reg d) id) else Exists ;;
     let? _ := each_write (fun w =>
                 guard (if owner_of (d_reg d) (f_id (w_cf w)) (buf_slice (buf t) (w_key w)) is Some _ then false else true)
                   Conflict) t order in
     let? _ := check_capacity (d_reg d) (prepared_bytes (length (buf t)) (length order)) in
     let? _ := durable in
     Ok (prepared_entry id t order gen))
  with
  | Err e => (Err e, d)
  | Ok e => (Ok tt, with_reg d (register e (d_reg d)))
  end.

(** The records of a prepared entry at [start + slot]. *)
Definition entry_records (e : PreparedEntry) (start : Z) : list (Z * CommitRecord) :=
  imap (fun slot w => (pw_cf w, PointRec (mkEntry (buf_slice (pe_buf e) (pw_key w)) (start + Z.of_nat slot) (pw_kind w) (pw_ttl w)
                                            (buf_slice (pe_buf e) (pw_value w)) true))) (pe_writes e).

(** The refusals of a handle: fail-stopped, read-only, or without the shared log. *)
Definition handle_check (poisoned read_only unified : bool) : result unit :=
  ensure? negb poisoned else Poisoned ;;
  ensure? negb read_only else ReadOnly ;;
  guard unified InvalidArgs.

Definition commit_prepared (durable : result unit) (id : txn_id) (d : Db) : result unit * Db :=
  match by_id (d_reg d) !! id with
  | None => (if is_retiring (d_reg d) id then Ok tt else Err NotFound, d)
  | Some e =>
      let n := Z.of_nat (length (pe_writes e)) in
      let start := d_next d in
      match durable with
      | Err err => (Err err, install d n [])
      | Ok _ =>
          let d := install d n (entry_records e start) in
          let d := if (0 <? n) && d_ranges d then with_index d (note_overflow (start + n - 1) (d_index d)) else d in
          (Ok tt, match resolve_prepared id (d_reg d) with Some (_, r) => with_reg d r | None => d end)
      end
  end.

Definition abort_prepared (durable : result unit) (id : txn_id) (d : Db) : result unit * Db :=
  match by_id (d_reg d) !! id with
  | None => (if is_retiring (d_reg d) id then Ok tt else Err NotFound, d)
  | Some _ =>
      match durable with
      | Err err => (Err err, d)
      | Ok _ => (Ok tt, match resolve_prepared id (d_reg d) with Some (_, r) => with_reg d r | None => d end)
      end
  end.

Definition resolve_on_handle (f : txn_id -> Db -> result unit * Db) (poisoned read_only unified : bool) (id : txn_id) (d : Db)
    : result unit * Db :=
  match handle_check poisoned read_only unified with Err e => (Err e, d) | Ok _ => f id d end.

(** * Interleaved transactions *)

Definition rec_seq (r : CommitRecord) : Z := match r with PointRec e => e_seq e | RangeRec s => s_seq s end.

(** A record changes a key. *)
Definition touches (cmp : Comparator) (r : CommitRecord) (k : list byte) : bool :=
  match r with PointRec e => bool_decide (e_key e = k) | RangeRec s => covers cmp s k end.

(** A write and a record of its family change a common key. *)
Definition clash (cmp : Comparator) (b : list byte) (w : WriteEntry) (r : CommitRecord) : bool :=
  let a := buf_slice b (w_key w) in
  if w_is_range w then
    match r with
    | PointRec e => range_covers cmp a (buf_slice b (w_value w)) (e_key e)
    | RangeRec s => is_lt (compare cmp (s_start s) (buf_slice b (w_value w))) && is_lt (compare cmp a (s_end s))
    end
  else touches cmp r a.

(** Open transactions and commits waiting for the lock.  Three fields are
    observations of the execution: the newest sequence committed without a
    marker while range deletes were off, the highest snapshot the index was
    pruned at, and the next sequence when each prepare was registered. *)
Record Config := mkConfig {
  c_db : Db;
  c_txns : gmap nat Txn;
  c_pend : gmap nat Pending;
  c_blind : Z;
  c_floor : Z;
  c_prep : gmap txn_id Z;
}.

Definition fixed_level (l : IsolationLevel) : bool :=
  match l with RepeatableRead | Snapshot_ | Serializable => true | _ => false end.

Definition config_new (capacity : nat) (max : Z) : Config :=
  mkConfig (mkDb false (span_index_new capacity) (registry_new max) 1 []) ∅ ∅ 0 0 ∅.

(** A sequence a fixed-snapshot transaction is pinned at. *)
Definition pinned (c : Config) (s : Z) : Prop :=
  exists i t, (c_txns c !! i = Some t \/ exists p, c_pend c !! i = Some p /\ p_txn p = t) /\ fixed t = true /\ read_seq t = s.

(** At or below the oldest snapshot. *)
Definition below_pins (c : Config) (lo : Z) : Prop := lo <= visible_seq (c_db c) /\ forall s, pinned c s -> lo <= s.

(** [peek_seq] answers at least the newest version a snapshot could miss. *)
Definition peek_ok (c : Config) (peek : Peek) : Prop :=
  forall f k s e, peek f k = Ok s -> (f, PointRec e) ∈ d_hist (c_db c) -> e_key e = k ->
    (exists lo, pinned c lo /\ lo < e_seq e) -> e_seq e <= s.

(** The same, of one snapshot. *)
Definition sees_above (c : Config) (peek : Peek) (lo : Z) : Prop :=
  forall f k s e, peek f k = Ok s -> (f, PointRec e) ∈ d_hist (c_db c) -> e_key e = k -> lo < e_seq e -> e_seq e <= s.

Definition caps_of (d : Db) : Z := if d_ranges d then CAP_RANGE_DELETES else 0.

Section Machine.
Context (write_hash : Z -> list byte -> Z) (fams : Z -> option Family).

Inductive c_step : Config -> Config -> Prop :=
| cs_begin c i level seq m :
    c_txns c !! i = None -> c_pend c !! i = None -> (fixed_level level = true -> seq = visible_seq (c_db c)) ->
    c_step c (mkConfig (c_db c) (<[i := txn_new level seq (fixed_level level) m]> (c_txns c)) (c_pend c) (c_blind c) (c_floor c) (c_prep c))
| cs_op c i t t' :
    c_txns c !! i = Some t -> txn_step write_hash fams (caps_of (c_db c)) t t' ->
    c_step c (mkConfig (c_db c) (<[i := t']> (c_txns c)) (c_pend c) (c_blind c) (c_floor c) (c_prep c))
| cs_drop c i :
    c_step c (mkConfig (c_db c) (delete i (c_txns c)) (c_pend c) (c_blind c) (c_floor c) (c_prep c))
| cs_start c i t unified poisoned rounds s d' floor :
    c_txns c !! i = Some t -> c_pend c !! i = None ->
    commit_start unified poisoned rounds t (c_db c) = Some (s, d') ->
    c_floor c <= floor -> below_pins c floor -> Forall (fun r => fst (fst r) <= floor) rounds ->
    c_step c (mkConfig d' (delete i (c_txns c)) (match s with Waits p => <[i := p]> (c_pend c) | Finished_ _ => c_pend c end)
                (c_blind c) floor (c_prep c))
| cs_locked c i p peek applied r d' :
    c_pend c !! i = Some p -> commit_locked peek fams applied p (c_db c) = (r, d') ->
    c_step c (mkConfig d' (c_txns c) (delete i (c_pend c))
                (if p_tracked p then c_blind c else Z.max (c_blind c) (visible_seq d')) (c_floor c) (c_prep c))
| cs_prepare c i t peek unified poisoned read_only decisions durable gen id r d' :
    c_txns c !! i = Some t ->
    txn_prepare peek fams unified poisoned read_only decisions durable gen id t (c_db c) = (r, d') ->
    c_step c (mkConfig d' (delete i (c_txns c)) (c_pend c) (c_blind c) (c_floor c)
                (if is_ok r then <[id := d_next (c_db c)]> (c_prep c) else c_prep c))
| cs_commit_prepared c poisoned read_only unified durable id r d' :
    resolve_on_handle (commit_prepared durable) poisoned read_only unified id (c_db c) = (r, d') ->
    c_step c (mkConfig d' (c_txns c) (c_pend c)
                (if d_ranges (c_db c) then c_blind c else Z.max (c_blind c) (visible_seq d')) (c_floor c) (c_prep c))
| cs_abort_prepared c poisoned read_only unified durable id r d' :
    resolve_on_handle (abort_prepared durable) poisoned read_only unified id (c_db c) = (r, d') ->
    c_step c (mkConfig d' (c_txns c) (c_pend c) (c_blind c) (c_floor c) (c_prep c))
| cs_forget c id :
    c_step c (mkConfig (with_reg (c_db c) (forget id (d_reg (c_db c)))) (c_txns c) (c_pend c) (c_blind c) (c_floor c) (c_prep c))
| cs_prune c below floor :
    c_floor c <= floor -> below_pins c floor -> below <= floor ->
    c_step c (mkConfig (with_index (c_db c) (prune below (d_index (c_db c)))) (c_txns c) (c_pend c) (c_blind c) floor (c_prep c))
| cs_enable c :
    c_step c (mkConfig (enable_ranges (c_db c)) (c_txns c) (c_pend c) (c_blind c) (c_floor c) (c_prep c)).

Definition c_reachable (c : Config) : Prop := exists capacity max, rtc c_step (config_new capacity max) c.
End Machine.

(** * What the index still knows *)

Definition marks_record (m : Marker) (f : Z) (r : CommitRecord) : Prop :=
  mk_cf m = f /\ mk_seq m = rec_seq r /\
  match r with
  | PointRec e => mk_start m = e_key e /\ mk_end m = None
  | RangeRec s => mk_start m = s_start s /\ mk_end m = Some (s_end s)
  end.

(** A record has its marker, or is at or below the overflow watermark. *)
Definition covered (x : SpanIndex) (f : Z) (r : CommitRecord) : Prop :=
  (exists m, m ∈ markers x /\ marks_record m f r) \/ rec_seq r <= overflow_seq x.

Lemma covered_same x x' f r : markers x' = markers x -> overflow_seq x' = overflow_seq x -> covered x f r -> covered x' f r.
Proof. unfold covered. by intros -> ->. Qed.

Lemma covered_prune x below f r : covered x f r -> below < rec_seq r -> covered (prune below x) f r.
Proof.
  intros [(m & Hm & Hr)|Ho] Hb; [left|right].
  - exists m. split; [|done]. cbn. apply elem_of_lfilter. split; [done|]. apply Z.ltb_lt. destruct Hr as (_ & -> & _). lia.
  - cbn. destruct (negb (overflow_seq x =? 0) && (overflow_seq x <=? below)) eqn:E; [|done].
    apply andb_prop in E as [_ E]. apply Z.leb_le in E. lia.
Qed.

Lemma covered_reserve_loop n rounds floor x o x' f r :
  reserve_loop n rounds x = (o, x') -> Forall (fun r => fst (fst r) <= floor) rounds ->
  covered x f r -> floor < rec_seq r -> covered x' f r.
Proof.
  intros H HF. revert x H. induction HF as [|[[oldest c] g] rounds Ho HF IH]; intros x H Hc Hr; cbn [reserve_loop] in H.
  - by injection H as <- <-.
  - assert (covered (prune oldest x) f r) as Hp by (apply covered_prune; [done|cbn in Ho; lia]).
    destruct (has_room (prune oldest x) n); [injection H as <- <-; by eapply covered_same; [..|exact Hp]|].
    destruct c; [by injection H as <- <-|]. destruct g; [by injection H as <- <-|]. by eapply IH.
Qed.

Lemma covered_reserve n rounds floor x o x' f r :
  reserve n rounds x = (o, x') -> Forall (fun r => fst (fst r) <= floor) rounds ->
  covered x f r -> floor < rec_seq r -> covered x' f r.
Proof.
  unfold reserve. intros H HF Hc Hr. destruct (n =? 0)%nat; [by injection H as <- <-|].
  destruct (si_capacity x <? n)%nat; [by injection H as <- <-|].
  destruct (reserve_loop n rounds x) as [o' x1] eqn:E. assert (x1 = x') as -> by (destruct o'; by injection H as _ <-).
  by eapply covered_reserve_loop.
Qed.

Lemma covered_drop n x f r : covered x f r -> covered (drop_reservation n x) f r.
Proof. unfold drop_reservation. destruct (n =? 0)%nat; [done|]. by apply covered_same. Qed.

Lemma covered_try n x o x' f r : try_reserve n x = (o, x') -> covered x f r -> covered x' f r.
Proof.
  unfold try_reserve. destruct (n =? 0)%nat; [by intros [= <- <-]|]. destruct (has_room x n); intros [= <- <-]; [|done].
  by apply covered_same.
Qed.

Lemma covered_overflow seq x f r : covered x f r \/ rec_seq r <= seq -> covered (note_overflow seq x) f r.
Proof. intros [[H|H]|H]; [by left|right|right]; cbn; lia. Qed.

Lemma insert_span_markers_eq t order start st :
  markers (snd (insert_span_markers t order start st)) =
    markers (snd st) ++ omap (fun si => match writes t !! snd si with
      | Some w => Some (mkMarker (f_id (w_cf w)) (buf_slice (buf t) (w_key w))
                    (if w_is_range w then Some (buf_slice (buf t) (w_value w)) else None) (start + Z.of_nat (fst si)))
      | None => None end) (enumerate order) /\
  overflow_seq (snd (insert_span_markers t order start st)) = overflow_seq (snd st).
Proof.
  unfold insert_span_markers. generalize (enumerate order) as L. intros L. revert st.
  induction L as [|[slot i] L IH]; intros st; cbn [fold_left omap list_omap fst snd]; [by rewrite app_nil_r|].
  destruct (writes t !! i) as [w|]; [|apply IH]. destruct (IH (insert_marker (mkMarker (f_id (w_cf w)) (buf_slice (buf t) (w_key w))
    (if w_is_range w then Some (buf_slice (buf t) (w_value w)) else None) (start + Z.of_nat slot)) st)) as [H1 H2].
  rewrite H1, H2. destruct st as [n x]. cbn [insert_marker snd markers overflow_seq]. by rewrite <- app_assoc.
Qed.

(** A record of a commit is one of the writes of its order. *)
Lemma elem_of_apply_prepared t order start f r :
  (f, r) ∈ apply_prepared t order start ->
  exists slot i w, (slot, i) ∈ enumerate order /\ i ∈ order /\ writes t !! i = Some w /\
    f = f_id (w_cf w) /\ r = record_of (buf t) w (start + Z.of_nat slot).
Proof.
  unfold apply_prepared. intros H. apply list_elem_of_omap in H as ([slot i] & Hin & E).
  destruct (writes t !! i) as [w|] eqn:Ew; [|done]. injection E as <- <-. exists slot, i, w.
  split; [done|]. split; [|done]. rewrite <- (enumerate_snd order). apply elem_of_map. by exists (slot, i).
Qed.

Lemma record_of_seq b w s : rec_seq (record_of b w s) = s.
Proof. unfold record_of. by destruct (w_is_range w). Qed.

Lemma apply_prepared_seq t order start f r :
  (f, r) ∈ apply_prepared t order start -> start <= rec_seq r < start + Z.of_nat (length order).
Proof.
  intros H. apply elem_of_apply_prepared in H as (slot & i & w & Hin & _ & _ & _ & ->). rewrite record_of_seq.
  assert (slot ∈ map fst (enumerate order)) as Hs by (apply elem_of_map; by exists (slot, i)).
  rewrite enumerate_fst in Hs. apply list_elem_of_In, in_seq in Hs. lia.
Qed.

Lemma covered_markers t order start st f r :
  covered (snd st) f r \/ (f, r) ∈ apply_prepared t order start ->
  covered (snd (insert_span_markers t order start st)) f r.
Proof.
  destruct (insert_span_markers_eq t order start st) as [Hm Ho]. intros [[(m & Hin & Hr)|H]|H].
  - left. exists m. rewrite Hm. split; [set_solver|done].
  - right. by rewrite Ho.
  - apply elem_of_apply_prepared in H as (slot & i & w & Hin & _ & Hw & -> & ->). left.
    eexists. rewrite Hm. split.
    + apply elem_of_app. right. apply list_elem_of_omap. exists (slot, i). cbn. rewrite Hw. split; [done|reflexivity].
    + unfold marks_record. cbn. rewrite record_of_seq. split; [done|]. split; [done|]. unfold record_of.
      by destruct (w_is_range w).
Qed.

(** ** The checks *)

Lemma first_seq_none p ms m : first_seq p ms = None -> m ∈ ms -> p m = false.
Proof.
  unfold first_seq. intros H Hm. destruct (List.find p ms) eqn:E; [done|]. by apply (find_none _ _ E), list_elem_of_In.
Qed.

Lemma point_conflict_none x f cmp k rs s :
  point_conflict x f cmp k rs = None -> covered x f (RangeRec s) -> rs < s_seq s -> covers cmp s k = false.
Proof.
  unfold point_conflict. destruct (Z.ltb_spec rs (overflow_seq x)) as [|Ho]; [done|]. intros H [(m & Hm & Hcf & Hs & Hst & He)|Hc] Hr.
  - pose proof (first_seq_none _ _ _ H Hm) as Hn. cbn in Hn, Hs. rewrite Hcf, Z.eqb_refl, He in Hn. cbn [andb] in Hn.
    unfold marker_covers in Hn. rewrite He, Hst in Hn. destruct (Z.ltb_spec rs (mk_seq m)); [exact Hn|lia].
  - cbn in Hc. lia.
Qed.

Lemma range_conflict_none x f cmp (TO : TotalOrder cmp) b w rs r :
  w_is_range w = true ->
  range_conflict x f cmp (buf_slice b (w_key w)) (buf_slice b (w_value w)) rs = None ->
  covered x f r -> rs < rec_seq r -> clash cmp b w r = false.
Proof.
  unfold range_conflict, clash. intros ->. destruct (Z.ltb_spec rs (overflow_seq x)) as [|Ho]; [done|].
  intros H [(m & Hm & Hcf & Hs & Hrec)|Hc] Hr; [|lia].
  pose proof (first_seq_none _ _ _ H Hm) as Hn. cbn in Hn. rewrite Hcf, Z.eqb_refl in Hn. cbn [andb] in Hn.
  destruct (Z.ltb_spec rs (mk_seq m)) as [_|]; [cbn [andb] in Hn|lia]. unfold marker_overlaps in Hn.
  destruct r as [e|s]; destruct Hrec as [Hst He]; rewrite He, Hst in Hn; [|exact Hn].
  unfold range_covers. apply andb_false_iff. apply andb_false_iff in Hn as [Hn|Hn]; [left|right].
  - apply (is_ge_false cmp) in Hn. by apply (is_le_false cmp).
  - apply (is_lt_false cmp) in Hn. by apply (is_gt_false cmp).
Qed.

Lemma each_write_ok g t order i w :
  each_write g t order = Ok tt -> i ∈ order -> writes t !! i = Some w -> g w = Ok tt.
Proof.
  induction order as [|j order IH]; cbn [each_write]; intros H Hi Hw; [by apply elem_of_nil in Hi|].
  destruct (writes t !! j) as [v|] eqn:Ej.
  - apply bind_inv in H as ([] & H1 & H2). apply elem_of_cons in Hi as [->|Hi]; [congruence|auto].
  - apply elem_of_cons in Hi as [->|Hi]; [congruence|auto].
Qed.

(** * The invariant *)

Section Invariant.
Context (write_hash : Z -> list byte -> Z) (fams : Z -> option Family).

(** A fixed snapshot is between the pruning floor and the newest sequence. *)
Definition txn_ok (floor vis : Z) (t : Txn) : Prop :=
  txn_inv write_hash fams t /\ fixed t = fixed_level (isolation t) /\ (fixed t = true -> floor <= read_seq t <= vis).

(** No record since sequence [at_] changes a key of the entry. *)
Definition undisturbed (hist : list (Z * CommitRecord)) (at_ : Z) (e : PreparedEntry) : Prop :=
  forall f r k cf, (f, r) ∈ hist -> at_ <= rec_seq r -> (f, k) ∈ entry_keys e -> fams f = Some cf -> touches (f_cmp cf) r k = false.

Record db_inv (d : Db) (floor blind : Z) (prep : gmap txn_id Z) : Prop := {
  di_floor : floor <= visible_seq d;
  di_seqs f r : (f, r) ∈ d_hist d -> rec_seq r < d_next d;
  di_cover f r : (f, r) ∈ d_hist d -> floor < rec_seq r -> blind < rec_seq r -> covered (d_index d) f r;
  di_off f r : (f, r) ∈ d_hist d -> d_ranges d = false -> rec_seq r <= blind;
  di_reg : reg_ok (d_reg d);
  di_at id e : by_id (d_reg d) !! id = Some e -> is_Some (prep !! id);
  di_prep id e at_ : by_id (d_reg d) !! id = Some e -> prep !! id = Some at_ -> undisturbed (d_hist d) at_ e;
}.

Record c_inv (c : Config) : Prop := {
  ci_db : db_inv (c_db c) (c_floor c) (c_blind c) (c_prep c);
  ci_txns i t : c_txns c !! i = Some t -> txn_ok (c_floor c) (visible_seq (c_db c)) t;
  ci_pend i p : c_pend c !! i = Some p ->
    txn_ok (c_floor c) (visible_seq (c_db c)) (p_txn p) /\ p_order p = deduplicated_write_order (p_txn p) /\
    (p_tracked p = true -> d_ranges (c_db c) = true);
}.

Lemma txn_ok_mono floor vis vis' t : txn_ok floor vis t -> vis <= vis' -> txn_ok floor vis' t.
Proof. intros (H1 & H2 & H3) Hv. split; [done|]. split; [done|]. intros Hf. specialize (H3 Hf). lia. Qed.

(** The index may forget what is at or below a higher floor. *)
Lemma db_inv_index d floor blind prep floor' x :
  db_inv d floor blind prep -> floor <= floor' -> floor' <= visible_seq d ->
  (forall f r, floor' < rec_seq r -> covered (d_index d) f r -> covered x f r) ->
  db_inv (with_index d x) floor' blind prep.
Proof.
  intros [] Hf Hv Hx. split; cbn; try done. intros f r Hr H1 H2. apply Hx; [done|]. apply di_cover0; [done|lia|done].
Qed.

(** The records change no reserved key. *)
Definition spares (reg : PreparedRegistry) (recs : list (Z * CommitRecord)) : Prop :=
  forall id e f r k cf, by_id reg !! id = Some e -> (f, r) ∈ recs -> (f, k) ∈ entry_keys e -> fams f = Some cf ->
    touches (f_cmp cf) r k = false.

(** New records, each known to the index or to the observer, beside the reserved keys. *)
Lemma db_inv_install d floor blind prep n recs x blind' :
  db_inv d floor blind prep -> 0 <= n -> blind <= blind' ->
  (forall f r, (f, r) ∈ recs -> d_next d <= rec_seq r < d_next d + n) ->
  (forall f r, covered (d_index d) f r -> covered x f r) ->
  (forall f r, (f, r) ∈ recs -> blind' < rec_seq r -> covered x f r /\ d_ranges d = true) ->
  spares (d_reg d) recs ->
  db_inv (with_index (install d n recs) x) floor blind' prep.
Proof.
  intros [] Hn Hb Hs Hold Hnew Hres. split; cbn; try done.
  - unfold visible_seq in *. cbn. lia.
  - intros f r Hr. apply elem_of_app in Hr as [Hr|Hr]; [apply di_seqs0 in Hr|apply Hs in Hr]; lia.
  - intros f r Hr H1 H2. apply elem_of_app in Hr as [Hr|Hr]; [|by apply Hnew].
    apply Hold, di_cover0; [done|done|lia].
  - intros f r Hr Hoff. apply elem_of_app in Hr as [Hr|Hr]; [specialize (di_off0 f r Hr Hoff); lia|].
    destruct (Z.le_gt_cases (rec_seq r) blind') as [|Hlt]; [done|]. destruct (Hnew f r Hr Hlt). congruence.
  - intros id e at_ He Ha f r k cf Hr Hat Hk Hf. apply elem_of_app in Hr as [Hr|Hr]; [by eapply di_prep0|].
    by eapply Hres.
Qed.

Lemma db_inv_reg d floor blind prep r :
  db_inv d floor blind prep -> reg_ok r -> (forall id e, by_id r !! id = Some e -> by_id (d_reg d) !! id = Some e) ->
  db_inv (with_reg d r) floor blind prep.
Proof. intros [] Hr Hs. split; cbn; try done; [eauto|]. intros id e at_ He. apply di_prep0. by apply Hs. Qed.

Lemma db_inv_register d floor blind prep e :
  db_inv d floor blind prep -> by_id (d_reg d) !! pe_id e = None ->
  (forall sk, sk ∈ entry_keys e -> by_key (d_reg d) !! sk = None) ->
  db_inv (with_reg d (register e (d_reg d))) floor blind (<[pe_id e := d_next d]> prep).
Proof.
  intros [] Hnew Hfree. split; cbn; try done; [by apply register_ok|..].
  { intros id e' He. apply lookup_insert_Some in He as [[<- <-]|[Hne He]]; [by rewrite lookup_insert_eq|].
    rewrite lookup_insert_ne by done. eauto. }
  intros id e' at_ He Ha.
  apply lookup_insert_Some in He as [[<- <-]|[Hne He]].
  - rewrite lookup_insert_eq in Ha. injection Ha as <-. intros f r k cf Hr Hat _ _. apply di_seqs0 in Hr. lia.
  - rewrite lookup_insert_ne in Ha by done. by eapply di_prep0.
Qed.

(** ** What the reservation check establishes *)

Lemma family_of_write t w : txn_inv write_hash fams t -> w ∈ writes t -> fams (f_id (w_cf w)) = Some (w_cf w).
Proof. intros HI Hw. pose proof (inv_kinds _ _ _ HI) as HK. rewrite Forall_forall in HK. by destruct (HK w Hw). Qed.

Lemma check_reservations_spares reg t order start :
  txn_inv write_hash fams t -> reg_ok reg -> check_reservations reg t order = Ok tt -> spares reg (apply_prepared t order start).
Proof.
  intros HI HR H id e f r k cf He Hr Hk Hf. unfold check_reservations in H.
  destruct (Nat.eqb_spec (registry_len reg) 0) as [E|_].
  { apply map_size_empty_inv in E. by rewrite E, lookup_empty in He. }
  assert (by_key reg !! (f, k) = Some id) as Hown by (apply (ro_keys _ HR); eauto).
  destruct (registry_is_empty reg) eqn:E.
  { apply bool_decide_eq_true in E. by rewrite E, lookup_empty in Hown. }
  apply elem_of_apply_prepared in Hr as (slot & i & w & _ & Hi & Hw & -> & ->).
  pose proof (each_write_ok _ _ _ _ _ H Hi Hw) as Hc. cbn beta in Hc.
  assert (w_cf w = cf) as Ew.
  { rewrite (family_of_write t w) in Hf; [congruence|done|by eapply list_elem_of_lookup_2]. }
  unfold record_of, touches. destruct (w_is_range w).
  - destruct (owner_in_range _ _ _ _ _) eqn:Eo; [done|]. unfold covers. cbn [s_start s_end].
    rewrite <- Ew. by eapply owner_in_range_none.
  - unfold owner_of in Hc. cbn [e_key]. apply bool_decide_eq_false_2. intros <-. by rewrite Hown in Hc.
Qed.

Lemma entry_records_spec e start f r :
  (f, r) ∈ entry_records e start ->
  exists slot w, pe_writes e !! slot = Some w /\ f = pw_cf w /\ rec_seq r = start + Z.of_nat slot /\
    exists v, r = PointRec v /\ e_key v = buf_slice (pe_buf e) (pw_key w).
Proof.
  unfold entry_records. intros H. apply elem_of_lookup_imap in H as (slot & w & E & Hw). injection E as -> ->.
  exists slot, w. split; [done|]. split; [done|]. split; [done|]. eauto.
Qed.

Lemma entry_records_seq e start f r :
  (f, r) ∈ entry_records e start -> start <= rec_seq r < start + Z.of_nat (length (pe_writes e)).
Proof. intros H. apply entry_records_spec in H as (slot & w & Hw & _ & -> & _). apply lookup_lt_Some in Hw. lia. Qed.

(** Once resolved, the records of an entry leave the other reservations alone. *)
Lemma entry_records_spares id e reg r start :
  reg_ok reg -> resolve_prepared id reg = Some (e, r) -> spares r (entry_records e start).
Proof.
  intros HR H id' e' f rec k cf He' Hrec Hk _. pose proof (resolve_ok _ _ _ _ HR H) as HR'.
  unfold resolve_prepared in H. destruct (by_id reg !! id) as [e0|] eqn:E; [|done]. injection H as <- <-.
  cbn in He'. apply lookup_delete_Some in He' as [Hne He'].
  apply entry_records_spec in Hrec as (slot & w & Hw & -> & _ & v & -> & Hkey). apply bool_decide_eq_false_2. rewrite Hkey. intros <-.
  assert (by_key reg !! (pw_cf w, buf_slice (pe_buf e0) (pw_key w)) = Some id) as H1.
  { apply (ro_keys _ HR). exists e0. split; [done|]. unfold entry_keys. apply elem_of_map. exists w.
    split; [by eapply list_elem_of_lookup_2|done]. }
  assert (by_key reg !! (pw_cf w, buf_slice (pe_buf e0) (pw_key w)) = Some id') as H2 by (apply (ro_keys _ HR); eauto).
  congruence.
Qed.

(** ** The operations *)

Lemma commit_start_inv unified poisoned rounds t d floor blind prep floor' s d' :
  db_inv d floor blind prep -> floor <= floor' -> floor' <= visible_seq d ->
  Forall (fun r => fst (fst r) <= floor') rounds ->
  commit_start unified poisoned rounds t d = Some (s, d') ->
  db_inv d' floor' blind prep /\ d_ranges d' = d_ranges d /\ d_next d' = d_next d /\
  forall p, s = Waits p -> p_txn p = t /\ p_order p = deduplicated_write_order t /\ p_tracked p = d_ranges d.
Proof.
  intros HD Hf Hv HF H. assert (forall x, (forall f r, floor' < rec_seq r -> covered (d_index d) f r -> covered x f r) ->
    db_inv (with_index d x) floor' blind prep) as Hx by (intros x Hx; by eapply db_inv_index).
  assert (db_inv d floor' blind prep) as Hd.
  { destruct d as [dr dx dg dn dh]. apply (Hx dx). done. }
  unfold commit_start in H.
  destruct (negb (bool_decide _)); [by injection H as <- <-|]. destruct poisoned; [by injection H as <- <-|].
  destruct (length (writes t) =? 0)%nat; [by injection H as <- <-|].
  destruct (negb unified && _); [by injection H as <- <-|].
  destruct (existsb w_is_range (writes t)); cbn [andb] in H; [destruct (negb (is_ok _)); [by injection H as <- <-|]|].
  - destruct (reserve _ _ _) as [o x] eqn:E.
    assert (db_inv (with_index d x) floor' blind prep) as Hd'.
    { apply Hx. intros f r Hr Hc. by eapply covered_reserve. }
    destruct o as [[n| | |]|e]; try discriminate; injection H as <- <-; (split; [exact Hd'|]); split; try done; split; try done;
      intros p; (discriminate || by intros [= <-]).
  - destruct (try_reserve _ _) as [o x] eqn:E. injection H as <- <-. split; [|by repeat split; intros; simplify_eq].
    apply Hx. intros f r _. by eapply covered_try.
Qed.

Lemma drop_slots_inv slots d floor blind prep : db_inv d floor blind prep -> db_inv (drop_slots slots d) floor blind prep.
Proof.
  intros HD. destruct slots as [n|]; [|done]. cbn. eapply db_inv_index; [done|lia|apply HD|]. intros f r _. apply covered_drop.
Qed.

Lemma drop_slots_next slots d : d_next (drop_slots slots d) = d_next d /\ d_ranges (drop_slots slots d) = d_ranges d.
Proof. by destruct slots. Qed.

Lemma install_inv d floor blind prep n recs blind' :
  db_inv d floor blind prep -> 0 <= n -> blind <= blind' ->
  (forall f r, (f, r) ∈ recs -> d_next d <= rec_seq r < d_next d + n) ->
  (forall f r, (f, r) ∈ recs -> rec_seq r <= blind') -> spares (d_reg d) recs ->
  db_inv (install d n recs) floor blind' prep.
Proof.
  intros HD Hn Hb Hs Hc Hp. pose proof (db_inv_install d floor blind prep n recs (d_index d) blind' HD Hn Hb Hs) as H.
  destruct d. apply H; [done| |done]. intros f r Hr Hlt. specialize (Hc f r Hr). lia.
Qed.

Lemma spares_nil reg : spares reg [].
Proof. intros id e f r k cf _ H. by apply elem_of_nil in H. Qed.

Lemma install_none_inv d floor blind prep n :
  db_inv d floor blind prep -> 0 <= n -> db_inv (install d n []) floor blind prep.
Proof.
  intros HD Hn. eapply install_inv; [done|done|lia| | |apply spares_nil]; intros f r H; by apply elem_of_nil in H.
Qed.

Lemma record_markers_inv p d floor blind prep :
  let n := Z.of_nat (length (p_order p)) in
  let recs := apply_prepared (p_txn p) (p_order p) (d_next d) in
  let d' := record_markers p (d_next d) (install d n recs) in
  db_inv d floor blind prep -> spares (d_reg d) recs -> (p_tracked p = true -> d_ranges d = true) ->
  db_inv d' floor (if p_tracked p then blind else Z.max blind (visible_seq d')) prep /\
  d_ranges d' = d_ranges d /\ d_next d' = d_next d + n.
Proof.
  intros n recs d' HD Hsp Htr. assert (0 <= n) as Hn by lia.
  assert (forall f r, (f, r) ∈ recs -> d_next d <= rec_seq r < d_next d + n) as Hs by (intros f r; apply apply_prepared_seq).
  unfold d', record_markers. clear d'. destruct (p_tracked p) eqn:Et.
  - assert (forall x, (forall f r, covered (d_index d) f r \/ (f, r) ∈ recs -> covered x f r) ->
      db_inv (with_index (install d n recs) x) floor blind prep) as Hx.
    { intros x Hx. eapply db_inv_install; [done..|lia|done|auto|auto|done]. }
    destruct (p_slots p) as [slots|].
    + destruct (insert_span_markers _ _ _ _) as [rest x] eqn:Ei. split; [|done]. apply Hx. intros f r Hr. apply covered_drop.
      pose proof (covered_markers (p_txn p) (p_order p) (d_next d) (slots, d_index d) f r Hr) as Hm.
      cbn [install d_index] in Ei. by rewrite Ei in Hm.
    + cbn [install d_ranges]. rewrite (Htr eq_refl). split; [|split; [by apply Htr|done]]. apply Hx.
      intros f r Hr. apply covered_overflow. destruct Hr as [Hr|Hr]; [auto|]. right. apply Hs in Hr. fold n. lia.
  - destruct (drop_slots_next (p_slots p) (install d n recs)) as [En Er].
    unfold visible_seq at 1. rewrite En, Er. split; [|done]. apply drop_slots_inv.
    eapply install_inv; [done|done|lia|done| |done]. intros f r Hr. apply Hs in Hr. cbn. lia.
Qed.

Lemma db_inv_blind d floor blind blind' prep : db_inv d floor blind prep -> blind <= blind' -> db_inv d floor blind' prep.
Proof.
  intros [] Hb. split; try done; intros f r Hr; [intros H1 H2; apply di_cover0; [done|done|lia]|].
  intros Hoff. specialize (di_off0 f r Hr Hoff). lia.
Qed.

Lemma commit_locked_inv peek applied p d floor blind prep r d' :
  db_inv d floor blind prep -> txn_inv write_hash fams (p_txn p) -> (p_tracked p = true -> d_ranges d = true) ->
  commit_locked peek fams applied p d = (r, d') ->
  db_inv d' floor (if p_tracked p then blind else Z.max blind (visible_seq d')) prep /\
  d_ranges d' = d_ranges d /\ d_next d <= d_next d'.
Proof.
  intros HD HT Htr H. unfold commit_locked in H.
  assert (forall d0, db_inv d0 floor blind prep -> d_next d <= d_next d0 -> d_ranges d0 = d_ranges d -> drop_slots (p_slots p) d0 = d' ->
    db_inv d' floor (if p_tracked p then blind else Z.max blind (visible_seq d')) prep /\
    d_ranges d' = d_ranges d /\ d_next d <= d_next d') as Hdrop.
  { intros d0 HD0 Hn0 Hr0 <-. destruct (drop_slots_next (p_slots p) d0) as [-> ->]. split; [|done].
    eapply db_inv_blind; [by apply drop_slots_inv|]. destruct (p_tracked p); lia. }
  destruct (check_reservations (d_reg d) (p_txn p) (p_order p)) as [[]|e] eqn:Ec; cbn [rbind] in H.
  2: { injection H as <- <-. by apply (Hdrop d). }
  destruct (rbind _ _) as [u|e]; cbn [rbind] in H; [|injection H as <- <-; by apply (Hdrop d)].
  destruct applied; cbn [negb] in H.
  2: { injection H as <- <-. eapply Hdrop; [apply install_none_inv; [done|]|..|done]; cbn; (lia || done). }
  injection H as <- <-. destruct (record_markers_inv p d floor blind prep) as (H1 & H2 & H3); [done| |done|].
  - apply check_reservations_spares; [done|apply HD|done].
  - split; [exact H1|]. split; [exact H2|]. rewrite H3. lia.
Qed.

Lemma prepare_inv peek unified poisoned read_only decisions durable gen id t d floor blind prep r d' :
  db_inv d floor blind prep ->
  txn_prepare peek fams unified poisoned read_only decisions durable gen id t d = (r, d') ->
  db_inv d' floor blind (if is_ok r then <[id := d_next d]> prep else prep) /\ d_ranges d' = d_ranges d /\ d_next d' = d_next d.
Proof.
  intros HD H. unfold txn_prepare in H. destruct (rbind _ _) as [e|err] eqn:E; injection H as <- <-; [|done].
  apply bind_inv in E as ([] & _ & E). do 5 (apply bind_inv in E as ([] & _ & E)).
  do 2 (apply bind_inv in E as ([] & _ & E)). apply bind_inv in E as ([] & Hk & E).
  apply bind_inv in E as ([] & Hown & E). do 2 (apply bind_inv in E as ([] & _ & E)). injection E as <-.
  split; [|done]. cbn [is_ok]. apply (db_inv_register d floor blind prep (prepared_entry id t (deduplicated_write_order t) gen)); [done|..].
  - cbn. unfold knows, guard in Hk. destruct (by_id (d_reg d) !! id) eqn:Eb; [|done].
    by rewrite bool_decide_eq_true_2 in Hk by eauto.
  - intros sk Hsk. unfold entry_keys in Hsk. apply elem_of_map in Hsk as (pw & Hpw & <-). cbn in Hpw.
    apply list_elem_of_omap in Hpw as (i & Hi & Ei). destruct (writes t !! i) as [w|] eqn:Ew; [|done]. injection Ei as <-.
    pose proof (each_write_ok _ _ _ _ _ Hown Hi Ew) as Hg. unfold pw_slot. cbn. unfold owner_of, guard in Hg.
    by destruct (by_key (d_reg d) !! _).
Qed.

Lemma commit_prepared_inv durable id d floor blind prep r d' :
  db_inv d floor blind prep -> commit_prepared durable id d = (r, d') ->
  db_inv d' floor (if d_ranges d then blind else Z.max blind (visible_seq d')) prep /\ d_ranges d' = d_ranges d /\ d_next d <= d_next d'.
Proof.
  intros HD H. unfold commit_prepared in H. destruct (by_id (d_reg d) !! id) as [e|] eqn:Ee.
  2: { injection H as <- <-. split; [|split; [done|lia]]. eapply db_inv_blind; [done|]. destruct (d_ranges d); lia. }
  set (n := Z.of_nat (length (pe_writes e))) in *. assert (0 <= n) as Hn by lia. destruct durable as [[]|err].
  2: { injection H as <- <-. split; [|cbn; split; [done|lia]]. eapply db_inv_blind; [by apply install_none_inv|].
       destruct (d_ranges d); lia. }
  destruct (resolve_prepared id (d_reg d)) as [[e' reg]|] eqn:Er; [|unfold resolve_prepared in Er; by rewrite Ee in Er].
  assert (e' = e) as -> by (unfold resolve_prepared in Er; rewrite Ee in Er; by injection Er as <- _).
  pose proof (resolve_ok _ _ _ _ (di_reg _ _ _ _ HD) Er) as HR. pose proof (entry_records_spares id e (d_reg d) reg (d_next d) (di_reg _ _ _ _ HD) Er) as Hsp.
  assert (db_inv (with_reg d reg) floor blind prep) as HD'.
  { apply db_inv_reg; [done|done|]. intros i e0 He0. unfold resolve_prepared in Er. rewrite Ee in Er. injection Er as <-.
    cbn in He0. by apply lookup_delete_Some in He0 as [_ He0]. }
  assert (forall f r0, (f, r0) ∈ entry_records e (d_next d) -> d_next d <= rec_seq r0 < d_next d + n) as Hs.
  { intros f r0. apply entry_records_seq. }
  assert (forall x blind', blind <= blind' -> (forall f r0, covered (d_index d) f r0 -> covered x f r0) ->
    (forall f r0, (f, r0) ∈ entry_records e (d_next d) -> blind' < rec_seq r0 -> covered x f r0 /\ d_ranges d = true) ->
    db_inv (with_index (install (with_reg d reg) n (entry_records e (d_next d))) x) floor blind' prep) as Hx.
  { intros x blind' Hb H1 H2. by eapply db_inv_install. }
  case_eq (d_ranges d); intros Hr; cbn [install d_ranges] in H; rewrite Hr in H; [destruct (Z.ltb_spec 0 n) as [Hpos|Hz]|];
    rewrite ?andb_false_r in H; cbn [andb with_index install d_reg] in H; rewrite Er in H; injection H as <- <-;
    cbn [with_reg with_index install d_next d_ranges]; (split; [|split; [done|lia]]).
  - apply (Hx (note_overflow (d_next d + n - 1) (d_index d))); [lia|intros f r0 Hc; apply covered_overflow; by left|].
    intros f r0 Hin _. split; [|done]. apply covered_overflow. right. apply Hs in Hin. lia.
  - apply (Hx (d_index d)); [lia|done|]. intros f r0 Hin. apply Hs in Hin. lia.
  - apply (Hx (d_index d)); [lia|done|]. intros f r0 Hin Hlt. apply Hs in Hin. unfold visible_seq in Hlt. cbn in Hlt. lia.
Qed.

Lemma abort_prepared_inv durable id d floor blind prep r d' :
  db_inv d floor blind prep -> abort_prepared durable id d = (r, d') ->
  db_inv d' floor blind prep /\ d_ranges d' = d_ranges d /\ d_next d' = d_next d.
Proof.
  intros HD H. unfold abort_prepared in H. destruct (by_id (d_reg d) !! id) as [e|] eqn:Ee; [|by injection H as <- <-].
  destruct durable as [[]|err]; [|by injection H as <- <-].
  destruct (resolve_prepared id (d_reg d)) as [[e' reg]|] eqn:Er; injection H as <- <-; [|done]. split; [|done].
  apply db_inv_reg; [done|by eapply resolve_ok; [apply HD|]|]. intros i e0 He0. unfold resolve_prepared in Er. rewrite Ee in Er.
  injection Er as <- <-. cbn in He0. by apply lookup_delete_Some in He0 as [_ He0].
Qed.

Lemma step_scalars caps_ t t' :
  txn_inv write_hash fams t -> txn_step write_hash fams caps_ t t' ->
  isolation t' = isolation t /\ read_seq t' = read_seq t /\ fixed t' = fixed t.
Proof.
  assert (forall t, isolation (ensure_write_index write_hash t) = isolation t /\ read_seq (ensure_write_index write_hash t) = read_seq t /\
    fixed (ensure_write_index write_hash t) = fixed t) as He.
  { intros t0. destruct (ensure_cases write_hash t0) as [E|[ix E]]; by rewrite E. }
  intros HI Hs.
  destruct (step_cases write_hash fams caps_ t t' HI Hs) as [Hb|[->|[(cf & k & fl & ->)|[(m & ->)|[(m & pos & w & b & r & E & ->)|(pos & ->)]]]]];
    [by destruct Hb|apply He| |done..].
  unfold note_store_read. cbn [snd]. destruct (bool_decide _); apply He.
Qed.

(** ** Every step keeps the invariant *)

Lemma c_inv_new capacity max : c_inv (config_new capacity max).
Proof.
  split; cbn; [|intros i t H; by rewrite lookup_empty in H|intros i p H; by rewrite lookup_empty in H].
  split; cbn; [done|..].
  - intros f r H. by apply elem_of_nil in H.
  - intros f r H. by apply elem_of_nil in H.
  - intros f r H. by apply elem_of_nil in H.
  - split; cbn.
    + intros sk id. rewrite lookup_empty. split; [done|]. intros (e & He & _). by rewrite lookup_empty in He.
    + intros id e He. by rewrite lookup_empty in He.
  - intros id e He. by rewrite lookup_empty in He.
  - intros id e at_ He. by rewrite lookup_empty in He.
Qed.

Lemma txn_ok_floor c floor t :
  (exists i, c_txns c !! i = Some t \/ exists p, c_pend c !! i = Some p /\ p_txn p = t) ->
  below_pins c floor -> txn_ok (c_floor c) (visible_seq (c_db c)) t -> txn_ok floor (visible_seq (c_db c)) t.
Proof.
  intros [i Hi] [_ Hp] (H1 & H2 & H3). split; [done|]. split; [done|]. intros Hf. specialize (H3 Hf).
  assert (floor <= read_seq t) by (apply Hp; exists i, t; done). lia.
Qed.

Lemma below_floor c : c_inv c -> below_pins c (c_floor c).
Proof.
  intros [HD Ht Hp]. split; [apply HD|]. intros s (i & t & [Hi|(p & Hi & <-)] & Hf & <-).
  - destruct (Ht i t Hi) as (_ & _ & H). by apply H.
  - destruct (Hp i p Hi) as ((_ & _ & H) & _). by apply H.
Qed.

(** The database moves on, transactions leave, and a transaction may start to commit. *)
Lemma c_inv_update c d' txns' pend' blind' floor' prep' :
  c_inv c -> db_inv d' floor' blind' prep' -> below_pins c floor' ->
  d_next (c_db c) <= d_next d' -> (d_ranges (c_db c) = true -> d_ranges d' = true) ->
  (forall i t, txns' !! i = Some t -> c_txns c !! i = Some t) ->
  (forall i p, pend' !! i = Some p -> c_pend c !! i = Some p \/
     (c_txns c !! i = Some (p_txn p) /\ p_order p = deduplicated_write_order (p_txn p) /\ p_tracked p = d_ranges (c_db c))) ->
  c_inv (mkConfig d' txns' pend' blind' floor' prep').
Proof.
  intros HC HD Hb Hn Hr Ht Hp. assert (visible_seq (c_db c) <= visible_seq d') as Hv by (unfold visible_seq; lia).
  split; cbn; [done|..].
  - intros i t Hi. apply Ht in Hi. eapply txn_ok_mono; [|exact Hv]. eapply txn_ok_floor; [eauto|done|by eapply ci_txns].
  - intros i p Hi. destruct (Hp i p Hi) as [Hi'|(Hi' & Ho & Htr)].
    + destruct (ci_pend _ HC i p Hi') as (H1 & H2 & H3). split; [|split; [done|auto]].
      eapply txn_ok_mono; [|exact Hv]. eapply txn_ok_floor; [eauto 6|done|done].
    + split; [|split; [done|intros Hx; apply Hr; congruence]].
      eapply txn_ok_mono; [|exact Hv]. eapply txn_ok_floor; [eauto|done|by eapply ci_txns].
Qed.

Lemma c_inv_step c c' : c_inv c -> c_step write_hash fams c c' -> c_inv c'.
Proof.
  intros HC Hs. pose proof (below_floor c HC) as Hfl. pose proof (ci_db _ HC) as HD.
  destruct Hs as [c i level seq m Hi Hp Hseq|c i t t' Hi Hst|c i|c i t un po rounds s d' floor Hi Hp Hc Hf Hb HF
    |c i p peek ap r d' Hi Hc|c i t peek un po ro de du gen id r d' Hi Hc|c po ro un du id r d' Hc|c po ro un du id r d' Hc
    |c id|c below floor Hf Hb Hbe|c].
  - pose proof HC as [_ Ht Hpe]. split; cbn; [done| |done]. intros j t Hj. apply lookup_insert_Some in Hj as [[<- <-]|[_ Hj]]; [|by eapply Ht].
    split; [apply inv_new|]. split; [done|]. cbn. intros Hfix. rewrite (Hseq Hfix). split; [apply HD|done].
  - pose proof HC as [_ Ht Hpe]. split; cbn; [done| |done]. intros j t0 Hj. apply lookup_insert_Some in Hj as [[<- <-]|[_ Hj]]; [|by eapply Ht].
    destruct (Ht i t Hi) as (H1 & H2 & H3). destruct (step_scalars _ t t' H1 Hst) as (E1 & E2 & E3).
    split; [by eapply inv_step|]. rewrite E1, E2, E3. done.
  - eapply c_inv_update; [done..|intros j t Hj; by apply lookup_delete_Some in Hj as [_ Hj]|auto].
  - destruct (commit_start_inv un po rounds t (c_db c) (c_floor c) (c_blind c) (c_prep c) floor s d') as (H1 & H2 & H3 & H4);
      [done|done|exact (proj1 Hb)|done|done|].
    eapply c_inv_update; [done|done|done|lia|congruence|intros j t0 Hj; by apply lookup_delete_Some in Hj as [_ Hj]|].
    intros j p Hj. destruct s as [res|p0]; [by left|]. apply lookup_insert_Some in Hj as [[<- <-]|[_ Hj]]; [right|by left].
    destruct (H4 p0 eq_refl) as (-> & -> & ->). done.
  - destruct (ci_pend _ HC i p Hi) as ((HT & _) & _ & Htr).
    destruct (commit_locked_inv peek ap p (c_db c) (c_floor c) (c_blind c) (c_prep c) r d') as (H1 & H2 & H3); [done..|].
    eapply c_inv_update; [done..|congruence|auto|]. intros j q Hj. apply lookup_delete_Some in Hj as [_ Hj]. by left.
  - destruct (prepare_inv peek un po ro de du gen id t (c_db c) (c_floor c) (c_blind c) (c_prep c) r d') as (H1 & H2 & H3); [done..|].
    eapply c_inv_update; [done..|lia|congruence|intros j t0 Hj; by apply lookup_delete_Some in Hj as [_ Hj]|auto].
  - unfold resolve_on_handle in Hc. destruct (handle_check po ro un).
    + destruct (commit_prepared_inv du id (c_db c) (c_floor c) (c_blind c) (c_prep c) r d') as (H1 & H2 & H3); [done..|].
      eapply c_inv_update; [done..|congruence|auto|auto].
    + injection Hc as <- <-. eapply c_inv_update; [done| |done|lia|done|auto|auto].
      eapply db_inv_blind; [done|]. destruct (d_ranges (c_db c)); lia.
  - unfold resolve_on_handle in Hc. destruct (handle_check po ro un).
    + destruct (abort_prepared_inv du id (c_db c) (c_floor c) (c_blind c) (c_prep c) r d') as (H1 & H2 & H3); [done..|].
      eapply c_inv_update; [done..|lia|congruence|auto|auto].
    + injection Hc as <- <-. eapply c_inv_update; [done..|lia|done|auto|auto].
  - eapply c_inv_update; [done| |done|cbn; lia|done|auto|auto]. apply db_inv_reg; [done|apply forget_ok, HD|done].
  - eapply c_inv_update; [done| |done|cbn; lia|done|auto|auto].
    eapply db_inv_index; [done|done|exact (proj1 Hb)|]. intros f r Hr Hc. apply covered_prune; [done|lia].
  - eapply c_inv_update; [done| |done|cbn; lia|done|auto|auto]. by destruct HD.
Qed.

Lemma c_inv_reachable c : c_reachable write_hash fams c -> c_inv c.
Proof.
  intros (capacity & max & H). pose proof (c_inv_new capacity max) as HI. revert HI.
  induction H as [|c1 c2 c3 Hs _ IH]; intros HI; [done|]. apply IH. by eapply c_inv_step.
Qed.

(** ** What a commit that succeeds was checked for *)

Lemma no_conflict_ok o : no_conflict o = Ok tt -> o = None.
Proof. by destruct o. Qed.

Lemma validate_write_ok peek t order i w :
  validate_write_conflicts peek t order = Ok tt -> i ∈ order -> writes t !! i = Some w ->
  exists s, peek (f_id (w_cf w)) (buf_slice (buf t) (w_key w)) = Ok s /\ s <= read_seq t.
Proof.
  intros H Hi Hw. pose proof (each_write_ok _ _ _ _ _ H Hi Hw) as Hc. cbn beta in Hc. apply bind_inv in Hc as (s & Hs & Hg).
  exists s. split; [done|]. unfold guard in Hg. destruct (Z.leb_spec s (read_seq t)); [done|discriminate].
Qed.

Lemma validate_reads_ok peek spans t reads f k cf :
  validate_reads peek fams spans t reads = Ok tt -> (f, k) ∈ reads -> f ∈ read_cfs t -> fams f = Some cf ->
  (exists s, peek f k = Ok s /\ s <= read_seq t) /\
  forall x, spans = Some x -> point_conflict x f (f_cmp cf) k (read_seq t) = None.
Proof.
  intros H Hin Hcf Hf. induction reads as [|[f' k'] reads IH]; [by apply elem_of_nil in Hin|]. cbn [validate_reads] in H.
  apply elem_of_cons in Hin as [E|Hin].
  - injection E as <- <-. rewrite bool_decide_eq_true_2 in H by done. cbn [negb] in H. rewrite Hf in H.
    apply bind_inv in H as (s & Hs & H). apply bind_inv in H as ([] & Hg & H). apply bind_inv in H as ([] & Hn & _). split.
    + exists s. split; [done|]. unfold guard in Hg. destruct (Z.leb_spec s (read_seq t)); [done|discriminate].
    + intros x ->. cbn in Hn. by destruct (point_conflict x f (f_cmp cf) k (read_seq t)).
  - destruct (negb _); [auto|]. destruct (fams f'); [|auto].
    apply bind_inv in H as (s & _ & H). do 2 (apply bind_inv in H as ([] & _ & H)). auto.
Qed.

Lemma commit_locked_ok peek applied p d d' :
  commit_locked peek fams applied p d = (Ok tt, d') ->
  check_reservations (d_reg d) (p_txn p) (p_order p) = Ok tt /\
  validate_commit peek fams (span_index d) (p_txn p) (p_order p) = Ok tt /\
  (needs_check (p_txn p) = true -> validate_span_conflicts (span_index d) (p_txn p) (p_order p) = Ok tt).
Proof.
  intros H. unfold commit_locked in H. destruct (check_reservations (d_reg d) (p_txn p) (p_order p)) as [[]|]; cbn [rbind] in H; [|done].
  destruct (validate_commit peek fams (span_index d) (p_txn p) (p_order p)) as [[]|]; cbn [rbind] in H; [|done].
  destruct (needs_check (p_txn p)); [|done].
  by destruct (validate_span_conflicts (span_index d) (p_txn p) (p_order p)) as [[]|].
Qed.

Definition is_point (r : CommitRecord) : Prop := match r with PointRec _ => True | RangeRec _ => False end.

Section Check.
Context (Hord : forall f cf, fams f = Some cf -> TotalOrder (f_cmp cf)).
Context (c : Config) (HC : c_inv c) (t : Txn) (peek : Peek) (Hpk : sees_above c peek (read_seq t)).
Context (Hpin : pinned c (read_seq t)) (HT : txn_inv write_hash fams t).
Context (f : Z) (r : CommitRecord) (cf : Family) (Hf : fams f = Some cf).
Context (Hr : (f, r) ∈ d_hist (c_db c)) (Hnew : read_seq t < rec_seq r).

(** A point version newer than the snapshot is seen by the peek. *)
Lemma peek_no_point s k : peek f k = Ok s -> s <= read_seq t -> is_point r -> touches (f_cmp cf) r k = false.
Proof.
  intros Hs Hle. pose proof Hr as Hr'. pose proof Hnew as Hn. destruct r as [e|]; [intros _|done]. cbn in *. apply bool_decide_eq_false_2. intros Ek.
  pose proof (Hpk f k s e Hs Hr' Ek Hn). lia.
Qed.

(** With no untracked commit after the snapshot, the index is on and knows the record. *)
Lemma index_knows : c_blind c <= read_seq t -> span_index (c_db c) = Some (d_index (c_db c)) /\ covered (d_index (c_db c)) f r.
Proof.
  intros Hb. pose proof (ci_db _ HC) as [_ _ Hcov Hoff _ _ _]. unfold span_index. split.
  - case_eq (d_ranges (c_db c)); intros E; [done|]. specialize (Hoff f r Hr E). lia.
  - apply Hcov; [done| |lia]. destruct (below_floor c HC) as [_ Hfl]. specialize (Hfl _ Hpin). lia.
Qed.

Lemma write_no_clash order j w :
  validate_write_conflicts peek t order = Ok tt -> validate_span_conflicts (span_index (c_db c)) t order = Ok tt ->
  j ∈ order -> writes t !! j = Some w -> f_id (w_cf w) = f ->
  c_blind c <= read_seq t \/ (w_is_range w = false /\ is_point r) -> clash (f_cmp cf) (buf t) w r = false.
Proof.
  intros Hv Hsp Hj Hw Hid Hk. assert (w_cf w = cf) as Ecf.
  { pose proof (family_of_write t w HT (list_elem_of_lookup_2 _ _ _ Hw)) as H. rewrite Hid in H. congruence. }
  destruct (validate_write_ok _ _ _ _ _ Hv Hj Hw) as (s & Hs & Hle). rewrite Hid in Hs.
  pose proof (peek_no_point s _ Hs Hle) as Hpt. pose proof index_knows as Hknow. pose proof Hnew as Hn. unfold clash. destruct (w_is_range w) eqn:Er.
  - destruct Hk as [Hk|[? _]]; [|done]. destruct (Hknow Hk) as [Ei Hcov]. rewrite Ei in Hsp.
    pose proof (each_write_ok _ _ _ _ _ Hsp Hj Hw) as Hc. cbn beta in Hc. rewrite Er, Hid, Ecf in Hc.
    apply no_conflict_ok in Hc.
    pose proof (range_conflict_none _ _ _ (Hord f cf Hf) _ _ _ _ Er Hc Hcov Hnew) as H. unfold clash in H. by rewrite Er in H.
  - clear Hr Hnew. destruct r as [e|s0]; [by apply Hpt|]. destruct Hk as [Hk|[_ []]]. destruct (Hknow Hk) as [Ei Hcov]. rewrite Ei in Hsp.
    pose proof (each_write_ok _ _ _ _ _ Hsp Hj Hw) as Hc. cbn beta in Hc. rewrite Er, Hid, Ecf in Hc. cbn.
    eapply point_conflict_none; [by apply no_conflict_ok|exact Hcov|exact Hn].
Qed.
End Check.

Lemma read_set_family t f k : txn_inv write_hash fams t -> (f, k) ∈ read_set t -> f ∈ read_cfs t.
Proof.
  intros HI. rewrite (inv_set _ _ _ HI), (inv_cfs _ _ _ HI), !elem_of_list_to_set, elem_of_map. intros H. by exists (f, k).
Qed.

(** * Properties *)

(** A commit that passed its checks clashes with no record above its snapshot that they can see. *)
Lemma committed_no_clash c i p peek applied d' f r cf :
  (forall f cf, fams f = Some cf -> TotalOrder (f_cmp cf)) ->
  c_reachable write_hash fams c -> c_pend c !! i = Some p -> sees_above c peek (read_seq (p_txn p)) -> needs_check (p_txn p) = true ->
  commit_locked peek fams applied p (c_db c) = (Ok tt, d') ->
  (f, r) ∈ d_hist (c_db c) -> read_seq (p_txn p) < rec_seq r -> fams f = Some cf ->
  (forall j w, j ∈ p_order p -> writes (p_txn p) !! j = Some w -> f_id (w_cf w) = f ->
     c_blind c <= read_seq (p_txn p) \/ (w_is_range w = false /\ is_point r) ->
     clash (f_cmp cf) (buf (p_txn p)) w r = false) /\
  (isolation (p_txn p) = Serializable -> forall k, (f, k) ∈ read_set (p_txn p) ->
     c_blind c <= read_seq (p_txn p) \/ is_point r -> touches (f_cmp cf) r k = false).
Proof.
  intros Hord HR Hi Hpk Hn Hc Hr Hnew Hf. apply c_inv_reachable in HR as HC.
  destruct (ci_pend _ HC i p Hi) as ((HT & Hfix & _) & _ & _).
  assert (pinned c (read_seq (p_txn p))) as Hpin.
  { exists i, (p_txn p). split; [eauto|]. split; [|done]. rewrite Hfix. unfold needs_check in Hn.
    apply orb_prop in Hn as [Hn|Hn]; apply bool_decide_eq_true in Hn; by rewrite Hn. }
  destruct (commit_locked_ok _ _ _ _ _ Hc) as (_ & Hv & Hs). unfold validate_commit in Hv. rewrite Hn in Hv.
  apply bind_inv in Hv as ([] & Hw & Hrd). split.
  - intros j w Hj Hwj Hid Hk. by apply (write_no_clash Hord c HC (p_txn p) peek Hpk Hpin HT f r cf Hf Hr Hnew (p_order p) j); auto.
  - intros Hser k Hk Hcase. rewrite bool_decide_eq_true_2 in Hrd by done.
    destruct (validate_reads_ok peek (span_index (c_db c)) (p_txn p) (elements (read_set (p_txn p))) f k cf) as [(s & Hs1 & Hle) Hsp];
      [exact Hrd|by apply elem_of_elements|by eapply read_set_family|done|].
    destruct r as [e|s0]; [by eapply peek_no_point|]. destruct Hcase as [Hb|[]].
    destruct (index_knows c HC (p_txn p) Hpin f (RangeRec s0) Hr Hnew Hb) as [Ei Hcov].
    cbn. eapply point_conflict_none; [by apply Hsp|exact Hcov|exact Hnew].
Qed.

(** C15: A reservation holds.  From the moment a prepare is registered until it
    is resolved, no record any other transaction commits, at any isolation
    level, by a point write, a range delete or another prepared commit,
    changes a key it reserved: a prepare that returned success cannot lose a
    write conflict later. *)
Theorem reservations_hold c id e :
  c_reachable write_hash fams c -> by_id (d_reg (c_db c)) !! id = Some e ->
  exists at_, c_prep c !! id = Some at_ /\
    forall f r k cf, (f, r) ∈ d_hist (c_db c) -> at_ <= rec_seq r -> (f, k) ∈ entry_keys e -> fams f = Some cf ->
      touches (f_cmp cf) r k = false.
Proof.
  intros HR He. apply c_inv_reachable in HR as HC. pose proof (ci_db _ HC) as HD.
  destruct (di_at _ _ _ _ HD id e He) as [at_ Ha]. exists at_. split; [done|]. exact (di_prep _ _ _ _ HD id e at_ He Ha).
Qed.
End Invariant.

(** ** The newest sequence of a key in a family *)

(** An entry of the key is in a memtable or a table of the family. *)
Definition stored (mem : Mem) (imms : list Mem) (levels : list (list Table)) (k : list byte) (seq : Z) : Prop :=
  exists e, e_key e = k /\ e_seq e = seq /\
    ((exists m, m ∈ mem :: imms /\ e ∈ m_entries m) \/ (exists t, t ∈ concat levels /\ e ∈ t_entries t)).

Section Peek.
Context (cmp : Comparator) `{!TotalOrder cmp} (k : list byte) (now_ : Z).

(** [b'] is the maximum of [b] and the sequences in [P]. *)
Definition raises (P : Z -> Prop) (b b' : Z) : Prop :=
  b <= b' /\ (forall s, P s -> s <= b') /\ (b' = b \/ P b').

Lemma raises_trans P Q b b1 b2 : raises P b b1 -> raises Q b1 b2 -> raises (fun s => P s \/ Q s) b b2.
Proof.
  intros (H1 & H2 & H3) (G1 & G2 & G3). split; [lia|]. split.
  - intros s [Hs|Hs]; [specialize (H2 s Hs); lia|auto].
  - destruct G3 as [->|G3]; [destruct H3 as [H3|H3]; [by left|right; by left]|right; by right].
Qed.

Lemma raises_iff P Q b b' : (forall s, P s <-> Q s) -> raises P b b' -> raises Q b b'.
Proof. intros HPQ (H1 & H2 & H3). split; [done|]. setoid_rewrite <- HPQ. done. Qed.

Definition has_seq (es : list Entry) (s : Z) : Prop := exists e, e ∈ es /\ e_key e = k /\ e_seq e = s /\ s <= U64_MAX.

Lemma lookup_raises l es b :
  lookup_for l (versions cmp k U64_MAX now_ es) -> raises (has_seq es) b (if l_found l then Z.max b (l_seq l) else b).
Proof.
  assert (forall s, has_seq es s <-> exists v, v ∈ versions cmp k U64_MAX now_ es /\ cv_seq v = s) as Hv.
  { intros s. unfold versions. setoid_rewrite elem_of_map. split.
    - intros (e & He & Hk & <- & Hs). exists (chain_version now_ e). split; [|done]. exists e. split; [|done].
      by apply elem_of_run_versions.
    - intros (v & (e & He & <-) & <-). apply elem_of_run_versions in He as (? & ? & ?); [|done]. by exists e. }
  intros [[-> Hn]|(-> & v & Hin & Hmax & _ & -> & _)]; apply (raises_iff (fun s => exists v, v ∈ versions cmp k U64_MAX now_ es /\ cv_seq v = s));
    try (intros s; by rewrite Hv).
  - rewrite Hn. split; [done|]. split; [|by left]. intros s (v & Hv' & _). by apply elem_of_nil in Hv'.
  - split; [lia|]. split; [intros s (w & Hw & <-); specialize (Hmax w Hw); lia|].
    destruct (Z.max_spec b (cv_seq v)) as [[_ ->]|[_ ->]]; [right; eauto|by left].
Qed.

Lemma peek_mems_raises ms b :
  Forall (mem_ok cmp) ms ->
  raises (fun s => exists m, m ∈ ms /\ has_seq (m_entries m) s) b
    (fold_left (fun b m => let l := mem_get cmp (m_entries m) k U64_MAX now_ in if l_found l then Z.max b (l_seq l) else b) ms b).
Proof.
  intros HF. revert b. induction HF as [|m ms (Hs & _) _ IH]; intros b; cbn [fold_left].
  - split; [done|]. split; [|by left]. intros s (m & Hm & _). by apply elem_of_nil in Hm.
  - eapply raises_iff; [|eapply raises_trans; [by apply lookup_raises, mem_get_for|apply IH]].
    intros s. cbn beta. setoid_rewrite elem_of_cons. naive_solver.
Qed.

Lemma peek_tables_raises ts b :
  Forall (table_ok cmp) ts ->
  exists b', peek_tables cmp ts k now_ b = Ok b' /\ raises (fun s => exists t, t ∈ ts /\ has_seq (t_entries t) s) b b'.
Proof.
  intros HF. revert b. induction HF as [|t ts Ht _ IH]; intros b; cbn [peek_tables].
  - exists b. split; [done|]. split; [done|]. split; [|by left]. intros s (m & Hm & _). by apply elem_of_nil in Hm.
  - assert (exists o, reader_get_seq cmp t k now_ = Ok o /\
      raises (has_seq (t_entries t)) b (match o with Some s => Z.max b s | None => b end)) as (o & -> & Ho).
    { unfold reader_get_seq. destruct (t_may_contain t k) eqn:E; cbn [negb].
      - destruct (get_unfiltered_for cmp k U64_MAX now_ _ (to_sorted _ _ Ht) (to_readable _ _ Ht)) as (l & -> & Hl).
        eexists. split; [reflexivity|]. apply (lookup_raises _ _ b) in Hl. by destruct (l_found l).
      - exists None. split; [done|]. split; [done|]. split; [|by left]. intros s (e & He & Hk & _).
        pose proof (to_bloom _ _ Ht e He) as Hb. rewrite Hk, E in Hb. done. }
    cbn [rbind]. destruct (IH (match o with Some s => Z.max b s | None => b end)) as (b' & -> & Hb). exists b'. split; [done|].
    eapply raises_iff; [|eapply raises_trans; [exact Ho|exact Hb]].
    intros s. cbn beta. setoid_rewrite elem_of_cons. naive_solver.
Qed.

(** [peek_seq] answers the newest sequence the family stores for the key. *)
Lemma peek_seq_newest mem imms levels :
  Forall (mem_ok cmp) (mem :: imms) -> Forall (table_ok cmp) (concat levels) ->
  l0_ok cmp (hd [] levels) -> Forall (level_ok cmp) (tl levels) ->
  exists s, peek_seq cmp mem imms levels k now_ = Ok s /\ (s = 0 \/ stored mem imms levels k s) /\
    forall s', stored mem imms levels k s' -> s' <= U64_MAX -> s' <= s.
Proof.
  intros Hm Ht H0 Hd. set (src := point_read_sources cmp mem imms levels k).
  assert (forall t, t ∈ s_tables src -> t ∈ concat levels) as Hsub
    by (intros t Hin; eapply (selected_tables cmp mem imms); apply elem_of_app; by left).
  assert (Forall (mem_ok cmp) (mem :: rev imms)) as Hm'.
  { inversion Hm as [|? ? Hm1 Hm2]; subst. constructor; [done|]. rewrite Forall_forall in *. intros m Hin. apply Hm2.
    by rewrite list_elem_of_In, in_rev, <- list_elem_of_In. }
  assert (Forall (table_ok cmp) (s_tables src)) as Ht' by (rewrite Forall_forall in *; eauto).
  destruct (peek_tables_raises (s_tables src)
    (fold_left (fun b m => let l := mem_get cmp (m_entries m) k U64_MAX now_ in if l_found l then Z.max b (l_seq l) else b) (mem :: rev imms) 0)
    Ht') as (s & E & Hs).
  pose proof (raises_trans _ _ _ _ _ (peek_mems_raises _ 0 Hm') Hs) as (_ & Hle & Hor). exists s. split; [exact E|].
  assert (forall m, m ∈ mem :: rev imms <-> m ∈ mem :: imms) as Hr
    by (intros m; by rewrite !elem_of_cons, !list_elem_of_In, <- in_rev).
  split.
  - destruct Hor as [->|[(m & Hin & e & He & Hk & Hseq & _)|(t & Hin & e & He & Hk & Hseq & _)]]; [by left|right..];
      exists e; (split; [done|]); (split; [done|]); [left; exists m; split; [by apply Hr|done]|right; exists t; eauto].
  - intros s' (e & Hk & Hseq & Hin) Hmax. apply Hle. destruct Hin as [(m & Hin & He)|(t & Hin & He)].
    + left. exists m. split; [by apply Hr|]. by exists e.
    + right. exists t. split; [|by exists e]. unfold src, point_read_sources. cbn [s_tables]. rewrite elem_of_app, elem_of_concat_map.
      apply elem_of_concat in Hin as (l & Hl & Hin). destruct levels as [|l0 ls]; [by apply elem_of_nil in Hl|].
      cbn [hd tl] in *. apply elem_of_cons in Hl as [->|Hl]; [left; by eapply select_l0_entry|right].
      exists l. split; [done|]. rewrite Forall_forall in Hd. eapply select_entry; eauto.
Qed.
End Peek.

(** What a family stores, and [peek_seq] over it. *)
Record FamilyStore := mkStore { fs_cmp : Comparator; fs_mem : Mem; fs_imms : list Mem; fs_levels : list (list Table) }.

Definition store_peek (store : Z -> FamilyStore) (now_ : Z) : Peek :=
  fun f k => peek_seq (fs_cmp (store f)) (fs_mem (store f)) (fs_imms (store f)) (fs_levels (store f)) k now_.

Definition store_ok (s : FamilyStore) : Prop :=
  TotalOrder (fs_cmp s) /\ Forall (mem_ok (fs_cmp s)) (fs_mem s :: fs_imms s) /\ Forall (table_ok (fs_cmp s)) (concat (fs_levels s)) /\
  l0_ok (fs_cmp s) (hd [] (fs_levels s)) /\ Forall (level_ok (fs_cmp s)) (tl (fs_levels s)).

(** For every version committed above [lo] the store still holds one of the key that is at least as new. *)
Definition retains_above (c : Config) (store : Z -> FamilyStore) (lo : Z) : Prop :=
  forall f e, (f, PointRec e) ∈ d_hist (c_db c) -> lo < e_seq e ->
    exists s, e_seq e <= s <= U64_MAX /\ stored (fs_mem (store f)) (fs_imms (store f)) (fs_levels (store f)) (e_key e) s.

Lemma store_peek_sees c store now_ lo :
  (forall f, store_ok (store f)) -> retains_above c store lo -> sees_above c (store_peek store now_) lo.
Proof.
  intros Hok Hst f k s e Hp Hin Hk Hlo. destruct (Hok f) as (TO & Hm & Ht & H0 & Hd). unfold store_peek in Hp.
  destruct (peek_seq_newest (fs_cmp (store f)) k now_ _ _ _ Hm Ht H0 Hd) as (s1 & E1 & _ & Hmax).
  rewrite E1 in Hp. injection Hp as <-. destruct (Hst f e Hin Hlo) as (s2 & Hs2 & Hs3).
  rewrite Hk in Hs3. specialize (Hmax s2 Hs3). lia.
Qed.

(** C12: First committer wins, for a transaction at Snapshot or Serializable that
    is committed by [commit]: it commits with no record of another commit above
    its snapshot that changes a key it writes (no version of the key, no range
    delete over it, nothing inside a range it deletes), at Serializable none
    that changes a key it read either.  The others may have begun, committed,
    prepared, waited, been abandoned and pruned in any order, and whatever
    their own checks read of the stores.  The conditions: [peek_seq] reads
    stores that still hold, for every version above the snapshot, one of the
    key at least as new (a compaction that drops an expired put above the
    snapshot takes this away, C30); and where a range delete is on either
    side, the snapshot is not older than the last commit made while range
    deletes were off (C35).  The commit of a prepared transaction is not
    checked again and is not covered (C36). *)
Theorem first_committer_wins write_hash fams c i p store now_ applied d' f r cf :
  (forall f cf, fams f = Some cf -> TotalOrder (f_cmp cf)) ->
  c_reachable write_hash fams c -> c_pend c !! i = Some p ->
  (forall f, store_ok (store f)) -> retains_above c store (read_seq (p_txn p)) -> needs_check (p_txn p) = true ->
  commit_locked (store_peek store now_) fams applied p (c_db c) = (Ok tt, d') ->
  (f, r) ∈ d_hist (c_db c) -> read_seq (p_txn p) < rec_seq r -> fams f = Some cf ->
  (forall j w, j ∈ p_order p -> writes (p_txn p) !! j = Some w -> f_id (w_cf w) = f ->
     c_blind c <= read_seq (p_txn p) \/ (w_is_range w = false /\ is_point r) ->
     clash (f_cmp cf) (buf (p_txn p)) w r = false) /\
  (isolation (p_txn p) = Serializable -> forall k, (f, k) ∈ read_set (p_txn p) ->
     c_blind c <= read_seq (p_txn p) \/ is_point r -> touches (f_cmp cf) r k = false).
Proof.
  intros Hord HR Hi Hok Hst Hn Hc Hr Hnew Hf.
  exact (committed_no_clash write_hash fams c i p (store_peek store now_) applied d' f r cf Hord HR Hi
    (store_peek_sees c store now_ _ Hok Hst) Hn Hc Hr Hnew Hf).
Qed.

(** * Concrete executions *)

(** The newest version of a key, read off the records. *)
Definition newest_point (hist : list (Z * CommitRecord)) : Peek := fun f k =>
  Ok (fold_right Z.max 0 (omap (fun fr => match snd fr with
        | PointRec e => if bool_decide (fst fr = f /\ e_key e = k) then Some (e_seq e) else None
        | RangeRec _ => None end) hist)).

Lemma fold_right_max_ge l x : x ∈ l -> x <= fold_right Z.max 0 l.
Proof. induction 1; cbn; lia. Qed.

Lemma newest_point_ok c : peek_ok c (newest_point (d_hist (c_db c))).
Proof.
  intros f k s e [= <-] Hin Hk _. apply fold_right_max_ge, list_elem_of_omap. exists (f, PointRec e). split; [done|].
  cbn. by rewrite bool_decide_eq_true_2.
Qed.

(** What a client does next; the other answers are a healthy unified database's. *)
Inductive Act :=
| ABegin (i : nat) (level : IsolationLevel)
| AOp (i : nat) (op : Z -> Txn -> result Txn)
| AStart (i : nat)
| ALocked (i : nat)
| APrepare (i : nat) (id : txn_id)
| ACommitPrepared (id : txn_id)
| AEnable.

Definition exec (fams : Z -> option Family) (a : Act) (c : Config) : option Config :=
  let peek := newest_point (d_hist (c_db c)) in
  match a with
  | ABegin i level =>
      match c_txns c !! i, c_pend c !! i with
      | None, None => Some (mkConfig (c_db c) (<[i := txn_new level (visible_seq (c_db c)) (fixed_level level) 8]> (c_txns c))
                              (c_pend c) (c_blind c) (c_floor c) (c_prep c))
      | _, _ => None
      end
  | AOp i op =>
      match c_txns c !! i with
      | Some t => match op (caps_of (c_db c)) t with
                  | Ok t' => Some (mkConfig (c_db c) (<[i := t']> (c_txns c)) (c_pend c) (c_blind c) (c_floor c) (c_prep c))
                  | Err _ => None
                  end
      | None => None
      end
  | AStart i =>
      match c_txns c !! i, c_pend c !! i with
      | Some t, None =>
          match commit_start true false [(c_floor c, false, false)] t (c_db c) with
          | Some (s, d') => Some (mkConfig d' (delete i (c_txns c))
              (match s with Waits p => <[i := p]> (c_pend c) | Finished_ _ => c_pend c end) (c_blind c) (c_floor c) (c_prep c))
          | None => None
          end
      | _, _ => None
      end
  | ALocked i =>
      match c_pend c !! i with
      | Some p => let d' := snd (commit_locked peek fams true p (c_db c)) in
          Some (mkConfig d' (c_txns c) (delete i (c_pend c))
                  (if p_tracked p then c_blind c else Z.max (c_blind c) (visible_seq d')) (c_floor c) (c_prep c))
      | None => None
      end
  | APrepare i id =>
      match c_txns c !! i with
      | Some t => let rd := txn_prepare peek fams true false false true (Ok tt) 0 id t (c_db c) in
          Some (mkConfig (snd rd) (delete i (c_txns c)) (c_pend c) (c_blind c) (c_floor c)
                  (if is_ok (fst rd) then <[id := d_next (c_db c)]> (c_prep c) else c_prep c))
      | None => None
      end
  | ACommitPrepared id =>
      let d' := snd (resolve_on_handle (commit_prepared (Ok tt)) false false true id (c_db c)) in
      Some (mkConfig d' (c_txns c) (c_pend c)
              (if d_ranges (c_db c) then c_blind c else Z.max (c_blind c) (visible_seq d')) (c_floor c) (c_prep c))
  | AEnable => Some (mkConfig (enable_ranges (c_db c)) (c_txns c) (c_pend c) (c_blind c) (c_floor c) (c_prep c))
  end.

Fixpoint exec_all (fams : Z -> option Family) (acts : list Act) (c : Config) : option Config :=
  match acts with
  | [] => Some c
  | a :: acts => match exec fams a c with Some c' => exec_all fams acts c' | None => None end
  end.

Definition act_ok (h : Z -> list byte -> Z) (fams : Z -> option Family) (a : Act) : Prop :=
  match a with
  | AOp _ op => forall caps_ t t', op caps_ t = Ok t' -> txn_step h fams caps_ t t'
  | _ => True
  end.

Lemma floor_below_pins h fams c : c_inv h fams c -> below_pins c (c_floor c).
Proof.
  intros HC. split; [apply (di_floor _ _ _ _ _ (ci_db _ _ _ HC))|].
  intros s (i & t & [Hi|(p & Hi & <-)] & Hfix & <-); [by apply (ci_txns _ _ _ HC i t Hi)|by apply (ci_pend _ _ _ HC i p Hi)].
Qed.

Lemma exec_step h fams a c c' : c_inv h fams c -> act_ok h fams a -> exec fams a c = Some c' -> c_step h fams c c'.
Proof.
  intros HC Ha H. destruct a as [i l|i op|i|i|i id|id|]; cbn [exec] in H; cbn [act_ok] in Ha.
  - destruct (c_txns c !! i) eqn:E1; [done|]. destruct (c_pend c !! i) eqn:E2; [done|]. injection H as <-. by apply cs_begin.
  - destruct (c_txns c !! i) as [t|] eqn:E1; [|done]. destruct (op _ t) as [t'|] eqn:E2; [|done]. injection H as <-.
    eapply cs_op; [exact E1|]. by apply Ha.
  - destruct (c_txns c !! i) as [t|] eqn:E1; [|done]. destruct (c_pend c !! i) eqn:E2; [done|].
    destruct (commit_start _ _ _ _ _) as [[s d']|] eqn:E3; [|done]. injection H as <-.
    eapply cs_start; [done..|reflexivity|by eapply floor_below_pins|]. by repeat constructor.
  - destruct (c_pend c !! i) as [p|] eqn:E1; [|done]. injection H as <-.
    eapply cs_locked; [done|]. by rewrite <- surjective_pairing.
  - destruct (c_txns c !! i) as [t|] eqn:E1; [|done]. injection H as <-.
    eapply cs_prepare; [done|]. by rewrite <- surjective_pairing.
  - injection H as <-. eapply cs_commit_prepared. by rewrite <- surjective_pairing.
  - injection H as <-. apply cs_enable.
Qed.

Lemma exec_all_reachable h fams acts c c' :
  Forall (act_ok h fams) acts -> c_reachable h fams c -> exec_all fams acts c = Some c' -> c_reachable h fams c'.
Proof.
  intros HF. revert c. induction HF as [|a acts Ha _ IH]; intros c HR H; cbn [exec_all] in H; [by injection H as <-|].
  destruct (exec fams a c) as [c1|] eqn:E; [|done]. apply (IH c1); [|done].
  pose proof HR as (cap & max & HR'). exists cap, max. eapply rtc_r; [exact HR'|].
  eapply exec_step; [by apply c_inv_reachable|exact Ha|exact E].
Qed.

(** Close the side conditions of [exec_all_reachable] on concrete acts. *)
Ltac acts_ok :=
  repeat (apply List.Forall_cons || apply List.Forall_nil); try exact I;
  intros ? ? ? Hop; cbv beta in Hop;
  first [eapply step_put; [|exact Hop] | eapply step_delete_range; [|exact Hop]
        | injection Hop as <-; eapply step_get; [|by rewrite <- surjective_pairing]]; reflexivity.

Definition put_op (k : byte) : Z -> Txn -> result Txn := fun _ => txn_put poor_hash plain_family [k] [x76] 0 0.
Definition get_op (k : byte) : Z -> Txn -> result Txn :=
  fun _ t => Ok (snd (txn_get poor_hash t plain_family [k] 0 (fun _ => Err NotFound))).

Lemma config_new_reachable h fams capacity max : c_reachable h fams (config_new capacity max).
Proof. by exists capacity, max. Qed.

(** C35: Where the code departs from first committer wins.  Turning range
    deletes on while a Snapshot transaction is open leaves no trace in the
    index of what was committed before: another transaction commits a key
    after the snapshot, range deletes are turned on, and the first then
    commits a range delete over that key without a conflict, erasing a write
    it never saw. *)
Theorem enable_hides_conflict :
  exists c i p d' j w e, c_reachable poor_hash sample_fams c /\
    c_pend c !! i = Some p /\ isolation (p_txn p) = Snapshot_ /\ peek_ok c (newest_point (d_hist (c_db c))) /\
    commit_locked (newest_point (d_hist (c_db c))) sample_fams true p (c_db c) = (Ok tt, d') /\
    (2, PointRec e) ∈ d_hist (c_db c) /\ read_seq (p_txn p) < e_seq e /\
    j ∈ p_order p /\ writes (p_txn p) !! j = Some w /\ w_cf w = plain_family /\
    clash Bytewise (buf (p_txn p)) w (PointRec e) = true.
Proof.
  set (acts := [ABegin 1 Snapshot_; ABegin 2 ReadCommitted; AOp 2 (put_op x6d); AStart 2; ALocked 2; AEnable;
                AOp 1 (fun caps_ => txn_delete_range poor_hash caps_ plain_family [x61] [x7a]); AStart 1]).
  destruct (exec_all sample_fams acts (config_new 10 1000)) as [c|] eqn:E; [|vm_compute in E; discriminate].
  assert (c_reachable poor_hash sample_fams c) as HR.
  { eapply exec_all_reachable; [|apply config_new_reachable|exact E]. unfold acts. acts_ok. }
  pose proof (newest_point_ok c) as Hpk.
  destruct (c_pend c !! 1%nat) as [p|] eqn:Ep; [|vm_compute in E; injection E as <-; vm_compute in Ep; discriminate].
  exists c, 1%nat, p. vm_compute in E. injection E as E. rewrite <- E in Ep. vm_compute in Ep. injection Ep as <-.
  destruct (commit_locked (newest_point (d_hist (c_db c))) sample_fams true _ (c_db c)) as [r d'] eqn:El.
  exists d'. eexists 0%nat, _, (mkEntry [x6d] 1 KIND_PUT 0 [x76] true).
  split; [done|]. split; [by rewrite <- E|]. split; [reflexivity|]. split; [done|].
  split. { assert (fst (r, d') = Ok tt) as Hr by (rewrite <- El, <- E; vm_compute; reflexivity). cbn in Hr. by rewrite Hr. }
  split. { rewrite <- E. cbn. apply list_elem_of_singleton. reflexivity. }
  repeat (split; [first [reflexivity|by apply list_elem_of_here|cbn; lia]|]). vm_compute. reflexivity.
Qed.

(** Steps of a run that succeed, without evaluating their results. *)
Lemma some_default {A} (d : A) (o : option A) : match o with Some _ => true | None => false end = true -> o = Some (default d o).
Proof. by destruct o. Qed.

Lemma ok_pair (rd : result unit * Db) : is_ok (fst rd) = true -> rd = (Ok tt, snd rd).
Proof. destruct rd as [[[]|e] d]; [done|discriminate]. Qed.

Definition state_after (acts : list Act) : Config := default (config_new 10 1000) (exec_all sample_fams acts (config_new 10 1000)).

Lemma state_after_reachable acts :
  match exec_all sample_fams acts (config_new 10 1000) with Some _ => true | None => false end = true ->
  Forall (act_ok poor_hash sample_fams) acts -> c_reachable poor_hash sample_fams (state_after acts).
Proof.
  intros H HF. eapply exec_all_reachable; [exact HF|apply (config_new_reachable _ _ 10 1000)|]. by apply some_default.
Qed.

Definition open_txn (c : Config) (i : nat) : Txn := default (txn_new ReadCommitted 0 false 0) (c_txns c !! i).
Definition waiting (c : Config) (i : nat) : Pending := default (mkPending (open_txn c i) [] false None) (c_pend c !! i).

Definition skew_acts : list Act :=
  [ABegin 1 Serializable; ABegin 2 Serializable; AOp 1 (get_op x78); AOp 1 (put_op x79); AOp 2 (get_op x79); AOp 2 (put_op x78)].

(** C36: Write skew across a prepare.  A Serializable transaction that reads one
    key and writes another is prepared successfully; a second Serializable
    transaction of the same snapshot that reads the second key and writes the
    first then commits, and the prepared one commits after it: the reads of a
    prepared transaction are validated when it is prepared and neither reserved
    nor checked again, so no serial order explains the two. *)
Theorem prepared_write_skew :
  exists c t1 d1 c2 p d3 d4 e1 e2, c_reachable poor_hash sample_fams c /\
    c_txns c !! 1%nat = Some t1 /\ isolation t1 = Serializable /\ (2, [x78]) ∈ read_set t1 /\
    txn_prepare (newest_point (d_hist (c_db c))) sample_fams true false false true (Ok tt) 0 [x01] t1 (c_db c) = (Ok tt, d1) /\
    c_reachable poor_hash sample_fams c2 /\ c_db c2 = d1 /\
    c_pend c2 !! 2%nat = Some p /\ isolation (p_txn p) = Serializable /\ (2, [x79]) ∈ read_set (p_txn p) /\
    commit_locked (newest_point (d_hist (c_db c2))) sample_fams true p (c_db c2) = (Ok tt, d3) /\
    commit_prepared (Ok tt) [x01] d3 = (Ok tt, d4) /\
    d_hist d4 = [(2, PointRec e2); (2, PointRec e1)] /\
    e_key e1 = [x79] /\ read_seq (p_txn p) < e_seq e1 /\ e_key e2 = [x78] /\ read_seq t1 < e_seq e2.
Proof.
  set (c := state_after skew_acts). set (c2 := state_after (skew_acts ++ [APrepare 1 [x01]; AStart 2])).
  set (prep := txn_prepare (newest_point (d_hist (c_db c))) sample_fams true false false true (Ok tt) 0 [x01] (open_txn c 1) (c_db c)).
  set (lock := commit_locked (newest_point (d_hist (c_db c2))) sample_fams true (waiting c2 2) (c_db c2)).
  exists c, (open_txn c 1), (snd prep), c2, (waiting c2 2), (snd lock), (snd (commit_prepared (Ok tt) [x01] (snd lock))),
    (mkEntry [x79] 2 KIND_PUT 0 [x76] true), (mkEntry [x78] 1 KIND_PUT 0 [x76] true).
  split; [apply state_after_reachable; [vm_compute; reflexivity|unfold skew_acts; acts_ok]|].
  split; [apply some_default; vm_compute; reflexivity|]. split; [vm_compute; reflexivity|].
  split; [apply (bool_decide_unpack _); vm_compute; exact I|]. split; [apply ok_pair; vm_compute; reflexivity|].
  split; [apply state_after_reachable; [vm_compute; reflexivity|unfold skew_acts; cbn [app]; acts_ok]|].
  split; [vm_compute; reflexivity|]. split; [apply some_default; vm_compute; reflexivity|]. split; [vm_compute; reflexivity|].
  split; [apply (bool_decide_unpack _); vm_compute; exact I|]. split; [apply ok_pair; vm_compute; reflexivity|].
  split; [apply ok_pair; vm_compute; reflexivity|]. repeat (split; [vm_compute; reflexivity|]). vm_compute. reflexivity.
Qed.

(** ** Witnesses *)

Lemma sample_fams_total f cf : sample_fams f = Some cf -> TotalOrder (f_cmp cf).
Proof.
  unfold sample_fams. destruct (f =? 1); [intros [= <-]; apply _|]. destruct (f =? 2); [intros [= <-]; apply _|done].
Qed.

Definition quiet_acts : list Act :=
  [AEnable; ABegin 1 Serializable; AOp 1 (get_op x61); AOp 1 (put_op x62); ABegin 2 ReadCommitted; AOp 2 (put_op x63);
   AStart 2; ALocked 2; AStart 1].

(** The version of the other commit is in the family's memtable. *)
Definition quiet_store (f : Z) : FamilyStore :=
  mkStore Bytewise (mkMem (if f =? 2 then [mkEntry [x63] 1 KIND_PUT 0 [x76] true] else []) set_new) [] [].

Lemma quiet_store_ok f : store_ok (quiet_store f).
Proof.
  unfold store_ok, quiet_store. cbn. split; [apply _|]. split; [|split; [constructor|split; [|constructor]]].
  - sorted_runs. destruct (f =? 2); (split; [sorted_runs|]); (split; [apply set_new_wf|]); intros e He Hm; cbn in He; elems. done.
  - constructor; intros t ? Ht; by apply elem_of_nil in Ht.
Qed.

Lemma quiet_hist : d_hist (c_db (state_after quiet_acts)) = [(2, PointRec (mkEntry [x63] 1 KIND_PUT 0 [x76] true))].
Proof. vm_compute. reflexivity. Qed.

Lemma quiet_retains lo : retains_above (state_after quiet_acts) quiet_store lo.
Proof.
  intros f e He _. rewrite quiet_hist in He. apply list_elem_of_singleton in He. injection He as -> ->. exists 1. split; [by vm_compute|].
  eexists. split; [reflexivity|]. split; [reflexivity|]. left. eexists. split; by apply list_elem_of_here.
Qed.

Lemma first_committer_wins_witness :
  let c := state_after quiet_acts in
  (2, PointRec (mkEntry [x63] 1 KIND_PUT 0 [x76] true)) ∈ d_hist (c_db c) /\
  touches Bytewise (PointRec (mkEntry [x63] 1 KIND_PUT 0 [x76] true)) [x61] = false.
Proof.
  intros c. set (p := waiting c 1).
  set (lock := commit_locked (store_peek quiet_store 0) sample_fams true p (c_db c)).
  assert ((2, PointRec (mkEntry [x63] 1 KIND_PUT 0 [x76] true)) ∈ d_hist (c_db c)) as Hin by (unfold c; rewrite quiet_hist; by apply list_elem_of_here).
  split; [exact Hin|].
  apply (first_committer_wins poor_hash sample_fams c 1 p quiet_store 0 true (snd lock) 2 _ plain_family); [exact sample_fams_total
    |apply state_after_reachable; [vm_compute; reflexivity|unfold quiet_acts; acts_ok]
    |apply some_default; vm_compute; reflexivity|exact quiet_store_ok|apply quiet_retains|vm_compute; reflexivity
    |apply ok_pair; vm_compute; reflexivity|exact Hin|vm_compute; reflexivity|reflexivity|vm_compute; reflexivity
    |apply (bool_decide_unpack _); vm_compute; exact I|left; vm_compute; discriminate].
Defined.

Definition reserved_acts : list Act :=
  [ABegin 1 Serializable; AOp 1 (put_op x6b); APrepare 1 [x01]; ABegin 2 ReadCommitted; AOp 2 (put_op x6d); AStart 2; ALocked 2].

Lemma reservations_hold_witness :
  let c := state_after reserved_acts in
  d_hist (c_db c) = [(2, PointRec (mkEntry [x6d] 1 KIND_PUT 0 [x76] true))] /\
  exists e at_, by_id (d_reg (c_db c)) !! [x01] = Some e /\ c_prep c !! [x01] = Some at_ /\
    touches Bytewise (PointRec (mkEntry [x6d] 1 KIND_PUT 0 [x76] true)) [x6b] = false.
Proof.
  intros c. assert (d_hist (c_db c) = [(2, PointRec (mkEntry [x6d] 1 KIND_PUT 0 [x76] true))]) as Hh by (vm_compute; reflexivity).
  split; [exact Hh|]. set (e := prepared_entry [x01] (open_txn (state_after (firstn 2 reserved_acts)) 1) [0%nat] 0).
  assert (by_id (d_reg (c_db c)) !! [x01] = Some e) as He by (vm_compute; reflexivity).
  destruct (reservations_hold poor_hash sample_fams c [x01] e) as (at_ & Ha & H);
    [apply state_after_reachable; [vm_compute; reflexivity|unfold reserved_acts; acts_ok]|exact He|].
  exists e, at_. split; [exact He|]. split; [exact Ha|].
  apply (H 2 _ _ plain_family); [rewrite Hh; by apply list_elem_of_here| |apply (bool_decide_unpack _); vm_compute; exact I|reflexivity].
  assert (c_prep c !! [x01] = Some 1) as Ha' by (vm_compute; reflexivity).
  pose proof (eq_trans (eq_sym Ha') Ha) as E. injection E as <-. cbn. lia.
Defined.
