(* ===== verification/Publish.v ===== *)
(** * Sequence publication and snapshot pins (db.rs, snapshot.rs)

    Commits reserve a contiguous range of sequence numbers, apply their data,
    and publish the range, in any interleaving across threads; readers see the
    gap-free watermark [visible].  Readers pin the watermark they read at, and
    compaction takes the oldest pin as its garbage-collection floor.

    The state below is the part of [DbInner] these operations touch; each
    operation is one atomic step (an atomic instruction or the body of a
    critical section), and [step] interleaves them.  The ghost map [outs] holds
    the ranges reserved and not yet published.

    [observe_seq] raises the counters past a sequence found on disk.  Recovery
    calls it before the first commit; [attach_part_by_ref] (parts.rs) calls it
    on a live database, beside commits in flight.  [step true] has these mounts
    and [step false] is the database without them.  Publication is gap-free
    without mounts; [mount_wedges_watermark] shows what one mount can do. *)

From Stdlib Require Import ZArith Lia.
From stdpp Require Import base gmap list relations.
From S2P Require Import Prelude.

Open Scope Z_scope.

(** ** State *)

Record SeqState := mkSeqState {
  next_seq : Z;
  visible : Z;
  cursor : Z;
  completed : gmap Z Z;
  snapshots : gmap Z Z;
  commit_floor : gmap nat Z
}.

(** [DbInner] as opened on a manifest with [global_seq]. *)
Definition seq_open (global_seq : Z) : SeqState :=
  mkSeqState (global_seq + 1) global_seq (global_seq + 1) ∅ ∅ ∅.

(** ** Operations *)

(** [fetch_add] wraps. *)
Definition reserve_seq (n : Z) (s : SeqState) : Z * SeqState :=
  (next_seq s,
   mkSeqState (wrap64 (next_seq s + n)) (visible s) (cursor s) (completed s) (snapshots s)
     (commit_floor s)).

(** The [loop] of [publish_range]; every round removes an entry, so the number
    of entries bounds the rounds. *)
Fixpoint advance_cursor (fuel : nat) (c : Z) (done_ : gmap Z Z) : Z * gmap Z Z :=
  match fuel with
  | O => (c, done_)
  | S fuel =>
      match done_ !! c with
      | Some e => advance_cursor fuel e (delete c done_)
      | None => (c, done_)
      end
  end.

Definition saturating_sub (a b : Z) : Z := Z.max 0 (a - b).

Definition publish_range (start end_ : Z) (s : SeqState) : SeqState :=
  let completed1 := <[start := end_]> (completed s) in
  let '(c, completed2) := advance_cursor (S (size completed1)) (cursor s) completed1 in
  mkSeqState (next_seq s) (saturating_sub c 1) c completed2 (snapshots s) (commit_floor s).

(** The two halves of [observe_seq]: the [compare_exchange] loop on [next_seq],
    and the critical section.  [seq + 1] wraps. *)
Definition observe_next (seq : Z) (s : SeqState) : SeqState :=
  if seq =? 0 then s
  else mkSeqState (if next_seq s <? wrap64 (seq + 1) then wrap64 (seq + 1) else next_seq s)
         (visible s) (cursor s) (completed s) (snapshots s) (commit_floor s).

Definition observe_cursor (seq : Z) (s : SeqState) : SeqState :=
  if seq =? 0 then s
  else if cursor s <? wrap64 (seq + 1)
  then mkSeqState (next_seq s) seq (wrap64 (seq + 1)) (completed s) (snapshots s) (commit_floor s)
  else s.

Definition observe_seq (seq : Z) (s : SeqState) : SeqState := observe_cursor seq (observe_next seq s).

(** Recovery observes the sequences it finds, one after the other. *)
Definition recovered (global_seq : Z) (seqs : list Z) : SeqState :=
  fold_left (fun s seq => observe_seq seq s) seqs (seq_open global_seq).

(** The watermark is read and pinned under the [snapshots] lock. *)
Definition acquire_visible_snapshot (s : SeqState) : Z * SeqState :=
  let seq := visible s in
  (seq,
   mkSeqState (next_seq s) (visible s) (cursor s) (completed s)
     (<[seq := default 0 (snapshots s !! seq) + 1]> (snapshots s)) (commit_floor s)).

Definition release_snapshot (seq : Z) (s : SeqState) : SeqState :=
  match snapshots s !! seq with
  | Some c =>
      mkSeqState (next_seq s) (visible s) (cursor s) (completed s)
        (if c - 1 =? 0 then delete seq (snapshots s) else <[seq := c - 1]> (snapshots s))
        (commit_floor s)
  | None => s
  end.

(** [BTreeMap::keys().next()]: the least key. *)
Definition least_key (m : gmap Z Z) : option Z :=
  foldr (fun k acc => Some (match acc with Some a => Z.min k a | None => k end)) None
    (elements (dom m)).

Definition oldest_snapshot (s : SeqState) : Z :=
  default (visible s) (least_key (snapshots s)).

Definition note_thread_commit (t : nat) (seq : Z) (s : SeqState) : SeqState :=
  let e := default 0 (commit_floor s !! t) in
  mkSeqState (next_seq s) (visible s) (cursor s) (completed s) (snapshots s)
    (<[t := if e <? seq then seq else e]> (commit_floor s)).

Definition own_commit_floor (t : nat) (s : SeqState) : Z := default 0 (commit_floor s !! t).

Definition read_floor_seq (t : nat) (s : SeqState) : Z := Z.max (visible s) (own_commit_floor t s).

(** [pin_read_floor]: pin the watermark, read at the floor. *)
Definition pin_read_floor (t : nat) (s : SeqState) : Z * Z * SeqState :=
  let '(pinned, s') := acquire_visible_snapshot s in
  (Z.max pinned (own_commit_floor t s'), pinned, s').

(** ** Interleavings *)

(** A configuration: the state, the ranges [start -> end] that some commit has
    reserved and not published yet, and the sequences whose [observe_seq] is
    between its two halves. *)
Record config := mkConfig { db : SeqState; outs : gmap Z Z; observing : list Z }.

Inductive step (mounts : bool) : config -> config -> Prop :=
| step_reserve s o p n :
    0 < n -> is_u64 (next_seq s + n) ->
    step mounts (mkConfig s o p)
      (mkConfig (snd (reserve_seq n s)) (<[fst (reserve_seq n s) := fst (reserve_seq n s) + n]> o) p)
| step_publish s o p start end_ t :
    o !! start = Some end_ ->
    step mounts (mkConfig s o p)
      (mkConfig (note_thread_commit t (end_ - 1) (publish_range start end_ s)) (delete start o) p)
| step_publish_failed s o p start end_ :
    (* an apply that failed publishes its range all the same *)
    o !! start = Some end_ ->
    step mounts (mkConfig s o p) (mkConfig (publish_range start end_ s) (delete start o) p)
| step_acquire s o p :
    step mounts (mkConfig s o p) (mkConfig (snd (acquire_visible_snapshot s)) o p)
| step_release s o p seq :
    is_Some (snapshots s !! seq) ->
    step mounts (mkConfig s o p) (mkConfig (release_snapshot seq s) o p)
| step_mount_next s o p seq :
    mounts = true -> is_u64 seq ->
    step mounts (mkConfig s o p) (mkConfig (observe_next seq s) o (seq :: p))
| step_mount_cursor s o p seq q :
    mounts = true ->
    step mounts (mkConfig s o (p ++ seq :: q)) (mkConfig (observe_cursor seq s) o (p ++ q)).

(** A database opened on a manifest of [global_seq] and the sequences [seqs]
    of its logs. *)
Definition reachable (mounts : bool) (global_seq : Z) (seqs : list Z) (c : config) : Prop :=
  rtc (step mounts) (mkConfig (recovered global_seq seqs) ∅ []) c.

(** ** Tilings

    [tiles m a b]: the ranges [start -> end] of [m] follow one another without
    gap or overlap from [a] to [b]. *)

Inductive tiles : gmap Z Z -> Z -> Z -> Prop :=
| tiles_nil a : tiles ∅ a a
| tiles_cons m a e b :
    m !! a = Some e -> a < e -> tiles (delete a m) e b -> tiles m a b.

Lemma tiles_le m a b : tiles m a b -> a <= b.
Proof. induction 1; lia. Qed.

Lemma tiles_range m a b k e : tiles m a b -> m !! k = Some e -> a <= k < e /\ e <= b.
Proof.
  induction 1 as [a|m a e' b Ha Hlt Ht IH]; [done|]. intros Hk.
  apply tiles_le in Ht. destruct (decide (k = a)) as [->|Hne]; [by simplify_eq; lia|].
  ospecialize (IH _); [by rewrite lookup_delete_ne|lia].
Qed.

Lemma tiles_snoc m a b e :
  tiles m a b -> b < e -> m !! b = None -> tiles (<[b := e]> m) a e.
Proof.
  induction 1 as [a|m a e' b Ha Hlt Ht IH]; intros Hbe Hn.
  - apply tiles_cons with e; [apply lookup_insert_eq|done|].
    rewrite delete_insert_eq, delete_id by done. constructor.
  - apply tiles_cons with e'; [|done|].
    + rewrite lookup_insert_ne; [done|]. intros ->. congruence.
    + apply tiles_le in Ht as ?. rewrite delete_insert_ne by lia. apply IH; [done|].
      rewrite lookup_delete_ne by lia. done.
Qed.

Lemma tiles_step m a b e : tiles m a b -> m !! a = Some e -> a < e /\ tiles (delete a m) e b.
Proof. destruct 1; [done|]. intros. by simplify_eq. Qed.

Lemma tiles_head m a b : tiles m a b -> m !! a = None -> m = ∅ /\ a = b.
Proof. destruct 1; [done|congruence]. Qed.

(** Strictly inside a range no range starts. *)
Lemma tiles_inside m a b k e x : tiles m a b -> m !! k = Some e -> k < x < e -> m !! x = None.
Proof.
  induction 1 as [a|m a e' b Ha Hlt Ht IH]; [done|]. intros Hk Hx.
  assert (x <> a) by (destruct (tiles_range m a b k e); [by econstructor|done|lia]).
  destruct (decide (k = a)) as [->|Hne].
  - simplify_eq. destruct (m !! x) as [y|] eqn:E; [|done].
    destruct (tiles_range _ _ _ x y Ht); [by rewrite lookup_delete_ne|lia].
  - rewrite <- (IH ltac:(by rewrite lookup_delete_ne) Hx). by rewrite lookup_delete_ne.
Qed.

(** The publication loop keeps the tiling and stops at the first range that is
    not complete. *)
Lemma advance_cursor_spec fuel c b outs done_ :
  (size done_ < fuel)%nat -> outs ##ₘ done_ -> tiles (outs ∪ done_) c b ->
  let '(c', done') := advance_cursor fuel c done_ in
  tiles (outs ∪ done') c' b /\ outs ##ₘ done' /\ done' !! c' = None /\ c <= c'.
Proof.
  revert c done_. induction fuel as [|fuel IH]; intros c done_ Hf Hd Ht; [lia|].
  cbn. destruct (done_ !! c) as [e|] eqn:E; [|by repeat split].
  assert (Ho : outs !! c = None) by (eapply map_disjoint_Some_r; eauto).
  apply (tiles_step _ _ _ e) in Ht as Ht'; [|by rewrite lookup_union_r].
  destruct Ht' as [Hlt Ht']. rewrite delete_union, (delete_id outs) in Ht' by done.
  specialize (IH e (delete c done_)). rewrite map_size_delete, E in IH.
  assert (size done_ <> 0)%nat by (rewrite map_size_empty_iff; by intros ->).
  destruct (advance_cursor fuel e (delete c done_)) as [c' done'].
  destruct IH as (? & ? & ? & ?); [lia|by apply map_disjoint_delete_r|done|].
  repeat split; [done..|lia].
Qed.

(** ** The invariant *)

Definition seq_inv (s : SeqState) (o : gmap Z Z) : Prop :=
  tiles (o ∪ completed s) (cursor s) (next_seq s) /\
  o ##ₘ completed s /\ completed s !! cursor s = None /\
  1 <= cursor s /\ visible s = cursor s - 1 /\ next_seq s < 2 ^ 64 /\
  (forall k n, snapshots s !! k = Some n -> k <= visible s /\ 0 < n) /\
  (forall t f, commit_floor s !! t = Some f -> f < next_seq s).

Lemma publish_range_inv s outs start end_ :
  seq_inv s outs -> outs !! start = Some end_ ->
  seq_inv (publish_range start end_ s) (delete start outs) /\
  visible s <= visible (publish_range start end_ s) /\ end_ <= next_seq s.
Proof.
  intros (Ht & Hd & Hc & H1 & Hv & Hn & Hs & Hf) Ho. unfold publish_range.
  assert (Hcs : completed s !! start = None) by (eapply map_disjoint_Some_l; eauto).
  assert (Hu : delete start outs ∪ <[start := end_]> (completed s) = outs ∪ completed s).
  { apply map_eq. intros k. destruct (decide (k = start)) as [->|Hne].
    - rewrite lookup_union_r, lookup_insert_eq by apply lookup_delete_eq.
      by rewrite (lookup_union_Some_l _ _ _ _ Ho).
    - rewrite !lookup_union, lookup_delete_ne, lookup_insert_ne by done. done. }
  pose proof (advance_cursor_spec (S (size (<[start := end_]> (completed s)))) (cursor s) (next_seq s)
    (delete start outs) (<[start := end_]> (completed s))) as H.
  destruct (advance_cursor _ _ _) as [c done']. destruct H as (? & ? & ? & ?).
  - lia.
  - apply map_disjoint_insert_r_2; [apply lookup_delete_eq|by apply map_disjoint_delete_l].
  - by rewrite Hu.
  - assert (saturating_sub c 1 = c - 1) as E by (unfold saturating_sub; lia). cbn. rewrite E.
    destruct (tiles_range _ _ _ start end_ Ht); [by apply lookup_union_Some_l|].
    unfold seq_inv; conj_split; cbn; try done; try lia. intros k n Hk. apply Hs in Hk as [? ?]. lia.
Qed.

Lemma note_thread_commit_inv t seq s outs :
  seq_inv s outs -> seq < next_seq s -> seq_inv (note_thread_commit t seq s) outs.
Proof.
  intros (Ht & ? & ? & ? & ? & ? & Hs & Hf) Hlt. do 7 (split; [done|]). cbn.
  intros t' f. destruct (decide (t' = t)) as [->|Hne].
  - rewrite lookup_insert_eq. intros [= <-]. destruct (commit_floor s !! t) as [e|] eqn:E; cbn.
    + apply Hf in E. destruct (_ <? _); lia.
    + apply tiles_le in Ht. destruct (_ <? _); lia.
  - rewrite lookup_insert_ne by done. apply Hf.
Qed.

Lemma reserve_inv s outs n :
  seq_inv s outs -> 0 < n -> is_u64 (next_seq s + n) ->
  seq_inv (snd (reserve_seq n s)) (<[next_seq s := next_seq s + n]> outs).
Proof.
  intros (Ht & Hd & Hc & H1 & Hv & Hn' & Hs & Hf) Hn [Hb1 Hb2]. cbn [reserve_seq snd].
  apply tiles_le in Ht as Hle. unfold wrap64. rewrite Z.mod_small by done.
  assert (Hfresh : (outs ∪ completed s) !! next_seq s = None).
  { destruct (_ !! next_seq s) eqn:E; [|done]. apply (tiles_range _ _ _ _ _ Ht) in E. lia. }
  apply lookup_union_None in Hfresh as [Hf1 Hf2]. unfold seq_inv; conj_split; cbn; try done.
  - rewrite <- insert_union_l. apply tiles_snoc; [done|lia|]. by apply lookup_union_None.
  - by apply map_disjoint_insert_l.
  - intros t f Hft. apply Hf in Hft. lia.
Qed.

(** What [seq + 1] is when it is above something positive. *)
Lemma wrap64_succ x c : is_u64 x -> 0 <= c < wrap64 (x + 1) -> wrap64 (x + 1) = x + 1 /\ x + 1 < 2 ^ 64.
Proof.
  intros [? ?] [? Hlt]. unfold wrap64 in *. destruct (decide (x + 1 = 2 ^ 64)) as [E|].
  - rewrite E, Z.mod_same in Hlt by lia. lia.
  - rewrite Z.mod_small by lia. lia.
Qed.

(** Between commits, observing a sequence moves every counter past it. *)
Lemma observe_inv s seq :
  seq_inv s ∅ -> is_u64 seq -> completed s = ∅ ->
  seq_inv (observe_seq seq s) ∅ /\ completed (observe_seq seq s) = ∅.
Proof.
  intros Hinv Hu Hc. pose proof Hinv as (Ht & Hd & Hcc & H1 & Hv & Hn' & Hs & Hf).
  unfold observe_seq, observe_cursor, observe_next. destruct (Z.eqb_spec seq 0); [done|]. cbn [cursor next_seq completed].
  rewrite Hc, map_empty_union in Ht. apply tiles_head in Ht as [_ E1]; [|done]. rewrite <- E1.
  destruct (Z.ltb_spec (cursor s) (wrap64 (seq + 1))) as [Hlt|_].
  - destruct (wrap64_succ seq (cursor s) Hu) as [E ?]; [lia|]. rewrite E in *. split; [|done].
    unfold seq_inv; conj_split; cbn; rewrite ?Hc, ?map_empty_union; try done; try lia.
    + constructor.
    + intros k m Hk. apply Hs in Hk as [? ?]. lia.
    + intros t f Hft. apply Hf in Hft. lia.
  - split; [|done]. destruct s; cbn in *; by subst.
Qed.

Lemma acquire_inv s outs : seq_inv s outs -> seq_inv (snd (acquire_visible_snapshot s)) outs.
Proof.
  intros (Ht & Hd & Hcc & H1 & Hv & Hn' & Hs & Hf). unfold seq_inv; conj_split; cbn; try done. intros k n.
  destruct (decide (k = visible s)) as [->|Hne].
  - rewrite lookup_insert_eq. intros [= <-]. split; [done|].
    destruct (snapshots s !! visible s) as [m|] eqn:E; cbn; [apply Hs in E|]; lia.
  - rewrite lookup_insert_ne by done. apply Hs.
Qed.

(** Releasing a pin leaves no key that was not there. *)
Lemma release_snapshot_keys seq s k n :
  snapshots (release_snapshot seq s) !! k = Some n ->
  exists n', snapshots s !! k = Some n' /\ (n = n' \/ n = n' - 1 /\ n <> 0).
Proof.
  unfold release_snapshot. destruct (snapshots s !! seq) as [m|] eqn:E; [|by eauto].
  cbn. destruct (Z.eqb_spec (m - 1) 0).
  - intros [? ?]%lookup_delete_Some. eauto.
  - destruct (decide (k = seq)) as [->|Hne]; [rewrite lookup_insert_eq|rewrite lookup_insert_ne by done; eauto].
    intros [= <-]. eauto.
Qed.

Lemma release_inv s outs seq : seq_inv s outs -> seq_inv (release_snapshot seq s) outs.
Proof.
  intros (Ht & Hd & Hcc & H1 & Hv & Hn' & Hs & Hf).
  assert (Hk : forall k n, snapshots (release_snapshot seq s) !! k = Some n -> k <= visible s /\ 0 < n).
  { intros k n (n' & Hn & Hor)%release_snapshot_keys. apply Hs in Hn as [? ?]. lia. }
  unfold release_snapshot in *. destruct (snapshots s !! seq); unfold seq_inv; conj_split; done.
Qed.

(** Without mounts every step keeps the invariant. *)
Lemma step_inv c c' :
  step false c c' -> seq_inv (db c) (outs c) -> observing c = [] -> seq_inv (db c') (outs c') /\ observing c' = [].
Proof.
  destruct 1 as [s o p n Hn Hb|s o p start end_ t Ho|s o p start end_ Ho|s o p|s o p seq Hin|s o p seq ?|s o p seq q ?];
    intros Hinv Hp; cbn [db outs observing] in *; try done; (split; [|done]).
  - by apply reserve_inv.
  - destruct (publish_range_inv s o start end_ Hinv Ho) as (Hinv' & Hvis & Hend).
    apply note_thread_commit_inv; [done|]. unfold publish_range. destruct (advance_cursor _ _ _). cbn. lia.
  - by destruct (publish_range_inv s o start end_ Hinv Ho) as (Hinv' & Hvis & Hend).
  - by apply acquire_inv.
  - by apply release_inv.
Qed.

Lemma recovered_inv g seqs :
  0 <= g < 2 ^ 64 - 1 -> Forall is_u64 seqs -> seq_inv (recovered g seqs) ∅ /\ completed (recovered g seqs) = ∅.
Proof.
  intros Hg. unfold recovered. assert (seq_inv (seq_open g) ∅ /\ completed (seq_open g) = ∅) as H.
  { unfold seq_open. split; [|done]. unfold seq_inv; conj_split; cbn; try done; try lia.
    rewrite map_empty_union. constructor. }
  revert H. generalize (seq_open g). induction seqs as [|seq seqs IH]; intros s [Hi Hc]; [done|].
  intros [Hu Hr]%Forall_cons. cbn. apply IH; [|done]. by apply observe_inv.
Qed.

Lemma rtc_step_inv c c' :
  rtc (step false) c c' -> seq_inv (db c) (outs c) -> observing c = [] ->
  seq_inv (db c') (outs c') /\ observing c' = [].
Proof.
  induction 1 as [|c c1 c2 H _ IH]; intros Hinv Hp; [done|].
  apply step_inv in H as [H ?]; [|done..]. by apply IH.
Qed.

Lemma reachable_inv g seqs c :
  0 <= g < 2 ^ 64 - 1 -> Forall is_u64 seqs -> reachable false g seqs c -> seq_inv (db c) (outs c).
Proof. intros Hg Hs H. by apply (rtc_step_inv _ _ H); [apply recovered_inv|]. Qed.

(** ** What mounts keep *)

Record pin_inv (c : config) : Prop := {
  pi_cursor : 1 <= cursor (db c);
  pi_visible : visible (db c) = cursor (db c) - 1;
  pi_outs : forall k e, outs c !! k = Some e -> k < e;
  pi_done : forall k e, completed (db c) !! k = Some e -> k < e;
  pi_pins : forall k n, snapshots (db c) !! k = Some n -> k <= visible (db c);
  pi_observing : Forall is_u64 (observing c)
}.

Lemma advance_cursor_mono fuel c m :
  (forall k e, m !! k = Some e -> k < e) ->
  c <= fst (advance_cursor fuel c m) /\ snd (advance_cursor fuel c m) ⊆ m.
Proof.
  revert c m. induction fuel as [|fuel IH]; intros c m Hm; [done|]. cbn.
  destruct (m !! c) as [e|] eqn:E; [|done]. apply Hm in E as Hlt. destruct (IH e (delete c m)) as [? Hs].
  { intros k e' [_ Hk]%lookup_delete_Some. by apply Hm. }
  split; [lia|]. etrans; [exact Hs|apply delete_subseteq].
Qed.

Lemma publish_range_pins c start end_ :
  pin_inv c -> outs c !! start = Some end_ ->
  pin_inv (mkConfig (publish_range start end_ (db c)) (delete start (outs c)) (observing c)) /\
  visible (db c) <= visible (publish_range start end_ (db c)).
Proof.
  intros [H1 Hv Ho Hd Hs Hp] Hin. unfold publish_range.
  destruct (advance_cursor_mono (S (size (<[start:=end_]> (completed (db c))))) (cursor (db c)) (<[start:=end_]> (completed (db c)))) as [Hc Hsub].
  { intros k e [[<- <-]|[_ ?]]%lookup_insert_Some; eauto. }
  destruct (advance_cursor _ _ _) as [c' m']. cbn [fst snd] in *.
  assert (saturating_sub c' 1 = c' - 1) as E by (unfold saturating_sub; lia).
  split; [constructor|]; cbn [db outs observing visible cursor completed snapshots]; rewrite ?E; try done; try lia.
  - intros k e [_ ?]%lookup_delete_Some. eauto.
  - intros k e Hk. eapply lookup_weaken in Hk; [|exact Hsub]. apply lookup_insert_Some in Hk as [[<- <-]|[_ ?]]; eauto.
  - intros k n Hk. apply Hs in Hk. lia.
Qed.

(** Every step, mounts included, keeps the pins at or below a watermark that
    never goes back, and takes no pin below a floor that pins and watermark
    respect. *)
Lemma step_pins mounts c c' :
  step mounts c c' -> pin_inv c ->
  pin_inv c' /\ visible (db c) <= visible (db c') /\
  forall floor, floor <= visible (db c) -> (forall k n, snapshots (db c) !! k = Some n -> floor <= k) ->
    forall k n, snapshots (db c') !! k = Some n -> floor <= k.
Proof.
  destruct 1 as [s o p n Hn Hb|s o p start end_ t Hin|s o p start end_ Hin|s o p|s o p seq Hin|s o p seq _ Hu|s o p seq q _];
    intros Hi; pose proof Hi as [H1 Hv Ho Hd Hs Hp]; cbn [db outs observing] in *.
  - split; [constructor; cbn; try done|done]. intros k e [[<- <-]|[_ ?]]%lookup_insert_Some; [lia|eauto].
  - destruct (publish_range_pins _ start end_ Hi Hin) as [[? ? ? ? ? ?] ?]. cbn [db outs observing] in *.
    split; [by constructor|]. split; [done|]. intros floor _ Hf. unfold publish_range. by destruct (advance_cursor _ _ _).
  - destruct (publish_range_pins _ start end_ Hi Hin) as [? ?]. split; [done|]. split; [done|].
    intros floor _ Hf. unfold publish_range. by destruct (advance_cursor _ _ _).
  - assert (forall k n, <[visible s := default 0 (snapshots s !! visible s) + 1]> (snapshots s) !! k = Some n ->
      k = visible s \/ is_Some (snapshots s !! k)) as Hk by (intros k n [[<- _]|[_ ?]]%lookup_insert_Some; eauto).
    split; [constructor; cbn; try done|]; [|split; [done|]].
    + intros k n [->|[n' Hn']]%Hk; [done|eauto].
    + cbn. intros floor Hfl Hf k n [->|[n' Hn']]%Hk; [done|eauto].
  - assert (forall k n, snapshots (release_snapshot seq s) !! k = Some n -> is_Some (snapshots s !! k)) as Hk
      by (intros k n (n' & Hk & _)%release_snapshot_keys; eauto).
    assert (visible (release_snapshot seq s) = visible s /\ cursor (release_snapshot seq s) = cursor s /\
      completed (release_snapshot seq s) = completed s) as (E1 & E2 & E3) by (unfold release_snapshot; by destruct (snapshots s !! seq)).
    split; [constructor; cbn [db outs observing]; rewrite ?E1, ?E2, ?E3; try done|rewrite E1; split; [done|]].
    + intros k n [n' Hn']%Hk. eauto.
    + intros floor _ Hf k n [n' Hn']%Hk. eauto.
  - unfold observe_next. assert (Forall is_u64 (seq :: p)) by by constructor. destruct (seq =? 0); by split; [constructor|].
  - apply Forall_app in Hp as [Hp1 [Hu Hp2]%Forall_cons]. assert (Forall is_u64 (p ++ q)) by by apply Forall_app.
    unfold observe_cursor. destruct (seq =? 0); [by split; [constructor|]|].
    destruct (Z.ltb_spec (cursor s) (wrap64 (seq + 1))) as [Hlt|_]; [|by split; [constructor|]].
    destruct (wrap64_succ seq (cursor s) Hu) as [E ?]; [lia|]. rewrite E in *.
    split; [constructor; cbn; try done; try lia|cbn; split; [lia|eauto]].
    intros k n Hk. apply Hs in Hk. lia.
Qed.

Lemma reachable_pins mounts g seqs c :
  0 <= g < 2 ^ 64 - 1 -> Forall is_u64 seqs -> reachable mounts g seqs c -> pin_inv c.
Proof.
  intros Hg Hs Hr. assert (pin_inv (mkConfig (recovered g seqs) ∅ [])) as H0.
  { destruct (recovered_inv g seqs Hg Hs) as [(_ & _ & _ & ? & ? & _ & Hk & _) Hc].
    constructor; cbn; rewrite ?Hc; try done. intros k n Hn. by apply Hk in Hn as [? _]. }
  revert H0. induction Hr as [|c1 c2 c3 H _ IH]; intros H0; [done|]. apply IH. by apply (step_pins _ _ _ H).
Qed.

(** ** The garbage-collection floor *)

Lemma least_key_le m k n : m !! k = Some n -> exists l, least_key m = Some l /\ l <= k.
Proof.
  intros H. assert (Hk : k ∈ elements (dom m)) by (apply elem_of_elements, elem_of_dom; by exists n).
  unfold least_key. induction (elements (dom m)) as [|x l IH]; [by apply elem_of_nil in Hk|].
  cbn. apply elem_of_cons in Hk as [->|Hk].
  - destruct (foldr _ None l); eexists; (split; [done|]); lia.
  - destruct (IH Hk) as (l' & -> & ?). eexists. split; [done|]. lia.
Qed.

Lemma least_key_elem m l : least_key m = Some l -> is_Some (m !! l).
Proof.
  intros H. apply elem_of_dom, elem_of_elements. revert l H. unfold least_key.
  induction (elements (dom m)) as [|x xs IH]; intros l; cbn; [done|]. intros [= <-].
  destruct (foldr _ None xs) as [a|]; [|left].
  destruct (Z.min_spec x a) as [[_ ->]|[_ ->]]; [left|right; by apply IH].
Qed.

Lemma oldest_snapshot_spec c :
  pin_inv c ->
  oldest_snapshot (db c) <= visible (db c) /\ forall k n, snapshots (db c) !! k = Some n -> oldest_snapshot (db c) <= k.
Proof.
  intros [_ _ _ _ Hs _]. unfold oldest_snapshot. split.
  - destruct (least_key (snapshots (db c))) as [l|] eqn:E; cbn; [|lia].
    apply least_key_elem in E as [n Hn]. by apply Hs in Hn.
  - intros k n Hk. apply least_key_le in Hk as (l & -> & ?). done.
Qed.

(** ** A watermark that has stopped

    The cursor stands strictly inside a range that was reserved whole: no range
    starts where it waits. *)

Record wedged (seq : Z) (c : config) : Prop := {
  wd_cursor : cursor (db c) = seq + 1;
  wd_visible : visible (db c) = seq;
  wd_next : seq + 1 < next_seq (db c);
  wd_outs : outs c !! (seq + 1) = None;
  wd_done : completed (db c) !! (seq + 1) = None;
  wd_observing : observing c = []
}.

Lemma publish_range_wedged seq c start end_ :
  0 <= seq -> wedged seq c -> outs c !! start = Some end_ ->
  wedged seq (mkConfig (publish_range start end_ (db c)) (delete start (outs c)) (observing c)).
Proof.
  intros H0 [Hc Hv Hn Ho Hd Hp] Hin. unfold publish_range. cbn [advance_cursor]. rewrite Hc.
  assert (start <> seq + 1) by (intros ->; by rewrite Ho in Hin).
  rewrite lookup_insert_ne, Hd by done. constructor; cbn; try done.
  - unfold saturating_sub. lia.
  - rewrite lookup_delete_ne by done. done.
  - by rewrite lookup_insert_ne.
Qed.

Lemma step_wedged seq c c' : 0 <= seq -> step false c c' -> wedged seq c -> wedged seq c'.
Proof.
  intros H0. destruct 1 as [s o p n Hn Hb|s o p start end_ t Hin|s o p start end_ Hin|s o p|s o p seq' Hin|s o p seq' ?|s o p seq' q ?];
    intros Hw; pose proof Hw as [Hc Hv Hx Ho Hd Hp]; cbn [db outs observing] in *; try done.
  - constructor; cbn; try done.
    + rewrite wrap64_small by assumption. lia.
    + rewrite lookup_insert_ne by lia. done.
  - destruct (publish_range_wedged seq _ start end_ H0 Hw Hin) as [? ? ? ? ? ?]. by constructor.
  - exact (publish_range_wedged seq _ start end_ H0 Hw Hin).
  - unfold release_snapshot. by destruct (snapshots s !! seq').
Qed.

Lemma rtc_wedged seq c c' : 0 <= seq -> rtc (step false) c c' -> wedged seq c -> wedged seq c'.
Proof. intros H0. induction 1 as [|c1 c2 c3 H _ IH]; eauto using step_wedged. Qed.

(** ** Properties *)

(** C1: On a database that mounts no part by reference, publication is gap-free
    under every interleaving of reservations, publications (of failed applies
    included) and pins, after any recovery: no sequence of a range still being
    applied is visible; and the watermark is as high as that allows, either at
    the last sequence handed out or right below a range that is still
    outstanding.  In particular nothing is hidden for ever: once no range is
    outstanding the watermark has caught up and no completed range is left
    behind.  [mount_wedges_watermark] shows that a mount on a live database
    breaks all of this. *)
Theorem visible_gap_free g seqs c :
  0 <= g < 2 ^ 64 - 1 -> Forall is_u64 seqs -> reachable false g seqs c ->
  let s := db c in
  (forall start e, outs c !! start = Some e -> visible s < start) /\
  (visible s + 1 = next_seq s \/ exists e, outs c !! (visible s + 1) = Some e) /\
  (outs c = ∅ -> visible s = next_seq s - 1 /\ completed s = ∅).
Proof.
  intros Hg Hu Hr. apply reachable_inv in Hr as (Ht & Hd & Hc & H1 & Hv & _); [|done..]. cbn zeta.
  assert (Hcase : (outs c ∪ completed (db c) = ∅ /\ cursor (db c) = next_seq (db c)) \/
                  exists e, outs c !! cursor (db c) = Some e).
  { destruct (outs c !! cursor (db c)) as [e|] eqn:E; [by eauto|]. left. apply tiles_head; [done|].
    by apply lookup_union_None. }
  replace (visible (db c) + 1) with (cursor (db c)) by lia. split; [|split].
  - intros start e Ho. destruct (tiles_range _ _ _ start e Ht); [by apply lookup_union_Some_l|lia].
  - destruct Hcase as [[_ ?]|?]; auto.
  - intros E. rewrite E in *. destruct Hcase as [[E' ?]|[e He]]; [|done].
    rewrite map_empty_union in E'. split; [lia|done].
Qed.

Definition demo_config : config :=
  (* two commits reserve; the second publishes first *)
  let s0 := recovered 0 [4] in
  let s1 := snd (reserve_seq 2 s0) in
  let s2 := snd (reserve_seq 3 s1) in
  mkConfig (publish_range 7 10 s2) (delete 7 (<[7 := 10]> (<[5 := 7]> ∅))) [].

Lemma demo_reachable mounts : reachable mounts 0 [4] demo_config.
Proof.
  unfold reachable, demo_config.
  eapply rtc_l; [apply (step_reserve _ _ _ _ 2); [lia|by split; vm_compute]|].
  eapply rtc_l; [apply (step_reserve _ _ _ _ 3); [lia|by split; vm_compute]|].
  eapply rtc_l; [apply (step_publish_failed _ _ _ _ 7 10); done|]. apply rtc_refl.
Qed.

Lemma visible_gap_free_witness :
  visible (db demo_config) < 5 /\ next_seq (db demo_config) = 10.
Proof.
  split; [|reflexivity].
  apply (visible_gap_free 0 [4] demo_config ltac:(lia) ltac:(by repeat constructor) (demo_reachable false)) with 7.
  reflexivity.
Defined.

(** C39: A mount by reference beside commits in flight breaks publication.  When
    the mounted part's highest sequence lies inside a range that a commit has
    reserved and not published, [observe_seq] puts the watermark in the middle
    of that range: the first part of an unfinished commit is visible.  From
    then on no range starts where the cursor waits, so without a further mount
    the watermark never moves again, whatever is published: every later commit
    is acknowledged and stays invisible to snapshots. *)
Theorem mount_wedges_watermark g seqs c start e seq :
  0 <= g < 2 ^ 64 - 1 -> Forall is_u64 seqs -> reachable false g seqs c ->
  outs c !! start = Some e -> start <= seq < e - 1 ->
  let c1 := mkConfig (observe_seq seq (db c)) (outs c) [] in
  rtc (step true) c c1 /\ visible (db c1) = seq /\
  forall c2, rtc (step false) c1 c2 -> visible (db c2) = seq.
Proof.
  intros Hg Hu Hr Ho Hseq c1. destruct (recovered_inv g seqs Hg Hu) as [Hi0 _].
  destruct (rtc_step_inv _ _ Hr Hi0 eq_refl) as [Hi Hp]. destruct c as [s o p]. cbn [db outs observing] in *. subst p.
  pose proof Hi as (Ht & Hd & _ & H1 & Hv & Hn & _ & _).
  destruct (tiles_range _ _ _ start e Ht) as [? ?]; [by apply lookup_union_Some_l|].
  assert ((o ∪ completed s) !! (seq + 1) = None) as [Hf1 Hf2]%lookup_union_None
    by (eapply (tiles_inside _ _ _ start e); [exact Ht|by apply lookup_union_Some_l|lia]).
  assert (wrap64 (seq + 1) = seq + 1) as E by (apply wrap64_small; split; lia).
  assert (wedged seq c1) as Hw.
  { unfold c1, observe_seq, observe_cursor, observe_next. destruct (Z.eqb_spec seq 0); [lia|]. cbn [cursor next_seq]. rewrite E.
    destruct (Z.ltb_spec (next_seq s) (seq + 1)); [lia|]. destruct (Z.ltb_spec (cursor s) (seq + 1)); [|lia].
    by constructor; cbn; try lia. }
  split; [|split; [apply Hw|intros c2 Hc2; apply (rtc_wedged seq c1 c2); [lia|done..]]].
  eapply rtc_l; [apply (step_mount_next _ _ _ _ seq); [done|split; lia]|].
  apply rtc_once, (step_mount_cursor _ _ _ [] seq []). done.
Qed.

Lemma mount_wedges_watermark_witness :
  let c := mkConfig (snd (reserve_seq 3 (seq_open 0))) (<[1 := 4]> ∅) [] in
  let c1 := mkConfig (observe_seq 2 (db c)) (outs c) [] in
  visible (publish_range 1 4 (db c1)) = 2.
Proof.
  set (c := mkConfig (snd (reserve_seq 3 (seq_open 0))) (<[1 := 4]> ∅) []).
  assert (reachable false 0 [] c) as Hr.
  { apply rtc_once, (step_reserve false (seq_open 0) ∅ [] 3); [lia|by split; vm_compute]. }
  destruct (mount_wedges_watermark 0 [] c 1 4 2 ltac:(lia) ltac:(constructor) Hr eq_refl ltac:(lia)) as (_ & _ & H).
  exact (H _ (rtc_once _ _ (step_publish_failed false (observe_seq 2 (db c)) (outs c) [] 1 4 eq_refl))).
Defined.

(** C14: A compaction's garbage-collection floor is safe for ever: whatever
    happens after it read [oldest_snapshot], no reader that is pinned, then or
    at any later time, is pinned below that floor. *)
Theorem gc_floor_never_passed g seqs c c' seq :
  0 <= g < 2 ^ 64 - 1 -> Forall is_u64 seqs -> reachable true g seqs c -> rtc (step true) c c' ->
  is_Some (snapshots (db c') !! seq) -> oldest_snapshot (db c) <= seq.
Proof.
  intros Hg Hu Hr Hsteps [n Hn]. apply reachable_pins in Hr as Hinv; [|done..].
  destruct (oldest_snapshot_spec c Hinv) as [Hv Hp]. generalize dependent (oldest_snapshot (db c)). intros floor Hv Hp.
  clear Hr. induction Hsteps as [c|c1 c2 c3 H _ IH]; intros.
  - by eapply Hp.
  - destruct (step_pins _ _ _ H Hinv) as (? & ? & Hpins). apply IH; try done; [lia|by apply Hpins].
Qed.

Lemma gc_floor_never_passed_witness : oldest_snapshot (seq_open 7) <= 9.
Proof.
  apply (gc_floor_never_passed 7 [] (mkConfig (seq_open 7) ∅ [])
    (mkConfig (snd (acquire_visible_snapshot (observe_seq 9 (seq_open 7)))) ∅ []) 9).
  - lia.
  - constructor.
  - apply rtc_refl.
  - eapply rtc_l; [apply (step_mount_next _ _ _ _ 9); [done|by split; vm_compute]|].
    eapply rtc_l; [apply (step_mount_cursor _ _ _ [] 9 []); done|]. apply rtc_once, step_acquire.
  - by exists 1.
Defined.

(** Read-your-own-writes: when no range is outstanding, the wait of
    [acquire_fixed_snapshot] is over for every thread, and the snapshot it then
    pins contains every sequence the thread has committed. *)
Theorem fixed_snapshot_sees_own_commits g seqs c t :
  0 <= g < 2 ^ 64 - 1 -> Forall is_u64 seqs -> reachable false g seqs c -> outs c = ∅ ->
  own_commit_floor t (db c) <= fst (acquire_visible_snapshot (db c)) /\
  read_floor_seq t (db c) = visible (db c).
Proof.
  intros Hg Hu Hr Ho. apply reachable_inv in Hr as (Ht & _ & Hc & H1 & Hv & _ & _ & Hf); [|done..].
  rewrite Ho, map_empty_union in Ht. apply tiles_head in Ht as [_ E]; [|done].
  assert (own_commit_floor t (db c) <= visible (db c)); [|cbn; unfold read_floor_seq; lia].
  unfold own_commit_floor. destruct (commit_floor (db c) !! t) as [f|] eqn:Ef; cbn; [|lia].
  apply Hf in Ef. lia.
Qed.
