(* ===== verification/TxnLock.v ===== *)
(** * Point locks of pessimistic transactions (txn_lock.rs)

    The lock table with its wait-die rule, FIFO hand-off, stamps of unpublished
    commits, and the mass wake-ups of prepare, fail-stop and close.  Every
    method body between two waits runs under the table mutex and is one atomic
    step; a call that waits is split at [cv.wait] into [acquire] (which may
    park) and [acquire_wake] (one round of the wait loop).  The waiter's shared
    atomic cell is the map [cells]; which thread is parked on which key is the
    ghost map [parked] of a configuration. *)

From Stdlib Require Import ZArith Lia.
From Stdlib.Strings Require Import Byte.
From stdpp Require Import base gmap list relations.
From S2P Require Import Prelude Comparator.

Open Scope Z_scope.

(** ** Data *)

Abbreviation LockKey := (Z * key)%type.

Inductive WaitState : Type :=
| W_QUEUED | W_GRANTED | W_DENIED_WAIT_DIE | W_DENIED_RESERVED | W_DENIED_SHUTDOWN.

#[export] Instance WaitState_eq_dec : EqDecision WaitState.
Proof. solve_decision. Defined.

Definition NO_OWNER : Z := 0.
Definition SWEEP_AT : nat := 64.

(** A waiter: its transaction, and the identity of its shared cell. *)
Record Waiter := mkWaiter { w_txn : Z; w_cell : nat }.

Inductive LockDecision : Type :=
| Fresh
| Held
| Takeover (seq : Z)
| Die (owner : Z)
| Queue.

Record LockEntry := mkEntry { owner : Z; last_commit_seq : Z; waiters : list Waiter }.

Record Table := mkTable {
  entries : gmap LockKey LockEntry;
  held : gmap Z (list LockKey);
  free_stamped : nat;
  shutdown : option OndaError;
  wake_reason : option OndaError;
  cells : gmap nat WaitState
}.

Definition table_new : Table := mkTable ∅ ∅ 0 None None ∅.

Definition set_entries (f : gmap LockKey LockEntry -> gmap LockKey LockEntry) (t : Table) : Table :=
  mkTable (f (entries t)) (held t) (free_stamped t) (shutdown t) (wake_reason t) (cells t).
Definition set_held (f : gmap Z (list LockKey) -> gmap Z (list LockKey)) (t : Table) : Table :=
  mkTable (entries t) (f (held t)) (free_stamped t) (shutdown t) (wake_reason t) (cells t).
Definition set_free (f : nat -> nat) (t : Table) : Table :=
  mkTable (entries t) (held t) (f (free_stamped t)) (shutdown t) (wake_reason t) (cells t).
Definition set_cells (f : gmap nat WaitState -> gmap nat WaitState) (t : Table) : Table :=
  mkTable (entries t) (held t) (free_stamped t) (shutdown t) (wake_reason t) (f (cells t)).

(** [held.entry(o).or_default().push(k)]. *)
Definition push_held (o : Z) (k : LockKey) (t : Table) : Table :=
  set_held (fun h => <[o := default [] (h !! o) ++ [k]]> h) t.

(** [w.state.store(st)] for each waiter of a list. *)
Definition store_all (st : WaitState) (ws : list Waiter) (t : Table) : Table :=
  set_cells (fun c => foldl (fun c w => <[w_cell w := st]> c) c ws) t.

(** ** Acquisition *)

Definition decide_acquire (txn : Z) (k : LockKey) (t : Table) : LockDecision :=
  match entries t !! k with
  | None => Fresh
  | Some e =>
      if owner e =? txn then Held
      else if owner e =? NO_OWNER then Takeover (last_commit_seq e)
      else if owner e <? txn then Die (owner e)
      else Queue
  end.

Inductive acquire_result : Type :=
| Return (r : result (option Z))
| Parked (cell : nat).

(** [acquire] up to its first wait; [cell] is the fresh [Arc] it would queue. *)
Definition acquire (txn : Z) (k : LockKey) (cell : nat) (t : Table) : acquire_result * Table :=
  match shutdown t with
  | Some err => (Return (Err err), t)
  | None =>
      match decide_acquire txn k t with
      | Fresh =>
          (Return (Ok (Some 0)),
           push_held txn k (set_entries <[k := mkEntry txn 0 []]> t))
      | Held => (Return (Ok None), t)
      | Takeover seq =>
          (Return (Ok (Some seq)),
           push_held txn k
             (set_free pred
                (set_entries (alter (fun e => mkEntry txn (last_commit_seq e) (waiters e)) k) t)))
      | Die _ => (Return (Err Conflict), t)
      | Queue =>
          (Parked cell,
           set_cells <[cell := W_QUEUED]>
             (set_entries
                (alter (fun e => mkEntry (owner e) (last_commit_seq e)
                                   (waiters e ++ [mkWaiter txn cell])) k) t))
      end
  end.

(** One round of the wait loop after a wake-up: [None] waits again. *)
Definition acquire_wake (k : LockKey) (cell : nat) (t : Table) : option (result (option Z)) :=
  match cells t !! cell with
  | Some W_GRANTED =>
      Some (Ok (Some (match entries t !! k with Some e => last_commit_seq e | None => 0 end)))
  | Some W_DENIED_SHUTDOWN =>
      Some (Err (match wake_reason t with Some err => err | None => InvalidDb end))
  | Some W_DENIED_RESERVED => Some (Err Conflict)
  | Some W_DENIED_WAIT_DIE => Some (Err Conflict)
  | _ => None
  end.

(** ** Release *)

Definition hand_off (k : LockKey) (visible_seq : Z) (t : Table) : Table :=
  match entries t !! k with
  | None => t
  | Some e =>
      match waiters e with
      | w :: ws =>
          let o := w_txn w in
          let keep := List.filter (fun w => w_txn w <? o) ws in
          let denied := List.filter (fun w => negb (w_txn w <? o)) ws in
          push_held o k
            (store_all W_DENIED_WAIT_DIE denied
               (store_all W_GRANTED [w]
                  (set_entries <[k := mkEntry o (last_commit_seq e) keep]> t)))
      | [] =>
          if visible_seq <? last_commit_seq e
          then set_free S (set_entries <[k := mkEntry NO_OWNER (last_commit_seq e) []]> t)
          else set_entries (delete k) t
      end
  end.

Definition unowned (kv : LockKey * LockEntry) : Prop := owner (snd kv) = NO_OWNER.

#[export] Instance unowned_dec kv : Decision (unowned kv).
Proof. unfold unowned. apply _. Defined.

Definition sweep (visible_seq : Z) (t : Table) : Table :=
  if (free_stamped t <? SWEEP_AT)%nat then t
  else
    let kept := filter (fun kv => ~ (owner (snd kv) = NO_OWNER /\
                                     last_commit_seq (snd kv) <= visible_seq)) (entries t) in
    set_free (fun _ => size (filter unowned kept)) (set_entries (fun _ => kept) t).

(** The body of the [for k in keys] loop of [release_all]. *)
Definition release_one (txn : Z) (committed_at : option Z) (visible_seq : Z) (t : Table)
    (k : LockKey) : Table :=
  match entries t !! k with
  | None => t
  | Some e =>
      if owner e =? txn then
        let stamp := match committed_at with
                     | Some seq => Z.max (last_commit_seq e) seq
                     | None => last_commit_seq e
                     end in
        hand_off k visible_seq (set_entries <[k := mkEntry (owner e) stamp (waiters e)]> t)
      else t
  end.

Definition release_all (txn : Z) (committed_at : option Z) (visible_seq : Z) (t : Table) : Table :=
  match held t !! txn with
  | None => t
  | Some keys =>
      sweep visible_seq
        (fold_left (release_one txn committed_at visible_seq) keys (set_held (delete txn) t))
  end.

(** The body of the loop of [deny_all]. *)
Definition deny_one (txn : Z) (t : Table) (k : LockKey) : Table :=
  match entries t !! k with
  | Some e =>
      if owner e =? txn
      then store_all W_DENIED_RESERVED (waiters e) (set_entries (delete k) t)
      else t
  | None => t
  end.

Definition deny_all (txn : Z) (t : Table) : Table :=
  match held t !! txn with
  | None => t
  | Some keys => fold_left (deny_one txn) keys (set_held (delete txn) t)
  end.

Definition wake_every_waiter (t : Table) : Table :=
  set_entries (fmap (fun e => mkEntry (owner e) (last_commit_seq e) []))
    (store_all W_DENIED_SHUTDOWN
       (concat (map (fun kv => waiters (snd kv)) (map_to_list (entries t)))) t).

Definition wake_all_with_error (err : OndaError) (t : Table) : Table :=
  wake_every_waiter
    (mkTable (entries t) (held t) (free_stamped t) (shutdown t) (Some err) (cells t)).

Definition shut_down (err : OndaError) (t : Table) : Table :=
  wake_every_waiter
    (mkTable (entries t) (held t) (free_stamped t)
       (match shutdown t with None => Some err | some => some end) (Some err) (cells t)).

(** Observers. *)
Definition holds (txn : Z) (k : LockKey) (t : Table) : bool :=
  match entries t !! k with Some e => owner e =? txn | None => false end.

Definition waiters_on (k : LockKey) (t : Table) : nat :=
  match entries t !! k with Some e => length (waiters e) | None => 0 end.

(** ** Executions *)

(** The table, the threads parked in [acquire] (cell, transaction, key), and a
    bound on the cells allocated so far. *)
Record Locks := mkLocks {
  table : Table;
  parked : gmap nat (Z * LockKey);
  next_cell : nat
}.

Definition locks_new : Locks := mkLocks table_new ∅ 0.

(** A transaction runs on one thread: while it is parked in [acquire] it makes
    no other call. *)
Definition not_parked (txn : Z) (c : Locks) : Prop :=
  forall cell k, parked c !! cell <> Some (txn, k).

Definition do_acquire (txn : Z) (k : LockKey) (c : Locks) : Locks :=
  let '(r, t') := acquire txn k (next_cell c) (table c) in
  mkLocks t'
    (match r with Return _ => parked c | Parked cell => <[cell := (txn, k)]> (parked c) end)
    (S (next_cell c)).

Inductive lstep : Locks -> Locks -> Prop :=
| ls_acquire c txn k :
    1 <= txn -> not_parked txn c -> lstep c (do_acquire txn k c)
| ls_wake c cell txn k r :
    parked c !! cell = Some (txn, k) -> acquire_wake k cell (table c) = Some r ->
    lstep c (mkLocks (table c) (delete cell (parked c)) (next_cell c))
| ls_release c txn committed_at visible_seq :
    1 <= txn -> not_parked txn c ->
    lstep c (mkLocks (release_all txn committed_at visible_seq (table c)) (parked c) (next_cell c))
| ls_deny c txn :
    1 <= txn -> not_parked txn c ->
    lstep c (mkLocks (deny_all txn (table c)) (parked c) (next_cell c))
| ls_wake_all c err :
    lstep c (mkLocks (wake_all_with_error err (table c)) (parked c) (next_cell c))
| ls_shut_down c err :
    lstep c (mkLocks (shut_down err (table c)) (parked c) (next_cell c)).

Definition lreachable (c : Locks) : Prop := rtc lstep locks_new c.

(** ** The invariant

    Stated with the keys [R] that transaction [x] still owns but that have left
    its [held] list, for the middle of a release; [R] is empty between steps. *)

Definition held_of (t : Table) (o : Z) : list LockKey := default [] (held t !! o).

(** What the cell of a parked request says about the table. *)
Definition cell_ok (t : Table) (cell : nat) (txn : Z) (k : LockKey) : Prop :=
  match cells t !! cell with
  | Some W_QUEUED => exists e, entries t !! k = Some e /\ mkWaiter txn cell ∈ waiters e
  | Some W_GRANTED => exists e, entries t !! k = Some e /\ owner e = txn
  | Some _ => True
  | None => False
  end.

Record lock_inv (p : gmap nat (Z * LockKey)) (x : Z) (R : list LockKey) (t : Table) : Prop := {
  li_order k e w : entries t !! k = Some e -> w ∈ waiters e -> w_txn w < owner e;
  li_queued k e w : entries t !! k = Some e -> w ∈ waiters e ->
    p !! w_cell w = Some (w_txn w, k) /\ cells t !! w_cell w = Some W_QUEUED;
  li_nodup k e : entries t !! k = Some e -> NoDup (map w_cell (waiters e));
  li_parked cell txn k : p !! cell = Some (txn, k) -> 1 <= txn /\ cell_ok t cell txn k;
  li_once c1 c2 txn k1 k2 : p !! c1 = Some (txn, k1) -> p !! c2 = Some (txn, k2) -> c1 = c2;
  li_held o k : (k ∈ held_of t o \/ (o = x /\ k ∈ R)) <->
    (o <> NO_OWNER /\ exists e, entries t !! k = Some e /\ owner e = o);
  li_held_nodup o : NoDup (held_of t o);
  li_rem : NoDup R /\ forall k, k ∈ R -> k ∉ held_of t x;
  li_owner k e : entries t !! k = Some e -> 0 <= owner e;
  li_free : free_stamped t = size (filter unowned (entries t))
}.

(** ** Lemmas *)

Lemma store_all_cells st ws t c :
  cells (store_all st ws t) !! c = if bool_decide (c ∈ map w_cell ws) then Some st else cells t !! c.
Proof.
  cbn. generalize (cells t). induction ws as [|w ws IH]; intros m; [done|]. cbn. rewrite IH.
  destruct (decide (c = w_cell w)) as [->|Hne].
  - rewrite (bool_decide_eq_true_2 (w_cell w ∈ w_cell w :: _)) by left.
    case_bool_decide; [done|]. apply lookup_insert_eq.
  - rewrite lookup_insert_ne by done. repeat case_bool_decide; set_solver.
Qed.

Lemma free_delete (k : LockKey) (m : gmap LockKey LockEntry) :
  size (filter unowned (delete k m)) =
  (size (filter unowned m) - match m !! k with Some e => if (owner e =? NO_OWNER)%Z then 1 else 0 | None => 0 end)%nat.
Proof.
  rewrite map_filter_delete, map_size_delete. rewrite map_lookup_filter.
  destruct (m !! k) as [e|]; cbn; [|lia].
  destruct (Z.eqb_spec (owner e) NO_OWNER) as [E|E]; case_guard; cbn; unfold unowned in *; cbn in *; lia || done.
Qed.

Lemma free_insert (k : LockKey) (e : LockEntry) (m : gmap LockKey LockEntry) :
  size (filter unowned (<[k := e]> m)) =
  (size (filter unowned (delete k m)) + if (owner e =? NO_OWNER)%Z then 1 else 0)%nat.
Proof.
  rewrite <- insert_delete_eq. set (m' := delete k m).
  assert (Hk : m' !! k = None) by apply lookup_delete_eq.
  destruct (Z.eqb_spec (owner e) NO_OWNER) as [E|E].
  - rewrite map_filter_insert_True by done. rewrite map_size_insert_None; [lia|].
    rewrite map_lookup_filter, Hk. done.
  - rewrite map_filter_insert_False by done. rewrite delete_id by done. lia.
Qed.

Lemma free_positive (k : LockKey) (e : LockEntry) (m : gmap LockKey LockEntry) : m !! k = Some e -> owner e = NO_OWNER -> (0 < size (filter unowned m))%nat.
Proof.
  intros Hk He. apply Nat.neq_0_lt_0, map_size_non_empty_iff. intros E.
  assert (filter unowned m !! k = Some e) as H by by apply map_lookup_filter_Some.
  by rewrite E in H.
Qed.

Lemma held_of_push o k t o' :
  held_of (push_held o k t) o' = if decide (o' = o) then held_of t o ++ [k] else held_of t o'.
Proof.
  unfold held_of, push_held. cbn. destruct (decide (o' = o)) as [->|Hne].
  - by rewrite lookup_insert_eq.
  - by rewrite lookup_insert_ne.
Qed.

Lemma held_of_delete o t o' :
  held_of (set_held (delete o) t) o' = if decide (o' = o) then [] else held_of t o'.
Proof.
  unfold held_of. cbn. destruct (decide (o' = o)) as [->|Hne].
  - by rewrite lookup_delete_eq.
  - by rewrite lookup_delete_ne.
Qed.

(** A lookup in an updated map is the new entry or an old one. *)
Ltac upd H :=
  lazymatch type of H with
  | <[_ := _]> _ !! _ = Some _ =>
      let E1 := fresh in
      apply lookup_insert_Some in H as [[E1 H]|[E1 H]];
        [lazymatch type of E1 with _ = ?k' => subst k' end;
         try (lazymatch type of H with _ = ?e' => subst e' end);
         cbn [owner waiters last_commit_seq] in *|]
  | delete _ _ !! _ = Some _ => apply lookup_delete_Some in H as [? H]
  end.

Lemma no_owner_no_waiters p x R t k e :
  lock_inv p x R t -> entries t !! k = Some e -> owner e = NO_OWNER -> waiters e = [].
Proof.
  intros I Hk Ho. destruct (waiters e) as [|w ws] eqn:E; [done|].
  assert (Hw : w ∈ waiters e) by (rewrite E; left).
  destruct (li_queued _ _ _ _ I k e w Hk Hw) as [Hp _].
  apply (li_parked _ _ _ _ I) in Hp as [? _]. apply (li_order _ _ _ _ I k e w Hk) in Hw.
  unfold NO_OWNER in Ho. lia.
Qed.

(** An entry of which only the stamp changes. *)
Lemma inv_stamp p x R t k e s :
  lock_inv p x R t -> entries t !! k = Some e ->
  lock_inv p x R (set_entries <[k := mkEntry (owner e) s (waiters e)]> t).
Proof.
  intros I Hk. split; cbn.
  - intros k' e' w H. upd H; by eapply (li_order _ _ _ _ I).
  - intros k' e' w H. upd H; by eapply (li_queued _ _ _ _ I).
  - intros k' e' H. upd H; by eapply (li_nodup _ _ _ _ I).
  - intros cell txn k' Hp. destruct (li_parked _ _ _ _ I cell txn k' Hp) as [? Hc]. split; [done|].
    unfold cell_ok in *. cbn. destruct (cells t !! cell) as [[]|]; try done;
      destruct Hc as (e' & He' & ?); (destruct (decide (k' = k)) as [->|];
        [rewrite lookup_insert_eq; eexists; split; [done|]; cbn; congruence
        |rewrite lookup_insert_ne by done; eauto]).
  - apply (li_once _ _ _ _ I).
  - intros o k'. rewrite (li_held _ _ _ _ I o k'). destruct (decide (k' = k)) as [->|].
    + rewrite lookup_insert_eq. split; intros [? (e' & ? & ?)]; (split; [done|]);
        simplify_eq; cbn; eexists; (split; [done|]); done.
    + by rewrite lookup_insert_ne.
  - apply (li_held_nodup _ _ _ _ I).
  - apply (li_rem _ _ _ _ I).
  - intros k' e' H. upd H; by eapply (li_owner _ _ _ _ I).
  - rewrite (li_free _ _ _ _ I), free_insert, free_delete, Hk. cbn.
    destruct (Z.eqb_spec (owner e) NO_OWNER) as [E|E]; [|lia].
    pose proof (free_positive _ _ _ Hk E). lia.
Qed.

(** No parked request has been granted a key that [x] owns, when [x] itself is
    not parked. *)
Lemma not_granted p x R t k e cell txn :
  lock_inv p x R t -> (forall c k', p !! c <> Some (x, k')) ->
  entries t !! k = Some e -> owner e = x ->
  p !! cell = Some (txn, k) -> cells t !! cell <> Some W_GRANTED.
Proof.
  intros I Hnp Hk Ho Hp Hc. destruct (li_parked _ _ _ _ I cell txn k Hp) as [_ H].
  unfold cell_ok in H. rewrite Hc in H. destruct H as (e' & He' & <-). simplify_eq.
  by eapply Hnp.
Qed.

(** Handing a key that [x] owns to the front waiter [w]: [w] is granted, the
    waiters younger than it are denied, the others stay queued. *)
Section Grant.
Context (p : gmap nat (Z * LockKey)) (x : Z) (R : list LockKey) (t : Table).
Context (k : LockKey) (e : LockEntry) (w : Waiter) (ws : list Waiter).
Context (I : lock_inv p x (k :: R) t) (Hnp : forall c k', p !! c <> Some (x, k')).
Context (Hk : entries t !! k = Some e) (Ho : owner e = x) (Hw : waiters e = w :: ws).

Let keep := List.filter (fun v => w_txn v <? w_txn w) ws.
Let denied := List.filter (fun v => negb (w_txn v <? w_txn w)) ws.
Let t1 := set_entries <[k := mkEntry (w_txn w) (last_commit_seq e) keep]> t.
Let t2 := push_held (w_txn w) k (store_all W_DENIED_WAIT_DIE denied (store_all W_GRANTED [w] t1)).

Lemma grant_front : p !! w_cell w = Some (w_txn w, k) /\ 1 <= w_txn w /\ w_txn w <> x.
Proof.
  destruct (li_queued _ _ _ _ I k e w Hk) as [Hp _]; [rewrite Hw; left|].
  split; [done|]. split; [by apply (li_parked _ _ _ _ I) in Hp as [? _]|].
  intros E. rewrite E in Hp. by eapply Hnp.
Qed.

Lemma grant_queued v : v ∈ keep \/ v ∈ denied -> v ∈ waiters e.
Proof. intros [H|H]; apply elem_of_lfilter in H as [H _]; rewrite Hw; by right. Qed.

(** Two waiters of one entry with one cell are one waiter. *)
Lemma grant_cell_inj v v' : v ∈ waiters e -> v' ∈ waiters e -> w_cell v = w_cell v' -> v = v'.
Proof.
  intros H1 H2 E. apply (li_queued _ _ _ _ I k e v Hk) in H1 as [H1 _].
  apply (li_queued _ _ _ _ I k e v' Hk) in H2 as [H2 _]. rewrite E in H1.
  destruct v, v'; cbn in *; congruence.
Qed.

Lemma grant_cells c :
  cells t2 !! c = if bool_decide (c ∈ map w_cell denied) then Some W_DENIED_WAIT_DIE
                  else if bool_decide (c = w_cell w) then Some W_GRANTED else cells t !! c.
Proof.
  change (cells t2) with (cells (store_all W_DENIED_WAIT_DIE denied (store_all W_GRANTED [w] t1))).
  rewrite !store_all_cells. cbn [map]. case_bool_decide; [done|].
  rewrite (bool_decide_ext _ (c = w_cell w)); [done|]. set_solver.
Qed.

Lemma grant_denied c : c ∈ map w_cell denied -> exists v, v ∈ denied /\ v ∈ waiters e /\ w_cell v = c.
Proof. intros (v & Hv & <-)%elem_of_map. eauto 6 using grant_queued. Qed.

Lemma grant_keep v : v ∈ keep -> (w_cell v ∉ map w_cell denied) /\ w_cell v <> w_cell w.
Proof.
  intros Hv. pose proof (grant_queued v (or_introl Hv)) as Hv'.
  apply elem_of_lfilter in Hv as [Hvs Hlt]. split.
  - intros (v' & Hv2 & Hv3 & E)%grant_denied. apply grant_cell_inj in E as ->; [|done..].
    apply elem_of_lfilter in Hv2 as [_ Hge]. by rewrite Hlt in Hge.
  - intros E. pose proof (li_nodup _ _ _ _ I k e Hk) as Hnd. rewrite Hw in Hnd. cbn in Hnd.
    apply NoDup_cons in Hnd as [Hnw _]. apply Hnw. rewrite <- E. apply elem_of_map. eauto.
Qed.

Lemma grant_inv_queued k' e' v :
  entries t2 !! k' = Some e' -> v ∈ waiters e' ->
  p !! w_cell v = Some (w_txn v, k') /\ cells t2 !! w_cell v = Some W_QUEUED.
Proof.
  intros H Hv. cbn in H. rewrite grant_cells. upd H.
  - destruct (grant_keep v Hv) as [H1 H2].
    destruct (li_queued _ _ _ _ I k e v Hk) as [? ?]; [by apply grant_queued; left|].
    split; [done|]. by rewrite !bool_decide_eq_false_2.
  - destruct (li_queued _ _ _ _ I k' e' v H Hv) as [Hp ?]. split; [done|].
    rewrite !bool_decide_eq_false_2; [done|..].
    + intros E. rewrite E in Hp. pose proof grant_front as [? _]. congruence.
    + intros (v' & _ & Hv' & E)%grant_denied.
      destruct (li_queued _ _ _ _ I k e v' Hk Hv') as [Hp' _]. congruence.
Qed.

Lemma grant_inv_nodup : NoDup (map w_cell keep).
Proof.
  pose proof (li_nodup _ _ _ _ I k e Hk) as Hnd. rewrite Hw in Hnd. cbn in Hnd.
  apply NoDup_cons in Hnd as [_ Hnd]. unfold keep. generalize (w_txn w). intros o.
  induction ws as [|v vs IH] in Hnd |- *; cbn in *; [constructor|].
  apply NoDup_cons in Hnd as [Hn Hnd]. destruct (_ <? _); [|by apply IH].
  cbn. constructor; [|by apply IH]. intros (v' & Hv' & E)%elem_of_map. apply Hn.
  apply elem_of_lfilter in Hv' as [? _]. apply elem_of_map. eauto.
Qed.

Lemma grant_inv_cell cell txn k' : p !! cell = Some (txn, k') -> cell_ok t2 cell txn k'.
Proof.
  intros Hp. destruct (li_parked _ _ _ _ I cell txn k' Hp) as [_ Hok].
  unfold cell_ok in *. rewrite grant_cells. change (entries t2) with (entries t1).
  case_bool_decide as Hd; [done|]. case_bool_decide as He.
  { subst cell. destruct grant_front as [Hpw _]. rewrite Hpw in Hp. injection Hp as <- <-.
    eexists. split; [apply lookup_insert_eq|done]. }
  pose proof (not_granted _ _ _ _ k e cell txn I Hnp Hk Ho) as Hng.
  destruct (cells t !! cell) as [[]|] eqn:Ec; try done; destruct Hok as (e' & He' & Hx).
  - destruct (decide (k' = k)) as [->|]; [|eexists; cbn; rewrite lookup_insert_ne by done; eauto].
    simplify_eq. eexists. split; [apply lookup_insert_eq|]. cbn. apply elem_of_lfilter.
    rewrite Hw in Hx. apply elem_of_cons in Hx as [Hx|Hx]; [subst w; done|]. split; [done|].
    destruct (w_txn (mkWaiter txn cell) <? w_txn w) eqn:El; [done|]. exfalso. apply Hd.
    apply elem_of_map. eexists. split; [apply elem_of_lfilter; split; [done|by rewrite El]|done].
  - destruct (decide (k' = k)) as [->|]; [by destruct (Hng Hp)|].
    eexists. cbn. rewrite lookup_insert_ne by done. eauto.
Qed.

Lemma grant_inv_held o k' :
  (k' ∈ held_of t2 o \/ (o = x /\ k' ∈ R)) <->
  (o <> NO_OWNER /\ exists e', entries t2 !! k' = Some e' /\ owner e' = o).
Proof.
  destruct grant_front as (_ & Ho1 & _). unfold t2. rewrite held_of_push.
  change (held_of (store_all _ _ (store_all _ _ t1)) ?a) with (held_of t a).
  pose proof (li_held _ _ _ _ I o k') as Hh. destruct (li_rem _ _ _ _ I) as [Hr1 Hr2].
  apply NoDup_cons in Hr1 as [Hkr _]. cbn [entries push_held set_held store_all set_cells t1 set_entries].
  destruct (decide (k' = k)) as [->|Hne].
  - rewrite lookup_insert_eq. split.
    + intros H. destruct (decide (o = w_txn w)) as [->|Hne']; [unfold NO_OWNER; split; [lia|eauto]|].
      exfalso. destruct H as [H|[-> H]]; [|done].
      destruct Hh as [Hh _]. destruct Hh as [_ (e' & ? & ?)]; [by left|]. simplify_eq.
      apply (Hr2 k); [left|done].
    + intros [_ (e' & [= <-] & <-)]. cbn. rewrite decide_True by done. left. set_solver.
  - rewrite lookup_insert_ne by done. rewrite <- Hh. rewrite elem_of_cons.
    destruct (decide (o = w_txn w)) as [->|]; [rewrite elem_of_app, list_elem_of_singleton|]; naive_solver.
Qed.

Lemma grant_inv_held_nodup o : NoDup (held_of t2 o).
Proof.
  unfold t2. rewrite held_of_push. change (held_of (store_all _ _ (store_all _ _ t1)) ?a) with (held_of t a).
  pose proof (li_held_nodup _ _ _ _ I o) as Hn. destruct (decide (o = w_txn w)) as [->|]; [|done].
  apply NoDup_app. split; [done|]. split; [|repeat constructor; set_solver].
  intros k' Hk' ->%list_elem_of_singleton. destruct grant_front as (_ & _ & Hx).
  destruct (proj1 (li_held _ _ _ _ I (w_txn w) k)) as [_ (e' & ? & ?)]; [by left|]. congruence.
Qed.

Lemma inv_grant : lock_inv p x R t2.
Proof.
  destruct grant_front as (_ & Ho1 & Hox). split.
  - intros k' e' v H Hv. cbn in H. upd H; [|by eapply (li_order _ _ _ _ I)].
    apply elem_of_lfilter in Hv as [_ Hv]. boolprop. done.
  - apply grant_inv_queued.
  - intros k' e' H. cbn in H. upd H; [apply grant_inv_nodup|by eapply (li_nodup _ _ _ _ I)].
  - intros cell txn k' Hp. split; [by eapply (li_parked _ _ _ _ I)|by apply grant_inv_cell].
  - apply (li_once _ _ _ _ I).
  - apply grant_inv_held.
  - apply grant_inv_held_nodup.
  - destruct (li_rem _ _ _ _ I) as [Hr1 Hr2]. apply NoDup_cons in Hr1 as [Hkr Hr1]. split; [done|].
    intros k' Hk'. unfold t2. rewrite held_of_push, decide_False by congruence. apply Hr2. by right.
  - intros k' e' H. cbn in H. upd H; [lia|by eapply (li_owner _ _ _ _ I)].
  - cbn. rewrite (li_free _ _ _ _ I), free_insert, free_delete, Hk. cbn.
    assert (x <> NO_OWNER).
    { intros ->. destruct (proj1 (li_held _ _ _ _ I NO_OWNER k)) as [? _]; [right; split; [done|left]|done]. }
    destruct (Z.eqb_spec (owner e) NO_OWNER); [congruence|].
    destruct (Z.eqb_spec (w_txn w) NO_OWNER); [unfold NO_OWNER in *; lia|]. lia.
Qed.
End Grant.

(** ** Removing an entry, with or without leaving its stamp behind *)

(** What both removals need of [cells]: a cell of a parked request on another
    key is untouched, and a request on [k] is not waiting for it any more. *)
Lemma inv_remove p x R t k e cells' :
  lock_inv p x (k :: R) t -> (forall c k', p !! c <> Some (x, k')) ->
  entries t !! k = Some e -> owner e = x ->
  (forall cell txn k', p !! cell = Some (txn, k') -> k' <> k -> cells' !! cell = cells t !! cell) ->
  (forall cell txn, p !! cell = Some (txn, k) ->
     exists st, cells' !! cell = Some st /\ st <> W_QUEUED /\ st <> W_GRANTED) ->
  lock_inv p x R
    (mkTable (delete k (entries t)) (held t) (free_stamped t) (shutdown t) (wake_reason t) cells').
Proof.
  intros I Hnp Hk Ho Hother Hmine.
  assert (Hx : x <> NO_OWNER).
  { intros ->. destruct (proj1 (li_held _ _ _ _ I NO_OWNER k)) as [? _]; [right; split; [done|left]|done]. }
  destruct (li_rem _ _ _ _ I) as [Hr1 Hr2]. apply NoDup_cons in Hr1 as [Hkr Hr1]. split; cbn.
  - intros k' e' v H. upd H. by eapply (li_order _ _ _ _ I).
  - intros k' e' v H Hv. upd H. destruct (li_queued _ _ _ _ I k' e' v H Hv) as [Hp Hc].
    split; [done|]. by rewrite (Hother _ _ _ Hp).
  - intros k' e' H. upd H. by eapply (li_nodup _ _ _ _ I).
  - intros cell txn k' Hp. destruct (li_parked _ _ _ _ I cell txn k' Hp) as [? Hok]. split; [done|].
    unfold cell_ok in *. cbn. destruct (decide (k' = k)) as [->|Hne].
    + destruct (Hmine cell txn Hp) as ([] & -> & ? & ?); done.
    + by rewrite (Hother _ _ _ Hp), lookup_delete_ne.
  - apply (li_once _ _ _ _ I).
  - intros o k'. change (held_of _ o) with (held_of t o). pose proof (li_held _ _ _ _ I o k') as Hh.
    destruct (decide (k' = k)) as [->|Hne].
    + rewrite lookup_delete_eq. split; [|by intros (_ & ? & ? & _)].
      intros [H|[-> H]]; [|done]. exfalso. destruct (proj1 Hh) as [_ (e' & ? & ?)]; [by left|].
      simplify_eq. by apply (Hr2 k); [left|].
    + rewrite lookup_delete_ne by done. rewrite <- Hh, elem_of_cons. naive_solver.
  - apply (li_held_nodup _ _ _ _ I).
  - split; [done|]. intros k' Hk'. apply Hr2. by right.
  - intros k' e' H. upd H. by eapply (li_owner _ _ _ _ I).
  - rewrite (li_free _ _ _ _ I), free_delete, Hk. destruct (Z.eqb_spec (owner e) NO_OWNER); [congruence|lia].
Qed.

(** No request is parked on a key whose queue is empty and that [x] owns,
    except one that has been denied. *)
Lemma empty_queue_cells p x R t k e :
  lock_inv p x R t -> (forall c k', p !! c <> Some (x, k')) ->
  entries t !! k = Some e -> owner e = x -> waiters e = [] ->
  forall cell txn, p !! cell = Some (txn, k) ->
  exists st, cells t !! cell = Some st /\ st <> W_QUEUED /\ st <> W_GRANTED.
Proof.
  intros I Hnp Hk Ho Hw cell txn Hp. destruct (li_parked _ _ _ _ I cell txn k Hp) as [_ Hok].
  pose proof (not_granted _ _ _ _ k e cell txn I Hnp Hk Ho Hp) as Hng. unfold cell_ok in Hok.
  destruct (cells t !! cell) as [st|]; [|done]. exists st. split; [done|].
  destruct st; split; try done; try congruence.
  destruct Hok as (e' & ? & Hin). simplify_eq. rewrite Hw in Hin. by apply elem_of_nil in Hin.
Qed.

Lemma inv_drop p x R t k e :
  lock_inv p x (k :: R) t -> (forall c k', p !! c <> Some (x, k')) ->
  entries t !! k = Some e -> owner e = x -> waiters e = [] ->
  lock_inv p x R (set_entries (delete k) t).
Proof.
  intros I Hnp Hk Ho Hw. apply (inv_remove p x R t k e (cells t)); try done.
  by eapply empty_queue_cells.
Qed.

(** An unowned entry without waiters, put where there was none. *)
Lemma inv_add_unowned p x R t k s :
  lock_inv p x R t -> entries t !! k = None ->
  lock_inv p x R (set_free S (set_entries <[k := mkEntry NO_OWNER s []]> t)).
Proof.
  intros I Hk. split; cbn.
  - intros k' e' v H Hv. upd H; [by apply elem_of_nil in Hv|by eapply (li_order _ _ _ _ I)].
  - intros k' e' v H Hv. upd H; [by apply elem_of_nil in Hv|by eapply (li_queued _ _ _ _ I)].
  - intros k' e' H. upd H; [constructor|by eapply (li_nodup _ _ _ _ I)].
  - intros cell txn k' Hp. destruct (li_parked _ _ _ _ I cell txn k' Hp) as [? Hok]. split; [done|].
    unfold cell_ok in *. cbn. destruct (cells t !! cell) as [[]|]; try done;
      destruct Hok as (e' & ? & ?); exists e'; (rewrite lookup_insert_ne; [done|congruence]).
  - apply (li_once _ _ _ _ I).
  - intros o k'. change (held_of _ o) with (held_of t o). rewrite (li_held _ _ _ _ I o k').
    destruct (decide (k' = k)) as [->|]; [rewrite Hk, lookup_insert_eq|by rewrite lookup_insert_ne].
    split; intros [? (e' & ? & ?)]; [done|]. by simplify_eq.
  - apply (li_held_nodup _ _ _ _ I).
  - apply (li_rem _ _ _ _ I).
  - intros k' e' H. upd H; [done|by eapply (li_owner _ _ _ _ I)].
  - rewrite (li_free _ _ _ _ I), free_insert, free_delete, Hk. cbn. lia.
Qed.

Lemma inv_hand_off p x R t k e visible_seq :
  lock_inv p x (k :: R) t -> (forall c k', p !! c <> Some (x, k')) ->
  entries t !! k = Some e -> owner e = x ->
  lock_inv p x R (hand_off k visible_seq t).
Proof.
  intros I Hnp Hk Ho. unfold hand_off. rewrite Hk.
  destruct (waiters e) as [|w ws] eqn:Hw; [|by apply inv_grant].
  pose proof (inv_drop p x R t k e I Hnp Hk Ho Hw) as Hd.
  destruct (_ <? _); [|done].
  apply (inv_add_unowned _ _ _ _ k (last_commit_seq e)) in Hd; [|apply lookup_delete_eq].
  unfold set_free, set_entries in *. cbn in *. by rewrite insert_delete_eq in Hd.
Qed.

Lemma inv_release_one p x R t k committed_at visible_seq :
  lock_inv p x (k :: R) t -> (forall c k', p !! c <> Some (x, k')) ->
  lock_inv p x R (release_one x committed_at visible_seq t k).
Proof.
  intros I Hnp. destruct (proj1 (li_held _ _ _ _ I x k)) as [_ (e & Hk & Ho)]; [right; split; [done|left]|].
  unfold release_one. rewrite Hk, Ho, Z.eqb_refl. rewrite <- Ho at 2.
  eapply inv_hand_off; [apply inv_stamp; [exact I|done]|done|apply lookup_insert_eq|done].
Qed.

Lemma inv_release_fold p x keys t committed_at visible_seq :
  lock_inv p x keys t -> (forall c k', p !! c <> Some (x, k')) ->
  lock_inv p x [] (fold_left (release_one x committed_at visible_seq) keys t).
Proof.
  intros I Hnp. revert t I. induction keys as [|k keys IH]; intros t I; [done|].
  cbn. apply IH. by apply inv_release_one.
Qed.

(** Taking [x]'s keys off its [held] list moves them to the remainder. *)
Lemma inv_unhold p x t keys :
  lock_inv p x [] t -> held t !! x = Some keys -> lock_inv p x keys (set_held (delete x) t).
Proof.
  intros I Hh. assert (E : held_of t x = keys) by (unfold held_of; by rewrite Hh). split; cbn.
  - apply (li_order _ _ _ _ I).
  - apply (li_queued _ _ _ _ I).
  - apply (li_nodup _ _ _ _ I).
  - apply (li_parked _ _ _ _ I).
  - apply (li_once _ _ _ _ I).
  - intros o k. rewrite held_of_delete, <- (li_held _ _ _ _ I o k). rewrite elem_of_nil.
    destruct (decide (o = x)) as [->|]; [rewrite E, elem_of_nil|]; naive_solver.
  - intros o. rewrite held_of_delete. destruct (decide (o = x)); [constructor|apply (li_held_nodup _ _ _ _ I)].
  - rewrite held_of_delete, decide_True by done. split; [|set_solver]. rewrite <- E. apply (li_held_nodup _ _ _ _ I).
  - apply (li_owner _ _ _ _ I).
  - apply (li_free _ _ _ _ I).
Qed.

(** Between steps nothing is in transit, whoever moved last. *)
Lemma inv_any p x y t : lock_inv p x [] t -> lock_inv p y [] t.
Proof.
  intros I. destruct I as [H1 H2 H3 H4 H5 H6 H7 H8 H9 H10]. split; try done.
  - intros o k. rewrite <- H6, elem_of_nil. set_solver.
  - split; [constructor|set_solver].
Qed.

Lemma inv_sweep p x t visible_seq : lock_inv p x [] t -> lock_inv p x [] (sweep visible_seq t).
Proof.
  intros I. unfold sweep. destruct (_ <? _)%nat; [done|]. set (kept := filter _ (entries t)).
  assert (Hsub : forall k e, kept !! k = Some e -> entries t !! k = Some e).
  { intros k e H. by apply map_lookup_filter_Some in H as [? _]. }
  assert (Hown : forall k e, entries t !! k = Some e -> owner e <> NO_OWNER -> kept !! k = Some e).
  { intros k e H Ho. apply map_lookup_filter_Some. split; [done|]. by intros [? _]. }
  assert (Hwait : forall k e w, entries t !! k = Some e -> w ∈ waiters e -> kept !! k = Some e).
  { intros k e w H Hin. apply Hown; [done|]. intros Ho.
    rewrite (no_owner_no_waiters _ _ _ _ _ _ I H Ho) in Hin. by apply elem_of_nil in Hin. }
  split; cbn.
  - intros k e w H%Hsub. by eapply (li_order _ _ _ _ I).
  - intros k e w H%Hsub. by eapply (li_queued _ _ _ _ I).
  - intros k e H%Hsub. by eapply (li_nodup _ _ _ _ I).
  - intros cell txn k Hp. destruct (li_parked _ _ _ _ I cell txn k Hp) as [? Hok]. split; [done|].
    unfold cell_ok in *. cbn. destruct (cells t !! cell) as [[]|]; try done;
      destruct Hok as (e & He & Hx); exists e; (split; [|done]); [by eapply Hwait|].
    apply Hown; [done|]. unfold NO_OWNER. lia.
  - apply (li_once _ _ _ _ I).
  - intros o k. change (held_of _ o) with (held_of t o). rewrite (li_held _ _ _ _ I o k).
    split; intros [? (e & He & Ho)]; (split; [done|]); exists e; (split; [|done]);
      [apply Hown; congruence|by apply Hsub].
  - apply (li_held_nodup _ _ _ _ I).
  - apply (li_rem _ _ _ _ I).
  - intros k e H%Hsub. by eapply (li_owner _ _ _ _ I).
  - done.
Qed.

Lemma inv_release_all p x txn t committed_at visible_seq :
  lock_inv p x [] t -> (forall c k', p !! c <> Some (txn, k')) ->
  lock_inv p x [] (release_all txn committed_at visible_seq t).
Proof.
  intros I Hnp. unfold release_all. destruct (held t !! txn) as [keys|] eqn:E; [|done].
  apply inv_sweep, (inv_any _ txn), inv_release_fold; [|done].
  apply inv_unhold; [by eapply inv_any|done].
Qed.

Lemma inv_deny_one p x R t k :
  lock_inv p x (k :: R) t -> (forall c k', p !! c <> Some (x, k')) ->
  lock_inv p x R (deny_one x t k).
Proof.
  intros I Hnp. destruct (proj1 (li_held _ _ _ _ I x k)) as [_ (e & Hk & Ho)]; [right; split; [done|left]|].
  unfold deny_one. rewrite Hk, Ho, Z.eqb_refl.
  apply (inv_remove p x R t k e (cells (store_all W_DENIED_RESERVED (waiters e) t))); try done.
  - intros cell txn k' Hp Hne. rewrite store_all_cells, bool_decide_eq_false_2; [done|].
    intros (w & Hw & <-)%elem_of_map. destruct (li_queued _ _ _ _ I k e w Hk Hw) as [? _]. congruence.
  - intros cell txn Hp. rewrite store_all_cells. case_bool_decide as Hd; [by eauto|].
    destruct (li_parked _ _ _ _ I cell txn k Hp) as [_ Hok]. unfold cell_ok in Hok.
    pose proof (not_granted _ _ _ _ k e cell txn I Hnp Hk Ho Hp) as Hng.
    destruct (cells t !! cell) as [st|]; [|done]. exists st. split; [done|].
    destruct st; split; try done; try congruence. exfalso. apply Hd.
    destruct Hok as (e' & ? & Hin). simplify_eq. apply elem_of_map. by exists (mkWaiter txn cell).
Qed.

Lemma inv_deny_all p x txn t :
  lock_inv p x [] t -> (forall c k', p !! c <> Some (txn, k')) -> lock_inv p x [] (deny_all txn t).
Proof.
  intros I Hnp. unfold deny_all. destruct (held t !! txn) as [keys|] eqn:E; [|done].
  apply (inv_any _ txn). apply (inv_any _ x txn) in I. apply (inv_unhold _ _ _ _ I) in E as I'.
  clear I E. revert I'. generalize (set_held (delete txn) t). clear t.
  induction keys as [|k keys IH]; intros t I; [done|]. cbn. apply IH. by apply inv_deny_one.
Qed.

Lemma inv_wake_every p x t : lock_inv p x [] t -> lock_inv p x [] (wake_every_waiter t).
Proof.
  intros I. unfold wake_every_waiter. set (all := concat _).
  assert (Hall : forall w, w ∈ all <-> exists k e, entries t !! k = Some e /\ w ∈ waiters e).
  { intros w. unfold all. rewrite elem_of_concat_map. split.
    - intros ([k e] & Hin & Hw). apply elem_of_map_to_list in Hin. eauto.
    - intros (k & e & He & Hw). exists (k, e). by rewrite elem_of_map_to_list. }
  assert (Hlk : forall k e', fmap (fun e => mkEntry (owner e) (last_commit_seq e) []) (entries t) !! k = Some e' ->
    exists e, entries t !! k = Some e /\ e' = mkEntry (owner e) (last_commit_seq e) []).
  { intros k e' H. rewrite lookup_fmap in H. destruct (entries t !! k) as [e|]; [|done].
    cbn in H. injection H as <-. eauto. }
  split.
  - intros k e w (e0 & _ & ->)%Hlk Hw. by apply elem_of_nil in Hw.
  - intros k e w (e0 & _ & ->)%Hlk Hw. by apply elem_of_nil in Hw.
  - intros k e (e0 & _ & ->)%Hlk. constructor.
  - intros cell txn k Hp. destruct (li_parked _ _ _ _ I cell txn k Hp) as [? Hok]. split; [done|].
    unfold cell_ok in *. change (cells (set_entries _ ?a)) with (cells a). rewrite store_all_cells.
    case_bool_decide as Hd; [done|]. destruct (cells t !! cell) as [[]|]; try done; destruct Hok as (e & He & Hx).
    + exfalso. apply Hd, elem_of_map. exists (mkWaiter txn cell). split; [|done]. apply Hall. eauto.
    + eexists. cbn. rewrite lookup_fmap, He. by split.
  - apply (li_once _ _ _ _ I).
  - intros o k. change (held_of _ o) with (held_of t o). rewrite (li_held _ _ _ _ I o k).
    cbn. rewrite lookup_fmap. split; intros [? (e & He & Ho)]; (split; [done|]).
    + rewrite He. eexists. by split.
    + destruct (entries t !! k) as [e0|]; [|done]. cbn in He. injection He as <-. eauto.
  - apply (li_held_nodup _ _ _ _ I).
  - apply (li_rem _ _ _ _ I).
  - intros k e (e0 & ? & ->)%Hlk. cbn; by eapply (li_owner _ _ _ _ I).
  - cbn. rewrite (li_free _ _ _ _ I). rewrite map_filter_fmap, map_size_fmap. done.
Qed.

(** [wake_reason] and [shutdown] are outside the invariant. *)
Lemma inv_reasons p x t sd wr :
  lock_inv p x [] t ->
  lock_inv p x [] (mkTable (entries t) (held t) (free_stamped t) sd wr (cells t)).
Proof. intros [H1 H2 H3 H4 H5 H6 H7 H8 H9 H10]. split; done. Qed.

(** A parked request that leaves. *)
Lemma inv_unpark p x t cell txn k :
  lock_inv p x [] t -> p !! cell = Some (txn, k) -> cells t !! cell <> Some W_QUEUED ->
  lock_inv (delete cell p) x [] t.
Proof.
  intros I Hp Hq. destruct I as [H1 H2 H3 H4 H5 H6 H7 H8 H9 H10]. split; try done.
  - intros k' e w He Hw. destruct (H2 k' e w He Hw) as [? ?]. split; [|done].
    rewrite lookup_delete_ne; [done|]. intros ->. congruence.
  - intros c t' k' [? ?]%lookup_delete_Some. by apply H4.
  - intros c1 c2 t' k1 k2 [? ?]%lookup_delete_Some [? ?]%lookup_delete_Some. by eapply H5.
Qed.

(** ** Acquisition keeps the invariant *)

Lemma alter_insert_eq (f : LockEntry -> LockEntry) (k : LockKey) (m : gmap LockKey LockEntry) e :
  m !! k = Some e -> alter f k m = <[k := f e]> m.
Proof.
  intros H. apply map_eq. intros k'. destruct (decide (k' = k)) as [->|].
  - by rewrite lookup_alter_eq, lookup_insert_eq, H.
  - by rewrite lookup_alter_ne, lookup_insert_ne.
Qed.

(** A key nobody owns, taken by a transaction that is not parked. *)
Lemma inv_take p x t k s txn :
  lock_inv p x [] t -> 1 <= txn ->
  (forall e, entries t !! k = Some e -> owner e = NO_OWNER) ->
  lock_inv p x []
    (push_held txn k
       (set_free (fun _ => size (filter unowned (delete k (entries t))))
          (set_entries <[k := mkEntry txn s []]> t))).
Proof.
  intros I Htxn Hfree.
  assert (Hnone : forall o e, entries t !! k = Some e -> owner e = o -> o <> NO_OWNER -> False).
  { intros o e He Ho Hne. apply Hne. rewrite <- Ho. by apply Hfree. }
  assert (Hnw : forall e w, entries t !! k = Some e -> w ∈ waiters e -> False).
  { intros e w He Hw. rewrite (no_owner_no_waiters _ _ _ _ _ _ I He (Hfree e He)) in Hw.
    by apply elem_of_nil in Hw. }
  split; cbn.
  - intros k' e w H Hw. upd H; [by apply elem_of_nil in Hw|by eapply (li_order _ _ _ _ I)].
  - intros k' e w H Hw. upd H; [by apply elem_of_nil in Hw|by eapply (li_queued _ _ _ _ I)].
  - intros k' e H. upd H; [constructor|by eapply (li_nodup _ _ _ _ I)].
  - intros cell t' k' Hp. destruct (li_parked _ _ _ _ I cell t' k' Hp) as [? Hok]. split; [done|].
    unfold cell_ok in *. cbn. destruct (cells t !! cell) as [[]|]; try done;
      destruct Hok as (e & He & Hx); (destruct (decide (k' = k)) as [->|];
        [exfalso|rewrite lookup_insert_ne by done; eauto]).
    + by eapply Hnw.
    + eapply Hnone; [done..|]. unfold NO_OWNER. lia.
  - apply (li_once _ _ _ _ I).
  - intros o k'. rewrite held_of_push. cbn. change (held_of (set_free _ _) ?a) with (held_of t a).
    pose proof (li_held _ _ _ _ I o k') as Hh. destruct (decide (k' = k)) as [->|Hne].
    + rewrite lookup_insert_eq. split.
      * intros H. destruct (decide (o = txn)) as [->|]; [unfold NO_OWNER; split; [lia|eauto]|].
        exfalso. destruct (proj1 Hh) as [? (e & ? & ?)]; [done|]. by eapply Hnone.
      * intros [_ (e & [= <-] & <-)]. cbn. rewrite decide_True by done. set_solver.
    + rewrite lookup_insert_ne by done. rewrite <- Hh.
      destruct (decide (o = txn)) as [->|]; [rewrite elem_of_app, list_elem_of_singleton|]; naive_solver.
  - intros o. rewrite held_of_push. change (held_of (set_free _ _) ?a) with (held_of t a).
    pose proof (li_held_nodup _ _ _ _ I o) as Hn. destruct (decide (o = txn)) as [->|]; [|done].
    apply NoDup_app. split; [done|]. split; [|repeat constructor; set_solver].
    intros k' Hk' ->%list_elem_of_singleton.
    destruct (proj1 (li_held _ _ _ _ I txn k)) as [? (e & ? & ?)]; [by left|]. by eapply Hnone.
  - split; [constructor|set_solver].
  - intros k' e H. upd H; [lia|by eapply (li_owner _ _ _ _ I)].
  - rewrite free_insert. cbn. destruct (Z.eqb_spec txn NO_OWNER); [unfold NO_OWNER in *; lia|lia].
Qed.

(** A request older than the owner, queued at the back. *)
Lemma inv_queue p x t k e txn cell :
  lock_inv p x [] t -> 1 <= txn -> (forall c k', p !! c <> Some (txn, k')) ->
  entries t !! k = Some e -> txn < owner e -> p !! cell = None ->
  lock_inv (<[cell := (txn, k)]> p) x []
    (set_cells <[cell := W_QUEUED]>
       (set_entries <[k := mkEntry (owner e) (last_commit_seq e) (waiters e ++ [mkWaiter txn cell])]> t)).
Proof.
  intros I Htxn Hnp Hk Hlt Hc.
  assert (Hold : forall k' e' w, entries t !! k' = Some e' -> w ∈ waiters e' -> w_cell w <> cell).
  { intros k' e' w He Hw E. destruct (li_queued _ _ _ _ I k' e' w He Hw). congruence. }
  assert (Hq : forall k' e' w, entries t !! k' = Some e' -> w ∈ waiters e' ->
    <[cell := (txn, k)]> p !! w_cell w = Some (w_txn w, k') /\
    <[cell := W_QUEUED]> (cells t) !! w_cell w = Some W_QUEUED).
  { intros k' e' w He Hw. rewrite !lookup_insert_ne by (symmetry; eauto).
    by eapply (li_queued _ _ _ _ I). }
  split; cbn.
  - intros k' e' w H Hw. upd H; [|by eapply (li_order _ _ _ _ I)].
    apply elem_of_app in Hw as [Hw| ->%list_elem_of_singleton]; [by eapply (li_order _ _ _ _ I)|done].
  - intros k' e' w H Hw. upd H; [|by apply (Hq _ e')].
    apply elem_of_app in Hw as [Hw| ->%list_elem_of_singleton]; [by apply (Hq _ e)|].
    cbn. by rewrite !lookup_insert_eq.
  - intros k' e' H. upd H; [|by eapply (li_nodup _ _ _ _ I)]. rewrite map_app. apply NoDup_app.
    split; [by eapply (li_nodup _ _ _ _ I)|]. split; [|repeat constructor; set_solver].
    intros c (w & Hw & E)%elem_of_map Hc2%list_elem_of_singleton. cbn in Hc2. eapply Hold; [done..|congruence].
  - intros c t' k' Hp. upd Hp.
    { injection Hp as <- <-. split; [done|]. unfold cell_ok. cbn. rewrite lookup_insert_eq.
      eexists. split; [apply lookup_insert_eq|]. cbn. set_solver. }
    destruct (li_parked _ _ _ _ I c t' k' Hp) as [? Hok]. split; [done|].
    unfold cell_ok in *. cbn. rewrite lookup_insert_ne by done.
    destruct (cells t !! c) as [[]|]; try done; destruct Hok as (e' & He & Hx);
      (destruct (decide (k' = k)) as [->|]; [|rewrite lookup_insert_ne by done; eauto]);
      rewrite lookup_insert_eq; simplify_eq; (eexists; split; [done|]); cbn; set_solver.
  - intros c1 c2 t' k1 k2 Hp1 Hp2. upd Hp1; upd Hp2; try done.
    + injection Hp1 as <- <-. by destruct (Hnp _ _ Hp2).
    + injection Hp2 as <- <-. by destruct (Hnp _ _ Hp1).
    + by eapply (li_once _ _ _ _ I).
  - intros o k'. change (held_of _ o) with (held_of t o). rewrite (li_held _ _ _ _ I o k').
    destruct (decide (k' = k)) as [->|]; [rewrite lookup_insert_eq|by rewrite lookup_insert_ne].
    split; intros [? (e' & ? & ?)]; simplify_eq; (split; [done|]); eexists; (split; [done|done]).
  - apply (li_held_nodup _ _ _ _ I).
  - apply (li_rem _ _ _ _ I).
  - intros k' e' H. upd H; by eapply (li_owner _ _ _ _ I).
  - rewrite (li_free _ _ _ _ I), free_insert, free_delete, Hk. cbn.
    destruct (Z.eqb_spec (owner e) NO_OWNER) as [E|E]; [|lia].
    pose proof (free_positive _ _ _ Hk E). lia.
Qed.

(** ** Reachable states *)

Definition linv (c : Locks) : Prop :=
  lock_inv (parked c) 0 [] (table c) /\
  forall cell, is_Some (parked c !! cell) -> (cell < next_cell c)%nat.

Lemma do_acquire_inv txn k c : linv c -> 1 <= txn -> not_parked txn c -> linv (do_acquire txn k c).
Proof.
  intros [I Hc] Htxn Hnp. unfold do_acquire, acquire.
  assert (Hkeep : forall t', lock_inv (parked c) 0 [] t' -> linv (mkLocks t' (parked c) (S (next_cell c)))).
  { intros t' I'. split; [done|]. cbn. intros cell H%Hc. lia. }
  destruct (shutdown (table c)); [by apply Hkeep|].
  unfold decide_acquire. destruct (entries (table c) !! k) as [e|] eqn:Hk.
  - destruct (Z.eqb_spec (owner e) txn); [by apply Hkeep|].
    destruct (Z.eqb_spec (owner e) NO_OWNER) as [E|E].
    + apply Hkeep.
      pose proof (inv_take _ _ _ k (last_commit_seq e) txn I Htxn) as H.
      rewrite free_delete, Hk, E in H. cbn in H.
      replace (set_free pred (set_entries (alter _ k) (table c))) with
        (set_free (fun _ => size (filter unowned (entries (table c))) - 1)%nat
           (set_entries <[k := mkEntry txn (last_commit_seq e) []]> (table c))).
      * apply H. intros e' ?. congruence.
      * unfold set_free, set_entries. cbn. rewrite (alter_insert_eq _ _ _ e Hk).
        rewrite (no_owner_no_waiters _ _ _ _ _ _ I Hk E), (li_free _ _ _ _ I). f_equal. lia.
    + destruct (Z.ltb_spec (owner e) txn); [by apply Hkeep|].
      assert (Hfresh : parked c !! next_cell c = None).
      { destruct (parked c !! next_cell c) eqn:Ep; [|done].
        pose proof (Hc (next_cell c) ltac:(by rewrite Ep)). lia. }
      split; cbn.
      * unfold set_entries. rewrite (alter_insert_eq _ _ _ e Hk).
        apply (inv_queue _ _ _ k e txn); [done|done|apply Hnp|done|lia|done].
      * intros cell [[t' k'] [[<- _]|[_ Hp]]%lookup_insert_Some]; [lia|].
        pose proof (Hc cell ltac:(by rewrite Hp)). lia.
  - apply Hkeep. pose proof (inv_take _ _ _ k 0 txn I Htxn) as H.
    rewrite free_delete, Hk in H. replace (set_entries <[k := mkEntry txn 0 []]> (table c)) with
      (set_free (fun _ => size (filter unowned (entries (table c))) - 0)%nat
         (set_entries <[k := mkEntry txn 0 []]> (table c))); [apply H; congruence|].
    unfold set_free, set_entries. cbn. f_equal. rewrite (li_free _ _ _ _ I). lia.
Qed.

Lemma lstep_inv c c' : lstep c c' -> linv c -> linv c'.
Proof.
  destruct 1 as [c txn k Ht Hnp|c cell txn k r Hp Hw|c txn ca vs Ht Hnp|c txn Ht Hnp|c err|c err]; intros [I Hc].
  - by apply do_acquire_inv.
  - split; cbn.
    + eapply inv_unpark; [done..|]. intros E. unfold acquire_wake in Hw. by rewrite E in Hw.
    + intros cell' [[t' k'] [_ H]%lookup_delete_Some]. apply Hc. by rewrite H.
  - split; [by apply inv_release_all|done].
  - split; [by apply inv_deny_all|done].
  - split; [by apply inv_wake_every, inv_reasons|done].
  - split; [by apply inv_wake_every, inv_reasons|done].
Qed.

Lemma lreachable_inv c : lreachable c -> linv c.
Proof.
  assert (H0 : linv locks_new).
  { split; [|by intros cell [? ?]]. split; cbn; try done; try set_solver.
    - intros o. unfold held_of. cbn. rewrite lookup_empty. constructor.
    - split; [constructor|set_solver]. }
  intros H. unfold lreachable in H. remember locks_new as c0 eqn:E. clear E.
  induction H as [|c1 c2 c3 H _ IH]; [done|]. by eapply IH, lstep_inv.
Qed.

(** ** Waiting *)

(** [u] holds the key [t] is queued for. *)
Definition waits_for (c : Locks) (t u : Z) : Prop :=
  exists cell k e, parked c !! cell = Some (t, k) /\ cells (table c) !! cell = Some W_QUEUED /\
  entries (table c) !! k = Some e /\ owner e = u.

Lemma waits_for_older c t u : linv c -> waits_for c t u -> t < u.
Proof.
  intros [I _] (cell & k & e & Hp & Hq & He & <-).
  destruct (li_parked _ _ _ _ I cell t k Hp) as [_ Hok]. unfold cell_ok in Hok. rewrite Hq in Hok.
  destruct Hok as (e' & ? & Hin). simplify_eq. by apply (li_order _ _ _ _ I k e _ He) in Hin.
Qed.

Lemma tc_waits_for_older c t u : linv c -> tc (waits_for c) t u -> t < u.
Proof.
  intros I. induction 1 as [t u H|t v u H _ IH]; apply (waits_for_older c) in H; try done. lia.
Qed.

Lemma owners_bounded (m : gmap LockKey LockEntry) :
  exists M, forall k e, m !! k = Some e -> owner e <= M.
Proof.
  induction m as [|k e m Hn [M IH]] using map_ind; [by exists 0|].
  exists (Z.max M (owner e)). intros k' e' [[_ <-]|[_ H]]%lookup_insert_Some; [lia|].
  apply IH in H. lia.
Qed.

(** Whether [t] is queued for some key. *)
Lemma queued_dec c t : linv c -> (exists u, waits_for c t u) \/ (forall u, ~ waits_for c t u).
Proof.
  intros [I _]. destruct (decide (map_Exists (fun cell tk => fst tk = t /\
    cells (table c) !! cell = Some W_QUEUED) (parked c))) as [H|H].
  - left. destruct H as (cell & [t' k] & Hp & Ht & Hq). cbn in Ht. subst t'.
    destruct (li_parked _ _ _ _ I cell t k Hp) as [_ Hok]. unfold cell_ok in Hok. rewrite Hq in Hok.
    destruct Hok as (e & He & _). by exists (owner e), cell, k, e.
  - right. intros u (cell & k & e & Hp & Hq & _). apply H. by exists cell, (t, k).
Qed.

(** Following the queue from a waiting transaction ends at one that waits for
    nobody. *)
Lemma waits_for_ends c t u :
  linv c -> waits_for c t u ->
  exists v, tc (waits_for c) t v /\ forall v', ~ waits_for c v v'.
Proof.
  intros I. destruct (owners_bounded (entries (table c))) as [M HM].
  assert (HuM : forall a b, waits_for c a b -> b <= M).
  { intros a b (cell & k & e & _ & _ & He & <-). by eapply HM. }
  remember (Z.to_nat (M - t)) as n eqn:En. revert t u En.
  induction n as [n IH] using lt_wf_ind. intros t u En H.
  pose proof (waits_for_older c t u I H). pose proof (HuM t u H).
  destruct (queued_dec c u I) as [[v Hv]|Hv]; [|by exists u; split; [apply tc_once|]].
  destruct (IH (Z.to_nat (M - u)) ltac:(lia) u v eq_refl Hv) as (w & Hw & ?).
  exists w. split; [by eapply tc_l|done].
Qed.

(** ** Hand-off *)

Lemma release_one_other txn ca vs t k k' :
  k' <> k -> entries (release_one txn ca vs t k) !! k' = entries t !! k'.
Proof.
  intros Hne. unfold release_one, hand_off. destruct (entries t !! k) as [e|] eqn:Hk; [|done].
  destruct (_ =? _); [|done]. cbn [set_entries entries]. rewrite lookup_insert_eq. cbn [waiters].
  destruct (waiters e); [destruct (_ <? _)|]; cbn;
    by rewrite ?lookup_insert_ne, ?lookup_delete_ne, ?lookup_insert_ne.
Qed.

(** What a release leaves at a key that was owned, from its entry alone. *)
Definition handed (e : LockEntry) (stamp visible_seq : Z) : option LockEntry :=
  match waiters e with
  | w :: ws => Some (mkEntry (w_txn w) stamp (List.filter (fun v => w_txn v <? w_txn w) ws))
  | [] => if visible_seq <? stamp then Some (mkEntry NO_OWNER stamp []) else None
  end.

Definition stamped (e : LockEntry) (committed_at : option Z) : Z :=
  match committed_at with Some seq => Z.max (last_commit_seq e) seq | None => last_commit_seq e end.

Lemma release_one_at txn ca vs t k e :
  entries t !! k = Some e -> owner e = txn ->
  entries (release_one txn ca vs t k) !! k = handed e (stamped e ca) vs.
Proof.
  intros Hk Ho. unfold release_one, hand_off, handed. rewrite Hk, Ho, Z.eqb_refl.
  cbn [set_entries entries]. rewrite lookup_insert_eq. cbn [waiters last_commit_seq].
  fold (stamped e ca). destruct (waiters e); [destruct (_ <? _)|]; cbn;
    by rewrite ?lookup_delete_eq, ?lookup_insert_eq.
Qed.

Lemma release_fold_at txn ca vs keys t k e :
  NoDup keys -> k ∈ keys -> entries t !! k = Some e -> owner e = txn ->
  entries (fold_left (release_one txn ca vs) keys t) !! k = handed e (stamped e ca) vs.
Proof.
  assert (Hother : forall ks t', k ∉ ks -> entries (fold_left (release_one txn ca vs) ks t') !! k = entries t' !! k).
  { induction ks as [|k' ks IH]; intros t' Hn; [done|]. cbn.
    rewrite IH, release_one_other; set_solver. }
  intros Hnd. revert t. induction Hnd as [|k' ks Hn Hnd IH]; intros t Hin Hk Ho; [by apply elem_of_nil in Hin|].
  cbn. apply elem_of_cons in Hin as [->|Hin].
  - rewrite Hother by done. by apply release_one_at.
  - apply IH; [done| |done]. rewrite release_one_other; [done|]. by intros ->.
Qed.

Lemma sweep_keeps vs t k e :
  entries t !! k = Some e -> ~ (owner e = NO_OWNER /\ last_commit_seq e <= vs) ->
  entries (sweep vs t) !! k = Some e.
Proof.
  intros Hk Hn. unfold sweep. destruct (_ <? _)%nat; [done|]. cbn. by apply map_lookup_filter_Some.
Qed.

Lemma sweep_none vs t k : entries t !! k = None -> entries (sweep vs t) !! k = None.
Proof.
  intros Hk. unfold sweep. destruct (_ <? _)%nat; [done|]. cbn. apply map_lookup_filter_None. by left.
Qed.

(** ** Properties *)

(** C19: Wait-die never deadlocks, FIFO hand-off included: in every reachable
    state the waits-for relation has no cycle, and every request that is still
    waiting is queued behind a chain of owners that ends at a transaction which
    waits for nobody and can therefore run to its release. *)
Theorem locks_no_deadlock c :
  lreachable c ->
  (forall t, ~ tc (waits_for c) t t) /\
  (forall cell t k, parked c !! cell = Some (t, k) -> acquire_wake k cell (table c) = None ->
     exists v, tc (waits_for c) t v /\ forall v', ~ waits_for c v v').
Proof.
  intros I%lreachable_inv. split.
  - intros t H. apply (tc_waits_for_older c t t I) in H. lia.
  - intros cell t k Hp Hw. pose proof I as [I' _].
    destruct (li_parked _ _ _ _ I' cell t k Hp) as [_ Hok]. unfold cell_ok, acquire_wake in *.
    destruct (cells (table c) !! cell) as [[]|] eqn:Ec; try done.
    destruct Hok as (e & He & _). apply (waits_for_ends c t (owner e) I). by exists cell, k, e.
Qed.

(** Transaction 5 holds one key; 2 then 4 wait for it. *)
Definition demo_locks : Locks :=
  do_acquire 4 (1, [x61]) (do_acquire 2 (1, [x61]) (do_acquire 5 (1, [x61]) locks_new)).

Lemma demo_locks_reachable : lreachable demo_locks.
Proof.
  eapply rtc_l; [apply (ls_acquire _ 5 (1, [x61])); [lia|by intros ? ? ?]|].
  eapply rtc_l; [apply (ls_acquire _ 2 (1, [x61])); [lia|by intros ? ? ?]|].
  eapply rtc_l; [apply (ls_acquire _ 4 (1, [x61])); [lia|]|apply rtc_refl].
  intros cell k H. change (parked _) with (<[1%nat := (2, (1, [x61]))]> (∅ : gmap nat (Z * LockKey))) in H.
  apply lookup_insert_Some in H as [[_ H]|[_ H]]; [congruence|done].
Qed.

Lemma locks_no_deadlock_witness :
  exists v, tc (waits_for demo_locks) 2 v /\ forall v', ~ waits_for demo_locks v v'.
Proof.
  apply (proj2 (locks_no_deadlock demo_locks demo_locks_reachable) 1%nat 2 (1, [x61])); reflexivity.
Defined.

(** C23: In every reachable state the lock table is consistent: the per-owner
    index lists exactly the keys each transaction owns; a queued request is
    older than the owner it waits for; a parked request that wakes to a grant
    owns its key; a key without owner has no waiters; and the count that
    triggers the sweep is the number of unowned entries. *)
Theorem lock_table_consistent c :
  lreachable c ->
  (forall o k, k ∈ held_of (table c) o <-> o <> NO_OWNER /\ holds o k (table c) = true) /\
  (forall k e w, entries (table c) !! k = Some e -> w ∈ waiters e -> w_txn w < owner e) /\
  (forall cell t k r, parked c !! cell = Some (t, k) ->
     acquire_wake k cell (table c) = Some (Ok r) -> holds t k (table c) = true) /\
  (forall k e, entries (table c) !! k = Some e -> owner e = NO_OWNER -> waiters e = []) /\
  free_stamped (table c) = size (filter unowned (entries (table c))).
Proof.
  intros [I _]%lreachable_inv. unfold holds. conj_split.
  - intros o k. pose proof (li_held _ _ _ _ I o k) as H. rewrite elem_of_nil in H.
    destruct (entries (table c) !! k) as [e|]; [rewrite Z.eqb_eq|]; naive_solver.
  - apply (li_order _ _ _ _ I).
  - intros cell t k r Hp Hw. destruct (li_parked _ _ _ _ I cell t k Hp) as [_ Hok].
    unfold cell_ok, acquire_wake in *. destruct (cells (table c) !! cell) as [[]|]; try done.
    destruct Hok as (e & -> & <-). apply Z.eqb_refl.
  - intros k e He Ho. by eapply no_owner_no_waiters.
  - apply (li_free _ _ _ _ I).
Qed.

Lemma lock_table_consistent_witness : free_stamped (table demo_locks) = 0%nat.
Proof.
  pose proof (lock_table_consistent demo_locks demo_locks_reachable) as (_ & _ & _ & _ & H).
  rewrite H. reflexivity.
Defined.

(** C24: Releasing hands every key the transaction owned to the request that has
    waited longest, and among the rest keeps, in order, exactly those older
    than the new owner; a key nobody waits for survives only as an unowned
    entry whose commit is not yet visible.  The new owner reads the sequence
    its predecessor committed at. *)
Theorem release_hands_off_fifo c txn committed_at visible_seq k e :
  lreachable c -> 1 <= txn -> entries (table c) !! k = Some e -> owner e = txn ->
  entries (release_all txn committed_at visible_seq (table c)) !! k
  = handed e (stamped e committed_at) visible_seq.
Proof.
  intros [I _]%lreachable_inv Ht Hk Ho.
  assert (Hin : k ∈ held_of (table c) txn).
  { destruct (proj2 (li_held _ _ _ _ I txn k)) as [?|[_ ?%elem_of_nil]]; [|done|done].
    split; [unfold NO_OWNER; lia|eauto]. }
  pose proof (li_held_nodup _ _ _ _ I txn) as Hnd. unfold release_all, held_of in *.
  destruct (held (table c) !! txn) as [keys|]; [|by apply elem_of_nil in Hin]. cbn in Hin, Hnd.
  pose proof (release_fold_at txn committed_at visible_seq keys (set_held (delete txn) (table c)) k e
    Hnd Hin Hk Ho) as H.
  destruct (handed e (stamped e committed_at) visible_seq) as [e'|] eqn:E; [|by apply sweep_none].
  apply sweep_keeps; [done|]. intros [H1 H2]. unfold handed in E.
  destruct (waiters e) as [|w ws] eqn:Ew.
  - destruct (Z.ltb_spec visible_seq (stamped e committed_at)); [|done]. injection E as <-. cbn in H2. lia.
  - injection E as <-. cbn in H1. assert (Hw : w ∈ waiters e) by (rewrite Ew; left).
    destruct (li_queued _ _ _ _ I k e w Hk Hw) as [Hp _].
    apply (li_parked _ _ _ _ I) in Hp as [? _]. unfold NO_OWNER in H1. lia.
Qed.

Lemma release_hands_off_fifo_witness :
  entries (release_all 5 (Some 9) 0 (table demo_locks)) !! (1, [x61]) = Some (mkEntry 2 9 []).
Proof.
  rewrite (release_hands_off_fifo demo_locks 5 (Some 9) 0 (1, [x61])
    (mkEntry 5 0 [mkWaiter 2 1; mkWaiter 4 2])); [reflexivity|exact demo_locks_reachable|lia|reflexivity..].
Defined.
